(* ===== verification/_CoqProject ===== *)
-Q . S2P
Prelude.v
Endian.v
Varint.v
VarintParse.v
VarintCode.v
Coder.v
CoderProps.v
CoderSpec.v
CoderCopy.v
CoderOwn.v
DisjointSet.v
DisjointSetSpec.v
DisjointSetRun.v
PCQueue.v
PCQueueProps.v
PCQueueLive.v
PQ.v
PQSpec.v
PQRun.v
CircularBuffer.v
CircularBufferProps.v
CircularBufferMove.v
CircularBufferSpec.v
CircularBufferWorld.v
IntTypes.v
IntOps.v
IntOpsProps.v
IntSpec.v
Bits.v
TwoValues.v
IPAddr.v
IPOrder.v
IPRange.v
IPRangeProps.v
IPMask.v
IPSubtract.v
IPCover.v
IPText.v
IPPrint.v
IPParse.v
IPRoundTrip.v
Jenkins.v
IPEmbed.v
StdHeap.v
TopN.v
Interval.v
IntervalSet.v
IntervalSetProps.v
IntervalSetOps.v
IntervalSetPairs.v
IntervalSetDiff.v
IntervalSetUnion.v
IntervalSetSpec.v
IntervalMap.v
IntervalMapProps.v
IntervalMapMerge.v
IntervalMapSpec.v
ByteStream.v
ByteStreamProps.v
SplitText.v
Csv.v
CsvProps.v
CsvRoundTrip.v
Serialize.v
SerializeSpec.v
ConstantDivisor.v
Bitmap.v
BitmapBits.v
BitmapProps.v
BitmapQueries.v
BitmapOrder.v
BitmapIter.v
BitmapSpec.v
BitmapRun.v
BitmapOwn.v
BitmapOwnProps.v
Monitor.v
Semaphore.v
WaitQueue.v
OrderedQueue.v
