(* ===== verification/Prelude.v ===== *)
(** * A verification of gloop's core libraries

    gloop is a C++ base library.  This development models the parts of it that
    turn numbers into bytes and back, that compute with IP addresses and with
    integers of mixed types, and its containers and queues with a contract of
    their own:

    - byte order and unaligned access: [util/endian/endian.h];
    - variable-length integers: [util/coding/varint.{h,cc}], and two of them in
      one: [two-values-varint.{h,cc}];
    - [Encoder] and [Decoder]: [util/coding/coder.{h,cc}];
    - bit scans and bit fields: [util/bits/bits.h];
    - IP addresses, ranges and their text: [net/base/ipaddress.{h,cc}];
    - the Jenkins hashes and streaming hashers: [util/hash/jenkins.{h,cc}],
      [jenkins_lookup2.h], [hasher.{h,cc}] and [HashTo32] of [hash.h];
    - disjoint sets: [util/set/disjoint_set_forest.h];
    - priority queues with adjustable priorities: [util/pq/adjustable-heap.h] and
      [adjustable_priority_queue.h];
    - circular buffers: [util/gtl/circularbuffer.h];
    - intervals and interval sets: [util/gtl/interval.h] and [interval_set.h];
    - maps from intervals to values: [util/gtl/intervalmap.h];
    - the greatest elements of a stream: [util/gtl/top_n.h];
    - byte sources and sinks: [strings/bytestream.{h,cc}];
    - CSV text: [util/csv/parser.{h,cc}] and [writer.{h,cc}];
    - division by a constant: [util/math/constant_divisor.{h,cc}];
    - bitmaps: [util/bitmap/bitmap.h];
    - keys that sort like numbers, plain data and dictionaries: [strings/serialize.{h,cc}];
    - queues and semaphores of threads: [thread/pcqueue.h],
      [ordered-producer-consumer-queue.h], [prioritized_wait_queue.h] and
      [simple_weighted_semaphore.{h,cc}];
    - safe and saturated integer operations: [util/intops/safe_int_ops.h],
      [lossless_convert.h], [saturated_cast.h] and [saturated.h].

    They build on each other: varints and addresses load and store through the
    endian routines, encoders and decoders write and read varints and
    fixed-size numbers, ranges use the bit scans to find the widest subnet, the
    coercion of IPv6 addresses hashes bytes with [HashTo32], safe shifts end in
    lossless conversions, and CSV text is read from byte sources and written to
    byte sinks.

    ** How the code is modelled

    A function of the source is a Rocq function of the same name.  Integers are
    [Z] with the wrap-around of their width written out ([u8] ... [u128],
    [s16] ...); [IntTypes] has the integer types themselves, with promotions, the
    usual conversions and undefined overflow, for code that is generic in its
    types.  A buffer is the list of its bytes, a pointer into it an index;
    [load_bytes] and [store_bytes] are [UB] outside the buffer, so a theorem that
    a function returns [Ok] also shows that it stays inside its buffers.  Code
    that owns memory (encoders, circular buffers, bitmaps) threads a heap of blocks,
    with the allocator as a class of what the code relies on where it matters; a double delete, a delete of a wrong size, or
    using an object that is not there is [UB].  A call ends in an [outcome]: [Ok],
    [Crash] (a failed [CHECK], a [LOG(FATAL)]) or [UB].  The class [BuildMode] says
    whether [DCHECK], [assert] and [LOG(DFATAL)] are fatal (debug builds) or not
    ([NDEBUG]); the properties hold for both unless they say otherwise.
    Uninitialized arrays are arguments, so results are proved for every initial
    content.  An output argument written only on success is the [Some] of an
    [option]; where the code may write it on failure too, its old content is an
    argument and its new content part of the result.  The host is little-endian
    with 64-bit words.

    The queues and the semaphore of threads are transition systems: a step of a
    thread is what it does between acquiring the mutex and releasing or waiting, a
    wait ends with a signal, without one, or at its deadline, and the properties hold
    for all interleavings.  What the clock shows is an argument of a step.

    Code outside the repository is an argument with documented laws: the
    allocators, the order of priorities, the heap and sorting algorithms of the
    standard library ([StdHeap]), the ordered container under interval sets
    ([BtreeSet] in [IntervalSet]), [absl::StrSplit], the growth of strings, what
    moving from a value leaves behind.  Interfaces of the source with several
    implementations are classes as well ([ByteSource], [ByteSink]): the CSV
    parser and writer are proved against the laws, the sources and sinks satisfy
    them.

    ** Files

    - [Prelude] (this file): outcomes, integers, buffers, the tactics [zlia] and
      [bool_to_prop], the hint database [gloop], lemmas on bits, powers of two
      and byte strings.
    - [Endian]: byte swapping, [LittleEndian] and [BigEndian], their range and
      integral overloads.  Stores followed by loads give back the value and touch
      only their bytes.
    - [Varint], [VarintParse], [VarintCode]: the unrolled parsers and encoders of
      varints for both target families, skipping, appending and delta decoding.
      The parsers agree with one reference decoder, in value, length and
      failures, and invert the encoders.
    - [TwoValues]: two integers interleaved by nibbles in one varint of up to 128
      bits.  The decoders are the reference decoder and a split, the encoders its
      inverse, and an encoding that is cut short is refused.
    - [Coder]: [Encoder] and [Decoder] on a heap.  [CoderProps]: [enc_rep], what
      an encoder holds, and its operations.  [CoderSpec]: decoding what was
      encoded.  [CoderCopy]: the fast copy of a varint from a decoder against
      decoding and encoding.  [CoderOwn]: buffers are freed exactly once under any
      script over several encoders, moves between them and into themselves included.
    - [DisjointSet]: the forest with union by rank and path compression.
      [DisjointSetSpec]: trees and ranks; finding takes at most logarithmic
      depth.  [DisjointSetRun]: any script of operations answers like the
      equivalence closure of the unions, and where an answer departs from the
      comments.
    - [PCQueue]: the operations of the queue as steps.  [PCQueueProps]:
      the list of waiting readers and the invariant of the queue.
      [PCQueueLive]: all interleavings; first in first out, no failed
      check, and whenever a thread could go on, one that has been signalled or is
      running can.
    - [Monitor]: threads on an object with a mutex and condition variables, as a class;
      signals, sleeping for a reason, termination of woken threads, runs of abstract
      specifications.  [Semaphore]: the weighted semaphore is a throttle and loses
      no wake-up.  [WaitQueue]: the prioritized wait queue is a bag with a greatest
      element first and loses no wake-up.  [OrderedQueue]: elements are consumed in
      the order of their creation; which wake-ups are lost and which are not.
    - [PQ]: heap primitives and [AdjustablePriorityQueue].  [PQSpec], [PQRun]: the heap order and the indices stored in the elements
      survive every operation; the queue is a priority queue.
    - [CircularBuffer]: the buffer with its allocator, its iterators and comparison on
      a heap of slots.  [CircularBufferProps], [CircularBufferMove]: the
      sequence a buffer holds, operation by operation.  [CircularBufferSpec],
      [CircularBufferWorld]: scripts over many buffers refine bounded sequences with
      an allocator, whatever its traits, and leak nothing.
    - [StdHeap]: the heap algorithms of the standard library as an interface.
      [TopN]: the elements kept are the greatest, whatever the order of pushes,
      peeks and extractions.
    - [Interval]: intervals of integers.  [IntervalSet]: the sets, over an ordered
      container in which an iterator is a position.  [IntervalSetProps],
      [IntervalSetOps]: insertion, compaction and lookup on sorted disjoint lists.
      [IntervalSetPairs], [IntervalSetDiff]: the search for the
      next intersecting pair, and intersection and difference by it.
      [IntervalSetUnion]: the union of many sets with a heap, the insertion of
      integers.  [IntervalSetSpec]: scripts over many sets, a set as its own
      argument included, refine sets of integers.
    - [IntervalMap]: maps whose entries are intervals of keys, over an ordered container
      and an order of keys.  [IntervalMapProps]: arithmetic on abstract keys ([korder]);
      lists of entries as partial functions, splitting, erasing, setting and lookups.
      [IntervalMapMerge]: coalescing and merging.  [IntervalMapSpec]: scripts over many
      maps refine partial functions; coalesced maps are a normal form.
    - [ByteStream], [ByteStreamProps]: sources, sinks and their append buffers;
      what is appended is what arrives, and nothing of buffers that are filled and not
      used.
    - [SplitText]: splitting and joining text, shared by the files that parse.
    - [Csv]: the parser and the writer.  [CsvProps]: the records that the comments
      describe, by tokens of the whole text; the parser finds them, whatever the pieces
      of its source, but for one.  [CsvRoundTrip]: records written are records read.
    - [ConstantDivisor]: multiplication by a magic number is division.
    - [Bitmap]: bitmaps over words of any type.  [BitmapBits]: the bits of masked
      and converted words, and of arrays of words.  [BitmapProps], [BitmapQueries], [BitmapOrder],
      [BitmapIter]: each operation as a statement about single bits.  [BitmapSpec],
      [BitmapRun]: scripts over many bitmaps refine lists of bits.  [BitmapOwn],
      [BitmapOwnProps]: the arrays of words that bitmaps own, borrow,
      copy and hand over.
    - [Serialize]: keys of integers and floating-point bit patterns, plain data and
      dictionaries.  [SerializeSpec]: keys sort like numbers and read back; plain data
      and dictionaries round trip; what a text that is no dictionary does.
    - [IntTypes]: the integer types of C++.  [IntOps], [IntOpsProps], [IntSpec]: the
      operations are exact or report that the
      result does not fit.
    - [Bits]: logarithms, scans and bit fields, by number.
    - [IPAddr], [IPOrder]: [IPAddress] as the tagged union of the code,
      with the scope id packed into the bytes of the address.  [addr] is the
      abstract view (no address, an IPv4 number, an IPv6 number with scope) and
      [repr] the refinement; [repr_surj] and [repr_ok] relate it to the concrete
      invariant [ip_ok].  Comparison is a total order.
    - [IPRange], [IPRangeProps]: [IPRange] and its operations; a
      range refines an aligned block of numbers ([arange_ok], [mk_range]).
      Construction establishes the invariant, membership is an interval of the
      order, indexing is a bijection.
    - [IPMask]: net masks and packed strings round trip.
    - [IPSubtract]: [SubtractIPRange] partitions the set difference, of addresses of the
      scope that both ranges have.
    - [IPCover]: [IPAddressIntervalToSubnets] tiles an interval without scope ids exactly.
    - [IPText], [IPPrint], [IPParse], [IPRoundTrip]: printing into a buffer and
      the two parsers; text round trips, the parser is total and safe.
    - [Jenkins]: [mix] and its inverse, the string hashes, [Hasher32] and
      [Hasher64] over one class [HashWord] of word sizes; a hasher computes the
      hash of the concatenation.
    - [IPEmbed]: IPv4 addresses inside IPv6 addresses, normalization, coercion,
      loopback tests.

    Functions that exist in a 32-bit and a 64-bit copy of the same text (mix,
    string hashes, hashers, [Log2Ceiling]) are one definition with the width as
    an argument.

    ** Fuel and bounds

    Loops over a string or over array words recurse on the list.  The other loops
    take a fuel argument, and the theorems show that it is enough:
    [IPAddressIntervalToSubnets] ends within 258 iterations (each one fixes a bit
    of the start or of the end of the interval), the subtraction loops run once
    per bit of the prefix-length difference, the varint loops once per byte (ten
    at most, nineteen for two values, whose nibbles are interleaved in eight passes), [AddString] once per byte of its string, and text goes into the
    46 bytes ([INET6_ADDRSTRLEN]) of the source.  [InternalFindSet] has one more
    step than there are nodes and takes no more than the logarithm of the size of
    the set; the heap loops have the length of the heap, the loops over a circular
    buffer its size.  The loops over interval sets take a step per interval of the
    sets involved ([Difference] with a set one per pair of intervals), the union of
    many sets one per interval of them all, those over interval maps a step per entry, [CopyTo] one per byte at most, the CSV
    parser one per byte left in its source, the loops over bitmaps one per word, and the
    iterations over set bits one per bit.  A section of [AcquireAlways] passes its loop
    twice at most, one of [push_many] takes an element with every pass.  Counters are [int] or [int64_t]: disjoint sets are modelled
    up to 2^31 - 1 elements, the producer-consumer queue up to 2^63 - 1, the ordered queue
    for 2^62 steps; blocks have less than 2^63
    bytes or slots.

    ** Not modelled

    Code for big-endian hosts and the compiler-intrinsic variants of a routine
    whose portable version is modelled; scope ids in text (interface names come
    from the operating system), PTR names, colonless hex and range texts,
    [SocketAddress] and [sockaddr] conversion; random choice of addresses; logging
    text; [absl::Status] wrappers around functions that return [bool];
    floating-point conversions.  Interval sets are sets of unbounded integers ([T] is
    [Z], so [length] and [last_value + 1] do not overflow) and their iterators are
    positions, so a use of an iterator that the container has invalidated is not
    detected, except for the element that [Difference] takes by reference; a move is
    a copy.  Interval maps have keys in a total order, and their iterators are positions as
    well.  Bitmaps have non-atomic words and are not hashed; a borrowed array is used from
    its beginning.  NaN has no place in the order of keys.  Stopwatch readings are left in
    cycles.  Nothing is said about fairness: which of the woken threads runs next, and which
    sleeper a signal wakes, is arbitrary.  The rest of gloop (thread creation and pools,
    fibers, further containers, hashes and bit codes, strings, tracing) is
    outside this development.

    ** Plan

    What would come next: [SocketAddress], the remaining text forms and
    [host_port.cc]; the rest of [bits.h] and of [jenkins_lookup2.h]; the bit
    codes of [util/coding]; the other containers of [util/gtl]. *)
From Stdlib Require Import ZArith Lia String Ascii.
From stdpp Require Import base list numbers option strings list_numbers.
Local Open Scope Z_scope.

(** ** Outcomes *)

(** A call of the modelled code either returns, dies ([CHECK], [LOG(FATAL)],
    a hardening assertion), or has no defined behaviour (a read or a write
    outside the buffer, an [ABSL_ASSUME] that does not hold). *)
Inductive outcome (A : Type) : Type :=
| Ok (a : A)
| Crash
| UB.
Arguments Ok {A} _.
Arguments Crash {A}.
Arguments UB {A}.

#[global] Instance outcome_ret : MRet outcome := fun _ a => Ok a.
#[global] Instance outcome_bind : MBind outcome := fun _ _ f m =>
  match m with Ok a => f a | Crash => Crash | UB => UB end.
#[global] Instance outcome_fmap : FMap outcome := fun _ _ f m =>
  match m with Ok a => Ok (f a) | Crash => Crash | UB => UB end.

#[global] Instance outcome_eq_dec {A} `{EqDecision A} : EqDecision (outcome A).
Proof. solve_decision. Defined.

(** Build mode.  [NDEBUG] builds compile [DCHECK] away and only log on
    [LOG(DFATAL)]; debug builds die there. *)
Class BuildMode := { NDEBUG : bool }.

Definition debug_build : BuildMode := {| NDEBUG := false |}.
Definition opt_build : BuildMode := {| NDEBUG := true |}.

Definition DCHECK `{BuildMode} (b : bool) : outcome unit :=
  if NDEBUG || b then Ok tt else Crash.
Definition CHECK (b : bool) : outcome unit := if b then Ok tt else Crash.
Definition LOG_DFATAL `{BuildMode} : outcome unit := DCHECK false.

(** ** Machine integers *)

Definition u8 (x : Z) : Z := x mod 2 ^ 8.
Definition u16 (x : Z) : Z := x mod 2 ^ 16.
Definition u32 (x : Z) : Z := x mod 2 ^ 32.
Definition u64 (x : Z) : Z := x mod 2 ^ 64.
Definition u128 (x : Z) : Z := x mod 2 ^ 128.
(** Conversion to a signed [w]-bit type (two's complement). *)
Definition swrap (w x : Z) : Z := (x + 2 ^ (w - 1)) mod 2 ^ w - 2 ^ (w - 1).
Definition s8 (x : Z) : Z := swrap 8 x.
Definition s16 (x : Z) : Z := swrap 16 x.
Definition s32 (x : Z) : Z := swrap 32 x.
Definition s64 (x : Z) : Z := swrap 64 x.

(** [++] and [--] on an [int] and on an [int64_t]. *)
Definition int_incr (n : Z) : outcome Z := if n =? 2 ^ 31 - 1 then UB else Ok (n + 1).
Definition int_decr (n : Z) : outcome Z := if n =? - 2 ^ 31 then UB else Ok (n - 1).
Definition int64_incr (n : Z) : outcome Z := if n =? 2 ^ 63 - 1 then UB else Ok (n + 1).
Definition int64_decr (n : Z) : outcome Z := if n =? - 2 ^ 63 then UB else Ok (n - 1).

Lemma swrap_small w x : 0 < w -> - 2 ^ (w - 1) <= x < 2 ^ (w - 1) -> swrap w x = x.
Proof.
  intros Hw Hx. unfold swrap. rewrite Z.mod_small; [lia|].
  pose proof (Z.pow_succ_r 2 (w - 1) ltac:(lia)) as E. replace (Z.succ (w - 1)) with w in E by lia. lia.
Qed.

Definition zlen {A} (l : list A) : Z := Z.of_nat (List.length l).
Definition byte_ok (b : Z) : Prop := 0 <= b < 256.
Definition bytes_ok (l : list Z) : Prop := Forall byte_ok l.

#[global] Instance byte_ok_dec b : Decision (byte_ok b).
Proof. unfold byte_ok. apply _. Defined.
#[global] Instance bytes_ok_dec l : Decision (bytes_ok l).
Proof. unfold bytes_ok. apply _. Defined.

(** Character and string literals as the bytes of their ASCII codes. *)
Definition ch (a : ascii) : Z := Z.of_N (N_of_ascii a).
Fixpoint str (s : string) : list Z :=
  match s with
  | EmptyString => []
  | String a s' => ch a :: str s'
  end.

(** ** Memory *)

(** A buffer is the list of its bytes; an address is an index in it. *)
Definition load8 (m : list Z) (p : Z) : outcome Z :=
  if p <? 0 then UB
  else match m !! Z.to_nat p with Some b => Ok b | None => UB end.

Definition store8 (m : list Z) (p b : Z) : outcome (list Z) :=
  if p <? 0 then UB
  else if p <? zlen m then Ok (<[Z.to_nat p := b]> m) else UB.

(** Little-endian value of a byte string, and the first [n] bytes of a value. *)
Fixpoint le_load (l : list Z) : Z :=
  match l with
  | [] => 0
  | b :: l' => b + 256 * le_load l'
  end.

Fixpoint le_store (n : nat) (x : Z) : list Z :=
  match n with
  | O => []
  | S n' => x mod 256 :: le_store n' (x / 256)
  end.

(** [memcpy] out of and into a buffer. *)
Definition load_bytes (m : list Z) (p : Z) (n : nat) : outcome (list Z) :=
  if (0 <=? p) && (p + Z.of_nat n <=? zlen m)
  then Ok (take n (drop (Z.to_nat p) m)) else UB.

Definition store_bytes (m : list Z) (p : Z) (l : list Z) : outcome (list Z) :=
  if (0 <=? p) && (p + zlen l <=? zlen m)
  then Ok (take (Z.to_nat p) m ++ l ++ drop (Z.to_nat p + List.length l) m)
  else UB.

Definition be_load (l : list Z) : Z := le_load (rev l).
Definition be_store (n : nat) (x : Z) : list Z := rev (le_store n x).

(** ** Automation *)

Ltac zlia := Z.to_euclidean_division_equations; lia.

(** Splits boolean tests of the goal or the context into arithmetic facts. *)
Ltac bool_to_prop :=
  repeat match goal with
  | H : andb _ _ = true |- _ => apply andb_true_iff in H; destruct H
  | H : orb _ _ = false |- _ => apply orb_false_iff in H; destruct H
  | H : negb _ = true |- _ => apply negb_true_iff in H
  | H : negb _ = false |- _ => apply negb_false_iff in H
  | H : (_ <? _) = true |- _ => apply Z.ltb_lt in H
  | H : (_ <? _) = false |- _ => apply Z.ltb_ge in H
  | H : (_ <=? _) = true |- _ => apply Z.leb_le in H
  | H : (_ <=? _) = false |- _ => apply Z.leb_gt in H
  | H : (_ =? _) = true |- _ => apply Z.eqb_eq in H
  | H : (_ =? _) = false |- _ => apply Z.eqb_neq in H
  | H : (_ >? _) = true |- _ => rewrite Z.gtb_ltb in H
  | H : (_ >? _) = false |- _ => rewrite Z.gtb_ltb in H
  | H : (_ >=? _) = true |- _ => rewrite Z.geb_leb in H
  | H : (_ >=? _) = false |- _ => rewrite Z.geb_leb in H
  end.

(** Case analysis on the innermost comparison of the goal, with the decided
    branches closed by [lia]. *)
Ltac case_test :=
  match goal with
  | |- context [?a <? ?b] => destruct (Z.ltb_spec a b)
  | |- context [?a <=? ?b] => destruct (Z.leb_spec a b)
  | |- context [?a =? ?b] => destruct (Z.eqb_spec a b)
  | |- context [?a >? ?b] => rewrite (Z.gtb_ltb a b)
  | |- context [?a >=? ?b] => rewrite (Z.geb_leb a b)
  end; try lia.

(** Rewrites a test that the context decides. *)
Ltac decide_test :=
  match goal with
  | |- context [?a <? ?b] =>
      first [ rewrite (proj2 (Z.ltb_lt a b)) by lia
            | rewrite (proj2 (Z.ltb_ge a b)) by lia ]
  | |- context [?a <=? ?b] =>
      first [ rewrite (proj2 (Z.leb_le a b)) by lia
            | rewrite (proj2 (Z.leb_gt a b)) by lia ]
  | |- context [?a =? ?b] =>
      first [ rewrite (proj2 (Z.eqb_eq a b)) by lia
            | rewrite (proj2 (Z.eqb_neq a b)) by lia ]
  | |- context [?a >? ?b] => rewrite (Z.gtb_ltb a b); decide_test
  | |- context [?a >=? ?b] => rewrite (Z.geb_leb a b); decide_test
  end.

Create HintDb gloop.
Create Rewrite HintDb gloop.

(** ** Outcome lemmas *)

#[global] Instance Ok_inj {A} : Inj (=) (=) (@Ok A).
Proof. by intros x y [= ->]. Qed.

Lemma bind_Ok {A B} (a : A) (f : A -> outcome B) : (Ok a ≫= f) = f a.
Proof. reflexivity. Qed.

Lemma DCHECK_true `{BuildMode} : DCHECK true = Ok tt.
Proof. unfold DCHECK. by rewrite orb_true_r. Qed.

#[export] Hint Rewrite @bind_Ok @DCHECK_true : gloop.

(** ** Powers of two and bit operations *)

Lemma pow2_pos k : 0 <= k -> 0 < 2 ^ k.
Proof. intros. apply Z.pow_pos_nonneg; lia. Qed.
#[export] Hint Resolve pow2_pos : gloop.

Lemma pow2_split a b : 0 <= a <= b -> 2 ^ b = 2 ^ (b - a) * 2 ^ a.
Proof. intros. rewrite <- Z.pow_add_r by lia. f_equal. lia. Qed.

Lemma testbit_small x k i : 0 <= x < 2 ^ k -> k <= i -> Z.testbit x i = false.
Proof.
  intros Hx Hi. destruct (Z.ltb_spec k 0) as [|Hk].
  { rewrite Z.pow_neg_r in Hx by lia. lia. }
  rewrite <- (Z.mod_small x (2 ^ k)) by lia. apply Z.mod_pow2_bits_high. lia.
Qed.

Lemma testbit_mul_pow2 x k i : 0 <= k -> 0 <= i ->
  Z.testbit (x * 2 ^ k) i = (k <=? i) && Z.testbit x (i - k).
Proof.
  intros. destruct (Z.leb_spec k i); simpl.
  - by rewrite Z.mul_pow2_bits by lia.
  - by rewrite Z.mul_pow2_bits_low by lia.
Qed.

(** Disjoint bit fields: or is addition. *)
Lemma lor_disjoint a b k : 0 <= k -> 0 <= a < 2 ^ k ->
  Z.lor a (b * 2 ^ k) = a + b * 2 ^ k.
Proof.
  intros Hk Ha. symmetry. apply Z.add_nocarry_lor.
  apply Z.bits_inj'; intros i Hi.
  rewrite Z.land_spec, testbit_mul_pow2, Z.bits_0 by lia.
  destruct (Z.leb_spec k i); simpl; rewrite ?andb_false_r; auto.
  by rewrite (testbit_small a k).
Qed.

Lemma lor_shiftl_disjoint a b k : 0 <= k -> 0 <= a < 2 ^ k ->
  Z.lor a (Z.shiftl b k) = a + b * 2 ^ k.
Proof. intros. rewrite Z.shiftl_mul_pow2 by lia. by apply lor_disjoint. Qed.

(** Clearing the low [k] bits. *)
Lemma land_clear_low x k : 0 <= k ->
  Z.land x (Z.shiftl (-1) k) = x / 2 ^ k * 2 ^ k.
Proof.
  intros Hk. apply Z.bits_inj'. intros i Hi.
  rewrite Z.land_spec, Z.shiftl_spec, testbit_mul_pow2 by lia.
  destruct (Z.leb_spec k i); simpl.
  - rewrite Z.bits_m1, andb_true_r by lia. rewrite Z.div_pow2_bits by lia.
    f_equal. lia.
  - by rewrite (Z.testbit_neg_r (-1)), andb_false_r by lia.
Qed.

(** The same with a mask of [w] bits, as the code writes it: [~0 << k]. *)
Lemma land_mask x w k : 0 <= k <= w -> 0 <= x < 2 ^ w ->
  Z.land x ((2 ^ w - 1) * 2 ^ k mod 2 ^ w) = x / 2 ^ k * 2 ^ k.
Proof.
  intros Hk Hx. rewrite <- land_clear_low by lia.
  apply Z.bits_inj'. intros i Hi. rewrite !Z.land_spec.
  destruct (Z.ltb_spec i w).
  - f_equal. rewrite Z.mod_pow2_bits_low, testbit_mul_pow2, Z.shiftl_spec by lia.
    destruct (Z.leb_spec k i); simpl.
    + rewrite Z.bits_m1 by lia.
      change (2 ^ w - 1) with (Z.pred (2 ^ w)). rewrite <- Z.ones_equiv.
      apply Z.ones_spec_low. lia.
    + by rewrite (Z.testbit_neg_r (-1)) by lia.
  - by rewrite (testbit_small x w) by lia.
Qed.

Lemma land_7f b : Z.land b 127 = b mod 128.
Proof. exact (Z.land_ones b 7 ltac:(lia)). Qed.
Lemma land_ff b : Z.land b 255 = b mod 256.
Proof. exact (Z.land_ones b 8 ltac:(lia)). Qed.
Lemma land_0f b : Z.land b 15 = b mod 16.
Proof. exact (Z.land_ones b 4 ltac:(lia)). Qed.

(** Setting all the low [k] bits of a multiple of [2^k]. *)
Lemma lor_low_ones x k : 0 <= k -> x mod 2 ^ k = 0 ->
  Z.lor x (2 ^ k - 1) = x + 2 ^ k - 1.
Proof.
  intros Hk Hx. pose proof (pow2_pos k Hk).
  rewrite (Z.div_mod x (2 ^ k)) at 1 by lia. rewrite Hx, Z.add_0_r.
  rewrite Z.lor_comm, (Z.mul_comm (2 ^ k)), lor_disjoint by lia.
  pose proof (Z.div_mod x (2 ^ k)). lia.
Qed.

Lemma mod_mod_le x a b : 0 <= a <= b -> (x mod 2 ^ b) mod 2 ^ a = x mod 2 ^ a.
Proof.
  intros H. rewrite (pow2_split a b) by lia.
  pose proof (pow2_pos a). pose proof (pow2_pos (b - a)).
  rewrite Z.mul_comm, Z.rem_mul_r by lia.
  rewrite Z.mul_comm, Z.mod_add by lia. apply Z.mod_mod. lia.
Qed.

(** ** Lists *)

Lemma zlen_nil {A} : zlen (@nil A) = 0.
Proof. reflexivity. Qed.
Lemma zlen_cons {A} (x : A) l : zlen (x :: l) = zlen l + 1.
Proof. unfold zlen. simpl. lia. Qed.
Lemma zlen_app {A} (l k : list A) : zlen (l ++ k) = zlen l + zlen k.
Proof. unfold zlen. rewrite length_app. lia. Qed.
Lemma zlen_insert {A} (l : list A) i x : zlen (<[i := x]> l) = zlen l.
Proof. unfold zlen. rewrite length_insert. reflexivity. Qed.
Lemma zlen_nonneg {A} (l : list A) : 0 <= zlen l.
Proof. unfold zlen. lia. Qed.
Lemma zlen_0 {A} (l : list A) : zlen l = 0 -> l = [].
Proof. unfold zlen. destruct l; simpl; [done|lia]. Qed.
#[export] Hint Rewrite @zlen_nil @zlen_cons @zlen_app : gloop.
#[export] Hint Resolve zlen_nonneg : gloop.

Lemma bytes_ok_nil : bytes_ok [].
Proof. constructor. Qed.
Lemma bytes_ok_cons b l : bytes_ok (b :: l) <-> byte_ok b /\ bytes_ok l.
Proof. apply Forall_cons. Qed.
Lemma bytes_ok_app l k : bytes_ok (l ++ k) <-> bytes_ok l /\ bytes_ok k.
Proof. apply Forall_app. Qed.
Lemma bytes_ok_rev l : bytes_ok l -> bytes_ok (rev l).
Proof. intros. apply Forall_rev. done. Qed.
Lemma bytes_ok_take n l : bytes_ok l -> bytes_ok (take n l).
Proof. apply Forall_take. Qed.
Lemma bytes_ok_drop n l : bytes_ok l -> bytes_ok (drop n l).
Proof. apply Forall_drop. Qed.
Lemma bytes_ok_lookup l i b : bytes_ok l -> l !! i = Some b -> byte_ok b.
Proof. intros Hl. by apply Forall_lookup_1. Qed.
#[export] Hint Resolve bytes_ok_nil bytes_ok_rev bytes_ok_take bytes_ok_drop : gloop.

(** Reading and writing at an offset into the tail of a buffer. *)
Lemma load8_app pre l i : 0 <= i ->
  load8 (pre ++ l) (zlen pre + i) =
  match l !! Z.to_nat i with Some b => Ok b | None => UB end.
Proof.
  intros Hi. unfold load8, zlen. decide_test.
  rewrite lookup_app_r by lia.
  by replace (Z.to_nat (Z.of_nat (List.length pre) + i) - List.length pre)%nat
    with (Z.to_nat i) by lia.
Qed.

Lemma load8_0 pre b l : load8 (pre ++ b :: l) (zlen pre) = Ok b.
Proof. pose proof (load8_app pre (b :: l) 0 ltac:(lia)) as H. by rewrite Z.add_0_r in H. Qed.

Lemma load8_ok m p b : load8 m p = Ok b -> 0 <= p < zlen m.
Proof.
  unfold load8, zlen. destruct (Z.ltb_spec p 0); [done|].
  destruct (m !! Z.to_nat p) eqn:E; [|done]. apply lookup_lt_Some in E. lia.
Qed.

Lemma load8_in m p : 0 <= p < zlen m -> bytes_ok m ->
  exists b, load8 m p = Ok b /\ byte_ok b.
Proof.
  unfold load8, zlen. intros Hp Hm. decide_test.
  destruct (m !! Z.to_nat p) as [b|] eqn:E.
  - exists b. split; [done|]. eapply bytes_ok_lookup; eauto.
  - apply lookup_ge_None in E. lia.
Qed.

Lemma store8_app pre c l b : store8 (pre ++ c :: l) (zlen pre) b = Ok (pre ++ b :: l).
Proof.
  unfold store8. pose proof (zlen_nonneg pre). decide_test.
  rewrite zlen_app, zlen_cons. pose proof (zlen_nonneg l). decide_test.
  f_equal. replace (Z.to_nat (zlen pre)) with (List.length pre + 0)%nat
    by (unfold zlen; lia).
  by rewrite insert_app_r.
Qed.

(** ** Byte strings as integers *)

Lemma le_load_app l k : le_load (l ++ k) = le_load l + 2 ^ (8 * zlen l) * le_load k.
Proof.
  induction l as [|b l IH]; simpl.
  { change (zlen []) with 0. lia. }
  rewrite IH, zlen_cons. replace (8 * (zlen l + 1)) with (8 + 8 * zlen l) by lia.
  pose proof (zlen_nonneg l). rewrite Z.pow_add_r by lia. lia.
Qed.

Lemma le_load_bound l : bytes_ok l -> 0 <= le_load l < 2 ^ (8 * zlen l).
Proof.
  induction l as [|b l IH]; simpl; intros H.
  { change (zlen []) with 0. lia. }
  apply bytes_ok_cons in H as [Hb Hl]. specialize (IH Hl). unfold byte_ok in Hb.
  rewrite zlen_cons. replace (8 * (zlen l + 1)) with (8 + 8 * zlen l) by lia.
  pose proof (zlen_nonneg l). rewrite Z.pow_add_r by lia. lia.
Qed.

Lemma length_le_store n x : List.length (le_store n x) = n.
Proof. revert x. induction n; simpl; auto. Qed.
Lemma length_be_store n x : List.length (be_store n x) = n.
Proof. unfold be_store. rewrite length_rev. apply length_le_store. Qed.
#[export] Hint Rewrite length_le_store length_be_store : gloop.
Lemma zlen_be_store n x : zlen (be_store n x) = Z.of_nat n.
Proof. unfold zlen. by rewrite length_be_store. Qed.
Lemma zlen_le_store n x : zlen (le_store n x) = Z.of_nat n.
Proof. unfold zlen. by rewrite length_le_store. Qed.

Lemma le_store_ok n x : bytes_ok (le_store n x).
Proof.
  revert x. induction n as [|n IH]; intros x; simpl; [constructor|].
  apply bytes_ok_cons. split; [apply Z.mod_pos_bound; lia | apply IH].
Qed.
Lemma be_store_ok n x : bytes_ok (be_store n x).
Proof. apply bytes_ok_rev, le_store_ok. Qed.
#[export] Hint Resolve le_store_ok be_store_ok : gloop.

Lemma le_store_load l n : bytes_ok l -> List.length l = n -> le_store n (le_load l) = l.
Proof.
  intros H <-. induction l as [|b l IH]; simpl; [done|].
  apply bytes_ok_cons in H as [Hb Hl]. unfold byte_ok in Hb.
  f_equal; [zlia|]. etransitivity; [|exact (IH Hl)]. f_equal. zlia.
Qed.

Lemma le_load_store n x : le_load (le_store n x) = x mod 2 ^ (8 * Z.of_nat n).
Proof.
  revert x. induction n as [|n IH]; intros x; simpl le_store; simpl le_load.
  { rewrite Z.mul_0_r, Z.pow_0_r, Z.mod_1_r. done. }
  rewrite IH. replace (8 * Z.of_nat (S n)) with (8 + 8 * Z.of_nat n) by lia.
  rewrite Z.pow_add_r, Z.rem_mul_r by lia. done.
Qed.

Lemma be_store_load l n : bytes_ok l -> List.length l = n -> be_store n (be_load l) = l.
Proof.
  intros. unfold be_store, be_load.
  rewrite le_store_load by (auto with gloop; by rewrite length_rev).
  apply rev_involutive.
Qed.

Lemma be_load_store n x : be_load (be_store n x) = x mod 2 ^ (8 * Z.of_nat n).
Proof. unfold be_store, be_load. rewrite rev_involutive. apply le_load_store. Qed.

Lemma be_load_bound l : bytes_ok l -> 0 <= be_load l < 2 ^ (8 * zlen l).
Proof.
  intros H. unfold be_load.
  pose proof (le_load_bound (rev l) (bytes_ok_rev l H)) as B.
  unfold zlen in *. by rewrite length_rev in B.
Qed.

Lemma be_load_app l k : be_load (l ++ k) = be_load l * 2 ^ (8 * zlen k) + be_load k.
Proof.
  unfold be_load. rewrite rev_app_distr, le_load_app.
  unfold zlen. rewrite length_rev. lia.
Qed.

(** Comparison by bytes, as [std::string] does it. *)
Fixpoint string_compare (l k : list Z) : comparison :=
  match l, k with
  | [], [] => Eq
  | [], _ => Lt
  | _, [] => Gt
  | x :: l, y :: k => match x ?= y with Eq => string_compare l k | c => c end
  end.

Lemma be_load_cons b l : be_load (b :: l) = b * 2 ^ (8 * zlen l) + be_load l.
Proof. change (b :: l) with ([b] ++ l). rewrite be_load_app. unfold be_load. simpl. lia. Qed.

(** Strings of one length compare like their big-endian values. *)
Lemma string_compare_be l : forall k, bytes_ok l -> bytes_ok k -> length l = length k ->
  string_compare l k = (be_load l ?= be_load k).
Proof.
  induction l as [|x l IH]; intros [|y k] Hl Hk He; try done. simpl in He. injection He as He.
  apply bytes_ok_cons in Hl as [Hx Hl]. apply bytes_ok_cons in Hk as [Hy Hk].
  simpl. rewrite !be_load_cons. pose proof (be_load_bound l Hl) as Hbl.
  pose proof (be_load_bound k Hk) as Hbk. unfold zlen in *. rewrite He in *.
  set (p := 2 ^ (8 * Z.of_nat (length k))) in *. symmetry.
  destruct (Z.compare_spec x y) as [->|Hlt|Hgt].
  - rewrite IH by auto. destruct (Z.compare_spec (be_load l) (be_load k));
      [apply Z.compare_eq_iff | apply Z.compare_lt_iff | apply Z.compare_gt_iff]; lia.
  - apply Z.compare_lt_iff. assert ((x + 1) * p <= y * p) by (apply Z.mul_le_mono_nonneg_r; lia).
    lia.
  - apply Z.compare_gt_iff. assert ((y + 1) * p <= x * p) by (apply Z.mul_le_mono_nonneg_r; lia).
    lia.
Qed.

Lemma le_load_inj l k : bytes_ok l -> bytes_ok k -> List.length l = List.length k ->
  le_load l = le_load k -> l = k.
Proof.
  intros Hl Hk Hn E. rewrite <- (le_store_load l _ Hl eq_refl).
  rewrite E, Hn. by apply le_store_load.
Qed.

Lemma be_load_inj l k : bytes_ok l -> bytes_ok k -> List.length l = List.length k ->
  be_load l = be_load k -> l = k.
Proof.
  intros Hl Hk Hn E. rewrite <- (be_store_load l _ Hl eq_refl).
  rewrite E, Hn. by apply be_store_load.
Qed.

(** ** Block reads and writes *)

Lemma load_bytes_ok (m : list Z) p n : 0 <= p -> p + Z.of_nat n <= zlen m ->
  exists l, load_bytes m p n = Ok l /\ List.length l = n /\
    l = take n (drop (Z.to_nat p) m).
Proof.
  intros Hp Hn. unfold load_bytes. repeat decide_test. simpl.
  eexists. split; [done|]. split; [|done].
  rewrite length_take, length_drop. unfold zlen in Hn. lia.
Qed.

Lemma load_bytes_app pre l post n : n = List.length l ->
  load_bytes (pre ++ l ++ post) (zlen pre) n = Ok l.
Proof.
  intros ->. unfold load_bytes.
  pose proof (zlen_nonneg pre). pose proof (zlen_nonneg post).
  rewrite !zlen_app. fold (zlen l). repeat decide_test. simpl.
  unfold zlen. rewrite Nat2Z.id, drop_app_length, take_app_length. done.
Qed.

Lemma store_bytes_app pre old l post : List.length old = List.length l ->
  store_bytes (pre ++ old ++ post) (zlen pre) l = Ok (pre ++ l ++ post).
Proof.
  intros E. unfold store_bytes.
  pose proof (zlen_nonneg pre). pose proof (zlen_nonneg post).
  rewrite !zlen_app. assert (zlen old = zlen l) by (unfold zlen; lia).
  repeat decide_test. simpl. f_equal. unfold zlen. rewrite Nat2Z.id.
  rewrite take_app_length, <- E, (app_assoc pre old post), <- length_app.
  by rewrite drop_app_length.
Qed.

(** Every in-range address splits the buffer. *)
Lemma buffer_split (m : list Z) p n : 0 <= p -> p + Z.of_nat n <= zlen m ->
  exists pre l post, m = pre ++ l ++ post /\ zlen pre = p /\ List.length l = n.
Proof.
  intros Hp Hn. unfold zlen in *.
  exists (take (Z.to_nat p) m), (take n (drop (Z.to_nat p) m)),
    (drop n (drop (Z.to_nat p) m)).
  rewrite !take_drop. split; [done|]. rewrite !length_take, length_drop. lia.
Qed.

Lemma bytes_ok_load_bytes m p n l : bytes_ok m -> load_bytes m p n = Ok l -> bytes_ok l.
Proof.
  unfold load_bytes. intros Hm. case_match; [|done]. intros [= <-].
  by apply bytes_ok_take, bytes_ok_drop.
Qed.
