(* ===== verification/Endian.v ===== *)
(** * Byte order: gloop/util/endian/endian.h

    The host is little-endian, as on the two supported architectures (x86_64
    and ARM64).  [UNALIGNED_LOADn] and [UNALIGNED_STOREn] are [memcpy]s between
    a buffer and a host integer.  The two classes of the header are the
    modules [LittleEndian] and [BigEndian]; the template parameter
    [EndianClass] of [endian_internal] is the type class [EndianClass], whose
    laws the generic [LoadInteger] and [StoreInteger] are proved against. *)
From Stdlib Require Import ZArith Lia.
From stdpp Require Import base list numbers.
From S2P Require Import Prelude.
Local Open Scope Z_scope.

(** [absl::byteswap] on an [n]-byte integer. *)
Definition byteswap (n : nat) (x : Z) : Z := le_load (rev (le_store n x)).

Definition gbswap_16 (x : Z) : Z := byteswap 2 x.
Definition gbswap_32 (x : Z) : Z := byteswap 4 x.
Definition gbswap_64 (x : Z) : Z := byteswap 8 x.

(** [absl::MakeUint128], [absl::Uint128High64], [absl::Uint128Low64]. *)
Definition MakeUint128 (hi lo : Z) : Z := hi * 2 ^ 64 + lo.
Definition Uint128High64 (x : Z) : Z := x / 2 ^ 64.
Definition Uint128Low64 (x : Z) : Z := x mod 2 ^ 64.

Definition gbswap_128 (x : Z) : Z :=
  MakeUint128 (byteswap 8 (Uint128Low64 x)) (byteswap 8 (Uint128High64 x)).

Definition ghtons (x : Z) : Z := byteswap 2 x.
Definition ghtonl (x : Z) : Z := byteswap 4 x.
Definition ghtonll (x : Z) : Z := byteswap 8 x.
Definition gntohs (x : Z) : Z := ghtons x.
Definition gntohl (x : Z) : Z := ghtonl x.
Definition gntohll (x : Z) : Z := ghtonll x.

(** Host loads and stores of [n] bytes. *)
Definition UNALIGNED_LOAD (n : nat) (m : list Z) (p : Z) : outcome Z :=
  l ← load_bytes m p n; Ok (le_load l).
Definition UNALIGNED_STORE (n : nat) (m : list Z) (p v : Z) : outcome (list Z) :=
  store_bytes m p (le_store n v).

(** The conversions that [endian_internal] expects of its template argument. *)
Class EndianClass := {
  FromHost16 : Z -> Z; ToHost16 : Z -> Z;
  FromHost32 : Z -> Z; ToHost32 : Z -> Z;
  FromHost64 : Z -> Z; ToHost64 : Z -> Z
}.

(** What the clients of an endian class rely on: the conversions stay in range
    and undo each other. *)
Class EndianLaws (E : EndianClass) := {
  FromHost16_range x : 0 <= x < 2 ^ 16 -> 0 <= FromHost16 x < 2 ^ 16;
  FromHost32_range x : 0 <= x < 2 ^ 32 -> 0 <= FromHost32 x < 2 ^ 32;
  FromHost64_range x : 0 <= x < 2 ^ 64 -> 0 <= FromHost64 x < 2 ^ 64;
  ToHost16_FromHost16 x : 0 <= x < 2 ^ 16 -> ToHost16 (FromHost16 x) = x;
  ToHost32_FromHost32 x : 0 <= x < 2 ^ 32 -> ToHost32 (FromHost32 x) = x;
  ToHost64_FromHost64 x : 0 <= x < 2 ^ 64 -> ToHost64 (FromHost64 x) = x
}.

#[global] Instance LittleEndianClass : EndianClass := {|
  FromHost16 x := x; ToHost16 x := x;
  FromHost32 x := x; ToHost32 x := x;
  FromHost64 x := x; ToHost64 x := x |}.

Definition BigEndianClass : EndianClass := {|
  FromHost16 := byteswap 2; ToHost16 := byteswap 2;
  FromHost32 := byteswap 4; ToHost32 := byteswap 4;
  FromHost64 := byteswap 8; ToHost64 := byteswap 8 |}.

(** The integral types of the unified API, by their size. *)
Inductive IntSize := Int8 | Int16 | Int32 | Int64.
#[global] Instance IntSize_eq_dec : EqDecision IntSize.
Proof. solve_decision. Defined.

Definition sizeof (s : IntSize) : nat :=
  match s with Int8 => 1 | Int16 => 2 | Int32 => 4 | Int64 => 8 end.

Section generic.
Context (E : EndianClass).

(** [endian_internal::LoadInteger<EndianClass, T>]. *)
Definition LoadInteger (s : IntSize) (m : list Z) (p : Z) : outcome Z :=
  match s with
  | Int8 => load8 m p
  | Int16 => x ← UNALIGNED_LOAD 2 m p; Ok (ToHost16 x)
  | Int32 => x ← UNALIGNED_LOAD 4 m p; Ok (ToHost32 x)
  | Int64 => x ← UNALIGNED_LOAD 8 m p; Ok (ToHost64 x)
  end.

(** [endian_internal::StoreInteger<EndianClass, T>]. *)
Definition StoreInteger (s : IntSize) (v : Z) (m : list Z) (p : Z) : outcome (list Z) :=
  match s with
  | Int8 => store8 m p v
  | Int16 => UNALIGNED_STORE 2 m p (FromHost16 v)
  | Int32 => UNALIGNED_STORE 4 m p (FromHost32 v)
  | Int64 => UNALIGNED_STORE 8 m p (FromHost64 v)
  end.

(** [GeneralFormatConverter<EndianClass, ValueType>::FromHost / ToHost] on an
    unsigned integral [ValueType]. *)
Definition GeneralFromHost (s : IntSize) (v : Z) : Z :=
  match s with
  | Int8 => u8 v
  | Int16 => FromHost16 (u16 v)
  | Int32 => FromHost32 (u32 v)
  | Int64 => FromHost64 (u64 v)
  end.

Definition GeneralToHost (s : IntSize) (v : Z) : Z :=
  match s with
  | Int8 => u8 v
  | Int16 => ToHost16 (u16 v)
  | Int32 => ToHost32 (u32 v)
  | Int64 => ToHost64 (u64 v)
  end.
End generic.

(** The overloads on a contiguous range assert its size before they use it. *)
Definition range_load (n : nat) (load : list Z -> Z -> outcome Z) (c : list Z) : outcome Z :=
  if Z.of_nat n <=? zlen c then load c 0 else Crash.
Definition range_store (n : nat) (store : list Z -> Z -> Z -> outcome (list Z))
    (c : list Z) (v : Z) : outcome (list Z) :=
  if Z.of_nat n <=? zlen c then store c 0 v else Crash.

Module LittleEndian.
Section LittleEndian.
Context `{BuildMode}.
Definition Load16 (m : list Z) (p : Z) : outcome Z := UNALIGNED_LOAD 2 m p.
Definition Store16 (m : list Z) (p v : Z) : outcome (list Z) := UNALIGNED_STORE 2 m p v.

(** Three bytes copied into a zeroed 32-bit integer. *)
Definition Load24 (m : list Z) (p : Z) : outcome Z :=
  l ← load_bytes m p 3; Ok (le_load (l ++ [0])).
Definition Store24 (m : list Z) (p v : Z) : outcome (list Z) :=
  store_bytes m p (take 3 (le_store 4 v)).

Definition Load32 (m : list Z) (p : Z) : outcome Z := UNALIGNED_LOAD 4 m p.
Definition Store32 (m : list Z) (p v : Z) : outcome (list Z) := UNALIGNED_STORE 4 m p v.
Definition Load64 (m : list Z) (p : Z) : outcome Z := UNALIGNED_LOAD 8 m p.
Definition Store64 (m : list Z) (p v : Z) : outcome (list Z) := UNALIGNED_STORE 8 m p v.

Fixpoint Load64VariableLength_loop (src : list Z) (i : Z) (val : Z) : Z :=
  match src with
  | [] => val
  | b :: src' => Load64VariableLength_loop src' (i + 1)
                   (Z.lor val (u64 (Z.shiftl b (8 * i))))
  end.

(** [ABSL_ASSUME(len <= 8)]: undefined otherwise. *)
Definition Load64VariableLength (m : list Z) (p : Z) (len : nat) : outcome Z :=
  if (8 <? len)%nat then UB
  else src ← load_bytes m p len; Ok (Load64VariableLength_loop src 0 0).

(** A [memcpy] of [len] bytes out of the eight of [v], after the [assert]. *)
Definition Store64VariableLength (m : list Z) (p v : Z) (len : nat) : outcome (list Z) :=
  _ ← DCHECK (len <=? 8)%nat;
  if (8 <? len)%nat then UB else store_bytes m p (take len (le_store 8 v)).

Definition Load128 (m : list Z) (p : Z) : outcome Z :=
  hi ← UNALIGNED_LOAD 8 m (p + 8);
  lo ← UNALIGNED_LOAD 8 m p;
  Ok (MakeUint128 hi lo).
Definition Store128 (m : list Z) (p v : Z) : outcome (list Z) :=
  m1 ← UNALIGNED_STORE 8 m p (Uint128Low64 v);
  UNALIGNED_STORE 8 m1 (p + 8) (Uint128High64 v).

Definition Load128VariableLength (m : list Z) (p : Z) (len : nat) : outcome Z :=
  if (len <=? 8)%nat then Load64VariableLength m p len
  else hi ← Load64VariableLength m (p + 8) (len - 8);
       lo ← Load64 m p;
       Ok (MakeUint128 hi lo).

Definition Load16_range := range_load 2 Load16.
Definition Store16_range := range_store 2 Store16.
Definition Load24_range := range_load 3 Load24.
Definition Store24_range := range_store 3 Store24.
Definition Load32_range := range_load 4 Load32.
Definition Store32_range := range_store 4 Store32.
Definition Load64_range := range_load 8 Load64.
Definition Store64_range := range_store 8 Store64.
Definition Load128_range := range_load 16 Load128.
Definition Store128_range := range_store 16 Store128.

(** [uword_t] is 64 bits wide on the supported targets. *)
Definition LoadUnsignedWord (m : list Z) (p : Z) : outcome Z := Load64 m p.
Definition StoreUnsignedWord (m : list Z) (p v : Z) : outcome (list Z) := Store64 m p v.
Definition LoadUnsignedWord_range := range_load 8 LoadUnsignedWord.
Definition StoreUnsignedWord_range := range_store 8 StoreUnsignedWord.

(** The specializations [Load<bool>] and [Store<bool>]. *)
Definition LoadBool (m : list Z) (p : Z) : outcome bool := b ← load8 m p; Ok (negb (b =? 0)).
Definition StoreBool (m : list Z) (p : Z) (value : bool) : outcome (list Z) :=
  store8 m p (if value then 1 else 0).
End LittleEndian.
End LittleEndian.

Module BigEndian.
Section BigEndian.
Context `{BuildMode}.
Definition Load16 (m : list Z) (p : Z) : outcome Z :=
  x ← UNALIGNED_LOAD 2 m p; Ok (byteswap 2 x).
Definition Store16 (m : list Z) (p v : Z) : outcome (list Z) :=
  UNALIGNED_STORE 2 m p (byteswap 2 v).

Definition Load24 (m : list Z) (p : Z) : outcome Z :=
  b0 ← load8 m p;
  lo ← Load16 m (p + 1);
  Ok (u32 (Z.shiftl b0 16 + lo)).
Definition Store24 (m : list Z) (p v : Z) : outcome (list Z) :=
  m1 ← Store16 m (p + 1) (u16 v);
  store8 m1 p (u8 (Z.shiftr v 16)).

Definition Load32 (m : list Z) (p : Z) : outcome Z :=
  x ← UNALIGNED_LOAD 4 m p; Ok (byteswap 4 x).
Definition Store32 (m : list Z) (p v : Z) : outcome (list Z) :=
  UNALIGNED_STORE 4 m p (byteswap 4 v).
Definition Load64 (m : list Z) (p : Z) : outcome Z :=
  x ← UNALIGNED_LOAD 8 m p; Ok (byteswap 8 x).
Definition Store64 (m : list Z) (p v : Z) : outcome (list Z) :=
  UNALIGNED_STORE 8 m p (byteswap 8 v).

Fixpoint Load64VariableLength_loop (src : list Z) (val : Z) : Z :=
  match src with
  | [] => val
  | b :: src' => Load64VariableLength_loop src' (Z.lor (u64 (Z.shiftl val 8)) b)
  end.

(** The loop runs over the first eight bytes and skips those from [len] on. *)
Definition Load64VariableLength (m : list Z) (p : Z) (len : nat) : outcome Z :=
  _ ← DCHECK (len <=? 8)%nat;
  src ← load_bytes m p (len `min` 8); Ok (Load64VariableLength_loop src 0).

(** A [memcpy] of the last [len] of the eight bytes of [v], after the [assert]. *)
Definition Store64VariableLength (m : list Z) (p v : Z) (len : nat) : outcome (list Z) :=
  _ ← DCHECK (len <=? 8)%nat;
  if (8 <? len)%nat then UB
  else store_bytes m p (drop (8 - len) (le_store 8 (byteswap 8 v))).

Definition Load128 (m : list Z) (p : Z) : outcome Z :=
  hi ← Load64 m p; lo ← Load64 m (p + 8); Ok (MakeUint128 hi lo).
Definition Store128 (m : list Z) (p v : Z) : outcome (list Z) :=
  m1 ← Store64 m p (Uint128High64 v);
  Store64 m1 (p + 8) (Uint128Low64 v).

Definition Load128VariableLength (m : list Z) (p : Z) (len : nat) : outcome Z :=
  if (len <=? 8)%nat then Load64VariableLength m p len
  else if (len <? 16)%nat then
    hi ← Load64VariableLength m p (len - 8);
    lo ← Load64 m (p + Z.of_nat len - 8);
    Ok (MakeUint128 hi lo)
  else hi ← Load64 m p; lo ← Load64 m (p + 8); Ok (MakeUint128 hi lo).

Definition Load16_range := range_load 2 Load16.
Definition Store16_range := range_store 2 Store16.
Definition Load24_range := range_load 3 Load24.
Definition Store24_range := range_store 3 Store24.
Definition Load32_range := range_load 4 Load32.
Definition Store32_range := range_store 4 Store32.
Definition Load64_range := range_load 8 Load64.
Definition Store64_range := range_store 8 Store64.
Definition Load128_range := range_load 16 Load128.
Definition Store128_range := range_store 16 Store128.

(** [uword_t] is 64 bits wide on the supported targets. *)
Definition LoadUnsignedWord (m : list Z) (p : Z) : outcome Z := Load64 m p.
Definition StoreUnsignedWord (m : list Z) (p v : Z) : outcome (list Z) := Store64 m p v.
Definition LoadUnsignedWord_range := range_load 8 LoadUnsignedWord.
Definition StoreUnsignedWord_range := range_store 8 StoreUnsignedWord.

(** The specializations [Load<bool>] and [Store<bool>]. *)
Definition LoadBool (m : list Z) (p : Z) : outcome bool := b ← load8 m p; Ok (negb (b =? 0)).
Definition StoreBool (m : list Z) (p : Z) (value : bool) : outcome (list Z) :=
  store8 m p (if value then 1 else 0).
End BigEndian.
End BigEndian.

(** ** Byte swapping *)

Lemma byteswap_be_load n x : 0 <= x < 2 ^ (8 * Z.of_nat n) ->
  byteswap n x = be_load (le_store n x).
Proof. reflexivity. Qed.

Lemma byteswap_le_load l n : bytes_ok l -> List.length l = n ->
  byteswap n (le_load l) = be_load l.
Proof. intros H <-. unfold byteswap, be_load. by rewrite le_store_load. Qed.

Lemma byteswap_range n x : 0 <= byteswap n x < 2 ^ (8 * Z.of_nat n).
Proof.
  unfold byteswap.
  pose proof (le_load_bound (rev (le_store n x)) (bytes_ok_rev _ (le_store_ok n x))) as B.
  unfold zlen in B. by rewrite length_rev, length_le_store in B.
Qed.

Lemma le_store_byteswap n x : le_store n (byteswap n x) = be_store n x.
Proof.
  unfold byteswap, be_store. apply le_store_load; auto with gloop.
  by rewrite length_rev, length_le_store.
Qed.

Lemma byteswap_involutive n x : 0 <= x < 2 ^ (8 * Z.of_nat n) ->
  byteswap n (byteswap n x) = x.
Proof.
  intros Hx. unfold byteswap at 1. rewrite le_store_byteswap. unfold be_store.
  rewrite rev_involutive, le_load_store. by apply Z.mod_small.
Qed.

#[global] Instance LittleEndianLaws : EndianLaws LittleEndianClass.
Proof. split; simpl; auto. Qed.

#[global] Instance BigEndianLaws : EndianLaws BigEndianClass.
Proof.
  split; cbn -[byteswap Z.pow]; intros x Hx;
    solve [ apply (byteswap_range 2) | apply (byteswap_range 4) | apply (byteswap_range 8)
          | by apply byteswap_involutive ].
Qed.

(** ** Loads and stores at an address *)

Lemma UNALIGNED_LOAD_app pre l post n : n = List.length l ->
  UNALIGNED_LOAD n (pre ++ l ++ post) (zlen pre) = Ok (le_load l).
Proof. intros. unfold UNALIGNED_LOAD. by rewrite load_bytes_app. Qed.

Lemma UNALIGNED_STORE_app pre old post n v : List.length old = n ->
  UNALIGNED_STORE n (pre ++ old ++ post) (zlen pre) v = Ok (pre ++ le_store n v ++ post).
Proof.
  intros. unfold UNALIGNED_STORE. rewrite store_bytes_app; [done|].
  by rewrite length_le_store.
Qed.

Lemma UNALIGNED_STORE_LOAD pre old post n v : List.length old = n ->
  0 <= v < 2 ^ (8 * Z.of_nat n) ->
  exists m', UNALIGNED_STORE n (pre ++ old ++ post) (zlen pre) v = Ok m' /\
    m' = pre ++ le_store n v ++ post /\ UNALIGNED_LOAD n m' (zlen pre) = Ok v.
Proof.
  intros Hn Hv. eexists. rewrite UNALIGNED_STORE_app by done. split; [done|].
  split; [done|]. rewrite UNALIGNED_LOAD_app by (by rewrite length_le_store).
  by rewrite le_load_store, Z.mod_small.
Qed.

(** ** The unified API, against the interface *)

Section generic_theorems.
Context (E : EndianClass) {L : EndianLaws E}.

Lemma store_load_app pre old post s v :
  List.length old = sizeof s -> 0 <= v < 2 ^ (8 * Z.of_nat (sizeof s)) ->
  exists new, List.length new = sizeof s /\
    StoreInteger E s v (pre ++ old ++ post) (zlen pre) = Ok (pre ++ new ++ post) /\
    LoadInteger E s (pre ++ new ++ post) (zlen pre) = Ok v.
Proof.
  intros Hold Hv. destruct s; cbn -[Z.pow Z.mul UNALIGNED_LOAD UNALIGNED_STORE] in *.
  - destruct old as [|c [|]]; try done. exists [v]. split; [done|]. split.
    + apply store8_app.
    + apply load8_0.
  - exists (le_store 2 (FromHost16 v)). rewrite UNALIGNED_STORE_app by done.
    split; [done|]. split; [done|]. rewrite UNALIGNED_LOAD_app by done.
    rewrite bind_Ok, le_load_store, Z.mod_small by (by apply FromHost16_range).
    by rewrite ToHost16_FromHost16.
  - exists (le_store 4 (FromHost32 v)). rewrite UNALIGNED_STORE_app by done.
    split; [done|]. split; [done|]. rewrite UNALIGNED_LOAD_app by done.
    rewrite bind_Ok, le_load_store, Z.mod_small by (by apply FromHost32_range).
    by rewrite ToHost32_FromHost32.
  - exists (le_store 8 (FromHost64 v)). rewrite UNALIGNED_STORE_app by done.
    split; [done|]. split; [done|]. rewrite UNALIGNED_LOAD_app by done.
    rewrite bind_Ok, le_load_store, Z.mod_small by (by apply FromHost64_range).
    by rewrite ToHost64_FromHost64.
Qed.
End generic_theorems.

(** ** Big-endian loads as sums *)

Lemma BE_Load_app n pre l post : bytes_ok l -> List.length l = n ->
  (x ← UNALIGNED_LOAD n (pre ++ l ++ post) (zlen pre); Ok (byteswap n x)) = Ok (be_load l).
Proof.
  intros Hl Hn. rewrite UNALIGNED_LOAD_app by done.
  rewrite bind_Ok. by rewrite byteswap_le_load.
Qed.

Lemma BE_Store_app n pre old post v : List.length old = n ->
  UNALIGNED_STORE n (pre ++ old ++ post) (zlen pre) (byteswap n v) =
  Ok (pre ++ be_store n v ++ post).
Proof. intros. rewrite UNALIGNED_STORE_app by done. by rewrite le_store_byteswap. Qed.

Lemma LE_variable_loop l i val : bytes_ok l -> 0 <= i -> i + zlen l <= 8 ->
  0 <= val < 2 ^ (8 * i) ->
  LittleEndian.Load64VariableLength_loop l i val = val + 2 ^ (8 * i) * le_load l.
Proof.
  revert i val. induction l as [|b l IH]; intros i val Hl Hi Hn Hv; simpl; [lia|].
  apply bytes_ok_cons in Hl as [Hb Hl]. unfold byte_ok in Hb.
  rewrite zlen_cons in Hn. pose proof (zlen_nonneg l).
  assert (2 ^ (8 * (i + 1)) = 256 * 2 ^ (8 * i)) as E
    by (replace (8 * (i + 1)) with (8 + 8 * i) by lia; rewrite Z.pow_add_r by lia; lia).
  assert (2 ^ (8 * (i + 1)) <= 2 ^ 64) by (apply Z.pow_le_mono_r; lia).
  assert (u64 (Z.shiftl b (8 * i)) = b * 2 ^ (8 * i)) as ->.
  { rewrite Z.shiftl_mul_pow2 by lia. apply Z.mod_small. nia. }
  rewrite lor_disjoint by lia.
  rewrite IH by (auto; try lia; nia). rewrite E. lia.
Qed.

Lemma BE_variable_loop l val k : bytes_ok l -> 0 <= val < 2 ^ (8 * k) -> 0 <= k ->
  k + zlen l <= 8 ->
  BigEndian.Load64VariableLength_loop l val = val * 2 ^ (8 * zlen l) + be_load l.
Proof.
  revert val k. induction l as [|b l IH]; intros val k Hl Hv Hk Hn.
  { change (val = val * 2 ^ 0 + 0). lia. }
  apply bytes_ok_cons in Hl as [Hb Hl]. unfold byte_ok in Hb.
  rewrite zlen_cons in Hn. pose proof (zlen_nonneg l).
  assert (2 ^ (8 * (k + 1)) = 256 * 2 ^ (8 * k)) as E
    by (replace (8 * (k + 1)) with (8 + 8 * k) by lia; rewrite Z.pow_add_r by lia; lia).
  assert (2 ^ (8 * (k + 1)) <= 2 ^ 64) by (apply Z.pow_le_mono_r; lia).
  cbn [BigEndian.Load64VariableLength_loop].
  assert (u64 (Z.shiftl val 8) = val * 2 ^ 8) as ->.
  { rewrite Z.shiftl_mul_pow2 by lia. apply Z.mod_small. lia. }
  rewrite Z.lor_comm, lor_disjoint by lia.
  rewrite (IH _ (k + 1)) by (auto; lia).
  change (b :: l) with ([b] ++ l). rewrite be_load_app, zlen_app.
  change (be_load [b]) with (b + 256 * 0). change (zlen [b]) with 1.
  replace (8 * (1 + zlen l)) with (8 + 8 * zlen l) by lia.
  rewrite Z.pow_add_r by lia. lia.
Qed.

(** The bytes of [m] at [p]. *)
Definition bytes_at (m : list Z) (p : Z) (n : nat) : list Z := take n (drop (Z.to_nat p) m).

Lemma UNALIGNED_LOAD_at m p n : 0 <= p -> p + Z.of_nat n <= zlen m ->
  UNALIGNED_LOAD n m p = Ok (le_load (bytes_at m p n)).
Proof.
  intros Hp Hn. unfold UNALIGNED_LOAD.
  destruct (load_bytes_ok m p n Hp Hn) as (l & -> & _ & ->). done.
Qed.

Lemma length_bytes_at m p n : 0 <= p -> p + Z.of_nat n <= zlen m ->
  List.length (bytes_at m p n) = n.
Proof. intros. unfold bytes_at, zlen in *. rewrite length_take, length_drop. lia. Qed.

Lemma zlen_bytes_at m p n : 0 <= p -> p + Z.of_nat n <= zlen m ->
  zlen (bytes_at m p n) = Z.of_nat n.
Proof. intros. unfold zlen at 1. by rewrite length_bytes_at. Qed.

Lemma bytes_at_ok m p n : bytes_ok m -> bytes_ok (bytes_at m p n).
Proof. intros. by apply bytes_ok_take, bytes_ok_drop. Qed.
#[export] Hint Resolve bytes_at_ok : gloop.

Lemma bytes_at_app m p a b : 0 <= p ->
  bytes_at m p (a + b) = bytes_at m p a ++ bytes_at m (p + Z.of_nat a) b.
Proof.
  intros. unfold bytes_at.
  rewrite Z2Nat.inj_add, Nat2Z.id by lia.
  rewrite <- drop_drop. rewrite <- (take_drop a (drop (Z.to_nat p) m)) at 1.
  destruct (decide (a <= List.length (drop (Z.to_nat p) m))%nat) as [Ha|Ha].
  - rewrite take_app, length_take, Nat.min_l by lia.
    replace (a + b - a)%nat with b by lia.
    rewrite take_ge by (rewrite length_take; lia). done.
  - rewrite (take_ge _ a), (drop_ge _ a), app_nil_r by lia.
    rewrite (take_ge _ (a + b)) by lia. by rewrite take_nil, app_nil_r.
Qed.

Lemma BE_Load_at m p n : bytes_ok m -> 0 <= p -> p + Z.of_nat n <= zlen m ->
  (x ← UNALIGNED_LOAD n m p; Ok (byteswap n x)) = Ok (be_load (bytes_at m p n)).
Proof.
  intros Hm Hp Hn. rewrite UNALIGNED_LOAD_at by done. rewrite bind_Ok.
  rewrite byteswap_le_load; auto with gloop. by apply length_bytes_at.
Qed.

Lemma LE_Load64VariableLength_at m p len : bytes_ok m -> 0 <= p ->
  p + Z.of_nat len <= zlen m -> (len <= 8)%nat ->
  LittleEndian.Load64VariableLength m p len = Ok (le_load (bytes_at m p len)).
Proof.
  intros Hm Hp Hn Hlen. unfold LittleEndian.Load64VariableLength.
  rewrite (proj2 (Nat.ltb_ge 8 len)) by lia.
  destruct (load_bytes_ok m p len Hp Hn) as (l & -> & Hl & ->). rewrite bind_Ok.
  rewrite LE_variable_loop; [|by apply bytes_at_ok|lia|unfold zlen; lia|].
  - change (2 ^ (8 * 0)) with 1. f_equal. unfold bytes_at. lia.
  - change (2 ^ (8 * 0)) with 1. lia.
Qed.

Lemma BE_Load64VariableLength_at `{BuildMode} m p len : bytes_ok m -> 0 <= p ->
  p + Z.of_nat len <= zlen m -> (len <= 8)%nat ->
  BigEndian.Load64VariableLength m p len = Ok (be_load (bytes_at m p len)).
Proof.
  intros Hm Hp Hn Hlen. unfold BigEndian.Load64VariableLength.
  rewrite (proj2 (Nat.leb_le len 8)), DCHECK_true, bind_Ok, Nat.min_l by lia.
  destruct (load_bytes_ok m p len Hp Hn) as (l & -> & Hl & ->). rewrite bind_Ok.
  rewrite (BE_variable_loop _ _ 0); [|by apply bytes_at_ok| |lia|unfold zlen; lia].
  - done.
  - change (2 ^ (8 * 0)) with 1. lia.
Qed.

Lemma LE_split m p a b : 0 <= p -> p + Z.of_nat (a + b) <= zlen m ->
  le_load (bytes_at m p (a + b)) =
  le_load (bytes_at m (p + Z.of_nat a) b) * 2 ^ (8 * Z.of_nat a) + le_load (bytes_at m p a).
Proof.
  intros Hp Hn. rewrite bytes_at_app, le_load_app by done.
  rewrite zlen_bytes_at by lia. lia.
Qed.

Lemma BE_split m p a b : 0 <= p -> p + Z.of_nat (a + b) <= zlen m ->
  be_load (bytes_at m p (a + b)) =
  be_load (bytes_at m p a) * 2 ^ (8 * Z.of_nat b) + be_load (bytes_at m (p + Z.of_nat a) b).
Proof.
  intros Hp Hn. rewrite bytes_at_app, be_load_app by done.
  rewrite zlen_bytes_at by lia. lia.
Qed.

Lemma LE_Load128VariableLength_at m p len : bytes_ok m -> 0 <= p ->
  p + Z.of_nat len <= zlen m -> (len <= 16)%nat ->
  LittleEndian.Load128VariableLength m p len = Ok (le_load (bytes_at m p len)).
Proof.
  intros Hm Hp Hn Hlen. unfold LittleEndian.Load128VariableLength.
  destruct (Nat.leb_spec len 8) as [|H8].
  { by apply LE_Load64VariableLength_at. }
  rewrite LE_Load64VariableLength_at, bind_Ok by (auto; lia).
  unfold LittleEndian.Load64. rewrite UNALIGNED_LOAD_at by lia.
  rewrite bind_Ok. f_equal. unfold MakeUint128.
  replace len with (8 + (len - 8))%nat at 2 by lia.
  rewrite LE_split by lia. done.
Qed.

Lemma BE_Load128VariableLength_at `{BuildMode} m p len : bytes_ok m -> 0 <= p ->
  p + Z.of_nat len <= zlen m -> (len <= 16)%nat ->
  BigEndian.Load128VariableLength m p len = Ok (be_load (bytes_at m p len)).
Proof.
  intros Hm Hp Hn Hlen. unfold BigEndian.Load128VariableLength, BigEndian.Load64.
  destruct (Nat.leb_spec len 8) as [|H8].
  { by apply BE_Load64VariableLength_at. }
  destruct (Nat.ltb_spec len 16) as [H16|H16].
  - rewrite BE_Load64VariableLength_at, bind_Ok by (auto; lia).
    rewrite BE_Load_at by (auto; lia).
    rewrite bind_Ok. f_equal. unfold MakeUint128.
    replace len with ((len - 8) + 8)%nat at 3 by lia.
    rewrite BE_split by lia. do 3 f_equal. lia.
  - replace len with (8 + 8)%nat by lia.
    rewrite !BE_Load_at, !bind_Ok by (auto; lia). by rewrite BE_split by lia.
Qed.

Lemma BE_Load24_at m p : bytes_ok m -> 0 <= p -> p + 3 <= zlen m ->
  BigEndian.Load24 m p = Ok (be_load (bytes_at m p 3)).
Proof.
  intros Hm Hp Hn. unfold BigEndian.Load24, BigEndian.Load16.
  change 3%nat with (1 + 2)%nat. rewrite BE_split by lia.
  destruct (buffer_split m p 1) as (pre & l & post & -> & <- & Hl); [lia|lia|].
  destruct l as [|b [|]]; try done.
  change ([b] ++ post) with (b :: post) in *. rewrite load8_0, bind_Ok.
  rewrite BE_Load_at by (auto; lia). rewrite bind_Ok. f_equal.
  pose proof (be_load_bound _ (bytes_at_ok (pre ++ b :: post) (zlen pre + 1) 2 Hm)) as B.
  rewrite zlen_bytes_at in B by lia.
  assert (bytes_at (pre ++ b :: post) (zlen pre) 1 = [b]) as ->.
  { unfold bytes_at, zlen. by rewrite Nat2Z.id, drop_app_length. }
  change (be_load [b]) with (b + 256 * 0).
  apply bytes_ok_app in Hm as [_ Hm]. apply bytes_ok_cons in Hm as [Hb _].
  unfold byte_ok in Hb. rewrite Z.shiftl_mul_pow2 by lia.
  unfold u32. rewrite Z.mod_small by lia. f_equal. lia.
Qed.

(** ** Properties *)

(** Round trip of the unified API, for every endian class that keeps the
    interface's laws and every integral size: storing a value at an address
    inside the buffer succeeds, the load at that address returns the value,
    and no byte outside the written field changes. *)
Theorem StoreInteger_LoadInteger_roundtrip (E : EndianClass) (L : EndianLaws E) s v m p :
  0 <= v < 2 ^ (8 * Z.of_nat (sizeof s)) -> 0 <= p ->
  p + Z.of_nat (sizeof s) <= zlen m ->
  exists m', StoreInteger E s v m p = Ok m' /\ LoadInteger E s m' p = Ok v /\
    zlen m' = zlen m /\
    (forall i, i < p \/ p + Z.of_nat (sizeof s) <= i -> load8 m' i = load8 m i).
Proof.
  intros Hv Hp Hn.
  destruct (buffer_split m p (sizeof s) Hp Hn) as (pre & old & post & -> & <- & Hold).
  destruct (store_load_app E pre old post s v Hold Hv) as (new & Hnew & HS & HL).
  exists (pre ++ new ++ post). split; [done|]. split; [done|].
  assert (zlen new = zlen old) as El by (unfold zlen; lia).
  split; [rewrite !zlen_app; lia|]. intros i Hi. unfold load8. case_test; [done|].
  unfold zlen in *. rewrite !lookup_app.
  destruct (decide (Z.to_nat i < List.length pre)%nat) as [Hlt|Hge].
  { destruct (lookup_lt_is_Some_2 pre (Z.to_nat i) Hlt) as [x ->]. done. }
  rewrite (lookup_ge_None_2 pre) by lia.
  rewrite (lookup_ge_None_2 new), (lookup_ge_None_2 old) by lia.
  by rewrite Hnew, Hold.
Qed.

(** The theorem at a big-endian 32-bit store. *)
Lemma StoreInteger_LoadInteger_roundtrip_witness :
  exists m', StoreInteger BigEndianClass Int32 16909060 [9; 9; 9; 9; 9; 9] 1 = Ok m' /\
    LoadInteger BigEndianClass Int32 m' 1 = Ok 16909060 /\ zlen m' = zlen [9; 9; 9; 9; 9; 9] /\
    (forall i, i < 1 \/ 1 + Z.of_nat (sizeof Int32) <= i ->
       load8 m' i = load8 [9; 9; 9; 9; 9; 9] i).
Proof.
  apply (StoreInteger_LoadInteger_roundtrip BigEndianClass BigEndianLaws Int32
           16909060 [9; 9; 9; 9; 9; 9] 1);
    [split; by vm_compute | lia | by vm_compute].
Defined.

(** What the loads return.  At every address inside the buffer the
    big-endian loads of 16, 24, 32, 64 and 128 bits and the two
    variable-length loads return the big-endian value of the bytes there (the
    sum of [p[i] * 256^(len-1-i)]), and the little-endian ones the sum of
    [p[i] * 256^i]; no load faults. *)
Theorem endian_loads `{BuildMode} m p len : bytes_ok m -> 0 <= p -> p + 16 <= zlen m -> (len <= 16)%nat ->
  BigEndian.Load16 m p = Ok (be_load (bytes_at m p 2)) /\
  BigEndian.Load24 m p = Ok (be_load (bytes_at m p 3)) /\
  BigEndian.Load32 m p = Ok (be_load (bytes_at m p 4)) /\
  BigEndian.Load64 m p = Ok (be_load (bytes_at m p 8)) /\
  BigEndian.Load128 m p = Ok (be_load (bytes_at m p 16)) /\
  ((len <= 8)%nat -> BigEndian.Load64VariableLength m p len = Ok (be_load (bytes_at m p len))) /\
  BigEndian.Load128VariableLength m p len = Ok (be_load (bytes_at m p len)) /\
  LittleEndian.Load24 m p = Ok (le_load (bytes_at m p 3)) /\
  LittleEndian.Load128 m p = Ok (le_load (bytes_at m p 16)) /\
  ((len <= 8)%nat -> LittleEndian.Load64VariableLength m p len = Ok (le_load (bytes_at m p len))) /\
  LittleEndian.Load128VariableLength m p len = Ok (le_load (bytes_at m p len)).
Proof.
  intros Hm Hp Hn Hlen.
  unfold BigEndian.Load16, BigEndian.Load32, BigEndian.Load64, BigEndian.Load128,
    LittleEndian.Load24, LittleEndian.Load128.
  rewrite !BE_Load_at by (auto; lia). rewrite BE_Load24_at by (auto; lia).
  rewrite BE_Load128VariableLength_at, LE_Load128VariableLength_at by (auto; lia).
  repeat split; try done.
  - unfold BigEndian.Load64. rewrite !BE_Load_at, !bind_Ok by (auto; lia).
    unfold MakeUint128. change 16%nat with (8 + 8)%nat. by rewrite BE_split by lia.
  - intros. apply BE_Load64VariableLength_at; auto; lia.
  - destruct (load_bytes_ok m p 3 Hp ltac:(lia)) as (l & -> & _ & ->).
    rewrite bind_Ok, le_load_app. f_equal. simpl (le_load [0]). unfold bytes_at. lia.
  - rewrite !UNALIGNED_LOAD_at, !bind_Ok by lia.
    unfold MakeUint128. change 16%nat with (8 + 8)%nat. by rewrite LE_split by lia.
  - intros. apply LE_Load64VariableLength_at; auto; lia.
Qed.

(** The theorem at a 17-byte buffer, address 1, length 3. *)
Lemma endian_loads_witness :
  BigEndian.Load64VariableLength (H := debug_build) [7; 1; 2; 3; 4; 5; 6; 7; 8; 9; 10; 11; 12; 13; 14; 15; 16] 1 3
  = Ok (be_load [1; 2; 3]).
Proof.
  refine (proj1 (proj2 (proj2 (proj2 (proj2 (proj2
    (@endian_loads debug_build [7; 1; 2; 3; 4; 5; 6; 7; 8; 9; 10; 11; 12; 13; 14; 15; 16] 1 3 _ _ _ _)))))) _).
  - by apply (bool_decide_unpack _); vm_compute.
  - lia.
  - by vm_compute.
  - lia.
  - lia.
Defined.
