(* ===== verification/Varint.v ===== *)
(** * Variable-length integers: gloop/util/coding/varint.{h,cc}

    A buffer is a list of bytes, a [char*] an index in it; [nullptr] is [None]
    and the pair of the returned pointer and [*OUTPUT] is [Some (ptr, out)].
    A read or a write outside the buffer is [UB], so that memory safety is part
    of every theorem.  [assert] and [DCHECK] die in debug builds only
    ([BuildMode]).  The unrolled byte-by-byte code is translated statement by
    statement; both [#if defined(__x86_64__)] variants are modelled. *)
From Stdlib Require Import ZArith Lia.
From stdpp Require Import base list numbers option.
From S2P Require Import Prelude.
Local Open Scope Z_scope.

Definition kMax32 : Z := 5.
Definition kMax64 : Z := 10.

Abbreviation presult := (outcome (option (Z * Z))).
Abbreviation skipresult := (outcome (option Z)).

Section Varint.
Context `{BuildMode}.

(** [(byte & 127) << k] and [result |= ...] on a [w]-bit accumulator. *)
Definition bits7 (w byte k : Z) : Z := Z.shiftl (Z.land byte 127) k mod 2 ^ w.

(** ** Parsing forward *)

Definition Parse32FallbackInline (m : list Z) (p : Z) : presult :=
  byte ← load8 m p; let ptr := p + 1 in
  let result := Z.land byte 127 in
  _ ← DCHECK (byte >=? 128);
  byte ← load8 m ptr; let ptr := ptr + 1 in
  let result := Z.lor result (bits7 32 byte 7) in
  if byte <? 128 then Ok (Some (ptr, result)) else
  byte ← load8 m ptr; let ptr := ptr + 1 in
  let result := Z.lor result (bits7 32 byte 14) in
  if byte <? 128 then Ok (Some (ptr, result)) else
  byte ← load8 m ptr; let ptr := ptr + 1 in
  let result := Z.lor result (bits7 32 byte 21) in
  if byte <? 128 then Ok (Some (ptr, result)) else
  byte ← load8 m ptr; let ptr := ptr + 1 in
  let result := Z.lor result (bits7 32 byte 28) in
  if byte <? 16 then Ok (Some (ptr, result)) else
  Ok None.

Definition Parse32Fallback (m : list Z) (p : Z) : presult := Parse32FallbackInline m p.

Definition Parse32 (m : list Z) (p : Z) : presult :=
  byte ← load8 m p;
  if byte <? 128 then Ok (Some (p + 1, byte)) else Parse32Fallback m p.

Definition Parse32Inline (m : list Z) (p : Z) : presult :=
  byte ← load8 m p;
  if byte <? 128 then Ok (Some (p + 1, byte)) else Parse32FallbackInline m p.

(** The x86-64 routine.  [byte] is a sign-extended byte held in a [uint64_t];
    [ones] carries the ones that [SHLD] shifts in from the right. *)
Definition SHLD (n byte ones : Z) : Z :=
  u64 (Z.lor (Z.shiftl byte (n * 7)) (Z.shiftr ones (64 - n * 7))).

Definition load_s8 (m : list Z) (p : Z) : outcome Z := b ← load8 m p; Ok (s8 b).

(** The last step, [done10] included: [byte] is [ptr[9]] as a [uint64_t]. *)
Definition Parse64FallbackPair_byte9 (p res1 res2 res3 byte : Z) : option (Z * Z) :=
  if byte =? 1 then Some (p + 10, u64 (Z.land (Z.land res1 res2) res3))
  else if byte =? 0 then
    let res3 := s64 (Z.lxor (u64 res3) (Z.shiftl 1 63)) in
    Some (p + 10, u64 (Z.land (Z.land res1 res2) res3))
  else None.

Definition Parse64FallbackPair (m : list Z) (p res1 : Z) : presult :=
  _ ← DCHECK (Z.shiftr res1 7 =? -1);
  let ones := u64 res1 in
  byte ← load_s8 m (p + 1);
  let byte := SHLD 1 (u64 byte) ones in
  let sign_bit := s64 byte <? 0 in
  let res2 := s64 byte in
  if negb sign_bit then Ok (Some (p + 2, u64 (Z.land res1 res2))) else
  byte ← load_s8 m (p + 2);
  let byte := SHLD 2 (u64 byte) ones in
  let sign_bit := s64 byte <? 0 in
  let res3 := s64 byte in
  if negb sign_bit then Ok (Some (p + 3, u64 (Z.land (Z.land res1 res2) res3))) else
  byte ← load_s8 m (p + 3);
  let res1 := s64 (Z.land res1 (SHLD 3 (u64 byte) ones)) in
  if res1 >=? 0 then Ok (Some (p + 4, u64 (Z.land (Z.land res1 res2) res3))) else
  byte ← load_s8 m (p + 4);
  let res2 := s64 (Z.land res2 (SHLD 4 (u64 byte) ones)) in
  if res2 >=? 0 then Ok (Some (p + 5, u64 (Z.land (Z.land res1 res2) res3))) else
  byte ← load_s8 m (p + 5);
  let res3 := s64 (Z.land res3 (SHLD 5 (u64 byte) ones)) in
  if res3 >=? 0 then Ok (Some (p + 6, u64 (Z.land (Z.land res1 res2) res3))) else
  byte ← load_s8 m (p + 6);
  let res1 := s64 (Z.land res1 (SHLD 6 (u64 byte) ones)) in
  if res1 >=? 0 then Ok (Some (p + 7, u64 (Z.land (Z.land res1 res2) res3))) else
  byte ← load_s8 m (p + 7);
  let res2 := s64 (Z.land res2 (SHLD 7 (u64 byte) ones)) in
  if res2 >=? 0 then Ok (Some (p + 8, u64 (Z.land (Z.land res1 res2) res3))) else
  byte ← load_s8 m (p + 8);
  let res3 := s64 (Z.land res3 (SHLD 8 (u64 byte) ones)) in
  if res3 >=? 0 then Ok (Some (p + 9, u64 (Z.land (Z.land res1 res2) res3))) else
  byte ← load_s8 m (p + 9);
  Ok (Parse64FallbackPair_byte9 p res1 res2 res3 (u64 byte)).

Definition Parse64_x86 (m : list Z) (p : Z) : presult :=
  byte ← load_s8 m p;
  if byte >=? 0 then Ok (Some (p + 1, u64 byte))
  else Parse64FallbackPair m p byte.

(** The portable routine: three fragments of 28, 28 and 8 bits. *)
Definition done1 (ptr res1 res2 res3 : Z) : presult :=
  _ ← DCHECK (res2 =? 0); _ ← DCHECK (res3 =? 0); Ok (Some (ptr, res1)).
Definition done2 (ptr res1 res2 res3 : Z) : presult :=
  _ ← DCHECK (res3 =? 0); Ok (Some (ptr, Z.lor res1 (u64 (Z.shiftl res2 28)))).
Definition done3 (ptr res1 res2 res3 : Z) : presult :=
  Ok (Some (ptr, Z.lor (Z.lor res1 (u64 (Z.shiftl res2 28))) (u64 (Z.shiftl res3 56)))).

Definition Parse64Fallback (m : list Z) (p : Z) : presult :=
  byte ← load8 m p; let ptr := p + 1 in
  _ ← DCHECK (byte >=? 128);
  let res1 := Z.land byte 127 in
  byte ← load8 m ptr; let ptr := ptr + 1 in
  let res1 := Z.lor res1 (bits7 32 byte 7) in
  if byte <? 128 then done1 ptr res1 0 0 else
  byte ← load8 m ptr; let ptr := ptr + 1 in
  let res1 := Z.lor res1 (bits7 32 byte 14) in
  if byte <? 128 then done1 ptr res1 0 0 else
  byte ← load8 m ptr; let ptr := ptr + 1 in
  let res1 := Z.lor res1 (bits7 32 byte 21) in
  if byte <? 128 then done1 ptr res1 0 0 else
  byte ← load8 m ptr; let ptr := ptr + 1 in
  let res2 := Z.land byte 127 in
  if byte <? 128 then done2 ptr res1 res2 0 else
  byte ← load8 m ptr; let ptr := ptr + 1 in
  let res2 := Z.lor res2 (bits7 32 byte 7) in
  if byte <? 128 then done2 ptr res1 res2 0 else
  byte ← load8 m ptr; let ptr := ptr + 1 in
  let res2 := Z.lor res2 (bits7 32 byte 14) in
  if byte <? 128 then done2 ptr res1 res2 0 else
  byte ← load8 m ptr; let ptr := ptr + 1 in
  let res2 := Z.lor res2 (bits7 32 byte 21) in
  if byte <? 128 then done2 ptr res1 res2 0 else
  byte ← load8 m ptr; let ptr := ptr + 1 in
  let res3 := Z.land byte 127 in
  if byte <? 128 then done3 ptr res1 res2 res3 else
  byte ← load8 m ptr; let ptr := ptr + 1 in
  let res3 := Z.lor res3 (bits7 32 byte 7) in
  if byte <? 2 then done3 ptr res1 res2 res3 else
  Ok None.

Definition Parse64_portable (m : list Z) (p : Z) : presult :=
  byte ← load8 m p;
  if byte <? 128 then Ok (Some (p + 1, byte)) else Parse64Fallback m p.

(** [Varint::Parse64], by target. *)
Definition Parse64 (x86 : bool) (m : list Z) (p : Z) : presult :=
  if x86 then Parse64_x86 m p else Parse64_portable m p.

(** ** Parsing up to a limit *)

Definition Parse32WithLimit (m : list Z) (p l : Z) : presult :=
  let ptr := p in
  if ptr >=? l then Ok None else
  b ← load8 m ptr; let ptr := ptr + 1 in
  let result := Z.land b 127 in
  if b <? 128 then Ok (Some (ptr, result)) else
  if ptr >=? l then Ok None else
  b ← load8 m ptr; let ptr := ptr + 1 in
  let result := Z.lor result (bits7 32 b 7) in
  if b <? 128 then Ok (Some (ptr, result)) else
  if ptr >=? l then Ok None else
  b ← load8 m ptr; let ptr := ptr + 1 in
  let result := Z.lor result (bits7 32 b 14) in
  if b <? 128 then Ok (Some (ptr, result)) else
  if ptr >=? l then Ok None else
  b ← load8 m ptr; let ptr := ptr + 1 in
  let result := Z.lor result (bits7 32 b 21) in
  if b <? 128 then Ok (Some (ptr, result)) else
  if ptr >=? l then Ok None else
  b ← load8 m ptr; let ptr := ptr + 1 in
  let result := Z.lor result (bits7 32 b 28) in
  if b <? 16 then Ok (Some (ptr, result)) else
  Ok None.

(** The sum is taken in [uintptr_t], which wraps at the end of the address
    space. *)
Definition OffsetWithinLimit (ptr offset limit : Z) : bool :=
  u64 (ptr + offset) <=? limit.

(** The two bodies of the byte-at-a-time path differ in how they drop the
    continuation bit: by [& 127], or by adding [(b - 1) << k], which cancels
    the previous byte's 128. *)
Definition acc64 (x86 : bool) (result b k : Z) : Z :=
  if x86 then u64 (result + u64 (Z.shiftl (u64 (b - 1)) k))
  else Z.lor result (bits7 64 b k).

Definition Parse64WithLimit (x86 : bool) (m : list Z) (p l : Z) : presult :=
  if OffsetWithinLimit p kMax64 l then Parse64 x86 m p else
  let ptr := p in
  if ptr >=? l then Ok None else
  b ← load8 m ptr; let ptr := ptr + 1 in
  let result := if x86 then b else Z.land b 127 in
  if b <? 128 then Ok (Some (ptr, result)) else
  if ptr >=? l then Ok None else
  b ← load8 m ptr; let ptr := ptr + 1 in
  let result := acc64 x86 result b 7 in
  if b <? 128 then Ok (Some (ptr, result)) else
  if ptr >=? l then Ok None else
  b ← load8 m ptr; let ptr := ptr + 1 in
  let result := acc64 x86 result b 14 in
  if b <? 128 then Ok (Some (ptr, result)) else
  if ptr >=? l then Ok None else
  b ← load8 m ptr; let ptr := ptr + 1 in
  let result := acc64 x86 result b 21 in
  if b <? 128 then Ok (Some (ptr, result)) else
  if ptr >=? l then Ok None else
  b ← load8 m ptr; let ptr := ptr + 1 in
  let result := acc64 x86 result b 28 in
  if b <? 128 then Ok (Some (ptr, result)) else
  if ptr >=? l then Ok None else
  b ← load8 m ptr; let ptr := ptr + 1 in
  let result := acc64 x86 result b 35 in
  if b <? 128 then Ok (Some (ptr, result)) else
  if ptr >=? l then Ok None else
  b ← load8 m ptr; let ptr := ptr + 1 in
  let result := acc64 x86 result b 42 in
  if b <? 128 then Ok (Some (ptr, result)) else
  if ptr >=? l then Ok None else
  b ← load8 m ptr; let ptr := ptr + 1 in
  let result := acc64 x86 result b 49 in
  if b <? 128 then Ok (Some (ptr, result)) else
  if ptr >=? l then Ok None else
  b ← load8 m ptr; let ptr := ptr + 1 in
  let result := acc64 x86 result b 56 in
  if b <? 128 then Ok (Some (ptr, result)) else
  _ ← DCHECK (ptr =? l);
  Ok None.

(** ** Skipping *)

Definition Skip32 (m : list Z) (p : Z) : skipresult :=
  b ← load8 m p; if b <? 128 then Ok (Some (p + 1)) else
  b ← load8 m (p + 1); if b <? 128 then Ok (Some (p + 2)) else
  b ← load8 m (p + 2); if b <? 128 then Ok (Some (p + 3)) else
  b ← load8 m (p + 3); if b <? 128 then Ok (Some (p + 4)) else
  b ← load8 m (p + 4); if b <? 16 then Ok (Some (p + 5)) else
  Ok None.

Definition Skip32WithLimit (m : list Z) (p l : Z) : skipresult :=
  if p >=? l then Ok None else
  b ← load8 m p; if b <? 128 then Ok (Some (p + 1)) else
  if p + 1 >=? l then Ok None else
  b ← load8 m (p + 1); if b <? 128 then Ok (Some (p + 2)) else
  if p + 2 >=? l then Ok None else
  b ← load8 m (p + 2); if b <? 128 then Ok (Some (p + 3)) else
  if p + 3 >=? l then Ok None else
  b ← load8 m (p + 3); if b <? 128 then Ok (Some (p + 4)) else
  if p + 4 >=? l then Ok None else
  b ← load8 m (p + 4); if b <? 16 then Ok (Some (p + 5)) else
  Ok None.

Definition Skip64 (m : list Z) (p : Z) : skipresult :=
  b ← load8 m p; if b <? 128 then Ok (Some (p + 1)) else
  b ← load8 m (p + 1); if b <? 128 then Ok (Some (p + 2)) else
  b ← load8 m (p + 2); if b <? 128 then Ok (Some (p + 3)) else
  b ← load8 m (p + 3); if b <? 128 then Ok (Some (p + 4)) else
  b ← load8 m (p + 4); if b <? 128 then Ok (Some (p + 5)) else
  b ← load8 m (p + 5); if b <? 128 then Ok (Some (p + 6)) else
  b ← load8 m (p + 6); if b <? 128 then Ok (Some (p + 7)) else
  b ← load8 m (p + 7); if b <? 128 then Ok (Some (p + 8)) else
  b ← load8 m (p + 8); if b <? 128 then Ok (Some (p + 9)) else
  b ← load8 m (p + 9); if b <? 2 then Ok (Some (p + 10)) else
  Ok None.

Definition Skip64WithLimit (m : list Z) (p l : Z) : skipresult :=
  if p >=? l then Ok None else
  b ← load8 m p; if b <? 128 then Ok (Some (p + 1)) else
  if p + 1 >=? l then Ok None else
  b ← load8 m (p + 1); if b <? 128 then Ok (Some (p + 2)) else
  if p + 2 >=? l then Ok None else
  b ← load8 m (p + 2); if b <? 128 then Ok (Some (p + 3)) else
  if p + 3 >=? l then Ok None else
  b ← load8 m (p + 3); if b <? 128 then Ok (Some (p + 4)) else
  if p + 4 >=? l then Ok None else
  b ← load8 m (p + 4); if b <? 128 then Ok (Some (p + 5)) else
  if p + 5 >=? l then Ok None else
  b ← load8 m (p + 5); if b <? 128 then Ok (Some (p + 6)) else
  if p + 6 >=? l then Ok None else
  b ← load8 m (p + 6); if b <? 128 then Ok (Some (p + 7)) else
  if p + 7 >=? l then Ok None else
  b ← load8 m (p + 7); if b <? 128 then Ok (Some (p + 8)) else
  if p + 8 >=? l then Ok None else
  b ← load8 m (p + 8); if b <? 128 then Ok (Some (p + 9)) else
  if p + 9 >=? l then Ok None else
  b ← load8 m (p + 9); if b <? 2 then Ok (Some (p + 10)) else
  Ok None.

(** ** Backward *)

(** The [for] loop of [Skip{32,64}BackwardSlow], [i] iterations left. *)
Fixpoint SkipBackwardSlow_loop (m : list Z) (i : nat) (ptr base : Z) : skipresult :=
  match i with
  | O => Ok None
  | S i' =>
      if ptr =? base then Ok (Some ptr) else
      let ptr := ptr - 1 in
      b ← load8 m ptr;
      if b <? 128 then Ok (Some (ptr + 1)) else SkipBackwardSlow_loop m i' ptr base
  end.

Definition Skip32BackwardSlow (m : list Z) (p base : Z) : skipresult :=
  _ ← DCHECK (p >=? base);
  if p =? base then Ok None else
  let ptr := p - 1 in
  b ← load8 m ptr;
  if b >? 127 then Ok None else SkipBackwardSlow_loop m 5 ptr base.

Definition Skip64BackwardSlow (m : list Z) (p base : Z) : skipresult :=
  _ ← DCHECK (p >=? base);
  if p =? base then Ok None else
  let ptr := p - 1 in
  b ← load8 m ptr;
  if b >? 127 then Ok None else SkipBackwardSlow_loop m 10 ptr base.

Definition Skip32Backward (m : list Z) (p base : Z) : skipresult :=
  if p >? base + kMax32 then
    b ← load8 m (p - 1); if b >? 127 then Ok None else
    b ← load8 m (p - 2); if b <? 128 then Ok (Some (p - 1)) else
    b ← load8 m (p - 3); if b <? 128 then Ok (Some (p - 2)) else
    b ← load8 m (p - 4); if b <? 128 then Ok (Some (p - 3)) else
    b ← load8 m (p - 5); if b <? 128 then Ok (Some (p - 4)) else
    b ← load8 m (p - 6); if b <? 128 then Ok (Some (p - 5)) else
    Ok None
  else Skip32BackwardSlow m p base.

Definition Skip64Backward (m : list Z) (p base : Z) : skipresult :=
  if p >? base + kMax64 then
    b ← load8 m (p - 1); if b >? 127 then Ok None else
    b ← load8 m (p - 2); if b <? 128 then Ok (Some (p - 1)) else
    b ← load8 m (p - 3); if b <? 128 then Ok (Some (p - 2)) else
    b ← load8 m (p - 4); if b <? 128 then Ok (Some (p - 3)) else
    b ← load8 m (p - 5); if b <? 128 then Ok (Some (p - 4)) else
    b ← load8 m (p - 6); if b <? 128 then Ok (Some (p - 5)) else
    b ← load8 m (p - 7); if b <? 128 then Ok (Some (p - 6)) else
    b ← load8 m (p - 8); if b <? 128 then Ok (Some (p - 7)) else
    b ← load8 m (p - 9); if b <? 128 then Ok (Some (p - 8)) else
    b ← load8 m (p - 10); if b <? 128 then Ok (Some (p - 9)) else
    b ← load8 m (p - 11); if b <? 128 then Ok (Some (p - 10)) else
    Ok None
  else Skip64BackwardSlow m p base.

Definition Parse32BackwardSlow (m : list Z) (p base : Z) : presult :=
  prev ← Skip32BackwardSlow m p base;
  match prev with
  | None => Ok None
  | Some prev =>
      r ← Parse32 m prev;
      match r with None => Ok None | Some (_, out) => Ok (Some (prev, out)) end
  end.

Definition Parse64BackwardSlow (x86 : bool) (m : list Z) (p base : Z) : presult :=
  prev ← Skip64BackwardSlow m p base;
  match prev with
  | None => Ok None
  | Some prev =>
      r ← Parse64 x86 m prev;
      match r with None => Ok None | Some (_, out) => Ok (Some (prev, out)) end
  end.

(** [result <<= 7; result |= (byte & 127)] on a [w]-bit accumulator. *)
Definition push7 (w result byte : Z) : Z :=
  Z.lor (Z.shiftl result 7 mod 2 ^ w) (Z.land byte 127).

Definition Parse32Backward (m : list Z) (p base : Z) : presult :=
  if p >? base + kMax32 then
    byte ← load8 m (p - 1);
    if byte >? 127 then Ok None else
    let result := byte in
    byte ← load8 m (p - 2);
    if byte <? 128 then Ok (Some (p - 1, result)) else
    let result := push7 32 result byte in
    byte ← load8 m (p - 3);
    if byte <? 128 then Ok (Some (p - 2, result)) else
    let result := push7 32 result byte in
    byte ← load8 m (p - 4);
    if byte <? 128 then Ok (Some (p - 3, result)) else
    let result := push7 32 result byte in
    byte ← load8 m (p - 5);
    if byte <? 128 then Ok (Some (p - 4, result)) else
    let result := push7 32 result byte in
    byte ← load8 m (p - 6);
    if byte <? 128 then Ok (Some (p - 5, result)) else
    Ok None
  else Parse32BackwardSlow m p base.

Definition Parse64Backward (x86 : bool) (m : list Z) (p base : Z) : presult :=
  if p >? base + kMax64 then
    byte ← load8 m (p - 1);
    if byte >? 127 then Ok None else
    let res := byte in
    byte ← load8 m (p - 2);
    if byte <? 128 then Ok (Some (p - 1, res)) else
    let res := push7 64 res byte in
    byte ← load8 m (p - 3);
    if byte <? 128 then Ok (Some (p - 2, res)) else
    let res := push7 64 res byte in
    byte ← load8 m (p - 4);
    if byte <? 128 then Ok (Some (p - 3, res)) else
    let res := push7 64 res byte in
    byte ← load8 m (p - 5);
    if byte <? 128 then Ok (Some (p - 4, res)) else
    let res := push7 64 res byte in
    byte ← load8 m (p - 6);
    if byte <? 128 then Ok (Some (p - 5, res)) else
    let res := push7 64 res byte in
    byte ← load8 m (p - 7);
    if byte <? 128 then Ok (Some (p - 6, res)) else
    let res := push7 64 res byte in
    byte ← load8 m (p - 8);
    if byte <? 128 then Ok (Some (p - 7, res)) else
    let res := push7 64 res byte in
    byte ← load8 m (p - 9);
    if byte <? 128 then Ok (Some (p - 8, res)) else
    let res := push7 64 res byte in
    byte ← load8 m (p - 10);
    if byte <? 128 then Ok (Some (p - 9, res)) else
    let res := push7 64 res byte in
    byte ← load8 m (p - 11);
    if byte <? 128 then Ok (Some (p - 10, res)) else
    Ok None
  else Parse64BackwardSlow x86 m p base.
End Varint.

(** ** Encoding *)

(** A sequence of [*(ptr++) = b;]. *)
Fixpoint put_all (m : list Z) (ptr : Z) (bs : list Z) : outcome (list Z * Z) :=
  match bs with
  | [] => Ok (m, ptr)
  | b :: bs' => m' ← store8 m ptr b; put_all m' (ptr + 1) bs'
  end.

Definition Encode32Inline (m : list Z) (p v : Z) : outcome (list Z * Z) :=
  let B := 128 in
  if v <? Z.shiftl 1 7 then put_all m p [u8 v]
  else if v <? Z.shiftl 1 14 then
    put_all m p [u8 (Z.lor v B); u8 (Z.shiftr v 7)]
  else if v <? Z.shiftl 1 21 then
    put_all m p [u8 (Z.lor v B); u8 (Z.lor (Z.shiftr v 7) B); u8 (Z.shiftr v 14)]
  else if v <? Z.shiftl 1 28 then
    put_all m p [u8 (Z.lor v B); u8 (Z.lor (Z.shiftr v 7) B);
                 u8 (Z.lor (Z.shiftr v 14) B); u8 (Z.shiftr v 21)]
  else
    put_all m p [u8 (Z.lor v B); u8 (Z.lor (Z.shiftr v 7) B);
                 u8 (Z.lor (Z.shiftr v 14) B); u8 (Z.lor (Z.shiftr v 21) B);
                 u8 (Z.shiftr v 28)].

Definition Encode32 (m : list Z) (p v : Z) : outcome (list Z * Z) := Encode32Inline m p v.

Definition Encode64 (m : list Z) (p v : Z) : outcome (list Z * Z) :=
  if v <? Z.shiftl 1 28 then Encode32 m p (u32 v)
  else
    let x32 := u32 (Z.lor (Z.lor v (Z.shiftl 1 7)) (Z.shiftl 1 21)) in
    let y32 := u32 (Z.lor (Z.lor v (Z.shiftl 1 14)) (Z.shiftl 1 28)) in
    '(m, ptr) ← put_all m p [u8 x32; u8 (Z.shiftr y32 7);
                             u8 (Z.shiftr x32 14); u8 (Z.shiftr y32 21)];
    if v <? Z.shiftl 1 35 then put_all m ptr [u8 (Z.shiftr v 28)]
    else
      '(m, ptr) ← put_all m ptr [u8 (Z.lor (Z.shiftr v 28) (Z.shiftl 1 7))];
      Encode32 m ptr (u32 (Z.shiftr v 35)).

(** [absl::bit_width] and [absl::countl_zero] of a [digits]-bit value. *)
Definition bit_width (v : Z) : Z := if v =? 0 then 0 else Z.log2 v + 1.
Definition countl_zero (digits v : Z) : Z := digits - bit_width v.

(** The two bodies of [LengthImpl<T>], without and with a leading-zero-count
    instruction. *)
Definition LengthImpl_bit_width (v : Z) : Z := (bit_width (Z.lor v 1) * 9 + 64) / 64.
Definition LengthImpl_lzcnt (digits v : Z) : Z :=
  Z.shiftr (digits * 9 + 64 - countl_zero digits v * 9) 6.
Definition LengthImpl (lzcnt : bool) (digits v : Z) : Z :=
  if lzcnt then LengthImpl_lzcnt digits v else LengthImpl_bit_width v.
Definition Length32 (lzcnt : bool) (v : Z) : Z := LengthImpl lzcnt 32 v.
Definition Length64 (lzcnt : bool) (v : Z) : Z := LengthImpl lzcnt 64 v.

(** A [std::string]: its bytes and the capacity of its allocation. *)
Record cstring := { sbytes : list Z; scapacity : Z }.

(** The resize leaves indeterminate bytes that the encoder overwrites; they are
    zeros here.  [reserve] gives at least the capacity asked for. *)
Definition AppendSlow (encode : list Z -> Z -> Z -> outcome (list Z * Z))
    (len : Z) (s : cstring) (value : Z) : outcome cstring :=
  let start := zlen (sbytes s) in
  let new_size := start + len in
  let capacity := if new_size >? scapacity s
                  then Z.max new_size (2 * scapacity s) else scapacity s in
  '(buf, _) ← encode (sbytes s ++ replicate (Z.to_nat len) 0) start value;
  Ok {| sbytes := buf; scapacity := capacity |}.

Definition Append32Slow (lzcnt : bool) (s : cstring) (value : Z) : outcome cstring :=
  AppendSlow Encode32 (Length32 lzcnt value) s value.
Definition Append64Slow (lzcnt : bool) (s : cstring) (value : Z) : outcome cstring :=
  AppendSlow Encode64 (Length64 lzcnt value) s value.

Definition push_back (s : cstring) (b : Z) : cstring :=
  {| sbytes := sbytes s ++ [b]; scapacity := scapacity s |}.

Definition Append32 (lzcnt : bool) (s : cstring) (value : Z) : outcome cstring :=
  if (value <? 128) && (zlen (sbytes s) <? scapacity s)
  then Ok (push_back s (u8 value)) else Append32Slow lzcnt s value.

Definition Append64 (lzcnt : bool) (s : cstring) (value : Z) : outcome cstring :=
  if (value <? 128) && (zlen (sbytes s) <? scapacity s)
  then Ok (push_back s (u8 value)) else Append64Slow lzcnt s value.

(** ** Sums of deltas *)

(** The [do ... while] loop; [fuel] bounds the bytes it may read.  Running out
    of fuel is [UB], as is running off the buffer. *)
Fixpoint FastDecodeDeltas_loop (fuel : nat) (m : list Z) (ptr sum shift : Z)
    : outcome (Z * Z) :=
  match fuel with
  | O => UB
  | S fuel' =>
      b ← load8 m ptr; let ptr := ptr + 1 in
      let value := s8 b in
      let sum := s64 (sum + s64 (Z.shiftl (Z.land value 127) shift)) in
      let shift := shift + 7 in
      let shift := Z.land shift (Z.shiftr value 7) in
      if Z.lor sum value <? 0 then FastDecodeDeltas_loop fuel' m ptr sum shift
      else Ok (ptr, sum)
  end.

Definition FastDecodeDeltas (m : list Z) (ptr goal : Z) : outcome (Z * Z) :=
  '(ptr, sum) ← FastDecodeDeltas_loop (S (List.length m)) m ptr (- goal) 0;
  Ok (ptr, s64 (goal + sum)).
