(* ===== verification/VarintParse.v ===== *)
(** * Varint parsing: the reference semantics and its refinement

    [varint] is the base-128 encoding and [vparse] a reference parser; the
    lemmas of this file show that each unrolled routine of varint.{h,cc} that
    parses or skips forward, on either target, computes [vparse]. *)
From Stdlib Require Import ZArith Lia.
From stdpp Require Import base list numbers option.
From S2P Require Import Prelude.
From S2P Require Import Varint.
Local Open Scope Z_scope.

(** ** Reference semantics *)

(** The base-128 encoding, least significant group first, with the high bit
    set on every byte but the last.  Ten groups hold any 64-bit value. *)
Fixpoint varint_bytes (fuel : nat) (v : Z) : list Z :=
  match fuel with
  | O => []
  | S fuel' =>
      if v <? 128 then [v] else (v mod 128 + 128) :: varint_bytes fuel' (v / 128)
  end.
Definition varint (v : Z) : list Z := varint_bytes 10 v.

(** A reference parser: at most [k] bytes, the [k]-th below [top].  It returns
    the number of bytes and the value; a parse that needs a byte past the end
    is [UB]. *)
Fixpoint vparse (k : nat) (top : Z) (l : list Z) : presult :=
  match k, l with
  | O, _ => Ok None
  | S _, [] => UB
  | S k', b :: l' =>
      if b <? (match k' with O => top | _ => 128 end) then Ok (Some (1, b))
      else r ← vparse k' top l';
           Ok (match r with
               | Some (n, v) => Some (n + 1, b mod 128 + 128 * v)
               | None => None
               end)
  end.

(** The same up to the end of [l], where a parse that runs out fails. *)
Definition vparse_limit (k : nat) (top : Z) (l : list Z) : option (Z * Z) :=
  match vparse k top l with Ok r => r | _ => None end.

Definition at_ptr (p : Z) (o : option (Z * Z)) : option (Z * Z) :=
  match o with Some (n, v) => Some (p + n, v) | None => None end.

(** ** Tactics for the unrolled code *)

Lemma load8_nth pre l n z : z = Z.of_nat n ->
  load8 (pre ++ l) (zlen pre + z) = match l !! n with Some b => Ok b | None => UB end.
Proof. intros ->. rewrite load8_app by lia. by rewrite Nat2Z.id. Qed.

Lemma load8_nth_0 pre l :
  load8 (pre ++ l) (zlen pre) = match l !! 0%nat with Some b => Ok b | None => UB end.
Proof. rewrite <- (load8_nth pre l 0 0) by done. by rewrite Z.add_0_r. Qed.

(** Collects [p + 1 + 1] into [p + 2]. *)
Ltac ptr_norm :=
  repeat match goal with
  | |- context [?a + Zpos ?x + Zpos ?y] =>
      let z := eval compute in (Zpos x + Zpos y) in
      replace (a + Zpos x + Zpos y) with (a + z) by lia
  end.

Lemma bind_load {A} pre l n z (k : Z -> outcome A) : z = Z.of_nat n ->
  (load8 (pre ++ l) (zlen pre + z) ≫= k) =
  match l !! n with Some b => k b | None => UB end.
Proof. intros. rewrite (load8_nth pre l n) by done. by destruct (l !! n). Qed.

Lemma bind_load_0 {A} pre l (k : Z -> outcome A) :
  (load8 (pre ++ l) (zlen pre) ≫= k) =
  match l !! 0%nat with Some b => k b | None => UB end.
Proof. rewrite <- (Z.add_0_r (zlen pre)) at 1. by apply bind_load. Qed.

(** Resolves the next read of the left-hand side. *)
Ltac rd :=
  ptr_norm;
  match goal with
  | |- (load8 (?pre ++ ?l) (zlen ?pre + Zpos ?x) ≫= _) = _ =>
      let n := eval compute in (Pos.to_nat x) in
      rewrite (bind_load pre l n (Zpos x)) by reflexivity
  | |- (load8 (?pre ++ ?l) (zlen ?pre) ≫= _) = _ => rewrite (bind_load_0 pre l)
  end; cbn [lookup list_lookup]; cbv beta zeta.

(** Splits the next byte off [l] and reads it; a parse that has no byte left is
    [UB] on both sides. *)
Ltac next_byte l Hl :=
  let b := fresh "b" in let Hb := fresh "Hb" in
  destruct l as [|b l]; [rd; reflexivity|];
  apply bytes_ok_cons in Hl as [Hb Hl]; unfold byte_ok in Hb; rd.

(** The bytes at a pointer. *)
Lemma ptr_split (m : list Z) p : 0 <= p <= zlen m ->
  exists pre l, m = pre ++ l /\ zlen pre = p /\ l = drop (Z.to_nat p) m.
Proof.
  intros Hp. exists (take (Z.to_nat p) m), (drop (Z.to_nat p) m).
  rewrite take_drop. split; [done|]. split; [|done].
  unfold zlen in *. rewrite length_take. lia.
Qed.

(** ** Accumulating groups of seven bits *)

Lemma bits7_small w b k : 0 <= k -> k + 7 <= w -> bits7 w b k = b mod 128 * 2 ^ k.
Proof.
  intros. unfold bits7. rewrite land_7f, Z.shiftl_mul_pow2 by lia.
  apply Z.mod_small. pose proof (Z.mod_pos_bound b 128 ltac:(lia)).
  assert (2 ^ (k + 7) <= 2 ^ w) by (apply Z.pow_le_mono_r; lia).
  rewrite Z.pow_add_r in * by lia. pose proof (pow2_pos k). nia.
Qed.

Lemma bits7_top w b k : 0 <= b < 128 -> 0 <= k -> b * 2 ^ k < 2 ^ w ->
  bits7 w b k = b * 2 ^ k.
Proof.
  intros. unfold bits7. rewrite land_7f, (Z.mod_small b) by lia.
  rewrite Z.shiftl_mul_pow2 by lia. apply Z.mod_small. pose proof (pow2_pos k). nia.
Qed.

Lemma lor_bits7 w a b k : 0 <= k -> k + 7 <= w -> 0 <= a < 2 ^ k ->
  Z.lor a (bits7 w b k) = a + b mod 128 * 2 ^ k.
Proof. intros. rewrite bits7_small by lia. by apply lor_disjoint. Qed.

Lemma lor_bits7_top w a b k : 0 <= b < 128 -> 0 <= k -> b * 2 ^ k < 2 ^ w ->
  0 <= a < 2 ^ k -> Z.lor a (bits7 w b k) = a + b * 2 ^ k.
Proof. intros. rewrite bits7_top by lia. by apply lor_disjoint. Qed.

(** Every byte below 128 is its own group; every other one is its group plus 128. *)
Lemma group_range b : 0 <= b mod 128 < 128.
Proof. apply Z.mod_pos_bound. lia. Qed.

Ltac groups :=
  repeat match goal with
  | |- context [?b mod 128] =>
      lazymatch goal with
      | _ : 0 <= b mod 128 < 128 |- _ => fail
      | _ => pose proof (group_range b)
      end
  end.

Ltac fields :=
  rewrite ?land_7f; groups;
  repeat (match goal with
          | |- context [Z.lor ?a (bits7 ?w ?b ?k)] =>
              first [rewrite (lor_bits7 w a b k) by lia
                    |rewrite (lor_bits7_top w a b k) by lia]
          end; groups);
  repeat match goal with
  | |- context [?b mod 128] => rewrite (Z.mod_small b 128) by lia
  end.

(** Closes [Ok (Some (p, v)) = Ok (Some (p', v'))] once the fields are sums. *)
Ltac same_result :=
  fields; cbn; f_equal; f_equal; f_equal; lia.

Ltac ltb_case b := destruct (Z.ltb_spec b 128).

(** ** The reference parser is what the code computes *)

Section parsing.
Context `{BuildMode}.

Lemma Parse32Fallback_vparse pre b0 l : bytes_ok (b0 :: l) -> 128 <= b0 ->
  Parse32Fallback (pre ++ b0 :: l) (zlen pre) =
  (r ← vparse 5 16 (b0 :: l); Ok (at_ptr (zlen pre) r)).
Proof.
  intros Hl Hb0. unfold Parse32Fallback, Parse32FallbackInline.
  apply bytes_ok_cons in Hl as [Hb Hl]; unfold byte_ok in Hb; rd.
  rewrite (proj2 (Z.geb_ge _ _)) by lia. rewrite DCHECK_true, bind_Ok.
  cbn [vparse]. rewrite (proj2 (Z.ltb_ge b0 128)) by lia.
  next_byte l Hl. ltb_case b. { same_result. }
  next_byte l Hl. ltb_case b1. { same_result. }
  next_byte l Hl. ltb_case b2. { same_result. }
  next_byte l Hl. destruct (Z.ltb_spec b3 16). { same_result. }
  done.
Qed.

Lemma Parse32_vparse pre l : bytes_ok l ->
  Parse32 (pre ++ l) (zlen pre) = (r ← vparse 5 16 l; Ok (at_ptr (zlen pre) r)).
Proof.
  intros Hl. unfold Parse32. destruct l as [|b l]; [by rd|]. rd.
  pose proof Hl as Hl'. apply bytes_ok_cons in Hl' as [Hb _]. unfold byte_ok in Hb.
  ltb_case b; [|by apply Parse32Fallback_vparse].
  cbn [vparse]. by rewrite (proj2 (Z.ltb_lt b 128)) by lia.
Qed.

Lemma lor_u64 a b k : 0 <= k -> 0 <= a < 2 ^ k -> 0 <= b -> b * 2 ^ k < 2 ^ 64 ->
  Z.lor a (u64 (Z.shiftl b k)) = a + b * 2 ^ k.
Proof.
  intros. rewrite Z.shiftl_mul_pow2 by lia. pose proof (pow2_pos k).
  unfold u64. rewrite Z.mod_small by nia. by apply lor_disjoint.
Qed.

Lemma done1_eq ptr r : done1 ptr r 0 0 = Ok (Some (ptr, r)).
Proof. unfold done1. rewrite !Z.eqb_refl, DCHECK_true. done. Qed.
Lemma done2_eq ptr r1 r2 : done2 ptr r1 r2 0 =
  Ok (Some (ptr, Z.lor r1 (u64 (Z.shiftl r2 28)))).
Proof. unfold done2. rewrite Z.eqb_refl, DCHECK_true. done. Qed.

Ltac fragments :=
  rewrite ?done1_eq, ?done2_eq; unfold done3;
  fields;
  repeat match goal with
  | |- context [Z.lor ?a (u64 (Z.shiftl ?b ?k))] => rewrite (lor_u64 a b k) by lia
  end; same_result.

Lemma Parse64Fallback_vparse pre b0 l : bytes_ok (b0 :: l) -> 128 <= b0 ->
  Parse64Fallback (pre ++ b0 :: l) (zlen pre) =
  (r ← vparse 10 2 (b0 :: l); Ok (at_ptr (zlen pre) r)).
Proof.
  intros Hl Hb0. unfold Parse64Fallback.
  apply bytes_ok_cons in Hl as [Hb Hl]; unfold byte_ok in Hb; rd.
  rewrite (proj2 (Z.geb_ge _ _)) by lia. rewrite DCHECK_true, bind_Ok.
  cbn [vparse]. rewrite (proj2 (Z.ltb_ge b0 128)) by lia.
  next_byte l Hl. ltb_case b. { fragments. }
  next_byte l Hl. ltb_case b1. { fragments. }
  next_byte l Hl. ltb_case b2. { fragments. }
  next_byte l Hl. ltb_case b3. { fragments. }
  next_byte l Hl. ltb_case b4. { fragments. }
  next_byte l Hl. ltb_case b5. { fragments. }
  next_byte l Hl. ltb_case b6. { fragments. }
  next_byte l Hl. ltb_case b7. { fragments. }
  next_byte l Hl. destruct (Z.ltb_spec b8 2). { fragments. }
  done.
Qed.

(** ** The sign-extension parser *)

(** The word that [SHLD] builds from a sign-extended byte [b] at bit [k]: ones
    below, [b] at [k], its sign above. *)
Definition field (k b : Z) : Z := b * 2 ^ k + 2 ^ k - 1.

Lemma s64_unique x z : - 2 ^ 63 <= z < 2 ^ 63 -> z mod 2 ^ 64 = x mod 2 ^ 64 -> s64 x = z.
Proof. intros Hz E. unfold s64, swrap. change (2 ^ (64 - 1)) with (2 ^ 63). zlia. Qed.

Lemma s8_low b : 0 <= b < 128 -> s8 b = b.
Proof. intros. unfold s8, swrap. change (2 ^ (8 - 1)) with 128. change (2 ^ 8) with 256. zlia. Qed.
Lemma s8_high b : 128 <= b < 256 -> s8 b = b - 256.
Proof. intros. unfold s8, swrap. change (2 ^ (8 - 1)) with 128. change (2 ^ 8) with 256. zlia. Qed.

Lemma field_range k b : 0 <= k <= 56 -> -128 <= b < 128 -> - 2 ^ 63 <= field k b < 2 ^ 63.
Proof.
  intros Hk Hb. unfold field. pose proof (pow2_pos k).
  assert (2 ^ 7 * 2 ^ k <= 2 ^ 7 * 2 ^ 56).
  { apply Z.mul_le_mono_nonneg_l; [lia|]. apply Z.pow_le_mono_r; lia. }
  change (2 ^ 63) with (2 ^ 7 * 2 ^ 56). change (2 ^ 7) with 128 in *. nia.
Qed.

Lemma SHLD_field n b r : 1 <= n <= 8 -> -128 <= b < 128 -> -128 <= r < 0 ->
  s64 (SHLD n (u64 b) (u64 r)) = field (n * 7) b /\ 0 <= SHLD n (u64 b) (u64 r) < 2 ^ 64.
Proof.
  intros Hn Hb Hr. unfold SHLD. split; [|apply Z.mod_pos_bound; lia].
  set (k := n * 7). assert (Hk : 7 <= k <= 56) by lia.
  assert (Z.shiftr (u64 r) (64 - k) = 2 ^ k - 1) as ->.
  { rewrite Z.shiftr_div_pow2 by lia. unfold u64.
    replace (r mod 2 ^ 64) with (r + 2 ^ 64) by zlia.
    assert (2 ^ (64 - k) * 2 ^ k = 2 ^ 64) as E by (rewrite <- Z.pow_add_r by lia; f_equal; lia).
    assert (2 ^ 8 <= 2 ^ (64 - k)) by (apply Z.pow_le_mono_r; lia).
    symmetry. apply Z.div_unique with (r + 2 ^ (64 - k)); lia. }
  pose proof (pow2_pos k). rewrite Z.shiftl_mul_pow2, Z.lor_comm, lor_disjoint by lia.
  apply s64_unique; [apply field_range; lia|]. unfold field, u64.
  rewrite Z.mod_mod by lia.
  rewrite <- (Z.add_mod_idemp_r _ (b mod _ * _)), Z.mul_mod_idemp_l, Z.add_mod_idemp_r by lia.
  f_equal. lia.
Qed.

Lemma land_range k a b : 0 <= k -> - 2 ^ k <= a < 2 ^ k -> - 2 ^ k <= b < 2 ^ k ->
  - 2 ^ k <= Z.land a b < 2 ^ k.
Proof.
  intros Hk. pose proof (pow2_pos k Hk).
  assert (forall x, - 2 ^ k <= x < 2 ^ k <-> Z.shiftr x k = 0 \/ Z.shiftr x k = -1) as R.
  { intros x. rewrite Z.shiftr_div_pow2 by lia.
    pose proof (Z.div_mod x (2 ^ k)). pose proof (Z.mod_pos_bound x (2 ^ k)). split; nia. }
  rewrite !R, Z.shiftr_land. intros [-> | ->] [-> | ->]; auto.
Qed.

Lemma s64_land a y : - 2 ^ 63 <= a < 2 ^ 63 -> 0 <= y < 2 ^ 64 ->
  s64 (Z.land a y) = Z.land a (s64 y).
Proof.
  intros Ha Hy. apply s64_unique.
  - apply land_range; [lia|done|]. unfold s64, swrap. change (2 ^ (64 - 1)) with (2 ^ 63). zlia.
  - assert (s64 y mod 2 ^ 64 = y mod 2 ^ 64) as E
      by (unfold s64, swrap; change (2 ^ (64 - 1)) with (2 ^ 63); zlia).
    rewrite <- !Z.land_ones in * by lia. by rewrite <- !Z.land_assoc, E.
Qed.

Lemma land_field v b k : 0 <= k -> 0 <= v < 2 ^ k ->
  Z.land (v - 2 ^ k) (field k b) = v + b * 2 ^ k.
Proof.
  intros Hk Hv. unfold field. pose proof (pow2_pos k Hk).
  replace (v - 2 ^ k) with (v + (-1) * 2 ^ k) by lia.
  replace (b * 2 ^ k + 2 ^ k - 1) with ((2 ^ k - 1) + b * 2 ^ k) by lia.
  rewrite <- !lor_disjoint by lia.
  apply Z.bits_inj'. intros i Hi.
  rewrite Z.land_spec, !Z.lor_spec, !testbit_mul_pow2 by lia.
  destruct (Z.leb_spec k i); cbn [andb].
  - rewrite (testbit_small v k), (testbit_small (2 ^ k - 1) k), Z.bits_m1 by lia. done.
  - rewrite !orb_false_r. change (2 ^ k - 1) with (Z.pred (2 ^ k)).
    rewrite <- Z.ones_equiv, Z.ones_spec_low by lia. by rewrite andb_true_r.
Qed.

(** A continuing byte extends the value by its seven bits, ones above. *)
Lemma land_field_cont v b k k' : 0 <= k -> 0 <= v < 2 ^ k -> 128 <= b < 256 -> k' = k + 7 ->
  Z.land (v - 2 ^ k) (field k (b - 256)) = (v + b mod 128 * 2 ^ k) - 2 ^ k'.
Proof.
  intros Hk Hv Hb ->. rewrite land_field by lia.
  replace (b mod 128) with (b - 128) by zlia. rewrite Z.pow_add_r by lia. lia.
Qed.

Lemma field_neg k b : 0 <= k -> (field k b <? 0) = (b <? 0).
Proof.
  intros Hk. unfold field. pose proof (pow2_pos k Hk).
  destruct (Z.ltb_spec b 0); [apply Z.ltb_lt | apply Z.ltb_ge]; nia.
Qed.

Lemma clear_bit63 r : - 2 ^ 63 <= r < 0 ->
  s64 (Z.lxor (u64 r) (Z.shiftl 1 63)) = Z.land r (Z.ones 63).
Proof.
  intros Hr. rewrite Z.land_ones by lia. change (Z.shiftl 1 63) with (1 * 2 ^ 63).
  assert (u64 r = Z.lxor (r mod 2 ^ 63) (1 * 2 ^ 63)) as ->.
  { rewrite <- Z.add_nocarry_lxor.
    - unfold u64. zlia.
    - apply Z.bits_inj'. intros i Hi. rewrite Z.land_spec, testbit_mul_pow2, Z.bits_0 by lia.
      destruct (Z.leb_spec 63 i); simpl; [|by rewrite andb_false_r].
      rewrite (testbit_small (r mod 2 ^ 63) 63); [done| |lia]. apply Z.mod_pos_bound. lia. }
  rewrite Z.lxor_assoc, Z.lxor_nilpotent, Z.lxor_0_r.
  apply s64_unique; zlia.
Qed.

End parsing.

Section sign_extension.
Context `{BuildMode}.

Definition neg64 (x : Z) : Prop := - 2 ^ 63 <= x < 0.

Lemma bind_load_s8 {A} m q (k : Z -> outcome A) :
  (load_s8 m q ≫= k) = (load8 m q ≫= λ b, k (s8 b)).
Proof. unfold load_s8. by destruct (load8 m q). Qed.

Lemma neg64_field k b : 0 <= k <= 56 -> -128 <= b < 0 -> neg64 (field k b).
Proof.
  intros. pose proof (field_range k b). pose proof (field_neg k b ltac:(lia)) as E.
  rewrite (proj2 (Z.ltb_lt b 0)) in E by lia. apply Z.ltb_lt in E. unfold neg64. lia.
Qed.

Section accumulators.
(** [acc] is the conjunction of the three accumulators as a function of the
    one that takes the next byte. *)
Context (acc : Z -> Z) (acc_land : forall x F, acc (Z.land x F) = Z.land (acc x) F).
Context (r v k n b0 : Z) (Hr : neg64 r) (Hacc : acc r = v - 2 ^ k) (Hv : 0 <= v < 2 ^ k)
  (Hn : 1 <= n <= 8) (Hk : k = n * 7) (Hb0 : 128 <= b0 < 256).

Lemma shld_word b : 0 <= b < 256 ->
  s64 (Z.land r (SHLD n (u64 (s8 b)) (u64 (s8 b0)))) = Z.land r (field k (s8 b)).
Proof.
  intros Hb. assert (-128 <= s8 b < 128) by (unfold s8, swrap; zlia).
  assert (-128 <= s8 b0 < 0) by (rewrite s8_high; lia).
  destruct (SHLD_field n (s8 b) (s8 b0)) as [E R]; [done..|].
  rewrite s64_land by (unfold neg64 in Hr; lia). by rewrite E, Hk.
Qed.

Lemma shld_cont b k' : 128 <= b < 256 -> k' = k + 7 ->
  exists r', s64 (Z.land r (SHLD n (u64 (s8 b)) (u64 (s8 b0)))) = r' /\ neg64 r' /\
    acc r' = (v + b mod 128 * 2 ^ k) - 2 ^ k'.
Proof.
  intros Hb Hk'. eexists. split; [apply shld_word; lia|].
  rewrite s8_high by lia.
  pose proof (neg64_field k (b - 256) ltac:(lia) ltac:(lia)) as HF. unfold neg64 in *.
  split.
  - pose proof (land_range 63 r (field k (b - 256))).
    pose proof (proj2 (Z.land_neg r (field k (b - 256)))). lia.
  - rewrite acc_land, Hacc. apply land_field_cont; lia.
Qed.

Lemma shld_done b : 0 <= b < 128 ->
  exists r', s64 (Z.land r (SHLD n (u64 (s8 b)) (u64 (s8 b0)))) = r' /\ 0 <= r' /\
    acc r' = v + b * 2 ^ k.
Proof.
  intros Hb. eexists. split; [apply shld_word; lia|]. rewrite s8_low by lia. split.
  - apply Z.land_nonneg. right. unfold field. pose proof (pow2_pos k). nia.
  - rewrite acc_land, Hacc. apply land_field; lia.
Qed.
End accumulators.

Lemma acc1 r2 r3 x F : Z.land (Z.land (Z.land x F) r2) r3 = Z.land (Z.land (Z.land x r2) r3) F.
Proof. rewrite <- !Z.land_assoc. f_equal. rewrite Z.land_comm, <- Z.land_assoc. done. Qed.
Lemma acc2 r1 r3 x F : Z.land (Z.land r1 (Z.land x F)) r3 = Z.land (Z.land (Z.land r1 x) r3) F.
Proof. rewrite <- !Z.land_assoc. do 2 f_equal. apply Z.land_comm. Qed.
Lemma acc3 r1 r2 x F : Z.land (Z.land r1 r2) (Z.land x F) = Z.land (Z.land (Z.land r1 r2) x) F.
Proof. apply Z.land_assoc. Qed.

Lemma byte9_spec p r1 r2 r3 v b : 0 <= b < 256 -> neg64 r3 -> 0 <= v < 2 ^ 63 ->
  Z.land (Z.land r1 r2) r3 = v - 2 ^ 63 ->
  Parse64FallbackPair_byte9 p r1 r2 r3 (u64 (s8 b)) =
  if b <? 2 then Some (p + 10, v + b * 2 ^ 63) else None.
Proof.
  intros Hb Hr3 Hv E. unfold Parse64FallbackPair_byte9.
  destruct (Z.ltb_spec b 128).
  - rewrite s8_low by lia.
    assert (u64 b = b) as -> by (apply Z.mod_small; lia).
    destruct (Z.eqb_spec b 1) as [->|].
    { rewrite E. cbn. do 2 f_equal. unfold u64. zlia. }
    destruct (Z.eqb_spec b 0) as [->|].
    { rewrite clear_bit63 by done. rewrite Z.land_assoc, E, Z.land_ones by lia.
      cbn -[Z.pow]. do 2 f_equal. unfold u64. zlia. }
    by rewrite (proj2 (Z.ltb_ge b 2)) by lia.
  - rewrite s8_high by lia.
    assert (u64 (b - 256) = b - 256 + 2 ^ 64) as -> by (unfold u64; zlia).
    repeat decide_test. done.
Qed.

(** Opens the next byte of the parse: a terminating byte closes the goal. *)
Ltac sx_close :=
  cbn; f_equal; f_equal; f_equal; unfold u64; rewrite Z.mod_small by lia; lia.

Ltac sx_next l Hl n r acc lem A0 k k' b0 :=
  let v := lazymatch type of A0 with _ = ?v - _ => v end in
  let b := fresh "b" in let Hb := fresh "Hb" in
  let r' := fresh "r" in let E := fresh "E" in let R := fresh "R" in let A := fresh "A" in
  rewrite bind_load_s8;
  destruct l as [|b l]; [rd; reflexivity|];
  apply bytes_ok_cons in Hl as [Hb Hl]; unfold byte_ok in Hb; rd; groups;
  let L := fresh "Hlow" in
  destruct (Z.ltb_spec b 128) as [L|L];
  [ destruct (shld_done acc lem r v k n b0 ltac:(done) ltac:(done) ltac:(lia) ltac:(lia)
                ltac:(lia) ltac:(lia) b ltac:(lia)) as (r' & E & R & A);
    rewrite E; cbv zeta; rewrite Z.geb_leb, (proj2 (Z.leb_le 0 r')) by lia;
    cbv beta in A; rewrite A; sx_close
  | destruct (shld_cont acc lem r v k n b0 ltac:(done) ltac:(done) ltac:(lia) ltac:(lia)
                ltac:(lia) ltac:(lia) b k' ltac:(lia) ltac:(lia)) as (r' & E & R & A);
    rewrite E; cbv zeta; clear E; unfold neg64 in R;
    rewrite Z.geb_leb, (proj2 (Z.leb_gt 0 r')) by lia; fold (neg64 r') in R;
    cbv beta in A ].

Lemma Parse64FallbackPair_vparse pre b0 l : bytes_ok (b0 :: l) -> 128 <= b0 ->
  Parse64FallbackPair (pre ++ b0 :: l) (zlen pre) (s8 b0) =
  (r ← vparse 10 2 (b0 :: l); Ok (at_ptr (zlen pre) r)).
Proof.
  intros Hl Hb0. unfold Parse64FallbackPair.
  apply bytes_ok_cons in Hl as [Hb Hl]; unfold byte_ok in Hb.
  assert (Z.shiftr (s8 b0) 7 = -1) as ->.
  { rewrite s8_high, Z.shiftr_div_pow2 by lia. change (2 ^ 7) with 128. zlia. }
  rewrite Z.eqb_refl, DCHECK_true, bind_Ok. cbv zeta.
  cbn [vparse]. rewrite (proj2 (Z.ltb_ge b0 128)) by lia.
  assert (HF : forall n k b, 1 <= n <= 8 -> k = n * 7 -> 0 <= b < 256 ->
            s64 (SHLD n (u64 (s8 b)) (u64 (s8 b0))) = field k (s8 b)).
  { intros n k b Hn -> Hb'. apply SHLD_field; [done|unfold s8, swrap; zlia|rewrite s8_high; lia]. }
  assert (G0 : s8 b0 = b0 mod 128 - 2 ^ 7) by (rewrite s8_high by lia; zlia).
  (* second byte *)
  rewrite bind_load_s8. next_byte l Hl. rewrite (HF 1 7) by lia.
  rewrite field_neg by lia. groups. destruct (Z.ltb_spec b 128).
  { rewrite s8_low by lia. rewrite (proj2 (Z.ltb_ge b 0)) by lia. cbn [negb].
    rewrite G0, land_field by lia. sx_close. }
  rewrite (s8_high b) by lia. rewrite (proj2 (Z.ltb_lt (b - 256) 0)) by lia. cbn [negb].
  (* third byte *)
  rewrite bind_load_s8. next_byte l Hl. rewrite (HF 2 14) by lia.
  rewrite field_neg by lia. groups.
  assert (A1 : Z.land (s8 b0) (field 7 (b - 256)) =
               (b0 mod 128 + b mod 128 * 2 ^ 7) - 2 ^ 14).
  { rewrite G0. apply land_field_cont; lia. }
  destruct (Z.ltb_spec b1 128).
  { rewrite s8_low by lia. rewrite (proj2 (Z.ltb_ge b1 0)) by lia. cbn [negb].
    rewrite A1, land_field by lia. sx_close. }
  rewrite (s8_high b1) by lia. rewrite (proj2 (Z.ltb_lt (b1 - 256) 0)) by lia. cbn [negb].
  assert (A2 : Z.land (Z.land (s8 b0) (field 7 (b - 256))) (field 14 (b1 - 256)) =
               (b0 mod 128 + b mod 128 * 2 ^ 7 + b1 mod 128 * 2 ^ 14) - 2 ^ 21).
  { rewrite A1. apply land_field_cont; lia. }
  assert (N1 : neg64 (s8 b0)) by (unfold neg64; lia).
  assert (N2 : neg64 (field 7 (b - 256))) by (apply neg64_field; lia).
  assert (N3 : neg64 (field 14 (b1 - 256))) by (apply neg64_field; lia).
  set (r2 := field 7 (b - 256)) in *. set (r3 := field 14 (b1 - 256)) in *.
  clearbody r2 r3. clear A1 HF.
  sx_next l Hl 3 (s8 b0) (fun x => Z.land (Z.land x r2) r3) (acc1 r2 r3) A2 21 28 b0.
  sx_next l Hl 4 r2 (fun x => Z.land (Z.land r x) r3) (acc2 r r3) A 28 35 b0.
  sx_next l Hl 5 r3 (fun x => Z.land (Z.land r r0) x) (acc3 r r0) A0 35 42 b0.
  sx_next l Hl 6 r (fun x => Z.land (Z.land x r0) r1) (acc1 r0 r1) A1 42 49 b0.
  sx_next l Hl 7 r0 (fun x => Z.land (Z.land r4 x) r1) (acc2 r4 r1) A3 49 56 b0.
  sx_next l Hl 8 r1 (fun x => Z.land (Z.land r4 r5) x) (acc3 r4 r5) A4 56 63 b0.
  rewrite bind_load_s8. next_byte l Hl. groups.
  match type of A5 with
  | _ = ?v - _ => rewrite (byte9_spec _ _ _ _ v b8 Hb9 R4 ltac:(lia) A5)
  end.
  destruct (Z.ltb_spec b8 2); [cbn; do 3 f_equal; lia|done].
Qed.

Lemma Parse64_vparse x86 pre l : bytes_ok l ->
  Parse64 x86 (pre ++ l) (zlen pre) = (r ← vparse 10 2 l; Ok (at_ptr (zlen pre) r)).
Proof.
  intros Hl. destruct l as [|b l].
  { destruct x86; unfold Parse64, Parse64_x86, Parse64_portable;
      rewrite ?bind_load_s8; by rd. }
  pose proof Hl as Hl'. apply bytes_ok_cons in Hl' as [Hb _]. unfold byte_ok in Hb.
  destruct x86; unfold Parse64, Parse64_x86, Parse64_portable; rewrite ?bind_load_s8; rd.
  - destruct (Z.ltb_spec b 128).
    + rewrite s8_low, Z.geb_leb, (proj2 (Z.leb_le 0 b)) by lia.
      cbn [vparse]. rewrite (proj2 (Z.ltb_lt b 128)) by lia.
      cbn. do 3 f_equal. apply Z.mod_small. lia.
    + rewrite <- Parse64FallbackPair_vparse by done.
      rewrite s8_high at 1 by lia. by rewrite Z.geb_leb, (proj2 (Z.leb_gt 0 _)) by lia.
  - ltb_case b; [|by apply Parse64Fallback_vparse].
    cbn [vparse]. by rewrite (proj2 (Z.ltb_lt b 128)) by lia.
Qed.
End sign_extension.

(** ** Parsing up to a limit *)

(** How the two bodies of [Parse64WithLimit] hold the value [v] of the first
    groups: with or without the last continuation bit. *)
Definition tag (x86 : bool) (v k : Z) : Z := if x86 then v + 2 ^ k else v.

Lemma acc64_cont x86 v b k k' : 0 <= k <= 56 -> 0 <= v < 2 ^ k -> 128 <= b < 256 ->
  k' = k + 7 -> acc64 x86 (tag x86 v k) b k = tag x86 (v + b mod 128 * 2 ^ k) k'.
Proof.
  intros Hk Hv Hb ->. pose proof (pow2_pos k). unfold acc64, tag. destruct x86.
  - assert (2 ^ k <= 2 ^ 56) by (apply Z.pow_le_mono_r; lia).
    assert (0 <= (b - 1) * 2 ^ k <= 254 * 2 ^ k) by nia.
    rewrite Z.shiftl_mul_pow2 by lia. unfold u64.
    rewrite Z.mul_mod_idemp_l, Z.add_mod_idemp_r by lia.
    rewrite Z.mod_small by (change (2 ^ 64) with (256 * 2 ^ 56); lia).
    rewrite Z.pow_add_r by lia. replace (b mod 128) with (b - 128) by zlia. lia.
  - apply lor_bits7; lia.
Qed.

Lemma acc64_done x86 v b k : 0 <= k <= 56 -> 0 <= v < 2 ^ k -> 0 <= b < 128 ->
  acc64 x86 (tag x86 v k) b k = v + b * 2 ^ k.
Proof.
  intros Hk Hv Hb. pose proof (pow2_pos k). unfold acc64, tag. destruct x86.
  - assert (2 ^ k <= 2 ^ 56) by (apply Z.pow_le_mono_r; lia).
    assert (- 2 ^ k <= (b - 1) * 2 ^ k <= 126 * 2 ^ k) by nia.
    rewrite Z.shiftl_mul_pow2 by lia. unfold u64.
    rewrite Z.mul_mod_idemp_l, Z.add_mod_idemp_r by lia.
    rewrite Z.mod_small by (change (2 ^ 64) with (256 * 2 ^ 56); lia). lia.
  - rewrite lor_bits7 by lia. by rewrite Z.mod_small by lia.
Qed.

(** The parser looks at no more than [k] bytes. *)
Lemma vparse_app k top l post : (k <= List.length l)%nat ->
  vparse k top (l ++ post) = vparse k top l /\ exists r, vparse k top l = Ok r.
Proof.
  revert l. induction k as [|k IH]; intros l Hk; [split; eauto|].
  destruct l as [|b l]; cbn in Hk; [lia|]. cbn [app vparse].
  destruct (IH l ltac:(lia)) as [-> [r Hr]]. rewrite Hr.
  case_match; (split; [done|eauto]).
Qed.

Lemma vparse_limit_full k top l post : (k <= List.length l)%nat ->
  vparse k top (l ++ post) = Ok (vparse_limit k top l).
Proof.
  intros Hk. destruct (vparse_app k top l post Hk) as [-> [r Hr]].
  unfold vparse_limit. by rewrite Hr.
Qed.

Section limits.
Context `{BuildMode}.

(** Decides a [ptr >= limit] test when the bytes up to the limit are known. *)
Ltac lim :=
  ptr_norm; rewrite ?zlen_cons, ?zlen_nil;
  match goal with |- (if (?a >=? ?b) then _ else _) = _ => rewrite (Z.geb_leb a b) end;
  repeat match goal with
  | |- context [zlen ?l] =>
      lazymatch goal with
      | _ : 0 <= zlen l |- _ => fail
      | _ => pose proof (zlen_nonneg l)
      end
  end; cbn [app];
  match goal with
  | |- (if (?a <=? ?b) then _ else _) = _ =>
      first [ rewrite (proj2 (Z.leb_le a b)) by lia | rewrite (proj2 (Z.leb_gt a b)) by lia ]
  end.

Ltac next_lim l Hl :=
  let b := fresh "b" in let Hb := fresh "Hb" in
  destruct l as [|b l]; [lim; reflexivity|];
  apply bytes_ok_cons in Hl as [Hb Hl]; unfold byte_ok in Hb; lim; rd.

Lemma Parse32WithLimit_vparse pre l post : bytes_ok l ->
  Parse32WithLimit (pre ++ l ++ post) (zlen pre) (zlen pre + zlen l) =
  Ok (at_ptr (zlen pre) (vparse_limit 5 16 l)).
Proof.
  intros Hl. unfold Parse32WithLimit, vparse_limit. cbn [vparse].
  next_lim l Hl. ltb_case b. { same_result. }
  next_lim l Hl. ltb_case b0. { same_result. }
  next_lim l Hl. ltb_case b1. { same_result. }
  next_lim l Hl. ltb_case b2. { same_result. }
  next_lim l Hl. destruct (Z.ltb_spec b3 16). { same_result. }
  done.
Qed.

Ltac limit_done := rewrite acc64_done by lia; cbn; do 3 f_equal; lia.

(** [v], [k]: the value and the width of the groups read so far. *)
Ltac limit_next l Hl x86 :=
  let b := fresh "b" in let Hb := fresh "Hb" in
  destruct l as [|b l]; [lim; reflexivity|];
  apply bytes_ok_cons in Hl as [Hb Hl]; unfold byte_ok in Hb; lim; rd; groups;
  destruct (Z.ltb_spec b 128);
  [ limit_done
  | repeat match goal with
    | |- context [acc64 x86 (tag x86 ?v ?k) b ?k] =>
        let k' := eval compute in (k + 7) in
        rewrite (acc64_cont x86 v b k k') by lia
    end ].

Lemma Parse64WithLimit_vparse x86 pre l post :
  bytes_ok (l ++ post) -> zlen (pre ++ l ++ post) + 10 < 2 ^ 64 ->
  Parse64WithLimit x86 (pre ++ l ++ post) (zlen pre) (zlen pre + zlen l) =
  Ok (at_ptr (zlen pre) (vparse_limit 10 2 l)).
Proof.
  intros Hl Hm. unfold Parse64WithLimit, OffsetWithinLimit, kMax64.
  pose proof (zlen_nonneg pre). pose proof (zlen_nonneg post). pose proof (zlen_nonneg l).
  rewrite !zlen_app in Hm. unfold u64. rewrite Z.mod_small by lia.
  destruct (Z.leb_spec (zlen pre + 10) (zlen pre + zlen l)).
  { rewrite Parse64_vparse by done. rewrite vparse_limit_full; [done|]. unfold zlen in *. lia. }
  apply bytes_ok_app in Hl as [Hl _]. unfold vparse_limit. cbn [vparse].
  next_lim l Hl. groups. ltb_case b.
  { destruct x86; cbn; [done|]. by rewrite land_7f, Z.mod_small by lia. }
  replace (if x86 then b else Z.land b 127) with (tag x86 (b mod 128) 7)
    by (unfold tag; rewrite land_7f; destruct x86; [change (2 ^ 7) with 128; zlia|done]).
  limit_next l Hl x86. limit_next l Hl x86. limit_next l Hl x86. limit_next l Hl x86.
  limit_next l Hl x86. limit_next l Hl x86. limit_next l Hl x86. limit_next l Hl x86.
  destruct l as [|b8 l].
  - rewrite ?zlen_cons, ?zlen_nil. replace (_ =? _) with true by (symmetry; apply Z.eqb_eq; lia).
    by rewrite DCHECK_true.
  - exfalso. rewrite !zlen_cons in *. pose proof (zlen_nonneg l). lia.
Qed.

(** ** Skipping *)

Definition skip_of (p : Z) (o : option (Z * Z)) : option Z := fst <$> at_ptr p o.

Lemma Skip32_vparse pre l : bytes_ok l ->
  Skip32 (pre ++ l) (zlen pre) = (r ← vparse 5 16 l; Ok (skip_of (zlen pre) r)).
Proof.
  intros Hl. unfold Skip32. cbn [vparse].
  do 5 (next_byte l Hl; match goal with
    |- context [?b <? ?t] => destruct (Z.ltb_spec b t); [cbn; do 2 f_equal; lia|] end).
  done.
Qed.

Lemma Skip64_vparse pre l : bytes_ok l ->
  Skip64 (pre ++ l) (zlen pre) = (r ← vparse 10 2 l; Ok (skip_of (zlen pre) r)).
Proof.
  intros Hl. unfold Skip64. cbn [vparse].
  do 10 (next_byte l Hl; match goal with
    |- context [?b <? ?t] => destruct (Z.ltb_spec b t); [cbn; do 2 f_equal; lia|] end).
  done.
Qed.

Lemma Skip32WithLimit_vparse pre l post : bytes_ok l ->
  Skip32WithLimit (pre ++ l ++ post) (zlen pre) (zlen pre + zlen l) =
  Ok (skip_of (zlen pre) (vparse_limit 5 16 l)).
Proof.
  intros Hl. unfold Skip32WithLimit, vparse_limit. cbn [vparse].
  do 5 (next_lim l Hl; match goal with
    |- context [?b <? ?t] => destruct (Z.ltb_spec b t); [cbn; do 2 f_equal; lia|] end).
  done.
Qed.

Lemma Skip64WithLimit_vparse pre l post : bytes_ok l ->
  Skip64WithLimit (pre ++ l ++ post) (zlen pre) (zlen pre + zlen l) =
  Ok (skip_of (zlen pre) (vparse_limit 10 2 l)).
Proof.
  intros Hl. unfold Skip64WithLimit, vparse_limit. cbn [vparse].
  do 10 (next_lim l Hl; match goal with
    |- context [?b <? ?t] => destruct (Z.ltb_spec b t); [cbn; do 2 f_equal; lia|] end).
  done.
Qed.
End limits.
