(* ===== verification/VarintCode.v ===== *)
(** * Varint encoding, backward parsing and delta sums

    The encoders write exactly [varint v], [Length32]/[Length64] compute its
    length, the backward routines find its start, and [FastDecodeDeltas] adds up
    a run of encodings.  The properties of gloop/util/coding/varint.{h,cc} are
    stated here. *)
From Stdlib Require Import ZArith Lia.
From stdpp Require Import base list numbers option.
From S2P Require Import Prelude.
From S2P Require Import Varint.
From S2P Require Import VarintParse.
Local Open Scope Z_scope.

(** ** The reference encoding *)

Lemma pow7_S n : 2 ^ (7 * Z.of_nat (S n)) = 128 * 2 ^ (7 * Z.of_nat n).
Proof.
  replace (7 * Z.of_nat (S n)) with (7 + 7 * Z.of_nat n) by lia.
  rewrite Z.pow_add_r by lia. done.
Qed.

Lemma varint_bytes_low n v : v < 128 -> varint_bytes (S n) v = [v].
Proof. intros. simpl. by rewrite (proj2 (Z.ltb_lt v 128)) by lia. Qed.

Lemma varint_bytes_high n v : 128 <= v ->
  varint_bytes (S n) v = (v mod 128 + 128) :: varint_bytes n (v / 128).
Proof. intros. cbn [varint_bytes]. by rewrite (proj2 (Z.ltb_ge v 128)) by lia. Qed.

(** More groups than the value needs change nothing. *)
Lemma varint_bytes_fuel n n' v : 0 <= v < 2 ^ (7 * Z.of_nat n) -> (n <= n')%nat ->
  (1 <= n)%nat -> varint_bytes n' v = varint_bytes n v.
Proof.
  revert n' v. induction n as [|n IH]; intros n' v Hv Hn Hn1; [lia|].
  destruct n' as [|n']; [lia|]. rewrite pow7_S in Hv.
  destruct (Z.ltb_spec v 128); [by rewrite !varint_bytes_low by lia|].
  rewrite !varint_bytes_high by lia. f_equal.
  destruct n as [|n]; [change (2 ^ (7 * Z.of_nat 0)) with 1 in Hv; lia|].
  apply IH; [zlia|lia|lia].
Qed.

Lemma varint_bytes_ok n v : 0 <= v -> bytes_ok (varint_bytes n v).
Proof.
  revert v. induction n as [|n IH]; intros v Hv; simpl; [constructor|].
  destruct (Z.ltb_spec v 128); apply bytes_ok_cons; (split; [unfold byte_ok; zlia|]).
  - apply bytes_ok_nil.
  - apply IH. zlia.
Qed.

Lemma varint_ok v : 0 <= v -> bytes_ok (varint v).
Proof. apply varint_bytes_ok. Qed.

(** One byte of the unrolled encoder. *)
Lemma u8_lor a b : u8 (Z.lor a b) = Z.lor (u8 a) (u8 b).
Proof. unfold u8. rewrite <- !Z.land_ones by lia. apply Z.land_lor_distr_l. Qed.

Lemma u8_cont x : u8 (Z.lor x 128) = x mod 128 + 128.
Proof.
  rewrite u8_lor. change (u8 128) with (1 * 2 ^ 7).
  destruct (Z.ltb_spec (u8 x) 128) as [L|L]; unfold u8 in *; change (2 ^ 8) with 256 in *.
  - rewrite lor_disjoint by (change (2 ^ 7) with 128; zlia). zlia.
  - replace (x mod 256) with (x mod 128 + 1 * 2 ^ 7) by zlia.
    rewrite <- (lor_disjoint (x mod 128)) by (change (2 ^ 7) with 128; zlia).
    rewrite <- Z.lor_assoc, Z.lor_diag. rewrite lor_disjoint by (change (2 ^ 7) with 128; zlia).
    zlia.
Qed.

Lemma u8_shiftr_cont v k : u8 (Z.lor (Z.shiftr v k) 128) = Z.shiftr v k mod 128 + 128.
Proof. apply u8_cont. Qed.

Lemma varint_last n v k : 0 <= k -> 0 <= v < 2 ^ (k + 7) ->
  varint_bytes (S n) (v / 2 ^ k) = [u8 (Z.shiftr v k)].
Proof.
  intros Hk Hv. rewrite Z.shiftr_div_pow2 by lia. pose proof (pow2_pos k Hk).
  rewrite Z.pow_add_r in Hv by lia. change (2 ^ 7) with 128 in Hv.
  assert (0 <= v / 2 ^ k < 128).
  { split; [apply Z.div_pos; lia|apply Z.div_lt_upper_bound; lia]. }
  rewrite varint_bytes_low by lia. f_equal. symmetry. apply Z.mod_small. lia.
Qed.

Lemma varint_more n v k k' : 0 <= k -> k' = k + 7 -> 2 ^ k' <= v ->
  varint_bytes (S n) (v / 2 ^ k) =
  u8 (Z.lor (Z.shiftr v k) 128) :: varint_bytes n (v / 2 ^ k').
Proof.
  intros Hk -> Hv. rewrite u8_cont, Z.shiftr_div_pow2 by lia. pose proof (pow2_pos k Hk).
  rewrite Z.pow_add_r in * by lia. change (2 ^ 7) with 128 in *.
  assert (128 <= v / 2 ^ k) by (apply Z.div_le_lower_bound; lia).
  rewrite varint_bytes_high by lia. by rewrite Z.div_div by lia.
Qed.

(** ** Encoding *)

Lemma put_all_spec bs pre old post : List.length old = List.length bs ->
  put_all (pre ++ old ++ post) (zlen pre) bs = Ok (pre ++ bs ++ post, zlen pre + zlen bs).
Proof.
  revert pre old. induction bs as [|b bs IH]; intros pre old E;
    destruct old as [|c old]; try done; cbn [put_all app].
  { by rewrite zlen_nil, Z.add_0_r. }
  rewrite store8_app, bind_Ok. specialize (IH (pre ++ [b]) old).
  rewrite <- !app_assoc, zlen_app in IH. cbn [app] in IH.
  change (zlen [b]) with 1 in IH. rewrite IH by (cbn in E; lia).
  do 2 f_equal. rewrite zlen_cons. lia.
Qed.

Lemma put_all_app m p bs cs :
  put_all m p (bs ++ cs) = ('(m', p') ← put_all m p bs; put_all m' p' cs).
Proof.
  revert m p. induction bs as [|b bs IH]; intros m p; [done|]. cbn [app put_all].
  destruct (store8 m p b); cbn; [apply IH|done|done].
Qed.

(** Unfolds the encoding of [v] along the comparisons of the context. *)
Ltac enc_bytes v :=
  rewrite <- (Z.div_1_r v) at 1; change (v / 1) with (v / 2 ^ 0);
  repeat match goal with
  | |- context [varint_bytes (S ?n) (v / 2 ^ ?k)] =>
      first [ rewrite (varint_last n v k) by lia
            | let k' := eval compute in (k + 7) in
              rewrite (varint_more n v k k') by lia ]
  end; rewrite ?Z.shiftr_0_r.

Lemma Encode32_put m p v : 0 <= v < 2 ^ 32 -> Encode32 m p v = put_all m p (varint v).
Proof.
  intros Hv. unfold Encode32, Encode32Inline.
  change (Z.shiftl 1 7) with (2 ^ 7). change (Z.shiftl 1 14) with (2 ^ 14).
  change (Z.shiftl 1 21) with (2 ^ 21). change (Z.shiftl 1 28) with (2 ^ 28).
  repeat case_test; symmetry; unfold varint; f_equal; enc_bytes v; done.
Qed.

Lemma u8_shiftr_u32 w k : 0 <= k <= 24 -> u8 (Z.shiftr (u32 w) k) = u8 (Z.shiftr w k).
Proof.
  intros Hk. unfold u8, u32. rewrite <- !Z.land_ones by lia.
  apply Z.bits_inj'. intros i Hi. rewrite !Z.land_spec, !Z.shiftr_spec, !Z.land_spec by lia.
  destruct (Z.ltb_spec i 8).
  - rewrite (Z.ones_spec_low 32) by lia. by rewrite andb_true_r.
  - by rewrite (Z.ones_spec_high 8), !andb_false_r by lia.
Qed.

(** Bytes of the two words in which [Encode64] sets four continuation bits. *)
Lemma x32_byte v a b k : 0 <= k <= 24 ->
  u8 (Z.shiftr (Z.shiftl 1 a) k) = 128 /\ u8 (Z.shiftr (Z.shiftl 1 b) k) = 0 \/
  u8 (Z.shiftr (Z.shiftl 1 a) k) = 0 /\ u8 (Z.shiftr (Z.shiftl 1 b) k) = 128 ->
  u8 (Z.shiftr (u32 (Z.lor (Z.lor v (Z.shiftl 1 a)) (Z.shiftl 1 b))) k) =
  u8 (Z.lor (Z.shiftr v k) 128).
Proof.
  intros Hk H. rewrite u8_shiftr_u32, !Z.shiftr_lor, !u8_lor by lia.
  change (u8 128) with 128. destruct H as [[-> ->] | [-> ->]]; by rewrite Z.lor_0_r.
Qed.

Lemma Encode64_put m p v : 0 <= v < 2 ^ 64 -> Encode64 m p v = put_all m p (varint v).
Proof.
  intros Hv. unfold Encode64.
  change (v <? Z.shiftl 1 28) with (v <? 2 ^ 28). change (v <? Z.shiftl 1 35) with (v <? 2 ^ 35).
  case_test.
  { unfold u32. rewrite Z.mod_small by lia. apply Encode32_put. lia. }
  cbv zeta. rewrite (x32_byte v 14 28 7), (x32_byte v 7 21 14), (x32_byte v 14 28 21)
    by first [lia | vm_compute; auto].
  pose proof (x32_byte v 7 21 0 ltac:(lia)) as E0. rewrite !Z.shiftr_0_r in E0.
  rewrite E0 by (vm_compute; auto). clear E0.
  unfold varint. symmetry. change (Z.lor (Z.shiftr v 28) (Z.shiftl 1 7)) with (Z.lor (Z.shiftr v 28) 128).
  case_test.
  { rewrite <- put_all_app. f_equal. enc_bytes v. done. }
  assert (0 <= v / 2 ^ 35 < 2 ^ 29).
  { split; [apply Z.div_pos; lia|apply Z.div_lt_upper_bound; lia]. }
  assert (u32 (Z.shiftr v 35) = v / 2 ^ 35) as ->.
  { rewrite Z.shiftr_div_pow2 by lia. apply Z.mod_small. lia. }
  transitivity (put_all m p (([u8 (Z.lor v 128); u8 (Z.lor (Z.shiftr v 7) 128);
      u8 (Z.lor (Z.shiftr v 14) 128); u8 (Z.lor (Z.shiftr v 21) 128)] ++
      [u8 (Z.lor (Z.shiftr v 28) 128)]) ++ varint (v / 2 ^ 35))).
  - f_equal. rewrite <- (Z.div_1_r v) at 1. change (v / 1) with (v / 2 ^ 0).
    rewrite (varint_more 9 v 0 7), (varint_more 8 v 7 14), (varint_more 7 v 14 21),
      (varint_more 6 v 21 28), (varint_more 5 v 28 35), Z.shiftr_0_r by lia.
    cbn [app]. do 5 f_equal. unfold varint. symmetry. apply varint_bytes_fuel; [|lia|lia].
    change (7 * Z.of_nat 5) with 35. lia.
  - rewrite put_all_app, put_all_app.
    destruct (put_all m p _) as [[m' p'] | |]; [|done..]. cbn [mbind outcome_bind].
    destruct (put_all m' p' _) as [[m2 p2] | |]; [|done..]. cbn [mbind outcome_bind].
    symmetry. apply Encode32_put. lia.
Qed.

(** ** Length *)

Lemma zlen_varint_bytes n v : 0 <= v < 2 ^ (7 * Z.of_nat n) -> (1 <= n)%nat ->
  zlen (varint_bytes n v) = Z.log2 v / 7 + 1.
Proof.
  revert v. induction n as [|n IH]; intros v Hv Hn; [lia|]. rewrite pow7_S in Hv.
  destruct (Z.ltb_spec v 128).
  - rewrite varint_bytes_low by lia. pose proof (Z.log2_nonneg v).
    assert (Z.log2 v < 7).
    { destruct (Z.eqb_spec v 0) as [->|]; [done|]. apply Z.log2_lt_pow2; lia. }
    rewrite Z.div_small by lia. done.
  - rewrite varint_bytes_high, zlen_cons by lia.
    destruct n as [|n]; [change (2 ^ (7 * Z.of_nat 0)) with 1 in Hv; lia|].
    rewrite IH by (try lia; zlia).
    change 128 with (2 ^ 7) at 1. rewrite <- Z.shiftr_div_pow2, Z.log2_shiftr by lia.
    assert (7 <= Z.log2 v) by (apply Z.log2_le_pow2; lia). zlia.
Qed.

Lemma zlen_varint v : 0 <= v < 2 ^ 64 -> zlen (varint v) = Z.log2 v / 7 + 1.
Proof. intros. apply zlen_varint_bytes; [change (7 * Z.of_nat 10) with 70|]; lia. Qed.

Lemma log2_lt64 v : 0 <= v < 2 ^ 64 -> 0 <= Z.log2 v < 64.
Proof.
  intros. split; [apply Z.log2_nonneg|]. destruct (Z.eqb_spec v 0) as [->|]; [done|].
  apply Z.log2_lt_pow2; lia.
Qed.

Lemma LengthImpl_varint lzcnt digits v : 0 <= v < 2 ^ 64 ->
  LengthImpl lzcnt digits v = zlen (varint v).
Proof.
  intros Hv. rewrite zlen_varint by lia. pose proof (log2_lt64 v Hv).
  destruct lzcnt; unfold LengthImpl.
  - unfold LengthImpl_lzcnt, countl_zero, bit_width. rewrite Z.shiftr_div_pow2 by lia.
    change (2 ^ 6) with 64. destruct (Z.eqb_spec v 0) as [->|].
    + change (Z.log2 0) with 0. change (0 / 7) with 0. zlia.
    + replace (digits * 9 + 64 - (digits - (Z.log2 v + 1)) * 9)
        with (9 * Z.log2 v + 73) by lia. zlia.
  - unfold LengthImpl_bit_width, bit_width.
    assert (0 < Z.lor v 1).
    { assert (Z.lor v 1 <> 0) by (rewrite Z.lor_eq_0_iff; lia).
      pose proof (proj2 (Z.lor_nonneg v 1)). lia. }
    rewrite (proj2 (Z.eqb_neq _ _)), Z.log2_lor by lia. change (Z.log2 1) with 0.
    rewrite Z.max_l by lia. zlia.
Qed.

(** ** Parsing an encoding *)

Lemma vparse_SS k top b l : vparse (S (S k)) top (b :: l) =
  if b <? 128 then Ok (Some (1, b))
  else r ← vparse (S k) top l;
       Ok (match r with Some (n, v) => Some (n + 1, b mod 128 + 128 * v) | None => None end).
Proof. reflexivity. Qed.

Lemma vparse_varint_bytes k n top v post :
  0 <= v < top * 2 ^ (7 * Z.of_nat k) -> v < 2 ^ (7 * Z.of_nat n) -> 1 <= top <= 128 ->
  (1 <= n)%nat ->
  vparse (S k) top (varint_bytes n v ++ post) = Ok (Some (zlen (varint_bytes n v), v)).
Proof.
  revert n v. induction k as [|k IH]; intros n v Hv Hv' Ht Hn; (destruct n as [|n]; [lia|]);
    rewrite pow7_S in Hv'.
  - rewrite Z.mul_0_r, Z.pow_0_r in Hv. rewrite varint_bytes_low by lia. cbn.
    by rewrite (proj2 (Z.ltb_lt v top)) by lia.
  - rewrite pow7_S in Hv. destruct (Z.ltb_spec v 128).
    + rewrite varint_bytes_low by lia. cbn [app]. rewrite vparse_SS.
      by rewrite (proj2 (Z.ltb_lt v 128)) by lia.
    + rewrite varint_bytes_high by lia. cbn [app]. rewrite vparse_SS.
      rewrite (proj2 (Z.ltb_ge _ 128)) by zlia.
      destruct n as [|n]; [change (2 ^ (7 * Z.of_nat 0)) with 1 in Hv'; lia|].
      rewrite IH by (try lia; zlia). rewrite bind_Ok, zlen_cons. do 3 f_equal. zlia.
Qed.

Lemma vparse_varint32 v post : 0 <= v < 2 ^ 32 ->
  vparse 5 16 (varint v ++ post) = Ok (Some (zlen (varint v), v)).
Proof.
  intros. apply vparse_varint_bytes; try lia; change (7 * Z.of_nat 4) with 28;
    change (7 * Z.of_nat 10) with 70; lia.
Qed.

Lemma vparse_varint64 v post : 0 <= v < 2 ^ 64 ->
  vparse 10 2 (varint v ++ post) = Ok (Some (zlen (varint v), v)).
Proof.
  intros. apply vparse_varint_bytes; try lia; change (7 * Z.of_nat 9) with 63;
    change (7 * Z.of_nat 10) with 70; lia.
Qed.

(** The values a parser returns fit their type. *)
Lemma vparse_range k top l n v : bytes_ok l -> 1 <= top <= 128 ->
  vparse (S k) top l = Ok (Some (n, v)) ->
  0 <= v < top * 2 ^ (7 * Z.of_nat k) /\ 1 <= n <= zlen l.
Proof.
  intros Hl Ht. revert l n v Hl.
  induction k as [|k IH]; intros l n v Hl; (destruct l as [|b l]; [done|]);
    apply bytes_ok_cons in Hl as [Hb Hl]; unfold byte_ok in Hb;
    rewrite zlen_cons; pose proof (zlen_nonneg l).
  - cbn. destruct (Z.ltb_spec b top); [|done]. intros [= <- <-]. lia.
  - rewrite vparse_SS, pow7_S. pose proof (pow2_pos (7 * Z.of_nat k)).
    destruct (Z.ltb_spec b 128); [intros [= <- <-]; nia|].
    destruct (vparse (S k) top l) as [[[n' v']|]| |] eqn:E; cbn; try done.
    intros [= <- <-]. apply IH in E; [|done]. zlia.
Qed.

(** ** Backward *)

(** The value of a run of groups. *)
Fixpoint gval (l : list Z) : Z :=
  match l with [] => 0 | b :: l' => b mod 128 + 128 * gval l' end.

Definition continues (b : Z) : Prop := 128 <= b < 256.

(** An encoding is a run of continuing bytes and a last byte below 128. *)
Lemma varint_bytes_split n v : 0 <= v < 2 ^ (7 * Z.of_nat n) -> (1 <= n)%nat ->
  exists l c, varint_bytes n v = l ++ [c] /\ Forall continues l /\ 0 <= c < 128 /\
    gval l + 2 ^ (7 * zlen l) * c = v /\ zlen l < Z.of_nat n.
Proof.
  revert v. induction n as [|n IH]; intros v Hv Hn; [lia|]. rewrite pow7_S in Hv.
  destruct (Z.ltb_spec v 128).
  - exists [], v. rewrite varint_bytes_low by lia. rewrite (@zlen_nil Z). cbn [gval app].
    rewrite Z.mul_0_r, Z.pow_0_r. split; [done|]. split; [constructor|]. lia.
  - destruct n as [|n]; [change (2 ^ (7 * Z.of_nat 0)) with 1 in Hv; lia|].
    destruct (IH (v / 128)) as (l & c & E & HF & Hc & Hg & Hl); [zlia|lia|].
    exists ((v mod 128 + 128) :: l), c. rewrite varint_bytes_high, E by lia.
    split; [done|]. split; [constructor; [unfold continues; zlia|done]|]. split; [done|].
    rewrite zlen_cons. cbn [gval]. replace (7 * (zlen l + 1)) with (7 + 7 * zlen l) by lia.
    pose proof (zlen_nonneg l). rewrite Z.pow_add_r by lia. change (2 ^ 7) with 128.
    split; [zlia|lia].
Qed.

Section backward.
Context `{BuildMode}.

(** The unrolled fast paths as one loop: at most [i] more continuing bytes. *)
Fixpoint back_loop (w : Z) (m : list Z) (i : nat) (ptr res : Z) : presult :=
  byte ← load8 m (ptr - 1);
  if byte <? 128 then Ok (Some (ptr, res)) else
  match i with
  | O => Ok None
  | S i' => back_loop w m i' (ptr - 1) (push7 w res byte)
  end.

Lemma push7_eq w r b : 0 <= r -> 7 <= w -> byte_ok b ->
  push7 w r b = (b mod 128 + 128 * r) mod 2 ^ w.
Proof.
  intros Hr Hw Hb. unfold push7. rewrite land_7f, Z.shiftl_mul_pow2 by lia.
  rewrite (pow2_split 7 w) by lia. pose proof (pow2_pos (w - 7)).
  rewrite Z.mul_mod_distr_r, Z.lor_comm by lia.
  rewrite lor_disjoint by (try lia; change (2 ^ 7) with 128; zlia).
  rewrite (Z.mul_comm (2 ^ (w - 7))), Z.rem_mul_r by lia. change (2 ^ 7) with 128.
  replace (b mod 128 + 128 * r) with (b mod 128 + r * 128) by lia.
  rewrite Z.mod_add, Z.div_add by lia. rewrite Z.mod_mod, (Z.div_small (b mod 128)), Z.add_0_l by zlia. lia.
Qed.

Lemma load8_last pre b post : load8 (pre ++ b :: post) (zlen (pre ++ [b]) - 1) = Ok b.
Proof.
  rewrite zlen_app. change (zlen [b]) with 1.
  replace (zlen pre + 1 - 1) with (zlen pre) by lia. apply load8_0.
Qed.

(** The byte before the encoding ends another one, or the region starts there. *)
Definition boundary (pre : list Z) (base : Z) : Prop :=
  base = zlen pre \/ base < zlen pre /\ exists pre' c, pre = pre' ++ [c] /\ 0 <= c < 128.

Lemma gval_snoc l b : gval (l ++ [b]) = gval l + 2 ^ (7 * zlen l) * (b mod 128).
Proof.
  induction l as [|a l IH]; cbn [app gval]; [rewrite (@zlen_nil Z); lia|].
  rewrite IH, zlen_cons. pose proof (zlen_nonneg l).
  replace (7 * (zlen l + 1)) with (7 + 7 * zlen l) by lia.
  rewrite Z.pow_add_r by lia. change (2 ^ 7) with 128. lia.
Qed.

Lemma back_loop_spec w l pre pre' c post i res : pre = pre' ++ [c] ->
  7 <= w -> Forall continues l -> 0 <= c < 128 -> zlen l <= Z.of_nat i ->
  0 <= res < 2 ^ w ->
  back_loop w (pre ++ l ++ post) i (zlen pre + zlen l) res =
  Ok (Some (zlen pre, (gval l + 2 ^ (7 * zlen l) * res) mod 2 ^ w)).
Proof.
  intros Hpre Hw HF Hc Hi Hr. revert post i res Hi Hr HF.
  induction l as [|b l IH] using rev_ind; intros post i res Hi Hr HF.
  - rewrite (@zlen_nil Z), Z.add_0_r, Z.mul_0_r, Z.pow_0_r. cbn [app gval].
    assert (load8 (pre ++ post) (zlen pre - 1) = Ok c) as E.
    { rewrite Hpre, <- app_assoc. apply load8_last. }
    destruct i; cbn [back_loop]; rewrite E, bind_Ok, (proj2 (Z.ltb_lt c 128)) by lia;
      by rewrite Z.mod_small by lia; do 3 f_equal; lia.
  - apply Forall_app in HF as [HF Hb]. apply Forall_inv in Hb. unfold continues in Hb.
    rewrite zlen_app in Hi |- *. change (zlen [b]) with 1 in *. pose proof (zlen_nonneg l).
    destruct i as [|i]; [lia|]. cbn [back_loop]. rewrite <- (app_assoc l). cbn [app].
    replace (zlen pre + (zlen l + 1) - 1) with (zlen pre + zlen l) by lia.
    assert (load8 (pre ++ l ++ b :: post) (zlen pre + zlen l) = Ok b) as ->.
    { rewrite app_assoc, <- zlen_app. apply load8_0. }
    rewrite bind_Ok, (proj2 (Z.ltb_ge b 128)), push7_eq by (unfold byte_ok; lia).
    pose proof (pow2_pos w).
    rewrite IH; [|lia|apply Z.mod_pos_bound; lia|done].
    do 3 f_equal. rewrite gval_snoc.
    rewrite <- Z.add_mod_idemp_r, Z.mul_mod_idemp_r, Z.add_mod_idemp_r by lia.
    f_equal. replace (7 * (zlen l + 1)) with (7 + 7 * zlen l) by lia.
    rewrite Z.pow_add_r by lia. change (2 ^ 7) with 128. lia.
Qed.

Ltac back_norm :=
  repeat match goal with
  | |- context [?a - Zpos ?x - Zpos ?y] =>
      let z := eval compute in (Zpos x + Zpos y) in
      replace (a - Zpos x - Zpos y) with (a - z) by lia
  end.

(** The unrolled bodies are the loop. *)
Ltac back_step :=
  match goal with
  | |- (load8 ?m ?p ≫= _) = _ => destruct (load8 m p); cbn [mbind outcome_bind]; [|done..]
  | |- (if ?b <? 128 then _ else _) = _ => destruct (b <? 128); [done|]
  | |- (if ?b >? 127 then _ else _) = _ => destruct (b >? 127); [done|]
  end.
Ltac back_unroll := cbn [back_loop]; cbv zeta; back_norm; repeat back_step; done.

Definition back_fast (w : Z) (i : nat) (m : list Z) (p : Z) : presult :=
  byte ← load8 m (p - 1);
  if byte >? 127 then Ok None else back_loop w m i (p - 1) byte.

Lemma Parse32Backward_fast m p base : base + 5 < p ->
  Parse32Backward m p base = back_fast 32 4 m p.
Proof.
  intros. unfold Parse32Backward, kMax32, back_fast. decide_test. back_unroll.
Qed.

Lemma Parse64Backward_fast x86 m p base : base + 10 < p ->
  Parse64Backward x86 m p base = back_fast 64 9 m p.
Proof.
  intros. unfold Parse64Backward, kMax64, back_fast. decide_test. back_unroll.
Qed.

Lemma Skip32Backward_fast m p base : base + 5 < p ->
  Skip32Backward m p base = (r ← back_fast 32 4 m p; Ok (option_map fst r)).
Proof.
  intros. unfold Skip32Backward, kMax32, back_fast. decide_test. back_unroll.
Qed.

Lemma Skip64Backward_fast m p base : base + 10 < p ->
  Skip64Backward m p base = (r ← back_fast 64 9 m p; Ok (option_map fst r)).
Proof.
  intros. unfold Skip64Backward, kMax64, back_fast. decide_test. back_unroll.
Qed.
End backward.

Section backward_spec.
Context `{BuildMode}.
Context (pre l post : list Z) (c base : Z).
Context (Hl : Forall continues l) (Hc : 0 <= c < 128) (Hb : boundary pre base).

Let m := pre ++ l ++ c :: post.
Let p := zlen pre + zlen l + 1.

Lemma load8_top : load8 m (p - 1) = Ok c.
Proof.
  unfold m, p. replace (zlen pre + zlen l + 1 - 1) with (zlen (pre ++ l))
    by (rewrite zlen_app; lia).
  rewrite app_assoc. apply load8_0.
Qed.

Lemma back_fast_spec w i : 7 <= w -> zlen l <= Z.of_nat i -> base < zlen pre ->
  back_fast w i m p =
  Ok (Some (zlen pre, (gval l + 2 ^ (7 * zlen l) * c) mod 2 ^ w)).
Proof.
  intros Hw Hi Hlt. unfold back_fast. rewrite load8_top, bind_Ok.
  decide_test. destruct Hb as [->|[_ (pre' & c' & E & Hc')]]; [lia|].
  unfold p. rewrite Z.add_simpl_r. unfold m.
  apply back_loop_spec with pre' c'; try done.
  assert (2 ^ 7 <= 2 ^ w) by (apply Z.pow_le_mono_r; lia). lia.
Qed.

Lemma slow_loop_spec k rest i : Forall continues k -> zlen k < Z.of_nat i ->
  SkipBackwardSlow_loop (pre ++ k ++ rest) i (zlen pre + zlen k) base = Ok (Some (zlen pre)).
Proof using Hb.
  clear -Hb. revert rest i. induction k as [|b k IH] using rev_ind; intros rest i HF Hi;
    (destruct i as [|i]; [match type of Hi with zlen ?x < _ => pose proof (zlen_nonneg x) end; lia|]);
    cbn [SkipBackwardSlow_loop].
  - rewrite (@zlen_nil Z), Z.add_0_r. cbn [app].
    destruct Hb as [->|[Hlt (pre' & c' & -> & Hc')]]; [by rewrite Z.eqb_refl|].
    decide_test. rewrite <- app_assoc. cbn [app]. rewrite load8_last, bind_Ok. decide_test. do 2 f_equal. lia.
  - apply Forall_app in HF as [HF Hk]. apply Forall_inv in Hk. unfold continues in Hk.
    rewrite zlen_app in Hi |- *. change (zlen [b]) with 1 in *. pose proof (zlen_nonneg k).
    assert (base <= zlen pre) by (destruct Hb as [->|[? _]]; lia). decide_test.
    rewrite <- (app_assoc k). cbn [app].
    replace (zlen pre + (zlen k + 1) - 1) with (zlen pre + zlen k) by lia.
    assert (load8 (pre ++ k ++ b :: rest) (zlen pre + zlen k) = Ok b) as ->
      by (rewrite app_assoc, <- zlen_app; apply load8_0).
    rewrite bind_Ok. decide_test. apply IH; [done|lia].
Qed.

Lemma base_le : base <= zlen pre.
Proof using Hb. clear -Hb. destruct Hb as [->|[? _]]; lia. Qed.

Lemma SkipBackwardSlow_spec i : zlen l < Z.of_nat i ->
  (_ ← DCHECK (p >=? base);
   if p =? base then Ok None else
   b ← load8 m (p - 1);
   if b >? 127 then Ok None else SkipBackwardSlow_loop m i (p - 1) base) = Ok (Some (zlen pre)).
Proof.
  intros Hi. pose proof base_le. pose proof (zlen_nonneg l).
  rewrite (proj2 (Z.geb_ge p base)) by (unfold p; lia).
  rewrite DCHECK_true, bind_Ok, (proj2 (Z.eqb_neq p base)) by (unfold p; lia).
  rewrite load8_top, bind_Ok. decide_test.
  unfold p. rewrite Z.add_simpl_r. unfold m. by apply slow_loop_spec.
Qed.

Lemma Skip32Backward_spec : zlen l <= 4 -> Skip32Backward m p base = Ok (Some (zlen pre)).
Proof.
  intros. destruct (Z.ltb_spec (base + 5) p).
  - rewrite Skip32Backward_fast, back_fast_spec by (unfold p in *; lia). done.
  - unfold Skip32Backward, kMax32. decide_test. apply (SkipBackwardSlow_spec 5). lia.
Qed.

Lemma Skip64Backward_spec : zlen l <= 9 -> Skip64Backward m p base = Ok (Some (zlen pre)).
Proof.
  intros. destruct (Z.ltb_spec (base + 10) p).
  - rewrite Skip64Backward_fast, back_fast_spec by (unfold p in *; lia). done.
  - unfold Skip64Backward, kMax64. decide_test. apply (SkipBackwardSlow_spec 10). lia.
Qed.
End backward_spec.

Section backward_parse.
Context `{BuildMode}.
Context (pre post : list Z) (base v : Z) (Hb : boundary pre base).
Let m := pre ++ varint v ++ post.
Let p := zlen pre + zlen (varint v).

Lemma varint_shape n : 0 <= v < 2 ^ (7 * Z.of_nat n) -> (1 <= n <= 10)%nat ->
  exists l c, varint v = l ++ [c] /\ Forall continues l /\ 0 <= c < 128 /\
    gval l + 2 ^ (7 * zlen l) * c = v /\ zlen l < Z.of_nat n.
Proof.
  intros Hv Hn. unfold varint. rewrite (varint_bytes_fuel n) by lia.
  apply varint_bytes_split; lia.
Qed.

Ltac shape n :=
  destruct (varint_shape n) as (l & c & E & HF & Hc & Hg & Hlen);
    [first [change (7 * Z.of_nat n) with 35 | change (7 * Z.of_nat n) with 70]; lia|lia|];
  assert (m = pre ++ l ++ c :: post) as Em by (unfold m; rewrite E, <- app_assoc; done);
  assert (p = zlen pre + zlen l + 1) as Ep
    by (unfold p; rewrite E, zlen_app; change (zlen [c]) with 1; lia).

Lemma Skip32Backward_varint : 0 <= v < 2 ^ 32 -> Skip32Backward m p base = Ok (Some (zlen pre)).
Proof. intros. shape 5%nat. rewrite Em, Ep. apply Skip32Backward_spec; [done..|lia]. Qed.

Lemma Skip64Backward_varint : 0 <= v < 2 ^ 64 -> Skip64Backward m p base = Ok (Some (zlen pre)).
Proof. intros. shape 10%nat. rewrite Em, Ep. apply Skip64Backward_spec; [done..|lia]. Qed.

Lemma Parse32Backward_varint : bytes_ok post -> 0 <= v < 2 ^ 32 ->
  Parse32Backward m p base = Ok (Some (zlen pre, v)).
Proof.
  intros Hp Hv. shape 5%nat. pose proof (base_le pre base Hb).
  destruct (Z.ltb_spec (base + 5) p).
  - rewrite Parse32Backward_fast, Em, Ep by lia. rewrite (back_fast_spec pre l post c base) by
      (done || lia). by rewrite Hg, Z.mod_small by lia.
  - unfold Parse32Backward, kMax32, Parse32BackwardSlow. decide_test.
    assert (Skip32BackwardSlow m p base = Ok (Some (zlen pre))) as ->
      by (rewrite Em, Ep; apply (SkipBackwardSlow_spec pre l post c base HF Hc Hb 5); lia).
    rewrite bind_Ok.
    unfold m. rewrite Parse32_vparse by (apply bytes_ok_app; split; [apply varint_ok; lia|done]).
    by rewrite vparse_varint32 by done.
Qed.

Lemma Parse64Backward_varint x86 : bytes_ok post -> 0 <= v < 2 ^ 64 ->
  Parse64Backward x86 m p base = Ok (Some (zlen pre, v)).
Proof.
  intros Hp Hv. shape 10%nat. pose proof (base_le pre base Hb).
  destruct (Z.ltb_spec (base + 10) p).
  - rewrite Parse64Backward_fast, Em, Ep by lia. rewrite (back_fast_spec pre l post c base) by
      (done || lia). by rewrite Hg, Z.mod_small by lia.
  - unfold Parse64Backward, kMax64, Parse64BackwardSlow. decide_test.
    assert (Skip64BackwardSlow m p base = Ok (Some (zlen pre))) as ->
      by (rewrite Em, Ep; apply (SkipBackwardSlow_spec pre l post c base HF Hc Hb 10); lia).
    rewrite bind_Ok.
    unfold m. rewrite Parse64_vparse by (apply bytes_ok_app; split; [apply varint_ok; lia|done]).
    by rewrite vparse_varint64 by done.
Qed.
End backward_parse.

(** ** Appending *)

Lemma AppendSlow_spec encode len s v :
  (forall m p, encode m p v = put_all m p (varint v)) -> len = zlen (varint v) ->
  AppendSlow encode len s v =
  Ok {| sbytes := sbytes s ++ varint v;
        scapacity := if zlen (sbytes s) + len >? scapacity s
                     then Z.max (zlen (sbytes s) + len) (2 * scapacity s) else scapacity s |}.
Proof.
  intros He ->. unfold AppendSlow. rewrite He.
  rewrite <- (app_nil_r (replicate _ 0)), put_all_spec, bind_Ok, app_nil_r.
  - done.
  - rewrite length_replicate. unfold zlen. lia.
Qed.

(** The string holds its bytes within its allocation. *)
Definition cstring_ok (s : cstring) : Prop := zlen (sbytes s) <= scapacity s.

Definition appended (s : cstring) (v : Z) (r : outcome cstring) : Prop :=
  exists s', r = Ok s' /\ sbytes s' = sbytes s ++ varint v /\ (cstring_ok s -> cstring_ok s').

Lemma Append_spec encode len s v : 0 <= v < 2 ^ 64 ->
  (forall m p, encode m p v = put_all m p (varint v)) -> len = zlen (varint v) ->
  appended s v (if (v <? 128) && (zlen (sbytes s) <? scapacity s)
                then Ok (push_back s (u8 v)) else AppendSlow encode len s v).
Proof.
  intros Hv He Hlen. unfold appended, cstring_ok.
  destruct (Z.ltb_spec v 128); cbn [andb]; [destruct (Z.ltb_spec (zlen (sbytes s)) (scapacity s))|].
  1: { eexists. split; [done|]. cbn [push_back sbytes scapacity].
       unfold varint, u8. rewrite varint_bytes_low, Z.mod_small by lia.
       split; [done|]. intros _. rewrite zlen_app. change (zlen [v]) with 1. lia. }
  all: rewrite AppendSlow_spec by done; eexists; split; [done|]; cbn [sbytes scapacity];
    split; [done|]; rewrite zlen_app, Hlen; intros; rewrite Z.gtb_ltb; case_test.
Qed.

(** ** Sums of deltas *)

Lemma s64_small x : - 2 ^ 63 <= x < 2 ^ 63 -> s64 x = x.
Proof. intros. by apply s64_unique. Qed.

Lemma land_s8_7f b : 0 <= b < 256 -> Z.land (s8 b) 127 = b mod 128.
Proof.
  intros. rewrite land_7f. destruct (Z.ltb_spec b 128); [by rewrite s8_low by lia|].
  rewrite s8_high by lia. zlia.
Qed.

Lemma FastDecodeDeltas_varint n v k s f pre post :
  0 <= v < 2 ^ (7 * Z.of_nat n) -> (1 <= n)%nat -> 0 <= k -> - 2 ^ 63 <= s ->
  v * 2 ^ k < 2 ^ 63 -> s + v * 2 ^ k < 2 ^ 63 ->
  FastDecodeDeltas_loop (List.length (varint_bytes n v) + f)
    (pre ++ varint_bytes n v ++ post) (zlen pre) s k =
  let s' := s + v * 2 ^ k in
  let p' := zlen pre + zlen (varint_bytes n v) in
  if s' <? 0 then FastDecodeDeltas_loop f (pre ++ varint_bytes n v ++ post) p' s' 0
  else Ok (p', s').
Proof.
  revert v k s pre. induction n as [|n IH]; intros v k s pre Hv Hn Hk Hs Hvk Hsum; [lia|].
  rewrite pow7_S in Hv. pose proof (pow2_pos k Hk).
  destruct (Z.ltb_spec v 128).
  - rewrite varint_bytes_low by lia. cbn [List.length Nat.add FastDecodeDeltas_loop app].
    rewrite load8_0, bind_Ok. cbv zeta. rewrite land_s8_7f by lia. rewrite s8_low by lia.
    rewrite (Z.mod_small v 128), Z.shiftl_mul_pow2 by lia. rewrite (s64_small (v * 2 ^ k)), s64_small by nia.
    rewrite Z.shiftr_div_pow2, Z.div_small, Z.land_0_r by lia. change (zlen [v]) with 1.
    destruct (Z.ltb_spec (s + v * 2 ^ k) 0).
    + rewrite (proj2 (Z.ltb_lt _ 0)); [done|]. apply Z.lor_neg. lia.
    + rewrite (proj2 (Z.ltb_ge _ 0)); [done|]. apply Z.lor_nonneg. lia.
  - rewrite varint_bytes_high by lia. cbn [List.length Nat.add FastDecodeDeltas_loop app].
    rewrite load8_0, bind_Ok. cbv zeta. rewrite land_s8_7f by zlia. rewrite s8_high by zlia.
    assert (v = v mod 128 + 128 * (v / 128)) as Ev by zlia.
    set (lo := v mod 128) in *. set (hi := v / 128) in *.
    assert (0 <= lo < 128) by (unfold lo; zlia). assert (1 <= hi) by lia.
    assert ((lo + 128) mod 128 = lo) as -> by (unfold lo; zlia).
    assert (v * 2 ^ k = lo * 2 ^ k + hi * 2 ^ (k + 7)) as Esum.
    { rewrite Z.pow_add_r by lia. change (2 ^ 7) with 128. lia. }
    assert (0 <= hi * 2 ^ (k + 7)) by (apply Z.mul_nonneg_nonneg; [lia|]; pose proof (pow2_pos (k + 7)); lia).
    assert (0 <= lo * 2 ^ k) by nia.
    rewrite Z.shiftl_mul_pow2, (s64_small (lo * 2 ^ k)), s64_small by lia.
    assert (Z.shiftr (lo + 128 - 256) 7 = -1) as ->.
    { rewrite Z.shiftr_div_pow2 by lia. change (2 ^ 7) with 128. zlia. }
    rewrite Z.land_m1_r, (proj2 (Z.ltb_lt (Z.lor _ _) 0)) by (apply Z.lor_neg; lia).
    destruct n as [|n]; [change (2 ^ (7 * Z.of_nat 0)) with 1 in Hv; lia|].
    specialize (IH hi (k + 7) (s + lo * 2 ^ k) (pre ++ [lo + 128])).
    rewrite <- app_assoc, zlen_app in IH. cbn [app] in IH. change (zlen [lo + 128]) with 1 in IH.
    rewrite IH by (try lia; unfold hi; zlia). cbv zeta. rewrite zlen_cons, Esum.
    replace (s + (lo * 2 ^ k + hi * 2 ^ (k + 7))) with (s + lo * 2 ^ k + hi * 2 ^ (k + 7)) by lia.
    replace (zlen pre + (zlen (varint_bytes (S n) hi) + 1)) with
      (zlen pre + 1 + zlen (varint_bytes (S n) hi)) by lia. done.
Qed.

Definition zsum (l : list Z) : Z := foldr Z.add 0 l.

Lemma zsum_nonneg l : Forall (fun d => 0 <= d) l -> 0 <= zsum l.
Proof. induction 1; simpl; lia. Qed.

(** The bytes of a run of deltas. *)
Definition deltas (ds : list Z) : list Z := concat (varint <$> ds).

Lemma FastDecodeDeltas_one v s f pre post : 0 <= v < 2 ^ 63 -> - 2 ^ 63 <= s ->
  s + v < 2 ^ 63 ->
  FastDecodeDeltas_loop (List.length (varint v) + f) (pre ++ varint v ++ post) (zlen pre) s 0 =
  if s + v <? 0
  then FastDecodeDeltas_loop f (pre ++ varint v ++ post) (zlen pre + zlen (varint v)) (s + v) 0
  else Ok (zlen pre + zlen (varint v), s + v).
Proof.
  intros. unfold varint. rewrite FastDecodeDeltas_varint; rewrite ?Z.pow_0_r, ?Z.mul_1_r;
    first [done | lia | change (7 * Z.of_nat 10) with 70; lia].
Qed.

Lemma FastDecodeDeltas_run ds d s f pre post :
  Forall (fun d => 0 <= d) (d :: ds) -> - 2 ^ 63 <= s -> zsum (ds ++ [d]) < 2 ^ 63 ->
  s + zsum ds < 0 <= s + zsum (ds ++ [d]) ->
  s + zsum (ds ++ [d]) < 2 ^ 63 ->
  FastDecodeDeltas_loop (List.length (deltas (ds ++ [d])) + f)
    (pre ++ deltas (ds ++ [d]) ++ post) (zlen pre) s 0 =
  Ok (zlen pre + zlen (deltas (ds ++ [d])), s + zsum (ds ++ [d])).
Proof.
  intros HF. inversion_clear HF as [|? ? Hd Hds].
  revert s f pre. induction ds as [|e ds IH]; intros s f pre Hs Hz Hneg Hup.
  - change (deltas ([] ++ [d])) with (varint d ++ []). rewrite app_nil_r.
    change (zsum ([] ++ [d])) with (d + 0) in *. rewrite Z.add_0_r in *.
    rewrite FastDecodeDeltas_one by lia. by rewrite (proj2 (Z.ltb_ge _ 0)) by lia.
  - inversion_clear Hds as [|? ? He Hds'].
    pose proof (zsum_nonneg ds Hds'). assert (0 <= zsum (ds ++ [d])).
    { apply zsum_nonneg, Forall_app; split; [done|]. by repeat constructor. }
    cbn [app] in *. change (deltas (e :: ds ++ [d])) with (varint e ++ deltas (ds ++ [d])).
    change (zsum (e :: ds ++ [d])) with (e + zsum (ds ++ [d])) in *.
    change (zsum (e :: ds)) with (e + zsum ds) in *.
    rewrite length_app, <- Nat.add_assoc, <- app_assoc.
    rewrite FastDecodeDeltas_one, (proj2 (Z.ltb_lt _ 0)) by lia.
    specialize (IH Hds' (s + e) f (pre ++ varint e)).
    rewrite zlen_app, <- app_assoc in IH. rewrite IH by lia.
    rewrite zlen_app. do 2 f_equal; lia.
Qed.

(** ** Properties *)

(** C32. On every buffer and at every address in it, each forward parser and
    skipper ([Parse32], [Parse32Inline], [Parse64] for both targets, [Skip32],
    [Skip64]) computes the reference parser: it accepts exactly the encodings of
    at most 5 (10) bytes whose last byte leaves no bit above bit 31 (63), returns
    their value and the address after them, and reads past the buffer only when
    the encoding does. *)
Theorem Parse_refines_vparse `{BuildMode} x86 m p : bytes_ok m -> 0 <= p <= zlen m ->
  let l := drop (Z.to_nat p) m in
  Parse32 m p = (r ← vparse 5 16 l; Ok (at_ptr p r)) /\
  Parse32Inline m p = (r ← vparse 5 16 l; Ok (at_ptr p r)) /\
  Parse64 x86 m p = (r ← vparse 10 2 l; Ok (at_ptr p r)) /\
  Skip32 m p = (r ← vparse 5 16 l; Ok (skip_of p r)) /\
  Skip64 m p = (r ← vparse 10 2 l; Ok (skip_of p r)).
Proof.
  intros Hm Hp. cbv zeta. destruct (ptr_split m p Hp) as (pre & l & E & Ep & El). rewrite <- El, <- Ep.
  clear El. assert (bytes_ok l) by (rewrite E in Hm; by apply bytes_ok_app in Hm as [_ ?]).
  rewrite E. split; [by apply Parse32_vparse|]. split; [by apply Parse32_vparse|].
  split; [by apply Parse64_vparse|]. split; [by apply Skip32_vparse|by apply Skip64_vparse].
Qed.

Lemma Parse_refines_vparse_witness :
  let m := [7; 172; 2; 255; 255; 255; 255; 31] in
  Parse64 (H := debug_build) true m 1 = Ok (Some (3, 300)) /\
  Parse32 (H := debug_build) m 3 = Ok None.
Proof.
  intros m. split.
  - rewrite (proj1 (proj2 (proj2 (@Parse_refines_vparse debug_build true m 1
      ltac:(by apply (bool_decide_unpack _)) ltac:(by vm_compute))))). reflexivity.
  - rewrite (proj1 (@Parse_refines_vparse debug_build true m 3
      ltac:(by apply (bool_decide_unpack _)) ltac:(by vm_compute))). reflexivity.
Defined.

(** The bounded parsers and skippers read nothing outside [[p, limit)]: for
    every limit inside the buffer they return the reference result on those
    bytes, failing where the encoding is cut by the limit, and never have
    undefined behaviour (both targets, both the fast path of
    [Parse64WithLimit] and its byte-at-a-time path). *)
Theorem WithLimit_refines_vparse `{BuildMode} x86 m p limit :
  bytes_ok m -> 0 <= p <= limit -> limit <= zlen m -> zlen m + 10 < 2 ^ 64 ->
  let l := take (Z.to_nat (limit - p)) (drop (Z.to_nat p) m) in
  Parse32WithLimit m p limit = Ok (at_ptr p (vparse_limit 5 16 l)) /\
  Parse64WithLimit x86 m p limit = Ok (at_ptr p (vparse_limit 10 2 l)) /\
  Skip32WithLimit m p limit = Ok (skip_of p (vparse_limit 5 16 l)) /\
  Skip64WithLimit m p limit = Ok (skip_of p (vparse_limit 10 2 l)).
Proof.
  intros Hm Hp Hl Hsize. cbv zeta.
  destruct (ptr_split m p ltac:(lia)) as (pre & r & E & Epre & Er).
  rewrite <- Er. set (n := Z.to_nat (limit - p)). set (l := take n r).
  assert (m = pre ++ l ++ drop n r) as E' by (unfold l; rewrite take_drop; done).
  assert (limit = zlen pre + zlen l) as Elim.
  { assert (zlen m = zlen pre + zlen r) by (rewrite E; apply zlen_app).
    unfold l, zlen in *. rewrite length_take. lia. }
  clearbody n. rewrite Elim.
  rewrite E' in Hm, Hsize |- *. apply bytes_ok_app in Hm as [_ Hm].
  pose proof Hm as Hm'. apply bytes_ok_app in Hm' as [Hl' _]. rewrite <- Epre.
  split; [by apply Parse32WithLimit_vparse|]. split; [by apply Parse64WithLimit_vparse|].
  split; [by apply Skip32WithLimit_vparse|by apply Skip64WithLimit_vparse].
Qed.

Lemma WithLimit_refines_vparse_witness :
  Parse64WithLimit (H := opt_build) false [1; 172; 2; 9] 1 2 = Ok None.
Proof.
  rewrite (proj1 (proj2 (@WithLimit_refines_vparse opt_build false [1; 172; 2; 9] 1 2
    ltac:(by apply (bool_decide_unpack _)) ltac:(by vm_compute) ltac:(by vm_compute)
    ltac:(by vm_compute)))). reflexivity.
Defined.

(** [Encode32] and [Encode64] write exactly the base-128 encoding of the
    value, at the address given, touch no other byte of the buffer and return
    the address after it; [Length32] and [Length64], in both of their bodies,
    are the number of bytes written. *)
Theorem Encode_spec lzcnt pre old post v : List.length old = List.length (varint v) ->
  (0 <= v < 2 ^ 32 ->
   Encode32 (pre ++ old ++ post) (zlen pre) v =
     Ok (pre ++ varint v ++ post, zlen pre + Length32 lzcnt v)) /\
  (0 <= v < 2 ^ 64 ->
   Encode64 (pre ++ old ++ post) (zlen pre) v =
     Ok (pre ++ varint v ++ post, zlen pre + Length64 lzcnt v)).
Proof.
  intros Hold. unfold Length32, Length64. split; intros Hv; rewrite LengthImpl_varint by lia.
  - rewrite Encode32_put by lia. by apply put_all_spec.
  - rewrite Encode64_put by lia. by apply put_all_spec.
Qed.

Lemma Encode_spec_witness :
  Encode64 [1; 0; 0; 5] 1 300 = Ok ([1; 172; 2; 5], 3).
Proof.
  pose proof (proj2 (Encode_spec true [1] [0; 0] [5] 300 eq_refl) ltac:(by vm_compute)) as E.
  exact E.
Defined.

(** Round trip: after encoding [v] anywhere in a buffer, parsing at that
    address, with or without a limit at or after its end, gives back [v] and
    the address that the encoder returned, on either target; 32- and 64-bit. *)
Theorem Parse_Encode_roundtrip `{BuildMode} x86 pre old post v m' q limit :
  bytes_ok (pre ++ old ++ post) -> List.length old = List.length (varint v) ->
  zlen (pre ++ old ++ post) + 10 < 2 ^ 64 -> 0 <= v < 2 ^ 64 ->
  Encode64 (pre ++ old ++ post) (zlen pre) v = Ok (m', q) ->
  q <= limit <= zlen m' ->
  Parse64 x86 m' (zlen pre) = Ok (Some (q, v)) /\
  Parse64WithLimit x86 m' (zlen pre) limit = Ok (Some (q, v)) /\
  (v < 2 ^ 32 ->
    Encode32 (pre ++ old ++ post) (zlen pre) v = Ok (m', q) /\
    Parse32 m' (zlen pre) = Ok (Some (q, v)) /\
    Parse32WithLimit m' (zlen pre) limit = Ok (Some (q, v))).
Proof.
  intros Hm Hold Hsize Hv E Hlim. rewrite Encode64_put, put_all_spec in E by done.
  injection E as <- <-. pose proof (varint_ok v ltac:(lia)) as Hok.
  apply bytes_ok_app in Hm as [_ Hm]. apply bytes_ok_app in Hm as [_ Hm].
  assert (zlen old = zlen (varint v)) as Eold by (unfold zlen; lia).
  rewrite !zlen_app in Hlim. rewrite !zlen_app, Eold in Hsize.
  set (n := Z.to_nat (limit - zlen pre - zlen (varint v))).
  assert (limit = zlen pre + zlen (varint v ++ take n post)) as Elim.
  { rewrite zlen_app. unfold n, zlen in *. rewrite length_take. lia. }
  clearbody n. rewrite Elim.
  assert (bytes_ok (varint v ++ post)) by (by apply bytes_ok_app).
  assert (Esplit : pre ++ varint v ++ post = pre ++ (varint v ++ take n post) ++ drop n post).
  { by rewrite <- (app_assoc (varint v)), take_drop. }
  assert (bytes_ok (varint v ++ take n post)) by (apply bytes_ok_app; auto with gloop).
  split; [|split; [|intros Hv'; split; [|split]]].
  - rewrite Parse64_vparse, vparse_varint64 by done. done.
  - rewrite Esplit, Parse64WithLimit_vparse; unfold vparse_limit.
    + by rewrite vparse_varint64 by lia.
    + by rewrite <- (app_assoc (varint v)), take_drop.
    + by rewrite <- Esplit, !zlen_app.
  - rewrite Encode32_put, put_all_spec by (done || lia). done.
  - rewrite Parse32_vparse, vparse_varint32 by (done || lia). done.
  - rewrite Esplit, Parse32WithLimit_vparse by done. unfold vparse_limit.
    by rewrite vparse_varint32 by lia.
Qed.

Lemma Parse_Encode_roundtrip_witness :
  Parse64 (H := debug_build) true ([1] ++ varint (2 ^ 40) ++ [5]) 1 = Ok (Some (7, 2 ^ 40)).
Proof.
  refine (proj1 (@Parse_Encode_roundtrip debug_build true [1] [0; 0; 0; 0; 0; 0] [5] (2 ^ 40)
    ([1] ++ varint (2 ^ 40) ++ [5]) 7 8 _ _ _ _ _ _));
    [by apply (bool_decide_unpack _)|by vm_compute..].
Defined.

(** Backward round trip: from the end of an encoding, the backward parsers
    return its start and its value and the backward skippers its start, on the
    fast path and on the slow one, whenever the encoding starts at [base] or the
    byte before it ends another one. *)
Theorem Backward_roundtrip `{BuildMode} x86 pre post base v :
  boundary pre base -> bytes_ok post -> 0 <= v < 2 ^ 64 ->
  let m := pre ++ varint v ++ post in
  let p := zlen pre + zlen (varint v) in
  Parse64Backward x86 m p base = Ok (Some (zlen pre, v)) /\
  Skip64Backward m p base = Ok (Some (zlen pre)) /\
  (v < 2 ^ 32 ->
    Parse32Backward m p base = Ok (Some (zlen pre, v)) /\
    Skip32Backward m p base = Ok (Some (zlen pre))).
Proof.
  intros Hb Hp Hv. cbv zeta. split; [by apply Parse64Backward_varint|].
  split; [by apply Skip64Backward_varint|]. intros Hv'.
  split; [apply Parse32Backward_varint|apply Skip32Backward_varint]; done || lia.
Qed.

Lemma Backward_roundtrip_witness :
  Parse64Backward (H := debug_build) false ([9; 8; 7; 6; 5; 4; 3; 2; 1; 0; 1] ++ varint 300 ++ []) 13 0
    = Ok (Some (11, 300)).
Proof.
  refine (proj1 (@Backward_roundtrip debug_build false [9; 8; 7; 6; 5; 4; 3; 2; 1; 0; 1] [] 0 300
    _ _ _)); [right; split; [by vm_compute|]|by apply (bool_decide_unpack _)|by vm_compute].
  exists [9; 8; 7; 6; 5; 4; 3; 2; 1; 0], 1. by vm_compute.
Defined.

(** [Append32] and [Append64] append exactly the encoding of the value to
    the string, on the inlined path and on the slow one, and keep the string
    within its allocation. *)
Theorem Append_appends lzcnt s v :
  (0 <= v < 2 ^ 32 -> appended s v (Append32 lzcnt s v)) /\
  (0 <= v < 2 ^ 64 -> appended s v (Append64 lzcnt s v)).
Proof.
  split; intros Hv; apply Append_spec; try lia.
  - intros. by apply Encode32_put.
  - apply LengthImpl_varint. lia.
  - intros. by apply Encode64_put.
  - apply LengthImpl_varint. lia.
Qed.

Lemma Append_appends_witness :
  let s := {| sbytes := [1; 2]; scapacity := 2 |} in
  appended s 300 (Append64 true s 300) /\ cstring_ok s.
Proof.
  intros s. split; [|by vm_compute].
  apply (proj2 (Append_appends true s 300)). by vm_compute.
Defined.

(** [FastDecodeDeltas] returns the sum of the shortest run of deltas that
    reaches the goal and the address after that run: under the documented
    preconditions (a positive goal, valid deltas whose sum fits an [int64_t])
    it terminates and reads nothing but those deltas. *)
Theorem FastDecodeDeltas_reaches_goal pre ds d post goal :
  0 < goal < 2 ^ 63 -> Forall (fun d => 0 <= d) (d :: ds) ->
  zsum ds < goal -> goal <= zsum (ds ++ [d]) -> zsum (ds ++ [d]) < 2 ^ 63 ->
  FastDecodeDeltas (pre ++ deltas (ds ++ [d]) ++ post) (zlen pre) goal =
  Ok (zlen pre + zlen (deltas (ds ++ [d])), zsum (ds ++ [d])).
Proof.
  intros Hg HF Hlt Hge Hmax. unfold FastDecodeDeltas.
  assert (S (List.length (pre ++ deltas (ds ++ [d]) ++ post)) =
    (List.length (deltas (ds ++ [d])) + S (List.length pre + List.length post))%nat) as ->
    by (rewrite !length_app; lia).
  rewrite FastDecodeDeltas_run by (done || lia). rewrite bind_Ok.
  do 2 f_equal. rewrite s64_small; lia.
Qed.

Lemma FastDecodeDeltas_reaches_goal_witness :
  FastDecodeDeltas ([] ++ deltas ([100; 300] ++ [7]) ++ [4]) 0 405 = Ok (4, 407).
Proof.
  apply (FastDecodeDeltas_reaches_goal [] [100; 300] 7 [4] 405); try by vm_compute.
  repeat constructor; by vm_compute.
Defined.

(** The fast paths of the backward parsers do not check the top byte: on an
    encoding of five bytes whose top byte has bits above bit 31 (ten bytes, bit
    63), [Parse32Backward] ([Parse64Backward]) returns a truncated value, where
    the slow path that the same call takes near [base], and the forward parser,
    report that no valid encoding was found. *)
Theorem Backward_fast_path_accepts_overlong `{BuildMode} x86 :
  let e32 := [128; 128; 128; 128; 17] in
  let e64 := [128; 128; 128; 128; 128; 128; 128; 128; 128; 3] in
  Parse32 e32 0 = Ok None /\
  Parse32Backward e32 5 0 = Ok None /\
  Parse32Backward (0 :: e32) 6 0 = Ok (Some (1, 2 ^ 28)) /\
  Parse64 x86 e64 0 = Ok None /\
  Parse64Backward x86 e64 10 0 = Ok None /\
  Parse64Backward x86 (0 :: e64) 11 0 = Ok (Some (1, 2 ^ 63)).
Proof. destruct H as [[]], x86; repeat split; vm_compute; reflexivity. Qed.
