(* ===== verification/Coder.v ===== *)
(** * Encoder and Decoder: gloop/util/coding/coder.{h,cc}

    An [Encoder] appends to a buffer it owns and enlarges, or to a buffer of its
    client; a [Decoder] reads a buffer.  Both are the pointers of the code,
    addresses in a heap of blocks: [heap] maps the start of a live block to its
    bytes, 0 is [nullptr], and an access outside the block of [orig_] is [UB].
    The allocator of the code is not part of the repository: it is the class
    [Allocator], with the promises the code relies on; addresses are
    unbounded.  Sizes, and pointers moved below the start of a buffer,
    are 64-bit numbers. *)
From Stdlib Require Import ZArith Lia.
From stdpp Require Import base list numbers option gmap fin_maps.
From S2P Require Import Prelude.
From S2P Require Import Endian.
From S2P Require Import Varint.
Local Open Scope Z_scope.

(** ** The heap *)

Abbreviation heap := (gmap Z (list Z)).

(** [__size_returning_new(n)]: the start and the contents of a new block, or no
    memory, which ends the process. *)
Class Allocator := {
  size_returning_new : heap -> Z -> option (Z * list Z);
  new_block : forall h n p b, size_returning_new h n = Some (p, b) ->
    0 < p /\ h !! p = None /\ n <= zlen b < 2 ^ 63 /\ bytes_ok b;
  new_available : forall h n, 0 <= n < 2 ^ 62 -> is_Some (size_returning_new h n);
}.

(** Which checks are compiled in, and for which processor. *)
Class Target := {
  HARDENED : bool;
  x86 : bool;
  lzcnt : bool;
}.

Definition block (h : heap) (p : Z) : list Z := match h !! p with Some b => b | None => [] end.

(** [operator delete(p, size)]. *)
Definition delete_sized (h : heap) (p size : Z) : outcome heap :=
  if p =? 0 then Ok h
  else match h !! p with
       | Some b => if size =? zlen b then Ok (delete p h) else UB
       | None => UB
       end.

(** [memccpy]: the bytes copied, and whether [c] was among them. *)
Fixpoint memccpy (src : list Z) (c : Z) (n : nat) : outcome (list Z * bool) :=
  match n with
  | O => Ok ([], false)
  | S n' =>
      match src with
      | [] => UB
      | b :: src' =>
          if b =? c then Ok ([b], true)
          else '(l, found) ← memccpy src' c n'; Ok (b :: l, found)
      end
  end.

Section coder.
Context `{BuildMode} `{Target}.

(** [ABSL_HARDENING_ASSERT]: evaluated in debug and in hardened builds only. *)
Definition HARDENING_ASSERT (c : outcome bool) : outcome unit :=
  if HARDENED || negb NDEBUG then b ← c; CHECK b else Ok tt.
End coder.

Module Encoder.

Record Encoder := {
  buf_ : Z;
  limit_ : Z;
  underlying_buffer_ : Z;
  orig_ : Z;
}.

(** [Encoder()]. *)
Definition make0 : Encoder := {| buf_ := 0; limit_ := 0; underlying_buffer_ := 0; orig_ := 0 |}.
(** [Encoder(buf, maxn)]. *)
Definition make (b maxn : Z) : Encoder :=
  {| buf_ := b; limit_ := b + maxn; underlying_buffer_ := 0; orig_ := b |}.

Definition set_buf (e : Encoder) (p : Z) : Encoder :=
  {| buf_ := p; limit_ := limit_ e; underlying_buffer_ := underlying_buffer_ e; orig_ := orig_ e |}.

Section encoder.
Context `{BuildMode} `{Target} `{Allocator}.

Definition ensure_allowed (e : Encoder) : bool := orig_ e =? underlying_buffer_ e.
Definition capacity (e : Encoder) : Z := u64 (limit_ e - orig_ e).

Definition length (e : Encoder) : outcome Z :=
  _ ← DCHECK (buf_ e >=? orig_ e);
  _ ← DCHECK (buf_ e <=? limit_ e);
  Ok (u64 (buf_ e - orig_ e)).

Definition avail (e : Encoder) : outcome Z :=
  _ ← DCHECK (limit_ e >=? buf_ e);
  Ok (u64 (limit_ e - buf_ e)).

Definition NewBuffer (h : heap) (size : Z) : outcome (Z * Z * heap) :=
  match size_returning_new h size with
  | Some (p, b) => Ok (p, zlen b, <[p := b]> h)
  | None => Crash
  end.
Definition DeleteBuffer (h : heap) (buf size : Z) : outcome heap := delete_sized h buf size.

(** [if (ensure_allowed()) DeleteBuffer(underlying_buffer_, capacity());]. *)
Definition release (h : heap) (e : Encoder) : outcome heap :=
  if ensure_allowed e then DeleteBuffer h (underlying_buffer_ e) (capacity e) else Ok h.

Definition reset0 (h : heap) (e : Encoder) : outcome (heap * Encoder) :=
  h ← release h e; Ok (h, make0).
Definition reset (h : heap) (e : Encoder) (b maxn : Z) : outcome (heap * Encoder) :=
  h ← release h e; Ok (h, make b maxn).
Definition clear (e : Encoder) : Encoder := set_buf e (orig_ e).

(** The moved-to encoder and the moved-from one. *)
Definition move_construct (other : Encoder) : Encoder * Encoder := (other, make0).
Definition move_assign (h : heap) (e other : Encoder) : outcome (heap * Encoder * Encoder) :=
  h ← release h e; Ok (h, other, make0).
Definition destroy (h : heap) (e : Encoder) : outcome heap :=
  _ ← CHECK (buf_ e <=? limit_ e); release h e.

Definition EnsureSlowPath (h : heap) (e : Encoder) (N : Z) : outcome (heap * Encoder) :=
  _ ← CHECK (ensure_allowed e);
  _ ← (if NDEBUG then Ok tt else a ← avail e; CHECK (a <? N));
  _ ← (if NDEBUG then Ok tt else l ← length e; CHECK ((l =? 0) || (orig_ e =? underlying_buffer_ e)));
  current_len ← length e;
  '(new_buffer, new_capacity, h) ← NewBuffer h (Z.max (u64 (current_len + N)) (u64 (2 * current_len)));
  h ← (if negb (underlying_buffer_ e =? 0) then
         l ← load_bytes (block h (underlying_buffer_ e)) 0 (Z.to_nat current_len);
         b ← store_bytes (block h new_buffer) 0 l;
         DeleteBuffer (<[new_buffer := b]> h) (underlying_buffer_ e) (capacity e)
       else Ok h);
  let e := {| buf_ := new_buffer + current_len; limit_ := new_buffer + new_capacity;
              underlying_buffer_ := new_buffer; orig_ := new_buffer |} in
  a ← avail e;
  _ ← CHECK (a >=? N);
  Ok (h, e).

Definition Ensure (h : heap) (e : Encoder) (N : Z) : outcome (heap * Encoder) :=
  _ ← DCHECK (ensure_allowed e);
  a ← avail e;
  if a <? N then EnsureSlowPath h e N else Ok (h, e).

Definition Resize (e : Encoder) (N : Z) : outcome Encoder :=
  l ← length e;
  _ ← CHECK (l >=? N);
  let e := set_buf e (orig_ e + N) in
  _ ← (if NDEBUG then Ok tt else l ← length e; CHECK (l =? N));
  Ok e.

(** *** The writer *)

(** A write [f] at the current position of the block, and the [~Writer] that
    ends each operation; [f] returns the new contents and position. *)
Definition write (h : heap) (e : Encoder) (f : list Z -> Z -> outcome (list Z * Z))
    : outcome (heap * Encoder) :=
  '(b, p) ← f (block h (orig_ e)) (buf_ e - orig_ e);
  let e := set_buf e (orig_ e + p) in
  _ ← DCHECK (buf_ e >=? orig_ e);
  _ ← DCHECK (buf_ e <=? limit_ e);
  Ok (if bool_decide (is_Some (h !! orig_ e)) then <[orig_ e := b]> h else h, e).

Definition room (e : Encoder) (n : Z) : outcome bool := a ← avail e; Ok (a >=? n).

Definition put8 h e (v : Z) :=
  _ ← HARDENING_ASSERT (room e 1);
  write h e (fun b p => b ← store8 b p (u8 v); Ok (b, p + 1)).
Definition put16 h e (v : Z) :=
  _ ← HARDENING_ASSERT (room e 2);
  write h e (fun b p => b ← LittleEndian.Store16 b p v; Ok (b, p + 2)).
Definition put32 h e (v : Z) :=
  _ ← HARDENING_ASSERT (room e 4);
  write h e (fun b p => b ← LittleEndian.Store32 b p v; Ok (b, p + 4)).
Definition put64 h e (v : Z) :=
  _ ← HARDENING_ASSERT (room e 8);
  write h e (fun b p => b ← LittleEndian.Store64 b p v; Ok (b, p + 8)).
Definition put128 h e (v : Z) :=
  _ ← HARDENING_ASSERT (room e 16);
  write h e (fun b p => b ← LittleEndian.Store128 b p v; Ok (b, p + 16)).

(** [mem] has exactly the [n] bytes that are copied. *)
Definition putn h e (mem : list Z) :=
  _ ← HARDENING_ASSERT (room e (zlen mem));
  write h e (fun b p => b ← store_bytes b p mem; Ok (b, p + zlen mem)).

(** [Writer::putcn]; [memccpy] returns the address after [c], or null. *)
Definition writer_putcn (mem : list Z) (c n : Z) (b : list Z) (p : Z) : outcome (list Z * Z) :=
  '(l, found) ← memccpy mem (u8 c) (Z.to_nat n);
  b ← store_bytes b p l;
  Ok (b, if found : bool then p + zlen l else p + n).
Definition putcn h e (mem : list Z) (c n : Z) :=
  _ ← HARDENING_ASSERT (room e n);
  write h e (writer_putcn mem c n).
Definition puts h e (mem : list Z) :=
  write h e (fun b p => a ← avail e; writer_putcn mem 0 a b p).

(** [while ( *mem != '\0' && p < l) *p++ = *mem++;]. *)
Fixpoint puts_no_null_loop (mem : list Z) (l : Z) (b : list Z) (p : Z) : outcome (list Z * Z) :=
  match mem with
  | [] => UB
  | c :: mem' =>
      if negb (c =? 0) && (p <? l) then b ← store8 b p c; puts_no_null_loop mem' l b (p + 1)
      else Ok (b, p)
  end.
Definition puts_without_null h e (mem : list Z) :=
  write h e (puts_no_null_loop mem (limit_ e - orig_ e)).

Definition varint_room (e : Encoder) (max len : Z) : outcome bool :=
  a ← avail e;
  if a >=? max then Ok true else a ← avail e; Ok (a >=? len).
Definition put_varint32 h e (v : Z) :=
  _ ← HARDENING_ASSERT (varint_room e kMax32 (Length32 lzcnt v));
  write h e (fun b p => Encode32 b p v).
Definition put_varint32_inline h e (v : Z) :=
  _ ← HARDENING_ASSERT (varint_room e kMax32 (Length32 lzcnt v));
  write h e (fun b p => Encode32Inline b p v).
Definition put_varint64 h e (v : Z) :=
  _ ← HARDENING_ASSERT (varint_room e kMax64 (Length64 lzcnt v));
  write h e (fun b p => Encode64 b p v).

(** [skip] returns the old position. *)
Definition skip (h : heap) (e : Encoder) (N : Z) : outcome (Z * heap * Encoder) :=
  _ ← HARDENING_ASSERT (l ← length e; if l + N >=? 0 then a ← avail e; Ok (a >=? N) else Ok false);
  '(h', e') ← write h e (fun b p => Ok (b, p + N));
  Ok (buf_ e, h', e').
Definition RemoveLast (h : heap) (e : Encoder) (N : Z) : outcome (heap * Encoder) :=
  _ ← HARDENING_ASSERT (l ← length e; Ok (l >=? N));
  write h e (fun b p => Ok (b, p - N)).
End encoder.
End Encoder.

Module Decoder.

Record Decoder := {
  orig_ : Z;
  buf_ : Z;
  limit_ : Z;
}.

Definition set_buf (d : Decoder) (p : Z) : Decoder := {| orig_ := orig_ d; buf_ := p; limit_ := limit_ d |}.

Section decoder.
Context `{BuildMode} `{Target}.

(** [Decoder(buf, maxn)] and [reset]. *)
Definition reset (b maxn : Z) : outcome Decoder :=
  _ ← HARDENING_ASSERT (Ok (negb (b =? 0) || (maxn =? 0)));
  Ok {| orig_ := b; buf_ := b; limit_ := b + maxn |}.

Definition pos (d : Decoder) : outcome Z :=
  _ ← DCHECK (buf_ d >=? orig_ d); Ok (u64 (buf_ d - orig_ d)).
Definition avail (d : Decoder) : outcome Z :=
  _ ← DCHECK (limit_ d >=? buf_ d); Ok (u64 (limit_ d - buf_ d)).

Definition room (d : Decoder) (n : Z) : outcome bool := a ← avail d; Ok (a >=? n).

(** A load [f] of [n] bytes at the current position. *)
Definition read (h : heap) (d : Decoder) (n : Z) (f : list Z -> Z -> outcome Z) : outcome (Z * Decoder) :=
  v ← f (block h (orig_ d)) (buf_ d - orig_ d);
  Ok (v, set_buf d (buf_ d + n)).

Definition get8 h d := _ ← HARDENING_ASSERT (room d 1); read h d 1 load8.
Definition get16 h d := _ ← HARDENING_ASSERT (room d 2); read h d 2 LittleEndian.Load16.
Definition get32 h d := _ ← HARDENING_ASSERT (room d 4); read h d 4 LittleEndian.Load32.
Definition get64 h d := _ ← HARDENING_ASSERT (room d 8); read h d 8 LittleEndian.Load64.
Definition get128 h d := _ ← HARDENING_ASSERT (room d 16); read h d 16 LittleEndian.Load128.

(** [dst] is the memory of the client; the result is its new contents. *)
Definition getn (h : heap) (d : Decoder) (dst : list Z) (n : Z) : outcome (list Z * Decoder) :=
  l ← load_bytes (block h (orig_ d)) (buf_ d - orig_ d) (Z.to_nat n);
  dst ← store_bytes dst 0 l;
  Ok (dst, set_buf d (buf_ d + n)).

Definition getcn (h : heap) (d : Decoder) (dst : list Z) (c n : Z) : outcome (list Z * Decoder) :=
  '(l, found) ← memccpy (drop (Z.to_nat (buf_ d - orig_ d)) (block h (orig_ d))) (u8 c) (Z.to_nat n);
  dst ← store_bytes dst 0 l;
  Ok (dst, set_buf d (buf_ d + (if found : bool then zlen l else n))).

Definition gets (h : heap) (d : Decoder) (dst : list Z) (n : Z) : outcome (list Z * Decoder) :=
  if n =? 0 then Ok (dst, d)
  else
    _ ← DCHECK (limit_ d >=? buf_ d);
    let len := if n >? u64 (1 + limit_ d - buf_ d) then u64 (limit_ d - buf_ d) else n - 1 in
    dst ← store8 dst len 0;
    getcn h d dst 0 len.

Definition skip (d : Decoder) (n : Z) : outcome (Z * Decoder) :=
  _ ← HARDENING_ASSERT (a ← avail d; if a >=? n then p ← pos d; Ok (p + n >=? 0) else Ok false);
  Ok (buf_ d, set_buf d (buf_ d + n)).

(** [None] is [return false]. *)
Definition get_varint32 (h : heap) (d : Decoder) : outcome (option (Z * Decoder)) :=
  r ← Parse32WithLimit (block h (orig_ d)) (buf_ d - orig_ d) (limit_ d - orig_ d);
  Ok (match r with Some (p, v) => Some (v, set_buf d (orig_ d + p)) | None => None end).
Definition get_varint64 (h : heap) (d : Decoder) : outcome (option (Z * Decoder)) :=
  r ← Parse64WithLimit x86 (block h (orig_ d)) (buf_ d - orig_ d) (limit_ d - orig_ d);
  Ok (match r with Some (p, v) => Some (v, set_buf d (orig_ d + p)) | None => None end).
End decoder.
End Decoder.

(** ** From a decoder to an encoder *)

Section transfer.
Context `{BuildMode} `{Target}.

Abbreviation enc := Encoder.Encoder.
Abbreviation dec := Decoder.Decoder.

(** [dec_ptr[i]], and [*enc_ptr = ...] in the buffer of the encoder. *)
Definition dec_byte (h : heap) (d : dec) (p : Z) : outcome Z :=
  load8 (block h (Decoder.orig_ d)) (p - Decoder.orig_ d).
Definition enc_store (h : heap) (e : enc) (p : Z) (l : list Z) : outcome heap :=
  b ← store_bytes (block h (Encoder.orig_ e)) (p - Encoder.orig_ e) l;
  Ok (<[Encoder.orig_ e := b]> h).

Definition CopyAndAdvance (N : Z) (h : heap) (d : dec) (e : enc) : outcome (heap * dec * enc) :=
  l ← load_bytes (block h (Decoder.orig_ d)) (Decoder.buf_ d - Decoder.orig_ d) (Z.to_nat N);
  h ← enc_store h e (Encoder.buf_ e) l;
  Ok (h, Decoder.set_buf d (Decoder.buf_ d + N), Encoder.set_buf e (Encoder.buf_ e + N)).

(** [if (dec_ptr[i] < 128) CopyAndAdvance<i + 1>; else if ...], up to the tenth
    byte; [None] is [return false]. *)
Fixpoint copy_chain (n : nat) (i : Z) (h : heap) (d : dec) (e : enc) : outcome (option (heap * dec * enc)) :=
  match n with
  | O => Ok None
  | S n' =>
      b ← dec_byte h d (Decoder.buf_ d + i);
      if b <? (if i =? 9 then 2 else 128) then r ← CopyAndAdvance (i + 1) h d e; Ok (Some r)
      else copy_chain n' (i + 1) h d e
  end.

(** The [do] loop; it also writes when it fails.  [fuel] bounds the iterations. *)
Fixpoint copy_loop (fuel : nat) (h : heap) (d : dec) (e : enc) (dec_ptr enc_ptr : Z)
    : outcome (bool * heap * dec * enc) :=
  match fuel with
  | O => Ok (false, h, d, e)
  | S fuel' =>
      if dec_ptr >=? Decoder.limit_ d then Ok (false, h, d, e)
      else if enc_ptr >=? Encoder.limit_ e then Ok (false, h, d, e)
      else
        c ← dec_byte h d dec_ptr;
        h ← enc_store h e enc_ptr [c];
        if c >=? 128 then copy_loop fuel' h d e (dec_ptr + 1) (enc_ptr + 1)
        else Ok (true, h, Decoder.set_buf d (dec_ptr + 1), Encoder.set_buf e (enc_ptr + 1))
  end.

(** The subtractions wrap when a buffer starts near address 0. *)
Definition PutVarint64FromDecoderLessCommonSizes (h : heap) (d : dec) (e : enc)
    : outcome (bool * heap * dec * enc) :=
  if (Decoder.buf_ d <=? u64 (Decoder.limit_ d - kMax64)) &&
     (Encoder.buf_ e <=? u64 (Encoder.limit_ e - kMax64)) then
    r ← copy_chain 8 2 h d e;
    Ok (match r with Some (h, d, e) => (true, h, d, e) | None => (false, h, d, e) end)
  else copy_loop (S (Z.to_nat (Encoder.limit_ e - Encoder.buf_ e))) h d e (Decoder.buf_ d) (Encoder.buf_ e).

Definition put_varint64_from_decoder (h : heap) (d : dec) (e : enc) : outcome (bool * heap * dec * enc) :=
  let enc_ptr := Encoder.buf_ e in
  let dec_ptr := Decoder.buf_ d in
  b ← (if dec_ptr <? Decoder.limit_ d then b ← dec_byte h d dec_ptr; Ok (b <? 128) else Ok false);
  if (b : bool) then
    if enc_ptr >=? Encoder.limit_ e then Ok (false, h, d, e)
    else
      c ← dec_byte h d dec_ptr;
      h ← enc_store h e enc_ptr [c];
      Ok (true, h, Decoder.set_buf d (dec_ptr + 1), Encoder.set_buf e (enc_ptr + 1))
  else
    b ← (if dec_ptr <? u64 (Decoder.limit_ d - 1) then b ← dec_byte h d (dec_ptr + 1); Ok (b <? 128) else Ok false);
    if (b : bool) then
      if enc_ptr >=? u64 (Encoder.limit_ e - 1) then Ok (false, h, d, e)
      else
        l ← load_bytes (block h (Decoder.orig_ d)) (dec_ptr - Decoder.orig_ d) 2;
        h ← enc_store h e enc_ptr l;
        Ok (true, h, Decoder.set_buf d (dec_ptr + 2), Encoder.set_buf e (enc_ptr + 2))
    else PutVarint64FromDecoderLessCommonSizes h d e.
End transfer.
