(* ===== verification/CoderProps.v ===== *)
(** * Encoder and Decoder: what they promise

    [enc_rep] relates an encoder and the heap to the bytes encoded so far and the
    free bytes after them.  What was put is got back, buffers are neither leaked
    nor freed twice, and the transfer of a varint copies its encoding. *)
From Stdlib Require Import ZArith Lia.
From stdpp Require Import base list numbers option gmap fin_maps.
From S2P Require Import Prelude.
From S2P Require Import Endian.
From S2P Require Import Varint.
From S2P Require Import VarintParse.
From S2P Require Import VarintCode.
From S2P Require Import Coder.
Import Encoder.
Local Open Scope Z_scope.

(** ** Representation *)

Definition enc_rep (h : heap) (e : Encoder) (d free : list Z) (own : bool) : Prop :=
  buf_ e = orig_ e + zlen d /\ limit_ e = orig_ e + zlen d + zlen free /\
  underlying_buffer_ e = (if own then orig_ e else 0) /\ zlen d + zlen free < 2 ^ 63 /\ bytes_ok (d ++ free) /\
  (orig_ e = 0 /\ own = true /\ d = [] /\ free = [] /\ h !! 0 = None \/
   0 < orig_ e /\ h !! orig_ e = Some (d ++ free)).

Lemma make0_rep h : h !! 0 = None -> enc_rep h make0 [] [] true.
Proof. intros. unfold enc_rep. cbn. split_and!; try done; [apply bytes_ok_nil|]. left. done. Qed.

Lemma make_rep h b l : 0 < b -> h !! b = Some l -> zlen l < 2 ^ 63 -> bytes_ok l -> enc_rep h (make b (zlen l)) [] l false.
Proof.
  intros Hb Hl Hs Hok. unfold enc_rep. cbn [make buf_ orig_ limit_ underlying_buffer_ app]. rewrite (@zlen_nil Z).
  split_and!; try (done || lia). right. done.
Qed.

Section encoder.
Context `{BuildMode} `{Target} `{Allocator}.

Lemma enc_block h e d free own : enc_rep h e d free own -> block h (orig_ e) = d ++ free.
Proof.
  intros (_ & _ & _ & _ & _ & [(-> & _ & -> & -> & E)|[_ E]]); unfold block; by rewrite E.
Qed.

Lemma avail_rep h e d free own : enc_rep h e d free own -> avail e = Ok (zlen free).
Proof.
  intros (E1 & E2 & _ & Hs & _ & _). pose proof (zlen_nonneg d). pose proof (zlen_nonneg free). unfold avail.
  rewrite E1, E2, Z.geb_leb, (proj2 (Z.leb_le _ _)), DCHECK_true, bind_Ok by lia. f_equal. unfold u64.
  rewrite Z.mod_small by lia. lia.
Qed.

Lemma length_rep h e d free own : enc_rep h e d free own -> length e = Ok (zlen d).
Proof.
  intros (E1 & E2 & _ & Hs & _ & _). pose proof (zlen_nonneg d). pose proof (zlen_nonneg free). unfold length.
  rewrite E1, E2, Z.geb_leb, !(proj2 (Z.leb_le _ _)), !DCHECK_true, !bind_Ok by lia. f_equal. unfold u64.
  rewrite Z.mod_small by lia. lia.
Qed.

Lemma capacity_rep h e d free own : enc_rep h e d free own -> capacity e = zlen (d ++ free).
Proof.
  intros (E1 & E2 & _ & Hs & _ & _). pose proof (zlen_nonneg d). pose proof (zlen_nonneg free). unfold capacity, u64.
  rewrite E2, zlen_app, Z.mod_small; lia.
Qed.

Lemma ensure_allowed_rep h e d free own : enc_rep h e d free own -> ensure_allowed e = own.
Proof.
  intros (_ & _ & E & _ & _ & [(E0 & -> & _)|[E0 _]]); unfold ensure_allowed; rewrite E; [apply Z.eqb_refl|].
  destruct own; [apply Z.eqb_refl|]. apply Z.eqb_neq. lia.
Qed.

Lemma assert_true c : c = Ok true -> HARDENING_ASSERT c = Ok tt.
Proof. intros ->. unfold HARDENING_ASSERT. by destruct (HARDENED || negb NDEBUG). Qed.

Lemma room_rep h e d free own n : enc_rep h e d free own -> n <= zlen free -> HARDENING_ASSERT (room e n) = Ok tt.
Proof.
  intros R Hn. apply assert_true. unfold room. rewrite (avail_rep _ _ _ _ _ R), bind_Ok, Z.geb_leb. f_equal.
  by apply Z.leb_le.
Qed.

(** The heap without the block of the encoder is not touched by a write. *)
Lemma write_rep h e d free own f d' free' : enc_rep h e d free own ->
  f (d ++ free) (zlen d) = Ok (d' ++ free', zlen d') -> zlen d' + zlen free' = zlen d + zlen free ->
  bytes_ok (d' ++ free') ->
  exists h' e', write h e f = Ok (h', e') /\ enc_rep h' e' d' free' own /\ orig_ e' = orig_ e /\
    delete (orig_ e) h' = delete (orig_ e) h.
Proof.
  intros R Ef El Hok'. pose proof R as (E1 & E2 & E3 & Hs & Hok & Hb). pose proof (zlen_nonneg d'). pose proof (zlen_nonneg free').
  unfold write. rewrite (enc_block _ _ _ _ _ R). replace (buf_ e - orig_ e) with (zlen d) by lia.
  rewrite Ef, bind_Ok. cbn [set_buf buf_ orig_ limit_].
  rewrite Z.geb_leb, !(proj2 (Z.leb_le _ _)), !DCHECK_true, !bind_Ok by lia. eexists _, _. split; [done|].
  cbn [set_buf orig_]. split; [|split; [done|]].
  - unfold enc_rep. cbn [set_buf buf_ orig_ limit_ underlying_buffer_]. split_and!; try (done || lia).
    destruct Hb as [(E0 & -> & -> & -> & En)|[Hp Eb]]; [left|right].
    + rewrite (@zlen_nil Z) in El. rewrite (zlen_0 d'), (zlen_0 free'), E0 by lia.
      rewrite bool_decide_eq_false_2 by (rewrite En; by intros [? ?]). done.
    + split; [done|]. rewrite bool_decide_eq_true_2 by (by eexists). apply lookup_insert_eq.
  - case_bool_decide; [|done]. by rewrite delete_insert_eq.
Qed.

(** *** Appending *)

Definition appended (h : heap) (e : Encoder) (d l free : list Z) (own : bool) (r : outcome (heap * Encoder)) : Prop :=
  exists h' e', r = Ok (h', e') /\ enc_rep h' e' (d ++ l) free own /\ orig_ e' = orig_ e /\
    delete (orig_ e) h' = delete (orig_ e) h.

(** A write of the bytes [l] at the end of the encoded bytes. *)
Lemma append_rep h e d old free own f l : enc_rep h e d (old ++ free) own -> List.length old = List.length l ->
  f (d ++ old ++ free) (zlen d) = Ok (d ++ l ++ free, zlen d + zlen l) ->
  bytes_ok l -> appended h e d l free own (write h e f).
Proof.
  intros R El Ef Hl. pose proof R as (_ & _ & _ & _ & Hok & _). rewrite !bytes_ok_app in Hok.
  apply (write_rep h e d (old ++ free) own f (d ++ l) free R).
  - by rewrite Ef, <- app_assoc, zlen_app.
  - rewrite !zlen_app. unfold zlen. lia.
  - rewrite !bytes_ok_app. tauto.
Qed.

Lemma split_room {A} (free : list A) n : Z.of_nat n <= zlen free ->
  exists old free', free = old ++ free' /\ List.length old = n.
Proof.
  intros Hn. exists (take n free), (drop n free). rewrite take_drop, length_take. split; [done|].
  unfold zlen in Hn. lia.
Qed.

(** The puts that store [k] bytes. *)
Lemma store_put h e d old free own k l store : enc_rep h e d (old ++ free) own ->
  List.length old = k -> List.length l = k ->
  store (d ++ old ++ free) (zlen d) = Ok (d ++ l ++ free) -> bytes_ok l ->
  appended h e d l free own
    (_ ← HARDENING_ASSERT (room e (Z.of_nat k)); write h e (fun b p => b ← store b p; Ok (b, p + Z.of_nat k))).
Proof.
  intros R Ho Hl Es Hok. rewrite (room_rep _ _ _ _ _ _ R) by (rewrite zlen_app; pose proof (zlen_nonneg free); unfold zlen in *; lia).
  rewrite bind_Ok. apply (append_rep _ _ _ _ _ _ _ _ R); [lia| |done]. rewrite Es, bind_Ok. unfold zlen. by rewrite Hl.
Qed.

Lemma put8_rep h e d old free own v : enc_rep h e d (old ++ free) own -> List.length old = 1%nat ->
  appended h e d [u8 v] free own (put8 h e v).
Proof.
  intros R Ho. apply (store_put h e d old free own 1 [u8 v] (fun b p => store8 b p (u8 v)) R Ho eq_refl).
  - destruct old as [|x [|]]; try done. apply store8_app.
  - apply bytes_ok_cons. split; [|apply bytes_ok_nil]. apply Z.mod_pos_bound. lia.
Qed.
Lemma put16_rep h e d old free own v : enc_rep h e d (old ++ free) own -> List.length old = 2%nat ->
  appended h e d (le_store 2 v) free own (put16 h e v).
Proof.
  intros R Ho. apply (store_put h e d old free own 2 (le_store 2 v) (fun b p => LittleEndian.Store16 b p v) R Ho eq_refl).
  - by apply UNALIGNED_STORE_app.
  - apply le_store_ok.
Qed.
Lemma put32_rep h e d old free own v : enc_rep h e d (old ++ free) own -> List.length old = 4%nat ->
  appended h e d (le_store 4 v) free own (put32 h e v).
Proof.
  intros R Ho. apply (store_put h e d old free own 4 (le_store 4 v) (fun b p => LittleEndian.Store32 b p v) R Ho eq_refl).
  - by apply UNALIGNED_STORE_app.
  - apply le_store_ok.
Qed.
Lemma put64_rep h e d old free own v : enc_rep h e d (old ++ free) own -> List.length old = 8%nat ->
  appended h e d (le_store 8 v) free own (put64 h e v).
Proof.
  intros R Ho. apply (store_put h e d old free own 8 (le_store 8 v) (fun b p => LittleEndian.Store64 b p v) R Ho eq_refl).
  - by apply UNALIGNED_STORE_app.
  - apply le_store_ok.
Qed.

Lemma Store128_app pre old post v : List.length old = 16%nat ->
  LittleEndian.Store128 (pre ++ old ++ post) (zlen pre) v =
  Ok (pre ++ (le_store 8 (Uint128Low64 v) ++ le_store 8 (Uint128High64 v)) ++ post).
Proof.
  intros Ho. unfold LittleEndian.Store128. rewrite <- (take_drop 8 old), <- app_assoc.
  rewrite UNALIGNED_STORE_app, bind_Ok by (rewrite length_take; lia).
  rewrite app_assoc. replace (zlen pre + 8) with (zlen (pre ++ le_store 8 (Uint128Low64 v)))
    by (rewrite zlen_app; unfold zlen; rewrite length_le_store; lia).
  rewrite UNALIGNED_STORE_app by (rewrite length_drop; lia). by rewrite <- !app_assoc.
Qed.
Lemma put128_rep h e d old free own v : enc_rep h e d (old ++ free) own -> List.length old = 16%nat ->
  appended h e d (le_store 8 (Uint128Low64 v) ++ le_store 8 (Uint128High64 v)) free own (put128 h e v).
Proof.
  intros R Ho. apply (store_put h e d old free own 16 (le_store 8 (Uint128Low64 v) ++ le_store 8 (Uint128High64 v))
    (fun b p => LittleEndian.Store128 b p v) R Ho eq_refl).
  - by apply Store128_app.
  - apply bytes_ok_app. split; apply le_store_ok.
Qed.

Lemma putn_rep h e d old free own l : enc_rep h e d (old ++ free) own -> List.length old = List.length l -> bytes_ok l ->
  appended h e d l free own (putn h e l).
Proof.
  intros R Ho Hl. apply (store_put h e d old free own _ l (fun b p => store_bytes b p l) R Ho eq_refl); [|done].
  by apply store_bytes_app.
Qed.

(** The varints. *)
Lemma varint_room_rep h e d free own max len : enc_rep h e d free own -> len <= zlen free ->
  HARDENING_ASSERT (varint_room e max len) = Ok tt.
Proof.
  intros R Hn. apply assert_true. unfold varint_room. rewrite (avail_rep _ _ _ _ _ R), !bind_Ok, !Z.geb_leb.
  destruct (max <=? zlen free); [done|]. f_equal. by apply Z.leb_le.
Qed.

Lemma put_varint_rep h e d old free own v max len (encode : list Z -> Z -> Z -> outcome (list Z * Z)) :
  enc_rep h e d (old ++ free) own ->
  List.length old = List.length (varint v) -> len = zlen (varint v) ->
  (forall m p, encode m p v = put_all m p (varint v)) -> 0 <= v ->
  appended h e d (varint v) free own
    (_ ← HARDENING_ASSERT (varint_room e max len); write h e (fun b p => encode b p v)).
Proof.
  intros R Ho -> Ee Hv. rewrite (varint_room_rep _ _ _ _ _ _ _ R), bind_Ok
    by (rewrite zlen_app; pose proof (zlen_nonneg free); unfold zlen in *; lia).
  apply (append_rep _ _ _ _ _ _ _ _ R Ho); [|by apply varint_ok]. rewrite Ee. by apply put_all_spec.
Qed.

Lemma put_varint32_rep h e d old free own v : 0 <= v < 2 ^ 32 -> enc_rep h e d (old ++ free) own ->
  List.length old = List.length (varint v) ->
  appended h e d (varint v) free own (put_varint32 h e v).
Proof.
  intros Hv R Ho. apply (put_varint_rep _ _ _ _ _ _ _ _ _ _ R Ho); [apply LengthImpl_varint; lia| |lia].
  intros. by apply Encode32_put.
Qed.
Lemma put_varint64_rep h e d old free own v : 0 <= v < 2 ^ 64 -> enc_rep h e d (old ++ free) own ->
  List.length old = List.length (varint v) ->
  appended h e d (varint v) free own (put_varint64 h e v).
Proof.
  intros Hv R Ho. apply (put_varint_rep _ _ _ _ _ _ _ _ _ _ R Ho); [by apply LengthImpl_varint| |lia].
  intros. by apply Encode64_put.
Qed.

(** [memccpy] of a string without [c], followed by [c]. *)
Lemma memccpy_stop l c post n : Forall (fun b => b <> c) l -> (List.length l < n)%nat ->
  memccpy (l ++ c :: post) c n = Ok (l ++ [c], true).
Proof.
  intros Hl. revert n. induction Hl as [|b l Hb Hl IH]; intros n Hn; (destruct n as [|n]; [cbn in Hn; lia|]); cbn [memccpy app].
  - by rewrite Z.eqb_refl.
  - rewrite (proj2 (Z.eqb_neq b c)) by done. rewrite IH by (cbn in Hn; lia). done.
Qed.

Lemma puts_rep h e d old free own l post : enc_rep h e d (old ++ free) own ->
  List.length old = S (List.length l) -> Forall (fun b => b <> 0) l -> bytes_ok l ->
  appended h e d (l ++ [0]) free own (puts h e (l ++ 0 :: post)).
Proof.
  intros R Ho Hl Hok. apply (append_rep _ _ _ _ _ _ _ _ R); [rewrite length_app; cbn; lia| |].
  2: { apply bytes_ok_app. split; [done|]. apply bytes_ok_cons. split; [split; lia|apply bytes_ok_nil]. }
  rewrite (avail_rep _ _ _ _ _ R), bind_Ok. unfold writer_putcn. change (u8 0) with 0.
  rewrite memccpy_stop by (try done; rewrite zlen_app; pose proof (zlen_nonneg free); unfold zlen in *; lia).
  rewrite bind_Ok. rewrite store_bytes_app by (rewrite length_app; cbn; lia). done.
Qed.

(** *** Ownership *)

Lemma release_rep h e d free own : enc_rep h e d free own ->
  release h e = Ok (if own then delete (orig_ e) h else h).
Proof.
  intros R. unfold release. rewrite (ensure_allowed_rep _ _ _ _ _ R), (capacity_rep _ _ _ _ _ R).
  destruct own; [|done]. pose proof R as (_ & _ & E & _ & _ & Hb). unfold DeleteBuffer, delete_sized. rewrite E.
  destruct Hb as [(E0 & _ & _ & _ & En)|[Hp Eb]].
  - rewrite E0, Z.eqb_refl. f_equal. symmetry. by apply delete_id.
  - rewrite (proj2 (Z.eqb_neq _ _)), Eb, Z.eqb_refl by lia. done.
Qed.

Lemma destroy_rep h e d free own : enc_rep h e d free own ->
  destroy h e = Ok (if own then delete (orig_ e) h else h).
Proof.
  intros R. unfold destroy. pose proof R as (E1 & E2 & _). pose proof (zlen_nonneg free).
  rewrite E1, E2, (proj2 (Z.leb_le _ _)) by lia. cbn [CHECK]. rewrite bind_Ok. by apply (release_rep _ _ _ _ _ R).
Qed.

(** What [Ensure(N)] achieves: the same bytes, room for [N] more, and no other
    block touched. *)
Definition ensured (h : heap) (e : Encoder) (d : list Z) (N : Z) (h' : heap) (e' : Encoder) : Prop :=
  exists free', enc_rep h' e' d free' true /\ N <= zlen free' /\
    delete (orig_ e') h' = delete (orig_ e) h /\ (orig_ e' = orig_ e \/ h !! orig_ e' = None).

Lemma copy_over (d free b : list Z) : zlen d <= zlen b ->
  load_bytes (d ++ free) 0 (Z.to_nat (zlen d)) = Ok d /\
  store_bytes b 0 d = Ok (d ++ drop (List.length d) b).
Proof.
  intros Hb. split.
  - replace (Z.to_nat (zlen d)) with (List.length d) by (unfold zlen; lia).
    exact (load_bytes_app [] d free (List.length d) eq_refl).
  - rewrite <- (take_drop (List.length d) b) at 1. unfold zlen in Hb.
    exact (store_bytes_app [] (take (List.length d) b) d (drop (List.length d) b) ltac:(rewrite length_take; lia)).
Qed.

Lemma EnsureSlowPath_rep h e d free N : enc_rep h e d free true -> 0 <= N < 2 ^ 64 -> zlen free < N ->
  (exists h' e', EnsureSlowPath h e N = Ok (h', e') /\ ensured h e d N h' e') \/
  EnsureSlowPath h e N = Crash /\ ~ zlen d + N < 2 ^ 61.
Proof.
  intros R HN Hf. pose proof R as (E1 & E2 & E3 & Hs & Hok & Hb). pose proof (zlen_nonneg d) as Hd. pose proof (zlen_nonneg free) as Hf0.
  unfold EnsureSlowPath. rewrite (ensure_allowed_rep _ _ _ _ _ R), (avail_rep _ _ _ _ _ R), (length_rep _ _ _ _ _ R).
  cbn [CHECK]. rewrite !bind_Ok, (proj2 (Z.ltb_lt _ _)), E3, Z.eqb_refl, orb_true_r by lia.
  replace (if NDEBUG then Ok tt else CHECK true) with (Ok tt) by (by destruct NDEBUG). rewrite !bind_Ok.
  set (n := Z.max _ _). assert (zlen d <= n) as Hn by (unfold n, u64; rewrite (Z.mod_small (2 * zlen d)); lia).
  unfold NewBuffer. destruct (size_returning_new h n) as [[p b]|] eqn:En.
  2: { right. split; [done|]. intros Hlt. destruct (new_available h n) as [? ?]; [|congruence].
       unfold n, u64. rewrite !Z.mod_small by lia. lia. }
  apply new_block in En as (Hp & Hfresh & Hsz & Hbb). rewrite bind_Ok.
  assert (p <> orig_ e) as Hpo by (intros ->; destruct Hb as [(E0 & _)|[_ Eb]]; [lia|congruence]).
  assert (exists l, (if negb (orig_ e =? 0)
    then l ← load_bytes (block (<[p:=b]> h) (orig_ e)) 0 (Z.to_nat (zlen d));
         b0 ← store_bytes (block (<[p:=b]> h) p) 0 l;
         DeleteBuffer (<[p:=b0]> (<[p:=b]> h)) (orig_ e) (capacity e)
    else Ok (<[p:=b]> h)) = Ok (<[p := d ++ l]> (delete (orig_ e) h)) /\ zlen (d ++ l) = zlen b /\ bytes_ok (d ++ l)) as (l & -> & El & Hdl).
  { exists (drop (List.length d) b).
    assert (zlen (d ++ drop (List.length d) b) = zlen b) as El
      by (unfold zlen in *; rewrite length_app, length_drop; lia).
    split; [|split; [done|]]; [|rewrite !bytes_ok_app in *; split; [apply Hok|by apply bytes_ok_drop]].
    destruct Hb as [(E0 & _ & -> & -> & Eh)|[Hp0 Eb]].
    - rewrite E0, Z.eqb_refl. cbn [negb List.length app]. by rewrite drop_0, delete_id.
    - rewrite (proj2 (Z.eqb_neq (orig_ e) 0)) by lia. cbn [negb]. unfold block.
      rewrite (lookup_insert_ne h p (orig_ e) b Hpo), Eb, lookup_insert_eq.
      destruct (copy_over d free b ltac:(lia)) as [-> E]. rewrite bind_Ok, E, bind_Ok, insert_insert_eq.
      unfold DeleteBuffer, delete_sized. rewrite (proj2 (Z.eqb_neq (orig_ e) 0)), lookup_insert_ne, Eb by (done || lia).
      rewrite (capacity_rep _ _ _ _ _ R), Z.eqb_refl. by rewrite delete_insert_ne. }
  rewrite bind_Ok. rewrite zlen_app in El. pose proof (zlen_nonneg l) as Hl0.
  assert (enc_rep (<[p:=d ++ l]> (delete (orig_ e) h))
    {| buf_ := p + zlen d; limit_ := p + zlen b; underlying_buffer_ := p; orig_ := p |} d l true) as R'.
  { unfold enc_rep. cbn [buf_ limit_ underlying_buffer_ orig_]. split_and!; try (done || lia). right.
    split; [done|]. apply lookup_insert_eq. }
  rewrite (avail_rep _ _ _ _ _ R'), bind_Ok, Z.geb_leb. destruct (Z.leb_spec N (zlen l)) as [Hle|Hgt]; cbn [CHECK].
  - left. eexists _, _. split; [done|]. exists l. split; [exact R'|]. split; [done|]. cbn [orig_].
    split; [|by right]. rewrite delete_insert_eq. apply delete_id. by rewrite lookup_delete_ne.
  - right. split; [done|]. intros Hlt. revert Hsz. unfold n, u64. rewrite !Z.mod_small by lia. lia.
Qed.

Lemma Ensure_rep h e d free N : enc_rep h e d free true -> 0 <= N < 2 ^ 64 ->
  (exists h' e', Ensure h e N = Ok (h', e') /\ ensured h e d N h' e') \/
  Ensure h e N = Crash /\ ~ zlen d + N < 2 ^ 61.
Proof.
  intros R HN. unfold Ensure. rewrite (ensure_allowed_rep _ _ _ _ _ R), DCHECK_true, bind_Ok.
  rewrite (avail_rep _ _ _ _ _ R), bind_Ok. destruct (Z.ltb_spec (zlen free) N) as [Hlt|Hge].
  - by apply (EnsureSlowPath_rep _ _ _ _ _ R).
  - left. exists h, e. split; [done|]. exists free. split; [done|]. split; [done|]. split; [done|by left].
Qed.
End encoder.
