(* ===== verification/CoderSpec.v ===== *)
(** * What is put is got back, and buffers are freed once

    Sequences of encoder operations: a list of items put into an encoder that
    grows, and got back from a decoder of the encoded bytes; and scripts of
    operations, resets to client buffers and moves included, after which the
    destructor leaves the heap as it was. *)
From Stdlib Require Import ZArith Lia.
From stdpp Require Import base list numbers option gmap fin_maps.
From S2P Require Import Prelude.
From S2P Require Import Endian.
From S2P Require Import Varint.
From S2P Require Import VarintParse.
From S2P Require Import VarintCode.
From S2P Require Import Coder.
From S2P Require Import CoderProps.
Local Open Scope Z_scope.

(** ** Items *)

Inductive Item :=
| I8 (v : Z) | I16 (v : Z) | I32 (v : Z) | I64 (v : Z) | I128 (v : Z)
| IVarint32 (v : Z) | IVarint64 (v : Z)
| IBytes (l : list Z)
| ICString (l : list Z).

(** What a reader must know of an item: its type and, for bytes and strings,
    the size of the buffer they are read into. *)
Inductive Kind := K8 | K16 | K32 | K64 | K128 | KVarint32 | KVarint64 | KBytes (n : Z) | KCString (n : Z).

Definition item_ok (it : Item) : Prop :=
  match it with
  | I8 v => 0 <= v < 2 ^ 8
  | I16 v => 0 <= v < 2 ^ 16
  | I32 v | IVarint32 v => 0 <= v < 2 ^ 32
  | I64 v | IVarint64 v => 0 <= v < 2 ^ 64
  | I128 v => 0 <= v < 2 ^ 128
  | IBytes l => bytes_ok l /\ zlen l < 2 ^ 32
  | ICString l => bytes_ok l /\ Forall (fun b => b <> 0) l /\ zlen l < 2 ^ 32
  end.

(** [gets] needs one byte more than the string and its terminator. *)
Definition kind_of (it : Item) : Kind :=
  match it with
  | I8 _ => K8 | I16 _ => K16 | I32 _ => K32 | I64 _ => K64 | I128 _ => K128
  | IVarint32 _ => KVarint32 | IVarint64 _ => KVarint64
  | IBytes l => KBytes (zlen l)
  | ICString l => KCString (zlen l + 2)
  end.

Definition item_bytes (it : Item) : list Z :=
  match it with
  | I8 v => [u8 v]
  | I16 v => le_store 2 v
  | I32 v => le_store 4 v
  | I64 v => le_store 8 v
  | I128 v => le_store 8 (Uint128Low64 v) ++ le_store 8 (Uint128High64 v)
  | IVarint32 v | IVarint64 v => varint v
  | IBytes l => l
  | ICString l => l ++ [0]
  end.

(** The string at the start of a buffer. *)
Fixpoint c_str (l : list Z) : list Z :=
  match l with [] => [] | b :: l' => if b =? 0 then [] else b :: c_str l' end.

Section items.
Context `{BuildMode} `{Target} `{Allocator}.

Definition put_item (h : heap) (e : Encoder.Encoder) (it : Item) : outcome (heap * Encoder.Encoder) :=
  match it with
  | I8 v => '(h, e) ← Encoder.Ensure h e 1; Encoder.put8 h e v
  | I16 v => '(h, e) ← Encoder.Ensure h e 2; Encoder.put16 h e v
  | I32 v => '(h, e) ← Encoder.Ensure h e 4; Encoder.put32 h e v
  | I64 v => '(h, e) ← Encoder.Ensure h e 8; Encoder.put64 h e v
  | I128 v => '(h, e) ← Encoder.Ensure h e 16; Encoder.put128 h e v
  | IVarint32 v => '(h, e) ← Encoder.Ensure h e kMax32; Encoder.put_varint32 h e v
  | IVarint64 v => '(h, e) ← Encoder.Ensure h e kMax64; Encoder.put_varint64 h e v
  | IBytes l => '(h, e) ← Encoder.Ensure h e (zlen l); Encoder.putn h e l
  | ICString l => '(h, e) ← Encoder.Ensure h e (zlen l + 1); Encoder.puts h e (l ++ [0])
  end.

Fixpoint put_items (h : heap) (e : Encoder.Encoder) (its : list Item) : outcome (heap * Encoder.Encoder) :=
  match its with
  | [] => Ok (h, e)
  | it :: its' => '(h, e) ← put_item h e it; put_items h e its'
  end.

(** Reading into buffers filled with [fill]; [None] is a refused varint. *)
Definition get_item (fill : Z) (h : heap) (d : Decoder.Decoder) (k : Kind) : outcome (option (Item * Decoder.Decoder)) :=
  match k with
  | K8 => '(v, d) ← Decoder.get8 h d; Ok (Some (I8 v, d))
  | K16 => '(v, d) ← Decoder.get16 h d; Ok (Some (I16 v, d))
  | K32 => '(v, d) ← Decoder.get32 h d; Ok (Some (I32 v, d))
  | K64 => '(v, d) ← Decoder.get64 h d; Ok (Some (I64 v, d))
  | K128 => '(v, d) ← Decoder.get128 h d; Ok (Some (I128 v, d))
  | KVarint32 => r ← Decoder.get_varint32 h d; Ok (match r with Some (v, d) => Some (IVarint32 v, d) | None => None end)
  | KVarint64 => r ← Decoder.get_varint64 h d; Ok (match r with Some (v, d) => Some (IVarint64 v, d) | None => None end)
  | KBytes n => '(l, d) ← Decoder.getn h d (replicate (Z.to_nat n) fill) n; Ok (Some (IBytes l, d))
  | KCString n => '(l, d) ← Decoder.gets h d (replicate (Z.to_nat n) fill) n; Ok (Some (ICString (c_str l), d))
  end.

Fixpoint get_items (fill : Z) (h : heap) (d : Decoder.Decoder) (ks : list Kind)
    : outcome (option (list Item * Decoder.Decoder)) :=
  match ks with
  | [] => Ok (Some ([], d))
  | k :: ks' =>
      r ← get_item fill h d k;
      match r with
      | None => Ok None
      | Some (it, d) =>
          r ← get_items fill h d ks';
          Ok (match r with Some (its, d) => Some (it :: its, d) | None => None end)
      end
  end.

(** *** Putting *)

Lemma zlen_varint64 v : 0 <= v < 2 ^ 64 -> zlen (varint v) <= 10.
Proof. intros Hv. rewrite zlen_varint by done. pose proof (log2_lt64 v Hv). zlia. Qed.
Lemma zlen_varint32 v : 0 <= v < 2 ^ 32 -> zlen (varint v) <= 5.
Proof.
  intros Hv. rewrite zlen_varint by lia. pose proof (Z.log2_nonneg v).
  assert (Z.log2 v < 32) by (destruct (Z.eqb_spec v 0) as [->|]; [done|apply Z.log2_lt_pow2; lia]). zlia.
Qed.

Definition item_size (it : Item) : Z := zlen (item_bytes it) + 10.

(** The heap without the encoder's block stays as it is; an encoder whose block
    changes has a new one. *)
Definition grown (h : heap) (e : Encoder.Encoder) (h' : heap) (e' : Encoder.Encoder) : Prop :=
  delete (Encoder.orig_ e') h' = delete (Encoder.orig_ e) h.

(** [Ensure] and then a put that appends [l]. *)
Lemma ensure_put h e d free N l (put : heap -> Encoder.Encoder -> outcome (heap * Encoder.Encoder)) :
  enc_rep h e d free true -> zlen l <= N < 2 ^ 60 -> zlen d < 2 ^ 60 ->
  (forall h e old free, enc_rep h e d (old ++ free) true -> List.length old = List.length l ->
     appended h e d l free true (put h e)) ->
  exists h' e' free', ('(h, e) ← Encoder.Ensure h e N; put h e) = Ok (h', e') /\
    enc_rep h' e' (d ++ l) free' true /\ grown h e h' e'.
Proof.
  intros R HN Hd Hput. pose proof (zlen_nonneg l). pose proof (zlen_nonneg d).
  destruct (Ensure_rep h e d free N R ltac:(lia)) as [(h1 & e1 & -> & f1 & R1 & Hf & Hdel & _)|[_ Hx]]; [|lia].
  rewrite bind_Ok. destruct (split_room f1 (List.length l)) as (old & free' & -> & Ho); [unfold zlen in *; lia|].
  destruct (Hput h1 e1 old free' R1 Ho) as (h2 & e2 & E2 & R2 & Eo & Hd2).
  exists h2, e2, free'. split; [done|]. split; [done|]. unfold grown. congruence.
Qed.

Lemma put_item_rep h e d free it : item_ok it -> enc_rep h e d free true -> zlen d < 2 ^ 60 ->
  exists h' e' free', put_item h e it = Ok (h', e') /\ enc_rep h' e' (d ++ item_bytes it) free' true /\ grown h e h' e'.
Proof.
  intros Hit R Hd. destruct it; cbn [put_item item_bytes item_ok] in *.
  - eapply ensure_put; [exact R|done|done|]. intros. by eapply put8_rep.
  - eapply ensure_put; [exact R|by rewrite zlen_le_store|done|]. intros. by eapply put16_rep.
  - eapply ensure_put; [exact R|by rewrite zlen_le_store|done|]. intros. by eapply put32_rep.
  - eapply ensure_put; [exact R|by rewrite zlen_le_store|done|]. intros. by eapply put64_rep.
  - eapply ensure_put; [exact R|by rewrite zlen_app, !zlen_le_store|done|]. intros. by eapply put128_rep.
  - eapply ensure_put; [exact R|pose proof (zlen_varint32 v Hit); unfold kMax32; lia|done|]. intros. by eapply put_varint32_rep.
  - eapply ensure_put; [exact R|pose proof (zlen_varint64 v Hit); unfold kMax64; lia|done|]. intros. by eapply put_varint64_rep.
  - eapply ensure_put; [exact R|lia|done|]. intros. apply (putn_rep _ _ _ old); [done|done|apply Hit].
  - destruct Hit as (Hb & Hnz & Hl). eapply ensure_put; [exact R|rewrite zlen_app; change (zlen [0]) with 1; lia|done|].
    intros h1 e1 old f1 R1 Ho. apply (puts_rep _ _ _ _ _ _ _ [] R1); [rewrite Ho, length_app; cbn; lia|done|done].
Qed.

Definition items_bytes (its : list Item) : list Z := concat (map item_bytes its).

Lemma put_items_rep its h e d free : Forall item_ok its -> enc_rep h e d free true ->
  zlen d + zlen (items_bytes its) < 2 ^ 60 ->
  exists h' e' free', put_items h e its = Ok (h', e') /\ enc_rep h' e' (d ++ items_bytes its) free' true /\
    grown h e h' e'.
Proof.
  intros Hits. revert h e d free. induction Hits as [|it its Hit Hits IH]; intros h e d free R Hs; cbn [put_items].
  { exists h, e, free. unfold items_bytes. cbn. rewrite app_nil_r. done. }
  unfold items_bytes in *. cbn [map concat] in *. rewrite zlen_app in Hs.
  pose proof (zlen_nonneg (item_bytes it)). pose proof (zlen_nonneg (concat (map item_bytes its))).
  destruct (put_item_rep h e d free it Hit R ltac:(lia)) as (h1 & e1 & f1 & -> & R1 & G1). rewrite bind_Ok.
  destruct (IH h1 e1 (d ++ item_bytes it) f1 R1) as (h2 & e2 & f2 & E2 & R2 & G2); [rewrite zlen_app; lia|].
  exists h2, e2, f2. split; [done|]. rewrite <- app_assoc in R2. split; [done|]. unfold grown in *. congruence.
Qed.

(** *** Getting *)

Definition dec_rep (h : heap) (d : Decoder.Decoder) (pre rest : list Z) : Prop :=
  exists junk, block h (Decoder.orig_ d) = pre ++ rest ++ junk /\ bytes_ok (rest ++ junk) /\
    Decoder.buf_ d = Decoder.orig_ d + zlen pre /\ Decoder.limit_ d = Decoder.orig_ d + zlen pre + zlen rest /\
    zlen (pre ++ rest ++ junk) < 2 ^ 63.

Lemma dec_avail h d pre rest : dec_rep h d pre rest -> Decoder.avail d = Ok (zlen rest).
Proof.
  intros (junk & _ & _ & E1 & E2 & Hs). rewrite !zlen_app in Hs. pose proof (zlen_nonneg rest).
  pose proof (zlen_nonneg pre). pose proof (zlen_nonneg junk). unfold Decoder.avail.
  rewrite E1, E2, Z.geb_leb, (proj2 (Z.leb_le _ _)), DCHECK_true, bind_Ok by lia. f_equal. unfold u64.
  rewrite Z.mod_small; lia.
Qed.

Lemma dec_advance h d pre l rest : dec_rep h d pre (l ++ rest) ->
  dec_rep h (Decoder.set_buf d (Decoder.buf_ d + zlen l)) (pre ++ l) rest.
Proof.
  intros (junk & Eb & Hok & E1 & E2 & Hs). exists junk. cbn [Decoder.set_buf Decoder.orig_ Decoder.buf_ Decoder.limit_].
  rewrite <- !app_assoc in *. rewrite !zlen_app in *. apply bytes_ok_app in Hok as [_ Hok]. split_and!; (done || lia).
Qed.

(** The gets that load [k] bytes. *)
Lemma load_get h d pre l rest k v load : dec_rep h d pre (l ++ rest) -> zlen l = k ->
  (forall post, load (pre ++ l ++ post) (zlen pre) = Ok v) ->
  (_ ← HARDENING_ASSERT (Decoder.room d k); Decoder.read h d k load) =
    Ok (v, Decoder.set_buf d (Decoder.buf_ d + zlen l)).
Proof.
  intros R <- El. rewrite assert_true.
  - pose proof R as (junk & Eb & _ & E1 & _). rewrite bind_Ok. unfold Decoder.read.
    rewrite Eb, E1, <- app_assoc. replace (Decoder.orig_ d + zlen pre - Decoder.orig_ d) with (zlen pre) by lia.
    by rewrite El, bind_Ok.
  - unfold Decoder.room. rewrite (dec_avail _ _ _ _ R), bind_Ok, Z.geb_leb, zlen_app. f_equal. apply Z.leb_le.
    pose proof (zlen_nonneg rest). lia.
Qed.

Lemma le_load_item k v pre post : 0 <= v < 2 ^ (8 * Z.of_nat k) ->
  UNALIGNED_LOAD k (pre ++ le_store k v ++ post) (zlen pre) = Ok v.
Proof.
  intros Hv. rewrite UNALIGNED_LOAD_app by (by rewrite length_le_store). by rewrite le_load_store, Z.mod_small.
Qed.

Lemma Load128_item v pre post : 0 <= v < 2 ^ 128 ->
  LittleEndian.Load128 (pre ++ (le_store 8 (Uint128Low64 v) ++ le_store 8 (Uint128High64 v)) ++ post) (zlen pre) = Ok v.
Proof.
  intros Hv. unfold LittleEndian.Load128, Uint128Low64, Uint128High64.
  set (lo := v mod 2 ^ 64). set (hi := v / 2 ^ 64).
  assert (0 <= lo < 2 ^ 64) by (apply Z.mod_pos_bound; lia).
  assert (0 <= hi < 2 ^ 64) by (split; [apply Z.div_pos; lia|apply Z.div_lt_upper_bound; lia]).
  rewrite <- app_assoc, (app_assoc pre). replace (zlen pre + 8) with (zlen (pre ++ le_store 8 lo))
    by (rewrite zlen_app, zlen_le_store; lia).
  rewrite le_load_item, bind_Ok, <- app_assoc, le_load_item, bind_Ok by done. unfold MakeUint128. f_equal.
  pose proof (Z.div_mod v (2 ^ 64)). lia.
Qed.

(** The varint parsers, on the rest of the decoder. *)
Lemma dec_split h d pre rest : dec_rep h d pre rest ->
  exists junk, block h (Decoder.orig_ d) = pre ++ rest ++ junk /\ bytes_ok (rest ++ junk) /\
    Decoder.buf_ d - Decoder.orig_ d = zlen pre /\ Decoder.limit_ d - Decoder.orig_ d = zlen pre + zlen rest /\
    zlen (pre ++ rest ++ junk) + 10 < 2 ^ 64.
Proof. intros (junk & ? & ? & ? & ? & ?). exists junk. split_and!; (done || lia). Qed.

Lemma get_varint32_rep h d pre l rest v : 0 <= v < 2 ^ 32 -> dec_rep h d pre (varint v ++ rest) -> l = varint v ->
  Decoder.get_varint32 h d = Ok (Some (v, Decoder.set_buf d (Decoder.buf_ d + zlen l))).
Proof.
  intros Hv R ->. pose proof R as (? & _ & _ & E1 & _).
  destruct (dec_split _ _ _ _ R) as (junk & Eb & Hok & Ep & El & _). unfold Decoder.get_varint32.
  apply bytes_ok_app in Hok as [Hok _]. rewrite Eb, Ep, El, Parse32WithLimit_vparse, bind_Ok by done.
  unfold vparse_limit. rewrite vparse_varint32 by done. cbn [at_ptr]. rewrite E1. do 4 f_equal. lia.
Qed.
Lemma get_varint64_rep h d pre l rest v : 0 <= v < 2 ^ 64 -> dec_rep h d pre (varint v ++ rest) -> l = varint v ->
  Decoder.get_varint64 h d = Ok (Some (v, Decoder.set_buf d (Decoder.buf_ d + zlen l))).
Proof.
  intros Hv R ->. pose proof R as (? & _ & _ & E1 & _).
  destruct (dec_split _ _ _ _ R) as (junk & Eb & Hok & Ep & El & Hs). unfold Decoder.get_varint64.
  rewrite Eb, Ep, El, Parse64WithLimit_vparse, bind_Ok by done.
  unfold vparse_limit. rewrite vparse_varint64 by done. cbn [at_ptr]. rewrite E1. do 4 f_equal. lia.
Qed.

Lemma getn_rep h d pre l rest fill : dec_rep h d pre (l ++ rest) ->
  Decoder.getn h d (replicate (Z.to_nat (zlen l)) fill) (zlen l) =
    Ok (l, Decoder.set_buf d (Decoder.buf_ d + zlen l)).
Proof.
  intros R. destruct (dec_split _ _ _ _ R) as (junk & Eb & _ & Ep & _). unfold Decoder.getn.
  rewrite Eb, Ep, <- app_assoc, load_bytes_app, bind_Ok by (unfold zlen; lia).
  assert (store_bytes (replicate (Z.to_nat (zlen l)) fill) 0 l = Ok l) as ->; [|done].
  pose proof (store_bytes_app [] (replicate (Z.to_nat (zlen l)) fill) l []) as E. rewrite !app_nil_r in E. cbn [app] in E.
  rewrite <- E; [done|]. rewrite length_replicate. unfold zlen. lia.
Qed.

Lemma c_str_app l post : Forall (fun b => b <> 0) l -> c_str (l ++ 0 :: post) = l.
Proof.
  intros Hl. induction Hl as [|b l Hb Hl IH]; cbn [app c_str]; [done|].
  by rewrite (proj2 (Z.eqb_neq b 0)), IH by done.
Qed.

(** The string is cut at its terminator. *)
Lemma gets_rep h d pre l rest fill : Forall (fun b => b <> 0) l -> zlen l < 2 ^ 32 -> dec_rep h d pre ((l ++ [0]) ++ rest) ->
  exists dst, Decoder.gets h d (replicate (Z.to_nat (zlen l + 2)) fill) (zlen l + 2) =
    Ok (dst, Decoder.set_buf d (Decoder.buf_ d + zlen (l ++ [0]))) /\ c_str dst = l.
Proof.
  intros Hl Hs R. destruct R as (junk & Eb & _ & E1 & E2 & Hsz). unfold Decoder.gets.
  pose proof (zlen_nonneg l). pose proof (zlen_nonneg pre). pose proof (zlen_nonneg rest). pose proof (zlen_nonneg junk).
  rewrite !zlen_app in *. change (zlen [0]) with 1 in *.
  rewrite (proj2 (Z.eqb_neq _ _)), Z.geb_leb, (proj2 (Z.leb_le _ _)), DCHECK_true, bind_Ok by lia.
  rewrite Z.gtb_ltb. unfold u64. rewrite (proj2 (Z.ltb_ge _ _)) by (rewrite Z.mod_small; lia).
  replace (zlen l + 2 - 1) with (zlen l + 1) by lia.
  assert (replicate (Z.to_nat (zlen l + 2)) fill = replicate (S (List.length l)) fill ++ [fill]) as ->.
  { replace (Z.to_nat (zlen l + 2)) with (S (List.length l) + 1)%nat by (unfold zlen; lia).
    exact (replicate_add (S (List.length l)) 1 fill). }
  assert (store8 (replicate (S (List.length l)) fill ++ [fill]) (zlen l + 1) 0 =
    Ok (replicate (S (List.length l)) fill ++ [0])) as ->.
  { rewrite <- store8_app with (c := fill). f_equal. unfold zlen. rewrite length_replicate. lia. }
  rewrite bind_Ok. unfold Decoder.getcn. rewrite Eb, E1.
  replace (Z.to_nat (Decoder.orig_ d + zlen pre - Decoder.orig_ d)) with (List.length pre) by (unfold zlen; lia).
  rewrite drop_app_length, <- !app_assoc. cbn [app]. change (u8 0) with 0.
  rewrite memccpy_stop, bind_Ok by (try done; unfold zlen; lia).
  pose proof (store_bytes_app [] (replicate (S (List.length l)) fill) (l ++ [0]) [0]) as E. cbn [app] in E.
  change (zlen []) with 0 in E. rewrite E by (rewrite length_app, length_replicate; cbn; lia).
  rewrite bind_Ok. eexists. split; [by rewrite zlen_app|]. rewrite <- app_assoc. by apply c_str_app.
Qed.

Lemma get_item_rep fill h d pre it rest : item_ok it -> dec_rep h d pre (item_bytes it ++ rest) ->
  get_item fill h d (kind_of it) = Ok (Some (it, Decoder.set_buf d (Decoder.buf_ d + zlen (item_bytes it)))).
Proof.
  intros Hit R. destruct it; cbn [get_item kind_of item_bytes item_ok] in *.
  - unfold Decoder.get8. rewrite (load_get h d pre [u8 v] rest 1 v load8 R eq_refl); [done|].
    intros post. unfold u8. rewrite Z.mod_small by done. apply load8_0.
  - unfold Decoder.get16. rewrite (load_get h d pre _ rest 2 v _ R eq_refl); [done|]. intros. by apply (le_load_item 2).
  - unfold Decoder.get32. rewrite (load_get h d pre _ rest 4 v _ R eq_refl); [done|]. intros. by apply (le_load_item 4).
  - unfold Decoder.get64. rewrite (load_get h d pre _ rest 8 v _ R eq_refl); [done|]. intros. by apply (le_load_item 8).
  - unfold Decoder.get128. rewrite (load_get h d pre _ rest 16 v _ R eq_refl); [done|]. intros. by apply Load128_item.
  - by rewrite (get_varint32_rep h d pre _ rest v Hit R eq_refl), bind_Ok.
  - by rewrite (get_varint64_rep h d pre _ rest v Hit R eq_refl), bind_Ok.
  - by rewrite (getn_rep h d pre _ rest fill R), bind_Ok.
  - destruct Hit as (_ & Hnz & Hl). destruct (gets_rep h d pre l rest fill Hnz Hl R) as (dst & -> & E).
    by rewrite bind_Ok, E.
Qed.

Lemma get_items_rep fill h its d pre rest : Forall item_ok its -> dec_rep h d pre (items_bytes its ++ rest) ->
  exists d', get_items fill h d (map kind_of its) = Ok (Some (its, d')) /\ dec_rep h d' (pre ++ items_bytes its) rest.
Proof.
  intros Hits. revert d pre. induction Hits as [|it its Hit Hits IH]; intros d pre R; cbn [map get_items].
  { exists d. unfold items_bytes. cbn. by rewrite app_nil_r. }
  unfold items_bytes in *. cbn [map concat] in *. rewrite <- app_assoc in R.
  rewrite (get_item_rep fill h d pre it _ Hit R), bind_Ok.
  destruct (IH _ _ (dec_advance _ _ _ _ _ R)) as (d' & -> & R'). rewrite bind_Ok. exists d'. by rewrite <- app_assoc in R'.
Qed.
End items.

(** ** An allocator *)

(** A block at a fresh address, four bytes larger than asked for. *)
Definition bump (h : heap) (n : Z) : option (Z * list Z) :=
  if n <? 2 ^ 62 then Some (1 + map_fold (fun k _ acc => Z.max k acc) 0 h, replicate (Z.to_nat n + 4) 204) else None.

Lemma map_fold_max (h : heap) p : is_Some (h !! p) -> p <= map_fold (fun k _ acc => Z.max k acc) 0 h.
Proof.
  revert p. apply (map_fold_weak_ind (fun r m => forall p, is_Some (m !! p) -> p <= r)).
  - intros p [? E]. by rewrite lookup_empty in E.
  - intros i x m r _ IH p [y E]. destruct (decide (i = p)) as [->|Hn]; [lia|].
    rewrite lookup_insert_ne in E by done. specialize (IH p ltac:(by eexists)). lia.
Qed.

Lemma map_fold_nonneg (h : heap) : 0 <= map_fold (fun k _ acc => Z.max k acc) 0 h.
Proof. apply (map_fold_weak_ind (fun r _ => 0 <= r)); intros; lia. Qed.

#[refine] Instance bump_allocator : Allocator := {| size_returning_new := bump |}.
Proof.
  - intros h n p b. unfold bump. destruct (Z.ltb_spec n (2 ^ 62)); [|done]. intros [= <- <-].
    split; [pose proof (map_fold_nonneg h); lia|]. split; [|split].
    + destruct (h !! _) eqn:E; [|done]. pose proof (map_fold_max h _ ltac:(by eexists)). lia.
    + unfold zlen. rewrite length_replicate. lia.
    + apply Forall_replicate. split; lia.
  - intros h n Hn. unfold bump. rewrite (proj2 (Z.ltb_lt _ _)) by lia. by eexists.
Defined.

(** ** Round trip *)

(** C28. What is put is got back.  Any list of items (fixed-size integers, varints,
    byte strings and C strings, 2^60 bytes at most) put into a new encoder, each
    after its [Ensure], is encoded without a failed check or an access outside
    the buffer; a decoder of [base()] and [length()] then reads the same items,
    whatever the buffers read into held before, and is left with no byte to
    read.  This holds for every allocator and for all build modes. *)
Theorem Encoder_Decoder_roundtrip `{BuildMode} `{Target} `{Allocator} h its fill :
  h !! 0 = None -> Forall item_ok its -> zlen (items_bytes its) < 2 ^ 60 ->
  exists h' e n d d', put_items h Encoder.make0 its = Ok (h', e) /\ Encoder.length e = Ok n /\
    Decoder.reset (Encoder.orig_ e) n = Ok d /\
    get_items fill h' d (map kind_of its) = Ok (Some (its, d')) /\ Decoder.avail d' = Ok 0.
Proof.
  intros Hh0 Hits Hs.
  destruct (put_items_rep its h Encoder.make0 [] [] Hits (make0_rep h Hh0)) as (h' & e & free & E & R & _); [done|].
  cbn [app] in R. pose proof (length_rep _ _ _ _ _ R) as El.
  pose proof R as (E1 & E2 & _ & Hsz & Hok & Hb). pose proof (zlen_nonneg free) as Hf.
  pose (d := {| Decoder.orig_ := Encoder.orig_ e; Decoder.buf_ := Encoder.orig_ e;
                Decoder.limit_ := Encoder.orig_ e + zlen (items_bytes its) |}).
  assert (dec_rep h' d [] (items_bytes its ++ [])) as Rd.
  { exists free. rewrite app_nil_r. cbn [d Decoder.orig_ Decoder.buf_ Decoder.limit_ app].
    rewrite (@zlen_nil Z), zlen_app. split_and!; try (done || lia). apply (enc_block _ _ _ _ _ R). }
  destruct (get_items_rep fill h' its d [] [] Hits Rd) as (d' & Eg & Rd').
  exists h', e, (zlen (items_bytes its)), d, d'. split; [done|]. split; [done|]. split.
  - unfold Decoder.reset. rewrite assert_true; [done|]. f_equal.
    destruct Hb as [(E0 & _ & Ed & _)|[Hp _]]; [by rewrite Ed, orb_true_r|].
    by rewrite (proj2 (Z.eqb_neq _ _)) by lia.
  - split; [done|]. apply (dec_avail _ _ _ _ Rd').
Qed.

Lemma Encoder_Decoder_roundtrip_witness :
  let its := [I16 513; IVarint64 (2 ^ 63 + 5); ICString [104; 105]; I128 (2 ^ 100); IBytes [0; 255]] in
  exists h' e n d d', put_items (H := opt_build) (H0 := {| HARDENED := true; x86 := true; lzcnt := false |})
      (H1 := bump_allocator) ∅ Encoder.make0 its = Ok (h', e) /\
    Encoder.length (H := opt_build) e = Ok n /\
    Decoder.reset (H := opt_build) (H0 := {| HARDENED := true; x86 := true; lzcnt := false |}) (Encoder.orig_ e) n = Ok d /\
    get_items (H := opt_build) (H0 := {| HARDENED := true; x86 := true; lzcnt := false |}) 77 h' d (map kind_of its) =
      Ok (Some (its, d')).
Proof.
  intros its. destruct (Encoder_Decoder_roundtrip (H := opt_build) (H0 := {| HARDENED := true; x86 := true; lzcnt := false |})
    (H1 := bump_allocator) ∅ its 77) as (h' & e & n & d & d' & E1 & E2 & E3 & E4 & _).
  - reflexivity.
  - repeat (apply Forall_cons; split); try apply Forall_nil; cbn [item_ok]; unfold bytes_ok, byte_ok; try lia;
      repeat split; repeat constructor; by vm_compute.
  - by vm_compute.
  - exists h', e, n, d, d'. split; [exact E1|]. split; [exact E2|]. split; [exact E3|exact E4].
Defined.
