(* ===== verification/CoderCopy.v ===== *)
(** * Copying a varint from a decoder to an encoder

    [put_varint64_from_decoder] against [get_varint64]: it copies the encoding
    that the parser accepts, when the encoder has room for it.  Two divergences
    from the code it replaces are at the end. *)
From Stdlib Require Import ZArith Lia.
From stdpp Require Import base list numbers option gmap fin_maps.
From S2P Require Import Prelude.
From S2P Require Import Endian.
From S2P Require Import Varint.
From S2P Require Import VarintParse.
From S2P Require Import VarintCode.
From S2P Require Import Coder.
From S2P Require Import CoderProps.
From S2P Require Import CoderSpec.
Import Encoder.
Local Open Scope Z_scope.

(** ** Lengths of encodings *)

(** The length of the encoding at the start of [l], of [k] bytes at most. *)
Fixpoint vlen (k : nat) (top : Z) (l : list Z) : option Z :=
  match k, l with
  | O, _ | _, [] => None
  | S k', b :: l' =>
      if b <? (match k' with O => top | _ => 128 end) then Some 1
      else (fun n => n + 1) <$> vlen k' top l'
  end.

(** The position after the first byte that ends an encoding. *)
Fixpoint first_end (l : list Z) : option Z :=
  match l with
  | [] => None
  | b :: l' => if b <? 128 then Some 1 else (fun n => n + 1) <$> first_end l'
  end.

Lemma vlen_vparse k top l : vlen k top l = fst <$> vparse_limit k top l.
Proof.
  unfold vparse_limit. revert l. induction k as [|k IH]; intros [|b l]; try done. cbn [vlen vparse].
  destruct (b <? _); [done|]. rewrite IH. by destruct (vparse k top l) as [[[n v]|]| |].
Qed.

Lemma vlen_more k top b l : 128 <= b -> vlen (S (S k)) top (b :: l) = (fun n => n + 1) <$> vlen (S k) top l.
Proof.
  intros Hb. change (vlen (S (S k)) top (b :: l)) with
    (if b <? 128 then Some 1 else (fun n => n + 1) <$> vlen (S k) top l).
  by rewrite (proj2 (Z.ltb_ge _ _)).
Qed.

Lemma first_end_bound l n : first_end l = Some n -> 1 <= n <= zlen l.
Proof.
  revert n. induction l as [|b l IH]; intros n; [done|]. cbn [first_end]. rewrite zlen_cons. pose proof (zlen_nonneg l).
  destruct (b <? 128); [intros [= <-]; lia|]. destruct (first_end l) as [m|]; [|done]. cbn. intros [= <-].
  specialize (IH m eq_refl). lia.
Qed.

Lemma vlen_bound k top l n : vlen k top l = Some n -> 1 <= n <= Z.of_nat k /\ n <= zlen l.
Proof.
  revert l n. induction k as [|k IH]; intros [|b l] n; try done. cbn [vlen]. rewrite zlen_cons. pose proof (zlen_nonneg l).
  destruct (b <? _); [intros [= <-]; lia|]. destruct (vlen k top l) as [m|] eqn:E; [|done]. cbn. intros [= <-].
  specialize (IH l m E). lia.
Qed.

Lemma fmap_succ (o : option Z) n : (fun n => n + 1) <$> o = Some n <-> o = Some (n - 1).
Proof. destruct o; cbn; split; intros [= E]; f_equal; lia. Qed.

(** Below the last byte the two agree. *)
Lemma vlen_first_end k top l n : 0 <= top <= 128 -> n < Z.of_nat k -> (vlen k top l = Some n <-> first_end l = Some n).
Proof.
  intros Ht. revert l n. induction k as [|k IH]; intros l n Hn; [split; intros E; [by destruct l|]|].
  { pose proof (first_end_bound l n E). lia. }
  destruct l as [|b l]; [done|]. cbn [vlen first_end]. destruct k as [|k].
  - split; intros E; exfalso.
    + pose proof (vlen_bound 1 top (b :: l) n) as B. cbn [vlen] in B. specialize (B E). lia.
    + pose proof (first_end_bound (b :: l) n) as B. cbn [first_end] in B. specialize (B E). lia.
  - destruct (b <? 128); [done|]. rewrite !fmap_succ. apply IH. lia.
Qed.

(** ** The copy *)

Section copy.
Context `{BuildMode} `{Target}.
Variables (h : heap) (d : Decoder.Decoder) (e : Encoder).
Variables (pre rest junk dd free : list Z) (own : bool).
Hypothesis Hblk : block h (Decoder.orig_ d) = pre ++ rest ++ junk.
Hypothesis Hbuf : Decoder.buf_ d = Decoder.orig_ d + zlen pre.
Hypothesis Hlim : Decoder.limit_ d = Decoder.orig_ d + zlen pre + zlen rest.
Hypothesis R : enc_rep h e dd free own.
Hypothesis Hne : Decoder.orig_ d <> orig_ e.

(** The heap after [k] bytes were copied. *)
Definition copied (k : Z) : heap :=
  <[orig_ e := dd ++ take (Z.to_nat k) rest ++ drop (Z.to_nat k) free]> h.

Lemma copied_dec k : block (copied k) (Decoder.orig_ d) = pre ++ rest ++ junk.
Proof. unfold block, copied. rewrite lookup_insert_ne by done. exact Hblk. Qed.
Lemma copied_enc k : block (copied k) (orig_ e) = dd ++ take (Z.to_nat k) rest ++ drop (Z.to_nat k) free.
Proof. unfold block, copied. by rewrite lookup_insert_eq. Qed.

Lemma dec_byte_at h' k : block h' (Decoder.orig_ d) = pre ++ rest ++ junk -> 0 <= k < zlen rest ->
  exists c, dec_byte h' d (Decoder.buf_ d + k) = Ok c /\ drop (Z.to_nat k) rest = c :: drop (Z.to_nat (k + 1)) rest.
Proof.
  intros E Hk. unfold dec_byte. rewrite E, Hbuf.
  replace (Decoder.orig_ d + zlen pre + k - Decoder.orig_ d) with (zlen pre + k) by lia. rewrite load8_app by lia.
  destruct (lookup_lt_is_Some_2 rest (Z.to_nat k)) as [c Ec]; [unfold zlen in Hk; lia|].
  exists c. rewrite lookup_app_l, Ec by (unfold zlen in Hk; lia). split; [done|].
  replace (Z.to_nat (k + 1)) with (S (Z.to_nat k)) by lia. by apply drop_S.
Qed.

(** Storing [n] more bytes. *)
Lemma enc_store_at k n l : 0 <= k -> 0 <= n -> k + n <= zlen rest -> k + n <= zlen free ->
  l = take (Z.to_nat n) (drop (Z.to_nat k) rest) ->
  enc_store (copied k) e (buf_ e + k) l = Ok (copied (k + n)).
Proof.
  intros Hk Hn Hr Hf ->. pose proof R as (E1 & _). unfold enc_store. rewrite copied_enc, E1.
  assert (zlen (take (Z.to_nat k) rest) = k) as Ek by (unfold zlen in *; rewrite length_take; lia).
  replace (orig_ e + zlen dd + k - orig_ e) with (zlen (dd ++ take (Z.to_nat k) rest)) by (rewrite zlen_app; lia).
  rewrite app_assoc, <- (take_drop (Z.to_nat n) (drop (Z.to_nat k) free)).
  rewrite store_bytes_app by (unfold zlen in *; rewrite !length_take, !length_drop; lia).
  rewrite bind_Ok. unfold copied. rewrite insert_insert_eq. do 2 f_equal. rewrite <- app_assoc. f_equal.
  replace (Z.to_nat (k + n)) with (Z.to_nat k + Z.to_nat n)%nat by lia. rewrite drop_drop, app_assoc.
  by rewrite take_take_drop.
Qed.

Lemma block_in : 0 < orig_ e -> h = copied 0.
Proof.
  intros Hp. unfold copied. cbn [Z.to_nat]. rewrite take_0, drop_0. cbn [app].
  pose proof R as (_ & _ & _ & _ & _ & [(? & _)|[_ Eb]]); [lia|]. symmetry. by apply insert_id.
Qed.

Lemma CopyAndAdvance_at n : 0 < orig_ e -> 0 <= n <= zlen rest -> n <= zlen free ->
  CopyAndAdvance n h d e = Ok (copied n, Decoder.set_buf d (Decoder.buf_ d + n), set_buf e (buf_ e + n)).
Proof.
  intros Hp Hn Hf. unfold CopyAndAdvance. rewrite Hblk, Hbuf.
  replace (Decoder.orig_ d + zlen pre - Decoder.orig_ d) with (zlen pre) by lia.
  rewrite <- (take_drop (Z.to_nat n) rest) at 1. rewrite <- app_assoc.
  rewrite load_bytes_app, bind_Ok by (unfold zlen in *; rewrite length_take; lia).
  rewrite (block_in Hp) at 1. rewrite <- (Z.add_0_r (buf_ e)) at 1. rewrite (enc_store_at 0 n) by (done || lia). done.
Qed.

Lemma copy_chain_at n i : 0 < orig_ e -> Z.of_nat n + i = 10 -> 0 <= i -> 10 <= zlen rest -> 10 <= zlen free ->
  copy_chain n i h d e =
  Ok ((fun m => (copied (i + m), Decoder.set_buf d (Decoder.buf_ d + (i + m)), set_buf e (buf_ e + (i + m)))) <$>
      vlen n 2 (drop (Z.to_nat i) rest)).
Proof.
  intros Hp. revert i. induction n as [|n IH]; intros i Hni Hi Hr Hf; [by destruct (drop _ _)|].
  cbn [copy_chain]. destruct (dec_byte_at h i Hblk) as (c & -> & ->); [lia|]. rewrite bind_Ok. cbn [vlen].
  replace (if i =? 9 then 2 else 128) with (match n with O => 2 | _ => 128 end)
    by (destruct n; [by rewrite (proj2 (Z.eqb_eq i 9)) by lia|by rewrite (proj2 (Z.eqb_neq i 9)) by lia]).
  destruct (c <? _).
  - rewrite CopyAndAdvance_at, bind_Ok by lia. done.
  - rewrite IH by lia. f_equal. destruct (vlen n 2 _) as [m|]; [|done]. cbn.
    by replace (i + 1 + m) with (i + (m + 1)) by lia.
Qed.

Lemma copy_loop_at fuel k : 0 <= k <= zlen rest -> k <= zlen free -> zlen free - k < Z.of_nat fuel ->
  copy_loop fuel (copied k) d e (Decoder.buf_ d + k) (buf_ e + k) =
  match first_end (drop (Z.to_nat k) rest) with
  | Some m => if k + m <=? zlen free
              then Ok (true, copied (k + m), Decoder.set_buf d (Decoder.buf_ d + (k + m)), set_buf e (buf_ e + (k + m)))
              else Ok (false, copied (Z.min (zlen rest) (zlen free)), d, e)
  | None => Ok (false, copied (Z.min (zlen rest) (zlen free)), d, e)
  end.
Proof.
  pose proof R as (E1 & E2 & _). revert k. induction fuel as [|fuel IH]; intros k Hr Hf Hfu; [lia|]. cbn [copy_loop].
  rewrite Hlim, E2, !Z.geb_leb, Hbuf, E1. destruct (Z.leb_spec (Decoder.orig_ d + zlen pre + zlen rest) (Decoder.orig_ d + zlen pre + k)).
  { rewrite drop_ge by (unfold zlen in *; lia). cbn.
    by replace (Z.min (zlen rest) (zlen free)) with k by lia. }
  destruct (Z.leb_spec (orig_ e + zlen dd + zlen free) (orig_ e + zlen dd + k)).
  { replace (Z.min (zlen rest) (zlen free)) with k by lia. destruct (first_end _) as [m|] eqn:Em; [|done].
    pose proof (first_end_bound _ _ Em). by rewrite (proj2 (Z.leb_gt _ _)) by lia. }
  rewrite <- Hbuf, <- E1. destruct (dec_byte_at (copied k) k (copied_dec k)) as (c & -> & Ed); [lia|].
  rewrite bind_Ok, (enc_store_at k 1) by (try lia; by rewrite Ed). rewrite bind_Ok, Ed. cbn [first_end].
  rewrite Z.geb_leb. destruct (Z.leb_spec 128 c); [rewrite (proj2 (Z.ltb_ge c 128)) by lia|rewrite (proj2 (Z.ltb_lt c 128)) by lia].
  - rewrite <- !Z.add_assoc, IH by lia. destruct (first_end _) as [m|]; [|done]. cbn.
    by replace (k + (m + 1)) with (k + 1 + m) by lia.
  - rewrite (proj2 (Z.leb_le _ _)) by lia. by rewrite !Z.add_assoc.
Qed.

Hypothesis Hd10 : 10 <= Decoder.orig_ d.
Hypothesis He10 : 10 <= orig_ e.
Hypothesis Hd64 : Decoder.limit_ d < 2 ^ 64.
Hypothesis He64 : limit_ e < 2 ^ 64.

(** Either the encoding is copied, or nothing is and only free bytes changed. *)
Definition copies (o : option Z) (r : outcome (bool * heap * Decoder.Decoder * Encoder)) : Prop :=
  match o with
  | Some n => if n <=? zlen free
              then r = Ok (true, copied n, Decoder.set_buf d (Decoder.buf_ d + n), set_buf e (buf_ e + n))
              else exists j, 0 <= j <= zlen rest /\ j <= zlen free /\ r = Ok (false, copied j, d, e)
  | None => exists j, 0 <= j <= zlen rest /\ j <= zlen free /\ r = Ok (false, copied j, d, e)
  end.

Lemma copies_false j o : 0 <= j <= zlen rest -> j <= zlen free ->
  (forall n, o = Some n -> zlen free < n) -> copies o (Ok (false, copied j, d, e)).
Proof.
  intros Hj Hf Ho. destruct o as [n|]; cbn [copies]; [|by exists j].
  rewrite (proj2 (Z.leb_gt _ _)) by (by apply Ho). by exists j.
Qed.

Lemma copies_unchanged o : (forall n, o = Some n -> zlen free < n) -> copies o (Ok (false, h, d, e)).
Proof.
  intros Ho. pose proof (zlen_nonneg rest). pose proof (zlen_nonneg free).
  assert (copies o (Ok (false, copied 0, d, e))) as C by (apply copies_false; [lia|lia|done]).
  by rewrite <- (block_in ltac:(lia)) in C.
Qed.

Lemma sub_u64 p k : 10 <= p < 2 ^ 64 -> 0 <= k <= 10 -> u64 (p - k) = p - k.
Proof. intros. unfold u64. apply Z.mod_small. lia. Qed.

Lemma copy_loop_start fuel : zlen free < Z.of_nat fuel ->
  copy_loop fuel h d e (Decoder.buf_ d) (buf_ e) =
  match first_end rest with
  | Some m => if m <=? zlen free
              then Ok (true, copied m, Decoder.set_buf d (Decoder.buf_ d + m), set_buf e (buf_ e + m))
              else Ok (false, copied (Z.min (zlen rest) (zlen free)), d, e)
  | None => Ok (false, copied (Z.min (zlen rest) (zlen free)), d, e)
  end.
Proof.
  intros Hf. pose proof (zlen_nonneg rest). pose proof (zlen_nonneg free).
  pose proof (copy_loop_at fuel 0 ltac:(lia) ltac:(lia) ltac:(lia)) as E. rewrite !Z.add_0_r in E.
  rewrite <- (block_in ltac:(lia)) in E. exact E.
Qed.

Lemma less_common_sizes : (2 <= zlen rest -> vlen 10 2 rest = (fun m => 2 + m) <$> vlen 8 2 (drop 2 rest)) ->
  copies (vlen 10 2 rest) (PutVarint64FromDecoderLessCommonSizes h d e).
Proof.
  intros H2. pose proof R as (E1 & E2 & _). unfold PutVarint64FromDecoderLessCommonSizes, kMax64.
  pose proof (zlen_nonneg rest). pose proof (zlen_nonneg free). pose proof (zlen_nonneg pre). pose proof (zlen_nonneg dd).
  rewrite (sub_u64 (Decoder.limit_ d)), (sub_u64 (limit_ e)) by lia. rewrite Hbuf, Hlim, E1, E2.
  destruct (Z.leb_spec (Decoder.orig_ d + zlen pre) (Decoder.orig_ d + zlen pre + zlen rest - 10)) as [Hr|Hr];
    [destruct (Z.leb_spec (orig_ e + zlen dd) (orig_ e + zlen dd + zlen free - 10)) as [Hf|Hf]|]; cbn [andb].
  - rewrite (copy_chain_at 8 2), bind_Ok by lia. rewrite (H2 ltac:(lia)). change (Z.to_nat 2) with 2%nat.
    destruct (vlen 8 2 (drop 2 rest)) as [m|] eqn:Em; cbn.
    + apply vlen_bound in Em. by rewrite (proj2 (Z.leb_le _ _)) by lia.
    + by apply (copies_unchanged None).
  - rewrite <- Hbuf, <- E1, copy_loop_start by lia. destruct (first_end rest) as [m|] eqn:Em.
    + destruct (Z.leb_spec m (zlen free)) as [Hm|Hm].
      * apply (vlen_first_end 10 2) in Em as ->; [|lia|lia]. cbn. by rewrite (proj2 (Z.leb_le _ _)).
      * apply copies_false; [lia|lia|]. intros n En. destruct (Z.lt_ge_cases n 10) as [Hn|Hn]; [|lia].
        apply (vlen_first_end 10 2) in En; [|lia|done]. rewrite Em in En. by injection En as ->.
    + apply copies_false; [lia|lia|]. intros n En. destruct (Z.lt_ge_cases n 10) as [Hn|Hn]; [|lia].
      apply (vlen_first_end 10 2) in En; [|lia|done]. congruence.
  - rewrite <- Hbuf, <- E1, copy_loop_start by lia. destruct (first_end rest) as [m|] eqn:Em.
    + pose proof (first_end_bound _ _ Em). pose proof Em as Ev. apply (vlen_first_end 10 2) in Ev as ->; [|lia|lia]. cbn.
      destruct (Z.leb_spec m (zlen free)) as [Hm|Hm]; [done|]. eexists. split; [|split; [|done]]; lia.
    + apply copies_false; [lia|lia|]. intros n En. pose proof (vlen_bound _ _ _ _ En).
      apply (vlen_first_end 10 2) in En; [|lia|lia]. congruence.
Qed.

Lemma put_from_decoder : copies (vlen 10 2 rest) (put_varint64_from_decoder h d e).
Proof.
  pose proof R as (E1 & E2 & _). unfold put_varint64_from_decoder.
  pose proof (zlen_nonneg rest). pose proof (zlen_nonneg free). pose proof (zlen_nonneg pre). pose proof (zlen_nonneg dd).
  rewrite (sub_u64 (Decoder.limit_ d)), (sub_u64 (limit_ e)) by lia.
  assert (forall k, 0 <= k -> (buf_ e >=? limit_ e - k) = (zlen free <=? k)) as Hroom.
  { intros k Hk. rewrite Z.geb_leb, E1, E2. apply eq_true_iff_eq. rewrite !Z.leb_le. lia. }
  assert (forall k, 0 <= k -> (Decoder.buf_ d <? Decoder.limit_ d - k) = (k <? zlen rest)) as Hleft.
  { intros k Hk. rewrite Hbuf, Hlim. apply eq_true_iff_eq. rewrite !Z.ltb_lt. lia. }
  replace (buf_ e >=? limit_ e) with (zlen free <=? 0) by (rewrite <- Hroom by lia; f_equal; lia).
  replace (Decoder.buf_ d <? Decoder.limit_ d) with (0 <? zlen rest) by (rewrite <- Hleft by lia; f_equal; lia).
  rewrite (Hroom 1), (Hleft 1) by lia. destruct (Z.ltb_spec 0 (zlen rest)) as [H1r|H1r].
  2: { rewrite bind_Ok, (proj2 (Z.ltb_ge 1 _)), bind_Ok by lia. apply less_common_sizes. lia. }
  destruct (dec_byte_at h 0 Hblk) as (b0 & Eb0 & El0); [lia|]. rewrite Z.add_0_r in Eb0.
  rewrite Eb0, !bind_Ok. change (Z.to_nat 0) with 0%nat in El0. rewrite drop_0 in El0. change (0 + 1) with 1 in El0.
  destruct (Z.ltb_spec b0 128) as [Hb0|Hb0].
  { assert (vlen 10 2 rest = Some 1) as -> by (rewrite El0; cbn [vlen]; by rewrite (proj2 (Z.ltb_lt _ _))).
    destruct (Z.leb_spec (zlen free) 0) as [Hf|Hf]; [apply copies_unchanged; intros n [= <-]; lia|].
    cbn [copies]. rewrite (proj2 (Z.leb_le 1 _)) by lia.
    pose proof (enc_store_at 0 1 [b0] ltac:(lia) ltac:(lia) ltac:(lia) ltac:(lia)) as Es.
    rewrite <- (block_in ltac:(lia)), Z.add_0_r in Es. rewrite Es, bind_Ok by (change (Z.to_nat 0) with 0%nat; by rewrite drop_0, El0). done. }
  destruct (Z.ltb_spec 1 (zlen rest)) as [H2r|H2r]; [|rewrite bind_Ok; apply less_common_sizes; lia].
  destruct (dec_byte_at h 1 Hblk) as (b1 & Eb1 & El1); [lia|]. rewrite Eb1, !bind_Ok.
  change (1 + 1) with 2 in El1. destruct (Z.ltb_spec b1 128) as [Hb1|Hb1].
  - assert (vlen 10 2 rest = Some 2) as ->.
    { rewrite El0, El1. cbn [vlen]. by rewrite (proj2 (Z.ltb_ge _ _)), (proj2 (Z.ltb_lt _ _)). }
    destruct (Z.leb_spec (zlen free) 1) as [Hf|Hf]; [apply copies_unchanged; intros n [= <-]; lia|].
    cbn [copies]. rewrite (proj2 (Z.leb_le 2 _)) by lia.
    pose proof (CopyAndAdvance_at 2 ltac:(lia) ltac:(lia) ltac:(lia)) as Ec. unfold CopyAndAdvance in Ec.
    change (Z.to_nat 2) with 2%nat in Ec.
    revert Ec. destruct (load_bytes _ _ 2) as [l| |]; [|done|done]. rewrite !bind_Ok.
    destruct (enc_store h e (buf_ e) l) as [h'| |]; [|done|done]. rewrite !bind_Ok. by intros [= ->].
  - apply less_common_sizes. intros _. rewrite El0, El1 at 1. rewrite !vlen_more by done.
    change (Z.to_nat 2) with 2%nat. destruct (vlen 8 2 (drop 2 rest)) as [m|]; [|done]. cbn. f_equal. lia.
Qed.

(** The encoder after [j] bytes were copied, when its position moves and when it does not. *)
Lemma zlen_copied j : 0 <= j <= zlen rest -> j <= zlen free ->
  zlen (take (Z.to_nat j) rest) = j /\ zlen (drop (Z.to_nat j) free) = zlen free - j.
Proof. intros Hj Hf. unfold zlen in *. rewrite length_take, length_drop. lia. Qed.

Lemma enc_rep_copied j : bytes_ok rest -> 0 <= j <= zlen rest -> j <= zlen free ->
  enc_rep (copied j) e dd (take (Z.to_nat j) rest ++ drop (Z.to_nat j) free) own /\
  enc_rep (copied j) (set_buf e (buf_ e + j)) (dd ++ take (Z.to_nat j) rest) (drop (Z.to_nat j) free) own.
Proof.
  intros Hok Hj Hf. destruct (zlen_copied j Hj Hf) as [Et Ef]. pose proof R as (E1 & E2 & E3 & Hsz & Hb & _).
  assert (bytes_ok (dd ++ take (Z.to_nat j) rest ++ drop (Z.to_nat j) free)) as Hb'.
  { rewrite !bytes_ok_app in *. destruct Hb. split_and!; auto with gloop. }
  unfold enc_rep. cbn [set_buf buf_ limit_ orig_ underlying_buffer_]. rewrite <- app_assoc, !zlen_app, Et, Ef.
  split; (split_and!; try (done || lia); right; split; [lia|]; unfold copied; by rewrite lookup_insert_eq).
Qed.

(** Whatever comes of it, the encoder keeps its buffer and no other block changes. *)
Lemma put_from_decoder_rep : bytes_ok rest -> exists ok h' d' e' d1 free1,
  put_varint64_from_decoder h d e = Ok (ok, h', d', e') /\ enc_rep h' e' d1 free1 own /\ orig_ e' = orig_ e /\
  zlen d1 + zlen free1 = zlen dd + zlen free /\ delete (orig_ e) h' = delete (orig_ e) h.
Proof.
  intros Hok. pose proof put_from_decoder as C.
  assert (forall j, delete (orig_ e) (copied j) = delete (orig_ e) h) as Hdel
    by (intros j; unfold copied; by rewrite delete_insert_eq).
  assert (forall j, 0 <= j <= zlen rest -> j <= zlen free ->
    put_varint64_from_decoder h d e = Ok (false, copied j, d, e) -> exists ok h' d' e' d1 free1,
    put_varint64_from_decoder h d e = Ok (ok, h', d', e') /\ enc_rep h' e' d1 free1 own /\ orig_ e' = orig_ e /\
    zlen d1 + zlen free1 = zlen dd + zlen free /\ delete (orig_ e) h' = delete (orig_ e) h) as Hfalse.
  { intros j Hj Hf E. destruct (enc_rep_copied j Hok Hj Hf) as [R' _]. destruct (zlen_copied j Hj Hf).
    do 6 eexists. split; [exact E|]. split; [exact R'|]. split; [done|]. split; [rewrite zlen_app; lia|apply Hdel]. }
  destruct (vlen 10 2 rest) as [n|] eqn:En; cbn [copies] in C; [|destruct C as (j & Hj & Hf & C); by apply (Hfalse j)].
  apply vlen_bound in En. destruct (Z.leb_spec n (zlen free)) as [Hf|Hf]; [|destruct C as (j & Hj & Hf' & C); by apply (Hfalse j)].
  destruct (enc_rep_copied n Hok ltac:(lia) Hf) as [_ R']. destruct (zlen_copied n ltac:(lia) Hf).
  do 6 eexists. split; [exact C|]. split; [exact R'|]. split; [done|]. split; [rewrite zlen_app; lia|apply Hdel].
Qed.
End copy.

(** [put_varint64_from_decoder] is the code it replaces, but for the bytes of
    encodings that are longer than needed.  For a decoder and an encoder with
    buffers of their own it returns true exactly when [get_varint64] accepts and
    the encoder has room for the bytes accepted; then it has appended these bytes,
    and the decoder is where [get_varint64] leaves it.  Otherwise neither the
    decoder nor the encoded bytes change.  No access leaves the buffers. *)
Theorem put_varint64_from_decoder_spec `{BuildMode} `{Target} h d e pre rest dd free own :
  dec_rep h d pre rest -> enc_rep h e dd free own -> Decoder.orig_ d <> orig_ e ->
  10 <= Decoder.orig_ d -> 10 <= orig_ e -> Decoder.limit_ d < 2 ^ 64 -> limit_ e < 2 ^ 64 ->
  exists r ok h' d' e', Decoder.get_varint64 h d = Ok r /\
    put_varint64_from_decoder h d e = Ok (ok, h', d', e') /\
    match r with
    | Some (v, d1) =>
        let n := Decoder.buf_ d1 - Decoder.buf_ d in
        ok = (n <=? zlen free) /\
        (ok = true -> d' = d1 /\ enc_rep h' e' (dd ++ take (Z.to_nat n) rest) (drop (Z.to_nat n) free) own)
    | None => ok = false
    end /\
    (ok = false -> d' = d /\ e' = e /\ exists free', enc_rep h' e dd free' own /\ zlen free' = zlen free) /\
    delete (orig_ e) h' = delete (orig_ e) h.
Proof.
  intros Rd R Hne Hd10 He10 Hd64 He64. destruct (dec_split _ _ _ _ Rd) as (junk & Eb & Hok & Ep & El & Hs).
  pose proof (put_from_decoder h d e pre rest junk dd free own Eb ltac:(lia) ltac:(lia) R Hne Hd10 He10 Hd64 He64) as C.
  rewrite vlen_vparse in C.
  assert (Decoder.get_varint64 h d = Ok ((fun nv => (snd nv, Decoder.set_buf d (Decoder.buf_ d + fst nv))) <$>
    vparse_limit 10 2 rest)) as ->.
  { unfold Decoder.get_varint64. rewrite Eb, Ep, El, Parse64WithLimit_vparse, bind_Ok by done. f_equal.
    destruct (vparse_limit 10 2 rest) as [[n v]|]; [|done]. cbn. do 3 f_equal. lia. }
  assert (bytes_ok rest) as Hrest by (apply bytes_ok_app in Hok; tauto).
  assert (forall j, 0 <= j <= zlen rest -> j <= zlen free ->
    exists free', enc_rep (copied h e rest dd free j) e dd free' own /\ zlen free' = zlen free) as Hsame.
  { intros j Hj Hf. destruct (enc_rep_copied h e pre rest dd free own R He10 j Hrest Hj Hf) as [R' _].
    destruct (zlen_copied pre rest free j Hj Hf). eexists. split; [exact R'|]. rewrite zlen_app. lia. }
  destruct (vparse_limit 10 2 rest) as [[n v]|] eqn:Ev; cbn in C |- *.
  2: { destruct C as (j & Hj & Hf & ->). eexists _, _, _, _, _. split; [done|]. split; [done|]. split; [done|].
       split; [by intros _; split; [done|split; [done|apply Hsame]]|]. unfold copied. by rewrite delete_insert_eq. }
  assert (1 <= n <= zlen rest) as Hn.
  { assert (vlen 10 2 rest = Some n) as E by (by rewrite vlen_vparse, Ev). apply vlen_bound in E. lia. }
  destruct (Z.leb_spec n (zlen free)) as [Hle|Hgt].
  - rewrite C. eexists _, _, _, _, _. split; [done|]. split; [done|].
    cbn [Decoder.set_buf Decoder.buf_]. replace (Decoder.buf_ d + n - Decoder.buf_ d) with n by lia. rewrite (proj2 (Z.leb_le _ _)) by lia.
    split; [split; [done|]; intros _; split; [done|]|split; [done|unfold copied; by rewrite delete_insert_eq]].
    apply (enc_rep_copied h e pre rest dd free own R He10 n Hrest); lia.
  - destruct C as (j & Hj & Hf & ->). eexists _, _, _, _, _. split; [done|]. split; [done|].
    cbn [Decoder.set_buf Decoder.buf_]. replace (Decoder.buf_ d + n - Decoder.buf_ d) with n by lia. rewrite (proj2 (Z.leb_gt _ _)) by lia.
    split; [done|]. split; [by intros _; split; [done|split; [done|apply Hsame]]|]. unfold copied. by rewrite delete_insert_eq.
Qed.

Lemma put_varint64_from_decoder_spec_witness :
  let t := {| HARDENED := false; x86 := true; lzcnt := true |} in
  let h : heap := <[ 100 := [172; 2; 7] ]> {[ 200 := [1; 2; 3] ]} in
  let d := {| Decoder.orig_ := 100; Decoder.buf_ := 100; Decoder.limit_ := 103 |} in
  exists r, Decoder.get_varint64 (H := opt_build) (H0 := t) h d = Ok r /\
  exists ok h' d' e', put_varint64_from_decoder h d (make 200 3) = Ok (ok, h', d', e').
Proof.
  intros t h d.
  assert (forall l, bool_decide (bytes_ok l) = true -> bytes_ok l) as Hb by (intros l; apply bool_decide_eq_true).
  assert (dec_rep h d [] [172; 2; 7]) as Rd.
  { exists []. split; [reflexivity|]. split; [by apply Hb|]. split; [reflexivity|]. split; [reflexivity|].
    change (3 < 2 ^ 63). lia. }
  assert (enc_rep h (make 200 3) [] [1; 2; 3] false) as Re.
  { apply (make_rep h 200 [1; 2; 3]); [lia|reflexivity|change (3 < 2 ^ 63); lia|by apply Hb]. }
  destruct (put_varint64_from_decoder_spec (H := opt_build) (H0 := t) h d (make 200 3) [] [172; 2; 7] [] [1; 2; 3] false Rd Re)
    as (r & ok & h' & d' & e' & E1 & E2 & _); cbn [d make Decoder.orig_ Decoder.limit_ orig_ limit_]; try lia.
  exists r. split; [exact E1|]. exists ok, h', d', e'. exact E2.
Defined.

(** Where [put_varint64_from_decoder] differs from what it is documented to
    be.  On a new encoder, which has no buffer, a two-byte varint is written
    through the null pointer ([limit_ - 1] wraps), and a decoder of an empty
    [nullptr] buffer is read through the null pointer, where [get_varint64] just
    fails.  And an encoding longer than needed, such as 80 00 for zero, is
    copied as it is, where [put_varint64] of the value decoded writes one byte. *)
Theorem put_varint64_from_decoder_divergences (b : BuildMode) (t : Target) :
  (let h : heap := {[ 100 := [172; 2] ]} in
   forall d, Decoder.reset 100 2 = Ok d -> put_varint64_from_decoder h d make0 = UB) /\
  (let h : heap := {[ 200 := [1; 2; 3] ]} in
   exists d, Decoder.reset 0 0 = Ok d /\ Decoder.get_varint64 h d = Ok None /\
     put_varint64_from_decoder h d (make 200 3) = UB) /\
  (let h : heap := <[ 100 := [128; 0] ]> {[ 200 := [1; 2; 3] ]} in
   exists d d' h1 h2 e1 e2, Decoder.reset 100 2 = Ok d /\ Decoder.get_varint64 h d = Ok (Some (0, d')) /\
     put_varint64_from_decoder h d (make 200 3) = Ok (true, h1, d', e1) /\
     put_varint64 h (make 200 3) 0 = Ok (h2, e2) /\ length e1 = Ok 2 /\ length e2 = Ok 1).
Proof.
  destruct b as [[]], t as [[] [] []]; (split; [|split]; [cbv zeta; intros d [= <-]; reflexivity|
    cbv zeta; eexists; split; [reflexivity|]; split; reflexivity|
    cbv zeta; do 6 eexists; split; [reflexivity|]; split; [reflexivity|]; split; [reflexivity|];
    split; [reflexivity|]; split; reflexivity]).
Qed.

Lemma put_varint64_from_decoder_divergences_witness :
  put_varint64_from_decoder {[ 100 := [172; 2] ]}
    {| Decoder.orig_ := 100; Decoder.buf_ := 100; Decoder.limit_ := 102 |} make0 = UB.
Proof.
  apply (proj1 (put_varint64_from_decoder_divergences opt_build {| HARDENED := false; x86 := true; lzcnt := true |})).
  reflexivity.
Defined.
