(* ===== verification/CoderOwn.v ===== *)
(** * Buffers are freed exactly once

    Scripts over several encoders, with resets to client buffers, moves between
    them and varints copied from decoders, against the heap: no operation of a
    checked build is undefined, and after the destructors the live blocks are
    those of the start. *)
From Stdlib Require Import ZArith Lia.
From stdpp Require Import base list numbers option gmap fin_maps sets.
From S2P Require Import Prelude.
From S2P Require Import Endian.
From S2P Require Import Varint.
From S2P Require Import VarintParse.
From S2P Require Import VarintCode.
From S2P Require Import Coder.
From S2P Require Import CoderProps.
From S2P Require Import CoderSpec.
From S2P Require Import CoderCopy.
Import Encoder.
Local Open Scope Z_scope.

(** The operations of one encoder. *)
Inductive EncOp :=
| OEnsure (N : Z) | OPut8 (v : Z) | OPut16 (v : Z) | OPut32 (v : Z) | OPut64 (v : Z) | OPut128 (v : Z)
| OPutVarint32 (v : Z) | OPutVarint64 (v : Z) | OPutn (l : list Z) | OPuts (l : list Z)
| OSkip (N : Z) | ORemoveLast (N : Z) | OResize (N : Z) | OClear
| OReset | OResetBuf (b : Z).

(** The operations on the encoders of a world, by their numbers.  Every encoder
    starts default-constructed; a construction ends the life of the object that had
    the number. *)
Inductive WorldOp :=
| On (i : nat) (op : EncOp)
| OConstruct (i : nat) | OConstructBuf (i : nat) (b : Z)
| OMoveConstruct (i j : nat) | OMoveAssign (i j : nat)
| OPutFromDecoder (i : nat) (b k : Z).

Section scripts.
Context `{BuildMode} `{Target} `{Allocator}.

Definition run_op (h : heap) (e : Encoder) (op : EncOp) : outcome (heap * Encoder) :=
  match op with
  | OEnsure N => Ensure h e N
  | OPut8 v => put8 h e v
  | OPut16 v => put16 h e v
  | OPut32 v => put32 h e v
  | OPut64 v => put64 h e v
  | OPut128 v => put128 h e v
  | OPutVarint32 v => put_varint32 h e v
  | OPutVarint64 v => put_varint64 h e v
  | OPutn l => putn h e l
  | OPuts l => puts h e (l ++ [0])
  | OSkip N => '(_, h, e) ← skip h e N; Ok (h, e)
  | ORemoveLast N => RemoveLast h e N
  | OResize N => e ← Resize e N; Ok (h, e)
  | OClear => Ok (h, clear e)
  | OReset => reset0 h e
  | OResetBuf b => reset h e b (zlen (block h b))
  end.

Definition get_enc (es : list Encoder) (i : nat) : outcome Encoder :=
  match es !! i with Some e => Ok e | None => UB end.

(** [operator=(Encoder&&)] with its test for the object itself, and the copy of a
    varint at offset [k] of the client block [b]. *)
Definition step (h : heap) (es : list Encoder) (op : WorldOp) : outcome (heap * list Encoder) :=
  match op with
  | On i op => e ← get_enc es i; '(h, e) ← run_op h e op; Ok (h, <[i := e]> es)
  | OConstruct i => e ← get_enc es i; h ← destroy h e; Ok (h, <[i := make0]> es)
  | OConstructBuf i b =>
      e ← get_enc es i; h1 ← destroy h e; Ok (h1, <[i := make b (zlen (block h b))]> es)
  | OMoveConstruct i j =>
      e ← get_enc es i; other ← get_enc es j;
      h ← destroy h e;
      let '(e, other) := move_construct other in Ok (h, <[j := other]> (<[i := e]> es))
  | OMoveAssign i j =>
      e ← get_enc es i; other ← get_enc es j;
      if decide (i = j) then Ok (h, es)
      else '(h, e, other) ← move_assign h e other; Ok (h, <[j := other]> (<[i := e]> es))
  | OPutFromDecoder i b k =>
      e ← get_enc es i;
      d ← Decoder.reset b (zlen (block h b));
      '(_, d) ← Decoder.skip d k;
      '(_, h, _, e) ← put_varint64_from_decoder h d e;
      Ok (h, <[i := e]> es)
  end.

Fixpoint run_ops (h : heap) (es : list Encoder) (ops : list WorldOp) : outcome (heap * list Encoder) :=
  match ops with
  | [] => Ok (h, es)
  | op :: ops' => '(h, es) ← step h es op; run_ops h es ops'
  end.

(** The destructors of all encoders. *)
Fixpoint destroy_all (h : heap) (es : list Encoder) : outcome heap :=
  match es with
  | [] => Ok h
  | e :: es => h ← destroy h e; destroy_all h es
  end.

(** ** The invariant *)

(** The blocks of [h] are those of [h0], with other contents at most in the
    client buffers [G]. *)
Definition sim (G : gset Z) (h0 h : heap) : Prop :=
  (forall p, zlen <$> h !! p = zlen <$> h0 !! p) /\ (forall p, p ∉ G -> h !! p = h0 !! p) /\
  (forall p b, h !! p = Some b -> bytes_ok b).

Definition clients_ok (G : gset Z) (h0 : heap) : Prop :=
  h0 !! 0 = None /\ (forall p b, h0 !! p = Some b -> bytes_ok b /\ zlen b < 2 ^ 63) /\
  forall p, p ∈ G -> 0 < p /\ is_Some (h0 !! p).

Definition inv (G : gset Z) (h0 h : heap) (e : Encoder) : Prop :=
  exists d free own, enc_rep h e d free own /\
    if own then sim G h0 (delete (orig_ e) h) /\ h0 !! orig_ e = None
    else sim G h0 h /\ orig_ e ∈ G.

Definition op_ok (G : gset Z) (op : EncOp) : Prop :=
  match op with
  | OEnsure N => 0 <= N < 2 ^ 64
  | OPutVarint32 v => 0 <= v < 2 ^ 32
  | OPutVarint64 v => 0 <= v < 2 ^ 64
  | OPutn l | OPuts l => bytes_ok l
  | OSkip N => - 2 ^ 63 <= N < 2 ^ 63
  | ORemoveLast N | OResize N => 0 <= N < 2 ^ 64
  | OResetBuf b => b ∈ G
  | _ => True
  end.

(** An operation keeps the invariant or ends the process. *)
Definition safe (G : gset Z) (h0 : heap) (r : outcome (heap * Encoder)) : Prop :=
  match r with Ok (h, e) => inv G h0 h e | Crash => True | UB => False end.

Variable G : gset Z.
Variable h0 : heap.
Hypothesis HG : clients_ok G h0.

Lemma inv_write h e d free own d' free' h' e' : enc_rep h e d free own ->
  (if own then sim G h0 (delete (orig_ e) h) /\ h0 !! orig_ e = None else sim G h0 h /\ orig_ e ∈ G) ->
  enc_rep h' e' d' free' own -> orig_ e' = orig_ e -> delete (orig_ e) h' = delete (orig_ e) h ->
  zlen d' + zlen free' = zlen d + zlen free -> inv G h0 h' e'.
Proof.
  intros R Hi R' Eo Ed El. exists d', free', own. split; [done|]. rewrite Eo. destruct own; [by rewrite Ed|].
  destruct Hi as [(S1 & S2 & S3) HeG]. split; [|done].
  pose proof R as (_ & _ & _ & _ & _ & [(_ & ? & _)|[Hp Eb]]); [done|].
  pose proof R' as (_ & _ & _ & _ & Hok' & [(_ & ? & _)|[Hp' Eb']]); [done|]. rewrite Eo in Eb'.
  assert (forall p, p <> orig_ e -> h' !! p = h !! p) as Hne.
  { intros p Hne. rewrite <- (lookup_delete_ne h' (orig_ e) p), Ed by done. by apply lookup_delete_ne. }
  split_and!.
  - intros p. destruct (decide (p = orig_ e)) as [->|Hn]; [|rewrite Hne by done; apply S1].
    rewrite <- S1, Eb, Eb'. cbn. f_equal. rewrite !zlen_app. lia.
  - intros p Hn. rewrite Hne by (by intros ->). by apply S2.
  - intros p b. destruct (decide (p = orig_ e)) as [->|Hn]; [rewrite Eb'; by intros [= <-]|].
    rewrite Hne by done. apply S3.
Qed.

Lemma sim_none h p : sim G h0 h -> h0 !! p = None -> h !! p = None.
Proof. intros (S1 & _) E. specialize (S1 p). rewrite E in S1. by destruct (h !! p). Qed.

(** Releasing the buffer. *)
Lemma release_inv h e : inv G h0 h e -> exists h1, release h e = Ok h1 /\ sim G h0 h1 /\
  (forall p, is_Some (h0 !! p) -> h1 !! p = h !! p).
Proof.
  intros (d & free & own & R & Hi). eexists. split; [by apply (release_rep _ _ _ _ _ R)|].
  destruct own; destruct Hi as [S HeG]; (split; [done|]); intros p Hp; [|done].
  rewrite lookup_delete_ne; [done|]. intros <-. rewrite HeG in Hp. by destruct Hp.
Qed.

Lemma make0_inv h : sim G h0 h -> inv G h0 h make0.
Proof.
  intros S. pose proof (proj1 HG) as E0. pose proof (sim_none h 0 S E0) as E.
  exists [], [], true. split; [by apply make0_rep|]. cbn [orig_ make0]. by rewrite delete_id.
Qed.

Lemma make_inv h b : sim G h0 h -> b ∈ G -> inv G h0 h (make b (zlen (block h b))).
Proof.
  intros S Hb. pose proof S as (S1 & _ & S3). destruct HG as (_ & HB & HC). destruct (HC b Hb) as [Hp [l0 El0]].
  specialize (S1 b). rewrite El0 in S1. unfold block. destruct (h !! b) as [l|] eqn:El; [|done].
  cbn in S1. injection S1 as S1. exists [], l, false. split; [|done].
  apply make_rep; [done|done| |by apply (S3 b)]. rewrite S1. by apply (HB b).
Qed.

(** ** The operations *)

Hypothesis checked : HARDENED || negb NDEBUG = true.

Lemma assert_checked b : HARDENING_ASSERT (Ok b) = if b then Ok tt else Crash.
Proof. unfold HARDENING_ASSERT. by rewrite checked, bind_Ok. Qed.

Lemma safe_write h e f : inv G h0 h e ->
  (forall d free own, enc_rep h e d free own -> exists d' free', f (d ++ free) (zlen d) = Ok (d' ++ free', zlen d') /\
     zlen d' + zlen free' = zlen d + zlen free /\ bytes_ok (d' ++ free')) ->
  safe G h0 (write h e f).
Proof.
  intros (d & free & own & R & Hi) Hf. destruct (Hf d free own R) as (d' & free' & Ef & El & Hok).
  destruct (write_rep h e d free own f d' free' R Ef El Hok) as (h' & e' & -> & R' & Eo & Ed). cbn.
  by apply (inv_write h e d free own d' free').
Qed.

(** The position moves inside the buffer. *)
Lemma split_at (d free : list Z) q : 0 <= q <= zlen d + zlen free ->
  exists d' free', d ++ free = d' ++ free' /\ zlen d' = q /\ zlen d' + zlen free' = zlen d + zlen free.
Proof.
  intros Hq. exists (take (Z.to_nat q) (d ++ free)), (drop (Z.to_nat q) (d ++ free)). rewrite take_drop.
  unfold zlen in *. rewrite length_take, length_drop, length_app. split; [done|]. lia.
Qed.

Lemma safe_move h e f (g : Z -> Z) : inv G h0 h e ->
  (forall d free own, enc_rep h e d free own -> f (d ++ free) (zlen d) = Ok (d ++ free, g (zlen d)) /\
     0 <= g (zlen d) <= zlen d + zlen free) -> safe G h0 (write h e f).
Proof.
  intros Hi Hf. apply safe_write; [done|]. intros d free own R. destruct (Hf d free own R) as [Ef Hg].
  destruct (split_at d free _ Hg) as (d' & free' & E & El & Es). exists d', free'.
  rewrite Ef, <- El, E. split; [done|]. split; [done|]. rewrite <- E. apply R.
Qed.

(** A write of [l] where the asserted room is at least [zlen l]. *)
Lemma safe_append h e d free own l put : inv G h0 h e -> enc_rep h e d free own ->
  (zlen l <= zlen free -> forall old free', free = old ++ free' -> List.length old = List.length l ->
     appended h e d l free' own put) ->
  (zlen free < zlen l -> put = Crash) -> safe G h0 put.
Proof.
  intros Hi R Hput Hno. destruct (Z.le_gt_cases (zlen l) (zlen free)) as [Hle|Hgt]; [|by rewrite Hno].
  destruct (split_room free (List.length l)) as (old & free' & -> & Ho); [exact Hle|].
  destruct (Hput Hle old free' eq_refl Ho) as (h' & e' & -> & R' & Eo & Ed). cbn.
  destruct Hi as (d1 & f1 & own1 & R1 & Hi).
  assert (own1 = own) as -> by (rewrite <- (ensure_allowed_rep _ _ _ _ _ R1); apply (ensure_allowed_rep _ _ _ _ _ R)).
  apply (inv_write h e d (old ++ free') own (d ++ l) free' h' e' R Hi R' Eo Ed).
  rewrite !zlen_app. unfold zlen. lia.
Qed.

Lemma room_crash h e d free own n (k : outcome (heap * Encoder)) : enc_rep h e d free own -> zlen free < n ->
  (_ ← HARDENING_ASSERT (room e n); k) = Crash.
Proof.
  intros R Hn. unfold room. rewrite (avail_rep _ _ _ _ _ R), bind_Ok, assert_checked, Z.geb_leb.
  by rewrite (proj2 (Z.leb_gt _ _)).
Qed.

(** The puts of [k] bytes. *)
Lemma store_safe h e k l (put : heap -> Encoder -> outcome (heap * Encoder)) : inv G h0 h e -> List.length l = k ->
  (forall d old free own, enc_rep h e d (old ++ free) own -> List.length old = k -> appended h e d l free own (put h e)) ->
  (exists k', put h e = (_ ← HARDENING_ASSERT (room e (Z.of_nat k)); k')) -> safe G h0 (put h e).
Proof.
  intros Hi El Hput [k' Hg]. pose proof Hi as (d & free & own & R & _). apply (safe_append h e d free own l _ Hi R).
  - intros _ old free' -> Ho. apply (Hput d old free' own); [done|congruence].
  - unfold zlen. rewrite El, Hg. intros. by apply (room_crash _ _ _ _ _ _ _ R).
Qed.

Lemma putn_safe h e l : bytes_ok l -> inv G h0 h e -> safe G h0 (putn h e l).
Proof.
  intros Hl Hi. pose proof Hi as (d & free & own & R & _). apply (safe_append h e d free own l _ Hi R).
  - intros _ old free' -> Ho. by apply (putn_rep _ _ _ old).
  - intros. by apply (room_crash _ _ _ _ _ _ _ R).
Qed.

Lemma put_varint32_safe h e v : 0 <= v < 2 ^ 32 -> inv G h0 h e -> safe G h0 (put_varint32 h e v).
Proof.
  intros Hv Hi. pose proof Hi as (d & free & own & R & _). apply (safe_append h e d free own (varint v) _ Hi R).
  - intros _ old free' -> Ho. by apply (put_varint32_rep _ _ _ old).
  - intros Hlt. unfold put_varint32, varint_room. rewrite (avail_rep _ _ _ _ _ R), !bind_Ok, !Z.geb_leb.
    pose proof (zlen_varint32 v Hv). unfold kMax32, Length32. rewrite LengthImpl_varint by lia.
    rewrite (proj2 (Z.leb_gt 5 _)), (proj2 (Z.leb_gt _ _)), assert_checked by lia. done.
Qed.

Lemma put_varint64_safe h e v : 0 <= v < 2 ^ 64 -> inv G h0 h e -> safe G h0 (put_varint64 h e v).
Proof.
  intros Hv Hi. pose proof Hi as (d & free & own & R & _). apply (safe_append h e d free own (varint v) _ Hi R).
  - intros _ old free' -> Ho. by apply (put_varint64_rep _ _ _ old).
  - intros Hlt. unfold put_varint64, varint_room. rewrite (avail_rep _ _ _ _ _ R), !bind_Ok, !Z.geb_leb.
    pose proof (zlen_varint64 v Hv). unfold kMax64, Length64. rewrite LengthImpl_varint by done.
    rewrite (proj2 (Z.leb_gt 10 _)), (proj2 (Z.leb_gt _ _)), assert_checked by lia. done.
Qed.

(** [memccpy] of a terminated string. *)
Lemma memccpy_terminated l n : bytes_ok l -> exists k found, memccpy (l ++ [0]) 0 n = Ok (k, found) /\
  bytes_ok k /\ (List.length k <= n)%nat /\ (found = false -> List.length k = n).
Proof.
  intros Hl. revert n. induction l as [|b l IH]; intros n; (destruct n as [|n]; [exists [], false; split_and!; [reflexivity|apply bytes_ok_nil|cbn; lia|done]|]);
    cbn [memccpy app].
  - exists [0], true. cbn. split_and!; [done| |lia|done]. apply bytes_ok_cons. split; [split; lia|apply bytes_ok_nil].
  - apply bytes_ok_cons in Hl as [Hb Hl]. destruct (b =? 0).
    + exists [b], true. split_and!; [done| |cbn; lia|done]. apply bytes_ok_cons. split; [done|apply bytes_ok_nil].
    + destruct (IH Hl n) as (k & found & -> & Hk & Hn & Hf). rewrite bind_Ok. exists (b :: k), found.
      split_and!; [done|by apply bytes_ok_cons|cbn; lia|intros E; cbn; rewrite Hf; done].
Qed.

Lemma puts_safe h e l : bytes_ok l -> inv G h0 h e -> safe G h0 (puts h e (l ++ [0])).
Proof.
  intros Hl Hi. apply safe_write; [done|]. intros d free own R. pose proof R as (_ & _ & _ & _ & Hok & _).
  rewrite (avail_rep _ _ _ _ _ R), bind_Ok. unfold writer_putcn. change (u8 0) with 0.
  destruct (memccpy_terminated l (Z.to_nat (zlen free)) Hl) as (k & found & -> & Hk & Hn & Hf). rewrite bind_Ok.
  destruct (split_room free (List.length k)) as (old & free' & -> & Ho); [unfold zlen in *; lia|].
  rewrite store_bytes_app, bind_Ok by done. exists (d ++ k), free'. rewrite <- app_assoc, !zlen_app in *.
  rewrite !bytes_ok_app in *. split_and!; try tauto; [|unfold zlen; lia].
  destruct found; [done|]. specialize (Hf eq_refl). do 2 f_equal. unfold zlen in *. rewrite Hf. lia.
Qed.

Lemma skip_safe h e N : inv G h0 h e -> safe G h0 ('(_, h, e) ← skip h e N; Ok (h, e)).
Proof.
  intros Hi. pose proof Hi as (d & free & own & R & _). unfold skip.
  rewrite (length_rep _ _ _ _ _ R), (avail_rep _ _ _ _ _ R), !bind_Ok, !Z.geb_leb.
  assert (HARDENING_ASSERT (if 0 <=? zlen d + N then Ok (N <=? zlen free) else Ok false) =
    if (0 <=? zlen d + N) && (N <=? zlen free) then Ok tt else Crash) as ->.
  { destruct (0 <=? zlen d + N); apply assert_checked. }
  destruct (Z.leb_spec 0 (zlen d + N)); [|done]. destruct (Z.leb_spec N (zlen free)); [|done]. cbn [andb]. rewrite bind_Ok.
  assert (safe G h0 (write h e (fun b p => Ok (b, p + N)))) as S.
  { apply (safe_move h e _ (fun p => p + N) Hi). intros d1 f1 own1 R1. split; [done|].
    pose proof (length_rep _ _ _ _ _ R1) as E. rewrite (length_rep _ _ _ _ _ R) in E. injection E as E.
    pose proof (avail_rep _ _ _ _ _ R1) as E'. rewrite (avail_rep _ _ _ _ _ R) in E'. injection E' as E'. lia. }
  by destruct (write h e _) as [[h' e']| |].
Qed.

Lemma RemoveLast_safe h e N : 0 <= N -> inv G h0 h e -> safe G h0 (RemoveLast h e N).
Proof.
  intros HN Hi. pose proof Hi as (d & free & own & R & _). unfold RemoveLast.
  rewrite (length_rep _ _ _ _ _ R), bind_Ok, assert_checked, Z.geb_leb. destruct (Z.leb_spec N (zlen d)); [|done].
  rewrite bind_Ok. apply (safe_move h e _ (fun p => p - N) Hi). intros d1 f1 own1 R1. split; [done|].
  pose proof (length_rep _ _ _ _ _ R1) as E. rewrite (length_rep _ _ _ _ _ R) in E. injection E as E.
  pose proof (zlen_nonneg f1). lia.
Qed.

(** The operations that move [buf_] without a writer. *)
Lemma set_buf_inv h e d free own q : inv G h0 h e -> enc_rep h e d free own -> 0 <= q <= zlen d ->
  inv G h0 h (set_buf e (orig_ e + q)).
Proof.
  intros (d1 & f1 & own1 & R1 & Hi) R Hq. pose proof R as (_ & _ & E3 & Hs & Hok & Hb).
  assert (own1 = own) as -> by (rewrite <- (ensure_allowed_rep _ _ _ _ _ R1); apply (ensure_allowed_rep _ _ _ _ _ R)).
  pose proof (zlen_nonneg free).
  destruct (split_at d free q ltac:(lia)) as (d' & free' & E & El & Es). exists d', free', own. split; [|done].
  unfold enc_rep. cbn [set_buf buf_ limit_ orig_ underlying_buffer_]. rewrite <- E. pose proof R as (_ & E2 & _).
  split_and!; try (done || lia). destruct Hb as [(E0 & -> & -> & -> & En)|[Hp Eb]]; [left|by right].
  split_and!; try done; [apply zlen_0; rewrite (@zlen_nil Z) in *; lia|].
  apply zlen_0. rewrite (@zlen_nil Z) in *. lia.
Qed.

Lemma Resize_safe h e N : 0 <= N -> inv G h0 h e -> safe G h0 (e ← Resize e N; Ok (h, e)).
Proof.
  intros HN Hi. pose proof Hi as (d & free & own & R & _). unfold Resize. rewrite (length_rep _ _ _ _ _ R), bind_Ok.
  rewrite Z.geb_leb. destruct (Z.leb_spec N (zlen d)) as [Hle|]; [|done]. cbn [CHECK]. rewrite bind_Ok.
  pose proof (set_buf_inv h e d free own N Hi R ltac:(lia)) as Hi'. pose proof Hi' as (d' & f' & own' & R' & _).
  rewrite (length_rep _ _ _ _ _ R'), bind_Ok.
  assert (zlen d' = N) as -> by (pose proof R' as (E1 & _); cbn [set_buf buf_ orig_] in E1; lia).
  rewrite Z.eqb_refl. by destruct NDEBUG.
Qed.

Lemma Ensure_safe h e N : 0 <= N < 2 ^ 64 -> inv G h0 h e -> safe G h0 (Ensure h e N).
Proof.
  intros HN Hi. pose proof Hi as (d & free & own & R & Ho). destruct own.
  - destruct (Ensure_rep h e d free N R HN) as [(h' & e' & -> & f' & R' & _ & Ed & Hnew)|[-> _]]; [|done].
    cbn. exists d, f', true. split; [done|]. rewrite Ed. destruct Ho as [S E]. split; [done|].
    destruct Hnew as [->|Hnew]; [done|]. destruct S as (S1 & _). specialize (S1 (orig_ e')).
    destruct (decide (orig_ e' = orig_ e)) as [->|Hne]; [done|]. rewrite lookup_delete_ne, Hnew in S1 by done.
    by destruct (h0 !! orig_ e').
  - unfold Ensure, EnsureSlowPath. rewrite (ensure_allowed_rep _ _ _ _ _ R), (avail_rep _ _ _ _ _ R).
    unfold DCHECK. destruct NDEBUG; [|done]. cbn [orb CHECK]. rewrite !bind_Ok. by case_match.
Qed.

Lemma op_safe h e op : op_ok G op -> inv G h0 h e -> safe G h0 (run_op h e op).
Proof.
  intros Hop Hi. pose proof Hi as (d & free & own & R & Ho). destruct op; cbn [run_op op_ok] in *.
  - by apply Ensure_safe.
  - by apply (store_safe h e 1 [u8 v] (fun h e => put8 h e v) Hi eq_refl); [intros; by apply (put8_rep _ _ _ old)|by eexists].
  - by apply (store_safe h e 2 (le_store 2 v) (fun h e => put16 h e v) Hi eq_refl); [intros; by apply (put16_rep _ _ _ old)|by eexists].
  - by apply (store_safe h e 4 (le_store 4 v) (fun h e => put32 h e v) Hi eq_refl); [intros; by apply (put32_rep _ _ _ old)|by eexists].
  - by apply (store_safe h e 8 (le_store 8 v) (fun h e => put64 h e v) Hi eq_refl); [intros; by apply (put64_rep _ _ _ old)|by eexists].
  - by apply (store_safe h e 16 (le_store 8 (Uint128Low64 v) ++ le_store 8 (Uint128High64 v)) (fun h e => put128 h e v) Hi eq_refl);
      [intros; by apply (put128_rep _ _ _ old)|by eexists].
  - by apply put_varint32_safe.
  - by apply put_varint64_safe.
  - by apply putn_safe.
  - by apply puts_safe.
  - by apply skip_safe.
  - by apply RemoveLast_safe; [lia|].
  - by apply Resize_safe; [lia|].
  - cbn. pose proof (set_buf_inv h e d free own 0 Hi R ltac:(pose proof (zlen_nonneg d); lia)) as Hi'.
    rewrite Z.add_0_r in Hi'. exact Hi'.
  - unfold reset0. destruct (release_inv h e Hi) as (h1 & -> & S & _). rewrite bind_Ok. by apply make0_inv.
  - unfold reset. destruct (release_inv h e Hi) as (h1 & -> & S & Hsame). rewrite bind_Ok. cbn.
    replace (block h b) with (block h1 b); [by apply make_inv|]. unfold block. rewrite Hsame; [done|]. by apply HG.
Qed.

End scripts.

(** ** Worlds *)

(** What the client must keep to.  The copy of a varint is made from a live block
    outside the buffer of the encoder, and into an encoder that has a buffer: on one
    without, the code writes through the null pointer ([make0] of
    [put_varint64_from_decoder_divergences]).  Buffers lie at addresses from 10 up to
    the end of the address space. *)
Definition legal `{BuildMode} `{Target} `{Allocator} (G : gset Z) (h : heap) (es : list Encoder) (op : WorldOp) : Prop :=
  match op with
  | On i op => (i < List.length es)%nat /\ op_ok G op
  | OConstruct i => (i < List.length es)%nat
  | OConstructBuf i b => (i < List.length es)%nat /\ b ∈ G
  | OMoveConstruct i j => (i < List.length es)%nat /\ (j < List.length es)%nat /\ i <> j
  | OMoveAssign i j => (i < List.length es)%nat /\ (j < List.length es)%nat
  | OPutFromDecoder i b k =>
      10 <= b /\ is_Some (h !! b) /\ b + zlen (block h b) < 2 ^ 64 /\ 0 <= k /\
      exists e, es !! i = Some e /\ 10 <= orig_ e /\ limit_ e < 2 ^ 64 /\ orig_ e <> b
  end.

Section worlds.
Context `{BuildMode} `{Target} `{Allocator}.

Fixpoint legal_run (G : gset Z) (h : heap) (es : list Encoder) (ops : list WorldOp) : Prop :=
  match ops with
  | [] => True
  | op :: ops =>
      legal G h es op /\ match step h es op with Ok (h, es) => legal_run G h es ops | _ => True end
  end.

Variable G : gset Z.
Variable h0 : heap.
Hypothesis HG : clients_ok G h0.
Hypothesis checked : HARDENED || negb NDEBUG = true.

(** The block that an encoder owns. *)
Definition owns (e : Encoder) (p : Z) : Prop := ensure_allowed e = true /\ orig_ e = p /\ p <> 0.

(** Every encoder has a buffer of its own, of nobody else, or one of the client; the
    other blocks are those of [h0]. *)
Record winv (h : heap) (es : list Encoder) : Prop := {
  wi_rep : forall i e, es !! i = Some e -> exists d free own, enc_rep h e d free own /\
    if own then h0 !! orig_ e = None else orig_ e ∈ G;
  wi_owner : forall i j e e' p, es !! i = Some e -> es !! j = Some e' -> owns e p -> owns e' p -> i = j;
  wi_rest : forall p, (forall i e, es !! i = Some e -> ~ owns e p) ->
    zlen <$> h !! p = zlen <$> h0 !! p /\ (p ∉ G -> h !! p = h0 !! p);
  wi_bytes : forall p b, h !! p = Some b -> bytes_ok b;
}.

Lemma owns_rep h e d free own p : enc_rep h e d free own -> owns e p <-> own = true /\ orig_ e = p /\ p <> 0.
Proof. intros R. unfold owns. by rewrite (ensure_allowed_rep _ _ _ _ _ R). Qed.

(** An owned block is not one of [h0]. *)
Lemma owned_new h es i e p : winv h es -> es !! i = Some e -> owns e p -> h0 !! p = None /\ is_Some (h !! p).
Proof.
  intros W E O. destruct (wi_rep _ _ W i e E) as (d & free & own & R & Ho).
  apply (owns_rep _ _ _ _ _ _ R) in O as (-> & <- & Hp). split; [done|].
  pose proof R as (_ & _ & _ & _ & _ & [(? & _)|[_ Eb]]); [done|by eexists].
Qed.

Lemma client_same h es p : winv h es -> is_Some (h0 !! p) ->
  zlen <$> h !! p = zlen <$> h0 !! p /\ (p ∉ G -> h !! p = h0 !! p).
Proof.
  intros W Hp. apply (wi_rest _ _ W). intros i e E O. destruct (owned_new h es i e p W E O) as [En _].
  rewrite En in Hp. by destruct Hp.
Qed.

Lemma null_free h es : winv h es -> h !! 0 = None.
Proof.
  intros W. destruct (wi_rest _ _ W 0) as [E _]; [by intros i e _ (_ & _ & ?)|]. rewrite (proj1 HG) in E. by destruct (h !! 0).
Qed.

(** The heap that the other encoders see while [e] is at work. *)
Definition without (h : heap) (e : Encoder) : heap := if ensure_allowed e then delete (orig_ e) h else h.

Lemma without_clients h es i e : winv h es -> es !! i = Some e -> clients_ok G (without h e).
Proof.
  intros W E. pose proof (wi_rep _ _ W i e E) as (d & free & own & R & Ho). unfold without.
  rewrite (ensure_allowed_rep _ _ _ _ _ R).
  assert (forall p b, (if own then delete (orig_ e) h else h) !! p = Some b -> h !! p = Some b) as Hsub.
  { intros p b. destruct own; [|done]. by intros [_ ?]%lookup_delete_Some. }
  split; [|split].
  - pose proof (null_free h es W) as E0. destruct own; [|done]. apply lookup_delete_None. by right.
  - intros p b Ep. apply Hsub in Ep. split; [by apply (wi_bytes _ _ W p)|].
    destruct (decide (h0 !! p = None)) as [En|En].
    + assert (Exists (fun e' => ensure_allowed e' = true /\ orig_ e' = p /\ p <> 0) es) as Hex.
      { apply dec_stable. intros Hn. destruct (wi_rest _ _ W p) as [Es _].
        - intros j e' Ej O. apply Hn, Exists_exists. exists e'. split; [by apply list_elem_of_lookup_2 in Ej|done].
        - rewrite Ep, En in Es. done. }
      apply Exists_exists in Hex as (e' & Hin & O). apply list_elem_of_lookup_1 in Hin as [j Ej].
      pose proof (wi_rep _ _ W j e' Ej) as (d' & free' & own' & R' & _).
      apply (owns_rep _ _ _ _ _ _ R') in O as (-> & <- & Hp).
      pose proof R' as (_ & _ & _ & Hs & _ & [(? & _)|[_ Eb]]); [done|]. rewrite Ep in Eb. injection Eb as ->. by rewrite zlen_app.
    + apply not_eq_None_Some in En. destruct (client_same h es p W En) as [Es _]. destruct En as [b0 Eb0].
      rewrite Ep, Eb0 in Es. cbn in Es. injection Es as ->. by apply (proj1 (proj2 HG) p).
  - intros p Hp. destruct (proj2 (proj2 HG) p Hp) as [Hp0 Hs]. split; [done|].
    destruct (client_same h es p W Hs) as [Es _]. destruct Hs as [b0 Eb0]. rewrite Eb0 in Es.
    destruct (h !! p) as [b|] eqn:Eb; [|done]. exists b. destruct own; [|done].
    rewrite lookup_delete_ne; [done|]. intros <-. rewrite Ho in Eb0. done.
Qed.

Lemma without_inv h es i e : winv h es -> es !! i = Some e -> inv G (without h e) h e.
Proof.
  intros W E. pose proof (wi_rep _ _ W i e E) as (d & free & own & R & Ho). exists d, free, own. split; [done|].
  unfold without. rewrite (ensure_allowed_rep _ _ _ _ _ R).
  assert (forall m : heap, (forall p b, m !! p = Some b -> h !! p = Some b) -> sim G m m) as Hsim.
  { intros m Hm. split_and!; [done|done|]. intros p b Ep. by apply (wi_bytes _ _ W p), Hm. }
  destruct own; (split; [|done || apply lookup_delete_eq]); apply Hsim; [|done].
  by intros p b [_ ?]%lookup_delete_Some.
Qed.

Lemma without_same h es i e p : winv h es -> es !! i = Some e -> ~ owns e p -> without h e !! p = h !! p.
Proof.
  intros W E O. unfold without. destruct (ensure_allowed e) eqn:Ee; [|done].
  destruct (decide (p = orig_ e)) as [->|]; [|by rewrite lookup_delete_ne].
  rewrite lookup_delete_eq. assert (orig_ e = 0) as ->; [|by rewrite (null_free h es W)].
  apply dec_stable. intros Hz. by apply O.
Qed.

(** The representation of an encoder whose block keeps its size. *)
Lemma enc_rep_resized h h' e d free own : enc_rep h e d free own -> h' !! 0 = None ->
  (0 < orig_ e -> exists b, h' !! orig_ e = Some b /\ zlen b = zlen (d ++ free) /\ bytes_ok b) ->
  exists d' free', enc_rep h' e d' free' own.
Proof.
  intros (E1 & E2 & E3 & Hs & Hok & [(E0 & -> & -> & -> & _)|[Hp _]]) H0' Hb.
  - exists [], []. unfold enc_rep. split_and!; try done. by left.
  - destruct (Hb Hp) as (b & Eb & El & Hbok). rewrite zlen_app in El.
    destruct (split_at b [] (zlen d)) as (d' & f' & Es & Ed & Ef); [rewrite (@zlen_nil Z); pose proof (zlen_nonneg d);
      pose proof (zlen_nonneg free); lia|]. rewrite app_nil_r in Es. rewrite (@zlen_nil Z) in Ef. subst b.
    exists d', f'. unfold enc_rep. split_and!; try (done || lia). by right.
Qed.

(** *** The encoder [e] becomes [e'] *)

Section local.
Variables (h h' : heap) (es : list Encoder) (i : nat) (e e' : Encoder).
Hypothesis W : winv h es.
Hypothesis E : es !! i = Some e.
Hypothesis Hi : inv G (without h e) h' e'.

(** The blocks of the others are as they were. *)
Lemma local_others p : ~ owns e' p ->
  zlen <$> h' !! p = zlen <$> without h e !! p /\ (p ∉ G -> h' !! p = without h e !! p).
Proof.
  destruct Hi as (d & free & own & R & Ho). intros O. destruct own; [|destruct Ho as [(S1 & S2 & _) _]; split; [apply S1|apply S2]].
  destruct Ho as [(S1 & S2 & _) En]. destruct (decide (p = orig_ e')) as [->|Hne].
  - assert (orig_ e' = 0) as E0.
    { apply dec_stable. intros Hz. apply O. by apply (owns_rep _ _ _ _ _ _ R). }
    pose proof R as (_ & _ & _ & _ & _ & [(_ & _ & _ & _ & Eh)|[? _]]); [|lia]. by rewrite En, E0, Eh.
  - specialize (S1 p). specialize (S2 p). rewrite lookup_delete_ne in S1, S2 by done. done.
Qed.

Lemma local_new p : owns e' p -> without h e !! p = None.
Proof.
  destruct Hi as (d & free & own & R & Ho). intros O.
  apply (owns_rep _ _ _ _ _ _ R) in O as (-> & <- & _). apply Ho.
Qed.

Lemma local_null : h' !! 0 = None.
Proof.
  destruct (local_others 0) as [L _]; [by intros (_ & _ & ?)|].
  rewrite (proj1 (without_clients h es i e W E)) in L. by destruct (h' !! 0).
Qed.

Lemma local_owned j f p : j <> i -> es !! j = Some f -> owns f p ->
  without h e !! p = h !! p /\ is_Some (h !! p) /\ ~ owns e' p.
Proof.
  intros Hj Ef O. destruct (owned_new h es j f p W Ef O) as [_ Hs]. assert (without h e !! p = h !! p) as Es.
  { apply (without_same h es i e p W E). intros O'. apply Hj. by apply (wi_owner _ _ W j i f e p). }
  split_and!; [done|done|]. intros O'. rewrite (local_new p O') in Es. rewrite <- Es in Hs. by destruct Hs.
Qed.

Lemma local_bytes p b : h' !! p = Some b -> bytes_ok b.
Proof.
  destruct Hi as (d & free & own & R & Ho). intros Ep. destruct own; [|by apply (proj2 (proj2 (proj1 Ho)) p)].
  destruct (decide (p = orig_ e')) as [->|Hne].
  - pose proof R as (_ & _ & _ & _ & Hok & [(E0 & _ & _ & _ & En)|[_ Eb]]); [by rewrite E0, En in Ep|].
    rewrite Ep in Eb. by injection Eb as ->.
  - apply (proj2 (proj2 (proj1 Ho)) p). by rewrite lookup_delete_ne.
Qed.

(** A client block: nobody owns it and it keeps its size. *)
Lemma local_client p : p ∈ G -> zlen <$> h' !! p = zlen <$> h !! p.
Proof.
  intros Hp. destruct (proj2 (proj2 HG) _ Hp) as [_ Hs].
  assert (~ owns e p) as O.
  { intros O. destruct (owned_new h es i e p W E O) as [En _]. rewrite En in Hs. by destruct Hs. }
  pose proof (without_same h es i e p W E O) as Ew. rewrite <- Ew. apply local_others. intros O'.
  rewrite (local_new p O') in Ew. destruct (client_same h es p W Hs) as [Es _]. rewrite <- Ew in Es. destruct Hs as [b Eb]. by rewrite Eb in Es.
Qed.

Lemma local_rep j f : <[i := e']> es !! j = Some f -> exists d free own, enc_rep h' f d free own /\
  if own then h0 !! orig_ f = None else orig_ f ∈ G.
Proof.
  intros [(<- & <- & _)|[Hj Ef]]%list_lookup_insert_Some.
  - destruct Hi as (d & free & own & R & Ho). exists d, free, own. split; [done|]. destruct own; [|apply Ho].
    destruct Ho as [_ En]. destruct (h0 !! orig_ e') as [b|] eqn:Eb; [|done]. exfalso.
    destruct (client_same h es (orig_ e') W) as [Es _]; [by eexists|].
    rewrite <- (without_same h es i e (orig_ e') W E), En, Eb in Es; [done|]. intros O.
    destruct (owned_new h es i e _ W E O) as [E0 _]. by rewrite Eb in E0.
  - pose proof (wi_rep _ _ W j f Ef) as (d & free & own & R & Ho).
    destruct (enc_rep_resized h h' f d free own R local_null) as (d1 & f1 & R1); [|by exists d1, f1, own].
    intros Hp. pose proof R as (_ & _ & _ & _ & _ & [(? & _)|[_ Eb]]); [lia|]. destruct own.
    + assert (owns f (orig_ f)) as O by (apply (owns_rep _ _ _ _ _ _ R); split_and!; [done|done|lia]).
      destruct (local_owned j f _ (not_eq_sym Hj) Ef O) as (Es & _ & On). destruct (local_others (orig_ f) On) as [_ L2].
      exists (d ++ free). rewrite L2, Es; [split_and!; [done|done|apply R]|].
      intros HpG. destruct (proj2 (proj2 HG) _ HpG) as [_ [b Hb]]. by rewrite Hb in Ho.
    + pose proof (local_client (orig_ f) Ho) as L1. rewrite Eb in L1.
      destruct (h' !! orig_ f) as [b'|] eqn:Eb'; [|done]. exists b'. cbn in L1. injection L1 as L1.
      split_and!; [done|done|by apply (local_bytes (orig_ f))].
Qed.

Lemma winv_local : winv h' (<[i := e']> es).
Proof.
  split; [exact local_rep| | |exact local_bytes].
  - intros j k f g p Ef Eg Of Og. apply list_lookup_insert_Some in Ef as [(<- & <- & _)|[Hj Ef]];
      apply list_lookup_insert_Some in Eg as [(<- & <- & _)|[Hk Eg]]; [done| | |by apply (wi_owner _ _ W j k f g p)].
    + exfalso. by apply (local_owned k g p (not_eq_sym Hk) Eg Og).
    + exfalso. by apply (local_owned j f p (not_eq_sym Hj) Ef Of).
  - intros p Hno. assert (~ owns e' p) as On.
    { apply (Hno i e'), list_lookup_insert_eq. by apply lookup_lt_Some in E. }
    destruct (local_others p On) as [L1 L2]. rewrite L1.
    destruct (decide (ensure_allowed e = true /\ orig_ e = p /\ p <> 0)) as [O|O].
    + destruct (owned_new h es i e p W E O) as [En _]. destruct O as (Ee & <- & _).
      assert (without h e !! orig_ e = None) as Ew by (unfold without; rewrite Ee; apply lookup_delete_eq).
      rewrite Ew, En in *. split; [done|exact L2].
    + rewrite (without_same h es i e p W E) in * by done. destruct (wi_rest _ _ W p) as [W1 W2].
      { intros j f Ef. destruct (decide (i = j)) as [<-|Hj]; [by rewrite E in Ef; injection Ef as <-|].
        apply (Hno j f). by rewrite list_lookup_insert_ne. }
      split; [done|]. intros HpG. by rewrite L2, W2.
Qed.
End local.

(** An operation of one encoder. *)
Lemma winv_op h es i e op : winv h es -> es !! i = Some e -> op_ok G op ->
  match run_op h e op with Ok (h', e') => winv h' (<[i := e']> es) | Crash => True | UB => False end.
Proof.
  intros W E Hop.
  pose proof (op_safe G (without h e) (without_clients h es i e W E) checked h e op Hop (without_inv h es i e W E)) as S.
  destruct (run_op h e op) as [[h' e']| |]; [|done|done]. by apply (winv_local h h' es i e e').
Qed.

(** The end of an object, and the one that takes its place. *)
Lemma winv_destroy h es i e : winv h es -> es !! i = Some e -> exists h1, release h e = Ok h1 /\ destroy h e = Ok h1 /\
  winv h1 (<[i := make0]> es) /\ forall b, b ∈ G -> winv h1 (<[i := make b (zlen (block h b))]> es).
Proof.
  intros W E. destruct (wi_rep _ _ W i e E) as (d & free & own & R & _).
  pose proof (release_rep _ _ _ _ _ R) as Er. eexists. split; [exact Er|]. split; [by apply (destroy_rep _ _ _ _ _ R)|]. split.
  - pose proof (winv_op h es i e OReset W E I) as S. cbn [run_op] in S. unfold reset0 in S. by rewrite Er, bind_Ok in S.
  - intros b Hb. pose proof (winv_op h es i e (OResetBuf b) W E Hb) as S. cbn [run_op] in S. unfold reset in S.
    by rewrite Er, bind_Ok in S.
Qed.

Lemma make0_owns p : ~ owns make0 p.
Proof. by intros (_ & <- & ?). Qed.

(** A move to an encoder that owns nothing. *)
Lemma winv_move h es i j e : winv h es -> es !! i = Some make0 -> es !! j = Some e -> i <> j ->
  winv h (<[j := make0]> (<[i := e]> es)).
Proof.
  intros W Ei Ej Hij. assert (i < List.length es)%nat as Hi by (by apply lookup_lt_Some in Ei).
  assert (j < List.length es)%nat as Hj by (by apply lookup_lt_Some in Ej).
  assert (forall k f, <[j := make0]> (<[i := e]> es) !! k = Some f ->
    f = make0 \/ es !! (if decide (k = i) then j else k) = Some f /\ k <> j) as Hl.
  { intros k f [(<- & <- & _)|[Hk Ek]]%list_lookup_insert_Some; [by left|right].
    apply list_lookup_insert_Some in Ek as [(<- & <- & _)|[Hk' Ek]]; [by rewrite decide_True|].
    by rewrite decide_False by congruence. }
  split; [| | |apply W].
  - intros k f [->|[Ef _]]%Hl; [by apply (wi_rep _ _ W i)|by apply (wi_rep _ _ W _ _ Ef)].
  - intros k l f g p [->|[Ef Hk]]%Hl Eg Of Og; [by apply make0_owns in Of|].
    apply Hl in Eg as [->|[Eg Hl']]; [by apply make0_owns in Og|].
    pose proof (wi_owner _ _ W _ _ f g p Ef Eg Of Og). repeat case_decide; congruence.
  - intros p Hno. apply (wi_rest _ _ W). intros k f Ef O. destruct (decide (k = i)) as [->|Hk].
    + rewrite Ei in Ef. injection Ef as <-. by apply make0_owns in O.
    + destruct (decide (k = j)) as [->|Hkj].
      * rewrite Ej in Ef. injection Ef as <-. apply (Hno i e); [|done].
        by rewrite list_lookup_insert_ne, list_lookup_insert_eq.
      * apply (Hno k f); [|done]. by rewrite !list_lookup_insert_ne.
Qed.

(** A decoder of a client block, moved to an offset. *)
Definition decoder_at (b n k : Z) : Decoder.Decoder :=
  {| Decoder.orig_ := b; Decoder.buf_ := b + k; Decoder.limit_ := b + n |}.

Lemma reset_client b n : b <> 0 -> Decoder.reset b n = Ok (decoder_at b n 0).
Proof.
  intros Hb. unfold Decoder.reset, decoder_at, HARDENING_ASSERT. rewrite checked, bind_Ok.
  rewrite (proj2 (Z.eqb_neq b 0) Hb). cbn [negb orb CHECK]. by rewrite bind_Ok, Z.add_0_r.
Qed.

Lemma skip_client b n k : 0 <= n < 2 ^ 63 -> 0 <= k ->
  Decoder.skip (decoder_at b n 0) k = if k <=? n then Ok (b, decoder_at b n k) else Crash.
Proof.
  intros Hn Hk. unfold Decoder.skip, HARDENING_ASSERT, Decoder.avail, Decoder.pos, Decoder.set_buf, decoder_at.
  cbn [Decoder.buf_ Decoder.limit_ Decoder.orig_]. rewrite checked, !Z.add_0_r, !Z.geb_leb, Z.leb_refl.
  rewrite (proj2 (Z.leb_le b (b + n))), !DCHECK_true, !bind_Ok by lia.
  unfold u64. rewrite Z.mod_small, Z.sub_diag, Zmod_0_l, Z.add_0_l, Z.geb_leb by lia.
  replace (b + n - b) with n by lia. rewrite Z.geb_leb, (proj2 (Z.leb_le 0 k) Hk).
  by destruct (Z.leb_spec k n).
Qed.

(** A varint from a client block. *)
Lemma winv_put_from_decoder h es i e b k : winv h es -> es !! i = Some e -> legal G h es (OPutFromDecoder i b k) ->
  match step h es (OPutFromDecoder i b k) with Ok (h', es') => winv h' es' | Crash => True | UB => False end.
Proof.
  intros W E (Hb10 & [l El] & Hlim & Hk & e1 & E1 & He10 & He64 & Hne). rewrite E in E1. injection E1 as <-.
  cbn [step]. unfold get_enc. rewrite E, bind_Ok.
  assert (block h b = l) as Ebl by (unfold block; by rewrite El). rewrite Ebl in *.
  destruct (wi_rep _ _ W i e E) as (dd & free & own & R & _).
  pose proof (without_inv h es i e W E) as Hi. pose proof (zlen_nonneg l).
  assert (zlen l < 2 ^ 63) as Hl.
  { pose proof (without_clients h es i e W E) as (_ & B & _). apply (B b).
    rewrite (without_same h es i e b W E); [done|]. by intros (_ & ? & _). }
  rewrite reset_client, bind_Ok, skip_client by lia. destruct (Z.leb_spec k (zlen l)) as [Hkl|]; [|done].
  rewrite bind_Ok. set (d := decoder_at b (zlen l) k).
  assert (zlen (take (Z.to_nat k) l) = k) as Et by (unfold zlen in *; rewrite length_take; lia).
  assert (zlen (drop (Z.to_nat k) l) = zlen l - k) as Ed by (unfold zlen in *; rewrite length_drop; lia).
  destruct (put_from_decoder_rep h d e (take (Z.to_nat k) l) (drop (Z.to_nat k) l) [] dd free own)
    as (ok & h' & d' & e' & d1 & f1 & -> & R' & Eo & Es & Edel);
    try (done || cbn [d decoder_at Decoder.orig_ Decoder.buf_ Decoder.limit_]; lia).
  - cbn [d decoder_at Decoder.orig_]. by rewrite Ebl, app_nil_r, take_drop.
  - pose proof (wi_bytes _ _ W b l El) as Hok. rewrite <- (take_drop (Z.to_nat k) l) in Hok. apply bytes_ok_app in Hok. tauto.
  - rewrite bind_Ok. apply (winv_local h h' es i e e' W E). destruct Hi as (dd0 & free0 & own0 & R0 & Hi).
    assert (own0 = own) as -> by (rewrite <- (ensure_allowed_rep _ _ _ _ _ R0); apply (ensure_allowed_rep _ _ _ _ _ R)).
    by apply (inv_write G (without h e) h e dd free own d1 f1 h' e').
Qed.

Lemma get_enc_in es i : (i < List.length es)%nat -> exists e, es !! i = Some e /\ get_enc es i = Ok e.
Proof. intros [e E]%lookup_lt_is_Some. exists e. unfold get_enc. by rewrite E. Qed.

Lemma winv_step h es op : winv h es -> legal G h es op ->
  match step h es op with Ok (h', es') => winv h' es' | Crash => True | UB => False end.
Proof.
  intros W Hl. destruct op as [i op|i|i b|i j|i j|i b k]; [..|destruct Hl as (? & ? & ? & ? & e & E & ?);
    apply (winv_put_from_decoder h es i e b k W E); split_and!; try done; by exists e]; cbn [step legal] in *.
  - destruct Hl as [Hi Hop]. destruct (get_enc_in es i Hi) as (e & E & ->). rewrite bind_Ok.
    pose proof (winv_op h es i e op W E Hop) as S. by destruct (run_op h e op) as [[h' e']| |].
  - destruct (get_enc_in es i Hl) as (e & E & ->). destruct (winv_destroy h es i e W E) as (h1 & _ & Ed & W1 & _).
    by rewrite bind_Ok, Ed.
  - destruct Hl as [Hi Hb]. destruct (get_enc_in es i Hi) as (e & E & ->).
    destruct (winv_destroy h es i e W E) as (h1 & _ & Ed & _ & W1). rewrite bind_Ok, Ed. by apply W1.
  - destruct Hl as (Hi & Hj & Hij). destruct (get_enc_in es i Hi) as (e & E & ->), (get_enc_in es j Hj) as (f & F & ->).
    destruct (winv_destroy h es i e W E) as (h1 & _ & Ed & W1 & _). rewrite !bind_Ok, Ed, bind_Ok. cbn [move_construct].
    rewrite <- (list_insert_insert_eq es i f make0). apply winv_move; [done| | |done].
    + by apply list_lookup_insert_eq.
    + by rewrite list_lookup_insert_ne.
  - destruct Hl as (Hi & Hj). destruct (get_enc_in es i Hi) as (e & E & ->), (get_enc_in es j Hj) as (f & F & ->).
    rewrite !bind_Ok. destruct (decide (i = j)) as [|Hij]; [done|].
    destruct (winv_destroy h es i e W E) as (h1 & Er & _ & W1 & _). unfold move_assign. rewrite Er, !bind_Ok.
    rewrite <- (list_insert_insert_eq es i f make0). apply winv_move; [done| | |done].
    + by apply list_lookup_insert_eq.
    + by rewrite list_lookup_insert_ne.
Qed.

Lemma winv_run ops h es : winv h es -> legal_run G h es ops ->
  match run_ops h es ops with Ok (h', es') => winv h' es' | Crash => True | UB => False end.
Proof.
  revert h es. induction ops as [|op ops IH]; intros h es W; [done|]. cbn [legal_run run_ops]. intros [Hl Hr].
  pose proof (winv_step h es op W Hl) as S. destruct (step h es op) as [[h1 es1]| |]; [|done|done].
  rewrite bind_Ok. by apply IH.
Qed.

Lemma winv_start n : winv h0 (replicate n make0).
Proof.
  split.
  - intros i e [-> _]%lookup_replicate. exists [], [], true. split; [|apply HG]. apply make0_rep, HG.
  - intros i j e e' p [-> _]%lookup_replicate _ O. by apply make0_owns in O.
  - done.
  - intros p b E. by apply (proj1 (proj2 HG) p).
Qed.

(** The destructors, in any order of the objects. *)
Lemma winv_destroy_all es : forall h k, winv h (replicate k make0 ++ es) ->
  exists h', destroy_all h es = Ok h' /\ winv h' (replicate (k + List.length es) make0).
Proof.
  induction es as [|e es IH]; intros h k W; cbn [destroy_all List.length].
  { exists h. rewrite app_nil_r in W. by rewrite Nat.add_0_r. }
  destruct (winv_destroy h _ k e W) as (h1 & _ & Ed & W1 & _).
  { rewrite lookup_app_r by (by rewrite length_replicate). by rewrite length_replicate, Nat.sub_diag. }
  rewrite Ed, bind_Ok. replace (k + S (List.length es))%nat with (S k + List.length es)%nat by lia. apply IH.
  replace (replicate (S k) make0 ++ es) with (<[k := make0]> (replicate k make0 ++ e :: es)); [done|].
  rewrite insert_app_r_alt, length_replicate, Nat.sub_diag by (by rewrite length_replicate). cbn [insert list_insert].
  rewrite replicate_S_end, <- app_assoc. done.
Qed.

Lemma winv_end h n : winv h (replicate n make0) ->
  (forall p, zlen <$> h !! p = zlen <$> h0 !! p) /\ forall p, p ∉ G -> h !! p = h0 !! p.
Proof.
  intros W. assert (forall p i e, replicate n make0 !! i = Some e -> ~ owns e p) as Hno
    by (intros p i e [-> _]%lookup_replicate; apply make0_owns).
  split; intros p; [|intros Hp]; by apply (wi_rest _ _ W p (Hno p)).
Qed.
End worlds.


(** Two encoders with buffers of their own; the second is assigned to the first, and
    a varint is copied from a client block. *)
Definition own_demo : list WorldOp :=
  [On 0 (OEnsure 3); On 0 (OPutn [7; 8]); On 1 (OEnsure 20); OMoveAssign 0 1; OMoveAssign 0 0; On 0 (OPutVarint64 300);
   OPutFromDecoder 0 200 1; OMoveConstruct 2 0; OConstructBuf 0 100; On 0 (OPutn [9])].

(** One step of [legal_run] on a concrete world. *)
Ltac own_step :=
  cbn [legal_run]; split;
  [|match goal with |- match ?s with Ok _ => _ | _ => _ end =>
      let v := eval vm_compute in s in replace s with v by (vm_compute; reflexivity)
    end; cbv beta iota].

