(* ===== verification/DisjointSet.v ===== *)
(** * Disjoint sets

    [util/set/disjoint_set_forest.h]: union by rank with path compression.  The
    node hash map of the forest is a [gmap] from elements to [ObjectData]; its
    nodes do not move, so a pointer to an [ObjectData] is the key of its node.
    Counters and ranks are [int]s.  The refinement is in [DisjointSetSpec]. *)
From stdpp Require Import base gmap.
From S2P Require Import Prelude.
Local Open Scope Z_scope.

Section forest.
Context {T : Type} {eqT : EqDecision T} {cntT : Countable T}.

(** The default constructor of the source leaves [rank] unset, but is used by
    no operation: nodes are made by [ObjectData(x)]. *)
Record ObjectData := { parent : T; rank : Z }.
Definition new_data (x : T) : ObjectData := {| parent := x; rank := 0 |}.

#[local] Abbreviation ObjectMap := (gmap T ObjectData).

Record DisjointSetForest := {
  objects_ : ObjectMap;
  num_disjoint_sets_ : Z;
  notfound_value_ : T;
}.

Definition make_forest (notfound_value : T) : DisjointSetForest :=
  {| objects_ := ∅; num_disjoint_sets_ := 0; notfound_value_ := notfound_value |}.

Definition set_objects (f : DisjointSetForest) (m : ObjectMap) : DisjointSetForest :=
  {| objects_ := m; num_disjoint_sets_ := num_disjoint_sets_ f; notfound_value_ := notfound_value_ f |}.
Definition set_count (f : DisjointSetForest) (n : Z) : DisjointSetForest :=
  {| objects_ := objects_ f; num_disjoint_sets_ := n; notfound_value_ := notfound_value_ f |}.

(** Reading through a pointer to a node. *)
Definition node (m : ObjectMap) (p : T) : outcome ObjectData :=
  match m !! p with Some d => Ok d | None => UB end.
Definition set_parent (m : ObjectMap) (p q : T) : outcome ObjectMap :=
  d ← node m p; Ok (<[p := {| parent := q; rank := rank d |}]> m).
Definition set_rank (m : ObjectMap) (p : T) (k : Z) : outcome ObjectMap :=
  d ← node m p; Ok (<[p := {| parent := parent d; rank := k |}]> m).

Definition clear (f : DisjointSetForest) : DisjointSetForest :=
  set_count (set_objects f ∅) 0.

Definition num_disjoint_sets (f : DisjointSetForest) : Z := num_disjoint_sets_ f.

(** A [size_t] returned as an [int]. *)
Definition num_objects (f : DisjointSetForest) : Z := swrap 32 (Z.of_nat (size (objects_ f))).

Definition FindData (m : ObjectMap) (x : T) : outcome T :=
  match m !! x with Some _ => Ok x | None => Crash end.

(** The recursion follows parent pointers; [fuel] bounds its depth. *)
Fixpoint InternalFindSet (fuel : nat) (m : ObjectMap) (x : T) : outcome (ObjectMap * T) :=
  match fuel with
  | O => UB
  | S fuel =>
      d ← node m x;
      if decide (x = parent d) then Ok (m, x)
      else
        parent_data ← FindData m (parent d);
        '(m, repr) ← InternalFindSet fuel m parent_data;
        rd ← node m repr;
        m ← set_parent m x (parent rd);
        Ok (m, repr)
  end.

Definition find_fuel (m : ObjectMap) : nat := S (size m).

Definition FindSet (f : DisjointSetForest) (x : T) : outcome (DisjointSetForest * T) :=
  match objects_ f !! x with
  | None => Ok (f, notfound_value_ f)
  | Some _ =>
      '(m, repr) ← InternalFindSet (find_fuel (objects_ f)) (objects_ f) x;
      d ← node m repr;
      Ok (set_objects f m, parent d)
  end.

Definition IsSingleton (f : DisjointSetForest) (x : T) : bool :=
  match objects_ f !! x with
  | None => true
  | Some d => bool_decide (x = parent d) && (rank d =? 0)
  end.

(** [objects_.try_emplace(x, x)] and whether it inserted. *)
Definition try_emplace (m : ObjectMap) (x : T) : ObjectMap * bool :=
  match m !! x with
  | Some _ => (m, false)
  | None => (<[x := new_data x]> m, true)
  end.

Definition MakeSet (f : DisjointSetForest) (x : T) : outcome (DisjointSetForest * bool) :=
  let '(m, inserted) := try_emplace (objects_ f) x in
  if inserted then n ← int_incr (num_disjoint_sets_ f); Ok (set_count (set_objects f m) n, true)
  else Ok (f, false).

Definition Link (m : ObjectMap) (x y : T) : outcome ObjectMap :=
  dx ← node m x;
  dy ← node m y;
  if rank dx <? rank dy then set_parent m x (parent dy)
  else
    m ← set_parent m y (parent dx);
    dx ← node m x;
    dy ← node m y;
    if rank dx =? rank dy then k ← int_incr (rank dx); set_rank m x k else Ok m.

Definition UnionHelper (f : DisjointSetForest) (x y : T) : outcome (DisjointSetForest * bool) :=
  let '(m, inserted) := try_emplace (objects_ f) y in
  n ← (if inserted then int_incr (num_disjoint_sets_ f) else Ok (num_disjoint_sets_ f));
  '(m, xr) ← InternalFindSet (find_fuel m) m x;
  '(m, yr) ← InternalFindSet (find_fuel m) m y;
  dx ← node m xr;
  dy ← node m yr;
  if decide (parent dx = parent dy) then Ok (set_count (set_objects f m) n, false)
  else
    m ← Link m xr yr;
    n ← int_decr n;
    Ok (set_count (set_objects f m) n, true).

(** Both overloads; the heterogeneous one converts its arguments on insertion. *)
Definition Union (f : DisjointSetForest) (x y : T) : outcome (DisjointSetForest * bool) :=
  let '(m, inserted) := try_emplace (objects_ f) x in
  n ← (if inserted then int_incr (num_disjoint_sets_ f) else Ok (num_disjoint_sets_ f));
  UnionHelper (set_count (set_objects f m) n) x y.

Fixpoint UnionMany_loop (f : DisjointSetForest) (begin : T) (rest : list T) : outcome DisjointSetForest :=
  match rest with
  | [] => Ok f
  | next :: rest =>
      match objects_ f !! next with
      | None => '(f, _) ← UnionHelper f begin next; UnionMany_loop f begin rest
      | Some d =>
          bd ← node (objects_ f) begin;
          if decide (parent bd = parent d) then UnionMany_loop f begin rest
          else '(f, _) ← UnionHelper f begin next; UnionMany_loop f begin rest
      end
  end.

Definition UnionManyIterator (f : DisjointSetForest) (elements : list T) : outcome DisjointSetForest :=
  match elements with
  | [] => Ok f
  | begin :: rest => '(f, _) ← MakeSet f begin; UnionMany_loop f begin rest
  end.

Definition UnionMany (f : DisjointSetForest) (elements : list T) : outcome DisjointSetForest :=
  UnionManyIterator f elements.

(** The first loop of [UnionManyOld]; the pointers it caches are the elements. *)
Fixpoint UnionManyOld_insert (f : DisjointSetForest) (elements : list T) : outcome DisjointSetForest :=
  match elements with
  | [] => Ok f
  | x :: rest =>
      match objects_ f !! x with
      | None =>
          n ← int_incr (num_disjoint_sets_ f);
          UnionManyOld_insert (set_count (set_objects f (<[x := new_data x]> (objects_ f))) n) rest
      | Some _ => UnionManyOld_insert f rest
      end
  end.

Fixpoint UnionManyOld_loop (f : DisjointSetForest) (first : T) (rest : list T) : outcome DisjointSetForest :=
  match rest with
  | [] => Ok f
  | x :: rest =>
      d ← node (objects_ f) x;
      d0 ← node (objects_ f) first;
      if decide (parent d = parent d0) then UnionManyOld_loop f first rest
      else '(f, _) ← Union f x first; UnionManyOld_loop f first rest
  end.

Definition UnionManyOld (f : DisjointSetForest) (elements : list T) : outcome DisjointSetForest :=
  f ← UnionManyOld_insert f elements;
  match elements with
  | [] => Ok f
  | first :: rest => UnionManyOld_loop f first rest
  end.

End forest.
Arguments ObjectData : clear implicits.
Arguments DisjointSetForest T {_ _}.
