(* ===== verification/DisjointSetSpec.v ===== *)
(** * Disjoint sets: the invariant and the specification

    A forest is related to the map [R] from each element to the representative of
    its set.  Ranks grow along parent pointers and a set has at least [2 ^ rank]
    elements, so the recursion of [InternalFindSet] is logarithmic and the [int]s
    do not overflow.

    The abstract state is a set of elements and the pairs that were united; two
    elements are in one set when the pairs connect them.  Every operation of the
    forest refines it. *)
From Stdlib Require Import ZArith Lia.
From stdpp Require Import base gmap fin_map_dom relations.
From S2P Require Import Prelude.
From S2P Require Import DisjointSet.
Local Open Scope Z_scope.

Section props.
Context {T : Type} {eqT : EqDecision T} {cntT : Countable T}.
Implicit Types (m : gmap T (ObjectData T)) (R : gmap T T) (f : DisjointSetForest T) (x y r : T) (d : ObjectData T).

Lemma node_Some m x d : m !! x = Some d -> node m x = Ok d.
Proof. unfold node. by intros ->. Qed.
Lemma set_parent_Some m x d q : m !! x = Some d ->
  set_parent m x q = Ok (<[x := {| parent := q; rank := rank d |}]> m).
Proof. intros E. unfold set_parent. by rewrite (node_Some _ _ _ E). Qed.
Lemma set_rank_Some m x d k : m !! x = Some d ->
  set_rank m x k = Ok (<[x := {| parent := parent d; rank := k |}]> m).
Proof. intros E. unfold set_rank. by rewrite (node_Some _ _ _ E). Qed.

(** The elements represented by [r], and the representatives. *)
Definition members R r : gset T := dom (filter (fun p => p.2 = r) R).
Definition reps R : gset T := dom (filter (fun p => p.1 = p.2) R).

Lemma elem_of_members R r y : y ∈ members R r <-> R !! y = Some r.
Proof.
  unfold members. rewrite elem_of_dom. split.
  - intros [z Hz]. apply map_lookup_filter_Some in Hz as [Hz E]. cbn in E. by subst.
  - intros E. exists r. by apply map_lookup_filter_Some.
Qed.

Lemma elem_of_reps R r : r ∈ reps R <-> R !! r = Some r.
Proof.
  unfold reps. rewrite elem_of_dom. split.
  - intros [z Hz]. apply map_lookup_filter_Some in Hz as [Hz E]. cbn in E. by subst.
  - intros E. exists r. by apply map_lookup_filter_Some.
Qed.

Record wf (m : gmap T (ObjectData T)) (R : gmap T T) : Prop := {
  wf_dom : forall x, is_Some (m !! x) <-> is_Some (R !! x);
  wf_parent : forall x d, m !! x = Some d -> R !! parent d = R !! x;
  wf_root : forall x d, m !! x = Some d -> parent d = x -> R !! x = Some x;
  wf_label : forall x r, R !! x = Some r -> exists d, m !! r = Some d /\ parent d = r;
  wf_pos : forall x d, m !! x = Some d -> 0 <= rank d;
  wf_rank : forall x d p, m !! x = Some d -> m !! parent d = Some p -> parent d <> x -> rank d < rank p;
  wf_top : forall x r d p, R !! x = Some r -> m !! x = Some d -> m !! r = Some p -> rank d <= rank p;
  wf_size : forall r d, m !! r = Some d -> parent d = r -> 2 ^ rank d <= Z.of_nat (size (members R r));
}.

(** The representative of an element that is in the forest. *)
Lemma wf_lookup m R x d : wf m R -> m !! x = Some d ->
  exists r dr, R !! x = Some r /\ m !! r = Some dr /\ parent dr = r /\ R !! r = Some r.
Proof.
  intros W E. destruct (proj1 (wf_dom _ _ W x) ltac:(by eexists)) as [r Hr].
  destruct (wf_label _ _ W x r Hr) as (dr & Er & Ep). exists r, dr. split_and!; try done.
  by apply (wf_root _ _ W r dr).
Qed.

Lemma wf_parent_lookup m R x d : wf m R -> m !! x = Some d -> exists p, m !! parent d = Some p.
Proof.
  intros W E. apply (wf_dom _ _ W). rewrite (wf_parent _ _ W x d E). apply (wf_dom _ _ W). by eexists.
Qed.

Lemma wf_below m R x d r dr : wf m R -> m !! x = Some d -> parent d <> x -> R !! x = Some r ->
  m !! r = Some dr -> rank d < rank dr.
Proof.
  intros W E Hp Er Ed. destruct (wf_parent_lookup _ _ _ _ W E) as [p Ep].
  pose proof (wf_rank _ _ W x d p E Ep Hp).
  assert (rank p <= rank dr); [|lia]. apply (wf_top _ _ W (parent d) r); [|done|done].
  by rewrite (wf_parent _ _ W x d E).
Qed.

Lemma wf_sizes m R : wf m R -> size m = size R.
Proof.
  intros W. rewrite <- (size_dom (D := gset T) m), <- (size_dom (D := gset T) R). f_equal.
  apply set_eq. intros x. rewrite !elem_of_dom. apply (wf_dom _ _ W).
Qed.

Lemma wf_rank_bound m R x d : wf m R -> m !! x = Some d -> 2 ^ rank d <= Z.of_nat (size m).
Proof.
  intros W E. destruct (wf_lookup _ _ _ _ W E) as (r & dr & Hr & Er & Ep & _).
  pose proof (wf_size _ _ W r dr Er Ep) as Hs. pose proof (wf_top _ _ W x r d dr Hr E Er) as Ht.
  assert (size (members R r) <= size m)%nat as Hm.
  { rewrite (wf_sizes _ _ W), <- (size_dom (D := gset T) R). apply subseteq_size. intros y. rewrite elem_of_members, elem_of_dom. by eexists. }
  pose proof (Z.pow_le_mono_r 2 (rank d) (rank dr) ltac:(lia) Ht). lia.
Qed.

Lemma wf_rank_log m R x d : wf m R -> m !! x = Some d -> rank d <= Z.log2 (Z.of_nat (size m)).
Proof.
  intros W E. pose proof (wf_rank_bound _ _ _ _ W E) as Hb. pose proof (wf_pos _ _ W x d E).
  apply Z.log2_le_pow2; [|done]. pose proof (Z.pow_pos_nonneg 2 (rank d)). lia.
Qed.

(** ** Path compression *)

Lemma wf_compress m R x d r : wf m R -> m !! x = Some d -> parent d <> x -> R !! x = Some r ->
  wf (<[x := {| parent := r; rank := rank d |}]> m) R.
Proof.
  intros W E Hp Er. destruct (wf_label _ _ W x r Er) as (dr & Edr & Epr).
  pose proof (wf_below _ _ _ _ _ _ W E Hp Er Edr) as Hlt.
  assert (r <> x) as Hrx by (intros ->; naive_solver).
  assert (R !! r = Some r) as Hrr by (by apply (wf_root _ _ W r dr)).
  split.
  - intros y. destruct (decide (y = x)) as [->|Hy]; simplify_map_eq.
    + split; intros _; by eexists.
    + apply (wf_dom _ _ W).
  - intros y dy. destruct (decide (y = x)) as [->|Hy]; intros Ey; simplify_map_eq; [done|].
    by apply (wf_parent _ _ W).
  - intros y dy. destruct (decide (y = x)) as [->|Hy]; intros Ey Hpy; simplify_map_eq. by eapply (wf_root _ _ W).
  - intros y z Ey. destruct (wf_label _ _ W y z Ey) as (dz & Ez & Epz). exists dz. split; [|done].
    rewrite lookup_insert_ne; [done|]. intros ->. simplify_eq.
  - intros y dy. destruct (decide (y = x)) as [->|Hy]; intros Ey; simplify_map_eq.
    + by apply (wf_pos _ _ W x d).
    + by apply (wf_pos _ _ W y dy).
  - intros y dy p. destruct (decide (y = x)) as [->|Hy]; intros Ey Epy Hpy; simplify_map_eq; [done|].
    destruct (decide (parent dy = x)) as [Ex|Hx].
    + subst x. simplify_map_eq. by apply (wf_rank _ _ W y dy d).
    + simplify_map_eq. by apply (wf_rank _ _ W y dy p).
  - intros y z dy dz Hz. destruct (decide (y = x)) as [->|Hy]; destruct (decide (z = x)) as [->|Hzx];
      intros Ey Ez; simplify_map_eq; try lia.
    + destruct (wf_label _ _ W y x Hz) as (? & ? & ?). by simplify_eq.
    + by apply (wf_top _ _ W y z).
  - intros y dy. destruct (decide (y = x)) as [->|Hy]; intros Ey Hpy; simplify_map_eq. by eapply (wf_size _ _ W).
Qed.

(** [InternalFindSet] returns the representative and keeps the sets and the
    ranks; [fuel] must exceed the rank difference to the representative. *)
Lemma InternalFindSet_spec fuel m R x d r dr : wf m R -> m !! x = Some d -> R !! x = Some r ->
  m !! r = Some dr -> rank dr - rank d < Z.of_nat fuel ->
  exists m', InternalFindSet fuel m x = Ok (m', r) /\ wf m' R /\ m' !! r = Some dr /\
    forall y, rank <$> m' !! y = rank <$> m !! y.
Proof.
  intros W. revert x d. induction fuel as [|fuel IH]; intros x d E Er Edr Hf.
  { pose proof (wf_top _ _ W x r d dr Er E Edr). lia. }
  cbn [InternalFindSet]. rewrite (node_Some _ _ _ E), bind_Ok. destruct (decide (x = parent d)) as [Hx|Hx].
  - exists m. pose proof (wf_root _ _ W x d E (eq_sym Hx)). simplify_eq. by split_and!.
  - destruct (wf_parent_lookup _ _ _ _ W E) as [p Ep]. unfold FindData. rewrite Ep, bind_Ok.
    pose proof (wf_rank _ _ W x d p E Ep ltac:(congruence)).
    assert (R !! parent d = Some r) as Erp by (by rewrite (wf_parent _ _ W x d E)).
    destruct (IH (parent d) p Ep Erp Edr ltac:(lia)) as (m' & E' & W' & Edr' & Hk).
    rewrite E', bind_Ok, (node_Some _ _ _ Edr'), bind_Ok.
    assert (parent dr = r) as Epr.
    { destruct (wf_label _ _ W x r Er) as (dr' & Edr'' & Epr). congruence. }
    rewrite Epr.
    pose proof (Hk x) as Hx'. rewrite E in Hx'. cbn in Hx'. destruct (m' !! x) as [d'|] eqn:Ed'; [|done].
    cbn in Hx'. injection Hx' as Hx'. rewrite (set_parent_Some _ _ _ _ Ed'), bind_Ok.
    assert (r <> x) as Hrx.
    { intros ->. congruence. }
    exists (<[x := {| parent := r; rank := rank d' |}]> m'). split; [done|]. split; [|split].
    + destruct (decide (parent d' = x)) as [Hpx|Hpx].
      * pose proof (wf_root _ _ W' x d' Ed' Hpx). congruence.
      * by apply wf_compress.
    + by rewrite lookup_insert_ne.
    + intros y. destruct (decide (y = x)) as [->|Hy]; [|by rewrite lookup_insert_ne].
      rewrite lookup_insert_eq, E. cbn. by rewrite Hx'.
Qed.

Lemma InternalFindSet_enough fuel m R x r : wf m R -> R !! x = Some r ->
  Z.log2 (Z.of_nat (size m)) < Z.of_nat fuel ->
  exists m' d, InternalFindSet fuel m x = Ok (m', r) /\ wf m' R /\ m' !! r = Some d /\ parent d = r.
Proof.
  intros W Er Hf. destruct (proj2 (wf_dom _ _ W x) ltac:(by eexists)) as [d E].
  destruct (wf_label _ _ W x r Er) as (dr & Edr & Ep).
  pose proof (wf_rank_log _ _ _ _ W Edr). pose proof (wf_pos _ _ W x d E).
  destruct (InternalFindSet_spec fuel m R x d r dr W E Er Edr ltac:(lia)) as (m' & E' & W' & Er' & _).
  by exists m', dr.
Qed.

Lemma find_fuel_enough m : Z.log2 (Z.of_nat (size m)) < Z.of_nat (find_fuel m).
Proof.
  unfold find_fuel. generalize (size m). intros [|n]; [reflexivity|].
  pose proof (Z.log2_lt_lin (Z.of_nat (S n)) ltac:(lia)). lia.
Qed.

(** ** New elements *)

Lemma members_insert R x r : R !! x = None ->
  members (<[x := x]> R) r = if decide (r = x) then {[x]} ∪ members R x else members R r.
Proof.
  intros E. apply set_eq. intros y. rewrite elem_of_members.
  destruct (decide (r = x)) as [->|Hr].
  - rewrite elem_of_union, elem_of_singleton, elem_of_members.
    destruct (decide (y = x)) as [->|Hy]; simplify_map_eq; [by split; [left|]|].
    split; [by right|by intros [?|?]].
  - rewrite elem_of_members. destruct (decide (y = x)) as [->|Hy]; simplify_map_eq; naive_solver.
Qed.

Lemma wf_insert m R x : wf m R -> m !! x = None -> wf (<[x := new_data x]> m) (<[x := x]> R).
Proof.
  intros W E. assert (R !! x = None) as ER.
  { apply eq_None_not_Some. rewrite <- (wf_dom _ _ W). rewrite E. by intros [? ?]. }
  assert (forall y d, m !! y = Some d -> parent d <> x) as Hpx.
  { intros y d Ey <-. destruct (wf_parent_lookup _ _ _ _ W Ey) as [p Ep]. congruence. }
  split.
  - intros y. destruct (decide (y = x)) as [->|Hy]; simplify_map_eq; [done|]. apply (wf_dom _ _ W).
  - intros y dy. destruct (decide (y = x)) as [->|Hy]; intros Ey; simplify_map_eq; [done|].
    rewrite !lookup_insert_ne by (done || by apply not_eq_sym, (Hpx y)). by apply (wf_parent _ _ W).
  - intros y dy. destruct (decide (y = x)) as [->|Hy]; intros Ey Hp; simplify_map_eq; [done|].
    by eapply (wf_root _ _ W).
  - intros y z. destruct (decide (y = x)) as [->|Hy]; intros Ey; simplify_map_eq; [by eexists|].
    destruct (wf_label _ _ W y z Ey) as (dz & Ez & Hp). exists dz. split; [|done].
    rewrite lookup_insert_ne; [done|congruence].
  - intros y dy. destruct (decide (y = x)) as [->|Hy]; intros Ey; simplify_map_eq; [done|]. by apply (wf_pos _ _ W y).
  - intros y dy p. destruct (decide (y = x)) as [->|Hy]; intros Ey Ep Hp; simplify_map_eq.
    rewrite lookup_insert_ne in Ep by (by apply not_eq_sym, (Hpx y)). by apply (wf_rank _ _ W y).
  - intros y z dy dz. destruct (decide (y = x)) as [->|Hy]; intros Hz Ey Ez; simplify_map_eq; [done|].
    destruct (wf_label _ _ W y z Hz) as (d & Ed & _). rewrite lookup_insert_ne in Ez by congruence.
    by apply (wf_top _ _ W y z).
  - intros y dy. rewrite members_insert by done. destruct (decide (y = x)) as [->|Hy]; intros Ey Hp; simplify_map_eq.
    + replace (rank dy) with 0 by (by rewrite <- Ey). generalize (parent dy). intros u.
      assert (size ({[u]} : gset T) <= size ({[u]} ∪ members R u))%nat as Hs by (apply subseteq_size; set_solver).
      rewrite size_singleton in Hs. change (2 ^ 0) with 1. lia.
    + by eapply (wf_size _ _ W).
Qed.

Lemma reps_insert R x : R !! x = None -> reps (<[x := x]> R) = {[x]} ∪ reps R /\ x ∉ reps R.
Proof.
  intros E. split; [|rewrite elem_of_reps; congruence]. apply set_eq. intros y.
  rewrite elem_of_union, elem_of_singleton, !elem_of_reps.
  destruct (decide (y = x)) as [->|Hy]; simplify_map_eq; [by split; [left|]|].
  split; [by right|by intros [?|?]].
Qed.

(** ** Linking two representatives *)

(** The sets of the loser [l] go to the winner [w]. *)
Definition relabel (l w : T) R : gmap T T := (fun r => if decide (r = l) then w else r) <$> R.

Lemma relabel_lookup l w R x r : relabel l w R !! x = Some r <->
  exists z, R !! x = Some z /\ r = if decide (z = l) then w else z.
Proof.
  unfold relabel. rewrite lookup_fmap_Some. split; intros (z & Hz); exists z; by destruct Hz.
Qed.

Lemma members_relabel l w R r : l <> w ->
  members (relabel l w R) r =
    if decide (r = l) then ∅ else if decide (r = w) then members R w ∪ members R l else members R r.
Proof.
  intros Hlw. apply set_eq. intros y. rewrite elem_of_members, relabel_lookup.
  destruct (decide (r = l)) as [->|Hl]; [|destruct (decide (r = w)) as [->|Hw]];
    rewrite ?elem_of_union, ?elem_of_members.
  - split; [|set_solver]. intros (z & Ez & Hz). destruct (decide (z = l)); congruence.
  - split.
    + intros (z & Ez & Hz). destruct (decide (z = l)); subst; [by right|by left].
    + intros [Ey|Ey]; eexists; (split; [exact Ey|]); destruct (decide _); congruence.
  - split.
    + intros (z & Ez & Hz). destruct (decide (z = l)); congruence.
    + intros Ey. exists r. split; [done|]. by destruct (decide (r = l)).
Qed.

Lemma reps_relabel l w R : l <> w -> R !! w = Some w -> reps (relabel l w R) = reps R ∖ {[l]}.
Proof.
  intros Hlw Hw. apply set_eq. intros y. rewrite elem_of_difference, elem_of_singleton, !elem_of_reps, relabel_lookup.
  split.
  - intros (z & Ez & Hz). destruct (decide (z = l)); subst; split; congruence.
  - intros [Ey Hy]. exists y. split; [done|]. by destruct (decide (y = l)).
Qed.

Section link.
Context (m : gmap T (ObjectData T)) (R : gmap T T) (l w : T) (dl dw : ObjectData T) (k : Z).
Hypothesis W : wf m R.
Hypothesis Hlw : l <> w.
Hypothesis El : m !! l = Some dl.
Hypothesis Ew : m !! w = Some dw.
Hypothesis Hl : parent dl = l.
Hypothesis Hw : parent dw = w.
Hypothesis Hk1 : rank dl < k.
Hypothesis Hk2 : rank dw <= k.

Let m' := <[w := {| parent := w; rank := k |}]> (<[l := {| parent := w; rank := rank dl |}]> m).
Let R' := relabel l w R.

Lemma link_lookup y d : m' !! y = Some d ->
  (y = w /\ d = {| parent := w; rank := k |}) \/ (y = l /\ d = {| parent := w; rank := rank dl |}) \/
  (y <> w /\ y <> l /\ m !! y = Some d).
Proof.
  unfold m'. destruct (decide (y = w)) as [->|Hyw]; [rewrite lookup_insert_eq; intros [= <-]; by left|].
  rewrite lookup_insert_ne by done. destruct (decide (y = l)) as [->|Hyl]; [rewrite lookup_insert_eq|].
  - intros [= <-]. right. by left.
  - rewrite lookup_insert_ne by done. intros E. by right; right.
Qed.

(** Every node of the old map is in the new one, with a rank that is no smaller. *)
Lemma link_mono y d d' : m !! y = Some d -> m' !! y = Some d' -> rank d <= rank d'.
Proof.
  intros E E'. destruct (link_lookup y d' E') as [[-> ->]|[[-> ->]|(_ & _ & E2)]]; cbn [rank]; simplify_eq; lia.
Qed.

Lemma link_dom y : is_Some (m' !! y) <-> is_Some (m !! y).
Proof.
  unfold m'. rewrite !lookup_insert_is_Some'. split; [|by right; right].
  intros [<-|[<-|Hy]]; [by eexists|by eexists|done].
Qed.

Lemma link_winner : R' !! w = Some w /\ R' !! l = Some w.
Proof.
  pose proof (wf_root _ _ W l dl El Hl). pose proof (wf_root _ _ W w dw Ew Hw).
  split; apply relabel_lookup; [exists w|exists l]; (split; [done|]).
  - by rewrite decide_False.
  - by rewrite decide_True.
Qed.

Lemma link_top y z dy dz : R' !! y = Some z -> m' !! y = Some dy -> m' !! z = Some dz -> rank dy <= rank dz.
Proof.
  intros Ez Ey Edz. apply relabel_lookup in Ez as (z' & Ez & ->).
  destruct (wf_label _ _ W y z' Ez) as (p & Ep & Hp).
  destruct (link_lookup y dy Ey) as [[-> ->]|[[-> ->]|(Hyw & Hyl & Ey')]]; cbn [rank].
  - pose proof (wf_root _ _ W w dw Ew Hw). assert (z' = w) as -> by congruence. rewrite decide_False in Edz by done.
    unfold m' in Edz. rewrite lookup_insert_eq in Edz. by injection Edz as <-.
  - pose proof (wf_root _ _ W l dl El Hl). assert (z' = l) as -> by congruence. rewrite decide_True in Edz by done.
    unfold m' in Edz. rewrite lookup_insert_eq in Edz. injection Edz as <-. cbn. lia.
  - pose proof (wf_top _ _ W y z' dy p Ez Ey' Ep). destruct (decide (z' = l)) as [->|Hzl].
    + unfold m' in Edz. rewrite lookup_insert_eq in Edz. injection Edz as <-. cbn.
      replace p with dl in * by congruence. lia.
    + pose proof (link_mono z' p dz Ep Edz). lia.
Qed.

Lemma link_rank y d p : m' !! y = Some d -> m' !! parent d = Some p -> parent d <> y -> rank d < rank p.
Proof.
  intros Ey Ep Hp. destruct (link_lookup y d Ey) as [[-> ->]|[[-> ->]|(Hyw & Hyl & Ey')]]; [done| |].
  - cbn in Ep |- *. unfold m' in Ep. rewrite lookup_insert_eq in Ep. by injection Ep as <-.
  - destruct (wf_parent_lookup _ _ _ _ W Ey') as [q Eq]. pose proof (wf_rank _ _ W y d q Ey' Eq Hp).
    pose proof (link_mono _ _ _ Eq Ep). lia.
Qed.

Lemma wf_link : 2 ^ k <= Z.of_nat (size (members R w)) + Z.of_nat (size (members R l)) -> wf m' R'.
Proof.
  intros Hs. destruct link_winner as [Rw Rl]. split; [| | | | |apply link_rank|apply link_top|].
  - intros y. rewrite link_dom. unfold R', relabel. rewrite lookup_fmap, fmap_is_Some. apply (wf_dom _ _ W).
  - intros y d Ey. destruct (link_lookup y d Ey) as [[-> ->]|[[-> ->]|(Hyw & Hyl & Ey')]]; cbn [parent]; [done|congruence|].
    unfold R', relabel. by rewrite !lookup_fmap, (wf_parent _ _ W y d Ey').
  - intros y d Ey Hp. destruct (link_lookup y d Ey) as [[-> ->]|[[-> ->]|(Hyw & Hyl & Ey')]]; cbn in Hp; [done|congruence|].
    apply relabel_lookup. exists y. split; [by apply (wf_root _ _ W y d)|]. by rewrite decide_False.
  - intros y z Ez. apply relabel_lookup in Ez as (z' & Ez & ->). unfold m'.
    destruct (decide (z' = l)) as [->|Hzl]; [rewrite lookup_insert_eq; by eexists|].
    destruct (decide (z' = w)) as [->|Hzw]; [rewrite lookup_insert_eq; by eexists|].
    rewrite !lookup_insert_ne by done. by apply (wf_label _ _ W y).
  - intros y d Ey. pose proof (wf_pos _ _ W l dl El).
    destruct (link_lookup y d Ey) as [[-> ->]|[[-> ->]|(Hyw & Hyl & Ey')]]; cbn [rank]; [lia|lia|].
    by apply (wf_pos _ _ W y).
  - intros y d Ey Hp. unfold R'. rewrite members_relabel by done.
    destruct (link_lookup y d Ey) as [[-> ->]|[[-> ->]|(Hyw & Hyl & Ey')]]; [|cbn in Hp; congruence|].
    + rewrite (decide_False (P := w = l)), decide_True by done. cbn [rank].
      rewrite (size_union (members R w)); [lia|]. intros u. rewrite !elem_of_members. congruence.
    + rewrite !decide_False by done. by apply (wf_size _ _ W).
Qed.
End link.
End props.

Section spec.
Context {T : Type} {eqT : EqDecision T} {cntT : Countable T}.
Implicit Types (m : gmap T (ObjectData T)) (R : gmap T T) (f : DisjointSetForest T) (x y r : T).

(** ** Sets connected by pairs *)

Record sets := { elems : gset T; links : gset (T * T) }.
Definition no_sets : sets := {| elems := ∅; links := ∅ |}.

Definition connected (L : gset (T * T)) : relation T := rtsc (fun a b => (a, b) ∈ L).

#[global] Instance connected_equivalence L : Equivalence (connected L).
Proof. unfold connected. split; [intros x; reflexivity|intros x y; by symmetry|intros x y z; by etrans]. Qed.

Lemma connected_mono L L' a b : L ⊆ L' -> connected L a b -> connected L' a b.
Proof.
  intros HL. apply rtc_subrel. intros u v [E|E]; [left|right]; by apply HL.
Qed.

Lemma connected_link L a b : (a, b) ∈ L -> connected L a b.
Proof. intros E. apply rtc_once. by left. Qed.

(** One more pair joins the two sets of its ends. *)
Lemma connected_add L x y a b : connected (L ∪ {[(x, y)]}) a b <->
  connected L a b \/ (connected L a x /\ connected L y b) \/ (connected L a y /\ connected L x b).
Proof.
  split.
  - intros C. induction C as [a|a u b Hs _ IH]; [by left|].
    assert (connected L a u \/ (a = x /\ u = y) \/ (a = y /\ u = x)) as [C|[[-> ->]|[-> ->]]].
    { destruct Hs as [E|E]; apply elem_of_union in E as [E|E%elem_of_singleton]; simplify_eq; try (by auto).
      - left. by apply connected_link.
      - left. symmetry. by apply connected_link. }
    + destruct IH as [C'|[[C1 C2]|[C1 C2]]]; [left|right; left|right; right]; try split; try done; by etrans.
    + destruct IH as [C'|[[C1 C2]|[C1 C2]]]; [right; left|right; left|left]; try split; done.
    + destruct IH as [C'|[[C1 C2]|[C1 C2]]]; [right; right|left|right; right]; try split; done.
  - assert (forall u v, connected L u v -> connected (L ∪ {[(x, y)]}) u v) as Hm.
    { intros u v. apply connected_mono. set_solver. }
    assert (connected (L ∪ {[(x, y)]}) x y) as Hxy by (apply connected_link; set_solver).
    intros [C|[[C1 C2]|[C1 C2]]].
    + by apply Hm.
    + etrans; [by apply Hm|]. etrans; [exact Hxy|]. by apply Hm.
    + etrans; [by apply Hm|]. etrans; [symmetry; exact Hxy|]. by apply Hm.
Qed.

Definition links_ok (A : sets) : Prop := forall a b, (a, b) ∈ links A -> a ∈ elems A /\ b ∈ elems A.

Lemma connected_elems A a b : links_ok A -> connected (links A) a b -> a = b \/ (a ∈ elems A /\ b ∈ elems A).
Proof.
  intros HA C. induction C as [a|a u b Hs _ IH]; [by left|]. right.
  assert (a ∈ elems A /\ u ∈ elems A) as [Ha Hu] by (destruct Hs as [E|E]; by destruct (HA _ _ E)).
  split; [done|]. destruct IH as [<-|[_ Hb]]; done.
Qed.

(** ** The refinement relation *)

Definition labels (R : gmap T T) (A : sets) : Prop :=
  dom R = elems A /\ links_ok A /\
  forall a b, a ∈ elems A -> b ∈ elems A -> R !! a = R !! b <-> connected (links A) a b.

Definition rep f A : Prop :=
  exists R, wf (objects_ f) R /\ num_disjoint_sets_ f = Z.of_nat (size (reps R)) /\ labels R A.

Definition add_elem x A : sets := {| elems := elems A ∪ {[x]}; links := links A |}.
Definition add_link x y A : sets := {| elems := elems A; links := links A ∪ {[(x, y)]} |}.

Lemma labels_lookup R A x : labels R A -> x ∈ elems A <-> is_Some (R !! x).
Proof. intros (E & _). rewrite <- E. apply elem_of_dom. Qed.

Lemma reps_size R : (size (reps R) <= size R)%nat.
Proof.
  rewrite <- (size_dom (D := gset T) R). apply subseteq_size. intros y. rewrite elem_of_reps, elem_of_dom. by eexists.
Qed.

Lemma labels_size R A : labels R A -> size R = size (elems A).
Proof. intros [E _]. by rewrite <- (size_dom (D := gset T) R), E. Qed.

Lemma labels_insert R A x : labels R A -> R !! x = None -> (forall b, R !! b <> Some x) ->
  labels (<[x := x]> R) (add_elem x A).
Proof.
  intros HR E Hr. pose proof (labels_lookup _ _ x HR) as Hx. destruct HR as (Hd & Hok & Hc).
  assert (x ∉ elems A) as Hn by (rewrite Hx, E; by intros [? ?]).
  assert (forall b, b <> x -> connected (links A) x b -> False) as Hxb.
  { intros b Hb C. destruct (connected_elems A x b Hok C) as [?|[? _]]; by subst. }
  split; [|split].
  - rewrite dom_insert_L, Hd. apply union_comm_L.
  - intros a b Hab. destruct (Hok a b Hab). by split; apply elem_of_union_l.
  - intros a b Ha Hb. cbn [links add_elem].
    destruct (decide (a = x)) as [->|Hax]; destruct (decide (b = x)) as [->|Hbx];
      rewrite ?lookup_insert_eq, ?lookup_insert_ne by done.
    + by split.
    + split; [intros Eb; by destruct (Hr b)|intros C; by destruct (Hxb b)].
    + split; [intros Ea; by destruct (Hr a)|intros C; by destruct (Hxb a)].
    + apply elem_of_union in Ha as [Ha|Ha%elem_of_singleton]; [|done].
      apply elem_of_union in Hb as [Hb|Hb%elem_of_singleton]; [|done]. by apply Hc.
Qed.

Lemma add_elem_in x A : x ∈ elems A -> add_elem x A = A.
Proof. intros Hx. destruct A as [V L]. unfold add_elem. cbn in *. f_equal. apply set_eq. intros y. rewrite elem_of_union, elem_of_singleton. split; [by intros [?| ->]|by left]. Qed.

(** A pair of elements in one set changes nothing. *)
Lemma labels_link_same R A x y : labels R A -> x ∈ elems A -> y ∈ elems A -> R !! x = R !! y ->
  labels R (add_link x y A).
Proof.
  intros (Hd & Hok & Hc) Hx Hy E. split; [done|]. split.
  - intros a b [Hab|Hab%elem_of_singleton]%elem_of_union; [by apply Hok|]. by simplify_eq.
  - intros a b Ha Hb. cbn [links add_link elems] in *. rewrite connected_add, <- !Hc by done.
    split; [by left|]. intros [?|[[? ?]|[? ?]]]; congruence.
Qed.

(** Relabelling the set of one end with the label of the other joins the sets. *)
Lemma labels_relabel R A x y l w : labels R A -> R !! x = Some l -> R !! y = Some w -> l <> w ->
  labels (relabel l w R) (add_link x y A).
Proof.
  intros HR El Ew Hlw. pose proof (labels_lookup _ _ x HR) as Hx. pose proof (labels_lookup _ _ y HR) as Hy.
  assert (x ∈ elems A) as Hx' by (apply Hx; by eexists). assert (y ∈ elems A) as Hy' by (apply Hy; by eexists).
  pose proof (fun a => labels_lookup R A a HR) as HV.
  destruct HR as (Hd & Hok & Hc). split; [|split].
  - unfold relabel. by rewrite dom_fmap_L.
  - intros a b [Hab|Hab%elem_of_singleton]%elem_of_union; [by apply Hok|]. by simplify_eq.
  - intros a b Ha Hb. cbn [links add_link elems] in *. rewrite connected_add, <- !Hc by done. rewrite El, Ew.
    apply HV in Ha as [ra Ea]. apply HV in Hb as [rb Eb]. unfold relabel. rewrite !lookup_fmap, Ea, Eb. cbn.
    destruct (decide (ra = l)) as [->|Hal]; destruct (decide (rb = l)) as [->|Hbl]; split; intros Hq;
      try (destruct Hq as [?|[[? ?]|[? ?]]]); simplify_eq; auto.
Qed.

Lemma labels_link_comm R A x y : labels R (add_link x y A) -> labels R (add_link y x A).
Proof.
  intros (Hd & Hok & Hc). split; [done|]. split.
  - intros a b [Hab|Hab%elem_of_singleton]%elem_of_union.
    + apply Hok. by apply elem_of_union_l.
    + simplify_eq. destruct (Hok x y) as [? ?]; [|done]. by apply elem_of_union_r, elem_of_singleton.
  - intros a b Ha Hb. cbn [links add_link elems] in *. rewrite (Hc a b Ha Hb), !connected_add.
    split; (intros [?|[[? ?]|[? ?]]]; [by left|by right; right|by right; left]).
Qed.

(** ** The operations on a represented state *)

Lemma make_forest_rep nf : rep (make_forest nf) no_sets.
Proof.
  exists ∅. cbn. split; [|split; [done|]].
  - split; try (intros *; rewrite lookup_empty; congruence). intros x. by rewrite !lookup_empty.
  - split; [apply dom_empty_L|]. split; [intros a b Hab; by apply elem_of_empty in Hab|].
    intros a b Ha. by apply elem_of_empty in Ha.
Qed.

Lemma rep_set_objects f m A n : rep (set_count (set_objects f m) n) A <->
  exists R, wf m R /\ n = Z.of_nat (size (reps R)) /\ labels R A.
Proof. done. Qed.

(** Insertion of an element, in all operations that may insert. *)
Lemma emplace_rep f A x : rep f A -> Z.of_nat (size (elems A ∪ {[x]})) < 2 ^ 31 ->
  exists m n, try_emplace (objects_ f) x = (m, bool_decide (x ∉ elems A)) /\
    (if bool_decide (x ∉ elems A) then int_incr (num_disjoint_sets_ f) else Ok (num_disjoint_sets_ f)) = Ok n /\
    rep (set_count (set_objects f m) n) (add_elem x A).
Proof.
  intros (R & W & Hn & HR) Hs. unfold try_emplace. pose proof (labels_lookup _ _ x HR) as Hx.
  rewrite <- (wf_dom _ _ W) in Hx. destruct (objects_ f !! x) as [d|] eqn:E.
  - assert (x ∈ elems A) as Hin by (apply Hx; by eexists).
    rewrite (bool_decide_eq_false_2 (x ∉ elems A)) by (intros H'; by apply H'). exists (objects_ f), (num_disjoint_sets_ f).
    split; [done|]. split; [done|]. rewrite add_elem_in by done. by exists R.
  - assert (x ∉ elems A) as Hin by (rewrite Hx; by intros [? ?]). rewrite (bool_decide_eq_true_2 _ Hin).
    assert (R !! x = None) as ER.
    { apply eq_None_not_Some. rewrite <- (wf_dom _ _ W), E. by intros [? ?]. }
    pose proof (reps_size R) as Hle. rewrite (labels_size _ _ HR) in Hle.
    rewrite size_union, size_singleton in Hs by (by apply disjoint_singleton_r). destruct (reps_insert R x ER) as [Hr Hnr].
    exists (<[x := new_data x]> (objects_ f)), (num_disjoint_sets_ f + 1). split; [done|]. split.
    + unfold int_incr. by rewrite (proj2 (Z.eqb_neq _ _)) by lia.
    + exists (<[x := x]> R). split; [by apply wf_insert|]. cbn. split.
      * rewrite Hr, size_union, size_singleton by (by apply disjoint_singleton_l). lia.
      * apply labels_insert; [done|done|]. intros b Eb. destruct (wf_label _ _ W b x Eb) as (d & Ed & _). congruence.
Qed.

Lemma data_eta (d : ObjectData T) : {| parent := parent d; rank := rank d |} = d.
Proof. by destruct d. Qed.

Lemma Link_wf m R x y dx dy : wf m R -> x <> y -> m !! x = Some dx -> parent dx = x ->
  m !! y = Some dy -> parent dy = y -> Z.of_nat (size m) < 2 ^ 31 ->
  exists m' l w, Link m x y = Ok m' /\ wf m' (relabel l w R) /\ ((l = x /\ w = y) \/ (l = y /\ w = x)).
Proof.
  intros W Hxy Ex Hx Ey Hy Hs. unfold Link. rewrite (node_Some _ _ _ Ex), (node_Some _ _ _ Ey), !bind_Ok.
  pose proof (wf_size _ _ W x dx Ex Hx) as Sx. pose proof (wf_size _ _ W y dy Ey Hy) as Sy.
  destruct (Z.ltb_spec (rank dx) (rank dy)) as [Hlt|Hge].
  - rewrite (set_parent_Some _ _ _ _ Ex), Hy. eexists _, x, y. split; [reflexivity|]. split; [|by left].
    pose proof (wf_link m R x y dx dy (rank dy) W Hxy Ex Ey Hx Hy Hlt ltac:(lia) ltac:(lia)) as W'.
    rewrite <- Hy in W' at 2. rewrite data_eta, insert_id in W'; [done|]. by rewrite lookup_insert_ne.
  - rewrite (set_parent_Some _ _ _ _ Ey), bind_Ok, Hx.
    set (m1 := <[y := {| parent := x; rank := rank dy |}]> m).
    assert (m1 !! x = Some dx) as E1 by (unfold m1; by rewrite lookup_insert_ne).
    assert (m1 !! y = Some {| parent := x; rank := rank dy |}) as E2 by (unfold m1; by rewrite lookup_insert_eq).
    rewrite (node_Some _ _ _ E1), (node_Some _ _ _ E2), !bind_Ok. cbn [rank].
    destruct (Z.eqb_spec (rank dx) (rank dy)) as [He|Hne].
    + pose proof (wf_rank_log _ _ _ _ W Ex) as Hl. pose proof (wf_pos _ _ W x dx Ex) as Hp.
      assert (rank dx < 31) as Hr.
      { apply (Z.pow_lt_mono_r_iff 2); [lia|lia|]. pose proof (wf_rank_bound _ _ _ _ W Ex). lia. }
      unfold int_incr. rewrite (proj2 (Z.eqb_neq _ _)), bind_Ok, (set_rank_Some _ _ _ _ E1), Hx by lia.
      eexists _, y, x. split; [reflexivity|]. split; [|by right].
      apply (wf_link m R y x dy dx); try (done || lia). rewrite Z.pow_add_r by lia.
      rewrite <- He in Sy. change (2 ^ 1) with 2. lia.
    + eexists _, y, x. split; [reflexivity|]. split; [|by right].
      pose proof (wf_link m R y x dy dx (rank dx) W ltac:(done) Ey Ex Hy Hx ltac:(lia) ltac:(lia) ltac:(lia)) as W'.
      rewrite <- Hx in W' at 2. by rewrite data_eta, insert_id in W'.
Qed.

Lemma reps_relabel_size l w R : l <> w -> R !! w = Some w -> R !! l = Some l ->
  Z.of_nat (size (reps (relabel l w R))) = Z.of_nat (size (reps R)) - 1.
Proof.
  intros Hlw Hw Hl. rewrite reps_relabel by done. apply elem_of_reps in Hl.
  assert ({[l]} ⊆ reps R) as Hs by (by apply singleton_subseteq_l).
  pose proof (subseteq_size _ _ Hs) as Hle. rewrite size_difference, size_singleton in * by done. lia.
Qed.

(** Finding an element keeps the labels, so it changes no later answer. *)
Definition rrep f R A : Prop :=
  wf (objects_ f) R /\ num_disjoint_sets_ f = Z.of_nat (size (reps R)) /\ labels R A.

Lemma FindSet_rrep f R A x r : rrep f R A -> R !! x = Some r ->
  exists f', FindSet f x = Ok (f', r) /\ rrep f' R A /\ notfound_value_ f' = notfound_value_ f.
Proof.
  intros (W & Hn & HR) Er. unfold FindSet.
  destruct (proj2 (wf_dom _ _ W x) ltac:(by eexists)) as [d E]. rewrite E.
  destruct (InternalFindSet_enough (find_fuel (objects_ f)) _ _ _ _ W Er (find_fuel_enough _)) as (m' & d' & E' & W' & Ed & Hp).
  rewrite E', bind_Ok, (node_Some _ _ _ Ed), bind_Ok, Hp. by exists (set_objects f m').
Qed.

Lemma FindSet_absent f A x : rep f A -> x ∉ elems A -> FindSet f x = Ok (f, notfound_value_ f).
Proof.
  intros (R & W & _ & HR) Hx. unfold FindSet. destruct (objects_ f !! x) as [d|] eqn:E; [|done].
  destruct Hx. apply (labels_lookup _ _ _ HR). apply (wf_dom _ _ W). by eexists.
Qed.

Lemma UnionHelper_rep f A x y : rep f A -> x ∈ elems A -> Z.of_nat (size (elems A ∪ {[y]})) < 2 ^ 31 ->
  exists f' b, UnionHelper f x y = Ok (f', b) /\ rep f' (add_link x y (add_elem y A)) /\
    (b = true <-> ~ connected (links A) x y) /\ notfound_value_ f' = notfound_value_ f.
Proof.
  intros Hrep Hx Hs. unfold UnionHelper. destruct (emplace_rep f A y Hrep Hs) as (m & n & -> & -> & R & W & Hn & HR).
  rewrite bind_Ok. cbn [objects_ num_disjoint_sets_ set_count set_objects] in W, Hn.
  assert (x ∈ elems (add_elem y A)) as Hx' by (by apply elem_of_union_l).
  assert (y ∈ elems (add_elem y A)) as Hy' by (by apply elem_of_union_r, elem_of_singleton).
  pose proof (proj2 (proj2 HR) x y Hx' Hy') as Hc. cbn [links add_elem] in Hc.
  pose proof (proj1 (labels_lookup _ _ x HR) Hx') as [xr Ex]. pose proof (proj1 (labels_lookup _ _ y HR) Hy') as [yr Ey].
  destruct (InternalFindSet_enough (find_fuel m) _ _ _ _ W Ex (find_fuel_enough _)) as (m1 & d1 & -> & W1 & _ & _).
  rewrite bind_Ok.
  destruct (InternalFindSet_enough (find_fuel m1) _ _ _ _ W1 Ey (find_fuel_enough _)) as (m2 & dy & -> & W2 & Edy & Hpy).
  rewrite bind_Ok. destruct (wf_label _ _ W2 x xr Ex) as (dx & Edx & Hpx).
  rewrite (node_Some _ _ _ Edx), (node_Some _ _ _ Edy), !bind_Ok, Hpx, Hpy. destruct (decide (xr = yr)) as [->|Hne].
  - eexists _, false. split; [reflexivity|]. split; [|split; [|done]].
    + exists R. split; [done|]. split; [done|]. apply labels_link_same; [done..|congruence].
    + split; [done|]. intros Hnc. destruct Hnc. apply Hc. congruence.
  - destruct (Link_wf m2 R xr yr dx dy W2 Hne Edx Hpx Edy Hpy) as (m3 & l & w & -> & W3 & Hlw).
    { rewrite (wf_sizes _ _ W2), (labels_size _ _ HR). done. }
    rewrite bind_Ok. unfold int_decr. rewrite (proj2 (Z.eqb_neq _ _)), bind_Ok by lia.
    eexists _, true. split; [reflexivity|].
    pose proof (wf_root _ _ W2 xr dx Edx Hpx) as Rx. pose proof (wf_root _ _ W2 yr dy Edy Hpy) as Ry.
    split; [|split; [|done]].
    + exists (relabel l w R). split; [done|]. cbn [num_disjoint_sets_ set_count].
      destruct Hlw as [[-> ->]|[-> ->]]; (split; [rewrite reps_relabel_size by done; lia|]).
      * by apply labels_relabel.
      * apply labels_link_comm. by apply labels_relabel.
    + split; [|done]. intros _ C. apply Hc in C. congruence.
Qed.

Lemma MakeSet_rep f A x : rep f A -> Z.of_nat (size (elems A ∪ {[x]})) < 2 ^ 31 ->
  exists f', MakeSet f x = Ok (f', bool_decide (x ∉ elems A)) /\ rep f' (add_elem x A) /\
    notfound_value_ f' = notfound_value_ f.
Proof.
  intros Hrep Hs. unfold MakeSet. destruct (emplace_rep f A x Hrep Hs) as (m & n & -> & En & Hr).
  destruct (bool_decide (x ∉ elems A)) eqn:Eb.
  - rewrite En, bind_Ok. by eexists.
  - apply bool_decide_eq_false in Eb. apply dec_stable in Eb. exists f. by rewrite add_elem_in.
Qed.

Lemma Union_rep f A x y : rep f A -> Z.of_nat (size (elems A ∪ {[x; y]})) < 2 ^ 31 ->
  exists f' b, Union f x y = Ok (f', b) /\ rep f' (add_link x y (add_elem y (add_elem x A))) /\
    (b = true <-> ~ connected (links A) x y) /\ notfound_value_ f' = notfound_value_ f.
Proof.
  rewrite union_assoc_L. intros Hrep Hs. unfold Union.
  assert (size (elems A ∪ {[x]}) <= size (elems A ∪ {[x]} ∪ {[y]}))%nat as Hle by apply subseteq_size, union_subseteq_l.
  destruct (emplace_rep f A x Hrep ltac:(lia)) as (m & n & -> & -> & Hr). rewrite bind_Ok.
  apply (UnionHelper_rep _ _ x y Hr); [|done]. by apply elem_of_union_r, elem_of_singleton.
Qed.

Lemma IsSingleton_rep f A x : rep f A ->
  IsSingleton f x = true <-> forall y, y ∈ elems A -> connected (links A) x y -> y = x.
Proof.
  intros (R & W & _ & HR). pose proof (fun a => labels_lookup R A a HR) as HV. destruct HR as (_ & Hok & Hc).
  unfold IsSingleton. destruct (objects_ f !! x) as [d|] eqn:E.
  - assert (x ∈ elems A) as Hx by (apply HV, (wf_dom _ _ W); by eexists). rewrite andb_true_iff, bool_decide_eq_true, Z.eqb_eq.
    split.
    + intros [Hp Hr] y Hy C. apply (Hc x y Hx Hy) in C. rewrite (wf_root _ _ W x d E (eq_sym Hp)) in C.
      destruct (proj2 (wf_dom _ _ W y) ltac:(by eexists)) as [dy Ey]. destruct (decide (parent dy = y)) as [Hpy|Hpy].
      * rewrite (wf_root _ _ W y dy Ey Hpy) in C. by injection C.
      * pose proof (wf_below _ _ y dy x d W Ey Hpy (eq_sym C) E). pose proof (wf_pos _ _ W y dy Ey). lia.
    + intros Hall. destruct (wf_lookup _ _ _ _ W E) as (r & dr & Er & Edr & Hpr & Err).
      assert (r ∈ elems A) as Hr by (apply HV; by eexists).
      assert (r = x) as -> by (apply Hall; [done|]; apply Hc; congruence).
      assert (dr = d) as -> by congruence. split; [done|].
      pose proof (wf_size _ _ W _ _ Edr Hpr) as Hs.
      assert (members R x ⊆ {[x]}) as Hm.
      { intros y Hy%elem_of_members. apply elem_of_singleton.
        assert (y ∈ elems A) by (apply HV; by eexists). apply Hall; [done|]. apply Hc; congruence. }
      apply subseteq_size in Hm. rewrite size_singleton in Hm. pose proof (wf_pos _ _ W _ _ Edr) as H0.
      destruct (decide (rank d = 0)) as [->|Hr0]; [done|].
      pose proof (Z.pow_le_mono_r 2 1 (rank d) ltac:(lia) ltac:(lia)). lia.
  - split; [|done]. intros _ y Hy C. destruct (connected_elems A x y Hok C) as [?|[Hx _]]; [done|].
    apply HV, (wf_dom _ _ W) in Hx as [? ?]. congruence.
Qed.

(** ** Many elements *)

Definition add_star (b : T) (rest : list T) (A : sets) : sets :=
  {| elems := elems A ∪ list_to_set rest; links := links A ∪ list_to_set ((fun x => (b, x)) <$> rest) |}.

Lemma add_star_nil b A : add_star b [] A = A.
Proof. destruct A. unfold add_star. cbn. by rewrite !union_empty_r_L. Qed.

Lemma add_star_cons b x rest A : add_star b (x :: rest) A = add_star b rest (add_link b x (add_elem x A)).
Proof. unfold add_star. cbn. by rewrite !union_assoc_L. Qed.

(** Two elements whose parents agree are in one set. *)
Lemma same_parent R A f x y d e : wf (objects_ f) R -> labels R A ->
  objects_ f !! x = Some d -> objects_ f !! y = Some e -> parent d = parent e -> R !! x = R !! y.
Proof.
  intros W HR Ex Ey Hp. by rewrite <- (wf_parent _ _ W x d Ex), <- (wf_parent _ _ W y e Ey), Hp.
Qed.

Lemma rep_lookup f A x : rep f A -> x ∈ elems A -> exists d, objects_ f !! x = Some d.
Proof. intros (R & W & _ & HR) Hx. apply (wf_dom _ _ W). by apply (labels_lookup _ _ _ HR). Qed.

Lemma rep_in f A x d : rep f A -> objects_ f !! x = Some d -> x ∈ elems A.
Proof. intros (R & W & _ & HR) Hx. apply (labels_lookup _ _ _ HR), (wf_dom _ _ W). by eexists. Qed.

Lemma rep_link_same f A x y d e : rep f A -> objects_ f !! x = Some d -> objects_ f !! y = Some e ->
  parent d = parent e -> rep f (add_link x y A).
Proof.
  intros Hrep Ex Ey Hp. pose proof (rep_in _ _ _ _ Hrep Ex). pose proof (rep_in _ _ _ _ Hrep Ey).
  destruct Hrep as (R & W & Hn & HR). exists R. split; [done|]. split; [done|].
  apply labels_link_same; [done..|]. by apply (same_parent R A f x y d e).
Qed.

Lemma size_mono_Z (X Y : gset T) B : X ⊆ Y -> Z.of_nat (size Y) < B -> Z.of_nat (size X) < B.
Proof. intros Hs HB. apply subseteq_size in Hs. lia. Qed.

Lemma UnionMany_loop_rep b rest f A : rep f A -> b ∈ elems A ->
  Z.of_nat (size (elems A ∪ list_to_set rest)) < 2 ^ 31 ->
  exists f', UnionMany_loop f b rest = Ok f' /\ rep f' (add_star b rest A) /\ notfound_value_ f' = notfound_value_ f.
Proof.
  revert f A. induction rest as [|x rest IH]; intros f A Hrep Hb Hs.
  { exists f. by rewrite add_star_nil. }
  cbn [UnionMany_loop]. rewrite add_star_cons. cbn [list_to_set] in Hs. rewrite union_assoc_L in Hs.
  assert (b ∈ elems (add_link b x (add_elem x A))) as Hb' by (by apply elem_of_union_l).
  destruct (UnionHelper_rep f A b x Hrep Hb) as (f1 & b1 & E1 & Hr1 & _ & Hn1).
  { eapply size_mono_Z; [|exact Hs]. apply union_subseteq_l. }
  destruct (IH f1 _ Hr1 Hb' Hs) as (f' & E' & Hr' & Hn'). rewrite E1, bind_Ok.
  assert (exists f', UnionMany_loop f1 b rest = Ok f' /\
    rep f' (add_star b rest (add_link b x (add_elem x A))) /\ notfound_value_ f' = notfound_value_ f) as Hgo.
  { exists f'. by rewrite Hn', Hn1. }
  destruct (objects_ f !! x) as [d|] eqn:Ex; [|done].
  destruct (rep_lookup f A b Hrep Hb) as [bd Eb]. rewrite (node_Some _ _ _ Eb), bind_Ok.
  destruct (decide (parent bd = parent d)) as [Hp|_]; [|done].
  apply IH; [|done|done]. rewrite add_elem_in by (by apply (rep_in _ _ _ _ Hrep Ex)).
  by apply (rep_link_same f A b x bd d).
Qed.
End spec.
Arguments sets T {_ _}.
