(* ===== verification/DisjointSetRun.v ===== *)
(** * Disjoint sets: scripts of operations

    Every script of operations on a new forest runs to its end and answers as the
    abstract sets do. *)
From Stdlib Require Import ZArith Lia.
From stdpp Require Import base gmap fin_map_dom relations.
From S2P Require Import Prelude.
From S2P Require Import DisjointSet.
From S2P Require Import DisjointSetSpec.
Local Open Scope Z_scope.

Section run.
Context {T : Type} {eqT : EqDecision T} {cntT : Countable T}.
Implicit Types (f : DisjointSetForest T) (x y r : T) (A : sets T).

(** ** [UnionManyOld] *)

Lemma UnionManyOld_insert_rep l f A : rep f A -> Z.of_nat (size (elems A ∪ list_to_set l)) < 2 ^ 31 ->
  exists f', UnionManyOld_insert f l = Ok f' /\ rep f' {| elems := elems A ∪ list_to_set l; links := links A |} /\
    notfound_value_ f' = notfound_value_ f.
Proof.
  revert f A. induction l as [|x l IH]; intros f A Hrep Hs.
  { exists f. cbn. rewrite union_empty_r_L. by destruct A. }
  cbn [UnionManyOld_insert list_to_set] in *. rewrite union_assoc_L in *.
  destruct (emplace_rep f A x Hrep) as (m & n & Em & En & Hr).
  { eapply size_mono_Z; [|exact Hs]. apply union_subseteq_l. }
  unfold try_emplace in Em. destruct (objects_ f !! x) as [d|] eqn:E; injection Em as <- Eb; rewrite <- Eb in En.
  - assert (x ∈ elems A) as Hx by (by apply (rep_in f A x d)). rewrite add_elem_in in Hr by done.
    replace (elems A ∪ {[x]}) with (elems A) in * by (pose proof (f_equal elems (add_elem_in x A Hx)); done).
    by apply IH.
  - rewrite En, bind_Ok. apply (IH _ _ Hr Hs).
Qed.

Lemma rep_link_comm f A x y : rep f (add_link x y A) -> rep f (add_link y x A).
Proof. intros (R & W & Hn & HR). exists R. split_and!; [done..|]. by apply labels_link_comm. Qed.

Lemma UnionManyOld_loop_rep b rest f A : rep f A -> b ∈ elems A -> list_to_set rest ⊆ elems A ->
  Z.of_nat (size (elems A)) < 2 ^ 31 ->
  exists f', UnionManyOld_loop f b rest = Ok f' /\ rep f' (add_star b rest A) /\ notfound_value_ f' = notfound_value_ f.
Proof.
  revert f A. induction rest as [|x rest IH]; intros f A Hrep Hb Hin Hs.
  { exists f. by rewrite add_star_nil. }
  cbn [UnionManyOld_loop]. cbn [list_to_set] in Hin. apply union_subseteq in Hin as [Hx Hin].
  apply singleton_subseteq_l in Hx. rewrite add_star_cons, add_elem_in by done.
  destruct (rep_lookup f A b Hrep Hb) as [bd Eb]. destruct (rep_lookup f A x Hrep Hx) as [d Ex].
  rewrite (node_Some _ _ _ Eb), (node_Some _ _ _ Ex), !bind_Ok.
  destruct (decide (parent d = parent bd)) as [Hp|_].
  - apply IH; try done. by apply (rep_link_same f A b x bd d).
  - assert (elems A ∪ {[x; b]} = elems A) as Hu.
    { pose proof (f_equal elems (add_elem_in x A Hx)) as H1. pose proof (f_equal elems (add_elem_in b A Hb)) as H2.
      cbn in H1, H2. by rewrite union_assoc_L, H1, H2. }
    destruct (Union_rep f A x b Hrep) as (f1 & c & E1 & Hr1 & _ & Hn1); [by rewrite Hu|].
    rewrite (add_elem_in x A Hx), (add_elem_in b A Hb) in Hr1.
    rewrite E1, bind_Ok, <- Hn1. apply IH; try done. by apply rep_link_comm.
Qed.

(** ** Scripts *)

Inductive op :=
| OFindSet (x : T) | OIsSingleton (x : T) | OMakeSet (x : T) | OUnion (x y : T)
| OUnionMany (l : list T) | OUnionManyOld (l : list T) | OClear | ONumSets | ONumObjects.

Inductive obs := RElem (x : T) | RBool (b : bool) | RInt (n : Z) | RVoid.

Definition run_op (f : DisjointSetForest T) (o : op) : outcome (DisjointSetForest T * obs) :=
  match o with
  | OFindSet x => '(f, r) ← FindSet f x; Ok (f, RElem r)
  | OIsSingleton x => Ok (f, RBool (IsSingleton f x))
  | OMakeSet x => '(f, b) ← MakeSet f x; Ok (f, RBool b)
  | OUnion x y => '(f, b) ← Union f x y; Ok (f, RBool b)
  | OUnionMany l => f ← UnionMany f l; Ok (f, RVoid)
  | OUnionManyOld l => f ← UnionManyOld f l; Ok (f, RVoid)
  | OClear => Ok (clear f, RVoid)
  | ONumSets => Ok (f, RInt (num_disjoint_sets f))
  | ONumObjects => Ok (f, RInt (num_objects f))
  end.

Fixpoint run_ops (f : DisjointSetForest T) (os : list op) : outcome (DisjointSetForest T * list obs) :=
  match os with
  | [] => Ok (f, [])
  | o :: os => '(f, r) ← run_op f o; '(f, rs) ← run_ops f os; Ok (f, r :: rs)
  end.

(** The abstract sets after an operation. *)
Definition sets_step (A : sets T) (o : op) : sets T :=
  match o with
  | OMakeSet x => add_elem x A
  | OUnion x y => add_link x y (add_elem y (add_elem x A))
  | OUnionMany (b :: l) | OUnionManyOld (b :: l) => add_star b l (add_elem b A)
  | OClear => no_sets
  | _ => A
  end.

(** The comment on [Union]: false if both elements are already members of one
    set, true otherwise. *)
Definition Union_documented (A : sets T) (x y : T) : Prop :=
  ~ (x ∈ elems A /\ y ∈ elems A /\ connected (links A) x y).

(** The answers they allow: those of the comments, except that [Union x x] of an
    element that is not in the forest, which the comment on [Union] has return
    true, returns false.  [nf] is the value for elements not found. *)
Definition answers (nf : T) (A : sets T) (o : op) (r : obs) : Prop :=
  match o with
  | OFindSet x => exists z, r = RElem z /\
      if decide (x ∈ elems A) then z ∈ elems A /\ connected (links A) x z else z = nf
  | OIsSingleton x => exists b, r = RBool b /\
      (b = true <-> forall y, y ∈ elems A -> connected (links A) x y -> y = x)
  | OMakeSet x => r = RBool (bool_decide (x ∉ elems A))
  | OUnion x y => exists b, r = RBool b /\
      if decide (x = y /\ x ∉ elems A) then b = false else (b = true <-> Union_documented A x y)
  | ONumSets => exists C : gset T, r = RInt (Z.of_nat (size C)) /\ C ⊆ elems A /\
      forall x, x ∈ elems A -> exists c, c ∈ C /\ connected (links A) x c /\
        forall c', c' ∈ C -> connected (links A) x c' -> c' = c
  | ONumObjects => r = RInt (Z.of_nat (size (elems A)))
  | OUnionMany _ | OUnionManyOld _ | OClear => r = RVoid
  end.

Fixpoint answers_all (nf : T) (A : sets T) (os : list op) (rs : list obs) : Prop :=
  match os, rs with
  | [], [] => True
  | o :: os, r :: rs => answers nf A o r /\ answers_all nf (sets_step A o) os rs
  | _, _ => False
  end.

(** The elements an operation may insert. *)
Definition op_elems (o : op) : list T :=
  match o with
  | OMakeSet x => [x]
  | OUnion x y => [x; y]
  | OUnionMany l | OUnionManyOld l => l
  | _ => []
  end.

Lemma UnionMany_rep f A l : rep f A -> Z.of_nat (size (elems A ∪ list_to_set l)) < 2 ^ 31 ->
  exists f', UnionMany f l = Ok f' /\ rep f' (sets_step A (OUnionMany l)) /\ notfound_value_ f' = notfound_value_ f.
Proof.
  intros Hrep Hs. unfold UnionMany, UnionManyIterator. destruct l as [|b l]; [by exists f|].
  cbn [list_to_set] in Hs. rewrite union_assoc_L in Hs.
  destruct (MakeSet_rep f A b Hrep) as (f1 & E1 & Hr1 & Hn1).
  { eapply size_mono_Z; [|exact Hs]. apply union_subseteq_l. }
  rewrite E1, bind_Ok, <- Hn1. apply UnionMany_loop_rep; [done| |done]. by apply elem_of_union_r, elem_of_singleton.
Qed.

Lemma UnionManyOld_rep f A l : rep f A -> Z.of_nat (size (elems A ∪ list_to_set l)) < 2 ^ 31 ->
  exists f', UnionManyOld f l = Ok f' /\ rep f' (sets_step A (OUnionManyOld l)) /\ notfound_value_ f' = notfound_value_ f.
Proof.
  intros Hrep Hs. unfold UnionManyOld. destruct (UnionManyOld_insert_rep l f A Hrep Hs) as (f1 & -> & Hr1 & Hn1).
  rewrite bind_Ok, <- Hn1. destruct l as [|b l].
  { exists f1. split; [done|]. split; [|done]. cbn in Hr1. rewrite union_empty_r_L in Hr1. by destruct A. }
  destruct (UnionManyOld_loop_rep b l f1 _ Hr1) as (f' & E & Hr & Hn); [| |done|].
  - apply elem_of_union_r. cbn. by apply elem_of_union_l, elem_of_singleton.
  - cbn. intros y Hy. by apply elem_of_union_r, elem_of_union_r.
  - exists f'. split; [done|]. split; [|done]. cbn [sets_step]. unfold add_star, add_elem in *. cbn in *.
    rewrite union_assoc_L in Hr. rewrite <- (union_assoc_L (elems A ∪ {[b]})) in Hr. by rewrite union_idemp_L in Hr.
Qed.

Lemma num_sets_rep f A : rep f A -> answers (notfound_value_ f) A ONumSets (RInt (num_disjoint_sets f)).
Proof.
  intros (R & W & Hn & HR). cbn. exists (reps R). pose proof (fun a => labels_lookup R A a HR) as HV.
  destruct HR as (_ & _ & Hc). split; [by rewrite <- Hn|]. split; [intros y Hy%elem_of_reps; apply HV; by eexists|].
  intros x Hx. pose proof (proj1 (HV x) Hx) as [r Er]. destruct (wf_label _ _ W x r Er) as (d & Ed & Hp).
  pose proof (wf_root _ _ W r d Ed Hp) as Hr. exists r. split; [by apply elem_of_reps|].
  split; [apply Hc; [done|apply HV; by eexists|congruence]|].
  intros c Hc'%elem_of_reps C. apply Hc in C; [congruence|done|apply HV; by eexists].
Qed.

(** The sets are merged exactly when the comment has [Union] return true, apart
    from [Union x x] of a new element. *)
Lemma Union_answer f A x y b : rep f A -> (b = true <-> ~ connected (links A) x y) ->
  answers (notfound_value_ f) A (OUnion x y) (RBool b).
Proof.
  intros (R & _ & _ & _ & Hok & _) Hb. cbn [answers]. exists b. split; [done|].
  destruct (decide (x = y /\ x ∉ elems A)) as [[-> _]|Hn].
  - destruct b; [|done]. exfalso. by apply (proj1 Hb eq_refl).
  - rewrite Hb. unfold Union_documented. split; [tauto|]. intros Hd C.
    destruct (connected_elems A x y Hok C) as [->|[Hx Hy]]; [|tauto].
    destruct (decide (y ∈ elems A)); tauto.
Qed.

(** One step of the refinement. *)
Lemma run_op_rep f A o : rep f A -> Z.of_nat (size (elems A ∪ list_to_set (op_elems o))) < 2 ^ 31 ->
  exists f' (r : obs), run_op f o = Ok (f', r) /\ rep f' (sets_step A o) /\ answers (notfound_value_ f) A o r /\
    notfound_value_ f' = notfound_value_ f.
Proof.
  intros Hrep Hs. destruct o as [x|x|x|x y|l|l| | |]; cbn [run_op sets_step op_elems list_to_set] in *.
  - cbn [answers]. destruct (decide (x ∈ elems A)) as [Hx|Hx].
    + destruct Hrep as (R & W & Hn & HR). pose proof (proj1 (labels_lookup _ _ x HR) Hx) as [r Er].
      destruct (FindSet_rrep f R A x r (conj W (conj Hn HR)) Er) as (f' & -> & Hr & Hn'). rewrite bind_Ok.
      exists f', (RElem r). split; [done|]. split; [by exists R|]. split; [|done]. exists r. split; [done|].
      destruct (wf_label _ _ W x r Er) as (d & Ed & Hp). pose proof (wf_root _ _ W r d Ed Hp) as Err.
      assert (r ∈ elems A) by (apply (labels_lookup _ _ r HR); by eexists).
      split; [done|]. apply HR; [done|done|congruence].
    + rewrite (FindSet_absent f A x Hrep Hx), bind_Ok. eexists _, _. split; [reflexivity|]. split; [done|]. split; [|done]. by eexists.
  - eexists _, _. split; [reflexivity|]. split; [done|]. split; [|done]. eexists. split; [reflexivity|]. by apply IsSingleton_rep.
  - rewrite union_empty_r_L in Hs. destruct (MakeSet_rep f A x Hrep Hs) as (f' & -> & Hr & Hn). rewrite bind_Ok.
    by eexists _, _.
  - rewrite union_empty_r_L in Hs. destruct (Union_rep f A x y Hrep Hs) as (f' & b & -> & Hr & Hb & Hn). rewrite bind_Ok.
    eexists _, _. split; [reflexivity|]. split; [done|]. split; [by apply Union_answer|done].
  - destruct (UnionMany_rep f A l Hrep Hs) as (f' & -> & Hr & Hn). rewrite bind_Ok. by eexists _, _.
  - destruct (UnionManyOld_rep f A l Hrep Hs) as (f' & -> & Hr & Hn). rewrite bind_Ok. by eexists _, _.
  - eexists _, _. split; [reflexivity|]. split; [apply (make_forest_rep (notfound_value_ f))|]. done.
  - eexists _, _. split; [reflexivity|]. split; [done|]. split; [|done]. by apply num_sets_rep.
  - eexists _, _. split; [reflexivity|]. split; [done|]. split; [|done]. cbn [answers]. f_equal.
    rewrite union_empty_r_L in Hs. destruct Hrep as (R & W & _ & HR). unfold num_objects.
    rewrite (wf_sizes _ _ W), (labels_size _ _ HR). apply swrap_small; [lia|]. change (2 ^ (32 - 1)) with (2 ^ 31). lia.
Qed.

Lemma sets_step_elems A o : elems (sets_step A o) ⊆ elems A ∪ list_to_set (op_elems o).
Proof.
  destruct o as [x|x|x|x y|[|b l]|[|b l]| | |]; cbn; set_solver.
Qed.

Lemma size_add_list (V : gset T) l : Z.of_nat (size (V ∪ list_to_set l)) <= Z.of_nat (size V) + zlen l.
Proof.
  unfold zlen. induction l as [|x l IH]; cbn [list_to_set length]; [rewrite union_empty_r_L; lia|].
  assert (size (V ∪ ({[x]} ∪ list_to_set l)) <= S (size (V ∪ list_to_set l)))%nat; [|lia].
  replace (V ∪ ({[x]} ∪ list_to_set l)) with ({[x]} ∪ (V ∪ list_to_set l)) by set_solver.
  rewrite size_union_alt, size_singleton. pose proof (subseteq_size ((V ∪ list_to_set l) ∖ {[x]}) (V ∪ list_to_set l) ltac:(set_solver)). lia.
Qed.

Lemma run_ops_rep os f A : rep f A ->
  Z.of_nat (size (elems A)) + zlen (concat (map op_elems os)) < 2 ^ 31 ->
  exists f' rs, run_ops f os = Ok (f', rs) /\ rep f' (foldl sets_step A os) /\
    answers_all (notfound_value_ f) A os rs /\ Z.of_nat (size (elems (foldl sets_step A os))) < 2 ^ 31.
Proof.
  revert f A. induction os as [|o os IH]; intros f A Hrep Hs.
  { exists f, []. cbn in *. rewrite zlen_nil in Hs. split_and!; try done. lia. }
  cbn [map concat] in Hs. rewrite zlen_app in Hs. pose proof (size_add_list (elems A) (op_elems o)) as Ha.
  pose proof (subseteq_size _ _ (sets_step_elems A o)) as Hle. pose proof (zlen_nonneg (concat (map op_elems os))).
  destruct (run_op_rep f A o Hrep ltac:(lia)) as (f1 & r & E1 & Hr1 & Ha1 & Hn1).
  destruct (IH f1 _ Hr1 ltac:(lia)) as (f' & rs & E' & Hr' & Ha' & Hs').
  exists f', (r :: rs). cbn [run_ops foldl answers_all]. rewrite E1, bind_Ok, E', bind_Ok.
  rewrite Hn1 in Ha'. by split_and!.
Qed.

Lemma InternalFindSet_mono fuel m x v : InternalFindSet fuel m x = Ok v ->
  forall fuel', (fuel <= fuel')%nat -> InternalFindSet fuel' m x = Ok v.
Proof.
  revert x v. induction fuel as [|fuel IH]; intros x v E [|fuel'] Hle; try (done || lia).
  revert E. cbn [InternalFindSet]. destruct (node m x) as [d| |]; [|done|done]. rewrite !bind_Ok.
  destruct (decide (x = parent d)); [done|]. destruct (FindData m (parent d)) as [p| |]; [|done|done]. rewrite !bind_Ok.
  destruct (InternalFindSet fuel m p) as [v'| |] eqn:E'; [|done|done].
  by rewrite (IH p v' E' fuel' ltac:(lia)).
Qed.

(** C4. A forest of disjoint sets answers as the sets do.  Any script of operations
    on a new forest that may insert fewer than 2^31 elements runs to its end,
    without an [int] overflow, a failed check or an unbounded recursion.  Its answers are those of
    the elements added and the pairs united since the last [clear]: [FindSet]
    gives an element connected to its argument (the not-found value for an
    element that was not added), [MakeSet] says whether it added its argument,
    [Union] returns false when both arguments were already in one set and true
    otherwise, as documented, except for [Union x x] of an element that was not
    added, which returns false; [IsSingleton] says whether nothing else is
    connected, and the counts are those of the sets and of the elements.  After it [FindSet] agrees on two
    elements exactly when they are connected. *)
Theorem DisjointSetForest_refines nf os : zlen (concat (map op_elems os)) < 2 ^ 31 ->
  exists f rs, run_ops (make_forest nf) os = Ok (f, rs) /\ answers_all nf no_sets os rs /\
    let A := foldl sets_step no_sets os in
    forall x y, x ∈ elems A -> y ∈ elems A -> exists f1 f2 r1 r2,
      FindSet f x = Ok (f1, r1) /\ FindSet f1 y = Ok (f2, r2) /\ (r1 = r2 <-> connected (links A) x y).
Proof.
  intros Hs. destruct (run_ops_rep os (make_forest nf) no_sets (make_forest_rep nf)) as (f & rs & E & Hr & Ha & _).
  { cbn. rewrite size_empty. lia. }
  exists f, rs. split; [done|]. split; [done|]. intros A x y Hx Hy. fold A in Hr.
  destruct Hr as (R & W & Hn & HR).
  pose proof (proj1 (labels_lookup _ _ x HR) Hx) as [rx Ex]. pose proof (proj1 (labels_lookup _ _ y HR) Hy) as [ry Ey].
  destruct (FindSet_rrep f R A x rx (conj W (conj Hn HR)) Ex) as (f1 & E1 & Hr1 & _).
  destruct (FindSet_rrep f1 R A y ry Hr1 Ey) as (f2 & E2 & _ & _).
  exists f1, f2, rx, ry. split; [done|]. split; [done|]. rewrite <- (proj2 (proj2 HR) x y Hx Hy), Ex, Ey.
  split; [by intros ->|by intros [=]].
Qed.

(** C31. The recursion of [InternalFindSet] is logarithmic.  In every forest that a
    script reaches, ranks are at most the logarithm of the number of objects,
    and from every element the recursion ends within one call more than that;
    a larger bound on its depth gives the same result. *)
Theorem InternalFindSet_depth nf os f rs x : zlen (concat (map op_elems os)) < 2 ^ 31 ->
  run_ops (make_forest nf) os = Ok (f, rs) -> x ∈ dom (objects_ f) ->
  let depth := Z.log2 (Z.of_nat (size (objects_ f))) in
  (forall y d, objects_ f !! y = Some d -> 0 <= rank d <= depth) /\ depth < 31 /\
  exists m r, forall fuel, depth < Z.of_nat fuel -> InternalFindSet fuel (objects_ f) x = Ok (m, r).
Proof.
  intros Hs E Hx depth. destruct (run_ops_rep os (make_forest nf) no_sets (make_forest_rep nf)) as (f' & rs' & E' & Hr & _ & Hsz).
  { cbn. rewrite size_empty. lia. }
  rewrite E in E'. injection E' as <- <-. destruct Hr as (R & W & Hn & HR).
  assert (0 < Z.of_nat (size (objects_ f)) < 2 ^ 31) as Hpos.
  { split.
    - apply elem_of_dom in Hx as [d Ed]. assert (size (objects_ f) <> 0%nat); [|lia].
      intros H0. apply map_size_empty_inv in H0. by rewrite H0, lookup_empty in Ed.
    - by rewrite (wf_sizes _ _ W), (labels_size _ _ HR). }
  split; [|split].
  - intros y d Ed. split; [by apply (wf_pos _ _ W y)|]. by apply (wf_rank_log _ R y).
  - apply Z.log2_lt_pow2; apply Hpos.
  - apply elem_of_dom, (wf_dom _ _ W) in Hx as [r Er].
    destruct (InternalFindSet_enough (Z.to_nat (depth + 1)) _ _ _ _ W Er) as (m & d & Em & _).
    { pose proof (Z.log2_nonneg (Z.of_nat (size (objects_ f)))). unfold depth. lia. }
    exists m, r. intros fuel Hf. apply (InternalFindSet_mono _ _ _ _ Em). lia.
Qed.
End run.

Lemma DisjointSetForest_refines_witness :
  exists f rs, run_ops (make_forest (-1)) [OMakeSet 5; OUnion 1 2; OUnion 3 4; OUnion 2 4; OUnionMany [1; 7; 8]; OFindSet 3] = Ok (f, rs) /\
    exists f1 f2 r1 r2, FindSet f 1 = Ok (f1, r1) /\ FindSet f1 3 = Ok (f2, r2) /\ r1 = r2.
Proof.
  pose (os := [OMakeSet 5; OUnion 1 2; OUnion 3 4; OUnion 2 4; OUnionMany [1; 7; 8]; OFindSet 3]).
  destruct (DisjointSetForest_refines (-1) os) as (f & rs & E & _ & Hc); [by vm_compute|].
  exists f, rs. split; [exact E|].
  destruct (Hc 1 3) as (f1 & f2 & r1 & r2 & E1 & E2 & Er).
  - apply (bool_decide_unpack _). by vm_compute.
  - apply (bool_decide_unpack _). by vm_compute.
  - exists f1, f2, r1, r2. split; [exact E1|]. split; [exact E2|]. apply Er.
    assert (forall a b, bool_decide ((a, b) ∈ links (foldl sets_step no_sets os)) = true ->
      connected (links (foldl sets_step no_sets os)) a b) as Hl.
    { intros a b Hab. apply connected_link. by apply bool_decide_eq_true in Hab. }
    transitivity 2; [apply Hl; by vm_compute|]. transitivity 4; [apply Hl; by vm_compute|].
    symmetry. apply Hl. by vm_compute.
Defined.

Lemma InternalFindSet_depth_witness :
  exists f rs, run_ops (make_forest (-1)) [OUnion 1 2; OUnion 3 4; OUnion 2 4] = Ok (f, rs) /\
    exists m r, InternalFindSet 3 (objects_ f) 4 = Ok (m, r).
Proof.
  assert (exists f rs, run_ops (make_forest (-1)) [OUnion 1 2; OUnion 3 4; OUnion 2 4] = Ok (f, rs) /\
    bool_decide (4 ∈ dom (objects_ f)) = true /\ (Z.log2 (Z.of_nat (size (objects_ f))) <? 3) = true) as (f & rs & E & H4 & Hl).
  { eexists _, _. split; [by vm_compute|]. split; by vm_compute. }
  exists f, rs. split; [exact E|].
  destruct (InternalFindSet_depth (-1) [OUnion 1 2; OUnion 3 4; OUnion 2 4] f rs 4) as (_ & _ & m & r & Hm);
    [by vm_compute|exact E|by apply bool_decide_eq_true in H4|].
  exists m, r. apply Hm. by apply Z.ltb_lt in Hl.
Defined.
