(* ===== verification/PCQueue.v ===== *)
(** * The producer-consumer queue

    [thread/pcqueue.h]: a bounded queue under a mutex, with a list of waiting
    consumers, each with a condition variable of its own, and one condition
    variable for waiting producers.

    Everything the code does, it does while it holds [mutex_], so a step of a
    thread is what it does between taking the mutex and giving it up, by
    returning or by waiting.  The functions below compute such a section: the new
    queue, the condition variables signalled and how the section ended.  The
    condition variables themselves are not part of the repository; what is used
    of them is in [wake] and [step]: [Wait] gives up the mutex and blocks in one
    step, [Signal] makes one waiting thread runnable, if there is one, and a
    waiting thread may also become runnable without a signal. *)
From Stdlib Require Import ZArith Lia.
From stdpp Require Import base gmap relations.
From S2P Require Import Prelude.
Local Open Scope Z_scope.

Definition kUnbounded : Z := 2 ^ 63 - 1.

(** A pointer to a [Waiter]: [None] for [&waiters_], [Some t] for the [self] on
    the stack of thread [t]. *)
Abbreviation waiter_ptr := (option nat).

Record Waiter := { next : waiter_ptr; prev : waiter_ptr }.

(** The condition variables a section signals. *)
Inductive signal := SigWaiter (p : waiter_ptr) | SigNonfull.

Section queue.
Context {T : Type} `{BuildMode}.

(** [waiters] holds the dummy node and the nodes on the stacks of the threads
    that are inside [Get] or [GetWithTimeout]. *)
Record ProducerConsumerQueue := {
  capacity_ : Z;
  num_waiters_ : Z;
  waiters : gmap waiter_ptr Waiter;
  queue_ : list T;
  count_ : Z;
}.

Definition set_waiters (q : ProducerConsumerQueue) (n : Z) (m : gmap waiter_ptr Waiter) : ProducerConsumerQueue :=
  {| capacity_ := capacity_ q; num_waiters_ := n; waiters := m; queue_ := queue_ q; count_ := count_ q |}.
Definition set_queue (q : ProducerConsumerQueue) (l : list T) (n : Z) : ProducerConsumerQueue :=
  {| capacity_ := capacity_ q; num_waiters_ := num_waiters_ q; waiters := waiters q; queue_ := l; count_ := n |}.

Definition make_queue (capacity : Z) : outcome ProducerConsumerQueue :=
  CHECK (0 <? capacity);;
  Ok {| capacity_ := capacity; num_waiters_ := 0;
        waiters := {[ None := {| next := None; prev := None |} ]}; queue_ := []; count_ := 0 |}.

Definition IsLimitedCapacity (q : ProducerConsumerQueue) : bool := negb (capacity_ q =? kUnbounded).

Definition deref (m : gmap waiter_ptr Waiter) (p : waiter_ptr) : outcome Waiter :=
  match m !! p with Some w => Ok w | None => UB end.
Definition set_next (m : gmap waiter_ptr Waiter) (p v : waiter_ptr) : outcome (gmap waiter_ptr Waiter) :=
  w ← deref m p; Ok (<[p := {| next := v; prev := prev w |}]> m).
Definition set_prev (m : gmap waiter_ptr Waiter) (p v : waiter_ptr) : outcome (gmap waiter_ptr Waiter) :=
  w ← deref m p; Ok (<[p := {| next := next w; prev := v |}]> m).

Definition TopWaiter (q : ProducerConsumerQueue) : outcome waiter_ptr :=
  w ← deref (waiters q) None; Ok (next w).

(** The caller's [self] goes out of scope after its removal. *)
Definition RemoveWaiter (q : ProducerConsumerQueue) (waiter : waiter_ptr) : outcome ProducerConsumerQueue :=
  DCHECK (negb (bool_decide (waiter = None)));;
  w ← deref (waiters q) waiter;
  m ← set_prev (waiters q) (next w) (prev w);
  w ← deref m waiter;
  m ← set_next m (prev w) (next w);
  n ← int_decr (num_waiters_ q);
  Ok (set_waiters q n (delete waiter m)).

Definition PushWaiter (q : ProducerConsumerQueue) (waiter : waiter_ptr) : outcome ProducerConsumerQueue :=
  d ← deref (waiters q) None;
  let m := <[waiter := {| next := next d; prev := None |}]> (waiters q) in
  w ← deref m waiter;
  m ← set_prev m (next w) waiter;
  w ← deref m waiter;
  m ← set_next m (prev w) waiter;
  n ← int_incr (num_waiters_ q);
  Ok (set_waiters q n m).

Definition InternalPut (q : ProducerConsumerQueue) (elem : T) : outcome (ProducerConsumerQueue * list signal) :=
  n ← int64_incr (count_ q);
  p ← TopWaiter q;
  Ok (set_queue q (queue_ q ++ [elem]) n, [SigWaiter p]).

Definition RemoveElement (q : ProducerConsumerQueue) : outcome (ProducerConsumerQueue * list signal * T) :=
  match queue_ q with
  | [] => UB
  | result :: rest =>
      n ← int64_decr (count_ q);
      let q := set_queue q rest n in
      let s := if IsLimitedCapacity q then [SigNonfull] else [] in
      if 0 <? count_ q then p ← TopWaiter q; Ok (q, s ++ [SigWaiter p], result)
      else Ok (q, s, result)
  end.

(** ** Operations *)

(** A thread inside an operation, waiting for a condition variable; [asleep]
    until it is signalled. *)
Inductive pc :=
| InPut (elem : T) (asleep : bool)
| InGet (asleep : bool)
| InGetWithTimeout (asleep : bool).

Inductive result := RVoid | RBool (b : bool) | RElem (v : T) | ROpt (v : option T).

(** How a section ends. *)
Inductive ending := Return (r : result) | Wait (p : pc).

#[local] Abbreviation section := (outcome (ProducerConsumerQueue * list signal * ending)).

(** The loop of [Put], from its test: at the call and after a wait. *)
Definition Put_loop (q : ProducerConsumerQueue) (elem : T) : section :=
  if IsLimitedCapacity q && (capacity_ q <=? count_ q) then Ok (q, [], Wait (InPut elem true))
  else '(q, s) ← InternalPut q elem; Ok (q, s, Return RVoid).

Definition Put (q : ProducerConsumerQueue) (elem : T) : section := Put_loop q elem.

Definition ForcePut (q : ProducerConsumerQueue) (elem : T) : section :=
  '(q, s) ← InternalPut q elem; Ok (q, s, Return RVoid).

Definition TryPut (q : ProducerConsumerQueue) (elem : T) : section :=
  if capacity_ q <=? count_ q then Ok (q, [], Return (RBool false))
  else '(q, s) ← InternalPut q elem; Ok (q, s, Return (RBool true)).

Definition PutIfReadyToRun (q : ProducerConsumerQueue) (elem : T) : section :=
  if (num_waiters_ q <=? count_ q) || (capacity_ q <=? count_ q) then Ok (q, [], Return (RBool false))
  else '(q, s) ← InternalPut q elem; Ok (q, s, Return (RBool true)).

Definition Get_finish (q : ProducerConsumerQueue) (ret : T -> result) : section :=
  DCHECK (0 <? count_ q);;
  '(q, s, v) ← RemoveElement q;
  Ok (q, s, Return (ret v)).

Definition Get (q : ProducerConsumerQueue) (t : nat) : section :=
  if count_ q =? 0 then q ← PushWaiter q (Some t); Ok (q, [], Wait (InGet true))
  else Get_finish q RElem.

(** The rest of [Get] after a wait. *)
Definition Get_woken (q : ProducerConsumerQueue) (t : nat) : section :=
  if count_ q =? 0 then Ok (q, [], Wait (InGet true))
  else q ← RemoveWaiter q (Some t); Get_finish q RElem.

Definition GetWithTimeout (q : ProducerConsumerQueue) (t : nat) : section :=
  if count_ q =? 0 then q ← PushWaiter q (Some t); Ok (q, [], Wait (InGetWithTimeout true))
  else Get_finish q (fun v => ROpt (Some v)).

(** The rest of [GetWithTimeout] after [WaitWithDeadline] returned [timed_out]. *)
Definition GetWithTimeout_woken (q : ProducerConsumerQueue) (t : nat) (timed_out : bool) : section :=
  if timed_out && negb (0 <? count_ q) then
    q ← RemoveWaiter q (Some t); Ok (q, [], Return (ROpt None))
  else if negb timed_out && (count_ q =? 0) then Ok (q, [], Wait (InGetWithTimeout true))
  else q ← RemoveWaiter q (Some t); Get_finish q (fun v => ROpt (Some v)).

Definition TryGet (q : ProducerConsumerQueue) : section :=
  if 0 <? count_ q then '(q, s, v) ← RemoveElement q; Ok (q, s, Return (ROpt (Some v)))
  else Ok (q, [], Return (ROpt None)).

(** [count()] and [capacity()]. *)
Definition count (q : ProducerConsumerQueue) : Z := count_ q.
Definition capacity (q : ProducerConsumerQueue) : Z := capacity_ q.

(** ** Threads *)

Inductive request :=
| RqPut (x : T) | RqForcePut (x : T) | RqTryPut (x : T) | RqPutIfReadyToRun (x : T)
| RqGet | RqGetWithTimeout | RqTryGet.

Definition enter (q : ProducerConsumerQueue) (t : nat) (rq : request) : section :=
  match rq with
  | RqPut x => Put q x
  | RqForcePut x => ForcePut q x
  | RqTryPut x => TryPut q x
  | RqPutIfReadyToRun x => PutIfReadyToRun q x
  | RqGet => Get q t
  | RqGetWithTimeout => GetWithTimeout q t
  | RqTryGet => TryGet q
  end.

Definition asleep (p : pc) : bool :=
  match p with InPut _ b | InGet b | InGetWithTimeout b => b end.
Definition awaken (p : pc) : pc :=
  match p with InPut x _ => InPut x false | InGet _ => InGet false | InGetWithTimeout _ => InGetWithTimeout false end.
Definition is_put (p : pc) : bool := match p with InPut _ _ => true | _ => false end.

(** The operation a waiting thread is in. *)
Definition request_of (p : pc) : request :=
  match p with InPut x _ => RqPut x | InGet _ => RqGet | InGetWithTimeout _ => RqGetWithTimeout end.

Definition resume (q : ProducerConsumerQueue) (t : nat) (p : pc) (timed_out : bool) : section :=
  match p with
  | InPut x _ => Put_loop q x
  | InGet _ => Get_woken q t
  | InGetWithTimeout _ => GetWithTimeout_woken q t timed_out
  end.

(** [Signal] on the condition variables, in order.  That of a [Waiter] has its
    thread as the only one that may wait; that of the dummy node has none. *)
Inductive wake : gmap nat pc -> list signal -> gmap nat pc -> Prop :=
| wake_nil th : wake th [] th
| wake_dummy th s th' : wake th s th' -> wake th (SigWaiter None :: s) th'
| wake_waiter th t p s th' : th !! t = Some p -> wake (<[t := awaken p]> th) s th' ->
    wake th (SigWaiter (Some t) :: s) th'
| wake_nonfull th t p s th' : th !! t = Some p -> is_put p = true -> asleep p = true ->
    wake (<[t := awaken p]> th) s th' -> wake th (SigNonfull :: s) th'
| wake_nobody th s th' : (forall t p, th !! t = Some p -> is_put p = true -> asleep p = false) ->
    wake th s th' -> wake th (SigNonfull :: s) th'.

Record state := { the_queue : ProducerConsumerQueue; threads : gmap nat pc }.

(** What a client sees of a step. *)
Inductive event := EvPut (x : T) | EvGet (x : T).

Definition events (rq : request) (e : ending) : list event :=
  match rq, e with
  | (RqPut x | RqForcePut x), Return _ => [EvPut x]
  | (RqTryPut x | RqPutIfReadyToRun x), Return (RBool true) => [EvPut x]
  | RqGet, Return (RElem v) => [EvGet v]
  | (RqGetWithTimeout | RqTryGet), Return (ROpt (Some v)) => [EvGet v]
  | _, _ => []
  end.

Definition after (th : gmap nat pc) (t : nat) (e : ending) : gmap nat pc :=
  match e with Return _ => delete t th | Wait p => <[t := p]> th end.

Inductive label := LCall (t : nat) (rq : request) | LResume (t : nat) | LTimeout (t : nat) | LSpurious (t : nat).

Inductive step : state -> label -> list event -> state -> Prop :=
| step_call q th t rq q' s e th' : th !! t = None -> enter q t rq = Ok (q', s, e) -> wake th s th' ->
    step {| the_queue := q; threads := th |} (LCall t rq) (events rq e)
         {| the_queue := q'; threads := after th' t e |}
| step_resume q th t p q' s e th' : th !! t = Some p -> asleep p = false ->
    resume q t p false = Ok (q', s, e) -> wake (delete t th) s th' ->
    step {| the_queue := q; threads := th |} (LResume t) (events (request_of p) e)
         {| the_queue := q'; threads := after th' t e |}
| step_timeout q th t b q' s e th' : th !! t = Some (InGetWithTimeout b) ->
    resume q t (InGetWithTimeout b) true = Ok (q', s, e) -> wake (delete t th) s th' ->
    step {| the_queue := q; threads := th |} (LTimeout t) (events RqGetWithTimeout e)
         {| the_queue := q'; threads := after th' t e |}
| step_spurious q th t p : th !! t = Some p ->
    step {| the_queue := q; threads := th |} (LSpurious t) []
         {| the_queue := q; threads := <[t := awaken p]> th |}.
End queue.
Arguments ProducerConsumerQueue : clear implicits.
Arguments pc : clear implicits.
Arguments result : clear implicits.
Arguments ending : clear implicits.
Arguments request : clear implicits.
Arguments state : clear implicits.
Arguments label : clear implicits.
Arguments event : clear implicits.
