(* ===== verification/PCQueueProps.v ===== *)
(** * The sections of the producer-consumer queue

    The doubly linked list of [thread/pcqueue.h] represents the list of the waiting
    threads, the last one first: [edges] are the links of a list between two ends, and
    pushing and removing change them as on lists.  [sect] is what a section does to the
    queue and to the list of waiters: the operations all have one of its forms, and run
    without undefined behaviour. *)
From Stdlib Require Import ZArith Lia.
From stdpp Require Import base gmap list.
From S2P Require Import Prelude.
From S2P Require Import PCQueue.
Local Open Scope Z_scope.

Section edges.
Context {A : Type}.

Fixpoint edges (p : A) (l : list A) (q : A) : list (A * A) :=
  match l with
  | [] => [(p, q)]
  | x :: l => (p, x) :: edges x l q
  end.

Lemma edges_app p l1 x l2 q : edges p (l1 ++ x :: l2) q = edges p l1 x ++ edges x l2 q.
Proof. revert p. induction l1 as [|y l1 IH]; intros p; [done|]. cbn. by rewrite IH. Qed.

Lemma edges_fst p l q : (edges p l q).*1 = p :: l.
Proof. revert p. induction l as [|x l IH]; intros p; [done|]. cbn. by rewrite IH. Qed.

Lemma edges_snd p l q : (edges p l q).*2 = l ++ [q].
Proof. revert p. induction l as [|x l IH]; intros p; [done|]. cbn. by rewrite IH. Qed.

(** The last edge of a path ends anywhere, the first one starts anywhere. *)
Lemma edges_last p l : exists init u, forall q, edges p l q = init ++ [(u, q)].
Proof.
  revert p. induction l as [|x l IH]; intros p; [by exists [], p|].
  destruct (IH x) as (init & u & E). exists ((p, x) :: init), u. intros q. cbn. by rewrite E.
Qed.

Lemma edges_first l q : exists n rest, forall p, edges p l q = (p, n) :: rest.
Proof. destruct l as [|x l]; by eexists _, _. Qed.

(** Taking out [x] joins its two edges. *)
Lemma edges_remove p l1 x l2 q : exists init u n rest,
  edges p (l1 ++ x :: l2) q = init ++ (u, x) :: (x, n) :: rest /\
  edges p (l1 ++ l2) q = init ++ (u, n) :: rest.
Proof.
  destruct (edges_last p l1) as (init & u & E1). destruct (edges_first l2 q) as (n & rest & E2).
  exists init, u, n, rest. split; [by rewrite edges_app, E1, E2, <- app_assoc|].
  destruct l2 as [|y l2]; cbn in E2.
  - injection (E2 p) as <- <-. by rewrite app_nil_r, E1.
  - injection (E2 p) as <- <-. by rewrite edges_app, E1, <- app_assoc.
Qed.
End edges.

Implicit Types (m : gmap waiter_ptr Waiter) (l : list nat) (t : nat).

(** Both directions of every link. *)
Definition linked m (es : list (waiter_ptr * waiter_ptr)) : Prop :=
  forall a b, (a, b) ∈ es -> next <$> m !! a = Some b /\ prev <$> m !! b = Some a.

Definition dll m l : Prop :=
  NoDup l /\ (forall p, is_Some (m !! p) <-> p = None \/ exists t, p = Some t /\ t ∈ l) /\
  linked m (edges None (Some <$> l) None).

Lemma dll_empty : dll {[ None := {| next := None; prev := None |} ]} [].
Proof.
  split; [constructor|]. split.
  - intros p. split.
    + intros [w Hw]. apply lookup_singleton_Some in Hw as [<- _]. by left.
    + intros [->|(t & _ & Ht)]; [rewrite lookup_singleton_eq; by eexists|]. by apply not_elem_of_nil in Ht.
  - intros a b. cbn. rewrite list_elem_of_singleton. intros [= -> ->]. by rewrite lookup_singleton_eq.
Qed.

Lemma set_next_Some m p w v : m !! p = Some w -> set_next m p v = Ok (<[p := {| next := v; prev := prev w |}]> m).
Proof. intros E. unfold set_next, deref. by rewrite E. Qed.
Lemma set_prev_Some m p w v : m !! p = Some w -> set_prev m p v = Ok (<[p := {| next := next w; prev := v |}]> m).
Proof. intros E. unfold set_prev, deref. by rewrite E. Qed.

(** Setting one field of one node. *)
Lemma next_set m p w v a : m !! p = Some w ->
  next <$> <[p := {| next := v; prev := prev w |}]> m !! a = (if decide (a = p) then Some v else next <$> m !! a) /\
  prev <$> <[p := {| next := v; prev := prev w |}]> m !! a = prev <$> m !! a.
Proof.
  intros E. destruct (decide (a = p)) as [->|Hn]; [rewrite lookup_insert_eq, E; done|by rewrite lookup_insert_ne].
Qed.
Lemma prev_set m p w v a : m !! p = Some w ->
  prev <$> <[p := {| next := next w; prev := v |}]> m !! a = (if decide (a = p) then Some v else prev <$> m !! a) /\
  next <$> <[p := {| next := next w; prev := v |}]> m !! a = next <$> m !! a.
Proof.
  intros E. destruct (decide (a = p)) as [->|Hn]; [rewrite lookup_insert_eq, E; done|by rewrite lookup_insert_ne].
Qed.

(** The two writes of both list operations. *)
Lemma set_links m u y n x : is_Some (m !! u) -> is_Some (m !! n) -> exists m1 m2,
  set_prev m n x = Ok m1 /\ set_next m1 u y = Ok m2 /\
  (forall p, p <> n -> m1 !! p = m !! p) /\
  (forall p, next <$> m2 !! p = if decide (p = u) then Some y else next <$> m !! p) /\
  (forall p, prev <$> m2 !! p = if decide (p = n) then Some x else prev <$> m !! p).
Proof.
  intros [wu Eu] [wn En]. set (m1 := <[n := {| next := next wn; prev := x |}]> m).
  assert (exists w, m1 !! u = Some w) as [w1 E1].
  { unfold m1. destruct (decide (u = n)) as [->|Hn]; [rewrite lookup_insert_eq; by eexists|].
    rewrite lookup_insert_ne by done. by eexists. }
  exists m1, (<[u := {| next := y; prev := prev w1 |}]> m1).
  split; [by apply set_prev_Some|]. split; [by apply set_next_Some|].
  split; [intros p Hp; by apply lookup_insert_ne|]. split; intros p.
  - destruct (next_set m1 u w1 y p E1) as [-> _]. destruct (decide (p = u)); [done|]. by apply prev_set.
  - destruct (next_set m1 u w1 y p E1) as [_ ->]. by apply prev_set.
Qed.

Lemma dll_top m l : dll m l -> exists w, m !! None = Some w /\ next w = head l.
Proof.
  intros (_ & _ & Hl). destruct l as [|t l]; cbn in Hl.
  - destruct (Hl None None) as [Hn _]; [by left|]. destruct (m !! None) as [w|]; [|done]. exists w. by injection Hn.
  - destruct (Hl None (Some t)) as [Hn _]; [by left|]. destruct (m !! None) as [w|]; [|done]. exists w. by injection Hn.
Qed.

Lemma edges_nodup l : NoDup l ->
  NoDup (edges None (Some <$> l) None).*1 /\ NoDup (edges None (Some <$> l) None).*2.
Proof.
  intros Hl. rewrite edges_fst, edges_snd. assert (None ∉ Some <$> l) as Hn.
  { intros (? & [=] & _)%list_elem_of_fmap. }
  assert (NoDup (Some <$> l)) as Hs by (apply NoDup_fmap; [apply _|done]).
  split; [by constructor|]. apply NoDup_app. split; [done|]. split; [|apply NoDup_singleton].
  intros x Hx ->%list_elem_of_singleton. done.
Qed.

Lemma edges_in l a b : (a, b) ∈ edges None (Some <$> l) None ->
  (a = None \/ exists t, a = Some t /\ t ∈ l) /\ (b = None \/ exists t, b = Some t /\ t ∈ l).
Proof.
  intros Hab. split.
  - apply (list_elem_of_fmap_2 fst) in Hab. rewrite edges_fst in Hab. apply elem_of_cons in Hab as [Ha|Ha]; [by left|].
    apply list_elem_of_fmap in Ha as (t & Ea & Ht). right. by exists t.
  - apply (list_elem_of_fmap_2 snd) in Hab. rewrite edges_snd in Hab.
    apply elem_of_app in Hab as [Hb|Hb%list_elem_of_singleton]; [|by left].
    apply list_elem_of_fmap in Hb as (t & Eb & Ht). right. by exists t.
Qed.

(** The map after the links of the other nodes changed. *)
Lemma dll_dom m m' l u y : (forall p, is_Some (m !! p) <-> p = None \/ exists t, p = Some t /\ t ∈ l) ->
  is_Some (m !! u) -> (forall p, next <$> m' !! p = if decide (p = u) then Some y else next <$> m !! p) ->
  forall p, is_Some (m' !! p) <-> p = None \/ exists t, p = Some t /\ t ∈ l.
Proof.
  intros Hdom Hu Hk p. rewrite <- Hdom, <- !(fmap_is_Some next), Hk.
  destruct (decide (p = u)) as [->|_]; [|done]. rewrite fmap_is_Some. by split; [|eexists].
Qed.

(** Links with other ends are kept. *)
Lemma linked_keep m m' es u y n x : linked m es -> u ∉ es.*1 -> n ∉ es.*2 ->
  (forall p, next <$> m' !! p = if decide (p = u) then Some y else next <$> m !! p) ->
  (forall p, prev <$> m' !! p = if decide (p = n) then Some x else prev <$> m !! p) -> linked m' es.
Proof.
  intros Hl Hu Hn H1 H2 a b Hab. rewrite H1, H2.
  pose proof (list_elem_of_fmap_2 fst _ _ Hab). pose proof (list_elem_of_fmap_2 snd _ _ Hab).
  rewrite !decide_False by (intros ->; done). by apply Hl.
Qed.

Lemma linked_app m es1 es2 : linked m (es1 ++ es2) <-> linked m es1 /\ linked m es2.
Proof.
  unfold linked. split.
  - intros Hl. split; intros a b Hab; apply Hl; apply elem_of_app; [by left|by right].
  - intros [H1 H2] a b Hab. apply elem_of_app in Hab as [Hab|Hab]; [by apply H1|by apply H2].
Qed.

Lemma linked_cons m a b es : linked m ((a, b) :: es) <->
  (next <$> m !! a = Some b /\ prev <$> m !! b = Some a) /\ linked m es.
Proof.
  unfold linked. split.
  - intros Hl. split; [apply Hl; left|]. intros c d Hcd. apply Hl. by right.
  - intros [H1 H2] c d Hcd. apply elem_of_cons in Hcd as [[= -> ->]|Hcd]; [done|by apply H2].
Qed.

(** The ends of the edges around an inner node. *)
Lemma edges_split_nodup (init rest : list (waiter_ptr * waiter_ptr)) u x n :
  NoDup ((init ++ (u, x) :: (x, n) :: rest).*1) -> NoDup ((init ++ (u, x) :: (x, n) :: rest).*2) ->
  u <> x /\ n <> x /\ (u ∉ (init ++ rest).*1) /\ (n ∉ (init ++ rest).*2).
Proof.
  rewrite !fmap_app. cbn. intros Hf Hs.
  apply NoDup_app in Hf as (_ & Hf1 & Hf2). apply NoDup_app in Hs as (_ & Hs1 & Hs2).
  apply NoDup_cons in Hf2 as [Hf2 _]. apply NoDup_cons in Hs2 as [Hs2 Hs3]. apply NoDup_cons in Hs3 as [Hs3 _].
  rewrite !elem_of_app. split_and!.
  - intros ->. apply Hf2. left.
  - intros ->. apply Hs2. left.
  - intros [Hu|Hu]; [apply (Hf1 u Hu); left|]. apply Hf2. by right.
  - intros [Hn|Hn]; [|done]. apply (Hs1 n Hn). right. left.
Qed.

Lemma dll_remove m l1 t l2 : dll m (l1 ++ t :: l2) -> exists w m1 m2 w1,
  m !! Some t = Some w /\ set_prev m (next w) (prev w) = Ok m1 /\ m1 !! Some t = Some w1 /\
  set_next m1 (prev w1) (next w1) = Ok m2 /\ dll (delete (Some t) m2) (l1 ++ l2).
Proof.
  intros (Hnd & Hdom & Hl). destruct (edges_nodup _ Hnd) as [Hf Hs].
  rewrite fmap_app, fmap_cons in Hl, Hf, Hs.
  destruct (edges_remove None (Some <$> l1) (Some t) (Some <$> l2) None) as (init & u & n & rest & E1 & E2).
  rewrite E1 in Hl, Hf, Hs. destruct (edges_split_nodup _ _ _ _ _ Hf Hs) as (Hut & Hnt & Huf & Hns).
  apply linked_app in Hl as [Hl1 Hl2]. apply linked_cons in Hl2 as [[Hun Htp] Hl2]. apply linked_cons in Hl2 as [[Htn Hnp] Hl2].
  destruct (m !! Some t) as [w|] eqn:Ew; [|done]. cbn in Htp, Htn. injection Htp as Htp. injection Htn as Htn.
  assert (is_Some (m !! u)) as Hu by (apply (fmap_is_Some next); by rewrite Hun).
  assert (is_Some (m !! n)) as Hn by (apply (fmap_is_Some prev); by rewrite Hnp).
  destruct (set_links m u n n u Hu Hn) as (m1 & m2 & Em1 & Em2 & Hk1 & Hk2 & Hk3).
  assert (m1 !! Some t = Some w) as Ew1.
  { rewrite Hk1; [done|congruence]. }
  exists w, m1, m2, w. rewrite Htp, Htn. split; [done|]. split; [done|]. split; [done|]. split; [done|].
  rewrite <- Permutation_middle in Hnd. apply NoDup_cons in Hnd as [Ht Hnd].
  split; [done|]. split.
  - intros p. destruct (decide (p = Some t)) as [->|Hp].
    + rewrite lookup_delete_eq. split; [by intros [? ?]|]. intros [?|(t' & [= <-] & Ht')]; [done|]. done.
    + rewrite lookup_delete_ne, (dll_dom m m2 _ u n Hdom Hu Hk2) by done.
      split; (intros [?|(t' & -> & Ht')]; [by left|right]); exists t'; (split; [done|]); revert Ht';
        rewrite <- Permutation_middle, elem_of_cons; [intros [->|?]; done|by right].
  - rewrite fmap_app. assert (linked m2 (edges None ((Some <$> l1) ++ (Some <$> l2)) None)) as Hm2.
    { rewrite E2. rewrite cons_middle, app_assoc.
      assert (linked m2 (init ++ rest)) as [H1 H2]%linked_app.
      { apply (linked_keep m m2 _ u n n u); try done. by apply linked_app. }
      rewrite <- app_assoc. apply linked_app. split; [done|]. cbn. apply linked_cons. rewrite Hk2, Hk3. by rewrite !decide_True. }
    intros a b Hab. pose proof (Hm2 a b Hab) as Hk. rewrite <- fmap_app in Hab. destruct (edges_in _ _ _ Hab) as [Ha Hb].
    rewrite !lookup_delete_ne; [done| |]; intros <-; [destruct Hb as [?|(? & [= <-] & ?)]|destruct Ha as [?|(? & [= <-] & ?)]]; done.
Qed.

(** A new node that no link leads to. *)
Lemma linked_insert m l t w : linked m (edges None (Some <$> l) None) -> t ∉ l ->
  linked (<[Some t := w]> m) (edges None (Some <$> l) None).
Proof.
  intros Hl Ht a b Hab. destruct (edges_in _ _ _ Hab) as [Ha Hb].
  rewrite !lookup_insert_ne; [by apply Hl| |]; intros <-;
    [destruct Hb as [?|(? & [= <-] & ?)]|destruct Ha as [?|(? & [= <-] & ?)]]; done.
Qed.

Lemma dll_push m l t : dll m l -> t ∉ l -> exists d m1 m2,
  let w := {| next := next d; prev := None |} in
  m !! None = Some d /\ set_prev (<[Some t := w]> m) (next w) (Some t) = Ok m1 /\
  m1 !! Some t = Some w /\ set_next m1 (prev w) (Some t) = Ok m2 /\ dll m2 (t :: l).
Proof.
  intros (Hnd & Hdom & Hl) Ht. destruct (edges_nodup _ Hnd) as [Hf Hs].
  destruct (edges_first (Some <$> l) (None : waiter_ptr)) as (n & rest & E).
  pose proof (linked_insert m l t {| next := n; prev := None |} Hl Ht) as Hl'. rewrite E in Hl', Hl, Hf, Hs.
  apply linked_cons in Hl as [[Hn Hp] _]. destruct (m !! None) as [d|] eqn:Ed; [|done]. injection Hn as <-.
  set (w := {| next := next d; prev := None |}) in *. set (m0 := <[Some t := w]> m) in *.
  assert (next d <> Some t) as Hnt.
  { intros Et. assert (is_Some (m !! Some t)) as Hd by (rewrite <- Et; apply (fmap_is_Some prev); by rewrite Hp).
    apply Hdom in Hd as [?|(? & [= <-] & ?)]; done. }
  assert (is_Some (m0 !! None)) as Hu by (unfold m0; rewrite lookup_insert_ne by done; by eexists).
  assert (is_Some (m0 !! next d)) as Hd.
  { unfold m0. rewrite lookup_insert_ne by congruence. apply (fmap_is_Some prev). by rewrite Hp. }
  destruct (set_links m0 None (Some t) (next d) (Some t) Hu Hd) as (m1 & m2 & Em1 & Em2 & Hk1 & Hk2 & Hk3).
  exists d, m1, m2. split; [done|]. split; [done|]. split; [|split; [done|]].
  { rewrite Hk1 by done. unfold m0. by rewrite lookup_insert_eq. }
  split; [by constructor|]. split.
  - apply (dll_dom m0 m2 _ None (Some t)); [|done|done]. intros p. unfold m0. rewrite lookup_insert_is_Some', Hdom. split.
    + intros [<-|[->|(t' & -> & Ht')]]; [right; exists t; by split; [|left]|by left|right; exists t'; by split; [|right]].
    + intros [->|(t' & -> & [->|Ht']%elem_of_cons)]; [by right; left|by left|right; right; by exists t'].
  - rewrite fmap_cons. cbn [edges]. rewrite E. apply linked_cons in Hl' as [_ Hr].
    cbn in Hf, Hs. apply NoDup_cons in Hf as [Hf _]. apply NoDup_cons in Hs as [Hs _].
    apply linked_cons. split; [|apply linked_cons; split; [|by apply (linked_keep m0 m2 _ None (Some t) (next d) (Some t))]].
    + rewrite Hk2, decide_True, Hk3, decide_False by congruence. unfold m0. by rewrite lookup_insert_eq.
    + rewrite Hk2, decide_False, Hk3, decide_True by done. unfold m0. by rewrite lookup_insert_eq.
Qed.

Section props.
Context {T : Type} `{BuildMode}.
Implicit Types (q : ProducerConsumerQueue T) (x v : T) (qu : list T).

(** The invariant of the queue alone; [l] is the list of waiters. *)
Record qinv q l : Prop := {
  qi_count : count_ q = zlen (queue_ q);
  qi_cap : 0 < capacity_ q < 2 ^ 63;
  qi_dll : dll (waiters q) l;
  qi_num : num_waiters_ q = zlen l;
}.

Definition removed t l l' : Prop := exists l1 l2, l = l1 ++ t :: l2 /\ l' = l1 ++ l2.

Definition limited (cap : Z) : bool := negb (cap =? kUnbounded).

Definition get_signals (cap : Z) qu l : list signal :=
  (if limited cap then [SigNonfull] else []) ++ (match qu with [] => [] | _ => [SigWaiter (head l)] end).

(** The forms of a section of thread [t].  [w] says whether [t] is in the list of
    waiters before, [k] is 1 for a producer that was woken. *)
Inductive sect (cap : Z) (t : nat) : bool -> Z -> list T -> list nat ->
    list signal -> ending T -> list (event T) -> list T -> list nat -> Prop :=
| s_put k qu l x r : sect cap t false k qu l [SigWaiter (head l)] (Return r) [EvPut x] (qu ++ [x]) l
| s_get qu l v r : sect cap t false 0 (v :: qu) l (get_signals cap qu l) (Return r) [EvGet v] qu l
| s_get_waiter qu l l' v r : removed t l l' ->
    sect cap t true 0 (v :: qu) l (get_signals cap qu l') (Return r) [EvGet v] qu l'
| s_none qu l r : sect cap t false 0 qu l [] (Return r) [] qu l
| s_wait_put k qu l x : limited cap = true -> cap <= zlen qu ->
    sect cap t false k qu l [] (Wait (InPut x true)) [] qu l
| s_wait_get l p : is_put p = false -> asleep p = true -> sect cap t false 0 [] l [] (Wait p) [] [] (t :: l)
| s_wait_again l p : is_put p = false -> asleep p = true -> sect cap t true 0 [] l [] (Wait p) [] [] l
| s_timeout l l' r : removed t l l' -> sect cap t true 0 [] l [] (Return r) [] [] l'.

(** A section [f] has such a form, keeps the invariant, and exceeds the capacity
    only if [force]. *)
Definition sect_ok q l t (w : bool) (k : Z) (force : bool) (ev : ending T -> list (event T))
    (f : outcome (ProducerConsumerQueue T * list signal * ending T)) : Prop :=
  exists q' s e l', f = Ok (q', s, e) /\ qinv q' l' /\ capacity_ q' = capacity_ q /\
    sect (capacity_ q) t w k (queue_ q) l s e (ev e) (queue_ q') l' /\
    (force = false -> zlen (queue_ q) <= capacity_ q -> zlen (queue_ q') <= capacity_ q).

(** ** The helpers *)

Lemma TopWaiter_ok q l : qinv q l -> TopWaiter q = Ok (head l).
Proof.
  intros [_ _ Hd _]. destruct (dll_top _ _ Hd) as (w & Ew & En). unfold TopWaiter, deref. by rewrite Ew, bind_Ok, En.
Qed.

Lemma RemoveWaiter_ok q l t : qinv q l -> t ∈ l -> exists q' l',
  RemoveWaiter q (Some t) = Ok q' /\ qinv q' l' /\ removed t l l' /\
  capacity_ q' = capacity_ q /\ queue_ q' = queue_ q /\ count_ q' = count_ q.
Proof.
  intros [Hc Hcap Hd Hn] Ht. apply list_elem_of_split in Ht as (l1 & l2 & ->).
  destruct (dll_remove _ _ _ _ Hd) as (w & m1 & m2 & w1 & E1 & E2 & E3 & E4 & Hd').
  unfold RemoveWaiter. assert (DCHECK (negb (bool_decide (Some t = None))) = Ok tt) as -> by (by destruct NDEBUG eqn:E; unfold DCHECK; rewrite E).
  unfold deref. rewrite bind_Ok, E1, bind_Ok, E2, bind_Ok, E3, bind_Ok, E4, bind_Ok.
  rewrite zlen_app, zlen_cons in Hn. pose proof (zlen_nonneg l1). pose proof (zlen_nonneg l2).
  unfold int_decr. rewrite (proj2 (Z.eqb_neq _ _)), bind_Ok by lia.
  eexists _, (l1 ++ l2). split; [reflexivity|]. split; [|split; [by exists l1, l2|done]].
  split; cbn; try done. rewrite zlen_app. lia.
Qed.

Lemma PushWaiter_ok q l t : qinv q l -> t ∉ l -> zlen l < 2 ^ 31 - 1 -> exists q',
  PushWaiter q (Some t) = Ok q' /\ qinv q' (t :: l) /\
  capacity_ q' = capacity_ q /\ queue_ q' = queue_ q /\ count_ q' = count_ q.
Proof.
  intros [Hc Hcap Hd Hn] Ht Hl. destruct (dll_push _ _ _ Hd Ht) as (d & m1 & m2 & E1 & E2 & E3 & E4 & Hd').
  unfold PushWaiter, deref. rewrite E1, bind_Ok, lookup_insert_eq, bind_Ok, E2, bind_Ok, E3, bind_Ok, E4, bind_Ok.
  unfold int_incr. rewrite (proj2 (Z.eqb_neq _ _)), bind_Ok by lia.
  eexists. split; [reflexivity|]. split; [|done]. split; cbn; try done. rewrite zlen_cons. lia.
Qed.

Lemma InternalPut_ok q l x : qinv q l -> zlen (queue_ q) < 2 ^ 63 - 1 -> exists q',
  InternalPut q x = Ok (q', [SigWaiter (head l)]) /\ qinv q' l /\ capacity_ q' = capacity_ q /\
  queue_ q' = queue_ q ++ [x].
Proof.
  intros Hi Hs. unfold InternalPut. rewrite (TopWaiter_ok q l Hi). destruct Hi as [Hc Hcap Hd Hn].
  unfold int64_incr. rewrite (proj2 (Z.eqb_neq _ _)), !bind_Ok by lia.
  eexists. split; [reflexivity|]. split; [|done]. split; cbn; try done. rewrite zlen_app, zlen_cons, zlen_nil. lia.
Qed.

Lemma RemoveElement_ok q l v qu : qinv q l -> queue_ q = v :: qu -> exists q',
  RemoveElement q = Ok (q', get_signals (capacity_ q) qu l, v) /\ qinv q' l /\
  capacity_ q' = capacity_ q /\ queue_ q' = qu.
Proof.
  intros Hi E. unfold RemoveElement. rewrite E. pose proof Hi as [Hc Hcap Hd Hn]. rewrite E, zlen_cons in Hc.
  pose proof (zlen_nonneg qu). unfold int64_decr. rewrite (proj2 (Z.eqb_neq _ _)), bind_Ok by lia.
  set (q' := set_queue q qu (count_ q - 1)).
  assert (qinv q' l) as Hi' by (split; cbn; try done; lia). rewrite (TopWaiter_ok q' l Hi'), bind_Ok.
  exists q'. split; [|done]. cbn [q' set_queue count_]. unfold get_signals, IsLimitedCapacity, limited. cbn.
  destruct qu as [|y qu].
  - rewrite (proj2 (Z.ltb_ge _ _)) by (rewrite Hc, (@zlen_nil T); lia). by rewrite app_nil_r.
  - rewrite (proj2 (Z.ltb_lt _ _)) by (rewrite Hc, zlen_cons; pose proof (zlen_nonneg qu); lia). done.
Qed.

Lemma count_cases q l : qinv q l ->
  (count_ q = 0 /\ queue_ q = []) \/ (0 < count_ q /\ exists v qu, queue_ q = v :: qu).
Proof.
  intros [Hc _ _ _]. destruct (queue_ q) as [|v qu]; [left|right; split; [|by eexists _, _]].
  - split; [|done]. by rewrite Hc, zlen_nil.
  - rewrite Hc, zlen_cons. pose proof (zlen_nonneg qu). lia.
Qed.

Lemma Get_finish_ok q l v qu ret : qinv q l -> queue_ q = v :: qu -> exists q',
  Get_finish q ret = Ok (q', get_signals (capacity_ q) qu l, Return (ret v)) /\ qinv q' l /\
  capacity_ q' = capacity_ q /\ queue_ q' = qu.
Proof.
  intros Hi E. destruct (RemoveElement_ok q l v qu Hi E) as (q' & E' & Hr). exists q'. split; [|done].
  unfold Get_finish. assert ((0 <? count_ q) = true) as ->.
  { apply Z.ltb_lt. rewrite (qi_count _ _ Hi), E, zlen_cons. pose proof (zlen_nonneg qu). lia. }
  by rewrite DCHECK_true, bind_Ok, E', bind_Ok.
Qed.

(** ** The sections *)

Definition ok_put (force : bool) q : Prop := zlen (queue_ q) < 2 ^ 63 - 1 /\ (force = false -> zlen (queue_ q) < capacity_ q).

Lemma put_section q l t x k force ev r : qinv q l -> ok_put force q -> ev (Return r) = [EvPut x] ->
  sect_ok q l t false k force ev ('(q, s) ← InternalPut q x; Ok (q, s, Return r)).
Proof.
  intros Hi [Hs Hf] Ev. destruct (InternalPut_ok q l x Hi Hs) as (q' & E & Hi' & Hc & Hq).
  exists q', [SigWaiter (head l)], (Return r), l. rewrite E, bind_Ok. split; [done|]. split; [done|]. split; [done|].
  rewrite Ev, Hq. split; [apply s_put|]. intros Hff _. specialize (Hf Hff). rewrite zlen_app, zlen_cons, zlen_nil. lia.
Qed.

Lemma none_section q l t force ev r : qinv q l -> ev (Return r) = [] ->
  sect_ok q l t false 0 force ev (Ok (q, [], Return r)).
Proof. intros Hi Ev. exists q, [], (Return r), l. rewrite Ev. split_and!; try done. apply s_none. Qed.

Lemma get_section q l t v qu ret force ev : qinv q l -> queue_ q = v :: qu -> ev (Return (ret v)) = [EvGet v] ->
  sect_ok q l t false 0 force ev (Get_finish q ret).
Proof.
  intros Hi Eq Ev. destruct (Get_finish_ok q l v qu ret Hi Eq) as (q' & E & Hi' & Hc & Hq).
  exists q', (get_signals (capacity_ q) qu l), (Return (ret v)), l. split; [done|]. split; [done|]. split; [done|].
  rewrite Ev, Eq, Hq. split; [apply s_get|]. rewrite zlen_cons. lia.
Qed.

Lemma get_waiter_section q l t v qu ret force ev : qinv q l -> t ∈ l -> queue_ q = v :: qu ->
  ev (Return (ret v)) = [EvGet v] ->
  sect_ok q l t true 0 force ev (q ← RemoveWaiter q (Some t); Get_finish q ret).
Proof.
  intros Hi Ht Eq Ev. destruct (RemoveWaiter_ok q l t Hi Ht) as (q1 & l' & E1 & Hi1 & Hr & Hc1 & Hq1 & _).
  destruct (Get_finish_ok q1 l' v qu ret Hi1) as (q' & E & Hi' & Hc & Hq); [congruence|].
  exists q', (get_signals (capacity_ q) qu l'), (Return (ret v)), l'. rewrite E1, bind_Ok, E, Hc1.
  split; [done|]. split; [done|]. split; [congruence|]. rewrite Ev, Eq, Hq. split; [by apply s_get_waiter|]. rewrite zlen_cons. lia.
Qed.

Lemma Put_section q l t x k : qinv q l -> (limited (capacity_ q) = false -> zlen (queue_ q) < 2 ^ 63 - 1) ->
  sect_ok q l t false k false (events (RqPut x)) (Put_loop q x).
Proof.
  intros Hi Hs. unfold Put_loop. pose proof (qi_count _ _ Hi) as Hc. pose proof (qi_cap _ _ Hi) as Hcap.
  change (IsLimitedCapacity q) with (limited (capacity_ q)). destruct (limited (capacity_ q)) eqn:El; cbn [andb].
  - destruct (Z.leb_spec (capacity_ q) (count_ q)) as [Hle|Hgt].
    + exists q, [], (Wait (InPut x true)), l. split_and!; try done. apply s_wait_put; [done|lia].
    + apply put_section; [done| |done]. apply negb_true_iff, Z.eqb_neq in El. unfold kUnbounded in El. split; lia.
  - apply put_section; [done| |done]. split; [by apply Hs|]. intros _.
    apply negb_false_iff, Z.eqb_eq in El. rewrite El. by apply Hs.
Qed.

Lemma wait_get_section q l t p force ev : qinv q l -> t ∉ l -> zlen l < 2 ^ 31 - 1 -> queue_ q = [] ->
  is_put p = false -> asleep p = true -> ev (Wait p) = [] ->
  sect_ok q l t false 0 force ev (q ← PushWaiter q (Some t); Ok (q, [], Wait p)).
Proof.
  intros Hi Ht Hl Eq Hp Ha Ev. destruct (PushWaiter_ok q l t Hi Ht Hl) as (q' & E & Hi' & Hc & Hq & _).
  exists q', [], (Wait p), (t :: l). rewrite E, bind_Ok, Ev, Hq, Eq. split_and!; try done. by apply s_wait_get.
Qed.

(** Every operation, from its call. *)
Lemma enter_section q l t (rq : request T) : qinv q l -> t ∉ l -> zlen l < 2 ^ 31 - 1 -> zlen (queue_ q) < 2 ^ 63 - 1 ->
  sect_ok q l t false 0 (match rq with RqForcePut _ => true | _ => false end) (events rq) (enter q t rq).
Proof.
  intros Hi Ht Hl Hs. pose proof (qi_count _ _ Hi) as Hc.
  destruct rq as [x|x|x|x| | |]; cbn [enter]; unfold ForcePut, TryPut, PutIfReadyToRun, Get, GetWithTimeout, TryGet.
  - by apply Put_section.
  - by apply put_section.
  - destruct (Z.leb_spec (capacity_ q) (count_ q)) as [Hle|Hgt]; [by apply none_section|].
    apply put_section; [done| |done]. split; [done|lia].
  - destruct (num_waiters_ q <=? count_ q); cbn [orb]; [by apply none_section|].
    destruct (Z.leb_spec (capacity_ q) (count_ q)) as [Hle|Hgt]; [by apply none_section|].
    apply put_section; [done| |done]. split; [done|lia].
  - destruct (count_cases q l Hi) as [[-> Eq]|(Hpos & v & qu & Eq)]; [by apply wait_get_section|].
    rewrite (proj2 (Z.eqb_neq _ _)) by lia. by apply (get_section q l t v qu).
  - destruct (count_cases q l Hi) as [[-> Eq]|(Hpos & v & qu & Eq)]; [by apply wait_get_section|].
    rewrite (proj2 (Z.eqb_neq _ _)) by lia. by apply (get_section q l t v qu).
  - destruct (count_cases q l Hi) as [[-> Eq]|(Hpos & v & qu & Eq)]; [by apply none_section|].
    rewrite (proj2 (Z.ltb_lt _ _)) by lia.
    destruct (RemoveElement_ok q l v qu Hi Eq) as (q' & E & Hi' & Hcap & Hq).
    exists q', (get_signals (capacity_ q) qu l), (Return (ROpt (Some v))), l. rewrite E, bind_Ok.
    split; [done|]. split; [done|]. split; [done|]. rewrite Eq, Hq. split; [apply s_get|]. rewrite zlen_cons. lia.
Qed.

(** A waiting thread that goes on. *)
Lemma resume_section q l t p timed_out : qinv q l -> (t ∈ l <-> is_put p = false) ->
  (is_put p = true -> limited (capacity_ q) = true) ->
  sect_ok q l t (negb (is_put p)) (if is_put p then 1 else 0) false (events (request_of p)) (resume q t p timed_out).
Proof.
  intros Hi Ht Hs. destruct p as [x b|b|b]; cbn [is_put negb resume request_of] in *.
  - apply Put_section; [done|]. rewrite Hs by done. done.
  - unfold Get_woken. destruct (count_cases q l Hi) as [[-> Eq]|(Hpos & v & qu & Eq)].
    + exists q, [], (Wait (InGet true)), l. rewrite Eq. split_and!; try done. by apply s_wait_again.
    + rewrite (proj2 (Z.eqb_neq _ _)) by lia. apply (get_waiter_section q l t v qu); try done. by apply Ht.
  - unfold GetWithTimeout_woken. destruct (count_cases q l Hi) as [[-> Eq]|(Hpos & v & qu & Eq)].
    + destruct timed_out; cbn [andb negb].
      * destruct (RemoveWaiter_ok q l t Hi) as (q1 & l' & E1 & Hi1 & Hr & Hc1 & Hq1 & _); [by apply Ht|].
        exists q1, [], (Return (ROpt None)), l'. rewrite E1, bind_Ok, Hq1, Eq. split_and!; try done. by apply s_timeout.
      * exists q, [], (Wait (InGetWithTimeout true)), l. rewrite Eq. split_and!; try done. by apply s_wait_again.
    + rewrite (proj2 (Z.ltb_lt _ _)), (proj2 (Z.eqb_neq _ _)) by lia. rewrite !andb_false_r.
      apply (get_waiter_section q l t v qu); try done. by apply Ht.
Qed.
End props.
