(* ===== verification/PCQueueLive.v ===== *)
(** * Threads on a producer-consumer queue

    The invariant of a queue and its threads, for every interleaving: elements
    come out in the order they went in, no thread runs into undefined behaviour,
    and no wake-up is lost.

    Then the properties of every run: order and bounds, the absence of
    undefined behaviour, and that woken threads leave nobody waiting in vain. *)
From Stdlib Require Import ZArith Lia.
From stdpp Require Import base gmap list relations.
From S2P Require Import Prelude.
From S2P Require Import PCQueue.
From S2P Require Import PCQueueProps.
Local Open Scope Z_scope.

Section run.
Context {T : Type} `{BuildMode}.
Implicit Types (q : ProducerConsumerQueue T) (l : list nat) (t : nat) (qu : list T) (th : gmap nat (pc T)) (p : pc T).

(** Producers that were woken and have not run since. *)
Definition awake_puts th : gset nat := dom (filter (fun kp => is_put kp.2 && negb (asleep kp.2) = true) th).
Definition no_sleeping_put th : Prop := forall t p, th !! t = Some p -> is_put p = true -> asleep p = false.

Lemma elem_of_awake_puts th t :
  t ∈ awake_puts th <-> exists p, th !! t = Some p /\ is_put p = true /\ asleep p = false.
Proof.
  unfold awake_puts. rewrite elem_of_dom. split.
  - intros [p Hp]. apply map_lookup_filter_Some in Hp as [E Hb]. cbn in Hb.
    apply andb_true_iff in Hb as [H1 H2]. apply negb_true_iff in H2. by exists p.
  - intros (p & E & H1 & H2). exists p. apply map_lookup_filter_Some. cbn. by rewrite H1, H2.
Qed.

(** The state of the threads; consumers are the threads of the list [l]. *)
Record tinv (cap : Z) qu l th : Prop := {
  ti_get : forall t, t ∈ l <-> exists p, th !! t = Some p /\ is_put p = false;
  ti_top : qu <> [] -> forall t, head l = Some t -> exists p, th !! t = Some p /\ asleep p = false;
  ti_lim : limited cap = false -> forall t p, th !! t = Some p -> is_put p = false;
  ti_free : no_sleeping_put th \/ cap - zlen qu <= Z.of_nat (size (awake_puts th));
}.

(** The state while thread [t] runs; [w] says whether it is in [l], [k] is 1 for a
    producer that was woken. *)
Record minv (cap : Z) qu l th t (w : bool) (k : Z) : Prop := {
  mi_self : th !! t = None;
  mi_get : forall t', t' ∈ l <-> (w = true /\ t' = t) \/ exists p, th !! t' = Some p /\ is_put p = false;
  mi_top : qu <> [] -> forall t', head l = Some t' -> (w = true /\ t' = t) \/ exists p, th !! t' = Some p /\ asleep p = false;
  mi_lim : limited cap = false -> forall t' p, th !! t' = Some p -> is_put p = false;
  mi_free : no_sleeping_put th \/ cap - zlen qu <= Z.of_nat (size (awake_puts th)) + k;
  mi_k : 0 <= k <= 1;
}.

(** ** Signals *)

Lemma awaken_put p : is_put (awaken p) = is_put p.
Proof. by destruct p. Qed.
Lemma awaken_awake p : asleep (awaken p) = false.
Proof. by destruct p. Qed.

(** Signals only wake. *)
Definition woken th th' : Prop := forall t,
  match th !! t, th' !! t with
  | None, None => True
  | Some p, Some p' => is_put p' = is_put p /\ (asleep p = false -> asleep p' = false)
  | _, _ => False
  end.

Lemma woken_refl th : woken th th.
Proof. intros t. by destruct (th !! t). Qed.

Lemma woken_trans th1 th2 th3 : woken th1 th2 -> woken th2 th3 -> woken th1 th3.
Proof.
  intros H1 H2 t. specialize (H1 t). specialize (H2 t). destruct (th1 !! t), (th2 !! t), (th3 !! t); try done.
  destruct H1 as [E1 A1], H2 as [E2 A2]. split; [congruence|]. auto.
Qed.

Lemma woken_awaken th t p : th !! t = Some p -> woken th (<[t := awaken p]> th).
Proof.
  intros E t'. destruct (decide (t' = t)) as [->|Hn].
  - rewrite E, lookup_insert_eq, awaken_put, awaken_awake. done.
  - rewrite lookup_insert_ne by done. by destruct (th !! t').
Qed.

Lemma wake_woken th s th' : wake th s th' -> woken th th'.
Proof.
  induction 1 as [th|th s th' _ IH|th t p s th' E _ IH|th t p s th' E _ _ _ IH|th s th' _ _ IH];
    [apply woken_refl|done| | |done]; eapply woken_trans; [by apply woken_awaken|done|by apply woken_awaken|done].
Qed.

Lemma woken_put th th' t : woken th th' ->
  (exists p, th' !! t = Some p /\ is_put p = false) <-> exists p, th !! t = Some p /\ is_put p = false.
Proof.
  intros Hw. specialize (Hw t). destruct (th !! t) as [p|], (th' !! t) as [p'|]; try done.
  destruct Hw as [Hp _]. split; intros (? & [= <-] & Hi); eexists; (split; [done|]); congruence.
Qed.

Lemma woken_lim th th' : woken th th' -> (forall t p, th !! t = Some p -> is_put p = false) ->
  forall t p, th' !! t = Some p -> is_put p = false.
Proof.
  intros Hw Hp t p' E. specialize (Hw t). rewrite E in Hw. destruct (th !! t) as [p|] eqn:Et; [|done].
  destruct Hw as [-> _]. by apply (Hp t).
Qed.

Lemma woken_awake th th' t p : woken th th' -> th !! t = Some p -> asleep p = false ->
  exists p', th' !! t = Some p' /\ is_put p' = is_put p /\ asleep p' = false.
Proof.
  intros Hw E Ha. specialize (Hw t). rewrite E in Hw. destruct (th' !! t) as [p'|]; [|done]. exists p'.
  destruct Hw as [? Hs]. auto.
Qed.

Lemma awake_puts_mono th th' :
  (forall t p, th !! t = Some p -> is_put p = true -> asleep p = false ->
     exists p', th' !! t = Some p' /\ is_put p' = true /\ asleep p' = false) ->
  (size (awake_puts th) <= size (awake_puts th'))%nat.
Proof.
  intros Hm. apply subseteq_size. intros t. rewrite !elem_of_awake_puts. intros (p & E & H1 & H2). by apply (Hm t p).
Qed.

Lemma woken_free th th' : woken th th' -> (size (awake_puts th) <= size (awake_puts th'))%nat.
Proof.
  intros Hw. apply awake_puts_mono. intros t p E H1 H2. destruct (woken_awake _ _ _ _ Hw E H2) as (p' & E' & Hp & Ha).
  exists p'. by rewrite Hp.
Qed.

Lemma woken_none_asleep th th' : woken th th' -> no_sleeping_put th -> no_sleeping_put th'.
Proof.
  intros Hw Hn t p' E Hp. specialize (Hw t). rewrite E in Hw. destruct (th !! t) as [p|] eqn:Et; [|done].
  destruct Hw as [Hpp Ha]. apply Ha, (Hn t p Et). congruence.
Qed.

Lemma wake_top th s th' t : wake th s th' -> SigWaiter (Some t) ∈ s -> exists p, th' !! t = Some p /\ asleep p = false.
Proof.
  induction 1 as [th|th s th' W IH|th t' p s th' E W IH|th t' p s th' E H1 H2 W IH|th s th' Hn W IH];
    intros Hs; [by apply not_elem_of_nil in Hs| | | |]; apply elem_of_cons in Hs as [Hs|Hs]; try done; try (by apply IH).
  injection Hs as <-. destruct (woken_awake _ _ t (awaken p) (wake_woken _ _ _ W)) as (p' & E' & _ & Ha).
  - by rewrite lookup_insert_eq.
  - apply awaken_awake.
  - by exists p'.
Qed.

(** [Signal] on [wait_nonfull_]. *)
Lemma wake_nonfull_free th s th' : wake th s th' -> SigNonfull ∈ s ->
  no_sleeping_put th' \/ (size (awake_puts th) + 1 <= size (awake_puts th'))%nat.
Proof.
  induction 1 as [th|th s th' W IH|th t' p s th' E W IH|th t' p s th' E H1 H2 W IH|th s th' Hn W IH];
    intros Hs; [by apply not_elem_of_nil in Hs| | | |].
  - apply elem_of_cons in Hs as [Hs|Hs]; [done|]. by apply IH.
  - apply elem_of_cons in Hs as [Hs|Hs]; [done|]. destruct (IH Hs) as [?|Hle]; [by left|right].
    pose proof (woken_free _ _ (woken_awaken _ _ _ E)). lia.
  - right. pose proof (woken_free _ _ (wake_woken _ _ _ W)) as Hle.
    assert (size (awake_puts th) + 1 <= size (awake_puts (<[t' := awaken p]> th)))%nat; [|lia].
    assert (t' ∉ awake_puts th) as Hn. { rewrite elem_of_awake_puts. intros (p' & E' & _ & Ha). simplify_eq. congruence. }
    rewrite Nat.add_comm, <- (size_singleton (C := gset nat) t'), <- size_union by (by apply disjoint_singleton_l).
    apply subseteq_size, union_subseteq. split.
    + apply singleton_subseteq_l, elem_of_awake_puts. exists (awaken p). rewrite lookup_insert_eq, awaken_put, awaken_awake. done.
    + intros t. rewrite !elem_of_awake_puts. intros (p' & E' & Hp & Ha).
      destruct (woken_awake _ _ t p' (woken_awaken _ _ _ E) E' Ha) as (p2 & E2 & Hp2 & Ha2). exists p2. by rewrite Hp2.
  - left. apply (woken_none_asleep th); [by apply (wake_woken _ _ _ W)|done].
Qed.

Lemma wake_nil_inv th th' : wake th [] th' -> th' = th.
Proof. by inversion 1. Qed.

(** ** The invariant is kept *)

Lemma removed_elem t l l' t' : NoDup l -> removed t l l' -> t' ∈ l' <-> t' ∈ l /\ t' <> t.
Proof.
  intros Hnd (l1 & l2 & -> & ->). rewrite <- Permutation_middle in Hnd. apply NoDup_cons in Hnd as [Ht _].
  rewrite <- Permutation_middle, elem_of_cons. split.
  - intros Hin. split; [by right|]. by intros ->.
  - intros [[->|Hin] Hn]; done.
Qed.

(** When the running thread returns, it is in no list. *)
Lemma sect_inv_return cap t w qu l s qu' l' th th1 r k ev : minv cap qu l th t w k -> NoDup l ->
  sect cap t w k qu l s (Return r) ev qu' l' -> wake th s th1 -> tinv cap qu' l' (delete t th1).
Proof.
  intros [Hself Hget Htop Hlim Hfree Hk] Hnd Hs W. pose proof (wake_woken _ _ _ W) as Hw.
  assert (delete t th1 = th1) as ->.
  { apply delete_id. specialize (Hw t). rewrite Hself in Hw. by destruct (th1 !! t). }
  assert (forall t', t' ∈ l' <-> exists p, th1 !! t' = Some p /\ is_put p = false) as Hget'.
  { intros t'. rewrite (woken_put th th1 t' Hw). inversion Hs; subst; try (rewrite Hget; naive_solver).
    all: rewrite (removed_elem t l l'), Hget by done; split; [naive_solver|];
      intros (p & E & Hp); split; [right; by exists p|]; intros ->; congruence. }
  split; [done| |by intros Hl; apply (woken_lim th); [|apply Hlim]|].
  - intros Hq t' Ht'. inversion Hs; subst; try done.
    + apply (wake_top th _ th1 t' W). rewrite Ht'. left.
    + apply (wake_top th _ th1 t' W). unfold get_signals. destruct qu'; [done|]. rewrite Ht'. apply elem_of_app. right. left.
    + apply (wake_top th _ th1 t' W). unfold get_signals. destruct qu'; [done|]. rewrite Ht'. apply elem_of_app. right. left.
    + apply wake_nil_inv in W as ->. destruct (Htop Hq t' Ht') as [[? _]|?]; done.
  - destruct Hfree as [Hn|Hle]; [left; by apply (woken_none_asleep th)|].
    pose proof (woken_free _ _ Hw) as Hm.
    destruct (limited cap) eqn:El.
    2:{ left. intros t' p E Hp. pose proof (woken_lim _ _ Hw (Hlim eq_refl) t' p E). congruence. }
    inversion Hs; subst; try (right; lia).
    + right. rewrite zlen_app, zlen_cons, zlen_nil. lia.
    + destruct (wake_nonfull_free _ _ _ W) as [?|?]; [unfold get_signals; rewrite El; left|by left|right].
      rewrite zlen_cons in Hle. lia.
    + destruct (wake_nonfull_free _ _ _ W) as [?|?]; [unfold get_signals; rewrite El; left|by left|right].
      rewrite zlen_cons in Hle. lia.
Qed.

Lemma sect_inv_wait cap t w qu l s qu' l' th th1 p k ev : minv cap qu l th t w k ->
  sect cap t w k qu l s (Wait p) ev qu' l' -> wake th s th1 -> tinv cap qu' l' (<[t := p]> th1).
Proof.
  intros [Hself Hget Htop Hlim Hfree Hk] Hs W.
  assert (s = []) as -> by (by inversion Hs). apply wake_nil_inv in W as ->.
  assert (forall b t', (exists p', <[t := p]> th !! t' = Some p' /\ is_put p' = b) <->
    (t' = t /\ is_put p = b) \/ exists p', th !! t' = Some p' /\ is_put p' = b) as Hins.
  { intros b t'. destruct (decide (t' = t)) as [->|Hn]; [rewrite lookup_insert_eq|rewrite lookup_insert_ne by done].
    - rewrite Hself. naive_solver.
    - naive_solver. }
  assert (size (awake_puts th) <= size (awake_puts (<[t := p]> th)))%nat as Hm.
  { apply awake_puts_mono. intros t' p' E Hp Ha. exists p'. rewrite lookup_insert_ne; [done|]. intros <-. congruence. }
  assert (forall t', t' ∈ l' <-> exists p', <[t := p]> th !! t' = Some p' /\ is_put p' = false) as Hget'.
  { intros t'. rewrite Hins. inversion Hs; subst; cbn [is_put]; rewrite ?elem_of_cons, Hget; naive_solver. }
  split; [done| | |].
  - intros Hq t' Ht'. inversion Hs; subst; try done. destruct (Htop Hq t' Ht') as [[? _]|(p' & E & Ha)]; [done|].
    exists p'. rewrite lookup_insert_ne; [done|]. intros <-. congruence.
  - intros Hl t' p' E. destruct (decide (t' = t)) as [->|Hn]; [|rewrite lookup_insert_ne in E by done; by apply (Hlim Hl t')].
    rewrite lookup_insert_eq in E. injection E as <-. inversion Hs; subst; try done. congruence.
  - inversion Hs; subst; [right; lia| |]; (destruct Hfree as [Hn|Hle]; [left|right; lia]);
      intros t' p' E Hp; (destruct (decide (t' = t)) as [->|Hne];
        [rewrite lookup_insert_eq in E; simplify_eq; congruence|rewrite lookup_insert_ne in E by done; by apply (Hn t' p')]).
Qed.

Lemma sect_inv cap t w qu l s e qu' l' th th1 k ev : minv cap qu l th t w k -> NoDup l ->
  sect cap t w k qu l s e ev qu' l' -> wake th s th1 -> tinv cap qu' l' (after th1 t e).
Proof. destruct e as [r|p]; intros; [by eapply sect_inv_return|by eapply sect_inv_wait]. Qed.

(** Starting to run. *)
Lemma tinv_call cap qu l th t : tinv cap qu l th -> th !! t = None -> minv cap qu l th t false 0.
Proof.
  intros [Hget Htop Hlim Hfree] E. split; try done.
  - intros t'. rewrite Hget. naive_solver.
  - intros Hq t' Ht'. right. by apply Htop.
  - destruct Hfree; [by left|right; lia].
Qed.

Lemma tinv_resume cap qu l th t p : tinv cap qu l th -> th !! t = Some p -> (is_put p = true -> asleep p = false) ->
  minv cap qu l (delete t th) t (negb (is_put p)) (if is_put p then 1 else 0).
Proof.
  intros [Hget Htop Hlim Hfree] E Ha. split; [by rewrite lookup_delete_eq| | | | |by destruct (is_put p)].
  - intros t'. rewrite Hget. destruct (decide (t' = t)) as [->|Hn].
    + rewrite E, lookup_delete_eq. destruct (is_put p) eqn:Hp; naive_solver.
    + rewrite lookup_delete_ne by done. naive_solver.
  - intros Hq t' Ht'. destruct (Htop Hq t' Ht') as (p' & E' & Ha'). destruct (decide (t' = t)) as [->|Hn].
    + left. split; [|done]. simplify_eq. assert (t ∈ l) as Hin by (by destruct l; [|cbn in Ht'; simplify_eq; left]).
      apply Hget in Hin as (p2 & E2 & Hp2). simplify_eq. by rewrite Hp2.
    + right. exists p'. by rewrite lookup_delete_ne.
  - intros Hl t' p' E'. apply lookup_delete_Some in E' as [_ E']. by apply (Hlim Hl t').
  - destruct Hfree as [Hn|Hle].
    + left. intros t' p' E'. apply lookup_delete_Some in E' as [_ E']. by apply (Hn t' p').
    + right. assert (size (awake_puts th) <= size (awake_puts (delete t th) ∪ (if is_put p then {[t]} else ∅)))%nat as Hs.
      { apply subseteq_size. intros t'. rewrite elem_of_union, !elem_of_awake_puts. intros (p' & E' & Hp' & Ha').
        destruct (decide (t' = t)) as [->|Hne]; [|left; exists p'; by rewrite lookup_delete_ne].
        right. simplify_eq. rewrite Hp'. by apply elem_of_singleton. }
      rewrite size_union_alt in Hs.
      assert (size ((if is_put p then {[t]} else ∅) ∖ awake_puts (delete t th)) <= if is_put p then 1 else 0)%nat as Hs2.
      { destruct (is_put p); [rewrite <- (size_singleton (C := gset nat) t)|rewrite <- (size_empty (C := gset nat))];
          apply subseteq_size; intros z Hz; by apply elem_of_difference in Hz as [? _]. }
      destruct (is_put p); lia.
Qed.

Lemma wake_exists th s : (forall t, SigWaiter (Some t) ∈ s -> is_Some (th !! t)) -> exists th', wake th s th'.
Proof.
  revert th. induction s as [|[[t|]|] s IH]; intros th Hs.
  - exists th. constructor.
  - destruct (Hs t) as [p E]; [left|]. destruct (IH (<[t := awaken p]> th)) as [th' W].
    + intros t' Ht'. apply lookup_insert_is_Some'. right. apply Hs. by right.
    + exists th'. by apply (wake_waiter th t p).
  - destruct (IH th) as [th' W]; [intros t' Ht'; apply Hs; by right|]. exists th'. by constructor.
  - destruct (decide (map_Forall (fun _ p => negb (is_put p && asleep p) = true) th)) as [Hf|Hf].
    + destruct (IH th) as [th' W]; [intros t' Ht'; apply Hs; by right|]. exists th'. apply wake_nobody; [|done].
      intros t p E Hp. specialize (Hf t p E). cbn in Hf. rewrite Hp in Hf. by apply negb_true_iff in Hf.
    + apply map_not_Forall in Hf as (t & p & E & Hp); [|intros ? ?; apply _].
      destruct (is_put p) eqn:E1; [|done]. destruct (asleep p) eqn:E2; [|done].
      destruct (IH (<[t := awaken p]> th)) as [th' W].
      * intros t' Ht'. apply lookup_insert_is_Some'. right. apply Hs. by right.
      * exists th'. by apply (wake_nonfull th t p).
Qed.

(** The waiters a section signals are threads that wait. *)
Lemma sect_signals cap t w k qu l s e ev qu' l' th t' : minv cap qu l th t w k -> NoDup l ->
  sect cap t w k qu l s e ev qu' l' -> SigWaiter (Some t') ∈ s -> is_Some (th !! t').
Proof.
  intros Hm Hnd Hs Hin.
  assert (forall l0, head l0 = Some t' -> t' ∈ l0) as Hhead by (intros [|a l0]; [done|intros [= ->]; left]).
  assert (t' ∈ l -> (w = true -> t' <> t) -> is_Some (th !! t')) as Hl.
  { intros Ht Hw. apply (mi_get _ _ _ _ _ _ _ Hm) in Ht as [[Hw' ->]|(p & E & _)]; [by destruct (Hw Hw')|by eexists]. }
  assert (forall c (u : list T) l0, SigWaiter (Some t') ∈ get_signals c u l0 -> t' ∈ l0) as Hg.
  { intros c u l0 Hg. apply Hhead. unfold get_signals in Hg. apply elem_of_app in Hg as [Hg|Hg].
    - destruct (limited c); [by apply list_elem_of_singleton in Hg|by apply not_elem_of_nil in Hg].
    - destruct u; [by apply not_elem_of_nil in Hg|]. apply list_elem_of_singleton in Hg. by injection Hg. }
  inversion Hs; subst; try (by apply not_elem_of_nil in Hin).
  - apply list_elem_of_singleton in Hin. injection Hin as Hin. by apply Hl; [apply Hhead|].
  - apply Hl; [by apply (Hg cap qu' l')|done].
  - apply Hg, (removed_elem t l l') in Hin as [Ht Hn]; [|done|done]. by apply Hl.
Qed.

(** ** Steps and runs *)

Definition tid (lb : label T) : nat :=
  match lb with LCall t _ | LResume t | LTimeout t | LSpurious t => t end.

(** Fewer threads than an [int] counts. *)
Definition max_thread : Z := 2 ^ 31 - 1.

Definition sinv (s : state T) l : Prop :=
  qinv (the_queue s) l /\ tinv (capacity_ (the_queue s)) (queue_ (the_queue s)) l (threads s) /\
  forall t, is_Some (threads s !! t) -> Z.of_nat t < max_thread.

Definition puts (ev : list (event T)) : list T := omap (fun e => match e with EvPut x => Some x | _ => None end) ev.
Definition gets (ev : list (event T)) : list T := omap (fun e => match e with EvGet x => Some x | _ => None end) ev.

Lemma sect_fifo cap t w k qu l s e ev qu' l' : sect cap t w k qu l s e ev qu' l' ->
  qu ++ puts ev = gets ev ++ qu' /\ zlen qu' <= zlen qu + 1.
Proof.
  destruct 1; cbn; rewrite ?app_nil_r, ?zlen_app, ?zlen_cons; (split; [done|]); cbn; try lia.
  rewrite zlen_nil. lia.
Qed.

Lemma bounded_length (N : nat) l : NoDup l -> (forall t, t ∈ l -> (t < N)%nat) -> (length l <= N)%nat.
Proof.
  intros Hnd Hl. rewrite <- (length_seq N 0). apply submseteq_length, NoDup_submseteq; [done|].
  intros t Ht. apply elem_of_seq. specialize (Hl t Ht). lia.
Qed.

Lemma sinv_waiters s l t : sinv s l -> threads s !! t = None -> Z.of_nat t < max_thread ->
  (t ∉ l) /\ zlen l < 2 ^ 31 - 1 /\ NoDup l.
Proof.
  intros (Hq & Ht & Hb) E Hmax. pose proof (qi_dll _ _ Hq) as (Hnd & _ & _).
  assert (t ∉ l) as Hn. { intros Hin. apply (ti_get _ _ _ _ Ht) in Hin as (p & Ep & _). congruence. }
  split; [done|]. split; [|done].
  assert (length (t :: l) <= Z.to_nat max_thread)%nat as Hle.
  { apply bounded_length; [by constructor|]. intros t' [->|Ht']%elem_of_cons; [lia|].
    apply (ti_get _ _ _ _ Ht) in Ht' as (p & Ep & _). specialize (Hb t' ltac:(by eexists)). lia. }
  unfold zlen. cbn in Hle. unfold max_thread in *. lia.
Qed.

(** What a step does, for every kind of step but the spurious wake-up. *)
Definition step_ok (s s' : state T) (force : bool) (ev : list (event T)) : Prop :=
  (exists l', sinv s' l') /\ capacity_ (the_queue s') = capacity_ (the_queue s) /\
  queue_ (the_queue s) ++ puts ev = gets ev ++ queue_ (the_queue s') /\
  zlen (queue_ (the_queue s')) <= zlen (queue_ (the_queue s)) + 1 /\
  (force = false -> zlen (queue_ (the_queue s)) <= capacity_ (the_queue s) ->
     zlen (queue_ (the_queue s')) <= capacity_ (the_queue s)).

Lemma section_step q l th0 t w k force ev f : qinv q l -> minv (capacity_ q) (queue_ q) l th0 t w k ->
  (forall t', is_Some (th0 !! t') -> Z.of_nat t' < max_thread) -> Z.of_nat t < max_thread ->
  sect_ok q l t w k force ev f ->
  (exists q' s e th', f = Ok (q', s, e) /\ wake th0 s th') /\
  (forall q' s e th' th, f = Ok (q', s, e) -> wake th0 s th' ->
     step_ok {| the_queue := q; threads := th |} {| the_queue := q'; threads := after th' t e |} force (ev e)).
Proof.
  intros Hq Hm Hb Ht (q1 & s1 & e1 & l1 & E1 & Hq1 & Hc1 & Hs1 & Hf1).
  pose proof (qi_dll _ _ Hq) as (Hnd & _ & _). split.
  - destruct (wake_exists th0 s1) as [th' W]; [by intros t'; apply (sect_signals _ _ _ _ _ _ _ _ _ _ _ th0 t' Hm Hnd Hs1)|].
    by exists q1, s1, e1, th'.
  - intros q' s e th' th E W. rewrite E1 in E. injection E as <- <- <-.
    destruct (sect_fifo _ _ _ _ _ _ _ _ _ _ _ Hs1) as [Hfifo Hlen]. unfold step_ok. cbn [the_queue threads].
    split; [|done]. exists l1. split; [done|]. cbn [the_queue threads]. rewrite Hc1. split; [by eapply sect_inv|].
    intros t' Ht'. pose proof (wake_woken _ _ _ W t') as Hw.
    destruct (decide (t' = t)) as [->|Hn]; [done|]. apply Hb. destruct e1; cbn in Ht'.
    + rewrite lookup_delete_ne in Ht' by done. destruct (th0 !! t'); [by eexists|]. by destruct (th' !! t'), Ht'.
    + rewrite lookup_insert_ne in Ht' by done. destruct (th0 !! t'); [by eexists|]. by destruct (th' !! t'), Ht'.
Qed.

Definition forces (lb : label T) : bool := match lb with LCall _ (RqForcePut _) => true | _ => false end.

(** The sections of the steps. *)
Lemma call_sect s l t rq : sinv s l -> threads s !! t = None -> Z.of_nat t < max_thread ->
  zlen (queue_ (the_queue s)) < 2 ^ 63 - 1 ->
  minv (capacity_ (the_queue s)) (queue_ (the_queue s)) l (threads s) t false 0 /\
  sect_ok (the_queue s) l t false 0 (forces (LCall t rq)) (events rq) (enter (the_queue s) t rq).
Proof.
  intros Hi E Ht Hs. destruct (sinv_waiters s l t Hi E Ht) as (Hn & Hl & _). destruct Hi as (Hq & Hth & _).
  split; [by apply tinv_call|]. by apply enter_section.
Qed.

Lemma resume_sect s l t p timed_out : sinv s l -> threads s !! t = Some p -> (is_put p = true -> asleep p = false) ->
  minv (capacity_ (the_queue s)) (queue_ (the_queue s)) l (delete t (threads s)) t (negb (is_put p)) (if is_put p then 1 else 0) /\
  sect_ok (the_queue s) l t (negb (is_put p)) (if is_put p then 1 else 0) false (events (request_of p)) (resume (the_queue s) t p timed_out).
Proof.
  intros (Hq & Hth & _) E Ha. split; [by apply tinv_resume|]. apply resume_section; [done| |].
  - rewrite (ti_get _ _ _ _ Hth), E. split; [intros (? & [= <-] & ?); done|by eexists].
  - intros Hp. destruct (limited _) eqn:El; [done|]. pose proof (ti_lim _ _ _ _ Hth El t p E). congruence.
Qed.

Lemma deleted_bound s l t : sinv s l -> forall t', is_Some (delete t (threads s) !! t') -> Z.of_nat t' < max_thread.
Proof. intros (_ & _ & Hb) t' [p Hp]. apply lookup_delete_Some in Hp as [_ Hp]. apply Hb. by eexists. Qed.

Lemma step_inv s l lb ev s' : sinv s l -> Z.of_nat (tid lb) < max_thread -> zlen (queue_ (the_queue s)) < 2 ^ 63 - 1 ->
  step s lb ev s' -> step_ok s s' (forces lb) ev.
Proof.
  intros Hi Ht Hs Hst. destruct Hst as [q th t rq q' sg e th' E Ee W|q th t p q' sg e th' E Ha Ee W|q th t b q' sg e th' E Ee W|q th t p E].
  - destruct (call_sect _ l t rq Hi E Ht Hs) as [Hm Ho].
    apply (proj2 (section_step q l th t _ _ _ _ _ (proj1 Hi) Hm (proj2 (proj2 Hi)) Ht Ho) q' sg e th' th Ee W).
  - destruct (resume_sect _ l t p false Hi E (fun _ => Ha)) as [Hm Ho].
    apply (proj2 (section_step q l (delete t th) t _ _ _ _ _ (proj1 Hi) Hm (deleted_bound _ _ t Hi) Ht Ho) q' sg e th' th Ee W).
  - destruct (resume_sect _ l t (InGetWithTimeout b) true Hi E) as [Hm Ho]; [done|].
    apply (proj2 (section_step q l (delete t th) t _ _ _ _ _ (proj1 Hi) Hm (deleted_bound _ _ t Hi) Ht Ho) q' sg e th' th Ee W).
  - destruct Hi as (Hq & [Hget Htop Hlim Hfree] & Hb). unfold step_ok. cbn [the_queue threads puts gets] in *.
    pose proof (woken_awaken th t p E) as Hw. split; [|split_and!; try (done || lia)].
    + exists l. split; [done|]. cbn. split; [split|].
      * intros t'. rewrite Hget, <- (woken_put _ _ t' Hw). done.
      * intros Hq' t' Ht'. destruct (Htop Hq' t' Ht') as (p' & E' & Ha).
        destruct (woken_awake _ _ t' p' Hw E' Ha) as (p2 & E2 & _ & Ha2). by exists p2.
      * intros Hl. apply (woken_lim th); [done|by apply Hlim].
      * destruct Hfree as [Hn|Hle]; [left; by apply (woken_none_asleep th)|right].
        pose proof (woken_free _ _ Hw). lia.
      * intros t' Ht'. apply Hb. apply lookup_insert_is_Some' in Ht' as [<-|Ht']; [by eexists|done].
    + cbn. by rewrite app_nil_r.
Qed.

Inductive run : state T -> list (label T * list (event T)) -> state T -> Prop :=
| run_nil s : run s [] s
| run_cons s lb ev s1 tr s' : step s lb ev s1 -> run s1 tr s' -> run s ((lb, ev) :: tr) s'.

(** Traces with fewer than 2^31 - 1 threads and 2^63 - 1 steps. *)
Definition bounded (tr : list (label T * list (event T))) : Prop :=
  Forall (fun le => Z.of_nat (tid le.1) < max_thread) tr /\ zlen tr < 2 ^ 63 - 1.

Lemma run_inv s tr s' l : run s tr s' -> sinv s l -> Forall (fun le => Z.of_nat (tid le.1) < max_thread) tr ->
  zlen (queue_ (the_queue s)) + zlen tr < 2 ^ 63 - 1 ->
  (exists l', sinv s' l') /\ capacity_ (the_queue s') = capacity_ (the_queue s) /\
  queue_ (the_queue s) ++ puts (concat tr.*2) = gets (concat tr.*2) ++ queue_ (the_queue s') /\
  zlen (queue_ (the_queue s')) <= zlen (queue_ (the_queue s)) + zlen tr /\
  (Forall (fun le => forces le.1 = false) tr -> zlen (queue_ (the_queue s)) <= capacity_ (the_queue s) ->
     zlen (queue_ (the_queue s')) <= capacity_ (the_queue s)).
Proof.
  intros R. revert l. induction R as [s|s lb ev s1 tr s' St R IH]; intros l Hi Hb Hs.
  { cbn. rewrite app_nil_r, zlen_nil. split_and!; [by exists l|done|done|lia|done]. }
  apply Forall_cons in Hb as [Hb1 Hb]. rewrite zlen_cons in *. pose proof (zlen_nonneg tr).
  destruct (step_inv _ _ _ _ _ Hi Hb1 ltac:(lia) St) as ((l1 & Hi1) & Hc1 & Hf1 & Hl1 & Hp1).
  destruct (IH l1 Hi1 Hb ltac:(lia)) as (Hi' & Hc' & Hf' & Hl' & Hp').
  split; [done|]. split; [congruence|]. split; [|split; [lia|]].
  - cbn. unfold puts, gets. rewrite !omap_app. fold (puts ev) (gets ev) (puts (concat tr.*2)) (gets (concat tr.*2)).
    rewrite app_assoc, Hf1, <- !app_assoc. by rewrite Hf'.
  - intros [Hn Hn']%Forall_cons Hle. rewrite <- Hc1. apply Hp'; [done|]. rewrite Hc1. by apply Hp1.
Qed.

Definition init q : state T := {| the_queue := q; threads := ∅ |}.

Lemma init_inv cap q : cap < 2 ^ 63 -> make_queue cap = Ok q -> sinv (init q) [] /\ queue_ q = [] /\ capacity_ q = cap.
Proof.
  intros Hc E. unfold make_queue, CHECK in E. destruct (Z.ltb_spec 0 cap) as [Hp|]; [|done]. injection E as <-.
  split; [|done]. split; [|split].
  - split; cbn; [done|lia|apply dll_empty|done].
  - cbn. split; cbn; try done.
    + intros t. rewrite lookup_empty. split; [by intros ?%not_elem_of_nil|by intros (? & ? & _)].
    + left. intros t p. by rewrite lookup_empty.
  - intros t. cbn. rewrite lookup_empty. by intros [? ?].
Qed.

Lemma reachable_inv cap q tr s : cap < 2 ^ 63 -> make_queue cap = Ok q -> run (init q) tr s -> bounded tr ->
  (exists l, sinv s l) /\ capacity_ (the_queue s) = cap /\
  puts (concat tr.*2) = gets (concat tr.*2) ++ queue_ (the_queue s) /\
  zlen (queue_ (the_queue s)) <= zlen tr /\
  (Forall (fun le => forces le.1 = false) tr -> zlen (queue_ (the_queue s)) <= cap).
Proof.
  intros Hc E R [Hb Hl]. destruct (init_inv cap q Hc E) as (Hi & Hq & Hcap).
  destruct (run_inv _ _ _ _ R Hi Hb) as (Hi' & Hc' & Hf & Hl' & Hp); cbn [init the_queue] in *; rewrite ?Hq, ?Hcap in *.
  - rewrite (@zlen_nil T). lia.
  - rewrite (@zlen_nil T) in *. split_and!; try (done || lia). intros Hn. apply Hp; [done|].
    unfold make_queue, CHECK in E. destruct (Z.ltb_spec 0 cap); [lia|done].
Qed.
End run.

Section live.
Context {T : Type} `{BuildMode}.
Implicit Types (q : ProducerConsumerQueue T) (l : list nat) (t : nat) (qu : list T) (th : gmap nat (pc T)) (p : pc T).

(** ** Progress *)

(** The steps of threads that were woken, with no new calls, no timeouts and no
    wake-ups without a signal. *)
Definition istep (s s' : state T) : Prop := exists t ev, step s (LResume t) ev s'.

Definition awake th : gmap nat (pc T) := filter (fun kp => asleep kp.2 = false) th.

Lemma awake_lookup th t p : awake th !! t = Some p <-> th !! t = Some p /\ asleep p = false.
Proof. apply map_lookup_filter_Some. Qed.

Lemma wake_size th s th' : wake th s th' -> size th' = size th.
Proof.
  intros W. rewrite <- (size_dom (D := gset nat) th'), <- (size_dom (D := gset nat) th). f_equal. apply set_eq.
  intros t. rewrite !elem_of_dom. pose proof (wake_woken _ _ _ W t) as Hw.
  destruct (th !! t), (th' !! t); try done; split; intros _; by eexists.
Qed.

(** A woken thread returns, or goes back to sleep and wakes nobody. *)
Lemma istep_decr s l s' : sinv s l -> istep s s' -> (exists l', sinv s' l') /\
  ((size (threads s') < size (threads s))%nat \/
   size (threads s') = size (threads s) /\ (size (awake (threads s')) < size (awake (threads s)))%nat).
Proof.
  intros Hi (t & ev & St). inversion St as [|q th t0 p q' sg e th' E Ha Ee W| |]; subst.
  destruct (resume_sect _ l t p false Hi E (fun _ => Ha)) as [Hm Ho].
  assert (Z.of_nat t < max_thread) as Ht by (apply (proj2 (proj2 Hi)); by eexists).
  pose proof (proj2 (section_step q l (delete t th) t _ _ _ _ _ (proj1 Hi) Hm (deleted_bound _ _ t Hi) Ht Ho)
    q' sg e th' th Ee W) as (Hi' & _). split; [done|]. cbn [threads the_queue] in *.
  pose proof (map_size_delete_Some t th ltac:(by eexists)) as Hd. pose proof (wake_size _ _ _ W) as Hw.
  destruct Ho as (q1 & s1 & e1 & l1 & E1 & _ & _ & Hs & _). cbn [the_queue] in *. rewrite Ee in E1. injection E1 as <- <- <-.
  assert (0 < size th)%nat as Hpos.
  { assert (size th <> 0%nat); [|lia]. intros H0. apply map_size_empty_inv in H0. by rewrite H0, lookup_empty in E. }
  destruct e as [r|p']; cbn [after].
  - left. assert (th' !! t = None) as En.
    { pose proof (wake_woken _ _ _ W t) as Hk. rewrite lookup_delete_eq in Hk. by destruct (th' !! t). }
    rewrite delete_id by done. lia.
  - right. assert (sg = []) as -> by (by inversion Hs). apply wake_nil_inv in W as ->.
    assert (asleep p' = true) as Hp' by (by inversion Hs). rewrite insert_delete_eq.
    split; [by apply map_size_insert_Some; eexists|].
    assert (awake (<[t := p']> th) = delete t (awake th)) as ->.
    { apply map_eq. intros t'. apply option_eq. intros p2. rewrite awake_lookup, lookup_delete_Some, awake_lookup.
      destruct (decide (t' = t)) as [->|Hn]; [rewrite lookup_insert_eq|rewrite lookup_insert_ne by done].
      - split; [intros [[= <-] ?]; congruence|by intros [? _]].
      - split; [intros [? ?]; by split_and!|by intros [_ ?]]. }
    pose proof (map_size_delete_Some t (awake th)) as Hda. rewrite Hda by (exists p; by apply awake_lookup).
    assert (size (awake th) <> 0%nat); [|lia]. intros H0. apply map_size_empty_inv in H0.
    assert (awake th !! t = Some p) as Hl by (by apply awake_lookup). by rewrite H0, lookup_empty in Hl.
Qed.

Lemma istep_sn s l : sinv s l -> sn istep s.
Proof.
  remember (size (threads s)) as n eqn:En. remember (size (awake (threads s))) as m eqn:Em.
  revert m s l En Em. induction (lt_wf n) as [n _ IHn]. intros m. induction (lt_wf m) as [m _ IHm].
  intros s l En Em Hi. constructor. intros s' St. destruct (istep_decr s l s' Hi St) as [[l' Hi'] [Hlt|[He Hlt]]].
  - apply (IHn (size (threads s')) ltac:(lia) _ s' l' eq_refl eq_refl Hi').
  - apply (IHm (size (awake (threads s'))) ltac:(lia) s' l' ltac:(congruence) eq_refl Hi').
Qed.

Lemma istep_inv s s' l : rtc istep s s' -> sinv s l -> exists l', sinv s' l'.
Proof.
  intros R. revert l. induction R as [s|s s1 s' St _ IH]; intros l Hi; [by exists l|].
  destruct (istep_decr s l s1 Hi St) as [[l1 Hi1] _]. by apply (IH l1).
Qed.

Lemma resume_exists s l t p : sinv s l -> threads s !! t = Some p -> asleep p = false ->
  exists ev s', step s (LResume t) ev s'.
Proof.
  intros Hi E Ha. destruct (resume_sect s l t p false Hi E (fun _ => Ha)) as [Hm Ho].
  assert (Z.of_nat t < max_thread) as Ht by (apply (proj2 (proj2 Hi)); by eexists).
  destruct (section_step _ l (delete t (threads s)) t _ _ _ _ _ (proj1 Hi) Hm (deleted_bound _ _ t Hi) Ht Ho)
    as [(q' & sg & e & th' & Ee & W) _]. destruct s as [q th]. eexists _, _. by eapply step_resume.
Qed.

(** In a state with no such step left, everybody sleeps for a reason. *)
Lemma stuck_reason s l t p : sinv s l -> (forall s', ~ istep s s') -> threads s !! t = Some p ->
  if is_put p then limited (capacity_ (the_queue s)) = true /\ capacity_ (the_queue s) <= count (the_queue s)
  else queue_ (the_queue s) = [].
Proof.
  intros Hi Hst E. assert (forall t p, threads s !! t = Some p -> asleep p = true) as Hall.
  { intros t' p' E'. destruct (asleep p') eqn:Ha; [done|]. destruct (resume_exists s l t' p' Hi E' Ha) as (ev & s' & St).
    destruct (Hst s'). by exists t', ev. }
  destruct Hi as (Hq & [Hget Htop Hlim Hfree] & _). destruct (is_put p) eqn:Hp.
  - split; [destruct (limited _) eqn:El; [done|]; pose proof (Hlim eq_refl t p E); congruence|].
    destruct Hfree as [Hn|Hle]; [pose proof (Hn t p E Hp); rewrite (Hall t p E) in *; done|].
    assert (awake_puts (threads s) = ∅) as E0.
    { apply set_eq. intros t'. rewrite elem_of_awake_puts. split; [|by intros ?%elem_of_empty].
      intros (p' & E' & _ & Ha). rewrite (Hall t' p' E') in Ha. done. }
    rewrite E0, size_empty in Hle. unfold count. rewrite (qi_count _ _ Hq). lia.
  - assert (t ∈ l) as Hin by (apply Hget; by exists p). destruct (queue_ (the_queue s)) as [|v qu]; [done|].
    destruct l as [|t0 l]; [by apply not_elem_of_nil in Hin|].
    destruct (Htop ltac:(done) t0 eq_refl) as (p0 & E0 & Ha). rewrite (Hall t0 p0 E0) in Ha. done.
Qed.

(** C7. Elements leave in the order they came.  In every run of any threads on a
    new queue (with fewer than 2^31 - 1 threads and 2^63 - 1 steps), the elements
    that puts have added are those that gets have returned, in the same order,
    followed by the content of the queue; [count()] is the number of elements in the queue, and
    without [ForcePut] it never exceeds the capacity. *)
Theorem PCQueue_fifo cap q tr s : cap < 2 ^ 63 -> make_queue cap = Ok q -> run (init q) tr s -> bounded tr ->
  puts (concat tr.*2) = gets (concat tr.*2) ++ queue_ (the_queue s) /\
  count (the_queue s) = zlen (queue_ (the_queue s)) /\
  (Forall (fun le => forces le.1 = false) tr -> count (the_queue s) <= cap).
Proof.
  intros Hc E R Hb. destruct (reachable_inv cap q tr s Hc E R Hb) as ([l Hi] & _ & Hf & _ & Hp).
  pose proof (qi_count _ _ (proj1 Hi)) as Hcnt. unfold count. split; [done|]. split; [done|]. by rewrite Hcnt.
Qed.

(** C12. No operation fails.  In every state that a run reaches, every thread that
    is not in the queue can call every operation, every thread that was woken
    can go on, and every wait with a deadline can time out: the section runs to
    its end, without a failed check, an overflow, the removal of a waiter that is
    not in the list or an access to the stack of a thread that has left. *)
Theorem PCQueue_safe cap q tr s t : cap < 2 ^ 63 -> make_queue cap = Ok q -> run (init q) tr s -> bounded tr ->
  (threads s !! t = None -> Z.of_nat t < max_thread -> forall rq, exists ev s', step s (LCall t rq) ev s') /\
  (forall p, threads s !! t = Some p -> asleep p = false -> exists ev s', step s (LResume t) ev s') /\
  (forall b, threads s !! t = Some (InGetWithTimeout b) -> exists ev s', step s (LTimeout t) ev s').
Proof.
  intros Hc E R Hb. destruct (reachable_inv cap q tr s Hc E R Hb) as ([l Hi] & _ & _ & Hl & _). split; [|split].
  - intros Et Ht rq. destruct (call_sect s l t rq Hi Et Ht) as [Hm Ho]; [pose proof (proj2 Hb); lia|].
    destruct (section_step _ l (threads s) t _ _ _ _ _ (proj1 Hi) Hm (proj2 (proj2 Hi)) Ht Ho)
      as [(q' & sg & e & th' & Ee & W) _]. destruct s as [q0 th]. eexists _, _. by eapply step_call.
  - intros p. by apply (resume_exists s l).
  - intros b Et. destruct (resume_sect s l t (InGetWithTimeout b) true Hi Et) as [Hm Ho]; [done|].
    assert (Z.of_nat t < max_thread) as Ht by (apply (proj2 (proj2 Hi)); by eexists).
    destruct (section_step _ l (delete t (threads s)) t _ _ _ _ _ (proj1 Hi) Hm (deleted_bound _ _ t Hi) Ht Ho)
      as [(q' & sg & e & th' & Ee & W) _]. destruct s as [q0 th]. eexists _, _. by eapply step_timeout.
Qed.

(** C8. No wake-up is lost.  From every state that a run reaches, the threads that
    were woken take finitely many steps, however they are scheduled; when none is
    left, a thread that still waits in [Get] or [GetWithTimeout] waits for an
    empty queue, and a thread that still waits in [Put] for a full one. *)
Theorem PCQueue_no_lost_wakeups cap q tr s : cap < 2 ^ 63 -> make_queue cap = Ok q -> run (init q) tr s -> bounded tr ->
  sn istep s /\
  forall s', rtc istep s s' -> (forall s'', ~ istep s' s'') -> forall t p, threads s' !! t = Some p ->
    if is_put p then limited (capacity (the_queue s')) = true /\ capacity (the_queue s') <= count (the_queue s')
    else queue_ (the_queue s') = [].
Proof.
  intros Hc E R Hb. destruct (reachable_inv cap q tr s Hc E R Hb) as ([l Hi] & _). split; [by apply (istep_sn s l)|].
  intros s' R' Hst t p Et. destruct (istep_inv s s' l R' Hi) as [l' Hi']. by apply (stuck_reason s' l' t p).
Qed.
End live.

(** A consumer waits on a queue of capacity one; a producer wakes it. *)
Definition demo_queue : ProducerConsumerQueue Z :=
  {| capacity_ := 1; num_waiters_ := 0; waiters := {[ None := {| next := None; prev := None |} ]}; queue_ := []; count_ := 0 |}.
Definition demo_trace : list (label Z * list (event Z)) := [(LCall 1 RqGet, []); (LCall 2 (RqPut 7), [EvPut 7])].
Definition demo_state : state Z :=
  {| the_queue := {| capacity_ := 1; num_waiters_ := 1;
       waiters := <[ None := {| next := Some 1%nat; prev := Some 1%nat |} ]> {[ Some 1%nat := {| next := None; prev := None |} ]};
       queue_ := [7]; count_ := 1 |};
     threads := {[ 1%nat := InGet false ]} |}.

Lemma demo_run `{BuildMode} : make_queue 1 = Ok demo_queue /\ run (init demo_queue) demo_trace demo_state /\ bounded demo_trace.
Proof.
  split; [reflexivity|]. split; [|split; [|reflexivity]].
  - eapply run_cons; [eapply (step_call _ _ 1 RqGet _ [] (Wait (InGet true)))|].
    + reflexivity.
    + vm_compute. reflexivity.
    + constructor.
    + eapply run_cons; [eapply (step_call _ _ 2 (RqPut 7) _ [SigWaiter (Some 1%nat)] (Return RVoid))|].
      * reflexivity.
      * vm_compute. reflexivity.
      * eapply (wake_waiter _ 1 (InGet true)); [reflexivity|constructor].
      * match goal with |- run ?s [] ?s' => replace s with s'; [constructor|] end. vm_compute. reflexivity.
  - repeat constructor.
Qed.

Lemma PCQueue_fifo_witness : puts (concat demo_trace.*2) = gets (concat demo_trace.*2) ++ queue_ (the_queue demo_state).
Proof.
  destruct (demo_run (H := opt_build)) as (E & R & B).
  apply (PCQueue_fifo (H := opt_build) 1 demo_queue demo_trace demo_state); [reflexivity|exact E|exact R|exact B].
Defined.

Lemma PCQueue_safe_witness : exists ev s', step (H := opt_build) demo_state (LResume 1) ev s'.
Proof.
  destruct (demo_run (H := opt_build)) as (E & R & B).
  destruct (PCQueue_safe (H := opt_build) 1 demo_queue demo_trace demo_state 1) as (_ & Hr & _);
    [reflexivity|exact E|exact R|exact B|]. apply (Hr (InGet false)); reflexivity.
Defined.

Lemma PCQueue_no_lost_wakeups_witness : sn (istep (H := opt_build)) demo_state.
Proof.
  destruct (demo_run (H := opt_build)) as (E & R & B).
  apply (PCQueue_no_lost_wakeups (H := opt_build) 1 demo_queue demo_trace demo_state); [reflexivity|exact E|exact R|exact B].
Defined.
