(* ===== verification/PQ.v ===== *)
(** * The adjustable priority queue

    [util/pq/adjustable-heap.h] and [util/pq/adjustable_priority_queue.h]: a binary
    heap of pointers, whose elements know their position.  [P] is the type of the
    pointers, [elems_] the vector, and the heap index that [SetHeapIndex] stores in
    each element is a function, updated point by point; an element that is not in a queue has
    any index.  [lower] is [LowerPriorityThan], which compares the current values
    of two elements.  Positions are below the size of a vector, so the arithmetic
    on them does not wrap.  The proofs are in [PQSpec] and [PQRun]. *)
From Stdlib Require Import ZArith Lia.
From stdpp Require Import base list functions.
From S2P Require Import Prelude.
Local Open Scope nat_scope.

Section heap.
Context {P : Type} `{EqDecision P} `{BuildMode}.

Record heap := { elems_ : list P; index : P -> Z }.

Definition at_ (l : list P) (i : nat) : outcome P :=
  match l !! i with Some x => Ok x | None => UB end.

(** Assignment to a position followed by the call of the [IndexMaintainer]. *)
Definition put_at (h : heap) (i : nat) (x : P) : outcome heap :=
  if decide (i < length (elems_ h)) then
    Ok {| elems_ := <[i := x]> (elems_ h); index := <[x := Z.of_nat i]> (index h) |}
  else UB.

Section adjust.
Variable lower : P -> P -> bool.

Fixpoint AdjustUpwards (fuel : nat) (h : heap) (i : nat) (t : P) : outcome heap :=
  match fuel with
  | O => UB
  | S fuel =>
      if decide (0 < i) then
        let parent := (i - 1) / 2 in
        p ← at_ (elems_ h) parent;
        if negb (lower p t) then put_at h i t
        else h ← put_at h i p; AdjustUpwards fuel h parent t
      else put_at h i t
  end.

Fixpoint AdjustDownwards (fuel : nat) (h : heap) (i len : nat) (t : P) : outcome heap :=
  match fuel with
  | O => UB
  | S fuel =>
      let left_child := 1 + 2 * i in
      if decide (len <= left_child) then put_at h i t
      else
        let right_child := left_child + 1 in
        next_i ← (if decide (right_child < len) then
                    l ← at_ (elems_ h) left_child;
                    r ← at_ (elems_ h) right_child;
                    Ok (if lower l r then right_child else left_child)
                  else Ok left_child);
        x ← at_ (elems_ h) next_i;
        if negb (lower t x) then put_at h i t
        else h ← put_at h i x; AdjustDownwards fuel h next_i len t
  end.

Fixpoint AdjustHoleDownwards (fuel : nat) (h : heap) (i len : nat) : outcome (heap * nat) :=
  match fuel with
  | O => UB
  | S fuel =>
      let left_child := 1 + 2 * i in
      if decide (len <= left_child) then Ok (h, i)
      else
        let right_child := left_child + 1 in
        l ← at_ (elems_ h) left_child;
        if decide (len <= right_child) then h ← put_at h i l; Ok (h, left_child)
        else
          r ← at_ (elems_ h) right_child;
          let next_i := if lower l r then right_child else left_child in
          x ← at_ (elems_ h) next_i;
          h ← put_at h i x;
          AdjustHoleDownwards fuel h next_i len
  end.

(** Each call moves away from where it started, by a level of the heap. *)
Definition heap_fuel (h : heap) : nat := S (length (elems_ h)).

(** ** The queue *)

Definition GetHeapIndex (h : heap) (val : P) : Z := index h val.

(** The use of a [ssize_t] as a position: every loop below reads before the
    vector if it is negative. *)
Definition position (i : Z) : outcome nat := if (i <? 0)%Z then UB else Ok (Z.to_nat i).

Definition Size (h : heap) : nat := length (elems_ h).
Definition IsEmpty (h : heap) : bool := Size h =? 0.
Definition Clear (h : heap) : heap := {| elems_ := []; index := index h |}.
Definition Top (h : heap) : outcome P := at_ (elems_ h) 0.

Definition push_back (h : heap) (x : P) : heap := {| elems_ := elems_ h ++ [x]; index := index h |}.
Definition pop_back (h : heap) : heap := {| elems_ := removelast (elems_ h); index := index h |}.

Definition Add (h : heap) (val : P) : outcome heap :=
  let h := push_back h val in
  let sminus1 := Size h - 1 in
  AdjustUpwards (heap_fuel h) h sminus1 val.

Definition NoteChangedPriority (h : heap) (val : P) : outcome heap :=
  i ← position (GetHeapIndex h val);
  let parent := (i - 1) / 2 in
  up ← (if decide (0 < i) then p ← at_ (elems_ h) parent; Ok (lower p val) else Ok false);
  if (up : bool) then
    p ← at_ (elems_ h) parent;
    h ← put_at h i p;
    AdjustUpwards (heap_fuel h) h parent val
  else AdjustDownwards (heap_fuel h) h i (Size h) val.

Definition Remove (h : heap) (val : P) : outcome heap :=
  match elems_ h with
  | [] => UB
  | _ =>
      let end_ := length (elems_ h) - 1 in
      i ← position (GetHeapIndex h val);
      (if NDEBUG then Ok tt else x ← at_ (elems_ h) i; DCHECK (bool_decide (x = val)));;
      if i =? end_ then Ok (pop_back h)
      else
        x ← at_ (elems_ h) end_;
        h ← put_at h i x;
        let h := pop_back h in
        x ← at_ (elems_ h) i;
        NoteChangedPriority h x
  end.

Definition Pop (h : heap) : outcome heap :=
  let size := length (elems_ h) in
  DCHECK (0 <? size);;
  v ← (if size =? 0 then UB else at_ (elems_ h) (size - 1));
  '(h, i) ← AdjustHoleDownwards (heap_fuel h) h 0 size;
  let h := pop_back h in
  if i + 1 =? size then Ok h else AdjustUpwards (heap_fuel h) h i v.

Definition Contains (h : heap) (val : P) : bool :=
  let i := GetHeapIndex h val in
  (0 <=? i)%Z && (i <? Z.of_nat (length (elems_ h)))%Z &&
  match elems_ h !! Z.to_nat i with Some x => bool_decide (x = val) | None => false end.

(** The search of [AllTop]; [todo] is [need_to_check_children]. *)
Fixpoint AllTop_loop (fuel : nat) (l : list P) (todo : list nat) (topvec : list P) : outcome (list P) :=
  match todo with
  | [] => Ok topvec
  | ind :: todo =>
      match fuel with
      | O => UB
      | S fuel =>
          x ← at_ l ind;
          let topvec := topvec ++ [x] in
          let leftchild := 1 + 2 * ind in
          if decide (leftchild < length l) then
            lc ← at_ l leftchild;
            let todo := if negb (lower lc x) then todo ++ [leftchild] else todo in
            let rightchild := leftchild + 1 in
            push ← (if decide (rightchild < length l) then rc ← at_ l rightchild; Ok (negb (lower rc x)) else Ok false);
            AllTop_loop fuel l (if (push : bool) then todo ++ [rightchild] else todo) topvec
          else AllTop_loop fuel l todo topvec
      end
  end.

Definition AllTop (h : heap) : outcome (list P) :=
  if Size h =? 0 then Ok [] else AllTop_loop (Size h) (elems_ h) [0] [].

Fixpoint CheckValid_loop (n : nat) (l : list P) (i : nat) : outcome unit :=
  match n with
  | O => Ok tt
  | S n =>
      x ← at_ l i;
      let left_child := 1 + 2 * i in
      (if decide (left_child < length l) then c ← at_ l left_child; CHECK (negb (lower x c)) else Ok tt);;
      let right_child := left_child + 1 in
      (if decide (right_child < length l) then c ← at_ l right_child; CHECK (negb (lower x c)) else Ok tt);;
      CheckValid_loop n l (S i)
  end.

Definition CheckValid (h : heap) : outcome unit := CheckValid_loop (length (elems_ h)) (elems_ h) 0.

(** The loop that stores the positions after [std::make_heap] in the constructor
    from a range; [made] is the vector it leaves. *)
Fixpoint set_indices (l : list P) (i : nat) (ix : P -> Z) : P -> Z :=
  match l with
  | [] => ix
  | x :: l => set_indices l (S i) (<[x := Z.of_nat i]> ix)
  end.

Definition make_from_range (make_heap : (P -> P -> bool) -> list P -> list P) (l : list P) (ix : P -> Z) : heap :=
  match l with
  | [] => {| elems_ := []; index := ix |}
  | _ => let made := make_heap lower l in {| elems_ := made; index := set_indices made 0 ix |}
  end.
End adjust.

Definition make_queue (ix : P -> Z) : heap := {| elems_ := []; index := ix |}.
End heap.
Arguments heap : clear implicits.
