(* ===== verification/PQSpec.v ===== *)
(** * The adjustable priority queue: the heap loops and the operations

    Each loop is about the vector in which the hole holds the element to be
    placed; a step of a loop swaps two positions of it.  The loops restore the
    order of the heap, keep the elements and set their positions.

    Every operation keeps [heap_ok] and changes the elements as on a set. *)
From Stdlib Require Import ZArith Lia.
From stdpp Require Import base functions list.
From S2P Require Import Prelude.
From S2P Require Import PQ.
Local Open Scope nat_scope.

(** What the comparison of the source must be: a strict weak order. *)
Class StrictWeakOrder {P : Type} (lower : P -> P -> bool) : Prop := {
  lower_asym : forall a b, lower a b = true -> lower b a = false;
  lower_negtrans : forall a b c, lower a b = false -> lower b c = false -> lower a c = false;
}.

Definition parent (i : nat) : nat := (i - 1) / 2.

Lemma parent_child i j : 0 < j -> parent j = i <-> j = 1 + 2 * i \/ j = 2 + 2 * i.
Proof.
  intros Hj. unfold parent. pose proof (Nat.div_mod_eq (j - 1) 2). pose proof (Nat.mod_upper_bound (j - 1) 2).
  split; [intros <-; lia|]. intros Hc. assert (2 * ((j - 1) / 2) <= j - 1 < 2 * ((j - 1) / 2) + 2) by lia. lia.
Qed.

Lemma parent_lt j : 0 < j -> parent j < j.
Proof. intros Hj. destruct (proj1 (parent_child (parent j) j Hj) eq_refl); lia. Qed.

Section props.
Context {P : Type} `{EqDecision P} `{BuildMode}.
Variable lower : P -> P -> bool.
Context `{!StrictWeakOrder lower}.
Implicit Types (l : list P) (h : heap P) (i j : nat) (t x y : P).

Lemma lower_irrefl x : lower x x = false.
Proof. destruct (lower x x) eqn:E; [|done]. pose proof (lower_asym x x E). congruence. Qed.

(** The element at [i] has at least the priority of the one at [j]. *)
Definition above l i j : Prop := forall x y, l !! i = Some x -> l !! j = Some y -> lower x y = false.

Lemma above_trans l i j k : j < length l -> above l i j -> above l j k -> above l i k.
Proof.
  intros Hj H1 H2 x z Ex Ez. destruct (lookup_lt_is_Some_2 l j Hj) as [y Ey].
  apply (lower_negtrans x y z); [by apply H1|by apply H2].
Qed.

Definition is_heap l : Prop := forall j, 0 < j -> above l (parent j) j.

(** Order but for the edges at [i], whatever it holds; and these edges. *)
Definition heap_hole l i : Prop :=
  (forall j, 0 < j -> parent j <> i -> j <> i -> above l (parent j) j) /\
  (0 < i -> forall j, 0 < j -> parent j = i -> above l (parent i) j).
Definition up_edge l i : Prop := 0 < i -> above l (parent i) i.
Definition down_edges l i : Prop := forall j, 0 < j -> parent j = i -> above l i j.

Lemma heap_edges l i : heap_hole l i -> up_edge l i -> down_edges l i -> is_heap l.
Proof.
  intros [Hh _] Hu Hd j Hj. destruct (decide (j = i)) as [->|Hji]; [by apply Hu|].
  destruct (decide (parent j = i)) as [Hp|Hp]; [|by apply Hh]. rewrite Hp. by apply Hd.
Qed.

Lemma heap_hole_heap l i : i < length l -> is_heap l -> heap_hole l i /\ up_edge l i /\ down_edges l i.
Proof.
  intros Hi Hh. split; [split|split].
  - intros j Hj _ _. by apply Hh.
  - intros Hpos j Hj Hp. apply (above_trans l _ i); [done|by apply Hh|]. rewrite <- Hp. by apply Hh.
  - intros Hpos. by apply Hh.
  - intros j Hj <-. by apply Hh.
Qed.

(** Positions are recorded but for position [i]. *)
Definition indexed_but (ix : P -> Z) l i : Prop := forall j x, l !! j = Some x -> j <> i -> ix x = Z.of_nat j.
Definition indexed (ix : P -> Z) l : Prop := forall j x, l !! j = Some x -> ix x = Z.of_nat j.

(** ** Swapping two positions *)

Definition swap l i j : list P :=
  match l !! i, l !! j with Some x, Some y => <[i := y]> (<[j := x]> l) | _, _ => l end.

Lemma swap_length l i j : length (swap l i j) = length l.
Proof. unfold swap. destruct (l !! i), (l !! j); by rewrite ?length_insert. Qed.

Lemma swap_lookup l i j k : i < length l -> j < length l ->
  swap l i j !! k = if decide (k = i) then l !! j else if decide (k = j) then l !! i else l !! k.
Proof.
  intros Hi Hj. destruct (lookup_lt_is_Some_2 l i Hi) as [x Ex]. destruct (lookup_lt_is_Some_2 l j Hj) as [y Ey].
  unfold swap. rewrite Ex, Ey. destruct (decide (k = i)) as [->|Hki].
  - rewrite list_lookup_insert_eq; [done|by rewrite length_insert].
  - rewrite list_lookup_insert_ne by done. destruct (decide (k = j)) as [->|Hkj].
    + by rewrite list_lookup_insert_eq.
    + by rewrite list_lookup_insert_ne.
Qed.

Lemma swap_perm l i j : i < length l -> j < length l -> swap l i j ≡ₚ l.
Proof.
  intros Hi Hj. destruct (lookup_lt_is_Some_2 l i Hi) as [x Ex]. destruct (lookup_lt_is_Some_2 l j Hj) as [y Ey].
  unfold swap. rewrite Ex, Ey. by apply Permutation_insert_swap.
Qed.

(** The concrete step: [x] moves from [j] to [i], and the hole with [t] to [j]. *)
Lemma hole_step l i j t x : i < length l -> j < length l -> i <> j -> l !! j = Some x ->
  <[j := t]> (<[i := x]> l) = swap (<[i := t]> l) i j.
Proof.
  intros Hi Hj Hij Ex. apply list_eq. intros k. rewrite swap_lookup by (by rewrite length_insert).
  destruct (decide (k = i)) as [->|Hki]; [|destruct (decide (k = j)) as [->|Hkj]].
  - rewrite list_lookup_insert_ne, list_lookup_insert_eq, list_lookup_insert_ne by done. done.
  - rewrite !list_lookup_insert_eq by (by rewrite ?length_insert). done.
  - by rewrite !list_lookup_insert_ne.
Qed.

(** ** The steps keep the order *)

Lemma above_ext l l' i j : l' !! i = l !! i -> l' !! j = l !! j -> above l i j -> above l' i j.
Proof. intros E1 E2 Ha x y. rewrite E1, E2. apply Ha. Qed.

Lemma above_swap_other l a b i j : a < length l -> b < length l -> i <> a -> i <> b -> j <> a -> j <> b ->
  above l i j -> above (swap l a b) i j.
Proof.
  intros Ha Hb Hia Hib Hja Hjb. apply above_ext; rewrite swap_lookup by done; by rewrite !decide_False.
Qed.

Lemma up_step l i : heap_hole l i -> down_edges l i -> 0 < i -> i < length l ->
  (forall x t, l !! parent i = Some x -> l !! i = Some t -> lower x t = true) ->
  heap_hole (swap l i (parent i)) (parent i) /\ down_edges (swap l i (parent i)) (parent i).
Proof.
  intros [Hh He] Hd Hi Hl Hlow. set (p := parent i) in *. assert (p < i) as Hpi by (by apply parent_lt).
  assert (forall k, swap l i p !! k = if decide (k = i) then l !! p else if decide (k = p) then l !! i else l !! k) as HL.
  { intros k. apply swap_lookup; lia. }
  assert (above l i p) as Hip by (intros t x Et Ex; by apply lower_asym, Hlow).
  split; [split|].
  - intros j Hj Hp Hjp. destruct (decide (parent j = i)) as [Hji|Hji].
    + rewrite Hji. assert (j <> i) by (pose proof (parent_lt j Hj); lia).
      intros x y. rewrite !HL, decide_True, !decide_False by done. by apply He.
    + assert (j <> i) by (intros ->; done). apply above_swap_other; try lia. by apply Hh.
  - intros Hpp j Hj Hjp. assert (parent p < p) by (by apply parent_lt).
    assert (above l (parent p) p) as Hgp by (apply Hh; lia).
    intros x y. rewrite !HL, !(decide_False (P := parent p = _)) by lia. destruct (decide (j = i)) as [->|Hji].
    + apply Hgp.
    + rewrite decide_False by (pose proof (parent_lt j Hj); lia). apply (above_trans l _ p); [lia|done|].
      rewrite <- Hjp. apply Hh; lia.
  - intros j Hj Hjp x y. rewrite !HL, (decide_False (P := p = i)), (decide_True (P := p = p)) by lia.
    destruct (decide (j = i)) as [->|Hji]; [apply Hip|].
    rewrite decide_False by (pose proof (parent_lt j Hj); lia). apply (above_trans l _ p); [lia|done|].
    rewrite <- Hjp. apply Hh; lia.
Qed.

Lemma hole_down_step l i n : heap_hole l i -> 0 < n -> parent n = i -> n < length l ->
  (forall j, 0 < j -> parent j = i -> above l n j) -> heap_hole (swap l i n) n.
Proof.
  intros [Hh He] Hn Hpn Hl Hmax. assert (i < n) as Hin by (rewrite <- Hpn; by apply parent_lt).
  assert (forall k, swap l i n !! k = if decide (k = i) then l !! n else if decide (k = n) then l !! i else l !! k) as HL.
  { intros k. apply swap_lookup; lia. }
  split.
  - intros j Hj Hp Hjn. destruct (decide (parent j = i)) as [Hji|Hji]; [|destruct (decide (j = i)) as [->|Hne]].
    + rewrite Hji. assert (j <> i) by (pose proof (parent_lt j Hj); lia).
      intros x y. rewrite !HL, decide_True, !decide_False by done. by apply Hmax.
    + intros x y. pose proof (parent_lt i Hj). rewrite !HL, decide_False, decide_False, decide_True by lia. by apply He.
    + apply above_swap_other; try lia. by apply Hh.
  - intros _ j Hj Hjn x y. pose proof (parent_lt j Hj). rewrite Hpn, !HL, decide_True, !decide_False by lia.
    rewrite <- Hjn at 1. apply Hh; lia.
Qed.

Lemma down_step l i n : 0 < n -> parent n = i -> n < length l ->
  (forall x t, l !! n = Some x -> l !! i = Some t -> lower t x = true) -> up_edge (swap l i n) n.
Proof.
  intros Hn Hpn Hl Hlow _. assert (i < n) as Hin by (rewrite <- Hpn; by apply parent_lt).
  intros x y. rewrite Hpn, !swap_lookup, !(decide_True (P := i = i)), (decide_False (P := n = i)), decide_True by lia.
  intros Ex Ey. by apply lower_asym, Hlow.
Qed.

(** ** Positions *)

Lemma indexed_swap ix l i j x : i < length l -> j < length l -> i <> j -> NoDup l -> l !! j = Some x ->
  indexed_but ix l i -> indexed_but (<[x := Z.of_nat i]> ix) (swap l i j) j.
Proof.
  intros Hi Hj Hij Hnd Ex Hix k y. rewrite swap_lookup by done. destruct (decide (k = i)) as [->|Hki].
  - rewrite Ex. intros [= <-] _. apply fn_lookup_insert.
  - intros Ey Hkj. rewrite decide_False in Ey by done. rewrite fn_lookup_insert_ne; [by apply Hix|].
    intros <-. by destruct (NoDup_lookup l j k x Hnd Ex Ey).
Qed.

Lemma indexed_done ix l i t : l !! i = Some t -> NoDup l -> indexed_but ix l i -> indexed (<[t := Z.of_nat i]> ix) l.
Proof.
  intros Et Hnd Hix j x Ex. destruct (decide (j = i)) as [->|Hji]; [simplify_eq; apply fn_lookup_insert|].
  rewrite fn_lookup_insert_ne; [by apply Hix|]. intros <-. by destruct (NoDup_lookup l i j t Hnd Et Ex).
Qed.

Lemma put_at_ok h i x : i < length (elems_ h) ->
  put_at h i x = Ok {| elems_ := <[i := x]> (elems_ h); index := <[x := Z.of_nat i]> (index h) |}.
Proof. intros Hi. unfold put_at. by rewrite decide_True. Qed.

Lemma at_ok l i x : l !! i = Some x -> at_ l i = Ok x.
Proof. unfold at_. by intros ->. Qed.

(** ** The loops *)

(** A heap whose positions are right. *)
Definition heap_ok h : Prop := is_heap (elems_ h) /\ indexed (index h) (elems_ h) /\ NoDup (elems_ h).

(** [l] with [t] in the hole at [i] of [h]. *)
Definition with_hole h i t l : Prop :=
  l = <[i := t]> (elems_ h) /\ i < length (elems_ h) /\ NoDup l /\ indexed_but (index h) l i.

Lemma with_hole_lookup h i t l j : with_hole h i t l -> l !! j = if decide (j = i) then Some t else elems_ h !! j.
Proof.
  intros (-> & Hi & _). destruct (decide (j = i)) as [->|Hj]; [by apply list_lookup_insert_eq|by rewrite list_lookup_insert_ne].
Qed.

Lemma with_hole_length h i t l : with_hole h i t l -> length l = length (elems_ h).
Proof. intros (-> & _). apply length_insert. Qed.

Lemma with_hole_step h i t l j x : with_hole h i t l -> j < length l -> i <> j -> elems_ h !! j = Some x ->
  exists h', put_at h i x = Ok h' /\ with_hole h' j t (swap l i j) /\ length (elems_ h') = length (elems_ h).
Proof.
  intros Hw Hj Hij Ex. pose proof (with_hole_length _ _ _ _ Hw) as Hlen. pose proof (with_hole_lookup _ _ _ _ j Hw) as El.
  rewrite decide_False, Ex in El by done. destruct Hw as (El' & Hi & Hnd & Hix).
  rewrite put_at_ok by done. eexists. split; [reflexivity|]. cbn. split; [|apply length_insert].
  split; cbn.
  - rewrite El'. symmetry. apply hole_step; [done|congruence|done|done].
  - split; [rewrite length_insert; congruence|]. split; [rewrite swap_perm by congruence; done|].
    apply indexed_swap; try done. congruence.
Qed.

Lemma with_hole_done h i t l : with_hole h i t l -> is_heap l ->
  exists h', put_at h i t = Ok h' /\ heap_ok h' /\ elems_ h' = l.
Proof.
  intros Hw Hh. pose proof (with_hole_lookup _ _ _ _ i Hw) as Et. rewrite decide_True in Et by done.
  destruct Hw as (-> & Hi & Hnd & Hix). rewrite put_at_ok by done. eexists. split; [reflexivity|].
  split; [|done]. split; [done|]. split; [|done]. by apply indexed_done.
Qed.

Lemma AdjustUpwards_spec fuel h i t l : with_hole h i t l -> heap_hole l i -> down_edges l i -> i < fuel ->
  exists h', AdjustUpwards lower fuel h i t = Ok h' /\ heap_ok h' /\ elems_ h' ≡ₚ l.
Proof.
  revert h i l. induction fuel as [|fuel IH]; intros h i l Hw Hh Hd Hf; [lia|]. cbn [AdjustUpwards].
  assert (up_edge l i -> exists h', put_at h i t = Ok h' /\ heap_ok h' /\ elems_ h' ≡ₚ l) as Hdone.
  { intros Hu. destruct (with_hole_done h i t l Hw) as (h' & E & Hok & <-); [by apply (heap_edges l i)|]. by exists h'. }
  destruct (decide (0 < i)) as [Hi|Hi]; [|apply Hdone; intros ?; lia].
  change ((i - 1) / 2) with (parent i). pose proof (parent_lt i Hi) as Hp.
  pose proof (with_hole_length _ _ _ _ Hw) as Hlen. pose proof (proj1 (proj2 Hw)) as Hil.
  destruct (lookup_lt_is_Some_2 (elems_ h) (parent i) ltac:(lia)) as [x Ex]. rewrite (at_ok _ _ _ Ex), bind_Ok.
  pose proof (with_hole_lookup _ _ _ _ (parent i) Hw) as Ep. rewrite decide_False, Ex in Ep by lia.
  pose proof (with_hole_lookup _ _ _ _ i Hw) as Et. rewrite decide_True in Et by done.
  destruct (lower x t) eqn:Elow; cbn [negb].
  - destruct (with_hole_step h i t l (parent i) x Hw ltac:(lia) ltac:(lia) Ex) as (h' & E' & Hw' & Hl').
    rewrite E', bind_Ok. destruct (up_step l i Hh Hd Hi ltac:(lia)) as [Hh' Hd']; [intros; by simplify_eq|].
    destruct (IH h' (parent i) _ Hw' Hh' Hd' ltac:(lia)) as (h2 & E2 & Hok & Hperm). exists h2. split; [done|]. split; [done|].
    rewrite Hperm. apply swap_perm; lia.
  - apply Hdone. intros _ x' t' Ex' Et'. by simplify_eq.
Qed.

(** The larger child of [i]. *)
Lemma larger_child l i n : 1 + 2 * i < length l ->
  ((n = 1 + 2 * i /\ (2 + 2 * i < length l -> above l (1 + 2 * i) (2 + 2 * i))) \/
   (n = 2 + 2 * i /\ 2 + 2 * i < length l /\ above l (2 + 2 * i) (1 + 2 * i))) ->
  0 < n /\ parent n = i /\ n < length l /\ forall j, 0 < j -> parent j = i -> above l n j.
Proof.
  intros Hl Hn. assert (0 < n) as Hpos by lia. split; [done|]. split; [apply parent_child; lia|]. split; [lia|].
  intros j Hj [->| ->]%parent_child; [| |done]; destruct Hn as [[-> Ha]|[-> [Hlt Ha]]]; try done.
  - intros x y Ex Ey. simplify_eq. apply lower_irrefl.
  - intros x y Ex Ey. apply Ha; [by eapply lookup_lt_Some|done|done].
  - intros x y Ex Ey. simplify_eq. apply lower_irrefl.
Qed.

Lemma with_hole_at h i t l j : with_hole h i t l -> j <> i -> j < length l ->
  exists x, elems_ h !! j = Some x /\ l !! j = Some x.
Proof.
  intros Hw Hj Hl. rewrite (with_hole_length _ _ _ _ Hw) in Hl. destruct (lookup_lt_is_Some_2 _ _ Hl) as [x Ex].
  exists x. by rewrite (with_hole_lookup _ _ _ _ j Hw), decide_False.
Qed.

Lemma no_children l i : length l <= 1 + 2 * i -> down_edges l i.
Proof.
  intros Hl j Hj Hp x y _ Ey. apply lookup_lt_Some in Ey. apply parent_child in Hp; lia.
Qed.

Lemma AdjustDownwards_spec fuel h i t l : with_hole h i t l -> heap_hole l i -> up_edge l i ->
  length l < fuel + i ->
  exists h', AdjustDownwards lower fuel h i (length l) t = Ok h' /\ heap_ok h' /\ elems_ h' ≡ₚ l.
Proof.
  revert h i l. induction fuel as [|fuel IH]; intros h i l Hw Hh Hu Hf.
  { pose proof (proj1 (proj2 Hw)). pose proof (with_hole_length _ _ _ _ Hw). lia. }
  cbn [AdjustDownwards].
  assert (down_edges l i -> exists h', put_at h i t = Ok h' /\ heap_ok h' /\ elems_ h' ≡ₚ l) as Hdone.
  { intros Hd. destruct (with_hole_done h i t l Hw) as (h' & E & Hok & <-); [by apply (heap_edges l i)|]. by exists h'. }
  destruct (decide (length l <= 1 + 2 * i)) as [Hle|Hgt]; [by apply Hdone, no_children|].
  replace (1 + 2 * i + 1) with (2 + 2 * i) by lia.
  assert (exists n, (if decide (2 + 2 * i < length l) then
      x ← at_ (elems_ h) (1 + 2 * i); y ← at_ (elems_ h) (2 + 2 * i); Ok (if lower x y then 2 + 2 * i else 1 + 2 * i)
    else Ok (1 + 2 * i)) = Ok n /\ 0 < n /\ parent n = i /\ n < length l /\ forall j, 0 < j -> parent j = i -> above l n j)
    as (n & -> & Hn & Hpn & Hln & Hmax).
  { destruct (with_hole_at h i t l (1 + 2 * i) Hw ltac:(lia) ltac:(lia)) as (x & Ex & Ex').
    destruct (decide (2 + 2 * i < length l)) as [Hr|Hr].
    - destruct (with_hole_at h i t l (2 + 2 * i) Hw ltac:(lia) ltac:(lia)) as (y & Ey & Ey').
      rewrite (at_ok _ _ _ Ex), (at_ok _ _ _ Ey), !bind_Ok. eexists. split; [reflexivity|]. apply larger_child; [lia|].
      destruct (lower x y) eqn:Elow; [right|left]; (split; [done|]).
      + split; [done|]. intros ? ? ? ?. simplify_eq. by apply lower_asym.
      + intros _ ? ? ? ?. by simplify_eq.
    - eexists. split; [reflexivity|]. apply larger_child; [lia|]. left. split; [done|]. intros; lia. }
  rewrite bind_Ok. pose proof (parent_lt n Hn) as Hin. rewrite Hpn in Hin.
  destruct (with_hole_at h i t l n Hw ltac:(lia) Hln) as (x & Ex & Ex'). rewrite (at_ok _ _ _ Ex), bind_Ok.
  pose proof (with_hole_lookup _ _ _ _ i Hw) as Et. rewrite decide_True in Et by done.
  destruct (lower t x) eqn:Elow; cbn [negb].
  - destruct (with_hole_step h i t l n x Hw Hln ltac:(lia) Ex) as (h' & E' & Hw' & Hl'). rewrite E', bind_Ok.
    rewrite <- (swap_length l i n). pose proof (proj1 (proj2 Hw)). pose proof (with_hole_length _ _ _ _ Hw).
    destruct (IH h' n (swap l i n) Hw') as (h2 & E2 & Hok & Hperm).
    + by apply hole_down_step.
    + apply down_step; [done..|]. intros; by simplify_eq.
    + rewrite swap_length. lia.
    + exists h2. split; [done|]. split; [done|]. rewrite Hperm. apply swap_perm; lia.
  - apply Hdone. intros j Hj Hp. intros t' y Et' Ey. simplify_eq. apply (lower_negtrans _ x); [done|].
    by apply (Hmax j Hj Hp).
Qed.

(** The hole sinks to a leaf; the value [t] it stands for goes with it, and the
    other leaves stay. *)
Lemma AdjustHoleDownwards_spec fuel h i t l : with_hole h i t l -> heap_hole l i -> length l < fuel + i ->
  exists h' i' l', AdjustHoleDownwards lower fuel h i (length l) = Ok (h', i') /\ with_hole h' i' t l' /\
    heap_hole l' i' /\ length l <= 1 + 2 * i' /\ l' ≡ₚ l /\
    (length l <= 1 + 2 * i -> i' = i) /\
    forall k, length l <= 1 + 2 * k -> k <> i' -> k <> i -> l' !! k = l !! k.
Proof.
  revert h i l. induction fuel as [|fuel IH]; intros h i l Hw Hh Hf.
  { pose proof (proj1 (proj2 Hw)). pose proof (with_hole_length _ _ _ _ Hw). lia. }
  cbn [AdjustHoleDownwards]. pose proof (proj1 (proj2 Hw)) as Hi. pose proof (with_hole_length _ _ _ _ Hw) as Hlen.
  destruct (decide (length l <= 1 + 2 * i)) as [Hle|Hgt]; [by exists h, i, l|].
  destruct (with_hole_at h i t l (1 + 2 * i) Hw ltac:(lia) ltac:(lia)) as (x & Ex & Ex').
  rewrite (at_ok _ _ _ Ex), bind_Ok. replace (1 + 2 * i + 1) with (2 + 2 * i) by lia.
  destruct (decide (length l <= 2 + 2 * i)) as [Hr|Hr].
  - destruct (with_hole_step h i t l (1 + 2 * i) x Hw ltac:(lia) ltac:(lia) Ex) as (h' & E' & Hw' & Hl').
    rewrite E', bind_Ok. exists h', (1 + 2 * i), (swap l i (1 + 2 * i)). split; [done|]. split; [done|]. split.
    + assert (parent (1 + 2 * i) = i) by (apply parent_child; lia).
      destruct (larger_child l i (1 + 2 * i)) as (? & ? & ? & ?); [lia|left; split; [done|intros; lia]|].
      by apply hole_down_step.
    + split; [lia|]. split; [apply swap_perm; lia|]. split; [lia|]. intros k _ Hk1 Hk2. rewrite swap_lookup by lia. by rewrite !decide_False.
  - destruct (with_hole_at h i t l (2 + 2 * i) Hw ltac:(lia) ltac:(lia)) as (y & Ey & Ey').
    rewrite (at_ok _ _ _ Ey), bind_Ok. set (n := if lower x y then 2 + 2 * i else 1 + 2 * i).
    assert (0 < n /\ parent n = i /\ n < length l /\ forall j, 0 < j -> parent j = i -> above l n j) as (Hn & Hpn & Hln & Hmax).
    { apply larger_child; [lia|]. unfold n. destruct (lower x y) eqn:Elow; [right|left]; (split; [done|]).
      - split; [lia|]. intros ? ? ? ?. simplify_eq. by apply lower_asym.
      - intros _ ? ? ? ?. by simplify_eq. }
    pose proof (parent_lt n Hn) as Hin. rewrite Hpn in Hin.
    destruct (with_hole_at h i t l n Hw ltac:(lia) Hln) as (z & Ez & Ez'). rewrite (at_ok _ _ _ Ez), bind_Ok.
    destruct (with_hole_step h i t l n z Hw Hln ltac:(lia) Ez) as (h' & E' & Hw' & Hl'). rewrite E', bind_Ok.
    rewrite <- (swap_length l i n). destruct (IH h' n (swap l i n) Hw') as (h2 & i2 & l2 & E2 & Hw2 & Hh2 & Hleaf & Hperm & Hsame & Hk).
    + by apply hole_down_step.
    + rewrite swap_length. lia.
    + exists h2, i2, l2. split; [done|]. split; [done|]. split; [done|]. split; [done|]. split.
      * rewrite Hperm. apply swap_perm; lia.
      * split; [intros; rewrite swap_length in *; lia|]. rewrite swap_length in *. intros k Hkl Hk1 Hk2.
        assert (k <> n) as Hkn by (intros ->; by rewrite Hsame in Hk1).
        rewrite Hk by done. rewrite swap_lookup by lia. by rewrite !decide_False.
Qed.
End props.

Section spec.
Context {P : Type} `{EqDecision P} `{BuildMode}.
Variable lower : P -> P -> bool.
Context `{!StrictWeakOrder lower}.
Implicit Types (l : list P) (h : heap P) (i j : nat) (t x y : P).

Lemma DCHECK_ok b : b = true -> DCHECK b = Ok tt.
Proof. intros ->. unfold DCHECK. by rewrite orb_true_r. Qed.

(** ** Prefixes *)

Lemma above_take l k i j : above lower l i j -> above lower (take k l) i j.
Proof. intros Ha x y Ex Ey. apply lookup_take_Some in Ex as [Ex _], Ey as [Ey _]. by apply Ha. Qed.

Lemma heap_take l k : is_heap lower l -> is_heap lower (take k l).
Proof. intros Hh j Hj. by apply above_take, Hh. Qed.

Lemma hole_take l k i : heap_hole lower l i -> heap_hole lower (take k l) i.
Proof.
  intros [H1 H2]. split; [intros j Hj Hp Hn; by apply above_take, H1|].
  intros Hi j Hj Hp. by apply above_take, H2.
Qed.

Lemma indexed_take ix l k : indexed ix l -> indexed ix (take k l).
Proof. intros Hix j x Ex. apply lookup_take_Some in Ex as [Ex _]. by apply Hix. Qed.

Lemma NoDup_take l k : NoDup l -> NoDup (take k l).
Proof. rewrite <- (take_drop k l) at 1. intros Hnd. by apply NoDup_app in Hnd as (? & _ & _). Qed.

Lemma removelast_take l : removelast l = take (length l - 1) l.
Proof. rewrite removelast_firstn_len. f_equal. lia. Qed.

(** Only the order around the hole matters, not its value. *)
Lemma hole_value l l' i : (forall j, j <> i -> l' !! j = l !! j) -> heap_hole lower l i -> heap_hole lower l' i.
Proof.
  intros He [H1 H2]. split.
  - intros j Hj Hp Hn x y. rewrite !He by done. by apply H1.
  - intros Hi j Hj Hp x y. pose proof (parent_lt j Hj). pose proof (parent_lt i Hi). rewrite !He by lia. by apply H2.
Qed.

(** The element at [i] goes to the end. *)
Lemma swap_last l i x : i < length l -> l !! i = Some x ->
  swap l i (length l - 1) = take (length l - 1) (swap l i (length l - 1)) ++ [x].
Proof.
  intros Hi Ex. rewrite <- (take_drop (length l - 1) (swap l i (length l - 1))) at 1. f_equal.
  apply list_eq. intros [|k].
  - rewrite lookup_drop, Nat.add_0_r, swap_lookup by lia. destruct (decide (length l - 1 = i)) as [<-|]; [done|].
    by rewrite decide_True.
  - rewrite lookup_drop. cbn. apply lookup_ge_None. rewrite swap_length. lia.
Qed.

Lemma swap_take l i j : i < length l -> j <> i ->
  take (length l - 1) (swap l i (length l - 1)) !! j = take (length l - 1) l !! j.
Proof.
  intros Hi Hj. destruct (decide (j < length l - 1)) as [Hl|Hl].
  - rewrite !lookup_take_lt, swap_lookup by lia. by rewrite !decide_False by lia.
  - rewrite !lookup_take_ge by lia. done.
Qed.

(** ** Adding *)

Lemma Add_spec h x : heap_ok lower h -> x ∉ elems_ h ->
  exists h', Add lower h x = Ok h' /\ heap_ok lower h' /\ elems_ h' ≡ₚ x :: elems_ h.
Proof.
  intros (Hh & Hix & Hnd) Hx. set (n := length (elems_ h)).
  assert (with_hole (push_back h x) n x (elems_ h ++ [x])) as Hw.
  { split; [|split; [|split]]; cbn.
    - symmetry. apply list_insert_id. by rewrite list_lookup_middle.
    - rewrite length_app. cbn. lia.
    - rewrite <- Permutation_cons_append. by constructor.
    - intros j y Ey Hj. apply lookup_app_Some in Ey as [Ey|[Hle Ey]]; [by apply Hix|].
      apply list_lookup_singleton_Some in Ey as [? _]. lia. }
  unfold Add, Size. cbn [push_back elems_]. rewrite length_app. cbn [length]. replace (length (elems_ h) + 1 - 1) with n by lia.
  destruct (AdjustUpwards_spec lower (heap_fuel (push_back h x)) (push_back h x) n x _ Hw) as (h' & E & Hok & Hp).
  - assert (forall j y, (elems_ h ++ [x]) !! j = Some y -> j <> n -> elems_ h !! j = Some y) as Hold.
    { intros j y Ey Hj. apply lookup_app_Some in Ey as [Ey|[Hle Ey]]; [done|].
      apply list_lookup_singleton_Some in Ey as [? _]. lia. }
    split.
    + intros j Hj Hp Hn a b Ea Eb. apply (Hh j Hj a b); by apply Hold.
    + intros Hn j Hj Hp a b Ea Eb. apply lookup_lt_Some in Eb. rewrite length_app in Eb. cbn in Eb.
      pose proof (parent_lt j Hj). lia.
  - apply no_children. rewrite length_app. cbn. lia.
  - unfold heap_fuel. cbn. rewrite length_app. cbn. lia.
  - exists h'. split; [done|]. split; [done|]. etrans; [exact Hp|]. symmetry. apply Permutation_cons_append.
Qed.

(** ** A changed priority *)

Lemma with_hole_self h i x : elems_ h !! i = Some x -> NoDup (elems_ h) -> indexed (index h) (elems_ h) ->
  with_hole h i x (elems_ h).
Proof.
  intros Ex Hnd Hix. split; [symmetry; by apply list_insert_id|]. split; [by eapply lookup_lt_Some|].
  split; [done|]. intros j y Ey _. by apply Hix.
Qed.

Lemma Note_spec h i x : elems_ h !! i = Some x -> NoDup (elems_ h) -> indexed (index h) (elems_ h) ->
  heap_hole lower (elems_ h) i ->
  exists h', NoteChangedPriority lower h x = Ok h' /\ heap_ok lower h' /\ elems_ h' ≡ₚ elems_ h.
Proof.
  intros Ex Hnd Hix Hh. pose proof (with_hole_self h i x Ex Hnd Hix) as Hw. pose proof (lookup_lt_Some _ _ _ Ex) as Hi.
  unfold NoteChangedPriority, GetHeapIndex, position. rewrite (Hix i x Ex).
  rewrite (proj2 (Z.ltb_ge _ _)), bind_Ok, Nat2Z.id by lia.
  assert (up_edge lower (elems_ h) i -> exists h', AdjustDownwards lower (heap_fuel h) h i (Size h) x = Ok h' /\
    heap_ok lower h' /\ elems_ h' ≡ₚ elems_ h) as Hdown.
  { intros Hu. apply AdjustDownwards_spec; [done..|]. unfold heap_fuel. lia. }
  change ((i - 1) / 2) with (parent i). destruct (decide (0 < i)) as [Hpos|Hz]; [|rewrite bind_Ok; apply Hdown; intros ?; lia].
  pose proof (parent_lt i Hpos) as Hp. destruct (lookup_lt_is_Some_2 (elems_ h) (parent i) ltac:(lia)) as [p Ep].
  rewrite (at_ok _ _ _ Ep), !bind_Ok. destruct (lower p x) eqn:Elow.
  - destruct (with_hole_step h i x _ (parent i) p Hw ltac:(lia) ltac:(lia) Ep) as (h' & E' & Hw' & Hl').
    rewrite E', bind_Ok. destruct (up_step lower (elems_ h) i Hh) as [Hh' Hd']; [|done|done|intros; by simplify_eq|].
    { intros j Hj Hpj. apply (above_trans lower _ _ (parent i)); [lia| |by apply Hh].
      intros a b Ea Eb. simplify_eq. by apply lower_asym. }
    destruct (AdjustUpwards_spec lower (heap_fuel h') h' (parent i) x _ Hw' Hh' Hd') as (h2 & E2 & Hok & Hperm).
    { unfold heap_fuel. lia. }
    exists h2. split; [done|]. split; [done|]. rewrite Hperm. apply swap_perm; lia.
  - apply Hdown. intros _ a b Ea Eb. by simplify_eq.
Qed.

(** ** Removing *)

Lemma pop_last_ok h : heap_ok lower h -> heap_ok lower (pop_back h).
Proof.
  intros (Hh & Hix & Hnd). unfold pop_back. split; [|split]; cbn; rewrite removelast_take.
  - by apply heap_take.
  - by apply indexed_take.
  - by apply NoDup_take.
Qed.

Lemma Remove_spec h x : heap_ok lower h -> x ∈ elems_ h ->
  exists h', Remove lower h x = Ok h' /\ heap_ok lower h' /\ x :: elems_ h' ≡ₚ elems_ h.
Proof.
  intros Hok [i Ei]%list_elem_of_lookup. pose proof Hok as (Hh & Hix & Hnd). pose proof (lookup_lt_Some _ _ _ Ei) as Hi.
  unfold Remove. destruct (elems_ h) as [|a l0] eqn:El; [done|]. rewrite <- El in *. clear a l0 El.
  unfold GetHeapIndex, position. rewrite (Hix i x Ei), (proj2 (Z.ltb_ge _ _)), bind_Ok, Nat2Z.id by lia.
  assert ((if NDEBUG then Ok tt else y ← at_ (elems_ h) i; DCHECK (bool_decide (y = x))) = Ok tt) as ->.
  { destruct NDEBUG eqn:En; [done|]. rewrite (at_ok _ _ _ Ei), bind_Ok, bool_decide_eq_true_2 by done.
    unfold DCHECK. by rewrite orb_true_r. }
  rewrite bind_Ok. set (n := length (elems_ h)) in *. pose proof (swap_last (elems_ h) i x Hi Ei) as Hsw. fold n in Hsw.
  destruct (Nat.eqb_spec i (n - 1)) as [->|Hne].
  - exists (pop_back h). split; [done|]. split; [by apply pop_last_ok|]. cbn. rewrite removelast_take.
    assert (swap (elems_ h) (n - 1) (n - 1) = elems_ h) as Hs.
    { unfold swap. rewrite Ei. rewrite list_insert_insert_eq. by apply list_insert_id. }
    rewrite Hs in Hsw. fold n. etrans; [apply Permutation_cons_append|]. by rewrite <- Hsw.
  - destruct (lookup_lt_is_Some_2 (elems_ h) (n - 1) ltac:(lia)) as [v Ev]. rewrite (at_ok _ _ _ Ev), bind_Ok.
    rewrite put_at_ok, bind_Ok by done.
    set (h1 := pop_back _).
    assert (elems_ h1 = take (n - 1) (swap (elems_ h) i (n - 1))) as E1.
    { cbn. rewrite removelast_take, length_insert. unfold swap. rewrite Ei, Ev. rewrite list_insert_insert_ne by done.
      fold n. by rewrite (take_insert_ge _ (n - 1) (n - 1)) by lia. }
    assert (elems_ h1 !! i = Some v) as Ei1.
    { rewrite E1, lookup_take_lt, swap_lookup, decide_True by lia. done. }
    rewrite (at_ok _ _ _ Ei1), bind_Ok.
    assert (NoDup (swap (elems_ h) i (n - 1))) as Hnd' by (by rewrite swap_perm by lia).
    destruct (Note_spec h1 i v Ei1) as (h' & E' & Hok' & Hp').
    + rewrite E1. by apply NoDup_take.
    + intros j y Ey. rewrite E1 in Ey. apply lookup_take_Some in Ey as [Ey Hj]. rewrite swap_lookup in Ey by lia.
      cbn. destruct (decide (j = i)) as [->|Hji]; [simplify_eq; apply fn_lookup_insert|].
      rewrite decide_False in Ey by lia. rewrite fn_lookup_insert_ne; [by apply Hix|].
      intros <-. pose proof (NoDup_lookup _ _ _ _ Hnd Ev Ey). lia.
    + rewrite E1. apply (hole_value (take (n - 1) (elems_ h))).
      * intros j Hj. by apply swap_take.
      * apply hole_take. by apply heap_hole_heap.
    + exists h'. split; [done|]. split; [done|]. rewrite Hp', E1.
      etrans; [apply Permutation_cons_append|]. rewrite <- Hsw. apply swap_perm; lia.
Qed.

(** The vector without its last element, when that is the hole. *)
Lemma pop_hole_last h i t l : with_hole h i t l -> heap_hole lower l i -> i + 1 = length l ->
  heap_ok lower (pop_back h) /\ t :: elems_ (pop_back h) ≡ₚ l.
Proof.
  intros Hw Hh Hi. pose proof (with_hole_length _ _ _ _ Hw) as Hl. pose proof (fun j => with_hole_lookup _ _ _ _ j Hw) as Hlook.
  destruct Hw as (_ & _ & Hnd & Hix). assert (l !! i = Some t) as Et by (by rewrite Hlook, decide_True).
  assert (elems_ (pop_back h) = take i l) as Ep.
  { cbn. rewrite removelast_take, <- Hl. replace (length l - 1) with i by lia. apply list_eq. intros j.
    destruct (decide (j < i)) as [Hj|Hj]; [|by rewrite !lookup_take_ge by lia].
    rewrite !lookup_take_lt, Hlook, decide_False by lia. done. }
  split; [split; [|split]|]; rewrite Ep.
  - intros j Hj a b Ea Eb. apply lookup_take_Some in Ea as [Ea _], Eb as [Eb Hji]. pose proof (parent_lt j Hj).
    by apply (proj1 Hh j Hj ltac:(lia) ltac:(lia)).
  - intros j y Ey. apply lookup_take_Some in Ey as [Ey Hj]. apply Hix; [done|lia].
  - by apply NoDup_take.
  - etrans; [apply Permutation_cons_append|]. rewrite <- (take_drop_middle l i t Et) at 2.
    rewrite drop_ge by lia. done.
Qed.

(** When it is another leaf, the last element fills it. *)
Lemma pop_hole_inner h i t l v : with_hole h i t l -> heap_hole lower l i -> length l <= 1 + 2 * i -> i + 1 < length l ->
  l !! (length l - 1) = Some v ->
  exists h', AdjustUpwards lower (heap_fuel (pop_back h)) (pop_back h) i v = Ok h' /\ heap_ok lower h' /\
    t :: elems_ h' ≡ₚ l.
Proof.
  intros Hw Hh Hleaf Hi Ev. pose proof (with_hole_length _ _ _ _ Hw) as Hl.
  pose proof (fun j => with_hole_lookup _ _ _ _ j Hw) as Hlook. destruct Hw as (_ & _ & Hnd & Hix).
  assert (l !! i = Some t) as Et by (by rewrite Hlook, decide_True). set (n := length l) in *.
  pose proof (swap_last l i t ltac:(lia) Et) as Hsw. pose proof (fun j Hj => swap_take l i j ltac:(lia) Hj) as Htake.
  fold n in Hsw, Htake. set (l' := take (n - 1) (swap l i (n - 1))) in *.
  assert (with_hole (pop_back h) i v l') as Hw'.
  { split; [|split; [|split]]; cbn; rewrite ?removelast_take, <- ?Hl.
    - apply list_eq. intros j. destruct (decide (j = i)) as [->|Hj].
      + unfold l'. rewrite lookup_take_lt, swap_lookup, decide_True by lia.
        rewrite list_lookup_insert_eq; [done|]. rewrite length_take. lia.
      + rewrite list_lookup_insert_ne, Htake by done. destruct (decide (j < n - 1)) as [Hjn|Hjn].
        * rewrite !lookup_take_lt, Hlook, decide_False by done. done.
        * by rewrite !lookup_take_ge by lia.
    - rewrite length_take. lia.
    - apply NoDup_take. by rewrite swap_perm by lia.
    - intros j y Ey Hj. rewrite Htake in Ey by done. apply lookup_take_Some in Ey as [Ey _]. by apply Hix. }
  destruct (AdjustUpwards_spec lower (heap_fuel (pop_back h)) (pop_back h) i v _ Hw') as (h' & E' & Hok & Hp').
  - apply (hole_value (take (n - 1) l)); [by apply Htake|]. by apply hole_take.
  - apply no_children. unfold l'. rewrite length_take, swap_length. lia.
  - unfold heap_fuel. cbn. rewrite removelast_take, length_take. lia.
  - exists h'. split; [done|]. split; [done|]. rewrite Hp'. etrans; [apply Permutation_cons_append|].
    rewrite <- Hsw. apply swap_perm; lia.
Qed.

Lemma Pop_spec h t l0 : heap_ok lower h -> elems_ h = t :: l0 ->
  exists h', Pop lower h = Ok h' /\ heap_ok lower h' /\ t :: elems_ h' ≡ₚ elems_ h.
Proof.
  intros (Hh & Hix & Hnd) El. set (n := length (elems_ h)). assert (0 < n) as Hn by (unfold n; rewrite El; cbn; lia).
  assert (elems_ h !! 0 = Some t) as E0 by (by rewrite El).
  pose proof (with_hole_self h 0 t E0 Hnd Hix) as Hw.
  unfold Pop. fold n. rewrite (proj2 (Nat.ltb_lt _ _)), (DCHECK_ok true), bind_Ok by done.
  destruct (lookup_lt_is_Some_2 (elems_ h) (n - 1) ltac:(lia)) as [v Ev].
  rewrite (proj2 (Nat.eqb_neq _ _)), (at_ok _ _ _ Ev), bind_Ok by lia.
  destruct (AdjustHoleDownwards_spec lower (heap_fuel h) h 0 t (elems_ h) Hw) as (h1 & i & l & E1 & Hw1 & Hh1 & Hleaf & Hp & _ & Hk).
  { by apply heap_hole_heap. }
  { unfold heap_fuel. lia. }
  fold n in E1, Hleaf, Hk. rewrite E1, bind_Ok. assert (length l = n) as Hln by (by rewrite Hp).
  pose proof (proj1 (proj2 Hw1)) as Hi. rewrite <- (with_hole_length _ _ _ _ Hw1), Hln in Hi.
  destruct (Nat.eqb_spec (i + 1) n) as [Hlast|Hinner].
  - destruct (pop_hole_last h1 i t l Hw1 Hh1 ltac:(lia)) as [Hok Hperm]. exists (pop_back h1). by rewrite <- Hp.
  - destruct (pop_hole_inner h1 i t l v Hw1 Hh1 ltac:(lia) ltac:(lia)) as (h' & E' & Hok & Hperm).
    + rewrite Hln, Hk by lia. done.
    + exists h'. by rewrite <- Hp.
Qed.

(** ** Reading *)

Lemma top_max l t : is_heap lower l -> l !! 0 = Some t -> forall i x, l !! i = Some x -> lower t x = false.
Proof.
  intros Hh Et i. induction (lt_wf i) as [i _ IH]. intros x Ex. destruct (decide (0 < i)) as [Hi|Hi].
  - pose proof (parent_lt i Hi) as Hp. pose proof (lookup_lt_Some _ _ _ Ex).
    destruct (lookup_lt_is_Some_2 l (parent i) ltac:(lia)) as [p Ep].
    apply (lower_negtrans t p x); [by apply (IH (parent i))|by apply (Hh i Hi)].
  - assert (i = 0) as -> by lia. simplify_eq. by apply (lower_irrefl lower).
Qed.

Lemma Contains_spec h x : indexed (index h) (elems_ h) -> Contains h x = bool_decide (x ∈ elems_ h).
Proof.
  intros Hix. unfold Contains, GetHeapIndex. apply eq_bool_prop_intro. rewrite bool_decide_spec, !andb_True. split.
  - intros [[H1 H2] H3]. apply Is_true_true in H1, H2. apply Z.leb_le in H1. apply Z.ltb_lt in H2.
    destruct (elems_ h !! Z.to_nat (index h x)) as [y|] eqn:E; [|done]. apply bool_decide_spec in H3 as ->.
    by apply list_elem_of_lookup_2 in E.
  - intros [i Ei]%list_elem_of_lookup. rewrite (Hix i x Ei), Nat2Z.id, Ei. pose proof (lookup_lt_Some _ _ _ Ei).
    split; [split; apply Is_true_true; [apply Z.leb_le|apply Z.ltb_lt]; lia|]. by apply bool_decide_spec.
Qed.
End spec.
