(* ===== verification/PQRun.v ===== *)
(** * The adjustable priority queue: searches and scripts of operations

    [AllTop] finds exactly the elements tied with the top, [CheckValid] accepts
    exactly the heaps, and the constructor from a range makes a queue.  A client that
    respects the preconditions of [adjustable_priority_queue.h] gets a priority queue:
    every operation returns and has its effect on the set of elements. *)
From Stdlib Require Import ZArith Lia.
From stdpp Require Import base functions list relations.
From stdpp Require Import base functions list relations sorting.
From S2P Require Import Prelude.
From S2P Require Import PQ.
From S2P Require Import PQSpec.
Local Open Scope nat_scope.

Section search.
Context {P : Type} `{EqDecision P}.
Variable lower : P -> P -> bool.
Context `{!StrictWeakOrder lower}.
Implicit Types (l : list P) (h : heap P) (i j : nat) (t x y : P).

(** ** [AllTop] *)

Definition child (a b : nat) : Prop := 0 < b /\ parent b = a.

(** The children of [ind] that are not below it. *)
Definition tie l ind c : bool :=
  match l !! ind, l !! c with Some x, Some y => negb (lower y x) | _, _ => false end.
Definition tied_children l ind : list nat := filter (fun c => tie l ind c = true) [1 + 2 * ind; 2 + 2 * ind].

Lemma elem_of_tied_children l ind c : c ∈ tied_children l ind <-> child ind c /\ tie l ind c = true.
Proof.
  unfold tied_children, child. rewrite list_elem_of_filter, elem_of_cons, list_elem_of_singleton. split.
  - intros [Ht Hc]. split; [|done]. split; [lia|]. apply parent_child; lia.
  - intros [[Hc Hp] Ht]. split; [done|]. by apply parent_child.
Qed.

Lemma tied_children_nodup l ind : NoDup (tied_children l ind).
Proof. apply NoDup_filter. repeat constructor; rewrite ?list_elem_of_singleton; [lia|apply not_elem_of_nil]. Qed.

Lemma AllTop_unfold fuel l ind x todo top : l !! ind = Some x ->
  AllTop_loop lower (S fuel) l (ind :: todo) top = AllTop_loop lower fuel l (todo ++ tied_children l ind) (top ++ [x]).
Proof.
  intros Ex. cbn [AllTop_loop]. rewrite (at_ok _ _ _ Ex), bind_Ok. replace (1 + 2 * ind + 1) with (2 + 2 * ind) by lia.
  unfold tied_children, tie. rewrite Ex. rewrite !filter_cons, filter_nil.
  destruct (decide (1 + 2 * ind < length l)) as [Hl|Hl].
  - destruct (lookup_lt_is_Some_2 l _ Hl) as [y Ey]. rewrite (at_ok _ _ _ Ey), bind_Ok, Ey.
    destruct (decide (2 + 2 * ind < length l)) as [Hr|Hr].
    + destruct (lookup_lt_is_Some_2 l _ Hr) as [z Ez]. rewrite (at_ok _ _ _ Ez), !bind_Ok, Ez.
      destruct (lower y x), (lower z x); cbn; by rewrite <- ?app_assoc, ?app_nil_r.
    + rewrite bind_Ok, (lookup_ge_None_2 l (2 + 2 * ind)) by lia. destruct (lower y x); cbn; by rewrite ?app_nil_r.
  - rewrite !lookup_ge_None_2 by lia. cbn. by rewrite app_nil_r.
Qed.

Definition tied l t i : Prop := exists x, l !! i = Some x /\ lower x t = false.

(** Ancestors of a tied element are tied. *)
Lemma heap_rtc l a i : is_heap lower l -> rtc child a i -> i < length l -> a <= i /\ above lower l a i.
Proof.
  intros Hh R Hi. induction R as [a|a c i [Hc Hp] R IH].
  - split; [done|]. intros x y Ex Ey. simplify_eq. by apply (lower_irrefl lower).
  - destruct (IH Hi) as [Hle Ha]. pose proof (parent_lt c Hc). split; [lia|].
    apply (above_trans lower l a c i); [lia| |done]. rewrite <- Hp. by apply Hh.
Qed.

Lemma tied_up l t a i : is_heap lower l -> rtc child a i -> tied l t i -> tied l t a.
Proof.
  intros Hh R (x & Ex & Hx). pose proof (lookup_lt_Some _ _ _ Ex) as Hi. destruct (heap_rtc l a i Hh R Hi) as [Hle Ha].
  destruct (lookup_lt_is_Some_2 l a ltac:(lia)) as [y Ey]. exists y. split; [done|].
  apply (lower_negtrans y x t); [by apply Ha|done].
Qed.

Lemma tie_tied l t a c : is_heap lower l -> l !! 0 = Some t -> tied l t a -> tie l a c = true <-> tied l t c.
Proof.
  intros Hh Et (x & Ex & Hx). unfold tie, tied. rewrite Ex. destruct (l !! c) as [y|] eqn:Ey.
  - rewrite negb_true_iff. split.
    + intros Hyx. exists y. split; [done|]. by apply (lower_negtrans y x t).
    + intros (y' & [= <-] & Hy). apply (lower_negtrans y t x); [done|]. by apply (top_max lower l t Hh Et a).
  - split; [done|]. by intros (? & ? & _).
Qed.

(** The invariant of the search: [D] are the positions visited. *)
Record searched l t (D todo : list nat) (top : list P) : Prop := {
  se_vals : Forall2 (fun i x => l !! i = Some x) D top;
  se_nodup : NoDup (D ++ todo);
  se_tied : forall i, i ∈ D ++ todo -> tied l t i;
  se_all : forall i, tied l t i -> i ∈ D \/ exists a, a ∈ todo /\ rtc child a i;
  se_parent : forall i, i ∈ D ++ todo -> 0 < i -> parent i ∈ D;
}.

Lemma searched_step l t D ind todo top x : is_heap lower l -> l !! 0 = Some t -> l !! ind = Some x ->
  searched l t D (ind :: todo) top -> searched l t (D ++ [ind]) (todo ++ tied_children l ind) (top ++ [x]).
Proof.
  intros Hh Et Ex [Hv Hnd Ht Ha Hp].
  assert (tied l t ind) as Hind by (apply Ht, elem_of_app; right; left).
  assert (forall i, i ∈ (D ++ [ind]) ++ todo ++ tied_children l ind <-> i ∈ D ++ ind :: todo \/ i ∈ tied_children l ind) as Hmem.
  { intros i. rewrite !elem_of_app, list_elem_of_singleton, elem_of_cons. tauto. }
  split.
  - apply Forall2_app; [done|]. by repeat constructor.
  - rewrite app_assoc. apply NoDup_app. split; [by rewrite <- app_assoc|]. split; [|apply tied_children_nodup].
    intros c Hc Hc'. rewrite <- app_assoc in Hc. apply elem_of_tied_children in Hc' as [[Hpos Hpc] _].
    specialize (Hp c Hc Hpos). rewrite Hpc in Hp. apply NoDup_app in Hnd as (_ & Hd & _). apply (Hd ind Hp). left.
  - intros i Hi. apply Hmem in Hi as [Hi|Hi]; [by apply Ht|].
    apply elem_of_tied_children in Hi as [_ Hi]. by apply (tie_tied l t ind i Hh Et Hind).
  - intros i Hi. destruct (Ha i Hi) as [HD|(a & Hin & R)]; [left; apply elem_of_app; by left|].
    apply elem_of_cons in Hin as [->|Hin]; [|right; exists a; split; [apply elem_of_app; by left|done]].
    apply rtc_inv in R as [<-|(c & Hc & R)]; [left; apply elem_of_app; right; left|].
    right. exists c. split; [|done]. apply elem_of_app. right. apply elem_of_tied_children. split; [done|].
    apply (tie_tied l t ind c Hh Et Hind). by apply (tied_up l t c i).
  - intros i Hi Hpos. apply Hmem in Hi as [Hi|Hi]; [apply elem_of_app; left; by apply Hp|].
    apply elem_of_tied_children in Hi as [[_ ->] _]. apply elem_of_app. right. left.
Qed.

Lemma AllTop_loop_spec l t fuel D todo top : is_heap lower l -> l !! 0 = Some t -> searched l t D todo top ->
  length l <= fuel + length D ->
  exists top' D', AllTop_loop lower fuel l todo top = Ok top' /\ searched l t D' [] top'.
Proof.
  intros Hh Et. revert D todo top. induction fuel as [|fuel IH]; intros D todo top Hs Hf.
  all: destruct todo as [|ind todo]; [by exists top, D|].
  all: assert (tied l t ind) as (x & Ex & _) by (apply (se_tied _ _ _ _ _ Hs), elem_of_app; right; left).
  - exfalso. assert (length (D ++ ind :: todo) <= length l) as Hle.
    { rewrite <- (length_seq (length l) 0). apply submseteq_length, NoDup_submseteq; [by apply (se_nodup _ _ _ _ _ Hs)|].
      intros i Hi. destruct (se_tied _ _ _ _ _ Hs i Hi) as (y & Ey & _). apply lookup_lt_Some in Ey. apply elem_of_seq. lia. }
    rewrite length_app in Hle. cbn in Hle. lia.
  - rewrite (AllTop_unfold fuel l ind x) by done.
    apply (IH (D ++ [ind])); [by apply searched_step|]. rewrite length_app. cbn. lia.
Qed.

Lemma AllTop_spec h t l0 : heap_ok lower h -> elems_ h = t :: l0 ->
  exists top, AllTop lower h = Ok top /\ NoDup top /\ forall x, x ∈ top <-> x ∈ elems_ h /\ lower x t = false.
Proof.
  intros (Hh & _ & Hnd) El. assert (elems_ h !! 0 = Some t) as Et by (by rewrite El).
  unfold AllTop, Size. rewrite (proj2 (Nat.eqb_neq _ _)) by (rewrite El; cbn; lia).
  destruct (AllTop_loop_spec (elems_ h) t (length (elems_ h)) [] [0] [] Hh Et) as (top & D & E & Hs); [|lia|].
  - split; cbn.
    + constructor.
    + apply NoDup_singleton.
    + intros i ->%list_elem_of_singleton. exists t. split; [done|]. by apply (lower_irrefl lower).
    + intros i Hi. right. exists 0. split; [left|]. clear Hi. induction (lt_wf i) as [i _ IH].
      destruct (decide (0 < i)) as [Hp|Hp]; [|assert (i = 0) as -> by lia; constructor].
      eapply rtc_r; [apply IH, parent_lt, Hp|]. done.
    + intros i ->%list_elem_of_singleton. lia.
  - exists top. split; [done|]. destruct Hs as [Hv Hn Ht Ha _]. rewrite app_nil_r in *. split.
    + apply NoDup_alt. intros i j x Ei Ej. apply (Forall2_lookup_r _ _ _ _ _ Hv) in Ei as (a & Ea & Exa).
      apply (Forall2_lookup_r _ _ _ _ _ Hv) in Ej as (b & Eb & Exb).
      pose proof (NoDup_lookup _ _ _ _ Hnd Exa Exb). subst b. by apply (NoDup_lookup _ _ _ _ Hn Ea Eb).
    + intros x. split.
      * intros [k Ek]%list_elem_of_lookup. apply (Forall2_lookup_r _ _ _ _ _ Hv) in Ek as (a & Ea & Exa).
        apply list_elem_of_lookup_2 in Ea. destruct (Ht a Ea) as (x' & Ex' & Hx). simplify_eq.
        split; [by apply list_elem_of_lookup_2 in Exa|done].
      * intros [[i Ei]%list_elem_of_lookup Hx]. destruct (Ha i) as [Hi|(a & Hin & _)]; [by exists x|
          |by apply not_elem_of_nil in Hin].
        apply list_elem_of_lookup in Hi as [k Ek]. destruct (Forall2_lookup_l _ _ _ _ _ Hv Ek) as (y & Ey & Exy).
        simplify_eq. by apply list_elem_of_lookup_2 in Ey.
Qed.

(** ** [CheckValid] *)

Lemma CheckValid_loop_spec l n i : i + n = length l ->
  CheckValid_loop lower n l i = Ok tt <-> forall j, i <= parent j -> 0 < j -> above lower l (parent j) j.
Proof.
  revert i. induction n as [|n IH]; intros i Hn.
  { split; [|done]. intros _ j Hp Hj x y Ex Ey. apply lookup_lt_Some in Ex. lia. }
  cbn [CheckValid_loop]. destruct (lookup_lt_is_Some_2 l i ltac:(lia)) as [x Ex]. rewrite (at_ok _ _ _ Ex), bind_Ok.
  replace (1 + 2 * i + 1) with (2 + 2 * i) by lia.
  assert (forall c (k : outcome unit), ((if decide (c < length l) then y ← at_ l c; CHECK (negb (lower x y)) else Ok tt);; k) = Ok tt <->
    above lower l i c /\ k = Ok tt) as Hc.
  { intros c k. destruct (decide (c < length l)) as [Hl|Hl].
    - destruct (lookup_lt_is_Some_2 l c Hl) as [y Ey]. rewrite (at_ok _ _ _ Ey), bind_Ok. unfold CHECK.
      destruct (lower x y) eqn:E; cbn.
      + split; [done|]. intros [Ha _]. specialize (Ha x y Ex Ey). congruence.
      + split; [intros Hk|intros [_ Hk]; done]. split; [|done]. intros a b Ea Eb. by simplify_eq.
    - cbn. split; [intros Hk|intros [_ Hk]; done]. split; [|done]. intros a b _ Eb. apply lookup_lt_Some in Eb. lia. }
  rewrite !Hc, IH by lia. split.
  - intros (H1 & H2 & Hr) j Hp Hj. destruct (decide (parent j = i)) as [Hji|Hji]; [|apply Hr; lia].
    rewrite Hji. by apply parent_child in Hji as [->| ->].
  - intros Ha. split; [|split].
    + specialize (Ha (1 + 2 * i)). rewrite (proj2 (parent_child i (1 + 2 * i) ltac:(lia))) in Ha by lia. apply Ha; lia.
    + specialize (Ha (2 + 2 * i)). rewrite (proj2 (parent_child i (2 + 2 * i) ltac:(lia))) in Ha by lia. apply Ha; lia.
    + intros j Hp Hj. apply Ha; lia.
Qed.

Lemma CheckValid_spec h : CheckValid lower h = Ok tt <-> is_heap lower (elems_ h).
Proof.
  unfold CheckValid. rewrite CheckValid_loop_spec by done. split; intros Ha j; [intros Hj; apply Ha; lia|intros _ Hj; by apply Ha].
Qed.

(** ** The constructor from a range *)

Lemma set_indices_spec l i ix : NoDup l ->
  (forall j x, l !! j = Some x -> set_indices l i ix x = Z.of_nat (i + j)) /\
  (forall x, x ∉ l -> set_indices l i ix x = ix x).
Proof.
  revert i ix. induction l as [|a l IH]; intros i ix Hnd; [done|]. apply NoDup_cons in Hnd as [Ha Hnd]. cbn [set_indices].
  destruct (IH (S i) (<[a := Z.of_nat i]> ix) Hnd) as [H1 H2]. split.
  - intros [|j] x; cbn.
    + intros [= <-]. rewrite H2, fn_lookup_insert by done. by rewrite Nat.add_0_r.
    + intros Ex. rewrite (H1 j x Ex). f_equal. lia.
  - intros x [Hx Hxl]%not_elem_of_cons. rewrite H2 by done. by rewrite fn_lookup_insert_ne.
Qed.

(** What [std::make_heap] promises. *)
Definition makes_heaps (make_heap : (P -> P -> bool) -> list P -> list P) : Prop :=
  forall l, make_heap lower l ≡ₚ l /\ is_heap lower (make_heap lower l).

Lemma make_from_range_spec make_heap l ix : makes_heaps make_heap -> NoDup l ->
  heap_ok lower (make_from_range lower make_heap l ix) /\ elems_ (make_from_range lower make_heap l ix) ≡ₚ l.
Proof.
  intros Hm Hnd. unfold make_from_range. destruct l as [|a l].
  { split; [|done]. split; [|split]; cbn; [|done|constructor]. intros j Hj x y Ex. done. }
  destruct (Hm (a :: l)) as [Hp Hh]. split; [|done]. split; [done|]. cbn.
  assert (NoDup (make_heap lower (a :: l))) as Hnd' by (by rewrite Hp). split; [|done].
  intros j x Ex. by apply (set_indices_spec _ 0 ix Hnd').
Qed.
End search.

Section run.
Context {P V : Type} `{EqDecision P} `{BuildMode}.
(** [c_], on the values of elements; [val] is what the elements hold. *)
Variable less : V -> V -> bool.
Context `{!StrictWeakOrder less}.
Implicit Types (val : P -> V) (h : heap P) (l : list P) (p x y : P).

Definition lower_of val p q : bool := less (val p) (val q).

#[local] Instance lower_of_order val : StrictWeakOrder (lower_of val).
Proof. unfold lower_of. split; intros *; [apply (lower_asym (lower := less))|apply (lower_negtrans (lower := less))]. Qed.

(** [OWrite] changes an element outside the queue, [OChange] one inside, with the
    call that is due. *)
Inductive op :=
| OAdd (p : P) | ORemove (p : P) | OPop | OChange (p : P) (v : V) | OWrite (p : P) (v : V)
| OTop | OAllTop | OContains (p : P) | OSize | OIsEmpty | OClear | OCheckValid.

Inductive obs := RVoid | RElem (p : P) | RElems (l : list P) | RBool (b : bool) | RSize (n : nat).

Definition exec h val (o : op) : outcome (heap P * (P -> V) * obs) :=
  match o with
  | OAdd p => h ← Add (lower_of val) h p; Ok (h, val, RVoid)
  | ORemove p => h ← Remove (lower_of val) h p; Ok (h, val, RVoid)
  | OPop => h ← Pop (lower_of val) h; Ok (h, val, RVoid)
  | OChange p v =>
      let val := <[p := v]> val in
      h ← NoteChangedPriority (lower_of val) h p; Ok (h, val, RVoid)
  | OWrite p v => Ok (h, <[p := v]> val, RVoid)
  | OTop => x ← Top h; Ok (h, val, RElem x)
  | OAllTop => l ← AllTop (lower_of val) h; Ok (h, val, RElems l)
  | OContains p => Ok (h, val, RBool (Contains h p))
  | OSize => Ok (h, val, RSize (Size h))
  | OIsEmpty => Ok (h, val, RBool (IsEmpty h))
  | OClear => Ok (Clear h, val, RVoid)
  | OCheckValid => CheckValid (lower_of val) h;; Ok (h, val, RVoid)
  end.

(** What the client must not do. *)
Definition pre l (o : op) : Prop :=
  match o with
  | OAdd p | OWrite p _ => p ∉ l
  | ORemove p | OChange p _ => p ∈ l
  | OPop | OTop => l <> []
  | _ => True
  end.

(** No element has more priority than [x]. *)
Definition maximal val l x : Prop := x ∈ l /\ forall y, y ∈ l -> less (val x) (val y) = false.

Definition effect l val (o : op) (r : obs) l' val' : Prop :=
  match o with
  | OAdd p => l' ≡ₚ p :: l /\ val' = val
  | ORemove p => p :: l' ≡ₚ l /\ val' = val
  | OPop => val' = val /\ exists x, head l = Some x /\ maximal val l x /\ x :: l' ≡ₚ l
  | OChange p v => l' ≡ₚ l /\ val' = <[p := v]> val
  | OWrite p v => l' = l /\ val' = <[p := v]> val
  | OTop => l' = l /\ val' = val /\ exists x, r = RElem x /\ head l = Some x /\ maximal val l x
  | OAllTop => l' = l /\ val' = val /\ exists top, r = RElems top /\ NoDup top /\ forall x, x ∈ top <-> maximal val l x
  | OContains p => l' = l /\ val' = val /\ r = RBool (bool_decide (p ∈ l))
  | OSize => l' = l /\ val' = val /\ r = RSize (length l)
  | OIsEmpty => l' = l /\ val' = val /\ r = RBool (bool_decide (l = []))
  | OClear => l' = [] /\ val' = val
  | OCheckValid => l' = l /\ val' = val
  end.

(** As long as the preconditions hold, every operation returns with its effect. *)
Fixpoint meets h val (os : list op) : Prop :=
  match os with
  | [] => True
  | o :: os => pre (elems_ h) o -> exists h' val' r,
      exec h val o = Ok (h', val', r) /\ effect (elems_ h) val o r (elems_ h') val' /\ meets h' val' os
  end.

(** ** Priorities that change *)

Lemma lower_of_other val p v x y : x <> p -> y <> p -> lower_of (<[p := v]> val) x y = lower_of val x y.
Proof. intros Hx Hy. unfold lower_of. by rewrite !fn_lookup_insert_ne. Qed.

Lemma above_other val p v l i j : (forall x, l !! i = Some x -> x <> p) -> (forall x, l !! j = Some x -> x <> p) ->
  above (lower_of val) l i j -> above (lower_of (<[p := v]> val)) l i j.
Proof. intros Hi Hj Ha x y Ex Ey. rewrite lower_of_other; [by apply Ha|by apply Hi|by apply Hj]. Qed.

Lemma hole_change val p v l i : is_heap (lower_of val) l -> NoDup l -> l !! i = Some p ->
  heap_hole (lower_of (<[p := v]> val)) l i.
Proof.
  intros Hh Hnd Ei. assert (forall j x, j <> i -> l !! j = Some x -> x <> p) as Hne.
  { intros j x Hj Ex ->. by apply Hj, (NoDup_lookup l j i p). }
  pose proof (lookup_lt_Some _ _ _ Ei) as Hi. destruct (heap_hole_heap (lower_of val) l i Hi Hh) as ([H1 H2] & _ & _). split.
  - intros j Hj Hp Hn. apply above_other; [by intros x; apply Hne|by intros x; apply Hne|]. by apply H1.
  - intros Hpos j Hj Hp. pose proof (parent_lt i Hpos). pose proof (parent_lt j Hj).
    apply above_other; [intros x; apply Hne; lia|intros x; apply Hne; lia|]. by apply H2.
Qed.

Lemma heap_write val p v l : is_heap (lower_of val) l -> p ∉ l -> is_heap (lower_of (<[p := v]> val)) l.
Proof.
  intros Hh Hp j Hj. apply above_other; [| |by apply Hh]; intros x Ex ->; by apply list_elem_of_lookup_2 in Ex.
Qed.

Lemma head_maximal val h x : heap_ok (lower_of val) h -> head (elems_ h) = Some x -> maximal val (elems_ h) x.
Proof.
  intros (Hh & _ & _) Ex. destruct (elems_ h) as [|a l] eqn:El; [done|]. injection Ex as ->. split; [left|].
  intros y [i Ei]%list_elem_of_lookup. by apply (top_max (lower_of val) (x :: l) x Hh eq_refl i).
Qed.

Lemma tied_maximal val h t l0 x : heap_ok (lower_of val) h -> elems_ h = t :: l0 ->
  x ∈ elems_ h /\ lower_of val x t = false <-> maximal val (elems_ h) x.
Proof.
  intros Hok El. pose proof (head_maximal val h t Hok ltac:(by rewrite El)) as [Ht Hm]. split.
  - intros [Hx Hxt]. split; [done|]. intros y Hy. by apply (lower_negtrans (val x) (val t)); [|apply Hm].
  - intros [Hx Hxm]. split; [done|]. by apply Hxm.
Qed.

(** One operation. *)
Lemma exec_spec h val o : heap_ok (lower_of val) h -> pre (elems_ h) o -> exists h' val' r,
  exec h val o = Ok (h', val', r) /\ effect (elems_ h) val o r (elems_ h') val' /\ heap_ok (lower_of val') h'.
Proof.
  intros Hok Hpre. pose proof Hok as (Hh & Hix & Hnd).
  destruct o as [p|p| |p v|p v| | |p| | | |]; cbn [exec pre effect] in *.
  - destruct (Add_spec (lower_of val) h p Hok Hpre) as (h' & -> & Hok' & Hp). by eexists _, _, _.
  - destruct (Remove_spec (lower_of val) h p Hok Hpre) as (h' & -> & Hok' & Hp). by eexists _, _, _.
  - destruct (elems_ h) as [|x l0] eqn:El; [done|].
    destruct (Pop_spec (lower_of val) h x l0 Hok El) as (h' & -> & Hok' & Hp). eexists _, _, _. split; [reflexivity|].
    split; [|done]. split; [done|]. exists x. split; [done|]. rewrite <- El. split; [|done].
    apply head_maximal; [done|by rewrite El].
  - apply list_elem_of_lookup in Hpre as [i Ei].
    destruct (Note_spec (lower_of (<[p := v]> val)) h i p Ei Hnd Hix) as (h' & -> & Hok' & Hp); [by apply hole_change|].
    by eexists _, _, _.
  - eexists _, _, _. split; [reflexivity|]. split; [done|]. split; [by apply heap_write|done].
  - destruct (elems_ h) as [|x l0] eqn:El; [done|]. unfold Top. rewrite El. cbn. eexists _, _, _. split; [reflexivity|].
    rewrite El. split; [|done]. split; [done|]. split; [done|]. exists x. split; [done|]. split; [done|]. rewrite <- El.
    apply head_maximal; [done|by rewrite El].
  - destruct (elems_ h) as [|x l0] eqn:El.
    + unfold AllTop, Size. rewrite El. cbn. eexists _, _, _. split; [reflexivity|]. rewrite El. split; [|done].
      split; [done|]. split; [done|]. exists []. split; [done|]. split; [constructor|]. intros y. split; [by intros ?%not_elem_of_nil|].
      by intros [? _].
    + destruct (AllTop_spec (lower_of val) h x l0 Hok El) as (top & -> & Hn & Ht). eexists _, _, _. split; [reflexivity|].
      rewrite El. split; [|done]. split; [done|]. split; [done|]. exists top. split; [done|]. split; [done|].
      intros y. rewrite Ht, (tied_maximal val h x l0 y Hok El). by rewrite El.
  - eexists _, _, _. split; [reflexivity|]. split; [|done]. split; [done|]. split; [done|]. f_equal. by apply Contains_spec.
  - by eexists _, _, _.
  - eexists _, _, _. split; [reflexivity|]. split; [|done]. split; [done|]. split; [done|]. f_equal. unfold IsEmpty, Size.
    by destruct (elems_ h).
  - eexists _, _, _. split; [reflexivity|]. split; [done|]. cbn. split; [|split]; cbn; [|done|constructor]. intros j Hj x y Ex. done.
  - rewrite (proj2 (CheckValid_spec (lower_of val) h)) by done. by eexists _, _, _.
Qed.

Lemma meets_ok h val os : heap_ok (lower_of val) h -> meets h val os.
Proof.
  revert h val. induction os as [|o os IH]; intros h val Hok; [done|]. cbn. intros Hpre.
  destruct (exec_spec h val o Hok Hpre) as (h' & val' & r & E & He & Hok'). exists h', val', r.
  split; [done|]. split; [done|]. by apply IH.
Qed.

(** C6. The queue is a priority queue.  For every strict weak order on the values
    of the elements, every script of operations on a queue that was made empty or
    from a range, and whatever index the elements held before: as long as the
    client adds only elements that are absent, removes and changes only elements
    that are present, and asks for the top of a queue that is not empty, every
    operation returns, without a failed check or an access outside the vector.
    [Add], [Remove] and [Pop] change the elements as they should, [Top] (which
    [Pop] removes) is an element of the greatest priority, [AllTop] gives all of
    them, once each, [Contains] is right for every element, and [CheckValid]
    passes. *)
Theorem AdjustablePriorityQueue_spec val ix os l make_heap : makes_heaps (lower_of val) make_heap -> NoDup l ->
  meets (make_queue ix) val os /\ meets (make_from_range (lower_of val) make_heap l ix) val os.
Proof.
  intros Hm Hnd. split; apply meets_ok.
  - split; [|split]; cbn; [|done|constructor]. intros j Hj x y Ex. done.
  - by apply make_from_range_spec.
Qed.
End run.

(** ** A heap from sorting *)

Definition not_lower {P} (lower : P -> P -> bool) (a b : P) : Prop := lower a b = false.
#[global] Instance not_lower_dec {P} (lower : P -> P -> bool) (a b : P) : Decision (not_lower lower a b).
Proof. unfold not_lower. apply _. Defined.

Lemma sorted_heap {P} (lower : P -> P -> bool) l :
  StronglySorted (not_lower lower) l -> is_heap lower l.
Proof.
  intros Hs j Hj x y Ex Ey. pose proof (parent_lt j Hj) as Hp. revert Ex Ey. generalize dependent (parent j).
  revert j Hj. induction Hs as [|a l Hs IH Ha]; intros j Hj i Hij Ei Ej; [done|].
  destruct i as [|i], j as [|j]; try lia; cbn in *.
  - injection Ei as ->. rewrite Forall_forall in Ha. apply Ha. by apply list_elem_of_lookup_2 in Ej.
  - destruct j as [|j]; [lia|]. by apply (IH (S j) ltac:(lia) i ltac:(lia)).
Qed.

Definition sort_heap {P} (lower : P -> P -> bool) (l : list P) : list P :=
  merge_sort (not_lower lower) l.

Lemma sort_heap_ok {P} (lower : P -> P -> bool) `{!StrictWeakOrder lower} : makes_heaps lower sort_heap.
Proof.
  intros l. split; [apply merge_sort_Permutation|]. apply sorted_heap. apply Sorted_StronglySorted.
  - intros a b c. unfold not_lower. apply lower_negtrans.
  - apply Sorted_merge_sort. intros a b. unfold not_lower. destruct (lower a b) eqn:E; [right|by left]. by apply lower_asym.
Qed.

#[global] Instance ltb_order : StrictWeakOrder Z.ltb.
Proof. split; intros *; rewrite ?Z.ltb_lt, ?Z.ltb_ge; lia. Qed.

Lemma AdjustablePriorityQueue_spec_witness :
  meets (H := opt_build) Z.ltb (make_queue (fun _ : nat => 0%Z)) (fun p : nat => Z.of_nat p)
    [OAdd 3; OAdd 5; OChange 3 9%Z; OPop; OAllTop] /\
  meets (H := opt_build) Z.ltb (make_from_range (lower_of Z.ltb (fun p : nat => Z.of_nat p)) sort_heap [1; 2] (fun _ => 0%Z))
    (fun p : nat => Z.of_nat p) [OAdd 3; OAdd 5; OChange 3 9%Z; OPop; OAllTop].
Proof.
  apply (AdjustablePriorityQueue_spec (H := opt_build) Z.ltb).
  - apply sort_heap_ok. split; intros *; unfold lower_of; rewrite ?Z.ltb_lt, ?Z.ltb_ge; lia.
  - apply (bool_decide_unpack _). reflexivity.
Defined.
