(* ===== verification/CircularBuffer.v ===== *)
(** * Circular buffers: gloop/util/gtl/circularbuffer.h

    A [CircularBuffer] is the record of its members; [space_] is the address of a
    block of [capacity_] slots in a heap, 0 is [nullptr].  A slot is [None] while
    it is raw storage and [Some v] while it holds an object: constructing on an
    object, destroying, reading or assigning raw storage, and freeing a block that
    still holds objects or with a wrong size are [UB], so that a theorem that a
    function returns also shows that every object is destroyed once and every
    block freed once, with an allocator equal to the one it came from.  What moving
    from a value leaves behind is [moved].  An iterator is its [pos_]; the buffer it
    belongs to is passed along.  [size_t] has 64 bits. *)
From Stdlib Require Import ZArith Lia.
From stdpp Require Import base list numbers option gmap fin_maps.
From S2P Require Import Prelude.
Local Open Scope Z_scope.

Abbreviation block T := (list (option T)).
Abbreviation slots T := (gmap Z (block T)).

(** [std::allocator_traits<allocator_type>].  An allocator is the number of the
    resource it takes memory from; [owner p] is the one that block [p] comes from.
    Two allocators are equal when the resources are, or always.  [max_size] objects at
    most are allocated, at a new address; the memory does not run out below that.
    Moving from an allocator leaves it as it was. *)
Class SlotAllocator (T : Type) := {
  max_size : Z;
  allocate : slots T -> Z -> Z -> Z;
  owner : Z -> Z;
  is_always_equal : bool;
  propagate_on_container_copy_assignment : bool;
  propagate_on_container_move_assignment : bool;
  propagate_on_container_swap : bool;
  select_on_container_copy_construction : Z -> Z;
  default_allocator : Z;
  max_size_range : 0 <= max_size < 2 ^ 63;
  allocate_pos : forall h a n, 0 < allocate h a n;
  allocate_fresh : forall h a n, h !! allocate h a n = None;
  allocate_owner : forall h a n, owner (allocate h a n) = a;
}.

Record CircularBuffer := {
  allocator_ : Z;
  capacity_ : Z;
  begin_ : Z;
  size_ : Z;
  space_ : Z;
}.

Section circularbuffer.
Context {T : Type} `{SlotAllocator T} `{BuildMode}.
(** [hardened]: [ABSL_HARDENING_ASSERT] also checks in [NDEBUG] builds. *)
Context (hardened : bool) (moved : T -> T).
Implicit Types (h : slots T) (cb o : CircularBuffer) (v : T).

Definition HARDENING_CHECK (b : bool) : outcome unit := if hardened || negb NDEBUG then CHECK b else Ok tt.

Definition set_begin cb b := {| allocator_ := allocator_ cb; capacity_ := capacity_ cb; begin_ := b; size_ := size_ cb; space_ := space_ cb |}.
Definition set_size cb n := {| allocator_ := allocator_ cb; capacity_ := capacity_ cb; begin_ := begin_ cb; size_ := n; space_ := space_ cb |}.

(** ** Storage *)

Definition slot h (p i : Z) : outcome (option T) :=
  match h !! p with
  | Some b => if i <? 0 then UB else match b !! Z.to_nat i with Some s => Ok s | None => UB end
  | None => UB
  end.
Definition set_slot h (p i : Z) (s : option T) : slots T := alter (fun b => <[Z.to_nat i := s]> b) p h.

Definition Construct h (p i : Z) v : outcome (slots T) :=
  s ← slot h p i; match s with None => Ok (set_slot h p i (Some v)) | Some _ => UB end.
Definition Destroy h (p i : Z) : outcome (slots T) :=
  s ← slot h p i; match s with Some _ => Ok (set_slot h p i None) | None => UB end.
(** [space_[i]] and [space_[i] = v]. *)
Definition at_absolute h (p i : Z) : outcome T :=
  s ← slot h p i; match s with Some v => Ok v | None => UB end.
Definition assign h (p i : Z) v : outcome (slots T) :=
  s ← slot h p i; match s with Some _ => Ok (set_slot h p i (Some v)) | None => UB end.

Definition raw (s : option T) : bool := match s with None => true | Some _ => false end.

(** [operator==] of allocators. *)
Definition allocator_eqb (a b : Z) : bool := is_always_equal || (a =? b).

Definition Allocate h (a n : Z) : outcome (slots T * Z) :=
  if n =? 0 then Ok (h, 0)
  else if max_size <? n then Crash
  else let p := allocate h a n in Ok (<[p := replicate (Z.to_nat n) None]> h, p).

Definition Deallocate h (a p n : Z) : outcome (slots T) :=
  HARDENING_CHECK (Bool.eqb (p =? 0) (n =? 0));;
  if p =? 0 then Ok h
  else match h !! p with
       | Some b =>
           if allocator_eqb (owner p) a && (zlen b =? n) && forallb raw b then Ok (delete p h)
           else UB
       | None => UB
       end.

(** ** Positions *)

Definition get_allocator cb : Z := allocator_ cb.
Definition size cb : Z := size_ cb.
Definition capacity cb : Z := capacity_ cb.
Definition empty cb : bool := size_ cb =? 0.
Definition full cb : bool := size_ cb =? capacity_ cb.

Definition logical_to_absolute cb (logical : Z) : outcome Z :=
  HARDENING_CHECK (logical <? size_ cb);;
  let absolute := u64 (begin_ cb + logical) in
  let absolute := if capacity_ cb <=? absolute then u64 (absolute - capacity_ cb) else absolute in
  HARDENING_CHECK (absolute <? capacity_ cb);;
  Ok absolute.

Definition absolute_to_logical cb (absolute : Z) : outcome Z :=
  HARDENING_CHECK (absolute <? capacity_ cb);;
  let logical := u64 (capacity_ cb - begin_ cb + absolute) in
  let logical := if capacity_ cb <=? logical then u64 (logical - capacity_ cb) else logical in
  HARDENING_CHECK (logical <=? capacity_ cb);;
  Ok logical.

Definition nextpos cb (absolute : Z) : outcome Z :=
  CHECK (absolute <? capacity_ cb);;
  let absolute := u64 (absolute + 1) in
  Ok (if absolute =? capacity_ cb then 0 else absolute).

Definition prevpos cb (absolute : Z) : outcome Z :=
  CHECK (absolute <? capacity_ cb);;
  let absolute := if absolute =? 0 then u64 (absolute + capacity_ cb) else absolute in
  Ok (u64 (absolute - 1)).

(** ** Iterators *)

Definition kEnd : Z := 2 ^ 64 - 1.
Definition make_iterator cb (pos : Z) : Z := if empty cb then kEnd else pos.
Definition begin cb : Z := make_iterator cb (begin_ cb).
Definition end_ cb : Z := kEnd.

Definition logical_pos cb (pos : Z) : outcome Z :=
  if pos =? kEnd then Ok (size cb) else absolute_to_logical cb pos.
Definition Incr cb (pos n : Z) : outcome Z :=
  l ← logical_pos cb pos;
  let logical := u64 (l + n) in
  CHECK (logical <=? size cb);;
  if logical =? size cb then Ok kEnd else logical_to_absolute cb logical.
Definition Subtract cb (a b : Z) : outcome Z :=
  la ← logical_pos cb a; lb ← logical_pos cb b; Ok (s64 la - s64 lb).
Definition Deref h cb (pos : Z) : outcome T := at_absolute h (space_ cb) pos.

(** ** Element access *)

Definition front h cb : outcome T := at_absolute h (space_ cb) (begin_ cb).
Definition back h cb : outcome T :=
  i ← logical_to_absolute cb (u64 (size_ cb - 1)); at_absolute h (space_ cb) i.
Definition at_ h cb (pos : Z) : outcome T :=
  let logical := u64 (pos + (if pos <? 0 then size_ cb else 0)) in
  HARDENING_CHECK (logical <? size_ cb);;
  i ← logical_to_absolute cb logical; at_absolute h (space_ cb) i.
(** [operator[]], whose argument is a [size_t]. *)
Definition index h cb (pos : Z) : outcome T := at_ h cb (s64 pos).

(** ** Modifiers *)

Definition PushFrontInternal h cb v : outcome (slots T * CircularBuffer) :=
  DCHECK (negb (capacity_ cb =? 0));;
  b ← prevpos cb (begin_ cb);
  let cb := set_begin cb b in
  if full cb then h ← assign h (space_ cb) (begin_ cb) v; Ok (h, cb)
  else
    let cb := set_size cb (u64 (size_ cb + 1)) in
    h ← Construct h (space_ cb) (begin_ cb) v; Ok (h, cb).

Definition PushBackInternal h cb v : outcome (slots T * CircularBuffer) :=
  DCHECK (negb (capacity_ cb =? 0));;
  if full cb then
    h ← assign h (space_ cb) (begin_ cb) v;
    b ← nextpos cb (begin_ cb);
    Ok (h, set_begin cb b)
  else
    let cb := set_size cb (u64 (size_ cb + 1)) in
    i ← logical_to_absolute cb (u64 (size_ cb - 1));
    h ← Construct h (space_ cb) i v; Ok (h, cb).

Definition push_front := PushFrontInternal.
Definition push_back := PushBackInternal.

(** [v] is the object that the arguments make. *)
Definition emplace_front h cb v : outcome (slots T * CircularBuffer) :=
  DCHECK (negb (capacity_ cb =? 0));;
  b ← prevpos cb (begin_ cb);
  let cb := set_begin cb b in
  '(h, cb) ← (if full cb then h ← Destroy h (space_ cb) (begin_ cb); Ok (h, cb)
              else Ok (h, set_size cb (u64 (size_ cb + 1))));
  h ← Construct h (space_ cb) (begin_ cb) v; Ok (h, cb).

Definition emplace_back h cb v : outcome (slots T * CircularBuffer) :=
  DCHECK (negb (capacity_ cb =? 0));;
  if full cb then
    h ← Destroy h (space_ cb) (begin_ cb);
    h ← Construct h (space_ cb) (begin_ cb) v;
    b ← nextpos cb (begin_ cb);
    Ok (h, set_begin cb b)
  else
    let cb := set_size cb (u64 (size_ cb + 1)) in
    i ← logical_to_absolute cb (u64 (size_ cb - 1));
    h ← Construct h (space_ cb) i v; Ok (h, cb).

Definition pop_front h cb : outcome (slots T * CircularBuffer) :=
  CHECK (0 <? size_ cb);;
  h ← Destroy h (space_ cb) (begin_ cb);
  b ← nextpos cb (begin_ cb);
  Ok (h, set_size (set_begin cb b) (u64 (size_ cb - 1))).

Definition pop_back h cb : outcome (slots T * CircularBuffer) :=
  CHECK (0 <? size_ cb);;
  i ← logical_to_absolute cb (u64 (size_ cb - 1));
  h ← Destroy h (space_ cb) i;
  Ok (h, set_size cb (u64 (size_ cb - 1))).

(** The loop of [clear], from position [i] with [n] elements left. *)
Fixpoint clear_loop (n : nat) h cb (i : Z) : outcome (slots T) :=
  match n with
  | O => Ok h
  | S n =>
      a ← logical_to_absolute cb i;
      h ← Destroy h (space_ cb) a;
      clear_loop n h cb (u64 (i + 1))
  end.
Definition clear h cb : outcome (slots T * CircularBuffer) :=
  h ← clear_loop (Z.to_nat (size_ cb)) h cb 0;
  Ok (h, set_size (set_begin cb 0) 0).

(** ** Construction, assignment and destruction *)

Definition make h (c a : Z) : outcome (slots T * CircularBuffer) :=
  '(h, p) ← Allocate h a c;
  Ok (h, {| allocator_ := a; capacity_ := c; begin_ := 0; size_ := 0; space_ := p |}).
Definition make_default h : outcome (slots T * CircularBuffer) := make h 0 default_allocator.

(** [for (const auto& e : o) Construct(p++, e)]; with [mv] the elements are moved
    from. *)
Fixpoint construct_loop (mv : bool) (fuel : nat) h o (pos p i : Z) : outcome (slots T) :=
  match fuel with
  | O => UB
  | S fuel =>
      if pos =? end_ o then Ok h
      else
        v ← Deref h o pos;
        h ← (if mv then assign h (space_ o) pos (moved v) else Ok h);
        h ← Construct h p i v;
        pos ← Incr o pos 1;
        construct_loop mv fuel h o pos p (i + 1)
  end.
Definition loop_fuel cb : nat := S (Z.to_nat (size_ cb)).

Definition make_copy h o : outcome (slots T * CircularBuffer) :=
  let a := select_on_container_copy_construction (allocator_ o) in
  '(h, p) ← Allocate h a (capacity_ o);
  let cb := {| allocator_ := a; capacity_ := capacity_ o; begin_ := 0; size_ := size_ o;
               space_ := p |} in
  h ← construct_loop false (loop_fuel o) h o (begin o) (space_ cb) 0;
  Ok (h, cb).

Definition null_buffer (a : Z) : CircularBuffer :=
  {| allocator_ := a; capacity_ := 0; begin_ := 0; size_ := 0; space_ := 0 |}.

(** The new buffer and what is left of [o]. *)
Definition make_moved o : CircularBuffer * CircularBuffer :=
  ({| allocator_ := allocator_ o; capacity_ := capacity_ o; begin_ := begin_ o;
      size_ := size_ o; space_ := space_ o |},
   null_buffer (allocator_ o)).

Definition destroy h cb : outcome (slots T) :=
  '(h, cb) ← clear h cb; Deallocate h (allocator_ cb) (space_ cb) (capacity_ cb).

(** Assignments; [same] is [this == &o]. *)
Definition move_assign (same : bool) h cb o : outcome (slots T * CircularBuffer * CircularBuffer) :=
  if same then Ok (h, cb, o)
  else
    '(h, cb) ← clear h cb;
    h ← Deallocate h (allocator_ cb) (space_ cb) (capacity_ cb);
    if propagate_on_container_move_assignment || is_always_equal then
      let cb := {| allocator_ := allocator_ o; capacity_ := capacity_ o; begin_ := begin_ o;
                   size_ := size_ o; space_ := space_ o |} in
      Ok (h, cb, null_buffer default_allocator)
    else
      '(h, p) ← Allocate h (allocator_ cb) (capacity_ o);
      let cb := {| allocator_ := allocator_ cb; capacity_ := capacity_ o; begin_ := 0;
                   size_ := size_ o; space_ := p |} in
      h ← construct_loop true (loop_fuel o) h o (begin o) (space_ cb) 0;
      '(h, o) ← clear h o;
      h ← Deallocate h (allocator_ o) (space_ o) (capacity_ o);
      Ok (h, cb, {| allocator_ := allocator_ o; capacity_ := 0; begin_ := begin_ o;
                    size_ := size_ o; space_ := 0 |}).

Definition set_allocator cb (a : Z) := {| allocator_ := a; capacity_ := capacity_ cb; begin_ := begin_ cb; size_ := size_ cb; space_ := space_ cb |}.

(** The block of the target is freed with the allocator it is given. *)
Definition copy_assign (same : bool) h cb o : outcome (slots T * CircularBuffer) :=
  if same then Ok (h, cb)
  else
    let cb := if propagate_on_container_copy_assignment then set_allocator cb (allocator_ o)
              else cb in
    '(h, cb) ← clear h cb;
    h ← Deallocate h (allocator_ cb) (space_ cb) (capacity_ cb);
    '(h, p) ← Allocate h (allocator_ cb) (capacity_ o);
    let cb := {| allocator_ := allocator_ cb; capacity_ := capacity_ o; begin_ := 0;
                 size_ := size_ o; space_ := p |} in
    h ← construct_loop false (loop_fuel o) h o (begin o) (space_ cb) 0;
    Ok (h, cb).

Definition swap cb b : outcome (CircularBuffer * CircularBuffer) :=
  if propagate_on_container_swap then Ok (b, cb)
  else
    DCHECK (allocator_eqb (allocator_ cb) (allocator_ b));;
    Ok (set_allocator b (allocator_ cb), set_allocator cb (allocator_ b)).

(** [std::copy] from move iterators of [cb] to a [std::back_inserter(tmp)]. *)
Fixpoint move_loop (fuel : nat) h cb (pos last : Z) (tmp : CircularBuffer) : outcome (slots T * CircularBuffer) :=
  match fuel with
  | O => UB
  | S fuel =>
      if pos =? last then Ok (h, tmp)
      else
        v ← Deref h cb pos;
        h ← assign h (space_ cb) pos (moved v);
        '(h, tmp) ← push_back h tmp v;
        pos ← Incr cb pos 1;
        move_loop fuel h cb pos last tmp
  end.

Definition ChangeCapacity h cb (new_capacity : Z) : outcome (slots T * CircularBuffer) :=
  if new_capacity =? capacity_ cb then Ok (h, cb)
  else
    '(h, tmp) ← make h new_capacity (allocator_ cb);
    last ← Incr cb (begin cb) (Z.min (size_ cb) new_capacity);
    '(h, tmp) ← move_loop (loop_fuel cb) h cb (begin cb) last tmp;
    '(h, cb, tmp) ← move_assign false h cb tmp;
    h ← destroy h tmp;
    Ok (h, cb).
Definition resize := ChangeCapacity.

(** ** Comparison *)

Context (eqb ltb : T -> T -> bool).

(** [absl::c_equal], which is [std::equal] of the two ranges: the lengths first. *)
Fixpoint equal_loop (fuel : nat) h (a b : CircularBuffer) (pa pb : Z) : outcome bool :=
  match fuel with
  | O => UB
  | S fuel =>
      if pa =? end_ a then Ok true
      else
        x ← Deref h a pa; y ← Deref h b pb;
        if eqb x y then
          pa ← Incr a pa 1; pb ← Incr b pb 1; equal_loop fuel h a b pa pb
        else Ok false
  end.
Definition operator_eq h (a b : CircularBuffer) : outcome bool :=
  na ← Subtract a (end_ a) (begin a); nb ← Subtract b (end_ b) (begin b);
  if na =? nb then equal_loop (loop_fuel a) h a b (begin a) (begin b) else Ok false.

(** [std::lexicographical_compare]. *)
Fixpoint less_loop (fuel : nat) h (a b : CircularBuffer) (pa pb : Z) : outcome bool :=
  match fuel with
  | O => UB
  | S fuel =>
      if pa =? end_ a then Ok (negb (pb =? end_ b))
      else if pb =? end_ b then Ok false
      else
        x ← Deref h a pa; y ← Deref h b pb;
        if ltb x y then Ok true
        else if ltb y x then Ok false
        else pa ← Incr a pa 1; pb ← Incr b pb 1; less_loop fuel h a b pa pb
  end.
Definition operator_lt h (a b : CircularBuffer) : outcome bool :=
  less_loop (loop_fuel a) h a b (begin a) (begin b).
End circularbuffer.
