(* ===== verification/CircularBufferProps.v ===== *)
(** * Circular buffers hold sequences

    [rep h cb l]: the buffer [cb] holds the elements [l], in order from [begin_]
    and around the end of the block; the other slots are raw.  Every operation
    within one buffer maps this relation to the one for the expected sequence and
    touches no other block. *)
From Stdlib Require Import ZArith Lia.
From stdpp Require Import base list numbers option gmap fin_maps.
From S2P Require Import Prelude.
From S2P Require Import CircularBuffer.
Local Open Scope Z_scope.

(** ** Positions modulo the capacity *)

Lemma mod_wrap n k i : 0 <= k < n -> 0 <= i < n -> (k + i) mod n = if n <=? k + i then k + i - n else k + i.
Proof.
  intros Hk Hi. destruct (Z.leb_spec n (k + i)).
  - symmetry. apply (Z.mod_unique_pos _ _ 1); lia.
  - apply Z.mod_small. lia.
Qed.

Lemma mod_inj n k i j : 0 <= i < n -> 0 <= j < n -> (k + i) mod n = (k + j) mod n -> i = j.
Proof.
  intros Hi Hj E. rewrite <- (Z.mod_small i n), <- (Z.mod_small j n) by lia.
  replace i with (k + i - k) by lia. replace j with (k + j - k) by lia.
  by rewrite <- (Zminus_mod_idemp_l (k + i)), <- (Zminus_mod_idemp_l (k + j)), E.
Qed.

Lemma u64_id x : 0 <= x < 2 ^ 64 -> u64 x = x.
Proof. apply Z.mod_small. Qed.

(** ** Rings *)

Section ring.
Context {T : Type}.
Implicit Types (b : block T) (f g : Z -> option T) (l : list T).

(** The slot at logical position [i] of a block that begins at [k] is [f i]. *)
Definition ringf b (k : Z) f : Prop :=
  forall i, 0 <= i < zlen b -> b !! Z.to_nat ((k + i) mod zlen b) = Some (f i).

Definition contents l (i : Z) : option T := l !! Z.to_nat i.
Definition ring b (k : Z) l : Prop := ringf b k (contents l).

Lemma ringf_ext b k f g : ringf b k f -> (forall i, 0 <= i < zlen b -> f i = g i) -> ringf b k g.
Proof. intros Hf E i Hi. by rewrite <- E, Hf. Qed.


Lemma ringf_set b k f j s : ringf b k f -> 0 <= j < zlen b ->
  ringf (<[Z.to_nat ((k + j) mod zlen b) := s]> b) k (fun i => if i =? j then s else f i).
Proof.
  intros Hf Hj i Hi. rewrite zlen_insert in *. pose proof (Z.mod_pos_bound (k + i) (zlen b) ltac:(lia)).
  pose proof (Z.mod_pos_bound (k + j) (zlen b) ltac:(lia)).
  destruct (Z.eqb_spec i j) as [->|Hne].
  - apply list_lookup_insert_eq. unfold zlen in *. lia.
  - rewrite list_lookup_insert_ne; [by apply Hf|]. intros E. apply Hne, (mod_inj (zlen b) k); lia.
Qed.

Lemma ringf_shift b k f d : ringf b k f -> ringf b ((k + d) mod zlen b) (fun i => f ((i + d) mod zlen b)).
Proof.
  intros Hf i Hi. pose proof (Z.mod_pos_bound (i + d) (zlen b) ltac:(lia)). rewrite <- Hf by lia.
  rewrite Zplus_mod_idemp_l, Zplus_mod_idemp_r. by replace (k + d + i) with (k + (i + d)) by lia.
Qed.

Lemma ringf_raw n k : 0 <= k -> ringf (replicate n None) k (fun _ => None).
Proof.
  intros Hk i Hi. unfold zlen in *. rewrite length_replicate in *. apply lookup_replicate. split; [done|].
  pose proof (Z.mod_pos_bound (k + i) (Z.of_nat n) ltac:(lia)). lia.
Qed.

Lemma raw_ringf b k : ringf b k (fun _ => None) -> forallb raw b = true.
Proof.
  intros Hf. apply forallb_forall. intros s Hs. apply list_elem_of_In, list_elem_of_lookup in Hs as [i Hi].
  assert (Z.of_nat i < zlen b) as Hlt by (apply lookup_lt_Some in Hi; unfold zlen; lia).
  pose proof (Z.mod_pos_bound (Z.of_nat i - k) (zlen b) ltac:(lia)).
  specialize (Hf ((Z.of_nat i - k) mod zlen b) ltac:(lia)).
  rewrite Zplus_mod_idemp_r in Hf. replace (k + (Z.of_nat i - k)) with (Z.of_nat i) in Hf by lia.
  rewrite Z.mod_small, Nat2Z.id, Hi in Hf by lia. by injection Hf as ->.
Qed.

Lemma contents_lt l i : 0 <= i < zlen l -> exists v, contents l i = Some v.
Proof. intros Hi. apply lookup_lt_is_Some. unfold zlen in Hi. lia. Qed.
Lemma contents_ge l i : zlen l <= i -> contents l i = None.
Proof. intros Hi. apply lookup_ge_None. unfold zlen in Hi. lia. Qed.
Lemma contents_app l k i : 0 <= i -> contents (l ++ k) i = if i <? zlen l then contents l i else contents k (i - zlen l).
Proof.
  intros Hi. unfold contents. destruct (Z.ltb_spec i (zlen l)) as [H|H]; unfold zlen in *.
  - apply lookup_app_l. lia.
  - rewrite lookup_app_r by lia. f_equal. lia.
Qed.
Lemma contents_cons v l i : 0 <= i -> contents (v :: l) i = if i =? 0 then Some v else contents l (i - 1).
Proof.
  intros Hi. unfold contents. destruct (Z.eqb_spec i 0) as [->|]; [done|].
  by replace (Z.to_nat i) with (S (Z.to_nat (i - 1))) by lia.
Qed.
Lemma contents_take n l i : 0 <= i -> 0 <= n -> contents (take (Z.to_nat n) l) i = if i <? n then contents l i else None.
Proof.
  intros Hi Hn. unfold contents. destruct (Z.ltb_spec i n).
  - apply lookup_take_lt. lia.
  - apply lookup_take_ge. lia.
Qed.
Lemma contents_nil i : contents (@nil T) i = None.
Proof. done. Qed.
End ring.

(** ** Buffers *)

Section rep.
Context {T : Type} `{SlotAllocator T} `{BuildMode}.
Context (hardened : bool).
Implicit Types (h : slots T) (cb o : CircularBuffer) (v : T) (l : list T) (b : block T).

(** A buffer with storage. *)
Record held h cb b l : Prop := {
  held_size : size_ cb = zlen l;
  held_le : zlen l <= capacity_ cb <= max_size;
  held_begin : 0 <= begin_ cb < capacity_ cb;
  held_space : 0 < space_ cb;
  held_block : h !! space_ cb = Some b;
  held_owner : allocator_eqb (owner (space_ cb)) (allocator_ cb) = true;
  held_zlen : zlen b = capacity_ cb;
  held_ring : ring b (begin_ cb) l;
}.

(** What no operation within a buffer changes. *)
Definition shape cb : Z * Z := (capacity_ cb, allocator_ cb).

Definition no_storage cb : Prop := capacity_ cb = 0 /\ begin_ cb = 0 /\ size_ cb = 0 /\ space_ cb = 0.

Definition rep h cb l : Prop := (no_storage cb /\ l = []) \/ exists b, held h cb b l.

Lemma checks_ok c : c = true -> HARDENING_CHECK hardened c = Ok tt.
Proof. intros ->. unfold HARDENING_CHECK. by destruct (_ || _). Qed.

Lemma CHECK_ok c : c = true -> CHECK c = Ok tt.
Proof. by intros ->. Qed.

(** A block's slots change at most. *)
Definition touches h h' (p : Z) : Prop :=
  (forall q, q <> p -> h' !! q = h !! q) /\ (is_Some (h' !! p) <-> is_Some (h !! p)).

Lemma touches_insert h p b b' : h !! p = Some b -> touches h (<[p := b']> h) p.
Proof.
  intros E. split; [intros q Hq; by rewrite lookup_insert_ne|]. rewrite lookup_insert_eq, E. split; by eexists.
Qed.
Lemma touches_refl h p : touches h h p.
Proof. done. Qed.
Lemma touches_trans h h' h'' p : touches h h' p -> touches h' h'' p -> touches h h'' p.
Proof. intros [A1 B1] [A2 B2]. split; [intros q Hq; by rewrite A2, A1|by rewrite B2]. Qed.

Lemma slotf_at h p b k f i : h !! p = Some b -> ringf b k f -> 0 <= i < zlen b ->
  slot h p ((k + i) mod zlen b) = Ok (f i).
Proof.
  intros E Hf Hi. unfold slot. rewrite E, (proj2 (Z.ltb_ge _ _)) by (apply Z.mod_pos_bound; lia). by rewrite Hf.
Qed.
Lemma set_slot_eq h p b i s : h !! p = Some b -> set_slot h p i s = <[p := <[Z.to_nat i := s]> b]> h.
Proof.
  intros E. unfold set_slot. apply map_eq. intros q. destruct (decide (q = p)) as [->|].
  - by rewrite lookup_alter_eq, lookup_insert_eq, E.
  - by rewrite lookup_alter_ne, lookup_insert_ne.
Qed.

Lemma logical_to_absolute_ok cb i : 0 <= begin_ cb < capacity_ cb -> capacity_ cb < 2 ^ 63 -> size_ cb <= capacity_ cb ->
  0 <= i < size_ cb -> logical_to_absolute hardened cb i = Ok ((begin_ cb + i) mod capacity_ cb).
Proof.
  intros Hb Hc Hs Hi. unfold logical_to_absolute. rewrite (mod_wrap (capacity_ cb)) by lia.
  rewrite (checks_ok (i <? size_ cb)), bind_Ok by (apply Z.ltb_lt; lia). cbv zeta.
  rewrite (u64_id (begin_ cb + i)) by lia. destruct (Z.leb_spec (capacity_ cb) (begin_ cb + i)).
  - rewrite u64_id by lia. rewrite checks_ok by (apply Z.ltb_lt; lia). done.
  - rewrite checks_ok by (apply Z.ltb_lt; lia). done.
Qed.

Section one.
Context h cb b l (Hh : held h cb b l).

Lemma held_bound : 0 < capacity_ cb < 2 ^ 63.
Proof. pose proof (held_begin _ _ _ _ Hh). pose proof (held_le _ _ _ _ Hh). pose proof (max_size_range (T := T)). lia. Qed.

Lemma logical_to_absolute_held i : 0 <= i < size_ cb ->
  logical_to_absolute hardened cb i = Ok ((begin_ cb + i) mod capacity_ cb).
Proof.
  intros Hi. pose proof held_bound. destruct Hh as [Es Hle Hb _ _ _ _ _]. apply logical_to_absolute_ok; lia.
Qed.

Lemma absolute_to_logical_held i : 0 <= i < capacity_ cb ->
  absolute_to_logical hardened cb ((begin_ cb + i) mod capacity_ cb) = Ok i.
Proof.
  intros Hi. pose proof held_bound. pose proof (held_begin _ _ _ _ Hh). unfold absolute_to_logical.
  rewrite (mod_wrap (capacity_ cb)) by lia.
  destruct (Z.leb_spec (capacity_ cb) (begin_ cb + i));
    (rewrite (checks_ok (_ <? _)), bind_Ok by (apply Z.ltb_lt; lia)); cbv zeta; rewrite u64_id by lia.
  - rewrite (proj2 (Z.leb_gt _ _)) by lia. rewrite checks_ok, bind_Ok by (apply Z.leb_le; lia). f_equal. lia.
  - rewrite (proj2 (Z.leb_le _ _)), u64_id by lia. rewrite checks_ok, bind_Ok by (apply Z.leb_le; lia). f_equal. lia.
Qed.

Lemma nextpos_held : nextpos cb (begin_ cb) = Ok ((begin_ cb + 1) mod capacity_ cb).
Proof.
  pose proof held_bound. pose proof (held_begin _ _ _ _ Hh). unfold nextpos.
  rewrite CHECK_ok, bind_Ok by (apply Z.ltb_lt; lia). cbv zeta. rewrite u64_id by lia. f_equal.
  destruct (Z.eqb_spec (begin_ cb + 1) (capacity_ cb)) as [->|]; [by rewrite Z.mod_same by lia|by rewrite Z.mod_small by lia].
Qed.

Lemma prevpos_held : prevpos cb (begin_ cb) = Ok ((begin_ cb + -1) mod capacity_ cb).
Proof.
  pose proof held_bound. pose proof (held_begin _ _ _ _ Hh). unfold prevpos.
  rewrite CHECK_ok, bind_Ok by (apply Z.ltb_lt; lia). cbv zeta. f_equal.
  destruct (Z.eqb_spec (begin_ cb) 0) as [->|].
  - rewrite !u64_id by (rewrite ?u64_id; lia). apply (Z.mod_unique_pos _ _ (-1)); lia.
  - rewrite u64_id, Z.mod_small by lia. lia.
Qed.

Lemma slot_at i : 0 <= i < capacity_ cb -> slot h (space_ cb) ((begin_ cb + i) mod capacity_ cb) = Ok (contents l i).
Proof.
  intros Hi. rewrite <- (held_zlen _ _ _ _ Hh) in *. apply (slotf_at _ _ b); [apply Hh|apply Hh|done].
Qed.

Lemma slot_begin : slot h (space_ cb) (begin_ cb) = Ok (contents l 0).
Proof. pose proof (held_begin _ _ _ _ Hh). rewrite <- slot_at by lia. f_equal. rewrite Z.mod_small; lia. Qed.

(** The effect of setting the slot at position [j] and then advancing [begin_] by [d]. *)
Lemma held_update j s d l' : 0 <= j < capacity_ cb -> zlen l' <= capacity_ cb ->
  (forall i, 0 <= i < capacity_ cb ->
     contents l' i = let k := (i + d) mod capacity_ cb in if k =? j then s else contents l k) ->
  let h' := set_slot h (space_ cb) ((begin_ cb + j) mod capacity_ cb) s in
  let cb' := {| allocator_ := allocator_ cb; capacity_ := capacity_ cb; begin_ := (begin_ cb + d) mod capacity_ cb; size_ := zlen l'; space_ := space_ cb |} in
  rep h' cb' l' /\ touches h h' (space_ cb).
Proof.
  intros Hj Hl E h' cb'. pose proof held_bound. destruct Hh as [Es Hle Hb Hs Ek Ho Hz Hr].
  pose proof (Z.mod_pos_bound (begin_ cb + d) (capacity_ cb) ltac:(lia)).
  subst h'. rewrite (set_slot_eq _ _ b) by done. split; [|by eapply touches_insert].
  right. exists (<[Z.to_nat ((begin_ cb + j) mod capacity_ cb) := s]> b).
  split; cbn; [done|lia|done|done|by rewrite lookup_insert_eq|done|by rewrite zlen_insert|].
  - rewrite <- Hz in E, Hj |- *. eapply ringf_ext.
    + rewrite <- (zlen_insert b (Z.to_nat ((begin_ cb + j) mod zlen b)) s) at 2. apply ringf_shift, ringf_set; [apply Hr|done].
    + rewrite zlen_insert. intros i Hi. by rewrite E.
Qed.
End one.

(** ** Iterators *)

(** The iterator at logical position [i]. *)
Definition iter cb (i : Z) : Z := if i =? size_ cb then kEnd else (begin_ cb + i) mod capacity_ cb.

Lemma begin_iter h cb l : rep h cb l -> begin cb = iter cb 0.
Proof.
  intros [[(Ec & Eb & Es & _) _]|[b Hh]]; unfold begin, make_iterator, empty, iter.
  - by rewrite Es.
  - rewrite (Z.eqb_sym 0). destruct (Z.eqb_spec (size_ cb) 0); [done|].
    pose proof (held_begin _ _ _ _ Hh). rewrite Z.mod_small; lia.
Qed.
Lemma end_iter cb : end_ cb = iter cb (size_ cb).
Proof. unfold iter. by rewrite Z.eqb_refl. Qed.

Lemma rep_size h cb l : rep h cb l -> size_ cb = zlen l /\ 0 <= size_ cb <= capacity_ cb /\ capacity_ cb < 2 ^ 63.
Proof.
  intros [[(Ec & _ & Es & _) ->]|[b Hh]].
  - rewrite Ec, Es. split_and!; (done || lia).
  - pose proof (held_bound _ _ _ _ Hh). destruct Hh as [Es Hle _ _ _ _ _ _]. pose proof (zlen_nonneg l). split_and!; [done|lia|lia|lia].
Qed.

Lemma rep_held h cb l : rep h cb l -> 0 < capacity_ cb -> exists b, held h cb b l.
Proof. intros [[(Ec & _) _]|Hh] Hc; [lia|done]. Qed.

Lemma iter_range h cb l i : rep h cb l -> 0 <= i < size_ cb -> 0 <= iter cb i < capacity_ cb /\ iter cb i < kEnd.
Proof.
  intros Hr Hi. pose proof (rep_size _ _ _ Hr). unfold iter, kEnd. rewrite (proj2 (Z.eqb_neq _ _)) by lia.
  pose proof (Z.mod_pos_bound (begin_ cb + i) (capacity_ cb) ltac:(lia)). lia.
Qed.

Lemma iter_end h cb l i : rep h cb l -> 0 <= i <= size_ cb -> (iter cb i =? kEnd) = (i =? size_ cb).
Proof.
  intros Hr Hi. destruct (Z.eqb_spec i (size_ cb)) as [->|]; [by rewrite <- end_iter|].
  apply Z.eqb_neq. pose proof (iter_range _ _ _ i Hr ltac:(lia)). lia.
Qed.

Lemma iter_eq h cb l i j : rep h cb l -> 0 <= i <= size_ cb -> 0 <= j <= size_ cb -> (iter cb i =? iter cb j) = (i =? j).
Proof.
  intros Hr Hi Hj. destruct (Z.eqb_spec i j) as [->|Hne]; [by rewrite Z.eqb_refl|]. apply Z.eqb_neq. intros E.
  pose proof (rep_size _ _ _ Hr). pose proof (iter_end _ _ _ i Hr Hi) as Ei. pose proof (iter_end _ _ _ j Hr Hj) as Ej.
  rewrite E, Ej in Ei. destruct (Z.eqb_spec j (size_ cb)), (Z.eqb_spec i (size_ cb)); try done; try lia.
  unfold iter in E. rewrite !(proj2 (Z.eqb_neq _ (size_ cb))) in E by done.
  apply Hne, (mod_inj (capacity_ cb) (begin_ cb)); lia || done.
Qed.

Lemma logical_pos_iter h cb l i : rep h cb l -> 0 <= i <= size_ cb -> logical_pos hardened cb (iter cb i) = Ok i.
Proof.
  intros Hr Hi. unfold logical_pos. rewrite (iter_end _ _ _ _ Hr) by done.
  destruct (Z.eqb_spec i (size_ cb)) as [->|Hne]; [done|]. pose proof (rep_size _ _ _ Hr).
  destruct (rep_held _ _ _ Hr ltac:(lia)) as [b Hh]. unfold iter. rewrite (proj2 (Z.eqb_neq _ _)) by done.
  apply (absolute_to_logical_held _ _ _ _ Hh). lia.
Qed.

Lemma Incr_iter h cb l i n : rep h cb l -> 0 <= i <= size_ cb -> 0 <= i + n <= size_ cb ->
  Incr hardened cb (iter cb i) n = Ok (iter cb (i + n)).
Proof.
  intros Hr Hi Hn. pose proof (rep_size _ _ _ Hr). unfold Incr, size. rewrite (logical_pos_iter _ _ _ _ Hr), bind_Ok by done.
  cbv zeta. rewrite u64_id, CHECK_ok, bind_Ok by (lia || (apply Z.leb_le; lia)). unfold iter.
  destruct (Z.eqb_spec (i + n) (size_ cb)); [done|]. destruct (rep_held _ _ _ Hr ltac:(lia)) as [b Hh].
  apply (logical_to_absolute_held _ _ _ _ Hh). lia.
Qed.

(** An iterator that would leave the buffer stops the program. *)
Lemma Incr_out h cb l i n : rep h cb l -> 0 <= i <= size_ cb -> - 2 ^ 63 <= n < 2 ^ 63 -> ~ 0 <= i + n <= size_ cb ->
  Incr hardened cb (iter cb i) n = Crash.
Proof.
  intros Hr Hi Hn Hout. pose proof (rep_size _ _ _ Hr). unfold Incr, size. rewrite (logical_pos_iter _ _ _ _ Hr), bind_Ok by done.
  cbv zeta. rewrite (proj2 (Z.leb_gt _ _)); [done|]. unfold u64.
  destruct (Z.ltb_spec (i + n) 0); [|rewrite Z.mod_small; lia].
  rewrite <- (Z_mod_plus_full (i + n) 1), Z.mod_small; lia.
Qed.

Lemma Subtract_iter h cb l i j : rep h cb l -> 0 <= i <= size_ cb -> 0 <= j <= size_ cb ->
  Subtract hardened cb (iter cb i) (iter cb j) = Ok (i - j).
Proof.
  intros Hr Hi Hj. pose proof (rep_size _ _ _ Hr). unfold Subtract. rewrite !(logical_pos_iter _ _ _ _ Hr), !bind_Ok by done.
  unfold s64. rewrite !swrap_small by lia. done.
Qed.

Lemma iter_slot h cb l i : rep h cb l -> 0 <= i < size_ cb ->
  exists v, contents l i = Some v /\ slot h (space_ cb) (iter cb i) = Ok (Some v).
Proof.
  intros Hr Hi. pose proof (rep_size _ _ _ Hr). destruct (contents_lt l i ltac:(lia)) as [v Ev].
  destruct (rep_held _ _ _ Hr ltac:(lia)) as [b Hh]. exists v. split; [done|].
  unfold iter. rewrite (proj2 (Z.eqb_neq _ _)), (slot_at _ _ _ _ Hh), Ev by lia. done.
Qed.

Lemma Deref_iter h cb l i v : rep h cb l -> 0 <= i < size_ cb -> contents l i = Some v -> Deref h cb (iter cb i) = Ok v.
Proof.
  intros Hr Hi Ev. destruct (iter_slot _ _ _ _ Hr Hi) as (v' & Ev' & E). unfold Deref, at_absolute. rewrite E, bind_Ok. congruence.
Qed.
End rep.
