(* ===== verification/CircularBufferMove.v ===== *)
(** * The operations of circular buffers

    Each operation of [CircularBuffer] on sequences: pushes drop the element at
    the other end of a full buffer, pops, access and clearing; construction,
    destruction, copies, moves and changes of the capacity.

    The loops that copy or move the elements of one buffer into the block of
    another, and the operations made of them. *)
From Stdlib Require Import ZArith Lia.
From stdpp Require Import base list numbers option gmap fin_maps.
From S2P Require Import Prelude.
From S2P Require Import CircularBuffer.
From S2P Require Import CircularBufferProps.
Local Open Scope Z_scope.

Section ops.
Context {T : Type} `{SlotAllocator T} `{BuildMode}.
Context (hardened : bool) (moved : T -> T).
Implicit Types (h : slots T) (cb o : CircularBuffer) (v : T) (l : list T) (b : block T).

(** The sequences after a push to a buffer of capacity [c]. *)
Definition pushed_back (c : Z) l v : list T := if zlen l =? c then drop 1 l ++ [v] else l ++ [v].
Definition pushed_front (c : Z) l v : list T := v :: take (Z.to_nat (c - 1)) l.

(** [r] leaves the buffer [cb] with the elements [l'], in its block. *)
Definition inplace h cb (r : outcome (slots T * CircularBuffer)) l' : Prop :=
  exists h' cb', r = Ok (h', cb') /\ rep h' cb' l' /\ shape cb' = shape cb /\ space_ cb' = space_ cb /\
    touches h h' (space_ cb).

Lemma inplace_update h cb b l j s d l' r : held h cb b l -> 0 <= j < capacity_ cb -> zlen l' <= capacity_ cb ->
  (forall i, 0 <= i < capacity_ cb ->
     contents l' i = let k := (i + d) mod capacity_ cb in if k =? j then s else contents l k) ->
  r = Ok (set_slot h (space_ cb) ((begin_ cb + j) mod capacity_ cb) s,
    {| allocator_ := allocator_ cb; capacity_ := capacity_ cb; begin_ := (begin_ cb + d) mod capacity_ cb; size_ := zlen l'; space_ := space_ cb |}) ->
  inplace h cb r l'.
Proof.
  intros Hh Hj Hl E ->. destruct (held_update _ _ _ _ Hh j s d l' Hj Hl E) as [Hr Ht]. by eexists _, _.
Qed.

Lemma zlen_drop1 l : 0 < zlen l -> zlen (drop 1 l) = zlen l - 1.
Proof. unfold zlen. rewrite length_drop. lia. Qed.
Lemma contents_drop1 l i : 0 <= i -> contents (drop 1 l) i = contents l (i + 1).
Proof. intros Hi. unfold contents. rewrite lookup_drop. f_equal. lia. Qed.
Lemma zlen_take n l : 0 <= n -> zlen (take (Z.to_nat n) l) = Z.min n (zlen l).
Proof. intros Hn. unfold zlen. rewrite length_take. lia. Qed.
Lemma zlen_app1 l v : zlen (l ++ [v]) = zlen l + 1.
Proof. unfold zlen. rewrite length_app. cbn. lia. Qed.

Lemma mod_next n i : 0 <= i < n -> (i + 1) mod n = if i + 1 =? n then 0 else i + 1.
Proof. intros Hi. destruct (Z.eqb_spec (i + 1) n) as [->|]; [apply Z.mod_same|apply Z.mod_small]; lia. Qed.
Lemma mod_prev n i : 0 <= i < n -> (i + -1) mod n = if i =? 0 then n - 1 else i - 1.
Proof.
  intros Hi. destruct (Z.eqb_spec i 0) as [->|]; [|rewrite Z.mod_small; lia]. symmetry. apply (Z.mod_unique_pos _ _ (-1)); lia.
Qed.
Lemma mod_here n i : 0 <= i < n -> (i + 0) mod n = i.
Proof. intros Hi. rewrite Z.mod_small; lia. Qed.

(** The three ways in which sequences change. *)
Lemma shift_back c l v i : zlen l = c -> 0 <= i < c ->
  contents (drop 1 l ++ [v]) i = let k := (i + 1) mod c in if k =? 0 then Some v else contents l k.
Proof.
  intros Hl Hi. cbv zeta. rewrite contents_app, zlen_drop1, contents_drop1, mod_next by lia.
  destruct (Z.eqb_spec (i + 1) c) as [E|].
  - rewrite (proj2 (Z.ltb_ge _ _)) by lia. replace (i - (zlen l - 1)) with 0 by lia. done.
  - rewrite (proj2 (Z.ltb_lt _ _)), (proj2 (Z.eqb_neq _ _)) by lia. done.
Qed.
Lemma grow_back c l v i : zlen l < c -> 0 <= i < c ->
  contents (l ++ [v]) i = let k := (i + 0) mod c in if k =? zlen l then Some v else contents l k.
Proof.
  intros Hl Hi. cbv zeta. rewrite contents_app, mod_here by lia. destruct (Z.ltb_spec i (zlen l)).
  - by rewrite (proj2 (Z.eqb_neq _ _)) by lia.
  - destruct (Z.eqb_spec i (zlen l)) as [->|]; [by rewrite Z.sub_diag|]. rewrite !contents_ge; [done|lia|change (zlen [v]) with 1; lia].
Qed.
Lemma shift_front c l v i : 0 <= i < c ->
  contents (pushed_front c l v) i = let k := (i + -1) mod c in if k =? c - 1 then Some v else contents l k.
Proof.
  intros Hi. cbv zeta. unfold pushed_front. rewrite contents_cons, mod_prev by lia. destruct (Z.eqb_spec i 0) as [->|].
  - by rewrite Z.eqb_refl.
  - rewrite contents_take, (proj2 (Z.ltb_lt _ _)), (proj2 (Z.eqb_neq _ _)) by lia. done.
Qed.
Lemma drop_front c l i : 0 < zlen l <= c -> 0 <= i < c ->
  contents (drop 1 l) i = let k := (i + 1) mod c in if k =? 0 then None else contents l k.
Proof.
  intros Hl Hi. cbv zeta. rewrite contents_drop1, mod_next by lia. destruct (Z.eqb_spec (i + 1) c) as [E|].
  - apply contents_ge. lia.
  - by rewrite (proj2 (Z.eqb_neq _ _)) by lia.
Qed.
Lemma drop_back c l i : 0 < zlen l <= c -> 0 <= i < c ->
  contents (take (Z.to_nat (zlen l - 1)) l) i = let k := (i + 0) mod c in if k =? zlen l - 1 then None else contents l k.
Proof.
  intros Hl Hi. cbv zeta. rewrite contents_take, mod_here by lia.
  destruct (Z.ltb_spec i (zlen l - 1)), (Z.eqb_spec i (zlen l - 1)); try lia; try done. symmetry. apply contents_ge. lia.
Qed.

(** ** Slots of a held buffer *)

Section held.
Context h cb b l (Hh : held h cb b l).

Lemma held_facts : size_ cb = zlen l /\ 0 <= zlen l <= capacity_ cb /\ 0 < capacity_ cb < 2 ^ 63 /\ 0 <= begin_ cb < capacity_ cb.
Proof.
  pose proof (held_bound _ _ _ _ Hh). pose proof (zlen_nonneg l). destruct Hh as [Es Hle Hb _ _ _ _ _]. split_and!; (done || lia).
Qed.

Lemma not_empty_capacity : DCHECK (negb (capacity_ cb =? 0)) = Ok tt.
Proof. destruct held_facts as (_ & _ & Hc & _). rewrite (proj2 (Z.eqb_neq _ _)) by lia. apply DCHECK_true. Qed.

Lemma Construct_at i v : 0 <= i < capacity_ cb -> contents l i = None ->
  Construct h (space_ cb) ((begin_ cb + i) mod capacity_ cb) v =
  Ok (set_slot h (space_ cb) ((begin_ cb + i) mod capacity_ cb) (Some v)).
Proof. intros Hi E. unfold Construct. by rewrite (slot_at _ _ _ _ Hh), bind_Ok, E. Qed.
Lemma assign_at i v : 0 <= i < zlen l ->
  assign h (space_ cb) ((begin_ cb + i) mod capacity_ cb) v =
  Ok (set_slot h (space_ cb) ((begin_ cb + i) mod capacity_ cb) (Some v)).
Proof.
  intros Hi. destruct (contents_lt l i Hi) as [w E]. destruct held_facts as (_ & ? & _).
  unfold assign. by rewrite (slot_at _ _ _ _ Hh), bind_Ok, E by lia.
Qed.
Lemma Destroy_at i : 0 <= i < zlen l ->
  Destroy h (space_ cb) ((begin_ cb + i) mod capacity_ cb) =
  Ok (set_slot h (space_ cb) ((begin_ cb + i) mod capacity_ cb) None).
Proof.
  intros Hi. destruct (contents_lt l i Hi) as [w E]. destruct held_facts as (_ & ? & _).
  unfold Destroy. by rewrite (slot_at _ _ _ _ Hh), bind_Ok, E by lia.
Qed.
Lemma begin_at : begin_ cb = (begin_ cb + 0) mod capacity_ cb.
Proof. destruct held_facts as (_ & _ & _ & ?). rewrite Z.mod_small; lia. Qed.
Lemma prev_at : (begin_ cb + -1) mod capacity_ cb = (begin_ cb + (capacity_ cb - 1)) mod capacity_ cb.
Proof. rewrite <- (Z_mod_plus_full (begin_ cb + -1) 1). f_equal. lia. Qed.
Lemma full_held : full cb = (zlen l =? capacity_ cb).
Proof. unfold full. by destruct held_facts as (-> & _). Qed.

(** Destroying an object and constructing another in its slot. *)
Lemma Destroy_Construct i v : 0 <= i < zlen l ->
  (h ← Destroy h (space_ cb) ((begin_ cb + i) mod capacity_ cb);
   Construct h (space_ cb) ((begin_ cb + i) mod capacity_ cb) v) =
  Ok (set_slot h (space_ cb) ((begin_ cb + i) mod capacity_ cb) (Some v)).
Proof.
  intros Hi. destruct held_facts as (_ & ? & ? & _). rewrite Destroy_at, bind_Ok by done.
  unfold Construct, slot, set_slot. rewrite lookup_alter_eq, (held_block _ _ _ _ Hh). cbn [fmap option_fmap option_map].
  rewrite (proj2 (Z.ltb_ge _ _)) by (apply Z.mod_pos_bound; lia).
  pose proof (Z.mod_pos_bound (begin_ cb + i) (capacity_ cb) ltac:(lia)) as Hm.
  rewrite list_lookup_insert_eq by (pose proof (held_zlen _ _ _ _ Hh) as Hz; unfold zlen in Hz; lia).
  rewrite bind_Ok. f_equal. apply map_eq. intros q. destruct (decide (q = space_ cb)) as [->|].
  - rewrite !lookup_alter_eq, (held_block _ _ _ _ Hh). cbn. by rewrite list_insert_insert_eq.
  - by rewrite !lookup_alter_ne.
Qed.

(** ** Modifiers *)

Lemma push_back_held v : inplace h cb (push_back hardened h cb v) (pushed_back (capacity_ cb) l v).
Proof.
  destruct held_facts as (Es & Hl & Hc & Hb). unfold push_back, PushBackInternal, pushed_back.
  rewrite not_empty_capacity, bind_Ok, full_held. destruct (Z.eqb_spec (zlen l) (capacity_ cb)) as [E|Hne].
  - eapply (inplace_update _ _ _ _ 0 (Some v) 1); [done|lia|rewrite zlen_app1, zlen_drop1; lia|by intros; apply shift_back|].
    rewrite begin_at at 1. rewrite assign_at, bind_Ok, (nextpos_held _ _ _ _ Hh), bind_Ok by lia.
    unfold set_begin. rewrite Es, zlen_app1, zlen_drop1 by lia. do 3 f_equal. lia.
  - eapply (inplace_update _ _ _ _ (zlen l) (Some v) 0); [done|lia|rewrite zlen_app1; lia|intros; apply grow_back; lia|].
    cbv zeta. cbn [set_size size_ space_ capacity_ begin_]. rewrite Es, (u64_id (zlen l + 1)), u64_id by lia.
    replace (zlen l + 1 - 1) with (zlen l) by lia.
    rewrite logical_to_absolute_ok, bind_Ok by (cbn; lia). cbn [begin_ capacity_].
    rewrite Construct_at, bind_Ok by (lia || (apply contents_ge; lia)).
    by rewrite <- begin_at, zlen_app1.
Qed.

Lemma emplace_back_held v : emplace_back hardened h cb v = push_back hardened h cb v.
Proof.
  destruct held_facts as (Es & Hl & Hc & Hb). unfold emplace_back, push_back, PushBackInternal.
  rewrite not_empty_capacity, !bind_Ok, full_held. destruct (Z.eqb_spec (zlen l) (capacity_ cb)) as [E|Hne]; [|done].
  pose proof (Destroy_Construct 0 v ltac:(lia)) as E'. pose proof (assign_at 0 v ltac:(lia)) as Ea.
  rewrite <- begin_at in E', Ea. rewrite Ea.
  destruct (Destroy _ _ _) as [h1| |]; try discriminate E'.
  cbn [mbind outcome_bind] in E' |- *. by rewrite E'.
Qed.

Lemma push_front_held v : inplace h cb (push_front h cb v) (pushed_front (capacity_ cb) l v).
Proof.
  destruct held_facts as (Es & Hl & Hc & Hb). unfold push_front, PushFrontInternal.
  rewrite not_empty_capacity, bind_Ok, (prevpos_held _ _ _ _ Hh), bind_Ok. cbv zeta.
  eapply (inplace_update _ _ _ _ (capacity_ cb - 1) (Some v) (-1)); [done|lia| |by intros; apply shift_front|].
  { unfold pushed_front. rewrite zlen_cons, zlen_take; lia. }
  unfold full, set_size, set_begin. cbn [size_ capacity_ begin_ space_]. rewrite Es, prev_at. unfold pushed_front. rewrite zlen_cons, zlen_take by lia.
  destruct (Z.eqb_spec (zlen l) (capacity_ cb)) as [E|Hne].
  - rewrite assign_at, bind_Ok by lia. do 3 f_equal. lia.
  - rewrite Construct_at, bind_Ok, u64_id by (lia || (apply contents_ge; lia)). do 3 f_equal. lia.
Qed.

Lemma emplace_front_held v : emplace_front h cb v = push_front h cb v.
Proof.
  destruct held_facts as (Es & Hl & Hc & Hb). unfold emplace_front, push_front, PushFrontInternal.
  rewrite not_empty_capacity, !bind_Ok, (prevpos_held _ _ _ _ Hh), !bind_Ok. cbv zeta.
  unfold full, set_size, set_begin. cbn [size_ capacity_ begin_ space_]. rewrite Es, prev_at.
  destruct (Z.eqb_spec (zlen l) (capacity_ cb)) as [E|Hne]; [|done].
  rewrite assign_at by lia. pose proof (Destroy_Construct (capacity_ cb - 1) v ltac:(lia)) as E'.
  destruct (Destroy _ _ _) as [h1| |]; try discriminate E'.
 cbn [mbind outcome_bind space_ begin_] in E' |- *. by rewrite E'.
Qed.

Lemma pop_front_held : 0 < zlen l -> inplace h cb (pop_front h cb) (drop 1 l).
Proof.
  intros Hn. destruct held_facts as (Es & Hl & Hc & Hb). unfold pop_front.
  rewrite CHECK_ok, bind_Ok by (apply Z.ltb_lt; lia).
  eapply (inplace_update _ _ _ _ 0 None 1); [done|lia|rewrite zlen_drop1; lia|intros; apply drop_front; lia|].
  rewrite begin_at at 1. rewrite Destroy_at, bind_Ok, (nextpos_held _ _ _ _ Hh), bind_Ok by lia.
  unfold set_size, set_begin. cbn. rewrite Es, u64_id, zlen_drop1 by lia. done.
Qed.

Lemma pop_back_held : 0 < zlen l -> inplace h cb (pop_back hardened h cb) (take (Z.to_nat (zlen l - 1)) l).
Proof.
  intros Hn. destruct held_facts as (Es & Hl & Hc & Hb). unfold pop_back.
  rewrite CHECK_ok, bind_Ok by (apply Z.ltb_lt; lia).
  eapply (inplace_update _ _ _ _ (zlen l - 1) None 0); [done|lia|rewrite zlen_take; lia|intros; apply drop_back; lia|].
  rewrite Es, u64_id by lia. rewrite (logical_to_absolute_held _ _ _ _ _ Hh), bind_Ok, Destroy_at, bind_Ok by lia.
  unfold set_size. rewrite <- begin_at, zlen_take by lia. do 3 f_equal. lia.
Qed.

(** ** Access *)

Lemma at_absolute_held i v : 0 <= i < zlen l -> contents l i = Some v ->
  (a ← logical_to_absolute hardened cb i; at_absolute h (space_ cb) a) = Ok v.
Proof.
  intros Hi Ev. destruct held_facts as (Es & Hl & _). rewrite (logical_to_absolute_held _ _ _ _ _ Hh), bind_Ok by lia.
  unfold at_absolute. by rewrite (slot_at _ _ _ _ Hh), bind_Ok, Ev by lia.
Qed.

Lemma front_held v : contents l 0 = Some v -> front h cb = Ok v.
Proof. intros Ev. unfold front, at_absolute. by rewrite (slot_begin _ _ _ _ Hh), bind_Ok, Ev. Qed.

Lemma back_held v : 0 < zlen l -> contents l (zlen l - 1) = Some v -> back hardened h cb = Ok v.
Proof.
  intros Hn Ev. destruct held_facts as (Es & Hl & Hc & _). unfold back. rewrite Es, u64_id by lia. apply at_absolute_held; [lia|done].
Qed.

Lemma at_held pos v : - zlen l <= pos < zlen l -> contents l (if pos <? 0 then pos + zlen l else pos) = Some v ->
  at_ hardened h cb pos = Ok v.
Proof.
  intros Hp Ev. destruct held_facts as (Es & Hl & Hc & _). unfold at_. rewrite Es. cbv zeta.
  assert (u64 (pos + (if pos <? 0 then zlen l else 0)) = if pos <? 0 then pos + zlen l else pos) as ->.
  { destruct (Z.ltb_spec pos 0); rewrite u64_id; lia. }
  rewrite checks_ok, bind_Ok by (apply Z.ltb_lt; destruct (Z.ltb_spec pos 0); lia).
  apply at_absolute_held; [destruct (Z.ltb_spec pos 0); lia|done].
Qed.

(** ** Clearing *)

Lemma clear_loop_held n : forall h' b' i, 0 <= i -> zlen l = i + Z.of_nat n ->
  h' !! space_ cb = Some b' -> zlen b' = capacity_ cb ->
  ringf b' (begin_ cb) (fun j => if j <? i then None else contents l j) ->
  exists h'' b'', clear_loop hardened n h' cb i = Ok h'' /\ h'' !! space_ cb = Some b'' /\ zlen b'' = capacity_ cb /\
    ringf b'' (begin_ cb) (fun _ => None) /\ touches h' h'' (space_ cb).
Proof.
  destruct held_facts as (Es & Hl & Hc & _).
  induction n as [|n IH]; intros h' b' i Hi El Eb Hz Hr; cbn [clear_loop].
  - exists h', b'. split_and!; try done. eapply ringf_ext; [done|]. intros j Hj. cbn.
    destruct (Z.ltb_spec j i); [done|]. apply contents_ge. lia.
  - rewrite (logical_to_absolute_held _ _ _ _ _ Hh), bind_Ok by lia.
    destruct (contents_lt l i ltac:(lia)) as [v Ev]. unfold Destroy. rewrite <- Hz.
    rewrite (slotf_at _ _ b' _ _ _ Eb Hr) by lia. rewrite Z.ltb_irrefl, Ev, !bind_Ok, (set_slot_eq _ _ b'), u64_id by (done || lia).
    edestruct (IH (<[space_ cb := <[Z.to_nat ((begin_ cb + i) mod zlen b') := None]> b']> h')) as (h'' & b'' & E & E' & Hz' & Hr' & Ht).
    + instantiate (1 := i + 1). lia.
    + lia.
    + apply lookup_insert_eq.
    + by rewrite zlen_insert.
    + eapply ringf_ext; [apply ringf_set; [done|lia]|]. rewrite zlen_insert. intros j Hj. cbn.
      destruct (Z.eqb_spec j i), (Z.ltb_spec j i), (Z.ltb_spec j (i + 1)); try lia; done.
    + exists h'', b''. split; [done|split; [done|split; [lia|split; [done|]]]].
      eapply touches_trans; [by eapply touches_insert|done].
Qed.

Lemma raw_replicate b' : forallb raw b' = true -> b' = replicate (List.length b') None.
Proof.
  induction b' as [|[v|] b' IH]; cbn; [done|done|]. intros E. by rewrite <- IH.
Qed.

Lemma clear_held : inplace h cb (clear hardened h cb) [].
Proof.
  destruct held_facts as (Es & Hl & Hc & Hb). unfold clear. rewrite Es.
  edestruct (clear_loop_held (Z.to_nat (zlen l)) h b 0) as (h' & b' & E & E' & Hz & Hr & Ht); [done|lia|apply Hh|apply Hh| |].
  { eapply ringf_ext; [apply (held_ring _ _ _ _ Hh)|]. intros j Hj. by rewrite (proj2 (Z.ltb_ge _ _)) by lia. }
  rewrite E, bind_Ok. eexists _, _. split; [done|split; [|by split; [|split]]].
  right. exists b'. pose proof (held_le _ _ _ _ Hh). split; cbn -[zlen]; [done|rewrite zlen_nil; lia|lia|apply Hh|done|apply Hh|done|].
  rewrite (raw_replicate b') by (by eapply raw_ringf). by apply ringf_raw.
Qed.
End held.

(** ** Whole buffers *)

Lemma rep_frame h h' cb l : rep h cb l -> h' !! space_ cb = h !! space_ cb -> rep h' cb l.
Proof.
  intros [Hn|[b Hh]] E; [by left|right]. exists b. destruct Hh. split; try done. by rewrite E.
Qed.

Lemma clear_rep h cb l : rep h cb l -> inplace h cb (clear hardened h cb) [].
Proof.
  intros [[(Ec & Eb & Es & Ep) ->]|[b Hh]]; [|by eapply clear_held].
  exists h, cb. unfold clear. rewrite Es. cbn. split_and!; try done.
  - f_equal. f_equal. unfold set_size, set_begin. destruct cb; cbn in *. by subst.
  - left. done.
Qed.

Lemma destroy_buffer_rep h cb l : rep h cb l -> h !! 0 = None -> destroy hardened h cb = Ok (delete (space_ cb) h).
Proof.
  intros Hr H0n. destruct (clear_rep _ _ _ Hr) as (h' & cb' & E & Hr' & Ec & Ep & Ht).
  injection Ec as Ec Ea. unfold destroy. rewrite E, bind_Ok, Ec, Ep. unfold Deallocate.
  destruct Hr' as [[(Ec' & _ & _ & Ep') _]|[b Hh]].
  - rewrite <- Ec, <- Ep, Ec', Ep'. cbn [Z.eqb Bool.eqb]. rewrite checks_ok, bind_Ok by done. f_equal.
    rewrite <- Ep, Ep' in Ht. apply map_eq. intros q. destruct (decide (q = 0)) as [->|].
    + rewrite lookup_delete_eq. destruct Ht as [_ Hd]. apply eq_None_not_Some. rewrite Hd, H0n. by intros [? ?].
    + rewrite lookup_delete_ne by done. by apply Ht.
  - destruct Hh as [_ Hle Hb Hs Ek Ho Hz Hring]. rewrite Ec, Ep in *.
    rewrite !(proj2 (Z.eqb_neq _ _)), checks_ok, bind_Ok, Ek by (done || lia).
    rewrite Ho, Hz, Z.eqb_refl, (raw_ringf b (begin_ cb')) by (eapply ringf_ext; [done|by intros; cbn]). cbn [andb]. f_equal.
    apply map_eq. intros q. destruct (decide (q = space_ cb)) as [->|]; [by rewrite !lookup_delete_eq|].
    rewrite !lookup_delete_ne by done. by apply Ht.
Qed.
End ops.

Section move.
Context {T : Type} `{SlotAllocator T} `{BuildMode}.
Context (hardened : bool) (moved : T -> T).
Implicit Types (h : slots T) (cb o : CircularBuffer) (v : T) (l : list T) (b : block T).

(** [h'] has a new block at [p], unless [p] is null. *)
Definition adds h h' (p : Z) : Prop :=
  (forall q, q <> p -> h' !! q = h !! q) /\ ((p = 0 /\ h' = h) \/ (0 < p /\ h !! p = None)).

(** ** Construction *)

(** A buffer of capacity [c], of allocator [a], whose block begins with [l]. *)
Definition buffer (a c p : Z) l : CircularBuffer := {| allocator_ := a; capacity_ := c; begin_ := 0; size_ := zlen l; space_ := p |}.

Lemma allocator_eqb_refl a : allocator_eqb a a = true.
Proof. unfold allocator_eqb. rewrite Z.eqb_refl. apply orb_true_r. Qed.

Lemma Allocate_ok h a c : 0 <= c <= max_size ->
  exists h' p, Allocate h a c = Ok (h', p) /\ adds h h' p /\ rep h' (buffer a c p []) [].
Proof.
  intros Hc. unfold Allocate. destruct (Z.eqb_spec c 0) as [->|Hne].
  - exists h, 0. split; [done|]. split; [split; [done|by left]|]. by left.
  - rewrite (proj2 (Z.ltb_ge _ _)) by lia. eexists _, _. split; [done|]. split.
    + split; [intros q Hq; by rewrite lookup_insert_ne|]. right. split; [apply allocate_pos|apply allocate_fresh].
    + right. eexists. split; cbn -[zlen]; [done|rewrite zlen_nil; lia|lia|apply allocate_pos|apply lookup_insert_eq| | |].
      * rewrite allocate_owner. apply allocator_eqb_refl.
      * unfold zlen. rewrite length_replicate. lia.
      * by apply ringf_raw.
Qed.

Lemma Allocate_too_large h a c : max_size < c -> Allocate h a c = Crash.
Proof.
  intros Hc. pose proof (max_size_range (T := T)). unfold Allocate.
  by rewrite (proj2 (Z.eqb_neq _ _)), (proj2 (Z.ltb_lt _ _)) by lia.
Qed.

(** ** Copying into a new block *)

Lemma moved_from_update c l i s k : 0 <= i < zlen l -> zlen l <= c -> 0 <= k < c ->
  contents (<[Z.to_nat i := s]> l) k = let k' := (k + 0) mod c in if k' =? i then Some s else contents l k'.
Proof.
  intros Hi Hl Hk. cbv zeta. rewrite mod_here by done. unfold contents, zlen in *. destruct (Z.eqb_spec k i) as [->|].
  - apply list_lookup_insert_eq. lia.
  - apply list_lookup_insert_ne. lia.
Qed.

Lemma zlen_update l i s : zlen (<[i := s]> l) = zlen l.
Proof. unfold zlen. by rewrite length_insert. Qed.

(** Moving from an element. *)
Lemma assign_iter h o l i v : rep h o l -> 0 <= i < size_ o ->
  exists h', assign h (space_ o) (iter o i) v = Ok h' /\ rep h' o (<[Z.to_nat i := v]> l) /\ touches h h' (space_ o).
Proof.
  intros Hr Hi. pose proof (rep_size _ _ _ Hr) as (Es & Hl & _). destruct (rep_held _ _ _ Hr ltac:(lia)) as [b Hh].
  unfold iter. rewrite (proj2 (Z.eqb_neq _ _)), (assign_at _ _ _ _ Hh) by lia. eexists. split; [done|].
  pose proof (held_update _ _ _ _ Hh i (Some v) 0 (<[Z.to_nat i := v]> l) ltac:(lia)) as Hu.
  rewrite zlen_update in Hu. destruct Hu as [Hr' Ht]; [lia|intros; apply moved_from_update; lia|]. split; [|done].
  rewrite <- (begin_at _ _ _ _ Hh), <- Es in Hr'. by destruct o.
Qed.

Lemma contents_update_other l i j v : i <> j -> 0 <= i -> 0 <= j -> contents (<[Z.to_nat i := v]> l) j = contents l j.
Proof. intros. unfold contents. apply list_lookup_insert_ne. lia. Qed.

(** What the loop has left to copy. *)
Definition from (i : Z) l : list T := drop (Z.to_nat i) l.

Lemma from_next i l v : 0 <= i -> contents l i = Some v -> from i l = v :: from (i + 1) l.
Proof.
  intros Hi E. unfold from, contents in *. rewrite (drop_S _ _ _ E). by replace (S (Z.to_nat i)) with (Z.to_nat (i + 1)) by lia.
Qed.
Lemma from_update i l v : 0 <= i -> from (i + 1) (<[Z.to_nat i := v]> l) = from (i + 1) l.
Proof. intros Hi. unfold from. apply drop_insert_lt. lia. Qed.
Lemma from_all l : from 0 l = l.
Proof. done. Qed.
Lemma from_end l : from (zlen l) l = [].
Proof. unfold from, zlen. rewrite Nat2Z.id. apply drop_all. Qed.

(** Appending an element to the target. *)
Lemma Construct_next h a c p l v : rep h (buffer a c p l) l -> zlen l < c ->
  exists h', Construct h p (zlen l) v = Ok h' /\ rep h' (buffer a c p (l ++ [v])) (l ++ [v]) /\ touches h h' p.
Proof.
  intros Hr Hl. pose proof (zlen_nonneg l). destruct (rep_held _ _ _ Hr) as [b Hh]; [cbn; lia|].
  assert (zlen l = (begin_ (buffer a c p l) + zlen l) mod capacity_ (buffer a c p l)) as Ei by (cbn; rewrite Z.mod_small; lia).
  rewrite Ei. change p with (space_ (buffer a c p l)) at 1.
  rewrite (Construct_at _ _ _ _ Hh) by (cbn -[zlen]; lia || (apply contents_ge; lia)). eexists. split; [done|].
  destruct (held_update _ _ _ _ Hh (zlen l) (Some v) 0 (l ++ [v])) as [Hr' Ht]; cbn -[zlen]; [lia|rewrite zlen_app1; lia| |].
  - intros i Hi. by apply grow_back.
  - split; [|done]. cbn -[zlen] in Hr'. by rewrite Z.mod_0_l in Hr' by lia.
Qed.

Lemma construct_loop_ok mv fuel : forall h o l lt a c p i, rep h o l -> rep h (buffer a c p lt) lt -> p <> space_ o ->
  zlen lt = i -> i <= size_ o <= c -> size_ o - i < Z.of_nat fuel ->
  exists h' l', construct_loop hardened moved mv fuel h o (iter o i) p i = Ok h' /\
    rep h' o l' /\ rep h' (buffer a c p (lt ++ from i l)) (lt ++ from i l) /\
    (forall q, q <> p -> q <> space_ o \/ mv = false -> h' !! q = h !! q) /\ (is_Some (h' !! p) <-> is_Some (h !! p)).
Proof.
  induction fuel as [|fuel IH]; intros h o l lt a c p i Hr Ht Hp El Hi Hf; [lia|].
  pose proof (zlen_nonneg lt). pose proof (rep_size _ _ _ Hr) as (Es & _). cbn [construct_loop].
  change (end_ o) with kEnd. rewrite (iter_end _ _ _ _ Hr) by lia. destruct (Z.eqb_spec i (size_ o)) as [->|Hne].
  - exists h, l. rewrite Es, from_end, app_nil_r. done.
  - destruct (contents_lt l i ltac:(lia)) as [v Ev]. rewrite (Deref_iter _ _ _ _ v Hr), bind_Ok by (done || lia).
    assert (exists h1 l1, (if mv then assign h (space_ o) (iter o i) (moved v) else Ok h) = Ok h1 /\ rep h1 o l1 /\
      from (i + 1) l1 = from (i + 1) l /\ (forall q, q <> space_ o \/ mv = false -> h1 !! q = h !! q)) as (h1 & l1 & -> & Hr1 & Efrom & Hfr).
    { destruct mv; [|by exists h, l]. destruct (assign_iter _ _ _ i (moved v) Hr ltac:(lia)) as (h1 & E & Hr1 & Ht1).
      exists h1, (<[Z.to_nat i := moved v]> l). rewrite from_update by lia. split_and!; try done. intros q [Hq|Hq]; [by apply Ht1|done]. }
    rewrite bind_Ok. assert (rep h1 (buffer a c p lt) lt) as Ht1 by (eapply rep_frame; [done|cbn; apply Hfr; by left]).
    destruct (Construct_next h1 a c p lt v Ht1 ltac:(lia)) as (h2 & E2 & Ht2 & [Hf2 Hd2]). rewrite El in E2.
    rewrite E2, bind_Ok, (Incr_iter _ _ _ _ _ _ Hr), bind_Ok by lia.
    assert (rep h2 o l1) as Hr2 by (eapply rep_frame; [done|by apply Hf2]).
    destruct (IH h2 o l1 (lt ++ [v]) a c p (i + 1)) as (h' & l' & E & Hr' & Ht' & Hf' & Hd'); try done; [rewrite zlen_app1; lia|lia|lia|].
    exists h', l'. rewrite E. rewrite <- (assoc_L app), Efrom in Ht'. rewrite (from_next i l v ltac:(lia) Ev). split_and!; try done.
    + intros q Hq Hq'. rewrite Hf', Hf2, Hfr by done. done.
    + rewrite Hd', Hd2, Hfr by (by left). done.
Qed.

(** A new block of the capacity of [o], filled from [o]. *)
Lemma fill_ok mv h o l a : rep h o l -> h !! 0 = None -> exists h1 p h' l',
  Allocate h a (capacity_ o) = Ok (h1, p) /\
  construct_loop hardened moved mv (loop_fuel o) h1 o (begin o) p 0 = Ok h' /\
  rep h' (buffer a (capacity_ o) p l) l /\ rep h' o l' /\ (p = 0 \/ p <> space_ o) /\ h' !! 0 = None /\
  (forall q, q <> p -> q <> space_ o \/ mv = false -> h' !! q = h !! q) /\ ((p = 0 /\ h' = h) \/ (0 < p /\ h !! p = None)).
Proof.
  intros Hr H0n. pose proof (rep_size _ _ _ Hr) as (Es & Hs & _).
  destruct (Allocate_ok h a (capacity_ o)) as (h1 & p & Ea & [Hfr Hp] & Ht).
  { destruct Hr as [[(-> & _) _]|[b Hh]]; [pose proof (max_size_range (T := T)); lia|]. pose proof (held_le _ _ _ _ Hh). lia. }
  destruct Hr as [[(Ec & Eb & E0 & Ep) ->]|[b Hh]].
  - unfold Allocate in Ea. rewrite Ec in *. injection Ea as <- <-. exists h, 0, h, [].
    split; [done|]. split; [unfold loop_fuel, begin, make_iterator, empty; by rewrite E0|].
    split; [by left|]. split; [by left|]. split; [by left|]. split; [done|]. split; [done|by left].
  - assert (0 < p /\ h !! p = None) as [Hpos Hnone].
    { destruct Hp as [[-> ->]|]; [|done]. pose proof (held_bound _ _ _ _ Hh). destruct Ht as [[(E & _) _]|[b' Hb']]; [cbn in E; lia|].
      pose proof (held_space _ _ _ _ Hb') as E. cbn in E. lia. }
    assert (p <> space_ o) as Hne by (intros ->; rewrite (held_block _ _ _ _ Hh) in Hnone; done).
    assert (rep h o l) as Hr by (right; by eexists). assert (rep h1 o l) as Hr1 by (eapply rep_frame; [done|by apply Hfr]).
    destruct (construct_loop_ok mv (loop_fuel o) h1 o l [] a (capacity_ o) p 0) as (h' & l' & E & Ho & Ht' & Hf & Hd); try done.
    { unfold loop_fuel. lia. }
    rewrite <- (begin_iter _ _ _ Hr1) in E. exists h1, p, h', l'.
    assert (forall q, q <> p -> q <> space_ o \/ mv = false -> h' !! q = h !! q) as Hf'.
    { intros q Hq Hq'. rewrite Hf, Hfr by done. done. }
    pose proof (held_space _ _ _ _ Hh). assert (h' !! 0 = None) by (rewrite Hf'; [done|lia|left; lia]).
    split; [done|]. split; [done|]. split; [done|]. split; [done|]. split; [by right|]. split; [done|]. split; [done|by right].
Qed.

Lemma make_copy_ok h o l : rep h o l -> h !! 0 = None ->
  exists h' cb', make_copy hardened moved h o = Ok (h', cb') /\ rep h' cb' l /\
    shape cb' = (capacity_ o, select_on_container_copy_construction (allocator_ o)) /\
    adds h h' (space_ cb').
Proof.
  intros Hr H0n.
  destruct (fill_ok false _ _ _ (select_on_container_copy_construction (allocator_ o)) Hr H0n)
    as (h1 & p & h' & l' & Ea & El & Ht & _ & _ & _ & Hf & Hp).
  unfold make_copy. rewrite Ea, bind_Ok. cbv zeta. cbn [space_]. rewrite El, bind_Ok. eexists _, _. split; [done|].
  pose proof (rep_size _ _ _ Hr) as (-> & _). split; [done|]. split; [done|]. split; [|done].
  intros q Hq. apply Hf; [done|by right].
Qed.

(** ** Assignment *)

Lemma clear_Deallocate h cb l : rep h cb l -> h !! 0 = None -> exists h1 cb1, clear hardened h cb = Ok (h1, cb1) /\
  Deallocate hardened h1 (allocator_ cb1) (space_ cb1) (capacity_ cb1) = Ok (delete (space_ cb) h) /\
  begin_ cb1 = 0 /\ size_ cb1 = 0 /\ allocator_ cb1 = allocator_ cb.
Proof.
  intros Hr H0n. pose proof (destroy_buffer_rep hardened _ _ _ Hr H0n) as E. destruct (clear_rep hardened _ _ _ Hr) as (h1 & cb1 & Ec & _).
  unfold destroy in E. rewrite Ec, bind_Ok in E. exists h1, cb1. split_and!; try done;
    unfold clear in Ec; destruct (clear_loop _ _ _ _ _); try discriminate Ec; by injection Ec as _ <-.
Qed.

Lemma adds_self h p : 0 <= p -> h !! 0 = None -> adds (delete p h) h p.
Proof.
  intros Hp H0n. split; [intros q Hq; by rewrite lookup_delete_ne|]. destruct (decide (p = 0)) as [->|].
  - left. split; [done|]. by rewrite delete_id.
  - right. rewrite lookup_delete_eq. split; [lia|done].
Qed.

Lemma rep_space h cb l : rep h cb l -> 0 <= space_ cb /\ (space_ cb = 0 -> no_storage cb /\ l = []).
Proof.
  intros [[Hn ->]|[b Hh]].
  - destruct Hn as (Ec & Eb & Es & Ep). rewrite Ep. by split; [|split; [split|]].
  - pose proof (held_space _ _ _ _ Hh). split; lia.
Qed.

(** A buffer without storage, or given an equal allocator. *)
Lemma rep_set_allocator h cb l a : rep h cb l ->
  capacity_ cb = 0 \/ allocator_eqb (allocator_ cb) a = true -> rep h (set_allocator cb a) l.
Proof.
  intros [Hn|[b Hh]] Ha; [by left|right]. exists b.
  destruct Ha as [Ha|Ha]; [pose proof (held_bound _ _ _ _ Hh); lia|].
  destruct Hh as [? ? ? ? ? Ho ? ?]. split; try done. cbn.
  unfold allocator_eqb in *. rewrite orb_true_iff, Z.eqb_eq in *.
  destruct Ho as [Ho|Ho]; [by left|]. destruct Ha as [Ha|Ha]; [by left|right; congruence].
Qed.

(** The allocator of a target that [o] is copied to. *)
Definition assigned_allocator cb o : Z :=
  if propagate_on_container_copy_assignment then allocator_ o else allocator_ cb.

Lemma copy_assign_ok h cb o lc l : rep h cb lc -> rep h o l -> h !! 0 = None -> (space_ o = 0 \/ space_ o <> space_ cb) ->
  capacity_ cb = 0 \/ allocator_eqb (allocator_ cb) (assigned_allocator cb o) = true ->
  exists h' cb', copy_assign hardened moved false h cb o = Ok (h', cb') /\ rep h' cb' l /\
    shape cb' = (capacity_ o, assigned_allocator cb o) /\ adds (delete (space_ cb) h) h' (space_ cb').
Proof.
  intros Hc Hr H0n Hne Hal. unfold copy_assign.
  set (cb0 := if propagate_on_container_copy_assignment then _ else cb).
  assert (rep h cb0 lc /\ space_ cb0 = space_ cb /\ allocator_ cb0 = assigned_allocator cb o) as (Hc0 & Esp & Eal).
  { unfold cb0, assigned_allocator in *. destruct propagate_on_container_copy_assignment; [|done].
    split; [by apply rep_set_allocator|done]. }
  destruct (clear_Deallocate _ _ _ Hc0 H0n) as (h1 & cb1 & E1 & E2 & _ & _ & E3).
  rewrite E1, bind_Ok, E2, bind_Ok, E3, Eal, Esp.
  assert (rep (delete (space_ cb) h) o l) as Hr1.
  { destruct (rep_space _ _ _ Hr) as [_ Hn]. destruct Hne as [E|Hne]; [left; by apply Hn|].
    eapply rep_frame; [done|]. by rewrite lookup_delete_ne. }
  destruct (fill_ok false _ _ _ (assigned_allocator cb o) Hr1) as (h2 & p & h' & l' & Ea & El & Ht & _ & _ & _ & Hf & Hp).
  { by rewrite lookup_delete_None; right. }
  rewrite Ea, bind_Ok. cbv zeta. cbn [space_]. rewrite El, bind_Ok. eexists _, _. split; [done|].
  pose proof (rep_size _ _ _ Hr) as (-> & _). split; [done|]. split; [done|]. split; [|done].
  intros q Hq. apply Hf; [done|by right].
Qed.

Lemma clear_loop_set_allocator n a : forall h cb i,
  clear_loop hardened n h (set_allocator cb a) i = clear_loop hardened n h cb i.
Proof.
  induction n as [|n IH]; intros h cb i; cbn [clear_loop]; [done|].
  change (logical_to_absolute hardened (set_allocator cb a) i) with (logical_to_absolute hardened cb i).
  destruct (logical_to_absolute _ _ _) as [p| |]; [|done|done]. rewrite !bind_Ok.
  change (space_ (set_allocator cb a)) with (space_ cb).
  destruct (Destroy _ _ _) as [h'| |]; [|done|done]. rewrite !bind_Ok. apply IH.
Qed.

(** The target's block is freed with the allocator that it has been given: when that
    is another one, this is undefined. *)
Lemma copy_assign_unequal h cb o lc b : propagate_on_container_copy_assignment = true ->
  held h cb b lc -> allocator_eqb (owner (space_ cb)) (allocator_ o) = false ->
  copy_assign hardened moved false h cb o = UB.
Proof.
  intros Hp Hh Hal. unfold copy_assign. rewrite Hp.
  destruct (clear_rep hardened h cb lc) as (h1 & cb1 & E & Hr & Ec & Ep & _ & Ht); [right; by exists b|].
  assert (clear hardened h (set_allocator cb (allocator_ o)) = Ok (h1, set_allocator cb1 (allocator_ o))) as ->.
  { unfold clear in *. cbn [set_allocator size_]. rewrite clear_loop_set_allocator.
    destruct (clear_loop _ _ _ _ _); try discriminate E. by injection E as -> <-. }
  injection Ec as Ec _. rewrite bind_Ok. unfold Deallocate. cbn [set_allocator allocator_ space_ capacity_].
  pose proof (held_bound _ _ _ _ Hh). pose proof (held_space _ _ _ _ Hh). rewrite Ec, Ep.
  rewrite !(proj2 (Z.eqb_neq _ _)), checks_ok, bind_Ok by (done || lia).
  destruct (proj2 Ht) as [b' ->]; [by rewrite (held_block _ _ _ _ Hh)|]. by rewrite Hal.
Qed.

Definition moves_storage : bool := propagate_on_container_move_assignment || is_always_equal.

Lemma move_assign_ok h cb o lc l : rep h cb lc -> rep h o l -> h !! 0 = None -> (space_ o = 0 \/ space_ o <> space_ cb) ->
  exists h' cb',
    move_assign hardened moved false h cb o =
      Ok (h', cb', null_buffer (if moves_storage then default_allocator else allocator_ o)) /\
    rep h' cb' l /\
    shape cb' = (capacity_ o, if moves_storage then allocator_ o else allocator_ cb) /\
    adds (delete (space_ o) (delete (space_ cb) h)) h' (space_ cb').
Proof.
  intros Hc Hr H0n Hne. destruct (clear_Deallocate _ _ _ Hc H0n) as (h1 & cb1 & E1 & E2 & _ & _ & Ea1).
  destruct (rep_space _ _ _ Hr) as [Hpos Hn].
  assert (delete (space_ cb) h !! 0 = None) as H1n by (by rewrite lookup_delete_None; right).
  assert (rep (delete (space_ cb) h) o l) as Hr1.
  { destruct Hne as [E|Hne]; [left; by apply Hn|]. eapply rep_frame; [done|]. by rewrite lookup_delete_ne. }
  unfold move_assign. fold moves_storage. rewrite E1, bind_Ok, E2, bind_Ok. destruct moves_storage.
  - eexists _, _. split; [done|]. split; [by destruct o|]. split; [done|]. by apply adds_self.
  - destruct (fill_ok true _ _ _ (allocator_ cb) Hr1 H1n) as (h2 & p & h3 & l' & Ea & El & Ht & Ho & Hpo & H3n & Hf & Hp).
    rewrite Ea1, Ea, bind_Ok. cbv zeta. cbn [space_]. rewrite El, bind_Ok.
    destruct (clear_Deallocate _ _ _ Ho H3n) as (h4 & o4 & E3 & E4 & Eb & Es & Ea4).
    rewrite E3, bind_Ok, E4, bind_Ok, Eb, Es, Ea4.
    eexists _, _. split; [done|]. pose proof (rep_size _ _ _ Hr) as (-> & _).
    change ({| allocator_ := _ |}) with (buffer (allocator_ cb) (capacity_ o) p l).
    split; [|split; [done|]]; [|split].
    + destruct (rep_space _ _ _ Ht) as [_ Hz]. destruct Hpo as [->|Hpo]; [left; by apply Hz|].
      eapply rep_frame; [done|]. by rewrite lookup_delete_ne.
    + intros q Hq. destruct (decide (q = space_ o)) as [->|]; [by rewrite !lookup_delete_eq|].
      rewrite !(lookup_delete_ne _ (space_ o)) by done. apply Hf; [done|by left].
    + destruct Hp as [[-> ->]|[Hp Hnone]]; [by left|right]. split; [done|]. by rewrite lookup_delete_None; right.
Qed.

(** ** Changing the capacity *)

(** Elements [i] to [n] of [l]. *)
Definition segment (i n : Z) l : list T := take (Z.to_nat (n - i)) (from i l).

Lemma segment_next i n l v : 0 <= i < n -> contents l i = Some v -> segment i n l = v :: segment (i + 1) n l.
Proof.
  intros Hi E. unfold segment. rewrite (from_next i l v ltac:(lia) E).
  replace (Z.to_nat (n - i)) with (S (Z.to_nat (n - (i + 1)))) by lia. done.
Qed.
Lemma segment_end i l : segment i i l = [].
Proof. unfold segment. by rewrite Z.sub_diag. Qed.

Lemma move_loop_ok n fuel : forall h cb l tmp lt i, rep h cb l -> rep h tmp lt -> (space_ tmp = 0 \/ space_ tmp <> space_ cb) ->
  0 <= i <= n -> n <= size_ cb -> zlen lt + (n - i) <= capacity_ tmp -> n - i < Z.of_nat fuel ->
  exists h' l' tmp', move_loop hardened moved fuel h cb (iter cb i) (iter cb n) tmp = Ok (h', tmp') /\ rep h' cb l' /\
    rep h' tmp' (lt ++ segment i n l) /\ shape tmp' = shape tmp /\ space_ tmp' = space_ tmp /\
    (forall q, q <> space_ tmp -> q <> space_ cb -> h' !! q = h !! q) /\ (h !! 0 = None -> h' !! 0 = None).
Proof.
  induction fuel as [|fuel IH]; intros h cb l tmp lt i Hr Ht Hp Hi Hn Hc Hf; [lia|].
  pose proof (rep_size _ _ _ Hr) as (Es & Hs & _). pose proof (zlen_nonneg lt). cbn [move_loop].
  rewrite (iter_eq _ _ _ _ _ Hr) by lia. destruct (Z.eqb_spec i n) as [->|Hne].
  { exists h, l, tmp. rewrite segment_end, app_nil_r. split_and!; done. }
  destruct (contents_lt l i ltac:(lia)) as [v Ev]. rewrite (Deref_iter _ _ _ _ v Hr), bind_Ok by (done || lia).
  destruct (assign_iter _ _ _ i (moved v) Hr ltac:(lia)) as (h1 & -> & Hr1 & [Ht1 Hd1]). rewrite bind_Ok.
  destruct (rep_held _ _ _ Ht ltac:(lia)) as [bt Hht]. pose proof (held_space _ _ _ _ Hht) as Hsp.
  assert (space_ tmp <> space_ cb) as Hne' by (destruct Hp; [lia|done]).
  assert (held h1 tmp bt lt) as Hht1 by (destruct Hht; split; try done; by rewrite Ht1).
  destruct (push_back_held hardened _ _ _ _ Hht1 v) as (h2 & tmp2 & -> & Ht2 & Ec2 & Ep2 & [Hf2 Hd2]).
  pose proof (f_equal fst Ec2) as Ec2'. cbn in Ec2'. rewrite bind_Ok.
  unfold pushed_back in Ht2. rewrite (proj2 (Z.eqb_neq _ _)) in Ht2 by lia.
  assert (rep h2 cb (<[Z.to_nat i := moved v]> l)) as Hr2 by (eapply rep_frame; [done|apply Hf2; congruence]).
  rewrite (Incr_iter _ _ _ _ _ _ Hr), bind_Ok by lia.
  destruct (IH h2 cb _ tmp2 (lt ++ [v]) (i + 1) Hr2 Ht2) as (h' & l' & tmp' & E & Hr' & Ht' & Ec' & Ep' & Hf' & H0');
    [right; congruence|lia|lia|rewrite zlen_app1; lia|lia|].
  exists h', l', tmp'. rewrite E, Ec', Ep', Ec2, Ep2. rewrite <- (assoc_L app) in Ht'. unfold segment in Ht'.
  rewrite from_update in Ht' by lia. rewrite (segment_next i n l v) by (done || lia). split_and!; try done.
  - intros q Hq Hq'. rewrite Hf', Hf2, Ht1 by congruence. done.
  - intros Hz. apply H0'. pose proof (rep_space _ _ _ Hr). rewrite Hf2 by lia. rewrite Ht1; [done|].
    destruct (rep_held _ _ _ Hr ltac:(lia)) as [b Hh]. pose proof (held_space _ _ _ _ Hh). lia.
Qed.

Lemma null_rep h a : rep h (null_buffer a) [].
Proof. by left. Qed.

Lemma ChangeCapacity_ok h cb l c : rep h cb l -> h !! 0 = None -> 0 <= c <= max_size ->
  exists h' cb', ChangeCapacity hardened moved h cb c = Ok (h', cb') /\ rep h' cb' (take (Z.to_nat c) l) /\
    shape cb' = (c, allocator_ cb) /\ adds (delete (space_ cb) h) h' (space_ cb').
Proof.
  intros Hr H0n Hc. pose proof (rep_size _ _ _ Hr) as (Es & Hs & Hc63). pose proof (rep_space _ _ _ Hr) as [Hsp _].
  unfold ChangeCapacity. destruct (Z.eqb_spec c (capacity_ cb)) as [->|Hne].
  { exists h, cb. rewrite take_ge by (unfold zlen in *; lia). split_and!; try done. by apply adds_self. }
  destruct (Allocate_ok h (allocator_ cb) c Hc) as (h1 & p & Ea & [Hfr Hp] & Ht). unfold make. rewrite Ea, !bind_Ok.
  assert (h1 !! 0 = None) as H1n by (destruct Hp as [[_ ->]|[Hp _]]; [done|rewrite Hfr; [done|lia]]).
  assert (p = 0 \/ p <> space_ cb) as Hpne.
  { destruct Hp as [[-> _]|[Hp Hnone]]; [by left|right]. intros ->. destruct Hr as [[(_ & _ & _ & E) _]|[b Hh]]; [lia|].
    rewrite (held_block _ _ _ _ Hh) in Hnone. done. }
  assert (rep h1 cb l) as Hr1.
  { destruct (decide (p = 0)) as [->|]; [destruct Hp as [[_ ->]|[? _]]; [done|lia]|].
    eapply rep_frame; [done|]. apply Hfr. destruct Hpne; congruence. }
  rewrite (begin_iter _ _ _ Hr1). rewrite (Incr_iter _ _ _ _ _ _ Hr1), bind_Ok by lia. cbn [Z.add].
  change (iter cb (0 + ?n)) with (iter cb n).
  destruct (move_loop_ok (Z.min (size_ cb) c) (loop_fuel cb) h1 cb l (buffer (allocator_ cb) c p []) [] 0 Hr1 Ht)
    as (h2 & l2 & tmp & E2 & Hr2 & Ht2 & Ec2 & Ep2 & Hf2 & H2n); try (cbn -[zlen]; rewrite ?zlen_nil; unfold loop_fuel; lia).
  change (buffer (allocator_ cb) c p []) with ({| allocator_ := allocator_ cb; capacity_ := c; begin_ := 0; size_ := 0; space_ := p |}) in *. rewrite E2, bind_Ok. clear E2.
  cbn [space_ capacity_] in *.
  destruct (move_assign_ok h2 cb tmp _ _ Hr2 Ht2 (H2n H1n)) as (h3 & cb3 & -> & Hr3 & Ec3 & Ha3); [by rewrite Ep2|]. rewrite bind_Ok.
  assert (delete (space_ tmp) (delete (space_ cb) h2) = delete (space_ cb) h) as Eh.
  { rewrite Ep2. apply map_eq. intros q. destruct (decide (q = space_ cb)) as [->|].
    - rewrite lookup_delete_eq. destruct (decide (p = space_ cb)) as [->|]; [by rewrite lookup_delete_eq|].
      rewrite lookup_delete_ne by done. by rewrite lookup_delete_eq.
    - rewrite (lookup_delete_ne _ (space_ cb)) by done. destruct (decide (q = p)) as [->|].
      + rewrite lookup_delete_eq. destruct Hp as [[-> _]|[_ Hp]]; done.
      + rewrite !lookup_delete_ne by done. rewrite Hf2, Hfr by done. done. }
  rewrite Eh in Ha3. assert (h3 !! 0 = None) as H3n.
  { destruct (decide (space_ cb3 = 0)) as [E|]; [|rewrite (proj1 Ha3) by done; by rewrite lookup_delete_None; right].
    destruct Ha3 as [_ [[_ ->]|[? _]]]; [by rewrite lookup_delete_None; right|lia]. }
  rewrite (destroy_buffer_rep hardened _ _ _ (null_rep h3 _) H3n), bind_Ok. cbn [null_buffer space_]. rewrite delete_id by done.
  eexists _, _. split; [done|]. split; [|split; [|done]].
  2:{ rewrite Ec3. injection Ec2 as -> ->. by destruct moves_storage. }
  cbn [app] in Hr3. unfold segment in Hr3. rewrite from_all, Z.sub_0_r in Hr3.
  rewrite Es in Hr3. destruct (Z.min_spec (zlen l) c) as [[? Em]|[? Em]]; rewrite Em in Hr3; [|done].
  rewrite take_ge in Hr3 by (unfold zlen; lia). by rewrite take_ge by (unfold zlen in *; lia).
Qed.
End move.
