(* ===== verification/CircularBufferSpec.v ===== *)
(** * Circular buffers refine bounded sequences

    Scripts over any number of buffers: construction, copies, moves, swaps,
    destruction, pushes and pops at both ends, access, iterators, comparison and
    changes of the capacity, against sequences with a bound.  The blocks of the
    heap are those of the buffers. *)
From Stdlib Require Import ZArith Lia.
From stdpp Require Import base list numbers option gmap fin_maps.
From S2P Require Import Prelude.
From S2P Require Import CircularBuffer.
From S2P Require Import CircularBufferProps.
From S2P Require Import CircularBufferMove.
Local Open Scope Z_scope.

(** Buffers are named by numbers. *)
Inductive cb_op (T : Type) :=
| OMake (i : nat) (c a : Z) | OCopy (i j : nat) | OMove (i j : nat)
| OCopyAssign (i j : nat) | OMoveAssign (i j : nat) | OSwap (i j : nat) | ODestroy (i : nat)
| OChangeCapacity (i : nat) (c : Z)
| OPushFront (i : nat) (v : T) | OPushBack (i : nat) (v : T) | OEmplaceFront (i : nat) (v : T) | OEmplaceBack (i : nat) (v : T)
| OPopFront (i : nat) | OPopBack (i : nat) | OClear (i : nat)
| OFront (i : nat) | OBack (i : nat) | OAt (i : nat) (pos : Z) | OIndex (i : nat) (pos : Z)
| OSize (i : nat) | OCapacity (i : nat) | OEmpty (i : nat) | OFull (i : nat)
| OIterAt (i : nat) (n : Z) | ODistance (i : nat) | OEq (i j : nat) | OLt (i j : nat) | OSameAllocator (i j : nat).
Arguments OMake {T}. Arguments OCopy {T}. Arguments OMove {T}. Arguments OCopyAssign {T}. Arguments OMoveAssign {T}.
Arguments OSwap {T}. Arguments ODestroy {T}. Arguments OChangeCapacity {T}. Arguments OPushFront {T}. Arguments OPushBack {T}.
Arguments OEmplaceFront {T}. Arguments OEmplaceBack {T}. Arguments OPopFront {T}. Arguments OPopBack {T}. Arguments OClear {T}.
Arguments OFront {T}. Arguments OBack {T}. Arguments OAt {T}. Arguments OIndex {T}. Arguments OSize {T}. Arguments OCapacity {T}.
Arguments OEmpty {T}. Arguments OFull {T}. Arguments OIterAt {T}. Arguments ODistance {T}. Arguments OEq {T}. Arguments OLt {T}.
Arguments OSameAllocator {T}.

Inductive cb_obs (T : Type) := RVoid | RElem (v : T) | RNum (n : Z) | RBool (b : bool).
Arguments RVoid {T}. Arguments RElem {T}. Arguments RNum {T}. Arguments RBool {T}.

Section run.
Context {T : Type} `{SlotAllocator T} `{BuildMode}.
Context (hardened : bool) (moved : T -> T) (eqb ltb : T -> T -> bool).
Implicit Types (h : slots T) (cb : CircularBuffer) (l : list T) (v : T).

(** ** Running the code *)

Record world := { heap : slots T; bufs : gmap nat CircularBuffer }.

Definition get (w : world) (i : nat) : outcome CircularBuffer := match bufs w !! i with Some cb => Ok cb | None => UB end.
Definition put (w : world) (i : nat) (r : slots T * CircularBuffer) : world := {| heap := r.1; bufs := <[i := r.2]> (bufs w) |}.
Definition unused (w : world) (i : nat) : outcome unit := match bufs w !! i with Some _ => UB | None => Ok tt end.

(** An operation that changes buffer [i]. *)
Definition update (w : world) (i : nat) (f : slots T -> CircularBuffer -> outcome (slots T * CircularBuffer)) : outcome (world * cb_obs T) :=
  cb ← get w i; r ← f (heap w) cb; Ok (put w i r, RVoid).
(** One that only looks. *)
Definition look {A} (w : world) (i : nat) (f : slots T -> CircularBuffer -> outcome A) (obs : A -> cb_obs T) : outcome (world * cb_obs T) :=
  cb ← get w i; a ← f (heap w) cb; Ok (w, obs a).

Definition run_op (w : world) (o : cb_op T) : outcome (world * cb_obs T) :=
  match o with
  | OMake i c a => unused w i;; r ← make (heap w) c a; Ok (put w i r, RVoid)
  | OCopy i j => unused w i;; cb ← get w j; r ← make_copy hardened moved (heap w) cb; Ok (put w i r, RVoid)
  | OMove i j => unused w i;; cb ← get w j; let '(a, b) := make_moved cb in Ok (put (put w j (heap w, b)) i (heap w, a), RVoid)
  | OCopyAssign i j => o ← get w j; update w i (fun h cb => copy_assign hardened moved (bool_decide (i = j)) h cb o)
  | OMoveAssign i j =>
      cb ← get w i; o ← get w j;
      '(h, cb, o) ← move_assign hardened moved (bool_decide (i = j)) (heap w) cb o;
      Ok (put (put w j (h, o)) i (h, cb), RVoid)
  | OSwap i j => a ← get w i; b ← get w j; '(a, b) ← swap a b; Ok (put (put w j (heap w, b)) i (heap w, a), RVoid)
  | ODestroy i => cb ← get w i; h ← destroy hardened (heap w) cb; Ok ({| heap := h; bufs := delete i (bufs w) |}, RVoid)
  | OChangeCapacity i c => update w i (fun h cb => ChangeCapacity hardened moved h cb c)
  | OPushFront i v => update w i (fun h cb => push_front h cb v)
  | OPushBack i v => update w i (fun h cb => push_back hardened h cb v)
  | OEmplaceFront i v => update w i (fun h cb => emplace_front h cb v)
  | OEmplaceBack i v => update w i (fun h cb => emplace_back hardened h cb v)
  | OPopFront i => update w i (fun h cb => pop_front h cb)
  | OPopBack i => update w i (fun h cb => pop_back hardened h cb)
  | OClear i => update w i (fun h cb => clear hardened h cb)
  | OFront i => look w i (fun h cb => front h cb) RElem
  | OBack i => look w i (fun h cb => back hardened h cb) RElem
  | OAt i pos => look w i (fun h cb => at_ hardened h cb pos) RElem
  | OIndex i pos => look w i (fun h cb => index hardened h cb pos) RElem
  | OSize i => look w i (fun h cb => Ok (size cb)) RNum
  | OCapacity i => look w i (fun h cb => Ok (capacity cb)) RNum
  | OEmpty i => look w i (fun h cb => Ok (empty cb)) RBool
  | OFull i => look w i (fun h cb => Ok (full cb)) RBool
  | OIterAt i n => look w i (fun h cb => p ← Incr hardened cb (begin cb) n; Deref h cb p) RElem
  | ODistance i => look w i (fun h cb => Subtract hardened cb (end_ cb) (begin cb)) RNum
  | OEq i j => a ← get w i; look w j (fun h b => operator_eq hardened eqb h a b) RBool
  | OLt i j => a ← get w i; look w j (fun h b => operator_lt hardened ltb h a b) RBool
  | OSameAllocator i j => a ← get w i; look w j (fun h b => Ok (allocator_eqb (get_allocator a) (get_allocator b))) RBool
  end.

Fixpoint run (w : world) (os : list (cb_op T)) : outcome (world * list (cb_obs T)) :=
  match os with
  | [] => Ok (w, [])
  | o :: os => '(w, r) ← run_op w o; '(w, rs) ← run w os; Ok (w, r :: rs)
  end.

(** ** Bounded sequences *)

(** The capacity, the allocator and the elements of each buffer. *)
Abbreviation seqs := (gmap nat (Z * Z * list T)).

Fixpoint list_eqb l l' : bool :=
  match l, l' with [], [] => true | x :: l, y :: l' => eqb x y && list_eqb l l' | _, _ => false end.
Fixpoint list_ltb l l' : bool :=
  match l, l' with
  | [], l' => match l' with [] => false | _ => true end
  | x :: l, [] => false
  | x :: l, y :: l' => if ltb x y then true else if ltb y x then false else list_ltb l l'
  end.

Definition sget (s : seqs) (i : nat) : outcome (Z * Z * list T) := match s !! i with Some a => Ok a | None => UB end.
Definition sunused (s : seqs) (i : nat) : outcome unit := match s !! i with Some _ => UB | None => Ok tt end.

(** [UB] where nothing is promised. *)
Definition checked {A} : outcome A := if hardened || negb NDEBUG then Crash else UB.
Definition asserted {A} : outcome A := if NDEBUG then UB else Crash.
Definition the_elem (x : option T) : outcome T := match x with Some v => Ok v | None => UB end.

Definition new_capacity (c : Z) : outcome unit := if (c <? 0) || (2 ^ 64 <=? c) then UB else if max_size <? c then Crash else Ok tt.

Definition supdate (s : seqs) (i : nat) (f : Z -> list T -> outcome (list T)) : outcome (seqs * cb_obs T) :=
  '(c, l) ← sget s i; l ← f c.1 l; Ok (<[i := (c, l)]> s, RVoid).
Definition slook {A} (s : seqs) (i : nat) (f : Z -> list T -> outcome A) (obs : A -> cb_obs T) : outcome (seqs * cb_obs T) :=
  '(c, l) ← sget s i; a ← f c.1 l; Ok (s, obs a).

(** The element at [pos], which counts from the end if it is negative. *)
Definition elem_at (l : list T) (pos : Z) : outcome T :=
  if negb ((- 2 ^ 63 <=? pos) && (pos <? 2 ^ 63)) then UB
  else if (- zlen l <=? pos) && (pos <? zlen l) then the_elem (contents l (if pos <? 0 then pos + zlen l else pos))
  else checked.

(** Copies, moves and swaps take or leave the allocator as the traits say.  A copy into a
    sequence with a capacity that would get an unequal allocator is not promised to work,
    nor, without checks, a swap of sequences whose unequal allocators do not propagate. *)
Definition spec_op (s : seqs) (o : cb_op T) : outcome (seqs * cb_obs T) :=
  match o with
  | OMake i c a => sunused s i;; new_capacity c;; Ok (<[i := ((c, a), [])]> s, RVoid)
  | OCopy i j =>
      sunused s i;; '(c, l) ← sget s j;
      Ok (<[i := ((c.1, select_on_container_copy_construction c.2), l)]> s, RVoid)
  | OMove i j =>
      sunused s i;; '(c, l) ← sget s j; Ok (<[i := (c, l)]> (<[j := ((0, c.2), [])]> s), RVoid)
  | OCopyAssign i j =>
      '(c, l) ← sget s j; '(d, _) ← sget s i;
      let a := if propagate_on_container_copy_assignment then c.2 else d.2 in
      if (d.1 =? 0) || allocator_eqb d.2 a then Ok (<[i := ((c.1, a), l)]> s, RVoid) else UB
  | OMoveAssign i j =>
      '(d, _) ← sget s i; '(c, l) ← sget s j;
      if propagate_on_container_move_assignment || is_always_equal then
        Ok (<[i := (c, l)]> (<[j := ((0, default_allocator), [])]> s), RVoid)
      else Ok (<[i := ((c.1, d.2), l)]> (<[j := ((0, c.2), [])]> s), RVoid)
  | OSwap i j =>
      '(c, l) ← sget s i; '(d, k) ← sget s j;
      if propagate_on_container_swap then Ok (<[i := (d, k)]> (<[j := (c, l)]> s), RVoid)
      else if allocator_eqb c.2 d.2 then
        Ok (<[i := ((d.1, c.2), k)]> (<[j := ((c.1, d.2), l)]> s), RVoid)
      else asserted
  | ODestroy i => _ ← sget s i; Ok (delete i s, RVoid)
  | OChangeCapacity i c => '(d, l) ← sget s i; new_capacity c;; Ok (<[i := ((c, d.2), take (Z.to_nat c) l)]> s, RVoid)
  | OPushFront i v | OEmplaceFront i v => supdate s i (fun c l => if c =? 0 then Crash else Ok (pushed_front c l v))
  | OPushBack i v | OEmplaceBack i v => supdate s i (fun c l => if c =? 0 then asserted else Ok (pushed_back c l v))
  | OPopFront i => supdate s i (fun c l => if zlen l =? 0 then Crash else Ok (drop 1 l))
  | OPopBack i => supdate s i (fun c l => if zlen l =? 0 then Crash else Ok (take (Z.to_nat (zlen l - 1)) l))
  | OClear i => supdate s i (fun c l => Ok [])
  | OFront i => slook s i (fun c l => the_elem (contents l 0)) RElem
  | OBack i => slook s i (fun c l => if zlen l =? 0 then checked else the_elem (contents l (zlen l - 1))) RElem
  | OAt i pos => slook s i (fun c l => elem_at l pos) RElem
  | OIndex i pos => slook s i (fun c l => elem_at l (s64 pos)) RElem
  | OSize i | ODistance i => slook s i (fun c l => Ok (zlen l)) RNum
  | OCapacity i => slook s i (fun c l => Ok c) RNum
  | OEmpty i => slook s i (fun c l => Ok (zlen l =? 0)) RBool
  | OFull i => slook s i (fun c l => Ok (zlen l =? c)) RBool
  | OIterAt i n => slook s i (fun c l =>
      if negb ((- 2 ^ 63 <=? n) && (n <? 2 ^ 63)) then UB
      else if (0 <=? n) && (n <=? zlen l) then the_elem (contents l n) else Crash) RElem
  | OEq i j => '(_, l) ← sget s i; slook s j (fun c l' => Ok (list_eqb l l')) RBool
  | OLt i j => '(_, l) ← sget s i; slook s j (fun c l' => Ok (list_ltb l l')) RBool
  | OSameAllocator i j => '(c, _) ← sget s i; '(d, _) ← sget s j; Ok (s, RBool (allocator_eqb c.2 d.2))
  end.

Fixpoint spec_run (s : seqs) (os : list (cb_op T)) : outcome (seqs * list (cb_obs T)) :=
  match os with
  | [] => Ok (s, [])
  | o :: os => '(s, r) ← spec_op s o; '(s, rs) ← spec_run s os; Ok (s, r :: rs)
  end.
End run.

Section spec.
Context {T : Type} `{SlotAllocator T} `{BuildMode}.
Context (hardened : bool) (moved : T -> T) (eqb ltb : T -> T -> bool).
Implicit Types (h : slots T) (cb : CircularBuffer) (l : list T) (v : T) (w : gmap nat CircularBuffer) (s : gmap nat (Z * Z * list T)).

(** ** The invariant of the heap *)

(** The buffers hold their sequences, in blocks of their own, and there are no
    other blocks. *)
Record winv h w s : Prop := {
  winv_null : h !! 0 = None;
  winv_rep i : match w !! i, s !! i with
               | Some cb, Some (c, l) => shape cb = c /\ rep h cb l
               | None, None => True
               | _, _ => False
               end;
  winv_apart i j a b : w !! i = Some a -> w !! j = Some b -> i <> j -> space_ a = 0 \/ space_ a <> space_ b;
  winv_owned p : is_Some (h !! p) -> exists i cb, w !! i = Some cb /\ space_ cb = p;
}.

Lemma winv_get h w s i c l : winv h w s -> s !! i = Some (c, l) -> exists cb, w !! i = Some cb /\ shape cb = c /\ rep h cb l.
Proof. intros Hw E. pose proof (winv_rep _ _ _ Hw i) as Hr. rewrite E in Hr. destruct (w !! i) as [cb|]; [by exists cb|done]. Qed.
Lemma winv_none h w s i : winv h w s -> s !! i = None -> w !! i = None.
Proof. intros Hw E. pose proof (winv_rep _ _ _ Hw i) as Hr. rewrite E in Hr. by destruct (w !! i). Qed.

Lemma rep_space_block h cb l : rep h cb l -> space_ cb <> 0 -> is_Some (h !! space_ cb).
Proof. intros [[(_ & _ & _ & E) _]|[b Hh]] Hne; [done|]. rewrite (held_block _ _ _ _ Hh). by eexists. Qed.

Lemma rep_null h h' cb l : rep h cb l -> space_ cb = 0 -> rep h' cb l.
Proof. intros Hr E. left. by apply (rep_space _ _ _ Hr). Qed.

Lemma winv_remove h w s i cb : winv h w s -> w !! i = Some cb -> winv (delete (space_ cb) h) (delete i w) (delete i s).
Proof.
  intros [Hn Hr Ha Ho] Ei. split.
  - by rewrite lookup_delete_None; right.
  - intros j. destruct (decide (i = j)) as [->|Hne]; [by rewrite !lookup_delete_eq|]. rewrite !lookup_delete_ne by done.
    specialize (Hr j). destruct (w !! j) as [a|] eqn:Ej, (s !! j) as [[c l]|]; try done. destruct Hr as [Hc Hrep]. split; [done|].
    destruct (Ha j i a cb Ej Ei ltac:(congruence)) as [E|E]; [by eapply rep_null|]. eapply rep_frame; [done|]. by rewrite lookup_delete_ne.
  - intros j k a b. rewrite !lookup_delete_Some. intros [_ Ej] [_ Ek]. by apply Ha.
  - intros p Hp. destruct (decide (p = space_ cb)) as [->|Hne]; [rewrite lookup_delete_eq in Hp; by destruct Hp|].
    rewrite lookup_delete_ne in Hp by done. destruct (Ho p Hp) as (j & a & Ej & <-). exists j, a. split; [|done].
    rewrite lookup_delete_ne; [done|]. intros ->. rewrite Ej in Ei. by injection Ei as ->.
Qed.

Lemma winv_add h h' w s i cb l : winv h w s -> w !! i = None -> adds h h' (space_ cb) -> rep h' cb l ->
  winv h' (<[i := cb]> w) (<[i := (shape cb, l)]> s).
Proof.
  intros [Hn Hr Ha Ho] Ei [Hf Hp] Hcb.
  assert (forall j a c la, w !! j = Some a -> s !! j = Some (c, la) -> rep h a la /\ (space_ a = 0 \/ space_ a <> space_ cb)) as Hother.
  { intros j a c la Ej Es. specialize (Hr j). rewrite Ej, Es in Hr. split; [apply Hr|].
    destruct (decide (space_ a = 0)) as [|Hne]; [by left|right]. intros E.
    destruct (rep_space_block _ _ _ (proj2 Hr) Hne) as [b Eb]. rewrite E in Eb, Hne. destruct Hp as [[? _]|[_ Hnone]]; [done|congruence]. }
  assert (forall j a, w !! j = Some a -> space_ a = 0 \/ space_ a <> space_ cb) as Hother'.
  { intros j a Ej. pose proof (Hr j) as Hj. rewrite Ej in Hj. destruct (s !! j) as [[c la]|] eqn:Es; [|done]. by eapply Hother. }
  split.
  - destruct Hp as [[_ ->]|[Hp _]]; [done|]. rewrite Hf by lia. done.
  - intros j. destruct (decide (i = j)) as [->|Hne]; [by rewrite !lookup_insert_eq|]. rewrite !lookup_insert_ne by done.
    pose proof (Hr j) as Hj. destruct (w !! j) as [a|] eqn:Ej, (s !! j) as [[c la]|] eqn:Es; try done. split; [apply Hj|].
    destruct (Hother j a c la Ej Es) as [Hra [E|E]]; [by eapply rep_null|]. eapply rep_frame; [done|]. by apply Hf.
  - intros j k a b Ej Ek Hne. apply lookup_insert_Some in Ej as [[-> <-]|[_ Ej]], Ek as [[-> <-]|[_ Ek]].
    + done.
    + destruct (Hother' k b Ek) as [E|E]; [|right; congruence]. destruct (decide (space_ cb = 0)); [by left|right; congruence].
    + by eapply Hother'.
    + by apply (Ha j k).
  - intros p Hs. destruct (decide (p = space_ cb)) as [->|Hne]; [exists i, cb; by rewrite lookup_insert_eq|].
    rewrite Hf in Hs by done. destruct (Ho p Hs) as (j & a & Ej & <-). exists j, a. split; [|done].
    rewrite lookup_insert_ne; [done|]. intros ->. congruence.
Qed.

Lemma winv_replace h h' w s i cb cb' l : winv h w s -> w !! i = Some cb -> adds (delete (space_ cb) h) h' (space_ cb') ->
  rep h' cb' l -> winv h' (<[i := cb']> w) (<[i := (shape cb', l)]> s).
Proof.
  intros Hw Ei Ha Hr. rewrite <- (insert_delete_eq w), <- (insert_delete_eq s). eapply winv_add; [by eapply winv_remove| |done|done].
  apply lookup_delete_eq.
Qed.

Lemma touches_adds h h' p : 0 <= p -> touches h h' p -> h !! 0 = None -> adds (delete p h) h' p.
Proof.
  intros Hp [Hf Hd] Hn. split; [intros q Hq; by rewrite lookup_delete_ne, Hf|]. destruct (decide (p = 0)) as [->|].
  - left. split; [done|]. rewrite delete_id by done. apply map_eq. intros q. destruct (decide (q = 0)) as [->|]; [|by apply Hf].
    rewrite Hn. apply eq_None_not_Some. rewrite Hd, Hn. by intros [? ?].
  - right. rewrite lookup_delete_eq. split; [lia|done].
Qed.

(** ** Simulation *)

(** [r] does what [q] promises. *)
Definition agrees {A B} (R : A -> B -> Prop) (r : outcome A) (q : outcome B) : Prop :=
  match q with Ok y => exists x, r = Ok x /\ R x y | Crash => r = Crash | UB => True end.

Definition sim_result (x : world * cb_obs T) (y : gmap nat (Z * Z * list T) * cb_obs T) : Prop :=
  winv (heap x.1) (bufs x.1) y.1 /\ x.2 = y.2.

Abbreviation simulates := (agrees sim_result).

(** An operation of one buffer. *)
Definition op_ok (f : slots T -> CircularBuffer -> outcome (slots T * CircularBuffer)) (g : Z -> list T -> outcome (list T)) : Prop :=
  forall h cb l, rep h cb l ->
    match g (capacity_ cb) l with Ok l' => inplace h cb (f h cb) l' | Crash => f h cb = Crash | UB => True end.
Definition look_ok {A} (f : slots T -> CircularBuffer -> outcome A) (g : Z -> list T -> outcome A) : Prop :=
  forall h cb l, rep h cb l -> match g (capacity_ cb) l with Ok a => f h cb = Ok a | Crash => f h cb = Crash | UB => True end.

Section world.
Context (w : world) (s : gmap nat (Z * Z * list T)) (Hw : winv (heap w) (bufs w) s).

Lemma get_sim i : match s !! i with
  | Some (c, l) => exists cb, get w i = Ok cb /\ bufs w !! i = Some cb /\ sget s i = Ok (c, l) /\ shape cb = c /\ rep (heap w) cb l
  | None => sget s i = UB
  end.
Proof.
  unfold sget, get. destruct (s !! i) as [[c l]|] eqn:E; [|done]. destruct (winv_get _ _ _ _ _ _ Hw E) as (cb & -> & Hc & Hr).
  by exists cb.
Qed.

Lemma unused_sim i : match s !! i with
  | None => unused w i = Ok tt /\ bufs w !! i = None /\ sunused s i = Ok tt
  | Some _ => sunused s i = UB
  end.
Proof.
  unfold sunused, unused. destruct (s !! i) eqn:E; [done|]. by rewrite (winv_none _ _ _ _ Hw E).
Qed.

Lemma update_sim i f g : op_ok f g -> simulates (update w i f) (supdate s i g).
Proof.
  intros Hok. unfold update, supdate. pose proof (get_sim i) as Hg. destruct (s !! i) as [[c l]|]; [|by rewrite Hg].
  destruct Hg as (cb & -> & Ei & -> & <- & Hr). rewrite !bind_Ok. specialize (Hok _ _ _ Hr).
  change (shape cb).1 with (capacity_ cb). destruct (g (capacity_ cb) l) as [l'| |].
  - destruct Hok as (h' & cb' & -> & Hr' & <- & Ep & Ht). rewrite !bind_Ok. eexists. split; [done|]. split; [|done]. cbn.
    eapply winv_replace; [done|done| |done]. rewrite Ep. apply touches_adds; [|done|apply Hw]. apply (rep_space _ _ _ Hr).
  - by rewrite Hok.
  - done.
Qed.

Lemma look_sim {A} i (f : slots T -> CircularBuffer -> outcome A) g obs :
  (forall cb l, rep (heap w) cb l -> match g (capacity_ cb) l with Ok a => f (heap w) cb = Ok a | Crash => f (heap w) cb = Crash | UB => True end) ->
  simulates (look w i f obs) (slook s i g obs).
Proof.
  intros Hok. unfold look, slook. pose proof (get_sim i) as Hg. destruct (s !! i) as [[c l]|]; [|by rewrite Hg].
  destruct Hg as (cb & -> & Ei & -> & <- & Hr). rewrite !bind_Ok. specialize (Hok _ _ Hr).
  change (shape cb).1 with (capacity_ cb). destruct (g (capacity_ cb) l) as [a| |].
  - rewrite Hok. by eexists.
  - by rewrite Hok.
  - done.
Qed.

(** A new buffer. *)
Lemma add_sim i r c l : bufs w !! i = None ->
  (exists h' cb', r = Ok (h', cb') /\ rep h' cb' l /\ shape cb' = c /\ adds (heap w) h' (space_ cb')) ->
  simulates (r ← r; Ok (put w i r, RVoid)) (Ok (<[i := (c, l)]> s, RVoid)).
Proof.
  intros Ei (h' & cb' & -> & Hr & <- & Ha). rewrite bind_Ok. eexists. split; [done|]. split; [|done]. by eapply winv_add.
Qed.

(** A buffer that gets other storage. *)
Lemma replace_sim i cb r c l : bufs w !! i = Some cb ->
  (exists h' cb', r = Ok (h', cb') /\ rep h' cb' l /\ shape cb' = c /\ adds (delete (space_ cb) (heap w)) h' (space_ cb')) ->
  simulates (r ← r; Ok (put w i r, RVoid)) (Ok (<[i := (c, l)]> s, RVoid)).
Proof.
  intros Ei (h' & cb' & -> & Hr & <- & Ha). rewrite bind_Ok. eexists. split; [done|]. split; [|done]. by eapply winv_replace.
Qed.
End world.

(** ** Operations of one buffer *)

Lemma capacity_cases h cb l : rep h cb l -> (capacity_ cb = 0 /\ no_storage cb /\ l = []) \/ (0 < capacity_ cb /\ exists b, held h cb b l).
Proof.
  intros [[Hn ->]|[b Hh]]; [left|right].
  - split; [apply Hn|done].
  - split; [apply (held_bound _ _ _ _ Hh)|by exists b].
Qed.

Lemma pushed_front_ok v : op_ok (fun h cb => push_front h cb v) (fun c l => if c =? 0 then Crash else Ok (pushed_front c l v)) /\
  op_ok (fun h cb => emplace_front h cb v) (fun c l => if c =? 0 then Crash else Ok (pushed_front c l v)).
Proof.
  split; intros h cb l Hr; destruct (capacity_cases _ _ _ Hr) as [(Ec & (_ & Eb & _) & _)|[Hc [b Hh]]].
  - rewrite Ec. cbn. unfold push_front, PushFrontInternal, prevpos. rewrite Ec, Eb. cbn. unfold DCHECK. by destruct NDEBUG.
  - rewrite (proj2 (Z.eqb_neq _ _)) by lia. by eapply push_front_held.
  - rewrite Ec. cbn. unfold emplace_front, prevpos. rewrite Ec, Eb. cbn. unfold DCHECK. by destruct NDEBUG.
  - rewrite (proj2 (Z.eqb_neq _ _)) by lia. rewrite (emplace_front_held _ _ _ _ Hh). by eapply push_front_held.
Qed.

Lemma pushed_back_ok v : op_ok (fun h cb => push_back hardened h cb v) (fun c l => if c =? 0 then asserted else Ok (pushed_back c l v)) /\
  op_ok (fun h cb => emplace_back hardened h cb v) (fun c l => if c =? 0 then asserted else Ok (pushed_back c l v)).
Proof.
  split; intros h cb l Hr; destruct (capacity_cases _ _ _ Hr) as [(Ec & _)|[Hc [b Hh]]].
  - rewrite Ec. cbn. unfold push_back, PushBackInternal, asserted. rewrite Ec. cbn. unfold DCHECK. by destruct NDEBUG.
  - rewrite (proj2 (Z.eqb_neq _ _)) by lia. by eapply push_back_held.
  - rewrite Ec. cbn. unfold emplace_back, asserted. rewrite Ec. cbn. unfold DCHECK. by destruct NDEBUG.
  - rewrite (proj2 (Z.eqb_neq _ _)) by lia. rewrite (emplace_back_held _ _ _ _ _ Hh). by eapply push_back_held.
Qed.

Lemma rep_nonempty h cb l : rep h cb l -> zlen l <> 0 -> exists b, held h cb b l.
Proof. intros [[_ ->]|Hh] Hne; [by destruct Hne|done]. Qed.

Lemma pop_ok : op_ok (fun h cb => pop_front h cb) (fun c l => if zlen l =? 0 then Crash else Ok (drop 1 l)) /\
  op_ok (fun h cb => pop_back hardened h cb) (fun c l => if zlen l =? 0 then Crash else Ok (take (Z.to_nat (zlen l - 1)) l)).
Proof.
  split; intros h cb l Hr; pose proof (rep_size _ _ _ Hr) as (Es & Hs & _); pose proof (zlen_nonneg l);
    destruct (Z.eqb_spec (zlen l) 0) as [E|Hne].
  - unfold pop_front. rewrite (proj2 (Z.ltb_ge _ _)) by lia. done.
  - destruct (rep_nonempty _ _ _ Hr Hne) as [b Hh]. eapply pop_front_held; [done|lia].
  - unfold pop_back. rewrite (proj2 (Z.ltb_ge _ _)) by lia. done.
  - destruct (rep_nonempty _ _ _ Hr Hne) as [b Hh]. eapply pop_back_held; [done|lia].
Qed.

Lemma clear_ok : op_ok (fun h cb => clear hardened h cb) (fun c l => Ok []).
Proof. intros h cb l Hr. by eapply clear_rep. Qed.

Lemma failed_check c : c = false -> HARDENING_CHECK hardened c = (if hardened || negb NDEBUG then Crash else Ok tt).
Proof. by intros ->. Qed.

Lemma front_ok : look_ok (fun h cb => front h cb) (fun c l => the_elem (contents l 0)).
Proof.
  intros h cb l Hr. destruct (contents l 0) as [v|] eqn:Ev; [|done]. cbn.
  destruct (rep_nonempty _ _ _ Hr) as [b Hh]; [intros E; apply zlen_0 in E as ->; done|]. by eapply front_held.
Qed.

Lemma back_ok : look_ok (fun h cb => back hardened h cb) (fun c l => if zlen l =? 0 then checked hardened else the_elem (contents l (zlen l - 1))).
Proof.
  intros h cb l Hr. pose proof (rep_size _ _ _ Hr) as (Es & Hs & _). destruct (Z.eqb_spec (zlen l) 0) as [E|Hne].
  - unfold checked, back, logical_to_absolute. rewrite (failed_check (u64 _ <? size_ cb)) by (rewrite Es, E; done). by destruct (_ || _).
  - pose proof (zlen_nonneg l). destruct (rep_nonempty _ _ _ Hr Hne) as [b Hh].
    destruct (contents_lt l (zlen l - 1) ltac:(lia)) as [v Ev]. rewrite Ev. cbn. eapply back_held; [done|lia|done].
Qed.

Lemma at_position_ok pos : look_ok (fun h cb => at_ hardened h cb pos) (fun c l => elem_at hardened l pos).
Proof.
  intros h cb l Hr. pose proof (rep_size _ _ _ Hr) as (Es & Hs & Hc). pose proof (zlen_nonneg l). unfold elem_at.
  destruct (Z.leb_spec (- 2 ^ 63) pos), (Z.ltb_spec pos (2 ^ 63)); cbn [andb negb]; try done.
  destruct (Z.leb_spec (- zlen l) pos), (Z.ltb_spec pos (zlen l)); cbn [andb].
  1: { destruct (rep_nonempty _ _ _ Hr ltac:(lia)) as [b Hh].
    destruct (contents_lt l (if pos <? 0 then pos + zlen l else pos)) as [v Ev]; [destruct (Z.ltb_spec pos 0); lia|].
    rewrite Ev. cbn. eapply at_held; [done|lia|done]. }
  all: unfold checked, at_; rewrite failed_check; [by destruct (_ || _)|]; rewrite Es; apply Z.ltb_ge; unfold u64.
  - rewrite (proj2 (Z.ltb_ge _ 0)), Z.add_0_r, Z.mod_small by lia. lia.
  - rewrite (proj2 (Z.ltb_lt _ 0)) by lia. rewrite <- (Z_mod_plus_full (pos + zlen l) 1), Z.mod_small by lia. lia.
  - rewrite (proj2 (Z.ltb_lt _ 0)) by lia. rewrite <- (Z_mod_plus_full (pos + zlen l) 1), Z.mod_small by lia. lia.
Qed.

Lemma iter_at_ok n : look_ok (fun h cb => p ← Incr hardened cb (begin cb) n; Deref h cb p) (fun c l =>
  if negb ((- 2 ^ 63 <=? n) && (n <? 2 ^ 63)) then UB else if (0 <=? n) && (n <=? zlen l) then the_elem (contents l n) else Crash).
Proof.
  intros h cb l Hr. pose proof (rep_size _ _ _ Hr) as (Es & Hs & Hc).
  destruct (Z.leb_spec (- 2 ^ 63) n), (Z.ltb_spec n (2 ^ 63)); cbn [andb negb]; try done.
  rewrite (begin_iter _ _ _ Hr). destruct (Z.leb_spec 0 n), (Z.leb_spec n (zlen l)); cbn [andb];
    try (rewrite (Incr_out _ _ _ _ _ _ Hr); [done|lia|lia|lia]).
  rewrite (Incr_iter _ _ _ _ _ _ Hr), bind_Ok by lia. cbn [Z.add]. destruct (contents l n) as [v|] eqn:Ev; [|done].
  cbn. eapply Deref_iter; [done| |done]. destruct (decide (n = zlen l)); [|lia]. rewrite contents_ge in Ev by lia. done.
Qed.

Lemma distance_ok : look_ok (fun h cb => Subtract hardened cb (end_ cb) (begin cb)) (fun c l => Ok (zlen l)).
Proof.
  intros h cb l Hr. pose proof (rep_size _ _ _ Hr) as (Es & Hs & Hc).
  rewrite (begin_iter _ _ _ Hr), end_iter, (Subtract_iter _ _ _ _ _ _ Hr) by lia. f_equal. lia.
Qed.
End spec.
