(* ===== verification/CircularBufferWorld.v ===== *)
(** * Scripts over many circular buffers

    Comparison, and the operations that move storage between buffers; then whole
    scripts. *)
From Stdlib Require Import ZArith Lia.
From stdpp Require Import base list numbers option gmap fin_maps.
From S2P Require Import Prelude.
From S2P Require Import CircularBuffer.
From S2P Require Import CircularBufferProps.
From S2P Require Import CircularBufferMove.
From S2P Require Import CircularBufferSpec.
Local Open Scope Z_scope.

Section world.
Context {T : Type} `{SlotAllocator T} `{BuildMode}.
Context (hardened : bool) (moved : T -> T) (eqb ltb : T -> T -> bool).
Implicit Types (h : slots T) (cb : CircularBuffer) (l : list T) (v : T) (s : gmap nat (Z * Z * list T)).

(** ** Comparison *)

Lemma from_cases h cb l i : rep h cb l -> 0 <= i <= size_ cb ->
  (i = size_ cb /\ from i l = []) \/
  (i < size_ cb /\ exists v, from i l = v :: from (i + 1) l /\ Deref h cb (iter cb i) = Ok v /\
     Incr hardened cb (iter cb i) 1 = Ok (iter cb (i + 1))).
Proof.
  intros Hr Hi. pose proof (rep_size _ _ _ Hr) as (Es & _). destruct (decide (i = size_ cb)) as [E|]; [left|right].
  - split; [done|]. rewrite E, Es. apply from_end.
  - destruct (contents_lt l i ltac:(lia)) as [v Ev]. split; [lia|]. exists v.
    split; [apply from_next; [lia|done]|]. split; [eapply Deref_iter; [done|lia|done]|]. eapply Incr_iter; [done|lia|lia].
Qed.

Lemma equal_loop_ok fuel : forall h a b la lb i, rep h a la -> rep h b lb -> size_ a = size_ b -> 0 <= i <= size_ a ->
  size_ a - i < Z.of_nat fuel ->
  equal_loop hardened eqb fuel h a b (iter a i) (iter b i) = Ok (list_eqb eqb (from i la) (from i lb)).
Proof.
  induction fuel as [|fuel IH]; intros h a b la lb i Ha Hb Es Hi Hf; [lia|]. cbn [equal_loop].
  change (end_ a) with kEnd. rewrite (iter_end _ _ _ _ Ha) by done.
  destruct (from_cases _ _ _ _ Ha Hi) as [[E ->]|(Hlt & v & -> & -> & EIa)], (from_cases _ _ _ i Hb ltac:(lia)) as [[E' ->]|(Hlt' & v' & -> & -> & EIb)];
    try lia.
  - by rewrite (proj2 (Z.eqb_eq _ _)) by done.
  - rewrite (proj2 (Z.eqb_neq _ _)), !bind_Ok by lia. cbn [list_eqb]. destruct (eqb v v'); [|done].
    rewrite EIa, EIb, !bind_Ok. apply IH; (done || lia).
Qed.

Lemma list_eqb_length l l' : zlen l <> zlen l' -> list_eqb eqb l l' = false.
Proof.
  revert l'. induction l as [|x l IH]; intros [|y l'] Hne; try done. cbn. rewrite IH; [by rewrite andb_false_r|].
  rewrite !zlen_cons in Hne. lia.
Qed.

Lemma operator_eq_ok h a la : rep h a la -> forall b lb, rep h b lb -> operator_eq hardened eqb h a b = Ok (list_eqb eqb la lb).
Proof.
  intros Ha b lb Hb. pose proof (rep_size _ _ _ Ha) as (Ea & Hsa & _). pose proof (rep_size _ _ _ Hb) as (Eb & Hsb & _).
  unfold operator_eq. rewrite (distance_ok hardened _ _ _ Ha), (distance_ok hardened _ _ _ Hb), !bind_Ok.
  destruct (Z.eqb_spec (zlen la) (zlen lb)) as [E|]; [|by rewrite list_eqb_length].
  rewrite (begin_iter _ _ _ Ha), (begin_iter _ _ _ Hb). apply (equal_loop_ok _ h a b la lb 0); (done || unfold loop_fuel; lia).
Qed.

Lemma less_loop_ok fuel : forall h a b la lb i, rep h a la -> rep h b lb -> 0 <= i <= size_ a -> i <= size_ b ->
  size_ a - i < Z.of_nat fuel ->
  less_loop hardened ltb fuel h a b (iter a i) (iter b i) = Ok (list_ltb ltb (from i la) (from i lb)).
Proof.
  induction fuel as [|fuel IH]; intros h a b la lb i Ha Hb Hi Hib Hf; [lia|]. cbn [less_loop].
  change (end_ a) with kEnd. change (end_ b) with kEnd. rewrite (iter_end _ _ _ _ Ha), (iter_end _ _ _ _ Hb) by lia.
  destruct (from_cases _ _ _ _ Ha Hi) as [[E ->]|(Hlt & v & -> & -> & EIa)], (from_cases _ _ _ i Hb ltac:(lia)) as [[E' ->]|(Hlt' & v' & -> & -> & EIb)].
  - by rewrite !(proj2 (Z.eqb_eq _ _)) by done.
  - by rewrite (proj2 (Z.eqb_eq i (size_ a))), (proj2 (Z.eqb_neq i (size_ b))) by lia.
  - by rewrite (proj2 (Z.eqb_neq i (size_ a))), (proj2 (Z.eqb_eq i (size_ b))) by lia.
  - rewrite !(proj2 (Z.eqb_neq _ _)), !bind_Ok by lia. cbn [list_ltb]. destruct (ltb v v'); [done|]. destruct (ltb v' v); [done|].
    rewrite EIa, EIb, !bind_Ok. apply IH; (done || lia).
Qed.

Lemma operator_lt_ok h a la : rep h a la -> forall b lb, rep h b lb -> operator_lt hardened ltb h a b = Ok (list_ltb ltb la lb).
Proof.
  intros Ha b lb Hb. pose proof (rep_size _ _ _ Ha) as (Ea & Hsa & _). pose proof (rep_size _ _ _ Hb) as (Eb & Hsb & _).
  unfold operator_lt. rewrite (begin_iter _ _ _ Ha), (begin_iter _ _ _ Hb).
  apply (less_loop_ok _ h a b la lb 0); (done || unfold loop_fuel; lia).
Qed.

(** ** Operations of two buffers *)

Abbreviation run_op' := (run_op hardened moved eqb ltb).
Abbreviation spec_op' := (spec_op hardened eqb ltb).

(** Buffers [i] and [j] exchange their storage. *)
Definition transpose (i j k : nat) : nat := if decide (k = i) then j else if decide (k = j) then i else k.

Lemma transpose_invol i j k : transpose i j (transpose i j k) = k.
Proof. unfold transpose. repeat case_decide; congruence. Qed.

Lemma lookup_transpose {A} (m : gmap nat A) i j x y k : m !! i = Some x -> m !! j = Some y ->
  <[i := y]> (<[j := x]> m) !! k = m !! transpose i j k.
Proof.
  intros Ei Ej. unfold transpose. destruct (decide (k = i)) as [->|]; [by rewrite lookup_insert_eq|].
  rewrite lookup_insert_ne by done. destruct (decide (k = j)) as [->|]; [by rewrite lookup_insert_eq|]. by rewrite lookup_insert_ne.
Qed.

Lemma swap_winv h (w : gmap nat CircularBuffer) s i j a b sa sb : winv h w s ->
  w !! i = Some a -> w !! j = Some b -> s !! i = Some sa -> s !! j = Some sb ->
  winv h (<[i := b]> (<[j := a]> w)) (<[i := sb]> (<[j := sa]> s)).
Proof.
  intros [Hn Hr Ha Ho] Ei Ej Si Sj. split; [done| | |].
  - intros k. rewrite !lookup_transpose by done. apply Hr.
  - intros k k' x y. rewrite !lookup_transpose by done. intros Ex Ey Hne. eapply Ha; [done|done|].
    intros E. apply Hne. by rewrite <- (transpose_invol i j k), E, transpose_invol.
  - intros p Hp. destruct (Ho p Hp) as (k & x & Ek & Ex). exists (transpose i j k), x. by rewrite lookup_transpose, transpose_invol.
Qed.

Lemma null_winv h (w : gmap nat CircularBuffer) s i a : winv h w s -> w !! i = None ->
  winv h (<[i := null_buffer a]> w) (<[i := ((0, a), [])]> s).
Proof. intros Hw Ei. apply (winv_add h h w s i (null_buffer a) []); [done|done| |apply null_rep]. split; [done|by left]. Qed.

(** Buffer [i] is new and takes over the storage of [j]. *)
Lemma move_winv h (w : gmap nat CircularBuffer) s i j a b sb : winv h w s -> w !! i = None -> w !! j = Some b -> s !! j = Some sb ->
  winv h (<[i := b]> (<[j := null_buffer a]> w)) (<[i := sb]> (<[j := ((0, a), [])]> s)).
Proof.
  intros Hw Ei Ej Sj. assert (i <> j) as Hne by congruence.
  pose proof (swap_winv _ _ _ i j (null_buffer a) b ((0, a), []) sb (null_winv _ _ _ _ a Hw Ei)) as H1.
  rewrite !(insert_insert_ne _ j i), !insert_insert_eq in H1 by done. apply H1.
  - apply lookup_insert_eq.
  - by rewrite lookup_insert_ne.
  - apply lookup_insert_eq.
  - by rewrite lookup_insert_ne.
Qed.

(** Buffer [i] gets the elements of [j], which is left without storage. *)
Lemma move_assign_winv h h' (w : gmap nat CircularBuffer) s i j a b a' al l : winv h w s -> i <> j ->
  w !! i = Some a -> w !! j = Some b ->
  adds (delete (space_ b) (delete (space_ a) h)) h' (space_ a') -> rep h' a' l ->
  winv h' (<[i := a']> (<[j := null_buffer al]> w)) (<[i := (shape a', l)]> (<[j := ((0, al), [])]> s)).
Proof.
  intros Hw Hne Ei Ej Ha Hr. pose proof (winv_remove _ _ _ _ _ Hw Ei) as H1.
  assert (delete i w !! j = Some b) as Ej1 by (by rewrite lookup_delete_ne).
  pose proof (winv_remove _ _ _ _ _ H1 Ej1) as H2.
  assert (forall A (x y : A) (m : gmap nat A), <[i := x]> (<[j := y]> m) = <[j := y]> (<[i := x]> (delete j (delete i m)))) as E.
  { intros A x y m. rewrite <- delete_delete, insert_delete_eq. rewrite (insert_insert_ne _ i j) by done.
    rewrite <- (delete_insert_ne m j i) by done. by rewrite insert_delete_eq. }
  rewrite !E. apply null_winv; [|by rewrite lookup_insert_ne, lookup_delete_eq]. eapply winv_add; [done| |done|done].
  by rewrite lookup_delete_ne, lookup_delete_eq.
Qed.

(** A buffer gets an equal allocator. *)
Lemma set_allocator_winv h (w : gmap nat CircularBuffer) s i cb c l a : winv h w s ->
  w !! i = Some cb -> s !! i = Some (c, l) -> allocator_eqb c.2 a = true ->
  winv h (<[i := set_allocator cb a]> w) (<[i := ((c.1, a), l)]> s).
Proof.
  intros Hw Ei Si Ha. pose proof (winv_rep _ _ _ Hw i) as Hr. rewrite Ei, Si in Hr. destruct Hr as [<- Hr].
  apply (winv_replace h h w s i cb (set_allocator cb a) l Hw Ei).
  - apply adds_self; [by apply (rep_space _ _ _ Hr)|apply Hw].
  - apply rep_set_allocator; [done|by right].
Qed.

Lemma allocator_eqb_sym a b : allocator_eqb (T := T) a b = allocator_eqb b a.
Proof. unfold allocator_eqb. by rewrite Z.eqb_sym. Qed.

(** Buffers exchange their storage and keep their allocators. *)
Lemma swap_storage_winv h (w : gmap nat CircularBuffer) s i j a b c d l k : winv h w s ->
  w !! i = Some a -> w !! j = Some b -> s !! i = Some (c, l) -> s !! j = Some (d, k) ->
  allocator_eqb c.2 d.2 = true ->
  winv h (<[i := set_allocator b (allocator_ a)]> (<[j := set_allocator a (allocator_ b)]> w))
    (<[i := ((d.1, c.2), k)]> (<[j := ((c.1, d.2), l)]> s)).
Proof.
  intros Hw Ei Ej Si Sj Ha.
  pose proof (winv_rep _ _ _ Hw i) as Hi. rewrite Ei, Si in Hi. destruct Hi as [Ec _].
  pose proof (winv_rep _ _ _ Hw j) as Hj. rewrite Ej, Sj in Hj. destruct Hj as [Ed _].
  destruct (decide (i = j)) as [->|Hne].
  { rewrite Ei in Ej. injection Ej as <-. rewrite Si in Sj. injection Sj as <- <-. subst c.
    rewrite !insert_insert_eq. by apply (set_allocator_winv h w s j a (shape a) l). }
  pose proof (swap_winv _ _ _ _ _ _ _ _ _ Hw Ei Ej Si Sj) as H1.
  apply (set_allocator_winv _ _ _ j a c l d.2) in H1; [| |by rewrite lookup_insert_ne, lookup_insert_eq|done].
  2:{ by rewrite lookup_insert_ne, lookup_insert_eq. }
  apply (set_allocator_winv _ _ _ i b d k c.2) in H1; [|by rewrite lookup_insert_ne, lookup_insert_eq
    |by rewrite lookup_insert_ne, lookup_insert_eq|by rewrite allocator_eqb_sym].
  rewrite !(insert_insert_ne _ j i), !insert_insert_eq in H1 by done.
  rewrite <- Ec, <- Ed in *. exact H1.
Qed.

(** ** One step *)

Lemma new_capacity_ok c : match new_capacity (T := T) c with Ok _ => 0 <= c <= max_size | Crash => max_size < c | UB => True end.
Proof.
  unfold new_capacity. destruct (Z.ltb_spec c 0), (Z.leb_spec (2 ^ 64) c); cbn; try done. destruct (Z.ltb_spec max_size c); [done|lia].
Qed.

Section ops.
Context (w : world) (s : gmap nat (Z * Z * list T)) (Hw : winv (heap w) (bufs w) s).

Ltac lookup_i i := pose proof (get_sim w s Hw i) as Hg; destruct (s !! i) as [[? ?]|] eqn:?; [|by rewrite Hg];
  let cb := fresh "cb" in destruct Hg as (cb & -> & ? & -> & <- & ?).
Ltac unused_i i := pose proof (unused_sim w s Hw i) as Hu; destruct (s !! i) eqn:?; [by rewrite Hu|];
  destruct Hu as (-> & ? & ->).

Lemma OMake_sim i c a : agrees sim_result (run_op' w (OMake i c a)) (spec_op' s (OMake i c a)).
Proof.
  cbn [run_op spec_op]. unused_i i. rewrite !bind_Ok. pose proof (new_capacity_ok c) as Hc. destruct (new_capacity c) as [[]| |].
  - rewrite bind_Ok. apply add_sim; [done|done|]. destruct (Allocate_ok (heap w) a c Hc) as (h' & p & E & Ha & Hr).
    unfold make. rewrite E, bind_Ok. by eexists _, _.
  - cbn. unfold make. by rewrite Allocate_too_large.
  - done.
Qed.

Lemma OCopy_sim i j : agrees sim_result (run_op' w (OCopy i j)) (spec_op' s (OCopy i j)).
Proof.
  cbn [run_op spec_op]. unused_i i. rewrite !bind_Ok. lookup_i j. rewrite !bind_Ok. apply add_sim; [done|done|].
  apply make_copy_ok; [done|apply Hw].
Qed.

Lemma OMove_sim i j : agrees sim_result (run_op' w (OMove i j)) (spec_op' s (OMove i j)).
Proof.
  cbn [run_op spec_op]. unused_i i. rewrite !bind_Ok. lookup_i j. rewrite !bind_Ok. eexists. split; [done|]. split; [|done]. cbn.
  apply move_winv; try done. by destruct cb.
Qed.

Lemma OCopyAssign_sim i j : agrees sim_result (run_op' w (OCopyAssign i j)) (spec_op' s (OCopyAssign i j)).
Proof.
  cbn [run_op spec_op]. unfold update. lookup_i j. rewrite !bind_Ok. lookup_i i. rewrite !bind_Ok.
  change (if propagate_on_container_copy_assignment then (shape cb).2 else (shape cb0).2) with (assigned_allocator cb0 cb).
  destruct (_ || _) eqn:Ea; [|done]. apply orb_true_iff in Ea. rewrite Z.eqb_eq in Ea.
  eapply replace_sim; [done|done|]. case_bool_decide as E.
  - subst j. simplify_eq. eexists _, _. split; [done|]. split; [done|].
    split; [by unfold assigned_allocator; destruct propagate_on_container_copy_assignment|].
    apply adds_self; [by eapply rep_space|apply Hw].
  - eapply copy_assign_ok; [done|done|apply Hw| |done]. by eapply winv_apart.
Qed.

Lemma OMoveAssign_sim i j : agrees sim_result (run_op' w (OMoveAssign i j)) (spec_op' s (OMoveAssign i j)).
Proof.
  cbn [run_op spec_op]. change (propagate_on_container_move_assignment || is_always_equal) with (moves_storage (T := T)).
  lookup_i i. rewrite !bind_Ok. lookup_i j. rewrite !bind_Ok. case_bool_decide as E.
  - subst j. simplify_eq. unfold move_assign. rewrite bind_Ok.
    destruct moves_storage; (eexists; split; [done|]; split; [|done]); cbn;
      rewrite !insert_insert_eq, !insert_id by done; done.
  - edestruct (move_assign_ok hardened moved (heap w) cb cb0) as (h' & cb' & -> & Hr & Es & Ha); [done|done|apply Hw|by eapply winv_apart|].
    rewrite bind_Ok. pose proof (move_assign_winv _ _ _ _ _ _ _ _ _ (if moves_storage then default_allocator else allocator_ cb0) _ Hw E ltac:(done) ltac:(done) Ha Hr) as Hw'.
    rewrite Es in Hw'. destruct moves_storage; (eexists; split; [done|]; split; [|done]); exact Hw'.
Qed.

Lemma OSwap_sim i j : agrees sim_result (run_op' w (OSwap i j)) (spec_op' s (OSwap i j)).
Proof.
  cbn [run_op spec_op]. lookup_i i. rewrite !bind_Ok. lookup_i j. rewrite !bind_Ok. unfold swap.
  destruct propagate_on_container_swap.
  - rewrite bind_Ok. eexists. split; [done|]. split; [|done]. by apply swap_winv.
  - change (allocator_eqb (shape cb).2 (shape cb0).2) with (allocator_eqb (allocator_ cb) (allocator_ cb0)).
    destruct (allocator_eqb (allocator_ cb) (allocator_ cb0)) eqn:Ea.
    + rewrite DCHECK_true, !bind_Ok. eexists. split; [done|]. split; [|done]. by eapply swap_storage_winv.
    + unfold asserted, DCHECK. by destruct NDEBUG.
Qed.

Lemma ODestroy_sim i : agrees sim_result (run_op' w (ODestroy i)) (spec_op' s (ODestroy i)).
Proof.
  cbn [run_op spec_op]. lookup_i i. rewrite !bind_Ok. erewrite destroy_buffer_rep by (done || apply Hw). rewrite bind_Ok.
  eexists. split; [done|]. split; [|done]. by apply winv_remove.
Qed.

Lemma OChangeCapacity_sim i c : agrees sim_result (run_op' w (OChangeCapacity i c)) (spec_op' s (OChangeCapacity i c)).
Proof.
  cbn [run_op spec_op]. unfold update. lookup_i i. rewrite !bind_Ok. pose proof (new_capacity_ok c) as Hc. destruct (new_capacity c) as [[]| |].
  - rewrite bind_Ok. eapply replace_sim; [done|done|]. apply ChangeCapacity_ok; [done|apply Hw|done].
  - cbn. unfold ChangeCapacity. assert (c <> capacity_ cb) as Hne.
    { intros ->. pose proof (max_size_range (T := T)). destruct H2 as [[(E & _) _]|[b Hh]]; [lia|]. pose proof (held_le _ _ _ _ Hh). lia. }
    rewrite (proj2 (Z.eqb_neq _ _)) by done. unfold make. by rewrite Allocate_too_large.
  - done.
Qed.

Lemma run_op_sim o : agrees sim_result (run_op' w o) (spec_op' s o).
Proof.
  destruct o;
    [apply OMake_sim|apply OCopy_sim|apply OMove_sim|apply OCopyAssign_sim|apply OMoveAssign_sim|apply OSwap_sim|apply ODestroy_sim
    |apply OChangeCapacity_sim| ..]; cbn [run_op spec_op].
  - apply update_sim; [done|]. apply pushed_front_ok.
  - apply update_sim; [done|]. apply pushed_back_ok.
  - apply update_sim; [done|]. apply pushed_front_ok.
  - apply update_sim; [done|]. apply pushed_back_ok.
  - apply update_sim; [done|]. apply (pop_ok hardened).
  - apply update_sim; [done|]. apply pop_ok.
  - apply update_sim; [done|]. apply clear_ok.
  - apply look_sim; [done|]. intros cb l Hr. by apply front_ok.
  - apply look_sim; [done|]. intros cb l Hr. by apply back_ok.
  - apply look_sim; [done|]. intros cb l Hr. by apply at_position_ok.
  - apply look_sim; [done|]. intros cb l Hr. by apply at_position_ok.
  - apply look_sim; [done|]. intros cb l Hr. f_equal. by apply (rep_size _ _ _ Hr).
  - apply look_sim; [done|]. by intros cb l Hr.
  - apply look_sim; [done|]. intros cb l Hr. unfold empty. by destruct (rep_size _ _ _ Hr) as [-> _].
  - apply look_sim; [done|]. intros cb l Hr. unfold full. by destruct (rep_size _ _ _ Hr) as [-> _].
  - apply look_sim; [done|]. intros cb l Hr. by apply iter_at_ok.
  - apply look_sim; [done|]. intros cb l Hr. by eapply (distance_ok hardened).
  - lookup_i i. rewrite !bind_Ok. apply look_sim; [done|]. intros b lb Hb. by apply operator_eq_ok.
  - lookup_i i. rewrite !bind_Ok. apply look_sim; [done|]. intros b lb Hb. by apply operator_lt_ok.
  - lookup_i i. rewrite !bind_Ok. unfold look. lookup_i j. rewrite !bind_Ok. by eexists.
Qed.
End ops.

Lemma run_sim os : forall w s, winv (heap w) (bufs w) s ->
  agrees (fun x y => winv (heap x.1) (bufs x.1) y.1 /\ x.2 = y.2) (run hardened moved eqb ltb w os) (spec_run hardened eqb ltb s os).
Proof.
  induction os as [|o os IH]; intros w s Hw; [by eexists|]. cbn [run spec_run].
  pose proof (run_op_sim w s Hw o) as Ho. destruct (spec_op' s o) as [[s' r]| |]; cbn in Ho; [|by rewrite Ho|done].
  destruct Ho as ([w' r'] & -> & Hw' & Er). cbn in Hw', Er. subst r'. rewrite !bind_Ok. specialize (IH w' s' Hw').
  destruct (spec_run _ _ _ s' os) as [[s'' rs]| |]; cbn in IH; [|by rewrite IH|done].
  destruct IH as ([w'' rs'] & -> & Hw'' & Er). cbn in Hw'', Er. subst rs'. by eexists.
Qed.

Definition no_buffers : world (T := T) := {| heap := ∅; bufs := ∅ |}.

Lemma no_buffers_winv : winv (heap no_buffers) (bufs no_buffers) (∅ : gmap nat (Z * Z * list T)).
Proof. split; cbn; try done. intros p [? E]. done. Qed.

Lemma winv_no_leaks h w : winv h w (∅ : gmap nat (Z * Z * list T)) -> h = ∅.
Proof.
  intros [Hn Hr _ Ho]. apply map_eq. intros p. rewrite lookup_empty. destruct (h !! p) eqn:E; [|done].
  destruct (Ho p) as (i & cb & Ei & _); [by eexists|]. specialize (Hr i). by rewrite Ei in Hr.
Qed.

(** C5. Circular buffers are bounded sequences.  For every script that makes, copies,
    moves, swaps, destroys and uses any number of buffers, each with an allocator of its
    own, in debug, opt and hardened builds, for any combination of the traits by which
    allocators propagate or are always equal, and whatever moving from an element leaves
    behind: as far as the script respects the preconditions, the code runs without
    undefined behaviour (every block goes back to an allocator equal to its own), and
    returns what the same script returns on sequences with a capacity and an allocator,
    where a push into a full sequence drops the element at the other end, and copies,
    moves and swaps take or leave the allocator as the traits say.  The code stops the
    program exactly where that is promised: popping from an empty buffer, pushing to the
    front of a buffer without capacity, capacities beyond the allocator's limit,
    iterators leaving the buffer, and, in checked builds, positions out of range and
    swaps of buffers whose unequal allocators do not propagate.  Once all buffers are
    destroyed, no block is left in the heap.  One precondition is not documented: where
    allocators propagate on copy assignment, a target with storage must have an
    allocator equal to the source's ([copy_assign_unequal] shows what happens if not). *)
Theorem CircularBuffer_refines : forall os,
  match spec_run hardened eqb ltb ∅ os with
  | Ok (s, rs) => exists w, run hardened moved eqb ltb no_buffers os = Ok (w, rs) /\ (s = ∅ -> heap w = ∅)
  | Crash => run hardened moved eqb ltb no_buffers os = Crash
  | UB => True
  end.
Proof.
  intros os. pose proof (run_sim os no_buffers ∅ no_buffers_winv) as Hs. destruct (spec_run _ _ _ ∅ os) as [[s rs]| |]; [|done|done].
  destruct Hs as ([w rs'] & E & Hw & Er). cbn in Hw, Er. subst rs'. exists w. split; [done|]. intros ->. by eapply winv_no_leaks.
Qed.
End world.

(** ** An allocator *)

(** An address encodes the allocator and a number that its blocks do not share. *)
Definition address_parts (p : Z) : Z * Z := default (0, 0) (decode (Z.to_pos p)).
Definition address (a k : Z) : Z := Zpos (encode (a, k)).

Lemma address_parts_address a k : address_parts (address a k) = (a, k).
Proof. unfold address_parts, address. cbn [Z.to_pos]. by rewrite decode_encode. Qed.

(** A number above those of all blocks. *)
Definition next_number {T} (h : slots T) : Z :=
  map_fold (fun p _ m => Z.max m ((address_parts p).2 + 1)) 0 h.

Lemma next_number_above {T} (h : slots T) p : is_Some (h !! p) -> (address_parts p).2 < next_number h.
Proof.
  unfold next_number. revert p. apply (map_fold_weak_ind (fun m h => forall p, is_Some (h !! p) -> (address_parts p).2 < m)).
  - intros p [? E]. done.
  - intros q b h' m _ Hb p [x E]. apply lookup_insert_Some in E as [[-> _]|[_ E]]; [lia|].
    specialize (Hb p ltac:(by eexists)). lia.
Qed.

(** Allocators with the given traits. *)
#[global] Instance traits_slots (T : Type) (always copy move swap : bool) : SlotAllocator T.
Proof.
  refine {| max_size := 2 ^ 40; allocate h a _ := address a (next_number h); owner p := (address_parts p).1;
    is_always_equal := always; propagate_on_container_copy_assignment := copy;
    propagate_on_container_move_assignment := move; propagate_on_container_swap := swap;
    select_on_container_copy_construction a := a; default_allocator := 0 |}.
  - lia.
  - done.
  - intros h a _. apply eq_None_not_Some. intros Hs. apply next_number_above in Hs.
    rewrite address_parts_address in Hs. cbn in Hs. lia.
  - intros h a _. by rewrite address_parts_address.
Defined.

(** Allocators 7, 8 and 9 propagate when buffers are copied or swapped and stay where
    they are when buffers are moved. *)
Definition sample_script : list (cb_op Z) :=
  [OMake 0 2 7; OPushBack 0 1; OPushBack 0 2; OPushBack 0 3; OFront 0; OPushFront 0 4; OAt 0 (-1);
   OMake 1 5 8; OMoveAssign 1 0; OCapacity 1; OChangeCapacity 1 1; OFront 1; OEq 0 1; OSameAllocator 0 1;
   OMake 2 0 9; OCopyAssign 2 1; OSameAllocator 2 1; OSwap 0 1; OFront 0; OSameAllocator 2 0;
   ODestroy 0; ODestroy 1; ODestroy 2].
Definition sample_results : list (cb_obs Z) :=
  [RVoid; RVoid; RVoid; RVoid; RElem 2; RVoid; RElem 2; RVoid; RVoid; RNum 2; RVoid; RElem 4; RBool false; RBool false;
   RVoid; RVoid; RBool true; RVoid; RElem 4; RBool true; RVoid; RVoid; RVoid].

Lemma CircularBuffer_refines_witness : exists w,
  run (H := traits_slots Z false true false true) (H0 := opt_build) true (fun _ => 0) Z.eqb Z.ltb no_buffers sample_script =
    Ok (w, sample_results) /\ heap w = ∅.
Proof.
  pose proof (CircularBuffer_refines (H := traits_slots Z false true false true) (H0 := opt_build) true
    (fun _ : Z => 0) Z.eqb Z.ltb sample_script) as Hs.
  assert (spec_run (H := traits_slots Z false true false true) (H0 := opt_build) true Z.eqb Z.ltb ∅ sample_script =
    Ok (∅, sample_results)) as E by (vm_compute; reflexivity).
  rewrite E in Hs. destruct Hs as (w & Er & Hn). exists w. split; [exact Er|]. apply Hn. reflexivity.
Defined.
