(* ===== verification/IntTypes.v ===== *)
(** * C++ integer types

    The fixed-width integer types up to 64 bits with the integral promotions and
    the usual arithmetic conversions, as the code of [util/intops] meets them
    when it mixes types.  [int] has 32 bits.  A value of a type is the integer it
    stands for; signed arithmetic that leaves its type is undefined, conversions
    to a signed type are those of two's complement. *)
From Stdlib Require Import ZArith Lia.
From stdpp Require Import base decidable tactics.
From S2P Require Import Prelude.
Local Open Scope Z_scope.

Inductive width := W8 | W16 | W32 | W64.
Record ity := { is_signed : bool; its_width : width }.

#[global] Instance width_eq_dec : EqDecision width.
Proof. solve_decision. Defined.
#[global] Instance ity_eq_dec : EqDecision ity.
Proof. solve_decision. Defined.

Definition bits (t : ity) : Z :=
  match its_width t with W8 => 8 | W16 => 16 | W32 => 32 | W64 => 64 end.

Definition int_ : ity := {| is_signed := true; its_width := W32 |}.
Definition uint8_t : ity := {| is_signed := false; its_width := W8 |}.
Definition int8_t : ity := {| is_signed := true; its_width := W8 |}.
Definition uint64_t : ity := {| is_signed := false; its_width := W64 |}.
Definition int64_t : ity := {| is_signed := true; its_width := W64 |}.

(** [std::numeric_limits]. *)
Definition tmin (t : ity) : Z := if is_signed t then - 2 ^ (bits t - 1) else 0.
Definition tmax (t : ity) : Z := if is_signed t then 2 ^ (bits t - 1) - 1 else 2 ^ bits t - 1.

Definition in_range (t : ity) (x : Z) : Prop := tmin t <= x <= tmax t.
Definition in_rangeb (t : ity) (x : Z) : bool := (tmin t <=? x) && (x <=? tmax t).

(** [static_cast] and implicit conversion. *)
Definition conv (t : ity) (x : Z) : Z := if is_signed t then swrap (bits t) x else x mod 2 ^ bits t.

Definition promote (t : ity) : ity := match its_width t with W8 | W16 => int_ | _ => t end.

(** The common type of the operands of a binary operator. *)
Definition common (a b : ity) : ity :=
  let a := promote a in
  let b := promote b in
  if bool_decide (is_signed a = is_signed b) then (if bits a <? bits b then b else a)
  else let '(s, u) := if is_signed a then (a, b) else (b, a) in
       if bits s <=? bits u then u else s.

(** Comparison of a value of type [a] with one of type [b]. *)
Definition clt (a : ity) (x : Z) (b : ity) (y : Z) : bool := conv (common a b) x <? conv (common a b) y.
Definition cle (a : ity) (x : Z) (b : ity) (y : Z) : bool := conv (common a b) x <=? conv (common a b) y.
Definition ceq (a : ity) (x : Z) (b : ity) (y : Z) : bool := conv (common a b) x =? conv (common a b) y.

(** The result [r] of an arithmetic operator whose operands were converted to [c]. *)
Definition result_in (c : ity) (r : Z) : outcome Z :=
  if is_signed c then (if in_rangeb c r then Ok r else UB) else Ok (conv c r).

Definition cadd (a b : ity) (x y : Z) : outcome Z := let c := common a b in result_in c (conv c x + conv c y).
Definition csub (a b : ity) (x y : Z) : outcome Z := let c := common a b in result_in c (conv c x - conv c y).
Definition cmul (a b : ity) (x y : Z) : outcome Z := let c := common a b in result_in c (conv c x * conv c y).
(** Division truncates; division by zero is undefined, and so is the remainder
    when the quotient is out of range. *)
Definition cdiv (a b : ity) (x y : Z) : outcome Z :=
  let c := common a b in
  if conv c y =? 0 then UB else result_in c (Z.quot (conv c x) (conv c y)).
Definition crem (a b : ity) (x y : Z) : outcome Z :=
  let c := common a b in
  _ ← cdiv a b x y; result_in c (Z.rem (conv c x) (conv c y)).

(** ** Lemmas *)

(** Numbers instead of powers. *)
Ltac ity_cases t := destruct t as [[] []].

Lemma conv_id t x : in_range t x -> conv t x = x.
Proof.
  unfold in_range, conv, tmin, tmax. intros Hx.
  ity_cases t; cbn [is_signed bits its_width] in *; (apply swrap_small || apply Z.mod_small); cbn in *; lia.
Qed.

Lemma in_rangeb_spec t x : in_rangeb t x = true <-> in_range t x.
Proof. unfold in_rangeb, in_range. rewrite andb_true_iff, !Z.leb_le. done. Qed.

Lemma in_rangeb_false t x : in_rangeb t x = false <-> ~ in_range t x.
Proof. rewrite <- in_rangeb_spec. by destruct (in_rangeb t x). Qed.

#[global] Instance in_range_dec t x : Decision (in_range t x).
Proof. unfold in_range. apply _. Defined.

Lemma result_in_ok c r : in_range c r -> result_in c r = Ok r.
Proof.
  intros Hr. unfold result_in. destruct (is_signed c) eqn:E.
  - by rewrite (proj2 (in_rangeb_spec c r)).
  - by rewrite conv_id.
Qed.

(** Bounds of a type as numbers. *)
Ltac bounds :=
  unfold in_range, tmin, tmax, bits in *; cbn [is_signed its_width promote int_ int64_t uint64_t] in *; cbn in *; lia.

(** The common type of two given types. *)
Ltac eval_common :=
  repeat match goal with
  | |- context [common ?a ?b] => let c := eval vm_compute in (common a b) in change (common a b) with c
  end.

Lemma promote_range t x : in_range t x -> in_range (promote t) x.
Proof. ity_cases t; intros Hx; bounds. Qed.

Lemma zero_range t : in_range t 0.
Proof. ity_cases t; bounds. Qed.

(** Values of one type are compared as numbers. *)
Lemma common_same t : common t t = promote t.
Proof. by ity_cases t. Qed.

Lemma clt_same t x y : in_range t x -> in_range t y -> clt t x t y = (x <? y).
Proof. intros Hx Hy. unfold clt. rewrite common_same, !conv_id by (by apply promote_range). done. Qed.

(** ... and so are values that the common type can represent. *)
Lemma clt_fits a x b y : in_range (common a b) x -> in_range (common a b) y -> clt a x b y = (x <? y).
Proof. intros Hx Hy. unfold clt. by rewrite !conv_id. Qed.
Lemma cle_fits a x b y : in_range (common a b) x -> in_range (common a b) y -> cle a x b y = (x <=? y).
Proof. intros Hx Hy. unfold cle. by rewrite !conv_id. Qed.

Lemma common_nonneg a b x : in_range a x -> 0 <= x -> in_range (common a b) x.
Proof. ity_cases a; ity_cases b; eval_common; intros Hx Hp; bounds. Qed.

Lemma common_sym_range a b x : in_range b x -> 0 <= x -> in_range (common a b) x.
Proof. ity_cases a; ity_cases b; eval_common; intros Hx Hp; bounds. Qed.

(** Comparison with the literal 0, an [int]. *)
Lemma clt_zero t x : in_range t x -> clt t x int_ 0 = (x <? 0).
Proof.
  intros Hx. apply clt_fits; [|apply zero_range]. ity_cases t; eval_common; bounds.
Qed.
Lemma ceq_zero t x : in_range t x -> ceq t x int_ 0 = (x =? 0).
Proof.
  intros Hx. unfold ceq. rewrite (conv_id _ 0) by apply zero_range. rewrite conv_id; [done|].
  ity_cases t; eval_common; bounds.
Qed.
Lemma zero_clt t x : in_range t x -> clt int_ 0 t x = (0 <? x).
Proof.
  intros Hx. apply clt_fits; [apply zero_range|]. ity_cases t; eval_common; bounds.
Qed.
