(* ===== verification/IntOps.v ===== *)
(** * Safe integer operations

    [util/intops/safe_int_ops.h], the integral cases of [lossless_convert.h] and
    [saturated_cast.h], and [saturated.h], for all integer types up to 64 bits.
    A function that stores through a [result] pointer returns what it returns
    together with the content of [*result] afterwards; [r0] is the content
    before.  [absl::uint128] is arithmetic modulo 2^128. *)
From Stdlib Require Import ZArith Lia.
From stdpp Require Import base decidable tactics.
From S2P Require Import Prelude.
From S2P Require Import IntTypes.
Local Open Scope Z_scope.

(** ** lossless_convert.h *)

Definition LosslessConvert (InType OutType : ity) (in_val : Z) : bool * Z :=
  let out := conv OutType in_val in
  if negb (ceq InType (conv InType out) InType in_val) then (false, out)
  else if negb (Bool.eqb (is_signed InType) (is_signed OutType)) &&
          negb (Bool.eqb (clt InType in_val int_ 0) (clt OutType out int_ 0)) then (false, out)
  else (true, out).

(** ** safe_int_ops.h *)

Definition MakeUint128 (high low : Z) : Z := high * 2 ^ 64 + low.

Definition ConvertToUint128 (T : ity) (from : Z) : Z :=
  if clt T from int_ 0 then MakeUint128 (2 ^ 64 - 1) (conv uint64_t from)
  else MakeUint128 0 (conv uint64_t from).

Definition Assign (U : ity) (from r0 : Z) : bool * Z :=
  let high := Z.shiftr from 64 in
  let low := u64 from in
  if high =? 0 then
    if cle uint64_t low U (tmax U) then (true, conv U low) else (false, r0)
  else if (high =? 2 ^ 64 - 1) && negb (Z.land low (2 ^ 63) =? 0) then
    if cle int64_t (conv int64_t (tmin U)) int64_t (conv int64_t low) then (true, conv U low) else (false, r0)
  else (false, r0).

(** The magnitude of an operand of a division. *)
Definition magnitude (T : ity) (x : Z) : outcome Z :=
  if clt T x int_ 0 then
    if ceq T x int64_t (tmin int64_t) then
      m ← cadd uint64_t int64_t 1 (tmax int64_t); Ok (ConvertToUint128 uint64_t m)
    else m ← cmul T int64_t x (-1); Ok (ConvertToUint128 (common T int64_t) m)
  else Ok (ConvertToUint128 T x).

Definition DivideModuloHelper (T U : ity) (lhs rhs : Z) : outcome (Z * Z) :=
  big_lhs ← magnitude T lhs;
  big_rhs ← magnitude U rhs;
  let negate_result := xorb (clt T lhs int_ 0) (clt U rhs int_ 0) in
  (if big_rhs =? 0 then UB else
   let quotient := big_lhs / big_rhs in
   let quotient := if negate_result then u128 (quotient * u128 (-1)) else quotient in
   let remainder := u128 (ConvertToUint128 T lhs - u128 (ConvertToUint128 U rhs * quotient)) in
   Ok (quotient, remainder)).

(** [T] is [uint64_t] or [int64_t]. *)
Definition LeftShiftHelper (T V : ity) (lhs rhs r0 : Z) : bool * Z :=
  let temp_value := conv T (Z.shiftl lhs rhs) in
  if negb (Z.shiftr temp_value rhs =? lhs) then (false, r0) else LosslessConvert T V temp_value.

Definition SafeAdd (T U V : ity) (lhs rhs r0 : Z) : bool * Z :=
  Assign V (u128 (ConvertToUint128 T lhs + ConvertToUint128 U rhs)) r0.
Definition SafeSubtract (T U V : ity) (lhs rhs r0 : Z) : bool * Z :=
  Assign V (u128 (ConvertToUint128 T lhs - ConvertToUint128 U rhs)) r0.
Definition SafeMultiply (T U V : ity) (lhs rhs r0 : Z) : bool * Z :=
  Assign V (u128 (ConvertToUint128 T lhs * ConvertToUint128 U rhs)) r0.

Definition SafeDivide (T U V : ity) (lhs rhs r0 : Z) : outcome (bool * Z) :=
  if ceq U rhs int_ 0 then Ok (false, r0)
  else '(quotient, remainder) ← DivideModuloHelper T U lhs rhs; Ok (Assign V quotient r0).
Definition SafeModulo (T U V : ity) (lhs rhs r0 : Z) : outcome (bool * Z) :=
  if ceq U rhs int_ 0 then Ok (false, r0)
  else '(quotient, remainder) ← DivideModuloHelper T U lhs rhs; Ok (Assign V remainder r0).

Definition SafeLeftShift (T V : ity) (lhs rhs r0 : Z) : bool * Z :=
  if clt int64_t rhs int_ 0 then (false, r0)
  else if cle int_ 64 int64_t rhs then (if ceq T lhs int_ 0 then (true, 0) else (false, r0))
  else if negb (clt T lhs int_ 0) then LeftShiftHelper uint64_t V (conv uint64_t lhs) rhs r0
  else LeftShiftHelper int64_t V (conv int64_t lhs) rhs r0.

Definition SafeRightShift (T V : ity) (lhs rhs r0 : Z) : bool * Z :=
  if clt int64_t rhs int_ 0 then (false, r0)
  else
    let lhs :=
      if cle uint64_t (bits T) int64_t rhs then (if clt T lhs int_ 0 then conv T (-1) else 0)
      else conv T (Z.shiftr (conv (promote T) lhs) rhs) in
    LosslessConvert T V lhs.

(** ** saturated_cast.h *)

Definition saturated_cast (To From : ity) (from : Z) : Z :=
  if is_signed From && ((clt From from int_ 0 && negb (is_signed To)) || clt From from To (tmin To)) then tmin To
  else if clt To (tmax To) From from then tmax To
  else conv To from.

Definition saturated_cast_from_uint128 (To : ity) (from : Z) : Z :=
  if negb (Z.shiftr from 64 =? 0) then tmax To else saturated_cast To uint64_t (u64 from).
Definition saturated_cast_to_uint128 (From : ity) (from : Z) : Z :=
  if clt From from int_ 0 then 0 else conv uint64_t from.
Definition saturated_cast_uint128 (from : Z) : Z := from.

(** ** saturated.h *)

Record Saturated := {
  t_ : Z;
  did_overflow_ : bool;
  did_underflow_ : bool;
  did_become_indeterminate_ : bool;
}.

Section saturated.
Context (T : ity) `{BuildMode}.

Definition Max : Z := tmax T.
Definition Min : Z := tmin T.

(** [assert]. *)
Definition assert_ (b : bool) : outcome unit := DCHECK b.

Definition make_saturated (t : Z) : outcome Saturated :=
  assert_ (cle T Min T t);; assert_ (cle T t T Max);;
  Ok {| t_ := t; did_overflow_ := false; did_underflow_ := false; did_become_indeterminate_ := false |}.

Definition make_saturated_default : outcome Saturated := make_saturated 0.

Definition IsValid (s : Saturated) : bool :=
  negb (did_overflow_ s) && negb (did_underflow_ s) && negb (did_become_indeterminate_ s).
Definition ResetStatus (s : Saturated) : Saturated :=
  {| t_ := t_ s; did_overflow_ := false; did_underflow_ := false; did_become_indeterminate_ := false |}.

Definition set_value (s : Saturated) (t : Z) : Saturated :=
  {| t_ := t; did_overflow_ := did_overflow_ s; did_underflow_ := did_underflow_ s;
     did_become_indeterminate_ := did_become_indeterminate_ s |}.
Definition overflow (s : Saturated) : Saturated :=
  {| t_ := Max; did_overflow_ := true; did_underflow_ := did_underflow_ s;
     did_become_indeterminate_ := did_become_indeterminate_ s |}.
Definition underflow (s : Saturated) : Saturated :=
  {| t_ := Min; did_overflow_ := did_overflow_ s; did_underflow_ := true;
     did_become_indeterminate_ := did_become_indeterminate_ s |}.
Definition indeterminate (s : Saturated) : Saturated :=
  {| t_ := 0; did_overflow_ := did_overflow_ s; did_underflow_ := did_underflow_ s;
     did_become_indeterminate_ := true |}.

(** [a && (b < c)] and the like, whose second operand is computed only if the
    first holds. *)
Definition and_then (a : bool) (b : outcome bool) : outcome bool := if a then b else Ok false.
Definition or_else (a : bool) (b : outcome bool) : outcome bool := if a then Ok true else b.

Definition Add (s : Saturated) (t2 : Z) : outcome Saturated :=
  if negb (IsValid s) then Ok s
  else
    over ← and_then (clt int_ 0 T t2) (d ← csub T T Max t2; Ok (clt (promote T) d T (t_ s)));
    if (over : bool) then Ok (overflow s)
    else
      under ← and_then (clt T t2 int_ 0) (d ← csub T T Min t2; Ok (clt T (t_ s) (promote T) d));
      if (under : bool) then Ok (underflow s)
      else r ← cadd T T (t_ s) t2; Ok (set_value s (conv T r)).

Definition Sub (s : Saturated) (t2 : Z) : outcome Saturated :=
  if negb (IsValid s) then Ok s
  else
    over ← and_then (clt T t2 int_ 0) (d ← cadd T T Max t2; Ok (clt (promote T) d T (t_ s)));
    if (over : bool) then Ok (overflow s)
    else
      under ← and_then (clt int_ 0 T t2) (d ← cadd T T Min t2; Ok (clt T (t_ s) (promote T) d));
      if (under : bool) then Ok (underflow s)
      else r ← csub T T (t_ s) t2; Ok (set_value s (conv T r)).

(** The three cases of [Mul] that fall through to each other; [t] is [t_]. *)
Definition Mul_negative (s : Saturated) (t t2 : Z) : outcome Saturated :=
  assert_ (cle T t int_ (-1));; assert_ (cle int_ 1 T t2);;
  q ← cdiv T T Min t2;
  let q := conv T q in
  r ← crem T T Min t2;
  let r := conv T r in
  q ← (if clt int_ 0 T r then
         assert_ (clt T r T t2);; assert_ (clt T q int_ 0);; q ← cadd T int_ q 1; Ok (conv T q)
       else Ok q);
  if clt T t T q then Ok (underflow s)
  else r ← cmul T T t t2; Ok (set_value s (conv T r)).

Definition Mul_mixed (s : Saturated) (t t2 : Z) : outcome Saturated :=
  if clt int_ 0 T t && clt T t2 int_ 0 then
    assert_ (cle int_ 1 T t);; assert_ (cle T t2 int_ (-1));; Mul_negative s t2 t
  else if clt T t int_ 0 && clt int_ 0 T t2 then Mul_negative s t t2
  else Crash.

Definition Mul_positive (s : Saturated) (t t2 : Z) : outcome Saturated :=
  if clt int_ 0 T t && clt int_ 0 T t2 then
    assert_ (cle int_ 1 T t);; assert_ (cle int_ 1 T t2);;
    q ← cdiv T T Max t2;
    if clt (promote T) q T t then Ok (overflow s)
    else r ← cmul T T t t2; Ok (set_value s (conv T r))
  else Mul_mixed s t t2.

Definition Mul (s : Saturated) (t2 : Z) : outcome Saturated :=
  if negb (IsValid s) then Ok s
  else if ceq T (t_ s) int_ 0 || ceq T t2 int_ 0 then
    r ← cmul T T (t_ s) t2; Ok (set_value s (conv T r))
  else if clt T (t_ s) int_ 0 && clt T t2 int_ 0 then
    assert_ (cle T (t_ s) int_ (-1));; assert_ (cle T t2 int_ (-1));;
    a ← cadd T T Max (t_ s);
    over ← or_else (clt (promote T) a int_ 0) (b ← cadd T T Max t2; Ok (clt (promote T) b int_ 0));
    if (over : bool) then Ok (overflow s)
    else
      a ← csub int_ T 0 (t_ s);
      b ← csub int_ T 0 t2;
      Mul_positive s (conv T a) (conv T b)
  else Mul_positive s (t_ s) t2.

Definition Div (s : Saturated) (t2 : Z) : outcome Saturated :=
  weird ← and_then (clt T Min int_ 0) (m ← cadd T T Max Min; Ok (negb (ceq (promote T) m int_ (-1))));
  if (weird : bool) then Crash
  else if negb (IsValid s) then Ok s
  else if ceq T t2 int_ 0 then
    if clt T (t_ s) int_ 0 then Ok (underflow s)
    else if ceq T (t_ s) int_ 0 then Ok (indeterminate s)
    else if clt int_ 0 T (t_ s) then Ok (overflow s)
    else Crash
  else if clt int_ 0 T t2 then
    assert_ (cle int_ 1 T t2);; q ← cdiv T T (t_ s) t2; Ok (set_value s (conv T q))
  else if clt T t2 int_ 0 then
    assert_ (cle T t2 int_ (-1));;
    m ← cadd T T Max Min;
    if ceq (promote T) m int_ (-1) then
      if ceq T (t_ s) T Min && ceq T t2 int_ (-1) then Ok (overflow s)
      else q ← cdiv T T (t_ s) t2; Ok (set_value s (conv T q))
    else Crash
  else Crash.

Definition Rem (s : Saturated) (t2 : Z) : outcome Saturated :=
  if negb (IsValid s) then Ok s
  else
    t3 ← make_saturated (t_ s);
    t3 ← Div t3 t2;
    if negb (IsValid t3) then Ok (indeterminate s)
    else
      r ← crem T T (t_ s) t2;
      let t_new := conv T r in
      (if NDEBUG then Ok tt else
       p ← cmul T T (t_ t3) t2;
       p ← cadd (promote T) T p t_new;
       assert_ (ceq (common (promote T) T) p T (t_ s)));;
      Ok (set_value s t_new).
End saturated.
