(* ===== verification/IntOpsProps.v ===== *)
(** * Safe and saturated integer operations are exact

    The safe operations of [util/intops] compute with unbounded integers, as far as
    their results fit.  [saturated_cast] clips, and the operations of [Saturated] compute the exact
    result and clip it, for every integer type. *)
From Stdlib Require Import ZArith Lia.
From stdpp Require Import base decidable tactics.
From S2P Require Import Prelude.
From S2P Require Import IntTypes.
From S2P Require Import IntOps.
Local Open Scope Z_scope.

(** ** Conversions *)

Lemma tmin_tmax t : tmin t <= 0 <= tmax t /\ 127 <= tmax t /\ - 2 ^ 63 <= tmin t /\ tmax t < 2 ^ 64.
Proof. ity_cases t; cbn; lia. Qed.

Lemma in_range_u64 x : 0 <= x < 2 ^ 64 -> in_range uint64_t x.
Proof. unfold in_range. cbn. lia. Qed.
Lemma in_range_i64 x : - 2 ^ 63 <= x < 2 ^ 63 -> in_range int64_t x.
Proof. unfold in_range. cbn. lia. Qed.

Lemma conv_range t x : in_range t (conv t x).
Proof.
  unfold conv, swrap. ity_cases t; cbn [is_signed bits its_width];
    match goal with |- context [?a mod ?b] => pose proof (Z.mod_pos_bound a b ltac:(reflexivity)) end; bounds.
Qed.

(** Numbers that agree modulo 2^64 convert to the same value. *)
Lemma conv_mod t x y : x mod 2 ^ 64 = y mod 2 ^ 64 -> conv t x = conv t y.
Proof.
  intros E. assert (forall n c, 0 <= n <= 64 -> (x + c) mod 2 ^ n = (y + c) mod 2 ^ n) as Hn.
  { intros n c Hn. assert ((2 ^ n | 2 ^ 64)) as [k Hk].
    { exists (2 ^ (64 - n)). rewrite <- Z.pow_add_r by lia. f_equal. lia. }
    assert (forall z, z mod 2 ^ n = (z mod 2 ^ 64) mod 2 ^ n) as Hm.
    { intros z. symmetry. apply Z.mod_mod_divide. by exists k. }
    rewrite (Z.add_mod x), (Z.add_mod y), (Hm x), (Hm y), E by lia. done. }
  unfold conv, swrap. pose proof (Hn (bits t) 0) as H0. rewrite !Z.add_0_r in H0.
  destruct (is_signed t); [rewrite (Hn (bits t)); [done|]|apply H0]; ity_cases t; cbn; lia.
Qed.

Lemma LosslessConvert_spec In Out x : in_range In x -> LosslessConvert In Out x = (in_rangeb Out x, conv Out x).
Proof.
  intros Hx. pose proof (conv_range Out x) as Ho. pose proof (conv_range In (conv Out x)) as Hi.
  unfold LosslessConvert. rewrite !clt_zero by done. unfold ceq. rewrite common_same.
  rewrite !(conv_id (promote In)) by (by apply promote_range).
  destruct (in_rangeb Out x) eqn:Er.
  - apply in_rangeb_spec in Er. rewrite (conv_id Out x), (conv_id In x), Z.eqb_refl, Bool.eqb_reflx by done.
    cbn. by rewrite andb_false_r.
  - apply in_rangeb_false in Er. set (out := conv Out x) in *.
    destruct (Z.eqb_spec (conv In out) x) as [E|]; [|done]. cbn [negb].
    assert (~ in_range In out) as Hni.
    { intros Hin. rewrite conv_id in E by done. subst out. rewrite E in Ho. done. }
    assert (is_signed In <> is_signed Out) as Hs.
    { intros Hs. revert Hni Er. clear E. ity_cases In; ity_cases Out; try discriminate Hs; bounds. }
    rewrite (proj2 (Bool.eqb_false_iff _ _)) by done. cbn [negb andb].
    rewrite (proj2 (Bool.eqb_false_iff _ _)); [done|].
    intros Hlt. clear Hi.
    destruct (Z.ltb_spec x 0), (Z.ltb_spec out 0); try done; revert Hni Er; clear E;
      ity_cases In; ity_cases Out; try (by destruct Hs); bounds.
Qed.

(** ** 128-bit intermediate results *)

Lemma u64_shift y : u64 y = y mod 2 ^ 64.
Proof. done. Qed.

Lemma ConvertToUint128_spec T x : in_range T x -> ConvertToUint128 T x = u128 x.
Proof.
  intros Hx. unfold ConvertToUint128, MakeUint128, u128, conv, uint64_t. rewrite clt_zero by done. cbn [is_signed bits its_width].
  destruct (tmin_tmax T) as (_ & _ & H1 & H2). unfold in_range in Hx. destruct (Z.ltb_spec x 0).
  - rewrite <- (Z.mod_add x 1 (2 ^ 64)), <- (Z.mod_add x 1 (2 ^ 128)) by done. rewrite !Z.mod_small by lia. lia.
  - rewrite !Z.mod_small by lia. lia.
Qed.

(** The halves of a 128-bit number. *)
Lemma halves_nonneg y : 0 <= y < 2 ^ 128 -> Z.shiftr (u128 y) 64 = y / 2 ^ 64 /\ u64 (u128 y) = y mod 2 ^ 64.
Proof.
  intros Hy. unfold u128, u64. rewrite (Z.mod_small y) by done. rewrite Z.shiftr_div_pow2 by lia. done.
Qed.

Lemma halves_neg y : - 2 ^ 128 <= y < 0 ->
  Z.shiftr (u128 y) 64 = 2 ^ 64 + y / 2 ^ 64 /\ u64 (u128 y) = y mod 2 ^ 64.
Proof.
  intros Hy. unfold u128, u64. rewrite <- (Z.mod_add y 1 (2 ^ 128)), (Z.mod_small (y + 1 * 2 ^ 128)) by lia.
  rewrite Z.shiftr_div_pow2 by lia. replace (1 * 2 ^ 128) with (2 ^ 64 * 2 ^ 64) by lia.
  rewrite Z.div_add, Z.mod_add by lia. split; lia.
Qed.

Lemma land_sign_bit low : 0 <= low < 2 ^ 64 -> (Z.land low (2 ^ 63) =? 0) = (low <? 2 ^ 63).
Proof.
  intros Hl. assert (Z.testbit low 63 = negb (low <? 2 ^ 63)) as Ht.
  { destruct (Z.ltb_spec low (2 ^ 63)); [apply (testbit_small _ 63); lia|]. apply Z.testbit_true; [lia|].
    replace (low / 2 ^ 63) with 1; [done|]. apply (Z.div_unique _ _ _ (low - 2 ^ 63)); lia. }
  destruct (Z.ltb_spec low (2 ^ 63)); apply Z.eqb_eq || apply Z.eqb_neq.
  - apply Z.bits_inj'. intros i Hi. rewrite Z.land_spec, Z.bits_0, Z.pow2_bits_eqb by lia.
    destruct (Z.eqb_spec 63 i) as [<-|]; [by rewrite Ht|]. apply andb_false_r.
  - intros E. apply (f_equal (fun z => Z.testbit z 63)) in E.
    rewrite Z.land_spec, Z.bits_0, Z.pow2_bits_eqb, Ht in E by lia. done.
Qed.

Lemma cle_low V y : 0 <= y < 2 ^ 64 -> cle uint64_t y V (tmax V) = (y <=? tmax V).
Proof.
  intros Hy. pose proof (tmin_tmax V). apply cle_fits; [apply common_nonneg; [|lia]|apply common_sym_range; [|lia]].
  - unfold in_range. cbn. lia.
  - unfold in_range. lia.
Qed.

Lemma conv_int64 y : - 2 ^ 63 <= y < 2 ^ 63 -> conv int64_t y = y.
Proof. intros Hy. apply conv_id. unfold in_range. cbn. lia. Qed.

Lemma cle_int64 x y : - 2 ^ 63 <= x < 2 ^ 63 -> - 2 ^ 63 <= y < 2 ^ 63 -> cle int64_t x int64_t y = (x <=? y).
Proof. intros Hx Hy. apply cle_fits; by apply in_range_i64. Qed.

(** [Assign] stores exactly the numbers that fit, when the 128 bits stand for a
    number that is not too far out. *)
Lemma Assign_spec V y r0 : - (2 ^ 128 - 2 ^ 64) <= y < 2 ^ 128 - 2 ^ 64 ->
  Assign V (u128 y) r0 = if in_rangeb V y then (true, y) else (false, r0).
Proof.
  intros Hy. pose proof (tmin_tmax V) as (H0 & _ & Hmin & Hmax). unfold Assign.
  assert (in_range V y -> conv V (y mod 2 ^ 64) = y) as Hconv.
  { intros Hr. rewrite (conv_mod V _ y) by (by rewrite Z.mod_mod). by apply conv_id. }
  pose proof (Z.div_mod y (2 ^ 64) ltac:(done)) as Hdm. pose proof (Z.mod_pos_bound y (2 ^ 64) ltac:(done)) as Hmb.
  set (h := y / 2 ^ 64) in *. set (low := y mod 2 ^ 64) in *.
  destruct (Z.ltb_spec y 0) as [Hneg|Hpos]; [destruct (halves_neg y ltac:(lia)) as [-> ->]|destruct (halves_nonneg y ltac:(lia)) as [-> ->]];
    fold h low.
  - rewrite (proj2 (Z.eqb_neq (2 ^ 64 + h) 0)) by lia. rewrite land_sign_bit by done.
    destruct (Z.eqb_spec (2 ^ 64 + h) (2 ^ 64 - 1)) as [Hh|Hh]; cbn [andb].
    + destruct (Z.ltb_spec low (2 ^ 63)) as [Hl|Hl]; cbn [negb].
      * rewrite (proj2 (in_rangeb_false V y)); [done|]. unfold in_range. lia.
      * replace (conv int64_t low) with y by (unfold low; rewrite (conv_mod int64_t _ y) by (by rewrite Z.mod_mod); symmetry; apply conv_int64; lia).
        rewrite conv_int64, cle_int64 by lia. destruct (in_rangeb V y) eqn:Er.
        -- apply in_rangeb_spec in Er. rewrite (proj2 (Z.leb_le _ _)) by (unfold in_range in Er; lia). by rewrite Hconv.
        -- apply in_rangeb_false in Er. rewrite (proj2 (Z.leb_gt _ _)) by (unfold in_range in Er; lia). done.
    + rewrite (proj2 (in_rangeb_false V y)); [done|]. unfold in_range. lia.
  - destruct (Z.eqb_spec h 0) as [Hh|Hh].
    + rewrite cle_low by lia. destruct (in_rangeb V y) eqn:Er.
      * apply in_rangeb_spec in Er. rewrite (proj2 (Z.leb_le _ _)) by (unfold in_range in Er; lia). by rewrite Hconv.
      * apply in_rangeb_false in Er. rewrite (proj2 (Z.leb_gt _ _)) by (unfold in_range in Er; lia). done.
    + rewrite (proj2 (Z.eqb_neq h (2 ^ 64 - 1))) by lia. cbn [andb].
      rewrite (proj2 (in_rangeb_false V y)); [done|]. unfold in_range. lia.
Qed.

(** ** Division *)

Lemma u128_add x y : u128 (u128 x + u128 y) = u128 (x + y).
Proof. unfold u128. by rewrite <- Z.add_mod. Qed.
Lemma u128_sub x y : u128 (u128 x - u128 y) = u128 (x - y).
Proof. unfold u128. by rewrite <- Zminus_mod. Qed.
Lemma u128_mul x y : u128 (u128 x * u128 y) = u128 (x * y).
Proof. unfold u128. by rewrite <- Z.mul_mod. Qed.
Lemma u128_small x : 0 <= x < 2 ^ 128 -> u128 x = x.
Proof. apply Z.mod_small. Qed.

Lemma range_64 T x : in_range T x -> - 2 ^ 63 <= x < 2 ^ 64.
Proof. pose proof (tmin_tmax T). unfold in_range. lia. Qed.

Lemma magnitude_spec T x : in_range T x -> magnitude T x = Ok (Z.abs x).
Proof.
  intros Hx. pose proof (range_64 T x Hx) as Hb. unfold magnitude. rewrite clt_zero by done.
  destruct (Z.ltb_spec x 0) as [Hn|Hp].
  - assert (is_signed T = true) as Hs by (destruct (is_signed T) eqn:E; [done|]; unfold in_range, tmin in Hx; rewrite E in Hx; lia).
    assert (common T int64_t = int64_t) as Hc by (ity_cases T; done).
    unfold ceq. rewrite Hc, !conv_int64 by (cbn; lia). destruct (Z.eqb_spec x (tmin int64_t)) as [->|Hne].
    + cbn. done.
    + unfold cmul. rewrite Hc, !conv_int64, result_in_ok, bind_Ok by (unfold in_range; cbn in *; lia).
      rewrite ConvertToUint128_spec, u128_small by (unfold in_range; cbn in *; lia). f_equal. lia.
  - rewrite ConvertToUint128_spec, u128_small by (done || lia). f_equal. lia.
Qed.

Lemma quot_sign a b : b <> 0 -> (if xorb (a <? 0) (b <? 0) then - (Z.abs a / Z.abs b) else Z.abs a / Z.abs b) = Z.quot a b.
Proof.
  intros Hb. destruct (Z.ltb_spec a 0), (Z.ltb_spec b 0); cbn [xorb];
    rewrite ?(Z.abs_neq a), ?(Z.abs_neq b), ?(Z.abs_eq a), ?(Z.abs_eq b) by lia.
  - rewrite <- Z.quot_div_nonneg by lia. apply Z.quot_opp_opp. lia.
  - rewrite <- Z.quot_div_nonneg, Z.quot_opp_l by lia. lia.
  - rewrite <- Z.quot_div_nonneg, Z.quot_opp_r by lia. lia.
  - symmetry. apply Z.quot_div_nonneg; lia.
Qed.

Lemma DivideModuloHelper_spec T U a b : in_range T a -> in_range U b -> b <> 0 ->
  DivideModuloHelper T U a b = Ok (u128 (Z.quot a b), u128 (Z.rem a b)).
Proof.
  intros Ha Hb Hb0. pose proof (range_64 T a Ha). pose proof (range_64 U b Hb).
  unfold DivideModuloHelper. rewrite !magnitude_spec, !bind_Ok, !clt_zero by done.
  rewrite (proj2 (Z.eqb_neq _ _)) by lia.
  assert ((if xorb (a <? 0) (b <? 0) then u128 (Z.abs a / Z.abs b * u128 (-1)) else Z.abs a / Z.abs b) = u128 (Z.quot a b)) as ->.
  { rewrite <- quot_sign by done.
    assert (0 <= Z.abs a / Z.abs b < 2 ^ 128) as Hq.
    { split; [apply Z.div_pos; lia|]. pose proof (Z.div_le_upper_bound (Z.abs a) (Z.abs b) (Z.abs a)). nia. }
    destruct (xorb (a <? 0) (b <? 0)); [|by rewrite u128_small].
    rewrite <- (u128_small (Z.abs a / Z.abs b)) at 1 by done. rewrite u128_mul. f_equal. lia. }
  rewrite !ConvertToUint128_spec, u128_mul, u128_sub by done. do 2 f_equal.
  pose proof (Z.quot_rem' a b). f_equal. lia.
Qed.

(** ** Shifts *)

Lemma conv_64 T y : bits T = 64 -> exists k, conv T y = y + k * 2 ^ 64.
Proof.
  intros Hb. unfold conv, swrap. rewrite Hb. destruct (is_signed T).
  - exists (- ((y + 2 ^ (64 - 1)) / 2 ^ 64)). rewrite Z.mod_eq by done. lia.
  - exists (- (y / 2 ^ 64)). rewrite Z.mod_eq by done. lia.
Qed.

Lemma LeftShiftHelper_spec T V x n r0 : bits T = 64 -> in_range T x -> 0 <= n < 64 ->
  fst (LeftShiftHelper T V x n r0) = in_rangeb T (x * 2 ^ n) && in_rangeb V (x * 2 ^ n) /\
  (fst (LeftShiftHelper T V x n r0) = true -> snd (LeftShiftHelper T V x n r0) = x * 2 ^ n).
Proof.
  intros HT Hx Hn. unfold LeftShiftHelper. rewrite Z.shiftl_mul_pow2 by lia. set (y := x * 2 ^ n).
  pose proof (conv_range T y) as Hc. rewrite Z.shiftr_div_pow2 by lia.
  destruct (in_rangeb T y) eqn:Er.
  - apply in_rangeb_spec in Er. rewrite (conv_id T y) by done.
    assert (y / 2 ^ n = x) as -> by (apply Z.div_mul, Z.pow_nonzero; lia). rewrite Z.eqb_refl. cbn [negb]. rewrite LosslessConvert_spec by done. cbn [fst snd andb]. split; [done|].
    intros Hv. apply conv_id. by apply in_rangeb_spec.
  - apply in_rangeb_false in Er. cbn [andb]. destruct (Z.eqb_spec (conv T y / 2 ^ n) x) as [E|]; [|done].
    exfalso. destruct (conv_64 T y HT) as [k Hk]. rewrite Hk in E, Hc.
    replace (y + k * 2 ^ 64) with ((x + k * 2 ^ (64 - n)) * 2 ^ n) in E.
    + rewrite Z.div_mul in E by (apply Z.pow_nonzero; lia). pose proof (Z.pow_pos_nonneg 2 (64 - n)).
      assert (k = 0) as -> by nia. rewrite Z.mul_0_l, Z.add_0_r in Hc. done.
    + unfold y. rewrite Z.mul_add_distr_r, <- Z.mul_assoc, <- Z.pow_add_r by lia. do 3 f_equal. lia.
Qed.

Lemma SafeLeftShift_spec T V x n r0 : in_range T x -> in_range int64_t n ->
  fst (SafeLeftShift T V x n r0) = (0 <=? n) && in_rangeb V (x * 2 ^ n) /\
  (fst (SafeLeftShift T V x n r0) = true -> snd (SafeLeftShift T V x n r0) = x * 2 ^ n).
Proof.
  intros Hx Hn. pose proof (range_64 T x Hx) as Hb. pose proof (tmin_tmax V) as HV. unfold SafeLeftShift.
  rewrite (clt_zero int64_t n), (clt_zero T x), (ceq_zero T x) by done.
  assert (cle int_ 64 int64_t n = (64 <=? n)) as ->.
  { apply cle_fits; [apply in_range_i64; lia|done]. }
  destruct (Z.ltb_spec n 0) as [Hneg|Hpos]; [rewrite (proj2 (Z.leb_gt 0 n)) by lia; done|].
  rewrite (proj2 (Z.leb_le 0 n)) by lia. cbn [andb].
  destruct (Z.leb_spec 64 n) as [Hbig|Hsmall].
  - destruct (Z.eqb_spec x 0) as [->|Hx0]; cbn [fst snd].
    + split; [symmetry; apply in_rangeb_spec; unfold in_range; lia|done].
    + split; [symmetry; apply in_rangeb_false; unfold in_range|done].
      pose proof (Z.pow_le_mono_r 2 64 n ltac:(lia) Hbig). nia.
  - destruct (Z.ltb_spec x 0) as [Hxn|Hxp]; cbn [negb].
    + assert (is_signed T = true) by (destruct (is_signed T) eqn:E; [done|]; unfold in_range, tmin in Hx; rewrite E in Hx; lia).
      assert (- 2 ^ 63 <= x < 2 ^ 63) as Hx63 by lia. rewrite conv_int64 by done.
      destruct (LeftShiftHelper_spec int64_t V x n r0) as [H1 H2]; [done|by apply in_range_i64|lia|]. split; [|done].
      rewrite H1. destruct (in_rangeb V (x * 2 ^ n)) eqn:Er; [|apply andb_false_r].
      apply in_rangeb_spec in Er. rewrite andb_true_r. apply in_rangeb_spec. apply in_range_i64. unfold in_range in Er.
      pose proof (Z.pow_pos_nonneg 2 n). nia.
    + rewrite (conv_id uint64_t x) by (apply in_range_u64; lia).
      destruct (LeftShiftHelper_spec uint64_t V x n r0) as [H1 H2]; [done|apply in_range_u64; lia|lia|]. split; [|done].
      rewrite H1. destruct (in_rangeb V (x * 2 ^ n)) eqn:Er; [|apply andb_false_r].
      apply in_rangeb_spec in Er. rewrite andb_true_r. apply in_rangeb_spec. apply in_range_u64. unfold in_range in Er.
      pose proof (Z.pow_pos_nonneg 2 n). nia.
Qed.

Lemma ity_shiftr_range T x n : in_range T x -> 0 <= n -> in_range T (Z.shiftr x n).
Proof.
  intros Hx Hn. rewrite Z.shiftr_div_pow2 by done. pose proof (Z.pow_pos_nonneg 2 n ltac:(lia) Hn) as Hp.
  pose proof (tmin_tmax T) as Ht. unfold in_range in *. split.
  - apply Z.div_le_lower_bound; [done|]. nia.
  - destruct (Z.ltb_spec x 0).
    + pose proof (Z.div_lt_upper_bound x (2 ^ n) 0 Hp). lia.
    + pose proof (Z.div_le_upper_bound x (2 ^ n) x Hp). nia.
Qed.

Lemma SafeRightShift_spec T V x n r0 : in_range T x -> in_range int64_t n ->
  SafeRightShift T V x n r0 =
    if 0 <=? n then (in_rangeb V (Z.shiftr x n), conv V (Z.shiftr x n)) else (false, r0).
Proof.
  intros Hx Hn. unfold SafeRightShift. rewrite (clt_zero int64_t n), (clt_zero T x) by done.
  destruct (Z.ltb_spec n 0) as [Hneg|Hpos]; [by rewrite (proj2 (Z.leb_gt 0 n)) by lia|].
  rewrite (proj2 (Z.leb_le 0 n)) by lia.
  assert (0 < bits T <= 64) as Hbits by (ity_cases T; cbn; lia).
  assert (cle uint64_t (bits T) int64_t n = (bits T <=? n)) as ->.
  { apply cle_fits; apply in_range_u64; [lia|]. unfold in_range in Hn. cbn in Hn. lia. }
  assert ((if bits T <=? n then if x <? 0 then conv T (-1) else 0 else conv T (Z.shiftr (conv (promote T) x) n)) = Z.shiftr x n) as ->.
  { rewrite (conv_id (promote T) x) by (by apply promote_range). rewrite (conv_id T (Z.shiftr x n)) by (by apply ity_shiftr_range).
    destruct (Z.leb_spec (bits T) n) as [Hbig|]; [|done].
    pose proof (Z.pow_le_mono_r 2 (bits T) n ltac:(lia) Hbig) as Hp. rewrite Z.shiftr_div_pow2 by lia.
    assert (- 2 ^ bits T <= x < 2 ^ bits T) as Hxb.
    { unfold in_range, tmin, tmax in Hx. ity_cases T; cbn in Hx |- *; lia. }
    destruct (Z.ltb_spec x 0).
    - assert (is_signed T = true) by (destruct (is_signed T) eqn:E; [done|]; unfold in_range, tmin in Hx; rewrite E in Hx; lia).
      rewrite conv_id by (unfold in_range, tmin, tmax; ity_cases T; cbn in *; (lia || discriminate)).
      apply (Z.div_unique _ _ _ (x + 2 ^ n)); lia.
    - symmetry. apply Z.div_small. lia. }
  apply LosslessConvert_spec. by apply ity_shiftr_range.
Qed.

(** The nearest value of a type. *)
Definition clip (t : ity) (x : Z) : Z := if x <? tmin t then tmin t else if tmax t <? x then tmax t else x.

Lemma common_signed a b x : is_signed a = true -> is_signed b = true -> in_range a x \/ in_range b x -> in_range (common a b) x.
Proof. ity_cases a; ity_cases b; intros Ha Hb; try discriminate; eval_common; intros [Hx|Hx]; bounds. Qed.

Lemma signed_min t x : in_range t x -> x < 0 -> is_signed t = true.
Proof. intros Hx Hn. destruct (is_signed t) eqn:E; [done|]. unfold in_range, tmin in Hx. rewrite E in Hx. lia. Qed.

Lemma saturated_cast_spec To From x : in_range From x -> saturated_cast To From x = clip To x.
Proof.
  intros Hx. pose proof (tmin_tmax To) as Ht. unfold saturated_cast, clip. rewrite clt_zero by done.
  assert (clt To (tmax To) From x = (tmax To <? x) \/ (x < 0 /\ is_signed To = false)) as Hmax.
  { destruct (Z.ltb_spec x 0) as [Hn|Hp].
    - destruct (is_signed To) eqn:Es; [left|by right]. pose proof (signed_min _ _ Hx Hn).
      apply clt_fits; apply common_signed; try done; [left; unfold in_range; lia|by right].
    - left. apply clt_fits; [apply common_nonneg; unfold in_range; lia|by apply common_sym_range]. }
  assert (is_signed From = true -> (0 <= x \/ is_signed To = true) -> clt From x To (tmin To) = (x <? tmin To)) as Hmin.
  { intros Hs Hor. apply clt_fits.
    - destruct Hor as [Hp|Hst]; [by apply common_nonneg|]. apply common_signed; try done. by left.
    - destruct (is_signed To) eqn:Est; [apply common_signed; try done; right; unfold in_range; lia|].
      assert (tmin To = 0) as -> by (unfold tmin; by rewrite Est). apply zero_range. }
  destruct (is_signed From) eqn:Es; cbn [andb].
  - destruct (Z.ltb_spec x 0) as [Hn|Hp]; cbn [andb orb].
    + destruct (is_signed To) eqn:Est; cbn [negb orb].
      * rewrite Hmin by auto. destruct (Z.ltb_spec x (tmin To)); [done|]. destruct Hmax as [->|[_ ?]]; [|done].
        destruct (Z.ltb_spec (tmax To) x); [done|]. apply conv_id. unfold in_range. lia.
      * assert (tmin To = 0) as Hz by (unfold tmin; by rewrite Est). rewrite (proj2 (Z.ltb_lt _ _)) by lia. done.
    + rewrite Hmin by auto. rewrite (proj2 (Z.ltb_ge x (tmin To))) by lia. destruct Hmax as [->|[? _]]; [|lia].
      destruct (Z.ltb_spec (tmax To) x); [done|]. apply conv_id. unfold in_range. lia.
  - assert (0 <= x) as Hp by (unfold in_range, tmin in Hx; rewrite Es in Hx; lia).
    rewrite (proj2 (Z.ltb_ge x (tmin To))) by lia. destruct Hmax as [->|[? _]]; [|lia].
    destruct (Z.ltb_spec (tmax To) x); [done|]. apply conv_id. unfold in_range. lia.
Qed.

Lemma saturated_cast_from_uint128_spec To x : 0 <= x < 2 ^ 128 -> saturated_cast_from_uint128 To x = clip To x.
Proof.
  intros Hx. unfold saturated_cast_from_uint128. rewrite Z.shiftr_div_pow2 by lia. pose proof (tmin_tmax To).
  destruct (Z.eqb_spec (x / 2 ^ 64) 0) as [E|E]; cbn [negb].
  - assert (x < 2 ^ 64) by (apply Z.div_small_iff in E; lia). unfold u64. rewrite Z.mod_small by lia.
    apply saturated_cast_spec, in_range_u64. lia.
  - assert (2 ^ 64 <= x) by (destruct (Z.ltb_spec x (2 ^ 64)); [rewrite Z.div_small in E; lia|done]).
    unfold clip. rewrite (proj2 (Z.ltb_ge x (tmin To))), (proj2 (Z.ltb_lt (tmax To) x)) by lia. done.
Qed.

Lemma saturated_cast_to_uint128_spec From x : in_range From x -> saturated_cast_to_uint128 From x = Z.max 0 x.
Proof.
  intros Hx. pose proof (range_64 From x Hx). unfold saturated_cast_to_uint128. rewrite clt_zero by done.
  destruct (Z.ltb_spec x 0); [lia|]. rewrite conv_id by (apply in_range_u64; lia). lia.
Qed.

(** ** Arithmetic on one type *)

Section arith.
Context (T : ity).
Implicit Types x y r : Z.

Lemma common_promote : common (promote T) T = promote T /\ common T (promote T) = promote T /\ common (promote T) (promote T) = promote T.
Proof. by ity_cases T. Qed.

Lemma range_promote x : in_range T x -> in_range (promote T) x.
Proof. apply promote_range. Qed.

Lemma cadd_ok x y : in_range T x -> in_range T y -> in_range (promote T) (x + y) -> cadd T T x y = Ok (x + y).
Proof.
  intros Hx Hy Hr. unfold cadd. rewrite common_same, !conv_id by (by apply range_promote). by apply result_in_ok.
Qed.
Lemma csub_ok x y : in_range T x -> in_range T y -> in_range (promote T) (x - y) -> csub T T x y = Ok (x - y).
Proof.
  intros Hx Hy Hr. unfold csub. rewrite common_same, !conv_id by (by apply range_promote). by apply result_in_ok.
Qed.
Lemma cmul_ok x y : in_range T x -> in_range T y -> in_range (promote T) (x * y) -> cmul T T x y = Ok (x * y).
Proof.
  intros Hx Hy Hr. unfold cmul. rewrite common_same, !conv_id by (by apply range_promote). by apply result_in_ok.
Qed.
Lemma cdiv_ok x y : in_range T x -> in_range T y -> y <> 0 -> in_range (promote T) (Z.quot x y) ->
  cdiv T T x y = Ok (Z.quot x y).
Proof.
  intros Hx Hy H0 Hr. unfold cdiv. rewrite common_same, !conv_id by (by apply range_promote).
  rewrite (proj2 (Z.eqb_neq _ _)) by done. by apply result_in_ok.
Qed.
Lemma crem_ok x y : in_range T x -> in_range T y -> y <> 0 -> in_range (promote T) (Z.quot x y) ->
  in_range (promote T) (Z.rem x y) -> crem T T x y = Ok (Z.rem x y).
Proof.
  intros Hx Hy H0 Hq Hr. unfold crem. rewrite cdiv_ok, bind_Ok by done.
  rewrite common_same, !conv_id by (by apply range_promote). by apply result_in_ok.
Qed.

Lemma clt_wide x y : in_range (promote T) x -> in_range T y -> clt (promote T) x T y = (x <? y).
Proof. intros Hx Hy. apply clt_fits; destruct common_promote as (-> & _); [done|by apply range_promote]. Qed.
Lemma wide_clt x y : in_range T x -> in_range (promote T) y -> clt T x (promote T) y = (x <? y).
Proof. intros Hx Hy. apply clt_fits; destruct common_promote as (_ & -> & _); [by apply range_promote|done]. Qed.
Lemma cle_same x y : in_range T x -> in_range T y -> cle T x T y = (x <=? y).
Proof. intros Hx Hy. unfold cle. rewrite common_same, !conv_id by (by apply range_promote). done. Qed.
Lemma ceq_same x y : in_range T x -> in_range T y -> ceq T x T y = (x =? y).
Proof. intros Hx Hy. unfold ceq. rewrite common_same, !conv_id by (by apply range_promote). done. Qed.
Lemma one_cle y : in_range T y -> cle int_ 1 T y = (1 <=? y).
Proof. intros Hy. apply cle_fits; revert Hy; ity_cases T; eval_common; intros; bounds. Qed.
Lemma cle_minus_one y : is_signed T = true -> in_range T y -> cle T y int_ (-1) = (y <=? -1).
Proof. intros Hs Hy. apply cle_fits; revert Hy Hs; ity_cases T; intros ? ?; try discriminate; eval_common; bounds. Qed.
Lemma ceq_minus_one y : is_signed T = true -> in_range (promote T) y ->
  ceq T y int_ (-1) = (y =? -1) /\ ceq (promote T) y int_ (-1) = (y =? -1).
Proof.
  intros Hs Hy. unfold ceq. split; rewrite !conv_id; try done; revert Hy Hs; ity_cases T; intros ? ?; try discriminate;
    eval_common; bounds.
Qed.
Lemma wide_zero y : in_range (promote T) y -> clt (promote T) y int_ 0 = (y <? 0).
Proof. apply clt_zero. Qed.
Lemma csub_zero y : in_range T y -> in_range (promote T) (- y) -> csub int_ T 0 y = Ok (- y).
Proof.
  intros Hy Hr. unfold csub. assert (common int_ T = promote T) as -> by (by ity_cases T).
  rewrite !conv_id by (apply zero_range || by apply range_promote). rewrite result_in_ok; [f_equal; lia|].
  replace (0 - y) with (- y) by lia. done.
Qed.
End arith.

(** ** The operations *)

(** A value that is known to be in range, in its type or promoted. *)
Ltac rng := first [assumption | apply zero_range | apply range_promote; first [assumption | apply zero_range]].

Section saturated.
Context (T : ity) `{BuildMode}.
Implicit Types (s : Saturated) (r : Z).

(** [r], clipped, with the status it causes. *)
Definition saturate s r : Saturated :=
  if tmax T <? r then overflow T s else if r <? tmin T then underflow T s else set_value s r.

Lemma assert_holds b : b = true -> assert_ b = Ok tt.
Proof. intros ->. unfold assert_, DCHECK. by rewrite orb_true_r. Qed.

Lemma range_iff r : in_range T r <-> tmin T <= r <= tmax T.
Proof. done. Qed.

Lemma saturate_fits s r : in_range T r -> saturate s r = set_value s r.
Proof.
  intros Hr. unfold saturate, in_range in *. rewrite (proj2 (Z.ltb_ge _ _)), (proj2 (Z.ltb_ge r _)) by lia. done.
Qed.
Lemma saturate_over s r : tmax T < r -> saturate s r = overflow T s.
Proof. intros Hr. unfold saturate. by rewrite (proj2 (Z.ltb_lt _ _)). Qed.
Lemma saturate_under s r : r < tmin T -> saturate s r = underflow T s.
Proof.
  intros Hr. pose proof (tmin_tmax T). unfold saturate. rewrite (proj2 (Z.ltb_ge _ _)), (proj2 (Z.ltb_lt r _)) by lia. done.
Qed.

Lemma max_range : in_range T (tmax T).
Proof. pose proof (tmin_tmax T). unfold in_range. lia. Qed.
Lemma min_range : in_range T (tmin T).
Proof. pose proof (tmin_tmax T). unfold in_range. lia. Qed.

Lemma Saturated_Add_spec s t2 : IsValid s = true -> in_range T (t_ s) -> in_range T t2 ->
  Add T s t2 = Ok (saturate s (t_ s + t2)).
Proof.
  intros Hv Ht H2. pose proof (tmin_tmax T) as HT. unfold Add, Max, Min. rewrite Hv, zero_clt, clt_zero by done. cbn [negb].
  pose proof max_range. pose proof min_range. unfold and_then.
  assert (in_range T (t_ s + t2) -> (r ← cadd T T (t_ s) t2; Ok (set_value s (conv T r))) = Ok (saturate s (t_ s + t2))) as Hfit.
  { intros Hr. rewrite cadd_ok, bind_Ok, conv_id, saturate_fits by rng. done. }
  destruct (Z.ltb_spec 0 t2) as [Hpos|Hpos].
  - assert (in_range T (tmax T - t2)) as Hd by (unfold in_range in *; lia).
    rewrite (csub_ok T (tmax T) t2), bind_Ok, clt_wide by rng. rewrite bind_Ok. destruct (Z.ltb_spec (tmax T - t2) (t_ s)).
    + by rewrite saturate_over by lia.
    + rewrite (proj2 (Z.ltb_ge t2 0)) by lia. rewrite bind_Ok. apply Hfit. unfold in_range in *. lia.
  - rewrite bind_Ok. destruct (Z.ltb_spec t2 0) as [Hneg|Hz].
    + assert (in_range T (tmin T - t2)) as Hd by (unfold in_range in *; lia).
      rewrite (csub_ok T (tmin T) t2), bind_Ok, wide_clt, bind_Ok by rng. destruct (Z.ltb_spec (t_ s) (tmin T - t2)).
      * by rewrite saturate_under by lia.
      * apply Hfit. unfold in_range in *. lia.
    + rewrite bind_Ok. apply Hfit. unfold in_range in *. lia.
Qed.

Lemma Saturated_Sub_spec s t2 : IsValid s = true -> in_range T (t_ s) -> in_range T t2 ->
  Sub T s t2 = Ok (saturate s (t_ s - t2)).
Proof.
  intros Hv Ht H2. pose proof (tmin_tmax T) as HT. unfold Sub, Max, Min. rewrite Hv, zero_clt, clt_zero by done. cbn [negb].
  pose proof max_range. pose proof min_range. unfold and_then.
  assert (in_range T (t_ s - t2) -> (r ← csub T T (t_ s) t2; Ok (set_value s (conv T r))) = Ok (saturate s (t_ s - t2))) as Hfit.
  { intros Hr. rewrite csub_ok, bind_Ok, conv_id, saturate_fits by rng. done. }
  destruct (Z.ltb_spec t2 0) as [Hneg|Hneg].
  - assert (in_range T (tmax T + t2)) as Hd by (unfold in_range in *; lia).
    rewrite (cadd_ok T (tmax T) t2), bind_Ok, clt_wide by rng. rewrite bind_Ok. destruct (Z.ltb_spec (tmax T + t2) (t_ s)).
    + by rewrite saturate_over by lia.
    + rewrite (proj2 (Z.ltb_ge 0 t2)) by lia. rewrite bind_Ok. apply Hfit. unfold in_range in *. lia.
  - rewrite bind_Ok. destruct (Z.ltb_spec 0 t2) as [Hpos|Hz].
    + assert (in_range T (tmin T + t2)) as Hd by (unfold in_range in *; lia).
      rewrite (cadd_ok T (tmin T) t2), bind_Ok, wide_clt, bind_Ok by rng. destruct (Z.ltb_spec (t_ s) (tmin T + t2)).
      * by rewrite saturate_under by lia.
      * apply Hfit. unfold in_range in *. lia.
    + rewrite bind_Ok. apply Hfit. unfold in_range in *. lia.
Qed.

(** ** Multiplication *)

Lemma quot_pos a b : 0 <= a -> 0 < b -> Z.quot a b = a / b /\ 0 <= a / b <= a.
Proof.
  intros Ha Hb. split; [apply Z.quot_div_nonneg; lia|]. split; [apply Z.div_pos; lia|]. apply Z.div_le_upper_bound; nia.
Qed.

Lemma Mul_positive_spec s t t2 : in_range T t -> in_range T t2 -> 0 < t -> 0 < t2 ->
  Mul_positive T s t t2 = Ok (saturate s (t * t2)).
Proof.
  intros Ht H2 Hp Hp2. unfold Mul_positive, Max. rewrite !zero_clt by done.
  rewrite !(proj2 (Z.ltb_lt 0 _)) by done. cbn [andb]. rewrite !assert_holds, !bind_Ok by (rewrite one_cle by done; apply Z.leb_le; lia).
  pose proof max_range as Hm. pose proof (tmin_tmax T). destruct (quot_pos (tmax T) t2 ltac:(lia) Hp2) as [Eq Hq].
  assert (in_range T (tmax T / t2)) as Hqr by (unfold in_range in *; lia).
  rewrite cdiv_ok, bind_Ok, Eq, clt_wide by (rewrite ?Eq; rng || lia).
  pose proof (Z.mul_div_le (tmax T) t2 Hp2). pose proof (Z.mul_succ_div_gt (tmax T) t2 Hp2).
  destruct (Z.ltb_spec (tmax T / t2) t) as [Hlt|Hge].
  - rewrite saturate_over; [done|]. nia.
  - assert (in_range T (t * t2)) as Hr by (unfold in_range in *; nia).
    rewrite cmul_ok, bind_Ok, conv_id, saturate_fits by rng. done.
Qed.

Lemma min_quot t2 : is_signed T = true -> 0 < t2 ->
  tmin T <= Z.quot (tmin T) t2 <= 0 /\ t2 * Z.quot (tmin T) t2 >= tmin T /\ t2 * (Z.quot (tmin T) t2 - 1) < tmin T /\
  tmin T <= Z.rem (tmin T) t2 <= 0.
Proof.
  intros Hs H2. pose proof (tmin_tmax T) as HT.
  replace (tmin T) with (- (- tmin T)) by lia. rewrite Z.quot_opp_l, Z.rem_opp_l by lia.
  pose proof (Z.rem_bound_pos (- tmin T) t2 ltac:(lia) H2). pose proof (Z.quot_rem' (- tmin T) t2).
  pose proof (Z.quot_pos (- tmin T) t2 ltac:(lia) H2). nia.
Qed.

Lemma Mul_negative_spec s t t2 : in_range T t -> in_range T t2 -> t < 0 -> 0 < t2 ->
  Mul_negative T s t t2 = Ok (saturate s (t * t2)).
Proof.
  intros Ht H2 Hn Hp. pose proof (signed_min _ _ Ht Hn) as Hs. unfold Mul_negative, Min.
  rewrite !assert_holds, !bind_Ok by (rewrite ?cle_minus_one, ?one_cle by done; apply Z.leb_le; lia).
  destruct (min_quot t2 Hs Hp) as (Hq & Hq1 & Hq2 & Hr). pose proof (tmin_tmax T) as HT. pose proof min_range.
  set (q := Z.quot (tmin T) t2) in *. set (r := Z.rem (tmin T) t2) in *.
  assert (in_range T q) as Hqr by (unfold in_range; lia). assert (in_range T r) as Hrr by (unfold in_range in *; lia).
  rewrite cdiv_ok, bind_Ok by (rng || lia).
  rewrite crem_ok, bind_Ok by (rng || lia). fold q r.
  rewrite !(conv_id T) by done. rewrite zero_clt, (proj2 (Z.ltb_ge 0 r)) by (done || lia). rewrite bind_Ok.
  rewrite clt_same by done. destruct (Z.ltb_spec t q) as [Hlt|Hge].
  - rewrite saturate_under; [done|]. nia.
  - assert (in_range T (t * t2)) as Hm by (unfold in_range in *; nia).
    rewrite cmul_ok, bind_Ok, conv_id, saturate_fits by rng. done.
Qed.

Lemma Mul_mixed_spec s t t2 : in_range T t -> in_range T t2 -> t <> 0 -> t2 <> 0 -> (t < 0 <-> 0 < t2) ->
  Mul_mixed T s t t2 = Ok (saturate s (t * t2)).
Proof.
  intros Ht H2 H0 H02 Hsign. unfold Mul_mixed. rewrite !zero_clt, !clt_zero by done.
  destruct (Z.ltb_spec 0 t) as [Hp|Hp]; destruct (Z.ltb_spec t2 0) as [Hn2|Hn2]; cbn [andb]; try lia.
  - pose proof (signed_min _ _ H2 Hn2).
    rewrite !assert_holds, !bind_Ok by (rewrite ?cle_minus_one, ?one_cle by done; apply Z.leb_le; lia).
    rewrite Mul_negative_spec by done. by rewrite Z.mul_comm.
  - rewrite !(proj2 (Z.ltb_lt _ _)) by lia. cbn [andb]. apply Mul_negative_spec; (done || lia).
Qed.

Lemma Mul_positive_mixed s t t2 : in_range T t -> in_range T t2 -> t <> 0 -> t2 <> 0 -> (0 < t \/ 0 < t2) ->
  Mul_positive T s t t2 = Ok (saturate s (t * t2)).
Proof.
  intros Ht H2 H0 H02 Hor. destruct (decide (0 < t /\ 0 < t2)) as [[Hp Hp2]|Hmix]; [by apply Mul_positive_spec|].
  unfold Mul_positive. rewrite !zero_clt by done.
  destruct (Z.ltb_spec 0 t), (Z.ltb_spec 0 t2); cbn [andb]; try lia; apply Mul_mixed_spec; (done || lia).
Qed.

Lemma Saturated_Mul_spec s t2 : IsValid s = true -> in_range T (t_ s) -> in_range T t2 ->
  Mul T s t2 = Ok (saturate s (t_ s * t2)).
Proof.
  intros Hv Ht H2. unfold Mul. rewrite Hv, !ceq_zero, !clt_zero by done. cbn [negb].
  pose proof (tmin_tmax T) as HT. pose proof max_range as Hm.
  destruct (decide (t_ s = 0 \/ t2 = 0)) as [Hz|Hnz].
  { assert (t_ s * t2 = 0) as E by (destruct Hz as [-> | ->]; lia).
    assert ((t_ s =? 0) || (t2 =? 0) = true) as ->.
    { apply orb_true_iff. rewrite !Z.eqb_eq. done. }
    rewrite cmul_ok, bind_Ok, E, conv_id, saturate_fits by (done || rewrite ?E; apply zero_range). done. }
  rewrite !(proj2 (Z.eqb_neq _ 0)) by tauto. cbn [orb].
  destruct (Z.ltb_spec (t_ s) 0) as [Hn|Hn]; destruct (Z.ltb_spec t2 0) as [Hn2|Hn2]; cbn [andb];
    try (apply Mul_positive_mixed; (done || lia || tauto)).
  pose proof (signed_min _ _ Ht Hn) as Hs.
  rewrite !assert_holds, !bind_Ok by (rewrite cle_minus_one by done; apply Z.leb_le; lia). unfold Max, or_else.
  assert (tmin T = - tmax T - 1) as Hsym by (revert Hs; ity_cases T; try discriminate; intros; cbn; lia).
  assert (forall x, in_range T x -> x < 0 -> in_range T (tmax T + x)) as Hadd by (intros x; unfold in_range in *; lia).
  rewrite !cadd_ok, !bind_Ok, !wide_zero by (first [done|by apply Hadd|by apply range_promote, Hadd]).
  destruct (Z.ltb_spec (tmax T + t_ s) 0) as [Ho|Ho].
  { rewrite bind_Ok, saturate_over; [done|]. unfold in_range in *. nia. }
  rewrite bind_Ok. destruct (Z.ltb_spec (tmax T + t2) 0) as [Ho2|Ho2].
  { rewrite saturate_over; [done|]. unfold in_range in *. nia. }
  assert (in_range T (- t_ s)) as R1 by (unfold in_range in *; lia). assert (in_range T (- t2)) as R2 by (unfold in_range in *; lia).
  rewrite !csub_zero, !bind_Ok, !conv_id by rng.
  rewrite Mul_positive_spec by (done || lia). do 2 f_equal. lia.
Qed.

(** ** Division *)

(** The result of [Div]. *)
Definition saturated_quot s t2 : Saturated :=
  if t2 =? 0 then
    (if t_ s <? 0 then underflow T s else if t_ s =? 0 then indeterminate s else overflow T s)
  else saturate s (Z.quot (t_ s) t2).

Lemma signed_sum : is_signed T = true -> tmax T + tmin T = -1.
Proof. ity_cases T; intros; try discriminate; cbn; lia. Qed.

Lemma unsigned_min : is_signed T = false -> tmin T = 0.
Proof. unfold tmin. by intros ->. Qed.

Lemma sum_check : is_signed T = true -> cadd T T (tmax T) (tmin T) = Ok (-1) /\ ceq (promote T) (-1) int_ (-1) = true.
Proof.
  intros Hs. assert (in_range T (-1)) as Hm by (pose proof (tmin_tmax T); pose proof (signed_sum Hs); unfold in_range; lia).
  pose proof max_range. pose proof min_range. split.
  - rewrite cadd_ok by (rewrite ?signed_sum by done; rng). by rewrite signed_sum.
  - by destruct (ceq_minus_one T (-1) Hs ltac:(rng)) as [_ ->].
Qed.

(** A quotient is out of range only for the least value and -1. *)
Lemma quot_range a b : in_range T a -> in_range T b -> b <> 0 ->
  in_range T (Z.quot a b) \/ (is_signed T = true /\ a = tmin T /\ b = -1 /\ tmax T < Z.quot a b).
Proof.
  intros Ha Hb H0. pose proof (tmin_tmax T) as HT. pose proof (Z.quot_rem' a b) as E.
  assert (Z.abs (Z.quot a b) <= Z.abs a) as Habs.
  { rewrite <- Z.quot_abs by done. destruct (quot_pos (Z.abs a) (Z.abs b) ltac:(lia) ltac:(lia)) as [-> Hq]. lia. }
  destruct (is_signed T) eqn:Hs.
  - pose proof (signed_sum Hs). destruct (decide (a = tmin T /\ b = -1)) as [[-> ->]|Hne].
    + right. split_and!; try done. change (-1) with (Z.opp 1). rewrite Z.quot_opp_r, Z.quot_1_r by done. lia.
    + left. unfold in_range in *. destruct (decide (a = tmin T)) as [->|]; [|lia].
      assert (Z.abs (Z.quot (tmin T) b) < Z.abs (tmin T) \/ b = 1) as [?| ->]; [|lia|rewrite Z.quot_1_r; lia].
      destruct (decide (b = 1)); [by right|left]. rewrite <- Z.quot_abs by done. apply Z.quot_lt; lia.
  - left. pose proof (unsigned_min Hs). unfold in_range in *. pose proof (Z.quot_pos a b). lia.
Qed.

(** The types are two's complement. *)
Lemma weird_check :
  and_then (clt T (tmin T) int_ 0) (m ← cadd T T (tmax T) (tmin T); Ok (negb (ceq (promote T) m int_ (-1)))) = Ok false.
Proof.
  pose proof min_range as Hmin. unfold and_then. rewrite clt_zero by done. destruct (Z.ltb_spec (tmin T) 0) as [Hn|]; [|done].
  destruct (sum_check (signed_min _ _ Hmin Hn)) as [-> E]. by rewrite bind_Ok, E.
Qed.

Lemma Saturated_Div_invalid s t2 : IsValid s = false -> Div T s t2 = Ok s.
Proof. intros Hv. unfold Div, Max, Min. by rewrite weird_check, bind_Ok, Hv. Qed.

Lemma Saturated_Div_spec s t2 : IsValid s = true -> in_range T (t_ s) -> in_range T t2 -> Div T s t2 = Ok (saturated_quot s t2).
Proof.
  intros Hv Ht H2. pose proof (tmin_tmax T) as HT. pose proof min_range as Hmin.
  unfold Div, Max, Min, saturated_quot. rewrite weird_check.
  rewrite bind_Ok, Hv, !ceq_zero, !clt_zero, !zero_clt by done. cbn [negb].
  destruct (Z.eqb_spec t2 0) as [->|H0].
  { destruct (Z.ltb_spec (t_ s) 0); [done|]. destruct (Z.eqb_spec (t_ s) 0); [done|].
    by rewrite (proj2 (Z.ltb_lt 0 (t_ s))) by lia. }
  assert (in_range T (Z.quot (t_ s) t2) -> (q ← cdiv T T (t_ s) t2; Ok (set_value s (conv T q))) = Ok (saturate s (Z.quot (t_ s) t2))) as Hfit.
  { intros Hr. rewrite cdiv_ok, bind_Ok, conv_id, saturate_fits by (done || rng). done. }
  destruct (quot_range (t_ s) t2 Ht H2 H0) as [Hr|(Hs & Ea & Eb & Hover)].
  - destruct (Z.ltb_spec 0 t2) as [Hp|Hn].
    + rewrite assert_holds, bind_Ok by (rewrite one_cle by done; apply Z.leb_le; lia). by apply Hfit.
    + rewrite (proj2 (Z.ltb_lt t2 0)) by lia. pose proof (signed_min _ _ H2 ltac:(lia)) as Hs.
      rewrite assert_holds, bind_Ok by (rewrite cle_minus_one by done; apply Z.leb_le; lia).
      destruct (sum_check Hs) as [Es Ec]. rewrite Es, bind_Ok, Ec, ceq_same by done.
      destruct (ceq_minus_one T t2 Hs ltac:(rng)) as [-> _].
      destruct (Z.eqb_spec (t_ s) (tmin T)) as [Em|]; [|by apply Hfit]. destruct (Z.eqb_spec t2 (-1)) as [E1|]; [|by apply Hfit].
      exfalso. rewrite Em, E1 in Hr. change (-1) with (Z.opp 1) in Hr. rewrite Z.quot_opp_r, Z.quot_1_r in Hr by done.
      pose proof (signed_sum Hs). unfold in_range in Hr. lia.
  - rewrite Eb in *. cbn [Z.ltb Z.compare]. rewrite assert_holds, bind_Ok by (by rewrite cle_minus_one by done).
    destruct (sum_check Hs) as [Es Ec]. rewrite Es, bind_Ok, Ec, ceq_same, Ea, Z.eqb_refl by done.
    destruct (ceq_minus_one T (-1) Hs ltac:(rng)) as [-> _]. cbn [andb Z.eqb]. rewrite saturate_over; [done|]. congruence.
Qed.

Lemma make_saturated_ok t : in_range T t -> exists s, make_saturated T t = Ok s /\ t_ s = t /\ IsValid s = true.
Proof.
  intros Ht. unfold make_saturated, Min, Max. pose proof min_range. pose proof max_range. unfold in_range in *.
  rewrite !assert_holds, !bind_Ok by (rewrite cle_same by done; apply Z.leb_le; lia). by eexists.
Qed.

Lemma rem_between a b : b <> 0 -> (0 <= a -> 0 <= Z.rem a b <= a) /\ (a <= 0 -> a <= Z.rem a b <= 0).
Proof.
  intros H0.
  assert (forall c, 0 <= c -> 0 <= Z.rem c b <= c) as Hp.
  { intros c Hc. rewrite <- (Z.rem_abs_r c b) by done. rewrite Z.rem_mod_nonneg by lia.
    pose proof (Z.mod_pos_bound c (Z.abs b) ltac:(lia)). pose proof (Z.mod_le c (Z.abs b) Hc ltac:(lia)). lia. }
  split; [apply Hp|]. intros Ha. pose proof (Hp (- a) ltac:(lia)) as Hr. rewrite Z.rem_opp_l in Hr by done. lia.
Qed.

Lemma rem_range a b : in_range T a -> b <> 0 -> in_range T (Z.rem a b) /\ in_range T (Z.quot a b * b).
Proof.
  intros Ha H0. pose proof (tmin_tmax T). pose proof (rem_between a b H0) as [Hp Hn]. pose proof (Z.quot_rem' a b).
  unfold in_range in *. destruct (Z.le_ge_cases 0 a); lia.
Qed.

Lemma Saturated_Rem_spec s t2 : IsValid s = true -> in_range T (t_ s) -> in_range T t2 ->
  Rem T s t2 = Ok (if bool_decide (t2 <> 0 /\ in_range T (Z.quot (t_ s) t2)) then set_value s (Z.rem (t_ s) t2) else indeterminate s).
Proof.
  intros Hv Ht H2. unfold Rem. rewrite Hv. cbn [negb]. destruct (make_saturated_ok (t_ s) Ht) as (s3 & -> & E3 & Hv3).
  rewrite bind_Ok, Saturated_Div_spec, bind_Ok by (rewrite ?E3; done). unfold saturated_quot. rewrite E3.
  destruct (Z.eqb_spec t2 0) as [->|H0].
  { rewrite bool_decide_eq_false_2 by tauto.
    assert (forall d, d = underflow T s3 \/ d = indeterminate s3 \/ d = overflow T s3 -> IsValid d = false) as Hinv.
    { intros d [->|[->| ->]]; unfold IsValid; cbn; by rewrite ?andb_false_r. }
    rewrite Hinv; [done|]. destruct (t_ s <? 0); [by left|]. destruct (t_ s =? 0); [by right; left|by right; right]. }
  destruct (quot_range (t_ s) t2 Ht H2 H0) as [Hr|(Hs & Ea & Eb & Hover)].
  - rewrite bool_decide_eq_true_2 by done. rewrite saturate_fits by done.
    assert (IsValid (set_value s3 (Z.quot (t_ s) t2)) = IsValid s3) as -> by done. rewrite Hv3. cbn [negb].
    destruct (rem_range (t_ s) t2 Ht H0) as [Hrr Hm].
    rewrite crem_ok, bind_Ok, (conv_id T) by (done || rng). pose proof (Z.quot_rem' (t_ s) t2) as Eq.
    assert ((if NDEBUG then Ok tt else p ← cmul T T (t_ (set_value s3 (Z.quot (t_ s) t2))) t2;
       p ← cadd (promote T) T p (Z.rem (t_ s) t2); assert_ (ceq (common (promote T) T) p T (t_ s))) = Ok tt) as ->; [|done].
    destruct NDEBUG eqn:En; [done|]. cbn [t_ set_value]. rewrite cmul_ok, bind_Ok by (done || rng).
    unfold cadd. destruct (common_promote T) as (-> & _ & _). rewrite !conv_id by rng.
    replace (Z.quot (t_ s) t2 * t2 + Z.rem (t_ s) t2) with (t_ s) by lia. rewrite result_in_ok, bind_Ok by rng.
    apply assert_holds. unfold ceq. destruct (common_promote T) as (-> & _ & _). apply Z.eqb_refl.
  - rewrite bool_decide_eq_false_2 by (intros [_ Hr]; unfold in_range in Hr; lia). rewrite saturate_over by done. 
    unfold IsValid. by rewrite ?andb_false_r.
Qed.
End saturated.
