(* ===== verification/IntSpec.v ===== *)
(** * What the integer operations promise

    The operations of [util/intops] against exact arithmetic: conversions and
    casts, the safe operations for all combinations of types, and sequences of
    operations on a [Saturated]. *)
From Stdlib Require Import ZArith Lia.
From stdpp Require Import base decidable tactics list.
From S2P Require Import Prelude.
From S2P Require Import IntTypes.
From S2P Require Import IntOps.
From S2P Require Import IntOpsProps.
Local Open Scope Z_scope.

(** ** Conversions *)

(** A conversion succeeds exactly on the values that the target type can
    represent, and then does not change the value; a saturated cast gives the
    nearest value of the target type, for all pairs of integer types up to 64
    bits and for [absl::uint128] on either side. *)
Theorem conversions_exact : forall T U x, in_range T x ->
  fst (LosslessConvert T U x) = in_rangeb U x /\ (in_range U x -> snd (LosslessConvert T U x) = x) /\
  saturated_cast U T x = clip U x /\
  saturated_cast_to_uint128 T x = Z.max 0 x /\
  (forall y, 0 <= y < 2 ^ 128 -> saturated_cast_from_uint128 U y = clip U y /\ saturated_cast_uint128 y = y).
Proof.
  intros T U x Hx. rewrite LosslessConvert_spec, saturated_cast_spec, saturated_cast_to_uint128_spec by done.
  split_and!; try done; [apply conv_id|]. intros y Hy. by rewrite saturated_cast_from_uint128_spec.
Qed.

Lemma conversions_exact_witness :
  fst (LosslessConvert int_ int8_t 200) = false /\ saturated_cast int8_t int_ 200 = 127.
Proof.
  destruct (conversions_exact int_ int8_t 200) as (H1 & _ & H2 & _); [by apply in_rangeb_spec|]. split; [exact H1|exact H2].
Defined.

(** ** Safe operations *)

(** What an operation with the exact result [r] should return, with [*result]. *)
Definition exactly (V : ity) (r r0 : Z) : bool * Z := if in_rangeb V r then (true, r) else (false, r0).

Lemma exactly_assign V y r0 : - (2 ^ 128 - 2 ^ 64) <= y < 2 ^ 128 - 2 ^ 64 -> Assign V (u128 y) r0 = exactly V y r0.
Proof. apply Assign_spec. Qed.

Lemma product_range x y : - 2 ^ 63 <= x < 2 ^ 64 -> - 2 ^ 63 <= y < 2 ^ 64 ->
  - (2 ^ 128 - 2 ^ 64) <= x * y < 2 ^ 128 - 2 ^ 64.
Proof. intros Hx Hy. nia. Qed.

Lemma quot_abs_le a b : b <> 0 -> Z.abs (Z.quot a b) <= Z.abs a.
Proof.
  intros H0. rewrite <- Z.quot_abs by done. destruct (quot_pos (Z.abs a) (Z.abs b) ltac:(lia) ltac:(lia)) as [-> Hq]. lia.
Qed.

Section safe.
Context (T U V : ity) (lhs rhs r0 : Z).
Context (Hl : in_range T lhs) (Hr : in_range U rhs).

Lemma SafeAdd_spec : SafeAdd T U V lhs rhs r0 = exactly V (lhs + rhs) r0.
Proof.
  pose proof (range_64 T lhs Hl). pose proof (range_64 U rhs Hr).
  unfold SafeAdd. rewrite !ConvertToUint128_spec, u128_add by done. apply exactly_assign. lia.
Qed.
Lemma SafeSubtract_spec : SafeSubtract T U V lhs rhs r0 = exactly V (lhs - rhs) r0.
Proof.
  pose proof (range_64 T lhs Hl). pose proof (range_64 U rhs Hr).
  unfold SafeSubtract. rewrite !ConvertToUint128_spec, u128_sub by done. apply exactly_assign. lia.
Qed.
Lemma SafeMultiply_spec : SafeMultiply T U V lhs rhs r0 = exactly V (lhs * rhs) r0.
Proof.
  unfold SafeMultiply. rewrite !ConvertToUint128_spec, u128_mul by done.
  apply exactly_assign, product_range; by eapply range_64.
Qed.
Lemma SafeDivide_spec :
  SafeDivide T U V lhs rhs r0 = Ok (if rhs =? 0 then (false, r0) else exactly V (Z.quot lhs rhs) r0).
Proof.
  pose proof (range_64 T lhs Hl). unfold SafeDivide. rewrite ceq_zero by done.
  destruct (Z.eqb_spec rhs 0) as [|H0]; [done|]. pose proof (quot_abs_le lhs rhs H0).
  rewrite DivideModuloHelper_spec, bind_Ok, exactly_assign by (done || lia). done.
Qed.
Lemma SafeModulo_spec :
  SafeModulo T U V lhs rhs r0 = Ok (if rhs =? 0 then (false, r0) else exactly V (Z.rem lhs rhs) r0).
Proof.
  pose proof (range_64 T lhs Hl). unfold SafeModulo. rewrite ceq_zero by done.
  destruct (Z.eqb_spec rhs 0) as [|H0]; [done|]. pose proof (rem_between lhs rhs H0) as [? ?].
  rewrite DivideModuloHelper_spec, bind_Ok, exactly_assign by (done || lia). done.
Qed.
End safe.

(** C20. The safe operations are exact.  For all integer types of the operands and
    of the result, and all values of the operands: the sum, difference, product,
    truncated quotient and remainder are computed without undefined behaviour and
    stored, with [true] returned, exactly when the mathematical result fits the
    result's type; otherwise, and for a zero divisor, [false] is returned and the
    result is left as it was.  The shifts, by any amount, succeed exactly when the
    amount is not negative and the floor of the operand times or divided by the
    power of two fits, and then give it. *)
Theorem SafeIntOps_exact : forall T U V lhs rhs n r0, in_range T lhs -> in_range U rhs -> in_range int64_t n ->
  SafeAdd T U V lhs rhs r0 = exactly V (lhs + rhs) r0 /\
  SafeSubtract T U V lhs rhs r0 = exactly V (lhs - rhs) r0 /\
  SafeMultiply T U V lhs rhs r0 = exactly V (lhs * rhs) r0 /\
  SafeDivide T U V lhs rhs r0 = Ok (if rhs =? 0 then (false, r0) else exactly V (Z.quot lhs rhs) r0) /\
  SafeModulo T U V lhs rhs r0 = Ok (if rhs =? 0 then (false, r0) else exactly V (Z.rem lhs rhs) r0) /\
  (let left := SafeLeftShift T V lhs n r0 in
   fst left = (0 <=? n) && in_rangeb V (lhs * 2 ^ n) /\ (fst left = true -> snd left = lhs * 2 ^ n)) /\
  (let right := SafeRightShift T V lhs n r0 in
   fst right = (0 <=? n) && in_rangeb V (lhs / 2 ^ n) /\ (fst right = true -> snd right = lhs / 2 ^ n)).
Proof.
  intros T U V lhs rhs n r0 Hl Hr Hn.
  split_and!; [by apply SafeAdd_spec|by apply SafeSubtract_spec|by apply SafeMultiply_spec|by apply SafeDivide_spec|
    by apply SafeModulo_spec|by apply SafeLeftShift_spec|].
  cbv zeta. rewrite SafeRightShift_spec by done. destruct (Z.leb_spec 0 n) as [H0|]; [|done].
  rewrite Z.shiftr_div_pow2 by done. cbn. split; [done|]. intros Hin. apply conv_id. by apply in_rangeb_spec.
Qed.

Lemma SafeIntOps_exact_witness :
  SafeAdd int8_t uint64_t uint64_t (-1) (2 ^ 64 - 1) 7 = (true, 2 ^ 64 - 2) /\
  SafeMultiply int64_t int64_t int64_t (- 2 ^ 63) (-1) 7 = (false, 7) /\
  SafeDivide int64_t int64_t uint64_t (- 2 ^ 63) (-1) 7 = Ok (true, 2 ^ 63).
Proof.
  split_and!.
  - etransitivity; [eapply (SafeIntOps_exact int8_t uint64_t uint64_t (-1) (2 ^ 64 - 1) 0 7); by apply in_rangeb_spec|].
    vm_compute. reflexivity.
  - etransitivity; [eapply (SafeIntOps_exact int64_t int64_t int64_t (- 2 ^ 63) (-1) 0 7); by apply in_rangeb_spec|].
    vm_compute. reflexivity.
  - etransitivity; [eapply (SafeIntOps_exact int64_t int64_t uint64_t (- 2 ^ 63) (-1) 0 7); by apply in_rangeb_spec|].
    vm_compute. reflexivity.
Defined.

(** A shift that fails may have overwritten its result: for every value that
    does not fit, a right shift stores the converted value, and so does a left
    shift by 0; the arithmetic operations leave the result alone. *)
Theorem failed_shift_overwrites_result : forall T V x r0, in_range T x -> ~ in_range V x ->
  SafeLeftShift T V x 0 r0 = (false, conv V x) /\ SafeRightShift T V x 0 r0 = (false, conv V x) /\
  fst (SafeAdd T int_ V x 0 r0) = false /\ snd (SafeAdd T int_ V x 0 r0) = r0.
Proof.
  intros T V x r0 Hx Hn. apply in_rangeb_false in Hn as Hb.
  assert (in_range int64_t 0) as H0 by apply zero_range.
  split; [|split].
  - unfold SafeLeftShift. rewrite (clt_zero int64_t 0), (clt_zero T x) by done.
    assert (forall W, in_range W x -> bits W = 64 -> LeftShiftHelper W V x 0 r0 = (false, conv V x)) as Hh.
    { intros W Hw _. unfold LeftShiftHelper. rewrite Z.shiftl_0_r, Z.shiftr_0_r, conv_id, Z.eqb_refl by done.
      cbn [negb]. by rewrite LosslessConvert_spec, Hb. }
    pose proof (range_64 T x Hx) as H64.
    change (cle int_ 64 int64_t 0) with false. change (0 <? 0) with false. cbv iota.
    destruct (Z.ltb_spec x 0) as [Hlt|Hge]; cbn [negb].
    + assert (in_range int64_t x) as Hi by (apply in_range_i64; lia). rewrite conv_id by done. by apply Hh.
    + assert (in_range uint64_t x) as Hi by (apply in_range_u64; lia). rewrite conv_id by done. by apply Hh.
  - rewrite SafeRightShift_spec by done. cbn [Z.leb Z.compare]. by rewrite Z.shiftr_0_r, Hb.
  - rewrite SafeAdd_spec by (done || apply zero_range). unfold exactly. by rewrite Z.add_0_r, Hb.
Qed.

Lemma failed_shift_overwrites_result_witness : SafeLeftShift int_ int8_t 256 0 7 = (false, 0).
Proof.
  etransitivity.
  - apply (failed_shift_overwrites_result int_ int8_t 256 7); [by apply in_rangeb_spec|by apply in_rangeb_false].
  - vm_compute. reflexivity.
Defined.

(** ** Sequences of saturated operations *)

Inductive sat_op := OpAdd (t : Z) | OpSub (t : Z) | OpMul (t : Z) | OpDiv (t : Z) | OpRem (t : Z) | OpReset.

Definition operand (o : sat_op) : Z :=
  match o with OpAdd t | OpSub t | OpMul t | OpDiv t | OpRem t => t | OpReset => 0 end.

Section run.
Context (T : ity) `{BuildMode}.

Definition sat_step (s : Saturated) (o : sat_op) : outcome Saturated :=
  match o with
  | OpAdd t => Add T s t | OpSub t => Sub T s t | OpMul t => Mul T s t | OpDiv t => Div T s t | OpRem t => Rem T s t
  | OpReset => Ok (ResetStatus s)
  end.

Fixpoint sat_run (s : Saturated) (os : list sat_op) : outcome Saturated :=
  match os with [] => Ok s | o :: os => s ← sat_step s o; sat_run s os end.

(** The same with exact results: an operation on a valid number gives the exact
    result, clipped with the status bit that says so; a status bit disables all
    operations until it is reset. *)
Definition exact_step (s : Saturated) (o : sat_op) : Saturated :=
  match o with
  | OpReset => ResetStatus s
  | _ =>
    if negb (IsValid s) then s
    else match o with
         | OpAdd t => saturate T s (t_ s + t)
         | OpSub t => saturate T s (t_ s - t)
         | OpMul t => saturate T s (t_ s * t)
         | OpDiv t => saturated_quot T s t
         | OpRem t => if bool_decide (t <> 0 /\ in_range T (Z.quot (t_ s) t)) then set_value s (Z.rem (t_ s) t) else indeterminate s
         | OpReset => s
         end
  end.

Lemma saturate_range s r : in_range T (t_ (saturate T s r)).
Proof.
  pose proof (tmin_tmax T). unfold saturate.
  destruct (Z.ltb_spec (tmax T) r); [apply max_range|]. destruct (Z.ltb_spec r (tmin T)); [apply min_range|]. unfold in_range. cbn. lia.
Qed.

Lemma exact_step_range s o : in_range T (t_ s) -> in_range T (t_ (exact_step s o)).
Proof.
  intros Hs. destruct o; cbn [exact_step]; [..|done]; destruct (negb (IsValid s)); try done; try apply saturate_range.
  - unfold saturated_quot. destruct (t =? 0); [|apply saturate_range].
    destruct (t_ s <? 0); [apply min_range|]. destruct (t_ s =? 0); [apply zero_range|apply max_range].
  - case_bool_decide as E; [|apply zero_range]. apply rem_range; tauto.
Qed.

Lemma sat_step_exact s o : in_range T (t_ s) -> in_range T (operand o) -> sat_step s o = Ok (exact_step s o).
Proof.
  intros Hs Ho. destruct (IsValid s) eqn:Hv.
  - destruct o; cbn [sat_step exact_step operand] in *; rewrite ?Hv; cbn [negb]; [..|done].
    + by apply Saturated_Add_spec. + by apply Saturated_Sub_spec. + by apply Saturated_Mul_spec.
    + by apply Saturated_Div_spec. + by apply Saturated_Rem_spec.
  - destruct o; cbn [sat_step exact_step]; unfold Add, Sub, Mul, Rem; rewrite ?Hv; try done.
    by apply Saturated_Div_invalid.
Qed.

(** C22. A sequence of operations on a [Saturated] is exact.  Started from any
    value of the type, any sequence of additions, subtractions, multiplications,
    divisions, remainders and resets runs without undefined behaviour, without a
    failed assertion and without an abort; each step gives the exact result when
    it fits, the nearest bound with the overflow or underflow bit otherwise, the
    documented results for division by zero and remainders of unrepresentable
    quotients, and leaves a number with a status bit alone; the value always
    stays in range. *)
Theorem Saturated_exact : forall t os, in_range T t -> Forall (fun o => in_range T (operand o)) os ->
  exists s, make_saturated T t = Ok s /\ t_ s = t /\ IsValid s = true /\
    sat_run s os = Ok (foldl exact_step s os) /\ in_range T (t_ (foldl exact_step s os)).
Proof.
  intros t os Ht Hos. destruct (make_saturated_ok T t Ht) as (s & E & Et & Hv).
  exists s. split_and!; try done; rewrite <- Et in Ht; clear E Et Hv; revert s Ht;
    induction Hos as [|o os Ho _ IH]; intros s Ht; try done.
  - cbn. rewrite sat_step_exact, bind_Ok by done. apply IH. by apply exact_step_range.
  - apply IH. by apply exact_step_range.
Qed.
End run.

Lemma Saturated_exact_witness :
  exists s, make_saturated (H := opt_build) int8_t (-128) = Ok s /\
    sat_run (H := opt_build) int8_t s [OpDiv (-1); OpAdd (-5); OpReset; OpSub 27; OpRem 0] =
    Ok {| t_ := 0; did_overflow_ := false; did_underflow_ := false; did_become_indeterminate_ := true |}.
Proof.
  destruct (Saturated_exact (H := opt_build) int8_t (-128) [OpDiv (-1); OpAdd (-5); OpReset; OpSub 27; OpRem 0])
    as (s & E & _ & _ & Er & _).
  - by apply in_rangeb_spec.
  - repeat constructor; by apply in_rangeb_spec.
  - exists s. split; [exact E|]. rewrite Er. f_equal. injection E as <-. vm_compute. reflexivity.
Defined.
