(* ===== verification/Bits.v ===== *)
(** * Bit manipulation: gloop/util/bits/bits.h

    Logarithms, bit scans and bit-field access of class [Bits] on unsigned
    integers of [w] bits.  [ABSL_ASSUME] and an out-of-range shift are undefined
    behaviour; [DCHECK]s die in debug builds.  The generic templates are
    modelled, not the variants on x86 BMI intrinsics. *)
From Stdlib Require Import ZArith Lia.
From stdpp Require Import base list numbers option.
From S2P Require Import Prelude.
From S2P Require Import Endian.
Local Open Scope Z_scope.

(** [absl::bit_width], [absl::countr_zero], [absl::popcount]. *)
Definition bit_width_of (n : Z) : Z := if n =? 0 then 0 else Z.log2 n + 1.

Fixpoint ctz (fuel : nat) (n : Z) : Z :=
  match fuel with
  | O => 0
  | S fuel' => if Z.odd n then 0 else 1 + ctz fuel' (n / 2)
  end.
Definition countr_zero (w : Z) (n : Z) : Z := if n =? 0 then w else ctz (Z.to_nat w) n.

Definition ABSL_ASSUME (b : bool) : outcome unit := if b then Ok tt else UB.

(** ** Logarithms and scans *)

Definition Log2Floor (n : Z) : Z := bit_width_of n - 1.
Definition Log2FloorNonZero (n : Z) : outcome Z :=
  _ ← ABSL_ASSUME (negb (n =? 0)); Ok (bit_width_of n - 1).
Definition Log2FloorNonZero64 (n : Z) : outcome Z :=
  _ ← ABSL_ASSUME (negb (n =? 0)); Ok (bit_width_of n - 1).

Definition Log2Floor128 (n : Z) : outcome Z :=
  let hi := Uint128High64 n in
  if negb (hi =? 0) then r ← Log2FloorNonZero64 hi; Ok (64 + r)
  else Ok (bit_width_of (Uint128Low64 n) - 1).

Definition Log2FloorNonZero128 (n : Z) : outcome Z :=
  let hi := Uint128High64 n in
  if negb (hi =? 0) then r ← Log2FloorNonZero64 hi; Ok (64 + r)
  else Log2FloorNonZero64 (Uint128Low64 n).

(** [n & (n - 1)] in [w] bits. *)
Definition clear_lowest (w n : Z) : Z := Z.land n ((n - 1) mod 2 ^ w).

Definition Log2Ceiling (w n : Z) : Z :=
  let floor := bit_width_of n - 1 in
  if clear_lowest w n =? 0 then floor else floor + 1.

Definition Log2Ceiling128 (n : Z) : outcome Z :=
  floor ← Log2Floor128 n;
  Ok (if clear_lowest 128 n =? 0 then floor else floor + 1).

(** The signed overload of [IsPowerOfTwo]. *)
Definition IsPowerOfTwo (w n : Z) : bool := (n >? 0) && (clear_lowest w n =? 0).

Definition FindLSBSetNonZero (n : Z) : outcome Z :=
  _ ← ABSL_ASSUME (negb (n =? 0)); Ok (countr_zero 32 n).
Definition FindLSBSetNonZero64 (n : Z) : outcome Z :=
  _ ← ABSL_ASSUME (negb (n =? 0)); Ok (countr_zero 64 n).
Definition FindLSBSetNonZero128 (n : Z) : outcome Z :=
  let lo := Uint128Low64 n in
  if negb (lo =? 0) then FindLSBSetNonZero64 lo
  else r ← FindLSBSetNonZero64 (Uint128High64 n); Ok (64 + r).

Definition FindMSBSetNonZero (n : Z) : outcome Z := Log2FloorNonZero n.
Definition FindMSBSetNonZero64 (n : Z) : outcome Z := Log2FloorNonZero64 n.
Definition FindMSBSetNonZero128 (n : Z) : outcome Z := Log2FloorNonZero128 n.

(** ** Bit fields *)

(** A shift of a [w]-bit integer. *)
Definition shift_ok (w k : Z) : bool := (0 <=? k) && (k <? w).
Definition shr (w x k : Z) : outcome Z := if shift_ok w k then Ok (Z.shiftr x k) else UB.
Definition shl (w x k : Z) : outcome Z := if shift_ok w k then Ok (Z.shiftl x k mod 2 ^ w) else UB.

Definition NBitsFromLSB (w nbits : Z) : outcome Z :=
  let all_ones := 2 ^ w - 1 in
  if nbits =? 0 then Ok 0 else shr w all_ones (w - nbits).

Definition GetBitsImpl (w src offset nbits : Z) : outcome Z :=
  x ← shr w src offset; mask ← NBitsFromLSB w nbits; Ok (Z.land x mask).

Section fields.
Context `{BuildMode}.

Definition GetBits (w src offset nbits : Z) : outcome Z :=
  _ ← DCHECK (w >? offset mod 2 ^ w);
  _ ← DCHECK (w >=? (offset + nbits) mod 2 ^ w);
  GetBitsImpl w src offset nbits.

Definition SetBits (w value offset nbits dest : Z) : outcome Z :=
  _ ← DCHECK (w >? offset mod 2 ^ w);
  _ ← DCHECK (w >=? (offset + nbits) mod 2 ^ w);
  mask ← NBitsFromLSB w nbits;
  hole ← shl w mask offset;
  field ← shl w (Z.land value mask) offset;
  Ok (Z.lor (Z.land dest (2 ^ w - 1 - hole)) field).

Definition CopyBits (wd dest dest_offset ws src src_offset nbits : Z) : outcome Z :=
  value ← GetBits ws src src_offset nbits;
  SetBits wd (value mod 2 ^ wd) dest_offset nbits dest.

Definition GetLowBits (w src nbits : Z) : outcome Z :=
  _ ← DCHECK (w >=? nbits mod 2 ^ w);
  GetBitsImpl w src 0 nbits.
End fields.

(** ** Lemmas *)

Lemma ctz_spec fuel n : 0 < n < 2 ^ Z.of_nat fuel ->
  exists q, n = 2 ^ ctz fuel n * (2 * q + 1) /\ 0 <= ctz fuel n < Z.of_nat fuel /\ 0 <= q.
Proof.
  revert n. induction fuel as [|fuel IH]; intros n Hn; [cbn in Hn; lia|]. cbn [ctz].
  pose proof (Zodd_mod n) as Ho. destruct (Z.odd n) eqn:E.
  - exists (n / 2). rewrite Z.pow_0_r. rewrite Zmod_odd, E in Ho. pose proof (Zmod_odd n) as M.
    rewrite E in M. zlia.
  - pose proof (Zmod_odd n) as M. rewrite E in M.
    destruct (IH (n / 2)) as (q & Hq & Hk & Hq0).
    { replace (Z.of_nat (S fuel)) with (1 + Z.of_nat fuel) in Hn by lia.
      rewrite Z.pow_add_r in Hn by lia. change (2 ^ 1) with 2 in Hn. zlia. }
    exists q. rewrite Z.pow_add_r by lia. change (2 ^ 1) with 2. split; [|lia].
    rewrite <- Z.mul_assoc, <- Hq. zlia.
Qed.

(** The lowest set bit. *)
Definition is_lsb (n k : Z) : Prop := exists q, n = 2 ^ k * (2 * q + 1) /\ 0 <= k.

Lemma is_lsb_testbit n k : is_lsb n k ->
  Z.testbit n k = true /\ forall i, 0 <= i < k -> Z.testbit n i = false.
Proof.
  intros (q & -> & Hk). rewrite (Z.mul_comm (2 ^ k)). split.
  - rewrite testbit_mul_pow2 by lia. rewrite (proj2 (Z.leb_le k k)), Z.sub_diag by lia.
    cbn [andb]. by rewrite Z.testbit_odd_0.
  - intros i Hi. rewrite testbit_mul_pow2 by lia. by rewrite (proj2 (Z.leb_gt k i)) by lia.
Qed.

Lemma FindLSBSetNonZero_lsb n : 0 < n < 2 ^ 32 ->
  exists k, FindLSBSetNonZero n = Ok k /\ is_lsb n k /\ k < 32.
Proof.
  intros Hn. unfold FindLSBSetNonZero, countr_zero. rewrite (proj2 (Z.eqb_neq n 0)) by lia.
  cbn [negb ABSL_ASSUME]. rewrite bind_Ok. destruct (ctz_spec (Z.to_nat 32) n) as (q & Hq & Hk & _);
    [done|]. eexists. split; [done|]. split; [exists q; split; [exact Hq|lia]|lia].
Qed.

Lemma FindLSBSetNonZero64_lsb n : 0 < n < 2 ^ 64 ->
  exists k, FindLSBSetNonZero64 n = Ok k /\ is_lsb n k /\ k < 64.
Proof.
  intros Hn. unfold FindLSBSetNonZero64, countr_zero. rewrite (proj2 (Z.eqb_neq n 0)) by lia.
  cbn [negb ABSL_ASSUME]. rewrite bind_Ok. destruct (ctz_spec (Z.to_nat 64) n) as (q & Hq & Hk & _);
    [done|]. eexists. split; [done|]. split; [exists q; split; [exact Hq|lia]|lia].
Qed.

Lemma FindLSBSetNonZero128_lsb n : 0 < n < 2 ^ 128 ->
  exists k, FindLSBSetNonZero128 n = Ok k /\ is_lsb n k /\ k < 128.
Proof.
  intros Hn. unfold FindLSBSetNonZero128, Uint128Low64, Uint128High64.
  pose proof (Z.div_mod n (2 ^ 64) ltac:(lia)) as E. pose proof (Z.mod_pos_bound n (2 ^ 64) ltac:(lia)).
  destruct (Z.eqb_spec (n mod 2 ^ 64) 0) as [Z0|Z0]; cbn [negb].
  - destruct (FindLSBSetNonZero64_lsb (n / 2 ^ 64)) as (k & -> & (q & Hq & Hk0) & Hk).
    { split; [lia|]. apply Z.div_lt_upper_bound; lia. }
    rewrite bind_Ok. eexists. split; [done|]. split; [|lia]. exists q. split; [|lia].
    rewrite Z.pow_add_r by lia. lia.
  - destruct (FindLSBSetNonZero64_lsb (n mod 2 ^ 64)) as (k & -> & (q & Hq & Hk0) & Hk); [lia|].
    eexists. split; [done|]. split; [|lia].
    exists (n / 2 ^ 64 * 2 ^ (63 - k) + q). split; [|lia].
    assert (2 ^ 64 = 2 ^ k * (2 * 2 ^ (63 - k))) as E2.
    { rewrite <- Z.pow_succ_r, <- Z.pow_add_r by lia. f_equal. lia. }
    rewrite E at 1. rewrite Hq, E2 at 1. lia.
Qed.

Lemma testbit_log2_range x k : 0 <= k -> 2 ^ k <= x < 2 ^ (k + 1) -> Z.testbit x k = true.
Proof.
  intros Hk Hx. rewrite <- (Z.log2_unique x k) by (rewrite ?Z.add_1_r in *; lia).
  apply Z.bit_log2. pose proof (pow2_pos k). lia.
Qed.

(** Clearing the lowest set bit leaves nothing exactly on powers of two. *)
Lemma clear_lowest_spec w n : 0 < n < 2 ^ w ->
  (clear_lowest w n =? 0) = (n =? 2 ^ Z.log2 n).
Proof.
  intros Hn. unfold clear_lowest. rewrite (Z.mod_small (n - 1)) by lia.
  pose proof (Z.log2_spec n ltac:(lia)) as L. rewrite <- Z.add_1_r in L.
  pose proof (Z.log2_nonneg n). set (k := Z.log2 n) in *. clearbody k.
  destruct (Z.eqb_spec n (2 ^ k)) as [->|Hne].
  - apply Z.eqb_eq. rewrite Z.sub_1_r, <- Z.ones_equiv, Z.land_ones by lia.
    apply Z.mod_same. pose proof (pow2_pos k). lia.
  - apply Z.eqb_neq. intros E0.
    assert (Z.testbit (Z.land n (n - 1)) k = true) as T.
    { rewrite Z.land_spec, !testbit_log2_range by lia. done. }
    rewrite E0, Z.bits_0 in T. done.
Qed.

Lemma bit_width_log2 n : 0 < n -> bit_width_of n - 1 = Z.log2 n.
Proof. intros. unfold bit_width_of. rewrite (proj2 (Z.eqb_neq n 0)) by lia. lia. Qed.

Lemma Log2FloorNonZero64_eq n : 0 < n -> Log2FloorNonZero64 n = Ok (Z.log2 n).
Proof.
  intros. unfold Log2FloorNonZero64. rewrite bit_width_log2, (proj2 (Z.eqb_neq n 0)) by lia. done.
Qed.

Lemma log2_high n : 0 <= n -> n / 2 ^ 64 <> 0 -> 64 + Z.log2 (n / 2 ^ 64) = Z.log2 n.
Proof.
  intros Hn Hh. assert (0 < n) by (destruct (Z.eqb_spec n 0) as [->|]; [done|lia]).
  assert (64 <= Z.log2 n).
  { apply Z.log2_le_pow2; [lia|].
    pose proof (Z.div_mod n (2 ^ 64)). pose proof (Z.mod_pos_bound n (2 ^ 64)).
    pose proof (Z.div_pos n (2 ^ 64)). lia. }
  rewrite <- Z.shiftr_div_pow2, Z.log2_shiftr by lia. lia.
Qed.

Lemma Log2Floor128_eq n : 0 < n < 2 ^ 128 -> Log2Floor128 n = Ok (Z.log2 n).
Proof.
  intros Hn. unfold Log2Floor128, Uint128High64, Uint128Low64.
  pose proof (Z.div_pos n (2 ^ 64)).
  destruct (Z.eqb_spec (n / 2 ^ 64) 0) as [E|E]; cbn [negb].
  - apply Z.div_small_iff in E; [|lia]. rewrite Z.mod_small by lia. by rewrite bit_width_log2 by lia.
  - rewrite Log2FloorNonZero64_eq, bind_Ok by lia. by rewrite log2_high by lia.
Qed.

Lemma Log2FloorNonZero128_eq n : 0 < n < 2 ^ 128 -> Log2FloorNonZero128 n = Ok (Z.log2 n).
Proof.
  intros Hn. unfold Log2FloorNonZero128, Uint128High64, Uint128Low64.
  pose proof (Z.div_pos n (2 ^ 64)).
  destruct (Z.eqb_spec (n / 2 ^ 64) 0) as [E|E]; cbn [negb].
  - apply Z.div_small_iff in E; [|lia]. rewrite Z.mod_small by lia. apply Log2FloorNonZero64_eq. lia.
  - rewrite Log2FloorNonZero64_eq, bind_Ok by lia. by rewrite log2_high by lia.
Qed.

Definition is_ceil_log2 (n r : Z) : Prop := n <= 2 ^ r /\ (r = 0 \/ 2 ^ (r - 1) < n) /\ 0 <= r.

Lemma ceil_log2_spec w n : 0 < n < 2 ^ w ->
  is_ceil_log2 n (if clear_lowest w n =? 0 then Z.log2 n else Z.log2 n + 1).
Proof.
  intros Hn. rewrite clear_lowest_spec by done.
  pose proof (Z.log2_spec n ltac:(lia)) as L. rewrite <- Z.add_1_r in L.
  pose proof (Z.log2_nonneg n). unfold is_ceil_log2.
  destruct (Z.eqb_spec n (2 ^ Z.log2 n)) as [E|E].
  - split; [lia|]. split; [|lia]. destruct (Z.eqb_spec (Z.log2 n) 0); [auto|right].
    assert (2 ^ Z.log2 n = 2 * 2 ^ (Z.log2 n - 1)) by (rewrite <- Z.pow_succ_r by lia; f_equal; lia).
    pose proof (pow2_pos (Z.log2 n - 1)). lia.
  - rewrite Z.add_simpl_r. lia.
Qed.

(** Logarithms and scans on 32 to 128 bits: [Log2Floor] and its
    variants return the floor of the binary logarithm, [Log2Ceiling] the
    ceiling, [FindLSBSetNonZero] and its variants the position of the lowest
    set bit (every bit below it is zero), and none of them faults on a nonzero
    argument.  [IsPowerOfTwo] holds exactly on the powers of two. *)
Theorem Bits_scans n : 0 < n < 2 ^ 128 ->
  Log2Floor n = Z.log2 n /\ Log2Floor128 n = Ok (Z.log2 n) /\
  Log2FloorNonZero n = Ok (Z.log2 n) /\ FindMSBSetNonZero128 n = Ok (Z.log2 n) /\
  (exists r, Log2Ceiling128 n = Ok r /\ is_ceil_log2 n r) /\
  is_ceil_log2 n (Log2Ceiling 128 n) /\
  IsPowerOfTwo 128 n = bool_decide (n = 2 ^ Z.log2 n) /\
  (exists k, FindLSBSetNonZero128 n = Ok k /\ Z.testbit n k = true /\
     forall i, 0 <= i < k -> Z.testbit n i = false) /\
  (n < 2 ^ 32 -> exists k, FindLSBSetNonZero n = Ok k /\ Z.testbit n k = true /\
     forall i, 0 <= i < k -> Z.testbit n i = false).
Proof.
  intros Hn. rewrite Log2Floor128_eq by done. unfold FindMSBSetNonZero128.
  rewrite Log2FloorNonZero128_eq by done. split; [apply bit_width_log2; lia|]. split; [done|].
  split; [apply Log2FloorNonZero64_eq; lia|]. split; [done|].
  split; [|split; [|split; [|split]]].
  - unfold Log2Ceiling128. rewrite Log2Floor128_eq, bind_Ok by done. eexists. split; [done|].
    by apply ceil_log2_spec.
  - unfold Log2Ceiling. rewrite bit_width_log2 by lia. by apply ceil_log2_spec.
  - unfold IsPowerOfTwo. rewrite clear_lowest_spec by done.
    rewrite Z.gtb_ltb, (proj2 (Z.ltb_lt 0 n)) by lia. cbn [andb].
    apply eq_true_iff_eq. by rewrite Z.eqb_eq, bool_decide_eq_true.
  - destruct (FindLSBSetNonZero128_lsb n Hn) as (k & E & L & _). exists k. split; [done|].
    by apply is_lsb_testbit.
  - intros Hn'. destruct (FindLSBSetNonZero_lsb n ltac:(lia)) as (k & E & L & _). exists k.
    split; [done|]. by apply is_lsb_testbit.
Qed.

Lemma Bits_scans_witness : Log2Floor128 (2 ^ 100 + 8) = Ok 100.
Proof. exact (proj1 (proj2 (Bits_scans (2 ^ 100 + 8) ltac:(split; by vm_compute)))). Defined.

(** ** Bit fields *)

Lemma NBitsFromLSB_eq w nbits : 0 <= nbits <= w -> NBitsFromLSB w nbits = Ok (Z.ones nbits).
Proof.
  intros Hn. unfold NBitsFromLSB, shr, shift_ok.
  destruct (Z.eqb_spec nbits 0) as [->|]; [done|]. repeat decide_test. cbn [andb].
  f_equal. rewrite Z.shiftr_div_pow2 by lia. change (2 ^ w - 1) with (Z.pred (2 ^ w)).
  rewrite <- Z.ones_equiv, Z.ones_div_pow2 by lia. f_equal. lia.
Qed.

Lemma ones_testbit n i : 0 <= n -> Z.testbit (Z.ones n) i = (0 <=? i) && (i <? n).
Proof.
  intros Hn. destruct (Z.leb_spec 0 i); cbn [andb]; [|by apply Z.testbit_neg_r].
  destruct (Z.ltb_spec i n); [apply Z.ones_spec_low|apply Z.ones_spec_high]; lia.
Qed.

(** Bit [i] of the complement in [w] bits. *)
Lemma complement_testbit w x i : 0 <= x < 2 ^ w -> 0 <= i < w ->
  Z.testbit (2 ^ w - 1 - x) i = negb (Z.testbit x i).
Proof.
  intros Hx Hi. replace (2 ^ w - 1 - x) with (Z.lnot x + 1 * 2 ^ w) by (unfold Z.lnot; lia).
  rewrite <- (Z.mod_pow2_bits_low _ w) by lia. rewrite Z.mod_add, Z.mod_pow2_bits_low by lia.
  apply Z.lnot_spec. lia.
Qed.

Lemma lt_pow2 w : 0 <= w -> w < 2 ^ w.
Proof. intros. apply Z.pow_gt_lin_r; lia. Qed.

Lemma shl_eq w x k : 0 <= k < w -> shl w x k = Ok (Z.shiftl x k mod 2 ^ w).
Proof. intros. unfold shl, shift_ok. by repeat decide_test. Qed.
Lemma shr_eq w x k : 0 <= k < w -> shr w x k = Ok (Z.shiftr x k).
Proof. intros. unfold shr, shift_ok. by repeat decide_test. Qed.

Section field_lemmas.
Context `{BuildMode}.
Context (w offset nbits : Z) (Hw : 0 < w) (Ho : 0 <= offset < w) (Hn : 0 <= nbits)
  (Hon : offset + nbits <= w).

Lemma field_checks :
  DCHECK (w >? offset mod 2 ^ w) = Ok tt /\ DCHECK (w >=? (offset + nbits) mod 2 ^ w) = Ok tt.
Proof.
  pose proof (lt_pow2 w). rewrite !Z.mod_small by lia.
  rewrite Z.gtb_ltb, Z.geb_leb, (proj2 (Z.ltb_lt _ _)), (proj2 (Z.leb_le _ _)) by lia.
  by rewrite DCHECK_true.
Qed.

Lemma GetBits_eq src : GetBits w src offset nbits = Ok (Z.shiftr src offset mod 2 ^ nbits).
Proof.
  unfold GetBits. destruct field_checks as [-> ->]. rewrite !bind_Ok. unfold GetBitsImpl.
  rewrite shr_eq, bind_Ok, NBitsFromLSB_eq, bind_Ok by lia. by rewrite Z.land_ones by lia.
Qed.

Lemma SetBits_eq value dest : 0 <= dest < 2 ^ w ->
  exists d, SetBits w value offset nbits dest = Ok d /\ 0 <= d < 2 ^ w /\
    forall i, 0 <= i < w -> Z.testbit d i =
      if (offset <=? i) && (i <? offset + nbits) then Z.testbit value (i - offset)
      else Z.testbit dest i.
Proof.
  intros Hd. unfold SetBits. destruct field_checks as [-> ->].
  rewrite !bind_Ok, NBitsFromLSB_eq, bind_Ok, !shl_eq, !bind_Ok by lia.
  set (hole := Z.shiftl (Z.ones nbits) offset mod 2 ^ w).
  set (fld := Z.shiftl (Z.land value (Z.ones nbits)) offset mod 2 ^ w).
  assert (0 <= hole < 2 ^ w) by (apply Z.mod_pos_bound; apply pow2_pos; lia).
  eexists. split; [done|].
  assert (forall i, 0 <= i < w -> Z.testbit (Z.lor (Z.land dest (2 ^ w - 1 - hole)) fld) i =
      if (offset <=? i) && (i <? offset + nbits) then Z.testbit value (i - offset)
      else Z.testbit dest i) as T.
  { intros i Hi. rewrite Z.lor_spec, Z.land_spec, complement_testbit by lia.
    unfold hole, fld. rewrite !Z.mod_pow2_bits_low, !Z.shiftl_spec, Z.land_spec by lia.
    rewrite ones_testbit by lia.
    replace (0 <=? i - offset) with (offset <=? i) by (apply eq_true_iff_eq; rewrite !Z.leb_le; lia).
    replace (i - offset <? nbits) with (i <? offset + nbits)
      by (apply eq_true_iff_eq; rewrite !Z.ltb_lt; lia).
    destruct ((offset <=? i) && (i <? offset + nbits)); cbn [negb];
      by rewrite ?andb_false_r, ?andb_true_r, ?orb_false_r. }
  split; [|exact T].
  assert (forall x y, 0 <= x < 2 ^ w -> 0 <= y < 2 ^ w -> 0 <= Z.lor x y < 2 ^ w) as B.
  { intros x y Hx Hy. split; [apply Z.lor_nonneg; lia|].
    destruct (Z.eqb_spec (Z.lor x y) 0) as [->|]; [apply pow2_pos; lia|].
    apply Z.log2_lt_pow2; [pose proof (proj2 (Z.lor_nonneg x y)); lia|].
    rewrite Z.log2_lor by lia. apply Z.max_lub_lt.
    - destruct (Z.eqb_spec x 0) as [->|]; [done|apply Z.log2_lt_pow2; lia].
    - destruct (Z.eqb_spec y 0) as [->|]; [done|apply Z.log2_lt_pow2; lia]. }
  apply B; [|apply Z.mod_pos_bound; apply pow2_pos; lia].
  split; [apply Z.land_nonneg; lia|].
  destruct (Z.eqb_spec (Z.land dest (2 ^ w - 1 - hole)) 0) as [->|]; [apply pow2_pos; lia|].
  apply Z.log2_lt_pow2; [pose proof (proj2 (Z.land_nonneg dest (2 ^ w - 1 - hole))); lia|].
  eapply Z.le_lt_trans; [apply Z.log2_land; lia|]. apply Z.min_lt_iff. left.
  destruct (Z.eqb_spec dest 0) as [->|]; [done|apply Z.log2_lt_pow2; lia].
Qed.
End field_lemmas.

(** Bit fields: within the type's width and in every build mode, [SetBits]
    replaces exactly the [nbits] bits at [offset] by the low bits of the value
    and keeps every other bit, the result fits the type, and [GetBits] at the
    same place reads the value back. *)
Theorem SetBits_GetBits `{BuildMode} w offset nbits value dest :
  0 < w -> 0 <= offset < w -> 0 <= nbits -> offset + nbits <= w ->
  0 <= value < 2 ^ w -> 0 <= dest < 2 ^ w ->
  exists d, SetBits w value offset nbits dest = Ok d /\ 0 <= d < 2 ^ w /\
    GetBits w d offset nbits = Ok (value mod 2 ^ nbits) /\
    (forall i, 0 <= i < w -> i < offset \/ offset + nbits <= i ->
       Z.testbit d i = Z.testbit dest i).
Proof.
  intros Hw Ho Hn Hon Hv Hd.
  destruct (SetBits_eq w offset nbits Hw Ho Hn Hon value dest Hd) as (d & E & Hr & T).
  exists d. split; [done|]. split; [done|]. rewrite GetBits_eq by done. split.
  - f_equal. apply Z.bits_inj'. intros i Hi.
    destruct (Z.ltb_spec i nbits).
    + rewrite !Z.mod_pow2_bits_low, Z.shiftr_spec, T by lia. repeat decide_test. cbn [andb].
      f_equal. lia.
    + by rewrite !Z.mod_pow2_bits_high by lia.
  - intros i Hi Hout. rewrite T by lia.
    destruct (Z.leb_spec offset i), (Z.ltb_spec i (offset + nbits)); cbn [andb]; try done. lia.
Qed.

Lemma SetBits_GetBits_witness :
  exists d, SetBits (H := debug_build) 32 5 4 3 255 = Ok d /\
    GetBits (H := debug_build) 32 d 4 3 = Ok 5.
Proof.
  destruct (@SetBits_GetBits debug_build 32 4 3 5 255) as (d & E & _ & G & _);
    try (split; by vm_compute); try by vm_compute.
  exists d. split; [exact E|exact G].
Defined.
