(* ===== verification/TwoValues.v ===== *)
(** * Pairs of values as one varint: gloop/util/coding/two-values-varint.{h,cc}

    Two integers are interleaved nibble by nibble and the result, of up to 128
    bits, is stored as a base-128 varint.  Buffers, pointers, [nullptr] and
    strings are those of Varint.v; the pair of outputs [*a] and [*b] is returned
    beside the pointer.  The macro of the decoders is a definition, and its
    unrolled uses are a literal list that one loop runs.

    The decoders are shown to be the reference parser [vparse] followed by
    [deinterleave], the encoders to write the varint of [interleave]. *)
From Stdlib Require Import ZArith Lia.
From stdpp Require Import base list numbers option.
From S2P Require Import Prelude.
From S2P Require Import Endian.
From S2P Require Import Bits.
From S2P Require Import Varint.
From S2P Require Import VarintParse.
From S2P Require Import VarintCode.
Local Open Scope Z_scope.

(** ** Encoding *)

(** Maximum length of the varint encoding of a 128-bit value. *)
Definition kMax128 : Z := 19.

(** The [while] loop, nine tests at most: eight nibbles of [uint32_t] values. *)
Fixpoint InterleaveNibbles_loop (fuel : nat) (a b v shift : Z) : outcome Z :=
  match fuel with
  | O => UB
  | S fuel' =>
      if (a >? 0) || (b >? 0) then
        let one_byte := u8 (Z.lor (Z.land a 15) (Z.shiftl (Z.land b 15) 4)) in
        x ← shl 64 one_byte shift;
        InterleaveNibbles_loop fuel' (Z.shiftr a 4) (Z.shiftr b 4) (Z.lor v x) (shift + 8)
      else Ok v
  end.

Definition InterleaveNibbles (a b : Z) : outcome Z := InterleaveNibbles_loop 9 a b 0 0.

Definition Length128 (lzcnt : bool) (hi lo : Z) : outcome Z :=
  if hi =? 0 then Ok (Length64 lzcnt lo) else
  l ← Log2FloorNonZero128 (MakeUint128 hi lo);
  Ok ((73 * l + 530) / 512).

(** The pointer and the pair [( *a, *b)]. *)
Abbreviation tresult := (outcome (option (Z * (Z * Z)))).

Section TwoValues.
Context `{BuildMode}.

(** The resize leaves indeterminate bytes that are overwritten; they are zeros
    here, and the capacity is at least the new size. *)
Definition Encode128 (lzcnt : bool) (s : cstring) (hi lo : Z) : outcome cstring :=
  _ ← DCHECK (hi >? 0);
  let start := zlen (sbytes s) in
  len ← Length128 lzcnt hi lo;
  let capacity := Z.max (start + len) (scapacity s) in
  let B := 128 in
  '(m, ptr) ← put_all (sbytes s ++ replicate (Z.to_nat len) 0) start
    [u8 (Z.lor lo B); u8 (Z.lor (Z.shiftr lo 7) B); u8 (Z.lor (Z.shiftr lo 14) B);
     u8 (Z.lor (Z.shiftr lo 21) B); u8 (Z.lor (Z.shiftr lo 28) B);
     u8 (Z.lor (Z.shiftr lo 35) B); u8 (Z.lor (Z.shiftr lo 42) B);
     u8 (Z.lor (Z.shiftr lo 49) B); u8 (Z.lor (Z.shiftr lo 56) B)];
  let hi_max := Z.shiftl 1 6 in
  if hi <? hi_max then
    '(m, _) ← put_all m ptr [u8 (Z.lor (Z.shiftr lo 63) (u64 (Z.shiftl hi 1)))];
    Ok {| sbytes := m; scapacity := capacity |}
  else
    '(m, ptr) ← put_all m ptr
      [u8 (Z.lor (Z.lor (Z.shiftr lo 63) (u64 (Z.shiftl hi 1))) B)];
    '(m, _) ← Varint.Encode64 m ptr (Z.shiftr hi 6);
    Ok {| sbytes := m; scapacity := capacity |}.

Definition TwoValues_Encode32 (lzcnt : bool) (s : cstring) (a b : Z) : outcome cstring :=
  v ← InterleaveNibbles a b; Append64 lzcnt s v.

Definition TwoValues_Encode64 (lzcnt : bool) (s : cstring) (a b : Z) : outcome cstring :=
  lo ← InterleaveNibbles (u32 a) (u32 b);
  if Z.shiftr (Z.lor a b) 32 =? 0 then Append64 lzcnt s lo else
  hi ← InterleaveNibbles (u32 (Z.shiftr a 32)) (u32 (Z.shiftr b 32));
  Encode128 lzcnt s hi lo.

(** ** Decoding *)

Definition TwoValues_GetBits (byte offset bits : Z) : outcome Z :=
  _ ← DCHECK ((offset + bits <=? 32) && negb (offset =? 32) && negb (bits =? 32));
  x ← shr 32 byte offset;
  one ← shl 32 1 bits;
  Ok (Z.land x (one - 1)).

(** [b |= g << shift], [g] a [uint64_t] and [b] of [w] bits. *)
Definition or_shifted (w b g shift : Z) : outcome Z :=
  x ← shl 64 g shift; Ok (Z.lor b (x mod 2 ^ w)).

(** The read of the next byte; [None] is the [return nullptr]. *)
Definition next_in_limit (RespectLimit : bool) (m : list Z) (limit uptr : Z)
    : outcome (option Z) :=
  if RespectLimit && (uptr >=? limit) then Ok None else
  byte ← load8 m uptr; Ok (Some byte).

(** The variables of a decoder. *)
Record decoding := { uptr : Z; res1 : Z; res2 : Z; shift1 : Z; shift2 : Z }.

(** What a use of the macro ends with: [return nullptr], [goto done] or the
    next statement. *)
Inductive step_end := Null | Done (st : decoding) | Next (st : decoding).

(** The macro on [a] and [b]: [(a, a_shift)] and [(b, b_shift)] after it, and
    whether it goes to [done]. *)
Definition PARSE_BITS_DECODE_TWO_bits (w byte shift a a_shift b b_shift : Z)
    : outcome (bool * (Z * Z) * (Z * Z)) :=
  g ← TwoValues_GetBits byte 0 shift;
  b ← or_shifted w b g b_shift;
  g ← TwoValues_GetBits byte shift 4;
  a ← or_shifted w a g a_shift;
  g ← TwoValues_GetBits byte (shift + 4) (3 - shift);
  b ← or_shifted w b g (b_shift + shift);
  if byte <? 128 then Ok (true, (a, a_shift), (b, b_shift))
  else Ok (false, (a, a_shift + 4), (b, b_shift + 3)).

(** [swapped] passes [res2] as [a] and [res1] as [b]. *)
Definition PARSE_BITS_DECODE_TWO (RespectLimit : bool) (w : Z) (m : list Z) (limit : Z)
    (swapped : bool) (shift : Z) (st : decoding) : outcome step_end :=
  byte ← next_in_limit RespectLimit m limit (uptr st);
  match byte with
  | None => Ok Null
  | Some byte =>
      r ← (if swapped
           then PARSE_BITS_DECODE_TWO_bits w byte shift (res2 st) (shift2 st) (res1 st) (shift1 st)
           else PARSE_BITS_DECODE_TWO_bits w byte shift (res1 st) (shift1 st) (res2 st) (shift2 st));
      let '(done, (a, a_shift), (b, b_shift)) := r in
      let st' := if swapped
                 then {| uptr := uptr st + 1; res1 := b; res2 := a;
                         shift1 := b_shift; shift2 := a_shift |}
                 else {| uptr := uptr st + 1; res1 := a; res2 := b;
                         shift1 := a_shift; shift2 := b_shift |} in
      Ok (if done : bool then Done st' else Next st')
  end.

(** The uses of the macro in order, then [last]. *)
Fixpoint decode_steps (RespectLimit : bool) (w : Z) (m : list Z) (limit : Z)
    (plan : list (bool * Z)) (last : decoding -> tresult) (st : decoding) : tresult :=
  match plan with
  | [] => last st
  | (swapped, shift) :: plan' =>
      r ← PARSE_BITS_DECODE_TWO RespectLimit w m limit swapped shift st;
      match r with
      | Null => Ok None
      | Done st => Ok (Some (uptr st, (res1 st, res2 st)))
      | Next st => decode_steps RespectLimit w m limit plan' last st
      end
  end.

(** The last byte: at most [max], or-ed into [res2] at [shift]. *)
Definition decode_last (RespectLimit : bool) (w : Z) (m : list Z) (limit max shift : Z)
    (st : decoding) : tresult :=
  byte ← next_in_limit RespectLimit m limit (uptr st);
  match byte with
  | None => Ok None
  | Some byte =>
      if byte >? max then Ok None else
      x ← shl w byte shift;
      Ok (Some (uptr st + 1, (res1 st, Z.lor (res2 st) x)))
  end.

Definition decode_start (ptr : Z) : decoding :=
  {| uptr := ptr; res1 := 0; res2 := 0; shift1 := 0; shift2 := 0 |}.

(** [if (!RespectLimit) DCHECK_GE( *uptr, 128)], read in debug builds only. *)
Definition decode_assert (RespectLimit : bool) (m : list Z) (ptr : Z) : outcome unit :=
  if RespectLimit || NDEBUG then Ok tt else b ← load8 m ptr; DCHECK (b >=? 128).

Definition Decode32Internal (RespectLimit : bool) (m : list Z) (ptr limit : Z) : tresult :=
  _ ← decode_assert RespectLimit m ptr;
  decode_steps RespectLimit 32 m limit
    [(false, 0); (false, 1); (false, 2); (false, 3);
     (true, 0); (true, 1); (true, 2); (true, 3);
     (false, 0)]
    (decode_last RespectLimit 32 m limit 1 31) (decode_start ptr).

Definition Decode64Internal (RespectLimit : bool) (m : list Z) (ptr limit : Z) : tresult :=
  _ ← decode_assert RespectLimit m ptr;
  decode_steps RespectLimit 64 m limit
    [(false, 0); (false, 1); (false, 2); (false, 3);
     (true, 0); (true, 1); (true, 2); (true, 3);
     (false, 0); (false, 1); (false, 2); (false, 3);
     (true, 0); (true, 1); (true, 2); (true, 3);
     (false, 0); (false, 1)]
    (decode_last RespectLimit 64 m limit 3 62) (decode_start ptr).

Definition Decode32Slow (m : list Z) (p : Z) : tresult := Decode32Internal false m p 0.
Definition Decode64Slow (m : list Z) (p : Z) : tresult := Decode64Internal false m p 0.

Definition TwoValues_Decode32 (m : list Z) (p : Z) : tresult :=
  byte ← load8 m p;
  if byte <? 128 then Ok (Some (p + 1, (Z.land byte 15, Z.shiftr byte 4)))
  else Decode32Slow m p.

Definition TwoValues_Decode64 (m : list Z) (p : Z) : tresult :=
  byte ← load8 m p;
  if byte <? 128 then Ok (Some (p + 1, (Z.land byte 15, Z.shiftr byte 4)))
  else Decode64Slow m p.

(** [ptr + kMax64] is compared as an address. *)
Definition TwoValues_Decode32WithLimit (m : list Z) (ptr limit : Z) : tresult :=
  if ptr + kMax64 <=? limit then TwoValues_Decode32 m ptr
  else Decode32Internal true m ptr limit.

Definition TwoValues_Decode64WithLimit (m : list Z) (ptr limit : Z) : tresult :=
  if ptr + kMax128 <=? limit then TwoValues_Decode64 m ptr
  else Decode64Internal true m ptr limit.
End TwoValues.

(** ** Reference semantics *)

(** The nibbles of [x], each followed by four zero bits. *)
Fixpoint spread (n : nat) (x : Z) : Z :=
  match n with O => 0 | S n' => x mod 16 + 256 * spread n' (x / 16) end.

(** Sixteen nibbles of each value, those of [a] first. *)
Definition interleave (a b : Z) : Z := spread 16 a + 16 * spread 16 b.

Fixpoint gather (n : nat) (v : Z) : Z :=
  match n with O => 0 | S n' => v mod 16 + 16 * gather n' (v / 256) end.

Definition deinterleave (v : Z) : Z * Z := (gather 16 v, gather 16 (v / 16)).

Lemma spread_0 n : spread n 0 = 0.
Proof. induction n as [|n IH]; [done|]. cbn [spread]. rewrite Zdiv_0_l, IH. done. Qed.

Lemma spread_low n x : 0 <= x < 16 -> (1 <= n)%nat -> spread n x = x.
Proof.
  intros. destruct n as [|n]; [lia|]. cbn [spread].
  rewrite Z.div_small, spread_0, Z.mod_small by lia. lia.
Qed.

(** [k] more bits of one nibble, above all the others. *)
Lemma spread_add n q t x y : (q < n)%nat -> 0 <= t -> t <= 4 ->
  0 <= x < 2 ^ (4 * Z.of_nat q + t) -> 0 <= y < 2 ^ (4 - t) ->
  spread n (x + y * 2 ^ (4 * Z.of_nat q + t)) = spread n x + y * 2 ^ (8 * Z.of_nat q + t).
Proof.
  revert n x. induction q as [|q IH]; intros n x Hn Ht Ht4 Hx Hy.
  - change (4 * Z.of_nat 0 + t) with t in *. change (8 * Z.of_nat 0 + t) with t.
    assert (2 ^ (4 - t) * 2 ^ t = 16) as E by (rewrite <- Z.pow_add_r by lia; by rewrite Z.sub_add).
    pose proof (pow2_pos (4 - t)). pose proof (pow2_pos t).
    rewrite !spread_low by (lia || nia). done.
  - destruct n as [|n]; [lia|]. cbn [spread].
    replace (4 * Z.of_nat (S q) + t) with (4 + (4 * Z.of_nat q + t)) in * by lia.
    replace (8 * Z.of_nat (S q) + t) with (8 + (8 * Z.of_nat q + t)) by lia.
    rewrite !(Z.pow_add_r _ 4), !(Z.pow_add_r _ 8) in * by lia.
    change (2 ^ 4) with 16 in *. change (2 ^ 8) with 256.
    set (p := 2 ^ (4 * Z.of_nat q + t)) in *.
    replace (x + y * (16 * p)) with (x + y * p * 16) by lia.
    rewrite Z.mod_add, Z.div_add by lia. unfold p. rewrite IH by (try lia; zlia). lia.
Qed.

Lemma spread_bound n x : 0 <= 17 * spread n x < 2 ^ (8 * Z.of_nat n).
Proof.
  revert x. induction n as [|n IH]; intros x; [cbn; lia|]. cbn [spread].
  replace (8 * Z.of_nat (S n)) with (8 + 8 * Z.of_nat n) by lia.
  rewrite Z.pow_add_r by lia. change (2 ^ 8) with 256.
  specialize (IH (x / 16)). zlia.
Qed.

(** Dropping the nibble of the other value. *)
Lemma spread_div16 m x : exists m', spread m x / 16 = 16 * spread m' (x / 16).
Proof.
  destruct m as [|m]; [exists O; done|]. exists m. cbn [spread].
  pose proof (Z.mod_pos_bound x 16). symmetry. apply Z.div_unique with (x mod 16); lia.
Qed.

Lemma gather_spread n m a b : 0 <= a < 2 ^ (4 * Z.of_nat n) ->
  gather n (spread n a + 16 * spread m b) = a.
Proof.
  revert m a b. induction n as [|n IH]; intros m a b Ha.
  { change (2 ^ (4 * Z.of_nat 0)) with 1 in Ha. cbn. lia. }
  replace (4 * Z.of_nat (S n)) with (4 + 4 * Z.of_nat n) in Ha by lia.
  rewrite Z.pow_add_r in Ha by lia. change (2 ^ 4) with 16 in Ha.
  destruct (spread_div16 m b) as [m' E]. cbn [gather spread].
  replace ((a mod 16 + 256 * spread n (a / 16) + 16 * spread m b) / 256)
    with (spread n (a / 16) + 16 * spread m' (b / 16)) by (rewrite <- E; zlia).
  rewrite IH by zlia. zlia.
Qed.

Definition nibbles16 (x : Z) : Prop := 0 <= x < 2 ^ 64.

Lemma deinterleave_interleave a b : nibbles16 a -> nibbles16 b ->
  deinterleave (interleave a b) = (a, b).
Proof.
  intros Ha Hb. unfold deinterleave, interleave. f_equal; [by apply gather_spread|].
  destruct (spread_div16 16 a) as [m E].
  replace ((spread 16 a + 16 * spread 16 b) / 16) with (spread 16 b + 16 * spread m (a / 16))
    by (rewrite <- E; zlia).
  by apply gather_spread.
Qed.

Lemma interleave_bound a b : 0 <= interleave a b < 2 ^ 128.
Proof.
  unfold interleave. pose proof (spread_bound 16 a). pose proof (spread_bound 16 b).
  change (2 ^ (8 * Z.of_nat 16)) with (2 ^ 128) in *. lia.
Qed.

(** The high halves of the values make the high half of the result. *)
Lemma spread_split n m x : 0 <= x ->
  spread (n + m) x = spread n x + 2 ^ (8 * Z.of_nat n) * spread m (x / 2 ^ (4 * Z.of_nat n)).
Proof.
  revert x. induction n as [|n IH]; intros x Hx.
  { cbn [Nat.add]. change (2 ^ (8 * Z.of_nat 0)) with 1. change (2 ^ (4 * Z.of_nat 0)) with 1.
    rewrite Z.div_1_r. cbn [spread]. lia. }
  cbn [Nat.add spread]. rewrite IH by zlia.
  replace (8 * Z.of_nat (S n)) with (8 + 8 * Z.of_nat n) by lia.
  replace (4 * Z.of_nat (S n)) with (4 + 4 * Z.of_nat n) by lia.
  pose proof (pow2_pos (4 * Z.of_nat n)).
  rewrite !Z.pow_add_r, <- Z.div_div by lia. change (2 ^ 8) with 256. change (2 ^ 4) with 16. lia.
Qed.

Lemma spread_mod n x : spread n (x mod 2 ^ (4 * Z.of_nat n)) = spread n x.
Proof.
  revert x. induction n as [|n IH]; intros x; [done|]. cbn [spread].
  replace (4 * Z.of_nat (S n)) with (4 + 4 * Z.of_nat n) by lia.
  rewrite Z.pow_add_r by lia. change (2 ^ 4) with 16.
  rewrite <- (IH (x / 16)). pose proof (pow2_pos (4 * Z.of_nat n)).
  rewrite Z.rem_mul_r by lia. f_equal; [zlia|]. do 2 f_equal.
  pose proof (Z.mod_pos_bound x 16). symmetry. apply Z.div_unique with (x mod 16); lia.
Qed.

(** ** The encoders write the varint of [interleave] *)

Definition interleave8 (a b : Z) : Z := spread 8 a + 16 * spread 8 b.

Lemma InterleaveNibbles_loop_eq n f a b v shift : 0 <= a < 2 ^ (4 * Z.of_nat n) ->
  0 <= b < 2 ^ (4 * Z.of_nat n) -> (n < f)%nat -> 0 <= shift ->
  shift + 8 * Z.of_nat n <= 64 -> 0 <= v < 2 ^ shift ->
  InterleaveNibbles_loop f a b v shift =
  Ok (v + 2 ^ shift * (spread n a + 16 * spread n b)).
Proof.
  revert f a b v shift.
  induction n as [|n IH]; intros f a b v shift Ha Hb Hf Hs Hs' Hv; (destruct f as [|f]; [lia|]);
    cbn [InterleaveNibbles_loop].
  { change (2 ^ (4 * Z.of_nat 0)) with 1 in *. replace a with 0 by lia. replace b with 0 by lia.
    cbn. f_equal. lia. }
  destruct ((a >? 0) || (b >? 0)) eqn:E.
  - replace (4 * Z.of_nat (S n)) with (4 + 4 * Z.of_nat n) in * by lia.
    rewrite !Z.pow_add_r in * by lia. change (2 ^ 4) with 16 in *.
    rewrite !land_0f, lor_shiftl_disjoint by (change (2 ^ 4) with 16; zlia).
    unfold u8. rewrite Z.mod_small by (change (2 ^ 4) with 16; change (2 ^ 8) with 256; zlia).
    set (g := a mod 16 + b mod 16 * 2 ^ 4). assert (0 <= g < 256) by (unfold g; change (2 ^ 4) with 16; zlia).
    unfold shl, shift_ok. rewrite (proj2 (Z.leb_le 0 shift)), (proj2 (Z.ltb_lt shift 64)) by lia.
    cbn [andb]. rewrite bind_Ok, Z.shiftl_mul_pow2 by lia.
    assert (0 <= g * 2 ^ shift <= 255 * 2 ^ shift) by (pose proof (pow2_pos shift); nia).
    assert (2 ^ 8 * 2 ^ shift <= 2 ^ 64).
    { rewrite <- Z.pow_add_r by lia. apply Z.pow_le_mono_r; lia. }
    rewrite Z.mod_small, lor_disjoint by lia. rewrite !Z.shiftr_div_pow2 by lia.
    change (2 ^ 4) with 16. rewrite IH; try lia; try zlia.
    + rewrite Z.pow_add_r by lia. cbn [spread]. change (2 ^ 8) with 256. f_equal.
      unfold g. change (2 ^ 4) with 16. lia.
    + rewrite Z.pow_add_r by lia. lia.
  - apply orb_false_iff in E as [Ea Eb]. rewrite Z.gtb_ltb in Ea, Eb.
    apply Z.ltb_ge in Ea, Eb. replace a with 0 by lia. replace b with 0 by lia.
    rewrite !spread_0. f_equal. lia.
Qed.

Lemma InterleaveNibbles_eq a b : 0 <= a < 2 ^ 32 -> 0 <= b < 2 ^ 32 ->
  InterleaveNibbles a b = Ok (interleave8 a b).
Proof.
  intros. unfold InterleaveNibbles. rewrite (InterleaveNibbles_loop_eq 8) by (lia || done).
  unfold interleave8. f_equal. lia.
Qed.

Lemma interleave8_bound a b : 0 <= interleave8 a b < 2 ^ 64.
Proof.
  unfold interleave8. pose proof (spread_bound 8 a). pose proof (spread_bound 8 b).
  change (2 ^ (8 * Z.of_nat 8)) with (2 ^ 64) in *. lia.
Qed.

Lemma interleave_halves a b : 0 <= a -> 0 <= b ->
  interleave a b = interleave8 (u32 a) (u32 b) +
                   2 ^ 64 * interleave8 (a / 2 ^ 32) (b / 2 ^ 32).
Proof.
  intros. unfold interleave, interleave8, u32. change 32 with (4 * Z.of_nat 8).
  rewrite !spread_mod. change 16%nat with (8 + 8)%nat. rewrite !spread_split by done.
  change (8 * Z.of_nat 8) with 64. lia.
Qed.

Lemma gather_0 n : gather n 0 = 0.
Proof. induction n as [|n IH]; [done|]. cbn [gather]. rewrite Zdiv_0_l, IH. done. Qed.

Lemma spread_nonzero n x : 0 < x < 2 ^ (4 * Z.of_nat n) -> 0 < spread n x.
Proof.
  intros Hx. pose proof (spread_bound n x). destruct (Z.eqb_spec (spread n x) 0) as [E|]; [|lia].
  pose proof (gather_spread n 0 x 0 ltac:(lia)) as G. cbn [spread] in G.
  rewrite E, Z.mul_0_r, Z.add_0_r, gather_0 in G. lia.
Qed.

Section encoding.
Context `{BuildMode}.

(** The string grown by [bs], within its allocation if it was before. *)
Definition grown_by (s : cstring) (bs : list Z) (r : outcome cstring) : Prop :=
  exists s', r = Ok s' /\ sbytes s' = sbytes s ++ bs /\ (cstring_ok s -> cstring_ok s').

Lemma Length128_eq lzcnt hi lo : 0 < hi < 2 ^ 64 -> 0 <= lo < 2 ^ 64 ->
  Length128 lzcnt hi lo = Ok (zlen (varint_bytes 19 (MakeUint128 hi lo))).
Proof.
  intros Hh Hl. unfold Length128. rewrite (proj2 (Z.eqb_neq hi 0)) by lia.
  assert (2 ^ 64 <= MakeUint128 hi lo < 2 ^ 128) as Hv
    by (unfold MakeUint128; change (2 ^ 128) with (2 ^ 64 * 2 ^ 64); nia).
  set (v := MakeUint128 hi lo) in *.
  rewrite Log2FloorNonZero128_eq, bind_Ok by lia. f_equal.
  rewrite zlen_varint_bytes by (change (7 * Z.of_nat 19) with 133; lia).
  assert (64 <= Z.log2 v) by (apply Z.log2_le_pow2; lia).
  assert (Z.log2 v < 128) by (apply Z.log2_lt_pow2; lia). zlia.
Qed.

(** A byte of the 128-bit value that lies in its low half. *)
Lemma low_byte hi lo k : 0 <= lo -> 0 <= k <= 56 ->
  u8 (Z.lor (Z.shiftr (MakeUint128 hi lo) k) 128) = u8 (Z.lor (Z.shiftr lo k) 128).
Proof.
  intros Hl Hk. rewrite !u8_cont. f_equal. rewrite !Z.shiftr_div_pow2 by lia.
  unfold MakeUint128.
  assert (2 ^ 64 = 2 ^ (57 - k) * 128 * 2 ^ k) as ->.
  { change 128 with (2 ^ 7). rewrite <- !Z.pow_add_r by lia. f_equal. lia. }
  rewrite Z.add_comm, !Z.mul_assoc, Z.div_add by (pose proof (pow2_pos k); lia).
  by rewrite Z.mod_add by lia.
Qed.

Lemma byte9_value hi lo : 0 <= hi < 2 ^ 64 -> 0 <= lo < 2 ^ 64 ->
  u8 (Z.lor (Z.shiftr lo 63) (u64 (Z.shiftl hi 1))) = u8 (Z.shiftr (MakeUint128 hi lo) 63).
Proof.
  intros Hh Hl. rewrite !Z.shiftr_div_pow2, Z.shiftl_mul_pow2 by lia.
  unfold MakeUint128, u64.
  replace ((hi * 2 ^ 1) mod 2 ^ 64) with (hi mod 2 ^ 63 * 2 ^ 1) by zlia.
  rewrite lor_disjoint by (change (2 ^ 1) with 2; zlia). unfold u8. zlia.
Qed.

(** The bytes the encoder writes. *)
Definition low_bytes (lo : Z) : list Z :=
  (fun k => u8 (Z.lor (Z.shiftr lo k) 128)) <$> [0; 7; 14; 21; 28; 35; 42; 49; 56].

Lemma varint_bytes_128 hi lo : 0 < hi < 2 ^ 64 -> 0 <= lo < 2 ^ 64 ->
  varint_bytes 19 (MakeUint128 hi lo) =
  low_bytes lo ++
  (let b := Z.lor (Z.shiftr lo 63) (u64 (Z.shiftl hi 1)) in
   if hi <? 64 then [u8 b] else u8 (Z.lor b 128) :: varint (Z.shiftr hi 6)).
Proof.
  intros Hh Hl. set (v := MakeUint128 hi lo).
  assert (v = lo + hi * 2 ^ 64) as Ev by (unfold v, MakeUint128; lia).
  assert (2 ^ 64 <= v) by nia.
  transitivity (low_bytes lo ++ varint_bytes 10 (v / 2 ^ 63)).
  - rewrite <- (Z.div_1_r v) at 1. change (v / 1) with (v / 2 ^ 0).
    rewrite (varint_more 18 v 0 7), (varint_more 17 v 7 14), (varint_more 16 v 14 21),
      (varint_more 15 v 21 28), (varint_more 14 v 28 35), (varint_more 13 v 35 42),
      (varint_more 12 v 42 49), (varint_more 11 v 49 56), (varint_more 10 v 56 63) by lia.
    unfold v, low_bytes. by rewrite !low_byte by lia.
  - f_equal. cbv zeta. destruct (Z.ltb_spec hi 64).
    + rewrite (varint_last 9 v 63), byte9_value by (change (2 ^ (63 + 7)) with (64 * 2 ^ 64); nia || lia).
      done.
    + assert (2 ^ 70 <= v) by (change (2 ^ 70) with (64 * 2 ^ 64); nia).
      rewrite (varint_more 9 v 63 70) by lia. rewrite !(u8_lor _ 128), byte9_value by lia. f_equal.
      assert (v / 2 ^ 70 = Z.shiftr hi 6) as ->.
      { rewrite Z.shiftr_div_pow2 by lia. rewrite Ev. change (2 ^ 70) with (2 ^ 64 * 2 ^ 6).
        rewrite <- Z.div_div, Z.div_add, (Z.div_small lo) by lia. done. }
      unfold varint. symmetry. apply varint_bytes_fuel; [|lia|lia].
      rewrite Z.shiftr_div_pow2 by lia. change (7 * Z.of_nat 9) with 63. change (2 ^ 6) with 64. zlia.
Qed.

Lemma Encode128_spec lzcnt s hi lo : 0 < hi < 2 ^ 64 -> 0 <= lo < 2 ^ 64 ->
  grown_by s (varint_bytes 19 (MakeUint128 hi lo)) (Encode128 lzcnt s hi lo).
Proof.
  intros Hh Hl. unfold Encode128. rewrite Z.gtb_ltb, (proj2 (Z.ltb_lt 0 hi)) by lia.
  rewrite DCHECK_true, bind_Ok, Length128_eq, bind_Ok by lia.
  set (bs := varint_bytes 19 (MakeUint128 hi lo)).
  pose proof (put_all_spec bs (sbytes s) (replicate (Z.to_nat (zlen bs)) 0) []) as E.
  rewrite !app_nil_r in E. specialize (E ltac:(rewrite length_replicate; unfold zlen; lia)).
  unfold bs in E at 2. rewrite varint_bytes_128, put_all_app in E by lia.
  change (low_bytes lo) with
    [u8 (Z.lor lo 128); u8 (Z.lor (Z.shiftr lo 7) 128); u8 (Z.lor (Z.shiftr lo 14) 128);
     u8 (Z.lor (Z.shiftr lo 21) 128); u8 (Z.lor (Z.shiftr lo 28) 128);
     u8 (Z.lor (Z.shiftr lo 35) 128); u8 (Z.lor (Z.shiftr lo 42) 128);
     u8 (Z.lor (Z.shiftr lo 49) 128); u8 (Z.lor (Z.shiftr lo 56) 128)] in E.
  change (Z.shiftl 1 6) with 64.
  destruct (put_all _ _ [u8 (Z.lor lo 128); _; _; _; _; _; _; _; _]) as [[m p]| |];
    [|done..]. cbn [mbind outcome_bind] in E |- *.
  exists {| sbytes := sbytes s ++ bs;
            scapacity := Z.max (zlen (sbytes s) + zlen bs) (scapacity s) |}.
  split; [|split; [done|unfold cstring_ok; cbn [sbytes scapacity]; rewrite zlen_app; lia]].
  destruct (hi <? 64).
  - rewrite E. done.
  - match type of E with put_all _ _ (?b :: ?l) = _ => change (b :: l) with ([b] ++ l) in E end.
    rewrite put_all_app in E.
    destruct (put_all m p [_]) as [[m' p']| |]; [|done..]. cbn [mbind outcome_bind] in E |- *.
    rewrite Encode64_put by (rewrite Z.shiftr_div_pow2 by lia; change (2 ^ 6) with 64; zlia).
    by rewrite E.
Qed.

Lemma appended_grown s v bs r : bs = varint v -> appended s v r -> grown_by s bs r.
Proof. by intros ->. Qed.

Lemma varint_bytes_19 v : 0 <= v < 2 ^ 64 -> varint_bytes 19 v = varint v.
Proof. intros. apply varint_bytes_fuel; [change (7 * Z.of_nat 10) with 70|..]; lia. Qed.

Lemma u32_small x : 0 <= x < 2 ^ 32 -> u32 x = x.
Proof. intros. by apply Z.mod_small. Qed.

Lemma interleave_low a b : 0 <= a < 2 ^ 32 -> 0 <= b < 2 ^ 32 -> interleave a b = interleave8 a b.
Proof.
  intros. rewrite interleave_halves, !Z.div_small, !u32_small by lia.
  change (interleave8 0 0) with 0. lia.
Qed.

(** Values that fit 32 bits take the fast path. *)
Lemma TwoValues_Encode64_small lzcnt s a b : 0 <= a < 2 ^ 32 -> 0 <= b < 2 ^ 32 ->
  TwoValues_Encode64 lzcnt s a b = TwoValues_Encode32 lzcnt s a b.
Proof.
  intros Ha Hb. unfold TwoValues_Encode64, TwoValues_Encode32.
  rewrite (u32_small a), (u32_small b), (InterleaveNibbles_eq a b), !bind_Ok by lia.
  rewrite Z.shiftr_lor, !Z.shiftr_div_pow2, !Z.div_small by lia. done.
Qed.

Lemma TwoValues_Encode64_spec lzcnt s a b : nibbles16 a -> nibbles16 b ->
  grown_by s (varint_bytes 19 (interleave a b)) (TwoValues_Encode64 lzcnt s a b).
Proof.
  unfold nibbles16. intros Ha Hb. unfold TwoValues_Encode64.
  rewrite (InterleaveNibbles_eq (u32 a) (u32 b)), bind_Ok by (apply Z.mod_pos_bound; lia).
  pose proof (interleave8_bound (u32 a) (u32 b)) as Hlo.
  rewrite interleave_halves, Z.shiftr_lor, !Z.shiftr_div_pow2 by lia.
  assert (0 <= a / 2 ^ 32 < 2 ^ 32) as Ha' by zlia.
  assert (0 <= b / 2 ^ 32 < 2 ^ 32) as Hb' by zlia.
  destruct (Z.eqb_spec (Z.lor (a / 2 ^ 32) (b / 2 ^ 32)) 0) as [E|E].
  - apply Z.lor_eq_0_iff in E as [-> ->]. change (interleave8 0 0) with 0.
    rewrite Z.mul_0_r, Z.add_0_r. eapply appended_grown; [by apply varint_bytes_19|].
    by apply (proj2 (Append_appends lzcnt s _)).
  - rewrite (u32_small (a / 2 ^ 32)), (u32_small (b / 2 ^ 32)), InterleaveNibbles_eq, bind_Ok by lia.
    pose proof (interleave8_bound (a / 2 ^ 32) (b / 2 ^ 32)).
    assert (0 < interleave8 (a / 2 ^ 32) (b / 2 ^ 32)).
    { rewrite Z.lor_eq_0_iff in E. unfold interleave8.
      pose proof (spread_bound 8 (a / 2 ^ 32)). pose proof (spread_bound 8 (b / 2 ^ 32)).
      destruct (Z.eqb_spec (a / 2 ^ 32) 0) as [Ea|].
      - pose proof (spread_nonzero 8 (b / 2 ^ 32) ltac:(change (4 * Z.of_nat 8) with 32; lia)). lia.
      - pose proof (spread_nonzero 8 (a / 2 ^ 32) ltac:(change (4 * Z.of_nat 8) with 32; lia)). lia. }
    replace (interleave8 (u32 a) (u32 b) + 2 ^ 64 * interleave8 (a / 2 ^ 32) (b / 2 ^ 32))
      with (MakeUint128 (interleave8 (a / 2 ^ 32) (b / 2 ^ 32)) (interleave8 (u32 a) (u32 b)))
      by (unfold MakeUint128; lia).
    apply Encode128_spec; lia.
Qed.
End encoding.

(** ** The decoders are the reference parser and [deinterleave] *)

(** Where the unrolled code stands: [q] nibbles of the value that gets four bits
    per byte are complete, and [s] bits are missing of the other one's nibble. *)
Definition phase (swapped : bool) (s q shift1 shift2 : Z) : Prop :=
  0 <= s <= 3 /\ 0 <= q /\ 0 <= shift1 /\ 0 <= shift2 /\
  if swapped then shift2 = 4 * q /\ shift1 = 4 * q + 4 - s
  else shift1 = 4 * q /\ shift2 = 4 * q - s.

(** The uses of the macro from a phase on. *)
Fixpoint plan_from (swapped : bool) (s : Z) (n : nat) : list (bool * Z) :=
  match n with
  | O => []
  | S n' => (swapped, s) ::
      (if s =? 3 then plan_from (negb swapped) 0 n' else plan_from swapped (s + 1) n')
  end.

(** The value that gets four bits. *)
Lemma spread_nibble q x y : 0 <= q < 16 -> 0 <= x < 2 ^ (4 * q) -> 0 <= y < 16 ->
  spread 16 (x + y * 2 ^ (4 * q)) = spread 16 x + y * 2 ^ (8 * q).
Proof.
  intros Hq Hx Hy. pose proof (spread_add 16 (Z.to_nat q) 0 x y) as E.
  rewrite !Z2Nat.id, !Z.add_0_r in E by lia. apply E; try lia.
Qed.

(** The value that gets the [s] bits its nibble misses ... *)
Lemma spread_missing q s x lo : 0 <= s <= 3 -> 0 <= 4 * q - s -> q <= 16 ->
  0 <= x < 2 ^ (4 * q - s) -> 0 <= lo < 2 ^ s ->
  16 * spread 16 (x + lo * 2 ^ (4 * q - s)) = 16 * spread 16 x + lo * 2 ^ (8 * q - s).
Proof.
  intros Hs Hq Hq' Hx Hlo. destruct (Z.eqb_spec s 0) as [->|].
  - change (2 ^ 0) with 1 in Hlo. replace lo with 0 by lia. by rewrite !Z.mul_0_l, !Z.add_0_r.
  - pose proof (spread_add 16 (Z.to_nat (q - 1)) (4 - s) x lo) as E.
    rewrite !Z2Nat.id in E by lia.
    replace (4 * (q - 1) + (4 - s)) with (4 * q - s) in E by lia.
    replace (4 - (4 - s)) with s in E by lia.
    rewrite E by lia.
    replace (8 * q - s) with (4 + (8 * (q - 1) + (4 - s))) by lia.
    rewrite (Z.pow_add_r 2 4) by lia. change (2 ^ 4) with 16. lia.
Qed.

(** ... then [3 - s] bits of the next one. *)
Lemma spread_rest q s x lo hi : 0 <= s <= 3 -> 0 <= 4 * q - s -> q < 16 ->
  0 <= x < 2 ^ (4 * q - s) -> 0 <= lo < 2 ^ s -> 0 <= hi < 2 ^ (3 - s) ->
  16 * spread 16 (x + lo * 2 ^ (4 * q - s) + hi * 2 ^ (4 * q)) =
  16 * spread 16 x + (lo + hi * 2 ^ (s + 4)) * 2 ^ (8 * q - s).
Proof.
  intros Hs Hq Hq' Hx Hlo Hhi.
  assert (0 <= x + lo * 2 ^ (4 * q - s) < 2 ^ (4 * q)) as Hxl.
  { assert (2 ^ (4 * q) = 2 ^ s * 2 ^ (4 * q - s)) as ->
      by (rewrite <- Z.pow_add_r by lia; f_equal; lia). nia. }
  assert (2 ^ (3 - s) <= 2 ^ 3) by (apply Z.pow_le_mono_r; lia). change (2 ^ 3) with 8 in *.
  rewrite spread_nibble by lia.
  rewrite Z.mul_add_distr_l, spread_missing by lia.
  assert (2 ^ (s + 4) * 2 ^ (8 * q - s) = 16 * 2 ^ (8 * q)) as E.
  { change 16 with (2 ^ 4). rewrite <- !Z.pow_add_r by lia. f_equal. lia. }
  nia.
Qed.

Section decoding.
Context `{BuildMode}.

Lemma TwoValues_GetBits_eq byte offset bits : 0 <= byte < 256 -> 0 <= offset -> 0 <= bits ->
  offset + bits <= 7 ->
  TwoValues_GetBits byte offset bits = Ok (byte / 2 ^ offset mod 2 ^ bits).
Proof.
  intros Hb Ho Hn Hs. unfold TwoValues_GetBits.
  rewrite (proj2 (Z.leb_le _ 32)), (proj2 (Z.eqb_neq offset 32)), (proj2 (Z.eqb_neq bits 32)) by lia.
  cbn [negb andb]. rewrite DCHECK_true, bind_Ok. unfold shr, shl, shift_ok.
  rewrite !(proj2 (Z.leb_le 0 _)), !(proj2 (Z.ltb_lt _ 32)) by lia. cbn [andb].
  rewrite !bind_Ok, Z.shiftl_1_l, (Z.mod_small (2 ^ bits)), Z.shiftr_div_pow2 by
    first [lia | split; [pose proof (pow2_pos bits); lia|apply Z.pow_lt_mono_r; lia]].
  f_equal. rewrite <- Z.land_ones by lia. f_equal. rewrite Z.ones_equiv. lia.
Qed.

Lemma or_shifted_eq w b g k n : 0 <= k < 64 -> 0 <= n -> k + n <= w -> w <= 64 ->
  0 <= b < 2 ^ k -> 0 <= g < 2 ^ n ->
  or_shifted w b g k = Ok (b + g * 2 ^ k) /\ 0 <= b + g * 2 ^ k < 2 ^ (k + n).
Proof.
  intros Hk Hn Hw Hw' Hb Hg. unfold or_shifted, shl, shift_ok.
  rewrite (proj2 (Z.leb_le 0 k)), (proj2 (Z.ltb_lt k 64)) by lia. cbn [andb].
  rewrite bind_Ok, Z.shiftl_mul_pow2 by lia.
  assert (0 <= b + g * 2 ^ k < 2 ^ (k + n)) as R.
  { rewrite (Z.add_comm k), Z.pow_add_r by lia. nia. }
  split; [|done]. f_equal.
  assert (2 ^ (k + n) <= 2 ^ w) by (apply Z.pow_le_mono_r; lia).
  assert (2 ^ w <= 2 ^ 64) by (apply Z.pow_le_mono_r; lia).
  rewrite (Z.mod_small (g * 2 ^ k)) by nia. rewrite Z.mod_small by nia.
  apply lor_disjoint; lia.
Qed.

Lemma seven_bits byte s : 0 <= byte -> 0 <= s <= 3 ->
  byte mod 128 = byte / 2 ^ 0 mod 2 ^ s + byte / 2 ^ s mod 2 ^ 4 * 2 ^ s +
                 byte / 2 ^ (s + 4) mod 2 ^ (3 - s) * 2 ^ (s + 4).
Proof.
  intros Hb Hs.
  assert (s = 0 \/ s = 1 \/ s = 2 \/ s = 3) as Cs by lia.
  destruct Cs as [E|[E|[E|E]]]; subst s;
    repeat match goal with |- context [2 ^ ?k] =>
      let z := eval vm_compute in (2 ^ k) in change (2 ^ k) with z end; zlia.
Qed.

(** The macro's arithmetic: [a] gets four bits and [b] the three around them. *)
Lemma PARSE_bits_eq w n q Q s byte a b : w = 4 * n -> n <= 16 -> 0 <= q < n -> Q < n ->
  0 <= s <= 3 -> 0 <= 4 * Q - s -> 0 <= byte < 256 -> 0 <= a < 2 ^ (4 * q) ->
  0 <= b < 2 ^ (4 * Q - s) ->
  exists a' b',
    PARSE_BITS_DECODE_TWO_bits w byte s a (4 * q) b (4 * Q - s) =
      Ok (if byte <? 128 then (true, (a', 4 * q), (b', 4 * Q - s))
          else (false, (a', 4 * q + 4), (b', 4 * Q - s + 3))) /\
    0 <= a' < 2 ^ (4 * q + 4) /\ 0 <= b' < 2 ^ (4 * Q - s + 3) /\
    exists mid rest, byte mod 128 = mid * 2 ^ s + rest /\
      spread 16 a' = spread 16 a + mid * 2 ^ (8 * q) /\
      16 * spread 16 b' = 16 * spread 16 b + rest * 2 ^ (8 * Q - s).
Proof.
  intros -> Hn Hq HQ Hs HQs Hb Ha Hb'. unfold PARSE_BITS_DECODE_TWO_bits.
  rewrite !TwoValues_GetBits_eq by lia.
  pose proof (seven_bits byte s ltac:(lia) Hs) as E7. pose proof (pow2_pos s).
  pose proof (pow2_pos (3 - s)).
  set (lo := byte / 2 ^ 0 mod 2 ^ s) in *. set (mid := byte / 2 ^ s mod 2 ^ 4) in *.
  set (hi := byte / 2 ^ (s + 4) mod 2 ^ (3 - s)) in *.
  assert (0 <= lo < 2 ^ s) by (apply Z.mod_pos_bound; lia).
  assert (0 <= mid < 2 ^ 4) by (apply Z.mod_pos_bound; lia).
  assert (0 <= hi < 2 ^ (3 - s)) by (apply Z.mod_pos_bound; lia).
  destruct (or_shifted_eq (4 * n) b lo (4 * Q - s) s) as [E1 R1]; try lia.
  destruct (or_shifted_eq (4 * n) a mid (4 * q) 4) as [E2 R2]; try lia.
  rewrite Z.sub_add in R1.
  destruct (or_shifted_eq (4 * n) (b + lo * 2 ^ (4 * Q - s)) hi (4 * Q) (3 - s)) as [E3 R3]; try lia.
  rewrite !bind_Ok, E1, !bind_Ok, E2, !bind_Ok, Z.sub_add, E3, bind_Ok.
  eexists _, _. split; [by destruct (byte <? 128)|].
  split; [done|]. split; [by replace (4 * Q - s + 3) with (4 * Q + (3 - s)) by lia|].
  exists mid, (lo + hi * 2 ^ (s + 4)). split; [lia|]. change (2 ^ 4) with 16 in *.
  split; [apply spread_nibble; lia|apply spread_rest; lia].
Qed.

(** The state of the decoder after [pos] bits of value [V]. *)
Definition stage (swapped : bool) (s : Z) (st : decoding) (V pos : Z) : Prop :=
  exists q, phase swapped s q (shift1 st) (shift2 st) /\
    0 <= res1 st < 2 ^ shift1 st /\ 0 <= res2 st < 2 ^ shift2 st /\
    V = interleave (res1 st) (res2 st) /\ pos = shift1 st + shift2 st.

Definition next_swapped (swapped : bool) (s : Z) : bool :=
  if s =? 3 then negb swapped else swapped.
Definition next_shift (s : Z) : Z := if s =? 3 then 0 else s + 1.

Lemma phase_next sw s q sh1 sh2 : phase sw s q sh1 sh2 ->
  exists q', phase (next_swapped sw s) (next_shift s) q'
    (sh1 + (if sw then 3 else 4)) (sh2 + (if sw then 4 else 3)).
Proof.
  unfold phase, next_swapped, next_shift. intros (Hs & Hq & H1 & H2 & Hsh).
  destruct (Z.eqb_spec s 3) as [->|]; destruct sw; cbn [negb].
  - exists (q + 1). lia.
  - exists q. lia.
  - exists (q + 1). lia.
  - exists (q + 1). lia.
Qed.

Section macro.
Context (RespectLimit : bool) (w n : Z) (m : list Z) (limit : Z).
Context (Hw : w = 4 * n) (Hn : n <= 16).

Lemma PARSE_step sw s st V pos byte : stage sw s st V pos -> pos + 7 < 2 * w ->
  0 <= byte < 256 -> next_in_limit RespectLimit m limit (uptr st) = Ok (Some byte) ->
  exists r1 r2, let V' := V + byte mod 128 * 2 ^ pos in
    PARSE_BITS_DECODE_TWO RespectLimit w m limit sw s st =
      Ok (if byte <? 128
          then Done {| uptr := uptr st + 1; res1 := r1; res2 := r2;
                       shift1 := shift1 st; shift2 := shift2 st |}
          else Next {| uptr := uptr st + 1; res1 := r1; res2 := r2;
                       shift1 := shift1 st + (if sw then 3 else 4);
                       shift2 := shift2 st + (if sw then 4 else 3) |}) /\
    0 <= r1 < 2 ^ (shift1 st + (if sw then 3 else 4)) /\
    0 <= r2 < 2 ^ (shift2 st + (if sw then 4 else 3)) /\ V' = interleave r1 r2.
Proof.
  intros (q & (Hs & Hq & Hp1 & Hp2 & Hsh) & H1 & H2 & -> & ->) Hpos Hb Hnext.
  unfold PARSE_BITS_DECODE_TWO. rewrite Hnext, bind_Ok. unfold interleave.
  destruct st as [p r1 r2 sh1 sh2]; cbn [uptr res1 res2 shift1 shift2] in *.
  destruct sw; destruct Hsh as [-> ->].
  - replace (4 * q + 4 - s) with (4 * (q + 1) - s) in * by lia.
    destruct (PARSE_bits_eq w n q (q + 1) s byte r2 r1) as (a' & b' & E & Ra & Rb & mid & rest & E7 & Ea & Eb);
      try lia.
    exists b', a'. rewrite E, bind_Ok. split; [by destruct (byte <? 128)|].
    split; [done|]. split; [done|]. rewrite E7, Ea.
    replace (4 * (q + 1) - s + 4 * q) with (8 * q + 4 - s) by lia.
    replace (8 * (q + 1) - s) with (4 + (8 * q + 4 - s)) in Eb by lia.
    rewrite Z.pow_add_r in Eb by lia. change (2 ^ 4) with 16 in Eb.
    assert (2 ^ s * 2 ^ (8 * q + 4 - s) = 16 * 2 ^ (8 * q)) as Ep.
    { change 16 with (2 ^ 4). rewrite <- !Z.pow_add_r by lia. f_equal. lia. }
    nia.
  - destruct (PARSE_bits_eq w n q q s byte r1 r2) as (a' & b' & E & Ra & Rb & mid & rest & E7 & Ea & Eb);
      try lia.
    exists a', b'. rewrite E, bind_Ok. split; [by destruct (byte <? 128)|].
    split; [done|]. split; [done|]. rewrite E7, Ea, Eb.
    replace (4 * q + (4 * q - s)) with (8 * q - s) by lia.
    assert (2 ^ s * 2 ^ (8 * q - s) = 2 ^ (8 * q)) as Ep.
    { rewrite <- Z.pow_add_r by lia. f_equal. lia. }
    nia.
Qed.
End macro.

(** ** The loop of steps *)

(** The reference parser with and without a limit. *)
Definition vparse_to (RespectLimit : bool) (k : nat) (top : Z) (l : list Z) : presult :=
  if RespectLimit then Ok (vparse_limit k top l) else vparse k top l.

Lemma vparse_to_nil RL k top : vparse_to RL (S k) top [] = if RL then Ok None else UB.
Proof. by destruct RL. Qed.

Lemma vparse_to_last RL top b l :
  vparse_to RL 1 top (b :: l) = Ok (if b <? top then Some (1, b) else None).
Proof. destruct RL; unfold vparse_to, vparse_limit; cbn; by destruct (b <? top). Qed.

Lemma vparse_to_cons RL k top b l : vparse_to RL (S (S k)) top (b :: l) =
  if b <? 128 then Ok (Some (1, b))
  else r ← vparse_to RL (S k) top l;
       Ok (match r with Some (n, v) => Some (n + 1, b mod 128 + 128 * v) | None => None end).
Proof.
  destruct RL; unfold vparse_to, vparse_limit; rewrite vparse_SS; destruct (b <? 128); try done.
  by destruct (vparse (S k) top l).
Qed.

(** What the limit is, when it is respected. *)
Definition ends (RespectLimit : bool) (pre l post : list Z) (limit : Z) : Prop :=
  if RespectLimit then limit = zlen pre + zlen l else post = [].

Lemma next_in_limit_nil RL pre post limit : ends RL pre [] post limit ->
  next_in_limit RL (pre ++ [] ++ post) limit (zlen pre) = if RL then Ok None else UB.
Proof.
  unfold ends, next_in_limit. destruct RL; cbn [andb].
  - rewrite (@zlen_nil Z). intros ->. rewrite Z.add_0_r, (proj2 (Z.geb_ge _ _)) by lia. done.
  - intros ->. by rewrite load8_nth_0.
Qed.

Lemma next_in_limit_cons RL pre b l post limit : ends RL pre (b :: l) post limit ->
  next_in_limit RL (pre ++ (b :: l) ++ post) limit (zlen pre) = Ok (Some b).
Proof.
  unfold ends, next_in_limit. cbn [app]. intros E. rewrite load8_0, bind_Ok.
  destruct RL; cbn [andb]; [|done]. rewrite E, zlen_cons, Z.geb_leb.
  pose proof (zlen_nonneg l). by rewrite (proj2 (Z.leb_gt _ _)) by lia.
Qed.

(** A parse of [V + 2 ^ pos * v], by the value [v] of what is left. *)
Definition pair_at (p V pos : Z) (o : option (Z * Z)) : option (Z * (Z * Z)) :=
  match o with Some (n, v) => Some (p + n, deinterleave (V + 2 ^ pos * v)) | None => None end.

Section steps.
Context (RespectLimit : bool) (w n : Z) (limit top : Z) (post : list Z).
Context (Hw : w = 4 * n) (Hn : n <= 16) (last : list Z -> decoding -> tresult) (pos_last : Z).

(** What the code after the loop has to do. *)
Definition last_spec : Prop := forall sw s st V pre l, stage sw s st V pos_last ->
  uptr st = zlen pre -> bytes_ok l -> ends RespectLimit pre l post limit ->
  last (pre ++ l ++ post) st =
  (r ← vparse_to RespectLimit 1 top l; Ok (pair_at (zlen pre) V pos_last r)).

Lemma stage_pow64 x k : 0 <= k -> k <= 64 -> 0 <= x < 2 ^ k -> nibbles16 x.
Proof.
  intros Hk Hk' Hx. assert (2 ^ k <= 2 ^ 64) by (apply Z.pow_le_mono_r; lia).
  unfold nibbles16. lia.
Qed.

Lemma decode_steps_spec (Hlast : last_spec) k sw s st V pos pre l : stage sw s st V pos ->
  pos + 7 * Z.of_nat k = pos_last -> pos_last < 2 * w -> uptr st = zlen pre ->
  bytes_ok l -> ends RespectLimit pre l post limit ->
  decode_steps RespectLimit w (pre ++ l ++ post) limit (plan_from sw s k)
    (last (pre ++ l ++ post)) st =
  (r ← vparse_to RespectLimit (S k) top l; Ok (pair_at (zlen pre) V pos r)).
Proof.
  revert sw s st V pos pre l.
  induction k as [|k IH]; intros sw s st V pos pre l Hst Hpos Hmax Hp Hl He.
  { cbn [plan_from decode_steps]. replace pos with pos_last in * by lia.
    by apply (Hlast sw s). }
  assert (exists plan', plan_from sw s (S k) = (sw, s) :: plan' /\
    plan' = plan_from (next_swapped sw s) (next_shift s) k) as (plan' & -> & Eplan).
  { eexists. split; [done|]. unfold next_swapped, next_shift. by destruct (s =? 3). }
  cbn [decode_steps].
  destruct l as [|b l].
  { unfold PARSE_BITS_DECODE_TWO. rewrite Hp, next_in_limit_nil, vparse_to_nil by done.
    by destruct RespectLimit. }
  pose proof Hl as Hl'. apply bytes_ok_cons in Hl' as [Hb Hl']. unfold byte_ok in Hb.
  destruct (PARSE_step RespectLimit w n (pre ++ (b :: l) ++ post) limit Hw Hn sw s st V pos b)
    as (r1 & r2 & E & R1 & R2 & EV); [done|lia|done|rewrite Hp; by apply next_in_limit_cons|].
  rewrite E, bind_Ok, vparse_to_cons. clear E.
  pose proof Hst as (q & Hph & _ & _ & _ & Epos).
  destruct Hph as (Hs & Hq & Hs1 & Hs2 & Hsh).
  destruct (Z.ltb_spec b 128).
  - rewrite bind_Ok. cbn [pair_at uptr res1 res2]. rewrite Hp.
    rewrite Z.mod_small in EV by lia. rewrite (Z.mul_comm (2 ^ pos)), EV.
    rewrite deinterleave_interleave; [done|eapply stage_pow64; [| |exact R1]|
      eapply stage_pow64; [| |exact R2]]; destruct sw; lia.
  - rewrite Eplan.
    replace (pre ++ (b :: l) ++ post) with ((pre ++ [b]) ++ l ++ post) by (by rewrite <- app_assoc).
    assert (zlen (pre ++ [b]) = zlen pre + 1) as Ez by (rewrite zlen_app; done).
    rewrite (IH _ _ _ (V + b mod 128 * 2 ^ pos) (pos + 7)).
    + destruct (vparse_to RespectLimit (S k) top l) as [[[n' v']|]| |]; try done.
      cbn. do 3 f_equal; [lia|]. f_equal. rewrite Z.pow_add_r by lia. change (2 ^ 7) with 128. lia.
    + destruct (phase_next sw s q _ _ (conj Hs (conj Hq (conj Hs1 (conj Hs2 Hsh))))) as [q' Hq'].
      exists q'. cbn [shift1 shift2 res1 res2]. split; [exact Hq'|].
      split; [done|]. split; [done|]. split; [done|]. destruct sw; lia.
    + lia.
    + done.
    + cbn [uptr]. lia.
    + done.
    + unfold ends in *. destruct RespectLimit; [|done]. rewrite Ez, He, zlen_cons. lia.
Qed.
End steps.

Lemma decode_last_spec RL w n limit post s : (w = 32 /\ n = 8 /\ s = 1) \/ (w = 64 /\ n = 16 /\ s = 2) ->
  last_spec RL limit (2 ^ s) post
    (fun m => decode_last RL w m limit (2 ^ s - 1) (w - s)) (2 * w - s).
Proof.
  intros Hw sw s' st V pre l (q & (Hs & Hq & Hs1 & Hs2 & Hsh) & R1 & R2 & -> & Hpos) Hp Hl He.
  unfold decode_last. rewrite Hp.
  destruct l as [|b l].
  { rewrite next_in_limit_nil, vparse_to_nil by done. by destruct RL. }
  apply bytes_ok_cons in Hl as [Hb Hl]. unfold byte_ok in Hb.
  rewrite next_in_limit_cons, bind_Ok, vparse_to_last, bind_Ok, Z.gtb_ltb by done.
  destruct (Z.ltb_spec b (2 ^ s)); destruct (Z.ltb_spec (2 ^ s - 1) b); try lia; [|done].
  assert (sw = false /\ s' = s /\ q = n /\ n <= 16) as (-> & -> & -> & Hn).
  { destruct sw; destruct Hsh as [E1 E2]; rewrite E1, E2 in Hpos; [lia|]. split; [done|lia]. }
  destruct Hsh as [E1 E2]. rewrite E1, E2 in *.
  assert (4 * n = w) as E4 by lia. rewrite E4 in *.
  unfold shl, shift_ok. rewrite (proj2 (Z.leb_le 0 _)), (proj2 (Z.ltb_lt _ w)) by lia.
  cbn [andb]. rewrite bind_Ok, Z.shiftl_mul_pow2 by lia.
  assert (2 ^ w = 2 ^ s * 2 ^ (w - s)) as Ew by (rewrite <- Z.pow_add_r by lia; f_equal; lia).
  rewrite Z.mod_small, lor_disjoint by nia. cbn [pair_at]. do 3 f_equal.
  assert (w <= 64) as Hw64 by lia.
  assert (nibbles16 (res1 st)) by (eapply stage_pow64; [| |exact R1]; lia).
  assert (nibbles16 (res2 st + b * 2 ^ (w - s))) by (apply (stage_pow64 _ w); lia || nia).
  rewrite <- deinterleave_interleave by done. f_equal. unfold interleave.
  pose proof (spread_missing n s (res2 st) b) as Es. rewrite E4 in Es. rewrite Es by lia.
  replace (8 * n - s) with (2 * w - s) by lia. lia.
Qed.

(** The result, by the value of the whole encoding. *)
Definition values_at (p : Z) (o : option (Z * Z)) : option (Z * (Z * Z)) :=
  match o with Some (n, v) => Some (p + n, deinterleave v) | None => None end.

Lemma pair_at_0 p o : pair_at p 0 0 o = values_at p o.
Proof. destruct o as [[n v]|]; [|done]. cbn [pair_at values_at]. do 3 f_equal. lia. Qed.

Lemma stage_start p : stage false 0 (decode_start p) 0 0.
Proof.
  exists 0. unfold phase. cbn [decode_start shift1 shift2 res1 res2].
  change (interleave 0 0) with 0. lia.
Qed.

(** The assertion holds where the optimised path has been taken before. *)
Definition path_asserted (RespectLimit : bool) (l : list Z) : Prop :=
  RespectLimit = true \/ exists b l', l = b :: l' /\ 128 <= b.

Lemma decode_assert_ok RL pre l post : path_asserted RL l ->
  decode_assert RL (pre ++ l ++ post) (zlen pre) = Ok tt.
Proof.
  unfold decode_assert. intros [->|(b & l' & -> & Hb)]; [done|].
  destruct (RL || NDEBUG); [done|]. cbn [app]. rewrite load8_0, bind_Ok, Z.geb_leb.
  rewrite (proj2 (Z.leb_le _ _)) by lia. apply DCHECK_true.
Qed.

Lemma Decode32Internal_spec RL pre l post limit : path_asserted RL l -> bytes_ok l ->
  ends RL pre l post limit ->
  Decode32Internal RL (pre ++ l ++ post) (zlen pre) limit =
  (r ← vparse_to RL 10 2 l; Ok (values_at (zlen pre) r)).
Proof.
  intros Ha Hl He. unfold Decode32Internal. rewrite decode_assert_ok, bind_Ok by done.
  pose proof (decode_steps_spec RL 32 8 limit 2 post eq_refl ltac:(lia) _ _
    (decode_last_spec RL 32 8 limit post 1 ltac:(lia)) 9 false 0 (decode_start (zlen pre)) 0 0
    pre l (stage_start _) eq_refl ltac:(lia) eq_refl Hl He) as E.
  etransitivity; [exact E|]. destruct (vparse_to RL 10 2 l); try done.
  cbn [mbind outcome_bind]. by rewrite pair_at_0.
Qed.

Lemma Decode64Internal_spec RL pre l post limit : path_asserted RL l -> bytes_ok l ->
  ends RL pre l post limit ->
  Decode64Internal RL (pre ++ l ++ post) (zlen pre) limit =
  (r ← vparse_to RL 19 4 l; Ok (values_at (zlen pre) r)).
Proof.
  intros Ha Hl He. unfold Decode64Internal. rewrite decode_assert_ok, bind_Ok by done.
  pose proof (decode_steps_spec RL 64 16 limit 4 post eq_refl ltac:(lia) _ _
    (decode_last_spec RL 64 16 limit post 2 ltac:(lia)) 18 false 0 (decode_start (zlen pre)) 0 0
    pre l (stage_start _) eq_refl ltac:(lia) eq_refl Hl He) as E.
  etransitivity; [exact E|]. destruct (vparse_to RL 19 4 l); try done.
  cbn [mbind outcome_bind]. by rewrite pair_at_0.
Qed.

(** The special case for small values. *)
Lemma small_values b : 0 <= b < 128 -> (Z.land b 15, Z.shiftr b 4) = deinterleave b.
Proof.
  intros Hb. rewrite land_0f, Z.shiftr_div_pow2 by lia. change (2 ^ 4) with 16.
  unfold deinterleave. cbn [gather].
  rewrite (Z.div_small b 256), (Z.div_small (b / 16) 256) by zlia.
  change (gather 15 0) with 0. f_equal; zlia.
Qed.

Lemma Decode_unlimited pre l k top (slow : list Z -> Z -> tresult) : bytes_ok l ->
  (forall b l', l = b :: l' -> 128 <= b ->
     slow (pre ++ l) (zlen pre) = (r ← vparse (S (S k)) top l; Ok (values_at (zlen pre) r))) ->
  (byte ← load8 (pre ++ l) (zlen pre);
   if byte <? 128 then Ok (Some (zlen pre + 1, (Z.land byte 15, Z.shiftr byte 4)))
   else slow (pre ++ l) (zlen pre)) =
  (r ← vparse (S (S k)) top l; Ok (values_at (zlen pre) r)).
Proof.
  intros Hl Hslow. destruct l as [|b l]; [by rewrite load8_nth_0|].
  rewrite load8_0, bind_Ok. destruct (Z.ltb_spec b 128); [|by apply (Hslow b l)].
  rewrite vparse_SS, (proj2 (Z.ltb_lt b 128)), bind_Ok by lia. cbn [values_at].
  apply bytes_ok_cons in Hl as [Hb _]. unfold byte_ok in Hb. by rewrite small_values by lia.
Qed.

Lemma TwoValues_Decode32_vparse pre l : bytes_ok l ->
  TwoValues_Decode32 (pre ++ l) (zlen pre) =
  (r ← vparse 10 2 l; Ok (values_at (zlen pre) r)).
Proof.
  intros Hl. apply Decode_unlimited; [done|]. intros b l' -> Hb. unfold Decode32Slow.
  rewrite <- (app_nil_r (pre ++ b :: l')), <- app_assoc. apply (Decode32Internal_spec false); [|done..].
  right. eauto.
Qed.

Lemma TwoValues_Decode64_vparse pre l : bytes_ok l ->
  TwoValues_Decode64 (pre ++ l) (zlen pre) =
  (r ← vparse 19 4 l; Ok (values_at (zlen pre) r)).
Proof.
  intros Hl. apply Decode_unlimited; [done|]. intros b l' -> Hb. unfold Decode64Slow.
  rewrite <- (app_nil_r (pre ++ b :: l')), <- app_assoc. apply (Decode64Internal_spec false); [|done..].
  right. eauto.
Qed.

Lemma TwoValues_Decode32WithLimit_vparse pre l post : bytes_ok (l ++ post) ->
  TwoValues_Decode32WithLimit (pre ++ l ++ post) (zlen pre) (zlen pre + zlen l) =
  Ok (values_at (zlen pre) (vparse_limit 10 2 l)).
Proof.
  intros Hl. unfold TwoValues_Decode32WithLimit, kMax64.
  destruct (Z.leb_spec (zlen pre + 10) (zlen pre + zlen l)).
  - rewrite TwoValues_Decode32_vparse, vparse_limit_full by (unfold zlen in *; lia || done). done.
  - apply bytes_ok_app in Hl as [Hl _].
    rewrite (Decode32Internal_spec true) by (done || by left). done.
Qed.

Lemma TwoValues_Decode64WithLimit_vparse pre l post : bytes_ok (l ++ post) ->
  TwoValues_Decode64WithLimit (pre ++ l ++ post) (zlen pre) (zlen pre + zlen l) =
  Ok (values_at (zlen pre) (vparse_limit 19 4 l)).
Proof.
  intros Hl. unfold TwoValues_Decode64WithLimit, kMax128.
  destruct (Z.leb_spec (zlen pre + 19) (zlen pre + zlen l)).
  - rewrite TwoValues_Decode64_vparse, vparse_limit_full by (unfold zlen in *; lia || done). done.
  - apply bytes_ok_app in Hl as [Hl _].
    rewrite (Decode64Internal_spec true) by (done || by left). done.
Qed.

(** ** Reading an encoding back *)

(** A parse cut before its end fails. *)
Lemma vparse_limit_truncated k top l n v j : vparse k top l = Ok (Some (n, v)) ->
  Z.of_nat j < n -> vparse_limit k top (take j l) = None.
Proof.
  revert l n v j. induction k as [|k IH]; intros l n v j E Hj; [done|].
  destruct l as [|b l]; [done|]. destruct j as [|j]; [done|]. cbn [take].
  unfold vparse_limit. cbn [vparse] in E |- *. destruct (b <? _).
  { injection E as <- <-. lia. }
  destruct (vparse k top l) as [[[n' v']|]| |] eqn:E'; try done.
  injection E as <- <-. specialize (IH l n' v' j E' ltac:(lia)). unfold vparse_limit in IH.
  destruct (vparse k top (take j l)) as [[[? ?]|]| |]; done.
Qed.

(** [dec] and [declim] read [ab] in the bytes [e] at the end of [pre], whatever
    follows; a limit inside [e] is a failure. *)
Definition reads_back (dec : list Z -> Z -> tresult) (declim : list Z -> Z -> Z -> tresult)
    (pre e post : list Z) (ab : Z * Z) : Prop :=
  let m := pre ++ e ++ post in
  let p := zlen pre in
  dec m p = Ok (Some (p + zlen e, ab)) /\
  forall limit, p <= limit <= zlen m ->
    declim m p limit = Ok (if p + zlen e <=? limit then Some (p + zlen e, ab) else None).

Lemma reads_back_varint dec declim k top pre post a b :
  (forall pre l, bytes_ok l -> dec (pre ++ l) (zlen pre) =
     (r ← vparse (S k) top l; Ok (values_at (zlen pre) r))) ->
  (forall pre l post, bytes_ok (l ++ post) ->
     declim (pre ++ l ++ post) (zlen pre) (zlen pre + zlen l) =
     Ok (values_at (zlen pre) (vparse_limit (S k) top l))) ->
  nibbles16 a -> nibbles16 b -> 1 <= top <= 128 ->
  interleave a b < top * 2 ^ (7 * Z.of_nat k) -> bytes_ok post ->
  reads_back dec declim pre (varint_bytes 19 (interleave a b)) post (a, b).
Proof.
  intros Hdec Hlim Ha Hb Ht Hk Hp. pose proof (interleave_bound a b) as Hv.
  set (e := varint_bytes 19 (interleave a b)).
  assert (bytes_ok e) as He by (apply varint_bytes_ok; lia).
  assert (forall post', vparse (S k) top (e ++ post') = Ok (Some (zlen e, interleave a b))) as Hvp.
  { intros post'. apply vparse_varint_bytes; lia. }
  split.
  - rewrite Hdec, Hvp, bind_Ok by (by apply bytes_ok_app). cbn [values_at].
    by rewrite deinterleave_interleave.
  - intros limit Hl. set (j := Z.to_nat (limit - zlen pre)).
    rewrite !zlen_app in Hl. pose proof (Hlim pre (take j (e ++ post)) (drop j (e ++ post))) as E.
    rewrite take_drop in E.
    assert (zlen (take j (e ++ post)) = Z.of_nat j) as Ej.
    { unfold zlen in *. rewrite length_take, length_app. lia. }
    rewrite Ej in E. replace (zlen pre + Z.of_nat j) with limit in E by lia.
    rewrite E by (by apply bytes_ok_app). f_equal. destruct (Z.leb_spec (zlen pre + zlen e) limit).
    + rewrite take_app_ge by (unfold zlen in *; lia). unfold vparse_limit. rewrite Hvp.
      cbn [values_at]. by rewrite deinterleave_interleave.
    + rewrite (vparse_limit_truncated _ _ _ (zlen e) (interleave a b)) by (apply Hvp || lia). done.
Qed.
End decoding.

(** ** Properties *)

(** C30. Decoding two values is parsing one varint and splitting its nibbles.
    From any position of any buffer [Decode32] and [Decode64] return exactly
    what the reference parser of 10 bytes below [2 ^ 64], or of 19 bytes below
    [2 ^ 128], returns, with the value de-interleaved, and read past the end
    only if the parser does; the versions with a limit never read at or past it
    and fail where the parser runs out of bytes.  No shift is undefined and no
    [DCHECK] fails. *)
Theorem TwoValues_Decode_refines `{BuildMode} m p : bytes_ok m -> 0 <= p <= zlen m ->
  let l := drop (Z.to_nat p) m in
  TwoValues_Decode32 m p = (r ← vparse 10 2 l; Ok (values_at p r)) /\
  TwoValues_Decode64 m p = (r ← vparse 19 4 l; Ok (values_at p r)) /\
  (forall limit, p <= limit <= zlen m ->
     let l' := take (Z.to_nat (limit - p)) l in
     TwoValues_Decode32WithLimit m p limit = Ok (values_at p (vparse_limit 10 2 l')) /\
     TwoValues_Decode64WithLimit m p limit = Ok (values_at p (vparse_limit 19 4 l'))).
Proof.
  intros Hm Hp. destruct (ptr_split m p Hp) as (pre & l & -> & <- & <-). cbv zeta.
  apply bytes_ok_app in Hm as [_ Hl].
  split; [by apply TwoValues_Decode32_vparse|]. split; [by apply TwoValues_Decode64_vparse|].
  intros limit Hlim. rewrite zlen_app in Hlim. set (j := Z.to_nat (limit - zlen pre)).
  replace (pre ++ l) with (pre ++ take j l ++ drop j l) by (by rewrite take_drop).
  assert (bytes_ok (take j l ++ drop j l)) as Hl' by (by rewrite take_drop).
  assert (limit = zlen pre + zlen (take j l)) as E.
  { unfold zlen in *. rewrite length_take. lia. }
  clearbody j. subst limit.
  split; [by apply TwoValues_Decode32WithLimit_vparse|by apply TwoValues_Decode64WithLimit_vparse].
Qed.

(** The pair [(18, 52)] behind a byte, and its encoding cut short. *)
Lemma TwoValues_Decode_refines_witness :
  let m := [7; 194; 98; 5] in
  TwoValues_Decode32 (H := debug_build) m 1 = Ok (Some (3, (18, 52))) /\
  TwoValues_Decode64WithLimit (H := debug_build) m 1 2 = Ok None.
Proof.
  intros m.
  destruct (@TwoValues_Decode_refines debug_build m 1) as (E32 & _ & EL);
    [by apply (bool_decide_unpack _)|by vm_compute|].
  split; [exact E32|]. exact (proj2 (EL 2 ltac:(by vm_compute))).
Defined.

(** C27. Every pair of 64-bit values survives [Encode64] and [Decode64]: the
    encoder appends at most 19 bytes to the string, within the allocation, the
    decoder returns the pair and the end of those bytes whatever follows, and
    with a limit it does so exactly when the limit is not before that end.
    Values that fit 32 bits get the bytes of [Encode32], which [Decode32] reads
    back in the same way. *)
Theorem TwoValues_roundtrip `{BuildMode} lzcnt s a b post :
  0 <= a < 2 ^ 64 -> 0 <= b < 2 ^ 64 -> bytes_ok post ->
  exists s' e, TwoValues_Encode64 lzcnt s a b = Ok s' /\ sbytes s' = sbytes s ++ e /\
    1 <= zlen e <= 19 /\ (cstring_ok s -> cstring_ok s') /\
    reads_back TwoValues_Decode64 TwoValues_Decode64WithLimit (sbytes s) e post (a, b) /\
    (a < 2 ^ 32 -> b < 2 ^ 32 -> TwoValues_Encode32 lzcnt s a b = Ok s' /\
       reads_back TwoValues_Decode32 TwoValues_Decode32WithLimit (sbytes s) e post (a, b)).
Proof.
  intros Ha Hb Hp. destruct (TwoValues_Encode64_spec lzcnt s a b Ha Hb) as (s' & E & Es & Hok).
  pose proof (interleave_bound a b).
  exists s', (varint_bytes 19 (interleave a b)). split; [done|]. split; [done|].
  split; [|split; [done|split]].
  - pose proof (zlen_varint_bytes 19 (interleave a b) ltac:(lia) ltac:(lia)) as ->.
    pose proof (Z.log2_nonneg (interleave a b)).
    assert (Z.log2 (interleave a b) < 128).
    { destruct (Z.eqb_spec (interleave a b) 0) as [->|]; [done|]. apply Z.log2_lt_pow2; lia. }
    zlia.
  - apply (reads_back_varint _ _ 18 4); try done; try lia;
      [apply TwoValues_Decode64_vparse|apply TwoValues_Decode64WithLimit_vparse].
  - intros Ha32 Hb32. rewrite <- TwoValues_Encode64_small by lia. split; [done|].
    pose proof (interleave8_bound a b).
    apply (reads_back_varint _ _ 9 2); try done; try lia;
      [apply TwoValues_Decode32_vparse|apply TwoValues_Decode32WithLimit_vparse|].
    rewrite interleave_low by lia. change (2 * 2 ^ (7 * Z.of_nat 9)) with (2 ^ 64). lia.
Qed.

(** Two values of 64 bits appended to a string, then read back and cut short. *)
Lemma TwoValues_roundtrip_witness :
  let s := {| sbytes := [9]; scapacity := 15 |} in
  let a := 2 ^ 64 - 1 in let b := 2 ^ 63 + 5 in
  exists s', TwoValues_Encode64 (H := debug_build) true s a b = Ok s' /\ zlen (sbytes s') = 20 /\
    TwoValues_Decode64 (H := debug_build) (sbytes s' ++ [1]) 1 = Ok (Some (20, (a, b))) /\
    TwoValues_Decode64WithLimit (H := debug_build) (sbytes s' ++ [1]) 1 19 = Ok None.
Proof.
  intros s a b.
  destruct (@TwoValues_roundtrip debug_build true s a b [1]) as (s' & e & E & Es & _ & _ & [R RL] & _);
    [done|done|by apply (bool_decide_unpack _)|].
  exists s'. split; [exact E|]. vm_compute in E. injection E as <-.
  split; [reflexivity|]. vm_compute in Es. injection Es as <-.
  assert (zlen (sbytes s) <= 19 <= 21) as L by (split; discriminate).
  specialize (RL 19 L). vm_compute in R, RL. vm_compute. exact (conj R RL).
Defined.
