(* ===== verification/IPAddr.v ===== *)
(** * IP addresses: class [IPAddress] of gloop/net/base/ipaddress.{h,cc}

    Data model, constructors, accessors and comparison.  The host is
    little-endian: [s_addr] is the [uint32_t] whose four bytes in memory are the
    address in network order, and an [in6_addr] is its sixteen bytes, with
    [s6_addr16[i]] the host integer of bytes [2i] and [2i+1].  The variant of
    the class is the inductive type [IPAddress].  A scoped IPv6 address keeps
    its scope id in bytes 4 to 7, in network order. *)
From Stdlib Require Import ZArith Lia.
From stdpp Require Import base list numbers option.
From S2P Require Import Prelude.
From S2P Require Import Endian.
Local Open Scope Z_scope.

(** ** Data *)

Record in_addr := { s_addr : Z }.
Record in6_addr := { s6_addr : list Z }.

#[global] Instance in_addr_eq_dec : EqDecision in_addr.
Proof. solve_decision. Defined.
#[global] Instance in6_addr_eq_dec : EqDecision in6_addr.
Proof. solve_decision. Defined.

(** [IPAddress::Variant]: the member of the union that [type_] selects. *)
Inductive IPAddress :=
| kUninitialized
| kIpv4 (addr4 : in_addr)
| kIpv6 (addr6 : in6_addr) (has_scope : bool).

#[global] Instance IPAddress_eq_dec : EqDecision IPAddress.
Proof. solve_decision. Defined.

(** [<sys/socket.h>]. *)
Definition AF_UNSPEC : Z := 0.
Definition AF_INET : Z := 2.
Definition AF_INET6 : Z := 10.

(** The canonical codes of the errors the code returns; the texts of the
    messages are left out. *)
Inductive StatusCode := InvalidArgument | NotFound | Unavailable | ResourceExhausted
  | Internal | Unknown | ErrnoStatus (errno : Z).
Inductive StatusOr (A : Type) := StatusOk (a : A) | StatusError (c : StatusCode).
Arguments StatusOk {A} _.
Arguments StatusError {A} _.

#[global] Instance StatusCode_eq_dec : EqDecision StatusCode.
Proof. solve_decision. Defined.
#[global] Instance StatusOr_eq_dec {A} `{EqDecision A} : EqDecision (StatusOr A).
Proof. solve_decision. Defined.

(** ** The sixteen bytes of an IPv6 address *)

Definition s6_addr16 (a : in6_addr) (i : nat) : Z := le_load (take 2 (drop (2 * i) (s6_addr a))).

Definition set_s6_addr16 (a : in6_addr) (i : nat) (v : Z) : in6_addr :=
  {| s6_addr := take (2 * i) (s6_addr a) ++ le_store 2 v ++ drop (2 * i + 2) (s6_addr a) |}.

Definition in6addr_any : in6_addr := {| s6_addr := replicate 16 0 |}.
Definition in6addr_loopback : in6_addr := {| s6_addr := replicate 15 0 ++ [1] |}.

(** The [<netinet/in.h>] macros. *)
Definition IN6_IS_ADDR_LINKLOCAL (a : in6_addr) : bool :=
  match s6_addr a with
  | b0 :: b1 :: _ => (b0 =? 254) && (Z.land b1 192 =? 128)
  | _ => false
  end.
Definition IN6_IS_ADDR_MC_LINKLOCAL (a : in6_addr) : bool :=
  match s6_addr a with
  | b0 :: b1 :: _ => (b0 =? 255) && (Z.land b1 15 =? 2)
  | _ => false
  end.

(** [std::equal] over the eight words. *)
Definition words_equal (a b : in6_addr) : bool :=
  forallb (fun i => s6_addr16 a i =? s6_addr16 b i) (seq 0 8).

(** [std::memcmp]. *)
Fixpoint memcmp (l k : list Z) : comparison :=
  match l, k with
  | x :: l', y :: k' => match x ?= y with Eq => memcmp l' k' | c => c end
  | _, _ => Eq
  end.

Section IPAddress.
Context `{BuildMode}.

(** ** Accessors *)

Definition address_family (ip : IPAddress) : Z :=
  match ip with
  | kUninitialized => AF_UNSPEC
  | kIpv4 _ => AF_INET
  | kIpv6 _ _ => AF_INET6
  end.

Definition is_ipv4 (ip : IPAddress) : bool := match ip with kIpv4 _ => true | _ => false end.
Definition is_ipv6 (ip : IPAddress) : bool := match ip with kIpv6 _ _ => true | _ => false end.

(** [Variant::get_ipv4], [Variant::get_ipv6]: a [DCHECK], then a read of the
    union's member. *)
Definition get_ipv4 (ip : IPAddress) : outcome in_addr :=
  match ip with kIpv4 a => Ok a | _ => _ ← DCHECK false; UB end.
Definition get_ipv6 (ip : IPAddress) : outcome in6_addr :=
  match ip with kIpv6 a _ => Ok a | _ => _ ← DCHECK false; UB end.

(** [Variant::has_scope] (false in the other alternatives). *)
Definition has_scope (ip : IPAddress) : bool :=
  match ip with kIpv6 _ s => s | _ => false end.

(** [addr6 = {}; addr6.s6_addr16[5] = htons(0xffff); UNALIGNED_STORE32(addr6.s6_addr16 + 6, a)]. *)
Definition v4mapped (a : in_addr) : in6_addr :=
  {| s6_addr := take 12 (s6_addr (set_s6_addr16 in6addr_any 5 (ghtons 0xffff))) ++
                le_store 4 (s_addr a) |}.

Definition ipv4_address (ip : IPAddress) : outcome in_addr :=
  if is_ipv4 ip then get_ipv4 ip
  else (* ipv4_address_slowpath *) _ ← DCHECK (negb (is_ipv4 ip)); Crash.

Definition ipv6_address_slowpath (ip : IPAddress) : outcome in6_addr :=
  if NDEBUG && is_ipv4 ip then
    a ← ipv4_address ip; Ok (v4mapped a)
  else
    _ ← CHECK (is_ipv6 ip);
    copy ← get_ipv6 ip;
    _ ← DCHECK (has_scope ip);
    Ok (set_s6_addr16 (set_s6_addr16 copy 2 0) 3 0).

Definition ipv6_address (ip : IPAddress) : outcome in6_addr :=
  if is_ipv6 ip && negb (has_scope ip) then get_ipv6 ip else ipv6_address_slowpath ip.

Definition scope_id (ip : IPAddress) : outcome Z :=
  if has_scope ip then a ← get_ipv6 ip; BigEndian.Load32 (s6_addr a) 4 else Ok 0.

(** ** Construction *)

Definition MayUseScopeIds (a : in6_addr) : bool :=
  IN6_IS_ADDR_LINKLOCAL a || IN6_IS_ADDR_MC_LINKLOCAL a.

Definition MayUseCompactScopeIds (a : in6_addr) : bool :=
  ((s6_addr16 a 0 =? ghtons 0xfe80) || (s6_addr16 a 0 =? ghtons 0xff02)) && (s6_addr16 a 1 =? 0).

Definition MayStoreCompactScopeId (a : in6_addr) : bool :=
  MayUseCompactScopeIds a && (s6_addr16 a 2 =? 0) && (s6_addr16 a 3 =? 0).

Definition HasCompactScopeId (a : in6_addr) : bool :=
  MayUseCompactScopeIds a && (negb (s6_addr16 a 2 =? 0) || negb (s6_addr16 a 3 =? 0)).

(** [IPAddress(const in6_addr&, uint32_t)]. *)
Definition IPAddress_scoped (addr : in6_addr) (scope_id : Z) : outcome IPAddress :=
  let scoped := negb (scope_id =? 0) && MayUseCompactScopeIds addr in
  if negb (scope_id =? 0) then
    if MayUseCompactScopeIds addr then
      m ← BigEndian.Store32 (s6_addr addr) 4 scope_id;
      Ok (kIpv6 {| s6_addr := m |} scoped)
    else Ok (kIpv6 addr scoped)
  else Ok (kIpv6 addr scoped).

(** [IPAddress(const in_addr&)] and [IPAddress(const in6_addr&)]. *)
Definition IPAddress4 (addr : in_addr) : IPAddress := kIpv4 addr.
Definition IPAddress6 (addr : in6_addr) : outcome IPAddress := IPAddress_scoped addr 0.

Definition UInt32ToIPAddress (bytes : Z) : IPAddress := IPAddress4 {| s_addr := bytes |}.
Definition HostUInt32ToIPAddress (address : Z) : IPAddress :=
  IPAddress4 {| s_addr := ghtonl address |}.

Definition UInt128ToIPAddress (bigint : Z) : outcome IPAddress :=
  m ← BigEndian.Store64 (replicate 16 0) 0 (Uint128High64 bigint);
  m ← BigEndian.Store64 m 8 (Uint128Low64 bigint);
  IPAddress6 {| s6_addr := m |}.

Definition IPAddressToHostUInt32 (addr : IPAddress) : outcome Z :=
  a ← ipv4_address addr; Ok (gntohl (s_addr a)).

Definition IPAddressToUInt128 (addr : IPAddress) : outcome Z :=
  addr6 ← ipv6_address addr;
  hi ← BigEndian.Load64 (s6_addr addr6) 0;
  lo ← BigEndian.Load64 (s6_addr addr6) 8;
  Ok (MakeUint128 hi lo).

Definition Any4 : IPAddress := HostUInt32ToIPAddress 0.
Definition Loopback4 : IPAddress := HostUInt32ToIPAddress 0x7f000001.
Definition Any6 : outcome IPAddress := IPAddress6 in6addr_any.
Definition Loopback6 : outcome IPAddress := IPAddress6 in6addr_loopback.

Definition MakeIPAddressWithScopeId (addr : in6_addr) (scope_id : Z)
    : outcome (StatusOr IPAddress) :=
  if scope_id =? 0 then ip ← IPAddress6 addr; Ok (StatusOk ip)
  else if negb (MayUseScopeIds addr) then Ok (StatusError InvalidArgument)
  else if negb (MayUseCompactScopeIds addr) then Ok (StatusError InvalidArgument)
  else if negb (MayStoreCompactScopeId addr) then Ok (StatusError InvalidArgument)
  else ip ← IPAddress_scoped addr scope_id; Ok (StatusOk ip).

Definition MakeIPAddressWithOptionalScopeId (ip6uint scope_id : Z) : outcome IPAddress :=
  ip6 ← UInt128ToIPAddress ip6uint;
  a ← ipv6_address ip6;
  rval ← MakeIPAddressWithScopeId a scope_id;
  Ok (match rval with StatusOk ip => ip | StatusError _ => ip6 end).

Definition IsInitializedAddress (addr : IPAddress) : bool :=
  negb (address_family addr =? AF_UNSPEC).

Definition IPAddressLength (ip : IPAddress) : outcome Z :=
  match ip with
  | kIpv4 _ => Ok 32
  | kIpv6 _ _ => Ok 128
  | kUninitialized => _ ← LOG_DFATAL; Ok (-1)
  end.

(** ** Comparison *)

(** [operator==]. *)
Definition IPAddress_eqb (x y : IPAddress) : bool :=
  match x, y with
  | kIpv4 a, kIpv4 b => s_addr a =? s_addr b
  | kIpv6 a sa, kIpv6 b sb => eqb sa sb && words_equal a b
  | kUninitialized, kUninitialized => true
  | _, _ => false
  end.

Definition type_index (ip : IPAddress) : Z :=
  match ip with kUninitialized => 0 | kIpv4 _ => 1 | kIpv6 _ _ => 2 end.

Definition ThreeWayCompare_SlowPath (lhs rhs : IPAddress) : outcome comparison :=
  _ ← DCHECK (is_ipv6 lhs);
  _ ← DCHECK (is_ipv6 rhs);
  x ← IPAddressToUInt128 lhs; y ← IPAddressToUInt128 rhs;
  match x ?= y with
  | Eq => s ← scope_id lhs; t ← scope_id rhs; Ok (s ?= t)
  | c => Ok c
  end.

Definition ThreeWayCompare (lhs rhs : IPAddress) : outcome comparison :=
  match type_index lhs ?= type_index rhs with
  | Eq =>
      match lhs with
      | kIpv4 _ =>
          a ← get_ipv4 lhs; b ← get_ipv4 rhs;
          Ok (gntohl (s_addr a) ?= gntohl (s_addr b))
      | kIpv6 _ _ =>
          a ← get_ipv6 lhs; b ← get_ipv6 rhs;
          match memcmp (s6_addr a) (s6_addr b) with
          | Eq => if eqb (has_scope lhs) (has_scope rhs) then Ok Eq
                  else ThreeWayCompare_SlowPath lhs rhs
          | r => if negb (has_scope lhs) && negb (has_scope rhs) then Ok r
                 else ThreeWayCompare_SlowPath lhs rhs
          end
      | kUninitialized => Ok Eq
      end
  | r => Ok r
  end.

(** [operator<]. *)
Definition IPAddress_ltb (x y : IPAddress) : outcome bool :=
  c ← ThreeWayCompare x y; Ok (match c with Lt => true | _ => false end).

(** ** Classification *)

Definition IsAnyIPAddress (ip : IPAddress) : outcome bool :=
  match ip with
  | kIpv4 _ => a ← get_ipv4 ip; Ok (s_addr a =? 0)
  | kIpv6 _ _ =>
      if has_scope ip then Ok false
      else a ← get_ipv6 ip; Ok (words_equal a in6addr_any)
  | kUninitialized => _ ← LOG_DFATAL; Ok false
  end.

Definition IsV4MulticastIPAddress (ip : IPAddress) : outcome bool :=
  if negb (is_ipv4 ip) then Ok false
  else a ← ipv4_address ip;
       Ok (Z.land (s_addr a) (ghtonl 0xf0000000) =? ghtonl 0xe0000000).

(** [IPAddress::ToPackedString]. *)
Definition ToPackedString (ip : IPAddress) : outcome (list Z) :=
  match ip with
  | kIpv4 _ => a ← get_ipv4 ip; Ok (le_store 4 (s_addr a))
  | kIpv6 _ _ =>
      if has_scope ip then addr6 ← ipv6_address ip; Ok (s6_addr addr6)
      else a ← get_ipv6 ip; Ok (s6_addr a)
  | kUninitialized => _ ← LOG_DFATAL; Ok []
  end.

(** [PackedStringToIPAddress]; [None] is [false]. *)
Definition PackedStringToIPAddress (str : list Z) : outcome (option IPAddress) :=
  if zlen str =? 4 then Ok (Some (IPAddress4 {| s_addr := le_load str |}))
  else if zlen str =? 16 then ip ← IPAddress6 {| s6_addr := str |}; Ok (Some ip)
  else Ok None.

End IPAddress.
