(* ===== verification/IPOrder.v ===== *)
(** * IP addresses as numbers, and their order

    The abstract view of the class [IPAddress]: an IPv4 address is a number
    below [2^32], an IPv6 address a number below [2^128] with a scope id, zero
    for none.  [repr4] and [repr6] give the object that holds it; the lemmas say
    what each accessor and constructor of ipaddress.{h,cc} does on that view.
    [operator==] and [ThreeWayCompare] order uninitialized addresses first, then IPv4
    by value, then IPv6 by value and scope id. *)
From Stdlib Require Import ZArith Lia.
From stdpp Require Import base list numbers option.
From S2P Require Import Prelude.
From S2P Require Import Endian.
From S2P Require Import IPAddr.
Local Open Scope Z_scope.

(** ** Big-endian blocks *)

Lemma le_store_mod n x : le_store n (x mod 2 ^ (8 * Z.of_nat n)) = le_store n x.
Proof.
  rewrite <- (le_load_store n x). apply le_store_load; [auto with gloop|].
  apply length_le_store.
Qed.

Lemma be_store_mod n x : be_store n (x mod 2 ^ (8 * Z.of_nat n)) = be_store n x.
Proof. unfold be_store. by rewrite le_store_mod. Qed.

Lemma le_store_app a b x :
  le_store (a + b) x = le_store a x ++ le_store b (x / 2 ^ (8 * Z.of_nat a)).
Proof.
  revert x. induction a as [|a IH]; intros x.
  { cbn. by rewrite Z.div_1_r. }
  cbn [Nat.add le_store app]. rewrite IH. do 3 f_equal.
  replace (8 * Z.of_nat (S a)) with (8 + 8 * Z.of_nat a) by lia.
  rewrite Z.pow_add_r by lia. by rewrite Z.div_div by lia.
Qed.

Lemma be_store_app a b x :
  be_store (a + b) x = be_store a (x / 2 ^ (8 * Z.of_nat b)) ++ be_store b x.
Proof. unfold be_store. rewrite Nat.add_comm, le_store_app. apply rev_app_distr. Qed.

(** The [k] bytes from byte [j] on. *)
Lemma be_store_block n j k x : (j + k <= n)%nat ->
  take k (drop j (be_store n x)) = be_store k (x / 2 ^ (8 * Z.of_nat (n - j - k))).
Proof.
  intros Hn. replace n with (j + (k + (n - j - k)))%nat at 1 by lia.
  rewrite be_store_app, drop_app_length' by (by rewrite length_be_store).
  rewrite be_store_app, take_app_length' by (by rewrite length_be_store). done.
Qed.

Lemma be_store_drop n j x : (j <= n)%nat -> drop j (be_store n x) = be_store (n - j) x.
Proof.
  intros Hn. replace n with (j + (n - j))%nat at 1 by lia.
  by rewrite be_store_app, drop_app_length' by (by rewrite length_be_store).
Qed.

Lemma be_store_take n j x : (j <= n)%nat ->
  take j (be_store n x) = be_store j (x / 2 ^ (8 * Z.of_nat (n - j))).
Proof.
  intros Hn. replace n with (j + (n - j))%nat at 1 by lia.
  by rewrite be_store_app, take_app_length' by (by rewrite length_be_store).
Qed.

Lemma be_store_inj n x y : 0 <= x < 2 ^ (8 * Z.of_nat n) -> 0 <= y < 2 ^ (8 * Z.of_nat n) ->
  be_store n x = be_store n y -> x = y.
Proof.
  intros Hx Hy E. rewrite <- (Z.mod_small x (2 ^ (8 * Z.of_nat n))) by lia.
  rewrite <- (Z.mod_small y (2 ^ (8 * Z.of_nat n))) by lia.
  rewrite <- !be_load_store. by rewrite E.
Qed.

(** A load of a block of a stored value. *)
Lemma load_be_store n j k x : (j + k <= n)%nat ->
  (x' ← UNALIGNED_LOAD k (be_store n x) (Z.of_nat j); Ok (byteswap k x')) =
  Ok (x / 2 ^ (8 * Z.of_nat (n - j - k)) mod 2 ^ (8 * Z.of_nat k)).
Proof.
  intros Hn. rewrite BE_Load_at by (auto with gloop; rewrite ?zlen_be_store; lia).
  unfold bytes_at. rewrite Nat2Z.id, be_store_block by done. by rewrite be_load_store.
Qed.

(** ** The numeric view *)

Definition in6 (n : Z) : in6_addr := {| s6_addr := be_store 16 n |}.

Definition repr4 (n : Z) : IPAddress := kIpv4 {| s_addr := byteswap 4 n |}.
Definition repr6 (n s : Z) : IPAddress := kIpv6 (in6 (n + s * 2 ^ 64)) (negb (s =? 0)).

(** The upper halves of the addresses that can carry a scope id: fe80::/64 and
    ff02::/64. *)
Definition scopable (n : Z) : bool :=
  (n / 2 ^ 64 =? 0xfe80000000000000) || (n / 2 ^ 64 =? 0xff02000000000000).

Definition addr4_ok (n : Z) : Prop := 0 <= n < 2 ^ 32.
Definition addr6_ok (n s : Z) : Prop :=
  0 <= n < 2 ^ 128 /\ 0 <= s < 2 ^ 32 /\ (s <> 0 -> scopable n = true).

(** The 16-bit word [i], from the most significant one. *)
Definition word6 (n : Z) (i : nat) : Z := n / 2 ^ (16 * Z.of_nat (7 - i)) mod 2 ^ 16.

Lemma s6_addr16_in6 n i : (i < 8)%nat -> s6_addr16 (in6 n) i = byteswap 2 (word6 n i).
Proof.
  intros Hi. unfold s6_addr16, in6, byteswap, word6. cbn [s6_addr].
  rewrite be_store_block by lia.
  replace (8 * Z.of_nat (16 - 2 * i - 2)) with (16 * Z.of_nat (7 - i)) by lia.
  change 16 with (8 * Z.of_nat 2) at 3. by rewrite le_store_mod.
Qed.

Lemma word6_range n i : 0 <= word6 n i < 2 ^ 16.
Proof. apply Z.mod_pos_bound. lia. Qed.

Lemma byteswap2_eqb a b : 0 <= a < 2 ^ 16 -> 0 <= b < 2 ^ 16 ->
  (byteswap 2 a =? byteswap 2 b) = (a =? b).
Proof.
  intros Ha Hb. destruct (Z.eqb_spec a b) as [->|Hn]; [apply Z.eqb_refl|].
  apply Z.eqb_neq. intros E. apply Hn.
  rewrite <- (byteswap_involutive 2 a), <- (byteswap_involutive 2 b) by done. by rewrite E.
Qed.

Lemma byteswap2_eqb0 a : 0 <= a < 2 ^ 16 -> (byteswap 2 a =? 0) = (a =? 0).
Proof. intros. change 0 with (byteswap 2 0) at 1. by apply byteswap2_eqb. Qed.

(** Two words of an address as one number. *)
Lemma word6_pair n i : (i < 7)%nat ->
  word6 n i * 2 ^ 16 + word6 n (S i) = n / 2 ^ (16 * Z.of_nat (6 - i)) mod 2 ^ 32.
Proof.
  intros Hi. unfold word6.
  replace (16 * Z.of_nat (7 - i)) with (16 * Z.of_nat (6 - i) + 16) by lia.
  replace (7 - S i)%nat with (6 - i)%nat by lia.
  rewrite Z.pow_add_r, <- Z.div_div by lia.
  set (x := n / _). change (2 ^ 32) with (2 ^ 16 * 2 ^ 16). rewrite Z.rem_mul_r by lia. lia.
Qed.

Lemma MayUseCompactScopeIds_in6 n : 0 <= n < 2 ^ 128 ->
  MayUseCompactScopeIds (in6 n) = (n / 2 ^ 96 =? 0xfe800000) || (n / 2 ^ 96 =? 0xff020000).
Proof.
  intros Hn. unfold MayUseCompactScopeIds, ghtons. rewrite !s6_addr16_in6 by lia.
  pose proof (word6_range n 0). pose proof (word6_range n 1).
  rewrite !byteswap2_eqb, byteswap2_eqb0 by lia.
  pose proof (word6_pair n 0 ltac:(lia)) as E.
  change (16 * Z.of_nat (6 - 0)) with 96 in E.
  rewrite (Z.mod_small (n / 2 ^ 96)) in E
    by (split; [apply Z.div_pos; lia|apply Z.div_lt_upper_bound; lia]).
  apply eq_true_iff_eq. rewrite andb_true_iff, !orb_true_iff, !Z.eqb_eq. lia.
Qed.

Lemma MayStoreCompactScopeId_in6 n : 0 <= n < 2 ^ 128 ->
  MayStoreCompactScopeId (in6 n) = scopable n.
Proof.
  intros Hn. unfold MayStoreCompactScopeId. rewrite MayUseCompactScopeIds_in6 by done.
  rewrite !s6_addr16_in6 by lia. pose proof (word6_range n 2). pose proof (word6_range n 3).
  rewrite !byteswap2_eqb0 by lia.
  pose proof (word6_pair n 2 ltac:(lia)) as E. change (16 * Z.of_nat (6 - 2)) with 64 in E.
  assert (n / 2 ^ 64 = n / 2 ^ 96 * 2 ^ 32 + n / 2 ^ 64 mod 2 ^ 32) as E2.
  { change (2 ^ 96) with (2 ^ 64 * 2 ^ 32). rewrite <- Z.div_div by lia.
    pose proof (Z.div_mod (n / 2 ^ 64) (2 ^ 32)). lia. }
  unfold scopable. apply eq_true_iff_eq.
  rewrite !andb_true_iff, !orb_true_iff, !Z.eqb_eq. lia.
Qed.

(** ** Scope ids *)

Lemma be_store_split16 x :
  be_store 16 x = be_store 4 (x / 2 ^ 96) ++ be_store 4 (x / 2 ^ 64) ++ be_store 8 x.
Proof.
  change 16%nat with (4 + (4 + 8))%nat. rewrite be_store_app, (be_store_app 4 8). done.
Qed.

Lemma scopable_div n : scopable n = true ->
  n / 2 ^ 64 mod 2 ^ 32 = 0 /\ n / 2 ^ 96 = n / 2 ^ 64 / 2 ^ 32.
Proof.
  unfold scopable. rewrite orb_true_iff, !Z.eqb_eq. intros [E|E];
    (split; [by rewrite E|]; change (2 ^ 96) with (2 ^ 64 * 2 ^ 32); by rewrite Z.div_div by lia).
Qed.

(** The bytes of a scoped address: the scope id sits in bytes 4 to 7. *)
Lemma be_store_scoped n s : scopable n = true -> 0 <= s < 2 ^ 32 ->
  be_store 16 (n + s * 2 ^ 64) = be_store 4 (n / 2 ^ 96) ++ be_store 4 s ++ be_store 8 n.
Proof.
  intros Hn Hs. destruct (scopable_div n Hn) as [E1 E2]. rewrite be_store_split16.
  assert ((n + s * 2 ^ 64) / 2 ^ 64 = n / 2 ^ 64 + s) as E3 by (apply Z.div_add; lia).
  f_equal; [|f_equal].
  - f_equal. change (2 ^ 96) with (2 ^ 64 * 2 ^ 32). rewrite <- !Z.div_div by lia.
    rewrite E3. zlia.
  - rewrite E3, <- be_store_mod. rewrite <- (be_store_mod 4 s).
    change (8 * Z.of_nat 4) with 32. f_equal. rewrite (Z.add_mod (n / 2 ^ 64)), E1 by lia.
    by rewrite Z.add_0_l, Z.mod_mod by lia.
  - rewrite <- be_store_mod, <- (be_store_mod 8 n). change (8 * Z.of_nat 8) with 64.
    f_equal. apply Z.mod_add. lia.
Qed.

Lemma be_store_unscoped n : scopable n = true ->
  be_store 16 n = be_store 4 (n / 2 ^ 96) ++ be_store 4 0 ++ be_store 8 n.
Proof.
  intros Hn. rewrite <- (be_store_scoped n 0) by (done || lia). f_equal. lia.
Qed.

Section view.
Context `{BuildMode}.

Lemma repr6_0 n : repr6 n 0 = kIpv6 (in6 n) false.
Proof. unfold repr6. by rewrite Z.mul_0_l, Z.add_0_r. Qed.

Lemma set_word_app (P R T : list Z) i v : List.length P = (2 * i)%nat -> List.length R = 2%nat ->
  set_s6_addr16 {| s6_addr := P ++ R ++ T |} i v = {| s6_addr := P ++ le_store 2 v ++ T |}.
Proof.
  intros HP HR. unfold set_s6_addr16. cbn [s6_addr]. f_equal.
  rewrite take_app_length' by done. do 2 f_equal.
  rewrite app_assoc. apply drop_app_length'. rewrite length_app. lia.
Qed.

Lemma clear_scope_words n s : scopable n = true -> 0 <= s < 2 ^ 32 ->
  set_s6_addr16 (set_s6_addr16 (in6 (n + s * 2 ^ 64)) 2 0) 3 0 = in6 n.
Proof.
  intros Hn Hs. unfold in6. rewrite be_store_scoped, be_store_unscoped by done.
  change (be_store 4 s) with (be_store (2 + 2) s).
  change (be_store 4 0) with (le_store 2 0 ++ le_store 2 0).
  rewrite be_store_app, <- !app_assoc.
  rewrite set_word_app by (by rewrite length_be_store).
  rewrite (app_assoc (be_store 4 (n / 2 ^ 96)) (le_store 2 0) (le_store 2 0 ++ _)),
    (app_assoc (be_store 4 (n / 2 ^ 96)) (le_store 2 0) (be_store 2 s ++ _)).
  apply set_word_app; rewrite ?length_app, !length_be_store, ?length_le_store; done.
Qed.

Lemma ipv6_address_repr6 n s : addr6_ok n s -> ipv6_address (repr6 n s) = Ok (in6 n).
Proof.
  intros (Hn & Hs & Hsc). unfold ipv6_address, repr6. cbn [is_ipv6 has_scope andb].
  destruct (Z.eqb_spec s 0) as [->|Hs0]; cbn [negb].
  { cbn [get_ipv6]. by rewrite Z.mul_0_l, Z.add_0_r. }
  unfold ipv6_address_slowpath. cbn [is_ipv4 is_ipv6 has_scope get_ipv6].
  rewrite andb_false_r. cbn [CHECK]. rewrite bind_Ok, bind_Ok, DCHECK_true, bind_Ok.
  by rewrite clear_scope_words by auto.
Qed.

Lemma scope_id_repr6 n s : addr6_ok n s -> scope_id (repr6 n s) = Ok s.
Proof.
  intros (Hn & Hs & Hsc). unfold scope_id, repr6. cbn [has_scope].
  destruct (Z.eqb_spec s 0) as [->|Hs0]; cbn [negb]; [done|].
  cbn [get_ipv6]. rewrite bind_Ok. unfold in6. cbn [s6_addr].
  rewrite be_store_scoped by auto. unfold BigEndian.Load32.
  pose proof (UNALIGNED_LOAD_app (be_store 4 (n / 2 ^ 96)) (be_store 4 s) (be_store 8 n) 4) as E.
  rewrite zlen_be_store in E. change (Z.of_nat 4) with 4 in E. rewrite E
    by (by rewrite length_be_store). rewrite bind_Ok.
  rewrite byteswap_le_load by (auto with gloop; by rewrite length_be_store).
  rewrite be_load_store. by rewrite Z.mod_small by lia.
Qed.

Lemma IPAddressToUInt128_repr6 n s : addr6_ok n s -> IPAddressToUInt128 (repr6 n s) = Ok n.
Proof.
  intros Hok. unfold IPAddressToUInt128. rewrite ipv6_address_repr6 by done. rewrite bind_Ok.
  unfold in6, BigEndian.Load64. cbn [s6_addr]. destruct Hok as (Hn & _).
  pose proof (load_be_store 16 0 8 n ltac:(lia)) as E0. change (Z.of_nat 0) with 0 in E0.
  pose proof (load_be_store 16 8 8 n ltac:(lia)) as E8. change (Z.of_nat 8) with 8 in E8.
  rewrite E0, bind_Ok, E8, bind_Ok. change (8 * Z.of_nat (16 - 0 - 8)) with 64.
  change (8 * Z.of_nat (16 - 8 - 8)) with 0. change (8 * 8) with 64.
  rewrite Z.pow_0_r, Z.div_1_r. unfold MakeUint128. f_equal.
  rewrite (Z.mod_small (n / 2 ^ 64)).
  - pose proof (Z.div_mod n (2 ^ 64)). lia.
  - split; [apply Z.div_pos; lia|apply Z.div_lt_upper_bound; lia].
Qed.

Lemma IPAddress6_in6 n : IPAddress6 (in6 n) = Ok (repr6 n 0).
Proof. unfold IPAddress6, IPAddress_scoped. cbn. by rewrite repr6_0. Qed.

Lemma UInt128ToIPAddress_repr n : 0 <= n < 2 ^ 128 -> UInt128ToIPAddress n = Ok (repr6 n 0).
Proof.
  intros Hn. unfold UInt128ToIPAddress, BigEndian.Store64.
  pose proof (BE_Store_app 8 [] (replicate 8 0) (replicate 8 0) (Uint128High64 n)) as E.
  cbn [app] in E. change (zlen []) with 0 in E.
  change (replicate 16 0) with (replicate 8 0 ++ replicate 8 0).
  rewrite (E eq_refl), bind_Ok. clear E.
  pose proof (BE_Store_app 8 (be_store 8 (Uint128High64 n)) (replicate 8 0) [] (Uint128Low64 n)) as E.
  rewrite zlen_be_store, !app_nil_r in E. change (Z.of_nat 8) with 8 in E.
  rewrite E by done. clear E. rewrite bind_Ok.
  assert (be_store 8 (Uint128High64 n) ++ be_store 8 (Uint128Low64 n) = be_store 16 n) as ->.
  { change 16%nat with (8 + 8)%nat. rewrite be_store_app. f_equal.
    unfold Uint128Low64. change 64 with (8 * Z.of_nat 8). apply be_store_mod. }
  apply IPAddress6_in6.
Qed.

Lemma MayUse_of_scopable n : 0 <= n < 2 ^ 128 -> scopable n = true ->
  MayUseScopeIds (in6 n) = true /\ MayUseCompactScopeIds (in6 n) = true.
Proof.
  intros Hn Hsc. split.
  - unfold MayUseScopeIds, IN6_IS_ADDR_LINKLOCAL, IN6_IS_ADDR_MC_LINKLOCAL, in6. cbn [s6_addr].
    rewrite be_store_unscoped by done. destruct (scopable_div n Hsc) as [_ ->].
    unfold scopable in Hsc. rewrite orb_true_iff, !Z.eqb_eq in Hsc.
    by destruct Hsc as [-> | ->].
  - rewrite MayUseCompactScopeIds_in6 by done. destruct (scopable_div n Hsc) as [_ ->].
    unfold scopable in Hsc. rewrite orb_true_iff, !Z.eqb_eq in Hsc.
    by destruct Hsc as [-> | ->].
Qed.

Lemma IPAddress_scoped_in6 n s : 0 <= n < 2 ^ 128 -> scopable n = true -> 0 < s < 2 ^ 32 ->
  IPAddress_scoped (in6 n) s = Ok (repr6 n s).
Proof.
  intros Hn Hsc Hs. unfold IPAddress_scoped.
  destruct (MayUse_of_scopable n Hn Hsc) as [_ ->].
  rewrite (proj2 (Z.eqb_neq s 0)) by lia. cbn [negb andb].
  unfold repr6. rewrite (proj2 (Z.eqb_neq s 0)) by lia. cbn [negb].
  unfold in6 at 1. cbn [s6_addr]. rewrite be_store_unscoped by done. unfold BigEndian.Store32.
  pose proof (BE_Store_app 4 (be_store 4 (n / 2 ^ 96)) (be_store 4 0) (be_store 8 n) s) as E.
  rewrite zlen_be_store in E. change (Z.of_nat 4) with 4 in E. rewrite E by done.
  rewrite bind_Ok. unfold in6. by rewrite be_store_scoped by (done || lia).
Qed.

Lemma MakeIPAddressWithScopeId_in6 n s : 0 <= n < 2 ^ 128 -> 0 <= s < 2 ^ 32 ->
  MakeIPAddressWithScopeId (in6 n) s =
  Ok (if (s =? 0) || scopable n then StatusOk (repr6 n s) else StatusError InvalidArgument).
Proof.
  intros Hn Hs. unfold MakeIPAddressWithScopeId.
  destruct (Z.eqb_spec s 0) as [->|Hs0]; cbn [orb].
  { by rewrite IPAddress6_in6, bind_Ok. }
  rewrite MayStoreCompactScopeId_in6 by done. destruct (scopable n) eqn:Hsc; cbn [negb].
  - destruct (MayUse_of_scopable n Hn Hsc) as [-> ->]. cbn [negb].
    by rewrite IPAddress_scoped_in6, bind_Ok by (done || lia).
  - by destruct (MayUseScopeIds (in6 n)), (MayUseCompactScopeIds (in6 n)).
Qed.

(** The scope id survives where it can be stored. *)
Definition keep_scope (n s : Z) : Z := if scopable n then s else 0.

Lemma keep_scope_ok n s : 0 <= n < 2 ^ 128 -> 0 <= s < 2 ^ 32 -> addr6_ok n (keep_scope n s).
Proof.
  intros Hn Hs. unfold keep_scope, addr6_ok. destruct (scopable n) eqn:E.
  - split; [done|]. split; [done|]. done.
  - split; [done|]. split; [lia|]. done.
Qed.

Lemma MakeIPAddressWithOptionalScopeId_repr n s : 0 <= n < 2 ^ 128 -> 0 <= s < 2 ^ 32 ->
  MakeIPAddressWithOptionalScopeId n s = Ok (repr6 n (keep_scope n s)).
Proof.
  intros Hn Hs. unfold MakeIPAddressWithOptionalScopeId.
  rewrite UInt128ToIPAddress_repr, bind_Ok by done.
  rewrite ipv6_address_repr6, bind_Ok by (split; [done|split; [lia|done]]).
  rewrite MakeIPAddressWithScopeId_in6, bind_Ok by done. unfold keep_scope.
  destruct (Z.eqb_spec s 0) as [->|]; cbn [orb]; [by destruct (scopable n)|].
  by destruct (scopable n).
Qed.

(** IPv4. *)
Lemma HostUInt32ToIPAddress_repr n : HostUInt32ToIPAddress n = repr4 n.
Proof. reflexivity. Qed.

Lemma gntohl_ghtonl n : addr4_ok n -> gntohl (byteswap 4 n) = n.
Proof. apply (byteswap_involutive 4). Qed.

Lemma IPAddressToHostUInt32_repr4 n : addr4_ok n -> IPAddressToHostUInt32 (repr4 n) = Ok n.
Proof.
  intros. unfold IPAddressToHostUInt32.
  change (ipv4_address (repr4 n)) with (Ok {| s_addr := byteswap 4 n |}).
  rewrite bind_Ok. cbn [s_addr]. by rewrite gntohl_ghtonl.
Qed.

Lemma IPAddressToHostUInt32_not4 ip : is_ipv4 ip = false -> IPAddressToHostUInt32 ip = Crash.
Proof.
  intros E. unfold IPAddressToHostUInt32, ipv4_address. rewrite E. cbn [negb].
  by rewrite DCHECK_true.
Qed.

Lemma ipv4_address_repr4 n : ipv4_address (repr4 n) = Ok {| s_addr := byteswap 4 n |}.
Proof. reflexivity. Qed.

Lemma Any6_repr : Any6 = Ok (repr6 0 0).
Proof. reflexivity. Qed.
Lemma Loopback6_repr : Loopback6 = Ok (repr6 1 0).
Proof. reflexivity. Qed.
Lemma Any4_repr : Any4 = repr4 0.
Proof. reflexivity. Qed.

Lemma addr6_ok_0 n : 0 <= n < 2 ^ 128 -> addr6_ok n 0.
Proof. intros. split; [done|]. split; [lia|done]. Qed.
End view.
#[export] Hint Resolve addr6_ok_0 keep_scope_ok : gloop.

(** ** Every address is the representation of exactly one number *)

Inductive addr := NoAddr | Addr4 (n : Z) | Addr6 (n s : Z).

Definition addr_ok (a : addr) : Prop :=
  match a with
  | NoAddr => True
  | Addr4 n => addr4_ok n
  | Addr6 n s => addr6_ok n s
  end.

Definition repr (a : addr) : IPAddress :=
  match a with
  | NoAddr => kUninitialized
  | Addr4 n => repr4 n
  | Addr6 n s => repr6 n s
  end.

(** The invariant of the class: bytes and words in range, and a scope id where
    and only where [has_scope_] says so. *)
Definition ip_ok (ip : IPAddress) : Prop :=
  match ip with
  | kUninitialized => True
  | kIpv4 a => 0 <= s_addr a < 2 ^ 32
  | kIpv6 a s => bytes_ok (s6_addr a) /\ List.length (s6_addr a) = 16%nat /\
                 (s = true -> HasCompactScopeId a = true)
  end.

Lemma in6_of_bytes a : bytes_ok (s6_addr a) -> List.length (s6_addr a) = 16%nat ->
  a = in6 (be_load (s6_addr a)) /\ 0 <= be_load (s6_addr a) < 2 ^ 128.
Proof.
  intros Hb Hl. split.
  - destruct a as [l]. unfold in6. cbn [s6_addr] in *. by rewrite be_store_load by done.
  - pose proof (be_load_bound _ Hb) as B. unfold zlen in B. rewrite Hl in B. exact B.
Qed.

Lemma HasCompactScopeId_in6 x : 0 <= x < 2 ^ 128 ->
  HasCompactScopeId (in6 x) = MayUseCompactScopeIds (in6 x) && negb (x / 2 ^ 64 mod 2 ^ 32 =? 0).
Proof.
  intros Hx. unfold HasCompactScopeId. f_equal. rewrite !s6_addr16_in6 by lia.
  pose proof (word6_range x 2). pose proof (word6_range x 3). rewrite !byteswap2_eqb0 by lia.
  pose proof (word6_pair x 2 ltac:(lia)) as E. change (16 * Z.of_nat (6 - 2)) with 64 in E.
  apply eq_true_iff_eq. rewrite orb_true_iff, !negb_true_iff, !Z.eqb_neq. lia.
Qed.

Lemma addr6_of_scoped x : 0 <= x < 2 ^ 128 -> HasCompactScopeId (in6 x) = true ->
  exists n s, s <> 0 /\ addr6_ok n s /\ x = n + s * 2 ^ 64.
Proof.
  intros Hx. rewrite HasCompactScopeId_in6, MayUseCompactScopeIds_in6 by done.
  rewrite andb_true_iff, orb_true_iff, !Z.eqb_eq, negb_true_iff, Z.eqb_neq. intros [E Hs].
  exists (x - x / 2 ^ 64 mod 2 ^ 32 * 2 ^ 64), (x / 2 ^ 64 mod 2 ^ 32).
  assert (x / 2 ^ 96 = x / 2 ^ 64 / 2 ^ 32) as E2
    by (change (2 ^ 96) with (2 ^ 64 * 2 ^ 32); by rewrite Z.div_div by lia).
  rewrite E2 in E. set (h := x / 2 ^ 64) in *.
  assert ((x - h mod 2 ^ 32 * 2 ^ 64) / 2 ^ 64 = h - h mod 2 ^ 32) as E3.
  { replace (x - h mod 2 ^ 32 * 2 ^ 64) with (x + (- (h mod 2 ^ 32)) * 2 ^ 64) by lia.
    rewrite Z.div_add by lia. unfold h. lia. }
  pose proof (Z.div_mod x (2 ^ 64) ltac:(lia)) as Ex. fold h in Ex.
  pose proof (Z.mod_pos_bound x (2 ^ 64) ltac:(lia)).
  pose proof (Z.mod_pos_bound h (2 ^ 32) ltac:(lia)).
  pose proof (Z.div_mod h (2 ^ 32) ltac:(lia)).
  split; [done|]. split; [|lia]. split; [lia|]. split; [lia|]. intros _.
  unfold scopable. rewrite E3, orb_true_iff, !Z.eqb_eq. lia.
Qed.

Lemma in6_ok x : bytes_ok (s6_addr (in6 x)) /\ List.length (s6_addr (in6 x)) = 16%nat.
Proof. split; [apply be_store_ok|apply length_be_store]. Qed.

Lemma repr_surj ip : ip_ok ip -> exists a, addr_ok a /\ ip = repr a.
Proof.
  destruct ip as [|[x]|a s]; cbn [ip_ok s_addr].
  - intros _. by exists NoAddr.
  - intros Hx. exists (Addr4 (byteswap 4 x)). split; [apply (byteswap_range 4)|].
    cbn [repr]. unfold repr4. by rewrite (byteswap_involutive 4) by done.
  - intros (Hb & Hl & Hs). destruct (in6_of_bytes a Hb Hl) as [E Hx].
    remember (be_load (s6_addr a)) as x eqn:Ex. clear Ex. subst a. destruct s.
    + destruct (addr6_of_scoped x Hx (Hs eq_refl)) as (n & s & Hs0 & Hok & ->).
      exists (Addr6 n s). split; [done|]. cbn [repr]. unfold repr6.
      by rewrite (proj2 (Z.eqb_neq s 0)).
    + exists (Addr6 x 0). split; [by apply addr6_ok_0|]. cbn [repr]. by rewrite repr6_0.
Qed.

Lemma addr6_raw_range n s : addr6_ok n s -> 0 <= n + s * 2 ^ 64 < 2 ^ 128.
Proof.
  intros (Hn & Hs & Hsc). destruct (Z.eqb_spec s 0) as [->|Hs0]; [lia|]. specialize (Hsc Hs0).
  unfold scopable in Hsc. rewrite orb_true_iff, !Z.eqb_eq in Hsc.
  pose proof (Z.div_mod n (2 ^ 64) ltac:(lia)). pose proof (Z.mod_pos_bound n (2 ^ 64) ltac:(lia)). lia.
Qed.

Lemma HasCompactScopeId_scoped n s : addr6_ok n s -> s <> 0 ->
  HasCompactScopeId (in6 (n + s * 2 ^ 64)) = true.
Proof.
  intros Hok Hs0. pose proof (addr6_raw_range n s Hok) as Hx. destruct Hok as (Hn & Hs & Hsc).
  specialize (Hsc Hs0). destruct (scopable_div n Hsc) as [E1 E2].
  assert ((n + s * 2 ^ 64) / 2 ^ 64 = n / 2 ^ 64 + s) as E3 by (apply Z.div_add; lia).
  rewrite HasCompactScopeId_in6, MayUseCompactScopeIds_in6 by done.
  change (2 ^ 96) with (2 ^ 64 * 2 ^ 32). rewrite <- Z.div_div, E3 by lia.
  unfold scopable in Hsc. rewrite orb_true_iff, !Z.eqb_eq in Hsc.
  rewrite andb_true_iff, orb_true_iff, !Z.eqb_eq, negb_true_iff, Z.eqb_neq.
  destruct Hsc as [-> | ->]; split; zlia.
Qed.

Lemma repr_ok a : addr_ok a -> ip_ok (repr a).
Proof.
  destruct a as [|n|n s]; cbn [addr_ok repr ip_ok repr4 s_addr].
  - done.
  - intros _. apply (byteswap_range 4).
  - intros Hok. unfold repr6. split; [apply in6_ok|]. split; [apply in6_ok|].
    rewrite negb_true_iff, Z.eqb_neq. by apply HasCompactScopeId_scoped.
Qed.

Lemma repr_inj a b : addr_ok a -> addr_ok b -> repr a = repr b -> a = b.
Proof.
  destruct a as [|n|n s], b as [|m|m t]; cbn [addr_ok repr]; try done.
  - unfold repr4. intros Hn Hm E. injection E as E. f_equal. unfold addr4_ok in *.
    rewrite <- (byteswap_involutive 4 n), <- (byteswap_involutive 4 m) by done. by rewrite E.
  - intros Hn Hm E.
    pose proof (IPAddressToUInt128_repr6 (H := opt_build) n s Hn) as En.
    pose proof (IPAddressToUInt128_repr6 (H := opt_build) m t Hm) as Em.
    pose proof (scope_id_repr6 (H := opt_build) n s Hn) as Es.
    pose proof (scope_id_repr6 (H := opt_build) m t Hm) as Et.
    rewrite E in En, Es. rewrite En in Em. rewrite Es in Et. congruence.
Qed.

(** The documented order. *)
Definition addr_compare (a b : addr) : comparison :=
  match a, b with
  | NoAddr, NoAddr => Eq
  | NoAddr, _ => Lt
  | _, NoAddr => Gt
  | Addr4 n, Addr4 m => n ?= m
  | Addr4 _, Addr6 _ _ => Lt
  | Addr6 _ _, Addr4 _ => Gt
  | Addr6 n s, Addr6 m t => match n ?= m with Eq => s ?= t | c => c end
  end.

#[global] Instance addr_eq_dec : EqDecision addr.
Proof. solve_decision. Defined.

(** [memcmp] of byte strings compares them as big-endian numbers. *)
Lemma memcmp_be_load l k : bytes_ok l -> bytes_ok k -> List.length l = List.length k ->
  memcmp l k = (be_load l ?= be_load k).
Proof.
  intros Hl Hk E. rewrite <- string_compare_be by done. clear Hl Hk.
  revert k E. induction l as [|x l IH]; intros [|y k] E; try done. simpl.
  rewrite IH by (simpl in E; lia). done.
Qed.

Lemma memcmp_in6 x y : 0 <= x < 2 ^ 128 -> 0 <= y < 2 ^ 128 ->
  memcmp (s6_addr (in6 x)) (s6_addr (in6 y)) = (x ?= y).
Proof.
  intros Hx Hy. rewrite memcmp_be_load by (apply in6_ok || by rewrite !(proj2 (in6_ok _))).
  unfold in6. cbn [s6_addr]. rewrite !be_load_store. by rewrite !Z.mod_small by done.
Qed.

(** Equality of the eight words is equality of the sixteen bytes. *)
Lemma words_of_bytes (l : list Z) : List.length l = 16%nat ->
  l = concat (map (fun i => take 2 (drop (2 * i) l)) (seq 0 8)).
Proof. intros H. do 16 (destruct l as [|? l]; [done|]). by destruct l. Qed.

Lemma words_equal_in6 x y : 0 <= x < 2 ^ 128 -> 0 <= y < 2 ^ 128 ->
  words_equal (in6 x) (in6 y) = (x =? y).
Proof.
  intros Hx Hy. apply eq_true_iff_eq. rewrite Z.eqb_eq. split; [|intros ->].
  - unfold words_equal. rewrite forallb_forall. intros Hw.
    apply (be_store_inj 16); [done|done|]. change (s6_addr (in6 x) = s6_addr (in6 y)).
    rewrite (words_of_bytes (s6_addr (in6 x))), (words_of_bytes (s6_addr (in6 y)))
      by apply in6_ok.
    f_equal. apply map_ext_in. intros i Hi. specialize (Hw i Hi). apply Z.eqb_eq in Hw.
    apply in_seq in Hi. apply le_load_inj; [| | |exact Hw].
    + apply bytes_ok_take, bytes_ok_drop, in6_ok.
    + apply bytes_ok_take, bytes_ok_drop, in6_ok.
    + rewrite !length_take, !length_drop, !(proj2 (in6_ok _)). done.
  - unfold words_equal. apply forallb_forall. intros. apply Z.eqb_refl.
Qed.

Section order.
Context `{BuildMode}.

Lemma IPAddress_eqb_repr a b : addr_ok a -> addr_ok b ->
  IPAddress_eqb (repr a) (repr b) = bool_decide (a = b).
Proof.
  intros Ha Hb. destruct (bool_decide_reflect (a = b)) as [->|Hne].
  - destruct b as [|n|n s]; cbn [repr IPAddress_eqb repr4 s_addr].
    + done.
    + apply Z.eqb_refl.
    + unfold repr6. cbn [IPAddress_eqb]. rewrite eqb_reflx. cbn [andb]. rewrite words_equal_in6; [apply Z.eqb_refl|..];
        by apply addr6_raw_range.
  - apply not_true_iff_false. intros E. apply Hne, repr_inj; [done..|]. clear Hne.
    destruct a as [|n|n s], b as [|m|m t]; cbn [repr IPAddress_eqb repr4] in *; try done.
    + apply Z.eqb_eq in E. cbn [s_addr] in E. unfold repr4. by rewrite E.
    + unfold repr6 in *. cbn [IPAddress_eqb] in E. apply andb_true_iff in E as [E1 E2]. apply eqb_prop in E1.
      rewrite words_equal_in6 in E2 by (by apply addr6_raw_range).
      apply Z.eqb_eq in E2. by rewrite E1, E2.
Qed.

Lemma SlowPath_repr n s m t : addr6_ok n s -> addr6_ok m t ->
  ThreeWayCompare_SlowPath (repr6 n s) (repr6 m t) =
  Ok (match n ?= m with Eq => s ?= t | c => c end).
Proof.
  intros Ha Hb. unfold ThreeWayCompare_SlowPath. cbn [is_ipv6 repr6].
  rewrite DCHECK_true, !bind_Ok, !IPAddressToUInt128_repr6, !bind_Ok by done.
  rewrite !scope_id_repr6 by done. by destruct (n ?= m).
Qed.

Lemma ThreeWayCompare_ipv6 a sa b sb :
  ThreeWayCompare (kIpv6 a sa) (kIpv6 b sb) =
  match memcmp (s6_addr a) (s6_addr b) with
  | Eq => if eqb sa sb then Ok Eq else ThreeWayCompare_SlowPath (kIpv6 a sa) (kIpv6 b sb)
  | r => if negb sa && negb sb then Ok r
         else ThreeWayCompare_SlowPath (kIpv6 a sa) (kIpv6 b sb)
  end.
Proof. reflexivity. Qed.

Lemma ThreeWayCompare_repr a b : addr_ok a -> addr_ok b ->
  ThreeWayCompare (repr a) (repr b) = Ok (addr_compare a b).
Proof.
  intros Ha Hb. destruct a as [|n|n s], b as [|m|m t]; try reflexivity.
  - unfold ThreeWayCompare. cbn [repr type_index repr4 get_ipv4]. rewrite Z.compare_refl, !bind_Ok.
    cbn [s_addr]. by rewrite !gntohl_ghtonl by done.
  - cbn [repr addr_compare]. unfold repr6 at 1 2. rewrite ThreeWayCompare_ipv6.
    fold (repr6 n s). fold (repr6 m t).
    rewrite memcmp_in6, SlowPath_repr by (done || by apply addr6_raw_range).
    destruct (Z.compare_spec (n + s * 2 ^ 64) (m + t * 2 ^ 64)) as [E|E|E].
    + destruct (eqb (negb (s =? 0)) (negb (t =? 0))) eqn:Eb; [|done].
      apply eqb_prop in Eb.
      assert (repr (Addr6 n s) = repr (Addr6 m t)) as Er by (cbn [repr]; unfold repr6; by rewrite E, Eb).
      apply repr_inj in Er; [|done..]. injection Er as -> ->. by rewrite !Z.compare_refl.
    + destruct (Z.eqb_spec s 0) as [->|], (Z.eqb_spec t 0) as [->|]; cbn [negb andb]; try done.
      by rewrite (proj2 (Z.compare_lt_iff n m)) by lia.
    + destruct (Z.eqb_spec s 0) as [->|], (Z.eqb_spec t 0) as [->|]; cbn [negb andb]; try done.
      by rewrite (proj2 (Z.compare_gt_iff n m)) by lia.
Qed.

Definition addr_ltb (a b : addr) : bool := match addr_compare a b with Lt => true | _ => false end.

Lemma IPAddress_ltb_repr a b : addr_ok a -> addr_ok b ->
  IPAddress_ltb (repr a) (repr b) = Ok (addr_ltb a b).
Proof. intros. unfold IPAddress_ltb. by rewrite ThreeWayCompare_repr. Qed.
End order.

Lemma addr_compare_antisym a b : addr_compare b a = CompOpp (addr_compare a b).
Proof.
  destruct a as [|n|n s], b as [|m|m t]; cbn; try done.
  - apply Z.compare_antisym.
  - rewrite (Z.compare_antisym n m). destruct (n ?= m); cbn; [apply Z.compare_antisym|done..].
Qed.

Lemma addr_compare_eq a b : addr_compare a b = Eq <-> a = b.
Proof.
  split; [|intros ->].
  - destruct a as [|n|n s], b as [|m|m t]; cbn; try done.
    + intros E%Z.compare_eq_iff. by rewrite E.
    + destruct (Z.compare_spec n m) as [->|?|?]; [|done..]. intros E%Z.compare_eq_iff. by rewrite E.
  - destruct b; cbn; rewrite ?Z.compare_refl; done.
Qed.

Lemma addr_compare_trans a b c :
  addr_compare a b = Lt -> addr_compare b c = Lt -> addr_compare a c = Lt.
Proof.
  destruct a as [|n|n s], b as [|m|m t], c as [|k|k u]; cbn; try done.
  - rewrite !Z.compare_lt_iff. lia.
  - destruct (Z.compare_spec n m), (Z.compare_spec m k); try done; intros;
      destruct (Z.compare_spec n k); try lia; rewrite ?Z.compare_lt_iff in *; try lia; done.
Qed.

(** C26. [ThreeWayCompare] is a total order of all addresses, uninitialized ones
    included, that agrees with [operator==]: it always returns, gives
    [equivalent] exactly on equal addresses, which are exactly the equal
    objects, is antisymmetric and transitive.  Uninitialized addresses come
    before all others and IPv4 addresses before IPv6 ones; the IPv4 addresses are
    ordered by their numbers and the IPv6 addresses by number and then scope id. *)
Theorem ThreeWayCompare_total_order `{BuildMode} x y z : ip_ok x -> ip_ok y -> ip_ok z ->
  exists cxy cyx cyz cxz,
    ThreeWayCompare x y = Ok cxy /\ ThreeWayCompare y x = Ok cyx /\
    ThreeWayCompare y z = Ok cyz /\ ThreeWayCompare x z = Ok cxz /\
    (cxy = Eq <-> IPAddress_eqb x y = true) /\ (IPAddress_eqb x y = true <-> x = y) /\
    cyx = CompOpp cxy /\ (cxy = Lt -> cyz = Lt -> cxz = Lt) /\
    (IsInitializedAddress x = false -> IsInitializedAddress y = true -> cxy = Lt) /\
    (is_ipv4 x = true -> is_ipv6 y = true -> cxy = Lt) /\
    (forall a b, IPAddressToHostUInt32 x = Ok a -> IPAddressToHostUInt32 y = Ok b -> cxy = (a ?= b)) /\
    (forall a b s t, is_ipv6 x = true -> is_ipv6 y = true ->
       IPAddressToUInt128 x = Ok a -> IPAddressToUInt128 y = Ok b ->
       scope_id x = Ok s -> scope_id y = Ok t ->
       cxy = match a ?= b with Eq => s ?= t | c => c end).
Proof.
  intros Hx Hy Hz. apply repr_surj in Hx as (a & Ha & ->). apply repr_surj in Hy as (b & Hb & ->).
  apply repr_surj in Hz as (c & Hc & ->).
  exists (addr_compare a b), (addr_compare b a), (addr_compare b c), (addr_compare a c).
  rewrite !ThreeWayCompare_repr, !IPAddress_eqb_repr by done.
  rewrite addr_compare_eq, bool_decide_eq_true.
  do 4 (split; [done|]). split; [done|]. split; [split; [by intros ->|by apply repr_inj]|].
  split; [apply addr_compare_antisym|]. split; [apply addr_compare_trans|].
  split; [by destruct a, b|]. split; [by destruct a, b|]. split.
  - intros u v. destruct a as [|n|n s], b as [|m|m t]; cbn [repr];
      rewrite ?IPAddressToHostUInt32_repr4, ?IPAddressToHostUInt32_not4 by done; try done.
    by intros [= <-] [= <-].
  - intros u v p q. destruct a as [|n|n s], b as [|m|m t]; try done; cbn [repr].
    rewrite !IPAddressToUInt128_repr6, !scope_id_repr6 by done.
    intros _ _ [= <-] [= <-] [= <-] [= <-]. done.
Qed.

Lemma ThreeWayCompare_total_order_witness :
  ip_ok (repr (Addr6 (0xff02 * 2 ^ 112) 1)) /\
  exists c, ThreeWayCompare (H := debug_build) (repr (Addr6 (0xff02 * 2 ^ 112) 1)) (repr (Addr4 7)) = Ok c.
Proof.
  assert (ip_ok (repr (Addr6 (0xff02 * 2 ^ 112) 1))) as H6
    by (apply repr_ok; repeat split; by vm_compute).
  assert (ip_ok (repr (Addr4 7))) as H4 by (apply repr_ok; split; by vm_compute).
  split; [exact H6|].
  destruct (@ThreeWayCompare_total_order debug_build _ _ kUninitialized H6 H4 I)
    as (c & _ & _ & _ & E & _). exists c. exact E.
Defined.
