(* ===== verification/IPRange.v ===== *)
(** * IP ranges: class [IPRange] and the range functions of
    gloop/net/base/ipaddress.{h,cc}

    A range is an address and a prefix length; [int] parameters that are written
    through are returned.  A [bool] result with an output parameter is an
    [option], [None] for [false]. *)
From Stdlib Require Import ZArith Lia.
From stdpp Require Import base list numbers option.
From S2P Require Import Prelude.
From S2P Require Import Endian.
From S2P Require Import Bits.
From S2P Require Import IPAddr.
Local Open Scope Z_scope.

Record IPRange := { host_ : IPAddress; length_ : Z }.

#[global] Instance IPRange_eq_dec : EqDecision IPRange.
Proof. solve_decision. Defined.

Definition kMaxNetmaskIPv4 : Z := 32.
Definition kMaxNetmaskIPv6 : Z := 128.

(** [~0U], [~absl::uint128(0)] and the complement in [w] bits. *)
Definition wnot (w x : Z) : Z := 2 ^ w - 1 - x.

Section IPRange.
Context `{BuildMode}.

(** [ipaddress_internal::TruncateIPAndLength]: the address and the new value of
    [*length_io]. *)
Definition TruncateIPAndLength (addr : IPAddress) (length : Z) : outcome (IPAddress * Z) :=
  let invalid := _ ← LOG_DFATAL; Ok (kUninitialized, -1) in
  match addr with
  | kIpv4 _ =>
      if length >=? kMaxNetmaskIPv4 then Ok (addr, kMaxNetmaskIPv4)
      else if length >? 0 then
        ip4 ← IPAddressToHostUInt32 addr;
        mask ← shl 32 (wnot 32 0) (32 - length);
        Ok (HostUInt32ToIPAddress (Z.land ip4 mask), length)
      else if length =? 0 then Ok (Any4, length)
      else invalid
  | kIpv6 _ _ =>
      if length >=? kMaxNetmaskIPv6 then Ok (addr, kMaxNetmaskIPv6)
      else if length >? 0 then
        ip6 ← IPAddressToUInt128 addr;
        mask ← shl 128 (wnot 128 0) (128 - length);
        scope ← scope_id addr;
        ip ← MakeIPAddressWithOptionalScopeId (Z.land ip6 mask) scope;
        Ok (ip, length)
      else if length =? 0 then ip ← Any6; Ok (ip, length)
      else invalid
  | kUninitialized => Ok (addr, -1)
  end.

Definition TruncateIPAddress (addr : IPAddress) (length : Z) : outcome IPAddress :=
  _ ← (if negb (IsInitializedAddress addr) then LOG_DFATAL else Ok tt);
  '(ip, _) ← TruncateIPAndLength addr length; Ok ip.

(** [IPRange()], [IPRange(host, length)], [IPRange(host)]. *)
Definition IPRange_default : IPRange := {| host_ := kUninitialized; length_ := -1 |}.

Definition IPRange_make (host : IPAddress) (length : Z) : outcome IPRange :=
  '(ip, len) ← TruncateIPAndLength host length;
  Ok {| host_ := ip; length_ := s16 len |}.

Definition IPRange_single (host : IPAddress) : outcome IPRange :=
  if negb (address_family host =? AF_UNSPEC)
  then len ← IPAddressLength host; IPRange_make host len
  else Ok IPRange_default.

(** [operator==]. *)
Definition IPRange_eqb (x y : IPRange) : bool :=
  (length_ x =? length_ y) && IPAddress_eqb (host_ x) (host_ y).

(** The [DCHECK]s recompute the truncation in debug builds only. *)
Definition UnsafeConstruct (host : IPAddress) (length : Z) : outcome IPRange :=
  let r := {| host_ := host; length_ := s16 length |} in
  if NDEBUG then Ok r
  else '(ip, len) ← TruncateIPAndLength host length;
       _ ← CHECK (IPAddress_eqb (host_ r) ip);
       _ ← CHECK (length_ r =? len);
       Ok r.

Definition TruncatedAddressToIPRange (host : IPAddress) (length : Z) : outcome IPRange :=
  IPRange_make host length.

Definition RangeAny4 : outcome IPRange := UnsafeConstruct Any4 0.
Definition RangeAny6 : outcome IPRange := ip ← Any6; UnsafeConstruct ip 0.

Definition IsInitializedRange (r : IPRange) : bool := IsInitializedAddress (host_ r).

Definition network_address (r : IPRange) : outcome IPAddress :=
  match host_ r with
  | kUninitialized => _ ← LOG_DFATAL; Ok kUninitialized
  | _ =>
      _ ← (if NDEBUG then Ok tt
           else ip ← TruncateIPAddress (host_ r) (length_ r);
                CHECK (IPAddress_eqb (host_ r) ip));
      Ok (host_ r)
  end.

Definition broadcast_address (r : IPRange) : outcome IPAddress :=
  match host_ r with
  | kIpv4 _ =>
      if length_ r =? 0 then Ok (HostUInt32ToIPAddress (wnot 32 0))
      else addr32 ← IPAddressToHostUInt32 (host_ r);
           mask ← shl 32 (wnot 32 0) (32 - length_ r);
           Ok (HostUInt32ToIPAddress (Z.lor addr32 (wnot 32 mask)))
  | kIpv6 _ _ =>
      if length_ r =? 0 then UInt128ToIPAddress (wnot 128 0)
      else addr128 ← IPAddressToUInt128 (host_ r);
           mask ← shl 128 (wnot 128 0) (128 - length_ r);
           scope ← scope_id (host_ r);
           MakeIPAddressWithOptionalScopeId (Z.lor addr128 (wnot 128 mask)) scope
  | kUninitialized => _ ← LOG_DFATAL; Ok kUninitialized
  end.

(** [ThreeWayCompare(const IPRange&, const IPRange&)]. *)
Definition ThreeWayCompare_range (lhs rhs : IPRange) : outcome comparison :=
  let li := IsInitializedRange lhs in
  let ri := IsInitializedRange rhs in
  if negb li || negb ri then Ok (Z.b2z li ?= Z.b2z ri)
  else
    _ ← (if NDEBUG then Ok tt
         else ip ← TruncateIPAddress (host_ lhs) (length_ lhs);
              CHECK (IPAddress_eqb (host_ lhs) ip));
    _ ← (if NDEBUG then Ok tt
         else ip ← TruncateIPAddress (host_ rhs) (length_ rhs);
              CHECK (IPAddress_eqb (host_ rhs) ip));
    if negb (IPAddress_eqb (host_ lhs) (host_ rhs))
    then ThreeWayCompare (host_ lhs) (host_ rhs)
    else Ok (length_ lhs ?= length_ rhs).

(** ** Containment *)

Definition IsWithinSubnet (haystack : IPRange) (needle : IPAddress) : outcome bool :=
  if address_family (host_ haystack) =? address_family needle
  then r ← IPRange_make needle (length_ haystack); Ok (IPRange_eqb haystack r)
  else Ok false.

Definition IsProperSubRange (haystack needle : IPRange) : outcome bool :=
  if length_ haystack <? length_ needle then IsWithinSubnet haystack (host_ needle)
  else Ok false.

Definition IPRangesOverlap (r1 r2 : IPRange) : outcome bool :=
  if IPRange_eqb r1 r2 then Ok true
  else b ← IsProperSubRange r1 r2;
       if (b : bool) then Ok true else IsProperSubRange r2 r1.

Definition IsValidRange (r : IPRange) : outcome bool :=
  if negb (IsInitializedAddress (host_ r)) then Ok false
  else max_len ← IPAddressLength (host_ r);
       if (0 <=? length_ r) && (length_ r <=? max_len)
       then t ← IPRange_make (host_ r) (length_ r); Ok (IPRange_eqb r t)
       else Ok false.

Definition IsSingleIPRange (r : IPRange) : outcome bool :=
  v ← IsValidRange r;
  if (v : bool) then len ← IPAddressLength (host_ r); Ok (length_ r =? len) else Ok false.

(** ** Addresses by number *)

(** The shift of a [uint128]; [IPAddressLength - length] outside [0, 128) is
    undefined. *)
Definition IsRangeIndexValid (r : IPRange) (index : Z) : outcome bool :=
  len ← IPAddressLength (host_ r);
  if len - length_ r =? 128 then Ok true
  else len2 ← IPAddressLength (host_ r);
       x ← shr 128 index (len2 - length_ r); Ok (x =? 0).

Definition NthAddressInRange (r : IPRange) (index : Z) : outcome IPAddress :=
  v ← IsRangeIndexValid r index;
  if negb v then _ ← LOG_DFATAL; Ok kUninitialized
  else match host_ r with
  | kIpv4 _ =>
      addr ← IPAddressToHostUInt32 (host_ r);
      Ok (HostUInt32ToIPAddress (u32 (addr + Uint128Low64 index)))
  | kIpv6 _ _ =>
      addr ← IPAddressToUInt128 (host_ r);
      scope ← scope_id (host_ r);
      MakeIPAddressWithOptionalScopeId (u128 (addr + index)) scope
  | kUninitialized => _ ← LOG_DFATAL; Ok kUninitialized
  end.

Definition IndexInRange (r : IPRange) (ip : IPAddress) : outcome Z :=
  v ← IsWithinSubnet r ip;
  if negb v then _ ← LOG_DFATAL; Ok (wnot 128 0)
  else match host_ r with
  | kIpv4 _ =>
      addr ← IPAddressToHostUInt32 (host_ r);
      x ← IPAddressToHostUInt32 ip; Ok (u32 (x - addr))
  | kIpv6 _ _ =>
      addr ← IPAddressToUInt128 (host_ r);
      x ← IPAddressToUInt128 ip; Ok (u128 (x - addr))
  | kUninitialized => _ ← LOG_DFATAL; Ok (wnot 128 0)
  end.

(** [n] is an [absl::int128]; the addition is in [uint32_t] or [uint128].  The
    returned [bool] and the value left in [*result]. *)
Definition IPAddressPlusN (addr : IPAddress) (n : Z) (result : IPAddress)
    : outcome (bool * IPAddress) :=
  if n =? 0 then Ok (true, addr)
  else
    let finish (result : IPAddress) :=
      lt ← IPAddress_ltb addr result; Ok (eqb (n >? 0) lt, result) in
    match addr with
    | kIpv4 _ =>
        let kUint32Max := 2 ^ 32 - 1 in
        if (n >? kUint32Max) || (n <? - kUint32Max) then Ok (false, result)
        else x ← IPAddressToHostUInt32 addr;
             finish (HostUInt32ToIPAddress (u32 (x + s32 n)))
    | kIpv6 _ _ =>
        x ← IPAddressToUInt128 addr;
        scope ← scope_id addr;
        result ← MakeIPAddressWithOptionalScopeId (u128 (x + n)) scope;
        finish result
    | kUninitialized => _ ← LOG_DFATAL; Ok (false, result)
    end.

(** ** Covering an interval *)

(** The inner [for]: [len] from [IPAddressLength - 1] down to 0; [i] iterations
    left. *)
Fixpoint WidenSubnet (i : nat) (cur_addr last_addr : IPAddress) (len : Z) (cur_subnet : IPRange)
    : outcome IPRange :=
  match i with
  | O => Ok cur_subnet
  | S i' =>
      if len >=? 0 then
        candidate_subnet ← IPRange_make cur_addr len;
        if negb (IPAddress_eqb (host_ candidate_subnet) cur_addr) then Ok cur_subnet
        else
          bcast ← broadcast_address candidate_subnet;
          lt ← IPAddress_ltb last_addr bcast;
          if (lt : bool) then Ok cur_subnet
          else WidenSubnet i' cur_addr last_addr (len - 1) candidate_subnet
      else Ok cur_subnet
  end.

(** The outer [for].  [None]: out of fuel. *)
Fixpoint IntervalToSubnets_loop (fuel : nat) (cur_addr last_addr : IPAddress)
    (covering_subnets : list IPRange) : outcome (option (list IPRange)) :=
  match fuel with
  | O => Ok None
  | S fuel' =>
      lt ← IPAddress_ltb last_addr cur_addr;
      if (lt : bool) then Ok (Some covering_subnets)
      else
        cur_subnet ← IPRange_single cur_addr;
        len ← IPAddressLength cur_addr;
        cur_subnet ← WidenSubnet (Z.to_nat len) cur_addr last_addr (len - 1) cur_subnet;
        let covering_subnets := covering_subnets ++ [cur_subnet] in
        last_covered_addr ← broadcast_address cur_subnet;
        '(next, cur_addr) ← IPAddressPlusN last_covered_addr 1 cur_addr;
        if negb next then Ok (Some covering_subnets)
        else IntervalToSubnets_loop fuel' cur_addr last_addr covering_subnets
  end.

(** The subnets written and the returned [bool]. *)
Definition IPAddressIntervalToSubnets (fuel : nat) (first_addr last_addr : IPAddress)
    : outcome (option (list IPRange * bool)) :=
  if negb (address_family first_addr =? address_family last_addr) ||
     (address_family first_addr =? AF_UNSPEC)
  then Ok (Some ([], false))
  else r ← IntervalToSubnets_loop fuel first_addr last_addr [];
       Ok (match r with
           | Some l => Some (l, match l with [] => false | _ => true end)
           | None => None
           end).

(** ** Subtraction *)

(** The two [for] loops, [i] iterations left.  The IPv4 one works on the address
    in network byte order. *)
Fixpoint Subtract4_loop (i : nat) (addr4 flip_mask subnet_mask len range_len : Z)
    (diff : list IPRange) : outcome (list IPRange) :=
  match i with
  | O => Ok diff
  | S i' =>
      if len >? range_len then
        let addr4 := Z.lxor addr4 (ghtonl flip_mask) in
        r ← UnsafeConstruct (IPAddress4 {| s_addr := addr4 |}) len;
        let addr4 := Z.land addr4 (ghtonl subnet_mask) in
        Subtract4_loop i' addr4 (u32 (Z.shiftl flip_mask 1)) (u32 (Z.shiftl subnet_mask 1))
          (len - 1) range_len (diff ++ [r])
      else Ok diff
  end.

Fixpoint Subtract6_loop (i : nat) (addr128 flip_mask subnet_mask len range_len scope : Z)
    (diff : list IPRange) : outcome (list IPRange) :=
  match i with
  | O => Ok diff
  | S i' =>
      if len >? range_len then
        let addr128 := Z.lxor addr128 flip_mask in
        ip ← MakeIPAddressWithOptionalScopeId addr128 scope;
        r ← UnsafeConstruct ip len;
        let addr128 := Z.land addr128 subnet_mask in
        Subtract6_loop i' addr128 (u128 (Z.shiftl flip_mask 1)) (u128 (Z.shiftl subnet_mask 1))
          (len - 1) range_len scope (diff ++ [r])
      else Ok diff
  end.

Definition SubtractIPRange (range sub_range : IPRange) : outcome (option (list IPRange)) :=
  proper ← IsProperSubRange range sub_range;
  if negb proper then Ok None
  else
    _ ← DCHECK (length_ sub_range >=? 1);
    let iters := Z.to_nat (length_ sub_range - length_ range) in
    match host_ sub_range with
    | kIpv4 _ =>
        ip ← network_address sub_range;
        a ← ipv4_address ip;
        flip_mask ← shl 32 1 (32 - length_ sub_range);
        subnet_mask ← shl 32 (wnot 32 1) (32 - length_ sub_range);
        l ← Subtract4_loop iters (s_addr a) flip_mask subnet_mask (length_ sub_range)
              (length_ range) [];
        Ok (Some l)
    | kIpv6 _ _ =>
        ip ← network_address sub_range;
        addr128 ← IPAddressToUInt128 ip;
        flip_mask ← shl 128 1 (128 - length_ sub_range);
        subnet_mask ← shl 128 (wnot 128 1) (128 - length_ sub_range);
        scope ← scope_id (host_ sub_range);
        l ← Subtract6_loop iters addr128 flip_mask subnet_mask (length_ sub_range)
              (length_ range) scope [];
        Ok (Some l)
    | kUninitialized => Crash
    end.

(** ** Netmasks *)

Definition NetMaskToMaskLength (address : IPAddress) : outcome (option Z) :=
  match address with
  | kIpv4 _ =>
      ipv4 ← IPAddressToHostUInt32 address;
      result ← (if negb (ipv4 =? 0) then k ← FindLSBSetNonZero ipv4; Ok (32 - k) else Ok 0);
      if negb (Z.land (wnot 32 ipv4) (u32 (wnot 32 ipv4 + 1)) =? 0) then Ok None
      else Ok (Some result)
  | kIpv6 _ _ =>
      ipv6 ← IPAddressToUInt128 address;
      result ← (if negb (ipv6 =? 0) then k ← FindLSBSetNonZero128 ipv6; Ok (128 - k) else Ok 0);
      if negb (Z.land (wnot 128 ipv6) (u128 (wnot 128 ipv6 + 1)) =? 0) then Ok None
      else Ok (Some result)
  | kUninitialized => Ok None
  end.

Definition MaskLengthToIPAddress (family length : Z) : outcome (option IPAddress) :=
  if family =? AF_INET then
    if (length <? 0) || (length >? 32) then Ok None
    else (* 0xffffffffLL << (32 - length), as a uint32_t *)
      Ok (Some (HostUInt32ToIPAddress (u32 (Z.shiftl 0xffffffff (32 - length)))))
  else if family =? AF_INET6 then
    if (length <? 0) || (length >? 128) then Ok None
    else
      mask ← (if length =? 0 then Ok 0 else shl 128 (wnot 128 0) (128 - length));
      ip ← UInt128ToIPAddress mask; Ok (Some ip)
  else Ok None.

(** ** Packed strings *)

Definition kPackedIPRangeIPv4LengthOffset : Z := 200.

(** [while (len > 0 && packed_host.at(len - 1) == 0) --len;]; [std::string::at]
    throws when out of range. *)
Fixpoint trim_zeros (packed_host : list Z) (len : nat) : outcome nat :=
  match len with
  | O => Ok O
  | S len' =>
      match packed_host !! len' with
      | None => Crash
      | Some b => if b =? 0 then trim_zeros packed_host len' else Ok len
      end
  end.

Definition ToPackedString_range (r : IPRange) : outcome (list Z) :=
  match host_ r with
  | kUninitialized => _ ← LOG_DFATAL; Ok []
  | _ =>
      packed_host ← ToPackedString (host_ r);
      let packed_host_len := u8 (Z.quot (length_ r + 7) 8) in
      packed_host_len ← trim_zeros packed_host (Z.to_nat packed_host_len);
      let header := u8 (length_ r) in
      let header := if is_ipv4 (host_ r) then u8 (header + kPackedIPRangeIPv4LengthOffset)
                    else header in
      Ok (header :: take packed_host_len packed_host)
  end.

Definition PackedStringToIPAddressOrDie (str : list Z) : outcome IPAddress :=
  r ← PackedStringToIPAddress str;
  match r with Some ip => Ok ip | None => Crash end.

Definition PackedStringToIPRange (str : list Z) : outcome (option IPRange) :=
  match str with
  | [] => Ok None
  | header :: rest =>
      let available_host_bytes := zlen rest in
      let parsed :=
        if (0 <=? header) && (header <=? kMaxNetmaskIPv6) then Some (header, 16)
        else if (kPackedIPRangeIPv4LengthOffset <=? header) &&
                (header <=? kMaxNetmaskIPv4 + kPackedIPRangeIPv4LengthOffset)
        then Some (header - kPackedIPRangeIPv4LengthOffset, 4)
        else None in
      match parsed with
      | None => Ok None
      | Some (prefix_len, sizeof_addr) =>
          if available_host_bytes >? sizeof_addr then Ok None
          else
            let packed_host := rest ++ replicate (Z.to_nat (sizeof_addr - available_host_bytes)) 0 in
            host ← PackedStringToIPAddressOrDie packed_host;
            truncated ← IPRange_make host prefix_len;
            if negb (IPAddress_eqb (host_ truncated) host) then Ok None
            else Ok (Some truncated)
      end
  end.

End IPRange.
