(* ===== verification/IPRangeProps.v ===== *)
(** * IP ranges as intervals of numbers

    The range functions of ipaddress.{h,cc} on the numeric view: a range of
    prefix length [len] over [w]-bit addresses is the aligned block
    [[n, n + 2^(w-len) - 1]].  Validity of constructed ranges, [IsWithinSubnet] as
    interval membership, [NthAddressInRange] and [IndexInRange], [IPAddressPlusN], and
    the order of ranges. *)
From Stdlib Require Import ZArith Lia.
From stdpp Require Import base list numbers option.
From S2P Require Import Prelude.
From S2P Require Import Endian.
From S2P Require Import Bits.
From S2P Require Import IPAddr.
From S2P Require Import IPOrder.
From S2P Require Import IPRange.
Local Open Scope Z_scope.

(** ** Blocks *)

(** The first number of the block of [n]. *)
Definition trunc (w len n : Z) : Z := n / 2 ^ (w - len) * 2 ^ (w - len).
Definition blast (w len n : Z) : Z := n + 2 ^ (w - len) - 1.

Lemma trunc_range w len n : 0 <= len <= w -> 0 <= n < 2 ^ w -> 0 <= trunc w len n <= n.
Proof.
  intros Hl Hn. unfold trunc. pose proof (pow2_pos (w - len)).
  pose proof (Z.div_mod n (2 ^ (w - len))). pose proof (Z.mod_pos_bound n (2 ^ (w - len))).
  pose proof (Z.div_pos n (2 ^ (w - len))). nia.
Qed.

Lemma trunc_mod w len n : 0 <= len <= w -> trunc w len n mod 2 ^ (w - len) = 0.
Proof. intros. apply Z.mod_mul. pose proof (pow2_pos (w - len)). lia. Qed.

Lemma trunc_id w len n : 0 <= len <= w -> n mod 2 ^ (w - len) = 0 -> trunc w len n = n.
Proof.
  intros Hl E. unfold trunc. pose proof (pow2_pos (w - len)).
  pose proof (Z.div_mod n (2 ^ (w - len))). lia.
Qed.

Lemma trunc_full w n : trunc w w n = n.
Proof. unfold trunc. rewrite Z.sub_diag, Z.pow_0_r, Z.div_1_r. lia. Qed.

Lemma trunc_0 w n : 0 <= w -> 0 <= n < 2 ^ w -> trunc w 0 n = 0.
Proof. intros. unfold trunc. rewrite Z.sub_0_r, Z.div_small by lia. lia. Qed.

(** Membership of a block, by truncation and by bounds. *)
Lemma trunc_block w len n m : 0 <= len <= w -> n mod 2 ^ (w - len) = 0 ->
  (trunc w len m = n <-> n <= m <= blast w len n).
Proof.
  intros Hl E. unfold trunc, blast. pose proof (pow2_pos (w - len) ltac:(lia)) as P.
  pose proof (Z.div_mod m (2 ^ (w - len)) ltac:(lia)). pose proof (Z.mod_pos_bound m (2 ^ (w - len)) P).
  pose proof (Z.div_mod n (2 ^ (w - len)) ltac:(lia)) as En. rewrite E, Z.add_0_r in En.
  split; [lia|]. intros Hm.
  assert (m / 2 ^ (w - len) = n / 2 ^ (w - len)) as ->; [|lia].
  symmetry. apply Z.div_unique with (m - n); lia.
Qed.

Lemma blast_range w len n : 0 <= len <= w -> 0 <= n < 2 ^ w -> n mod 2 ^ (w - len) = 0 ->
  n <= blast w len n < 2 ^ w.
Proof.
  intros Hl Hn E. unfold blast. pose proof (pow2_pos (w - len) ltac:(lia)) as P.
  split; [lia|]. pose proof (Z.div_mod n (2 ^ (w - len)) ltac:(lia)) as En.
  rewrite E, Z.add_0_r in En. rewrite (pow2_split (w - len) w) in Hn |- * by lia.
  assert (n / 2 ^ (w - len) < 2 ^ (w - (w - len))) by (apply Z.div_lt_upper_bound; lia). nia.
Qed.

(** ** The masks of the code *)

Lemma shl_ones w k : 0 <= k < w -> shl w (wnot w 0) k = Ok (2 ^ w - 2 ^ k).
Proof.
  intros Hk. rewrite shl_eq by done. f_equal. unfold wnot. rewrite Z.shiftl_mul_pow2, Z.sub_0_r by lia.
  pose proof (pow2_pos k). assert (2 ^ k < 2 ^ w) by (apply Z.pow_lt_mono_r; lia).
  symmetry. apply Z.mod_unique with (2 ^ k - 1); lia.
Qed.

Lemma land_high_mask w k x : 0 <= k < w -> 0 <= x < 2 ^ w ->
  Z.land x (2 ^ w - 2 ^ k) = x / 2 ^ k * 2 ^ k.
Proof.
  intros Hk Hx. rewrite <- (land_mask x w k) by lia. f_equal.
  pose proof (shl_ones w k Hk) as E. rewrite shl_eq in E by done. injection E as E.
  unfold wnot in E. rewrite Z.shiftl_mul_pow2, Z.sub_0_r in E by lia. by rewrite E.
Qed.

(** ** Addresses *)

Definition awidth (a : addr) : Z := match a with Addr4 _ => 32 | Addr6 _ _ => 128 | NoAddr => 0 end.
Definition anum (a : addr) : Z := match a with Addr4 n => n | Addr6 n _ => n | NoAddr => 0 end.
Definition ascope (a : addr) : Z := match a with Addr6 _ s => s | _ => 0 end.
(** The address of the same family and scope with another number. *)
Definition awith (a : addr) (m : Z) : addr :=
  match a with
  | NoAddr => NoAddr
  | Addr4 _ => Addr4 m
  | Addr6 _ s => Addr6 m (keep_scope m s)
  end.
Definition atrunc (a : addr) (len : Z) : addr := awith a (trunc (awidth a) len (anum a)).
Definition abcast (a : addr) (len : Z) : addr := awith a (blast (awidth a) len (anum a)).

Lemma anum_range a : addr_ok a -> 0 <= anum a < 2 ^ awidth a.
Proof. destruct a; cbn; [lia|done|by intros (? & _)]. Qed.

Lemma keep_scope_id n s : addr6_ok n s -> keep_scope n s = s.
Proof.
  intros (_ & _ & Hs). unfold keep_scope. destruct (scopable n) eqn:E; [done|].
  destruct (Z.eqb_spec s 0) as [->|Hs0]; [done|]. discriminate (Hs Hs0).
Qed.

Lemma awith_ok a m : addr_ok a -> 0 <= m < 2 ^ awidth a -> addr_ok (awith a m).
Proof.
  destruct a as [|n|n s]; cbn; [done|done|]. intros (_ & Hs & _) Hm. by apply keep_scope_ok.
Qed.

Lemma awith_id a : addr_ok a -> awith a (anum a) = a.
Proof. destruct a as [|n|n s]; cbn; [done|done|]. intros. by rewrite keep_scope_id. Qed.

Lemma awidth_awith a m : awidth (awith a m) = awidth a.
Proof. by destruct a. Qed.
Lemma anum_awith a m : a <> NoAddr -> anum (awith a m) = m.
Proof. by destruct a. Qed.

Lemma keep_scope_0 n : keep_scope n 0 = 0.
Proof. unfold keep_scope. by destruct (scopable n). Qed.

Lemma ascope_awith_0 a m : ascope a = 0 -> ascope (awith a m) = 0.
Proof. destruct a; cbn; [done|done|]. intros ->. apply keep_scope_0. Qed.

Lemma awidth_cases a : a <> NoAddr -> awidth a = 32 \/ awidth a = 128.
Proof. destruct a; cbn; auto. done. Qed.

Section range_spec.
Context `{BuildMode}.

Lemma TruncateIPAndLength_repr a len : addr_ok a -> a <> NoAddr -> 0 <= len ->
  TruncateIPAndLength (repr a) len =
  Ok (repr (atrunc a (Z.min len (awidth a))), Z.min len (awidth a)).
Proof.
  intros Ha Hne Hlen. unfold atrunc.
  destruct a as [|n|n s]; [done|..]; unfold TruncateIPAndLength; cbn [repr awidth anum awith].
  - unfold repr4 at 1. unfold kMaxNetmaskIPv4. cbn [addr_ok] in Ha. unfold addr4_ok in Ha.
    rewrite Z.geb_leb, Z.gtb_ltb. destruct (Z.leb_spec 32 len).
    { rewrite Z.min_r by lia. by rewrite trunc_full. }
    rewrite Z.min_l by lia. destruct (Z.ltb_spec 0 len).
    + change (kIpv4 {| s_addr := byteswap 4 n |}) with (repr4 n).
      rewrite IPAddressToHostUInt32_repr4, bind_Ok, shl_ones, bind_Ok by (done || lia).
      by rewrite land_high_mask by lia.
    + assert (len = 0) as -> by lia. rewrite Z.eqb_refl. by rewrite trunc_0 by lia.
  - change (repr6 n s) with (kIpv6 (in6 (n + s * 2 ^ 64)) (negb (s =? 0))) at 1. cbv iota beta.
    pose proof Ha as (Hn & Hs & Hsc). unfold kMaxNetmaskIPv6.
    rewrite Z.geb_leb, Z.gtb_ltb. destruct (Z.leb_spec 128 len).
    { rewrite Z.min_r by lia. by rewrite trunc_full, keep_scope_id. }
    rewrite Z.min_l by lia. destruct (Z.ltb_spec 0 len).
    + rewrite IPAddressToUInt128_repr6, bind_Ok, shl_ones, bind_Ok by (done || lia).
      rewrite scope_id_repr6, bind_Ok, land_high_mask by (done || lia).
      pose proof (trunc_range 128 len n ltac:(lia) Hn). unfold trunc in *.
      by rewrite MakeIPAddressWithOptionalScopeId_repr by lia.
    + assert (len = 0) as -> by lia. rewrite Z.eqb_refl, Any6_repr, bind_Ok. rewrite trunc_0 by lia.
      done.
Qed.

Lemma s16_small x : - 2 ^ 15 <= x < 2 ^ 15 -> s16 x = x.
Proof. intros. unfold s16, swrap. change (2 ^ (16 - 1)) with (2 ^ 15). zlia. Qed.

(** The range object of an address and a length. *)
Definition mk_range (a : addr) (len : Z) : IPRange := {| host_ := repr a; length_ := len |}.

Lemma IPRange_make_repr a len : addr_ok a -> a <> NoAddr -> 0 <= len ->
  IPRange_make (repr a) len =
  Ok (mk_range (atrunc a (Z.min len (awidth a))) (Z.min len (awidth a))).
Proof.
  intros Ha Hne Hlen. unfold IPRange_make. rewrite TruncateIPAndLength_repr, bind_Ok by done.
  unfold mk_range. rewrite s16_small; [done|]. destruct (awidth_cases a Hne) as [-> | ->]; lia.
Qed.

(** A well-formed range. *)
Definition arange_ok (a : addr) (len : Z) : Prop :=
  a <> NoAddr /\ addr_ok a /\ 0 <= len <= awidth a /\ anum a mod 2 ^ (awidth a - len) = 0.

Lemma arange_trunc a len : arange_ok a len -> atrunc a len = a.
Proof.
  intros (_ & Ha & Hl & E). unfold atrunc. rewrite trunc_id by done. by apply awith_id.
Qed.

Lemma atrunc_ok a len : addr_ok a -> a <> NoAddr -> 0 <= len <= awidth a ->
  arange_ok (atrunc a len) len.
Proof.
  intros Ha Hne Hl. unfold atrunc. pose proof (anum_range a Ha) as Hr.
  pose proof (trunc_range (awidth a) len (anum a) Hl Hr).
  split; [by destruct a|]. split; [apply awith_ok; [done|lia]|].
  rewrite awidth_awith, anum_awith by done. split; [done|]. by apply trunc_mod.
Qed.

Lemma IPRange_make_arange a len : arange_ok a len ->
  IPRange_make (repr a) len = Ok (mk_range a len).
Proof.
  intros Hok. pose proof Hok as (Hne & Ha & Hl & _). rewrite IPRange_make_repr by (done || lia).
  rewrite Z.min_l by lia. by rewrite arange_trunc.
Qed.

Lemma TruncateIPAddress_repr a len : addr_ok a -> a <> NoAddr -> 0 <= len ->
  TruncateIPAddress (repr a) len = Ok (repr (atrunc a (Z.min len (awidth a)))).
Proof.
  intros Ha Hne Hl. unfold TruncateIPAddress.
  replace (IsInitializedAddress (repr a)) with true by (by destruct a).
  cbn [negb]. by rewrite bind_Ok, TruncateIPAndLength_repr.
Qed.

Lemma IPAddress_eqb_refl a : addr_ok a -> IPAddress_eqb (repr a) (repr a) = true.
Proof. intros. rewrite IPAddress_eqb_repr by done. by apply bool_decide_eq_true. Qed.

Lemma UnsafeConstruct_repr a len : arange_ok a len ->
  UnsafeConstruct (repr a) len = Ok (mk_range a len).
Proof.
  intros Hok. pose proof Hok as (Hne & Ha & Hl & _). unfold UnsafeConstruct, mk_range.
  assert (s16 len = len) as -> by (apply s16_small; destruct (awidth_cases a Hne); lia).
  destruct NDEBUG; [done|]. rewrite TruncateIPAndLength_repr, bind_Ok by (done || lia).
  rewrite Z.min_l, arange_trunc by (done || lia). cbn [host_ length_].
  by rewrite IPAddress_eqb_refl, Z.eqb_refl by done.
Qed.

Lemma network_address_repr a len : arange_ok a len -> network_address (mk_range a len) = Ok (repr a).
Proof.
  intros Hok. pose proof Hok as (Hne & Ha & Hl & _). unfold network_address. cbn [mk_range host_ length_].
  rewrite TruncateIPAddress_repr, Z.min_l, arange_trunc by (done || lia).
  rewrite bind_Ok, IPAddress_eqb_refl by done.
  destruct a; [done|..]; cbn [repr repr4 repr6]; by destruct NDEBUG.
Qed.

Lemma blast_mask w len n : 0 < len <= w -> 0 <= n < 2 ^ w -> n mod 2 ^ (w - len) = 0 ->
  Z.lor n (wnot w (2 ^ w - 2 ^ (w - len))) = blast w len n.
Proof.
  intros Hl Hn E. unfold wnot, blast.
  replace (2 ^ w - 1 - (2 ^ w - 2 ^ (w - len))) with (2 ^ (w - len) - 1) by lia.
  apply lor_low_ones; [lia|done].
Qed.

Lemma broadcast_address_repr a len : arange_ok a len ->
  broadcast_address (mk_range a len) = Ok (repr (abcast a len)).
Proof.
  intros (Hne & Ha & Hl & E). unfold abcast.
  pose proof (blast_range _ _ _ Hl (anum_range a Ha) E) as Hb.
  destruct a as [|n|n s]; [done|..]; unfold broadcast_address;
    cbn [mk_range host_ length_ repr awidth anum awith] in *.
  - unfold repr4 at 1. destruct (Z.eqb_spec len 0) as [->|].
    { rewrite Z.sub_0_r in E. rewrite Z.mod_small in E by apply Ha. by subst n. }
    change (kIpv4 {| s_addr := byteswap 4 n |}) with (repr4 n).
    rewrite IPAddressToHostUInt32_repr4, bind_Ok, shl_ones, bind_Ok by (done || lia).
    by rewrite blast_mask by (done || lia).
  - change (repr6 n s) with (kIpv6 (in6 (n + s * 2 ^ 64)) (negb (s =? 0))) at 1. cbv iota beta.
    pose proof Ha as (Hn & Hs & Hsc). destruct (Z.eqb_spec len 0) as [->|].
    { rewrite Z.sub_0_r, Z.mod_small in E by done. subst n. by rewrite UInt128ToIPAddress_repr. }
    rewrite IPAddressToUInt128_repr6, bind_Ok, shl_ones, bind_Ok by (done || lia).
    rewrite scope_id_repr6, bind_Ok, blast_mask by (done || lia).
    by rewrite MakeIPAddressWithOptionalScopeId_repr by lia.
Qed.
End range_spec.

(** An initialized, well-formed range object. *)
Definition range_ok (r : IPRange) : Prop := exists a len, arange_ok a len /\ r = mk_range a len.

Section props.
Context `{BuildMode}.

Lemma mk_range_eqb a len b len' : addr_ok a -> addr_ok b ->
  IPRange_eqb (mk_range a len) (mk_range b len') = (len =? len') && bool_decide (a = b).
Proof. intros. unfold IPRange_eqb. cbn [mk_range host_ length_]. by rewrite IPAddress_eqb_repr. Qed.

Lemma address_family_eqb a b : addr_ok a -> addr_ok b ->
  (address_family (repr a) =? address_family (repr b)) = bool_decide (awidth a = awidth b).
Proof. intros _ _. destruct a, b; reflexivity. Qed.

Lemma awidth_not_none a b : a <> NoAddr -> awidth a = awidth b -> b <> NoAddr.
Proof. destruct a, b; cbn; try done; lia. Qed.

Lemma IsWithinSubnet_repr a len b : arange_ok a len -> addr_ok b ->
  IsWithinSubnet (mk_range a len) (repr b) =
  Ok (bool_decide (awidth a = awidth b /\ atrunc b len = a)).
Proof.
  intros Hok Hb. pose proof Hok as (Hne & Ha & Hl & _). unfold IsWithinSubnet.
  cbn [mk_range host_ length_]. rewrite address_family_eqb by done.
  destruct (bool_decide_reflect (awidth a = awidth b)) as [E|E].
  - pose proof (awidth_not_none a b Hne E) as Hnb.
    rewrite IPRange_make_repr, bind_Ok, <- E, Z.min_l by (done || lia).
    change {| host_ := repr a; length_ := len |} with (mk_range a len).
    pose proof (atrunc_ok b len Hb Hnb ltac:(lia)) as (_ & Ht & _).
    rewrite mk_range_eqb, Z.eqb_refl by done. cbn [andb]. f_equal. apply bool_decide_ext.
    split; [intros ->; done|by intros [_ ->]].
  - by rewrite bool_decide_eq_false_2 by tauto.
Qed.

Lemma addr_num_ext a b : addr_ok a -> addr_ok b -> a <> NoAddr -> awidth a = awidth b ->
  anum a = anum b -> ascope a = ascope b -> a = b.
Proof. destruct a as [|n|n s], b as [|m|m t]; cbn; try done; congruence. Qed.

Lemma addr_ltb_num a b : a <> NoAddr -> awidth a = awidth b -> ascope a = 0 -> ascope b = 0 ->
  addr_compare a b = (anum a ?= anum b).
Proof.
  destruct a as [|n|n s], b as [|m|m t]; cbn; try done. intros _ _ -> ->. by destruct (n ?= m).
Qed.

(** Membership of an unscoped range is membership of its block. *)
Lemma within_block a len b : arange_ok a len -> addr_ok b -> awidth a = awidth b ->
  ascope a = 0 -> ascope b = 0 ->
  (atrunc b len = a <-> anum a <= anum b <= blast (awidth a) len (anum a)).
Proof.
  intros (Hne & Ha & Hl & E) Hb Ew Hsa Hsb.
  rewrite <- (trunc_block (awidth a) len (anum a)) by done. rewrite Ew.
  pose proof (awidth_not_none a b Hne Ew) as Hnb. unfold atrunc. split.
  - intros Et. rewrite <- Et. by rewrite anum_awith.
  - intros Et. apply addr_num_ext; rewrite ?awidth_awith, ?anum_awith; try done.
    + apply awith_ok; [done|]. rewrite Et. pose proof (anum_range a Ha). rewrite <- Ew. lia.
    + by destruct b.
    + rewrite ascope_awith_0; [done|done].
Qed.

Lemma has_scope_repr a : has_scope (repr a) = negb (ascope a =? 0).
Proof. by destruct a. Qed.

Lemma unscoped a : has_scope (repr a) = false -> ascope a = 0.
Proof. rewrite has_scope_repr, negb_false_iff, Z.eqb_eq. done. Qed.

(** ** Addresses by number *)

Lemma IPAddressLength_repr a : a <> NoAddr -> IPAddressLength (repr a) = Ok (awidth a).
Proof. by destruct a. Qed.

Lemma IsRangeIndexValid_repr a len i : arange_ok a len -> 0 <= i < 2 ^ 128 ->
  IsRangeIndexValid (mk_range a len) i = Ok (i <? 2 ^ (awidth a - len)).
Proof.
  intros (Hne & Ha & Hl & _) Hi. unfold IsRangeIndexValid. cbn [mk_range host_ length_].
  rewrite IPAddressLength_repr, bind_Ok by done. destruct (Z.eqb_spec (awidth a - len) 128) as [->|Hw].
  { by rewrite (proj2 (Z.ltb_lt i (2 ^ 128))) by lia. }
  assert (0 <= awidth a - len < 128) by (destruct (awidth_cases a Hne); lia).
  rewrite bind_Ok, shr_eq, bind_Ok, Z.shiftr_div_pow2 by lia. f_equal.
  pose proof (pow2_pos (awidth a - len)).
  destruct (Z.ltb_spec i (2 ^ (awidth a - len))).
  - by rewrite Z.div_small by lia.
  - apply Z.eqb_neq. pose proof (Z.div_le_lower_bound i (2 ^ (awidth a - len)) 1). lia.
Qed.

Lemma block_in_width a len i : arange_ok a len -> 0 <= i < 2 ^ (awidth a - len) ->
  0 <= anum a + i < 2 ^ awidth a.
Proof.
  intros (_ & Ha & Hl & E) Hi. pose proof (anum_range a Ha) as Hr.
  pose proof (blast_range _ _ _ Hl Hr E). unfold blast in *. lia.
Qed.

Lemma NthAddressInRange_repr a len i : arange_ok a len -> 0 <= i < 2 ^ (awidth a - len) ->
  NthAddressInRange (mk_range a len) i = Ok (repr (awith a (anum a + i))).
Proof.
  intros Hok Hi. pose proof (block_in_width a len i Hok Hi) as Hb.
  pose proof Hok as (Hne & Ha & Hl & E). pose proof (anum_range a Ha) as Hr.
  assert (i < 2 ^ 128) as Hi2.
  { destruct (awidth_cases a Hne) as [Ew|Ew]; rewrite Ew in *; lia. }
  unfold NthAddressInRange. rewrite IsRangeIndexValid_repr, bind_Ok by (done || lia).
  rewrite (proj2 (Z.ltb_lt i _)) by lia. cbn [negb mk_range host_].
  destruct a as [|n|n s]; [done|..]; cbn [repr awith anum awidth] in *.
  - unfold repr4 at 1. cbv iota. rewrite IPAddressToHostUInt32_repr4, bind_Ok by done.
    rewrite HostUInt32ToIPAddress_repr. unfold Uint128Low64, u32.
    by rewrite (Z.mod_small i (2 ^ 64)), Z.mod_small by lia.
  - unfold repr6 at 1. cbv iota. rewrite IPAddressToUInt128_repr6, bind_Ok by done.
    rewrite scope_id_repr6, bind_Ok by done. unfold u128. rewrite Z.mod_small by lia.
    destruct Ha as (_ & Hs & _). by rewrite MakeIPAddressWithOptionalScopeId_repr.
Qed.

Lemma IndexInRange_repr a len b : arange_ok a len -> addr_ok b ->
  awidth a = awidth b -> atrunc b len = a ->
  IndexInRange (mk_range a len) (repr b) = Ok (anum b - anum a).
Proof.
  intros Hok Hb Ew Et. unfold IndexInRange. rewrite IsWithinSubnet_repr, bind_Ok by done.
  rewrite bool_decide_eq_true_2 by done. cbn [negb mk_range host_].
  pose proof Hok as (Hne & Ha & Hl & _).
  pose proof (trunc_range (awidth b) len (anum b) ltac:(lia) (anum_range b Hb)) as Ht.
  assert (anum a = trunc (awidth b) len (anum b)) as En.
  { rewrite <- Et at 1. unfold atrunc. apply anum_awith. by apply (awidth_not_none a). }
  pose proof (anum_range b Hb) as Hr.
  destruct a as [|n|n s], b as [|m|m t]; try done; cbn [repr awith anum awidth] in *.
  - unfold repr4 at 1. cbv iota. rewrite !IPAddressToHostUInt32_repr4, !bind_Ok by done. unfold u32. by rewrite Z.mod_small by lia.
  - unfold repr6 at 1. cbv iota. rewrite !IPAddressToUInt128_repr6, !bind_Ok by done. unfold u128. by rewrite Z.mod_small by lia.
Qed.

(** Adding a nonzero [n] modulo [2^w] moves the number, and moves it in the
    direction of [n] exactly when it does not wrap. *)
Lemma wrap_cases w x n : 0 <= w -> 0 <= x < 2 ^ w -> - 2 ^ w < n < 2 ^ w ->
  exists c, (x + n) mod 2 ^ w = x + n - c * 2 ^ w /\ (c = -1 \/ c = 0 \/ c = 1) /\
    0 <= x + n - c * 2 ^ w < 2 ^ w.
Proof.
  intros Hw Hx Hn. pose proof (pow2_pos w Hw).
  pose proof (Z.div_mod (x + n) (2 ^ w) ltac:(lia)). pose proof (Z.mod_pos_bound (x + n) (2 ^ w) ltac:(lia)).
  exists ((x + n) / 2 ^ w). split; [lia|]. split; [|lia].
  assert (- 2 < (x + n) / 2 ^ w < 2) by nia. lia.
Qed.

Lemma wrap_differs w x n : 0 <= w -> 0 <= x < 2 ^ w -> - 2 ^ w < n < 2 ^ w -> n <> 0 ->
  x <> (x + n) mod 2 ^ w.
Proof. intros Hw Hx Hn Hn0. destruct (wrap_cases w x n Hw Hx Hn) as (c & -> & [-> | [-> | ->]] & ?); lia. Qed.

Lemma wrap_crosses w x n : 0 <= w -> 0 <= x < 2 ^ w -> - 2 ^ w < n < 2 ^ w -> n <> 0 ->
  eqb (n >? 0) (x <? (x + n) mod 2 ^ w) = bool_decide (0 <= x + n < 2 ^ w).
Proof.
  intros Hw Hx Hn Hn0. pose proof (wrap_differs w x n Hw Hx Hn Hn0) as Hd.
  destruct (wrap_cases w x n Hw Hx Hn) as (c & E & Hc & Hb). rewrite E in *. rewrite Z.gtb_ltb.
  destruct (Z.ltb_spec 0 n), (Z.ltb_spec x (x + n - c * 2 ^ w)), Hc as [-> | [-> | ->]]; cbn [eqb]; symmetry;
    (apply bool_decide_eq_true_2; lia) || (apply bool_decide_eq_false_2; lia).
Qed.

Lemma IPAddressPlusN_repr a n res : addr_ok a -> a <> NoAddr -> - 2 ^ 127 <= n < 2 ^ 127 ->
  exists r, IPAddressPlusN (repr a) n res =
    Ok (bool_decide (0 <= anum a + n < 2 ^ awidth a), r) /\
    (0 <= anum a + n < 2 ^ awidth a -> r = repr (awith a (anum a + n))).
Proof.
  intros Ha Hne Hn. pose proof (anum_range a Ha) as Hr. unfold IPAddressPlusN.
  destruct (Z.eqb_spec n 0) as [->|Hn0].
  { exists (repr a). rewrite Z.add_0_r, bool_decide_eq_true_2 by done. split; [done|].
    intros _. by rewrite awith_id. }
  destruct a as [|x|x s]; [done|..]; cbn [repr awidth anum awith] in *.
  - unfold repr4 at 1. cbv iota. rewrite Z.gtb_ltb.
    destruct (Z.ltb_spec (2 ^ 32 - 1) n); cbn [orb].
    { exists res. rewrite bool_decide_eq_false_2 by lia. split; [done|lia]. }
    destruct (Z.ltb_spec n (- (2 ^ 32 - 1))).
    { exists res. rewrite bool_decide_eq_false_2 by lia. split; [done|lia]. }
    rewrite IPAddressToHostUInt32_repr4, bind_Ok, HostUInt32ToIPAddress_repr by done.
    assert (u32 (x + s32 n) = (x + n) mod 2 ^ 32) as ->.
    { unfold u32, s32, swrap. zlia. }
    pose proof (Z.mod_pos_bound (x + n) (2 ^ 32) ltac:(lia)) as Hm.
    pose proof (IPAddress_ltb_repr (Addr4 x) (Addr4 ((x + n) mod 2 ^ 32)) Ha Hm) as L.
    cbn [repr] in L. rewrite L, bind_Ok.
    exists (repr4 ((x + n) mod 2 ^ 32)). split; [|intros; by rewrite Z.mod_small].
    do 2 f_equal. rewrite <- (wrap_crosses 32) by lia. done.
  - unfold repr6 at 1. cbv iota. pose proof Ha as (_ & Hs & _).
    pose proof (Z.mod_pos_bound (x + n) (2 ^ 128) ltac:(lia)) as Hm. unfold u128.
    rewrite IPAddressToUInt128_repr6, bind_Ok, scope_id_repr6, bind_Ok by done.
    rewrite MakeIPAddressWithOptionalScopeId_repr, bind_Ok by done.
    pose proof (IPAddress_ltb_repr (Addr6 x s) (Addr6 ((x + n) mod 2 ^ 128) (keep_scope ((x + n) mod 2 ^ 128) s))
      Ha (keep_scope_ok _ _ Hm Hs)) as L.
    cbn [repr] in L. rewrite L, bind_Ok.
    exists (repr6 ((x + n) mod 2 ^ 128) (keep_scope ((x + n) mod 2 ^ 128) s)).
    split; [|intros; by rewrite Z.mod_small].
    do 2 f_equal. rewrite <- (wrap_crosses 128) by lia. f_equal. unfold addr_ltb. cbn [addr_compare].
    pose proof (wrap_differs 128 x n). unfold Z.ltb.
    destruct (Z.compare_spec x ((x + n) mod 2 ^ 128)); [lia|done..].
Qed.
End props.

(** C3. A range built from any initialized address and any nonnegative length is
    valid: it has the length asked for, capped by the width of the family; the
    number of its network address is the number of the address with all bits
    after that length cleared, and it keeps the family and, where the cleared
    number is in fe80::/64 or ff02::/64, the scope id; the range contains the
    address it was built from, rebuilding it changes nothing, and [IsValidRange]
    accepts it. *)
Theorem IPRange_invariant `{BuildMode} ip len : ip_ok ip -> IsInitializedAddress ip = true ->
  0 <= len ->
  exists r, IPRange_make ip len = Ok r /\ range_ok r /\ IsValidRange r = Ok true /\
    length_ r = Z.min len (if is_ipv4 ip then 32 else 128) /\
    (forall n, is_ipv4 ip = true -> IPAddressToHostUInt32 ip = Ok n ->
       IPAddressToHostUInt32 (host_ r) = Ok (n / 2 ^ (32 - length_ r) * 2 ^ (32 - length_ r))) /\
    (forall n scope, is_ipv6 ip = true -> IPAddressToUInt128 ip = Ok n -> scope_id ip = Ok scope ->
       let net := n / 2 ^ (128 - length_ r) * 2 ^ (128 - length_ r) in
       IPAddressToUInt128 (host_ r) = Ok net /\
       scope_id (host_ r) = Ok (if scopable net then scope else 0)) /\
    IsWithinSubnet r ip = Ok true /\ IPRange_make (host_ r) (length_ r) = Ok r.
Proof.
  intros Hip Hinit Hlen. apply repr_surj in Hip as (a & Ha & ->).
  assert (a <> NoAddr) as Hne by (by destruct a).
  assert (0 <= Z.min len (awidth a) <= awidth a) as Hm by (destruct (awidth_cases a Hne); lia).
  pose proof (atrunc_ok a _ Ha Hne Hm) as Hok. rewrite IPRange_make_repr by done.
  eexists. split; [done|]. split; [by eexists _, _|].
  assert (awidth (atrunc a (Z.min len (awidth a))) = awidth a) as Ew by apply awidth_awith.
  split; [|split; [|split; [|split; [|split]]]].
  - unfold IsValidRange. cbn [mk_range host_ length_].
    replace (IsInitializedAddress _) with true by (by destruct a). cbn [negb].
    assert (IPAddressLength (repr (atrunc a (Z.min len (awidth a)))) = Ok (awidth a)) as ->
      by (by destruct a).
    rewrite bind_Ok. repeat decide_test. cbn [andb].
    rewrite IPRange_make_arange, bind_Ok by done.
    change {| host_ := _; length_ := _ |} with (mk_range (atrunc a (Z.min len (awidth a))) (Z.min len (awidth a))).
    rewrite mk_range_eqb, Z.eqb_refl by apply Hok. by rewrite bool_decide_eq_true_2.
  - by destruct a.
  - intros n. destruct a as [|m|m t]; [done| |done]. cbn [repr awidth] in *.
    rewrite IPAddressToHostUInt32_repr4 by done. intros _ [= <-].
    cbn [mk_range host_ length_ atrunc awith awidth anum repr].
    rewrite IPAddressToHostUInt32_repr4; [done|]. by apply Hok.
  - intros n u. destruct a as [|m|m t]; [done|done|]. cbn [repr awidth] in *.
    rewrite IPAddressToUInt128_repr6, scope_id_repr6 by done. intros _ [= <-] [= <-].
    destruct Hok as (_ & Ho & _). cbn [mk_range host_ length_ atrunc awith awidth anum repr addr_ok] in *.
    by rewrite IPAddressToUInt128_repr6, scope_id_repr6 by done.
  - rewrite IsWithinSubnet_repr by done. by rewrite bool_decide_eq_true_2.
  - cbn [mk_range host_ length_]. by apply IPRange_make_arange.
Qed.

Lemma IPRange_invariant_witness :
  exists r, IPRange_make (H := debug_build) (repr4 0xC0A80102) 16 = Ok r /\
    IsValidRange (H := debug_build) r = Ok true.
Proof.
  destruct (@IPRange_invariant debug_build (repr4 0xC0A80102) 16) as (r & E & _ & V & _);
    [apply (repr_ok (Addr4 0xC0A80102)); split; by vm_compute | reflexivity | by vm_compute |].
  exists r. split; [exact E|exact V].
Defined.

(** [IsWithinSubnet] is interval membership: for a valid range and an
    address without scope ids, it returns true exactly when the address lies
    between the network address and the broadcast address of the range in the
    order of [ThreeWayCompare] (an address of the other family never does), and
    none of these calls fails, in any build mode. *)
Theorem IsWithinSubnet_interval `{BuildMode} r ip :
  range_ok r -> ip_ok ip -> has_scope (host_ r) = false -> has_scope ip = false ->
  exists lo hi c1 c2 b,
    network_address r = Ok lo /\ broadcast_address r = Ok hi /\
    ThreeWayCompare lo ip = Ok c1 /\ ThreeWayCompare ip hi = Ok c2 /\
    IsWithinSubnet r ip = Ok b /\ (b = true <-> c1 <> Gt /\ c2 <> Gt).
Proof.
  intros (a & len & Hok & ->) Hip Hs1 Hs2. apply repr_surj in Hip as (b & Hb & ->).
  pose proof Hok as (Hne & Ha & Hl & E). cbn [mk_range host_] in Hs1.
  assert (ascope a = 0) as Hsa.
  { destruct a as [|n|n s]; [done..|]. cbn in Hs1 |- *. destruct (Z.eqb_spec s 0); [done|discriminate]. }
  assert (ascope b = 0) as Hsb.
  { destruct b as [|n|n s]; [done..|]. cbn in Hs2 |- *. destruct (Z.eqb_spec s 0); [done|discriminate]. }
  pose proof (blast_range _ _ _ Hl (anum_range a Ha) E) as Hbl.
  assert (addr_ok (abcast a len)) as Hbc by (apply awith_ok; [done|]; pose proof (anum_range a Ha); lia).
  rewrite network_address_repr, broadcast_address_repr, IsWithinSubnet_repr by done.
  eexists _, _, (addr_compare a b), (addr_compare b (abcast a len)), _.
  split; [done|]. split; [done|]. rewrite !ThreeWayCompare_repr by done.
  split; [done|]. split; [done|]. split; [done|]. rewrite bool_decide_eq_true.
  destruct (decide (awidth a = awidth b)) as [Ew|Ew].
  - pose proof (awidth_not_none a b Hne Ew) as Hnb.
    assert (ascope (abcast a len) = 0) as Hsc by (by apply ascope_awith_0).
    assert (awidth b = awidth (abcast a len)) as Ewc by (unfold abcast; by rewrite awidth_awith).
    rewrite within_block by done. rewrite (addr_ltb_num a b), (addr_ltb_num b) by done.
    unfold abcast. rewrite anum_awith by done.
    rewrite !Z.compare_le_iff. tauto.
  - split; [tauto|]. destruct a as [|n|n s], b as [|m|m t]; cbn in *; try done; tauto.
Qed.

Lemma IsWithinSubnet_interval_witness :
  exists b, IsWithinSubnet (H := opt_build) (mk_range (Addr4 0x0A000000) 8) (repr4 0x0A010203) = Ok b.
Proof.
  destruct (@IsWithinSubnet_interval opt_build (mk_range (Addr4 0x0A000000) 8) (repr4 0x0A010203))
    as (_ & _ & _ & _ & b & _ & _ & _ & _ & E & _); try reflexivity.
  - eexists _, _. split; [|reflexivity]. repeat split; by vm_compute.
  - apply (repr_ok (Addr4 0x0A010203)). split; by vm_compute.
  - exists b. exact E.
Defined.

(** The addresses of a range are numbered: for a valid range without scope id
    of a family with [w]-bit addresses, every index below [2^(w - length)] names
    an address inside the range whose [IndexInRange] is that index, every
    unscoped address inside the range is named by its [IndexInRange], and an
    index outside is refused (the default address, or a crash in a debug
    build). *)
Theorem NthAddressInRange_IndexInRange `{BuildMode} r :
  range_ok r -> has_scope (host_ r) = false ->
  (forall i, 0 <= i < 2 ^ ((if is_ipv4 (host_ r) then 32 else 128) - length_ r) ->
     exists ip, NthAddressInRange r i = Ok ip /\ ip_ok ip /\
       IsWithinSubnet r ip = Ok true /\ IndexInRange r ip = Ok i) /\
  (forall ip, ip_ok ip -> has_scope ip = false -> IsWithinSubnet r ip = Ok true ->
     exists i, IndexInRange r ip = Ok i /\
       0 <= i < 2 ^ ((if is_ipv4 (host_ r) then 32 else 128) - length_ r) /\
       NthAddressInRange r i = Ok ip) /\
  (forall i, 2 ^ ((if is_ipv4 (host_ r) then 32 else 128) - length_ r) <= i < 2 ^ 128 ->
     NthAddressInRange r i = if NDEBUG then Ok kUninitialized else Crash).
Proof.
  intros (a & len & Hok & ->) Hs1. cbn [mk_range host_ length_] in *. apply unscoped in Hs1.
  pose proof Hok as (Hne & Ha & Hl & E).
  replace (if is_ipv4 (repr a) then 32 else 128) with (awidth a) by (by destruct a).
  split; [|split].
  - intros i Hi. pose proof (block_in_width a len i Hok Hi) as Hb.
    assert (addr_ok (awith a (anum a + i))) as Hai by (by apply awith_ok).
    assert (awidth a = awidth (awith a (anum a + i))) as Ew by (by rewrite awidth_awith).
    assert (atrunc (awith a (anum a + i)) len = a) as Et.
    { apply within_block; try done; [by apply ascope_awith_0|]. rewrite anum_awith by done.
      unfold blast. lia. }
    exists (repr (awith a (anum a + i))). rewrite NthAddressInRange_repr by done.
    rewrite IsWithinSubnet_repr, IndexInRange_repr, anum_awith by done.
    rewrite bool_decide_eq_true_2 by done. split_and!; try done; [by apply repr_ok|f_equal; lia].
  - intros ip Hip Hs2. apply repr_surj in Hip as (b & Hb & ->). apply unscoped in Hs2.
    rewrite IsWithinSubnet_repr by done. intros Hw. injection Hw as Hw.
    apply bool_decide_eq_true in Hw as [Ew Et]. exists (anum b - anum a).
    pose proof (proj1 (within_block a len b Hok Hb Ew Hs1 Hs2) Et) as Hbl. unfold blast in Hbl.
    rewrite IndexInRange_repr by done. split; [done|]. split; [lia|].
    rewrite NthAddressInRange_repr by (done || lia). do 2 f_equal.
    replace (anum a + (anum b - anum a)) with (anum b) by lia.
    apply addr_num_ext; rewrite ?awidth_awith, ?anum_awith; try done.
    + apply awith_ok; [done|]. rewrite Ew. by apply anum_range.
    + by destruct a.
    + by rewrite ascope_awith_0.
  - intros i Hi. pose proof (pow2_pos (awidth a - len)). unfold NthAddressInRange.
    rewrite IsRangeIndexValid_repr, bind_Ok by (done || lia).
    rewrite (proj2 (Z.ltb_ge i _)) by lia. cbn [negb]. unfold LOG_DFATAL, DCHECK.
    by destruct NDEBUG.
Qed.

Lemma NthAddressInRange_IndexInRange_witness :
  exists ip, NthAddressInRange (H := debug_build) (mk_range (Addr4 0x0A000000) 8) 66051 = Ok ip /\
    IndexInRange (H := debug_build) (mk_range (Addr4 0x0A000000) 8) ip = Ok 66051.
Proof.
  destruct (@NthAddressInRange_IndexInRange debug_build (mk_range (Addr4 0x0A000000) 8)) as (F & _).
  - eexists _, _. split; [|reflexivity]. repeat split; by vm_compute.
  - reflexivity.
  - destruct (F 66051) as (ip & E & _ & _ & E2); [by vm_compute|]. by exists ip.
Defined.

(** [IPAddressPlusN] is addition without wrap-around: for an initialized
    address and any [int128] it returns true exactly when the sum stays inside
    the address space of the family, and then the result is the address of that
    number (of the same family; an IPv6 scope id is kept when the new address
    can carry it). *)
Theorem IPAddressPlusN_spec `{BuildMode} a n old :
  addr_ok a -> a <> NoAddr -> - 2 ^ 127 <= n < 2 ^ 127 ->
  exists ok r, IPAddressPlusN (repr a) n old = Ok (ok, r) /\
    (ok = true <-> 0 <= anum a + n < 2 ^ awidth a) /\
    (ok = true -> r = repr (awith a (anum a + n)) /\ address_family r = address_family (repr a)).
Proof.
  intros Ha Hne Hn. destruct (IPAddressPlusN_repr a n old Ha Hne Hn) as (r & -> & Hr).
  eexists _, _. split; [done|]. rewrite bool_decide_eq_true. split; [done|]. intros Hin.
  rewrite (Hr Hin). split; [done|]. by destruct a.
Qed.

Lemma IPAddressPlusN_spec_witness :
  exists ok r, IPAddressPlusN (H := opt_build) (repr (Addr4 0xFFFFFFFF)) 1 kUninitialized = Ok (ok, r).
Proof.
  destruct (@IPAddressPlusN_spec opt_build (Addr4 0xFFFFFFFF) 1 kUninitialized) as (ok & r & E & _);
    [split; by vm_compute | discriminate | by vm_compute |]. by exists ok, r.
Defined.

(** A scoped link-local range shorter than /64 contains indices that
    [IndexInRange] cannot give back: address number [2^64] of fe80::%1/10 has no
    scope id, is not within the range, and its [IndexInRange] is the all-ones
    value (a crash in a debug build). *)
Theorem Nth_scoped_range_escapes :
  exists r ip, IPRange_make (H := opt_build) (repr6 (0xfe80 * 2 ^ 112) 1) 10 = Ok r /\
    IsRangeIndexValid (H := opt_build) r (2 ^ 64) = Ok true /\
    NthAddressInRange (H := opt_build) r (2 ^ 64) = Ok ip /\
    IsWithinSubnet (H := opt_build) r ip = Ok false /\
    IndexInRange (H := opt_build) r ip = Ok (2 ^ 128 - 1) /\
    IndexInRange (H := debug_build) r ip = Crash.
Proof.
  exists (mk_range (Addr6 (0xfe80 * 2 ^ 112) 1) 10), (repr6 (0xfe80 * 2 ^ 112 + 2 ^ 64) 0).
  split_and!; vm_compute; reflexivity.
Qed.
