(* ===== verification/IPMask.v ===== *)
(** * Netmasks and packed strings

    [NetMaskToMaskLength] and [MaskLengthToIPAddress] are inverse to each other
    and accept exactly the masks of a prefix; the packed encodings of addresses
    and ranges are decoded to what was encoded. *)
From Stdlib Require Import ZArith Lia.
From stdpp Require Import base list numbers option.
From S2P Require Import Prelude.
From S2P Require Import Endian.
From S2P Require Import Bits.
From S2P Require Import IPAddr.
From S2P Require Import IPOrder.
From S2P Require Import IPRange.
From S2P Require Import IPRangeProps.
Local Open Scope Z_scope.

(** ** Netmasks *)

(** The address with the [len] highest bits set. *)
Definition mask_num (w len : Z) : Z := 2 ^ w - 2 ^ (w - len).

Lemma is_lsb_unique n k j : is_lsb n k -> is_lsb n j -> k = j.
Proof.
  intros Hk Hj. destruct (is_lsb_testbit _ _ Hk) as [K1 K2], (is_lsb_testbit _ _ Hj) as [J1 J2].
  destruct Hk as (_ & _ & Hk), Hj as (_ & _ & Hj).
  destruct (Z.lt_trichotomy k j) as [L|[L|L]]; [|done|].
  - rewrite J2 in K1 by lia. discriminate.
  - rewrite K2 in J1 by lia. discriminate.
Qed.

Lemma mask_num_lsb w len : 0 < len <= w -> is_lsb (mask_num w len) (w - len).
Proof.
  intros Hl. exists (2 ^ (len - 1) - 1). split; [|lia]. unfold mask_num.
  replace (2 ^ w) with (2 ^ (w - len) * (2 * 2 ^ (len - 1))); [ring|].
  rewrite <- (Z.pow_add_r 2 1), <- Z.pow_add_r by lia. f_equal. lia.
Qed.

(** The test on the complemented mask: its low bits are ones and nothing else. *)
Lemma mask_test w n : 0 <= w -> 0 < n < 2 ^ w ->
  (Z.land (wnot w n) ((wnot w n + 1) mod 2 ^ w) = 0 <-> exists len, 0 < len <= w /\ n = mask_num w len).
Proof.
  intros Hw Hn. unfold wnot, mask_num. rewrite Z.mod_small by lia.
  pose proof (clear_lowest_spec w (2 ^ w - n) ltac:(lia)) as E. unfold clear_lowest in E.
  rewrite Z.mod_small in E by lia. rewrite Z.land_comm in E.
  replace (2 ^ w - 1 - n) with (2 ^ w - n - 1) by lia. rewrite Z.sub_add.
  rewrite <- Z.eqb_eq, E, Z.eqb_eq. pose proof (Z.log2_nonneg (2 ^ w - n)). split.
  - intros El. assert (Z.log2 (2 ^ w - n) < w) by (apply Z.log2_lt_pow2; lia).
    exists (w - Z.log2 (2 ^ w - n)). split; [lia|].
    replace (w - (w - Z.log2 (2 ^ w - n))) with (Z.log2 (2 ^ w - n)) by lia. lia.
  - intros (len & Hl & ->). replace (2 ^ w - (2 ^ w - 2 ^ (w - len))) with (2 ^ (w - len)) by lia.
    by rewrite Z.log2_pow2 by lia.
Qed.

Lemma mask_num_inj w len len' : 0 <= len <= w -> 0 <= len' <= w ->
  mask_num w len = mask_num w len' -> len = len'.
Proof.
  unfold mask_num. intros Hl Hl' E. assert (w - len = w - len') as E'; [|lia].
  apply (Z.pow_inj_r 2); lia.
Qed.

Lemma mask_num_range w len : 0 <= len <= w -> 0 <= mask_num w len < 2 ^ w.
Proof.
  intros. unfold mask_num. pose proof (pow2_pos (w - len)).
  assert (2 ^ (w - len) <= 2 ^ w) by (apply Z.pow_le_mono_r; lia). lia.
Qed.

Lemma mask_num_0 w : mask_num w 0 = 0.
Proof. unfold mask_num. rewrite Z.sub_0_r. lia. Qed.

Lemma mask_num_pos w len : 0 <= len <= w -> (mask_num w len = 0 <-> len = 0).
Proof.
  intros Hl. split; [|intros ->; apply mask_num_0].
  intros E. apply (mask_num_inj w); [lia..|]. by rewrite mask_num_0.
Qed.

(** What the code computes, by its scan of the lowest bit. *)
Definition mask_length (w n : Z) (find : Z -> outcome Z) : outcome (option Z) :=
  result ← (if negb (n =? 0) then k ← find n; Ok (w - k) else Ok 0);
  if negb (Z.land (wnot w n) ((wnot w n + 1) mod 2 ^ w) =? 0) then Ok None else Ok (Some result).

Lemma mask_length_spec w n find : 0 < w -> 0 <= n < 2 ^ w ->
  (0 < n -> exists k, find n = Ok k /\ is_lsb n k /\ k < w) ->
  exists r, mask_length w n find = Ok r /\
    forall len, r = Some len <-> 0 <= len <= w /\ n = mask_num w len.
Proof.
  intros Hw Hn Hf. unfold mask_length. destruct (Z.eqb_spec n 0) as [->|Hn0]; cbn [negb].
  - rewrite bind_Ok. unfold wnot. rewrite Z.sub_0_r, Z.sub_add, Z.mod_same by (pose proof (pow2_pos w); lia).
    rewrite Z.land_0_r. cbn [Z.eqb negb]. exists (Some 0). split; [done|]. intros len. split.
    + intros E. injection E as <-. split; [lia|]. by rewrite mask_num_0.
    + intros (Hl & E). symmetry in E. apply mask_num_pos in E; [congruence|done].
  - destruct (Hf ltac:(lia)) as (k & -> & Hk & Hkw). rewrite !bind_Ok.
    destruct (Z.eqb_spec (Z.land (wnot w n) ((wnot w n + 1) mod 2 ^ w)) 0) as [E|E]; cbn [negb].
    + exists (Some (w - k)). split; [done|]. intros len.
      apply mask_test in E as (l0 & Hl0 & ->); [|lia..].
      rewrite (is_lsb_unique _ _ _ Hk (mask_num_lsb w l0 Hl0)).
      replace (w - (w - l0)) with l0 by lia. split; [intros E; injection E as <-; split; [lia|done]|].
      intros (Hl & E). apply mask_num_inj in E; [congruence|lia..].
    + exists None. split; [done|]. intros len. split; [discriminate|]. intros (Hl & ->). exfalso.
      apply E. apply mask_test; [lia..|]. exists len. split; [|done].
      destruct (Z.eqb_spec len 0) as [->|]; [|lia]. rewrite mask_num_0 in Hn0. lia.
Qed.

Lemma NetMaskToMaskLength_repr `{BuildMode} a : addr_ok a -> a <> NoAddr ->
  exists r, NetMaskToMaskLength (repr a) = Ok r /\
    forall len, r = Some len <-> 0 <= len <= awidth a /\ anum a = mask_num (awidth a) len.
Proof.
  intros Ha Hne. pose proof (anum_range a Ha) as Hr.
  destruct a as [|n|n s]; [done|..]; unfold NetMaskToMaskLength; cbn [repr awidth anum] in *.
  - unfold repr4 at 1. cbv iota. rewrite IPAddressToHostUInt32_repr4, bind_Ok by done.
    apply (mask_length_spec 32 n FindLSBSetNonZero); [lia|done|]. intros. apply FindLSBSetNonZero_lsb. lia.
  - unfold repr6 at 1. cbv iota. rewrite IPAddressToUInt128_repr6, bind_Ok by done.
    apply (mask_length_spec 128 n FindLSBSetNonZero128); [lia|done|]. intros.
    apply FindLSBSetNonZero128_lsb. lia.
Qed.

(** The mask of a length, by family. *)
Definition mask_addr (family len : Z) : option addr :=
  if (family =? AF_INET) && (0 <=? len) && (len <=? 32) then Some (Addr4 (mask_num 32 len))
  else if (family =? AF_INET6) && (0 <=? len) && (len <=? 128) then Some (Addr6 (mask_num 128 len) 0)
  else None.

Lemma MaskLengthToIPAddress_repr family len :
  MaskLengthToIPAddress family len = Ok (repr <$> mask_addr family len).
Proof.
  unfold MaskLengthToIPAddress, mask_addr. destruct (Z.eqb_spec family AF_INET) as [->|Hf]; cbn [andb].
  - rewrite Z.gtb_ltb. destruct (Z.ltb_spec len 0), (Z.ltb_spec 32 len); cbn [orb];
      try (exfalso; lia); repeat decide_test; try done. cbn [andb fmap option_fmap option_map repr].
    rewrite HostUInt32ToIPAddress_repr. do 3 f_equal. unfold u32, mask_num.
    rewrite Z.shiftl_mul_pow2 by lia. change 0xffffffff with (2 ^ 32 - 1).
    pose proof (mask_num_range 32 len ltac:(lia)). unfold mask_num in *. pose proof (pow2_pos (32 - len)).
    symmetry. apply Z.mod_unique with (2 ^ (32 - len) - 1); lia.
  - destruct (Z.eqb_spec family AF_INET6) as [->|Hf6]; cbn [andb]; [|done].
    rewrite Z.gtb_ltb. destruct (Z.ltb_spec len 0), (Z.ltb_spec 128 len); cbn [orb];
      try (exfalso; lia); repeat decide_test; try done. cbn [andb fmap option_fmap option_map repr].
    pose proof (mask_num_range 128 len ltac:(lia)) as Hr.
    assert ((if len =? 0 then Ok 0 else shl 128 (wnot 128 0) (128 - len)) = Ok (mask_num 128 len)) as ->.
    { destruct (Z.eqb_spec len 0) as [->|]; [done|]. by rewrite shl_ones by lia. }
    by rewrite bind_Ok, UInt128ToIPAddress_repr, bind_Ok.
Qed.

(** Netmasks and prefix lengths correspond one to one: on an initialized
    address [NetMaskToMaskLength] answers [len] exactly when the address is [len]
    ones followed by zeros; [MaskLengthToIPAddress] builds exactly that address
    for the lengths of its family and nothing else; and the length of a mask
    built is the length asked for. *)
Theorem netmask_roundtrip `{BuildMode} :
  (forall a, addr_ok a -> a <> NoAddr -> exists r, NetMaskToMaskLength (repr a) = Ok r /\
     forall len, r = Some len <->
       0 <= len <= awidth a /\ anum a = 2 ^ awidth a - 2 ^ (awidth a - len)) /\
  (forall family len ip, MaskLengthToIPAddress family len = Ok (Some ip) ->
     NetMaskToMaskLength ip = Ok (Some len)) /\
  (forall family len, exists r, MaskLengthToIPAddress family len = Ok r /\
     (is_Some r <-> family = AF_INET /\ 0 <= len <= 32 \/ family = AF_INET6 /\ 0 <= len <= 128)).
Proof.
  split; [exact NetMaskToMaskLength_repr|]. split.
  - intros family len ip. rewrite MaskLengthToIPAddress_repr. unfold mask_addr.
    destruct ((family =? AF_INET) && _ && _) eqn:E4; [|destruct ((family =? AF_INET6) && _ && _) eqn:E6];
      cbn [fmap option_fmap option_map]; intros E; [injection E as <-|injection E as <-|discriminate];
      bool_to_prop.
    + pose proof (mask_num_range 32 len ltac:(lia)) as Hr.
      destruct (NetMaskToMaskLength_repr (Addr4 (mask_num 32 len))) as (r & E & Hs); [done..|].
      etransitivity; [exact E|]. f_equal. apply Hs. cbn. lia.
    + pose proof (mask_num_range 128 len ltac:(lia)) as Hr.
      destruct (NetMaskToMaskLength_repr (Addr6 (mask_num 128 len) 0)) as (r & E & Hs);
        [by apply addr6_ok_0|done|]. etransitivity; [exact E|]. f_equal. apply Hs. cbn. lia.
  - intros family len. rewrite MaskLengthToIPAddress_repr. eexists. split; [done|].
    rewrite fmap_is_Some. unfold mask_addr.
    destruct ((family =? AF_INET) && _ && _) eqn:E4; [|destruct ((family =? AF_INET6) && _ && _) eqn:E6].
    + split; [|done]. intros _. bool_to_prop. left. lia.
    + split; [|done]. intros _. bool_to_prop. right. lia.
    + split; [by intros (? & ?)|]. rewrite !andb_false_iff, !Z.eqb_neq, !Z.leb_gt in *.
      intros. exfalso. unfold AF_INET, AF_INET6 in *. lia.
Qed.

Lemma netmask_roundtrip_witness :
  exists ip, MaskLengthToIPAddress AF_INET 24 = Ok (Some ip) /\
    NetMaskToMaskLength (H := debug_build) ip = Ok (Some 24).
Proof.
  destruct (@netmask_roundtrip debug_build) as (_ & F & _).
  exists (repr4 0xFFFFFF00). split; [by vm_compute|]. apply (F AF_INET). by vm_compute.
Defined.

(** ** Packed strings *)

Section packed.
Context `{BuildMode}.

Definition abytes (a : addr) : nat := Z.to_nat (awidth a / 8).

Lemma ToPackedString_repr a : addr_ok a -> a <> NoAddr ->
  ToPackedString (repr a) = Ok (be_store (abytes a) (anum a)).
Proof.
  intros Ha Hne. destruct a as [|n|n s]; [done|..]; unfold ToPackedString; cbn [repr anum].
  - change (abytes (Addr4 n)) with 4%nat. rewrite <- le_store_byteswap. reflexivity.
  - change (abytes (Addr6 n s)) with 16%nat. unfold repr6 at 1. cbv iota.
    rewrite ipv6_address_repr6, bind_Ok by done. unfold repr6. cbn [has_scope get_ipv6].
    destruct (Z.eqb_spec s 0) as [->|]; cbn [negb]; [|done].
    rewrite bind_Ok. unfold in6. cbn [s6_addr]. by rewrite Z.add_0_r.
Qed.

(** The unscoped address of a byte string. *)
Definition addr_of_bytes (l : list Z) : addr :=
  if (zlen l =? 4) then Addr4 (be_load l) else Addr6 (be_load l) 0.

Lemma PackedStringToIPAddress_bytes l : bytes_ok l -> zlen l = 4 \/ zlen l = 16 ->
  PackedStringToIPAddress l = Ok (Some (repr (addr_of_bytes l))) /\ addr_ok (addr_of_bytes l).
Proof.
  intros Hb Hl. pose proof (be_load_bound l Hb) as Hr. unfold PackedStringToIPAddress, addr_of_bytes.
  destruct Hl as [E|E]; rewrite E in *; cbn [Z.eqb Pos.eqb].
  - split; [|exact Hr]. unfold IPAddress4. do 2 f_equal. cbn [repr]. unfold repr4. do 2 f_equal.
    unfold byteswap. rewrite <- (be_store_load l 4) at 1 by (done || (unfold zlen in E; lia)). done.
  - split; [|by apply addr6_ok_0]. cbn [repr].
    assert ({| s6_addr := l |} = in6 (be_load l)) as ->.
    { unfold in6. f_equal. symmetry. apply be_store_load; [done|]. unfold zlen in E. lia. }
    by rewrite IPAddress6_in6, bind_Ok.
Qed.

Lemma trim_zeros_spec (l : list Z) k : (k <= List.length l)%nat ->
  exists k', trim_zeros l k = Ok k' /\ (k' <= k)%nat /\
    take k l = take k' l ++ replicate (k - k') 0.
Proof.
  induction k as [|k IH]; intros Hk; cbn [trim_zeros].
  - exists O. split; [done|]. split; [lia|]. done.
  - destruct (lookup_lt_is_Some_2 l k) as (b & Eb); [lia|]. rewrite Eb.
    destruct (Z.eqb_spec b 0) as [->|]; [|exists (S k); rewrite Nat.sub_diag, app_nil_r; auto].
    destruct IH as (k' & -> & Hk' & E); [lia|]. exists k'. split; [done|]. split; [lia|].
    rewrite (take_S_r _ _ _ Eb), E, <- app_assoc. f_equal.
    replace (S k - k')%nat with (S (k - k')) by lia. by rewrite replicate_S_end.
Qed.

Lemma be_store_0 n : be_store n 0 = replicate n 0.
Proof.
  unfold be_store. assert (le_store n 0 = replicate n 0) as ->.
  { induction n as [|n IH]; [done|]. cbn [le_store replicate]. by rewrite Z.mod_0_l, Z.div_0_l, IH by lia. }
  rewrite rev_alt. apply reverse_replicate.
Qed.

(** The bytes of an aligned number past its prefix are zero. *)
Lemma be_store_prefix n k x : (k <= n)%nat -> x mod 2 ^ (8 * Z.of_nat (n - k)) = 0 ->
  be_store n x = take k (be_store n x) ++ replicate (n - k) 0.
Proof.
  intros Hk E. rewrite <- (take_drop k (be_store n x)) at 1. f_equal.
  rewrite be_store_drop, <- be_store_mod, E by done. apply be_store_0.
Qed.

Lemma mod_pow2_le x a b : 0 <= a <= b -> x mod 2 ^ b = 0 -> x mod 2 ^ a = 0.
Proof. intros Hab E. by rewrite <- (mod_mod_le x a b), E, Z.mod_0_l by (done || pose proof (pow2_pos a); lia). Qed.

Lemma abytes_width a : a <> NoAddr -> 8 * Z.of_nat (abytes a) = awidth a.
Proof. by destruct a. Qed.

Lemma be_load_be_store_addr a : addr_ok a -> a <> NoAddr -> ascope a = 0 ->
  addr_of_bytes (be_store (abytes a) (anum a)) = a.
Proof.
  intros Ha Hne Hs. unfold addr_of_bytes. rewrite zlen_be_store, be_load_store, abytes_width by done.
  rewrite Z.mod_small by (by apply anum_range). destruct a as [|n|n s]; [done..|]. cbn in Hs. by subst s.
Qed.

Lemma awidth_addr_of_bytes l : zlen l = 4 \/ zlen l = 16 ->
  awidth (addr_of_bytes l) = 8 * zlen l /\ ascope (addr_of_bytes l) = 0 /\ addr_of_bytes l <> NoAddr.
Proof. unfold addr_of_bytes. by intros [E|E]; rewrite E. Qed.

(** Decoding a header and host bytes that fit. *)
Lemma PackedStringToIPRange_body header rest (w : Z) :
  bytes_ok rest -> (w = 128 /\ 0 <= header <= 128 \/ w = 32 /\ 200 <= header <= 232) ->
  8 * zlen rest <= w ->
  let len := header - (if w =? 32 then 200 else 0) in
  let a := addr_of_bytes (rest ++ replicate (Z.to_nat (w / 8 - zlen rest)) 0) in
  addr_ok a /\ awidth a = w /\ ascope a = 0 /\ a <> NoAddr /\
  PackedStringToIPRange (header :: rest) =
    Ok (if bool_decide (atrunc a len = a) then Some (mk_range a len) else None).
Proof.
  intros Hb Hh Hr. set (l := rest ++ replicate (Z.to_nat (w / 8 - zlen rest)) 0).
  cbv zeta. pose proof (zlen_nonneg rest) as H0.
  assert (zlen l = w / 8) as El.
  { unfold l. rewrite zlen_app. unfold zlen at 2. rewrite length_replicate.
    destruct Hh as [[-> _]|[-> _]]; zlia. }
  assert (zlen l = 4 \/ zlen l = 16) as Hl by (rewrite El; destruct Hh as [[-> _]|[-> _]]; auto).
  assert (bytes_ok l) as Hlb.
  { apply bytes_ok_app. split; [done|]. apply Forall_replicate. split; lia. }
  destruct (PackedStringToIPAddress_bytes l Hlb Hl) as [Ep Ha].
  destruct (awidth_addr_of_bytes l Hl) as (Ew & Es & Hne). rewrite El in Ew.
  assert (awidth (addr_of_bytes l) = w) as Ew2 by (rewrite Ew; by destruct Hh as [[-> _]|[-> _]]).
  split_and!; try done. unfold PackedStringToIPRange, PackedStringToIPAddressOrDie,
    kMaxNetmaskIPv6, kMaxNetmaskIPv4, kPackedIPRangeIPv4LengthOffset.
  assert (0 <= header - (if w =? 32 then 200 else 0) <= w) as Hlen
    by (destruct Hh as [[-> ?]|[-> ?]]; cbn; lia).
  assert ((if (0 <=? header) && (header <=? 128) then Some (header, 16)
     else if (200 <=? header) && (header <=? 32 + 200) then Some (header - 200, 4) else None)
     = Some (header - (if w =? 32 then 200 else 0), w / 8)) as ->.
  { destruct Hh as [[-> Hh]|[-> Hh]]; repeat decide_test; cbn [andb]; do 2 f_equal; cbn; lia. }
  rewrite Z.gtb_ltb, (proj2 (Z.ltb_ge (w / 8) (zlen rest))) by zlia. fold l.
  rewrite Ep, !bind_Ok, IPRange_make_repr, bind_Ok by (done || lia). rewrite Ew2, Z.min_l by lia.
  cbn [mk_range host_].
  pose proof (atrunc_ok (addr_of_bytes l) (header - (if w =? 32 then 200 else 0)) Ha Hne ltac:(lia)) as (_ & Ht & _).
  rewrite IPAddress_eqb_repr by done.
  destruct (bool_decide_reflect (atrunc (addr_of_bytes l) (header - (if w =? 32 then 200 else 0)) = addr_of_bytes l))
    as [E|E]; cbn [negb]; [|done]. by rewrite E.
Qed.

Lemma ToPackedString_range_repr a len : arange_ok a len ->
  exists k, ToPackedString_range (mk_range a len) =
    Ok (len + (if awidth a =? 32 then 200 else 0) :: take k (be_store (abytes a) (anum a))) /\
    (8 * Z.of_nat k <= len + 7) /\ (k <= abytes a)%nat /\
    be_store (abytes a) (anum a) = take k (be_store (abytes a) (anum a)) ++ replicate (abytes a - k) 0.
Proof.
  intros (Hne & Ha & Hl & E). unfold ToPackedString_range. cbn [mk_range host_ length_].
  assert (awidth a <= 128) as Hw by (destruct (awidth_cases a Hne); lia).
  pose proof (abytes_width a Hne) as Hab. set (k0 := Z.to_nat ((len + 7) / 8)).
  assert (Z.to_nat (u8 (Z.quot (len + 7) 8)) = k0) as Ek.
  { unfold u8. rewrite Z.quot_div_nonneg, Z.mod_small by zlia. done. }
  assert (k0 <= abytes a)%nat as Hk0 by (unfold k0; zlia).
  destruct (trim_zeros_spec (be_store (abytes a) (anum a)) k0) as (k & Et & Hk & Etk).
  { by rewrite length_be_store. }
  exists k. split; [|split; [unfold k0 in Hk; zlia|split; [lia|]]].
  - rewrite ToPackedString_repr, bind_Ok by done. rewrite Ek, Et, bind_Ok.
    destruct a as [|n|n s]; [done|..]; cbn [repr repr4 repr6 is_ipv4 awidth Z.eqb Pos.eqb] in *;
      unfold u8, kPackedIPRangeIPv4LengthOffset; rewrite ?Z.add_0_r.
    + by rewrite (Z.mod_small len), Z.mod_small by lia.
    + by rewrite Z.mod_small by lia.
  - rewrite (be_store_prefix (abytes a) k0) at 1; [|done|].
    + rewrite Etk, <- app_assoc, <- replicate_add. do 2 f_equal. lia.
    + apply mod_pow2_le with (awidth a - len); [|done]. unfold k0. zlia.
Qed.
End packed.

(** Packed strings decode to what was encoded.  An initialized address packs
    to the bytes of its address and unpacks to the same address without its scope
    id.  A valid range without scope id packs to at most one byte more than its
    prefix needs, and unpacks to itself. *)
Theorem packed_roundtrip `{BuildMode} :
  (forall a, addr_ok a -> a <> NoAddr ->
     exists s, ToPackedString (repr a) = Ok s /\ bytes_ok s /\ 8 * zlen s = awidth a /\
       PackedStringToIPAddress s = Ok (Some (repr (match a with Addr6 n _ => Addr6 n 0 | _ => a end)))) /\
  (forall r, range_ok r -> has_scope (host_ r) = false ->
     exists s, ToPackedString_range r = Ok s /\ bytes_ok s /\ 8 * (zlen s - 1) <= length_ r + 7 /\
       PackedStringToIPRange s = Ok (Some r)).
Proof.
  split.
  - intros a Ha Hne. rewrite ToPackedString_repr by done. eexists. split; [done|].
    split; [apply be_store_ok|]. rewrite zlen_be_store, abytes_width by done. split; [done|].
    destruct (PackedStringToIPAddress_bytes (be_store (abytes a) (anum a))) as [-> _].
    { apply be_store_ok. } { rewrite zlen_be_store. destruct a; [done|left; done|right; done]. }
    do 3 f_equal. set (b := match a with Addr6 n _ => Addr6 n 0 | _ => a end).
    replace (be_store (abytes a) (anum a)) with (be_store (abytes b) (anum b)) by (by destruct a).
    apply be_load_be_store_addr; [|by destruct a|by destruct a].
    destruct a as [|n|n s]; [done..|]. apply addr6_ok_0. apply Ha.
  - intros r (a & len & Hok & ->) Hs. cbn [mk_range host_ length_] in *. apply unscoped in Hs.
    pose proof Hok as (Hne & Ha & Hl & E). pose proof (abytes_width a Hne) as Hab.
    destruct (ToPackedString_range_repr a len Hok) as (k & -> & Hk & Hka & Eb). eexists. split; [done|].
    set (rest := take k (be_store (abytes a) (anum a))) in *.
    assert (bytes_ok rest) as Hb by (apply bytes_ok_take, be_store_ok).
    assert (zlen rest = Z.of_nat k) as El.
    { unfold zlen, rest. rewrite length_take, length_be_store. lia. }
    split; [apply bytes_ok_cons; split; [|done];
      split; destruct (awidth_cases a Hne) as [Ew|Ew]; rewrite Ew in *; cbn; lia|].
    rewrite zlen_cons, El. split; [lia|].
    destruct (PackedStringToIPRange_body (len + (if awidth a =? 32 then 200 else 0)) rest (awidth a))
      as (_ & _ & _ & _ & ->); [done| |lia|].
    { destruct (awidth_cases a Hne) as [Ew|Ew]; rewrite Ew in *; cbn; [right|left]; lia. }
    rewrite El. replace (Z.to_nat (awidth a / 8 - Z.of_nat k)) with (abytes a - k)%nat by (unfold abytes; lia).
    rewrite <- Eb, be_load_be_store_addr by done. replace (len + _ - _) with len by lia.
    rewrite bool_decide_eq_true_2 by (by apply arange_trunc). done.
Qed.

Lemma packed_roundtrip_witness :
  exists s, ToPackedString_range (H := debug_build) (mk_range (Addr4 0x0A000000) 9) = Ok s /\
    PackedStringToIPRange (H := debug_build) s = Ok (Some (mk_range (Addr4 0x0A000000) 9)).
Proof.
  destruct (@packed_roundtrip debug_build) as (_ & F).
  destruct (F (mk_range (Addr4 0x0A000000) 9)) as (s & E & _ & _ & D).
  - eexists _, _. split; [|reflexivity]. repeat split; by vm_compute.
  - reflexivity.
  - exists s. split; [exact E|exact D].
Defined.
