(* ===== verification/IPSubtract.v ===== *)
(** * Subtracting a range

    [SubtractIPRange] writes the sibling blocks of the prefixes of the smaller
    range: together they are exactly the larger range without the smaller one. *)
From Stdlib Require Import ZArith Lia.
From stdpp Require Import base list numbers option.
From S2P Require Import Prelude.
From S2P Require Import Endian.
From S2P Require Import Bits.
From S2P Require Import IPAddr.
From S2P Require Import IPOrder.
From S2P Require Import IPRange.
From S2P Require Import IPRangeProps.
From S2P Require Import IPMask.
Local Open Scope Z_scope.

(** ** Bitwise operations act byte by byte *)

Section bytewise.
Context (op : Z -> Z -> Z) (fb : bool -> bool -> bool).
Hypothesis op_bits : forall x y i, Z.testbit (op x y) i = fb (Z.testbit x i) (Z.testbit y i).
Hypothesis fb_false : fb false false = false.

Lemma op_mod_pow2 x y k : 0 <= k -> op x y mod 2 ^ k = op (x mod 2 ^ k) (y mod 2 ^ k).
Proof.
  intros Hk. apply Z.bits_inj'. intros i Hi. rewrite op_bits. destruct (Z.ltb_spec i k).
  - by rewrite !Z.mod_pow2_bits_low by lia.
  - by rewrite !Z.mod_pow2_bits_high by lia.
Qed.

Lemma op_div_pow2 x y k : 0 <= k -> op x y / 2 ^ k = op (x / 2 ^ k) (y / 2 ^ k).
Proof.
  intros Hk. apply Z.bits_inj'. intros i Hi. by rewrite op_bits, !Z.div_pow2_bits, op_bits by lia.
Qed.

Lemma op_range x y k : 0 <= k -> 0 <= x < 2 ^ k -> 0 <= y < 2 ^ k -> 0 <= op x y < 2 ^ k.
Proof.
  intros Hk Hx Hy. rewrite <- (Z.mod_small x (2 ^ k)), <- (Z.mod_small y (2 ^ k)) by lia.
  rewrite <- op_mod_pow2 by lia. apply Z.mod_pos_bound. by apply pow2_pos.
Qed.

Lemma le_store_op n x y : le_store n (op x y) = zip_with op (le_store n x) (le_store n y).
Proof.
  revert x y. induction n as [|n IH]; intros x y; [done|]. cbn [le_store zip_with].
  change 256 with (2 ^ 8). by rewrite op_mod_pow2, op_div_pow2, IH by lia.
Qed.

Lemma le_load_op l k : bytes_ok l -> bytes_ok k -> List.length l = List.length k ->
  le_load (zip_with op l k) = op (le_load l) (le_load k).
Proof.
  intros Hl Hk E. rewrite <- (le_store_load l (List.length l)) at 1 by done.
  rewrite <- (le_store_load k (List.length l)) at 1 by done.
  rewrite <- le_store_op, le_load_store. apply Z.mod_small.
  pose proof (le_load_bound l Hl) as Hx. pose proof (le_load_bound k Hk) as Hy.
  unfold zlen in *. rewrite <- E in Hy. apply op_range; [lia|done|done].
Qed.

Lemma rev_zip_with l k : List.length l = List.length k ->
  rev (zip_with op l k) = zip_with op (rev l) (rev k).
Proof.
  revert k. induction l as [|x l IH]; intros [|y k] E; try done. injection E as E.
  cbn [zip_with rev]. rewrite zip_with_app by (by rewrite !length_rev). by rewrite IH.
Qed.

Lemma byteswap_op n x y : byteswap n (op x y) = op (byteswap n x) (byteswap n y).
Proof.
  unfold byteswap. rewrite le_store_op, rev_zip_with by (by rewrite !length_le_store).
  apply le_load_op; [apply bytes_ok_rev, le_store_ok..|]. by rewrite !length_rev, !length_le_store.
Qed.
End bytewise.

Lemma byteswap_lxor n x y : byteswap n (Z.lxor x y) = Z.lxor (byteswap n x) (byteswap n y).
Proof. by apply (byteswap_op Z.lxor xorb); [apply Z.lxor_spec|]. Qed.
Lemma byteswap_land n x y : byteswap n (Z.land x y) = Z.land (byteswap n x) (byteswap n y).
Proof. by apply (byteswap_op Z.land andb); [apply Z.land_spec|]. Qed.

Lemma byteswap_lor n x y : byteswap n (Z.lor x y) = Z.lor (byteswap n x) (byteswap n y).
Proof. by apply (byteswap_op Z.lor orb); [apply Z.lor_spec|]. Qed.

(** ** Siblings *)

(** The block next to the block of [n] inside the block one bit larger. *)
Definition sibling (w len n : Z) : Z := Z.lxor (trunc w len n) (2 ^ (w - len)).

Lemma lxor_even_1 k : Z.lxor (2 * k) 1 = 2 * k + 1.
Proof.
  apply Z.bits_inj'. intros i Hi. rewrite Z.lxor_spec. change 1 with (2 * 0 + 1) at 1.
  destruct (Z.eqb_spec i 0) as [->|].
  - by rewrite Z.testbit_even_0, !Z.testbit_odd_0.
  - replace i with (Z.succ (i - 1)) by lia.
    rewrite Z.testbit_even_succ, !Z.testbit_odd_succ, Z.testbit_0_l by lia. apply xorb_false_r.
Qed.

Lemma lxor_1 q : Z.lxor q 1 = if Z.even q then q + 1 else q - 1.
Proof.
  rewrite Zeven_mod. destruct (Z.eqb_spec (q mod 2) 0) as [E|E].
  - replace q with (2 * (q / 2)) by zlia. apply lxor_even_1.
  - assert (q = Z.lxor (2 * (q / 2)) 1) as -> by (rewrite lxor_even_1; zlia).
    rewrite Z.lxor_assoc, Z.lxor_nilpotent, Z.lxor_0_r, lxor_even_1. lia.
Qed.

Lemma sibling_div w len n : 0 <= len <= w ->
  sibling w len n = Z.lxor (n / 2 ^ (w - len)) 1 * 2 ^ (w - len).
Proof.
  intros Hl. unfold sibling, trunc. rewrite <- !Z.shiftl_mul_pow2 by lia.
  rewrite Z.shiftl_lxor. f_equal. by rewrite Z.shiftl_mul_pow2, Z.mul_1_l by lia.
Qed.

Lemma div_pow2_succ w len n : 0 < len <= w -> n / 2 ^ (w - (len - 1)) = n / 2 ^ (w - len) / 2.
Proof.
  intros Hl. replace (w - (len - 1)) with (w - len + 1) by lia. rewrite Z.pow_add_r by lia.
  pose proof (pow2_pos (w - len)). by rewrite Z.div_div by lia.
Qed.

Lemma trunc_eq w len n m : 0 <= len <= w ->
  (trunc w len n = trunc w len m <-> n / 2 ^ (w - len) = m / 2 ^ (w - len)).
Proof. intros Hl. unfold trunc. pose proof (pow2_pos (w - len)). split; [nia|by intros ->]. Qed.

(** A number is in the sibling block exactly when it is in the block one bit
    larger and not in the block itself. *)
Lemma sibling_mem w len n m : 0 < len <= w ->
  (trunc w len m = sibling w len n <->
   trunc w (len - 1) m = trunc w (len - 1) n /\ trunc w len m <> trunc w len n).
Proof.
  intros Hl. rewrite !trunc_eq, sibling_div, !div_pow2_succ by lia. unfold trunc.
  pose proof (pow2_pos (w - len)). set (p := 2 ^ (w - len)) in *.
  assert (m / p * p = Z.lxor (n / p) 1 * p <-> m / p = Z.lxor (n / p) 1) as -> by nia.
  rewrite lxor_1. destruct (Z.even (n / p)) eqn:Ev; rewrite Zeven_mod in Ev.
  - apply Z.eqb_eq in Ev. zlia.
  - apply Z.eqb_neq in Ev. zlia.
Qed.

Lemma sibling_aligned w len n : 0 <= len <= w -> sibling w len n mod 2 ^ (w - len) = 0.
Proof. intros Hl. rewrite sibling_div by done. apply Z.mod_mul. pose proof (pow2_pos (w - len)). lia. Qed.

Lemma sibling_range w len n : 0 < len <= w -> 0 <= n < 2 ^ w -> 0 <= sibling w len n < 2 ^ w.
Proof.
  intros Hl Hn. unfold sibling. apply (op_range Z.lxor xorb); [apply Z.lxor_spec|done|lia| |].
  - pose proof (trunc_range w len n ltac:(lia) Hn). lia.
  - split; [apply Z.pow_nonneg; lia|]. apply Z.pow_lt_mono_r; lia.
Qed.

(** Clearing one bit more of the sibling gives the larger block. *)
Lemma sibling_clear w len n : 0 < len <= w -> 0 <= n < 2 ^ w ->
  Z.land (sibling w len n) (2 ^ w - 2 ^ (w - (len - 1))) = trunc w (len - 1) n.
Proof.
  intros Hl Hn. pose proof (sibling_range w len n Hl Hn) as Hs.
  pose proof (proj1 (sibling_mem w len n (sibling w len n) Hl)) as [E _].
  { apply trunc_id; [lia|]. apply sibling_aligned. lia. }
  rewrite <- E. destruct (Z.eqb_spec len 1) as [->|].
  - rewrite Z.sub_diag, Z.sub_0_r, Z.sub_diag, Z.land_0_r. by rewrite trunc_0 by lia.
  - by rewrite land_high_mask by lia.
Qed.

(** The blocks of two numbers stay equal when they grow. *)
Lemma trunc_mono w len len' n m : 0 <= len' <= len -> len <= w ->
  trunc w len n = trunc w len m -> trunc w len' n = trunc w len' m.
Proof.
  intros H1 H2. rewrite !trunc_eq by lia.
  replace (w - len') with (w - len + (len - len')) by lia. rewrite Z.pow_add_r by lia.
  pose proof (pow2_pos (w - len)). pose proof (pow2_pos (len - len')).
  rewrite <- !Z.div_div by lia. by intros ->.
Qed.

(** ** The loops *)

(** The ranges of the siblings for [i] lengths from [len] down. *)
Fixpoint siblings (b : addr) (len : Z) (i : nat) : list IPRange :=
  match i with
  | O => []
  | S i' => mk_range (awith b (sibling (awidth b) len (anum b))) len :: siblings b (len - 1) i'
  end.

Lemma flip_mask_val w len : 0 < len <= w -> 2 ^ (w - len) mod 2 ^ w = 2 ^ (w - len).
Proof.
  intros. apply Z.mod_small. split; [apply Z.pow_nonneg; lia|apply Z.pow_lt_mono_r; lia].
Qed.

Lemma subnet_mask_val w len : 0 < len <= w ->
  (- 2 ^ (w - len + 1)) mod 2 ^ w = 2 ^ w - 2 ^ (w - (len - 1)).
Proof.
  intros. replace (w - (len - 1)) with (w - len + 1) by lia.
  pose proof (pow2_pos (w - len + 1)).
  assert (2 ^ (w - len + 1) <= 2 ^ w) by (apply Z.pow_le_mono_r; lia).
  symmetry. apply Z.mod_unique with (-1); lia.
Qed.

Lemma mask_step w x : Z.shiftl (x mod 2 ^ w) 1 mod 2 ^ w = (x * 2) mod 2 ^ w.
Proof. rewrite Z.shiftl_mul_pow2 by lia. change (2 ^ 1) with 2. apply Zmult_mod_idemp_l. Qed.

Lemma flip_step w len : len <= w ->
  Z.shiftl (2 ^ (w - len) mod 2 ^ w) 1 mod 2 ^ w = 2 ^ (w - (len - 1)) mod 2 ^ w.
Proof.
  intros. rewrite mask_step. f_equal. rewrite Z.mul_comm, <- Z.pow_succ_r by lia. f_equal. lia.
Qed.

Lemma subnet_step w len : len <= w ->
  Z.shiftl ((- 2 ^ (w - len + 1)) mod 2 ^ w) 1 mod 2 ^ w = (- 2 ^ (w - (len - 1) + 1)) mod 2 ^ w.
Proof.
  intros. rewrite mask_step. f_equal. rewrite Z.mul_opp_l, Z.mul_comm, <- Z.pow_succ_r by lia.
  do 2 f_equal. lia.
Qed.

Lemma subnet_start w len : 0 < len <= w -> 1 < w ->
  shl w (wnot w 1) (w - len) = Ok ((- 2 ^ (w - len + 1)) mod 2 ^ w).
Proof.
  intros Hl Hw. rewrite shl_eq by lia. f_equal. unfold wnot. rewrite Z.shiftl_mul_pow2 by lia.
  rewrite Z.pow_add_r by lia. change (2 ^ 1) with 2.
  replace ((2 ^ w - 1 - 1) * 2 ^ (w - len)) with (- (2 ^ (w - len) * 2) + 2 ^ (w - len) * 2 ^ w) by ring.
  apply Z.mod_add. pose proof (pow2_pos w). lia.
Qed.

Lemma flip_start w len : 0 < len <= w -> shl w 1 (w - len) = Ok (2 ^ (w - len) mod 2 ^ w).
Proof. intros Hl. rewrite shl_eq by lia. by rewrite Z.shiftl_mul_pow2, Z.mul_1_l by lia. Qed.

Section loops.
Context `{BuildMode}.

Lemma sibling_ok b len : addr_ok b -> b <> NoAddr -> 0 < len <= awidth b ->
  arange_ok (awith b (sibling (awidth b) len (anum b))) len.
Proof.
  intros Hb Hne Hl. pose proof (sibling_range (awidth b) len (anum b) Hl (anum_range b Hb)) as Hs.
  split; [by destruct b|]. split; [by apply awith_ok|]. rewrite awidth_awith, anum_awith by done.
  split; [lia|]. apply sibling_aligned. lia.
Qed.

Lemma Subtract4_loop_spec n i len rl diff : addr4_ok n -> 0 <= rl -> len <= 32 ->
  i = Z.to_nat (len - rl) ->
  Subtract4_loop i (byteswap 4 (trunc 32 len n)) (2 ^ (32 - len) mod 2 ^ 32)
    ((- 2 ^ (32 - len + 1)) mod 2 ^ 32) len rl diff = Ok (diff ++ siblings (Addr4 n) len i).
Proof.
  intros Hn Hrl. revert len diff. induction i as [|i IH]; intros len diff Hl Ei;
    cbn [Subtract4_loop siblings]; [by rewrite app_nil_r|].
  rewrite Z.gtb_ltb, (proj2 (Z.ltb_lt rl len)) by lia.
  rewrite flip_mask_val, subnet_mask_val by lia. unfold ghtonl.
  rewrite <- byteswap_lxor. fold (sibling 32 len n).
  pose proof (sibling_ok (Addr4 n) len Hn ltac:(done) ltac:(cbn; lia)) as Hok.
  pose proof (UnsafeConstruct_repr _ _ Hok) as E. cbn [repr awith awidth anum] in E.
  change (IPAddress4 {| s_addr := byteswap 4 (sibling 32 len n) |}) with (repr4 (sibling 32 len n)).
  rewrite E, bind_Ok, <- byteswap_land, sibling_clear by (done || lia).
  rewrite <- (subnet_mask_val 32 len), <- (flip_mask_val 32 len) by lia. unfold u32.
  rewrite flip_step, subnet_step, IH by lia. by rewrite <- app_assoc.
Qed.

Lemma Subtract6_loop_spec n s i len rl diff : addr6_ok n s -> 0 <= rl -> len <= 128 ->
  i = Z.to_nat (len - rl) ->
  Subtract6_loop i (trunc 128 len n) (2 ^ (128 - len) mod 2 ^ 128)
    ((- 2 ^ (128 - len + 1)) mod 2 ^ 128) len rl s diff = Ok (diff ++ siblings (Addr6 n s) len i).
Proof.
  intros Hn Hrl. revert len diff. induction i as [|i IH]; intros len diff Hl Ei;
    cbn [Subtract6_loop siblings]; [by rewrite app_nil_r|].
  rewrite Z.gtb_ltb, (proj2 (Z.ltb_lt rl len)) by lia.
  rewrite flip_mask_val, subnet_mask_val by lia. fold (sibling 128 len n).
  pose proof (sibling_ok (Addr6 n s) len Hn ltac:(done) ltac:(cbn; lia)) as Hok.
  pose proof (UnsafeConstruct_repr _ _ Hok) as E. cbn [repr awith awidth anum] in E.
  destruct Hn as (Hn & Hs & Hsc). pose proof (sibling_range 128 len n ltac:(lia) Hn) as Hsr.
  rewrite MakeIPAddressWithOptionalScopeId_repr, bind_Ok by done.
  rewrite E, bind_Ok, sibling_clear by (done || lia).
  rewrite <- (subnet_mask_val 128 len), <- (flip_mask_val 128 len) by lia. unfold u128.
  rewrite flip_step, subnet_step, IH by lia. by rewrite <- app_assoc.
Qed.

Lemma IsProperSubRange_repr a la b lb : arange_ok a la -> arange_ok b lb ->
  IsProperSubRange (mk_range a la) (mk_range b lb) =
  Ok (bool_decide (la < lb /\ awidth a = awidth b /\ atrunc b la = a)).
Proof.
  intros Ha (_ & Hb & _). unfold IsProperSubRange. cbn [mk_range host_ length_].
  change {| host_ := repr a; length_ := la |} with (mk_range a la).
  destruct (Z.ltb_spec la lb).
  - rewrite IsWithinSubnet_repr by done. f_equal. apply bool_decide_ext. tauto.
  - by rewrite bool_decide_eq_false_2 by lia.
Qed.

Lemma SubtractIPRange_repr a la b lb : arange_ok a la -> arange_ok b lb ->
  la < lb -> awidth a = awidth b -> atrunc b la = a ->
  SubtractIPRange (mk_range a la) (mk_range b lb) = Ok (Some (siblings b lb (Z.to_nat (lb - la)))).
Proof.
  intros Ha Hb Hlt Ew Et. unfold SubtractIPRange. rewrite IsProperSubRange_repr by done.
  rewrite bool_decide_eq_true_2 by done. rewrite bind_Ok. cbn [negb mk_range host_ length_].
  pose proof Ha as (_ & _ & Hla & _). pose proof Hb as (Hne & Hbo & Hlb & Eb).
  rewrite (Z.geb_leb lb 1), (proj2 (Z.leb_le 1 lb)), DCHECK_true, bind_Ok by lia.
  change {| host_ := repr b; length_ := lb |} with (mk_range b lb).
  rewrite network_address_repr by done.
  destruct b as [|n|n s]; [done|..]; cbn [repr awidth anum] in *.
  - unfold repr4 at 1. cbv iota. rewrite bind_Ok, ipv4_address_repr4, bind_Ok.
    rewrite flip_start, bind_Ok, subnet_start, bind_Ok by lia. cbn [s_addr].
    rewrite <- (trunc_id 32 lb n) at 1 by done. by rewrite Subtract4_loop_spec, bind_Ok by (done || lia).
  - unfold repr6 at 1. cbv iota. rewrite bind_Ok, IPAddressToUInt128_repr6, bind_Ok by done.
    rewrite flip_start, bind_Ok, subnet_start, bind_Ok, scope_id_repr6, bind_Ok by (done || lia).
    rewrite <- (trunc_id 128 lb n) at 1 by done. by rewrite Subtract6_loop_spec, bind_Ok by (done || lia).
Qed.
End loops.

(** ** The partition *)

Section partition.
Context `{BuildMode}.

(** The number of ranges of a list that [IsWithinSubnet] finds [ip] in. *)
Definition within (ip : IPAddress) (r : IPRange) : bool :=
  match IsWithinSubnet r ip with Ok b => b | _ => false end.
Definition count_within (ip : IPAddress) (l : list IPRange) : nat :=
  List.length (List.filter (within ip) l).

(** Two addresses of one family and one scope id differ only in the number. *)
Lemma awith_same a b x y : a <> NoAddr -> awidth a = awidth b -> ascope a = ascope b ->
  (awith a x = awith b y <-> x = y).
Proof.
  destruct a as [|n|n s], b as [|m|m t]; cbn; try done; intros _ _ Es.
  - split; [by intros [= ->]|by intros ->].
  - rewrite Es. split; [by intros [= ->]|by intros ->].
Qed.

Lemma atrunc_num a len b : arange_ok a len -> addr_ok b -> awidth a = awidth b ->
  ascope a = ascope b -> (atrunc b len = a <-> trunc (awidth a) len (anum b) = anum a).
Proof.
  intros (Hne & Ha & _) Hb Ew Es. unfold atrunc. rewrite <- (awith_id a Ha) at 1. rewrite <- Ew.
  apply awith_same; [|done..]. by apply (awidth_not_none a).
Qed.

Lemma within_sibling b len m : addr_ok b -> b <> NoAddr -> 0 < len <= awidth b -> addr_ok m ->
  ascope b = ascope m ->
  within (repr m) (mk_range (awith b (sibling (awidth b) len (anum b))) len) =
  bool_decide (awidth b = awidth m /\ trunc (awidth b) len (anum m) = sibling (awidth b) len (anum b)).
Proof.
  intros Hb Hne Hl Hm Hs. unfold within.
  pose proof (sibling_ok b len Hb Hne Hl) as Hok. rewrite IsWithinSubnet_repr by done.
  rewrite awidth_awith. apply bool_decide_ext. unfold atrunc.
  split; intros [Ew Et]; (split; [done|]); rewrite <- Ew in *.
  - by apply awith_same in Et; [|apply (awidth_not_none b)|..].
  - by apply awith_same; [apply (awidth_not_none b)|..].
Qed.

Lemma count_siblings b m i len la : addr_ok b -> b <> NoAddr -> addr_ok m ->
  ascope b = ascope m -> 0 <= la -> la <= len <= awidth b -> i = Z.to_nat (len - la) ->
  count_within (repr m) (siblings b len i) =
  if bool_decide (awidth b = awidth m /\
       trunc (awidth b) la (anum m) = trunc (awidth b) la (anum b) /\
       trunc (awidth b) len (anum m) <> trunc (awidth b) len (anum b)) then 1%nat else 0%nat.
Proof.
  intros Hb Hne Hm Hs Hla. revert len. unfold count_within.
  induction i as [|i IH]; intros len Hl Ei; cbn [siblings List.filter].
  - assert (len = la) as -> by lia. rewrite bool_decide_eq_false_2 by tauto. done.
  - rewrite within_sibling by (done || lia).
    specialize (IH (len - 1) ltac:(lia) ltac:(lia)).
    pose proof (sibling_mem (awidth b) len (anum b) (anum m) ltac:(lia)) as Hmem.
    pose proof (trunc_mono (awidth b) (len - 1) la (anum m) (anum b) ltac:(lia) ltac:(lia)) as M1.
    pose proof (trunc_mono (awidth b) len (len - 1) (anum m) (anum b) ltac:(lia) ltac:(lia)) as M2.
    destruct (bool_decide_reflect (awidth b = awidth m /\
      trunc (awidth b) len (anum m) = sibling (awidth b) len (anum b))) as [[Ew E]|E].
    + cbn [List.length]. rewrite IH. apply Hmem in E as [E1 E2].
      rewrite bool_decide_eq_false_2 by tauto. by rewrite bool_decide_eq_true_2 by tauto.
    + rewrite IH. rewrite Hmem in E.
      erewrite bool_decide_ext; [reflexivity|].
      destruct (decide (trunc (awidth b) (len - 1) (anum m) = trunc (awidth b) (len - 1) (anum b))); tauto.
Qed.

Lemma siblings_ok b i len la : addr_ok b -> b <> NoAddr -> 0 <= la -> la <= len <= awidth b ->
  i = Z.to_nat (len - la) -> Forall range_ok (siblings b len i).
Proof.
  intros Hb Hne Hla. revert len. induction i as [|i IH]; intros len Hl Ei; cbn [siblings]; [done|].
  constructor; [|apply IH; lia]. eexists _, _. split; [|done]. apply sibling_ok; [done..|lia].
Qed.

Lemma length_siblings b i len : List.length (siblings b len i) = i.
Proof. revert len. induction i as [|i IH]; intros len; cbn; [done|]. by rewrite IH. Qed.
End partition.

Lemma scope_id_repr `{BuildMode} a : addr_ok a -> scope_id (repr a) = Ok (ascope a).
Proof. destruct a; cbn [addr_ok ascope]; [done|done|apply scope_id_repr6]. Qed.

(** C1. [SubtractIPRange] computes the set difference.  For two valid ranges it
    succeeds exactly when the second is a proper sub-range of the first, and then
    it writes one valid range per bit of the difference of the prefix lengths,
    and no check fails in any build mode.  When the two ranges carry the same
    scope id (0, none, or the same interface), an address with that scope id is
    inside exactly one of the written ranges when it is inside the first range
    and outside the second, and inside none of them otherwise.  (For other
    addresses this fails, see [SubtractIPRange_scoped]: a written range that
    leaves fe80::/64 or ff02::/64 loses the scope id.) *)
Theorem SubtractIPRange_partition `{BuildMode} r s :
  range_ok r -> range_ok s ->
  exists proper res, IsProperSubRange r s = Ok proper /\ SubtractIPRange r s = Ok res /\
    (is_Some res <-> proper = true) /\
    forall l, res = Some l ->
      zlen l = length_ s - length_ r /\ Forall range_ok l /\
      forall ip scope, ip_ok ip -> scope_id (host_ r) = Ok scope ->
        scope_id (host_ s) = Ok scope -> scope_id ip = Ok scope ->
        exists in_r in_s, IsWithinSubnet r ip = Ok in_r /\ IsWithinSubnet s ip = Ok in_s /\
          count_within ip l = if in_r && negb in_s then 1%nat else 0%nat.
Proof.
  intros (a & la & Ha & ->) (b & lb & Hb & ->). cbn [mk_range host_ length_] in *.
  change {| host_ := repr a; length_ := la |} with (mk_range a la).
  change {| host_ := repr b; length_ := lb |} with (mk_range b lb).
  rewrite IsProperSubRange_repr by done.
  destruct (bool_decide_reflect (la < lb /\ awidth a = awidth b /\ atrunc b la = a)) as [(Hlt & Ew & Et)|Hn].
  - rewrite SubtractIPRange_repr by done. eexists _, _. split; [done|]. split; [done|].
    split; [done|]. intros l E. injection E as <-.
    pose proof Ha as (_ & Hao & Hla & _). pose proof Hb as (Hne & Hbo & Hlb & Eb).
    split; [unfold zlen; rewrite length_siblings; lia|].
    split; [apply (siblings_ok b _ lb la); done || lia|].
    intros ip scope Hip Hs1 Hs2 Hs. apply repr_surj in Hip as (m & Hm & ->).
    rewrite scope_id_repr in Hs1, Hs2, Hs by done.
    injection Hs1 as Hs1. injection Hs2 as Hs2. injection Hs as Hs.
    rewrite !IsWithinSubnet_repr by done. eexists _, _. split; [done|]. split; [done|].
    rewrite (count_siblings b m _ lb la) by (done || congruence || lia).
    apply atrunc_num in Et; [|done || congruence..]. rewrite (trunc_id _ lb (anum b)) by (done || lia).
    rewrite Ew in Et. destruct (decide (awidth a = awidth m)) as [Em|Em].
    + pose proof (atrunc_num a la m Ha Hm Em ltac:(congruence)) as Q1.
      pose proof (atrunc_num b lb m Hb Hm ltac:(congruence) ltac:(congruence)) as Q2.
      rewrite Ew, Et in *. do 3 case_bool_decide; cbn [negb andb]; try done; exfalso; tauto.
    + rewrite Ew in Em |- *. do 3 case_bool_decide; cbn [negb andb]; try done; exfalso; tauto.
  - eexists _, None. split; [done|]. split; [|split; [|done]].
    + unfold SubtractIPRange. rewrite IsProperSubRange_repr by done.
      by rewrite bool_decide_eq_false_2 by done.
    + split; [by intros []|done].
Qed.

(** The scoped range fe80::/64 of interface 1 taken out of fe80::/10 of the same
    interface: the first range of the difference has no scope id left, and an
    unscoped address outside the larger range is inside one of the written ranges. *)
Lemma SubtractIPRange_scoped :
  let r := mk_range (Addr6 (0xfe80 * 2 ^ 112) 1) 10 in
  let s := mk_range (Addr6 (0xfe80 * 2 ^ 112) 1) 64 in
  let ip := repr6 (0xfe80 * 2 ^ 112 + 2 ^ 64) 0 in
  exists l, SubtractIPRange (H := debug_build) r s = Ok (Some l) /\
    IsWithinSubnet (H := debug_build) r ip = Ok false /\
    count_within (H := debug_build) ip l = 1%nat.
Proof. eexists. split; [vm_compute; reflexivity|]. split; vm_compute; reflexivity. Qed.

Lemma SubtractIPRange_partition_witness :
  let r := mk_range (Addr6 (0xfe80 * 2 ^ 112) 7) 64 in
  let s := mk_range (Addr6 (0xfe80 * 2 ^ 112) 7) 66 in
  let ip := repr6 (0xfe80 * 2 ^ 112 + 2 ^ 63 + 5) 7 in
  exists l, SubtractIPRange (H := debug_build) r s = Ok (Some l) /\
    count_within (H := debug_build) ip l = 1%nat.
Proof.
  intros r s ip. destruct (@SubtractIPRange_partition debug_build r s) as (p & res & E1 & E & [_ E2] & P).
  - eexists _, _. split; [|reflexivity]. repeat split; by vm_compute.
  - eexists _, _. split; [|reflexivity]. repeat split; by vm_compute.
  - vm_compute in E1. injection E1 as <-. destruct (E2 eq_refl) as [l ->].
    exists l. split; [exact E|]. destruct (P l eq_refl) as (_ & _ & Pip).
    destruct (Pip ip 7) as (in_r & in_s & R & S & C).
    + change (ip_ok (repr (Addr6 (0xfe80 * 2 ^ 112 + 2 ^ 63 + 5) 7))). apply repr_ok.
      repeat split; by vm_compute.
    + vm_compute. reflexivity.
    + vm_compute. reflexivity.
    + vm_compute. reflexivity.
    + vm_compute in R, S. injection R as <-. injection S as <-. exact C.
Defined.
