(* ===== verification/IPCover.v ===== *)
(** * Covering an interval of addresses by subnets

    [IPAddressIntervalToSubnets] walks from the first address to the last, taking
    at each step the widest subnet that starts there and does not pass the last
    address.  It terminates after at most [2 * width + 2] steps: the subnets grow
    while the alignment of the current address limits them, and shrink once the
    distance to the last address does. *)
From Stdlib Require Import ZArith Lia.
From stdpp Require Import base list numbers option.
From S2P Require Import Prelude.
From S2P Require Import Endian.
From S2P Require Import Bits.
From S2P Require Import IPAddr.
From S2P Require Import IPOrder.
From S2P Require Import IPRange.
From S2P Require Import IPRangeProps.
From S2P Require Import IPMask.
From S2P Require Import IPSubtract.
Local Open Scope Z_scope.

Section cover.
Context `{BuildMode}.
(** The family of the interval and its last number. *)
Context (a0 : addr) (L : Z).
Hypothesis Ha0 : addr_ok a0.
Hypothesis Hne : a0 <> NoAddr.
Hypothesis Hsc : ascope a0 = 0.
Hypothesis HL : 0 <= L < 2 ^ awidth a0.
#[local] Abbreviation w := (awidth a0).

Lemma w_pos : 0 < w.
Proof. destruct (awidth_cases a0 Hne); lia. Qed.

Lemma cur_ok c : 0 <= c < 2 ^ w -> addr_ok (awith a0 c) /\ awith a0 c <> NoAddr /\
  awidth (awith a0 c) = w /\ anum (awith a0 c) = c /\ ascope (awith a0 c) = 0.
Proof.
  intros Hc. split; [by apply awith_ok|]. split; [by destruct a0|].
  rewrite awidth_awith, anum_awith by done. split; [done|]. split; [done|]. by apply ascope_awith_0.
Qed.

Lemma awith_awith c d : awith (awith a0 c) d = awith a0 d.
Proof. pose proof Hsc. destruct a0 as [|n|n s]; [done..|]. cbn in *. subst s. by rewrite !keep_scope_0. Qed.

Lemma awith_eq c d : awith a0 c = awith a0 d <-> c = d.
Proof.
  split; [|by intros ->]. intros E. rewrite <- (anum_awith a0 c), <- (anum_awith a0 d) by done. by rewrite E.
Qed.

Lemma ltb_cur c d : 0 <= c < 2 ^ w -> 0 <= d < 2 ^ w ->
  IPAddress_ltb (repr (awith a0 c)) (repr (awith a0 d)) = Ok (c <? d).
Proof.
  intros Hc Hd. destruct (cur_ok c Hc) as (C1 & C2 & C3 & C4 & C5), (cur_ok d Hd) as (D1 & D2 & D3 & D4 & D5).
  rewrite IPAddress_ltb_repr by done. unfold addr_ltb. rewrite addr_ltb_num by (done || congruence).
  by rewrite C4, D4.
Qed.

(** A block of size [2^k] starts at [c] and stays below [L]. *)
Definition fits (c k : Z) : Prop := c mod 2 ^ k = 0 /\ c + 2 ^ k - 1 <= L.

Lemma fits_range c k : 0 <= c < 2 ^ w -> 0 <= k <= w -> fits c k ->
  arange_ok (awith a0 c) (w - k) /\ 0 <= c + 2 ^ k - 1 < 2 ^ w.
Proof.
  intros Hc Hk [E1 E2]. pose proof (pow2_pos k). split; [|lia].
  destruct (cur_ok c Hc) as (C1 & C2 & C3 & C4 & C5). split; [done|]. split; [done|].
  rewrite C3, C4. replace (w - (w - k)) with k by lia. split; [lia|done].
Qed.

Lemma broadcast_cur c k : 0 <= c < 2 ^ w -> 0 <= k <= w -> c mod 2 ^ k = 0 ->
  broadcast_address (mk_range (awith a0 c) (w - k)) = Ok (repr (awith a0 (c + 2 ^ k - 1))).
Proof.
  intros Hc Hk E. destruct (cur_ok c Hc) as (C1 & C2 & C3 & C4 & C5).
  rewrite broadcast_address_repr.
  - unfold abcast. rewrite C3, C4, awith_awith. unfold blast. by replace (w - (w - k)) with k by lia.
  - split; [done|]. split; [done|]. rewrite C3, C4. replace (w - (w - k)) with k by lia. split; [lia|done].
Qed.

Lemma blast_in c k : 0 <= c < 2 ^ w -> 0 <= k <= w -> c mod 2 ^ k = 0 -> c + 2 ^ k - 1 < 2 ^ w.
Proof.
  intros Hc Hk E. pose proof (blast_range w (w - k) c ltac:(lia) Hc) as B. unfold blast in B.
  replace (w - (w - k)) with k in B by lia. apply B in E. lia.
Qed.

(** One test of the inner loop, on the block one bit wider. *)
Lemma Widen_step c len i sub : 0 <= c < 2 ^ w -> 0 <= len < w ->
  WidenSubnet (S i) (repr (awith a0 c)) (repr (awith a0 L)) len sub =
  if bool_decide (fits c (w - len))
  then WidenSubnet i (repr (awith a0 c)) (repr (awith a0 L)) (len - 1) (mk_range (awith a0 c) len)
  else Ok sub.
Proof.
  intros Hc Hl. destruct (cur_ok c Hc) as (C1 & C2 & C3 & C4 & C5). cbn [WidenSubnet].
  rewrite Z.geb_leb, (proj2 (Z.leb_le 0 len)) by lia.
  rewrite IPRange_make_repr, bind_Ok by (done || lia). rewrite C3, Z.min_l by lia.
  cbn [mk_range host_]. unfold atrunc at 1. rewrite C3, C4, awith_awith.
  pose proof (trunc_range w len c ltac:(lia) Hc) as Ht.
  destruct (cur_ok (trunc w len c) ltac:(lia)) as (D1 & _).
  rewrite IPAddress_eqb_repr by done.
  destruct (bool_decide_reflect (awith a0 (trunc w len c) = awith a0 c)) as [E|E];
    rewrite awith_eq in E; cbn [negb].
  - assert (c mod 2 ^ (w - len) = 0) as Em by (rewrite <- E; apply trunc_mod; lia).
    change {| host_ := _; length_ := _ |} with (mk_range (atrunc (awith a0 c) len) len).
    replace (atrunc (awith a0 c) len) with (awith a0 c) by (unfold atrunc; by rewrite C3, C4, awith_awith, E).
    pose proof (broadcast_cur c (w - len) Hc ltac:(lia) Em) as Eb.
    pose proof (blast_in c (w - len) Hc ltac:(lia) Em) as Hb. pose proof (pow2_pos (w - len)).
    replace (w - (w - len)) with len in Eb by lia. rewrite Eb, bind_Ok, ltb_cur, bind_Ok by lia.
    destruct (Z.ltb_spec L (c + 2 ^ (w - len) - 1)).
    + rewrite bool_decide_eq_false_2; [done|]. intros [_ ?]. lia.
    + by rewrite bool_decide_eq_true_2 by (split; [done|lia]).
  - rewrite bool_decide_eq_false_2; [done|]. intros [Em _]. apply E. apply trunc_id; [lia|done].
Qed.

(** The inner loop stops at the widest block that fits. *)
Lemma Widen_spec c i k : 0 <= c < 2 ^ w -> 0 <= k <= w -> fits c k -> i = Z.to_nat (w - k) ->
  exists k', WidenSubnet i (repr (awith a0 c)) (repr (awith a0 L)) (w - k - 1) (mk_range (awith a0 c) (w - k))
      = Ok (mk_range (awith a0 c) (w - k')) /\
    k <= k' <= w /\ fits c k' /\ (k' = w \/ ~ fits c (k' + 1)).
Proof.
  intros Hc. revert k. induction i as [|i IH]; intros k Hk Hf Ei.
  - exists k. split; [done|]. split; [lia|]. split; [done|]. left. lia.
  - rewrite Widen_step by lia. replace (w - (w - k - 1)) with (k + 1) by lia.
    destruct (bool_decide_reflect (fits c (k + 1))) as [Hf'|Hf'].
    + destruct (IH (k + 1) ltac:(lia) Hf' ltac:(lia)) as (k' & E & Hk' & F & M).
      exists k'. replace (w - (k + 1)) with (w - k - 1) in E by lia. split; [exact E|].
      split; [lia|]. done.
    + exists k. split; [done|]. split; [lia|]. split; [done|by right].
Qed.

(** ** The outer loop *)

(** Consecutive aligned blocks from [c] to [L]. *)
Fixpoint tiling (c : Z) (l : list IPRange) : Prop :=
  match l with
  | [] => c = L + 1
  | r :: l' => exists k, 0 <= k <= w /\ r = mk_range (awith a0 c) (w - k) /\ c mod 2 ^ k = 0 /\
                 tiling (c + 2 ^ k) l'
  end.

Lemma tiling_le c l : tiling c l -> c <= L + 1.
Proof.
  revert c. induction l as [|r l IH]; intros c; cbn [tiling]; [lia|].
  intros (k & Hk & _ & _ & T). apply IH in T. pose proof (pow2_pos k). lia.
Qed.

Lemma single_cur c : 0 <= c < 2 ^ w ->
  IPRange_single (repr (awith a0 c)) = Ok (mk_range (awith a0 c) w).
Proof.
  intros Hc. destruct (cur_ok c Hc) as (C1 & C2 & C3 & C4 & C5).
  unfold IPRange_single. rewrite IPAddressLength_repr, bind_Ok, C3 by done.
  replace (address_family (repr (awith a0 c)) =? AF_UNSPEC) with false by (by destruct a0).
  cbn [negb]. apply IPRange_make_arange. pose proof w_pos. split; [done|]. split; [done|].
  rewrite C3, C4, Z.sub_diag, Z.pow_0_r, Z.mod_1_r. split; [lia|done].
Qed.

Lemma plus_one_cur c old : 0 <= c < 2 ^ w ->
  exists r, IPAddressPlusN (repr (awith a0 c)) 1 old = Ok (bool_decide (c + 1 < 2 ^ w), r) /\
    (c + 1 < 2 ^ w -> r = repr (awith a0 (c + 1))).
Proof.
  intros Hc. destruct (cur_ok c Hc) as (C1 & C2 & C3 & C4 & C5).
  destruct (IPAddressPlusN_repr (awith a0 c) 1 old C1 C2 ltac:(lia)) as (r & E & Hr).
  rewrite C3, C4, awith_awith in *. exists r. rewrite E. split; [|intros; apply Hr; lia].
  do 2 f_equal. apply bool_decide_ext. lia.
Qed.

Lemma loop_stop fuel c acc : 0 <= c < 2 ^ w -> L < c ->
  IntervalToSubnets_loop (S fuel) (repr (awith a0 c)) (repr (awith a0 L)) acc = Ok (Some acc).
Proof.
  intros Hc Hl. cbn [IntervalToSubnets_loop]. rewrite ltb_cur, bind_Ok by done.
  by rewrite (proj2 (Z.ltb_lt L c)) by lia.
Qed.

(** One iteration: the widest block that fits, then the address after it. *)
Lemma loop_step fuel c acc : 0 <= c -> c <= L ->
  exists k, 0 <= k <= w /\ fits c k /\ (k = w \/ ~ fits c (k + 1)) /\
    IntervalToSubnets_loop (S fuel) (repr (awith a0 c)) (repr (awith a0 L)) acc =
    let acc := acc ++ [mk_range (awith a0 c) (w - k)] in
    if bool_decide (c + 2 ^ k < 2 ^ w)
    then IntervalToSubnets_loop fuel (repr (awith a0 (c + 2 ^ k))) (repr (awith a0 L)) acc
    else Ok (Some acc).
Proof.
  intros H0 Hc. assert (0 <= c < 2 ^ w) as Hcw by lia.
  destruct (cur_ok c Hcw) as (C1 & C2 & C3 & C4 & C5).
  assert (fits c 0) as F0 by (split; [by rewrite Z.pow_0_r, Z.mod_1_r|lia]).
  pose proof w_pos as Hw.
  destruct (Widen_spec c (Z.to_nat w) 0 Hcw ltac:(lia) F0 ltac:(f_equal; lia)) as (k & E & Hk & F & M).
  rewrite Z.sub_0_r in E. destruct (fits_range c k Hcw Hk F) as [Hok Hb].
  destruct (plus_one_cur (c + 2 ^ k - 1) (repr (awith a0 c)) Hb) as (r & Ep & Hr).
  replace (c + 2 ^ k - 1 + 1) with (c + 2 ^ k) in * by lia.
  exists k. split; [done|]. split; [done|]. split; [done|]. cbn [IntervalToSubnets_loop].
  rewrite ltb_cur, bind_Ok by done. rewrite (proj2 (Z.ltb_ge L c)) by lia.
  rewrite single_cur, bind_Ok, IPAddressLength_repr, bind_Ok, C3 by done.
  rewrite E, bind_Ok, broadcast_cur, bind_Ok by (done || apply F). cbv zeta. rewrite Ep, bind_Ok.
  destruct (bool_decide_reflect (c + 2 ^ k < 2 ^ w)); cbn [negb]; [|done]. by rewrite Hr.
Qed.

Definition covered (fuel : nat) (c : Z) (acc : list IPRange) : Prop :=
  exists l, IntervalToSubnets_loop fuel (repr (awith a0 c)) (repr (awith a0 L)) acc = Ok (Some (acc ++ l)) /\
    tiling c l.

(** The step as a reduction of [covered]. *)
Lemma covered_step fuel c acc : 0 <= c <= L ->
  exists k, 0 <= k <= w /\ fits c k /\ (k = w \/ ~ fits c (k + 1)) /\
    ((c + 2 ^ k < 2 ^ w -> forall acc', covered fuel (c + 2 ^ k) acc') -> covered (S fuel) c acc).
Proof.
  intros Hc. destruct (loop_step fuel c acc) as (k & Hk & F & M & E); [lia..|].
  exists k. split; [done|]. split; [done|]. split; [done|]. intros IH. unfold covered. rewrite E. cbv zeta.
  destruct (bool_decide_reflect (c + 2 ^ k < 2 ^ w)) as [Hlt|Hge].
  - destruct (IH Hlt (acc ++ [mk_range (awith a0 c) (w - k)])) as (l & -> & T).
    eexists (_ :: l). rewrite <- app_assoc. split; [done|]. exists k. split; [done|]. split; [done|].
    split; [apply F|done].
  - eexists [_]. split; [done|]. exists k. split; [done|]. split; [done|]. destruct F as [F1 F2].
    split; [done|]. cbn [tiling]. lia.
Qed.

Lemma covered_stop fuel acc : L + 1 < 2 ^ w -> covered (S fuel) (L + 1) acc.
Proof.
  intros. exists []. rewrite loop_stop by lia. by rewrite app_nil_r.
Qed.

Lemma fits_wider c k : 0 <= k -> fits c k -> ~ fits c (k + 1) ->
  c mod 2 ^ (k + 1) = 0 -> L - (c + 2 ^ k) + 1 < 2 ^ k.
Proof.
  intros Hk _ Hn E. rewrite Z.pow_add_r in * by lia. change (2 ^ 1) with 2 in *.
  assert (~ c + 2 ^ k * 2 - 1 <= L); [|lia]. intros Hle. apply Hn. split; by rewrite Z.pow_add_r by lia.
Qed.

Lemma mod_pow2_add c k j : 0 <= j <= k -> c mod 2 ^ j = 0 -> (c + 2 ^ k) mod 2 ^ j = 0.
Proof.
  intros Hj E. rewrite (pow2_split j k) by lia. rewrite Z.mod_add; [done|]. pose proof (pow2_pos j). lia.
Qed.

(** Once less than [2^k] addresses remain from an address aligned to [2^k],
    every block is smaller than the one before. *)
Lemma covered_shrinking fuel c acc k : 0 <= c <= L + 1 -> c < 2 ^ w -> 0 <= k <= w ->
  k < Z.of_nat fuel -> c mod 2 ^ k = 0 -> L - c + 1 < 2 ^ k -> covered fuel c acc.
Proof.
  revert c acc k. induction fuel as [|fuel IH]; intros c acc k Hc Hcw Hk Hf E R; [lia|].
  destruct (Z.eqb_spec c (L + 1)) as [->|Hne1]; [apply covered_stop; lia|].
  destruct (covered_step fuel c acc) as (k' & Hk' & F & M & Hs); [lia|]. apply Hs. intros Hlt acc'.
  assert (k' < k) as Hkk.
  { apply (Z.pow_lt_mono_r_iff 2); [lia..|]. destruct F as [_ F]. lia. }
  destruct M as [->|M]; [lia|].
  assert (c mod 2 ^ (k' + 1) = 0) as E1 by (apply mod_pow2_le with k; [lia|done]).
  pose proof (fits_wider c k' ltac:(lia) F M E1) as R'. destruct F as [F1 F2]. pose proof (pow2_pos k').
  apply (IH (c + 2 ^ k') acc' k'); try lia. apply mod_pow2_add; [lia|done].
Qed.

(** Before that, the alignment of the current address grows. *)
Lemma covered_growing fuel c acc j : 0 <= c <= L + 1 -> c < 2 ^ w -> 0 <= j <= w ->
  2 * w - j + 1 < Z.of_nat fuel -> c mod 2 ^ j = 0 -> covered fuel c acc.
Proof.
  revert c acc j. induction fuel as [|fuel IH]; intros c acc j Hc Hcw Hj Hf E; [lia|].
  destruct (Z.eqb_spec c (L + 1)) as [->|Hne1]; [apply covered_stop; lia|].
  destruct (covered_step fuel c acc) as (k & Hk & F & M & Hs); [lia|]. apply Hs. intros Hlt acc'.
  pose proof F as [F1 F2]. pose proof (pow2_pos k).
  destruct M as [->|M]; [lia|].
  destruct (Z.eqb_spec (c mod 2 ^ (k + 1)) 0) as [E1|E1].
  - apply (covered_shrinking _ _ _ k); try lia; [apply mod_pow2_add; [lia|done]|].
    apply fits_wider; [lia|done..].
  - assert (k < w) by (destruct (Z.eqb_spec k w) as [->|]; lia).
    assert (j <= k).
    { destruct (Z.leb_spec j k); [done|]. exfalso. apply E1. apply mod_pow2_le with j; [lia|done]. }
    apply (IH (c + 2 ^ k) acc' (k + 1)); try lia.
    rewrite Z.pow_add_r in * by lia. change (2 ^ 1) with 2 in *.
    pose proof (Z.div_mod c (2 ^ k) ltac:(lia)) as D. rewrite F1, Z.add_0_r in D.
    set (q := c / 2 ^ k) in D. rewrite D in E1 |- *.
    replace (2 ^ k * q + 2 ^ k) with (2 ^ k * (q + 1)) by ring.
    rewrite Z.mul_mod_distr_l in E1 |- * by lia.
    assert (q mod 2 <> 0) by (intros Eq; apply E1; rewrite Eq; lia).
    assert ((q + 1) mod 2 = 0) as -> by zlia. lia.
Qed.

(** ** Membership *)

Lemma within_block_range c k m : 0 <= c < 2 ^ w -> 0 <= k <= w -> c mod 2 ^ k = 0 ->
  addr_ok m -> ascope m = 0 ->
  within (repr m) (mk_range (awith a0 c) (w - k)) =
  bool_decide (w = awidth m /\ c <= anum m < c + 2 ^ k).
Proof.
  intros Hc Hk E Hm Hs. destruct (cur_ok c Hc) as (C1 & C2 & C3 & C4 & C5). unfold within.
  assert (arange_ok (awith a0 c) (w - k)) as Hok.
  { split; [done|]. split; [done|]. rewrite C3, C4. replace (w - (w - k)) with k by lia. split; [lia|done]. }
  rewrite IsWithinSubnet_repr, C3 by done. apply bool_decide_ext.
  destruct (decide (w = awidth m)) as [Ew|]; [|tauto].
  rewrite within_block by (done || congruence). rewrite C3, C4. unfold blast.
  replace (w - (w - k)) with k by lia. pose proof (pow2_pos k). split; intros [? ?]; (split; [done|lia]).
Qed.

Lemma count_tiling c l m : 0 <= c -> tiling c l -> addr_ok m -> ascope m = 0 ->
  count_within (repr m) l = if bool_decide (w = awidth m /\ c <= anum m <= L) then 1%nat else 0%nat.
Proof.
  intros Hc T Hm Hs. revert c Hc T. unfold count_within.
  induction l as [|r l IH]; intros c Hc T; cbn [tiling] in T.
  - subst c. rewrite bool_decide_eq_false_2 by lia. done.
  - destruct T as (k & Hk & -> & E & T). pose proof (tiling_le _ _ T). pose proof (pow2_pos k).
    cbn [List.filter]. rewrite within_block_range by (done || lia).
    specialize (IH (c + 2 ^ k) ltac:(lia) T).
    destruct (bool_decide_reflect (w = awidth m /\ c <= anum m < c + 2 ^ k)) as [[Ew Hin]|Hout];
      cbn [List.length]; rewrite IH.
    + rewrite bool_decide_eq_false_2 by lia. by rewrite bool_decide_eq_true_2 by lia.
    + erewrite bool_decide_ext; [reflexivity|]. lia.
Qed.

Lemma tiling_ok c l : 0 <= c -> tiling c l -> Forall range_ok l.
Proof.
  revert c. induction l as [|r l IH]; intros c Hc T; [done|]. cbn [tiling] in T.
  destruct T as (k & Hk & -> & E & T). pose proof (tiling_le _ _ T). pose proof (pow2_pos k).
  constructor; [|apply (IH (c + 2 ^ k)); [lia|done]]. eexists _, _. split; [|done].
  apply fits_range; [lia|lia|split; [done|lia]].
Qed.
End cover.

(** The interval inside one family. *)
Lemma IntervalToSubnets_same `{BuildMode} fuel a b : (258 <= fuel)%nat -> addr_ok a -> addr_ok b ->
  ascope a = 0 -> ascope b = 0 -> awidth a = awidth b -> a <> NoAddr ->
  exists l, IntervalToSubnets_loop fuel (repr a) (repr b) [] = Ok (Some l) /\ Forall range_ok l /\
    (l = [] <-> anum b < anum a) /\
    forall m, addr_ok m -> ascope m = 0 -> count_within (repr m) l =
      if bool_decide (awidth a = awidth m /\ anum a <= anum m <= anum b) then 1%nat else 0%nat.
Proof.
  intros Hf Ha Hb Hsa Hsb Ew Hne. pose proof (anum_range a Ha) as Ra. pose proof (anum_range b Hb) as Rb.
  assert (b = awith a (anum b)) as ->.
  { apply addr_num_ext; rewrite ?awidth_awith, ?anum_awith; try done.
    - apply awith_ok; [done|]. by rewrite Ew.
    - by apply (awidth_not_none a).
    - by rewrite ascope_awith_0. }
  rewrite anum_awith by done. rewrite <- Ew in Rb. set (L := anum b) in *. clearbody L.
  assert (repr a = repr (awith a (anum a))) as -> by (by rewrite awith_id). destruct (Z.ltb_spec L (anum a)).
  - destruct fuel as [|fuel]; [lia|]. exists []. rewrite loop_stop by (done || lia).
    split; [done|]. split; [done|]. split; [done|]. intros m _ _. by rewrite bool_decide_eq_false_2 by lia.
  - pose proof (awidth_cases a Hne).
    destruct (covered_growing a L Ha Hne Hsa Rb fuel (anum a) [] 0) as (l & E & T); try lia.
    { by rewrite Z.pow_0_r, Z.mod_1_r. }
    exists l. split; [exact E|]. split; [eapply tiling_ok; [..|exact T]; done || lia|].
    split; [|intros; apply count_tiling; done || lia].
    split; [|lia]. intros ->. cbn [tiling] in T. lia.
Qed.

(** C2. [IPAddressIntervalToSubnets] tiles the interval.  For initialized
    addresses without scope ids of one family, and with fuel for 258 iterations of
    its outer loop, it finishes without a failed check; it returns true exactly
    when the first address is not above the last; and the subnets written are
    valid ranges such that an address without scope id lies in exactly one of them
    when it is between the first and the last address in the order of
    [ThreeWayCompare], and in none of them otherwise.  Addresses of different
    families, or uninitialized ones, give false and no subnet. *)
Theorem IPAddressIntervalToSubnets_covers `{BuildMode} fuel first last :
  (258 <= fuel)%nat -> ip_ok first -> ip_ok last ->
  has_scope first = false -> has_scope last = false ->
  exists l b, IPAddressIntervalToSubnets fuel first last = Ok (Some (l, b)) /\
    Forall range_ok l /\
    (address_family first = address_family last /\ address_family first <> AF_UNSPEC ->
       (b = true <-> ThreeWayCompare first last <> Ok Gt) /\
       forall ip, ip_ok ip -> has_scope ip = false ->
         exists lo hi, ThreeWayCompare first ip = Ok lo /\ ThreeWayCompare ip last = Ok hi /\
           (count_within ip l = 1%nat /\ lo <> Gt /\ hi <> Gt \/
            count_within ip l = 0%nat /\ (lo = Gt \/ hi = Gt))) /\
    (address_family first <> address_family last \/ address_family first = AF_UNSPEC ->
       l = [] /\ b = false).
Proof.
  intros Hf H1 H2 Hs1 Hs2. apply repr_surj in H1 as (a & Ha & ->). apply repr_surj in H2 as (b & Hb & ->).
  apply unscoped in Hs1, Hs2. unfold IPAddressIntervalToSubnets. rewrite address_family_eqb by done.
  destruct (decide (awidth a = awidth b /\ a <> NoAddr)) as [[Ew Hne]|Hn].
  - rewrite bool_decide_eq_true_2 by done.
    replace (address_family (repr a) =? AF_UNSPEC) with false by (by destruct a). cbn [negb orb].
    destruct (IntervalToSubnets_same fuel a b) as (l & -> & Hl & Hnil & Hc); try done.
    rewrite bind_Ok. eexists _, _. split; [done|]. split; [done|]. split.
    + intros _. rewrite ThreeWayCompare_repr, addr_ltb_num by done. split.
      * rewrite (inj_iff Ok), Z.compare_gt_iff. destruct l; [|split; [|done]; intros _ G].
        -- split; [done|]. intros G. exfalso. apply G. by apply Hnil.
        -- by apply Hnil in G.
      * intros ip Hip Hs. apply repr_surj in Hip as (m & Hm & ->). apply unscoped in Hs.
        rewrite Hc, !ThreeWayCompare_repr by done. eexists _, _. split; [done|]. split; [done|].
        destruct (decide (awidth a = awidth m)) as [Em|Em].
        -- rewrite (addr_ltb_num a m), (addr_ltb_num m b) by (done || congruence || by apply (awidth_not_none a)).
           rewrite !Z.compare_gt_iff.
           case_bool_decide; [left|right]; (split; [done|]); lia.
        -- rewrite bool_decide_eq_false_2 by tauto. right. split; [done|].
           destruct a, b, m; cbn in *; try done; auto.
    + intros [G|G]; exfalso; destruct a, b; done.
  - assert (negb (bool_decide (awidth a = awidth b)) || (address_family (repr a) =? AF_UNSPEC) = true) as ->.
    { case_bool_decide; [|done]. destruct a; [done|..]; exfalso; apply Hn; done. }
    eexists _, _. split; [done|]. split; [done|]. split; [|done].
    intros [E1 E2]. exfalso. apply Hn. destruct a, b; done.
Qed.

Lemma IPAddressIntervalToSubnets_covers_witness :
  exists l b, IPAddressIntervalToSubnets (H := opt_build) 258 (repr4 1) (repr4 0xFFFFFFFE) = Ok (Some (l, b)).
Proof.
  destruct (@IPAddressIntervalToSubnets_covers opt_build 258 (repr4 1) (repr4 0xFFFFFFFE))
    as (l & b & E & _); [lia | | | reflexivity | reflexivity |].
  - apply (repr_ok (Addr4 1)). split; by vm_compute.
  - apply (repr_ok (Addr4 0xFFFFFFFE)). split; by vm_compute.
  - by exists l, b.
Defined.
