(* ===== verification/IPText.v ===== *)
(** * Text of IP addresses

    Printing into a character buffer ([IPAddress::ToCharBuf], [ToString]) and
    parsing ([StringToInAddr], [StringToIn6Addr], [StringToIPAddress]).  A
    character is its byte.  The contents of a local array before it is written
    are an argument of the definition: nothing may depend on them. *)
From Stdlib Require Import ZArith Lia Ascii String.
From stdpp Require Import base list numbers option.
From S2P Require Import Prelude.
From S2P Require Import Endian.
From S2P Require Import IPAddr.
Local Open Scope Z_scope.

(** ** Printing *)

(** [*buffer++ = c]. *)
Definition put (m : list Z) (buffer c : Z) : outcome (list Z * Z) :=
  m ← store8 m buffer c; Ok (m, buffer + 1).

(** [strings/util.h]: [two_ASCII_digits[i]] are the two digits of [i]. *)
Definition two_ASCII_digits : list (list Z) :=
  map (fun i => [ch "0" + Z.of_nat i / 10; ch "0" + Z.of_nat i mod 10]) (seq 0 100).

Section text.
Context `{BuildMode}.

Definition PutTwoDigits (m : list Z) (i buf : Z) : outcome (list Z) :=
  _ ← DCHECK (i <? 100);
  match (if i <? 0 then None else two_ASCII_digits !! Z.to_nat i) with
  | Some d => store_bytes m buf d
  | None => UB
  end.

Definition FastOctetToBuffer (m : list Z) (octet buf : Z) : outcome (list Z * Z) :=
  if octet >=? 100 then
    m ← PutTwoDigits m (Z.quot octet 10) buf;
    put m (buf + 2) (ch "0" + Z.rem octet 10)
  else if octet >=? 10 then
    m ← PutTwoDigits m octet buf; Ok (m, buf + 2)
  else put m buf (ch "0" + octet).

Definition IPv4ToCharBuf (octets : list Z) (m : list Z) (buffer : Z) : outcome (list Z * Z) :=
  o0 ← load8 octets 0; '(m, buffer) ← FastOctetToBuffer m o0 buffer;
  '(m, buffer) ← put m buffer (ch ".");
  o1 ← load8 octets 1; '(m, buffer) ← FastOctetToBuffer m o1 buffer;
  '(m, buffer) ← put m buffer (ch ".");
  o2 ← load8 octets 2; '(m, buffer) ← FastOctetToBuffer m o2 buffer;
  '(m, buffer) ← put m buffer (ch ".");
  o3 ← load8 octets 3; '(m, buffer) ← FastOctetToBuffer m o3 buffer;
  m ← store8 m buffer 0; Ok (m, buffer).

Definition hexdigits : list Z := str "0123456789abcdef".

Definition FastWordToBuffer (m : list Z) (word buffer : Z) : outcome (list Z * Z) :=
  '(m, buffer) ← (if negb (Z.shiftr word 12 =? 0)
                  then c ← load8 hexdigits (Z.shiftr word 12); put m buffer c
                  else Ok (m, buffer));
  '(m, buffer) ← (if negb (Z.shiftr word 8 =? 0)
                  then c ← load8 hexdigits (Z.land (Z.shiftr word 8) 0xf); put m buffer c
                  else Ok (m, buffer));
  '(m, buffer) ← (if negb (Z.shiftr word 4 =? 0)
                  then c ← load8 hexdigits (Z.land (Z.shiftr word 4) 0xf); put m buffer c
                  else Ok (m, buffer));
  c ← load8 hexdigits (Z.land word 0xf); put m buffer c.

(** The loop over the words left from index [i]. *)
Fixpoint FindLongest_loop (addr : list Z) (i cnt best_len best_start : Z) : Z :=
  match addr with
  | [] => best_start
  | w :: addr' =>
      if w =? 0 then
        let cnt := cnt + 1 in
        if cnt >? best_len then FindLongest_loop addr' (i + 1) cnt cnt (i + 1 - cnt)
        else FindLongest_loop addr' (i + 1) cnt best_len best_start
      else FindLongest_loop addr' (i + 1) 0 best_len best_start
  end.

Definition FindLongestZeroWordSequence (addr : list Z) : Z := FindLongest_loop addr 0 0 1 (-1).

(** [while (i < 8 && addr[i] == 0) ++i;]; [n] bounds the iterations. *)
Fixpoint skip_zero_words (n : nat) (addr : list Z) (i : Z) : Z :=
  match n with
  | O => i
  | S n' => if (i <? 8) && (nth (Z.to_nat i) addr 0 =? 0) then skip_zero_words n' addr (i + 1) else i
  end.

(** [for (; i < 8; ++i) { *buffer++ = ':'; ... }] over the words from [i] on. *)
Fixpoint colon_words (addr : list Z) (m : list Z) (buffer : Z) : outcome (list Z * Z) :=
  match addr with
  | [] => Ok (m, buffer)
  | w :: addr' =>
      '(m, buffer) ← put m buffer (ch ":");
      '(m, buffer) ← FastWordToBuffer m (gntohs w) buffer;
      colon_words addr' m buffer
  end.

(** The loop of the general case at index [i]; [n] bounds the iterations. *)
Fixpoint general_words (n : nat) (addr : list Z) (i start : Z) (m : list Z) (buffer : Z)
    : outcome (list Z * Z) :=
  match n with
  | O => Ok (m, buffer)
  | S n' =>
      if i <? 8 then
        '(m, buffer, i, stop) ←
          (if i =? start then
             let i := skip_zero_words 8 addr (i + 2) in
             '(m, buffer) ← put m buffer (ch ":");
             if i =? 8 then '(m, buffer) ← put m buffer (ch ":"); Ok (m, buffer, i, true)
             else Ok (m, buffer, i, false)
           else Ok (m, buffer, i, false));
        if (stop : bool) then Ok (m, buffer)
        else
          '(m, buffer) ← (if negb (i =? 0) then put m buffer (ch ":") else Ok (m, buffer));
          w ← load8 addr i;
          '(m, buffer) ← FastWordToBuffer m (gntohs w) buffer;
          general_words n' addr (i + 1) start m buffer
      else Ok (m, buffer)
  end.

Definition words_of (addr : in6_addr) : list Z := map (s6_addr16 addr) (seq 0 8).

Definition IPv6ToCharBuf (addr : in6_addr) (m : list Z) (buffer : Z) : outcome (list Z * Z) :=
  lo ← UNALIGNED_LOAD 8 (s6_addr addr) 0;
  let s := s6_addr16 addr in
  if lo =? 0 then
    '(m, buffer) ← put m buffer (ch ":");
    if (s 4%nat =? 0) && ((s 5%nat =? 0xffff) || ((s 5%nat =? 0) && negb (s 6%nat =? 0))) then
      '(m, buffer) ← (if negb (s 5%nat =? 0)
                      then '(m, buffer) ← put m buffer (ch ":"); FastWordToBuffer m 0xffff buffer
                      else Ok (m, buffer));
      '(m, buffer) ← put m buffer (ch ":");
      IPv4ToCharBuf (drop 12 (s6_addr addr)) m buffer
    else
      let i := skip_zero_words 8 (words_of addr) 4 in
      '(m, buffer) ← (if i <? 8 then colon_words (drop (Z.to_nat i) (words_of addr)) m buffer
                      else put m buffer (ch ":"));
      m ← store8 m buffer 0; Ok (m, buffer)
  else
    let start := FindLongestZeroWordSequence (words_of addr) in
    '(m, buffer) ← general_words 8 (words_of addr) 0 start m buffer;
    m ← store8 m buffer 0; Ok (m, buffer).

(** [IPAddress::ToCharBuf]. *)
Definition ToCharBuf (ip : IPAddress) (m : list Z) (buffer : Z) : outcome (list Z * Z) :=
  match ip with
  | kIpv4 _ => a ← get_ipv4 ip; IPv4ToCharBuf (le_store 4 (s_addr a)) m buffer
  | kIpv6 _ _ => a ← ipv6_address ip; IPv6ToCharBuf a m buffer
  | kUninitialized => _ ← LOG_DFATAL; m ← store8 m buffer 0; Ok (m, buffer)
  end.

Definition INET6_ADDRSTRLEN : nat := 46.

(** [IPAddress::ToString]; [buf] is the uninitialized local buffer. *)
Definition ToString (ip : IPAddress) (buf : list Z) : outcome (list Z) :=
  '(m, p) ← ToCharBuf ip buf 0; Ok (take (Z.to_nat p) m).

(** ** Parsing *)

Definition is_digit (c : Z) : bool := (ch "0" <=? c) && (c <=? ch "9").

(** The loop of [StringToInAddr] over the characters left; the state after the
    last one, or [None] for [return false]. *)
Fixpoint InAddr_loop (ip : list Z) (saw_digit : bool) (num_octets octet_val : Z) (ip_bytes : list Z)
    : outcome (option (bool * Z * Z * list Z)) :=
  match ip with
  | [] => Ok (Some (saw_digit, num_octets, octet_val, ip_bytes))
  | c :: ip' =>
      if is_digit c then
        if saw_digit && (octet_val =? 0) then Ok None
        else
          let octet_val := u32 (10 * octet_val + (c - ch "0")) in
          if octet_val >? 255 then Ok None
          else InAddr_loop ip' true num_octets octet_val ip_bytes
      else if (c =? ch ".") && saw_digit then
        if num_octets =? 3 then Ok None
        else ip_bytes ← store8 ip_bytes num_octets (u8 octet_val);
             InAddr_loop ip' false (num_octets + 1) 0 ip_bytes
      else Ok None
  end.

Definition StringToInAddr (ip : list Z) (ip_bytes : list Z) : outcome (option in_addr) :=
  st ← InAddr_loop ip false 0 0 ip_bytes;
  match st with
  | None => Ok None
  | Some (saw_digit, num_octets, octet_val, ip_bytes) =>
      if num_octets <? 3 then Ok None
      else if negb saw_digit then Ok None
      else ip_bytes ← store8 ip_bytes 3 (u8 octet_val);
           Ok (Some {| s_addr := le_load ip_bytes |})
  end.

Definition HexDigitValue (c : Z) : Z :=
  if (ch "0" <=? c) && (c <=? ch "9") then c - ch "0"
  else if (ch "a" <=? c) && (c <=? ch "f") then c - ch "a" + 10
  else if (ch "A" <=? c) && (c <=? ch "F") then c - ch "A" + 10
  else -1.

(** The local variables of [StringToIn6Addr]; [field_begin] is the rest of the
    string from there on.  [uint_fast16_t] is 64 bits wide on the target. *)
Record In6State := {
  field_index : Z;
  field_val : Z;
  num_nibbles : Z;
  field_begin : list Z;
  double_colon_field_index : Z;
  ip6_bytes : list Z;
}.

(** [ip_bytes[2 * field_index] = ...; ip_bytes[2 * field_index + 1] = ...]. *)
Definition store_field (b : list Z) (field_index field_val : Z) : outcome (list Z) :=
  b ← store8 b (2 * field_index) (Z.land (Z.shiftr field_val 8) 0xff);
  store8 b (2 * field_index + 1) (Z.land field_val 0xff).

(** The [for] loop; [None] is [return false].  [scratch] is the uninitialized
    array of the IPv4 parser. *)
Fixpoint In6Addr_loop (scratch it : list Z) (st : In6State) : outcome (option In6State) :=
  match it with
  | [] => Ok (Some st)
  | c :: it' =>
      let nibble_val := HexDigitValue c in
      if nibble_val >=? 0 then
        if num_nibbles st =? 4 then Ok None
        else In6Addr_loop scratch it'
               {| field_index := field_index st;
                  field_val := u64 (Z.lor (Z.shiftl (field_val st) 4) nibble_val);
                  num_nibbles := num_nibbles st + 1; field_begin := field_begin st;
                  double_colon_field_index := double_colon_field_index st;
                  ip6_bytes := ip6_bytes st |}
      else if c =? ch ":" then
        if num_nibbles st =? 0 then
          if double_colon_field_index st >=? 0 then Ok None
          else In6Addr_loop scratch it'
                 {| field_index := field_index st; field_val := field_val st;
                    num_nibbles := num_nibbles st; field_begin := it';
                    double_colon_field_index := field_index st; ip6_bytes := ip6_bytes st |}
        else
          match it' with
          | [] => Ok None
          | _ =>
              if field_index st =? 7 then Ok None
              else b ← store_field (ip6_bytes st) (field_index st) (field_val st);
                   In6Addr_loop scratch it'
                     {| field_index := field_index st + 1; field_val := 0; num_nibbles := 0;
                        field_begin := it';
                        double_colon_field_index := double_colon_field_index st; ip6_bytes := b |}
          end
      else if (c =? ch ".") && (field_index st <=? 6) then
        r ← StringToInAddr (field_begin st) scratch;
        match r with
        | Some addr4 =>
            b ← store_bytes (ip6_bytes st) (2 * field_index st) (le_store 4 (s_addr addr4));
            Ok (Some {| field_index := field_index st + 2; field_val := field_val st;
                        num_nibbles := 0; field_begin := field_begin st;
                        double_colon_field_index := double_colon_field_index st; ip6_bytes := b |})
        | None => Ok None
        end
      else Ok None
  end.

(** What follows the loop. *)
Definition In6Addr_finish (st : In6State) : outcome (option in6_addr) :=
  '(field_index, b) ←
    (if num_nibbles st >? 0 then
       _ ← DCHECK (field_index st <=? 7);
       b ← store_field (ip6_bytes st) (field_index st) (field_val st);
       Ok (field_index st + 1, b)
     else Ok (field_index st, ip6_bytes st));
  r ← (if double_colon_field_index st >=? 0 then
         let num_fields_skipped := 8 - field_index in
         let num_fields_to_move := field_index - double_colon_field_index st in
         if num_fields_skipped =? 0 then Ok None
         else
           moved ← load_bytes b (2 * double_colon_field_index st) (Z.to_nat (2 * num_fields_to_move));
           b ← store_bytes b (2 * (8 - num_fields_to_move)) moved;
           b ← store_bytes b (2 * double_colon_field_index st)
                 (replicate (Z.to_nat (2 * num_fields_skipped)) 0);
           Ok (Some (8, b))
       else Ok (Some (field_index, b)));
  match r with
  | None => Ok None
  | Some (field_index, b) =>
      if negb (field_index =? 8) then Ok None else Ok (Some {| s6_addr := b |})
  end.

Definition StringToIn6Addr (ip : list Z) (ip_bytes scratch : list Z) : outcome (option in6_addr) :=
  if zlen ip <? 2 then Ok None
  else
    let loop it :=
      st ← In6Addr_loop scratch it
             {| field_index := 0; field_val := 0; num_nibbles := 0; field_begin := ip;
                double_colon_field_index := -1; ip6_bytes := ip_bytes |};
      match st with None => Ok None | Some st => In6Addr_finish st end in
    match ip with
    | c :: it' =>
        if c =? ch ":" then
          match it' with
          | c' :: _ => if negb (c' =? ch ":") then Ok None else loop it'
          | [] => Ok None
          end
        else loop ip
    | [] => UB
    end.

(** [StringToIPAddress]; the two arguments after the string are the arrays of the
    two parsers. *)
Definition StringToIPAddress (s : list Z) (bytes4 bytes6 : list Z) : outcome (option IPAddress) :=
  r4 ← StringToInAddr s bytes4;
  match r4 with
  | Some addr4 => Ok (Some (IPAddress4 addr4))
  | None =>
      r6 ← StringToIn6Addr s bytes6 bytes4;
      match r6 with
      | Some addr6 => ip ← IPAddress6 addr6; Ok (Some ip)
      | None => Ok None
      end
  end.
End text.

(** Parsing and printing again, on concrete texts. *)
Definition reprint (s : list Z) : outcome (option (list Z)) :=
  r ← StringToIPAddress (H := debug_build) s (replicate 4 7) (replicate 16 9);
  match r with
  | Some ip => t ← ToString (H := debug_build) ip (replicate 46 1); Ok (Some t)
  | None => Ok None
  end.

Example reprint_examples :
  map reprint [str "::ffff:10.0.200.255"; str "2001:DB8:0:0:1:0:0:0"; str "0:0::1"; str "1.2.3.04";
               str "1:2:3:4:5:6:7::"; str "1::2::3"; str ":::"; str "::1:2.3.4.5"] =
  [Ok (Some (str "::ffff:10.0.200.255")); Ok (Some (str "2001:db8:0:0:1::")); Ok (Some (str "::1"));
   Ok None; Ok (Some (str "1:2:3:4:5:6:7:0")); Ok None; Ok None; Ok (Some (str "::1:203:405"))].
Proof. vm_compute. reflexivity. Qed.
