(* ===== verification/IPPrint.v ===== *)
(** * What the printers of IP addresses write

    Each printer appends a text to the buffer, described by a pure function:
    [dec] for an octet, [hex] for a word, [text4] and [text6] for addresses.  The
    texts fit the 46-byte buffer of [IPAddress::ToString]. *)
From Stdlib Require Import ZArith Lia Ascii String.
From stdpp Require Import base list numbers option.
From S2P Require Import Prelude.
From S2P Require Import Endian.
From S2P Require Import IPAddr.
From S2P Require Import IPOrder.
From S2P Require Import IPText.
Local Open Scope Z_scope.

(** ** Writers *)

(** [f] writes [t] at the address it is given and returns the address after it;
    [emits0] also writes a NUL there. *)
Definition emits (f : list Z -> Z -> outcome (list Z * Z)) (t : list Z) : Prop :=
  forall pre old post, List.length old = List.length t ->
    f (pre ++ old ++ post) (zlen pre) = Ok (pre ++ t ++ post, zlen pre + zlen t).
Definition emits0 (f : list Z -> Z -> outcome (list Z * Z)) (t : list Z) : Prop :=
  forall pre old x post, List.length old = List.length t ->
    f (pre ++ old ++ x :: post) (zlen pre) = Ok (pre ++ t ++ 0 :: post, zlen pre + zlen t).

Lemma emits_nil : emits (fun m p => Ok (m, p)) [].
Proof. intros pre [|] post E; [|done]. by rewrite (@zlen_nil Z), Z.add_0_r. Qed.

Lemma emits_put c : emits (fun m p => put m p c) [c].
Proof.
  intros pre [|x [|]] post E; try done. unfold put. cbn [app]. by rewrite store8_app, bind_Ok.
Qed.

Lemma length_app_split {A} (old t1 t2 : list A) : List.length old = List.length (t1 ++ t2) ->
  exists o1 o2, old = o1 ++ o2 /\ List.length o1 = List.length t1 /\ List.length o2 = List.length t2.
Proof.
  rewrite length_app. intros E. exists (take (List.length t1) old), (drop (List.length t1) old).
  rewrite take_drop, length_take, length_drop. split; [done|]. lia.
Qed.

Lemma emits_bind f g t1 t2 : emits f t1 -> emits g t2 ->
  emits (fun m p => '(m, p) ← f m p; g m p) (t1 ++ t2).
Proof.
  intros Hf Hg pre old post E. apply length_app_split in E as (o1 & o2 & -> & E1 & E2).
  rewrite <- app_assoc, Hf by done. rewrite bind_Ok. rewrite (app_assoc pre), <- zlen_app.
  rewrite Hg by done. rewrite zlen_app, (zlen_app t1), <- !app_assoc. do 2 f_equal. lia.
Qed.

Lemma emits_bind0 f g t1 t2 : emits f t1 -> emits0 g t2 ->
  emits0 (fun m p => '(m, p) ← f m p; g m p) (t1 ++ t2).
Proof.
  intros Hf Hg pre old x post E. apply length_app_split in E as (o1 & o2 & -> & E1 & E2).
  rewrite <- app_assoc, Hf by done. rewrite bind_Ok. rewrite (app_assoc pre), <- zlen_app.
  rewrite Hg by done. rewrite zlen_app, (zlen_app t1), <- !app_assoc. do 2 f_equal. lia.
Qed.

Lemma emits_nul : emits0 (fun m p => m ← store8 m p 0; Ok (m, p)) [].
Proof. intros pre [|] x post E; [|done]. cbn [app]. by rewrite store8_app, bind_Ok, (@zlen_nil Z), Z.add_0_r. Qed.

Lemma emits_ext f g t : (forall m p, g m p = f m p) -> emits f t -> emits g t.
Proof. intros E Hf pre old post El. by rewrite E, Hf. Qed.

Lemma emits0_ext f g t : (forall m p, g m p = f m p) -> emits0 f t -> emits0 g t.
Proof. intros E Hf pre old x post El. by rewrite E, Hf. Qed.

Lemma emits_if (b : bool) f t : emits f t ->
  emits (fun m p => if b then f m p else Ok (m, p)) (if b then t else []).
Proof. intros Hf. destruct b; [exact Hf|apply emits_nil]. Qed.

(** ** Octets *)

Definition digit (d : Z) : Z := 48 + d.
(** The decimal text of an octet. *)
Definition dec (n : Z) : list Z :=
  if n <? 10 then [digit n]
  else if n <? 100 then [digit (n / 10); digit (n mod 10)]
  else [digit (n / 100); digit (n / 10 mod 10); digit (n mod 10)].

Lemma two_digits_lookup i : 0 <= i < 100 ->
  two_ASCII_digits !! Z.to_nat i = Some [digit (i / 10); digit (i mod 10)].
Proof.
  intros Hi. unfold two_ASCII_digits, digit. apply list_lookup_fmap_Some. exists (Z.to_nat i).
  rewrite lookup_seq. split; [|lia]. by rewrite Z2Nat.id by lia.
Qed.

Section print.
Context `{BuildMode}.

Lemma PutTwoDigits_app pre x y post i : 0 <= i < 100 ->
  PutTwoDigits (pre ++ x :: y :: post) i (zlen pre) =
  Ok (pre ++ digit (i / 10) :: digit (i mod 10) :: post).
Proof.
  intros Hi. unfold PutTwoDigits. rewrite (proj2 (Z.ltb_lt i 100)), DCHECK_true, bind_Ok by lia.
  rewrite (proj2 (Z.ltb_ge i 0)), two_digits_lookup by lia.
  exact (store_bytes_app pre [x; y] [digit (i / 10); digit (i mod 10)] post eq_refl).
Qed.

Lemma FastOctet_emits n : 0 <= n < 256 -> emits (fun m p => FastOctetToBuffer m n p) (dec n).
Proof.
  intros Hn pre old post E. unfold FastOctetToBuffer, dec in *. rewrite !Z.geb_leb.
  destruct (Z.ltb_spec n 10), (Z.ltb_spec n 100); try lia; repeat decide_test.
  - by apply emits_put.
  - destruct old as [|x [|y [|]]]; try done. cbn [app].
    rewrite PutTwoDigits_app, bind_Ok by lia. done.
  - destruct old as [|x [|y [|z [|]]]]; try done. cbn [app].
    rewrite Z.quot_div_nonneg, Z.rem_mod_nonneg by lia. rewrite PutTwoDigits_app, bind_Ok by zlia.
    pose proof (emits_put (ch "0" + n mod 10) (pre ++ [digit (n / 10 / 10); digit (n / 10 mod 10)]) [z] post eq_refl) as P.
    rewrite zlen_app, <- !app_assoc in P. cbn [app] in P. 
    change (zlen [digit (n / 10 / 10); digit (n / 10 mod 10)]) with 2 in P. rewrite P.
    rewrite Z.div_div by lia. do 2 f_equal. unfold zlen. cbn. lia.
Qed.

(** Dotted quad of four octets. *)
Definition text4 (o : list Z) : list Z :=
  dec (nth 0 o 0) ++ ch "." :: dec (nth 1 o 0) ++ ch "." :: dec (nth 2 o 0) ++ ch "." :: dec (nth 3 o 0).

Lemma IPv4_emits o : bytes_ok o -> List.length o = 4%nat -> emits0 (IPv4ToCharBuf o) (text4 o).
Proof.
  intros Ho El. destruct o as [|a [|b [|c [|d [|]]]]]; try done.
  apply bytes_ok_cons in Ho as [Ha Ho]. apply bytes_ok_cons in Ho as [Hb Ho].
  apply bytes_ok_cons in Ho as [Hc Ho]. apply bytes_ok_cons in Ho as [Hd _]. unfold byte_ok in *.
  unfold text4. cbn [nth].
  apply (emits0_ext (fun m p =>
    '(m, p) ← FastOctetToBuffer m a p; '(m, p) ← put m p (ch ".");
    '(m, p) ← FastOctetToBuffer m b p; '(m, p) ← put m p (ch ".");
    '(m, p) ← FastOctetToBuffer m c p; '(m, p) ← put m p (ch ".");
    '(m, p) ← FastOctetToBuffer m d p; m ← store8 m p 0; Ok (m, p))); [reflexivity|].
  refine (emits_bind0 _ _ _ _ (FastOctet_emits a Ha) _).
  refine (emits_bind0 _ _ [ch "."] _ (emits_put (ch ".")) _).
  refine (emits_bind0 _ _ (dec b) _ (FastOctet_emits b Hb) _).
  refine (emits_bind0 _ _ [ch "."] _ (emits_put (ch ".")) _).
  refine (emits_bind0 _ _ (dec c) _ (FastOctet_emits c Hc) _).
  refine (emits_bind0 _ _ [ch "."] _ (emits_put (ch ".")) _).
  rewrite <- (app_nil_r (dec d)).
  refine (emits_bind0 _ _ (dec d) _ (FastOctet_emits d Hd) _). apply emits_nul.
Qed.

(** ** Words *)

Definition hexc (d : Z) : Z := nth (Z.to_nat d) hexdigits 0.
(** The hexadecimal text of a word, without leading zeros. *)
Definition hex (w : Z) : list Z :=
  (if w / 4096 =? 0 then [] else [hexc (w / 4096)]) ++
  (if w / 256 =? 0 then [] else [hexc (w / 256 mod 16)]) ++
  (if w / 16 =? 0 then [] else [hexc (w / 16 mod 16)]) ++ [hexc (w mod 16)].

Lemma load8_hexdigits d : 0 <= d < 16 -> load8 hexdigits d = Ok (hexc d).
Proof.
  intros Hd. unfold load8, hexc. rewrite (proj2 (Z.ltb_ge d 0)) by lia.
  rewrite nth_lookup. destruct (lookup_lt_is_Some_2 hexdigits (Z.to_nat d)) as (c & ->); [|done].
  change (List.length hexdigits) with 16%nat. lia.
Qed.

Lemma emits_hexc d : 0 <= d < 16 -> emits (fun m p => c ← load8 hexdigits d; put m p c) [hexc d].
Proof.
  intros Hd. apply (emits_ext (fun m p => put m p (hexc d))); [|apply emits_put].
  intros m p. by rewrite load8_hexdigits, bind_Ok.
Qed.

Lemma emits_nibble x d : 0 <= d < 16 ->
  emits (fun m p => if negb (x =? 0) then c ← load8 hexdigits d; put m p c else Ok (m, p))
    (if x =? 0 then [] else [hexc d]).
Proof. intros Hd. destruct (x =? 0); [apply emits_nil|by apply emits_hexc]. Qed.

Lemma FastWord_emits w : 0 <= w < 2 ^ 16 -> emits (fun m p => FastWordToBuffer m w p) (hex w).
Proof.
  intros Hw. unfold FastWordToBuffer, hex. rewrite !land_0f, !Z.shiftr_div_pow2 by lia.
  change (2 ^ 12) with 4096. change (2 ^ 8) with 256. change (2 ^ 4) with 16.
  refine (emits_bind _ _ _ _ (emits_nibble _ _ _) _); [zlia|].
  refine (emits_bind _ _ _ _ (emits_nibble _ _ _) _); [zlia|].
  refine (emits_bind _ _ _ _ (emits_nibble _ _ _) _); [zlia|]. apply emits_hexc. zlia.
Qed.

(** Words each after a colon, and words separated by colons. *)
Definition cw (ws : list Z) : list Z := concat (map (fun w => ch ":" :: hex w) ws).
Definition join (ws : list Z) : list Z :=
  match ws with [] => [] | w :: ws' => hex w ++ cw ws' end.

Lemma cw_join ws : ws <> [] -> cw ws = ch ":" :: join ws.
Proof. by destruct ws. Qed.

Definition word_ok (w : Z) : Prop := 0 <= w < 2 ^ 16.

Lemma gntohs_byteswap w : word_ok w -> gntohs (byteswap 2 w) = w.
Proof. intros Hw. by apply (byteswap_involutive 2). Qed.

Lemma word_emits w : word_ok w -> emits (fun m p => FastWordToBuffer m (gntohs (byteswap 2 w)) p) (hex w).
Proof. intros Hw. rewrite gntohs_byteswap by done. by apply FastWord_emits. Qed.

Lemma colon_words_emits ws : Forall word_ok ws -> emits (colon_words (map (byteswap 2) ws)) (cw ws).
Proof.
  induction 1 as [|w ws Hw _ IH]; [exact emits_nil|]. cbn [map]. unfold cw. cbn [map concat].
  refine (emits_bind _ _ [ch ":"] _ (emits_put _) _). by refine (emits_bind _ _ _ _ (word_emits w Hw) _).
Qed.
End print.

(** ** The general case of IPv6 *)

Section general.
Context (W : list Z).
Hypothesis HW : Forall word_ok W.
Hypothesis HL : List.length W = 8%nat.
#[local] Abbreviation R := (map (byteswap 2) W).

Lemma raw_nth i : (i < 8)%nat -> exists w, W !! i = Some w /\ word_ok w /\
  nth i R 0 = byteswap 2 w /\ load8 R (Z.of_nat i) = Ok (byteswap 2 w).
Proof.
  intros Hi. destruct (lookup_lt_is_Some_2 W i) as (w & E); [lia|]. exists w. split; [done|].
  assert (R !! i = Some (byteswap 2 w)) as ER by (change R with (byteswap 2 <$> W); by rewrite list_lookup_fmap, E).
  split; [by apply (Forall_lookup_1 _ _ _ _ HW E)|]. rewrite nth_lookup, ER. split; [done|].
  unfold load8. by rewrite (proj2 (Z.ltb_ge _ 0)), Nat2Z.id, ER by lia.
Qed.

Lemma skip_spec n a : (a <= 8)%nat ->
  exists b, skip_zero_words n R (Z.of_nat a) = Z.of_nat b /\ (a <= b <= 8)%nat /\
    W = take a W ++ replicate (b - a) 0 ++ drop b W.
Proof.
  revert a. induction n as [|n IH]; intros a Ha; cbn [skip_zero_words].
  { exists a. split; [done|]. split; [lia|]. rewrite Nat.sub_diag. symmetry. apply take_drop. }
  destruct (Z.ltb_spec (Z.of_nat a) 8); cbn [andb];
    [|exists a; split; [done|]; split; [lia|]; rewrite Nat.sub_diag; symmetry; apply take_drop].
  destruct (raw_nth a) as (w & E & Hw & En & _); [lia|]. rewrite Nat2Z.id, En, byteswap2_eqb0 by done.
  destruct (Z.eqb_spec w 0) as [->|];
    [|exists a; split; [done|]; split; [lia|]; rewrite Nat.sub_diag; symmetry; apply take_drop].
  destruct (IH (S a)) as (b & Eb & Hb & Ew); [lia|]. exists b.
  replace (Z.of_nat a + 1) with (Z.of_nat (S a)) by lia. split; [done|]. split; [lia|].
  rewrite Ew at 1. rewrite (take_S_r _ _ _ E), <- app_assoc. cbn [app].
  by replace (b - a)%nat with (S (b - S a)) by lia.
Qed.

(** The text of words from index [i] on: a colon before each but the first. *)
Definition tx (i : nat) (ws : list Z) : list Z := match i with O => join ws | _ => cw ws end.

Lemma tx_cons i w ws : tx i (w :: ws) = (if Z.of_nat i =? 0 then [] else [ch ":"]) ++ hex w ++ tx (S i) ws.
Proof. by destruct i. Qed.

Lemma cat_emits i w : word_ok w ->
  emits (fun m p => '(m, p) ← (if negb (Z.of_nat i =? 0) then put m p (ch ":") else Ok (m, p));
                    FastWordToBuffer m (gntohs (byteswap 2 w)) p)
    ((if Z.of_nat i =? 0 then [] else [ch ":"]) ++ hex w).
Proof.
  intros Hw. refine (emits_bind _ _ _ _ _ (word_emits w Hw)).
  destruct (Z.of_nat i =? 0); cbn [negb]; [exact emits_nil|exact (emits_put _)].
Qed.

(** One iteration that does not meet the run. *)
Lemma general_step n i start t : (i < 8)%nat -> Z.of_nat i <> start ->
  emits (general_words n R (Z.of_nat (S i)) start) t ->
  exists w, W !! i = Some w /\
    emits (general_words (S n) R (Z.of_nat i) start)
      (((if Z.of_nat i =? 0 then [] else [ch ":"]) ++ hex w) ++ t).
Proof.
  intros Hi Hs Ht. destruct (raw_nth i Hi) as (w & E & Hw & _ & El). exists w. split; [done|].
  apply (emits_ext (fun m p =>
    '(m, p) ← ('(m, p) ← (if negb (Z.of_nat i =? 0) then put m p (ch ":") else Ok (m, p));
               FastWordToBuffer m (gntohs (byteswap 2 w)) p);
    general_words n R (Z.of_nat (S i)) start m p)).
  - intros m p. cbn [general_words]. rewrite (proj2 (Z.ltb_lt _ 8)) by lia.
    rewrite (proj2 (Z.eqb_neq (Z.of_nat i) start) Hs), bind_Ok.
    replace (Z.of_nat i + 1) with (Z.of_nat (S i)) by lia.
    destruct (negb (Z.of_nat i =? 0)); cbn [mbind outcome_bind].
    + destruct (put m p (ch ":")) as [[m' p']| |]; cbn [mbind outcome_bind]; [|done..]. by rewrite El.
    + by rewrite El.
  - refine (emits_bind _ _ _ _ (cat_emits i w Hw) Ht).
Qed.

Lemma general_end n i start : (8 <= i)%nat -> emits (general_words n R (Z.of_nat i) start) [].
Proof.
  intros Hi. apply (emits_ext (fun m p => Ok (m, p))); [|apply emits_nil]. intros m p.
  destruct n; [done|]. cbn [general_words]. by rewrite (proj2 (Z.ltb_ge _ 8)) by lia.
Qed.

(** Past the run, or without one. *)
Lemma general_plain n i start : (8 - i <= n)%nat -> (start < Z.of_nat i) ->
  emits (general_words n R (Z.of_nat i) start) (tx i (drop i W)).
Proof.
  revert i. induction n as [|n IH]; intros i Hn Hs.
  - rewrite drop_ge by lia. assert (tx i [] = []) as -> by (by destruct i). apply general_end. lia.
  - destruct (decide (i < 8)%nat) as [Hi|Hi].
    + destruct (general_step n i start (tx (S i) (drop (S i) W))) as (w & E & He); [lia..| |].
      { apply IH; lia. }
      rewrite (drop_S _ _ _ E), tx_cons, app_assoc. exact He.
    + rewrite drop_ge by lia. assert (tx i [] = []) as -> by (by destruct i). apply general_end. lia.
Qed.

(** At the run. *)
Lemma general_run n a b : (8 - a <= S n)%nat -> (a <= 6)%nat -> (a + 2 <= b <= 8)%nat ->
  skip_zero_words 8 R (Z.of_nat (a + 2)) = Z.of_nat b ->
  emits (general_words (S n) R (Z.of_nat a) (Z.of_nat a)) (str "::" ++ join (drop b W)).
Proof.
  intros Hn Ha Hb Es. destruct (decide (b = 8)%nat) as [->|Hb8].
  - rewrite drop_ge by lia.
    apply (emits_ext (fun m p => '(m, p) ← put m p (ch ":"); put m p (ch ":"))).
    + intros m p. cbn [general_words]. rewrite (proj2 (Z.ltb_lt _ 8)), Z.eqb_refl by lia.
      replace (Z.of_nat a + 2) with (Z.of_nat (a + 2)) by lia. rewrite Es.
      destruct (put m p (ch ":")) as [[m' p']| |]; [|done..]. cbn [mbind outcome_bind].
      destruct (put m' p' (ch ":")) as [[m'' p'']| |]; done.
    + exact (emits_bind _ _ _ _ (emits_put _) (emits_put _)).
  - destruct (raw_nth b) as (w & E & Hw & _ & El); [lia|].
    rewrite (drop_S _ _ _ E). cbn [join str app].
    apply (emits_ext (fun m p => '(m, p) ← put m p (ch ":"); '(m, p) ← put m p (ch ":");
      '(m, p) ← FastWordToBuffer m (gntohs (byteswap 2 w)) p;
      general_words n R (Z.of_nat (S b)) (Z.of_nat a) m p)).
    + intros m p. cbn [general_words]. rewrite (proj2 (Z.ltb_lt _ 8)), Z.eqb_refl by lia.
      replace (Z.of_nat a + 2) with (Z.of_nat (a + 2)) by lia. rewrite Es.
      rewrite (proj2 (Z.eqb_neq (Z.of_nat b) 8)) by lia.
      destruct (put m p (ch ":")) as [[m' p']| |]; [|done..]. cbn [mbind outcome_bind].
      rewrite (proj2 (Z.eqb_neq (Z.of_nat b) 0)) by lia. cbn [negb].
      replace (Z.of_nat b + 1) with (Z.of_nat (S b)) by lia.
      destruct (put m' p' (ch ":")) as [[m'' p'']| |]; [|done..]. cbn [mbind outcome_bind]. by rewrite El.
    + refine (emits_bind _ _ [ch ":"] _ (emits_put _) _). refine (emits_bind _ _ [ch ":"] _ (emits_put _) _).
      refine (emits_bind _ _ _ _ (word_emits w Hw) _).
      change (cw (drop (S b) W)) with (tx (S b) (drop (S b) W)). apply general_plain; lia.
Qed.

(** Before the run. *)
Lemma general_before n i a b : (8 - i <= n)%nat -> (i <= a <= 6)%nat -> (a + 2 <= b <= 8)%nat ->
  skip_zero_words 8 R (Z.of_nat (a + 2)) = Z.of_nat b ->
  emits (general_words n R (Z.of_nat i) (Z.of_nat a))
    (tx i (take (a - i) (drop i W)) ++ str "::" ++ join (drop b W)).
Proof.
  revert i. induction n as [|n IH]; intros i Hn Hi Hb Es; [lia|].
  destruct (decide (i = a)) as [->|Hne].
  - rewrite Nat.sub_diag, take_0. assert (tx a [] = []) as -> by (by destruct a).
    by apply general_run; lia || done.
  - destruct (general_step n i (Z.of_nat a) (tx (S i) (take (a - S i) (drop (S i) W)) ++ str "::" ++ join (drop b W)))
      as (w & E & He); [lia|lia|apply IH; lia || done|].
    rewrite (drop_S _ _ _ E). replace (a - i)%nat with (S (a - S i)) by lia. rewrite firstn_cons.
    rewrite tx_cons, <- !app_assoc in *. exact He.
Qed.
End general.

(** ** Zero runs *)

(** [k] zeros from index [a] on. *)
Definition zrun (l : list Z) (a k : Z) : Prop :=
  0 <= a /\ 0 <= k /\ a + k <= zlen l /\ forall j, a <= j < a + k -> l !! Z.to_nat j = Some 0.

Lemma zrun_app l w a k : zrun (l ++ [w]) a k ->
  zrun l a k \/ (a + k = zlen l + 1 /\ (k = 0 \/ w = 0 /\ zrun l a (k - 1))).
Proof.
  intros (Ha & Hk & Hl & Hz). rewrite zlen_app in Hl. change (zlen [w]) with 1 in Hl.
  pose proof (zlen_nonneg l) as H0. unfold zlen in *.
  destruct (Z.eqb_spec (a + k) (Z.of_nat (List.length l) + 1)) as [E|E].
  - right. split; [done|]. destruct (Z.eqb_spec k 0) as [->|Hk0]; [by left|]. right.
    pose proof (Hz (a + k - 1) ltac:(lia)) as Hw.
    rewrite lookup_app_r in Hw by lia. replace (Z.to_nat (a + k - 1) - List.length l)%nat with 0%nat in Hw by lia.
    injection Hw as ->. split; [done|]. split; [done|]. split; [lia|]. split; [unfold zlen; lia|].
    intros j Hj. rewrite <- (Hz j) by lia. rewrite lookup_app_l by lia. done.
  - left. split; [done|]. split; [done|]. split; [unfold zlen; lia|]. intros j Hj.
    rewrite <- (Hz j) by lia. rewrite lookup_app_l by lia. done.
Qed.

Lemma zrun_weaken l w a k : zrun l a k -> zrun (l ++ [w]) a k.
Proof.
  intros (Ha & Hk & Hl & Hz). unfold zlen in *. split; [done|]. split; [done|].
  split; [unfold zlen; rewrite length_app; lia|]. intros j Hj. rewrite lookup_app_l by lia. by apply Hz.
Qed.

Lemma zrun_snoc l k : zrun l (zlen l - k) k -> zrun (l ++ [0]) (zlen l - k) (k + 1).
Proof.
  intros (Ha & Hk & Hl & Hz). unfold zlen in *. split; [done|]. split; [lia|].
  split; [unfold zlen; rewrite length_app; cbn; lia|]. intros j Hj.
  destruct (Z.eqb_spec j (Z.of_nat (List.length l))) as [->|].
  - rewrite Nat2Z.id, lookup_app_r, Nat.sub_diag by lia. done.
  - rewrite lookup_app_l by lia. apply Hz. lia.
Qed.

(** What the search has found in the words it has seen. *)
Definition best_of (l : list Z) (cnt best_len best_start : Z) : Prop :=
  zrun l (zlen l - cnt) cnt /\ (forall k, zrun l (zlen l - k) k -> k <= cnt) /\
  (best_len = 1 /\ best_start = -1 \/ 2 <= best_len /\ zrun l best_start best_len) /\
  (forall a k, zrun l a k -> k <= best_len /\ (2 <= k -> k = best_len -> best_start <= a)).

Lemma FindLongest_loop_spec addr l cnt bl bs : best_of l cnt bl bs ->
  exists cnt' bl', best_of (l ++ addr) cnt' bl' (FindLongest_loop addr (zlen l) cnt bl bs).
Proof.
  revert l cnt bl bs. induction addr as [|w addr IH]; intros l cnt bl bs Hb; cbn [FindLongest_loop].
  { exists cnt, bl. by rewrite app_nil_r. }
  assert (l ++ w :: addr = (l ++ [w]) ++ addr) as -> by (by rewrite <- app_assoc).
  assert (zlen l + 1 = zlen (l ++ [w])) as El by (by rewrite zlen_app). rewrite El.
  destruct Hb as (H1 & H2 & H3 & H4). destruct (Z.eqb_spec w 0) as [->|Hw].
  - assert (zrun (l ++ [0]) (zlen (l ++ [0]) - (cnt + 1)) (cnt + 1)) as R1.
    { rewrite <- El. replace (zlen l + 1 - (cnt + 1)) with (zlen l - cnt) by lia. by apply zrun_snoc. }
    assert (forall k, zrun (l ++ [0]) (zlen (l ++ [0]) - k) k -> k <= cnt + 1) as R2.
    { intros k Hk. rewrite <- El in Hk. pose proof Hk as (_ & Hk0 & _).
      apply zrun_app in Hk as [(_ & _ & Hk & _)|[_ [-> | (_ & Hk)]]]; [lia|destruct H1 as (_ & ? & _); lia|].
      specialize (H2 (k - 1)). replace (zlen l - (k - 1)) with (zlen l + 1 - k) in H2 by lia.
      apply H2 in Hk. lia. }
    rewrite Z.gtb_ltb. destruct (Z.ltb_spec bl (cnt + 1)); apply IH;
      (split; [done|]); (split; [done|]).
    + split; [right; split; [lia|done]|]. intros a k Hk. pose proof Hk as (_ & Hk0 & _).
      apply zrun_app in Hk as [Hk|[E [-> | (_ & Hk)]]].
      * apply H4 in Hk as [Hk _]. split; [lia|]. lia.
      * lia.
      * specialize (H2 (k - 1)). replace (zlen l - (k - 1)) with a in H2 by lia. apply H2 in Hk.
        split; [lia|]. intros. subst k. rewrite <- El. lia.
    + split; [destruct H3 as [H3|[H3 H3']]; [by left|right; split; [done|by apply zrun_weaken]]|].
      intros a k Hk. apply zrun_app in Hk as [Hk|[E [-> | (_ & Hk)]]]; [by apply H4|lia|].
      specialize (H2 (k - 1)). replace (zlen l - (k - 1)) with a in H2 by lia. pose proof Hk as Hk'.
      apply H2 in Hk. split; [lia|]. intros K2 K3. subst k.
      destruct H3 as [[-> ->]|[H3 (B1 & B2 & B3 & _)]]; [lia|]. lia.
  - apply IH. split; [|split; [|split]].
    + split; [rewrite <- El; pose proof (zlen_nonneg l); lia|]. split; [lia|]. split; [lia|]. intros; lia.
    + intros k Hk. rewrite <- El in Hk. apply zrun_app in Hk as [(_ & _ & Hk & _)|[_ [-> | (? & _)]]]; [lia|lia|done].
    + destruct H3 as [H3|[H3 H3']]; [by left|right; split; [done|by apply zrun_weaken]].
    + intros a k Hk. apply zrun_app in Hk as [Hk|[E [-> | (? & _)]]]; [by apply H4|lia|done].
Qed.

(** ** The text of an IPv6 address *)

(** The bytes of words in network order. *)
Definition flat (ws : list Z) : list Z := concat (map (be_store 2) ws).

(** The texts of 16 bytes that the printer may choose. *)
Inductive text6 : list Z -> list Z -> Prop :=
| text6_full W : Forall word_ok W -> List.length W = 8%nat -> text6 (flat W) (join W)
| text6_run P z Q : Forall word_ok P -> Forall word_ok Q -> (2 <= z)%nat ->
    (List.length P + z + List.length Q = 8)%nat ->
    text6 (flat P ++ replicate (2 * z) 0 ++ flat Q) (join P ++ str "::" ++ join Q)
| text6_compat o : bytes_ok o -> List.length o = 4%nat ->
    text6 (replicate 12 0 ++ o) (str "::" ++ text4 o)
| text6_mapped o : bytes_ok o -> List.length o = 4%nat ->
    text6 (replicate 10 0 ++ [255; 255] ++ o) (str "::ffff:" ++ text4 o).

Lemma flat_app P Q : flat (P ++ Q) = flat P ++ flat Q.
Proof. unfold flat. by rewrite map_app, concat_app. Qed.

Lemma flat_zeros z : flat (replicate z 0) = replicate (2 * z) 0.
Proof.
  unfold flat. induction z as [|z IH]; [done|]. cbn [replicate map concat]. rewrite IH.
  by replace (2 * S z)%nat with (2 + 2 * z)%nat by lia.
Qed.

Definition words6 (n : Z) : list Z := map (word6 n) (seq 0 8).

Lemma words6_ok n : Forall word_ok (words6 n).
Proof. apply Forall_fmap, Forall_true. intros i. apply word6_range. Qed.

Lemma words_of_in6 n : words_of (in6 n) = map (byteswap 2) (words6 n).
Proof.
  unfold words_of, words6. rewrite map_map. apply map_ext_in. intros i Hi. apply in_seq in Hi.
  apply s6_addr16_in6. lia.
Qed.

Lemma flat_words6 n : flat (words6 n) = be_store 16 n.
Proof.
  unfold flat, words6. rewrite map_map.
  assert (forall i, (i < 8)%nat -> be_store 2 (word6 n i) = take 2 (drop (2 * i) (be_store 16 n))) as E.
  { intros i Hi. rewrite be_store_block by lia. unfold word6. change (2 ^ 16) with (2 ^ (8 * Z.of_nat 2)).
    rewrite be_store_mod. do 3 f_equal. lia. }
  rewrite (map_ext_in _ (fun i => take 2 (drop (2 * i) (be_store 16 n))));
    [|intros i Hi; apply in_seq in Hi; apply E; lia].
  assert (List.length (be_store 16 n) = 16%nat) as El by apply length_be_store.
  destruct (be_store 16 n) as [|? [|? [|? [|? [|? [|? [|? [|? [|? [|? [|? [|? [|? [|? [|? [|? [|]]]]]]]]]]]]]]]]]; done.
Qed.

(** The test for a zero upper half. *)
Lemma upper_half_in6 n : 0 <= n < 2 ^ 128 ->
  (lo ← UNALIGNED_LOAD 8 (s6_addr (in6 n)) 0; Ok (lo =? 0)) = Ok (n / 2 ^ 64 =? 0).
Proof.
  intros Hn. unfold in6. cbn [s6_addr].
  rewrite UNALIGNED_LOAD_at; [|lia|rewrite zlen_be_store; lia]. rewrite bind_Ok. f_equal.
  unfold bytes_at. change (Z.to_nat 0) with 0%nat. rewrite drop_0, be_store_take by lia.
  change (le_load (be_store 8 ?x)) with (byteswap 8 x). change (8 * Z.of_nat (16 - 8)) with 64.
  destruct (Z.eqb_spec (n / 2 ^ 64) 0) as [->|Hne]; [done|]. apply Z.eqb_neq. intros E. apply Hne.
  rewrite <- (byteswap_involutive 8 (n / 2 ^ 64)), E; [done|].
  split; [apply Z.div_pos; lia|]. apply Z.div_lt_upper_bound; [lia|]. exact (proj2 Hn).
Qed.

Lemma word6_upper n i : 0 <= n -> n / 2 ^ 64 = 0 -> (i < 4)%nat -> word6 n i = 0.
Proof.
  intros Hn E Hi. assert (n < 2 ^ 64) by (apply Z.div_small_iff in E; lia).
  unfold word6. rewrite Z.div_small; [done|]. split; [done|].
  assert (2 ^ 64 <= 2 ^ (16 * Z.of_nat (7 - i))) by (apply Z.pow_le_mono_r; lia). lia.
Qed.

Section print6.
Context `{BuildMode}.

(** The embedded IPv4 forms. *)
Definition embeds4 (n : Z) : bool :=
  (word6 n 4 =? 0) && ((word6 n 5 =? 0xffff) || ((word6 n 5 =? 0) && negb (word6 n 6 =? 0))).

(** The printer, by the number of the address. *)
Lemma IPv6ToCharBuf_in6 n m p : 0 <= n < 2 ^ 128 ->
  IPv6ToCharBuf (in6 n) m p =
  let R := map (byteswap 2) (words6 n) in
  let nul m p := m ← store8 m p 0; Ok (m, p) in
  if n / 2 ^ 64 =? 0 then
    '(m, p) ← put m p (ch ":");
    if embeds4 n then
      '(m, p) ← (if negb (word6 n 5 =? 0)
                 then '(m, p) ← put m p (ch ":"); FastWordToBuffer m 0xffff p else Ok (m, p));
      '(m, p) ← put m p (ch ":");
      IPv4ToCharBuf (be_store 4 n) m p
    else
      let i := skip_zero_words 8 R 4 in
      '(m, p) ← (if i <? 8 then colon_words (drop (Z.to_nat i) R) m p else put m p (ch ":"));
      nul m p
  else
    '(m, p) ← general_words 8 R 0 (FindLongestZeroWordSequence R) m p; nul m p.
Proof.
  intros Hn. pose proof (upper_half_in6 n Hn) as EL. unfold IPv6ToCharBuf, embeds4.
  destruct (UNALIGNED_LOAD 8 (s6_addr (in6 n)) 0) as [lo| |] eqn:El; [|done..]. cbn in EL. injection EL as EL.
  assert (drop 12 (s6_addr (in6 n)) = be_store 4 n) as Ed by exact (be_store_drop 16 12 n ltac:(lia)).
  rewrite bind_Ok, EL, Ed, !words_of_in6, !s6_addr16_in6, !byteswap2_eqb0 by (lia || apply word6_range).
  assert ((byteswap 2 (word6 n 5) =? 65535) = (word6 n 5 =? 65535)) as ->; [|done].
  change 65535 with (byteswap 2 65535) at 1. apply byteswap2_eqb; [apply word6_range|lia].
Qed.

Lemma words6_upper n : 0 <= n -> n / 2 ^ 64 = 0 ->
  words6 n = replicate 4 0 ++ [word6 n 4; word6 n 5; word6 n 6; word6 n 7].
Proof. intros Hn E. unfold words6. cbn [seq map]. rewrite !word6_upper by (done || lia). done. Qed.

(** The bytes of an embedded address. *)
Lemma embedded_bytes n : 0 <= n -> n / 2 ^ 64 = 0 -> word6 n 4 = 0 ->
  be_store 16 n = replicate 10 0 ++ be_store 2 (word6 n 5) ++ be_store 4 n.
Proof.
  intros Hn E E4. rewrite <- flat_words6, words6_upper by done. rewrite E4.
  change (replicate 4 0 ++ [0; word6 n 5; word6 n 6; word6 n 7])
    with (replicate 5 0 ++ [word6 n 5] ++ [word6 n 6; word6 n 7]).
  rewrite !flat_app, flat_zeros. f_equal. unfold flat. cbn [map concat]. rewrite app_nil_r. f_equal.
  rewrite app_nil_r. change 4%nat with (2 + 2)%nat at 3. rewrite be_store_app.
  unfold word6. change (2 ^ 16) with (2 ^ (8 * Z.of_nat 2)). rewrite !be_store_mod.
  change (16 * Z.of_nat (7 - 7)) with 0. by rewrite Z.pow_0_r, Z.div_1_r.
Qed.

Lemma IPv6_embedded n : 0 <= n < 2 ^ 128 -> n / 2 ^ 64 = 0 -> embeds4 n = true ->
  exists t, text6 (be_store 16 n) t /\ emits0 (IPv6ToCharBuf (in6 n)) t.
Proof.
  intros Hn E0 C. assert (emits0 (IPv4ToCharBuf (be_store 4 n)) (text4 (be_store 4 n))) as Q.
  { apply IPv4_emits; [apply be_store_ok|apply length_be_store]. }
  pose proof C as C'. unfold embeds4 in C'. apply andb_true_iff in C' as [C4 C5]. apply Z.eqb_eq in C4.
  rewrite embedded_bytes by (done || lia).
  assert (forall t, emits0 (fun m p => '(m, p) ← put m p (ch ":");
      '(m, p) ← (if negb (word6 n 5 =? 0)
                 then '(m, p) ← put m p (ch ":"); FastWordToBuffer m 0xffff p else Ok (m, p));
      '(m, p) ← put m p (ch ":"); IPv4ToCharBuf (be_store 4 n) m p) t ->
      emits0 (IPv6ToCharBuf (in6 n)) t) as X.
  { intros t. apply emits0_ext. intros m p. rewrite IPv6ToCharBuf_in6 by done. cbv zeta.
    by rewrite E0, C. }
  destruct (Z.eqb_spec (word6 n 5) 0) as [E5|E5]; cbn [negb] in X.
  - eexists. split; [rewrite E5; apply (text6_compat (be_store 4 n)); [apply be_store_ok|apply length_be_store]|].
    apply X. refine (emits_bind0 _ _ [ch ":"] _ (emits_put _) _).
    refine (emits_bind0 _ _ [] _ emits_nil _). by refine (emits_bind0 _ _ [ch ":"] _ (emits_put _) _).
  - assert (word6 n 5 = 65535) as E5'.
    { apply orb_true_iff in C5 as [C5|C5]; [by apply Z.eqb_eq|discriminate]. }
    eexists. split; [rewrite E5'; apply (text6_mapped (be_store 4 n)); [apply be_store_ok|apply length_be_store]|].
    apply X. refine (emits_bind0 _ _ [ch ":"] _ (emits_put _) _).
    refine (emits_bind0 _ _ (str ":ffff") _ _ _).
    + refine (emits_bind _ _ [ch ":"] (str "ffff") (emits_put _) _). by apply (FastWord_emits 65535).
    + by refine (emits_bind0 _ _ [ch ":"] _ (emits_put _) _).
Qed.

Lemma emits_close f t : emits f t ->
  emits0 (fun m p => '(m, p) ← f m p; m ← store8 m p 0; Ok (m, p)) t.
Proof. intros Hf. rewrite <- (app_nil_r t). exact (emits_bind0 _ _ _ _ Hf emits_nul). Qed.

Lemma IPv6_upper_zero n : 0 <= n < 2 ^ 128 -> n / 2 ^ 64 = 0 -> embeds4 n = false ->
  exists t, text6 (be_store 16 n) t /\ emits0 (IPv6ToCharBuf (in6 n)) t.
Proof.
  intros Hn E0 C. pose proof (words6_ok n) as HW.
  destruct (skip_spec (words6 n) HW eq_refl 8 4) as (b & Eb & Hb & Ew); [lia|].
  change (Z.of_nat 4) with 4 in Eb.
  assert (words6 n = [] ++ replicate b 0 ++ drop b (words6 n)) as Ew'.
  { assert (take 4 (words6 n) = replicate 4 0) as E4 by (by rewrite words6_upper by (done || lia)).
    rewrite Ew at 1. rewrite E4, app_assoc, <- replicate_add.
    by replace (4 + (b - 4))%nat with b by lia. }
  exists (str "::" ++ join (drop b (words6 n))). split.
  - rewrite <- flat_words6. rewrite Ew' at 1. rewrite !flat_app, flat_zeros.
    apply (text6_run []); [constructor|by apply Forall_drop|lia|].
    rewrite length_drop. change (List.length (words6 n)) with 8%nat. cbn [List.length]. lia.
  - apply (emits0_ext (fun m p => '(m, p) ← ('(m, p) ← put m p (ch ":");
        if Z.of_nat b <? 8 then colon_words (drop b (map (byteswap 2) (words6 n))) m p else put m p (ch ":"));
        m ← store8 m p 0; Ok (m, p))).
    + intros m p. rewrite IPv6ToCharBuf_in6 by done. cbv zeta. rewrite E0, C, Eb, Nat2Z.id. cbn [Z.eqb].
      by destruct (put m p (ch ":")) as [[m' p']| |].
    + apply emits_close. change (str "::" ++ join (drop b (words6 n))) with ([ch ":"] ++ ch ":" :: join (drop b (words6 n))).
      refine (emits_bind _ _ _ _ (emits_put _) _). destruct (Z.ltb_spec (Z.of_nat b) 8).
      * rewrite <- cw_join; [|intros En; apply (f_equal List.length) in En; rewrite length_drop in En;
          change (List.length (words6 n)) with 8%nat in En; cbn in En; lia].
        change (map (byteswap 2) (words6 n)) with (byteswap 2 <$> words6 n). rewrite <- fmap_drop.
        apply colon_words_emits. by apply Forall_drop.
      * rewrite drop_ge; [apply emits_put|]. change (List.length (words6 n)) with 8%nat. lia.
Qed.

Lemma FindLongest_best addr : exists cnt bl, best_of addr cnt bl (FindLongestZeroWordSequence addr).
Proof.
  apply (FindLongest_loop_spec addr [] 0 1 (-1)). split; [|split; [|split]].
  - split; [done|]. split; [done|]. split; [done|]. intros; lia.
  - intros k (Hk & _). unfold zlen in Hk. cbn in Hk. lia.
  - by left.
  - intros a k (? & ? & Hk & _). unfold zlen in Hk. cbn in Hk. split; lia.
Qed.

Lemma raw_zero (W : list Z) i : Forall word_ok W -> map (byteswap 2) W !! i = Some 0 -> W !! i = Some 0.
Proof.
  intros HW E. change (map (byteswap 2) W) with (byteswap 2 <$> W) in E.
  apply list_lookup_fmap_Some in E as (w & E & Ew). rewrite Ew. f_equal.
  pose proof (Forall_lookup_1 _ _ _ _ HW Ew) as Hw. apply Z.eqb_eq.
  rewrite <- byteswap2_eqb0, <- E by done. done.
Qed.

(** Two words of a run. *)
Lemma two_zero_words (W : list Z) a : W !! a = Some 0 -> W !! S a = Some 0 ->
  take (a + 2) W = take a W ++ replicate 2 0.
Proof.
  intros E1 E2. replace (a + 2)%nat with (S (S a)) by lia.
  by rewrite (take_S_r _ _ _ E2), (take_S_r _ _ _ E1), <- app_assoc.
Qed.

Lemma IPv6_general n : 0 <= n < 2 ^ 128 -> n / 2 ^ 64 <> 0 ->
  exists t, text6 (be_store 16 n) t /\ emits0 (IPv6ToCharBuf (in6 n)) t.
Proof.
  intros Hn E0. pose proof (words6_ok n) as HW. set (W := words6 n) in *.
  assert (List.length W = 8%nat) as HL by done.
  set (start := FindLongestZeroWordSequence (map (byteswap 2) W)).
  assert (forall t, emits (general_words 8 (map (byteswap 2) W) 0 start) t ->
    emits0 (IPv6ToCharBuf (in6 n)) t) as X.
  { intros t Ht. eapply emits0_ext; [|exact (emits_close _ _ Ht)]. intros m p.
    rewrite IPv6ToCharBuf_in6 by done. cbv zeta. by rewrite (proj2 (Z.eqb_neq _ _) E0). }
  destruct (FindLongest_best (map (byteswap 2) W)) as (cnt & bl & _ & _ & [[_ B]|[B1 B2]] & _);
    fold start in B || fold start in B2.
  - exists (join W). split; [rewrite <- flat_words6; by apply text6_full|]. apply X.
    rewrite B. exact (general_plain W HW HL 8 0 (-1) ltac:(lia) ltac:(lia)).
  - destruct B2 as (S1 & S2 & S3 & S4).
    assert (zlen (map (byteswap 2) W) = 8) as Ez by (unfold zlen; by rewrite length_map, HL). rewrite Ez in S3.
    set (a := Z.to_nat start). assert (start = Z.of_nat a) as Ea by (unfold a; lia).
    assert (W !! a = Some 0) as Z1.
    { apply raw_zero; [done|]. apply (S4 start). lia. }
    assert (W !! S a = Some 0) as Z2.
    { apply raw_zero; [done|]. replace (S a) with (Z.to_nat (start + 1)) by lia. apply S4. lia. }
    destruct (skip_spec W HW HL 8 (a + 2)) as (b & Eb & Hb & Ew); [lia|].
    rewrite two_zero_words, <- app_assoc in Ew by done. rewrite (app_assoc (replicate 2 0)), <- replicate_add in Ew.
    replace (2 + (b - (a + 2)))%nat with (b - a)%nat in Ew by lia.
    exists (join (take a W) ++ str "::" ++ join (drop b W)). split.
    + rewrite <- flat_words6. fold W. rewrite Ew at 1. rewrite !flat_app, flat_zeros.
      apply text6_run; [by apply Forall_take|by apply Forall_drop|lia|]. rewrite length_take, length_drop. lia.
    + apply X. rewrite Ea. pose proof (general_before W HW HL 8 0 a b ltac:(lia) ltac:(lia) ltac:(lia) Eb) as G.
      rewrite Nat.sub_0_r, drop_0 in G. exact G.
Qed.

Lemma IPv6_emits n : 0 <= n < 2 ^ 128 ->
  exists t, text6 (be_store 16 n) t /\ emits0 (IPv6ToCharBuf (in6 n)) t.
Proof.
  intros Hn. destruct (Z.eqb_spec (n / 2 ^ 64) 0); [|by apply IPv6_general].
  destruct (embeds4 n) eqn:C; [by apply IPv6_embedded|by apply IPv6_upper_zero].
Qed.

(** ** The buffer is large enough *)

Lemma length_dec n : (List.length (dec n) <= 3)%nat.
Proof. unfold dec. destruct (n <? 10), (n <? 100); cbn; lia. Qed.

Lemma length_text4 o : (List.length (text4 o) <= 15)%nat.
Proof.
  unfold text4. repeat (rewrite length_app || cbn [List.length]).
  pose proof (length_dec (nth 0 o 0)). pose proof (length_dec (nth 1 o 0)).
  pose proof (length_dec (nth 2 o 0)). pose proof (length_dec (nth 3 o 0)). lia.
Qed.

Lemma length_hex w : (1 <= List.length (hex w) <= 4)%nat.
Proof. unfold hex. rewrite !length_app. destruct (w / 4096 =? 0), (w / 256 =? 0), (w / 16 =? 0); cbn; lia. Qed.

Lemma length_cw ws : (List.length (cw ws) <= 5 * List.length ws)%nat.
Proof.
  induction ws as [|w ws IH]; [done|]. unfold cw in *. cbn [map concat List.length]. rewrite length_app.
  cbn [List.length]. pose proof (length_hex w). lia.
Qed.

Lemma length_join ws : (List.length (join ws) <= 5 * List.length ws - 1)%nat.
Proof.
  destruct ws as [|w ws]; [done|]. cbn [join List.length]. rewrite length_app.
  pose proof (length_hex w). pose proof (length_cw ws). lia.
Qed.

Lemma length_text6 b t : text6 b t -> (List.length t <= 39)%nat.
Proof.
  destruct 1 as [W _ HL|P z Q _ _ Hz HL|o|o]; rewrite ?length_app.
  - pose proof (length_join W). lia.
  - pose proof (length_join P). pose proof (length_join Q). change (List.length (str "::")) with 2%nat. lia.
  - pose proof (length_text4 o). change (List.length (str "::")) with 2%nat. lia.
  - pose proof (length_text4 o). change (List.length (str "::ffff:")) with 7%nat. lia.
Qed.

Lemma emits0_buffer f t buf : emits0 f t -> (List.length t < List.length buf)%nat ->
  exists m, f buf 0 = Ok (m, zlen t) /\ take (List.length t) m = t.
Proof.
  intros Hf Hl. destruct (drop (List.length t) buf) as [|x post] eqn:E.
  { apply (f_equal List.length) in E. rewrite length_drop in E. cbn in E. lia. }
  specialize (Hf [] (take (List.length t) buf) x post). rewrite <- E, take_drop in Hf.
  exists (t ++ 0 :: post). split; [|by rewrite take_app_length]. apply Hf. rewrite length_take. lia.
Qed.

(** [text_of ip t]: what [ToString] may return for [ip]. *)
Definition text_of (a : addr) (t : list Z) : Prop :=
  match a with
  | NoAddr => False
  | Addr4 n => t = text4 (be_store 4 n)
  | Addr6 n _ => text6 (be_store 16 n) t
  end.

Lemma ToString_repr a buf : addr_ok a -> a <> NoAddr -> List.length buf = INET6_ADDRSTRLEN ->
  exists t, ToString (repr a) buf = Ok t /\ text_of a t /\ (List.length t < INET6_ADDRSTRLEN)%nat.
Proof.
  intros Ha Hne Hb. unfold ToString. destruct a as [|n|n s]; [done|..]; cbn [repr text_of].
  - unfold ToCharBuf, repr4. cbn [get_ipv4]. rewrite bind_Ok. cbn [s_addr].
    rewrite le_store_byteswap.
    pose proof (length_text4 (be_store 4 n)) as Hl. unfold INET6_ADDRSTRLEN in *.
    destruct (emits0_buffer _ _ buf (IPv4_emits (be_store 4 n) (be_store_ok 4 n) (length_be_store 4 n)))
      as (m & -> & Et); [lia|]. rewrite bind_Ok. eexists. split; [done|]. unfold zlen. rewrite Nat2Z.id.
    split; [exact Et|]. rewrite Et. lia.
  - destruct (IPv6_emits n) as (t & Ht & He); [apply Ha|]. pose proof (length_text6 _ _ Ht) as Hl.
    unfold ToCharBuf. unfold repr6 at 1. cbv iota. rewrite ipv6_address_repr6, bind_Ok by done.
    unfold INET6_ADDRSTRLEN in *. destruct (emits0_buffer _ _ buf He) as (m & -> & Et); [lia|].
    rewrite bind_Ok. eexists. split; [done|]. unfold zlen. rewrite Nat2Z.id, Et. split; [done|]. lia.
Qed.
End print6.

(** [FindLongestZeroWordSequence] returns the first of the longest runs of at
    least two zero words, and -1 exactly when there is no such run. *)
Theorem FindLongestZeroWordSequence_spec addr :
  let start := FindLongestZeroWordSequence addr in
  (start = -1 /\ (forall a, 0 <= a -> ~ zrun addr a 2)) \/
  (exists len, 2 <= len /\ zrun addr start len /\
     forall a k, zrun addr a k -> k <= len /\ (k = len -> start <= a)).
Proof.
  cbv zeta. destruct (FindLongest_best addr) as (cnt & bl & _ & _ & [[-> B]|[B1 B2]] & B4).
  - left. split; [done|]. intros a Ha Hz. apply B4 in Hz. lia.
  - right. exists bl. split; [done|]. split; [done|]. intros a k Hz. apply B4 in Hz. split; [lia|].
    intros ->. apply Hz; [lia|done].
Qed.
