(* ===== verification/IPParse.v ===== *)
(** * Parsing IP addresses

    [StringToInAddr] accepts exactly the dotted quads that the printer writes.
    [StringToIn6Addr] and [StringToIPAddress] are safe on every string, and parse
    every text the printer writes back to the address printed. *)
From Stdlib Require Import ZArith Lia Ascii String.
From stdpp Require Import base list numbers option.
From S2P Require Import Prelude.
From S2P Require Import Endian.
From S2P Require Import IPAddr.
From S2P Require Import IPOrder.
From S2P Require Import IPText.
From S2P Require Import IPPrint.
Local Open Scope Z_scope.

(** ** Dotted quads *)

Lemma is_digit_spec c : is_digit c = true <-> exists d, 0 <= d < 10 /\ c = digit d.
Proof.
  unfold is_digit, digit. change (ch "0") with 48. change (ch "9") with 57.
  rewrite andb_true_iff, !Z.leb_le. split.
  - intros. exists (c - 48). lia.
  - intros (d & ? & ->). lia.
Qed.

Lemma dec_snoc v d : 0 < v -> 0 <= d < 10 -> 10 * v + d <= 255 -> dec (10 * v + d) = dec v ++ [digit d].
Proof.
  intros Hv Hd Hle. unfold dec.
  assert ((10 * v + d) / 10 = v) as -> by zlia. assert ((10 * v + d) mod 10 = d) as -> by zlia.
  assert ((10 * v + d) / 100 = v / 10) as -> by zlia.
  destruct (Z.ltb_spec (10 * v + d) 10), (Z.ltb_spec (10 * v + d) 100), (Z.ltb_spec v 10), (Z.ltb_spec v 100);
    done || lia.
Qed.

Lemma dec_single d : 0 <= d < 10 -> dec d = [digit d].
Proof. intros. unfold dec. by rewrite (proj2 (Z.ltb_lt d 10)) by lia. Qed.

(** Complete octets, each followed by a dot. *)
Definition dotted (os : list Z) : list Z := concat (map (fun o => dec o ++ [ch "."]) os).

Lemma dotted_snoc os o : dotted (os ++ [o]) = dotted os ++ dec o ++ [ch "."].
Proof. unfold dotted. rewrite map_app, concat_app. cbn. by rewrite app_nil_r. Qed.

(** The state of the loop after the characters [s]. *)
Definition quad_state (s : list Z) (saw : bool) (num val : Z) (b : list Z) : Prop :=
  exists os junk, bytes_ok os /\ b = os ++ junk /\ (List.length os + List.length junk = 4)%nat /\
    (List.length os <= 3)%nat /\ num = zlen os /\ 0 <= val < 256 /\
    (saw = false -> val = 0) /\ s = dotted os ++ (if saw then dec val else []).

Lemma quad_digit s saw num val b d : quad_state s saw num val b -> 0 <= d < 10 ->
  saw && (val =? 0) = false -> 10 * val + d <= 255 ->
  quad_state (s ++ [digit d]) true num (10 * val + d) b.
Proof.
  intros (os & junk & Ho & -> & Hl & Hn & -> & Hv & Hs & ->) Hd Hz Hle. exists os, junk.
  split_and!; try done; try lia. rewrite <- app_assoc. f_equal. destruct saw.
  - cbn [andb] in Hz. apply Z.eqb_neq in Hz. by rewrite dec_snoc by lia.
  - rewrite Hs by done. by rewrite Z.mul_0_r, Z.add_0_l, dec_single by lia.
Qed.

Lemma quad_dot s num val b : quad_state s true num val b -> num <> 3 ->
  exists b', store8 b num (u8 val) = Ok b' /\ quad_state (s ++ [ch "."]) false (num + 1) 0 b'.
Proof.
  intros (os & junk & Ho & -> & Hl & Hn & -> & Hv & Hs & ->) H3.
  destruct junk as [|x junk]; [cbn in Hl; lia|]. exists (os ++ val :: junk).
  assert (u8 val = val) as -> by (apply Z.mod_small; lia). rewrite store8_app. split; [done|].
  exists (os ++ [val]), junk. unfold zlen in *. rewrite <- app_assoc, length_app. cbn [List.length app] in *.
  split_and!; try done; try lia.
  - apply bytes_ok_app. split; [done|]. apply bytes_ok_cons. split; [done|constructor].
  - by rewrite dotted_snoc, <- !app_assoc, app_nil_r.
Qed.

(** The loop keeps the state or refuses the string. *)
Lemma InAddr_loop_spec rest s saw num val b : quad_state s saw num val b ->
  exists r, InAddr_loop rest saw num val b = Ok r /\
    match r with
    | None => True
    | Some (saw', num', val', b') => quad_state (s ++ rest) saw' num' val' b'
    end.
Proof.
  revert s saw num val b. induction rest as [|c rest IH]; intros s saw num val b Hq; cbn [InAddr_loop].
  { eexists. split; [done|]. by rewrite app_nil_r. }
  assert (s ++ c :: rest = (s ++ [c]) ++ rest) as -> by (by rewrite <- app_assoc).
  destruct (is_digit c) eqn:Ed.
  - apply is_digit_spec in Ed as (d & Hd & ->). destruct (saw && (val =? 0)) eqn:Ez; [by exists None|].
    assert (0 <= val < 256) as Hv by (by destruct Hq as (os & junk & _ & _ & _ & _ & _ & Hv & _)).
    assert (u32 (10 * val + (digit d - ch "0")) = 10 * val + d) as ->.
    { unfold u32, digit. change (ch "0") with 48. rewrite Z.mod_small; lia. }
    rewrite Z.gtb_ltb. destruct (Z.ltb_spec 255 (10 * val + d)); [by exists None|].
    apply IH. by apply quad_digit with saw.
  - destruct ((c =? ch ".") && saw) eqn:Ec; [|by exists None].
    apply andb_true_iff in Ec as [Ec ->]. apply Z.eqb_eq in Ec as ->.
    destruct (Z.eqb_spec num 3); [by exists None|].
    destruct (quad_dot _ _ _ _ Hq) as (b' & -> & Hq'); [done|]. rewrite bind_Ok. by apply IH.
Qed.

Lemma quad_init b : List.length b = 4%nat -> quad_state [] false 0 0 b.
Proof. intros E. exists [], b. split_and!; try done; [constructor|cbn; lia..]. Qed.

Lemma text4_dotted a b c d : text4 [a; b; c; d] = dotted [a; b; c] ++ dec d.
Proof. unfold text4, dotted. cbn [nth map concat]. by rewrite <- !app_assoc. Qed.

(** Soundness: what is accepted is the text of its octets. *)
Lemma StringToInAddr_sound s b : List.length b = 4%nat ->
  exists r, StringToInAddr s b = Ok r /\
    forall a, r = Some a -> exists o, bytes_ok o /\ List.length o = 4%nat /\ s = text4 o /\
      a = {| s_addr := le_load o |}.
Proof.
  intros Hb. unfold StringToInAddr. destruct (InAddr_loop_spec s [] false 0 0 b (quad_init b Hb)) as (r & -> & Hr).
  rewrite bind_Ok. destruct r as [[[[saw num] val] b']|]; [|by exists None].
  destruct Hr as (os & junk & Ho & -> & Hl & Hn & -> & Hv & Hs & Et).
  destruct (Z.ltb_spec (zlen os) 3) as [|H3]; [by exists None|].
  destruct saw; cbn [negb]; [|by exists None].
  unfold zlen in H3. destruct os as [|o0 [|o1 [|o2 [|]]]]; cbn [List.length app] in *; try lia.
  destruct junk as [|x [|]]; cbn [List.length app] in *; try lia.
  assert (u8 val = val) as -> by (apply Z.mod_small; lia).
  change (store8 [o0; o1; o2; x] 3 val) with (Ok [o0; o1; o2; val]). rewrite bind_Ok.
  eexists. split; [done|]. intros a E. injection E as <-. exists [o0; o1; o2; val].
  split; [|split; [done|split; [|done]]].
  - repeat (apply bytes_ok_cons in Ho as [? Ho]). repeat (apply bytes_ok_cons; split); try done.
  - by rewrite text4_dotted.
Qed.

(** Completeness: an octet is read back. *)
Lemma InAddr_digit d rest saw num val b : 0 <= d < 10 -> saw && (val =? 0) = false ->
  0 <= val -> 10 * val + d <= 255 ->
  InAddr_loop (digit d :: rest) saw num val b = InAddr_loop rest true num (10 * val + d) b.
Proof.
  intros Hd Hz Hv Hle. cbn [InAddr_loop]. rewrite (proj2 (is_digit_spec (digit d))) by (by exists d).
  rewrite Hz. assert (u32 (10 * val + (digit d - ch "0")) = 10 * val + d) as ->.
  { unfold u32, digit. change (ch "0") with 48. rewrite Z.mod_small; lia. }
  by rewrite Z.gtb_ltb, (proj2 (Z.ltb_ge 255 _)) by lia.
Qed.

Lemma InAddr_octet n rest num b : 0 <= n < 256 ->
  InAddr_loop (dec n ++ rest) false num 0 b = InAddr_loop rest true num n b.
Proof.
  intros Hn. unfold dec. destruct (Z.ltb_spec n 10); [|destruct (Z.ltb_spec n 100)]; cbn [app].
  - by rewrite InAddr_digit by (done || lia).
  - rewrite (InAddr_digit (n / 10)) by (done || zlia).
    rewrite InAddr_digit by (zlia || (apply Z.eqb_neq; zlia)). f_equal. zlia.
  - rewrite (InAddr_digit (n / 100)) by (done || zlia).
    rewrite (InAddr_digit (n / 10 mod 10)) by (zlia || (apply Z.eqb_neq; zlia)).
    rewrite InAddr_digit by (zlia || (apply Z.eqb_neq; zlia)). f_equal. zlia.
Qed.

Lemma InAddr_dot rest num val b b' : num <> 3 -> store8 b num (u8 val) = Ok b' ->
  InAddr_loop (ch "." :: rest) true num val b = InAddr_loop rest false (num + 1) 0 b'.
Proof.
  intros H3 E. cbn [InAddr_loop]. change (is_digit (ch ".")) with false. rewrite Z.eqb_refl.
  cbn [andb]. by rewrite (proj2 (Z.eqb_neq num 3) H3), E, bind_Ok.
Qed.

Lemma StringToInAddr_complete o b : bytes_ok o -> List.length o = 4%nat -> List.length b = 4%nat ->
  StringToInAddr (text4 o) b = Ok (Some {| s_addr := le_load o |}).
Proof.
  intros Ho Hl Hb. destruct o as [|o0 [|o1 [|o2 [|o3 [|]]]]]; try done.
  destruct b as [|b0 [|b1 [|b2 [|b3 [|]]]]]; try done.
  repeat (apply bytes_ok_cons in Ho as [? Ho]). unfold byte_ok in *.
  unfold StringToInAddr, text4. cbn [nth].
  assert (forall x, 0 <= x < 256 -> u8 x = x) as U by (intros; by apply Z.mod_small).
  rewrite InAddr_octet, (InAddr_dot _ 0 o0 _ [o0; b1; b2; b3]) by (done || by rewrite U).
  rewrite InAddr_octet, (InAddr_dot _ _ o1 _ [o0; o1; b2; b3]) by (done || by rewrite U).
  rewrite InAddr_octet, (InAddr_dot _ _ o2 _ [o0; o1; o2; b3]) by (done || by rewrite U).
  rewrite <- (app_nil_r (dec o3)), InAddr_octet by done. cbn [InAddr_loop]. rewrite bind_Ok.
  cbn [Z.add Z.ltb Z.compare Pos.add Pos.succ Pos.compare Pos.compare_cont negb]. by rewrite U.
Qed.

(** C25. [StringToInAddr] decides the dotted-quad format: on every string it
    terminates without touching memory outside its array, and it accepts exactly
    the strings [d.d.d.d] of four octets in decimal without leading zeros, with
    the address whose bytes are these octets.  So its text is unique. *)
Theorem StringToInAddr_exact s b : List.length b = 4%nat ->
  exists r, StringToInAddr s b = Ok r /\
    forall a, r = Some a <-> exists o, bytes_ok o /\ List.length o = 4%nat /\ s = text4 o /\
      a = {| s_addr := le_load o |}.
Proof.
  intros Hb. destruct (StringToInAddr_sound s b Hb) as (r & E & Hr). exists r. split; [done|].
  intros a. split; [apply Hr|]. intros (o & Ho & Hl & -> & ->).
  rewrite StringToInAddr_complete in E by done. by injection E as <-.
Qed.

Lemma StringToInAddr_exact_witness :
  exists r, StringToInAddr (str "192.168.0.1") [1; 2; 3; 4] = Ok r.
Proof. destruct (StringToInAddr_exact (str "192.168.0.1") [1; 2; 3; 4] eq_refl) as (r & E & _). by exists r. Defined.

(** ** Safety of the IPv6 parser *)

Section safety.
Context `{BuildMode}.

Lemma store8_length m p v : 0 <= p < zlen m -> exists m', store8 m p v = Ok m' /\
  List.length m' = List.length m /\ (bytes_ok m -> byte_ok v -> bytes_ok m').
Proof.
  intros Hp. unfold store8. rewrite (proj2 (Z.ltb_ge p 0)), (proj2 (Z.ltb_lt p _)) by lia.
  eexists. split; [done|]. split; [by rewrite length_insert|]. intros. by apply Forall_insert.
Qed.

Lemma store_bytes_length m p l : 0 <= p -> p + zlen l <= zlen m -> exists m', store_bytes m p l = Ok m' /\
  List.length m' = List.length m /\ (bytes_ok m -> bytes_ok l -> bytes_ok m').
Proof.
  intros Hp Hl. unfold store_bytes. rewrite (proj2 (Z.leb_le 0 p)), (proj2 (Z.leb_le _ _) Hl) by lia.
  unfold zlen in *. eexists. split; [done|]. split.
  - rewrite !length_app, length_take, length_drop. lia.
  - intros. apply bytes_ok_app. split; [by apply bytes_ok_take|]. apply bytes_ok_app.
    split; [done|by apply bytes_ok_drop].
Qed.

Lemma byte_ok_land_ff x : byte_ok (Z.land x 0xff).
Proof. rewrite land_ff. unfold byte_ok. pose proof (Z.mod_pos_bound x 256). lia. Qed.

Lemma store_field_ok b i v : List.length b = 16%nat -> bytes_ok b -> 0 <= i <= 7 ->
  exists b', store_field b i v = Ok b' /\ List.length b' = 16%nat /\ bytes_ok b'.
Proof.
  intros Hl Hb Hi. unfold store_field.
  destruct (store8_length b (2 * i) (Z.land (Z.shiftr v 8) 0xff)) as (b1 & -> & E1 & B1); [unfold zlen; lia|].
  rewrite bind_Ok. specialize (B1 Hb (byte_ok_land_ff _)).
  destruct (store8_length b1 (2 * i + 1) (Z.land v 0xff)) as (b2 & -> & E2 & B2); [unfold zlen; lia|].
  exists b2. split; [done|]. split; [lia|]. apply B2; [done|]. apply byte_ok_land_ff.
Qed.

Definition in6_inv (lim : Z) (st : In6State) : Prop :=
  0 <= field_index st <= lim /\ 0 <= num_nibbles st /\ (0 < num_nibbles st -> field_index st <= 7) /\
  (double_colon_field_index st = -1 \/ 0 <= double_colon_field_index st <= field_index st) /\
  List.length (ip6_bytes st) = 16%nat /\ bytes_ok (ip6_bytes st).

Lemma In6Addr_loop_safe scratch it st : List.length scratch = 4%nat -> in6_inv 7 st ->
  exists r, In6Addr_loop scratch it st = Ok r /\ match r with None => True | Some st' => in6_inv 8 st' end.
Proof.
  intros Hsc. revert st. induction it as [|c it IH]; intros st Hst; cbn [In6Addr_loop].
  { eexists. split; [done|]. destruct Hst as (? & ?). split; [lia|done]. }
  pose proof Hst as (Hf & Hn & Hnf & Hd & Hl & Hb).
  destruct (HexDigitValue c >=? 0).
  { destruct (num_nibbles st =? 4); [by exists None|]. apply IH. split_and!; cbn; try done; lia. }
  destruct (c =? ch ":").
  - destruct (Z.eqb_spec (num_nibbles st) 0).
    + rewrite Z.geb_leb. destruct (Z.leb_spec 0 (double_colon_field_index st)); [by exists None|].
      apply IH. split_and!; cbn; try done; lia.
    + destruct it as [|c' it']; [by exists None|]. destruct (Z.eqb_spec (field_index st) 7); [by exists None|].
      destruct (store_field_ok (ip6_bytes st) (field_index st) (field_val st) Hl Hb) as (b & -> & E & B); [lia|].
      rewrite bind_Ok. apply IH. split_and!; cbn; try done; lia.
  - destruct ((c =? ch ".") && (field_index st <=? 6)) eqn:Ec; [|by exists None].
    apply andb_true_iff in Ec as [_ H6]. apply Z.leb_le in H6.
    destruct (StringToInAddr_sound (field_begin st) scratch Hsc) as (r & -> & _). rewrite bind_Ok.
    destruct r as [a|]; [|by exists None].
    destruct (store_bytes_length (ip6_bytes st) (2 * field_index st) (le_store 4 (s_addr a))) as (b & -> & E & B);
      [lia|rewrite zlen_le_store; unfold zlen; lia|].
    rewrite bind_Ok. eexists. split; [done|]. split_and!; cbn [field_index num_nibbles double_colon_field_index ip6_bytes]; try lia.
    apply B; [done|apply le_store_ok].
Qed.

Lemma In6Addr_finish_safe st : in6_inv 8 st ->
  exists r, In6Addr_finish st = Ok r /\
    match r with None => True | Some a => List.length (s6_addr a) = 16%nat /\ bytes_ok (s6_addr a) end.
Proof.
  intros (Hf & Hn & Hnf & Hd & Hl & Hb). unfold In6Addr_finish.
  assert (exists fi b, (if num_nibbles st >? 0 then
       _ ← DCHECK (field_index st <=? 7);
       b ← store_field (ip6_bytes st) (field_index st) (field_val st);
       Ok (field_index st + 1, b)
     else Ok (field_index st, ip6_bytes st)) = Ok (fi, b) /\
    field_index st <= fi <= 8 /\ List.length b = 16%nat /\ bytes_ok b) as (fi & b & -> & Hfi & Hlb & Hbb).
  { rewrite Z.gtb_ltb. destruct (Z.ltb_spec 0 (num_nibbles st)) as [Hp|Hp].
    - specialize (Hnf Hp). rewrite (proj2 (Z.leb_le (field_index st) 7)), DCHECK_true, bind_Ok by lia.
      destruct (store_field_ok (ip6_bytes st) (field_index st) (field_val st) Hl Hb) as (b & -> & E & B); [lia|].
      eexists _, b. split; [done|]. split; [lia|done].
    - eexists _, _. split; [done|]. split; [lia|done]. }
  rewrite bind_Ok. rewrite Z.geb_leb. destruct (Z.leb_spec 0 (double_colon_field_index st)) as [Hdc|Hdc].
  - assert (0 <= double_colon_field_index st <= fi) as Hd' by lia. clear Hd.
    destruct (Z.eqb_spec (8 - fi) 0); [rewrite bind_Ok; by exists None|].
    set (dc := double_colon_field_index st) in *.
    destruct (load_bytes_ok b (2 * dc) (Z.to_nat (2 * (fi - dc)))) as (mv & -> & Emv & Emv'); [lia|unfold zlen; lia|].
    rewrite bind_Ok.
    assert (bytes_ok mv) as Hmv by (rewrite Emv'; apply bytes_ok_take, bytes_ok_drop; done).
    destruct (store_bytes_length b (2 * (8 - (fi - dc))) mv) as (b1 & -> & E1 & B1); [lia|unfold zlen; lia|].
    rewrite bind_Ok.
    destruct (store_bytes_length b1 (2 * dc) (replicate (Z.to_nat (2 * (8 - fi))) 0)) as (b2 & -> & E2 & B2);
      [lia|unfold zlen; rewrite length_replicate; lia|].
    rewrite !bind_Ok. cbn [Z.eqb Pos.eqb negb]. eexists. split; [done|]. cbn [s6_addr]. split; [lia|].
    apply B2; [by apply B1|]. apply Forall_replicate. split; lia.
  - rewrite bind_Ok. destruct (negb (fi =? 8)); [by exists None|]. eexists. split; [done|]. by cbn [s6_addr].
Qed.

Lemma StringToIn6Addr_safe s init scratch : List.length init = 16%nat -> bytes_ok init ->
  List.length scratch = 4%nat ->
  exists r, StringToIn6Addr s init scratch = Ok r /\
    match r with None => True | Some a => List.length (s6_addr a) = 16%nat /\ bytes_ok (s6_addr a) end.
Proof.
  intros Hi Hb Hs. unfold StringToIn6Addr. destruct (Z.ltb_spec (zlen s) 2); [by exists None|].
  set (st0 := {| field_index := 0; field_val := 0; num_nibbles := 0; field_begin := s;
                 double_colon_field_index := -1; ip6_bytes := init |}).
  assert (forall it, exists r, (st ← In6Addr_loop scratch it st0;
      match st with None => Ok None | Some st => In6Addr_finish st end) = Ok r /\
      match r with None => True | Some a => List.length (s6_addr a) = 16%nat /\ bytes_ok (s6_addr a) end) as X.
  { intros it. destruct (In6Addr_loop_safe scratch it st0 Hs) as (r & -> & Hr).
    { split_and!; cbn; try done; lia. }
    rewrite bind_Ok. destruct r as [st|]; [by apply In6Addr_finish_safe|by exists None]. }
  destruct s as [|c s]; [unfold zlen in *; cbn in *; lia|]. destruct (c =? ch ":"); [|apply X].
  destruct s as [|c' s]; [by exists None|]. destruct (negb (c' =? ch ":")); [by exists None|apply X].
Qed.
End safety.
