(* ===== verification/IPRoundTrip.v ===== *)
(** * Printing and parsing IP addresses again

    Every text that [IPAddress::ToString] writes is parsed to the address
    printed. *)
From Stdlib Require Import ZArith Lia Ascii String.
From stdpp Require Import base list numbers option.
From S2P Require Import Prelude.
From S2P Require Import Endian.
From S2P Require Import IPAddr.
From S2P Require Import IPOrder.
From S2P Require Import IPText.
From S2P Require Import IPPrint.
From S2P Require Import IPParse.
Local Open Scope Z_scope.

Section roundtrip6.
Context `{BuildMode} (scratch : list Z).
Hypothesis Hscratch : List.length scratch = 4%nat.

(** A state of the loop, as a constructor application. *)
Definition st6 (fi fv nn : Z) (fb : list Z) (dc : Z) (b : list Z) : In6State :=
  {| field_index := fi; field_val := fv; num_nibbles := nn; field_begin := fb;
     double_colon_field_index := dc; ip6_bytes := b |}.

Lemma hex_value d : 0 <= d < 16 -> HexDigitValue (hexc d) = d.
Proof.
  intros Hd. assert (forallb (fun d => HexDigitValue (hexc d) =? d) (map Z.of_nat (seq 0 16)) = true) as F by reflexivity.
  rewrite forallb_forall in F. apply Z.eqb_eq, F. apply in_map_iff. exists (Z.to_nat d).
  rewrite in_seq. lia.
Qed.

(** One hexadecimal digit. *)
Lemma loop_nibble c d it fi fv nn fb dc b : HexDigitValue c = d -> 0 <= d < 16 -> nn <> 4 ->
  0 <= fv < 2 ^ 16 ->
  In6Addr_loop scratch (c :: it) (st6 fi fv nn fb dc b) =
  In6Addr_loop scratch it (st6 fi (16 * fv + d) (nn + 1) fb dc b).
Proof.
  intros Hc Hd Hn Hf. cbn [In6Addr_loop]. rewrite Hc, Z.geb_leb, (proj2 (Z.leb_le 0 d)) by lia.
  cbn [num_nibbles st6]. rewrite (proj2 (Z.eqb_neq nn 4) Hn).
  replace (u64 _) with (16 * fv + d); [done|]. cbn [field_val st6].
  rewrite Z.lor_comm, lor_shiftl_disjoint by lia. change (2 ^ 4) with 16. unfold u64.
  rewrite Z.mod_small; lia.
Qed.

(** A word. *)
Lemma loop_hex w rest fi fb dc b : word_ok w ->
  In6Addr_loop scratch (hex w ++ rest) (st6 fi 0 0 fb dc b) =
  In6Addr_loop scratch rest (st6 fi w (zlen (hex w)) fb dc b).
Proof.
  intros Hw. unfold word_ok in Hw. unfold hex.
  destruct (Z.eqb_spec (w / 4096) 0) as [E1|E1], (Z.eqb_spec (w / 256) 0) as [E2|E2],
    (Z.eqb_spec (w / 16) 0) as [E3|E3]; try zlia; cbn [app];
    repeat (erewrite loop_nibble; [|apply hex_value; zlia|zlia|lia|zlia]);
    (f_equal; unfold st6; f_equal; zlia).
Qed.

(** Two bytes of the array. *)
Lemma store_field_app D J w fi : word_ok w -> List.length D = Z.to_nat (2 * fi) -> 0 <= fi ->
  (2 <= List.length J)%nat ->
  store_field (D ++ J) fi w = Ok (D ++ be_store 2 w ++ drop 2 J).
Proof.
  intros Hw HD Hf HJ. destruct J as [|x [|y J]]; cbn [List.length] in HJ; [lia|lia|].
  assert (2 * fi = zlen D) as Ez by (unfold zlen; lia). unfold store_field.
  rewrite Ez, store8_app, bind_Ok. cbn [drop].
  assert (forall u, D ++ u :: y :: J = (D ++ [u]) ++ y :: J) as Eu by (intros; by rewrite <- app_assoc).
  rewrite Eu. replace (zlen D + 1) with (zlen (D ++ [Z.land (Z.shiftr w 8) 0xff])) by (by rewrite zlen_app).
  rewrite store8_app, <- app_assoc. do 2 f_equal. cbn [app]. unfold be_store.
  cbn [le_store rev app]. rewrite !land_ff, Z.shiftr_div_pow2 by lia. done.
Qed.

(** A colon after a word. *)
Lemma loop_colon c it fi w nn fb dc D J : word_ok w -> nn <> 0 -> 0 <= fi -> fi <> 7 ->
  List.length D = Z.to_nat (2 * fi) -> (2 <= List.length J)%nat ->
  In6Addr_loop scratch (ch ":" :: c :: it) (st6 fi w nn fb dc (D ++ J)) =
  In6Addr_loop scratch (c :: it) (st6 (fi + 1) 0 0 (c :: it) dc ((D ++ be_store 2 w) ++ drop 2 J)).
Proof.
  intros Hw Hn Hf H7 HD HJ.
  change (In6Addr_loop scratch (ch ":" :: c :: it) (st6 fi w nn fb dc (D ++ J))) with
    (if nn =? 0 then (if dc >=? 0 then Ok None else
        In6Addr_loop scratch (c :: it) (st6 fi w nn (c :: it) fi (D ++ J)))
     else if fi =? 7 then Ok None
     else b ← store_field (D ++ J) fi w; In6Addr_loop scratch (c :: it) (st6 (fi + 1) 0 0 (c :: it) dc b)).
  rewrite (proj2 (Z.eqb_neq nn 0) Hn), (proj2 (Z.eqb_neq fi 7) H7), store_field_app, bind_Ok by done.
  by rewrite <- app_assoc.
Qed.

(** The second colon of a pair. *)
Lemma loop_double it fi fb b : 0 <= fi ->
  In6Addr_loop scratch (ch ":" :: it) (st6 fi 0 0 fb (-1) b) = In6Addr_loop scratch it (st6 fi 0 0 it fi b).
Proof. intros. reflexivity. Qed.

Lemma hex_nonempty w : exists c l, hex w = c :: l.
Proof. destruct (hex w) as [|c l] eqn:E; [|by exists c, l]. pose proof (length_hex w). rewrite E in *. cbn in *. lia. Qed.

Lemma length_be2 w : List.length (be_store 2 w) = 2%nat.
Proof. apply length_be_store. Qed.

Lemma length_flat ws : List.length (flat ws) = (2 * List.length ws)%nat.
Proof.
  unfold flat. induction ws as [|w ws IH]; [done|]. cbn [map concat List.length].
  rewrite length_app, length_be2, IH. lia.
Qed.

(** Words that are followed by a colon and more. *)
Lemma loop_words_colon ws c it fi fb dc D J : ws <> [] -> Forall word_ok ws -> 0 <= fi ->
  fi + zlen ws <= 7 -> List.length D = Z.to_nat (2 * fi) -> (2 * List.length ws <= List.length J)%nat ->
  In6Addr_loop scratch (join ws ++ ch ":" :: c :: it) (st6 fi 0 0 fb dc (D ++ J)) =
  In6Addr_loop scratch (c :: it)
    (st6 (fi + zlen ws) 0 0 (c :: it) dc ((D ++ flat ws) ++ drop (2 * List.length ws) J)).
Proof.
  intros Hne HW. revert fi fb D J Hne. induction HW as [|w ws Hw HW IH]; intros fi fb D J Hne Hf H7 HD HJ; [done|].
  unfold zlen in H7. cbn [List.length] in *. cbn [join]. rewrite <- app_assoc, loop_hex by done.
  pose proof (length_hex w) as Hhw. assert (zlen (hex w) <> 0) as Hz by (unfold zlen; lia).
  destruct ws as [|w' ws].
  - cbn [cw map concat app]. by rewrite loop_colon by (done || lia).
  - rewrite (cw_join (w' :: ws)) by done. cbn [app].
    destruct (hex_nonempty w') as (c' & l' & E').
    assert (join (w' :: ws) ++ ch ":" :: c :: it = c' :: l' ++ cw ws ++ ch ":" :: c :: it) as Ej.
    { cbn [join]. rewrite E'. cbn [app]. by rewrite <- app_assoc. }
    rewrite Ej, loop_colon by (done || lia). rewrite <- Ej.
    rewrite IH; [|done|lia|unfold zlen; cbn [List.length] in *; lia|rewrite length_app, length_be2; lia
      |rewrite length_drop; cbn [List.length] in *; lia].
    f_equal. unfold st6. f_equal; [unfold zlen; cbn [List.length]; lia|].
    rewrite <- !app_assoc, drop_drop. unfold flat. cbn [map concat]. rewrite <- !app_assoc. do 5 f_equal.
    cbn [List.length]. lia.
Qed.

(** The fields of the loop's last state, the current one included. *)
Definition fields_end (st : In6State) (fi : Z) (dc : Z) (b : list Z) : Prop :=
  double_colon_field_index st = dc /\
  (if num_nibbles st >? 0 then
     _ ← DCHECK (field_index st <=? 7);
     b ← store_field (ip6_bytes st) (field_index st) (field_val st);
     Ok (field_index st + 1, b)
   else Ok (field_index st, ip6_bytes st)) = Ok (fi, b).

(** Words up to the end of the text. *)
Lemma loop_words_end ws fi fb dc D J : Forall word_ok ws -> 0 <= fi -> fi + zlen ws <= 8 ->
  List.length D = Z.to_nat (2 * fi) -> (2 * List.length ws <= List.length J)%nat ->
  exists st, In6Addr_loop scratch (join ws) (st6 fi 0 0 fb dc (D ++ J)) = Ok (Some st) /\
    fields_end st (fi + zlen ws) dc ((D ++ flat ws) ++ drop (2 * List.length ws) J).
Proof.
  intros HW Hf H8 HD HJ. destruct ws as [|w pre _] using rev_ind.
  { eexists. split; [reflexivity|]. split; [done|]. cbn. unfold flat. cbn. by rewrite Z.add_0_r, app_nil_r. }
  apply Forall_app in HW as [HP Hw]. rewrite Forall_singleton in Hw.
  rewrite zlen_app, length_app in *. change (zlen [w]) with 1 in *. cbn [List.length] in *.
  assert (forall fi' fb' D' J', 0 <= fi' <= 7 -> List.length D' = Z.to_nat (2 * fi') -> (2 <= List.length J')%nat ->
    exists st, In6Addr_loop scratch (hex w) (st6 fi' 0 0 fb' dc (D' ++ J')) = Ok (Some st) /\
      fields_end st (fi' + 1) dc (D' ++ be_store 2 w ++ drop 2 J')) as Last.
  { intros fi' fb' D' J' H1 H2 H3. rewrite <- (app_nil_r (hex w)), loop_hex by done. eexists. split; [reflexivity|].
    split; [done|]. cbn [st6 num_nibbles field_index field_val ip6_bytes]. pose proof (length_hex w).
    rewrite Z.gtb_ltb, (proj2 (Z.ltb_lt 0 _)) by (unfold zlen; lia).
    by rewrite (proj2 (Z.leb_le fi' 7)), DCHECK_true, bind_Ok, store_field_app, bind_Ok by (done || lia). }
  assert (join (pre ++ [w]) = match pre with [] => hex w | _ => join pre ++ ch ":" :: hex w end) as Ej.
  { destruct pre as [|p pre]; [cbn; by rewrite app_nil_r|]. cbn [app join]. unfold cw.
    rewrite map_app, concat_app. cbn. by rewrite app_nil_r, <- app_assoc. }
  rewrite Ej. destruct pre as [|p pre'] eqn:Ep.
  - destruct (Last fi fb D J) as (st & E & F);
      [unfold zlen in *; cbn [List.length] in *; lia|done|cbn [List.length] in *; lia|].
    exists st. split; [done|]. rewrite <- app_assoc. exact F.
  - rewrite <- Ep in *. destruct (hex_nonempty w) as (c & l & Eh). rewrite Eh.
    unfold zlen in H8. rewrite loop_words_colon; [|by rewrite Ep|done|lia|unfold zlen; lia|done|lia]. rewrite <- Eh.
    destruct (Last (fi + zlen pre) (hex w) (D ++ flat pre) (drop (2 * List.length pre) J)) as (st & E & F).
    + unfold zlen. lia.
    + rewrite length_app, HD, length_flat. unfold zlen. lia.
    + rewrite length_drop. lia.
    + exists st. split; [done|]. rewrite flat_app. unfold flat at 2. cbn [map concat]. rewrite app_nil_r.
      rewrite drop_drop in F. replace (2 * (List.length pre + 1))%nat with (2 * List.length pre + 2)%nat by lia.
      rewrite <- !app_assoc in *. by rewrite Z.add_assoc.
Qed.

(** ** After the loop *)

Lemma finish_plain st b : fields_end st 8 (-1) b -> In6Addr_finish st = Ok (Some {| s6_addr := b |}).
Proof. intros (Ed & E). unfold In6Addr_finish. by rewrite E, bind_Ok, Ed. Qed.

Lemma finish_double st fi dc A B J : fields_end st fi dc (A ++ B ++ J) -> 0 <= dc <= fi -> fi < 8 ->
  List.length A = Z.to_nat (2 * dc) -> List.length B = Z.to_nat (2 * (fi - dc)) ->
  List.length J = Z.to_nat (2 * (8 - fi)) ->
  In6Addr_finish st = Ok (Some {| s6_addr := A ++ replicate (Z.to_nat (2 * (8 - fi))) 0 ++ B |}).
Proof.
  intros (Ed & E) Hd Hf HA HB HJ. unfold In6Addr_finish. rewrite E, bind_Ok, Ed.
  rewrite Z.geb_leb, (proj2 (Z.leb_le 0 dc)), (proj2 (Z.eqb_neq (8 - fi) 0)) by lia.
  replace (2 * dc) with (zlen A) by (unfold zlen; lia).
  rewrite load_bytes_app, bind_Ok by lia.
  assert (exists X, A ++ B ++ J = (A ++ X) ++ (drop (Z.to_nat (2 * (8 - fi))) (B ++ J)) /\
    List.length X = Z.to_nat (2 * (8 - fi)) /\
    List.length (drop (Z.to_nat (2 * (8 - fi))) (B ++ J)) = List.length B) as (X & EX & LX & LD).
  { exists (take (Z.to_nat (2 * (8 - fi))) (B ++ J)). rewrite <- app_assoc, take_drop.
    rewrite length_take, length_drop, length_app. split; [done|]. lia. }
  rewrite EX. replace (2 * (8 - (fi - dc))) with (zlen (A ++ X)) by (unfold zlen; rewrite length_app; lia).
  rewrite <- (app_nil_r (drop _ _)), store_bytes_app, bind_Ok, app_nil_r by done.
  rewrite <- app_assoc, store_bytes_app, !bind_Ok by (by rewrite length_replicate). done.
Qed.

(** ** An embedded dotted quad *)

Lemma digit_value d : 0 <= d < 10 -> HexDigitValue (digit d) = d.
Proof.
  intros Hd. unfold HexDigitValue, digit. change (ch "0") with 48. change (ch "9") with 57.
  rewrite (proj2 (Z.leb_le 48 _)), (proj2 (Z.leb_le _ 57)) by lia. cbn [andb]. lia.
Qed.

Lemma loop_dec n rest fi fb dc b : 0 <= n < 256 -> exists v k,
  In6Addr_loop scratch (dec n ++ rest) (st6 fi 0 0 fb dc b) = In6Addr_loop scratch rest (st6 fi v k fb dc b).
Proof.
  intros Hn. unfold dec. destruct (Z.ltb_spec n 10); [|destruct (Z.ltb_spec n 100)]; cbn [app];
    do 2 eexists; repeat (erewrite loop_nibble; [|apply digit_value; zlia|zlia|lia|zlia]); reflexivity.
Qed.

Lemma loop_quad o fi dc D J : bytes_ok o -> List.length o = 4%nat -> 0 <= fi <= 6 ->
  List.length D = Z.to_nat (2 * fi) -> (4 <= List.length J)%nat ->
  exists v, In6Addr_loop scratch (text4 o) (st6 fi 0 0 (text4 o) dc (D ++ J)) =
    Ok (Some (st6 (fi + 2) v 0 (text4 o) dc (D ++ o ++ drop 4 J))).
Proof.
  intros Ho Hl Hf HD HJ.
  pose proof (StringToInAddr_complete o scratch Ho Hl Hscratch) as EP. set (t := text4 o) in *.
  assert (0 <= nth 0 o 0 < 256) as H0.
  { destruct o; [done|]. apply bytes_ok_cons in Ho as [Ho _]. exact Ho. }
  assert (exists r, t = dec (nth 0 o 0) ++ ch "." :: r) as (r & Et) by (by eexists).
  clearbody t.
  assert (In6Addr_loop scratch t (st6 fi 0 0 t dc (D ++ J)) =
    In6Addr_loop scratch (dec (nth 0 o 0) ++ ch "." :: r) (st6 fi 0 0 t dc (D ++ J))) as -> by (by rewrite <- Et).
  destruct (loop_dec (nth 0 o 0) (ch "." :: r) fi t dc (D ++ J) H0) as (v & k & ->).
  cbn [In6Addr_loop]. change (HexDigitValue (ch ".") >=? 0) with false. change (ch "." =? ch ":") with false.
  rewrite Z.eqb_refl. cbn [st6 field_index field_begin ip6_bytes andb].
  rewrite (proj2 (Z.leb_le fi 6)), EP, bind_Ok by lia. cbn [s_addr]. rewrite le_store_load by done.
  replace (2 * fi) with (zlen D) by (unfold zlen; lia).
  replace (D ++ J) with (D ++ take 4 J ++ drop 4 J) by (by rewrite take_drop).
  rewrite store_bytes_app, bind_Ok by (rewrite length_take; lia).
  exists v. done.
Qed.

Lemma quad_fields_end v fi fb dc b : fields_end (st6 fi v 0 fb dc b) fi dc b.
Proof. split; [done|reflexivity]. Qed.

(** ** The texts of the printer *)

(** The text starts with a word, or with two colons. *)
Lemma StringToIn6Addr_word t init c l : t = c :: l -> (2 <= List.length t)%nat -> c <> ch ":" ->
  StringToIn6Addr t init scratch =
  (st ← In6Addr_loop scratch t (st6 0 0 0 t (-1) init);
   match st with None => Ok None | Some st => In6Addr_finish st end).
Proof.
  intros -> Hl Hc. unfold StringToIn6Addr. rewrite (proj2 (Z.ltb_ge _ 2)) by (unfold zlen; lia).
  by rewrite (proj2 (Z.eqb_neq _ _) Hc).
Qed.

Lemma StringToIn6Addr_colons l init :
  StringToIn6Addr (str "::" ++ l) init scratch =
  (st ← In6Addr_loop scratch l (st6 0 0 0 l 0 init);
   match st with None => Ok None | Some st => In6Addr_finish st end).
Proof.
  unfold StringToIn6Addr. rewrite (proj2 (Z.ltb_ge _ 2)) by (unfold zlen; cbn [str app List.length]; lia). done.
Qed.

Lemma hexc_not_colon d : 0 <= d < 16 -> hexc d <> ch ":".
Proof. intros Hd E. pose proof (hex_value d Hd) as V. rewrite E in V. change (HexDigitValue (ch ":")) with (-1) in V. lia. Qed.

Lemma hex_first w : word_ok w -> exists c l, hex w = c :: l /\ c <> ch ":".
Proof.
  intros Hw. unfold word_ok in Hw. unfold hex.
  destruct (w / 4096 =? 0), (w / 256 =? 0), (w / 16 =? 0); cbn [app];
    (do 2 eexists; split; [reflexivity|apply hexc_not_colon; zlia]).
Qed.

Lemma zlen_flat ws : zlen (flat ws) = 2 * zlen ws.
Proof. unfold zlen. rewrite length_flat. lia. Qed.

Lemma parse_run P z Q init : Forall word_ok P -> Forall word_ok Q -> (2 <= z)%nat ->
  (List.length P + z + List.length Q = 8)%nat -> List.length init = 16%nat ->
  StringToIn6Addr (join P ++ str "::" ++ join Q) init scratch =
  Ok (Some {| s6_addr := flat P ++ replicate (2 * z) 0 ++ flat Q |}).
Proof.
  intros HP HQ Hz HL HI.
  assert (exists fb, StringToIn6Addr (join P ++ str "::" ++ join Q) init scratch =
    (st ← In6Addr_loop scratch (join Q) (st6 (zlen P) 0 0 fb (zlen P) (flat P ++ drop (2 * List.length P) init));
     match st with None => Ok None | Some st => In6Addr_finish st end)) as (fb & ->).
  { destruct P as [|w P'] eqn:EP; [exists (join Q); exact (StringToIn6Addr_colons (join Q) init)|].
    rewrite <- EP in *. exists (join Q).
    assert (word_ok w) as Hw by (rewrite EP in HP; by inversion HP).
    destruct (hex_first w Hw) as (c & l & Eh & Hc).
    rewrite (StringToIn6Addr_word _ init c (l ++ cw P' ++ str "::" ++ join Q)); [| | |done].
    2: { rewrite EP. cbn [join]. rewrite Eh. cbn [app]. by rewrite <- app_assoc. }
    2: { rewrite !length_app. cbn [str List.length]. lia. }
    pose proof (loop_words_colon P (ch ":") (join Q) 0 (join P ++ str "::" ++ join Q) (-1) [] init) as LW.
    cbn [str app] in LW |- *. rewrite LW; [|by rewrite EP|done|lia|unfold zlen; lia|done|lia].
    rewrite loop_double by (unfold zlen; lia). done. }
  destruct (loop_words_end Q (zlen P) fb (zlen P) (flat P) (drop (2 * List.length P) init)) as (st & -> & F);
    [done|apply zlen_nonneg|unfold zlen; lia|rewrite length_flat; unfold zlen; lia|rewrite length_drop; lia|].
  rewrite bind_Ok. rewrite <- app_assoc, drop_drop in F.
  rewrite (finish_double st (zlen P + zlen Q) (zlen P) (flat P) (flat Q) _ F);
    rewrite ?length_flat, ?length_drop; unfold zlen; try lia.
  by replace (Z.to_nat _) with (2 * z)%nat by lia.
Qed.

Lemma parse_full W init : Forall word_ok W -> List.length W = 8%nat -> List.length init = 16%nat ->
  StringToIn6Addr (join W) init scratch = Ok (Some {| s6_addr := flat W |}).
Proof.
  intros HW HL HI. destruct W as [|w W'] eqn:EW; [done|]. rewrite <- EW in *.
  assert (word_ok w) as Hw by (rewrite EW in HW; by inversion HW).
  destruct (hex_first w Hw) as (c & l & Eh & Hc).
  rewrite (StringToIn6Addr_word _ init c (l ++ cw W')); [| |rewrite EW; cbn [join]|done].
  2: { rewrite EW. cbn [join]. by rewrite Eh. }
  2: { destruct W' as [|w' W'']; [rewrite EW in HL; done|]. rewrite cw_join by done. rewrite length_app. cbn [List.length].
       pose proof (length_hex w). lia. }
  destruct (loop_words_end W 0 (join W) (-1) [] init) as (st & E & F); [done|lia|unfold zlen; lia|done|lia|].
  cbn [app] in E, F. rewrite E, bind_Ok. apply finish_plain.
  replace (0 + zlen W) with 8 in F by (unfold zlen; lia). rewrite drop_ge, app_nil_r in F by lia. exact F.
Qed.

Lemma parse_compat o init : bytes_ok o -> List.length o = 4%nat -> List.length init = 16%nat ->
  StringToIn6Addr (str "::" ++ text4 o) init scratch = Ok (Some {| s6_addr := replicate 12 0 ++ o |}).
Proof.
  intros Ho Hl HI. rewrite StringToIn6Addr_colons.
  destruct (loop_quad o 0 0 [] init Ho Hl) as (v & E); [lia|done|lia|]. cbn [app] in E. rewrite E, bind_Ok.
  rewrite (finish_double _ 2 0 [] o (drop 4 init)); [done|apply quad_fields_end; done|lia|lia|done|done|].
  rewrite length_drop, HI. done.
Qed.

Lemma parse_mapped o init : bytes_ok o -> List.length o = 4%nat -> List.length init = 16%nat ->
  StringToIn6Addr (str "::ffff:" ++ text4 o) init scratch =
  Ok (Some {| s6_addr := replicate 10 0 ++ [255; 255] ++ o |}).
Proof.
  intros Ho Hl HI. change (str "::ffff:" ++ text4 o) with (str "::" ++ join [65535] ++ ch ":" :: text4 o).
  rewrite StringToIn6Addr_colons.
  assert (exists c l, text4 o = c :: l) as (c & l & Et).
  { unfold text4, dec. destruct (nth 0 o 0 <? 10), (nth 0 o 0 <? 100); cbn [app]; by do 2 eexists. }
  rewrite Et at 1 2.
  pose proof (loop_words_colon [65535] c l 0 (join [65535] ++ ch ":" :: c :: l) 0 [] init) as LW.
  cbn [app] in LW. rewrite LW; [|done|by repeat constructor|lia|unfold zlen; cbn; lia|done|cbn [List.length]; lia].
  rewrite <- Et. destruct (loop_quad o 1 0 [255; 255] (drop 2 init) Ho Hl) as (v & E);
    [lia|done|rewrite length_drop; lia|].
  change (flat [65535]) with [255; 255]. change (0 + zlen [65535]) with 1. change (2 * List.length [65535%Z])%nat with 2%nat.
  rewrite E, bind_Ok. rewrite drop_drop.
  rewrite (finish_double _ 3 0 [] ([255; 255] ++ o) (drop (2 + 4) init)); [done| |lia|lia|done| |].
  - rewrite <- app_assoc. apply quad_fields_end; done.
  - rewrite length_app, Hl. done.
  - rewrite length_drop, HI. done.
Qed.

Lemma parse_text6 b t init : text6 b t -> List.length init = 16%nat ->
  StringToIn6Addr t init scratch = Ok (Some {| s6_addr := b |}).
Proof.
  intros Ht HI. destruct Ht; [by apply parse_full|by apply parse_run|by apply parse_compat|by apply parse_mapped].
Qed.
End roundtrip6.

(** ** Addresses *)

Lemma dec_no_colon n : 0 <= n < 256 -> ~ (ch ":" ∈ dec n).
Proof.
  intros Hn. unfold dec, digit. change (ch ":") with 58.
  destruct (n <? 10) eqn:E1, (n <? 100) eqn:E2; bool_to_prop; rewrite ?elem_of_cons, ?elem_of_nil; zlia.
Qed.

Lemma text4_no_colon o : bytes_ok o -> List.length o = 4%nat -> ~ (ch ":" ∈ text4 o).
Proof.
  intros Ho Hl. destruct o as [|a [|b [|c [|d [|]]]]]; try done.
  repeat (apply bytes_ok_cons in Ho as [? Ho]). unfold text4. cbn [nth].
  rewrite !elem_of_app, !elem_of_cons, !elem_of_app, !elem_of_cons, !elem_of_app, !elem_of_cons.
  intros E. destruct E as [E|[E|[E|[E|[E|[E|E]]]]]]; first [by apply dec_no_colon in E | discriminate].
Qed.

Lemma text6_colon b t : text6 b t -> ch ":" ∈ t.
Proof.
  destruct 1 as [W HW HL|P z Q _ _ _ _|o _ _|o _ _].
  - destruct W as [|w [|w' W]]; try done. cbn [join]. apply elem_of_app. right. by left.
  - apply elem_of_app. right. by left.
  - by left.
  - by left.
Qed.

Section addresses.
Context `{BuildMode}.

Lemma InAddr_rejects_text6 b t b4 : text6 b t -> List.length b4 = 4%nat -> StringToInAddr t b4 = Ok None.
Proof.
  intros Ht Hl. destruct (StringToInAddr_sound t b4 Hl) as ([a|] & E & Hr); [|done].
  destruct (Hr a eq_refl) as (o & Ho & Hlo & -> & _). exfalso.
  by apply (text4_no_colon o Ho Hlo), (text6_colon b).
Qed.

Lemma StringToIPAddress_text a t b4 b6 : text_of a t -> addr_ok a ->
  List.length b4 = 4%nat -> List.length b6 = 16%nat ->
  StringToIPAddress t b4 b6 = Ok (Some (repr (match a with Addr6 n _ => Addr6 n 0 | _ => a end))).
Proof.
  intros Ht Ha H4 H6. unfold StringToIPAddress. destruct a as [|n|n s]; cbn [text_of] in Ht; [done|..].
  - subst t. rewrite StringToInAddr_complete, bind_Ok by (done || apply be_store_ok || apply length_be_store). done.
  - rewrite (InAddr_rejects_text6 _ _ _ Ht H4), bind_Ok.
    rewrite (parse_text6 b4 H4 _ _ b6 Ht H6), bind_Ok. cbn [repr].
    change {| s6_addr := be_store 16 n |} with (in6 n). by rewrite IPAddress6_in6, bind_Ok.
Qed.
End addresses.

(** C23. Printing and parsing an address gives it back: for every initialized
    address, [ToString] succeeds within its buffer of 46 bytes whatever that
    contained, and [StringToIPAddress] of the text returns the same address
    (without its scope id, which the text does not carry). *)
Theorem ToString_StringToIPAddress_roundtrip `{BuildMode} a buf b4 b6 :
  addr_ok a -> a <> NoAddr -> List.length buf = INET6_ADDRSTRLEN ->
  List.length b4 = 4%nat -> List.length b6 = 16%nat ->
  exists t, ToString (repr a) buf = Ok t /\ zlen t < Z.of_nat INET6_ADDRSTRLEN /\
    StringToIPAddress t b4 b6 = Ok (Some (repr (match a with Addr6 n _ => Addr6 n 0 | _ => a end))).
Proof.
  intros Ha Hne Hb H4 H6. destruct (ToString_repr a buf Ha Hne Hb) as (t & E & Ht & Hl).
  exists t. split; [done|]. split; [unfold zlen; lia|]. by apply StringToIPAddress_text.
Qed.

Lemma ToString_StringToIPAddress_roundtrip_witness :
  exists t, ToString (H := debug_build) (repr (Addr6 (0xfe80 * 2 ^ 112 + 1) 0)) (replicate 46 7) = Ok t /\
    StringToIPAddress (H := debug_build) t (replicate 4 1) (replicate 16 2) =
      Ok (Some (repr (Addr6 (0xfe80 * 2 ^ 112 + 1) 0))).
Proof.
  destruct (@ToString_StringToIPAddress_roundtrip debug_build (Addr6 (0xfe80 * 2 ^ 112 + 1) 0)
    (replicate 46 7) (replicate 4 1) (replicate 16 2)) as (t & E & _ & P);
    [split; [split; by vm_compute|split; [split; by vm_compute|done]] | done | reflexivity | reflexivity | reflexivity |].
  exists t. split; [exact E|exact P].
Defined.

(** C24. [StringToIPAddress] is safe on every string: in any build mode it returns
    without an access outside its arrays or a failed check, and an address it
    returns is well formed, initialized and without scope id. *)
Theorem StringToIPAddress_safe `{BuildMode} s b4 b6 :
  List.length b4 = 4%nat -> List.length b6 = 16%nat -> bytes_ok b6 ->
  exists r, StringToIPAddress s b4 b6 = Ok r /\
    forall ip, r = Some ip -> ip_ok ip /\ IsInitializedAddress ip = true /\ has_scope ip = false.
Proof.
  intros H4 H6 Hb. unfold StringToIPAddress.
  destruct (StringToInAddr_sound s b4 H4) as ([a|] & -> & Hr); rewrite bind_Ok.
  - eexists. split; [done|]. intros ip E. injection E as <-.
    destruct (Hr a eq_refl) as (o & Ho & Hl & _ & ->). split; [|done].
    pose proof (le_load_bound o Ho) as B. unfold zlen in B. rewrite Hl in B. exact B.
  - destruct (StringToIn6Addr_safe s b6 b4 H6 Hb H4) as ([a|] & -> & Ha); rewrite bind_Ok; [|by exists None].
    destruct Ha as [Hl Hab]. destruct (in6_of_bytes a Hab Hl) as [Ea Hn]. rewrite Ea, IPAddress6_in6, bind_Ok.
    eexists. split; [done|]. intros ip E. injection E as <-.
    split; [|done]. apply (repr_ok (Addr6 _ 0)). by apply addr6_ok_0.
Qed.

Lemma StringToIPAddress_safe_witness :
  exists r, StringToIPAddress (H := debug_build) (str "1:2::3:4.5.6.7") (replicate 4 1) (replicate 16 2) = Ok r.
Proof.
  destruct (@StringToIPAddress_safe debug_build (str "1:2::3:4.5.6.7") (replicate 4 1) (replicate 16 2))
    as (r & E & _); [reflexivity | reflexivity | by apply (bool_decide_unpack _) | by exists r].
Defined.
