(* ===== verification/Jenkins.v ===== *)
(** * Jenkins hashes and the streaming hashers

    util/hash/jenkins.{h,cc}, jenkins_lookup2.h, hasher.{h,cc} and [HashTo32] of
    hash.h.  [mix] is a bijection on triples of words; a streaming hasher
    returns the hash of the concatenation of the strings added to it. *)
From Stdlib Require Import ZArith Lia.
From stdpp Require Import base list numbers option.
From S2P Require Import Prelude.
Local Open Scope Z_scope.

(** ** Mixing *)

(** jenkins_lookup2.h: nine lines of [mix_c] on [w]-bit words; the groups of
    nine lines of the two versions differ in their shifts. *)
Definition mix_lines (w p q r : Z) (t : Z * Z * Z) : Z * Z * Z :=
  let '(a, b, c) := t in
  let a := (a - b) mod 2 ^ w in
  let a := (a - c) mod 2 ^ w in
  let a := Z.lxor a (Z.shiftr c p) in
  let b := (b - c) mod 2 ^ w in
  let b := (b - a) mod 2 ^ w in
  let b := Z.lxor b (Z.shiftl a q mod 2 ^ w) in
  let c := (c - a) mod 2 ^ w in
  let c := (c - b) mod 2 ^ w in
  let c := Z.lxor c (Z.shiftr b r) in
  (a, b, c).

(** The [uint32_t] and the [uint64_t] version. *)
Definition mix32 (a b c : Z) : Z * Z * Z :=
  mix_lines 32 3 10 15 (mix_lines 32 12 16 5 (mix_lines 32 13 8 13 (a, b, c))).
Definition mix64 (a b c : Z) : Z * Z * Z :=
  mix_lines 64 12 18 22 (mix_lines 64 35 49 11 (mix_lines 64 38 23 5 (mix_lines 64 43 9 8 (a, b, c)))).

(** ** Hashing a string *)

Definition kPrimes32 : list Z :=
  [65537; 65539; 65543; 65551; 65557; 65563; 65579; 65581;
   65587; 65599; 65609; 65617; 65629; 65633; 65647; 65651].
Definition kPrimes64 : list Z :=
  [4294967311; 4294967357; 4294967371; 4294967377; 4294967387; 4294967389; 4294967459; 4294967477;
   4294967497; 4294967513; 4294967539; 4294967543; 4294967549; 4294967561; 4294967563; 4294967569].

(** The two word sizes: the bytes of a chunk, the primes, the mixer, the initial
    [a] and [b]. *)
Class HashWord := {
  hw_bits : Z;
  hw_chunk : nat;
  hw_primes : list Z;
  hw_mix : Z -> Z -> Z -> Z * Z * Z;
  hw_init : Z;
}.
Definition Word32 : HashWord :=
  {| hw_bits := 32; hw_chunk := 2; hw_primes := kPrimes32; hw_mix := mix32; hw_init := 0x12f905ff |}.
Definition Word64 : HashWord :=
  {| hw_bits := 64; hw_chunk := 4; hw_primes := kPrimes64; hw_mix := mix64; hw_init := 0x2c2ca38cd0cc731b |}.

Section hash.
Context `{HashWord}.

(** [buf_] of the hashers and the blocks of the string hashes: three words. *)
Definition block_size : nat := 3 * Z.to_nat (hw_bits / 8).

(** The loop of [Hash{32,64}StringWithSeedReferenceImplementation]: a chunk of
    the bytes left, padded with zeros; [fuel] bounds the iterations. *)
Fixpoint Reference_loop (fuel : nat) (s : list Z) (n prime1 prime2 : Z) : Z :=
  match fuel, s with
  | S fuel', _ :: _ =>
      let chunk_n := le_load (take hw_chunk s) in
      let n := Z.lxor (n * nth (Z.to_nat prime1) hw_primes 0 mod 2 ^ hw_bits)
                      (chunk_n * nth (Z.to_nat prime2) hw_primes 0 mod 2 ^ hw_bits) in
      Reference_loop fuel' (drop hw_chunk s) n (Z.land (prime1 + 1) 0xf) (Z.land (prime2 + 1) 0xf)
  | _, _ => n
  end.
Definition StringWithSeedReference (s : list Z) (seed : Z) : Z :=
  Reference_loop (List.length s) s seed 0 8.

(** The loop of [Hash{32,64}StringWithSeed] and its tail. *)
Fixpoint StringWithSeed_loop (fuel : nat) (s : list Z) (b c : Z) : Z :=
  match fuel with
  | O => c
  | S fuel' =>
      if Z.of_nat block_size <? zlen s then
        let a := StringWithSeedReference (take block_size s) c in
        let '(_, b, c) := hw_mix a b c in
        StringWithSeed_loop fuel' (drop block_size s) b c
      else if 0 <? zlen s then
        let a := StringWithSeedReference s c in
        let '(_, _, c) := hw_mix a b c in c
      else c
  end.
Definition StringWithSeed (s : list Z) (seed : Z) : Z :=
  StringWithSeed_loop (S (List.length s)) s hw_init seed.

(** ** The streaming hashers *)

(** [Hasher32] and [Hasher64]. *)
Record Hasher := {
  a_ : Z; b_ : Z; c_ : Z;
  buf_ : list Z;
  used_ : Z;
  len_ : Z;
  done_ : bool;
}.

(** The constructor leaves [buf_] uninitialized. *)
Definition Reset (h : Hasher) (seed : Z) : Hasher :=
  {| a_ := hw_init; b_ := hw_init; c_ := seed; buf_ := buf_ h; used_ := 0; len_ := 0; done_ := false |}.

Definition Result (h : Hasher) : outcome (Z * Hasher) :=
  h ← (if used_ h >? 0 then
         l ← load_bytes (buf_ h) 0 (Z.to_nat (used_ h));
         let '(a, b, c) := hw_mix (StringWithSeedReference l (c_ h)) (b_ h) (c_ h) in
         Ok {| a_ := a; b_ := b; c_ := c; buf_ := buf_ h; used_ := 0; len_ := len_ h; done_ := done_ h |}
       else Ok h);
  Ok (c_ h, {| a_ := a_ h; b_ := b_ h; c_ := c_ h; buf_ := buf_ h; used_ := used_ h; len_ := len_ h;
               done_ := true |}).

(** The loop of [AddString] over the [len] bytes left at [offset], an [int]. *)
Fixpoint AddString_loop (fuel : nat) (s : list Z) (offset len : Z) (h : Hasher) : outcome Hasher :=
  match fuel with
  | O => Ok h
  | S fuel' =>
      if len >? 0 then
        let bytes_copied := Z.min (Z.of_nat block_size - used_ h) len in
        l ← load_bytes s offset (Z.to_nat bytes_copied);
        buf ← store_bytes (buf_ h) (used_ h) l;
        offset ← (if offset + bytes_copied <? 2 ^ 31 then Ok (offset + bytes_copied) else UB);
        let len := len - bytes_copied in
        let used := used_ h + bytes_copied in
        if used =? Z.of_nat block_size then
          l ← load_bytes buf 0 block_size;
          let '(a, b, c) := hw_mix (StringWithSeedReference l (c_ h)) (b_ h) (c_ h) in
          AddString_loop fuel' s offset len
            {| a_ := a; b_ := b; c_ := c; buf_ := buf; used_ := 0; len_ := len_ h; done_ := done_ h |}
        else
          AddString_loop fuel' s offset len
            {| a_ := a_ h; b_ := b_ h; c_ := c_ h; buf_ := buf; used_ := used; len_ := len_ h;
               done_ := done_ h |}
      else Ok h
  end.

(** The length of the string goes through a [uint32_t] in both hashers; [len_] is
    a word. *)
Definition AddString (h : Hasher) (s : list Z) : outcome Hasher :=
  let len := u32 (zlen s) in
  _ ← CHECK (negb (done_ h));
  AddString_loop (S (Z.to_nat len)) s 0 len
    {| a_ := a_ h; b_ := b_ h; c_ := c_ h; buf_ := buf_ h; used_ := used_ h;
       len_ := (len_ h + len) mod 2 ^ hw_bits; done_ := done_ h |}.

Fixpoint AddStrings (h : Hasher) (ss : list (list Z)) : outcome Hasher :=
  match ss with
  | [] => Ok h
  | s :: ss' => h ← AddString h s; AddStrings h ss'
  end.
End hash.

Definition Hash32StringWithSeed : list Z -> Z -> Z := StringWithSeed (H := Word32).
Definition Hash64StringWithSeed : list Z -> Z -> Z := StringWithSeed (H := Word64).

Definition MIX32 : Z := 0x12b9b0a1.
Definition kIllegalHash32 : Z := 0xffffffff.

(** hash.h. *)
Definition HashTo32 (buf : list Z) : Z :=
  let retval := Hash32StringWithSeed buf MIX32 in
  if retval =? kIllegalHash32 then u32 (retval - 1) else retval.

(** [Hasher32::ResultNonReserved]. *)
Definition ResultNonReserved (h : Hasher) : outcome (Z * Hasher) :=
  '(result, h) ← Result (H := Word32) h;
  Ok (if result =? kIllegalHash32 then kIllegalHash32 - 1 else result, h).

(** The known values of hash_unittest.cc. *)
Definition known_string (i : nat) : list Z :=
  map (fun j => if Nat.odd j then u8 (- Z.of_nat j) else Z.of_nat j) (seq 0 i).
Example known_hashes :
  map (fun i => Hash32StringWithSeed (known_string i) 314159) (seq 0 25) =
  [0x0004cb2f; 0xf48b6a63; 0x127cf8f4; 0x19d6e07c; 0x593c013b; 0xbd02a456; 0x41f49b7e; 0xdbb5422f;
   0x8c840dc7; 0xa61a6869; 0x86df370b; 0xd2fd8134; 0xa2fd3c12; 0x79c9af07; 0xb9194973; 0xe823270e;
   0x8619903d; 0x9c14eefd; 0xa4b0dccf; 0xae51bcf7; 0x3172f051; 0x526602ca; 0x30689dac; 0xbe851fc4;
   0x865a21d4].
Proof. vm_compute. reflexivity. Qed.

(** ** [mix] is reversible *)

Section reversible.
Context (w : Z).
Hypothesis Hw : 0 <= w.
Definition wrap (x : Z) : Z := x mod 2 ^ w.
Definition in_word (x : Z) : Prop := 0 <= x < 2 ^ w.

(** One line of [mix]: [x -= y; x -= z; x ^= v], and its inverse. *)
Definition mstep (x y z v : Z) : Z := Z.lxor (wrap (wrap (x - y) - z)) v.
Definition ustep (x y z v : Z) : Z := wrap (wrap (Z.lxor x v + z) + y).

Lemma wrap_range x : in_word (wrap x).
Proof. apply Z.mod_pos_bound. by apply pow2_pos. Qed.

Lemma lxor_range x y : in_word x -> in_word y -> in_word (Z.lxor x y).
Proof.
  intros Hx Hy. unfold in_word in *. rewrite <- (Z.mod_small x (2 ^ w)), <- (Z.mod_small y (2 ^ w)) by lia.
  assert (Z.lxor (x mod 2 ^ w) (y mod 2 ^ w) = Z.lxor x y mod 2 ^ w) as ->.
  { apply Z.bits_inj'. intros i Hi. rewrite Z.lxor_spec. destruct (Z.ltb_spec i w).
    - by rewrite !Z.mod_pow2_bits_low, Z.lxor_spec by lia.
    - by rewrite !Z.mod_pow2_bits_high by lia. }
  apply Z.mod_pos_bound. by apply pow2_pos.
Qed.

Lemma shiftr_range x k : in_word x -> 0 <= k -> in_word (Z.shiftr x k).
Proof.
  intros Hx Hk. unfold in_word in *. rewrite Z.shiftr_div_pow2 by done. pose proof (pow2_pos k Hk).
  split; [apply Z.div_pos; lia|]. apply Z.le_lt_trans with x; [|lia]. apply Z.div_le_upper_bound; nia.
Qed.

Lemma mstep_range x y z v : in_word v -> in_word (mstep x y z v).
Proof. intros. apply lxor_range; [apply wrap_range|done]. Qed.

Lemma ustep_mstep x y z v : in_word x -> ustep (mstep x y z v) y z v = x.
Proof.
  intros Hx. unfold ustep, mstep. rewrite Z.lxor_assoc, Z.lxor_nilpotent, Z.lxor_0_r. unfold wrap.
  rewrite Zplus_mod_idemp_l, <- Z.add_assoc, Zplus_mod_idemp_l.
  replace ((x - y) mod 2 ^ w - z + (z + y)) with ((x - y) mod 2 ^ w + y) by lia.
  rewrite Zplus_mod_idemp_l, Z.sub_add. by apply Z.mod_small.
Qed.

(** The inverse of nine lines. *)
Definition unround (p q r : Z) (t : Z * Z * Z) : Z * Z * Z :=
  let '(a, b, c) := t in
  let c := ustep c a b (Z.shiftr b r) in
  let b := ustep b c a (wrap (Z.shiftl a q)) in
  let a := ustep a b c (Z.shiftr c p) in (a, b, c).

Definition in_words (t : Z * Z * Z) : Prop :=
  let '(a, b, c) := t in in_word a /\ in_word b /\ in_word c.

Lemma round_ok p q r t : 0 <= p -> 0 <= r -> in_words t ->
  in_words (mix_lines w p q r t) /\ unround p q r (mix_lines w p q r t) = t.
Proof.
  intros Hp Hr. destruct t as [[a b] c]. intros (Ha & Hb & Hc). unfold mix_lines, unround, in_words.
  fold (wrap (a - b)). fold (wrap (wrap (a - b) - c)). fold (mstep a b c (Z.shiftr c p)).
  set (a1 := mstep a b c (Z.shiftr c p)). fold (wrap (b - c)). fold (wrap (wrap (b - c) - a1)).
  fold (wrap (Z.shiftl a1 q)). fold (mstep b c a1 (wrap (Z.shiftl a1 q))).
  set (b1 := mstep b c a1 (wrap (Z.shiftl a1 q))). fold (wrap (c - a1)). fold (wrap (wrap (c - a1) - b1)).
  fold (mstep c a1 b1 (Z.shiftr b1 r)).
  assert (in_word a1) by (apply mstep_range, shiftr_range; done).
  assert (in_word b1) by (apply mstep_range, wrap_range).
  split; [split; [done|]; split; [done|]; by apply mstep_range, shiftr_range|].
  rewrite ustep_mstep by done. unfold b1. rewrite ustep_mstep by done. unfold a1.
  by rewrite ustep_mstep.
Qed.

(** Whatever is mixed, [c] comes out as a word. *)
Lemma mix_lines_c p q r t : 0 <= r -> in_word (snd (mix_lines w p q r t)).
Proof.
  intros Hr. destruct t as [[a b] c]. unfold mix_lines. cbn [snd].
  apply lxor_range, shiftr_range; [apply wrap_range| |done]. apply lxor_range; apply wrap_range.
Qed.
End reversible.

(** The inverses. *)
Definition unmix32 (t : Z * Z * Z) : Z * Z * Z :=
  unround 32 13 8 13 (unround 32 12 16 5 (unround 32 3 10 15 t)).
Definition unmix64 (t : Z * Z * Z) : Z * Z * Z :=
  unround 64 43 9 8 (unround 64 38 23 5 (unround 64 35 49 11 (unround 64 12 18 22 t))).

(** [mix] loses nothing: on 32-bit words and on 64-bit words it returns
    words, and [unmix32] and [unmix64] recover its arguments, so two different
    triples are never mixed to the same one. *)
Theorem mix_reversible a b c :
  (in_words 32 (a, b, c) -> in_words 32 (mix32 a b c) /\ unmix32 (mix32 a b c) = (a, b, c)) /\
  (in_words 64 (a, b, c) -> in_words 64 (mix64 a b c) /\ unmix64 (mix64 a b c) = (a, b, c)).
Proof.
  split; intros Hin; [unfold mix32|unfold mix64].
  - destruct (round_ok 32 ltac:(lia) 13 8 13 (a, b, c)) as [W1 E1]; [lia|lia|done|].
    destruct (round_ok 32 ltac:(lia) 12 16 5 _ ltac:(lia) ltac:(lia) W1) as [W2 E2].
    destruct (round_ok 32 ltac:(lia) 3 10 15 _ ltac:(lia) ltac:(lia) W2) as [W3 E3].
    split; [done|]. unfold unmix32. by rewrite E3, E2, E1.
  - destruct (round_ok 64 ltac:(lia) 43 9 8 (a, b, c)) as [W1 E1]; [lia|lia|done|].
    destruct (round_ok 64 ltac:(lia) 38 23 5 _ ltac:(lia) ltac:(lia) W1) as [W2 E2].
    destruct (round_ok 64 ltac:(lia) 35 49 11 _ ltac:(lia) ltac:(lia) W2) as [W3 E3].
    destruct (round_ok 64 ltac:(lia) 12 18 22 _ ltac:(lia) ltac:(lia) W3) as [W4 E4].
    split; [done|]. unfold unmix64. by rewrite E4, E3, E2, E1.
Qed.

Lemma mix_reversible_witness : unmix32 (mix32 1 2 3) = (1, 2, 3).
Proof. destruct (mix_reversible 1 2 3) as [F _]. apply F. repeat split; by vm_compute. Defined.

(** ** The hashers hash the concatenation *)

Section stream.
Context `{HashWord}.
Hypothesis Hbs : (0 < block_size)%nat.

(** Absorbing one block. *)
Definition absorb (bc : Z * Z) (blk : list Z) : Z * Z :=
  let '(_, b, c) := hw_mix (StringWithSeedReference blk (snd bc)) (fst bc) (snd bc) in (b, c).
Definition absorb_all (bc : Z * Z) (blks : list (list Z)) : Z * Z := fold_left absorb blks bc.
(** A last, partial block. *)
Definition last_block (t : list Z) : list (list Z) := match t with [] => [] | _ => [t] end.

Lemma absorb_all_app bc B C : absorb_all bc (B ++ C) = absorb_all (absorb_all bc B) C.
Proof. apply fold_left_app. Qed.

(** The string hash is the absorption of the blocks of the string. *)
Lemma StringWithSeed_loop_blocks fuel B t b c : Forall (fun k => List.length k = block_size) B ->
  (List.length t < block_size)%nat -> (List.length (concat B ++ t) < fuel)%nat ->
  StringWithSeed_loop fuel (concat B ++ t) b c = snd (absorb_all (b, c) (B ++ last_block t)).
Proof.
  intros HB. revert fuel b c. induction HB as [|k B Hk HB IH]; intros fuel b c Ht Hf;
    (destruct fuel as [|fuel]; [cbn in Hf; lia|]); cbn [StringWithSeed_loop concat app].
  - rewrite (proj2 (Z.ltb_ge _ (zlen t))) by (unfold zlen; lia). destruct t as [|x t]; [done|].
    rewrite (proj2 (Z.ltb_lt 0 _)) by (unfold zlen; cbn [List.length]; lia).
    unfold absorb_all, absorb. cbn [last_block fold_left fst snd].
    destruct (hw_mix (StringWithSeedReference (x :: t) c) b c) as [[a' b'] c']. done.
  - assert (absorb_all (b, c) (k :: B ++ last_block t) = absorb_all (absorb (b, c) k) (B ++ last_block t)) as -> by done.
    rewrite <- app_assoc. cbn [concat] in Hf. rewrite <- app_assoc, length_app in Hf.
    destruct (concat B ++ t) as [|y l] eqn:E.
    + rewrite app_nil_r. rewrite (proj2 (Z.ltb_ge _ (zlen k))), (proj2 (Z.ltb_lt 0 _)) by (unfold zlen; lia).
      assert (B = [] /\ t = []) as [-> ->].
      { apply app_eq_nil in E as [E ->]. split; [|done]. destruct B as [|k' B]; [done|].
        apply Forall_cons_1 in HB as [Hk' _]. cbn [concat] in E. apply app_eq_nil in E as [-> _]. cbn [List.length] in Hk'. lia. }
      unfold absorb. cbn [fst snd]. destruct (hw_mix (StringWithSeedReference k c) b c) as [[a' b'] c']. done.
    + rewrite (proj2 (Z.ltb_lt _ (zlen (k ++ y :: l)))) by (unfold zlen; rewrite length_app; cbn [List.length]; lia).
      rewrite take_app_length', drop_app_length' by done. unfold absorb. cbn [fst snd].
      destruct (hw_mix (StringWithSeedReference k c) b c) as [[a' b'] c']. apply IH; [done|]. lia.
Qed.

Lemma StringWithSeed_blocks B t seed : Forall (fun k => List.length k = block_size) B ->
  (List.length t < block_size)%nat ->
  StringWithSeed (concat B ++ t) seed = snd (absorb_all (hw_init, seed) (B ++ last_block t)).
Proof. intros. unfold StringWithSeed. apply StringWithSeed_loop_blocks; [done|done|lia]. Qed.

(** What a hasher holds after the bytes [d]. *)
Definition holds (h : Hasher) (seed : Z) (d : list Z) : Prop :=
  exists B t, Forall (fun k => List.length k = block_size) B /\ (List.length t < block_size)%nat /\
    d = concat B ++ t /\ (b_ h, c_ h) = absorb_all (hw_init, seed) B /\
    used_ h = zlen t /\ take (List.length t) (buf_ h) = t /\ List.length (buf_ h) = block_size /\
    done_ h = false.

Lemma Reset_holds h seed : List.length (buf_ h) = block_size -> holds (Reset h seed) seed [].
Proof. intros E. exists [], []. split_and!; try done. Qed.

(** Copying into the free part of the buffer. *)
Lemma copy_in (buf t l : list Z) : take (List.length t) buf = t ->
  (List.length t + List.length l <= List.length buf)%nat ->
  exists buf', store_bytes buf (zlen t) l = Ok buf' /\ List.length buf' = List.length buf /\
    take (List.length (t ++ l)) buf' = t ++ l.
Proof.
  intros Et Hl. rewrite <- (take_drop (List.length t) buf), Et.
  rewrite <- (take_drop (List.length l) (drop (List.length t) buf)).
  rewrite store_bytes_app by (rewrite length_take, length_drop; lia). eexists. split; [done|]. split.
  - rewrite !length_app, length_take, !length_drop. lia.
  - rewrite app_assoc. apply take_app_length.
Qed.

Lemma AddString_loop_holds fuel s offset len h seed d : holds h seed d ->
  0 <= offset -> 0 <= len -> offset + len = zlen s -> zlen s < 2 ^ 31 -> len < Z.of_nat fuel ->
  exists h', AddString_loop fuel s offset len h = Ok h' /\ holds h' seed (d ++ drop (Z.to_nat offset) s).
Proof.
  revert offset len h d. induction fuel as [|fuel IH]; intros offset len h d Hh Ho Hl Hs H31 Hf; [lia|].
  cbn [AddString_loop]. rewrite Z.gtb_ltb. destruct (Z.ltb_spec 0 len) as [Hp|Hp].
  2: { exists h. split; [done|]. rewrite drop_ge by (unfold zlen in Hs; lia). by rewrite app_nil_r. }
  destruct Hh as (B & t & HB & Ht & -> & Ebc & Eu & Et & Elb & Ed). rewrite Eu.
  set (n := Z.min (Z.of_nat block_size - zlen t) len).
  assert (0 < n <= len) as Hn by (unfold n, zlen; lia).
  assert (n + zlen t <= Z.of_nat block_size) as Hnt by (unfold n; lia).
  destruct (load_bytes_ok s offset (Z.to_nat n)) as (l & -> & Ell & El); [lia|lia|]. rewrite bind_Ok.
  destruct (copy_in (buf_ h) t l Et) as (buf' & -> & Elb' & Et'); [unfold zlen in Hnt; lia|]. rewrite bind_Ok.
  rewrite (proj2 (Z.ltb_lt (offset + n) (2 ^ 31))), bind_Ok by lia.
  assert (drop (Z.to_nat offset) s = l ++ drop (Z.to_nat (offset + n)) s) as Esplit.
  { rewrite El. rewrite <- (take_drop (Z.to_nat n) (drop (Z.to_nat offset) s)) at 1. f_equal.
    rewrite drop_drop. f_equal. lia. }
  assert (zlen t + n = zlen (t ++ l)) as Etl by (unfold zlen; rewrite length_app; lia).
  destruct (Z.eqb_spec (zlen t + n) (Z.of_nat block_size)) as [Efull|Epart].
  - assert (List.length (t ++ l) = block_size) as Eblk by (unfold zlen in Etl, Efull; lia).
    rewrite Eblk in Et'.
    assert (load_bytes buf' 0 block_size = Ok (t ++ l)) as ->.
    { destruct (load_bytes_ok buf' 0 block_size) as (l' & -> & _ & ->); [lia|unfold zlen; lia|].
      by rewrite drop_0, Et'. }
    rewrite bind_Ok.
    destruct (hw_mix (StringWithSeedReference (t ++ l) (c_ h)) (b_ h) (c_ h)) as [[a' b'] c'] eqn:Em.
    rewrite Esplit, app_assoc. apply IH; [|lia|lia|lia|lia|lia].
    exists (B ++ [t ++ l]), []. cbn [List.length b_ c_ used_ buf_ done_]. split_and!; try done; try lia.
    + apply Forall_app. split; [done|]. by apply Forall_singleton.
    + rewrite concat_app. cbn. by rewrite !app_nil_r, app_assoc.
    + rewrite absorb_all_app, <- Ebc. unfold absorb_all, absorb. cbn [fold_left fst snd]. by rewrite Em.
  - rewrite Esplit, app_assoc. apply IH; [|lia|lia|lia|lia|lia].
    exists B, (t ++ l). cbn [b_ c_ used_ buf_ done_]. split_and!; try done; try lia.
    + unfold zlen in Etl, Epart, Hnt. lia.
    + by rewrite app_assoc.
Qed.

(** A longer string overflows [offset]. *)
Lemma AddString_loop_overflow fuel s offset len h : List.length (buf_ h) = block_size ->
  0 <= used_ h < Z.of_nat block_size -> 0 <= offset -> 0 < len -> offset + len <= zlen s ->
  2 ^ 31 <= offset + len -> len < Z.of_nat fuel -> AddString_loop fuel s offset len h = UB.
Proof.
  revert offset len h. induction fuel as [|fuel IH]; intros offset len h Hb Hu Ho Hl Hs H31 Hf; [lia|].
  cbn [AddString_loop]. rewrite Z.gtb_ltb, (proj2 (Z.ltb_lt 0 len)) by lia.
  set (n := Z.min (Z.of_nat block_size - used_ h) len). assert (0 < n <= len) as Hn by lia.
  assert (used_ h + n <= Z.of_nat block_size) as Hnu by lia.
  destruct (load_bytes_ok s offset (Z.to_nat n)) as (l & -> & Ell & _); [lia|lia|]. rewrite bind_Ok.
  pose proof (length_take (buf_ h) (Z.to_nat (used_ h))) as Etl.
  destruct (copy_in (buf_ h) (take (Z.to_nat (used_ h)) (buf_ h)) l) as (buf' & E & Elb & _); [f_equal; lia|lia|].
  replace (zlen (take (Z.to_nat (used_ h)) (buf_ h))) with (used_ h) in E by (unfold zlen; lia). rewrite E, bind_Ok.
  destruct (Z.ltb_spec (offset + n) (2 ^ 31)) as [Hlt|]; [|done]. rewrite bind_Ok.
  destruct (Z.eqb_spec (used_ h + n) (Z.of_nat block_size)).
  - destruct (load_bytes_ok buf' 0 block_size) as (l' & -> & _); [lia|unfold zlen; lia|]. rewrite bind_Ok.
    case_match. case_match. apply IH; cbn [buf_ used_]; lia.
  - apply IH; cbn [buf_ used_]; lia.
Qed.

Lemma AddString_holds h s seed d : holds h seed d -> zlen s < 2 ^ 31 ->
  exists h', AddString h s = Ok h' /\ holds h' seed (d ++ s).
Proof.
  intros Hh Hs. pose proof (zlen_nonneg s) as H0. unfold AddString, u32. rewrite Z.mod_small by lia.
  assert (done_ h = false) as -> by (destruct Hh as (B & t & _ & _ & _ & _ & _ & _ & _ & Ed); exact Ed).
  cbn [negb CHECK]. rewrite bind_Ok.
  destruct (AddString_loop_holds (S (Z.to_nat (zlen s))) s 0 (zlen s)
    {| a_ := a_ h; b_ := b_ h; c_ := c_ h; buf_ := buf_ h; used_ := used_ h;
       len_ := (len_ h + zlen s) mod 2 ^ hw_bits; done_ := false |} seed d) as (h' & E & Hh'); [|lia|lia|lia|lia|lia|].
  - destruct Hh as (B & t & HB & Ht & Ed & Ebc & Eu & Et & Elb & _). by exists B, t.
  - exists h'. by rewrite drop_0 in Hh'.
Qed.

Lemma AddStrings_holds ss h seed d : holds h seed d -> Forall (fun s => zlen s < 2 ^ 31) ss ->
  exists h', AddStrings h ss = Ok h' /\ holds h' seed (d ++ concat ss).
Proof.
  intros Hh Hss. revert h d Hh. induction Hss as [|s ss Hs Hss IH]; intros h d Hh; cbn [AddStrings concat].
  - exists h. by rewrite app_nil_r.
  - destruct (AddString_holds h s seed d Hh Hs) as (h1 & -> & H1). rewrite bind_Ok, app_assoc. by apply IH.
Qed.

Lemma Result_holds h seed d : holds h seed d ->
  exists h', Result h = Ok (StringWithSeed d seed, h') /\ done_ h' = true.
Proof.
  intros (B & t & HB & Ht & -> & Ebc & Eu & Et & Elb & Ed). rewrite StringWithSeed_blocks by done.
  rewrite absorb_all_app, <- Ebc. unfold Result. rewrite Eu, Z.gtb_ltb.
  destruct t as [|x t]; [by eexists|]. rewrite (proj2 (Z.ltb_lt 0 _)) by (unfold zlen; cbn [List.length]; lia).
  assert (load_bytes (buf_ h) 0 (Z.to_nat (zlen (x :: t))) = Ok (x :: t)) as ->.
  { unfold zlen. rewrite Nat2Z.id.
    destruct (load_bytes_ok (buf_ h) 0 (List.length (x :: t))) as (l' & -> & _ & ->); [lia|unfold zlen; lia|].
    by rewrite drop_0, Et. }
  rewrite bind_Ok. unfold absorb_all, absorb. cbn [last_block fold_left fst snd].
  destruct (hw_mix (StringWithSeedReference (x :: t) (c_ h)) (b_ h) (c_ h)) as [[a' b'] c']. by eexists.
Qed.
End stream.

(** C35. A streaming hasher computes the string hash: after [Reset], adding any
    strings (each shorter than 2^31 bytes) in any pieces and asking for the
    [Result] gives [Hash32StringWithSeed] (for [Hasher64],
    [Hash64StringWithSeed]) of their concatenation, whatever the buffer held
    before; no access is out of bounds and no check fails. *)
Theorem Hasher_hashes_concat (word : HashWord) h seed ss :
  word = Word32 \/ word = Word64 -> List.length (buf_ h) = @block_size word ->
  Forall (fun s => zlen s < 2 ^ 31) ss ->
  exists h1 h2, @AddStrings word (@Reset word h seed) ss = Ok h1 /\
    @Result word h1 = Ok (@StringWithSeed word (concat ss) seed, h2).
Proof.
  intros Hw Hb Hss. assert (0 < @block_size word)%nat as Hbs by (destruct Hw as [-> | ->]; vm_compute; lia).
  destruct (@AddStrings_holds word Hbs ss (@Reset word h seed) seed []) as (h1 & E1 & H1);
    [by apply Reset_holds|done|].
  destruct (@Result_holds word Hbs h1 seed _ H1) as (h2 & E2 & _). by exists h1, h2.
Qed.

Lemma Hasher_hashes_concat_witness :
  let h := {| a_ := 0; b_ := 0; c_ := 0; buf_ := replicate 12 9; used_ := 5; len_ := 5; done_ := true |} in
  exists h1 h2, @AddStrings Word32 (@Reset Word32 h 7) [replicate 20 1; [2]] = Ok h1 /\
    @Result Word32 h1 = Ok (Hash32StringWithSeed (replicate 20 1 ++ [2]) 7, h2).
Proof.
  intros h. destruct (Hasher_hashes_concat Word32 h 7 [replicate 20 1; [2]]) as (h1 & h2 & E1 & E2);
    [by left | reflexivity | repeat constructor; by vm_compute |].
  exists h1, h2. split; [exact E1|exact E2].
Defined.

(** [AddString] breaks on long strings.  It takes the length modulo 2^32, so
    a string of exactly 2^32 bytes changes nothing that [Result] depends on; and
    its [int offset] overflows, which is undefined, on every string of at least
    2^31 and fewer than 2^32 bytes. *)
Theorem AddString_long_strings (word : HashWord) h s :
  List.length (buf_ h) = @block_size word ->
  0 <= used_ h < Z.of_nat (@block_size word) -> done_ h = false -> 2 ^ 31 <= zlen s <= 2 ^ 32 ->
  if zlen s =? 2 ^ 32 then
    exists h', @AddString word h s = Ok h' /\
      (a_ h', b_ h', c_ h', buf_ h', used_ h', done_ h') = (a_ h, b_ h, c_ h, buf_ h, used_ h, done_ h)
  else @AddString word h s = UB.
Proof.
  intros Hb Hu Hd Hs. unfold AddString. rewrite Hd. cbn [negb CHECK]. rewrite bind_Ok.
  destruct (Z.eqb_spec (zlen s) (2 ^ 32)) as [->|].
  - eexists. split; [reflexivity|]. cbn [a_ b_ c_ buf_ used_ done_]. done.
  - unfold u32. rewrite Z.mod_small by lia. apply AddString_loop_overflow; cbn [buf_ used_]; (done || lia).
Qed.

Lemma AddString_long_strings_witness :
  exists s h', zlen s = 2 ^ 32 /\
    @AddString Word32 (@Reset Word32 {| a_ := 0; b_ := 0; c_ := 0; buf_ := replicate 12 9; used_ := 5;
                         len_ := 5; done_ := true |} 7) s = Ok h'.
Proof.
  assert (exists s : list Z, zlen s = 2 ^ 32) as [s E].
  { exists (replicate (Z.to_nat (2 ^ 32)) 1). unfold zlen. rewrite length_replicate. apply Z2Nat.id. lia. }
  set (h := @Reset Word32 _ 7).
  assert (0 <= used_ h < Z.of_nat (@block_size Word32)) as Hu by (split; by vm_compute).
  pose proof (AddString_long_strings Word32 h s eq_refl Hu eq_refl) as A.
  rewrite E in A. destruct (A ltac:(lia)) as (h' & Eh & _). exists s, h'. split; [exact E|exact Eh].
Defined.

Lemma Hash32_loop_range fuel s b c : 0 <= c < 2 ^ 32 -> 0 <= StringWithSeed_loop (H := Word32) fuel s b c < 2 ^ 32.
Proof.
  revert s b c. induction fuel as [|fuel IH]; intros s b c Hc; [done|]. cbn [StringWithSeed_loop hw_mix Word32].
  assert (forall a b c, 0 <= snd (mix32 a b c) < 2 ^ 32) as Hm by (intros; by apply mix_lines_c).
  repeat case_match; try done.
  - apply IH. match goal with E : mix32 ?a ?b ?c = _ |- _ => specialize (Hm a b c); by rewrite E in Hm end.
  - match goal with E : mix32 ?a ?b ?c = _ |- _ => specialize (Hm a b c); by rewrite E in Hm end.
Qed.

Lemma HashTo32_range s : 0 <= HashTo32 s < 2 ^ 32.
Proof.
  unfold HashTo32. case_match; [apply Z.mod_pos_bound; lia|]. by apply Hash32_loop_range.
Qed.

(** [HashTo32] and [Hasher32::ResultNonReserved] avoid the reserved value and
    agree: a hasher seeded with [MIX32] returns [HashTo32] of the bytes added. *)
Theorem ResultNonReserved_HashTo32 h ss :
  List.length (buf_ h) = 12%nat -> Forall (fun s => zlen s < 2 ^ 31) ss ->
  HashTo32 (concat ss) <> kIllegalHash32 /\
  exists h1 h2, @AddStrings Word32 (@Reset Word32 h MIX32) ss = Ok h1 /\
    ResultNonReserved h1 = Ok (HashTo32 (concat ss), h2).
Proof.
  intros Hb Hss.
  destruct (@AddStrings_holds Word32 ltac:(vm_compute; lia) ss (@Reset Word32 h MIX32) MIX32 [])
    as (h1 & E1 & H1); [apply Reset_holds; [vm_compute; lia|exact Hb]|done|].
  destruct (@Result_holds Word32 ltac:(vm_compute; lia) h1 MIX32 _ H1) as (h2 & E2 & _).
  unfold HashTo32, ResultNonReserved, Hash32StringWithSeed. rewrite app_nil_l in E2. split.
  - destruct (Z.eqb_spec (@StringWithSeed Word32 (concat ss) MIX32) kIllegalHash32) as [->|]; done.
  - exists h1, h2. split; [done|]. rewrite E2, bind_Ok.
    destruct (Z.eqb_spec (@StringWithSeed Word32 (concat ss) MIX32) kIllegalHash32) as [->|]; done.
Qed.

Lemma ResultNonReserved_HashTo32_witness : HashTo32 [1; 2; 3] <> kIllegalHash32.
Proof.
  apply (ResultNonReserved_HashTo32 {| a_ := 0; b_ := 0; c_ := 0; buf_ := replicate 12 9; used_ := 5;
           len_ := 5; done_ := true |} [[1]; [2; 3]]); [reflexivity | repeat constructor; by vm_compute].
Defined.
