(* ===== verification/IPEmbed.v ===== *)
(** * IPv4 addresses inside IPv6 addresses

    The embedded-address functions of ipaddress.cc: compatible, mapped, 6to4,
    ISATAP and Teredo addresses, [GetCoercedIPv4Address], normalization and
    dual-stack conversion, and the loopback tests.  An output written only when a
    function returns true is the [Some] of its result. *)
From Stdlib Require Import ZArith Lia Ascii String.
From stdpp Require Import base list numbers option.
From S2P Require Import Prelude.
From S2P Require Import Endian.
From S2P Require Import Bits.
From S2P Require Import IPAddr.
From S2P Require Import IPOrder.
From S2P Require Import IPRange.
From S2P Require Import IPRangeProps.
From S2P Require Import IPMask.
From S2P Require Import IPSubtract.
From S2P Require Import IPText.
From S2P Require Import Jenkins.
Local Open Scope Z_scope.

(** ** Definitions *)

Section embed.
Context `{BuildMode}.

(** The common head: an IPv6 address, or [return false]. *)
Definition with_ipv6 {A} (ip6 : IPAddress) (k : in6_addr -> outcome (option A)) : outcome (option A) :=
  if negb (address_family ip6 =? AF_INET6)
  then _ ← DCHECK (negb (AF_UNSPEC =? address_family ip6)); Ok None
  else addr6 ← ipv6_address ip6; k addr6.

(** [ipv4.s_addr = UNALIGNED_LOAD32(addr6.s6_addr16 + i); IPAddress(ipv4)]. *)
Definition ipv4_at (addr6 : in6_addr) (i : Z) : outcome IPAddress :=
  x ← UNALIGNED_LOAD 4 (s6_addr addr6) (2 * i); Ok (IPAddress4 {| s_addr := x |}).

Definition GetCompatIPv4Address (ip6 : IPAddress) : outcome (option IPAddress) :=
  with_ipv6 ip6 (fun addr6 =>
    x ← UNALIGNED_LOAD 8 (s6_addr addr6) 0;
    if negb (x =? 0) then Ok None
    else
      y ← UNALIGNED_LOAD 4 (s6_addr addr6) 8;
      if negb (y =? 0) then Ok None
      else
        last ← BigEndian.Load32 (s6_addr addr6) 12;
        if (last =? 0) || (last =? 1) then Ok None
        else ip4 ← ipv4_at addr6 6; Ok (Some ip4)).

Definition GetMappedIPv4Address (ip6 : IPAddress) : outcome (option IPAddress) :=
  with_ipv6 ip6 (fun addr6 =>
    x ← UNALIGNED_LOAD 8 (s6_addr addr6) 0;
    if negb (x =? 0) || negb (s6_addr16 addr6 4 =? 0) || negb (s6_addr16 addr6 5 =? 0xffff) then Ok None
    else ip4 ← ipv4_at addr6 6; Ok (Some ip4)).

Definition Get6to4IPv4Address (ip6 : IPAddress) : outcome (option IPAddress) :=
  with_ipv6 ip6 (fun addr6 =>
    if negb (s6_addr16 addr6 0 =? ghtons 0x2002) then Ok None
    else ip4 ← ipv4_at addr6 1; Ok (Some ip4)).

Definition Get6to4IPv6Range (iprange4 : IPRange) : outcome (option IPRange) :=
  if negb (address_family (host_ iprange4) =? AF_INET)
  then _ ← DCHECK (negb (AF_UNSPEC =? address_family (host_ iprange4))); Ok None
  else
    addr4 ← ipv4_address (host_ iprange4);
    let addr6 := set_s6_addr16 {| s6_addr := replicate 16 0 |} 0 (ghtons 0x2002) in
    b ← store_bytes (s6_addr addr6) 2 (le_store 4 (s_addr addr4));
    ip ← IPAddress6 {| s6_addr := b |};
    r ← UnsafeConstruct ip (length_ iprange4 + 16); Ok (Some r).

(** [GetTeredoInfo] with all outputs: server, flags, port and client. *)
Definition GetTeredoInfo (ip6 : IPAddress) : outcome (option (IPAddress * Z * Z * IPAddress)) :=
  with_ipv6 ip6 (fun addr6 =>
    if negb (s6_addr16 addr6 0 =? ghtons 0x2001) || negb (s6_addr16 addr6 1 =? 0) then Ok None
    else
      c ← UNALIGNED_LOAD 4 (s6_addr addr6) 12;
      let client := IPAddress4 {| s_addr := u32 (- c - 1) |} in
      server ← ipv4_at addr6 2;
      let port := gntohs (u16 (- s6_addr16 addr6 5 - 1)) in
      let flags := gntohs (s6_addr16 addr6 4) in
      Ok (Some (server, flags, port, client))).

Definition GetIsatapIPv4Address (ip6 : IPAddress) : outcome (option IPAddress) :=
  with_ipv6 ip6 (fun _ =>
    t ← GetTeredoInfo ip6;
    match t with
    | Some _ => Ok None
    | None =>
        addr6 ← ipv6_address ip6;
        if negb (s6_addr16 addr6 5 =? ghtons 0x5efe) ||
           negb (Z.lor (s6_addr16 addr6 4) (ghtons 0x0300) =? ghtons 0x0300) then Ok None
        else ip4 ← ipv4_at addr6 6; Ok (Some ip4)
    end).

Definition GetEmbeddedIPv4ClientAddress (ip6 : IPAddress) : outcome (option IPAddress) :=
  r ← GetCompatIPv4Address ip6;
  match r with
  | Some ip4 => Ok (Some ip4)
  | None =>
      r ← GetMappedIPv4Address ip6;
      match r with
      | Some ip4 => Ok (Some ip4)
      | None =>
          r ← Get6to4IPv4Address ip6;
          match r with
          | Some ip4 => Ok (Some ip4)
          | None =>
              r ← GetTeredoInfo ip6;
              Ok (match r with Some (_, _, _, client) => Some client | None => None end)
          end
      end
  end.

Definition GetCoercedIPv4Address (ip6 : IPAddress) : outcome IPAddress :=
  if address_family ip6 =? AF_INET then Ok ip6
  else
    _ ← CHECK (AF_INET6 =? address_family ip6);
    any6 ← Any6;
    if IPAddress_eqb ip6 any6 then Ok Any4
    else
      loopback6 ← Loopback6;
      if IPAddress_eqb ip6 loopback6 then Ok Loopback4
      else
        r ← GetEmbeddedIPv4ClientAddress ip6;
        ip_hash ← (match r with
                   | Some ip4 => address ← ipv4_address ip4; Ok (HashTo32 (le_store 4 (s_addr address)))
                   | None => a ← ipv6_address ip6; Ok (HashTo32 (take 8 (s6_addr a)))
                   end);
        let coerced := Z.lor ip_hash (ghtonl 0xe0000000) in
        let coerced := if coerced =? 0xffffffff then Z.land coerced (ghtonl 0xfffffffe) else coerced in
        Ok (IPAddress4 {| s_addr := coerced |}).

Definition NormalizeIPAddress (ip : IPAddress) : outcome IPAddress :=
  if negb (address_family ip =? AF_INET6) then Ok ip
  else
    r ← GetMappedIPv4Address ip;
    Ok (match r with Some normalized_ip => normalized_ip | None => ip end).

Definition DualstackIPAddress (ip : IPAddress) : outcome IPAddress :=
  if address_family ip =? AF_INET6 then Ok ip
  else
    _ ← CHECK (AF_INET =? address_family ip);
    a ← ipv4_address ip;
    _ ← DCHECK ((be_load (take 12 (s6_addr (v4mapped a)))) =? 0xffff);
    IPAddress6 (v4mapped a).

(** The unnamed [IsLoopbackIPAddress(ip, mode)]; [entire] is
    [INCLUDE_ENTIRE_LOOPBACK_NETWORK]. *)
Definition IsLoopback4 (ip : IPAddress) (entire : bool) : outcome bool :=
  if entire then x ← IPAddressToHostUInt32 ip; Ok (Z.land x 0xff000000 =? 0x7f000000)
  else Ok (IPAddress_eqb ip Loopback4).

(** The first eight bytes of fd14:988a:50ee:1006::. *)
Definition ula_ipv6_loopback_range : list Z := be_store 8 0xfd14988a50ee1006.

Definition IsLoopback_mode (ip : IPAddress) (entire : bool) : outcome bool :=
  match ip with
  | kIpv4 _ => IsLoopback4 ip entire
  | kIpv6 _ _ =>
      loopback6 ← Loopback6;
      if IPAddress_eqb ip loopback6 then Ok true
      else
        ipv6_ip ← ipv6_address ip;
        x ← UNALIGNED_LOAD 8 (s6_addr ipv6_ip) 0;
        if entire && (x =? le_load ula_ipv6_loopback_range) then Ok true
        else
          r ← GetMappedIPv4Address ip;
          match r with Some addr4 => IsLoopback4 addr4 entire | None => Ok false end
  | kUninitialized => _ ← LOG_DFATAL; Ok false
  end.

Definition IsCanonicalLoopbackIPAddress (ip : IPAddress) : outcome bool := IsLoopback_mode ip false.
Definition IsLoopbackIPAddress (ip : IPAddress) : outcome bool := IsLoopback_mode ip true.
End embed.

(** The literal of the code is the range of its comment. *)
Example ula_literal :
  (r ← StringToIPAddress (H := debug_build) (str "fd14:988a:50ee:1006::") (replicate 4 0) (replicate 16 0);
   match r with
   | Some ip => a ← ipv6_address (H := debug_build) ip; Ok (take 8 (s6_addr a))
   | None => UB
   end) = Ok ula_ipv6_loopback_range.
Proof. vm_compute. reflexivity. Qed.

(** ** By number *)

Section numbers.
Context `{BuildMode}.

(** A load of [k] bytes at [j] from the bytes of an address. *)
Lemma load_in6 k j n : (j + k <= 16)%nat ->
  UNALIGNED_LOAD k (s6_addr (in6 n)) (Z.of_nat j) =
  Ok (byteswap k (n / 2 ^ (8 * Z.of_nat (16 - j - k)) mod 2 ^ (8 * Z.of_nat k))).
Proof.
  intros Hk. unfold in6. cbn [s6_addr]. rewrite UNALIGNED_LOAD_at; [|lia|rewrite zlen_be_store; lia].
  unfold bytes_at. rewrite Nat2Z.id, be_store_block by done. f_equal.
  rewrite <- be_store_mod. reflexivity.
Qed.

Lemma byteswap_eqb k x y : 0 <= x < 2 ^ (8 * Z.of_nat k) -> 0 <= y < 2 ^ (8 * Z.of_nat k) ->
  (byteswap k x =? byteswap k y) = (x =? y).
Proof.
  intros Hx Hy. destruct (Z.eqb_spec x y) as [->|Hn]; [apply Z.eqb_refl|]. apply Z.eqb_neq. intros E.
  apply Hn. by rewrite <- (byteswap_involutive k x), E, byteswap_involutive.
Qed.

Lemma byteswap_0 k : byteswap k 0 = 0.
Proof. change 0 with (Z.lxor 0 0) at 1. rewrite byteswap_lxor. apply Z.lxor_nilpotent. Qed.

Lemma byteswap_eqb0 k x : 0 <= x < 2 ^ (8 * Z.of_nat k) -> (byteswap k x =? 0) = (x =? 0).
Proof.
  intros Hx. pose proof (pow2_pos (8 * Z.of_nat k) ltac:(lia)).
  assert ((byteswap k x =? 0) = (byteswap k x =? byteswap k 0)) as -> by (by rewrite byteswap_0).
  apply byteswap_eqb; lia.
Qed.

Lemma mod_word k x : 0 <= x mod 2 ^ (8 * Z.of_nat k) < 2 ^ (8 * Z.of_nat k).
Proof. apply Z.mod_pos_bound. apply pow2_pos. lia. Qed.

(** [IPAddress(ipv4)] of four bytes of the address. *)
Lemma ipv4_at_in6 n (i : nat) : (i <= 6)%nat ->
  ipv4_at (in6 n) (Z.of_nat i) = Ok (repr4 (n / 2 ^ (16 * Z.of_nat (6 - i)) mod 2 ^ 32)).
Proof.
  intros Hi. unfold ipv4_at. replace (2 * Z.of_nat i) with (Z.of_nat (2 * i)) by lia.
  rewrite load_in6, bind_Ok by lia.
  by replace (8 * Z.of_nat (16 - 2 * i - 4)) with (16 * Z.of_nat (6 - i)) by lia.
Qed.

Lemma with_ipv6_repr6 {A} n s (k : in6_addr -> outcome (option A)) : addr6_ok n s ->
  with_ipv6 (repr6 n s) k = k (in6 n).
Proof. intros Hok. unfold with_ipv6. cbn [repr6 address_family]. by rewrite ipv6_address_repr6, bind_Ok. Qed.

Lemma load_upper n : 0 <= n < 2 ^ 128 -> UNALIGNED_LOAD 8 (s6_addr (in6 n)) 0 = Ok (byteswap 8 (n / 2 ^ 64)).
Proof.
  intros Hn. rewrite (load_in6 8 0 n ltac:(lia) : UNALIGNED_LOAD 8 (s6_addr (in6 n)) 0 = _) by lia. do 2 f_equal.
  apply Z.mod_small. split; [apply Z.div_pos; lia|]. apply Z.div_lt_upper_bound; [lia|]. exact (proj2 Hn).
Qed.

Lemma upper_test n : 0 <= n < 2 ^ 128 -> (byteswap 8 (n / 2 ^ 64) =? 0) = (n / 2 ^ 64 =? 0).
Proof.
  intros Hn. apply byteswap_eqb0. split; [apply Z.div_pos; lia|]. apply Z.div_lt_upper_bound; [lia|]. exact (proj2 Hn).
Qed.

Lemma ipv4_at_low n : ipv4_at (in6 n) 6 = Ok (repr4 (n mod 2 ^ 32)).
Proof.
  rewrite (ipv4_at_in6 n 6 ltac:(lia) : ipv4_at (in6 n) 6 = _) by lia. change (16 * Z.of_nat (6 - 6)) with 0.
  by rewrite Z.pow_0_r, Z.div_1_r.
Qed.

Lemma GetCompat_repr n s : addr6_ok n s ->
  GetCompatIPv4Address (repr6 n s) = Ok (if bool_decide (2 <= n < 2 ^ 32) then Some (repr4 n) else None).
Proof.
  intros Hok. pose proof Hok as (Hn & _). unfold GetCompatIPv4Address. rewrite with_ipv6_repr6 by done.
  rewrite load_upper, bind_Ok, upper_test by done.
  destruct (Z.eqb_spec (n / 2 ^ 64) 0) as [E|E]; cbn [negb];
    [|rewrite bool_decide_eq_false_2; [done|intros [_ ?]; apply E; apply Z.div_small; lia]].
  assert (n < 2 ^ 64) by (apply Z.div_small_iff in E; lia).
  rewrite (load_in6 4 8 n ltac:(lia) : UNALIGNED_LOAD 4 (s6_addr (in6 n)) 8 = _), bind_Ok by lia.
  rewrite (byteswap_eqb0 4) by apply (mod_word 4).
  change (8 * Z.of_nat (16 - 8 - 4)) with 32. change (8 * Z.of_nat 4) with 32.
  rewrite (Z.mod_small (n / 2 ^ 32)) by (split; [apply Z.div_pos; lia|apply Z.div_lt_upper_bound; lia]).
  destruct (Z.eqb_spec (n / 2 ^ 32) 0) as [E2|E2]; cbn [negb];
    [|rewrite bool_decide_eq_false_2; [done|intros [_ ?]; apply E2; apply Z.div_small; lia]].
  assert (n < 2 ^ 32) as Hlt by (apply Z.div_small_iff in E2; lia).
  unfold BigEndian.Load32.
  rewrite (load_in6 4 12 n ltac:(lia) : UNALIGNED_LOAD 4 (s6_addr (in6 n)) 12 = _), bind_Ok by lia.
  rewrite byteswap_involutive, bind_Ok by apply (mod_word 4).
  change (8 * Z.of_nat (16 - 12 - 4)) with 0. change (8 * Z.of_nat 4) with 32.
  rewrite Z.pow_0_r, Z.div_1_r, ipv4_at_low, bind_Ok, (Z.mod_small n) by lia.
  destruct (Z.eqb_spec n 0) as [->|]; [reflexivity|]. destruct (Z.eqb_spec n 1) as [->|]; [reflexivity|].
  cbn [orb].
  by rewrite bool_decide_eq_true_2 by lia.
Qed.

(** Words of the address. *)
Lemma word_test n i v : (i < 8)%nat -> 0 <= v < 2 ^ 16 -> (s6_addr16 (in6 n) i =? byteswap 2 v) = (word6 n i =? v).
Proof. intros Hi Hv. rewrite s6_addr16_in6 by done. apply byteswap2_eqb; [apply word6_range|done]. Qed.

Lemma word_test0 n i : (i < 8)%nat -> (s6_addr16 (in6 n) i =? 0) = (word6 n i =? 0).
Proof. intros Hi. exact (word_test n i 0 Hi ltac:(lia)). Qed.

Lemma word6_bits n i j : (i < 8)%nat -> j = 16 * Z.of_nat (7 - i) -> word6 n i = n / 2 ^ j mod 2 ^ 16.
Proof. by intros Hi ->. Qed.

Lemma GetMapped_repr n s : addr6_ok n s ->
  GetMappedIPv4Address (repr6 n s) = Ok (if n / 2 ^ 32 =? 0xffff then Some (repr4 (n mod 2 ^ 32)) else None).
Proof.
  intros Hok. pose proof Hok as (Hn & _). unfold GetMappedIPv4Address. rewrite with_ipv6_repr6 by done.
  rewrite load_upper, bind_Ok, upper_test by done. rewrite word_test0 by lia.
  change 0xffff with (byteswap 2 0xffff) at 1. rewrite word_test by lia.
  rewrite (word6_bits n 4 48), (word6_bits n 5 32) by (lia || done). rewrite ipv4_at_low, bind_Ok.
  destruct (Z.eqb_spec (n / 2 ^ 64) 0), (Z.eqb_spec (n / 2 ^ 48 mod 2 ^ 16) 0),
    (Z.eqb_spec (n / 2 ^ 32 mod 2 ^ 16) 65535), (Z.eqb_spec (n / 2 ^ 32) 65535); cbn [negb orb];
    try reflexivity; exfalso; zlia.
Qed.

Lemma Get6to4_repr n s : addr6_ok n s ->
  Get6to4IPv4Address (repr6 n s) =
  Ok (if n / 2 ^ 112 =? 0x2002 then Some (repr4 (n / 2 ^ 80 mod 2 ^ 32)) else None).
Proof.
  intros Hok. pose proof Hok as (Hn & _). unfold Get6to4IPv4Address, ghtons. rewrite with_ipv6_repr6 by done.
  rewrite word_test by lia. rewrite (word6_bits n 0 112) by (lia || done).
  rewrite (ipv4_at_in6 n 1 ltac:(lia) : ipv4_at (in6 n) 1 = _), bind_Ok by lia.
  rewrite Z.mod_small by (split; [apply Z.div_pos; lia|apply Z.div_lt_upper_bound; lia]).
  by destruct (n / 2 ^ 112 =? 8194).
Qed.

Lemma complement_lxor w x : 0 <= w -> 0 <= x < 2 ^ w -> 2 ^ w - 1 - x = Z.lxor x (2 ^ w - 1).
Proof.
  intros Hw Hx. apply Z.bits_inj'. intros i Hi. rewrite Z.lxor_spec.
  replace (2 ^ w - 1) with (Z.ones w) at 2 by (rewrite Z.ones_equiv; lia).
  rewrite ones_testbit by done. destruct (Z.ltb_spec i w).
  - rewrite complement_testbit by lia. rewrite (proj2 (Z.leb_le 0 i)) by lia. cbn [andb]. by destruct (Z.testbit x i).
  - rewrite andb_false_r, xorb_false_r. rewrite !(testbit_small _ w) by lia. done.
Qed.

Lemma byteswap_complement k x : 0 <= x < 2 ^ (8 * Z.of_nat k) ->
  byteswap k (2 ^ (8 * Z.of_nat k) - 1) = 2 ^ (8 * Z.of_nat k) - 1 ->
  2 ^ (8 * Z.of_nat k) - 1 - byteswap k x = byteswap k (2 ^ (8 * Z.of_nat k) - 1 - x).
Proof.
  intros Hx E. pose proof (byteswap_range k x).
  rewrite (complement_lxor _ (byteswap k x)), (complement_lxor _ x), byteswap_lxor, E by lia. done.
Qed.

(** The fields of a Teredo address. *)
Definition teredo (n : Z) : IPAddress * Z * Z * IPAddress :=
  (repr4 (n / 2 ^ 64 mod 2 ^ 32), n / 2 ^ 48 mod 2 ^ 16,
   2 ^ 16 - 1 - n / 2 ^ 32 mod 2 ^ 16, repr4 (2 ^ 32 - 1 - n mod 2 ^ 32)).

Lemma GetTeredo_repr n s : addr6_ok n s ->
  GetTeredoInfo (repr6 n s) = Ok (if n / 2 ^ 96 =? 0x20010000 then Some (teredo n) else None).
Proof.
  intros Hok. pose proof Hok as (Hn & _). unfold GetTeredoInfo, ghtons. rewrite with_ipv6_repr6 by done.
  rewrite word_test, word_test0 by lia. rewrite (word6_bits n 0 112), (word6_bits n 1 96) by (lia || done).
  rewrite (load_in6 4 12 n ltac:(lia) : UNALIGNED_LOAD 4 (s6_addr (in6 n)) 12 = _), bind_Ok by lia.
  rewrite (ipv4_at_in6 n 2 ltac:(lia) : ipv4_at (in6 n) 2 = _), bind_Ok by lia.
  change (8 * Z.of_nat (16 - 12 - 4)) with 0. rewrite Z.pow_0_r, Z.div_1_r.
  rewrite !s6_addr16_in6 by lia.
  assert (negb (n / 2 ^ 112 mod 2 ^ 16 =? 8193) || negb (n / 2 ^ 96 mod 2 ^ 16 =? 0) =
    negb (n / 2 ^ 96 =? 536936448)) as ->.
  { destruct (Z.eqb_spec (n / 2 ^ 112 mod 2 ^ 16) 8193), (Z.eqb_spec (n / 2 ^ 96 mod 2 ^ 16) 0),
      (Z.eqb_spec (n / 2 ^ 96) 536936448); cbn [negb orb]; try reflexivity; exfalso; zlia. }
  destruct (n / 2 ^ 96 =? 536936448); cbn [negb]; [|done]. do 2 f_equal. unfold teredo, gntohs.
  pose proof (mod_word 4 n) as M4. pose proof (byteswap_range 4 (n mod 2 ^ 32)) as B4.
  pose proof (word6_range n 5) as M2. pose proof (byteswap_range 2 (word6 n 5)) as B2.
  change (8 * Z.of_nat 4) with 32 in *. change (8 * Z.of_nat 2) with 16 in *. f_equal; [f_equal; [f_equal|]|].
  - unfold ghtons. rewrite byteswap_involutive by apply word6_range. by rewrite (word6_bits n 4 48) by (lia || done).
  - replace (u16 (- byteswap 2 (word6 n 5) - 1)) with (2 ^ 16 - 1 - byteswap 2 (word6 n 5)).
    + unfold ghtons. change 16 with (8 * Z.of_nat 2). rewrite (byteswap_complement 2 _ M2 eq_refl), byteswap_involutive;
        [|change (8 * Z.of_nat 2) with 16; lia]. by rewrite (word6_bits n 5 32) by (lia || done).
    + unfold u16. apply Z.mod_unique with (-1); lia.
  - unfold IPAddress4, repr4. do 2 f_equal. change 32 with (8 * Z.of_nat 4) at 2.
    rewrite <- (byteswap_complement 4 _ M4 eq_refl). change (8 * Z.of_nat 4) with 32. unfold u32. symmetry. apply Z.mod_unique with (-1); lia.
Qed.

(** The embedded client address. *)
Definition embedded (n : Z) : option Z :=
  if bool_decide (2 <= n < 2 ^ 32) then Some n
  else if n / 2 ^ 32 =? 0xffff then Some (n mod 2 ^ 32)
  else if n / 2 ^ 112 =? 0x2002 then Some (n / 2 ^ 80 mod 2 ^ 32)
  else if n / 2 ^ 96 =? 0x20010000 then Some (2 ^ 32 - 1 - n mod 2 ^ 32)
  else None.

Lemma GetEmbedded_repr n s : addr6_ok n s ->
  GetEmbeddedIPv4ClientAddress (repr6 n s) = Ok (repr4 <$> embedded n).
Proof.
  intros Hok. unfold GetEmbeddedIPv4ClientAddress, embedded.
  rewrite GetCompat_repr, bind_Ok by done. case_bool_decide; [done|].
  rewrite GetMapped_repr, bind_Ok by done. destruct (n / 2 ^ 32 =? 0xffff); [done|].
  rewrite Get6to4_repr, bind_Ok by done. destruct (n / 2 ^ 112 =? 0x2002); [done|].
  rewrite GetTeredo_repr, bind_Ok by done. by destruct (n / 2 ^ 96 =? 0x20010000).
Qed.
End numbers.

(** ** Properties *)

Section properties.
Context `{BuildMode}.

Lemma GetIsatap_repr n s : addr6_ok n s ->
  GetIsatapIPv4Address (repr6 n s) =
  Ok (if negb (n / 2 ^ 96 =? 0x20010000) && (n / 2 ^ 32 mod 2 ^ 16 =? 0x5efe) &&
         (Z.lor (n / 2 ^ 48 mod 2 ^ 16) 0x300 =? 0x300)
      then Some (repr4 (n mod 2 ^ 32)) else None).
Proof.
  intros Hok. unfold GetIsatapIPv4Address, ghtons. rewrite with_ipv6_repr6, GetTeredo_repr, bind_Ok by done.
  destruct (n / 2 ^ 96 =? 0x20010000); [done|]. rewrite ipv6_address_repr6, bind_Ok by done. cbn [negb andb].
  rewrite word_test, s6_addr16_in6, <- byteswap_lor by lia.
  assert (0 <= Z.lor (word6 n 4) 0x300 < 2 ^ 16) as Hl.
  { pose proof (word6_range n 4). assert (0 <= Z.lor (word6 n 4) 0x300) as Hp by (apply Z.lor_nonneg; lia).
    split; [done|]. destruct (Z.eq_dec (Z.lor (word6 n 4) 0x300) 0) as [->|]; [lia|].
    apply Z.log2_lt_pow2; [lia|]. rewrite Z.log2_lor by lia. apply Z.max_lub_lt; [|reflexivity].
    destruct (Z.eq_dec (word6 n 4) 0) as [->|]; [reflexivity|]. apply Z.log2_lt_pow2; lia. }
  rewrite byteswap2_eqb by (lia || done).
  rewrite (word6_bits n 5 32), (word6_bits n 4 48) by (lia || done). rewrite ipv4_at_low, bind_Ok.
  by destruct (n / 2 ^ 32 mod 2 ^ 16 =? 0x5efe), (Z.lor (n / 2 ^ 48 mod 2 ^ 16) 0x300 =? 0x300).
Qed.

Lemma v4mapped_in6 n : addr4_ok n -> v4mapped {| s_addr := byteswap 4 n |} = in6 (0xffff * 2 ^ 32 + n).
Proof.
  intros Hn. unfold addr4_ok in Hn. unfold v4mapped, in6. f_equal. cbn [s_addr].
  change 16%nat with (12 + 4)%nat. rewrite be_store_app. f_equal.
  - change (8 * Z.of_nat 4) with 32. rewrite Z.div_add_l, (Z.div_small n) by lia. reflexivity.
  - unfold byteswap. change (le_load (rev (le_store 4 n))) with (le_load (be_store 4 n)).
    rewrite le_store_load by (apply be_store_ok || apply length_be_store).
    rewrite <- (be_store_mod 4 (_ + n)). change (8 * Z.of_nat 4) with 32.
    rewrite Z.add_comm, Z.mod_add, Z.mod_small by lia. done.
Qed.

Lemma Dualstack_repr4 n : addr4_ok n -> DualstackIPAddress (repr4 n) = Ok (repr6 (0xffff * 2 ^ 32 + n) 0).
Proof.
  intros Hn. unfold DualstackIPAddress. change (ipv4_address (repr4 n)) with (Ok {| s_addr := byteswap 4 n |}).
  cbn [repr4 address_family]. rewrite !bind_Ok, v4mapped_in6 by done.
  change (_ ← CHECK (AF_INET =? AF_INET); ?k) with k.
  assert (be_load (take 12 (s6_addr (in6 (0xffff * 2 ^ 32 + n)))) = 0xffff) as ->.
  { unfold addr4_ok in Hn. unfold in6. cbn [s6_addr]. change 16%nat with (12 + 4)%nat.
    rewrite be_store_app, take_app_length' by (by rewrite length_be_store). change (8 * Z.of_nat 4) with 32.
    rewrite Z.div_add_l, (Z.div_small n) by lia. reflexivity. }
  change (65535 =? 65535) with true. rewrite DCHECK_true, bind_Ok. apply IPAddress6_in6.
Qed.

Lemma Normalize_repr6 n s : addr6_ok n s ->
  NormalizeIPAddress (repr6 n s) = Ok (if n / 2 ^ 32 =? 0xffff then repr4 (n mod 2 ^ 32) else repr6 n s).
Proof.
  intros Hok. unfold NormalizeIPAddress. rewrite GetMapped_repr, bind_Ok by done. by destruct (n / 2 ^ 32 =? 0xffff).
Qed.

(** The mapped addresses have no scope id. *)
Lemma mapped_unscoped n s : addr6_ok n s -> n / 2 ^ 32 = 0xffff -> s = 0.
Proof.
  intros (Hn & _ & Hs) E. destruct (Z.eq_dec s 0) as [|Hz]; [done|]. exfalso. specialize (Hs Hz).
  assert (n / 2 ^ 64 = 0) as E2 by (change (2 ^ 64) with (2 ^ 32 * 2 ^ 32); rewrite <- Z.div_div, E by lia; reflexivity).
  unfold scopable in Hs. rewrite E2 in Hs. discriminate Hs.
Qed.

Lemma mapped_ok n : addr4_ok n -> addr6_ok (0xffff * 2 ^ 32 + n) 0.
Proof. intros Hn. unfold addr4_ok in Hn. apply addr6_ok_0. lia. Qed.

Lemma mapped_div n : addr4_ok n -> (0xffff * 2 ^ 32 + n) / 2 ^ 32 = 0xffff /\ (0xffff * 2 ^ 32 + n) mod 2 ^ 32 = n.
Proof.
  intros Hn. unfold addr4_ok in Hn. rewrite Z.div_add_l, Z.div_small by lia. split; [done|].
  rewrite Z.add_comm, Z.mod_add, Z.mod_small by lia. done.
Qed.

(** The tests by number: [::1], the ULA range and the loopback network. *)
Definition loopback4 (entire : bool) (n : Z) : bool := if entire then n / 2 ^ 24 =? 127 else n =? 0x7f000001.
Definition loopback6 (entire : bool) (n : Z) : bool :=
  (n =? 1) || entire && (n / 2 ^ 64 =? 0xfd14988a50ee1006) ||
  (n / 2 ^ 32 =? 0xffff) && loopback4 entire (n mod 2 ^ 32).

Lemma land_top_byte n : addr4_ok n -> Z.land n 0xff000000 = n / 2 ^ 24 * 2 ^ 24.
Proof.
  intros Hn. unfold addr4_ok in Hn. rewrite <- Z.shiftl_mul_pow2, <- Z.shiftr_div_pow2 by lia.
  change 0xff000000 with (Z.shiftl (Z.ones 8) 24). apply Z.bits_inj'. intros i Hi.
  rewrite Z.land_spec, !Z.shiftl_spec by lia. destruct (Z.ltb_spec i 24).
  - rewrite (Z.testbit_neg_r (Z.ones 8)), (Z.testbit_neg_r (Z.shiftr n 24)) by lia. apply andb_false_r.
  - rewrite Z.shiftr_spec by lia. replace (i - 24 + 24) with i by lia. rewrite ones_testbit by lia.
    destruct (Z.ltb_spec (i - 24) 8); [rewrite (proj2 (Z.leb_le 0 _)) by lia; cbn [andb]; by rewrite andb_true_r|].
    rewrite (testbit_small n 32) by lia. done.
Qed.

Lemma IsLoopback4_repr entire n : addr4_ok n -> IsLoopback4 (repr4 n) entire = Ok (loopback4 entire n).
Proof.
  intros Hn. unfold IsLoopback4, loopback4. destruct entire.
  - rewrite IPAddressToHostUInt32_repr4, bind_Ok, land_top_byte by done. f_equal. unfold addr4_ok in Hn.
    apply eq_true_iff_eq. rewrite !Z.eqb_eq. change 0x7f000000 with (127 * 2 ^ 24). rewrite Z.mul_cancel_r by lia. done.
  - f_equal. change Loopback4 with (repr (Addr4 0x7f000001)). change (repr4 n) with (repr (Addr4 n)).
    rewrite IPAddress_eqb_repr by (done || (cbn; unfold addr4_ok; lia)).
    destruct (Z.eqb_spec n 0x7f000001) as [->|Hne]; [by rewrite bool_decide_eq_true_2|].
    apply bool_decide_eq_false_2. by intros [= ->].
Qed.

Lemma unscoped_low n s v : addr6_ok n s -> n = v -> 0 <= v < 2 ^ 64 -> s = 0.
Proof.
  intros (Hn & _ & Hs) -> Hv. destruct (Z.eq_dec s 0) as [|Hz]; [done|]. specialize (Hs Hz).
  unfold scopable in Hs. rewrite Z.div_small in Hs by lia. discriminate Hs.
Qed.

Lemma eqb_low n s v : addr6_ok n s -> 0 <= v < 2 ^ 64 -> IPAddress_eqb (repr6 n s) (repr6 v 0) = (n =? v).
Proof.
  intros Hok Hv. change (IPAddress_eqb (repr (Addr6 n s)) (repr (Addr6 v 0)) = (n =? v)).
  rewrite IPAddress_eqb_repr by (done || (cbn; apply addr6_ok_0; lia)).
  destruct (Z.eqb_spec n v) as [E|Hne]; [|by apply bool_decide_eq_false_2; intros [= ->]].
  rewrite (unscoped_low n s v Hok E Hv), E. by apply bool_decide_eq_true_2.
Qed.

Lemma IsLoopback_repr6 entire n s : addr6_ok n s -> IsLoopback_mode (repr6 n s) entire = Ok (loopback6 entire n).
Proof.
  intros Hok. pose proof Hok as (Hn & _).
  assert (IsLoopback_mode (repr6 n s) entire =
    (loopback6 ← Loopback6;
     if IPAddress_eqb (repr6 n s) loopback6 then Ok true
     else
       ipv6_ip ← ipv6_address (repr6 n s);
       x ← UNALIGNED_LOAD 8 (s6_addr ipv6_ip) 0;
       if entire && (x =? le_load ula_ipv6_loopback_range) then Ok true
       else
         r ← GetMappedIPv4Address (repr6 n s);
         match r with Some addr4 => IsLoopback4 addr4 entire | None => Ok false end)) as -> by done.
  rewrite Loopback6_repr, bind_Ok, eqb_low by (done || lia). unfold loopback6.
  destruct (n =? 1); [done|]. cbn [orb].
  rewrite ipv6_address_repr6, bind_Ok, load_upper, bind_Ok by done.
  change (le_load ula_ipv6_loopback_range) with (byteswap 8 0xfd14988a50ee1006).
  rewrite (byteswap_eqb 8); [|split; [apply Z.div_pos; lia|apply Z.div_lt_upper_bound; [lia|exact (proj2 Hn)]]|done].
  destruct (entire && (n / 2 ^ 64 =? 0xfd14988a50ee1006)); [done|]. cbn [orb].
  rewrite GetMapped_repr, bind_Ok by done. destruct (n / 2 ^ 32 =? 0xffff); [|done]. cbn [andb].
  apply IsLoopback4_repr, (mod_word 4).
Qed.

(** What the coerced address depends on. *)
Definition coercion_key (n : Z) : Z + Z :=
  match embedded n with Some a => inl a | None => inr (n / 2 ^ 64) end.

Definition coerced_hash (n : Z) : Z :=
  HashTo32 (match coercion_key n with inl a => be_store 4 a | inr u => be_store 8 u end).

Lemma embedded_range n a : 0 <= n < 2 ^ 128 -> embedded n = Some a -> addr4_ok a.
Proof.
  intros Hn. unfold embedded, addr4_ok. case_bool_decide; [intros [= <-]; lia|].
  repeat case_match; intros [= <-]; pose proof (mod_word 4 n); pose proof (mod_word 4 (n / 2 ^ 80));
    change (8 * Z.of_nat 4) with 32 in *; lia.
Qed.

Lemma lor_e0 x : 0 <= x < 2 ^ 32 -> 0xe0000000 <= Z.lor x 0xe0000000 < 2 ^ 32.
Proof.
  intros Hx. assert (Z.lor x 0xe0000000 / 2 ^ 29 = 7) as E.
  { rewrite <- Z.shiftr_div_pow2, Z.shiftr_lor, Z.shiftr_div_pow2 by lia. change (Z.shiftr 0xe0000000 29) with 7.
    assert (0 <= x / 2 ^ 29 < 8) as Hq by (split; [apply Z.div_pos; lia|apply Z.div_lt_upper_bound; lia]).
    assert (x / 2 ^ 29 = 0 \/ x / 2 ^ 29 = 1 \/ x / 2 ^ 29 = 2 \/ x / 2 ^ 29 = 3 \/ x / 2 ^ 29 = 4 \/
            x / 2 ^ 29 = 5 \/ x / 2 ^ 29 = 6 \/ x / 2 ^ 29 = 7) as Hc by lia.
    by destruct Hc as [-> | [-> | [-> | [-> | [-> | [-> | [-> | ->]]]]]]]. }
  pose proof (Z.div_mod (Z.lor x 0xe0000000) (2 ^ 29) ltac:(lia)).
  pose proof (Z.mod_pos_bound (Z.lor x 0xe0000000) (2 ^ 29) ltac:(lia)). lia.
Qed.

(** The coerced address by number: the hash in byte order, squashed. *)
Definition coerced (n : Z) : Z := Z.min (Z.lor (byteswap 4 (coerced_hash n)) 0xe0000000) 0xfffffffe.

Lemma GetCoerced_repr6 n s : addr6_ok n s -> n <> 0 -> n <> 1 ->
  GetCoercedIPv4Address (repr6 n s) = Ok (repr4 (coerced n)).
Proof.
  intros Hok H0 H1. pose proof Hok as (Hn & _).
  unfold GetCoercedIPv4Address. rewrite Any6_repr, Loopback6_repr, GetEmbedded_repr, !bind_Ok by done.
  rewrite !eqb_low, (proj2 (Z.eqb_neq n 0)), (proj2 (Z.eqb_neq n 1)) by (done || lia).
  assert ((match repr4 <$> embedded n with
           | Some ip4 => address ← ipv4_address ip4; Ok (HashTo32 (le_store 4 (s_addr address)))
           | None => a ← ipv6_address (repr6 n s); Ok (HashTo32 (take 8 (s6_addr a)))
           end) = Ok (coerced_hash n)) as ->.
  { unfold coerced_hash, coercion_key. destruct (embedded n) as [a|].
    - cbn [fmap option_fmap option_map]. rewrite ipv4_address_repr4, bind_Ok. cbn [s_addr].
      by rewrite le_store_byteswap.
    - cbn [fmap option_fmap option_map]. rewrite ipv6_address_repr6, bind_Ok by done. unfold in6. cbn [s6_addr].
      change 16%nat with (8 + 8)%nat. by rewrite be_store_app, take_app_length' by (by rewrite length_be_store). }
  rewrite bind_Ok. unfold ghtonl, coerced.
  set (h := byteswap 4 (coerced_hash n)). pose proof (byteswap_range 4 (coerced_hash n)) as Hh.
  fold h in Hh. change (8 * Z.of_nat 4) with 32 in Hh. pose proof (lor_e0 h Hh) as Hc.
  replace (coerced_hash n) with (byteswap 4 h) by (apply byteswap_involutive, HashTo32_range).
  rewrite <- byteswap_lor. set (c := Z.lor h 0xe0000000) in *.
  change 0xffffffff with (byteswap 4 0xffffffff). rewrite (byteswap_eqb 4) by (change (8 * Z.of_nat 4) with 32; lia).
  destruct (Z.eqb_spec c 0xffffffff) as [->|].
  - rewrite <- byteswap_land. reflexivity.
  - rewrite Z.min_l by lia. reflexivity.
Qed.
End properties.

(** The embedded IPv4 addresses, by number.  On the IPv6 address of value
    [n] (of any scope id) each accessor succeeds exactly on the addresses of its
    scheme and returns the right bits: compatible addresses are those below 2^32
    other than [::] and [::1]; mapped ones are ::ffff:0:0/96; 6to4 is 2002::/16
    with the IPv4 address in the next 32 bits; Teredo is 2001::/32, with server,
    flags, complemented port and complemented client; ISATAP is any non-Teredo
    address with the 5efe marker, only the u and g bits before it being free.
    The embedded client address is the first of the first four that applies.  No
    accessor crashes, in any build mode. *)
Theorem embedded_addresses `{BuildMode} n s : addr6_ok n s ->
  GetCompatIPv4Address (repr6 n s) = Ok (if bool_decide (2 <= n < 2 ^ 32) then Some (repr4 n) else None) /\
  GetMappedIPv4Address (repr6 n s) = Ok (if n / 2 ^ 32 =? 0xffff then Some (repr4 (n mod 2 ^ 32)) else None) /\
  Get6to4IPv4Address (repr6 n s) =
    Ok (if n / 2 ^ 112 =? 0x2002 then Some (repr4 (n / 2 ^ 80 mod 2 ^ 32)) else None) /\
  GetTeredoInfo (repr6 n s) =
    Ok (if n / 2 ^ 96 =? 0x20010000
        then Some (repr4 (n / 2 ^ 64 mod 2 ^ 32), n / 2 ^ 48 mod 2 ^ 16,
                   2 ^ 16 - 1 - n / 2 ^ 32 mod 2 ^ 16, repr4 (2 ^ 32 - 1 - n mod 2 ^ 32))
        else None) /\
  GetIsatapIPv4Address (repr6 n s) =
    Ok (if negb (n / 2 ^ 96 =? 0x20010000) && (n / 2 ^ 32 mod 2 ^ 16 =? 0x5efe) &&
           (Z.lor (n / 2 ^ 48 mod 2 ^ 16) 0x300 =? 0x300)
        then Some (repr4 (n mod 2 ^ 32)) else None) /\
  GetEmbeddedIPv4ClientAddress (repr6 n s) =
    Ok (if bool_decide (2 <= n < 2 ^ 32) then Some (repr4 n)
        else if n / 2 ^ 32 =? 0xffff then Some (repr4 (n mod 2 ^ 32))
        else if n / 2 ^ 112 =? 0x2002 then Some (repr4 (n / 2 ^ 80 mod 2 ^ 32))
        else if n / 2 ^ 96 =? 0x20010000 then Some (repr4 (2 ^ 32 - 1 - n mod 2 ^ 32))
        else None).
Proof.
  intros Hok. split; [by apply GetCompat_repr|]. split; [by apply GetMapped_repr|].
  split; [by apply Get6to4_repr|]. split; [by apply GetTeredo_repr|]. split; [by apply GetIsatap_repr|].
  rewrite GetEmbedded_repr by done. unfold embedded. case_bool_decide; [done|]. by repeat case_match.
Qed.

(** 2002:c000:0204::1 embeds 192.0.2.4. *)
Lemma embedded_addresses_witness :
  addr6_ok (0x2002c0000204 * 2 ^ 80 + 1) 0 /\
  GetEmbeddedIPv4ClientAddress (H := debug_build) (repr6 (0x2002c0000204 * 2 ^ 80 + 1) 0) =
    Ok (Some (repr4 0xc0000204)).
Proof.
  assert (addr6_ok (0x2002c0000204 * 2 ^ 80 + 1) 0) as Hok by (apply addr6_ok_0; lia). split; [exact Hok|].
  destruct (embedded_addresses (H := debug_build) (0x2002c0000204 * 2 ^ 80 + 1) 0 Hok) as (_ & _ & _ & _ & _ & E).
  exact E.
Defined.

(** Normalization and dual-stack conversion undo each other.  For every
    well-formed address [ip] that is set, [NormalizeIPAddress] returns a
    normalized address (normalizing it again changes nothing), and
    [DualstackIPAddress] returns an IPv6 address; converting either result the
    other way gives back [ip] when [ip] was an IPv6 address and an IPv4 address
    respectively. *)
Theorem Normalize_Dualstack_inverse `{BuildMode} ip : ip_ok ip -> ip <> kUninitialized ->
  exists norm dual, NormalizeIPAddress ip = Ok norm /\ DualstackIPAddress ip = Ok dual /\
    ip_ok norm /\ ip_ok dual /\ NormalizeIPAddress norm = Ok norm /\ is_ipv6 dual = true /\
    (is_ipv6 ip = true -> dual = ip /\ DualstackIPAddress norm = Ok ip) /\
    (is_ipv4 ip = true -> norm = ip /\ NormalizeIPAddress dual = Ok ip).
Proof.
  intros Hip Hset. destruct (repr_surj ip Hip) as ([|n|n s] & Ha & ->); [done| |].
  - cbn [repr addr_ok] in *. destruct (mapped_div n Ha) as [E1 E2].
    exists (repr4 n), (repr6 (0xffff * 2 ^ 32 + n) 0). split; [done|]. split; [by apply Dualstack_repr4|].
    split; [done|]. split; [by apply (repr_ok (Addr6 _ _)), mapped_ok|]. do 2 (split; [done|]).
    split; [done|]. intros _. split; [done|]. by rewrite Normalize_repr6, E1, E2 by (by apply mapped_ok).
  - cbn [repr addr_ok] in *. exists (if n / 2 ^ 32 =? 0xffff then repr4 (n mod 2 ^ 32) else repr6 n s), (repr6 n s).
    split; [by apply Normalize_repr6|]. split; [done|].
    destruct (Z.eqb_spec (n / 2 ^ 32) 0xffff) as [E|E].
    + split; [by apply (repr_ok (Addr4 _)), (mod_word 4)|]. do 3 (split; [done|]). split; [|done]. intros _. split; [done|].
      rewrite Dualstack_repr4 by apply (mod_word 4). rewrite (mapped_unscoped n s Ha E). do 2 f_equal.
      pose proof (Z.div_mod n (2 ^ 32) ltac:(lia)). lia.
    + do 2 (split; [done|]). split; [|done]. rewrite Normalize_repr6 by done. by rewrite (proj2 (Z.eqb_neq _ _) E).
Qed.

Lemma Normalize_Dualstack_inverse_witness :
  ip_ok (repr4 0x7f000001) /\
  exists norm dual, NormalizeIPAddress (H := debug_build) (repr4 0x7f000001) = Ok norm /\
    DualstackIPAddress (H := debug_build) (repr4 0x7f000001) = Ok dual /\
    NormalizeIPAddress (H := debug_build) dual = Ok (repr4 0x7f000001).
Proof.
  assert (ip_ok (repr4 0x7f000001)) as Hok by (vm_compute; split; congruence). split; [exact Hok|].
  destruct (Normalize_Dualstack_inverse (H := debug_build) _ Hok ltac:(discriminate))
    as (norm & dual & E1 & E2 & _ & _ & _ & _ & _ & E3).
  exists norm, dual. split; [exact E1|]. split; [exact E2|]. exact (proj2 (E3 eq_refl)).
Defined.

(** [GetCoercedIPv4Address] maps every IPv6 address into the unused IPv4
    space: [::] becomes 0.0.0.0, [::1] becomes 127.0.0.1, and every other address
    an address of 224.0.0.0/3 that is never 255.255.255.255.  Two addresses that
    embed the same IPv4 address, or that embed none and agree in the top 64 bits,
    are coerced to the same one, whatever their other bits and scope ids.  IPv4
    addresses are returned unchanged. *)
Theorem GetCoercedIPv4Address_spec `{BuildMode} n s : addr6_ok n s ->
  (exists c, GetCoercedIPv4Address (repr6 n s) = Ok (repr4 c) /\
     (n = 0 -> c = 0) /\ (n = 1 -> c = 0x7f000001) /\
     (n <> 0 -> n <> 1 -> 0xe0000000 <= c < 0xffffffff) /\
     GetCoercedIPv4Address (repr4 c) = Ok (repr4 c)) /\
  (forall m t, addr6_ok m t -> 1 < n -> 1 < m ->
     (match GetEmbeddedIPv4ClientAddress (repr6 n s), GetEmbeddedIPv4ClientAddress (repr6 m t) with
      | Ok (Some a), Ok (Some b) => a = b
      | Ok None, Ok None => n / 2 ^ 64 = m / 2 ^ 64
      | _, _ => False
      end) ->
     GetCoercedIPv4Address (repr6 n s) = GetCoercedIPv4Address (repr6 m t)).
Proof.
  intros Hok. split.
  - destruct (Z.eq_dec n 0) as [->|H0].
    { exists 0. rewrite (unscoped_low 0 s 0 Hok eq_refl) by lia. split; [reflexivity|].
      by repeat split; lia. }
    destruct (Z.eq_dec n 1) as [->|H1].
    { exists 0x7f000001. rewrite (unscoped_low 1 s 1 Hok eq_refl) by lia. split; [reflexivity|].
      by repeat split; lia. }
    exists (coerced n). rewrite GetCoerced_repr6 by done. split; [done|]. do 2 (split; [done|]). split; [|done].
    intros _ _. unfold coerced. pose proof (lor_e0 _ (byteswap_range 4 (coerced_hash n))). lia.
  - intros m t Hm Hn1 Hm1. rewrite !GetEmbedded_repr, !GetCoerced_repr6 by (done || lia). intros E.
    enough (coercion_key n = coercion_key m) as K by (unfold coerced, coerced_hash; by rewrite K).
    unfold coercion_key. destruct (embedded n) as [a|] eqn:Ea, (embedded m) as [b|] eqn:Eb; try done.
    + f_equal. injection E as E. rewrite <- (byteswap_involutive 4 a), E, byteswap_involutive; [done|..].
      * exact (embedded_range m b (proj1 Hm) Eb).
      * exact (embedded_range n a (proj1 Hok) Ea).
    + cbn [fmap option_fmap option_map] in E. by rewrite E.
Qed.

(** 2001:db8::1 and 2001:db8::2 are coerced alike. *)
Lemma GetCoercedIPv4Address_spec_witness :
  GetCoercedIPv4Address (H := debug_build) (repr6 (0x20010db8 * 2 ^ 96 + 1) 0) =
  GetCoercedIPv4Address (H := debug_build) (repr6 (0x20010db8 * 2 ^ 96 + 2) 0).
Proof.
  apply (GetCoercedIPv4Address_spec (H := debug_build) (0x20010db8 * 2 ^ 96 + 1) 0);
    [apply addr6_ok_0; lia|apply addr6_ok_0; lia|lia|lia|]. vm_compute. reflexivity.
Defined.

(** The loopback tests.  [IsCanonicalLoopbackIPAddress] holds exactly for
    127.0.0.1, [::1] and the mapped 127.0.0.1; [IsLoopbackIPAddress] exactly for
    127.0.0.0/8, [::1], fd14:988a:50ee:1006::/64 and the mapped 127.0.0.0/8.  An
    address that is not set is a crash in debug builds and no loopback in
    release builds. *)
Theorem IsLoopbackIPAddress_spec `{BuildMode} :
  (forall n, addr4_ok n -> IsCanonicalLoopbackIPAddress (repr4 n) = Ok (n =? 0x7f000001) /\
     IsLoopbackIPAddress (repr4 n) = Ok (n / 2 ^ 24 =? 127)) /\
  (forall n s, addr6_ok n s ->
     IsCanonicalLoopbackIPAddress (repr6 n s) = Ok ((n =? 1) || (n =? 0xffff7f000001)) /\
     IsLoopbackIPAddress (repr6 n s) =
       Ok ((n =? 1) || (n / 2 ^ 64 =? 0xfd14988a50ee1006) || (n / 2 ^ 24 =? 0xffff7f))) /\
  IsLoopbackIPAddress kUninitialized = (if NDEBUG then Ok false else Crash).
Proof.
  split; [|split].
  - intros n Hn. by split; apply IsLoopback4_repr.
  - intros n s Hok. pose proof Hok as (Hn & _). unfold IsCanonicalLoopbackIPAddress, IsLoopbackIPAddress.
    rewrite !IsLoopback_repr6 by done. unfold loopback6, loopback4. cbn [andb]. rewrite orb_false_r. split; do 2 f_equal.
    + apply eq_true_iff_eq. rewrite andb_true_iff, !Z.eqb_eq. zlia.
    + apply eq_true_iff_eq. rewrite andb_true_iff, !Z.eqb_eq. zlia.
  - unfold IsLoopbackIPAddress, IsLoopback_mode, LOG_DFATAL, DCHECK. by destruct NDEBUG.
Qed.

Lemma IsLoopbackIPAddress_spec_witness :
  IsLoopbackIPAddress (H := debug_build) (repr6 0xffff7f010203 0) = Ok true.
Proof.
  destruct (IsLoopbackIPAddress_spec (H := debug_build)) as (_ & F & _).
  exact (proj2 (F 0xffff7f010203 0 ltac:(apply addr6_ok_0; lia))).
Defined.

(** ** 6to4 ranges *)

(** The block of the 6to4 addresses of a block. *)
Lemma trunc_6to4 len n m : 0 <= len <= 32 -> 0 <= n < 2 ^ 32 -> n mod 2 ^ (32 - len) = 0 -> 0 <= m < 2 ^ 128 ->
  (trunc 128 (len + 16) m = 0x2002 * 2 ^ 112 + n * 2 ^ 80 <->
   m / 2 ^ 112 = 0x2002 /\ trunc 32 len (m / 2 ^ 80 mod 2 ^ 32) = n).
Proof.
  intros Hl Hn E Hm. rewrite (trunc_block 32 len n) by done. pose proof (blast_range 32 len n Hl Hn E) as Hb.
  assert (trunc 128 (len + 16) m = m / 2 ^ 80 / 2 ^ (32 - len) * 2 ^ (32 - len) * 2 ^ 80) as ->.
  { unfold trunc. replace (128 - (len + 16)) with (80 + (32 - len)) by lia.
    rewrite Z.pow_add_r, Z.div_div by lia. lia. }
  replace (m / 2 ^ 112) with (m / 2 ^ 80 / 2 ^ 32) by (rewrite Z.div_div by lia; done). set (q := m / 2 ^ 80).
  transitivity (trunc 32 len q = 0x2002 * 2 ^ 32 + n); [unfold trunc; lia|].
  rewrite trunc_block; [|done|].
  2:{ rewrite (pow2_split (32 - len) 32), Z.mul_assoc, Z.add_comm, Z.mod_add by (try pose proof (pow2_pos (32 - len)); lia).
      done. }
  unfold blast in *. zlia.
Qed.

Lemma arange6to4 n len : arange_ok (Addr4 n) len -> arange_ok (Addr6 (0x2002 * 2 ^ 112 + n * 2 ^ 80) 0) (len + 16).
Proof.
  intros (_ & Hn & Hl & E). cbn [awidth anum addr_ok] in *. unfold addr4_ok in Hn.
  split; [done|]. cbn [awidth anum addr_ok]. split; [apply addr6_ok_0; lia|]. split; [lia|].
  apply Z.div_exact in E; [|pose proof (pow2_pos (32 - len)); lia]. rewrite E.
  replace (128 - (len + 16)) with (32 - len + 80) by lia.
  rewrite Z.pow_add_r by lia.
  replace (0x2002 * 2 ^ 112 + 2 ^ (32 - len) * (n / 2 ^ (32 - len)) * 2 ^ 80)
    with ((0x2002 * 2 ^ (32 - (32 - len)) + n / 2 ^ (32 - len)) * (2 ^ (32 - len) * 2 ^ 80)).
  - apply Z.mod_mul. pose proof (pow2_pos (32 - len)). lia.
  - change (2 ^ 112) with (2 ^ 32 * 2 ^ 80). pose proof (pow2_split (32 - len) 32 ltac:(lia)). lia.
Qed.

Lemma Get6to4IPv6Range_repr `{BuildMode} n len : arange_ok (Addr4 n) len ->
  Get6to4IPv6Range (mk_range (Addr4 n) len) = Ok (Some (mk_range (Addr6 (0x2002 * 2 ^ 112 + n * 2 ^ 80) 0) (len + 16))).
Proof.
  intros Hok. pose proof Hok as (_ & Hn & _). cbn [addr_ok] in Hn. unfold addr4_ok in Hn.
  unfold Get6to4IPv6Range. cbn [mk_range host_ length_ repr].
  change (negb (address_family (repr4 n) =? AF_INET)) with false. cbv iota.
  rewrite ipv4_address_repr4, bind_Ok. cbn [s_addr]. rewrite le_store_byteswap.
  change (s6_addr (set_s6_addr16 {| s6_addr := replicate 16 0 |} 0 (ghtons 0x2002)))
    with (be_store 2 0x2002 ++ replicate 4 0 ++ be_store 10 0).
  rewrite (store_bytes_app (be_store 2 0x2002) (replicate 4 0) (be_store 4 n) (be_store 10 0)
    ltac:(by rewrite length_be_store) : store_bytes _ 2 _ = _), bind_Ok.
  assert ({| s6_addr := be_store 2 0x2002 ++ be_store 4 n ++ be_store 10 0 |} = in6 (0x2002 * 2 ^ 112 + n * 2 ^ 80)) as ->.
  { unfold in6. f_equal. change 16%nat with (2 + (4 + 10))%nat. rewrite be_store_app, (be_store_app 4 10).
    change (8 * Z.of_nat (4 + 10)) with 112. change (8 * Z.of_nat 10) with 80. f_equal; [|f_equal].
    - f_equal. rewrite Z.div_add_l, Z.div_small by lia. done.
    - rewrite <- (be_store_mod 4 (_ / _)). f_equal. change (8 * Z.of_nat 4) with 32. zlia.
    - rewrite <- (be_store_mod 10 (_ + _)). f_equal. change (8 * Z.of_nat 10) with 80. zlia. }
  rewrite IPAddress6_in6, bind_Ok.
  change (repr6 (0x2002 * 2 ^ 112 + n * 2 ^ 80) 0) with (repr (Addr6 (0x2002 * 2 ^ 112 + n * 2 ^ 80) 0)).
  by rewrite UnsafeConstruct_repr, bind_Ok by (by apply arange6to4).
Qed.

Lemma within_6to4 n len m s : 0 <= len <= 32 -> 0 <= n < 2 ^ 32 -> n mod 2 ^ (32 - len) = 0 -> 0 <= m < 2 ^ 128 ->
  (awidth (Addr6 (0x2002 * 2 ^ 112 + n * 2 ^ 80) 0) = awidth (Addr6 m s) /\
   atrunc (Addr6 m s) (len + 16) = Addr6 (0x2002 * 2 ^ 112 + n * 2 ^ 80) 0 <->
   m / 2 ^ 112 = 0x2002 /\ trunc 32 len (m / 2 ^ 80 mod 2 ^ 32) = n).
Proof.
  intros Hl Hn E Hm. rewrite <- trunc_6to4 by done. unfold atrunc. cbn [awidth anum awith].
  split; [by intros [_ [= -> _]]|]. intros ->. split; [done|]. f_equal. unfold keep_scope, scopable.
  rewrite (proj2 (Z.eqb_neq _ _)), (proj2 (Z.eqb_neq _ _)) by zlia. done.
Qed.

(** [Get6to4IPv6Range] of a valid IPv4 range is a valid IPv6 range, and it
    holds exactly the IPv6 addresses whose 6to4 IPv4 address exists and is inside
    the IPv4 range. *)
Theorem Get6to4IPv6Range_spec `{BuildMode} r : range_ok r -> is_ipv4 (host_ r) = true ->
  exists r6, Get6to4IPv6Range r = Ok (Some r6) /\ range_ok r6 /\ length_ r6 = length_ r + 16 /\
    forall ip, ip_ok ip -> is_ipv6 ip = true ->
      exists e b, Get6to4IPv4Address ip = Ok e /\ IsWithinSubnet r6 ip = Ok b /\
        (b = true <-> exists ip4, e = Some ip4 /\ IsWithinSubnet r ip4 = Ok true).
Proof.
  intros ([|n|] & len & Hok & ->); [done| |done]. intros _. pose proof Hok as (_ & Hn & Hl & E).
  pose proof (arange6to4 n len Hok) as Hok6.
  exists (mk_range (Addr6 (0x2002 * 2 ^ 112 + n * 2 ^ 80) 0) (len + 16)).
  split; [by apply Get6to4IPv6Range_repr|]. split; [by eexists _, _|]. split; [done|].
  intros ip Hip. destruct (repr_surj ip Hip) as ([|m|m s] & Ha & ->); [done|done|]. intros _.
  cbn [repr addr_ok] in *. eexists _, _. split; [by apply Get6to4_repr|].
  split; [by apply (IsWithinSubnet_repr _ _ (Addr6 m s))|].
  rewrite bool_decide_eq_true, within_6to4 by (done || apply Ha).
  destruct (Z.eqb_spec (m / 2 ^ 112) 0x2002) as [Ep|Ep].
  - transitivity (trunc 32 len (m / 2 ^ 80 mod 2 ^ 32) = n); [by split; [intros [_ ?]|]|].
    assert (IsWithinSubnet (mk_range (Addr4 n) len) (repr4 (m / 2 ^ 80 mod 2 ^ 32)) =
      Ok (bool_decide (trunc 32 len (m / 2 ^ 80 mod 2 ^ 32) = n))) as Ew.
    { etransitivity; [apply (IsWithinSubnet_repr _ _ (Addr4 _)); [done|apply (mod_word 4)]|].
      f_equal. apply bool_decide_ext. unfold atrunc. cbn [awidth anum awith]. split; [by intros [_ [= ?]]|by intros ->]. }
    split; [intros Et; eexists; split; [done|]; rewrite Ew; by rewrite bool_decide_eq_true_2|].
    intros (ip4 & [= <-] & Et). rewrite Ew in Et. injection Et as Et. by apply bool_decide_eq_true in Et.
  - split; [by intros [? _]|by intros (? & ? & _)].
Qed.

Lemma Get6to4IPv6Range_spec_witness :
  exists r6, Get6to4IPv6Range (H := debug_build) (mk_range (Addr4 0xC0000200) 24) = Ok (Some r6) /\ length_ r6 = 40.
Proof.
  destruct (Get6to4IPv6Range_spec (H := debug_build) (mk_range (Addr4 0xC0000200) 24)) as (r6 & E & _ & L & _);
    [|reflexivity|exists r6; split; [exact E|exact L]].
  exists (Addr4 0xC0000200), 24. split; [|reflexivity]. split; [discriminate|]. repeat split; by vm_compute.
Defined.
