(* ===== verification/StdHeap.v ===== *)
(** * The heap and sorting algorithms of the C++ standard library

    Where these algorithms leave the elements is not specified beyond the heap and
    order properties, so they are an interface: [StdHeap] has the functions on the
    content of the range, for a comparator, and [StdHeapLaws] what the standard says of
    them when the comparator is a strict weak order.  [InsertionHeap] implements the
    interface by insertion sort. *)
From Stdlib Require Import ZArith Lia Bool Sorting.Sorted Sorting.Permutation.
From stdpp Require Import base sets list sorting.
From S2P Require Import Prelude.
Local Open Scope nat_scope.

Class StrictWeak {A} (cmp : A -> A -> bool) : Prop := {
  sw_irrefl a : cmp a a = false;
  sw_asym a b : cmp a b = true -> cmp b a = false;
  sw_neg_trans a b c : cmp a b = false -> cmp b c = false -> cmp a c = false
}.

(** No element is greater than its parent, the greatest being the one that no other
    is above in [cmp]. *)
Definition is_heap {A} (cmp : A -> A -> bool) (l : list A) : Prop :=
  forall i p x, 0 < i -> l !! i = Some x -> l !! ((i - 1) / 2) = Some p -> cmp p x = false.

Definition sorted_by {A} (cmp : A -> A -> bool) (l : list A) : Prop :=
  StronglySorted (fun a b => cmp b a = false) l.

Class StdHeap := {
  make_heap {A} : (A -> A -> bool) -> list A -> list A;
  push_heap {A} : (A -> A -> bool) -> list A -> list A;
  pop_heap {A} : (A -> A -> bool) -> list A -> list A;
  sort_heap {A} : (A -> A -> bool) -> list A -> list A;
  std_sort {A} : (A -> A -> bool) -> list A -> list A
}.

Class StdHeapLaws `{StdHeap} : Prop := {
  make_heap_law {A} (cmp : A -> A -> bool) l : StrictWeak cmp ->
    make_heap cmp l ≡ₚ l /\ is_heap cmp (make_heap cmp l);
  push_heap_law {A} (cmp : A -> A -> bool) l x : StrictWeak cmp -> is_heap cmp l ->
    push_heap cmp (l ++ [x]) ≡ₚ l ++ [x] /\ is_heap cmp (push_heap cmp (l ++ [x]));
  pop_heap_law {A} (cmp : A -> A -> bool) x l : StrictWeak cmp -> is_heap cmp (x :: l) ->
    exists r, pop_heap cmp (x :: l) = r ++ [x] /\ r ≡ₚ l /\ is_heap cmp r;
  sort_heap_law {A} (cmp : A -> A -> bool) l : StrictWeak cmp -> is_heap cmp l ->
    sort_heap cmp l ≡ₚ l /\ sorted_by cmp (sort_heap cmp l);
  std_sort_law {A} (cmp : A -> A -> bool) l : StrictWeak cmp ->
    std_sort cmp l ≡ₚ l /\ sorted_by cmp (std_sort cmp l)
}.

(** The front of a heap is a greatest element. *)
Lemma is_heap_front {A} (cmp : A -> A -> bool) `{!StrictWeak cmp} a l :
  is_heap cmp (a :: l) -> Forall (fun b => cmp a b = false) (a :: l).
Proof.
  intros Hh. apply Forall_lookup. intros i. induction i as [i IH] using lt_wf_ind.
  intros x Hx. destruct (decide (i = 0)) as [->|Hi].
  - simpl in Hx. injection Hx as <-. apply sw_irrefl.
  - assert (Hp : (i - 1) / 2 < i) by (apply Nat.Div0.div_lt_upper_bound; lia).
    assert (Hl : (i - 1) / 2 < length (a :: l)).
    { apply lookup_lt_Some in Hx. lia. }
    apply lookup_lt_is_Some in Hl as [p Hpl].
    apply (sw_neg_trans _ p); [eapply IH; eauto|]. apply (Hh i p x); auto; lia.
Qed.

Lemma rev_perm {A} (l : list A) : rev l ≡ₚ l.
Proof. symmetry. apply Permutation_rev. Qed.

(** ** The instance *)

Section insertion.
Context {A : Type} (cmp : A -> A -> bool).

Fixpoint insert_desc (x : A) (l : list A) : list A :=
  match l with
  | [] => [x]
  | b :: r => if cmp x b then b :: insert_desc x r else x :: l
  end.
Definition sort_desc (l : list A) : list A := foldr insert_desc [] l.

Lemma insert_desc_perm x l : insert_desc x l ≡ₚ x :: l.
Proof.
  induction l as [|b l IH]; simpl; [reflexivity|]. destruct (cmp x b); [|reflexivity].
  rewrite IH. apply Permutation_swap.
Qed.

Lemma sort_desc_perm l : sort_desc l ≡ₚ l.
Proof. induction l as [|a l IH]; simpl; [reflexivity|]. rewrite insert_desc_perm, IH. auto. Qed.

Context `{!StrictWeak cmp}.

Definition desc (l : list A) : Prop := StronglySorted (fun a b => cmp a b = false) l.

Lemma sort_desc_desc l : desc (sort_desc l).
Proof.
  unfold desc. induction l as [|a l IH]; simpl; [constructor|].
  generalize dependent (sort_desc l). clear l. intros l.
  induction 1 as [|b l Hl IH Hb]; simpl; [repeat constructor|].
  destruct (cmp a b) eqn:E; constructor; auto.
  - rewrite insert_desc_perm. constructor; [apply sw_asym; auto | auto].
  - constructor; auto.
  - constructor; auto. eapply Forall_impl; [exact Hb|]. simpl. intros c.
    apply sw_neg_trans. auto.
Qed.

Lemma desc_is_heap l : desc l -> is_heap cmp l.
Proof.
  unfold desc. intros Hl i p x Hi Hx Hp.
  assert (Hlt : (i - 1) / 2 < i) by (apply Nat.Div0.div_lt_upper_bound; lia).
  revert Hlt Hx Hp. generalize ((i - 1) / 2) as j. clear Hi. revert i.
  induction Hl as [|a l Hl IH Ha]; intros [|i] [|j] Hlt Hx Hp; simpl in *; try done; try lia.
  - injection Hp as ->. rewrite Forall_lookup in Ha. eauto.
  - apply (IH i j); auto. lia.
Qed.

Lemma rev_sorted l : desc l -> sorted_by cmp (rev l).
Proof.
  unfold desc, sorted_by. induction 1 as [|a l Hl IH Ha]; simpl; [constructor|].
  assert (Hr : Forall (fun b => cmp a b = false) (rev l)) by (rewrite rev_perm; auto).
  clear Ha Hl. revert IH Hr. generalize (rev l). clear l. intros l.
  induction 1 as [|b l Hl IH Hb]; simpl; intros Hr; [repeat constructor|].
  inversion_clear Hr. constructor; auto. apply Forall_app. auto.
Qed.
End insertion.

#[export] Instance InsertionHeap : StdHeap := {
  make_heap A cmp l := sort_desc cmp l;
  push_heap A cmp l := sort_desc cmp l;
  pop_heap A cmp l := match l with [] => [] | x :: r => sort_desc cmp r ++ [x] end;
  sort_heap A cmp l := rev (sort_desc cmp l);
  std_sort A cmp l := rev (sort_desc cmp l)
}.

#[export] Instance InsertionHeap_laws : StdHeapLaws.
Proof.
  assert (Hd : forall A (cmp : A -> A -> bool) l, StrictWeak cmp ->
    is_heap cmp (sort_desc cmp l)).
  { intros A cmp l Hs. apply desc_is_heap, sort_desc_desc. exact Hs. }
  assert (Hs : forall A (cmp : A -> A -> bool) l, StrictWeak cmp ->
    rev (sort_desc cmp l) ≡ₚ l /\ sorted_by cmp (rev (sort_desc cmp l))).
  { intros A cmp l Hs. rewrite (rev_perm (sort_desc cmp l)) at 1.
    split; [apply sort_desc_perm | apply rev_sorted, sort_desc_desc; exact Hs]. }
  split; simpl; intros; auto; [split; [apply sort_desc_perm | auto]..|].
  exists (sort_desc cmp l). split_and!; [reflexivity | apply sort_desc_perm | auto].
Qed.
