(* ===== verification/TopN.v ===== *)
(** * TopN

    [util/gtl/top_n.h]: the [limit] greatest of the elements pushed so far, in an
    unordered vector that becomes a heap of the standard library when one element more
    than the limit arrives.  [cmp] is the user's "greater" predicate.  [push] returns
    what is written to [dropped], if anything; moving out of an element leaves its
    value. *)
From Stdlib Require Import ZArith Lia Bool Sorting.Sorted Sorting.Permutation.
From stdpp Require Import base sets list sorting.
From S2P Require Import Prelude.
From S2P Require Import StdHeap.
Local Open Scope Z_scope.

Inductive State := unordered | bottom_known | heap_sorted.
#[global] Instance State_eq_dec : EqDecision State.
Proof. solve_decision. Defined.

Section topn.
Context {A : Type} `{StdHeap}.
Variable cmp : A -> A -> bool.

Record TopN := mkTopN { elements_ : list A; limit_ : Z; state_ : State }.

Definition make (limit : Z) : TopN := mkTopN [] limit unordered.
Definition size (t : TopN) : Z := Z.min (zlen (elements_ t)) (limit_ t).
Definition empty (t : TopN) : bool := size t =? 0.
Definition Reset (t : TopN) : TopN := mkTopN [] (limit_ t) unordered.
Definition Reset_limit (t : TopN) (limit : Z) : TopN := mkTopN [] limit (state_ (Reset t)).
(** The move constructor: the new object and what is left of the other. *)
Definition move (other : TopN) : TopN * TopN :=
  (mkTopN (elements_ other) (limit_ other) (state_ other), Reset other).

Definition front (l : list A) : outcome A := match l with x :: _ => Ok x | [] => UB end.
Definition back (l : list A) : outcome A := match last l with Some x => Ok x | None => UB end.

(** [swap(elements_.front(), elements_.back())], for two elements or more. *)
Definition swap_ends (l : list A) : outcome (list A) :=
  f ← front l;
  b ← back l;
  Ok (<[pred (length l) := f]> (<[0%nat := b]> l)).

Definition PushInternal (t : TopN) (v : A) : outcome (TopN * option A) :=
  if limit_ t =? 0 then Ok (t, Some v)
  else if negb (bool_decide (state_ t = heap_sorted)) then
    let l := elements_ t ++ [v] in
    keep ← (if bool_decide (state_ t = unordered) then Ok true
            else b ← back l; f ← front l; Ok (cmp b f));
    l ← (if (keep : bool) then Ok l else swap_ends l);
    if zlen l =? u64 (limit_ t + 1) then
      let l := make_heap cmp l in
      f ← front l;
      let l := pop_heap cmp l in
      Ok (mkTopN l (limit_ t) heap_sorted, Some f)
    else Ok (mkTopN l (limit_ t) (state_ t), None)
  else
    f ← front (elements_ t);
    if cmp v f then
      let l := push_heap cmp (removelast (elements_ t) ++ [v]) in
      f ← front l;
      let l := pop_heap cmp l in
      Ok (mkTopN l (limit_ t) (state_ t), Some f)
    else Ok (t, Some v).

(** [std::max_element]: the position of the first element that [cmp] puts above the
    ones before it and not below the ones after. *)
Fixpoint max_element_from (largest : A) (at_ i : nat) (l : list A) : nat * A :=
  match l with
  | [] => (at_, largest)
  | x :: r => if cmp largest x then max_element_from x i (S i) r
              else max_element_from largest at_ (S i) r
  end.

Definition peek_bottom (t : TopN) : outcome (TopN * A) :=
  _ ← CHECK (negb (empty t));
  l ← (if bool_decide (state_ t = unordered) then
         f ← front (elements_ t);
         let '(i, m) := max_element_from f 0 1 (drop 1 (elements_ t)) in
         Ok (if Nat.eqb i 0 then elements_ t
             else <[i := f]> (<[0%nat := m]> (elements_ t)))
       else Ok (elements_ t));
  let t := mkTopN l (limit_ t)
             (if bool_decide (state_ t = unordered) then bottom_known else state_ t) in
  f ← front (elements_ t);
  Ok (t, f).

(** [pop_back] on the copy of the elements. *)
Definition pop_back (l : list A) : outcome (list A) :=
  match l with [] => UB | _ => Ok (removelast l) end.

Definition ExtractNondestructive (t : TopN) : outcome (list A) :=
  if negb (bool_decide (state_ t = heap_sorted)) then Ok (std_sort cmp (elements_ t))
  else l ← pop_back (elements_ t); Ok (sort_heap cmp l).
Definition ExtractUnsortedNondestructive (t : TopN) : outcome (list A) :=
  if bool_decide (state_ t = heap_sorted) then pop_back (elements_ t) else Ok (elements_ t).
Definition TakeNondestructive (t : TopN) : outcome (list A) := ExtractNondestructive t.
Definition TakeUnsortedNondestructive (t : TopN) : outcome (list A) :=
  ExtractUnsortedNondestructive t.
Definition Take (t : TopN) : outcome (TopN * list A) :=
  out ← (if negb (bool_decide (state_ t = heap_sorted)) then Ok (std_sort cmp (elements_ t))
         else l ← pop_back (elements_ t); Ok (sort_heap cmp l));
  Ok (Reset t, out).
Definition TakeUnsorted (t : TopN) : outcome (TopN * list A) :=
  out ← (if bool_decide (state_ t = heap_sorted) then pop_back (elements_ t)
         else Ok (elements_ t));
  Ok (Reset t, out).

(** The range from [unsorted_begin] to [unsorted_end]. *)
Definition unsorted_range (t : TopN) : list A := take (Z.to_nat (size t)) (elements_ t).

(** ** Scripts on one object *)

Inductive op :=
  | OPush (v : A) | OPeek | OTake | OTakeUnsorted | OTakeND | OTakeUnsortedND | ORange
  | OSize | OReset | OResetLimit (limit : Z) | OMove.
Inductive result :=
  | RDropped (d : option A) | RBottom (b : A) | RSorted (l : list A) | RUnsorted (l : list A)
  | RSize (n : Z) | RNone.

Definition step (t : TopN) (o : op) : outcome (TopN * result) :=
  match o with
  | OPush v => '(t, d) ← PushInternal t v; Ok (t, RDropped d)
  | OPeek => '(t, b) ← peek_bottom t; Ok (t, RBottom b)
  | OTake => '(t, l) ← Take t; Ok (t, RSorted l)
  | OTakeUnsorted => '(t, l) ← TakeUnsorted t; Ok (t, RUnsorted l)
  | OTakeND => l ← TakeNondestructive t; Ok (t, RSorted l)
  | OTakeUnsortedND => l ← TakeUnsortedNondestructive t; Ok (t, RUnsorted l)
  | ORange => Ok (t, RUnsorted (unsorted_range t))
  | OSize => Ok (t, RSize (size t))
  | OReset => Ok (Reset t, RNone)
  | OResetLimit n => Ok (Reset_limit t n, RNone)
  | OMove => Ok ((move t).1, RNone)
  end.

Fixpoint run (t : TopN) (l : list op) : outcome (TopN * list result) :=
  match l with
  | [] => Ok (t, [])
  | o :: l => '(t, r) ← step t o; '(t, rs) ← run t l; Ok (t, r :: rs)
  end.

(** ** The specification

    The abstract state is the list of elements pushed since the last reset and the
    limit. *)

(** No element of [l] is below [b]. *)
Definition lowest (b : A) (l : list A) : Prop := b ∈ l /\ Forall (fun x => cmp b x = false) l.

(** [K] are the [limit] greatest of [pushed], or all when there are no more. *)
Definition top (limit : Z) (pushed K : list A) : Prop :=
  zlen K = Z.min (zlen pushed) limit /\
  exists D, K ++ D ≡ₚ pushed /\ Forall (fun k => Forall (fun d => cmp d k = false) D) K.

Definition spec_step (o : op) (pushed : list A) (limit : Z) (pushed' : list A) (limit' : Z)
    (r : result) : Prop :=
  match o, r with
  | OPush v, RDropped d =>
      pushed' = pushed ++ [v] /\ limit' = limit /\
      (if zlen pushed <? limit then d = None
       else exists K b, top limit pushed K /\ d = Some b /\ lowest b (K ++ [v]))
  | OPeek, RBottom b =>
      pushed' = pushed /\ limit' = limit /\ exists K, top limit pushed K /\ lowest b K
  | OTake, RSorted l => pushed' = [] /\ limit' = limit /\ top limit pushed l /\ sorted_by cmp l
  | OTakeND, RSorted l =>
      pushed' = pushed /\ limit' = limit /\ top limit pushed l /\ sorted_by cmp l
  | OTakeUnsorted, RUnsorted l => pushed' = [] /\ limit' = limit /\ top limit pushed l
  | OTakeUnsortedND, RUnsorted l | ORange, RUnsorted l =>
      pushed' = pushed /\ limit' = limit /\ top limit pushed l
  | OSize, RSize n => pushed' = pushed /\ limit' = limit /\ n = Z.min (zlen pushed) limit
  | OReset, RNone => pushed' = [] /\ limit' = limit
  | OResetLimit n, RNone => pushed' = [] /\ limit' = n
  | OMove, RNone => pushed' = pushed /\ limit' = limit
  | _, _ => False
  end.

Inductive spec_run : list A -> Z -> list op -> list result -> Prop :=
  | spec_nil pushed limit : spec_run pushed limit [] []
  | spec_cons pushed limit o r pushed' limit' l rs :
      spec_step o pushed limit pushed' limit' r -> spec_run pushed' limit' l rs ->
      spec_run pushed limit (o :: l) (r :: rs).

(** [peek_bottom] needs an element, and a limit is a [size_t]. *)
Fixpoint legal (n : nat) (limit : Z) (l : list op) : Prop :=
  match l with
  | [] => True
  | o :: l =>
      match o with
      | OPush _ => legal (S n) limit l
      | OPeek => 0 < Z.min (Z.of_nat n) limit /\ legal n limit l
      | OTake | OTakeUnsorted | OReset => legal 0 limit l
      | OResetLimit m => 0 <= m < 2 ^ 64 /\ legal 0 m l
      | _ => legal n limit l
      end
  end.

(** ** Proofs *)

Context `{!StdHeapLaws} `{!StrictWeak cmp}.

(** The elements that count. *)
Definition kept (t : TopN) : list A :=
  if bool_decide (state_ t = heap_sorted) then removelast (elements_ t) else elements_ t.

Definition inv (t : TopN) (pushed : list A) : Prop :=
  0 <= limit_ t < 2 ^ 64 /\
  match state_ t with
  | unordered => elements_ t ≡ₚ pushed /\ zlen (elements_ t) <= limit_ t \/
                 limit_ t = 0 /\ elements_ t = []
  | bottom_known => elements_ t ≡ₚ pushed /\ zlen (elements_ t) <= limit_ t /\
      exists b l, elements_ t = b :: l /\ lowest b (b :: l)
  | heap_sorted => 0 < limit_ t /\
      exists h x, elements_ t = h ++ [x] /\ is_heap cmp h /\ top (limit_ t) pushed h /\
        zlen h = limit_ t
  end.

Lemma zlen_perm (l k : list A) : l ≡ₚ k -> zlen l = zlen k.
Proof. intros Hp. unfold zlen. rewrite Hp. reflexivity. Qed.

Lemma lowest_perm b l k : l ≡ₚ k -> lowest b l -> lowest b k.
Proof. intros Hp [Hb Hl]. split; [rewrite <- Hp; auto | rewrite <- Hp; auto]. Qed.

Lemma top_all limit pushed K : K ≡ₚ pushed -> zlen K <= limit -> top limit pushed K.
Proof.
  intros Hp Hl. split; [rewrite (zlen_perm _ _ Hp) in *; lia|]. exists [].
  rewrite app_nil_r. split; [auto|]. apply Forall_forall. constructor.
Qed.

Lemma top_perm limit pushed K K' : K ≡ₚ K' -> top limit pushed K -> top limit pushed K'.
Proof.
  intros Hp (Hl & D & HD & Hd). split; [rewrite <- (zlen_perm _ _ Hp); auto|].
  exists D. split; rewrite <- Hp; auto.
Qed.

Lemma top_zero pushed : top 0 pushed [].
Proof.
  split; [pose proof (zlen_nonneg pushed); rewrite zlen_nil; lia|]. exists pushed.
  split; [reflexivity | constructor].
Qed.

(** Dropping the lowest of the kept elements and a new one. *)
Lemma top_push limit pushed K v K' b : top limit pushed K -> zlen K = limit ->
  lowest b (K ++ [v]) -> b :: K' ≡ₚ K ++ [v] -> top limit (pushed ++ [v]) K'.
Proof.
  intros (Hl & D & HD & Hd) HK [Hb Hlow] Hp. split.
  - apply zlen_perm in Hp. rewrite zlen_cons, zlen_app, zlen_cons, zlen_nil in Hp.
    rewrite zlen_app, zlen_cons, zlen_nil. lia.
  - exists (b :: D). split.
    + rewrite <- HD. rewrite <- Permutation_middle. rewrite app_comm_cons, Hp.
      rewrite <- !app_assoc. f_equiv. apply Permutation_app_comm.
    + assert (HbK : b ∈ K \/ K' ≡ₚ K).
      { apply elem_of_app in Hb as [Hin|Hin]; [auto|].
        apply list_elem_of_singleton in Hin as ->. right.
        apply (Permutation_cons_inv (a := v)). rewrite Hp. symmetry.
        apply Permutation_cons_append. }
      rewrite Forall_forall in *. intros k Hk. constructor.
      * apply Hlow. rewrite <- Hp. set_solver.
      * destruct HbK as [HbK|HbK].
        -- apply Forall_forall. intros d Hdd. apply (sw_neg_trans _ b).
           ++ specialize (Hd b HbK). rewrite Forall_forall in Hd. auto.
           ++ apply Hlow. rewrite <- Hp. set_solver.
        -- apply Hd. rewrite <- HbK. auto.
Qed.

(** *** The vector primitives *)

Lemma front_spec a (l : list A) : front (a :: l) = Ok a.
Proof. reflexivity. Qed.

Lemma back_snoc l (a : A) : back (l ++ [a]) = Ok a.
Proof. unfold back. rewrite last_snoc. reflexivity. Qed.

Lemma swap_ends_spec a (l : list A) v : swap_ends (a :: l ++ [v]) = Ok (v :: l ++ [a]).
Proof.
  unfold swap_ends. rewrite front_spec, bind_Ok.
  assert (back (a :: l ++ [v]) = Ok v) as -> by exact (back_snoc (a :: l) v).
  rewrite bind_Ok.
  f_equal. simpl. rewrite length_app, Nat.add_comm. simpl. f_equal.
  rewrite insert_app_r_alt by lia. rewrite Nat.sub_diag. reflexivity.
Qed.

Lemma swap_heads (a m : A) l j : l !! j = Some m -> m :: <[j := a]> l ≡ₚ a :: l.
Proof.
  revert j. induction l as [|x l IH]; intros [|j] Hj; simpl in *; try done.
  - injection Hj as ->. apply Permutation_swap.
  - rewrite Permutation_swap, IH by auto. apply Permutation_swap.
Qed.

Lemma max_element_from_spec l : forall largest at_ i seen,
  Forall (fun x => cmp largest x = false) seen -> forall j m,
  max_element_from largest at_ i l = (j, m) ->
  Forall (fun x => cmp m x = false) (seen ++ l) /\ Forall (fun x => cmp m x = false) [largest] /\
  ((j = at_ /\ m = largest) \/ (i <= j)%nat /\ l !! (j - i)%nat = Some m).
Proof.
  induction l as [|x l IH]; intros largest at_ i seen Hs j m Hm; simpl in Hm.
  - injection Hm as <- <-. rewrite app_nil_r. split_and!; auto.
    constructor; [apply sw_irrefl | constructor].
  - destruct (cmp largest x) eqn:Hc.
    + destruct (IH x i (S i) (seen ++ [x])) with (j := j) (m := m) as (H1 & H2 & H3); auto.
      { apply Forall_app. split; [|constructor; [apply sw_irrefl | constructor]].
        eapply Forall_impl; [exact Hs|]. simpl. intros y Hy.
        apply (sw_neg_trans _ largest); [apply sw_asym; auto | auto]. }
      rewrite <- app_assoc in H1. split_and!; auto.
      * inversion_clear H2 as [|? ? Hmx _]. constructor; [|constructor].
        apply (sw_neg_trans _ x); [auto | apply sw_asym; auto].
      * right. destruct H3 as [[-> ->]|[Hle Hl]].
        -- rewrite Nat.sub_diag. split; [lia | reflexivity].
        -- split; [lia|]. replace (j - i)%nat with (S (j - S i)) by lia. exact Hl.
    + destruct (IH largest at_ (S i) (seen ++ [x])) with (j := j) (m := m)
        as (H1 & H2 & H3); auto.
      { apply Forall_app. split; [auto | constructor; [auto | constructor]]. }
      rewrite <- app_assoc in H1. split_and!; auto.
      destruct H3 as [?|[Hle Hl]]; [auto|]. right. split; [lia|].
      replace (j - i)%nat with (S (j - S i)) by lia. exact Hl.
Qed.

(** Moving a lowest element to the front. *)
Lemma bottom_to_front a (l : list A) :
  let '(i, m) := max_element_from a 0 1 l in
  exists b r, (if Nat.eqb i 0 then a :: l else <[i := a]> (<[0%nat := m]> (a :: l))) = b :: r /\
    b :: r ≡ₚ a :: l /\ lowest b (b :: r).
Proof.
  destruct (max_element_from a 0 1 l) as [i m] eqn:E.
  destruct (max_element_from_spec l a 0 1 [] ltac:(constructor) i m E) as (H1 & H2 & H3).
  simpl in H1. inversion_clear H2 as [|? ? Hma _].
  assert (Hall : Forall (fun x => cmp m x = false) (a :: l)) by (constructor; auto).
  destruct H3 as [[-> ->]|[Hi Hl]].
  - exists a, l. simpl. split_and!; auto. split; [set_solver | auto].
  - destruct i as [|i]; [lia|]. replace (S i - 1)%nat with i in Hl by lia. simpl.
    exists m, (<[i := a]> l). pose proof (swap_heads a m l i Hl) as Hp.
    split_and!; auto. split; [set_solver|]. rewrite Hp. auto.
Qed.

(** *** The operations *)

(** One element more than the limit becomes a heap and its lowest element drops out. *)
Lemma heapify (l pushed : list A) limit : l ≡ₚ pushed -> zlen l = limit + 1 -> 0 < limit ->
  exists f h x, front (make_heap cmp l) = Ok f /\ pop_heap cmp (make_heap cmp l) = h ++ [x] /\
    is_heap cmp h /\ zlen h = limit /\ top limit pushed h /\ lowest f l.
Proof.
  intros Hp Hl Hlim. destruct (make_heap_law cmp l _) as [Hm Hh].
  destruct (make_heap cmp l) as [|f r] eqn:E.
  { apply zlen_perm in Hm. rewrite zlen_nil in Hm. lia. }
  pose proof (is_heap_front cmp f r Hh) as Hf.
  destruct (pop_heap_law cmp f r _ Hh) as (h & -> & Hr & Hhh).
  exists f, h, f. assert (Hzh : zlen h = limit).
  { apply zlen_perm in Hm, Hr. rewrite zlen_cons in Hm. lia. }
  split_and!; auto.
  - split.
    + rewrite <- (zlen_perm _ _ Hp). lia.
    + exists [f]. split.
      * rewrite <- Hp, <- Hm, Hr. symmetry. apply Permutation_cons_append.
      * rewrite Hr. apply Forall_cons in Hf as [_ Hf]. eapply Forall_impl; [exact Hf|].
        simpl. intros. constructor; auto.
  - apply (lowest_perm f (f :: r)); [auto|]. split; [set_solver | auto].
Qed.

#[local] Arguments zlen : simpl never.
#[local] Arguments Z.eqb : simpl never.
#[local] Arguments u64 : simpl never.
#[local] Arguments Z.min : simpl never.

(** The push before the heap exists: [l'] are the elements after the swap, if any. *)
Lemma push_unsorted (l l' pushed : list A) lim v st : 0 < lim < 2 ^ 64 -> st <> heap_sorted ->
  zlen pushed + 1 < 2 ^ 64 -> l ≡ₚ pushed -> l' ≡ₚ l ++ [v] -> zlen l <= lim ->
  (st = bottom_known -> exists b r, l' = b :: r /\ lowest b (b :: r)) ->
  exists t' d, (if zlen l' =? u64 (lim + 1) then
       let l := make_heap cmp l' in
       f ← front l;
       let l := pop_heap cmp l in
       Ok (mkTopN l lim heap_sorted, Some f)
     else Ok (mkTopN l' lim st, None)) = Ok (t', d) /\
    inv t' (pushed ++ [v]) /\ limit_ t' = lim /\
    if zlen pushed <? lim then d = None
    else exists K b, top lim pushed K /\ d = Some b /\ lowest b (K ++ [v]).
Proof.
  intros Hlim Hst Hsz Hp Hp' Hz Hbk.
  assert (Hzl : zlen l = zlen pushed) by (apply zlen_perm; auto).
  assert (Hzl' : zlen l' = zlen pushed + 1).
  { rewrite (zlen_perm _ _ Hp'), zlen_app, zlen_cons, zlen_nil. lia. }
  assert (Hpp : l' ≡ₚ pushed ++ [v]) by (rewrite Hp', Hp; reflexivity).
  pose proof (zlen_nonneg pushed) as Hpos.
  assert (Hu : (zlen l' =? u64 (lim + 1)) = negb (zlen pushed <? lim)).
  { unfold u64. destruct (decide (lim + 1 = 2 ^ 64)) as [E|E].
    - rewrite E, Z.mod_same by lia. lia.
    - rewrite Z.mod_small by lia. lia. }
  rewrite Hu. destruct (Z.ltb_spec (zlen pushed) lim) as [Hlt|Hge]; simpl.
  - exists (mkTopN l' lim st), None. split; [reflexivity|]. split; [|auto].
    unfold inv. simpl. split; [lia|]. destruct st; [left; split; [auto | lia] | | done].
    split; [auto|]. split; [lia|]. destruct (Hbk eq_refl) as (b & r & -> & Hb). eauto.
  - destruct (heapify l' _ lim Hpp) as (f & h & x & Hf & Hh & Hheap & Hzh & Htop & Hlow);
      [lia | lia |].
    rewrite Hf, Hh. exists (mkTopN (h ++ [x]) lim heap_sorted), (Some f).
    split; [reflexivity|]. split.
    + unfold inv. simpl. split; [lia|]. split; [lia|]. exists h, x. auto.
    + split; [reflexivity|]. exists l, f. split; [apply top_all; auto|].
      split; [reflexivity | apply (lowest_perm f l'); auto].
Qed.

(** The push into the heap. *)
Lemma push_sorted h x lim v pushed : 0 < lim -> is_heap cmp h -> top lim pushed h ->
  zlen h = lim -> exists f, front (h ++ [x]) = Ok f /\
  (if cmp v f then exists b h',
      front (push_heap cmp (h ++ [v])) = Ok b /\
      pop_heap cmp (push_heap cmp (h ++ [v])) = h' ++ [b] /\
      is_heap cmp h' /\ zlen h' = lim /\ top lim (pushed ++ [v]) h' /\ lowest b (h ++ [v])
   else top lim (pushed ++ [v]) h /\ lowest v (h ++ [v])).
Proof.
  intros Hlim Hh Htop Hz. destruct h as [|f h]; [rewrite zlen_nil in Hz; lia|].
  exists f. split; [reflexivity|].
  pose proof (is_heap_front cmp f h Hh) as Hf.
  destruct (cmp v f) eqn:Hc.
  - destruct (push_heap_law cmp (f :: h) v _ Hh) as [Hpp Hph].
    destruct (push_heap cmp ((f :: h) ++ [v])) as [|b r] eqn:E.
    { apply Permutation_nil in Hpp. destruct h; discriminate. }
    pose proof (is_heap_front cmp b r Hph) as Hb.
    destruct (pop_heap_law cmp b r _ Hph) as (h' & -> & Hr & Hhh). exists b, h'.
    assert (Hlow : lowest b ((f :: h) ++ [v])).
    { apply (lowest_perm b (b :: r)); [auto | split; [set_solver | auto]]. }
    split_and!; auto.
    + apply zlen_perm in Hpp, Hr. rewrite zlen_app, !zlen_cons, zlen_nil in Hpp.
      rewrite zlen_cons in Hz. lia.
    + apply (top_push lim pushed (f :: h) v h' b); auto. rewrite Hr. auto.
  - assert (Hlow : lowest v ((f :: h) ++ [v])).
    { split; [set_solver|]. apply Forall_app. split; [|constructor; [apply sw_irrefl | done]].
      eapply Forall_impl; [exact Hf|]. simpl. intros y. apply sw_neg_trans. auto. }
    split; [|auto]. apply (top_push lim pushed (f :: h) v (f :: h) v); auto.
    apply Permutation_cons_append.
Qed.

Lemma PushInternal_spec t pushed v : inv t pushed -> zlen pushed + 1 < 2 ^ 64 ->
  exists t' d, PushInternal t v = Ok (t', d) /\ inv t' (pushed ++ [v]) /\
    limit_ t' = limit_ t /\
    if zlen pushed <? limit_ t then d = None
    else exists K b, top (limit_ t) pushed K /\ d = Some b /\ lowest b (K ++ [v]).
Proof.
  destruct t as [l lim st]. unfold inv, PushInternal. cbn [elements_ limit_ state_].
  intros [Hlim Hst] Hsz. pose proof (zlen_nonneg pushed) as Hpos.
  destruct (Z.eqb_spec lim 0) as [->|Hnz].
  { exists (mkTopN l 0 st), (Some v). cbn [limit_ state_ elements_].
    split; [reflexivity|]. split.
    - split; [lia|]. destruct st; [|destruct Hst as (Hp & Hz & b & r & -> & _)|lia].
      + right. destruct Hst as [[Hp Hz]|[_ ->]]; [|auto]. split; [auto|].
        apply zlen_0. pose proof (zlen_nonneg l). lia.
      + rewrite zlen_cons in Hz. pose proof (zlen_nonneg r). lia.
    - split; [reflexivity|]. destruct (Z.ltb_spec (zlen pushed) 0); [lia|].
      exists [], v. split; [apply top_zero|]. split; [reflexivity|]. simpl.
      split; [set_solver | constructor; [apply sw_irrefl | constructor]]. }
  destruct st; cbn [negb bool_decide].
  - destruct Hst as [[Hp Hz]|[? _]]; [|lia]. simpl.
    apply (push_unsorted l _ pushed lim v unordered); solve [done | lia].
  - destruct Hst as (Hp & Hz & b & r & -> & Hb). simpl.
    assert (back (b :: r ++ [v]) = Ok v) as -> by exact (back_snoc (b :: r) v). simpl.
    destruct (cmp v b) eqn:Hc; simpl.
    + apply (push_unsorted (b :: r) _ pushed lim v bottom_known); try solve [done | lia].
      intros _. exists b, (r ++ [v]). split; [reflexivity|]. split; [set_solver|].
      apply (proj2 (Forall_app _ (b :: r) [v])). split; [apply Hb|].
      constructor; [apply sw_asym; auto | constructor].
    + rewrite swap_ends_spec. simpl.
      apply (push_unsorted (b :: r) _ pushed lim v bottom_known); try solve [done | lia].
      * simpl. rewrite <- !Permutation_cons_append. apply Permutation_swap.
      * intros _. exists v, (r ++ [b]). split; [reflexivity|]. split; [set_solver|].
        destruct Hb as [_ Hb]. constructor; [apply sw_irrefl|].
        rewrite <- Permutation_cons_append. eapply Forall_impl; [exact Hb|]. simpl.
        intros y. apply sw_neg_trans. auto.
  - destruct Hst as (Hl & h & x & -> & Hh & Htop & Hz). simpl.
    destruct (push_sorted h x lim v pushed Hl Hh Htop Hz) as (f & -> & Hc). simpl.
    destruct Htop as [Htz Htop]. rewrite removelast_last.
    assert (Hge : (zlen pushed <? lim) = false) by lia.
    destruct (cmp v f).
    + destruct Hc as (b & h' & -> & -> & Hh' & Hz' & Htop' & Hlow). simpl. eexists _, _.
      split; [reflexivity|]. simpl. rewrite Hge. split.
      * split; [lia|]. split; [lia|]. exists h', b. auto.
      * split; [reflexivity|]. exists h, b. split; [split; auto|]. auto.
    + destruct Hc as [Htop' Hlow]. eexists _, _. split; [reflexivity|]. simpl. rewrite Hge.
      split.
      * split; [lia|]. split; [lia|]. exists h, x. auto.
      * split; [reflexivity|]. exists h, v. split; [split; auto|]. auto.
Qed.

Lemma kept_top t pushed : inv t pushed -> top (limit_ t) pushed (kept t).
Proof.
  destruct t as [l lim st]. unfold inv, kept. simpl. intros [Hlim Hst].
  destruct st; simpl.
  - destruct Hst as [[Hp Hz]|[-> ->]]; [apply top_all; auto | apply top_zero].
  - destruct Hst as (Hp & Hz & _). apply top_all; auto.
  - destruct Hst as (_ & h & x & -> & _ & Ht & _). rewrite removelast_last. auto.
Qed.

Lemma size_spec t pushed : inv t pushed -> size t = Z.min (zlen pushed) (limit_ t).
Proof.
  destruct t as [l lim st]. unfold inv, size. simpl. intros [Hlim Hst].
  pose proof (zlen_nonneg pushed).
  destruct st.
  - destruct Hst as [[Hp Hz]|[-> ->]]; [rewrite (zlen_perm _ _ Hp); auto | unfold zlen in *; simpl; lia].
  - destruct Hst as (Hp & _). rewrite (zlen_perm _ _ Hp). auto.
  - destruct Hst as (_ & h & x & -> & _ & [Ht _] & Hz). rewrite zlen_app, zlen_cons, zlen_nil.
    lia.
Qed.

Lemma unsorted_range_spec t pushed : inv t pushed -> unsorted_range t = kept t.
Proof.
  destruct t as [l lim st]. unfold inv, unsorted_range, kept, size, zlen. simpl.
  intros [Hlim Hst]. destruct st; simpl.
  - destruct Hst as [[_ Hz]|[_ ->]]; [|apply take_nil]. unfold zlen in Hz.
    apply take_ge. lia.
  - destruct Hst as (_ & Hz & _). unfold zlen in Hz. apply take_ge. lia.
  - destruct Hst as (_ & h & x & -> & _ & _ & Hz). unfold zlen in Hz.
    rewrite removelast_last, length_app. simpl. rewrite take_app_le by lia.
    apply take_ge. lia.
Qed.

Lemma ExtractUnsorted_spec t pushed : inv t pushed ->
  ExtractUnsortedNondestructive t = Ok (kept t).
Proof.
  destruct t as [l lim st]. unfold inv, kept, ExtractUnsortedNondestructive. simpl.
  intros [_ Hst]. destruct st; simpl; try reflexivity.
  destruct Hst as (_ & h & x & -> & _). rewrite removelast_last. unfold pop_back.
  rewrite removelast_last. destruct h; reflexivity.
Qed.

Lemma Extract_spec t pushed : inv t pushed ->
  exists l, ExtractNondestructive t = Ok l /\ l ≡ₚ kept t /\ sorted_by cmp l.
Proof.
  destruct t as [l lim st]. unfold inv, kept, ExtractNondestructive. simpl.
  intros [_ Hst]. destruct st; simpl.
  1, 2: exists (std_sort cmp l); split; [reflexivity | apply std_sort_law; auto].
  destruct Hst as (_ & h & x & -> & Hh & _). rewrite removelast_last. unfold pop_back.
  rewrite removelast_last. exists (sort_heap cmp h). split; [destruct h; reflexivity|].
  apply sort_heap_law; auto.
Qed.

Lemma Reset_inv t pushed : inv t pushed -> inv (Reset t) [].
Proof.
  intros [Hlim _]. split; [exact Hlim|]. simpl. left. split; [reflexivity|].
  rewrite zlen_nil. simpl. lia.
Qed.

Lemma peek_bottom_spec t pushed : inv t pushed -> 0 < Z.min (zlen pushed) (limit_ t) ->
  exists t' b, peek_bottom t = Ok (t', b) /\ inv t' pushed /\ limit_ t' = limit_ t /\
    exists K, top (limit_ t) pushed K /\ lowest b K.
Proof.
  intros Hi Hpos. pose proof (kept_top t pushed Hi) as Hk.
  pose proof (size_spec t pushed Hi) as Hs. unfold peek_bottom, empty.
  assert ((size t =? 0) = false) as -> by lia. clear Hs. simpl.
  destruct t as [l lim st]. unfold inv, kept in *. simpl in *. destruct Hi as [Hlim Hst].
  destruct st; simpl in *.
  - destruct Hst as [[Hp Hz]|[-> _]]; [|lia].
    destruct l as [|a l]; [apply Permutation_nil in Hp as ->; unfold zlen in Hpos; simpl in Hpos; lia|].
    simpl. rewrite drop_0. pose proof (bottom_to_front a l) as Hb.
    destruct (max_element_from a 0 1 l) as [i m]. destruct Hb as (b & r & Hb & Hbp & Hlow).
    simpl in Hb |- *. rewrite Hb. simpl. eexists _, b. split; [reflexivity|]. simpl.
    split_and!; auto; try lia.
    + rewrite Hbp. auto.
    + rewrite (zlen_perm _ _ Hbp). auto.
    + eauto.
    + exists (b :: r). split; [|auto]. apply (top_perm _ _ (a :: l)); [symmetry|]; auto.
  - destruct Hst as (Hp & Hz & b & r & -> & Hb). simpl. eexists _, b.
    split; [reflexivity|]. simpl. split_and!; eauto; lia.
  - destruct Hst as (Hl & h & x & -> & Hh & Ht & Hz). rewrite removelast_last in Hk.
    destruct h as [|f h]; [rewrite zlen_nil in Hz; lia|]. simpl. eexists _, f.
    split; [reflexivity|]. simpl. split_and!; auto; try lia.
    + exists (f :: h), x. auto.
    + exists (f :: h). split; [auto|]. split; [set_solver | apply is_heap_front; auto].
Qed.

(** *** Scripts *)

Lemma topn_step_spec t pushed o l : inv t pushed -> legal (length pushed) (limit_ t) (o :: l) ->
  zlen pushed + 1 < 2 ^ 64 ->
  exists t' r pushed', step t o = Ok (t', r) /\ inv t' pushed' /\
    spec_step o pushed (limit_ t) pushed' (limit_ t') r /\
    legal (length pushed') (limit_ t') l /\ zlen pushed' <= zlen pushed + 1.
Proof.
  intros Hi Hl Hz. pose proof (kept_top t pushed Hi) as Hk. pose proof (zlen_nonneg pushed).
  pose proof (Reset_inv t pushed Hi) as Hr.
  destruct o; cbn [step legal] in *.
  - destruct (PushInternal_spec t pushed v Hi Hz) as (t' & d & -> & Hi' & Hlim & Hd).
    exists t', (RDropped d), (pushed ++ [v]). simpl. rewrite length_app, Nat.add_comm, Hlim.
    split_and!; auto. rewrite zlen_app, zlen_cons, zlen_nil. lia.
  - destruct Hl as [Hpos Hl]. destruct (peek_bottom_spec t pushed Hi Hpos)
      as (t' & b & -> & Hi' & Hlim & Hb).
    exists t', (RBottom b), pushed. simpl. rewrite Hlim. split_and!; auto. lia.
  - destruct (Extract_spec t pushed Hi) as (k & He & Hp & Hs).
    change (Take t) with (out ← ExtractNondestructive t; Ok (Reset t, out)). rewrite He.
    exists (Reset t), (RSorted k), []. simpl. split_and!; auto.
    + apply (top_perm _ _ (kept t)); [symmetry|]; auto.
    + rewrite zlen_nil. lia.
  - change (TakeUnsorted t) with
      (out ← ExtractUnsortedNondestructive t; Ok (Reset t, out)). rewrite (ExtractUnsorted_spec t pushed Hi).
    exists (Reset t), (RUnsorted (kept t)), []. simpl. split_and!; auto. rewrite zlen_nil. lia.
  - destruct (Extract_spec t pushed Hi) as (k & He & Hp & Hs). unfold TakeNondestructive.
    rewrite He. exists t, (RSorted k), pushed. simpl. split_and!; auto; [|lia].
    apply (top_perm _ _ (kept t)); [symmetry|]; auto.
  - unfold TakeUnsortedNondestructive. rewrite (ExtractUnsorted_spec t pushed Hi).
    exists t, (RUnsorted (kept t)), pushed. simpl. split_and!; auto. lia.
  - rewrite (unsorted_range_spec t pushed Hi). exists t, (RUnsorted (kept t)), pushed.
    simpl. split_and!; auto. lia.
  - exists t, (RSize (size t)), pushed. simpl. split_and!; auto; [|lia].
    apply size_spec; auto.
  - exists (Reset t), RNone, []. simpl. split_and!; auto. rewrite zlen_nil. lia.
  - destruct Hl as [Hm Hl]. exists (Reset_limit t limit), RNone, []. simpl.
    split_and!; auto; [|rewrite zlen_nil; lia]. split; [simpl; lia|]. simpl. left.
    split; [reflexivity | rewrite zlen_nil; lia].
  - exists (move t).1, RNone, pushed. simpl. split_and!; auto; try lia; destruct t; apply Hi.
Qed.

Lemma topn_run_spec l : forall t pushed, inv t pushed -> legal (length pushed) (limit_ t) l ->
  zlen pushed + zlen l < 2 ^ 64 ->
  exists t' rs, run t l = Ok (t', rs) /\ spec_run pushed (limit_ t) l rs.
Proof.
  induction l as [|o l IH]; intros t pushed Hi Hl Hz.
  - exists t, []. split; [reflexivity | constructor].
  - rewrite zlen_cons in Hz. pose proof (zlen_nonneg l).
    destruct (topn_step_spec t pushed o l Hi Hl) as (t1 & r & p1 & Hs & Hi1 & Hsp & Hl1 & Hz1);
      [lia|].
    destruct (IH t1 p1 Hi1 Hl1) as (t2 & rs & Hr & Hsr); [lia|].
    exists t2, (r :: rs). cbn [run]. rewrite Hs. cbn. rewrite Hr. cbn.
    split; [reflexivity | econstructor; eauto].
Qed.

(** C21. Top-N refines "the limit greatest of the elements pushed": any script of pushes,
    peeks, both kinds of extraction, ranges, resets and moves on a new object, with
    peeks only on a non-empty one, runs without a failed check or an access out of
    range, and every result is the one of the abstract list: a push gives back nothing
    until the limit is exceeded and then the lowest of the kept elements and the new
    one; [peek_bottom] gives a lowest kept element; an extraction gives the greatest
    elements, sorted where it says so. *)
Theorem TopN_refines_greatest (limit : Z) (l : list op) :
  0 <= limit < 2 ^ 64 -> legal 0 limit l -> zlen l < 2 ^ 64 ->
  exists t rs, run (make limit) l = Ok (t, rs) /\ spec_run [] limit l rs.
Proof.
  intros Hlim Hl Hz. apply (topn_run_spec l (make limit) []); auto.
  - split; [auto|]. left. simpl. split; [reflexivity | rewrite zlen_nil; lia].
Qed.
End topn.

#[global] Instance Z_gtb_strict : StrictWeak Z.gtb.
Proof. split; intros; rewrite ?Z.gtb_ltb in *; lia. Qed.

(** The witness drops [2], then [1], and takes [5; 3]. *)
Definition script : list (op (A := Z)) :=
  [OPush 3; OPush 1; OPeek; OPush 5; OPush 2; OSize; ORange; OTakeUnsortedND; OTakeND; OPeek;
   OTake; OResetLimit 0; OPush 7; OTake; OMove].

Example TopN_example : run Z.gtb (make 2) script =
  Ok (mkTopN [] 0 unordered,
      [RDropped None; RDropped None; RBottom 1; RDropped (Some 1); RDropped (Some 2); RSize 2;
       RUnsorted [3; 5]; RUnsorted [3; 5]; RSorted [5; 3]; RBottom 3; RSorted [5; 3]; RNone;
       RDropped (Some 7); RSorted []; RNone]).
Proof. reflexivity. Qed.

Lemma TopN_refines_greatest_witness :
  exists t rs, run Z.gtb (make 2) script = Ok (t, rs) /\ spec_run Z.gtb [] 2 script rs.
Proof.
  apply TopN_refines_greatest; [apply _ | apply _ | lia | vm_compute; intuition congruence |].
  vm_compute. reflexivity.
Defined.
