(* ===== verification/Interval.v ===== *)
(** * Half-open intervals

    [util/gtl/interval.h]: the pair of a start and a limit, with the operations the
    interval sets are built from.  The points are integers; the operations only
    compare them.  An operation that changes the interval or writes to an out
    argument returns the new values next to its result.  The theorems say what each
    operation does to the set of points of an interval, the relation [pt]. *)
From Stdlib Require Import ZArith Lia Bool.
From stdpp Require Import base list.
From S2P Require Import Prelude.
Local Open Scope Z_scope.

Record Interval := mkI { start : Z; limit : Z }.

#[global] Instance Interval_eq_dec : EqDecision Interval.
Proof. solve_decision. Defined.

Definition default_Interval : Interval := mkI 0 0.
Definition set_start (a : Interval) (t : Z) : Interval := mkI t (limit a).
Definition set_limit (a : Interval) (t : Z) : Interval := mkI (start a) t.
Definition Set_ (a : Interval) (s l : Z) : Interval := set_limit (set_start a s) l.
Definition clear_interval (a : Interval) : Interval := default_Interval.

Definition empty (a : Interval) : bool := limit a <=? start a.
Definition length_ (a : Interval) : Z :=
  (if empty a then start a else limit a) - start a.
Definition contains (a : Interval) (t : Z) : bool := (start a <=? t) && (t <? limit a).
Definition contains_interval (a i : Interval) : bool :=
  negb (empty a) && negb (empty i) && (start a <=? start i) && (limit i <=? limit a).
Definition Intersects (a i : Interval) : bool :=
  negb (empty a) && negb (empty i) && (start a <? limit i) && (start i <? limit a).

(** The overload with an out argument; [None] is the null pointer. *)
Definition Intersects_out (a i : Interval) (out : option Interval) :
    bool * option Interval :=
  if negb (Intersects a i) then (false, out)
  else (true, match out with
              | Some _ => Some (mkI (Z.max (start a) (start i)) (Z.min (limit a) (limit i)))
              | None => None
              end).

Definition IntersectWith (a i : Interval) : Interval * bool :=
  if empty a then (a, false)
  else
    let modified := false in
    let '(a, modified) :=
      if start a <? start i then (set_start a (start i), true) else (a, modified) in
    if limit i <? limit a then (set_limit a (limit i), true) else (a, modified).

Definition SpanningUnion (a i : Interval) : Interval * bool :=
  if empty i then (a, false)
  else if empty a then (i, true)
  else
    let modified := false in
    let '(a, modified) :=
      if start i <? start a then (set_start a (start i), true) else (a, modified) in
    if limit a <? limit i then (set_limit a (limit i), true) else (a, modified).

(** The result and the two out arguments [lo] and [hi]. *)
Definition Difference (a i : Interval) : bool * Interval * Interval :=
  let lo := default_Interval in
  let hi := default_Interval in
  if empty a then (false, lo, hi)
  else if empty i then (false, a, hi)
  else if (start a <? limit i) && (start i <=? start a) && (limit i <? limit a) then
    (true, lo, mkI (limit i) (limit a))
  else if (start i <? limit a) && (limit a <=? limit i) && (start a <? start i) then
    (true, mkI (start a) (start i), hi)
  else if (start a <? start i) && (limit i <? limit a) then
    (true, mkI (start a) (start i), mkI (limit i) (limit a))
  else if (start i <=? start a) && (limit a <=? limit i) then (true, lo, hi)
  else (false, a, hi).

Definition interval_eq (a b : Interval) : bool :=
  let ae := empty a in
  let be := empty b in
  if ae && be then true
  else if xorb ae be then false
  else (start a =? start b) && (limit a =? limit b).

Definition interval_lt (a b : Interval) : bool :=
  (start a <? start b) || (negb (start b <? start a) && (limit b <? limit a)).

(** [Split]: the loop of at most [fuel] rounds; the [assert] stops a debug build when
    the callback does not advance. *)
Fixpoint Split_loop `{BuildMode} (fuel : nat) (next_si_limit_fn : Z -> Z) (lim si_start : Z)
    (sub_intervals : list Interval) : outcome (list Interval) :=
  if si_start <? lim then
    match fuel with
    | O => UB
    | S fuel =>
        let si_limit := Z.min (next_si_limit_fn si_start) lim in
        _ ← DCHECK (si_start <? si_limit);
        Split_loop fuel next_si_limit_fn lim si_limit
          (sub_intervals ++ [mkI si_start si_limit])
    end
  else Ok sub_intervals.

Definition Split `{BuildMode} (a : Interval) (next_si_limit_fn : Z -> Z) :
    outcome (list Interval) :=
  Split_loop (Z.to_nat (limit a - start a)) next_si_limit_fn (limit a) (start a) [].

(** ** The points of an interval *)

Definition pt (a : Interval) (x : Z) : Prop := start a <= x < limit a.

Ltac ival :=
  unfold contains, contains_interval, Intersects, empty in *;
  repeat case_test; bool_to_prop.

Lemma empty_false a : empty a = false <-> start a < limit a.
Proof. unfold empty. lia. Qed.

Lemma empty_true a : empty a = true <-> limit a <= start a.
Proof. unfold empty. lia. Qed.

Lemma contains_pt a x : contains a x = true <-> pt a x.
Proof. unfold contains, pt. lia. Qed.

Lemma Intersects_iff a i : start a < limit a -> start i < limit i ->
  Intersects a i = true <-> start a < limit i /\ start i < limit a.
Proof. unfold Intersects, empty. lia. Qed.

Lemma not_Intersects a i : start a < limit a -> start i < limit i ->
  Intersects a i = false -> limit a <= start i \/ limit i <= start a.
Proof. unfold Intersects, empty. lia. Qed.

(** What [Difference] stores in [lo] and [hi] when both intervals have points. *)
Lemma Difference_intersecting a i : Intersects a i = true ->
  exists lo hi, Difference a i = (true, lo, hi) /\
    (forall x, pt lo x <-> pt a x /\ x < start i) /\
    (forall x, pt hi x <-> pt a x /\ limit i <= x) /\
    (empty lo = false -> start a < start i /\ lo = mkI (start a) (start i)) /\
    (empty hi = false -> limit i < limit a /\ hi = mkI (limit i) (limit a)).
Proof.
  intros Hi. assert (Hb : start a < limit a /\ start i < limit i /\ start a < limit i /\
    start i < limit a) by (unfold Intersects, empty in Hi; lia).
  unfold Difference. destruct (empty a) eqn:Ha; [apply empty_true in Ha; lia|].
  destruct (empty i) eqn:Hei; [apply empty_true in Hei; lia|]. clear Hi Ha Hei.
  repeat case_match; try lia;
    (do 2 eexists; split; [reflexivity|]; unfold pt, empty; simpl;
     split_and!; [intros x; lia | intros x; lia | intros He | intros He];
     (split; [lia | reflexivity]) || lia).
Qed.

(** ** Splitting *)

(** The sub-intervals of [[s, lim)]: each starts where the last ended and ends where the
    callback says, the last one at [lim]. *)
Fixpoint tiles (f : Z -> Z) (s lim : Z) (l : list Interval) : Prop :=
  match l with
  | [] => lim <= s
  | i :: r => start i = s /\ s < limit i /\ limit i = Z.min (f s) lim /\ tiles f (limit i) lim r
  end.

Lemma Split_loop_tiles `{BuildMode} f lim : forall fuel s acc,
  (forall t, s <= t < lim -> t < f t) -> (Z.to_nat (lim - s) <= fuel)%nat ->
  exists l, Split_loop fuel f lim s acc = Ok (acc ++ l) /\ tiles f s lim l.
Proof.
  induction fuel as [|fuel IH]; intros s acc Hf Hfuel.
  - exists []. rewrite app_nil_r. simpl. destruct (s <? lim) eqn:E; [lia|]. split; [auto|lia].
  - cbn [Split_loop]. destruct (s <? lim) eqn:E.
    + assert (Hs : s < f s) by (apply Hf; lia).
      assert ((s <? Z.min (f s) lim) = true) as -> by lia. rewrite DCHECK_true, bind_Ok.
      destruct (IH (Z.min (f s) lim) (acc ++ [mkI s (Z.min (f s) lim)])) as (l & -> & Hl).
      { intros t Ht. apply Hf. lia. }
      { lia. }
      exists (mkI s (Z.min (f s) lim) :: l). rewrite <- app_assoc. split; [reflexivity|].
      simpl. split_and!; auto. lia.
    + exists []. rewrite app_nil_r. split; [auto|]. simpl. lia.
Qed.

Lemma tiles_points f lim l : forall s x, tiles f s lim l ->
  Exists (fun a => pt a x) l <-> s <= x < lim.
Proof.
  induction l as [|i l IH]; intros s x; simpl.
  - rewrite Exists_nil. lia.
  - intros (Hs & Hlt & He & Ht). rewrite Exists_cons, (IH _ x Ht). unfold pt. lia.
Qed.

(** C0. [Split] ends for every callback that returns more than it is given, in debug and
    optimised builds, and cuts the interval into consecutive pieces that end where the
    callback says and cover exactly the points of the interval. *)
Theorem Split_tiles `{BuildMode} (a : Interval) (next_si_limit_fn : Z -> Z) :
  (forall t, pt a t -> t < next_si_limit_fn t) ->
  exists l, Split a next_si_limit_fn = Ok l /\
    tiles next_si_limit_fn (start a) (limit a) l /\
    forall x, Exists (fun i => pt i x) l <-> pt a x.
Proof.
  intros Hf. unfold Split.
  destruct (Split_loop_tiles next_si_limit_fn (limit a) (Z.to_nat (limit a - start a))
    (start a) []) as (l & Hs & Ht); auto.
  exists l. split_and!; auto. intros x. apply (tiles_points _ _ _ _ x Ht).
Qed.

Lemma Split_tiles_witness :
  Split (H := debug_build) (mkI 0 25) (fun s => s + 10) =
    Ok [mkI 0 10; mkI 10 20; mkI 20 25] /\
  exists l, Split (H := debug_build) (mkI 0 25) (fun s => s + 10) = Ok l /\
    tiles (fun s => s + 10) 0 25 l /\
    forall x, Exists (fun i => pt i x) l <-> pt (mkI 0 25) x.
Proof.
  split; [reflexivity|].
  apply (@Split_tiles debug_build (mkI 0 25) (fun s => s + 10)). intros t _. lia.
Defined.
