(* ===== verification/IntervalSet.v ===== *)
(** * Interval sets: the container and the operations

    [util/gtl/interval_set.h].  The intervals of a set are kept in an
    [absl::btree_set] ordered by [IntervalLess].  That container is not part of the
    repository: [BtreeSet] is the interface the code uses, over any type [B] of
    trees, and [BtreeSetLaws] states its documented behaviour in terms of [elems],
    the elements in the order of the iterators.  An iterator is the position of its
    element, [end()] the number of elements; reading through an iterator at the end is
    undefined behaviour.  A loop takes a bound on its number of rounds as fuel and has
    undefined behaviour beyond it, so that a theorem about an [Ok] result says that
    the loop ends.  [SortedListSet] implements the interface with sorted lists. *)
From Stdlib Require Import ZArith Lia Bool Sorting.Sorted.
From stdpp Require Import base list.
From S2P Require Import Prelude.
From S2P Require Import Interval.
Local Open Scope Z_scope.

(** ** The comparator, with its two overloads for points *)

Definition IntervalLess (a b : Interval) : bool :=
  (start a <? start b) || ((start a =? start b) && (limit b <? limit a)).
Definition IntervalLess_pv (a : Z) (b : Interval) : bool := a <? start b.
Definition IntervalLess_vp (a : Interval) (b : Z) : bool :=
  (start a <? b) || ((start a =? b) && (b <? limit a)).

(** The key of a lookup: an interval, or a point that stands for [[a, a)]. *)
Inductive Key := KInterval (i : Interval) | KPoint (t : Z).

Definition less_ke (k : Key) (b : Interval) : bool :=
  match k with KInterval a => IntervalLess a b | KPoint t => IntervalLess_pv t b end.
Definition less_ek (a : Interval) (k : Key) : bool :=
  match k with KInterval b => IntervalLess a b | KPoint t => IntervalLess_vp a t end.

(** ** The interface of the container *)

(** The position of the first element with [p], or the length. *)
Fixpoint first_index (p : Interval -> bool) (l : list Interval) : nat :=
  match l with
  | [] => 0
  | a :: r => if p a then 0 else S (first_index p r)
  end.

(** [p] is false up to some element and true from there on. *)
Definition partitioned (p : Interval -> bool) (l : list Interval) : Prop :=
  exists l1 l2, l = l1 ++ l2 /\ Forall (fun a => p a = false) l1 /\
    Forall (fun a => p a = true) l2.

Definition ordered (l : list Interval) : Prop :=
  StronglySorted (fun a b => IntervalLess a b = true) l.

(** Insertion of an element in its place, unless there is an equivalent one. *)
Definition ordered_insert (l : list Interval) (x : Interval) : list Interval * nat * bool :=
  let i := first_index (fun b => negb (IntervalLess b x)) l in
  match l !! i with
  | Some b => if negb (IntervalLess x b) then (l, i, false)
              else (take i l ++ x :: drop i l, i, true)
  | None => (take i l ++ x :: drop i l, i, true)
  end.

Class BtreeSet (B : Type) := {
  elems : B -> list Interval;
  bt_empty : B;
  bt_upper_bound : B -> Key -> nat;
  bt_lower_bound : B -> Key -> nat;
  bt_emplace : B -> Interval -> B * nat * bool;
  bt_insert_hint : B -> nat -> Interval -> B * nat;
  bt_insert_range : B -> list Interval -> B;
  bt_erase : B -> nat -> B * nat;
  bt_erase_range : B -> nat -> nat -> B * nat;
  bt_clear : B -> B
}.

Class BtreeSetLaws (B : Type) `{BtreeSet B} : Prop := {
  elems_empty : elems bt_empty = [];
  upper_bound_law s k : partitioned (less_ke k) (elems s) ->
    bt_upper_bound s k = first_index (less_ke k) (elems s);
  lower_bound_law s k : partitioned (fun a => negb (less_ek a k)) (elems s) ->
    bt_lower_bound s k = first_index (fun a => negb (less_ek a k)) (elems s);
  emplace_law s x s' i b : ordered (elems s) -> bt_emplace s x = (s', i, b) ->
    ordered_insert (elems s) x = (elems s', i, b);
  insert_hint_law s h x s' i : ordered (elems s) -> (h <= length (elems s))%nat ->
    bt_insert_hint s h x = (s', i) ->
    (ordered_insert (elems s) x).1 = (elems s', i);
  insert_range_law s l : ordered (elems s) ->
    elems (bt_insert_range s l) =
    fold_left (fun l x => (ordered_insert l x).1.1) l (elems s);
  erase_law s i s' j : (i < length (elems s))%nat -> bt_erase s i = (s', j) ->
    elems s' = delete i (elems s) /\ j = i;
  erase_range_law s i k s' j : (i <= k <= length (elems s))%nat ->
    bt_erase_range s i k = (s', j) ->
    elems s' = take i (elems s) ++ drop k (elems s) /\ j = i;
  clear_law s : elems (bt_clear s) = []
}.

Section ops.
Context {B : Type} `{HB : BtreeSet B} `{HM : BuildMode}.

Definition size (s : B) : nat := length (elems s).
Definition is_end (s : B) (it : nat) : bool := Nat.eqb it (size s).
Definition deref (s : B) (it : nat) : outcome Interval :=
  match elems s !! it with Some a => Ok a | None => UB end.

(** Iterator steps; stepping before the beginning or past the end is undefined. *)
Definition iter_prev (it : nat) : outcome nat :=
  match it with O => UB | S k => Ok k end.
Definition iter_next (s : B) (it : nat) : outcome nat :=
  if is_end s it then UB else Ok (S it).
Definition rbegin (s : B) : outcome Interval := j ← iter_prev (size s); deref s j.

Definition set_is_empty (s : B) : bool := Nat.eqb (size s) 0.
Definition Clear (s : B) : B := bt_clear s.
Definition IsEmpty (a : Interval) : bool := empty a.

Definition SpanningInterval (s : B) : outcome Interval :=
  let result := default_Interval in
  if negb (set_is_empty s) then
    b ← deref s 0;
    let result := set_start result (start b) in
    e ← rbegin s;
    Ok (set_limit result (limit e))
  else Ok result.

Definition ReplaceInterval (s : B) (it : nat) (interval : Interval) : outcome (B * nat) :=
  if decide (it < size s)%nat then
    let '(s, it) := bt_erase s it in
    Ok (bt_insert_hint s it interval)
  else UB.

Definition erase (s : B) (pos : nat) : outcome (B * nat) :=
  if decide (pos < size s)%nat then Ok (bt_erase s pos) else UB.

Fixpoint Compact_loop (fuel : nat) (should_continue : Interval -> bool) (s : B)
    (prev it : nat) : outcome B :=
  if is_end s it then Ok s
  else
    x ← deref s it;
    if should_continue x then
      match fuel with
      | O => UB
      | S fuel =>
          p ← deref s prev;
          if start x <=? limit p then
            '(s, prev, it) ←
              (if limit p <? limit x then
                 '(s, prev) ← ReplaceInterval s prev (mkI (start p) (limit x));
                 it ← iter_next s prev;
                 Ok (s, prev, it)
               else Ok (s, prev, it));
            '(s, it) ← erase s it;
            prev ← iter_prev it;
            Compact_loop fuel should_continue s prev it
          else
            let prev := it in
            it ← iter_next s it;
            Compact_loop fuel should_continue s prev it
      end
    else Ok s.

Definition Compact (s : B) (begin_ : nat) (should_continue : Interval -> bool) : outcome B :=
  if is_end s begin_ then Ok s
  else it ← iter_next s begin_; Compact_loop (size s) should_continue s begin_ it.

Definition AddImpl (s : B) (a : Interval) : outcome B :=
  if IsEmpty a then Ok s
  else
    let '(s, it, inserted) := bt_emplace s a in
    if negb inserted then Ok s
    else
      x ← deref s it;
      let lim := limit x in
      it ← (if negb (Nat.eqb it 0) then iter_prev it else Ok it);
      let end_ := bt_upper_bound s (KPoint lim) in
      if is_end s end_ then Compact s it (fun _ => true)
      else
        e ← deref s end_;
        let actual_end := start e in
        Compact s it (fun current => IntervalLess_vp current actual_end).

Definition Add (s : B) (a : Interval) : outcome B := AddImpl s a.

Definition InitImpl (s : B) (a : Interval) : B :=
  if IsEmpty a then s else (bt_emplace s a).1.1.
Definition IntervalSet_of (a : Interval) : B := InitImpl bt_empty a.

(** [assign] and the constructor from an initializer list. *)
Fixpoint Add_list (s : B) (l : list Interval) : outcome B :=
  match l with [] => Ok s | a :: r => s ← Add s a; Add_list s r end.
Definition assign (s : B) (l : list Interval) : outcome B := Add_list (Clear s) l.
Definition IntervalSet_il (l : list Interval) : outcome B := assign bt_empty l.

(** [Add] of a set other than [*this]. *)
Definition Add_set (s other : B) : outcome B := Add_list s (elems other).

Definition Contains (s : B) (value : Z) : outcome bool :=
  let it := bt_upper_bound s (KPoint value) in
  if Nat.eqb it 0 then Ok false
  else it ← iter_prev it; a ← deref s it; Ok (contains a value).

Definition Contains_interval (s : B) (interval : Interval) : outcome bool :=
  let it := bt_upper_bound s (KInterval interval) in
  if Nat.eqb it 0 then Ok false
  else it ← iter_prev it; a ← deref s it; Ok (contains_interval a interval).

Fixpoint Contains_all (s : B) (l : list Interval) : outcome bool :=
  match l with
  | [] => Ok true
  | i :: r => b ← Contains_interval s i; if negb (b : bool) then Ok false else Contains_all s r
  end.

(** A chain of [||] whose operands may read through iterators. *)
Definition or_else (a b : outcome bool) : outcome bool := x ← a; if (x : bool) then Ok true else b.

Definition Contains_set (s other : B) : outcome bool :=
  c ← or_else (Ok (set_is_empty s))
        (or_else (Ok (set_is_empty other))
          (or_else (a ← deref s 0; b ← deref other 0; Ok (start b <? start a))
                   (a ← rbegin s; b ← rbegin other; Ok (limit a <? limit b))));
  if (c : bool) then Ok false else Contains_all s (elems other).

Definition Find (s : B) (value : Z) : outcome nat :=
  let it := bt_upper_bound s (KPoint value) in
  if Nat.eqb it 0 then Ok (size s)
  else it ← iter_prev it; a ← deref s it;
       if contains a value then Ok it else Ok (size s).

Definition Find_interval (s : B) (probe : Interval) : outcome nat :=
  let it := bt_upper_bound s (KInterval probe) in
  if Nat.eqb it 0 then Ok (size s)
  else it ← iter_prev it; a ← deref s it;
       if contains_interval a probe then Ok it else Ok (size s).

Definition LowerBound (s : B) (value : Z) : outcome nat :=
  let it := bt_lower_bound s (KPoint value) in
  if Nat.eqb it 0 then Ok it
  else it ← iter_prev it; a ← deref s it;
       if contains a value then Ok it else iter_next s it.

Definition UpperBound (s : B) (value : Z) : nat := bt_upper_bound s (KPoint value).

Definition IsDisjoint (s : B) (interval : Interval) : outcome bool :=
  if empty interval then Ok true
  else
    let it := bt_upper_bound s (KPoint (start interval)) in
    c ← (if negb (is_end s it) then a ← deref s it; Ok (start a <? limit interval)
         else Ok false);
    if (c : bool) then Ok false
    else if Nat.eqb it 0 then Ok true
    else it ← iter_prev it; a ← deref s it; Ok (limit a <=? start interval).

Definition IntersectsInterval (s : B) (interval : Interval) : outcome bool :=
  b ← IsDisjoint s interval; Ok (negb b).

Definition Union (s other : B) : outcome B :=
  let s := bt_insert_range s (elems other) in
  Compact s 0 (fun _ => true).

Definition FindIntersectionCandidate (s : B) (interval : Interval) : outcome nat :=
  let mine := bt_upper_bound s (KInterval interval) in
  if negb (Nat.eqb mine 0) then iter_prev mine else Ok mine.

Definition FindIntersectionCandidate_set (s other : B) : outcome nat :=
  a ← deref other 0; FindIntersectionCandidate s a.

(** The inner loops: steps over the elements that [p] holds of. *)
Fixpoint skip_while (fuel : nat) (s : B) (it : nat) (p : Interval -> bool) : outcome nat :=
  if is_end s it then Ok it
  else
    a ← deref s it;
    if p a then
      match fuel with O => UB | S fuel => skip_while fuel s (S it) p end
    else Ok it.

(** The result, the changed [x] and the new [mine] and [theirs]. *)
Fixpoint FindNextIntersectingPairImpl (fuel : nat) (x y : B) (mine theirs : nat)
    (on_hole : B -> nat -> nat -> B * nat) : outcome (bool * B * nat * nat) :=
  if is_end x mine || is_end y theirs then Ok (false, x, mine, theirs)
  else
    a ← deref x mine;
    b ← deref y theirs;
    if Intersects a b then Ok (true, x, mine, theirs)
    else
      match fuel with
      | O => UB
      | S fuel =>
          let erase_first := mine in
          mine ← skip_while (size x) x mine (fun a => limit a <=? start b);
          let '(x, mine) := on_hole x erase_first mine in
          if is_end x mine then Ok (false, x, mine, theirs)
          else
            a ← deref x mine;
            theirs ← skip_while (size y) y theirs (fun b => limit b <=? start a);
            if is_end y theirs then
              let '(x, mine) := on_hole x mine (size x) in
              Ok (false, x, mine, theirs)
            else FindNextIntersectingPairImpl fuel x y mine theirs on_hole
      end.

Definition keep_holes (x : B) (from to : nat) : B * nat := (x, to).
Definition erase_holes (x : B) (from to : nat) : B * nat := bt_erase_range x from to.

Definition pair_fuel (x y : B) : nat := size x + size y.

Definition FindNextIntersectingPair (x y : B) (mine theirs : nat) :
    outcome (bool * nat * nat) :=
  '(b, _, mine, theirs) ←
    FindNextIntersectingPairImpl (pair_fuel x y) x y mine theirs keep_holes;
  Ok (b, mine, theirs).

Definition FindNextIntersectingPairAndEraseHoles (x y : B) (mine theirs : nat) :
    outcome (bool * B * nat * nat) :=
  FindNextIntersectingPairImpl (pair_fuel x y) x y mine theirs erase_holes.

(** The test that the spanning intervals do not intersect. *)
Definition spans_apart (s other : B) : outcome bool :=
  or_else (Ok (set_is_empty s))
    (or_else (Ok (set_is_empty other))
      (or_else (a ← deref s 0; b ← rbegin other; Ok (limit b <=? start a))
               (a ← rbegin s; b ← deref other 0; Ok (limit a <=? start b)))).

Fixpoint Valid_loop (prev : option Interval) (l : list Interval) : bool :=
  match l with
  | [] => true
  | a :: r =>
      if limit a <=? start a then false
      else if match prev with Some p => start a <=? limit p | None => false end then false
      else Valid_loop (Some a) r
  end.
Definition Valid (s : B) : bool := Valid_loop None (elems s).

(** The inner loop of [Intersection]: [i] has been taken out of the set. *)
Fixpoint insert_intersections (fuel : nat) (s other : B) (i : Interval) (mine theirs : nat) :
    outcome (B * nat * nat) :=
  if is_end other theirs then Ok (s, mine, theirs)
  else
    b ← deref other theirs;
    match Intersects_out i b (Some default_Interval) with
    | (true, Some intersection) =>
        match fuel with
        | O => UB
        | S fuel =>
            let '(s, mine) := bt_insert_hint s mine intersection in
            insert_intersections fuel s other i mine (S theirs)
        end
    | _ => Ok (s, mine, theirs)
    end.

Fixpoint Intersection_loop (fuel : nat) (s other : B) (mine theirs : nat) : outcome B :=
  '(found, s, mine, theirs) ← FindNextIntersectingPairAndEraseHoles s other mine theirs;
  if (found : bool) then
    match fuel with
    | O => UB
    | S fuel =>
        i ← deref s mine;
        '(s, _) ← erase s mine;
        let mine := size s in
        '(s, mine, theirs) ← insert_intersections (size other) s other i mine theirs;
        _ ← DCHECK (negb (is_end s mine));
        theirs ← iter_prev theirs;
        mine ← iter_next s mine;
        Intersection_loop fuel s other mine theirs
    end
  else Ok s.

(** [Intersection] with a set other than [*this]. *)
Definition Intersection_other (s other : B) : outcome B :=
  apart ← spans_apart s other;
  if (apart : bool) then Ok (bt_clear s)
  else
    mine ← FindIntersectionCandidate_set s other;
    let '(s, mine) := bt_erase_range s 0 mine in
    theirs ← FindIntersectionCandidate_set other s;
    s ← Intersection_loop (size s) s other mine theirs;
    _ ← DCHECK (Valid s);
    Ok s.

Definition Intersection_range (s : B) (st lim : Z) : outcome B :=
  other ← IntervalSet_il [mkI st lim];
  Intersection_other s other.

Definition Intersects_set (s other : B) : outcome bool :=
  apart ← spans_apart s other;
  if (apart : bool) then Ok false
  else
    mine ← FindIntersectionCandidate_set s other;
    if is_end s mine then Ok false
    else
      a ← deref s mine;
      theirs ← FindIntersectionCandidate other a;
      '(b, _, _) ← FindNextIntersectingPair s other mine theirs;
      Ok b.

(** The loop that erases all fully covered intervals. *)
Fixpoint erase_covered (fuel : nat) (s : B) (it : nat) (lim : Z) : outcome (B * nat) :=
  if is_end s it then Ok (s, it)
  else
    a ← deref s it;
    if limit a <=? lim then
      match fuel with
      | O => UB
      | S fuel => '(s, it) ← erase s it; erase_covered fuel s it lim
      end
    else Ok (s, it).

(** The three steps of [Difference] with one interval.  The first trims the candidate
    [it]; [true] says that the function returns there. *)
Definition Difference_first (s : B) (it : nat) (interval : Interval) :
    outcome (bool * B * nat) :=
  a ← deref s it;
  if start a <? start interval then
    let '(found, lo, hi) := Difference a interval in
    '(done, s, it) ←
      (if (found : bool) then
         _ ← DCHECK (negb (empty lo));
         '(s, it) ← ReplaceInterval s it lo;
         if negb (empty hi) then
           let '(s, it) := bt_insert_hint s it hi in
           Ok (true, s, it)
         else Ok (false, s, it)
       else Ok (false, s, it));
    if (done : bool) then Ok (true, s, it)
    else it ← iter_next s it; Ok (false, s, it)
  else Ok (false, s, it).

(** Erase the covered intervals and shorten the partially covered last one. *)
Definition Difference_rest (s : B) (it : nat) (interval : Interval) : outcome B :=
  '(s, it) ← erase_covered (size s) s it (limit interval);
  if is_end s it then Ok s
  else
    a ← deref s it;
    if start a <? limit interval then
      '(s, _) ← ReplaceInterval s it (mkI (limit interval) (limit a));
      Ok s
    else Ok s.

(** [Difference] with one interval; [alias] is the position of the element that the
    argument is a reference to, if it is one of the set's own.  Going on with a
    reference to an element other than the candidate counts as undefined, since the
    elements are about to move. *)
Definition Difference_interval (s : B) (interval : Interval) (alias : option nat) :
    outcome B :=
  span ← SpanningInterval s;
  if negb (Intersects span interval) then Ok s
  else
    it ← FindIntersectionCandidate s interval;
    if is_end s it then Ok s
    else if decide (alias = Some it) then '(s, _) ← erase s it; Ok s
    else if decide (is_Some alias) then UB
    else
      '(done, s, it) ← Difference_first s it interval;
      if (done : bool) then Ok s else Difference_rest s it interval.

Fixpoint Difference_loop (fuel : nat) (s other : B) (mine theirs : nat) : outcome B :=
  '(found, mine, theirs) ← FindNextIntersectingPair s other mine theirs;
  if (found : bool) then
    match fuel with
    | O => UB
    | S fuel =>
        a ← deref s mine;
        b ← deref other theirs;
        let '(_, lo, hi) := Difference a b in
        if negb (empty hi) then
          '(s, mine) ← ReplaceInterval s mine hi;
          let '(s, mine) :=
            if negb (empty lo) then bt_insert_hint s mine lo else (s, mine) in
          Difference_loop fuel s other mine theirs
        else if negb (empty lo) then
          '(s, mine) ← ReplaceInterval s mine lo;
          mine ← iter_next s mine;
          Difference_loop fuel s other mine theirs
        else
          '(s, mine) ← erase s mine;
          Difference_loop fuel s other mine theirs
    end
  else Ok s.

(** [Difference] with a set other than [*this]. *)
Definition Difference_other (s other : B) : outcome B :=
  apart ← spans_apart s other;
  if (apart : bool) then Ok s
  else
    mine ← FindIntersectionCandidate_set s other;
    if is_end s mine then Ok s
    else
      theirs ← FindIntersectionCandidate_set other s;
      s ← Difference_loop (size s * size other) s other mine theirs;
      _ ← DCHECK (Valid s);
      Ok s.

(** The result is the content swapped into [*this]. *)
Definition Complement (s : B) (st lim : Z) : outcome B :=
  let span := IntervalSet_of (mkI st lim) in
  Difference_other span s.

Definition set_eq (a b : B) : bool :=
  Nat.eqb (size a) (size b) &&
  forallb (fun '(x, y) => (start x =? start y) && (limit x =? limit y))
    (combine (elems a) (elems b)).

End ops.

(** ** The container as a sorted list *)

#[export] Instance SortedListSet : BtreeSet (list Interval) := {
  elems l := l;
  bt_empty := [];
  bt_upper_bound l k := first_index (less_ke k) l;
  bt_lower_bound l k := first_index (fun a => negb (less_ek a k)) l;
  bt_emplace := ordered_insert;
  bt_insert_hint l h x := (ordered_insert l x).1;
  bt_insert_range l r := fold_left (fun l x => (ordered_insert l x).1.1) r l;
  bt_erase l i := (delete i l, i);
  bt_erase_range l i k := (take i l ++ drop k l, i);
  bt_clear l := []
}.

#[export] Instance SortedListSet_laws : BtreeSetLaws (list Interval).
Proof. split; simpl; intros; simplify_eq; auto. Qed.
