(* ===== verification/IntervalSetProps.v ===== *)
(** * Interval sets: lists of intervals, the container's operations and compaction

    [wf] is the invariant of the header of [interval_set.h]: the intervals have
    points, are sorted and neither touch nor overlap.  [mem] is the set of points of a
    list of intervals.  The operations of the container are described on a list split
    at the position of the iterator, and [Compact] by the list function [merge_run]. *)
From Stdlib Require Import ZArith Lia Bool Sorting.Sorted.
From stdpp Require Import base sets list.
From S2P Require Import Prelude.
From S2P Require Import Interval.
From S2P Require Import IntervalSet.
Local Open Scope Z_scope.

Create HintDb mem.
Create Rewrite HintDb mem.

(** ** Well-formed lists of intervals and their points *)

Fixpoint wf (l : list Interval) : Prop :=
  match l with
  | [] => True
  | a :: r => start a < limit a /\ Forall (fun b => limit a < start b) r /\ wf r
  end.

Definition mem (l : list Interval) (x : Z) : Prop := Exists (fun a => pt a x) l.

Lemma mem_nil x : mem [] x <-> False.
Proof. apply Exists_nil. Qed.
Lemma mem_cons a l x : mem (a :: l) x <-> pt a x \/ mem l x.
Proof. apply Exists_cons. Qed.
Lemma mem_app l k x : mem (l ++ k) x <-> mem l x \/ mem k x.
Proof. apply Exists_app. Qed.
#[export] Hint Rewrite mem_nil mem_cons mem_app : mem.

Lemma mem_elem l x : mem l x <-> exists a, a ∈ l /\ pt a x.
Proof. apply Exists_exists. Qed.

Definition has_points (a : Interval) : Prop := start a < limit a.
Definition before (l k : list Interval) : Prop :=
  Forall (fun a => Forall (fun b => limit a < start b) k) l.

Lemma wf_app l k : wf (l ++ k) <-> wf l /\ wf k /\ before l k.
Proof.
  unfold before. induction l as [|a l IH]; simpl.
  - split; [intros; auto | intros (_ & ? & _); auto].
  - rewrite IH, Forall_app, Forall_cons. tauto.
Qed.

Lemma wf_cons a l : wf (a :: l) <-> has_points a /\ before [a] l /\ wf l.
Proof.
  unfold before. simpl. rewrite Forall_singleton. reflexivity.
Qed.

Lemma before_app_l l1 l2 k : before (l1 ++ l2) k <-> before l1 k /\ before l2 k.
Proof. apply Forall_app. Qed.

Lemma before_app_r l k1 k2 : before l (k1 ++ k2) <-> before l k1 /\ before l k2.
Proof.
  unfold before. rewrite <- Forall_and. apply Forall_iff. intros a. apply Forall_app.
Qed.

Lemma before_cons_l a l k : before (a :: l) k <-> before [a] k /\ before l k.
Proof. apply (before_app_l [a] l k). Qed.

Lemma before_cons_r l a k : before l (a :: k) <-> before l [a] /\ before l k.
Proof. apply (before_app_r l [a] k). Qed.

Lemma before_one a b : before [a] [b] <-> limit a < start b.
Proof. unfold before. rewrite !Forall_singleton. reflexivity. Qed.

Lemma before_nil_l k : before [] k.
Proof. constructor. Qed.
Lemma before_nil_r l : before l [].
Proof. unfold before. induction l; constructor; auto. Qed.
#[export] Hint Resolve before_nil_l before_nil_r : mem.

Lemma before_elem l k a b : before l k -> a ∈ l -> b ∈ k -> limit a < start b.
Proof.
  unfold before. rewrite Forall_forall. intros Hl Ha Hb.
  specialize (Hl a Ha). rewrite Forall_forall in Hl. auto.
Qed.

Lemma before_intro l k :
  (forall a b, a ∈ l -> b ∈ k -> limit a < start b) -> before l k.
Proof. intros Hl. unfold before. apply Forall_forall. intros a Ha.
  apply Forall_forall. auto. Qed.

Lemma wf_points l a : wf l -> a ∈ l -> start a < limit a.
Proof.
  induction l as [|b l IH]; [set_solver|]. simpl. intros (? & ? & ?).
  rewrite elem_of_cons. intros [->|]; auto.
Qed.

(** Every element of [r] lies within an element of [m]. *)
Definition within (r m : list Interval) : Prop :=
  Forall (fun a => Exists (fun b => start b <= start a /\ limit a <= limit b) m) r.

Lemma within_elem r m a : within r m -> a ∈ r ->
  exists b, b ∈ m /\ start b <= start a /\ limit a <= limit b.
Proof.
  unfold within. rewrite Forall_forall. intros Hr Ha.
  apply Exists_exists. auto.
Qed.

Lemma before_within_r l m r : before l m -> within r m -> before l r.
Proof.
  intros Hl Hr. apply before_intro. intros a b Ha Hb.
  destruct (within_elem r m b Hr Hb) as (c & Hc & ? & ?).
  pose proof (before_elem _ _ a c Hl Ha Hc). lia.
Qed.

Lemma before_within_l l m r : before m l -> within r m -> before r l.
Proof.
  intros Hl Hr. apply before_intro. intros a b Ha Hb.
  destruct (within_elem r m a Hr Ha) as (c & Hc & ? & ?).
  pose proof (before_elem _ _ c b Hl Hc Hb). lia.
Qed.

Lemma within_refl m : within m m.
Proof.
  unfold within. apply Forall_forall. intros a Ha. apply Exists_exists. exists a. lia || auto with lia.
Qed.

Lemma within_app r m k : within r m -> within r (k ++ m).
Proof. unfold within. intros Hr. eapply Forall_impl; [exact Hr|]. intros a Ha.
  simpl. apply Exists_app. auto. Qed.

Lemma within_app_l r m k : within r m -> within r (m ++ k).
Proof. unfold within. intros Hr. eapply Forall_impl; [exact Hr|]. intros a Ha.
  simpl. apply Exists_app. auto. Qed.

Lemma within_both r1 r2 m : within r1 m -> within r2 m -> within (r1 ++ r2) m.
Proof. intros. unfold within. apply Forall_app. auto. Qed.

(** ** Order *)

Definition lt_all (l : list Interval) (x : Interval) : Prop :=
  Forall (fun b => IntervalLess b x = true) l.
Definition gt_all (x : Interval) (l : list Interval) : Prop :=
  Forall (fun b => IntervalLess x b = true) l.

Lemma IntervalLess_trans a b c :
  IntervalLess a b = true -> IntervalLess b c = true -> IntervalLess a c = true.
Proof. unfold IntervalLess. lia. Qed.

Lemma IntervalLess_irrefl a : IntervalLess a a = false.
Proof. unfold IntervalLess. lia. Qed.

Lemma IntervalLess_start a b : start a < start b -> IntervalLess a b = true.
Proof. unfold IntervalLess. lia. Qed.

Lemma IntervalLess_equiv a b :
  IntervalLess a b = false -> IntervalLess b a = false -> a = b.
Proof. destruct a, b. unfold IntervalLess. simpl. intros. f_equal; lia. Qed.

Lemma ordered_app l k : ordered (l ++ k) <->
  ordered l /\ ordered k /\ Forall (fun a => gt_all a k) l.
Proof.
  unfold ordered, gt_all. induction l as [|a l IH]; simpl.
  - split; [intros; repeat split; auto; constructor | intros (_ & ? & _); auto].
  - split.
    + intros Hs. inversion_clear Hs as [|? ? Hl Ha]. apply IH in Hl as (? & ? & ?).
      apply Forall_app in Ha as [? ?].
      split_and!; [constructor; auto | auto | constructor; auto].
    + intros (Hs & Hk & Ha). inversion_clear Hs. inversion_clear Ha.
      constructor; [apply IH; auto | apply Forall_app; auto].
Qed.

Lemma ordered_cons a l : ordered (a :: l) <-> gt_all a l /\ ordered l.
Proof.
  unfold ordered, gt_all. split; [intros Hs; inversion_clear Hs; auto | intros [? ?]].
  constructor; auto.
Qed.

Lemma wf_before_lt l x : before l [x] -> Forall has_points l -> lt_all l x.
Proof.
  intros Hl Hp. unfold lt_all. rewrite Forall_forall in *. intros b Hb.
  pose proof (before_elem _ _ b x Hl Hb ltac:(set_solver)).
  pose proof (Hp b Hb). unfold has_points in *. apply IntervalLess_start. lia.
Qed.

Lemma wf_Forall l : wf l -> Forall has_points l.
Proof. intros Hl. apply Forall_forall. intros a. apply wf_points. auto. Qed.

Lemma before_gt a l : has_points a -> before [a] l -> gt_all a l.
Proof.
  intros Ha Hb. apply Forall_forall. intros b Hin.
  pose proof (before_elem _ _ a b Hb ltac:(set_solver) Hin).
  unfold has_points in Ha. apply IntervalLess_start. lia.
Qed.

Lemma wf_ordered l : wf l -> ordered l.
Proof.
  induction l as [|a l IH]; [constructor|]. rewrite wf_cons, ordered_cons.
  intros (? & ? & ?). split; [apply before_gt|]; auto.
Qed.
#[export] Hint Resolve wf_ordered : mem.

Lemma first_index_app p l1 l2 : Forall (fun a => p a = false) l1 ->
  Forall (fun a => p a = true) l2 -> first_index p (l1 ++ l2) = length l1.
Proof.
  induction 1 as [|a l1 Ha H1 IH]; simpl.
  - intros []; simpl; auto. rewrite H. reflexivity.
  - rewrite Ha. auto.
Qed.

(** A test that stays true along the order splits an ordered list. *)
Lemma ordered_partitioned p l : ordered l ->
  (forall a b, IntervalLess a b = true -> p a = true -> p b = true) -> partitioned p l.
Proof.
  intros Ho Hp. induction l as [|a l IH].
  - exists [], []. auto.
  - apply ordered_cons in Ho as [Ha Ho]. destruct (p a) eqn:Hpa.
    + exists [], (a :: l). split_and!; auto. constructor; auto.
      eapply Forall_impl; [exact Ha|]. simpl. eauto.
    + destruct (IH Ho) as (l1 & l2 & -> & ? & ?). exists (a :: l1), l2.
      split_and!; auto.
Qed.

Lemma less_ke_mono k a b : IntervalLess a b = true -> less_ke k a = true -> less_ke k b = true.
Proof.
  destruct k as [i|t]; simpl; unfold IntervalLess_pv, IntervalLess; lia.
Qed.

Lemma less_ek_mono k a b : IntervalLess a b = true -> negb (less_ek a k) = true ->
  negb (less_ek b k) = true.
Proof.
  destruct k as [i|t]; simpl; unfold IntervalLess_vp, IntervalLess; lia.
Qed.

Lemma ordered_insert_between l1 l2 x : lt_all l1 x -> gt_all x l2 ->
  ordered_insert (l1 ++ l2) x = (l1 ++ x :: l2, length l1, true).
Proof.
  intros H1 H2. unfold ordered_insert.
  rewrite first_index_app.
  - destruct l2 as [|b l2].
    + rewrite app_nil_r, lookup_ge_None_2, take_ge, drop_ge by lia. reflexivity.
    + rewrite list_lookup_middle by reflexivity. inversion_clear H2 as [|? ? Hb].
      rewrite Hb. simpl. rewrite take_app_length, drop_app_length. reflexivity.
  - eapply Forall_impl; [exact H1|]. simpl. intros b ->. reflexivity.
  - eapply Forall_impl; [exact H2|]. simpl. intros b Hb.
    destruct (IntervalLess b x) eqn:E; [|reflexivity].
    pose proof (IntervalLess_trans _ _ _ Hb E) as Hx. rewrite IntervalLess_irrefl in Hx.
    discriminate.
Qed.

(** An ordered list either has the element or a place for it. *)
Lemma ordered_insert_cases l x : ordered l ->
  (exists i, ordered_insert l x = (l, i, false) /\ x ∈ l) \/
  (exists l1 l2, l = l1 ++ l2 /\ lt_all l1 x /\ gt_all x l2 /\
    ordered_insert l x = (l1 ++ x :: l2, length l1, true)).
Proof.
  intros Ho.
  destruct (ordered_partitioned (fun b => negb (IntervalLess b x)) l Ho) as
    (l1 & l2 & -> & H1 & H2).
  { intros a b Hab. rewrite !negb_true_iff. intros Ha.
    destruct (IntervalLess b x) eqn:E; [|reflexivity].
    pose proof (IntervalLess_trans _ _ _ Hab E). congruence. }
  assert (H1' : lt_all l1 x).
  { eapply Forall_impl; [exact H1|]. simpl. intros b. rewrite negb_false_iff. auto. }
  destruct l2 as [|b l2].
  { right. exists l1, []. split_and!; auto; [constructor|].
    apply ordered_insert_between; auto. constructor. }
  destruct (IntervalLess x b) eqn:Hxb.
  - right. exists l1, (b :: l2). assert (gt_all x (b :: l2)).
    { constructor; auto. apply ordered_app in Ho as (_ & Ho & _).
      apply ordered_cons in Ho as [Ho _]. eapply Forall_impl; [exact Ho|].
      simpl. intros c. apply IntervalLess_trans. auto. }
    split_and!; auto. apply ordered_insert_between; auto.
  - left. exists (length l1). inversion_clear H2 as [|? ? Hb].
    apply negb_true_iff in Hb. assert (x = b) as -> by (apply IntervalLess_equiv; auto).
    split; [|set_solver]. unfold ordered_insert.
    rewrite first_index_app with (l2 := b :: l2).
    + rewrite list_lookup_middle by reflexivity. rewrite IntervalLess_irrefl. reflexivity.
    + eapply Forall_impl; [exact H1'|]. simpl. intros c ->. reflexivity.
    + constructor; [rewrite Hb; reflexivity | auto].
Qed.

Lemma ordered_insert_ordered l x : ordered l -> ordered (ordered_insert l x).1.1.
Proof.
  intros Ho. destruct (ordered_insert_cases l x Ho) as
    [(i & -> & _) | (l1 & l2 & -> & H1 & H2 & ->)]; simpl; [auto|].
  apply ordered_app in Ho as (Ho1 & Ho2 & H12).
  apply ordered_app. rewrite ordered_cons. split_and!; auto.
  unfold lt_all, gt_all in *. rewrite Forall_forall in *.
  intros a Ha. constructor; auto.
Qed.

(** ** The container at a split of its list *)

Section container.
Context {B : Type} `{HB : BtreeSet B} `{HL : !BtreeSetLaws B} `{HM : BuildMode}.
Implicit Types s : B.

Lemma deref_mid s l1 a l2 : elems s = l1 ++ a :: l2 -> deref s (length l1) = Ok a.
Proof. intros E. unfold deref. rewrite E, list_lookup_middle; reflexivity. Qed.

Lemma is_end_mid s l1 a l2 : elems s = l1 ++ a :: l2 -> is_end s (length l1) = false.
Proof.
  intros E. unfold is_end, size. rewrite E, length_app. simpl. apply Nat.eqb_neq. lia.
Qed.

Lemma is_end_all s l1 : elems s = l1 -> is_end s (length l1) = true.
Proof. intros E. unfold is_end, size. rewrite E. apply Nat.eqb_refl. Qed.

Lemma iter_next_mid s l1 a l2 : elems s = l1 ++ a :: l2 ->
  iter_next s (length l1) = Ok (length (l1 ++ [a])).
Proof.
  intros E. unfold iter_next. rewrite (is_end_mid s l1 a l2 E), length_app.
  simpl. f_equal. lia.
Qed.

Lemma iter_prev_mid (l1 : list Interval) a : iter_prev (length (l1 ++ [a])) = Ok (length l1).
Proof. rewrite length_app, Nat.add_comm. reflexivity. Qed.

Lemma erase_mid s l1 a l2 : elems s = l1 ++ a :: l2 ->
  exists s', erase s (length l1) = Ok (s', length l1) /\ elems s' = l1 ++ l2.
Proof.
  intros E. unfold erase, size.
  assert (Hlt : (length l1 < length (elems s))%nat) by (rewrite E, length_app; simpl; lia).
  destruct (decide _); [|lia]. destruct (bt_erase s (length l1)) as [s' j] eqn:He.
  destruct (erase_law s _ s' j Hlt He) as [E' ->]. exists s'. split; [reflexivity|].
  rewrite E', E, delete_middle. reflexivity.
Qed.

Lemma insert_mid s h l1 l2 x : elems s = l1 ++ l2 -> (h <= length (elems s))%nat ->
  ordered (l1 ++ l2) -> lt_all l1 x -> gt_all x l2 ->
  exists s', bt_insert_hint s h x = (s', length l1) /\ elems s' = l1 ++ x :: l2.
Proof.
  intros E Hh Ho H1 H2. destruct (bt_insert_hint s h x) as [s' i] eqn:Hi.
  apply insert_hint_law in Hi; [|rewrite E; auto | auto].
  rewrite E, ordered_insert_between in Hi by auto. simpl in Hi. simplify_eq.
  exists s'. auto.
Qed.

Lemma ReplaceInterval_mid s l1 a l2 x : elems s = l1 ++ a :: l2 ->
  ordered (l1 ++ l2) -> lt_all l1 x -> gt_all x l2 ->
  exists s', ReplaceInterval s (length l1) x = Ok (s', length l1) /\
    elems s' = l1 ++ x :: l2.
Proof.
  intros E Ho H1 H2. unfold ReplaceInterval, size.
  assert (Hlt : (length l1 < length (elems s))%nat) by (rewrite E, length_app; simpl; lia).
  destruct (decide _); [|lia]. destruct (bt_erase s (length l1)) as [s1 j] eqn:He.
  destruct (erase_law s _ s1 j Hlt He) as [E' ->]. rewrite E, delete_middle in E'.
  destruct (insert_mid s1 (length l1) l1 l2 x) as (s' & Hi & Es'); auto.
  { rewrite E', length_app. lia. }
  exists s'. rewrite Hi. auto.
Qed.

Lemma erase_range_mid s l1 l2 l3 : elems s = l1 ++ l2 ++ l3 ->
  exists s', bt_erase_range s (length l1) (length (l1 ++ l2)) = (s', length l1) /\
    elems s' = l1 ++ l3.
Proof.
  intros E. destruct (bt_erase_range s _ _) as [s' j] eqn:He.
  apply erase_range_law in He as [E' ->].
  - exists s'. split; [reflexivity|]. rewrite E', E, take_app_length.
    rewrite app_assoc, drop_app_length. reflexivity.
  - rewrite E, !length_app. lia.
Qed.

Lemma upper_bound_split s k : ordered (elems s) -> exists l1 l2,
  elems s = l1 ++ l2 /\ bt_upper_bound s k = length l1 /\
  Forall (fun a => less_ke k a = false) l1 /\ Forall (fun a => less_ke k a = true) l2.
Proof.
  intros Ho. destruct (ordered_partitioned (less_ke k) (elems s) Ho) as (l1 & l2 & E & H1 & H2).
  { intros a b. apply less_ke_mono. }
  exists l1, l2. split_and!; auto. rewrite upper_bound_law.
  - rewrite E. apply first_index_app; auto.
  - exists l1, l2. auto.
Qed.

Lemma lower_bound_split s k : ordered (elems s) -> exists l1 l2,
  elems s = l1 ++ l2 /\ bt_lower_bound s k = length l1 /\
  Forall (fun a => less_ek a k = true) l1 /\ Forall (fun a => less_ek a k = false) l2.
Proof.
  intros Ho. destruct (ordered_partitioned (fun a => negb (less_ek a k)) (elems s) Ho)
    as (l1 & l2 & E & H1 & H2).
  { intros a b. apply less_ek_mono. }
  exists l1, l2. split_and!; auto.
  - rewrite lower_bound_law; [rewrite E; apply first_index_app; auto|].
    exists l1, l2. auto.
  - eapply Forall_impl; [exact H1|]. simpl. intros a. apply negb_false_iff.
  - eapply Forall_impl; [exact H2|]. simpl. intros a. apply negb_true_iff.
Qed.

(** ** Compaction *)

(** The merge of a run: [a] absorbs what it touches, as long as [sc] holds. *)
Fixpoint merge_run (sc : Interval -> bool) (a : Interval) (l : list Interval) :
    list Interval :=
  match l with
  | [] => [a]
  | b :: r =>
      if sc b then
        if start b <=? limit a then merge_run sc (mkI (start a) (Z.max (limit a) (limit b))) r
        else a :: merge_run sc b r
      else a :: l
  end.

Definition starts_below (l : list Interval) (a : Interval) : Prop :=
  Forall (fun e => start e < start a) l.

Lemma starts_below_lt l a x : starts_below l a -> start x = start a -> lt_all l x.
Proof.
  intros Hl Hx. eapply Forall_impl; [exact Hl|]. simpl. intros e He.
  apply IntervalLess_start. lia.
Qed.

Lemma starts_below_ordered l a k : ordered l -> ordered (a :: k) -> starts_below l a ->
  ordered (l ++ a :: k).
Proof.
  intros Hl Hk Hb. apply ordered_app. split_and!; auto.
  apply ordered_cons in Hk as [Ha _]. unfold starts_below, gt_all in *.
  rewrite Forall_forall in *. intros e He. apply Forall_forall. intros b Hin.
  apply elem_of_cons in Hin as [->|Hin]; [apply IntervalLess_start; auto|].
  specialize (Ha b Hin). specialize (Hb e He). unfold IntervalLess in *. lia.
Qed.

(** One round that absorbs [b] into [a], up to the call of [erase]. *)
Lemma Compact_absorb s pre a b l : elems s = pre ++ a :: b :: l -> ordered pre ->
  starts_below pre a -> ordered (a :: b :: l) ->
  let a' := mkI (start a) (Z.max (limit a) (limit b)) in
  exists s1,
    (if limit a <? limit b then
       '(s, prev) ← ReplaceInterval s (length pre) (mkI (start a) (limit b));
       it ← iter_next s prev;
       Ok (s, prev, it)
     else Ok (s, length pre, length (pre ++ [a]))) =
    Ok (s1, length pre, length (pre ++ [a'])) /\
    elems s1 = (pre ++ [a']) ++ b :: l /\ ordered (a' :: l).
Proof.
  intros E Hpre Hbelow Ho. cbv zeta.
  apply ordered_cons in Ho as [Ha Hbl]. pose proof Hbl as [Hb Hl]%ordered_cons.
  inversion_clear Ha as [|? ? Hab Hal]. rewrite <- app_assoc. simpl.
  destruct (limit a <? limit b) eqn:Hlim.
  - assert (Hs : start a < start b) by (unfold IntervalLess in Hab; lia).
    replace (Z.max (limit a) (limit b)) with (limit b) by lia.
    set (a' := mkI (start a) (limit b)).
    assert (Hgt : gt_all a' (b :: l)).
    { constructor; [apply IntervalLess_start; auto|].
      eapply Forall_impl; [exact Hb|]. intros c. unfold IntervalLess. simpl. lia. }
    destruct (ReplaceInterval_mid s pre a (b :: l) a') as (s1 & Hr & E1); auto.
    { apply starts_below_ordered; auto. eapply Forall_impl; [exact Hbelow|].
      simpl. intros. lia. }
    { eapply starts_below_lt; eauto. }
    exists s1. rewrite Hr, bind_Ok, (iter_next_mid s1 _ _ _ E1), bind_Ok.
    split_and!; auto. apply ordered_cons. inversion_clear Hgt. auto.
  - exists s. replace (Z.max (limit a) (limit b)) with (limit a) by lia.
    replace (mkI (start a) (limit a)) with a by (destruct a; reflexivity).
    split_and!; auto. apply ordered_cons. auto.
Qed.

Lemma Compact_loop_run sc l : forall fuel s pre a,
  (length l <= fuel)%nat -> elems s = pre ++ a :: l -> ordered pre ->
  starts_below pre a -> ordered (a :: l) -> Forall has_points (a :: l) ->
  exists s', Compact_loop fuel sc s (length pre) (length (pre ++ [a])) = Ok s' /\
    elems s' = pre ++ merge_run sc a l.
Proof.
  induction l as [|b l IH]; intros fuel s pre a Hf E Hpre Hbelow Ho Hp.
  { exists s. split; [|rewrite E; reflexivity].
    destruct fuel; simpl; rewrite (is_end_all s (pre ++ [a]) E); reflexivity. }
  assert (E2 : elems s = (pre ++ [a]) ++ b :: l) by (rewrite E, <- app_assoc; reflexivity).
  inversion_clear Hp as [|? ? Hpa Hpl]. pose proof Hpl as [Hpb Hpl']%Forall_cons.
  unfold has_points in Hpa, Hpb.
  destruct fuel as [|fuel]; [simpl in Hf; lia|]. cbn [Compact_loop merge_run].
  rewrite (is_end_mid s _ _ _ E2), (deref_mid s _ _ _ E2), bind_Ok.
  destruct (sc b); [|exists s; auto].
  rewrite (deref_mid s _ _ _ E), bind_Ok.
  destruct (start b <=? limit a) eqn:Htouch.
  - destruct (Compact_absorb s pre a b l E Hpre Hbelow Ho) as (s1 & -> & E1 & Ho1).
    rewrite bind_Ok. set (a' := mkI (start a) (Z.max (limit a) (limit b))) in *.
    destruct (erase_mid s1 (pre ++ [a']) b l E1) as (s2 & -> & Es2).
    rewrite bind_Ok, iter_prev_mid, bind_Ok.
    apply (IH fuel s2 pre a'); auto; [simpl in Hf; lia | | ].
    + rewrite Es2, <- app_assoc. reflexivity.
    + constructor; auto. unfold has_points, a'. simpl. lia.
  - rewrite (iter_next_mid s _ _ _ E2), bind_Ok.
    destruct (IH fuel s (pre ++ [a]) b) as (s' & -> & Es'); auto; [simpl in Hf; lia | | | |].
    + apply starts_below_ordered; auto. apply ordered_cons. split; constructor.
    + apply Forall_app. split; [|constructor; [lia|constructor]].
      eapply Forall_impl; [exact Hbelow|]. simpl. intros. lia.
    + apply ordered_cons in Ho. tauto.
    + exists s'. split; [reflexivity|]. rewrite Es', <- app_assoc. reflexivity.
Qed.

Lemma Compact_run sc s pre a l : elems s = pre ++ a :: l -> ordered (pre ++ a :: l) ->
  starts_below pre a -> Forall has_points (a :: l) ->
  exists s', Compact s (length pre) sc = Ok s' /\ elems s' = pre ++ merge_run sc a l.
Proof.
  intros E Ho Hb Hp. unfold Compact.
  rewrite (is_end_mid s _ _ _ E), (iter_next_mid s _ _ _ E), bind_Ok.
  apply ordered_app in Ho as (? & ? & _). apply Compact_loop_run; auto.
  unfold size. rewrite E, length_app. simpl. lia.
Qed.
End container.

(** ** What merging a run does to the points *)

Definition all_of (_ : Interval) : bool := true.

Lemma merge_run_stops sc l : forall a,
  (forall r1 b r2, l = r1 ++ b :: r2 -> sc b = false ->
     wf (b :: r2) /\ before (a :: r1) [b]) ->
  merge_run sc a l = merge_run all_of a l.
Proof.
  assert (Hid : forall r b, wf (b :: r) -> merge_run all_of b r = b :: r).
  { induction r as [|c r IH]; intros b; [reflexivity|]. rewrite wf_cons.
    intros (_ & Hb & Hr). simpl. apply before_cons_r in Hb as [Hb _].
    rewrite before_one in Hb. destruct (start c <=? limit b) eqn:E; [lia|].
    rewrite IH; auto. }
  induction l as [|b l IH]; intros a Hs; [reflexivity|]. simpl. destruct (sc b) eqn:Hsc.
  - destruct (start b <=? limit a).
    + apply IH. intros r1 c r2 -> Hc. destruct (Hs (b :: r1) c r2 eq_refl Hc) as [? Hb].
      split; [auto|]. rewrite before_cons_l in Hb |- *. destruct Hb as [Ha Hb].
      rewrite before_cons_l in Hb. destruct Hb as [Hb ?]. split; [|auto].
      rewrite before_one in *. simpl. lia.
    + f_equal. apply IH. intros r1 c r2 -> Hc.
      destruct (Hs (b :: r1) c r2 eq_refl Hc) as [? Hb]. split; [auto|].
      apply before_cons_l in Hb. tauto.
  - destruct (Hs [] b l eq_refl Hsc) as [Hwf Hb]. rewrite before_one in Hb.
    destruct (start b <=? limit a) eqn:E; [lia|]. rewrite Hid; auto.
Qed.

(** Merging everything: the list becomes well formed and keeps its points. *)
Lemma merge_run_spec l : forall a, has_points a -> Forall has_points l ->
  ordered l -> Forall (fun b => start a <= start b) l ->
  wf (merge_run all_of a l) /\
  (forall x, mem (merge_run all_of a l) x <-> mem (a :: l) x) /\
  Forall (fun b => start a <= start b) (merge_run all_of a l).
Proof.
  induction l as [|b l IH]; intros a Ha Hl Ho Hs; simpl.
  { split; [split_and!; auto | split; [reflexivity | constructor; [lia | constructor]]]. }
  inversion_clear Hl as [|? ? Hb Hl']. apply ordered_cons in Ho as [Hbl Ho].
  inversion_clear Hs as [|? ? Hab Hal]. unfold has_points in Ha, Hb.
  destruct (start b <=? limit a) eqn:Ht.
  - destruct (IH (mkI (start a) (Z.max (limit a) (limit b)))) as (Hwf & Hm & Hst); auto.
    { unfold has_points. simpl. lia. }
    split_and!; auto. intros x. rewrite Hm, !mem_cons. unfold pt. simpl.
    unfold mem. intuition lia.
  - destruct (IH b) as (Hwf & Hm & Hst); auto.
    { eapply Forall_impl; [exact Hbl|]. intros c. unfold IntervalLess. lia. }
    split_and!.
    + apply wf_cons. split_and!; auto. apply before_intro.
      intros c d Hc Hd. apply list_elem_of_singleton in Hc as ->.
      rewrite Forall_forall in Hst. specialize (Hst d Hd). simpl in Hst. lia.
    + intros x. rewrite mem_cons, Hm, !mem_cons. tauto.
    + constructor; [lia|]. eapply Forall_impl; [exact Hst|]. simpl. intros. lia.
Qed.
