(* ===== verification/IntervalSetOps.v ===== *)
(** * Interval sets: adding, uniting and looking up

    Each operation on a set whose list is well formed, over any container with the
    documented behaviour: adding an interval, a list or a set, union, the
    lookups and the tests on one interval. *)
From Stdlib Require Import ZArith Lia Bool Sorting.Sorted.
From stdpp Require Import base sets list.
From S2P Require Import Prelude.
From S2P Require Import Interval.
From S2P Require Import IntervalSet.
From S2P Require Import IntervalSetProps.
Local Open Scope Z_scope.

Section ops.
Context {B : Type} `{HB : BtreeSet B} `{HL : !BtreeSetLaws B} `{HM : BuildMode}.
Implicit Types s : B.

(** ** Add and Union *)

Lemma Compact_spec sc s pre h rest : elems s = pre ++ h :: rest ->
  ordered (h :: rest) -> wf pre -> before pre [h] -> Forall has_points (h :: rest) ->
  (forall r1 b r2, rest = r1 ++ b :: r2 -> sc b = false ->
     wf (b :: r2) /\ before (h :: r1) [b]) ->
  exists s', Compact s (length pre) sc = Ok s' /\ wf (elems s') /\
    forall x, mem (elems s') x <-> mem (elems s) x.
Proof.
  intros E Ho Hpre Hbef Hp Hsc.
  assert (Hbelow : starts_below pre h).
  { apply Forall_forall. intros e He. pose proof (wf_points _ _ Hpre He).
    pose proof (before_elem _ _ e h Hbef He ltac:(set_solver)). lia. }
  destruct (Compact_run sc s pre h rest) as (s' & -> & Es'); auto.
  { apply starts_below_ordered; auto with mem. }
  exists s'. split; [reflexivity|]. rewrite Es', merge_run_stops by auto.
  apply ordered_cons in Ho as [Hh Ho]. inversion_clear Hp as [|? ? Hph Hpr].
  destruct (merge_run_spec rest h) as (Hwf & Hm & Hst); auto.
  { eapply Forall_impl; [exact Hh|]. intros c. unfold IntervalLess. lia. }
  split.
  - apply wf_app. split_and!; auto. apply before_intro. intros a b Ha Hb.
    rewrite Forall_forall in Hst. specialize (Hst b Hb).
    pose proof (before_elem _ _ a h Hbef Ha ltac:(set_solver)). simpl in Hst. lia.
  - intros x. rewrite E, !mem_app, Hm. tauto.
Qed.

(** The set after [emplace], where the added interval may overlap its neighbours. *)
Lemma compact_after_emplace sc s l1 a l2 : elems s = l1 ++ a :: l2 ->
  wf (l1 ++ l2) -> ordered (l1 ++ a :: l2) -> has_points a ->
  (forall b, b ∈ a :: l2 -> sc b = false -> limit a < start b) ->
  exists s' it, (if negb (Nat.eqb (length l1) 0) then iter_prev (length l1)
                 else Ok (length l1)) = Ok it /\
    Compact s it sc = Ok s' /\ wf (elems s') /\
    forall x, mem (elems s') x <-> mem (elems s) x.
Proof.
  intros E Hwf Ho Ha Hsc. apply wf_app in Hwf as (Hwf1 & Hwf2 & H12).
  apply ordered_app in Ho as (_ & Ho & Hlt).
  assert (Hp2 : Forall has_points (a :: l2)) by (constructor; auto using wf_Forall).
  assert (Hstop : forall r1 b r2, l2 = r1 ++ b :: r2 -> sc b = false ->
    wf (b :: r2) /\ before (a :: r1) [b]).
  { intros r1 b r2 -> Hb. pose proof Hwf2 as (_ & Hw & Hr)%wf_app. split; [auto|].
    apply before_cons_l. rewrite before_one. split; [apply Hsc; [set_solver|auto]|].
    apply before_cons_r in Hr. tauto. }
  destruct l1 as [|q p _] using rev_ind.
  - destruct (Compact_spec sc s [] a l2) as (s' & Hc & Hw & Hm); auto with mem.
    exists s', 0%nat. auto.
  - rewrite length_app, Nat.add_comm. simpl.
    rewrite <- app_assoc in E. simpl in E.
    pose proof (wf_Forall _ Hwf1) as [_ Hq]%Forall_app. rewrite Forall_singleton in Hq.
    apply wf_app in Hwf1 as (Hwp & _ & Hpq).
    apply before_app_l in H12 as [Hp12 Hq2].
    apply Forall_app in Hlt as [_ Hlt]. inversion_clear Hlt as [|? ? Hqa _].
    destruct (Compact_spec sc s p q (a :: l2)) as (s' & Hc & Hw & Hm);
      [auto | apply ordered_cons; auto | auto | auto | constructor; auto | |
       exists s', (length p); auto].
    intros [|a' r1] b r2 Hr Hb; simpl in Hr; injection Hr as <- ->.
    + specialize (Hsc a ltac:(set_solver) Hb). unfold has_points in Ha. lia.
    + destruct (Hstop r1 b r2 eq_refl Hb) as [Hbr Har]. split; [auto|].
      apply before_cons_l. split; [|auto].
      apply before_app_r in Hq2 as [_ Hq2]. apply before_cons_r in Hq2. tauto.
Qed.

Lemma iset_Add_spec s a : wf (elems s) -> exists s', Add s a = Ok s' /\ wf (elems s') /\
  forall x, mem (elems s') x <-> mem (elems s) x \/ pt a x.
Proof.
  intros Hwf. unfold Add, AddImpl, IsEmpty. destruct (empty a) eqn:Hea.
  { exists s. split_and!; auto. intros x. apply empty_true in Hea. unfold pt.
    intuition lia. }
  apply empty_false in Hea.
  destruct (bt_emplace s a) as [[s1 i] ins] eqn:Hemp.
  apply emplace_law in Hemp; [|auto with mem].
  destruct (ordered_insert_cases (elems s) a) as
    [(j & Hi & Hin) | (l1 & l2 & El & H1 & H2 & Hi)]; [auto with mem | |];
    rewrite Hi in Hemp; injection Hemp as E1 <- <-; simpl.
  { exists s1. rewrite <- E1. split_and!; auto. intros x.
    split; [auto|]. intros [?|?]; [auto|]. apply mem_elem. eauto. }
  symmetry in E1.
  assert (Ho : ordered (elems s1)).
  { pose proof (ordered_insert_ordered (elems s) a ltac:(auto with mem)) as Ho.
    rewrite Hi in Ho. rewrite E1. exact Ho. }
  rewrite (deref_mid s1 _ _ _ E1), bind_Ok.
  assert (Hmem : forall x, mem (elems s1) x <-> mem (elems s) x \/ pt a x).
  { intros x. rewrite E1, El, !mem_app, mem_cons. tauto. }
  destruct (upper_bound_split s1 (KPoint (limit a)) Ho) as (k1 & k2 & Ek & -> & Hk1 & Hk2).
  destruct k2 as [|e k2].
  - destruct (compact_after_emplace (fun _ => true) s1 l1 a l2) as (s' & it & -> & Hc & Hw & Hm);
      auto; [congruence | congruence | discriminate|].
    rewrite bind_Ok. rewrite (is_end_all s1 k1) by (rewrite Ek, app_nil_r; auto).
    exists s'. split_and!; auto. intros x. rewrite Hm. auto.
  - assert (He : limit a < start e).
    { inversion_clear Hk2 as [|? ? He _]. simpl in He. unfold IntervalLess_pv in He. lia. }
    destruct (compact_after_emplace (fun c => IntervalLess_vp c (start e)) s1 l1 a l2)
      as (s' & it & -> & Hc & Hw & Hm); auto; [congruence | congruence | |].
    + intros b Hb Hsc. unfold IntervalLess_vp in Hsc. lia.
    + rewrite bind_Ok, (is_end_mid s1 _ _ _ Ek), (deref_mid s1 _ _ _ Ek), bind_Ok.
      exists s'. split_and!; auto. intros x. rewrite Hm. auto.
Qed.

Lemma Add_list_spec l : forall s, wf (elems s) ->
  exists s', Add_list s l = Ok s' /\ wf (elems s') /\
    forall x, mem (elems s') x <-> mem (elems s) x \/ mem l x.
Proof.
  induction l as [|a l IH]; intros s Hwf; simpl.
  - exists s. split_and!; auto. intros x. rewrite mem_nil. tauto.
  - destruct (iset_Add_spec s a Hwf) as (s1 & -> & Hw1 & Hm1). rewrite bind_Ok.
    destruct (IH s1 Hw1) as (s2 & -> & Hw2 & Hm2). exists s2. split_and!; auto.
    intros x. rewrite Hm2, Hm1, mem_cons. tauto.
Qed.

Lemma IntervalSet_of_spec a : wf (elems (IntervalSet_of a : B)) /\
  forall x, mem (elems (IntervalSet_of a : B)) x <-> pt a x.
Proof.
  unfold IntervalSet_of, InitImpl, IsEmpty. destruct (empty a) eqn:Hea.
  - rewrite elems_empty. split; [exact I|]. intros x. rewrite mem_nil.
    apply empty_true in Hea. unfold pt. lia.
  - apply empty_false in Hea.
    destruct (bt_emplace bt_empty a) as [[s1 i] ins] eqn:Hemp.
    apply emplace_law in Hemp; rewrite elems_empty in *; [|constructor].
    simpl in Hemp. unfold ordered_insert in Hemp. simpl in Hemp.
    injection Hemp as E1 <- <-. simpl. rewrite <- E1. split; [simpl; auto|]. intros x. rewrite mem_cons, mem_nil. tauto.
Qed.

Lemma insert_range_spec l : forall k, ordered k -> Forall has_points k -> Forall has_points l ->
  let r := fold_left (fun l x => (ordered_insert l x).1.1) l k in
  ordered r /\ Forall has_points r /\ forall x, mem r x <-> mem k x \/ mem l x.
Proof.
  induction l as [|a l IH]; intros k Ho Hk Hl; cbn [fold_left].
  - split_and!; auto. intros x. rewrite mem_nil. tauto.
  - inversion_clear Hl as [|? ? Ha Hl'].
    assert (Hi : Forall has_points (ordered_insert k a).1.1 /\
      forall x, mem (ordered_insert k a).1.1 x <-> mem k x \/ pt a x).
    { destruct (ordered_insert_cases k a Ho) as
        [(j & -> & Hin) | (l1 & l2 & -> & H1 & H2 & ->)]; simpl.
      - split; [auto|]. intros x. rewrite (mem_elem k). naive_solver.
      - apply Forall_app in Hk as [? ?]. split; [apply Forall_app; auto|].
        intros x. rewrite !mem_app, mem_cons. tauto. }
    destruct Hi as [Hp Hm].
    destruct (IH _ (ordered_insert_ordered k a Ho) Hp Hl') as (Ho' & Hp' & Hm').
    split_and!; auto. intros x. rewrite Hm', Hm, mem_cons. tauto.
Qed.

Lemma Union_spec s other : wf (elems s) -> wf (elems other) ->
  exists s', Union s other = Ok s' /\ wf (elems s') /\
    forall x, mem (elems s') x <-> mem (elems s) x \/ mem (elems other) x.
Proof.
  intros Hs Ho. unfold Union. set (s1 := bt_insert_range s (elems other)).
  destruct (insert_range_spec (elems other) (elems s)) as (Hord & Hp & Hm);
    auto using wf_Forall with mem.
  rewrite <- insert_range_law in Hord, Hp, Hm by auto with mem. fold s1 in Hord, Hp, Hm.
  destruct (elems s1) as [|h r] eqn:E.
  - exists s1. rewrite E. split_and!; [|exact I|auto].
    unfold Compact. pose proof (is_end_all s1 [] E) as He. simpl in He. rewrite He. auto.
  - destruct (Compact_spec (fun _ => true) s1 [] h r) as (s' & Hc & Hw & Hm'); auto with mem;
      [simpl; auto | discriminate |].
    exists s'. split_and!; auto. intros x. rewrite Hm', E. auto.
Qed.

(** ** Lookups, as scans of the list *)

Lemma first_index_mid c (l1 : list Interval) a l2 : Forall (fun e => c e = false) l1 ->
  c a = true -> first_index c (l1 ++ a :: l2) = length l1.
Proof. induction 1 as [|e l1 He _ IH]; simpl; intros Ha; rewrite ?Ha, ?He; auto. Qed.

Lemma first_index_none c (l : list Interval) : Forall (fun e => c e = false) l ->
  first_index c l = length l.
Proof. induction 1 as [|e l He _ IH]; simpl; rewrite ?He; auto. Qed.

Lemma existsb_mid c (l1 : list Interval) a l2 : Forall (fun e => c e = false) l1 ->
  Forall (fun e => c e = false) l2 -> existsb c (l1 ++ a :: l2) = c a.
Proof.
  intros H1 H2. rewrite existsb_app. simpl.
  assert (Hn : forall l, Forall (fun e => c e = false) l -> existsb c l = false)
    by (induction 1 as [|e l He _ IH]; simpl; rewrite ?He; auto).
  rewrite !Hn by auto. destruct (c a); reflexivity.
Qed.

(** The only candidate is the element before the upper bound. *)
Lemma candidate_scan s c l1 l2 : wf (elems s) -> elems s = l1 ++ l2 ->
  Forall (fun e => c e = false) l2 ->
  (forall e q, q ∈ l1 -> limit e < start q -> c e = false) ->
  (if Nat.eqb (length l1) 0 then Ok (size s)
   else it ← iter_prev (length l1); a ← deref s it;
        if c a then Ok it else Ok (size s)) = Ok (first_index c (elems s)) /\
  (if Nat.eqb (length l1) 0 then Ok false
   else it ← iter_prev (length l1); a ← deref s it; Ok (c a)) = Ok (existsb c (elems s)).
Proof.
  intros Hwf E H2 H1. unfold size. destruct l1 as [|q p _] using rev_ind.
  - simpl in E. rewrite E. simpl. rewrite first_index_none by auto. split; [reflexivity|].
    f_equal. symmetry. apply not_true_is_false. intros (e & He & Hc)%existsb_exists.
    apply list_elem_of_In in He. rewrite Forall_forall in H2. specialize (H2 e He).
    simpl in H2. congruence.
  - rewrite iter_prev_mid. assert (E' : elems s = p ++ q :: l2) by
      (rewrite E, <- app_assoc; reflexivity). rewrite length_app, Nat.add_comm. simpl.
    rewrite (deref_mid s _ _ _ E'), bind_Ok. rewrite E' in *.
    assert (Hp : Forall (fun e => c e = false) p).
    { apply Forall_forall. intros e He. apply (H1 e q); [set_solver|].
      apply wf_app in Hwf as (_ & _ & Hb). eapply before_elem; [exact Hb | auto | set_solver]. }
    rewrite existsb_mid by auto. split; [|reflexivity]. destruct (c q) eqn:Hc.
    + rewrite first_index_mid by auto. reflexivity.
    + rewrite first_index_none; [reflexivity|]. apply Forall_app. split; auto.
Qed.

Lemma point_split s v : wf (elems s) -> exists l1 l2, elems s = l1 ++ l2 /\
  bt_upper_bound s (KPoint v) = length l1 /\
  Forall (fun e => start e <= v) l1 /\ Forall (fun e => v < start e) l2.
Proof.
  intros Hwf. destruct (upper_bound_split s (KPoint v)) as (l1 & l2 & E & Hu & H1 & H2);
    [auto with mem|]. exists l1, l2. split_and!; auto.
  - eapply Forall_impl; [exact H1|]. intros e. simpl. unfold IntervalLess_pv. lia.
  - eapply Forall_impl; [exact H2|]. intros e. simpl. unfold IntervalLess_pv. lia.
Qed.

Lemma Find_Contains_scan s v : wf (elems s) ->
  Find s v = Ok (first_index (fun a => contains a v) (elems s)) /\
  Contains s v = Ok (existsb (fun a => contains a v) (elems s)).
Proof.
  intros Hwf. destruct (point_split s v Hwf) as (l1 & l2 & E & Hu & H1 & H2).
  unfold Find, Contains. rewrite Hu.
  apply (candidate_scan s (fun a => contains a v) l1 l2); auto.
  - eapply Forall_impl; [exact H2|]. intros e. simpl. unfold contains. lia.
  - intros e q Hq Hlt. rewrite Forall_forall in H1. specialize (H1 q Hq). simpl in H1.
    unfold contains. lia.
Qed.

Lemma Find_Contains_interval_scan s i : wf (elems s) ->
  Find_interval s i = Ok (first_index (fun a => contains_interval a i) (elems s)) /\
  Contains_interval s i = Ok (existsb (fun a => contains_interval a i) (elems s)).
Proof.
  intros Hwf. destruct (upper_bound_split s (KInterval i)) as (l1 & l2 & E & Hu & H1 & H2);
    [auto with mem|].
  unfold Find_interval, Contains_interval. rewrite Hu.
  apply (candidate_scan s (fun a => contains_interval a i) l1 l2); auto.
  - eapply Forall_impl; [exact H2|]. intros e. simpl.
    unfold IntervalLess, contains_interval, empty. lia.
  - intros e q Hq Hlt. rewrite Forall_forall in H1. specialize (H1 q Hq). simpl in H1.
    unfold IntervalLess, contains_interval, empty in *. lia.
Qed.

Lemma UpperBound_scan s v : wf (elems s) ->
  UpperBound s v = first_index (fun a => v <? start a) (elems s).
Proof.
  intros Hwf. unfold UpperBound. rewrite upper_bound_law; [reflexivity|].
  apply ordered_partitioned; [auto with mem|]. intros a b. apply less_ke_mono.
Qed.

Lemma LowerBound_scan s v : wf (elems s) ->
  LowerBound s v = Ok (first_index (fun a => contains a v || (v <? start a)) (elems s)).
Proof.
  intros Hwf. unfold LowerBound.
  destruct (lower_bound_split s (KPoint v)) as (l1 & l2 & E & -> & H1 & H2);
    [auto with mem|]. simpl in H1, H2.
  assert (Hp : Forall has_points l2).
  { pose proof (wf_Forall _ Hwf) as Hp. rewrite E in Hp. apply Forall_app in Hp. tauto. }
  assert (H2' : Forall (fun a => (contains a v || (v <? start a)) = true) l2).
  { rewrite Forall_forall in *. intros e He. specialize (H2 e He). specialize (Hp e He).
    simpl in H2. unfold has_points, contains, IntervalLess_vp in *. lia. }
  destruct l1 as [|q p _] using rev_ind.
  - rewrite E. simpl. destruct l2 as [|e l2]; [reflexivity|]. simpl.
    inversion_clear H2' as [|? ? He _]. rewrite He. reflexivity.
  - assert (E' : elems s = p ++ q :: l2) by (rewrite E, <- app_assoc; reflexivity).
    rewrite iter_prev_mid. rewrite length_app, Nat.add_comm. simpl.
    rewrite (deref_mid s _ _ _ E'), bind_Ok, (iter_next_mid s _ _ _ E'), E'.
    rewrite E' in Hwf. apply wf_app in Hwf as (Hwp & Hwq & Hb).
    apply Forall_app in H1 as [_ Hq]. rewrite Forall_singleton in Hq.
    unfold IntervalLess_vp in Hq.
    assert (Hpf : Forall (fun a => (contains a v || (v <? start a)) = false) p).
    { apply Forall_forall. intros e He.
      pose proof (before_elem _ _ e q Hb He ltac:(set_solver)).
      pose proof (wf_points _ _ Hwp He). unfold contains. lia. }
    destruct (contains q v) eqn:Hc.
    + rewrite first_index_mid; [reflexivity | auto | rewrite Hc; reflexivity].
    + destruct l2 as [|e l2].
      * rewrite first_index_none; [reflexivity|]. apply Forall_app. split; [auto|].
        constructor; [rewrite Hc; simpl; lia | constructor].
      * change (p ++ q :: e :: l2) with (p ++ [q] ++ e :: l2). rewrite app_assoc.
        rewrite first_index_mid; [reflexivity | | inversion_clear H2'; auto].
        apply Forall_app. split; [auto|]. constructor; [rewrite Hc; simpl; lia | constructor].
Qed.

Lemma IsDisjoint_scan s i : wf (elems s) ->
  IsDisjoint s i = Ok (negb (existsb (fun a => Intersects a i) (elems s))).
Proof.
  intros Hwf. unfold IsDisjoint. destruct (empty i) eqn:Hei.
  { f_equal. symmetry. apply negb_true_iff, not_true_is_false.
    intros (e & _ & He)%existsb_exists. unfold Intersects in He. rewrite Hei in He. lia. }
  apply empty_false in Hei.
  destruct (point_split s (start i) Hwf) as (l1 & l2 & E & -> & H1 & H2).
  pose proof (wf_Forall _ Hwf) as Hp. rewrite E in Hp. apply Forall_app in Hp as [Hp1 Hp2].
  assert (Hc : exists c, (if negb (is_end s (length l1)) then
      a ← deref s (length l1); Ok (start a <? limit i) else Ok false) = Ok c /\
    if (c : bool) then existsb (fun a => Intersects a i) (elems s) = true
    else Forall (fun a => Intersects a i = false) l2).
  { destruct l2 as [|e l2].
    - exists false. rewrite (is_end_all s l1) by (rewrite E, app_nil_r; reflexivity). auto.
    - exists (start e <? limit i). rewrite (is_end_mid s _ _ _ E), (deref_mid s _ _ _ E).
      split; [reflexivity|]. inversion_clear H2 as [|? ? He _].
      inversion_clear Hp2 as [|? ? Hpe _]. unfold has_points in Hpe. case_match eqn:Hse.
      + apply existsb_exists. exists e. rewrite E, in_app_iff. split; [simpl; auto|].
        unfold Intersects, empty. lia.
      + rewrite E in Hwf. apply wf_app in Hwf as (_ & (_ & Hel & _) & _).
        constructor; [unfold Intersects; lia|]. eapply Forall_impl; [exact Hel|].
        simpl. intros d Hd. unfold Intersects. lia. }
  destruct Hc as (c & -> & Hc). rewrite bind_Ok. destruct c; [rewrite Hc; reflexivity|].
  destruct (candidate_scan s (fun a => Intersects a i) l1 l2) as [_ Hscan]; auto.
  { intros e q Hq Hlt. rewrite Forall_forall in H1. specialize (H1 q Hq). simpl in H1.
    unfold Intersects. lia. }
  destruct l1 as [|q p _] using rev_ind;
    [simpl in *; injection Hscan as <-; reflexivity|].
  assert (E' : elems s = p ++ q :: l2) by (rewrite E, <- app_assoc; reflexivity).
  rewrite iter_prev_mid in *. rewrite length_app, Nat.add_comm in *. simpl in *.
  rewrite (deref_mid s _ _ _ E'), bind_Ok in *. injection Hscan as <-. f_equal.
  apply Forall_app in H1 as [_ Hq]. apply Forall_app in Hp1 as [_ Hpq].
  rewrite Forall_singleton in Hq, Hpq. unfold has_points, Intersects, empty in *. lia.
Qed.

Lemma Contains_all_scan s l : wf (elems s) -> Contains_all s l =
  Ok (forallb (fun i => existsb (fun a => contains_interval a i) (elems s)) l).
Proof.
  intros Hwf. induction l as [|i l IH]; [reflexivity|]. simpl.
  destruct (Find_Contains_interval_scan s i Hwf) as [_ ->]. rewrite bind_Ok.
  destruct (existsb _ _); [exact IH | reflexivity].
Qed.

Lemma deref_0 s a l : elems s = a :: l -> deref s 0 = Ok a.
Proof. intros E. apply (deref_mid s [] a l E). Qed.

Lemma rbegin_last s l a : elems s = l ++ [a] -> rbegin s = Ok a.
Proof.
  intros E. unfold rbegin, size. rewrite E, iter_prev_mid, bind_Ok.
  apply (deref_mid s l a []). auto.
Qed.

Lemma set_is_empty_cases s : (set_is_empty s = true /\ elems s = []) \/
  (set_is_empty s = false /\ exists a l b k, elems s = a :: l /\ elems s = k ++ [b]).
Proof.
  unfold set_is_empty, size. destruct (elems s) as [|a l] eqn:E; [auto|]. right.
  split; [reflexivity|]. destruct (exists_last (l := a :: l)) as (k & b & Ek); [done|].
  exists a, l, b, k. auto.
Qed.

Lemma wf_first_last a l b k : wf (a :: l) -> a :: l = k ++ [b] ->
  Forall (fun e => start a <= start e /\ limit e <= limit b) (a :: l).
Proof.
  intros Hwf E. apply Forall_forall. intros e He. pose proof Hwf as (_ & Hal & _).
  assert (Hb : e = b \/ e ∈ k) by (rewrite E in He; set_solver).
  rewrite E in Hwf. apply wf_app in Hwf as (Hk & (Hbp & _) & Hbef). split.
  - apply elem_of_cons in He as [->|He]; [lia|]. rewrite Forall_forall in Hal.
    specialize (Hal e He). simpl in Hal.
    assert (start a < limit a); [|lia]. destruct k as [|a' k]; simpl in E; simplify_eq.
    + set_solver.
    + simpl in Hk. tauto.
  - destruct Hb as [->|Hb]; [lia|].
    pose proof (before_elem _ _ e b Hbef Hb ltac:(set_solver)). lia.
Qed.

Lemma Contains_set_scan s other : wf (elems s) -> wf (elems other) ->
  Contains_set s other = Ok (negb (set_is_empty other) &&
    forallb (fun i => existsb (fun a => contains_interval a i) (elems s)) (elems other)).
Proof.
  intros Hs Ho. unfold Contains_set, or_else.
  destruct (set_is_empty_cases s) as [[-> Es] | [-> (a & l & b & k & E1 & E2)]];
    rewrite ?bind_Ok.
  { rewrite Es. f_equal. symmetry. destruct (elems other) eqn:E; [|apply andb_false_r].
    unfold set_is_empty, size. rewrite E. reflexivity. }
  destruct (set_is_empty_cases other) as [[-> Eo] | [-> (c & m & d & n & E3 & E4)]];
    rewrite ?bind_Ok; [reflexivity|]. cbn [negb andb].
  rewrite (deref_0 s a l E1), (deref_0 other c m E3), ?bind_Ok.
  rewrite (rbegin_last s k b E2), (rbegin_last other n d E4), ?bind_Ok.
  rewrite Contains_all_scan by auto.
  assert (Hb : Forall (fun e => start a <= start e /\ limit e <= limit b) (elems s)).
  { rewrite E1 in *. eapply wf_first_last; eauto. }
  rewrite Forall_forall in Hb.
  assert (Hout : forall i, i ∈ elems other -> start i < start a \/ limit b < limit i ->
    forallb (fun i => existsb (fun a => contains_interval a i) (elems s)) (elems other) = false).
  { intros i Hi Hor. apply not_true_is_false. intros Hall.
    rewrite forallb_forall in Hall. specialize (Hall i ltac:(apply list_elem_of_In; auto)).
    apply existsb_exists in Hall as (e & He & Hc). apply list_elem_of_In in He.
    specialize (Hb e He). unfold contains_interval in Hc. lia. }
  destruct (start c <? start a) eqn:H1; rewrite ?bind_Ok.
  { f_equal. symmetry. apply (Hout c); [rewrite E3; set_solver | lia]. }
  destruct (limit b <? limit d) eqn:H2; rewrite ?bind_Ok; [|reflexivity].
  f_equal. symmetry. apply (Hout d); [rewrite E4; set_solver | lia].
Qed.
End ops.
