(* ===== verification/IntervalSetPairs.v ===== *)
(** * Interval sets: the search for intersecting pairs, and Valid

    [FindNextIntersectingPairImpl] with either treatment of the holes, the candidates
    the searches start from, the comparison of the spans, and the set tests. *)
From Stdlib Require Import ZArith Lia Bool Sorting.Sorted.
From stdpp Require Import base sets list.
From S2P Require Import Prelude.
From S2P Require Import Interval.
From S2P Require Import IntervalSet.
From S2P Require Import IntervalSetProps.
From S2P Require Import IntervalSetOps.
Local Open Scope Z_scope.

(** ** Lists with no common point *)

Definition apart (m t : list Interval) : Prop := forall x, mem m x -> mem t x -> False.
Definition upto (l : list Interval) (v : Z) : Prop := Forall (fun a => limit a <= v) l.
Definition from (v : Z) (l : list Interval) : Prop := Forall (fun a => v <= start a) l.

Lemma apart_sym m t : apart m t -> apart t m.
Proof. unfold apart. eauto. Qed.

Lemma apart_app_l m1 m2 t : apart (m1 ++ m2) t <-> apart m1 t /\ apart m2 t.
Proof. unfold apart. setoid_rewrite mem_app. naive_solver. Qed.

Lemma apart_app_r m t1 t2 : apart m (t1 ++ t2) <-> apart m t1 /\ apart m t2.
Proof. unfold apart. setoid_rewrite mem_app. naive_solver. Qed.

Lemma apart_nil_l t : apart [] t.
Proof. intros x Hx. rewrite mem_nil in Hx. tauto. Qed.
Lemma apart_nil_r m : apart m [].
Proof. intros x _ Hx. rewrite mem_nil in Hx. tauto. Qed.
#[export] Hint Resolve apart_nil_l apart_nil_r : mem.

Lemma apart_upto_from m v t : upto m v -> from v t -> apart m t.
Proof.
  unfold upto, from. rewrite !Forall_forall. intros Hm Ht x.
  rewrite !mem_elem. intros (a & Ha & Hxa) (b & Hb & Hxb).
  specialize (Hm a Ha). specialize (Ht b Hb). unfold pt in *. lia.
Qed.

Lemma wf_from a l v : wf (a :: l) -> v <= start a -> from v (a :: l).
Proof.
  intros (Ha & Hl & _) Hv. constructor; [auto|]. eapply Forall_impl; [exact Hl|].
  simpl. intros. lia.
Qed.

Lemma upto_weaken l v w : upto l v -> v <= w -> upto l w.
Proof. intros Hl Hv. eapply Forall_impl; [exact Hl|]. simpl. intros. lia. Qed.

Lemma from_weaken l v w : from v l -> w <= v -> from w l.
Proof. intros Hl Hv. eapply Forall_impl; [exact Hl|]. simpl. intros. lia. Qed.

Lemma before_upto l a : before l [a] -> upto l (start a).
Proof.
  intros Hb. apply Forall_forall. intros e He.
  pose proof (before_elem _ _ e a Hb He ltac:(set_solver)). lia.
Qed.

Section pairs.
Context {B : Type} `{HB : BtreeSet B} `{HL : !BtreeSetLaws B} `{HM : BuildMode}.
Implicit Types s o : B.

Lemma skip_while_spec s p l : forall pre fuel, elems s = pre ++ l -> (length l <= fuel)%nat ->
  exists l1 l2, l = l1 ++ l2 /\ skip_while fuel s (length pre) p = Ok (length (pre ++ l1)) /\
    Forall (fun a => p a = true) l1 /\ match l2 with [] => True | a :: _ => p a = false end.
Proof.
  induction l as [|a l IH]; intros pre fuel E Hf.
  - exists [], []. rewrite !app_nil_r in *. split_and!; auto.
    destruct fuel; simpl; rewrite (is_end_all s pre E); reflexivity.
  - destruct (p a) eqn:Hp.
    + destruct fuel as [|fuel]; [simpl in Hf; lia|].
      destruct (IH (pre ++ [a]) fuel) as (l1 & l2 & -> & Hs & H1 & H2).
      { rewrite <- app_assoc. auto. }
      { simpl in Hf. lia. }
      exists (a :: l1), l2. split_and!; auto. simpl.
      rewrite (is_end_mid s _ _ _ E), (deref_mid s _ _ _ E), bind_Ok, Hp.
      rewrite <- app_assoc in Hs. rewrite length_app, Nat.add_comm in Hs. exact Hs.
    + exists [], (a :: l). rewrite app_nil_r. split_and!; auto.
      destruct fuel; simpl;
        rewrite (is_end_mid s _ _ _ E), (deref_mid s _ _ _ E), bind_Ok, Hp; reflexivity.
Qed.

(** What a treatment of holes leaves of the skipped elements. *)
Record hole_policy (on_hole : B -> nat -> nat -> B * nat)
    (K : list Interval -> list Interval) : Prop := {
  hole_run x pre l1 l2 : elems x = pre ++ l1 ++ l2 ->
    exists x', on_hole x (length pre) (length (pre ++ l1)) = (x', length (pre ++ K l1)) /\
      elems x' = pre ++ K l1 ++ l2;
  hole_nil : K [] = [];
  hole_app l1 l2 : K (l1 ++ l2) = K l1 ++ K l2
}.

Lemma keep_holes_policy : hole_policy keep_holes (fun l => l).
Proof. split; [|reflexivity..]. intros x pre l1 l2 E. exists x. auto. Qed.

Lemma erase_holes_policy : hole_policy erase_holes (fun _ => []).
Proof.
  split; [|reflexivity..]. intros x pre l1 l2 E.
  destruct (erase_range_mid x pre l1 l2 E) as (x' & Hx & Ex). exists x'.
  unfold erase_holes. rewrite app_nil_r. auto.
Qed.

(** The outcome of a search from [m] and [t], the lists from the two iterators on. *)
Definition pair_found (K : list Interval -> list Interval) (pre m q t : list Interval)
    (x' : B) (mine theirs : nat) : Prop :=
  exists m1 a m2 t1 c t2, m = m1 ++ a :: m2 /\ t = t1 ++ c :: t2 /\
    Intersects a c = true /\ elems x' = pre ++ K m1 ++ a :: m2 /\
    mine = length (pre ++ K m1) /\ theirs = length (q ++ t1) /\
    apart m1 t /\ apart m t1.

Definition pair_result K pre m q t (r : bool * B * nat * nat) : Prop :=
  let '(found, x', mine, theirs) := r in
  if found then pair_found K pre m q t x' mine theirs
  else apart m t /\ (t <> [] -> elems x' = pre ++ K m).

(** A round that skips [l1] and [t1] makes progress, and the rest of the search
    answers for the whole of it. *)
Lemma skip_progress a m c t l1 a2 l2 t1 c2 t2 :
  limit a <= start c \/ limit c <= start a ->
  a :: m = l1 ++ a2 :: l2 -> c :: t = t1 ++ c2 :: t2 ->
  (limit a2 <=? start c) = false -> (limit c2 <=? start a2) = false ->
  (length (a2 :: l2) + length (c2 :: t2) < length (a :: m) + length (c :: t))%nat.
Proof.
  intros Hac El Et Ha2 Hc2. rewrite El, Et, !length_app.
  destruct l1 as [|a1 l1]; [|simpl; lia]. destruct t1 as [|c1 t1]; [|simpl; lia].
  simpl in El, Et. simplify_eq. lia.
Qed.

Lemma pair_result_skip on_hole K (HK : hole_policy on_hole K) pre l1 m q t1 t r :
  apart l1 (t1 ++ t) -> apart m t1 -> t <> [] ->
  pair_result K (pre ++ K l1) m (q ++ t1) t r -> pair_result K pre (l1 ++ m) q (t1 ++ t) r.
Proof.
  intros Hl1 Ht1 Ht. destruct r as [[[found x'] mine] theirs].
  assert (Hm1 : forall u1, apart m u1 -> apart l1 (t1 ++ u1) -> apart (l1 ++ m) (t1 ++ u1)).
  { intros u1 Hu Hl. apply apart_app_l. split; [auto|]. apply apart_app_r. auto. }
  destruct found; simpl.
  - intros (m1 & a & m2 & u1 & c & u2 & -> & -> & Hi & Ex' & -> & -> & Hm & Hu).
    exists (l1 ++ m1), a, m2, (t1 ++ u1), c, u2.
    rewrite (hole_app _ _ HK), <- !app_assoc in *. split_and!; auto.
    + apply apart_app_l. split; [auto|]. apply apart_app_r. split; [|auto].
      apply apart_app_l in Ht1. tauto.
    + rewrite !app_assoc in *. apply Hm1; [auto|]. rewrite <- app_assoc in Hl1.
      rewrite !apart_app_r in *. tauto.
  - intros [Hap Hel]. split; [auto|]. intros _. rewrite Hel by auto.
    rewrite (hole_app _ _ HK), <- app_assoc. reflexivity.
Qed.

Lemma FindNextIntersectingPair_spec on_hole K (HK : hole_policy on_hole K) :
  forall fuel x y pre m q t, (length m + length t <= fuel)%nat ->
  elems x = pre ++ m -> elems y = q ++ t -> wf m -> wf t ->
  exists r, FindNextIntersectingPairImpl fuel x y (length pre) (length q) on_hole = Ok r /\
    pair_result K pre m q t r.
Proof.
  induction fuel as [|fuel IH]; intros x y pre m q t Hf Ex Ey Hm Ht; cbn;
    (destruct m as [|a m];
     [ rewrite app_nil_r in Ex; rewrite (is_end_all x pre Ex); eexists; split; [reflexivity|];
       simpl; rewrite (hole_nil _ _ HK), app_nil_r; solve [auto with mem] |]);
    (destruct t as [|c t];
     [ rewrite app_nil_r in Ey; rewrite (is_end_all y q Ey), orb_true_r; eexists;
       split; [reflexivity|]; simpl; split; [solve [auto with mem] | tauto] |]);
    [simpl in Hf; lia|].
  rewrite (is_end_mid x _ _ _ Ex), (is_end_mid y _ _ _ Ey). cbn [orb].
  rewrite (deref_mid x _ _ _ Ex), (deref_mid y _ _ _ Ey), !bind_Ok.
  destruct (Intersects a c) eqn:Hac.
  { eexists. split; [reflexivity|]. exists [], a, m, [], c, t.
    rewrite (hole_nil _ _ HK), !app_nil_r. split_and!; auto with mem. }
  pose proof Hm as (Ha & _ & _). pose proof Ht as (Hc & _ & _).
  apply not_Intersects in Hac; [|auto|auto].
  destruct (skip_while_spec x (fun a => limit a <=? start c) (a :: m) pre (size x))
    as (l1 & l2 & El & -> & Hl1 & Hl2); [auto | unfold size; rewrite Ex, length_app; lia|].
  rewrite bind_Ok. rewrite El in Ex.
  destruct (hole_run _ _ HK x pre l1 l2 Ex) as (x1 & -> & Ex1). rewrite app_assoc in Ex1.
  assert (Hap1 : apart l1 (c :: t)).
  { apply (apart_upto_from _ (start c)); [|apply wf_from; [auto | lia]].
    eapply Forall_impl; [exact Hl1|]. simpl. intros. lia. }
  destruct l2 as [|a2 l2].
  { rewrite !app_nil_r in *. rewrite (is_end_all x1 _ Ex1). eexists.
    split; [reflexivity|]. simpl. rewrite El. auto. }
  rewrite (is_end_mid x1 _ _ _ Ex1), (deref_mid x1 _ _ _ Ex1), bind_Ok.
  destruct (skip_while_spec y (fun b => limit b <=? start a2) (c :: t) q (size y))
    as (t1 & t2 & Et & -> & Ht1 & Ht2); [auto | unfold size; rewrite Ey, length_app; lia|].
  rewrite bind_Ok. rewrite Et in Ey. rewrite app_assoc in Ey.
  rewrite El in Hm. apply wf_app in Hm as (_ & Hm2 & _).
  assert (Hap2 : apart (a2 :: l2) t1).
  { apply apart_sym, (apart_upto_from _ (start a2)); [|apply wf_from; [auto|lia]].
    eapply Forall_impl; [exact Ht1|]. simpl. intros. lia. }
  destruct t2 as [|c2 t2].
  { rewrite app_nil_r in *. rewrite (is_end_all y _ Ey).
    destruct (hole_run _ _ HK x1 (pre ++ K l1) (a2 :: l2) []) as (x2 & Hx2 & Ex2);
      [rewrite app_nil_r; auto|].
    replace (size x1) with (length ((pre ++ K l1) ++ a2 :: l2))
      by (unfold size; rewrite Ex1; reflexivity).
    rewrite Hx2. eexists. split; [reflexivity|]. simpl. rewrite El, Et in *. split.
    - apply apart_app_l. auto.
    - intros _. rewrite Ex2, (hole_app _ _ HK), app_nil_r, <- app_assoc. reflexivity. }
  rewrite (is_end_mid y _ _ _ Ey).
  pose proof (skip_progress _ _ _ _ _ _ _ _ _ _ Hac El Et Hl2 Ht2) as Hlen.
  rewrite Et in Ht. apply wf_app in Ht as (_ & Ht2w & _).
  destruct (IH x1 y (pre ++ K l1) (a2 :: l2) (q ++ t1) (c2 :: t2)) as (r & -> & Hr); auto;
    [lia|].
  exists r. split; [reflexivity|]. rewrite El, Et.
  apply (pair_result_skip _ _ HK); auto. rewrite <- Et. auto.
Qed.

(** ** Candidates and spans *)

Lemma FindIntersectionCandidate_spec s i : wf (elems s) -> elems s <> [] ->
  exists l1 a l2, elems s = l1 ++ a :: l2 /\
    FindIntersectionCandidate s i = Ok (length l1) /\ upto l1 (start i) /\
    (l1 = [] \/ start a <= start i) /\ Forall (fun b => IntervalLess i b = true) l2 /\
    (i ∈ elems s -> a = i).
Proof.
  intros Hwf Hne. unfold FindIntersectionCandidate.
  destruct (upper_bound_split s (KInterval i)) as (k1 & k2 & E & -> & H1 & H2);
    [auto with mem|]. simpl in H1, H2.
  destruct k1 as [|q p _] using rev_ind.
  - destruct k2 as [|a l2]; [rewrite E in Hne; done|]. exists [], a, l2.
    inversion_clear H2 as [|? ? Ha Hl2]. split_and!; auto; [constructor|].
    rewrite E. intros [->|Hin]%elem_of_cons; [auto|]. rewrite Forall_forall in Hl2.
    specialize (Hl2 i Hin). rewrite IntervalLess_irrefl in Hl2. discriminate.
  - rewrite iter_prev_mid. rewrite length_app, Nat.add_comm. simpl.
    exists p, q, k2. assert (E' : elems s = p ++ q :: k2) by
      (rewrite E, <- app_assoc; reflexivity). rewrite E' in *.
    apply Forall_app in H1 as [Hp Hq]. rewrite Forall_singleton in Hq.
    assert (Hqs : start q <= start i) by (unfold IntervalLess in Hq; lia).
    pose proof Hwf as (Hwp & _ & Hb)%wf_app. apply before_cons_r in Hb as [Hb _].
    pose proof (before_upto _ _ Hb) as Hu. split_and!; auto.
    + eapply upto_weaken; eauto.
    + rewrite elem_of_app, elem_of_cons. intros [Hi|[->|Hi]]; [|auto|].
      * pose proof (wf_points _ _ Hwp Hi). unfold upto in Hu. rewrite Forall_forall in Hu.
        specialize (Hu i Hi). simpl in Hu. lia.
      * rewrite Forall_forall in H2. specialize (H2 i Hi).
        rewrite IntervalLess_irrefl in H2. discriminate.
Qed.

Lemma spans_apart_spec s o : wf (elems s) -> wf (elems o) ->
  exists b, spans_apart s o = Ok b /\
    if (b : bool) then apart (elems s) (elems o) else elems s <> [] /\ elems o <> [].
Proof.
  intros Hs Ho. unfold spans_apart, or_else.
  destruct (set_is_empty_cases s) as [[-> Es] | [-> (a & l & b & k & E1 & E2)]];
    rewrite ?bind_Ok.
  { exists true. rewrite Es. auto with mem. }
  destruct (set_is_empty_cases o) as [[-> Eo] | [-> (c & m & d & n & E3 & E4)]];
    rewrite ?bind_Ok.
  { exists true. rewrite Eo. auto with mem. }
  rewrite (deref_0 s a l E1), (deref_0 o c m E3), ?bind_Ok.
  rewrite (rbegin_last s k b E2), (rbegin_last o n d E4), ?bind_Ok.
  pose proof E2 as Esk. pose proof E4 as Eok. rewrite E1 in Hs, Esk. rewrite E3 in Ho, Eok.
  pose proof (wf_first_last a l b k Hs Esk) as Hfs.
  pose proof (wf_first_last c m d n Ho Eok) as Hfo. rewrite E1, E3.
  destruct (limit d <=? start a) eqn:H1; rewrite ?bind_Ok.
  { exists true. split; [reflexivity|]. apply apart_sym, (apart_upto_from _ (start a)).
    - eapply Forall_impl; [exact Hfo|]. simpl. intros. lia.
    - eapply Forall_impl; [exact Hfs|]. simpl. intros. lia. }
  destruct (limit b <=? start c) eqn:H2; rewrite ?bind_Ok.
  { exists true. split; [reflexivity|]. apply (apart_upto_from _ (start c)).
    - eapply Forall_impl; [exact Hfs|]. simpl. intros. lia.
    - eapply Forall_impl; [exact Hfo|]. simpl. intros. lia. }
  exists false. auto.
Qed.

(** The candidates of two sets: nothing before them matters. *)
Lemma candidates_apart s o l1 a l2 t1 c t2 : wf (elems s) -> wf (elems o) ->
  elems s = l1 ++ a :: l2 -> elems o = t1 ++ c :: t2 ->
  (forall d r, elems o = d :: r -> upto l1 (start d)) -> upto t1 (start a) ->
  apart l1 (elems o) /\ apart (a :: l2) t1.
Proof.
  intros Hs Ho E1 E2 H1 H2. split.
  - destruct (elems o) as [|d r]; [auto with mem|].
    apply (apart_upto_from _ (start d)); [eauto|]. apply wf_from; [auto | lia].
  - apply apart_sym, (apart_upto_from _ (start a)); [auto|].
    rewrite E1 in Hs. apply wf_app in Hs as (_ & Hs & _). apply wf_from; [auto|lia].
Qed.

Lemma Intersects_set_spec s o : wf (elems s) -> wf (elems o) ->
  exists b, Intersects_set s o = Ok b /\
    (b = true <-> exists x, mem (elems s) x /\ mem (elems o) x).
Proof.
  intros Hs Ho. unfold Intersects_set.
  destruct (spans_apart_spec s o Hs Ho) as (b & -> & Hb). rewrite bind_Ok. destruct b.
  { exists false. split; [auto|]. split; [done|]. intros (x & ? & ?). destruct (Hb x); auto. }
  destruct Hb as [Hns Hno]. unfold FindIntersectionCandidate_set.
  destruct (elems o) as [|d r] eqn:Eo; [done|]. rewrite (deref_0 o d r Eo), bind_Ok.
  destruct (FindIntersectionCandidate_spec s d Hs Hns) as (l1 & a & l2 & E & -> & Hu & _).
  rewrite bind_Ok, (is_end_mid s _ _ _ E), (deref_mid s _ _ _ E), bind_Ok.
  rewrite <- Eo in Ho, Hno.
  destruct (FindIntersectionCandidate_spec o a Ho Hno) as (t1 & c & t2 & E' & -> & Hv & _).
  rewrite bind_Ok.
  destruct (candidates_apart s o l1 a l2 t1 c t2) as [Hl1 Ht1]; auto.
  { intros d' r' Ed. rewrite Eo in Ed. simplify_eq. auto. }
  unfold FindNextIntersectingPair, pair_fuel.
  destruct (FindNextIntersectingPair_spec keep_holes _ keep_holes_policy
    (size s + size o) s o l1 (a :: l2) t1 (c :: t2)) as (res & -> & Hr); auto.
  { unfold size. rewrite E, E', !length_app. lia. }
  { rewrite E in Hs. apply wf_app in Hs. tauto. }
  { rewrite E' in Ho. apply wf_app in Ho. tauto. }
  destruct res as [[[found x'] mine] theirs]. rewrite !bind_Ok. exists found.
  split; [reflexivity|]. rewrite <- Eo, E, E' in *. simpl in Hr. destruct found.
  - split; [intros _|auto].
    destruct Hr as (m1 & a' & m2 & u1 & c' & u2 & -> & -> & Hi & _).
    exists (Z.max (start a') (start c')). rewrite !mem_app, !mem_cons.
    unfold Intersects, empty, pt in *. intuition lia.
  - split; [done|]. destruct Hr as [Hap _]. intros (x & Hx & Hy). exfalso.
    rewrite mem_app in Hx. destruct Hx as [Hx|Hx]; [eapply Hl1; eauto|].
    rewrite mem_app in Hy. destruct Hy as [Hy|Hy]; [eapply Ht1 | eapply Hap]; eauto.
Qed.

(** ** Valid, equality and the span *)

Lemma wf_adjacent a l : wf (a :: l) <-> start a < limit a /\ wf l /\
  match l with [] => True | b :: _ => limit a < start b end.
Proof.
  simpl. destruct l as [|b l]; simpl; [intuition constructor|].
  split; [intros (? & Hb & ?); inversion_clear Hb; auto|].
  intros (? & (? & Hb & ?) & ?). split_and!; auto. constructor; [auto|].
  eapply Forall_impl; [exact Hb|]. simpl. intros. lia.
Qed.

Lemma Valid_loop_wf l : forall p, Valid_loop (Some p) l = true <-> wf l /\
  match l with [] => True | a :: _ => limit p < start a end.
Proof.
  induction l as [|a l IH]; intros p; [simpl; tauto|]. cbn [Valid_loop].
  rewrite wf_adjacent. destruct (limit a <=? start a) eqn:H1; [intuition (done || lia)|].
  destruct (start a <=? limit p) eqn:H2; [intuition (done || lia)|].
  rewrite IH. intuition lia.
Qed.

Lemma Valid_wf s : Valid s = true <-> wf (elems s).
Proof.
  unfold Valid. destruct (elems s) as [|a l]; [simpl; tauto|]. cbn [Valid_loop].
  rewrite wf_adjacent. destruct (limit a <=? start a) eqn:H1; [intuition (done || lia)|].
  rewrite Valid_loop_wf. intuition lia.
Qed.

Lemma mem_start_ge a l x : wf (a :: l) -> mem (a :: l) x -> start a <= x.
Proof.
  intros Hwf. rewrite mem_elem. intros (b & Hb & Hx).
  pose proof (wf_from a l (start a) Hwf ltac:(lia)) as Hf. unfold from in Hf.
  rewrite Forall_forall in Hf. specialize (Hf b Hb). unfold pt in Hx. simpl in Hf. lia.
Qed.

Lemma mem_tail_gt a l x : wf (a :: l) -> mem l x -> limit a < x.
Proof.
  intros (_ & Hl & _). rewrite mem_elem. intros (b & Hb & Hx).
  rewrite Forall_forall in Hl. specialize (Hl b Hb). unfold pt in Hx. simpl in Hl. lia.
Qed.

(** A set of points has one well-formed list. *)
Lemma wf_canonical l : forall k, wf l -> wf k -> (forall x, mem l x <-> mem k x) -> l = k.
Proof.
  assert (Hhead : forall a l, wf (a :: l) -> mem (a :: l) (start a)).
  { intros a l0 (? & _). rewrite mem_cons. left. unfold pt. lia. }
  induction l as [|a l IH]; intros [|b k] Hl Hk Hm; [reflexivity| | |].
  { apply Hhead, Hm, mem_nil in Hk. tauto. }
  { apply Hhead, Hm, mem_nil in Hl. tauto. }
  assert (Hs : start a = start b).
  { pose proof (mem_start_ge _ _ _ Hl (proj2 (Hm _) (Hhead _ _ Hk))).
    pose proof (mem_start_ge _ _ _ Hk (proj1 (Hm _) (Hhead _ _ Hl))). lia. }
  pose proof Hl as (Ha & _ & Hwl). pose proof Hk as (Hb & _ & Hwk).
  pose proof (fun x => mem_tail_gt _ _ x Hl) as Htl.
  pose proof (fun x => mem_tail_gt _ _ x Hk) as Htk.
  assert (He : limit a = limit b).
  { destruct (Z.lt_trichotomy (limit a) (limit b)) as [Hlt|[?|Hlt]]; [|auto|].
    - assert (Hx : mem (a :: l) (limit a)) by (apply Hm, mem_cons; left; unfold pt; lia).
      apply mem_cons in Hx as [Hx|Hx]; [unfold pt in Hx | specialize (Htl _ Hx)]; lia.
    - assert (Hx : mem (b :: k) (limit b)) by (apply Hm, mem_cons; left; unfold pt; lia).
      apply mem_cons in Hx as [Hx|Hx]; [unfold pt in Hx | specialize (Htk _ Hx)]; lia. }
  assert (a = b) as -> by (destruct a, b; simpl in *; congruence). f_equal.
  apply IH; auto. intros x. specialize (Hm x). rewrite !mem_cons in Hm.
  specialize (Htl x). specialize (Htk x). unfold pt in Hm. intuition lia.
Qed.

Lemma set_eq_elems s o : set_eq s o = true <-> elems s = elems o.
Proof.
  unfold set_eq, size. generalize (elems s) (elems o). intros l.
  induction l as [|a l IH]; intros [|b k]; simpl; try (intuition done).
  specialize (IH k). rewrite !andb_true_iff in *.
  assert (Hab : a = b <-> start a = start b /\ limit a = limit b)
    by (destruct a, b; simpl; naive_solver).
  rewrite !Z.eqb_eq, <- Hab. naive_solver.
Qed.

Lemma SpanningInterval_spec s : wf (elems s) ->
  exists i, SpanningInterval s = Ok i /\
    (forall x, mem (elems s) x -> pt i x) /\
    (empty i = true <-> elems s = []) /\
    (elems s <> [] -> mem (elems s) (start i) /\ mem (elems s) (limit i - 1)).
Proof.
  intros Hwf. unfold SpanningInterval.
  destruct (set_is_empty_cases s) as [[-> Es] | [-> (a & l & b & k & E1 & E2)]]; simpl.
  { eexists. split; [reflexivity|]. rewrite Es. setoid_rewrite mem_nil. split_and!; try done. }
  rewrite (deref_0 s a l E1), bind_Ok, (rbegin_last s k b E2), bind_Ok.
  eexists. split; [reflexivity|]. unfold set_limit, set_start, empty, pt. simpl.
  pose proof E2 as E3. rewrite E1 in Hwf, E3.
  pose proof (wf_first_last a l b k Hwf E3) as Hf. rewrite Forall_forall in Hf.
  pose proof (wf_points _ a Hwf ltac:(set_solver)) as Hpa.
  assert (Hin : b ∈ a :: l) by (rewrite E3; set_solver).
  pose proof (wf_points _ b Hwf Hin) as Hpb.
  pose proof (Hf a ltac:(set_solver)) as Hfa. rewrite E1. split_and!.
  - intros x. rewrite mem_elem. intros (e & He & Hx). specialize (Hf e He).
    unfold pt in Hx. lia.
  - split; [lia | discriminate].
  - intros _. split; apply mem_elem; [exists a | exists b]; (split; [set_solver | unfold pt; lia]).
Qed.
End pairs.
