(* ===== verification/IntervalSetDiff.v ===== *)
(** * Interval sets: intersection, difference and complement

    The loops of [Intersection] and of the two [Difference]s, on sets with well-formed
    lists: they end within the fuel, never read through an invalid iterator, pass
    their checks, and leave a well-formed list with the points the header promises.  The
    loop of [Difference] with a set ends because every round removes an intersecting
    pair of intervals, counted by [npairs]. *)
From Stdlib Require Import ZArith Lia Bool Sorting.Sorted.
From stdpp Require Import base sets list.
From S2P Require Import Prelude.
From S2P Require Import Interval.
From S2P Require Import IntervalSet.
From S2P Require Import IntervalSetProps.
From S2P Require Import IntervalSetOps.
From S2P Require Import IntervalSetPairs.
Local Open Scope Z_scope.

(** ** Replacing a part of a well-formed list by what lies within it *)

Lemma wf_replace l1 m l2 r : wf (l1 ++ m ++ l2) -> wf r -> within r m -> wf (l1 ++ r ++ l2).
Proof.
  rewrite !wf_app, !before_app_r. intros (? & (? & ? & Hm2) & Hm1 & ?) Hr Hw.
  split_and!; eauto using before_within_l, before_within_r.
Qed.

Lemma wf_drop_mid l1 m l2 : wf (l1 ++ m ++ l2) -> wf (l1 ++ l2).
Proof. intros Hwf. apply (wf_replace l1 m l2 []); auto; constructor. Qed.

Lemma within_one a b : start b <= start a -> limit a <= limit b -> within [a] [b].
Proof. intros. constructor; [|constructor]. constructor. auto. Qed.

Section container_wf.
Context {B : Type} `{HB : BtreeSet B} `{HL : !BtreeSetLaws B} `{HM : BuildMode}.
Implicit Types s o : B.

Lemma wf_mid_order l1 x l2 : wf (l1 ++ x :: l2) ->
  lt_all l1 x /\ gt_all x l2 /\ ordered (l1 ++ l2).
Proof.
  intros Hwf. split_and!.
  - apply wf_app in Hwf as (? & ? & Hb). apply before_cons_r in Hb as [? _].
    apply wf_before_lt; auto using wf_Forall.
  - apply wf_app in Hwf as (_ & (? & ? & ?)%wf_cons & _). apply before_gt; auto.
  - apply wf_ordered. apply (wf_drop_mid l1 [x] l2). auto.
Qed.

Lemma ReplaceInterval_wf s l1 a l2 x : elems s = l1 ++ a :: l2 -> wf (l1 ++ x :: l2) ->
  exists s', ReplaceInterval s (length l1) x = Ok (s', length l1) /\
    elems s' = l1 ++ x :: l2.
Proof.
  intros E (H1 & H2 & H3)%wf_mid_order. apply (ReplaceInterval_mid s l1 a l2 x); auto.
Qed.

Lemma insert_wf s h l1 l2 x : elems s = l1 ++ l2 -> (h <= length (elems s))%nat ->
  wf (l1 ++ x :: l2) ->
  exists s', bt_insert_hint s h x = (s', length l1) /\ elems s' = l1 ++ x :: l2.
Proof. intros E Hh (H1 & H2 & H3)%wf_mid_order. apply insert_mid; auto. Qed.

(** ** Intersection *)

Definition meet (i c : Interval) : Interval :=
  mkI (Z.max (start i) (start c)) (Z.min (limit i) (limit c)).

Lemma Intersects_out_meet i c : Intersects_out i c (Some default_Interval) =
  (Intersects i c, if Intersects i c then Some (meet i c) else Some default_Interval).
Proof. unfold Intersects_out. destruct (Intersects i c); reflexivity. Qed.

Lemma meet_pt i c x : pt (meet i c) x <-> pt i x /\ pt c x.
Proof. unfold pt, meet. simpl. lia. Qed.

(** The inner loop puts the meets of [i] with a run of the other set in its place. *)
Lemma insert_intersections_spec o i t : forall fuel s P m2 q h,
  elems s = P ++ m2 -> wf (P ++ m2) -> (h <= length (elems s))%nat ->
  elems o = q ++ t -> wf t -> (length t <= fuel)%nat -> before [i] m2 ->
  Forall (fun e => forall c, c ∈ t -> limit e < Z.max (start i) (start c)) P ->
  exists s' t1 t2 h', t = t1 ++ t2 /\
    insert_intersections fuel s o i h (length q) = Ok (s', h', length (q ++ t1)) /\
    elems s' = (P ++ map (meet i) t1) ++ m2 /\ wf (elems s') /\
    Forall (fun c => Intersects i c = true) t1 /\
    match t2 with [] => True | c :: _ => Intersects i c = false end /\
    match t1 with [] => h' = h | _ => h' = pred (length (P ++ map (meet i) t1)) end.
Proof.
  induction t as [|c t IH]; intros fuel s P m2 q h E Hwf Hh Eo Ht Hf Hm2 HP.
  { exists s, [], [], h. simpl. rewrite !app_nil_r in *.
    split_and!; auto; [|rewrite E; auto].
    destruct fuel; simpl; rewrite (is_end_all o q Eo); reflexivity. }
  destruct (Intersects i c) eqn:Hic.
  2:{ exists s, [], (c :: t), h. simpl. rewrite !app_nil_r. split_and!; auto; [|rewrite E; auto].
      destruct fuel; cbn [insert_intersections];
        rewrite (is_end_mid o _ _ _ Eo), (deref_mid o _ _ _ Eo), bind_Ok,
          Intersects_out_meet, Hic; reflexivity. }
  destruct fuel as [|fuel]; [simpl in Hf; lia|].
  assert (Hi : start i < limit i /\ start c < limit c /\ start i < limit c /\ start c < limit i)
    by (unfold Intersects, empty in Hic; lia).
  assert (Hwf' : wf (P ++ meet i c :: m2)).
  { apply wf_app in Hwf as (HwP & Hwm & HPm). apply wf_app. split_and!; auto.
    - apply wf_cons. split_and!; auto; [unfold has_points, meet; simpl; lia|].
      apply (before_within_l _ [i]); auto. apply within_one; unfold meet; simpl; lia.
    - apply before_cons_r. split; [|auto]. apply before_intro. intros e b He Hb.
      apply list_elem_of_singleton in Hb as ->. rewrite Forall_forall in HP.
      apply (HP e He c). set_solver. }
  destruct (insert_wf s h P m2 (meet i c) E Hh Hwf') as (s1 & Hins & E1).
  pose proof Ht as (_ & Hct & Htw).
  destruct (IH fuel s1 (P ++ [meet i c]) m2 (q ++ [c]) (length P)) as
    (s' & t1 & t2 & h' & -> & Hrun & E' & Hw & H1 & H2 & Hh').
  { rewrite <- app_assoc. auto. }
  { rewrite <- app_assoc. auto. }
  { rewrite E1, length_app. lia. }
  { rewrite <- app_assoc. auto. }
  { auto. }
  { simpl in Hf. lia. }
  { auto. }
  { apply Forall_app. split.
    - eapply Forall_impl; [exact HP|]. simpl. set_solver.
    - constructor; [|constructor]. intros d Hd. rewrite Forall_forall in Hct.
      specialize (Hct d Hd). simpl in *. lia. }
  exists s', (c :: t1), t2, h'. split; [reflexivity|]. split.
  { cbn [insert_intersections].
    rewrite (is_end_mid o _ _ _ Eo), (deref_mid o _ _ _ Eo), bind_Ok, Intersects_out_meet, Hic.
    rewrite Hins. rewrite length_app, Nat.add_comm in Hrun. simpl in Hrun. rewrite Hrun.
    rewrite <- app_assoc. reflexivity. }
  split_and!; auto; [rewrite E', <- !app_assoc; reflexivity|].
  destruct t1; rewrite Hh'; rewrite !length_app; simpl; lia.
Qed.

Lemma Forall_meet i t1 x : mem (map (meet i) t1) x <-> pt i x /\ mem t1 x.
Proof.
  induction t1 as [|c t1 IH]; simpl; [rewrite mem_nil; tauto|].
  rewrite !mem_cons, IH, meet_pt. tauto.
Qed.

(** The run [v ++ [d]] that met [a], seen from what is left of both sets. *)
Lemma run_points a m2 v d u2 : Forall (fun c => Intersects a c = true) (v ++ [d]) ->
  match u2 with [] => True | c :: _ => Intersects a c = false end ->
  wf (v ++ [d] ++ u2) -> before [a] m2 -> apart [a] u2 /\ apart m2 v.
Proof.
  intros Hv Hu2 Hwf Hm2. apply Forall_app in Hv as [Hv Hd]. rewrite Forall_singleton in Hd.
  assert (Hb : start a < limit a /\ start d < limit d /\ start a < limit d /\ start d < limit a)
    by (unfold Intersects, empty in Hd; lia).
  apply wf_app in Hwf as (_ & Hdu & Hvd). apply before_cons_r in Hvd as [Hvd _].
  pose proof Hdu as (_ & Hdu' & Hwu). split.
  - destruct u2 as [|c u2]; [auto with mem|].
    inversion_clear Hdu' as [|? ? Hc _]. pose proof Hwu as (Hpc & _).
    apply (apart_upto_from _ (start c)); [|apply wf_from; [auto|lia]].
    constructor; [|constructor]. unfold Intersects, empty in Hu2. lia.
  - apply apart_sym, (apart_upto_from _ (start d)); [apply before_upto; auto|].
    apply Forall_forall. intros e He.
    pose proof (before_elem _ _ a e Hm2 ltac:(set_solver) He). lia.
Qed.

Lemma Intersection_loop_spec o : forall fuel s pre m q t,
  (length m <= fuel)%nat -> elems s = pre ++ m -> wf (pre ++ m) ->
  elems o = q ++ t -> wf t -> t <> [] ->
  exists s' r, Intersection_loop fuel s o (length pre) (length q) = Ok s' /\
    elems s' = pre ++ r /\ wf (elems s') /\ forall x, mem r x <-> mem m x /\ mem t x.
Proof.
  induction fuel as [fuel IH] using lt_wf_ind. intros s pre m q t Hf E Hwf Eo Ht Hne.
  assert (Hm : wf m) by (apply wf_app in Hwf; tauto).
  destruct (FindNextIntersectingPair_spec erase_holes _ erase_holes_policy
    (pair_fuel s o) s o pre m q t) as (res & Hres & Hr); auto.
  { unfold pair_fuel, size. rewrite E, Eo, !length_app. lia. }
  destruct res as [[[found x'] mine] theirs]. simpl in Hr.
  destruct found.
  2:{ destruct Hr as [Hap Hel]. specialize (Hel Hne). exists x', [].
      assert (Hw' : wf (elems x')) by (rewrite Hel, app_nil_r; apply wf_app in Hwf; tauto).
      split_and!; auto.
      - destruct fuel; simpl; unfold FindNextIntersectingPairAndEraseHoles;
          rewrite Hres; reflexivity.
      - intros x. rewrite mem_nil. specialize (Hap x). tauto. }
  destruct Hr as (m1 & a & m2 & t1 & c & t2 & -> & -> & Hac & E' & -> & -> & Hm1 & Ht1).
  rewrite app_nil_r in Hres. simpl in E'.
  destruct fuel as [|fuel]; [rewrite length_app in Hf; simpl in Hf; lia|].
  cbn [Intersection_loop]. unfold FindNextIntersectingPairAndEraseHoles. rewrite Hres, bind_Ok.
  rewrite (deref_mid x' _ _ _ E'), bind_Ok.
  destruct (erase_mid x' pre a m2 E') as (s1 & -> & E1). rewrite bind_Ok.
  apply wf_drop_mid in Hwf as Hwf1. rewrite <- ?app_assoc in Hwf1.
  assert (Hpre2 : wf (pre ++ a :: m2)) by exact Hwf1.
  pose proof Hpre2 as (Hwp & (Ha & Ham & Hwm)%wf_cons & Hpa)%wf_app.
  apply before_cons_r in Hpa as [Hpa Hpm].
  destruct (insert_intersections_spec o a (c :: t2) (size o) s1 pre m2 (q ++ t1) (size s1))
    as (s2 & u1 & u2 & h' & Eu & -> & E2 & Hw2 & Hu1 & Hu2 & Hh'); auto.
  { apply (wf_drop_mid pre [a] m2). auto. }
  { rewrite Eo, <- app_assoc. reflexivity. }
  { apply wf_app in Ht. tauto. }
  { unfold size. rewrite Eo, !length_app. simpl. lia. }
  { apply Forall_forall. intros e He d _.
    pose proof (before_elem _ _ e a Hpa He ltac:(set_solver)). lia. }
  rewrite bind_Ok. apply wf_app in Ht as (_ & Hct & _).
  destruct u1 as [|d v _] using rev_ind.
  { simpl in Eu. subst u2. congruence. }
  assert (Hh : S h' = length (pre ++ map (meet a) (v ++ [d]))).
  { destruct (v ++ [d]) eqn:Ev; [destruct v; discriminate|].
    rewrite Hh', length_app. simpl. lia. }
  rewrite Eu, <- app_assoc in Hct.
  destruct (run_points a m2 v d u2 Hu1 Hu2 Hct Ham) as [Hau Hmv].
  assert (Hnend : is_end s2 h' = false).
  { unfold is_end, size. rewrite E2, length_app, <- Hh. apply Nat.eqb_neq. lia. }
  rewrite Hnend. simpl. rewrite DCHECK_true, bind_Ok, app_assoc, iter_prev_mid, bind_Ok.
  unfold iter_next. rewrite Hnend, bind_Ok, Hh.
  destruct (IH fuel ltac:(lia) s2 (pre ++ map (meet a) (v ++ [d])) m2 ((q ++ t1) ++ v) (d :: u2))
    as (s' & r & -> & E3 & Hw3 & Hmem); auto.
  { rewrite length_app in Hf. simpl in Hf. lia. }
  { rewrite <- E2. auto. }
  { rewrite Eo, Eu, <- !app_assoc. reflexivity. }
  { apply wf_app in Hct. tauto. }
  exists s', (map (meet a) (v ++ [d]) ++ r). split_and!; auto.
  { rewrite E3, <- app_assoc. reflexivity. }
  intros x. specialize (Hm1 x). specialize (Ht1 x). specialize (Hau x). specialize (Hmv x).
  rewrite mem_app, Forall_meet, Hmem. rewrite Eu in *.
  autorewrite with mem in *. tauto.
Qed.

Lemma Intersection_other_spec s o : wf (elems s) -> wf (elems o) ->
  exists s', Intersection_other s o = Ok s' /\ wf (elems s') /\
    forall x, mem (elems s') x <-> mem (elems s) x /\ mem (elems o) x.
Proof.
  intros Hs Ho. unfold Intersection_other.
  destruct (spans_apart_spec s o Hs Ho) as (b & -> & Hb). rewrite bind_Ok. destruct b.
  { exists (bt_clear s). rewrite clear_law. split_and!; [auto | exact I |].
    intros x. rewrite mem_nil. specialize (Hb x). tauto. }
  destruct Hb as [Hns Hno]. unfold FindIntersectionCandidate_set.
  destruct (elems o) as [|d r] eqn:Eo; [done|]. rewrite (deref_0 o d r Eo), bind_Ok.
  destruct (FindIntersectionCandidate_spec s d Hs Hns) as (l1 & a & l2 & E & -> & Hu & _).
  rewrite bind_Ok. destruct (erase_range_mid s [] l1 (a :: l2)) as (s1 & Her & E1); [auto|].
  simpl in Her, E1. rewrite Her, (deref_0 s1 a l2 E1), bind_Ok.
  rewrite <- Eo in Ho, Hno.
  destruct (FindIntersectionCandidate_spec o a Ho Hno) as (t1 & c & t2 & E' & -> & Hv & _).
  rewrite bind_Ok.
  destruct (candidates_apart s o l1 a l2 t1 c t2) as [Hl1 Ht1]; auto.
  { intros d' r' Ed. rewrite Eo in Ed. simplify_eq. auto. }
  destruct (Intersection_loop_spec o (size s1) s1 [] (a :: l2) t1 (c :: t2))
    as (s' & k & Hrun & E2 & Hw & Hmem); auto.
  { unfold size. rewrite E1. auto. }
  { rewrite E in Hs. apply wf_app in Hs. tauto. }
  { rewrite E' in Ho. apply wf_app in Ho. tauto. }
  simpl in Hrun. rewrite Hrun, bind_Ok, (proj2 (Valid_wf s') Hw), DCHECK_true, bind_Ok.
  exists s'. split_and!; auto. intros x. rewrite E2, <- Eo, E, E' in *.
  specialize (Hl1 x). specialize (Ht1 x). rewrite Hmem, !mem_app in *. tauto.
Qed.
End container_wf.

(** ** The number of intersecting pairs *)

Definition hits (a : Interval) (t : list Interval) : nat :=
  length (List.filter (Intersects a) t).
Fixpoint npairs (m t : list Interval) : nat :=
  match m with [] => 0 | a :: m => hits a t + npairs m t end.

Lemma hits_app a t1 t2 : hits a (t1 ++ t2) = (hits a t1 + hits a t2)%nat.
Proof. unfold hits. rewrite List.filter_app. apply length_app. Qed.

Lemma hits_le a t : (hits a t <= length t)%nat.
Proof. apply List.filter_length_le. Qed.

Lemma hits_within a b t : start b <= start a -> limit a <= limit b -> (hits a t <= hits b t)%nat.
Proof.
  intros Hs Hl. unfold hits. induction t as [|c t IH]; simpl; [lia|].
  destruct (Intersects a c) eqn:Ha; simpl; [|destruct (Intersects b c); simpl; lia].
  assert (Intersects b c = true) as -> by (unfold Intersects, empty in *; lia). simpl. lia.
Qed.

Lemma hits_from a v t : from v t -> limit a <= v -> hits a t = 0%nat.
Proof.
  unfold hits. induction 1 as [|c t Hc _ IH]; intros Ha; simpl; [reflexivity|].
  assert (Intersects a c = false) as -> by (unfold Intersects, empty; lia). auto.
Qed.

Lemma hits_empty a t : empty a = true -> hits a t = 0%nat.
Proof.
  intros Ha. unfold hits. induction t as [|c t IH]; simpl; [reflexivity|].
  unfold Intersects at 1. rewrite Ha. exact IH.
Qed.

Lemma npairs_app m1 m2 t : npairs (m1 ++ m2) t = (npairs m1 t + npairs m2 t)%nat.
Proof. induction m1; simpl; lia. Qed.

Lemma npairs_le m t : (npairs m t <= length m * length t)%nat.
Proof. induction m as [|a m IH]; simpl; [lia|]. pose proof (hits_le a t). lia. Qed.

Lemma npairs_suffix m t1 t2 : (npairs m t2 <= npairs m (t1 ++ t2))%nat.
Proof. induction m as [|a m IH]; simpl; [lia|]. rewrite hits_app. lia. Qed.

(** Dropping the pair [a], [c] from the count. *)
Lemma npairs_round m1 a m2 t1 c t2 r : Intersects a c = true ->
  (npairs r (c :: t2) <= hits a t2 + npairs m2 (c :: t2))%nat ->
  (npairs r (c :: t2) < npairs (m1 ++ a :: m2) (t1 ++ c :: t2))%nat.
Proof.
  intros Hac Hr. rewrite npairs_app. simpl. rewrite hits_app.
  pose proof (npairs_suffix m2 t1 (c :: t2)). unfold hits in *. simpl. rewrite Hac. simpl. lia.
Qed.

(** ** The parts of [a] that [c] leaves *)

Definition optional (a : Interval) : list Interval := if empty a then [] else [a].

Lemma mem_optional a x : mem (optional a) x <-> pt a x.
Proof.
  unfold optional. destruct (empty a) eqn:E; [|rewrite mem_cons, mem_nil; tauto].
  apply empty_true in E. rewrite mem_nil. unfold pt. lia.
Qed.

(** The two parts in the place of [a]: still well formed, fewer pairs, and [lo] is
    clear of what follows. *)
Lemma parts_spec P a c m2 t2 lo hi : wf (P ++ a :: m2) -> wf (c :: t2) ->
  Intersects a c = true -> Difference a c = (true, lo, hi) ->
  wf (P ++ optional lo ++ optional hi ++ m2) /\
  wf (P ++ optional hi ++ m2) /\ wf (P ++ optional lo ++ m2) /\
  apart (optional lo) (c :: t2) /\
  (hits hi (c :: t2) <= hits a t2)%nat /\ hits lo (c :: t2) = 0%nat /\
  forall x, pt a x /\ ~ pt c x <-> pt lo x \/ pt hi x.
Proof.
  intros Hwf Ht Hac HD.
  destruct (Difference_intersecting a c Hac) as (lo' & hi' & HD' & Hlo & Hhi & Elo & Ehi).
  rewrite HD in HD'. symmetry in HD'. simplify_eq.
  pose proof Ht as (Hc & Hct & _). pose proof (wf_from c t2 (start c) Ht ltac:(lia)) as Hfc.
  assert (Hel : empty lo = true \/ (limit lo = start c /\ start lo = start a /\ start a < start c)).
  { destruct (empty lo) eqn:E; [auto|]. destruct (Elo eq_refl) as [? ->]. simpl. lia. }
  assert (Heh : empty hi = true \/ (start hi = limit c /\ limit hi = limit a /\ limit c < limit a)).
  { destruct (empty hi) eqn:E; [auto|]. destruct (Ehi eq_refl) as [? ->]. simpl. lia. }
  assert (Hb : start a < limit c /\ start c < limit a)
    by (unfold Intersects, empty in Hac; lia).
  assert (Hw : forall r, wf r -> within r [a] -> wf (P ++ r ++ m2)).
  { intros r. apply (wf_replace P [a] m2 r). exact Hwf. }
  assert (Hl1 : wf (optional lo) /\ within (optional lo) [a]).
  { unfold optional. destruct (empty lo) eqn:E; [split; constructor|].
    apply empty_false in E. split; [simpl; auto|]. apply within_one; intuition (lia || congruence). }
  assert (Hh1 : wf (optional hi) /\ within (optional hi) [a]).
  { unfold optional. destruct (empty hi) eqn:E; [split; constructor|].
    apply empty_false in E. split; [simpl; auto|]. apply within_one; intuition (lia || congruence). }
  split_and!; try (apply Hw; tauto).
  - rewrite (app_assoc (optional lo)). apply Hw.
    + apply wf_app. split_and!; [tauto..|]. apply before_intro. unfold optional.
      intros e f He Hf.
      destruct (empty lo) eqn:E1; [apply elem_of_nil in He; tauto|].
      destruct (empty hi) eqn:E2; [apply elem_of_nil in Hf; tauto|].
      apply list_elem_of_singleton in He as ->. apply list_elem_of_singleton in Hf as ->.
      intuition (lia || congruence).
    + apply within_both; tauto.
  - apply (apart_upto_from _ (start c)); [|auto]. unfold optional, upto.
    destruct (empty lo); [constructor|]. constructor; [|constructor]. intuition (lia || congruence).
  - destruct (empty hi) eqn:Eh; [rewrite hits_empty by auto; lia|].
    unfold hits at 1. simpl. assert (Intersects hi c = false) as ->.
    { apply not_true_is_false. unfold Intersects. intuition (lia || congruence). }
    apply hits_within; intuition (lia || congruence).
  - destruct (empty lo) eqn:E; [apply hits_empty; auto|].
    apply (hits_from _ (start c)); [auto | intuition (lia || congruence)].
  - intros x. rewrite Hlo, Hhi. unfold pt. lia.
Qed.

Section difference.
Context {B : Type} `{HB : BtreeSet B} `{HL : !BtreeSetLaws B} `{HM : BuildMode}.
Implicit Types s o : B.

(** One round: [P] is final, [m'] replaces [a] and what follows it. *)
Lemma Difference_round s P a m2 c t2 : elems s = P ++ a :: m2 -> wf (P ++ a :: m2) ->
  wf (c :: t2) -> Intersects a c = true ->
  forall lo hi, Difference a c = (true, lo, hi) ->
  exists s' P' m',
    (forall K : B -> nat -> outcome B,
      (if negb (empty hi) then
         '(s, mine) ← ReplaceInterval s (length P) hi;
         let '(s, mine) :=
           if negb (empty lo) then bt_insert_hint s mine lo else (s, mine) in
         K s mine
       else if negb (empty lo) then
         '(s, mine) ← ReplaceInterval s (length P) lo;
         mine ← iter_next s mine;
         K s mine
       else
         '(s, mine) ← erase s (length P);
         K s mine) = K s' (length (P ++ P'))) /\
    elems s' = (P ++ P') ++ m' /\ wf ((P ++ P') ++ m') /\ apart P' (c :: t2) /\
    (npairs m' (c :: t2) <= hits a t2 + npairs m2 (c :: t2))%nat /\
    forall x, (pt a x /\ ~ pt c x) \/ mem m2 x <-> mem (P' ++ m') x.
Proof.
  intros E Hwf Ht Hac lo hi HD.
  destruct (parts_spec P a c m2 t2 lo hi Hwf Ht Hac HD) as
    (Hw3 & Hw2 & Hw1 & Hap & Hhi & Hlo & Hpt).
  pose proof (mem_optional lo) as Ml. pose proof (mem_optional hi) as Mh.
  unfold optional in *. destruct (empty hi) eqn:Eh; cbn [negb].
  - destruct (empty lo) eqn:El; cbn [negb].
    + destruct (erase_mid s P a m2 E) as (s' & -> & E'). exists s', [], m2.
      rewrite !app_nil_r. split_and!; auto with mem; [lia|].
      intros x. rewrite Hpt, <- Ml, <- Mh. simpl. rewrite mem_nil. tauto.
    + destruct (ReplaceInterval_wf s P a m2 lo E Hw1) as (s' & -> & E').
      exists s', [lo], m2. rewrite <- app_assoc. split_and!; auto; [|lia|].
      * intros K. rewrite bind_Ok, (iter_next_mid s' _ _ _ E'), bind_Ok. reflexivity.
      * intros x. rewrite Hpt, <- Ml, <- Mh, mem_app, mem_nil. tauto.
  - destruct (ReplaceInterval_wf s P a m2 hi E Hw2) as (s1 & -> & E1).
    destruct (empty lo) eqn:El; cbn [negb].
    + exists s1, [], (hi :: m2). rewrite !app_nil_r. split_and!; auto with mem; [simpl; lia|].
      intros x. rewrite Hpt, <- Ml, <- Mh. simpl. rewrite !mem_cons, !mem_nil. tauto.
    + destruct (insert_wf s1 (length P) P (hi :: m2) lo E1) as (s2 & Hins & E2).
      { rewrite E1, length_app. lia. }
      { auto. }
      exists s2, [], (lo :: hi :: m2). rewrite !app_nil_r. split_and!; auto with mem.
      * intros K. rewrite bind_Ok, Hins. reflexivity.
      * simpl. lia.
      * intros x. rewrite Hpt, <- Ml, <- Mh. simpl. rewrite !mem_cons, !mem_nil. tauto.
Qed.

Lemma Difference_loop_spec o : forall fuel s pre m q t,
  (npairs m t <= fuel)%nat -> elems s = pre ++ m -> wf (pre ++ m) ->
  elems o = q ++ t -> wf t ->
  exists s' r, Difference_loop fuel s o (length pre) (length q) = Ok s' /\
    elems s' = pre ++ r /\ wf (elems s') /\ forall x, mem r x <-> mem m x /\ ~ mem t x.
Proof.
  induction fuel as [fuel IH] using lt_wf_ind. intros s pre m q t Hf E Hwf Eo Ht.
  assert (Hm : wf m) by (apply wf_app in Hwf; tauto).
  destruct (FindNextIntersectingPair_spec keep_holes _ keep_holes_policy
    (pair_fuel s o) s o pre m q t) as (res & Hres & Hr); auto.
  { unfold pair_fuel, size. rewrite E, Eo, !length_app. lia. }
  destruct res as [[[found x'] mine] theirs]. simpl in Hr. destruct found.
  2:{ destruct Hr as [Hap _]. exists s, m. rewrite E. split_and!; auto.
      - destruct fuel; simpl; unfold FindNextIntersectingPair; rewrite Hres; reflexivity.
      - intros x. specialize (Hap x). tauto. }
  destruct Hr as (m1 & a & m2 & t1 & c & t2 & -> & -> & Hac & E' & -> & -> & Hm1 & Ht1).
  destruct (Difference_intersecting a c Hac) as (lo & hi & HD & _).
  pose proof (npairs_round m1 a m2 t1 c t2) as Hround.
  destruct fuel as [|fuel]; [specialize (Hround [] Hac ltac:(simpl; lia)); lia|].
  cbn [Difference_loop]. unfold FindNextIntersectingPair. rewrite Hres, !bind_Ok.
  rewrite app_assoc in E, Hwf, Eo. apply wf_app in Ht as (_ & Htc & _).
  rewrite (deref_mid s _ _ _ E), (deref_mid o _ _ _ Eo), !bind_Ok, HD.
  destruct (Difference_round s (pre ++ m1) a m2 c t2 E Hwf Htc Hac lo hi HD)
    as (s1 & P' & m' & Hrun & E1 & Hw1 & Hap & Hn & Hmem).
  rewrite (Hrun (fun s mine => Difference_loop fuel s o mine (length (q ++ t1)))).
  destruct (IH fuel ltac:(lia) s1 ((pre ++ m1) ++ P') m' (q ++ t1) (c :: t2))
    as (s' & r & -> & E2 & Hw2 & Hr); auto.
  { specialize (Hround m' Hac Hn). lia. }
  exists s', (m1 ++ P' ++ r). split_and!; auto; [rewrite E2, <- !app_assoc; reflexivity|].
  intros x. specialize (Hm1 x). specialize (Ht1 x). specialize (Hap x). specialize (Hmem x).
  specialize (Hr x). autorewrite with mem in *. tauto.
Qed.

Lemma Difference_other_spec s o : wf (elems s) -> wf (elems o) ->
  exists s', Difference_other s o = Ok s' /\ wf (elems s') /\
    forall x, mem (elems s') x <-> mem (elems s) x /\ ~ mem (elems o) x.
Proof.
  intros Hs Ho. unfold Difference_other.
  destruct (spans_apart_spec s o Hs Ho) as (b & -> & Hb). rewrite bind_Ok. destruct b.
  { exists s. split_and!; auto. intros x. specialize (Hb x). tauto. }
  destruct Hb as [Hns Hno]. unfold FindIntersectionCandidate_set.
  destruct (elems o) as [|d r] eqn:Eo; [done|]. rewrite (deref_0 o d r Eo), bind_Ok.
  destruct (FindIntersectionCandidate_spec s d Hs Hns) as (l1 & a & l2 & E & -> & Hu & Hsd & _).
  rewrite bind_Ok, (is_end_mid s _ _ _ E).
  destruct (elems s) as [|b k] eqn:Es; [done|]. rewrite (deref_0 s b k Es), bind_Ok.
  rewrite <- Eo in Ho, Hno. rewrite <- Es in Hs, Hns, E.
  destruct (FindIntersectionCandidate_spec o b Ho Hno) as (t1 & c & t2 & E' & -> & Hv & _).
  rewrite bind_Ok.
  destruct (candidates_apart s o l1 a l2 t1 c t2) as [Hl1 Ht1]; auto.
  { intros d' r' Ed. rewrite Eo in Ed. simplify_eq. auto. }
  { eapply upto_weaken; [exact Hv|]. rewrite Es in Hs.
    pose proof (wf_from b k (start b) Hs ltac:(lia)) as Hf. rewrite <- Es, E in Hf.
    apply Forall_app in Hf as [_ Hf]. inversion_clear Hf. auto. }
  destruct (Difference_loop_spec o (size s * size o) s l1 (a :: l2) t1 (c :: t2))
    as (s' & r' & Hrun & E2 & Hw & Hmem); auto.
  { etransitivity; [apply npairs_le|]. unfold size. rewrite E, E', !length_app. nia. }
  { rewrite <- E. auto. }
  { rewrite E' in Ho. apply wf_app in Ho. tauto. }
  rewrite Hrun, bind_Ok, (proj2 (Valid_wf s') Hw), DCHECK_true, bind_Ok.
  exists s'. split_and!; auto. intros x. rewrite <- Es, E2, <- Eo, E, E' in *.
  specialize (Hl1 x). specialize (Ht1 x). rewrite !mem_app in *. rewrite Hmem. tauto.
Qed.

(** ** Difference with one interval *)

Lemma erase_covered_spec v m : forall fuel s P, (length m <= fuel)%nat ->
  elems s = P ++ m -> exists s' m1 m2, m = m1 ++ m2 /\
    erase_covered fuel s (length P) v = Ok (s', length P) /\ elems s' = P ++ m2 /\
    upto m1 v /\ match m2 with [] => True | b :: _ => v < limit b end.
Proof.
  induction m as [|b m IH]; intros fuel s P Hf E.
  - exists s, [], []. split_and!; auto; [|constructor]. rewrite app_nil_r in E.
    destruct fuel; simpl; rewrite (is_end_all s P E); reflexivity.
  - destruct (limit b <=? v) eqn:Hb.
    + destruct fuel as [|fuel]; [simpl in Hf; lia|].
      destruct (erase_mid s P b m E) as (s1 & He & E1).
      destruct (IH fuel s1 P) as (s' & m1 & m2 & -> & Hr & E' & Hu & H2); auto;
        [simpl in Hf; lia|].
      exists s', (b :: m1), m2. split_and!; auto; [|constructor; [lia|auto]].
      cbn [erase_covered].
      rewrite (is_end_mid s _ _ _ E), (deref_mid s _ _ _ E), bind_Ok, Hb, He, bind_Ok. auto.
    + exists s, [], (b :: m). split_and!; auto; [|constructor | lia].
      destruct fuel; cbn [erase_covered];
        rewrite (is_end_mid s _ _ _ E), (deref_mid s _ _ _ E), bind_Ok, Hb; reflexivity.
Qed.

Lemma Difference_rest_spec s i P m : elems s = P ++ m -> wf (P ++ m) ->
  start i < limit i -> from (start i) m ->
  exists s', Difference_rest s (length P) i = Ok s' /\ wf (elems s') /\
    forall x, mem (elems s') x <-> mem P x \/ (mem m x /\ ~ pt i x).
Proof.
  intros E Hwf Hi Hfrom. unfold Difference_rest.
  destruct (erase_covered_spec (limit i) m (size s) s P) as
    (s1 & m1 & m2 & -> & -> & E1 & Hu & H2); auto.
  { unfold size. rewrite E, length_app. lia. }
  rewrite bind_Ok. apply Forall_app in Hfrom as [Hf1 Hf2].
  assert (Hm1 : forall x, mem m1 x -> pt i x).
  { intros x. rewrite mem_elem. intros (e & He & Hx). unfold upto, from in *.
    rewrite Forall_forall in Hu, Hf1. specialize (Hu e He). specialize (Hf1 e He).
    unfold pt in *. simpl in *. lia. }
  pose proof (wf_drop_mid _ _ _ Hwf) as Hw.
  destruct m2 as [|b m2].
  { rewrite app_nil_r in *. rewrite (is_end_all s1 P E1). exists s1. rewrite E1.
    split_and!; auto. intros x. specialize (Hm1 x). tauto. }
  rewrite (is_end_mid s1 _ _ _ E1), (deref_mid s1 _ _ _ E1), bind_Ok.
  inversion_clear Hf2 as [|? ? Hb _]. pose proof Hw as (_ & Hwb & _)%wf_app.
  pose proof Hwb as (Hpb & _). pose proof (fun x => mem_tail_gt b m2 x Hwb) as Ht.
  destruct (start b <? limit i) eqn:Hs.
  - assert (Hw' : wf (P ++ mkI (limit i) (limit b) :: m2)).
    { apply (wf_replace P [b] m2 [mkI (limit i) (limit b)]); auto; [simpl; auto|].
      apply within_one; simpl; lia. }
    destruct (ReplaceInterval_wf s1 P b m2 _ E1 Hw') as (s' & -> & E').
    rewrite bind_Ok. exists s'. rewrite E'. split_and!; auto. intros x.
    specialize (Hm1 x). specialize (Ht x). autorewrite with mem. unfold pt in *. simpl.
    intuition lia.
  - exists s1. rewrite E1. split_and!; auto. intros x.
    specialize (Hm1 x). specialize (Ht x). autorewrite with mem. unfold pt in *.
    intuition lia.
Qed.

Lemma Difference_apart a i : start a < limit a -> start i < limit i ->
  Intersects a i = false -> Difference a i = (false, a, default_Interval).
Proof.
  intros Ha Hi Hn. apply not_Intersects in Hn; auto. unfold Difference, empty.
  repeat case_match; try reflexivity; lia.
Qed.

(** The first step leaves a split [P ++ m] to the second, or the result. *)
Lemma Difference_first_spec s i l1 a l2 : elems s = l1 ++ a :: l2 -> wf (l1 ++ a :: l2) ->
  start i < limit i -> upto l1 (start i) -> from (start i) l2 ->
  (l1 = [] \/ start a <= start i) ->
  exists done s' it, Difference_first s (length l1) i = Ok (done, s', it) /\
    if (done : bool) then wf (elems s') /\
      forall x, mem (elems s') x <-> mem (elems s) x /\ ~ pt i x
    else exists P m, elems s' = P ++ m /\ it = length P /\ wf (P ++ m) /\
      from (start i) m /\ forall x, mem (elems s) x /\ ~ pt i x <->
        mem P x \/ (mem m x /\ ~ pt i x).
Proof.
  intros E Hwf Hi Hu Hf Ha. unfold Difference_first. rewrite (deref_mid s _ _ _ E), bind_Ok.
  pose proof Hwf as (_ & Hwa & _)%wf_app. pose proof Hwa as (Hpa & _).
  pose proof (fun x => mem_tail_gt a l2 x Hwa) as Ht.
  assert (H1 : forall x, mem l1 x -> ~ pt i x).
  { intros x. rewrite mem_elem. intros (e & He & Hx). unfold upto in Hu.
    rewrite Forall_forall in Hu. specialize (Hu e He). unfold pt in *. simpl in Hu. lia. }
  destruct (start a <? start i) eqn:Hs.
  2:{ exists false, s, (length l1). split; [reflexivity|]. exists l1, (a :: l2).
      split_and!; auto; [constructor; [lia|auto]|]. intros x. rewrite E, mem_app.
      specialize (H1 x). tauto. }
  destruct (Intersects a i) eqn:Hai.
  2:{ rewrite (Difference_apart a i Hpa Hi Hai). cbv beta iota.
      rewrite bind_Ok, (iter_next_mid s _ _ _ E), bind_Ok.
      eexists false, s, _. split; [reflexivity|]. exists (l1 ++ [a]), l2.
      rewrite <- app_assoc. split_and!; auto. intros x. rewrite E. autorewrite with mem.
      apply not_Intersects in Hai; [|auto..]. specialize (H1 x). unfold pt in *. intuition lia. }
  destruct (Difference_intersecting a i Hai) as (lo & hi & HD & Hlo & Hhi & Elo & Ehi).
  rewrite HD. cbv beta iota.
  assert (Hnlo : empty lo = false).
  { apply not_true_is_false. intros He%empty_true. specialize (Hlo (start a)).
    unfold pt in Hlo. lia. }
  destruct (Elo Hnlo) as [_ ->]. rewrite Hnlo. cbn [negb]. rewrite DCHECK_true, bind_Ok.
  set (lo := mkI (start a) (start i)) in *.
  assert (Hais : start i < limit a) by (unfold Intersects, empty in Hai; lia).
  assert (Hw1 : wf (l1 ++ lo :: l2)).
  { apply (wf_replace l1 [a] l2 [lo]); auto; [simpl; auto with lia|].
    apply within_one; simpl; lia. }
  destruct (ReplaceInterval_wf s l1 a l2 lo E Hw1) as (s1 & -> & E1). rewrite !bind_Ok.
  assert (E1' : elems s1 = (l1 ++ [lo]) ++ l2) by (rewrite E1, <- app_assoc; reflexivity).
  destruct (empty hi) eqn:Eh; cbv beta iota delta [negb].
  - rewrite bind_Ok, (iter_next_mid s1 _ _ _ E1), bind_Ok.
    eexists false, s1, _. split; [reflexivity|]. exists (l1 ++ [lo]), l2.
    rewrite <- app_assoc. split_and!; auto.
    intros x. rewrite E. autorewrite with mem. apply empty_true in Eh.
    specialize (H1 x). specialize (Hhi x). unfold lo, pt in *. simpl. intuition lia.
  - destruct (Ehi eq_refl) as [Hl ->]. set (hi := mkI (limit i) (limit a)) in *.
    assert (Hw2 : wf ((l1 ++ [lo]) ++ hi :: l2)).
    { rewrite <- app_assoc. apply (wf_replace l1 [a] l2 [lo; hi]); auto.
      - simpl. repeat constructor; simpl; lia.
      - repeat constructor; simpl; lia. }
    destruct (insert_wf s1 (length l1) (l1 ++ [lo]) l2 hi E1') as (s2 & -> & E2); auto.
    { rewrite E1, length_app. lia. }
    rewrite bind_Ok. eexists true, s2, _. split; [reflexivity|]. rewrite E2, E.
    split; [auto|]. intros x. autorewrite with mem. specialize (H1 x). specialize (Ht x).
    unfold lo, hi, pt in *. simpl. intuition lia.
Qed.

Lemma wf_lookup_unique l1 a l2 k : wf (l1 ++ a :: l2) -> (l1 ++ a :: l2) !! k = Some a ->
  k = length l1.
Proof.
  intros Hwf Hk. pose proof Hwf as (_ & Ha & Hb)%wf_app. pose proof Ha as (Hpa & Hal & _).
  destruct (Nat.lt_trichotomy k (length l1)) as [Hlt|[->|Hgt]]; [|reflexivity|].
  - rewrite lookup_app_l in Hk by auto. apply list_elem_of_lookup_2 in Hk.
    pose proof (before_elem _ _ a a Hb Hk ltac:(set_solver)). lia.
  - rewrite lookup_app_r in Hk by lia.
    destruct (k - length l1)%nat as [|j] eqn:Ej; [lia|]. simpl in Hk.
    apply list_elem_of_lookup_2 in Hk. rewrite Forall_forall in Hal.
    specialize (Hal a Hk). simpl in Hal. lia.
Qed.

Lemma Difference_interval_spec s i alias : wf (elems s) ->
  (forall k, alias = Some k -> elems s !! k = Some i) ->
  exists s', Difference_interval s i alias = Ok s' /\ wf (elems s') /\
    forall x, mem (elems s') x <-> mem (elems s) x /\ ~ pt i x.
Proof.
  intros Hwf Hal. unfold Difference_interval.
  destruct (SpanningInterval_spec s Hwf) as (span & -> & Hsp & Hse & _). rewrite bind_Ok.
  destruct (Intersects span i) eqn:Hsi; cbn [negb].
  2:{ exists s. split_and!; auto. intros x. split; [|tauto]. intros Hx. split; [auto|].
      intros Hp. specialize (Hsp x Hx). unfold Intersects, empty, pt in *. lia. }
  assert (Hne : elems s <> []).
  { intros He. apply Hse in He. unfold Intersects in Hsi. rewrite He in Hsi. discriminate. }
  assert (Hi : start i < limit i) by (unfold Intersects, empty in Hsi; lia).
  destruct (FindIntersectionCandidate_spec s i Hwf Hne) as
    (l1 & a & l2 & E & -> & Hu & Hsa & Hl2 & Hin).
  rewrite bind_Ok, (is_end_mid s _ _ _ E).
  assert (Hax : alias = Some (length l1) -> a = i).
  { intros Ha. apply Hin. eapply list_elem_of_lookup_2. eauto. }
  destruct (decide (alias = Some (length l1))) as [Ha|Hna].
  { specialize (Hax Ha). subst a. destruct (erase_mid s l1 i l2 E) as (s' & -> & E').
    rewrite bind_Ok. exists s'. rewrite E in Hwf. split_and!; auto.
    - rewrite E'. apply (wf_drop_mid l1 [i] l2). auto.
    - intros x. rewrite E', E. autorewrite with mem.
      apply wf_app in Hwf as (_ & Hwi & _). pose proof (mem_tail_gt i l2 x Hwi) as Ht.
      assert (H1 : mem l1 x -> ~ pt i x).
      { rewrite mem_elem. intros (e & He & Hx). unfold upto in Hu.
        rewrite Forall_forall in Hu. specialize (Hu e He). unfold pt in *. simpl in Hu. lia. }
      unfold pt in *. intuition lia. }
  destruct (decide (is_Some alias)) as [[k Hk]|_].
  { destruct Hna. rewrite Hk. f_equal. specialize (Hal k Hk).
    assert (a = i) as -> by (apply Hin; eapply list_elem_of_lookup_2; eauto).
    rewrite E in Hal, Hwf. eapply wf_lookup_unique; eauto. }
  pose proof Hwf as Hwf'. rewrite E in Hwf'.
  destruct (Difference_first_spec s i l1 a l2 E Hwf' Hi Hu) as (done & s1 & it & -> & Hd); auto.
  { eapply Forall_impl; [exact Hl2|]. intros b. unfold IntervalLess. lia. }
  rewrite bind_Ok. destruct done; [eauto|].
  destruct Hd as (P & m & E1 & -> & Hw1 & Hfm & Hmem).
  destruct (Difference_rest_spec s1 i P m E1 Hw1 Hi Hfm) as (s' & -> & Hw' & Hm').
  exists s'. split_and!; auto. intros x. rewrite Hm', Hmem. tauto.
Qed.

(** ** Complement and Intersection with a range *)

Lemma Complement_spec s st lim : wf (elems s) ->
  exists s', Complement s st lim = Ok s' /\ wf (elems s') /\
    forall x, mem (elems s') x <-> st <= x < lim /\ ~ mem (elems s) x.
Proof.
  intros Hwf. unfold Complement.
  destruct (IntervalSet_of_spec (B := B) (mkI st lim)) as [Hw Hm].
  destruct (Difference_other_spec (IntervalSet_of (mkI st lim)) s Hw Hwf) as (s' & -> & ? & Hx).
  exists s'. split_and!; auto. intros x. rewrite Hx, Hm. reflexivity.
Qed.

Lemma assign_spec s l : exists s', assign s l = Ok s' /\ wf (elems s') /\
  forall x, mem (elems s') x <-> mem l x.
Proof.
  unfold assign, Clear.
  destruct (Add_list_spec l (bt_clear s)) as (s' & -> & Hw & Hm); rewrite clear_law in *;
    [exact I|]. exists s'. split_and!; auto. intros x. rewrite Hm, mem_nil. tauto.
Qed.

Lemma Intersection_range_spec s st lim : wf (elems s) ->
  exists s', Intersection_range s st lim = Ok s' /\ wf (elems s') /\
    forall x, mem (elems s') x <-> mem (elems s) x /\ st <= x < lim.
Proof.
  intros Hwf. unfold Intersection_range, IntervalSet_il.
  destruct (assign_spec bt_empty [mkI st lim]) as (o & -> & Hw & Hm). rewrite bind_Ok.
  destruct (Intersection_other_spec s o Hwf Hw) as (s' & -> & ? & Hx).
  exists s'. split_and!; auto. intros x. rewrite Hx, Hm, mem_cons, mem_nil. unfold pt. simpl.
  tauto.
Qed.
End difference.
