(* ===== verification/IntervalSetUnion.v ===== *)
(** * Interval sets: the union of many sets and adding integers

    [UnionImpl] merges the input sets with a heap of iterator pairs, and
    [AddIntsToIntervalSet] adds runs of consecutive integers at once. *)
From Stdlib Require Import ZArith Lia Bool.
From stdpp Require Import base sets list.
From S2P Require Import Prelude.
From S2P Require Import StdHeap.
From S2P Require Import Interval.
From S2P Require Import IntervalSet.
From S2P Require Import IntervalSetProps.
From S2P Require Import IntervalSetOps.
Local Open Scope Z_scope.

(** A pair of iterators, as the elements from [first] to [second]; it is never empty. *)
Definition HeapElement : Type := list Interval.
Definition first_deref (h : HeapElement) : Interval := hd default_Interval h.
Definition min_heap_compare (a b : HeapElement) : bool :=
  interval_lt (first_deref b) (first_deref a).

(** The number of intervals still in the heap. *)
Definition total (heap : list HeapElement) : nat := list_sum (map length heap).

Section union.
Context {B : Type} `{HB : BtreeSet B} `{HH : StdHeap} `{HM : BuildMode}.

Definition nonempty_ranges (input_sets : list B) : list HeapElement :=
  List.filter (fun h => negb (Nat.eqb (length h) 0)) (map elems input_sets).

(** [heap.back().first++] and what follows it. *)
Definition advance_back (heap : list HeapElement) : outcome (list HeapElement) :=
  match last heap with
  | Some (_ :: (_ :: _) as r) => Ok (push_heap min_heap_compare (removelast heap ++ [r]))
  | Some [_] => Ok (removelast heap)
  | _ => UB
  end.

Definition touches (current prior : Interval) : bool :=
  (start current <=? limit prior) && (start prior <=? limit current).

Fixpoint UnionImpl_loop (fuel : nat) (heap : list HeapElement) (result : B)
    (prior : Interval) : outcome (B * Interval) :=
  match heap with
  | [] => Ok (result, prior)
  | front :: _ =>
      match fuel with
      | O => UB
      | S fuel =>
          let current := first_deref front in
          heap ← advance_back (pop_heap min_heap_compare heap);
          if touches current prior then
            UnionImpl_loop fuel heap result
              (mkI (Z.min (start prior) (start current)) (Z.max (limit prior) (limit current)))
          else
            result ← Add result prior;
            UnionImpl_loop fuel heap result current
      end
  end.

Definition UnionImpl (input_sets : list B) : outcome B :=
  let heap := nonempty_ranges input_sets in
  match make_heap min_heap_compare heap with
  | [] => Ok bt_empty
  | (front :: _) as heap =>
      '(result, prior) ←
        UnionImpl_loop (total heap) heap bt_empty (first_deref front);
      Add result prior
  end.

(** The loop of [AddIntsToIntervalSet] after the first valid item; [max] is the largest
    value of the type. *)
Fixpoint AddInts_loop (max : Z) (set : B) (last_start last_value : Z) (l : list Z) :
    outcome B :=
  match l with
  | [] => Add set (mkI last_start (last_value + 1))
  | value :: r =>
      if value =? max then AddInts_loop max set last_start last_value r
      else if negb (last_value + 1 =? value) then
        set ← Add set (mkI last_start (last_value + 1));
        AddInts_loop max set value value r
      else AddInts_loop max set last_start value r
  end.

Fixpoint AddIntsToIntervalSet (max : Z) (ints_arg : list Z) (set : B) : outcome B :=
  match ints_arg with
  | [] => Ok set
  | v :: r => if v =? max then AddIntsToIntervalSet max r set
              else AddInts_loop max set v v r
  end.

(** ** Proofs *)

Context `{HL : !BtreeSetLaws B} `{HHL : !StdHeapLaws}.

#[local] Instance min_heap_compare_weak : StrictWeak min_heap_compare.
Proof.
  split; unfold min_heap_compare, interval_lt; intros; lia.
Qed.

Definition ranges_ok (heap : list HeapElement) : Prop :=
  is_heap min_heap_compare heap /\ Forall (fun h => h <> [] /\ Forall has_points h) heap.

Definition heap_mem (heap : list HeapElement) (x : Z) : Prop :=
  Exists (fun h => mem h x) heap.

Lemma total_perm h k : h ≡ₚ k -> total h = total k.
Proof. unfold total. induction 1; simpl; lia. Qed.

Lemma total_app h k : total (h ++ k) = (total h + total k)%nat.
Proof. unfold total. rewrite map_app. apply list_sum_app. Qed.

Lemma total_cons h k : total (h :: k) = (length h + total k)%nat.
Proof. reflexivity. Qed.

Lemma heap_mem_perm h k x : h ≡ₚ k -> heap_mem h x <-> heap_mem k x.
Proof. unfold heap_mem. intros Hp. rewrite Hp. reflexivity. Qed.

Lemma is_heap_nil {A} (cmp : A -> A -> bool) : is_heap cmp [].
Proof. intros i p x _ Hx. discriminate. Qed.

(** Taking the front element out of the heap. *)
Lemma pop_advance front rest : ranges_ok (front :: rest) ->
  exists heap', advance_back (pop_heap min_heap_compare (front :: rest)) = Ok heap' /\
    ranges_ok heap' /\ (total heap' < total (front :: rest))%nat /\
    has_points (first_deref front) /\
    forall x, heap_mem (front :: rest) x <-> pt (first_deref front) x \/ heap_mem heap' x.
Proof.
  intros [Hheap Hok]. apply Forall_cons in Hok as [[Hne Hpf] Hrest].
  destruct (pop_heap_law min_heap_compare front rest _ Hheap) as (r & -> & Hr & Hhr).
  unfold advance_back. rewrite last_snoc, removelast_last.
  assert (Hok : Forall (fun h => h <> [] /\ Forall has_points h) r) by (rewrite Hr; auto).
  destruct front as [|a [|b front]]; [done| |].
  - apply Forall_cons in Hpf as [Hpf _].
    exists r. split; [reflexivity|]. split; [split; auto|].
    split_and!; auto.
    + rewrite (total_perm r rest Hr). unfold total. simpl. lia.
    + intros x. rewrite (heap_mem_perm r rest x Hr). unfold heap_mem. rewrite Exists_cons.
      rewrite mem_cons, mem_nil. simpl. tauto.
  - destruct (push_heap_law min_heap_compare r (b :: front) _ Hhr) as [Hp Hh].
    apply Forall_cons in Hpf as [Ha Hpb].
    set (h := push_heap _ _) in Hp, Hh. exists h.
    split; [reflexivity|]. split; [split; [exact Hh|]|].
    { rewrite Hp. apply Forall_app. split; [auto|]. constructor; [|constructor]. split; auto. }
    split_and!; auto.
    + rewrite (total_perm _ _ Hp), total_app, (total_perm r rest Hr), !total_cons. simpl.
      unfold total at 2. simpl. lia.
    + intros x. rewrite (heap_mem_perm _ _ x Hp). unfold heap_mem.
      rewrite Exists_app, Exists_cons, Exists_cons, Exists_nil, !mem_cons. simpl.
      pose proof (heap_mem_perm r rest x Hr) as Hm. unfold heap_mem in Hm. tauto.
Qed.

Lemma touches_spec c p x : has_points c -> has_points p -> touches c p = true ->
  pt (mkI (Z.min (start p) (start c)) (Z.max (limit p) (limit c))) x <-> pt p x \/ pt c x.
Proof. unfold touches, has_points, pt. simpl. lia. Qed.

Lemma UnionImpl_loop_spec : forall fuel heap (result : B) prior,
  (total heap <= fuel)%nat -> ranges_ok heap -> wf (elems result) -> has_points prior ->
  exists result' prior', UnionImpl_loop fuel heap result prior = Ok (result', prior') /\
    wf (elems result') /\ forall x, mem (elems result') x \/ pt prior' x <->
      mem (elems result) x \/ pt prior x \/ heap_mem heap x.
Proof.
  induction fuel as [|fuel IH]; intros heap result prior Hf Hok Hwf Hp.
  { destruct heap as [|h heap].
    - exists result, prior. split_and!; auto. intros x. unfold heap_mem.
      rewrite Exists_nil. tauto.
    - destruct Hok as [_ Hok]. inversion_clear Hok as [|? ? [Hne _] _].
      destruct h; [done|]. unfold total in Hf. simpl in Hf. lia. }
  destruct heap as [|front rest].
  { exists result, prior. split_and!; auto. intros x. unfold heap_mem.
    rewrite Exists_nil. tauto. }
  destruct (pop_advance front rest Hok) as (heap' & Hpop & Hok' & Ht & Hcur & Hm).
  cbn [UnionImpl_loop]. rewrite Hpop, bind_Ok.
  destruct (touches (first_deref front) prior) eqn:Htc.
  - destruct (IH heap' result (mkI (Z.min (start prior) (start (first_deref front)))
      (Z.max (limit prior) (limit (first_deref front))))) as (r' & p' & -> & Hw & Hx); auto;
      [lia | unfold has_points in *; simpl; lia |].
    exists r', p'. split_and!; auto. intros x. rewrite Hx, Hm, touches_spec by auto. tauto.
  - destruct (iset_Add_spec result prior Hwf) as (r1 & -> & Hw1 & Hm1). rewrite bind_Ok.
    destruct (IH heap' r1 (first_deref front)) as (r' & p' & -> & Hw & Hx); auto; [lia|].
    exists r', p'. split_and!; auto. intros x. rewrite Hx, Hm, Hm1. tauto.
Qed.

Lemma nonempty_ranges_spec (sets : list B) : Forall (fun s => wf (elems s)) sets ->
  Forall (fun h => h <> [] /\ Forall has_points h) (nonempty_ranges sets) /\
  forall x, heap_mem (nonempty_ranges sets) x <-> Exists (fun s => mem (elems s) x) sets.
Proof.
  unfold nonempty_ranges, heap_mem.
  induction 1 as [|s sets Hs _ [IH1 IH2]]; simpl.
  - split; [constructor|]. intros x. rewrite !Exists_nil. tauto.
  - destruct (elems s) as [|a l] eqn:E; simpl.
    + split; [auto|]. intros x. rewrite Exists_cons, E, mem_nil, IH2. tauto.
    + split; [constructor; auto; split; [done | apply wf_Forall; auto]|].
      intros x. rewrite !Exists_cons, E, IH2. tauto.
Qed.

Lemma UnionImpl_spec (sets : list B) : Forall (fun s => wf (elems s)) sets ->
  exists r, UnionImpl sets = Ok r /\ wf (elems r) /\
    forall x, mem (elems r) x <-> Exists (fun s => mem (elems s) x) sets.
Proof.
  intros Hs. destruct (nonempty_ranges_spec sets Hs) as [Hn Hm]. unfold UnionImpl.
  destruct (make_heap_law min_heap_compare (nonempty_ranges sets) _) as [Hp Hh].
  destruct (make_heap min_heap_compare (nonempty_ranges sets)) as [|front rest] eqn:E.
  - exists bt_empty. rewrite elems_empty. split_and!; [reflexivity | exact I|].
    intros x. rewrite <- Hm, <- (heap_mem_perm _ _ x Hp), mem_nil. unfold heap_mem.
    rewrite Exists_nil. tauto.
  - assert (Hok : ranges_ok (front :: rest)) by (split; [auto | rewrite Hp; auto]).
    destruct (pop_advance front rest Hok) as (h1 & _ & _ & _ & Hcur & Hin).
    destruct (UnionImpl_loop_spec (total (front :: rest)) (front :: rest) bt_empty
      (first_deref front)) as (r & p & -> & Hw & Hx); auto.
    { rewrite elems_empty. exact I. }
    rewrite bind_Ok. destruct (iset_Add_spec r p Hw) as (r' & -> & Hw' & Hm').
    exists r'. split_and!; auto. intros x.
    rewrite Hm', Hx, elems_empty, mem_nil, <- Hm, <- (heap_mem_perm _ _ x Hp).
    specialize (Hin x). tauto.
Qed.

Lemma AddInts_loop_spec max l : forall (s : B) ls lv, wf (elems s) -> ls <= lv ->
  exists s', AddInts_loop max s ls lv l = Ok s' /\ wf (elems s') /\
    forall x, mem (elems s') x <-> mem (elems s) x \/ ls <= x <= lv \/ (x ∈ l /\ x <> max).
Proof.
  induction l as [|v l IH]; intros s ls lv Hs Hl; simpl.
  - destruct (iset_Add_spec s (mkI ls (lv + 1)) Hs) as (s' & -> & Hw & Hm).
    exists s'. split_and!; auto. intros x. rewrite Hm. unfold pt. simpl. rewrite elem_of_nil.
    intuition lia.
  - destruct (v =? max) eqn:Hv.
    + destruct (IH s ls lv Hs Hl) as (s' & -> & Hw & Hm). exists s'. split_and!; auto.
      intros x. rewrite Hm, elem_of_cons. apply Z.eqb_eq in Hv. naive_solver.
    + apply Z.eqb_neq in Hv. destruct (lv + 1 =? v) eqn:Hn; simpl.
      * destruct (IH s ls v Hs) as (s' & -> & Hw & Hm); [lia|]. exists s'.
        split_and!; auto. intros x. rewrite Hm, elem_of_cons. apply Z.eqb_eq in Hn.
        assert (ls <= x <= v <-> ls <= x <= lv \/ x = v) by lia. naive_solver.
      * destruct (iset_Add_spec s (mkI ls (lv + 1)) Hs) as (s1 & -> & Hw1 & Hm1). rewrite bind_Ok.
        destruct (IH s1 v v Hw1) as (s' & -> & Hw & Hm); [lia|]. exists s'.
        split_and!; auto. intros x. rewrite Hm, Hm1, elem_of_cons. unfold pt. simpl.
        assert (v <= x <= v <-> x = v) by lia.
        assert (ls <= x < lv + 1 <-> ls <= x <= lv) by lia. naive_solver.
Qed.

Lemma AddInts_spec max l (s : B) : wf (elems s) ->
  exists s', AddIntsToIntervalSet max l s = Ok s' /\ wf (elems s') /\
    forall x, mem (elems s') x <-> mem (elems s) x \/ (x ∈ l /\ x <> max).
Proof.
  intros Hs. induction l as [|v l IH]; simpl.
  - exists s. split_and!; auto. intros x. rewrite elem_of_nil. tauto.
  - destruct (v =? max) eqn:Hv.
    + destruct IH as (s' & -> & Hw & Hm). exists s'. split_and!; auto.
      intros x. rewrite Hm, elem_of_cons. apply Z.eqb_eq in Hv. naive_solver.
    + destruct (AddInts_loop_spec max l s v v Hs) as (s' & -> & Hw & Hm); [lia|].
      exists s'. split_and!; auto. intros x. rewrite Hm, elem_of_cons.
      apply Z.eqb_neq in Hv. assert (v <= x <= v <-> x = v) by lia. naive_solver.
Qed.
End union.
