(* ===== verification/IntervalSetSpec.v ===== *)
(** * Interval sets: programs over several sets

    A world maps the names of [IntervalSet] objects to their trees; the operations act
    on named objects, so that an operation may be applied to one object twice.  The
    abstract state of an object is the set of its points, and [spec] says what each
    operation does to these sets and what it returns.  The refinement theorem has no
    hypothesis about the state: programs start from empty sets. *)
From Stdlib Require Import ZArith Lia Bool.
From stdpp Require Import base sets list functions.
From S2P Require Import Prelude.
From S2P Require Import StdHeap.
From S2P Require Import Interval.
From S2P Require Import IntervalSet.
From S2P Require Import IntervalSetProps.
From S2P Require Import IntervalSetOps.
From S2P Require Import IntervalSetPairs.
From S2P Require Import IntervalSetDiff.
From S2P Require Import IntervalSetUnion.
Local Open Scope Z_scope.

Inductive op : Type :=
  | OAdd (a : nat) (i : Interval)
  | OAddSet (a b : nat)
  | OUnion (a b : nat)
  | OUnionOf (a : nat) (l : list nat)
  | OIntersection (a b : nat)
  | OIntersectionRange (a : nat) (st lim : Z)
  | ODifference (a b : nat)
  | ODifferenceInterval (a : nat) (i : Interval)
  | OComplement (a : nat) (st lim : Z)
  | OAssign (a : nat) (l : list Interval)
  | OClear (a : nat)
  | OSwap (a b : nat)
  | OAddInts (a : nat) (max : Z) (l : list Z)
  | QEmpty (a : nat)
  | QContains (a : nat) (x : Z)
  | QContainsInterval (a : nat) (i : Interval)
  | QContainsSet (a b : nat)
  | QIntersects (a b : nat)
  | QIntersectsInterval (a : nat) (i : Interval)
  | QEqual (a b : nat).

Section world.
Context {B : Type} `{HB : BtreeSet B} `{HH : StdHeap} `{HM : BuildMode}.

Definition world : Type := nat -> B.

(** [Add] of a set to itself: the loop runs over the tree it adds to. *)
Fixpoint Add_self (fuel : nat) (s : B) (it : nat) : outcome B :=
  if is_end s it then Ok s
  else
    a ← deref s it;
    s ← Add s a;
    match fuel with O => UB | S fuel => Add_self fuel s (S it) end.

Definition Add_set_in (w : world) (a b : nat) : outcome B :=
  if decide (a = b) then Add_self (size (w a)) (w a) 0 else Add_set (w a) (w b).
(** [Union] of a set with itself: [intervals_.insert(begin, end)] inserts every element
    of the range with [end()] as the hint, and the range is that of the tree it
    inserts into. *)
Fixpoint insert_self (fuel : nat) (s : B) (it : nat) : outcome B :=
  if is_end s it then Ok s
  else
    a ← deref s it;
    let '(s, _) := bt_insert_hint s (size s) a in
    match fuel with O => UB | S fuel => insert_self fuel s (S it) end.

Definition Union_in (w : world) (a b : nat) : outcome B :=
  if decide (a = b) then
    s ← insert_self (size (w a)) (w a) 0;
    Compact s 0 (fun _ => true)
  else Union (w a) (w b).
(** The tests [this == &other]. *)
Definition Intersection (w : world) (a b : nat) : outcome B :=
  if decide (a = b) then Ok (w a) else Intersection_other (w a) (w b).
Definition Difference_in (w : world) (a b : nat) : outcome B :=
  if decide (a = b) then Ok (bt_clear (w a)) else Difference_other (w a) (w b).

Definition update (w : world) (a : nat) (m : outcome B) : outcome (world * bool) :=
  s ← m; Ok (<[a := s]> w, true).
Definition query (w : world) (m : outcome bool) : outcome (world * bool) :=
  b ← m; Ok (w, b).

Definition step (w : world) (o : op) : outcome (world * bool) :=
  match o with
  | OAdd a i => update w a (Add (w a) i)
  | OAddSet a b => update w a (Add_set_in w a b)
  | OUnion a b => update w a (Union_in w a b)
  | OUnionOf a l => update w a (UnionImpl (map w l))
  | OIntersection a b => update w a (Intersection w a b)
  | OIntersectionRange a st lim => update w a (Intersection_range (w a) st lim)
  | ODifference a b => update w a (Difference_in w a b)
  | ODifferenceInterval a i => update w a (Difference_interval (w a) i None)
  | OComplement a st lim => update w a (Complement (w a) st lim)
  | OAssign a l => update w a (assign (w a) l)
  | OClear a => update w a (Ok (Clear (w a)))
  | OSwap a b => Ok (<[b := w a]> (<[a := w b]> w), true)
  | OAddInts a max l => update w a (AddIntsToIntervalSet max l (w a))
  | QEmpty a => query w (Ok (set_is_empty (w a)))
  | QContains a x => query w (Contains (w a) x)
  | QContainsInterval a i => query w (Contains_interval (w a) i)
  | QContainsSet a b => query w (Contains_set (w a) (w b))
  | QIntersects a b => query w (Intersects_set (w a) (w b))
  | QIntersectsInterval a i => query w (IntersectsInterval (w a) i)
  | QEqual a b => query w (Ok (set_eq (w a) (w b)))
  end.

Fixpoint run (w : world) (l : list op) : outcome (world * list bool) :=
  match l with
  | [] => Ok (w, [])
  | o :: l => '(w, r) ← step w o; '(w, rs) ← run w l; Ok (w, r :: rs)
  end.

Definition empty_world : world := fun _ => bt_empty.

(** ** The abstract state *)

Definition points : Type := nat -> Z -> Prop.
Definition abs (w : world) : points := fun a x => mem (elems (w a)) x.

(** Object [a] becomes [Q] and the others stay. *)
Definition becomes (P P' : points) (a : nat) (Q : Z -> Prop) : Prop :=
  (forall x, P' a x <-> Q x) /\ forall b x, b <> a -> P' b x <-> P b x.
Definition same (P P' : points) : Prop := forall a x, P' a x <-> P a x.
Definition in_ (st lim x : Z) : Prop := st <= x < lim.

Definition spec (o : op) (P P' : points) (r : bool) : Prop :=
  match o with
  | OAdd a i => becomes P P' a (fun x => P a x \/ pt i x)
  | OAddSet a b | OUnion a b => becomes P P' a (fun x => P a x \/ P b x)
  | OUnionOf a l => becomes P P' a (fun x => exists b, b ∈ l /\ P b x)
  | OIntersection a b => becomes P P' a (fun x => P a x /\ P b x)
  | OIntersectionRange a st lim => becomes P P' a (fun x => P a x /\ in_ st lim x)
  | ODifference a b => becomes P P' a (fun x => P a x /\ ~ P b x)
  | ODifferenceInterval a i => becomes P P' a (fun x => P a x /\ ~ pt i x)
  | OComplement a st lim => becomes P P' a (fun x => in_ st lim x /\ ~ P a x)
  | OAssign a l => becomes P P' a (fun x => mem l x)
  | OClear a => becomes P P' a (fun _ => False)
  | OSwap a b => (forall x, P' a x <-> P b x) /\ (forall x, P' b x <-> P a x) /\
                 forall c x, c <> a -> c <> b -> P' c x <-> P c x
  | OAddInts a max l => becomes P P' a (fun x => P a x \/ (x ∈ l /\ x <> max))
  | QEmpty a => same P P' /\ (r = true <-> forall x, ~ P a x)
  | QContains a x => same P P' /\ (r = true <-> P a x)
  | QContainsInterval a i => same P P' /\
      (r = true <-> start i < limit i /\ forall x, pt i x -> P a x)
  | QContainsSet a b => same P P' /\
      (r = true <-> (exists x, P b x) /\ forall x, P b x -> P a x)
  | QIntersects a b => same P P' /\ (r = true <-> exists x, P a x /\ P b x)
  | QIntersectsInterval a i => same P P' /\ (r = true <-> exists x, P a x /\ pt i x)
  | QEqual a b => same P P' /\ (r = true <-> forall x, P a x <-> P b x)
  end.

Inductive spec_run : points -> list op -> list bool -> points -> Prop :=
  | spec_nil P : spec_run P [] [] P
  | spec_cons P o r P1 l rs P2 :
      spec o P P1 r -> spec_run P1 l rs P2 -> spec_run P (o :: l) (r :: rs) P2.

(** ** Proofs *)

Context `{HL : !BtreeSetLaws B} `{HHL : !StdHeapLaws}.

Definition good (w : world) : Prop := forall a, wf (elems (w a)).

Lemma contains_interval_points l i : wf l ->
  existsb (fun a => contains_interval a i) l = true <->
  start i < limit i /\ forall x, pt i x -> mem l x.
Proof.
  intros Hwf. rewrite existsb_exists. split.
  - intros (a & Ha & Hc). apply list_elem_of_In in Ha.
    unfold contains_interval, empty in Hc. split; [lia|]. intros x Hx. apply mem_elem.
    exists a. split; [auto|]. unfold pt in *. lia.
  - intros [Hi Hp]. assert (Hs : mem l (start i)) by (apply Hp; unfold pt; lia).
    apply mem_elem in Hs as (a & Ha & Hpa). unfold pt in Hpa. exists a.
    split; [apply list_elem_of_In; auto|].
    assert (limit i <= limit a); [|unfold contains_interval, empty; lia].
    apply Z.nlt_ge. intros Hlt. assert (Hl : mem l (limit a)) by (apply Hp; unfold pt; lia).
    apply mem_elem in Hl as (b & Hb & Hpb). unfold pt in Hpb.
    apply list_elem_of_split in Ha as (l1 & l2 & ->). apply wf_app in Hwf as (_ & Hw & Hb1).
    rewrite elem_of_app, elem_of_cons in Hb. destruct Hb as [Hb|[->|Hb]]; [|lia|].
    + pose proof (before_elem _ _ b a Hb1 Hb ltac:(set_solver)). lia.
    + pose proof (mem_tail_gt a l2 (limit a) Hw ltac:(apply mem_elem; exists b; auto)). lia.
Qed.

Lemma Intersects_points l i : Forall has_points l ->
  existsb (fun a => Intersects a i) l = true <-> exists x, mem l x /\ pt i x.
Proof.
  intros Hl. rewrite existsb_exists. rewrite Forall_forall in Hl. split.
  - intros (a & Ha & Hc). apply list_elem_of_In in Ha. exists (Z.max (start a) (start i)).
    rewrite mem_elem. unfold Intersects, empty, pt in *. split; [exists a; split; [auto|]|]; lia.
  - intros (x & Hx & Hi). apply mem_elem in Hx as (a & Ha & Hx). exists a.
    split; [apply list_elem_of_In; auto|]. unfold pt, Intersects, empty in *. lia.
Qed.

Lemma contains_set_points l k : wf l -> wf k ->
  (negb (Nat.eqb (length k) 0) &&
   forallb (fun i => existsb (fun a => contains_interval a i) l) k) = true <->
  (exists x, mem k x) /\ forall x, mem k x -> mem l x.
Proof.
  intros Hl Hk. rewrite andb_true_iff, forallb_forall. split.
  - intros [Hne Ha]. split.
    + destruct k as [|b k]; [discriminate|]. destruct Hk as (Hb & _). exists (start b).
      rewrite mem_cons. unfold pt. lia.
    + intros x. rewrite mem_elem. intros (b & Hb & Hx). apply list_elem_of_In in Hb.
      apply Ha, contains_interval_points in Hb; auto. apply Hb. auto.
  - intros [[x Hx] Ha]. split.
    + destruct k; [|reflexivity]. rewrite mem_nil in Hx. tauto.
    + intros b Hb. apply list_elem_of_In in Hb. apply contains_interval_points; auto.
      split; [eapply wf_points; eauto|]. intros y Hy. apply Ha, mem_elem. eauto.
Qed.

Lemma Add_present s a : wf (elems s) -> a ∈ elems s ->
  exists s', Add s a = Ok s' /\ elems s' = elems s.
Proof.
  intros Hwf Ha. destruct (iset_Add_spec s a Hwf) as (s' & Hadd & Hw & Hm).
  exists s'. split; [auto|]. apply wf_canonical; auto. intros x. rewrite Hm, (mem_elem (elems s)).
  naive_solver.
Qed.

Lemma Add_self_spec n : forall fuel s it, wf (elems s) -> (it + n = length (elems s))%nat ->
  (n <= fuel)%nat -> exists s', Add_self fuel s it = Ok s' /\ elems s' = elems s.
Proof.
  induction n as [|n IH]; intros fuel s it Hwf Hn Hf.
  - exists s. split; [|auto]. replace it with (length (elems s)) by lia.
    destruct fuel; simpl; rewrite is_end_all; reflexivity.
  - destruct fuel as [|fuel]; [lia|]. cbn [Add_self].
    assert (it < length (elems s))%nat as [a Ha]%lookup_lt_is_Some by lia.
    unfold is_end, size. rewrite (proj2 (Nat.eqb_neq it _)) by lia.
    unfold deref. rewrite Ha, bind_Ok. apply list_elem_of_lookup_2 in Ha.
    destruct (Add_present s a Hwf Ha) as (s1 & -> & E1). rewrite bind_Ok.
    destruct (IH fuel s1 (S it)) as (s' & -> & E'); rewrite ?E1; auto; try lia.
    exists s'. split; [auto|]. congruence.
Qed.

(** Every element is in the tree already, so that nothing is inserted and the
    iterators stay where they are. *)
Lemma insert_hint_present s h a s' i : ordered (elems s) -> a ∈ elems s -> (h <= size s)%nat ->
  bt_insert_hint s h a = (s', i) -> elems s' = elems s.
Proof.
  intros Ho Ha Hh E. pose proof (insert_hint_law s h a s' i Ho Hh E) as L.
  destruct (ordered_insert_cases (elems s) a Ho) as
    [(k & Ek & _)|(l1 & l2 & El & H1 & H2 & _)]; [rewrite Ek in L; simpl in L; congruence|].
  exfalso. rewrite El in Ha. unfold lt_all, gt_all in *. rewrite Forall_forall in H1, H2.
  assert (IntervalLess a a = true) as Hl by
    (apply elem_of_app in Ha as [Ha|Ha]; apply list_elem_of_In in Ha; auto).
  unfold IntervalLess in Hl. lia.
Qed.

Lemma insert_self_spec n : forall fuel s it, ordered (elems s) -> (it + n = length (elems s))%nat ->
  (n <= fuel)%nat -> exists s', insert_self fuel s it = Ok s' /\ elems s' = elems s.
Proof.
  induction n as [|n IH]; intros fuel s it Ho Hn Hf.
  - exists s. split; [|auto]. replace it with (length (elems s)) by lia.
    destruct fuel; simpl; rewrite is_end_all; reflexivity.
  - destruct fuel as [|fuel]; [lia|]. cbn [insert_self].
    assert (it < length (elems s))%nat as [a Ha]%lookup_lt_is_Some by lia.
    unfold is_end. rewrite (proj2 (Nat.eqb_neq it _)) by (unfold size; lia).
    unfold deref. rewrite Ha, bind_Ok. apply list_elem_of_lookup_2 in Ha.
    destruct (bt_insert_hint s (size s) a) as [s1 i] eqn:E.
    apply insert_hint_present in E; auto.
    destruct (IH fuel s1 (S it)) as (s' & -> & E'); rewrite ?E; auto; try lia.
    exists s'. split; [auto|]. congruence.
Qed.

Lemma Compact_all_spec s : wf (elems s) -> exists s', Compact s 0 (fun _ => true) = Ok s' /\
  wf (elems s') /\ forall x, mem (elems s') x <-> mem (elems s) x.
Proof.
  intros Hw. destruct (elems s) as [|h r] eqn:E.
  - exists s. rewrite E. split_and!; [|exact I|tauto].
    unfold Compact. unfold is_end, size. rewrite E. reflexivity.
  - destruct (Compact_spec (fun _ => true) s [] h r) as (s' & Hc & Hw' & Hm');
      auto using wf_Forall with mem; [exact I | discriminate |].
    exists s'. rewrite <- E. auto.
Qed.

Lemma world_eq (w : world) a (s : B) : (<[a := s]> w) a = s.
Proof. unfold insert, fn_insert. case_decide; [reflexivity | done]. Qed.

Lemma world_ne (w : world) a b (s : B) : a <> b -> (<[a := s]> w) b = w b.
Proof. intros Hab. unfold insert, fn_insert. case_decide; [done | reflexivity]. Qed.

(** An operation that gives object [a] the points [Q]. *)
Lemma update_spec w a m Q : good w ->
  (exists s, m = Ok s /\ wf (elems s) /\ forall x, mem (elems s) x <-> Q x) ->
  exists w' r, update w a m = Ok (w', r) /\ good w' /\ becomes (abs w) (abs w') a Q.
Proof.
  intros Hg (s & -> & Hw & Hm). exists (<[a := s]> w), true. split; [reflexivity|].
  unfold good, becomes, abs. split_and!.
  - intros b. destruct (decide (a = b)) as [->|Hne];
      [rewrite world_eq | rewrite world_ne by auto]; auto.
  - intros x. rewrite world_eq. auto.
  - intros b x Hb. rewrite world_ne by auto. reflexivity.
Qed.

Lemma query_spec w m (Q : Prop) : good w -> (exists b, m = Ok b /\ (b = true <-> Q)) ->
  exists w' r, query w m = Ok (w', r) /\ good w' /\ same (abs w) (abs w') /\ (r = true <-> Q).
Proof.
  intros Hg (b & -> & Hb). exists w, b. split; [reflexivity|]. split; [exact Hg|].
  split; [intros a x; reflexivity | exact Hb].
Qed.

Lemma bool_same_iff (b c : bool) Q : b = c -> (c = true <-> Q) -> (b = true <-> Q).
Proof. intros ->. auto. Qed.

Lemma iset_step_spec w o : good w ->
  exists w' r, step w o = Ok (w', r) /\ good w' /\ spec o (abs w) (abs w') r.
Proof.
  intros Hg. unfold abs. destruct o as
    [a i|a b|a b|a l|a b|a st lim|a b|a i|a st lim|a l|a|a b|a max l|a|a x|a i|a b|a b|a i|a b];
    cbn [step spec]; unfold abs;
    try (apply update_spec; [exact Hg|]); try (apply query_spec; [exact Hg|]).
  - apply iset_Add_spec, Hg.
  - unfold Add_set_in. destruct (decide (a = b)) as [->|Hne].
    + destruct (Add_self_spec (size (w b)) (size (w b)) (w b) 0) as (s' & -> & E); auto.
      exists s'. rewrite E. split_and!; auto. intros x. tauto.
    + apply Add_list_spec, Hg.
  - unfold Union_in. destruct (decide (a = b)) as [->|Hne]; [|apply Union_spec; apply Hg].
    destruct (insert_self_spec (size (w b)) (size (w b)) (w b) 0) as (s1 & -> & E);
      auto using wf_ordered. rewrite bind_Ok.
    destruct (Compact_all_spec s1) as (s' & -> & Hw & Hm); [rewrite E; auto|].
    exists s'. split_and!; auto. intros x. rewrite Hm, E. tauto.
  - destruct (UnionImpl_spec (map w l)) as (s' & -> & Hw & Hm).
    { apply Forall_map, Forall_forall. intros b _. apply Hg. }
    exists s'. split_and!; auto. intros x. rewrite Hm, Exists_exists.
    split.
    + intros (s1 & (b & <- & Hb)%in_map_iff & Hx). exists b.
      rewrite list_elem_of_In. auto.
    + intros (b & Hb & Hx). exists (w b). split; [|auto].
      apply in_map, list_elem_of_In. auto.
  - unfold Intersection. destruct (decide (a = b)) as [->|Hne].
    + exists (w b). split_and!; auto. intros x. tauto.
    + apply Intersection_other_spec; apply Hg.
  - apply Intersection_range_spec, Hg.
  - unfold Difference_in. destruct (decide (a = b)) as [->|Hne].
    + exists (bt_clear (w b)). rewrite clear_law. split_and!; [auto | exact I |].
      intros x. rewrite mem_nil. tauto.
    + apply Difference_other_spec; apply Hg.
  - apply Difference_interval_spec; [apply Hg | discriminate].
  - apply Complement_spec, Hg.
  - apply assign_spec.
  - exists (bt_clear (w a)). rewrite clear_law. split_and!; [auto | exact I |].
    intros x. apply mem_nil.
  - exists (<[b := w a]> (<[a := w b]> w)), true. split_and!; auto.
    + intros c. unfold insert, fn_insert. repeat case_decide; auto.
    + intros x. unfold insert, fn_insert. repeat case_decide; subst; tauto.
    + intros x. rewrite world_eq. tauto.
    + intros c x Ha Hb. rewrite !world_ne by auto. tauto.
  - apply AddInts_spec, Hg.
  - exists (set_is_empty (w a)). split; [auto|].
    destruct (set_is_empty_cases (w a)) as [[-> E] | [-> (e & l & _ & _ & E & _)]].
    + rewrite E. split; [intros _ x; rewrite mem_nil; tauto | auto].
    + split; [done|]. intros Hn. exfalso. apply (Hn (start e)). rewrite E, mem_cons.
      pose proof (wf_points _ e (Hg a)) as Hp. rewrite E in Hp. unfold pt.
      specialize (Hp ltac:(set_solver)). lia.
  - destruct (Find_Contains_scan (w a) x (Hg a)) as [_ ->]. eexists. split; [reflexivity|].
    rewrite existsb_exists, mem_elem. setoid_rewrite contains_pt.
    setoid_rewrite list_elem_of_In. reflexivity.
  - destruct (Find_Contains_interval_scan (w a) i (Hg a)) as [_ ->]. eexists.
    split; [reflexivity|]. apply contains_interval_points, Hg.
  - rewrite Contains_set_scan by apply Hg. eexists. split; [reflexivity|].
    apply contains_set_points; apply Hg.
  - destruct (Intersects_set_spec (w a) (w b)) as (r & -> & Hr); eauto.
  - unfold IntersectsInterval. rewrite IsDisjoint_scan by apply Hg. rewrite bind_Ok.
    rewrite negb_involutive. eexists. split; [reflexivity|].
    apply Intersects_points, wf_Forall, Hg.
  - eexists. split; [reflexivity|]. rewrite set_eq_elems. split; [intros ->; tauto|].
    apply wf_canonical; apply Hg.
Qed.

Lemma iset_run_spec l : forall w, good w ->
  exists w' rs, run w l = Ok (w', rs) /\ good w' /\ spec_run (abs w) l rs (abs w').
Proof.
  induction l as [|o l IH]; intros w Hg.
  - exists w, []. split_and!; auto. constructor.
  - destruct (iset_step_spec w o Hg) as (w1 & r & Hs & Hg1 & Hsp).
    destruct (IH w1 Hg1) as (w2 & rs & Hr & Hg2 & Hsr).
    exists w2, (r :: rs). simpl. rewrite Hs, bind_Ok, Hr, bind_Ok.
    split_and!; auto. econstructor; eauto.
Qed.

Lemma empty_world_good : good empty_world.
Proof. intros a. unfold empty_world. rewrite elems_empty. exact I. Qed.
End world.

(** ** Properties *)

(** A program over four sets, with its results. *)
Definition demo : list op :=
  [OAdd 0 (mkI 10 20); OAdd 0 (mkI 30 40); OAdd 0 (mkI 15 35); OAssign 1 [mkI 0 12; mkI 38 50];
   OIntersection 1 0; ODifferenceInterval 0 (mkI 20 30); OUnionOf 2 [1; 0; 1]%nat;
   ODifference 0 0; QEmpty 0; OComplement 1 0 50; QContains 1 12; QIntersects 1 2;
   OUnion 0 2; QEqual 0 2; OUnion 0 0; QEqual 0 2; OAddInts 3 127 [5; 6; 127; 7; 3]; QContainsInterval 3 (mkI 5 8)].

Definition demo_world : nat -> list Interval := fun a =>
  match a with
  | 0%nat | 2%nat => [mkI 10 20; mkI 30 40]
  | 1%nat => [mkI 0 10; mkI 12 38; mkI 40 50]
  | 3%nat => [mkI 3 4; mkI 5 8]
  | _ => []
  end.

(** C11. Every program over any number of interval sets, with any operation that unites,
    intersects, subtracts, complements, merges or queries them, runs to completion on
    any container with the documented behaviour, in debug and optimised builds, also
    when a set is its own argument: no loop
    runs away, no iterator is read past the end and no check fails.  What it leaves in
    the sets and what it returns is what the same operations do to sets of integers,
    all of them empty at first. *)
Theorem scripts_refine_sets {B} `{BtreeSet B} `{!BtreeSetLaws B} `{StdHeap} `{!StdHeapLaws}
    `{BuildMode} (l : list op) :
  (forall a x, ~ abs (B := B) empty_world a x) /\
  exists (w : world) rs, run (B := B) empty_world l = Ok (w, rs) /\
    spec_run (abs (B := B) empty_world) l rs (abs w).
Proof.
  split.
  - intros a x. unfold abs, empty_world. rewrite elems_empty, mem_nil. auto.
  - destruct (iset_run_spec l (empty_world (B := B)) empty_world_good)
      as (w & rs & Hr & _ & Hs). eauto.
Qed.

Lemma scripts_refine_sets_witness :
  match run (B := list Interval) (HM := debug_build) empty_world demo with
  | Ok (w, rs) => map w (seq 0 4) = map demo_world (seq 0 4) /\ rs = repeat true 18
  | _ => False
  end /\
  exists w rs, run (B := list Interval) (HM := debug_build) empty_world demo = Ok (w, rs) /\
    spec_run (abs (B := list Interval) empty_world) demo rs (abs w).
Proof.
  split; [vm_compute; auto|].
  refine (proj2 (@scripts_refine_sets (list Interval) SortedListSet SortedListSet_laws
    InsertionHeap InsertionHeap_laws debug_build demo)).
Defined.

(** C33. An operation on sets that pass [Valid] runs to completion and leaves sets that
    pass [Valid]: the intervals have points, are sorted, and neither touch nor overlap. *)
Theorem operations_keep_Valid {B} `{BtreeSet B} `{!BtreeSetLaws B} `{StdHeap} `{!StdHeapLaws}
    `{BuildMode} (w : world (B := B)) (o : op) :
  (forall a, Valid (w a) = true) ->
  exists w' r, step w o = Ok (w', r) /\ forall a, Valid (w' a) = true.
Proof.
  intros Hv. destruct (iset_step_spec w o) as (w' & r & Hs & Hg & _).
  - intros a. apply Valid_wf, Hv.
  - exists w', r. split; [auto|]. intros a. apply Valid_wf, Hg.
Qed.

Lemma operations_keep_Valid_witness :
  exists w' r, step (B := list Interval) (HM := debug_build) demo_world (OUnion 1 1) =
    Ok (w', r) /\ forall a, Valid (w' a) = true.
Proof.
  apply (@operations_keep_Valid (list Interval) SortedListSet SortedListSet_laws
    InsertionHeap InsertionHeap_laws debug_build demo_world).
  - intros [|[|[|[|a]]]]; reflexivity.
Defined.

(** The lookups find by binary search what a scan of the intervals finds: [Contains]
    and [Find] the interval with the point, or with the whole interval, [UpperBound]
    the first interval that starts after the point, [LowerBound] the first that contains
    it or starts after it, and [IsDisjoint] whether some interval intersects. *)
Theorem lookups_are_scans {B} `{BtreeSet B} `{!BtreeSetLaws B} (s : B) (v : Z) (i : Interval) :
  Valid s = true ->
  Contains s v = Ok (existsb (fun a => contains a v) (elems s)) /\
  Find s v = Ok (first_index (fun a => contains a v) (elems s)) /\
  Contains_interval s i = Ok (existsb (fun a => contains_interval a i) (elems s)) /\
  Find_interval s i = Ok (first_index (fun a => contains_interval a i) (elems s)) /\
  UpperBound s v = first_index (fun a => v <? start a) (elems s) /\
  LowerBound s v = Ok (first_index (fun a => contains a v || (v <? start a)) (elems s)) /\
  IsDisjoint s i = Ok (negb (existsb (fun a => Intersects a i) (elems s))).
Proof.
  intros Hwf%Valid_wf. destruct (Find_Contains_scan s v Hwf) as [-> ->].
  destruct (Find_Contains_interval_scan s i Hwf) as [-> ->].
  rewrite LowerBound_scan, UpperBound_scan, IsDisjoint_scan by auto. auto 10.
Qed.

Lemma lookups_are_scans_witness :
  LowerBound [mkI 10 20; mkI 30 40] 20 = Ok 1%nat /\
  LowerBound [mkI 10 20; mkI 30 40] 15 =
    Ok (first_index (fun a => contains a 15 || (15 <? start a)) [mkI 10 20; mkI 30 40]).
Proof.
  split; [reflexivity|].
  assert (Hv : Valid [mkI 10 20; mkI 30 40] = true) by reflexivity.
  destruct (lookups_are_scans (B := list Interval) [mkI 10 20; mkI 30 40] 15 (mkI 12 13) Hv)
    as (_ & _ & _ & _ & _ & Hl & _).
  exact Hl.
Defined.

(** [Difference] with an interval removes exactly the points of the interval, also
    when the argument is a reference to an element of the set itself: the reference is
    never read after the elements have moved. *)
Theorem Difference_of_own_element {B} `{BtreeSet B} `{!BtreeSetLaws B} `{BuildMode}
    (s : B) (i : Interval) (alias : option nat) :
  Valid s = true -> (forall k, alias = Some k -> elems s !! k = Some i) ->
  exists s', Difference_interval s i alias = Ok s' /\ Valid s' = true /\
    forall x, mem (elems s') x <-> mem (elems s) x /\ ~ pt i x.
Proof.
  intros Hwf%Valid_wf Hal.
  destruct (Difference_interval_spec s i alias Hwf Hal) as (s' & Hs & Hw & Hm).
  exists s'. split_and!; auto. apply Valid_wf. auto.
Qed.

Lemma Difference_of_own_element_witness :
  (Difference_interval (HM := debug_build) [mkI 10 20; mkI 30 40; mkI 50 60] (mkI 15 55) None =
     Ok [mkI 10 15; mkI 55 60]) /\
  exists s', Difference_interval (HM := debug_build) [mkI 10 20; mkI 30 40; mkI 50 60]
      (mkI 30 40) (Some 1%nat) = Ok s' /\ Valid s' = true /\
    forall x, mem s' x <-> mem [mkI 10 20; mkI 30 40; mkI 50 60] x /\ ~ pt (mkI 30 40) x.
Proof.
  split; [reflexivity|].
  apply (@Difference_of_own_element (list Interval) SortedListSet SortedListSet_laws debug_build).
  - reflexivity.
  - intros k Hk. injection Hk as <-. reflexivity.
Defined.
