(* ===== verification/IntervalMap.v ===== *)
(** * Maps from intervals to values

    [util/gtl/intervalmap.h], as it is compiled by default, over [absl::btree_set].
    The entries of a map are kept in that container, ordered by their limits.
    [EntrySet] is the interface the code uses and [EntrySetLaws] its documented
    behaviour in terms of [elems], the entries in the order of the iterators.  An
    iterator is the position of its entry, [end()] the number of entries.  Keys come with
    the comparison of the map, [comp], and with the operators [<=], [>] and [==] of their
    type, which some of the functions use instead. *)
From Stdlib Require Import ZArith Lia Bool Sorting.Sorted.
From stdpp Require Import base list.
From S2P Require Import Prelude.
Local Open Scope Z_scope.

Class Keys (K : Type) := {
  comp : K -> K -> bool;
  op_le : K -> K -> bool;
  op_gt : K -> K -> bool;
  op_eq : K -> K -> bool }.

(** The comparison is a strict total order and [==] is equality. *)
Class KeysLaws (K : Type) `{Keys K} : Prop := {
  comp_irrefl a : comp a a = false;
  comp_trans a b c : comp a b = true -> comp b c = true -> comp a c = true;
  comp_total a b : comp a b = false -> comp b a = false -> a = b;
  op_eq_law a b : op_eq a b = true <-> a = b }.

(** The operators of the type agree with the comparison of the map, as with the default
    [std::less]. *)
Class DefaultComparison (K : Type) `{Keys K} : Prop := {
  op_le_law a b : op_le a b = negb (comp b a);
  op_gt_law a b : op_gt a b = comp b a }.

Record Entry (K V : Type) := mkE { limit : K; start : K; value : V }.
Arguments mkE {K V}.
Arguments limit {K V}.
Arguments start {K V}.
Arguments value {K V}.

#[global] Instance Entry_eq_dec {K V} `{EqDecision K, EqDecision V} : EqDecision (Entry K V).
Proof. solve_decision. Defined.

(** ** The interface of the container *)

Section container.
Context {K V : Type} `{Keys K}.

(** [EntryComparison]. *)
Definition entry_less (a b : Entry K V) : bool := comp (limit a) (limit b).

(** The position of the first entry with [p], or the length. *)
Fixpoint position (p : Entry K V -> bool) (l : list (Entry K V)) : nat :=
  match l with
  | [] => 0
  | a :: r => if p a then 0 else S (position p r)
  end.

Definition by_limit (l : list (Entry K V)) : Prop :=
  StronglySorted (fun a b => entry_less a b = true) l.

(** Insertion of an entry in its place, unless there is one with its limit. *)
Definition insert_entry (l : list (Entry K V)) (x : Entry K V) : list (Entry K V) * nat * bool :=
  let i := position (fun b => negb (entry_less b x)) l in
  match l !! i with
  | Some b => if negb (entry_less x b) then (l, i, false)
              else (take i l ++ x :: drop i l, i, true)
  | None => (take i l ++ x :: drop i l, i, true)
  end.
End container.

(** [es_mutate] is an assignment to members of an entry through its reference. *)
Class EntrySet (K V B : Type) := {
  elems : B -> list (Entry K V);
  es_empty : B;
  es_upper_bound : B -> K -> nat;
  es_emplace : B -> Entry K V -> B * nat * bool;
  es_emplace_hint : B -> nat -> Entry K V -> B * nat;
  es_erase : B -> nat -> B * nat;
  es_erase_range : B -> nat -> nat -> B * nat;
  es_mutate : B -> nat -> Entry K V -> B;
  es_clear : B -> B }.

Class EntrySetLaws (K V B : Type) `{Keys K} `{EntrySet K V B} : Prop := {
  es_empty_law : elems es_empty = [];
  es_upper_bound_law s k : by_limit (elems s) ->
    es_upper_bound s k = position (fun e => comp k (limit e)) (elems s);
  es_emplace_law s x s' i b : by_limit (elems s) -> es_emplace s x = (s', i, b) ->
    insert_entry (elems s) x = (elems s', i, b);
  es_emplace_hint_law s h x s' i : by_limit (elems s) -> (h <= length (elems s))%nat ->
    es_emplace_hint s h x = (s', i) ->
    (insert_entry (elems s) x).1 = (elems s', i);
  es_erase_law s i s' j : (i < length (elems s))%nat -> es_erase s i = (s', j) ->
    elems s' = delete i (elems s) /\ j = i;
  es_erase_range_law s i k s' j : (i <= k <= length (elems s))%nat ->
    es_erase_range s i k = (s', j) ->
    elems s' = take i (elems s) ++ drop k (elems s) /\ j = i;
  es_mutate_law s i e x : elems s !! i = Some e -> limit x = limit e ->
    elems (es_mutate s i x) = <[i := x]> (elems s);
  es_clear_law s : elems (es_clear s) = [] }.

(** ** The operations *)

Section ops.
Context {K V B : Type} `{HK : Keys K} `{HB : EntrySet K V B} `{HM : BuildMode}.
Implicit Types (s : B) (k : K) (v : V) (e : Entry K V).

Definition size (s : B) : nat := length (elems s).
Definition empty (s : B) : bool := Nat.eqb (size s) 0.
Definition is_end (s : B) (it : nat) : bool := Nat.eqb it (size s).
Definition deref (s : B) (it : nat) : outcome (Entry K V) :=
  match elems s !! it with Some e => Ok e | None => UB end.
Definition iter_prev (it : nat) : outcome nat :=
  match it with O => UB | S j => Ok j end.
Definition iter_next (s : B) (it : nat) : outcome nat :=
  if is_end s it then UB else Ok (S it).
Definition erase (s : B) (it : nat) : outcome (B * nat) :=
  if decide (it < size s)%nat then Ok (es_erase s it) else UB.
Definition erase_range (s : B) (i j : nat) : outcome (B * nat) :=
  if decide (i <= j <= size s)%nat then Ok (es_erase_range s i j) else UB.

Definition Clear (s : B) : B := es_clear s.
Definition find (s : B) (key : K) : nat := es_upper_bound s key.

Definition MutateStart (s : B) (it : nat) (new_start : K) : outcome B :=
  e ← deref s it;
  Ok (es_mutate s it (mkE (limit e) new_start (value e))).

Definition SplitAt (s : B) (k : K) : outcome (B * nat) :=
  let iter := es_upper_bound s k in
  if is_end s iter then Ok (s, iter)
  else
    e ← deref s iter;
    if comp (start e) k then
      let '(s, iter) := es_emplace_hint s iter (mkE k (start e) (value e)) in
      iter ← iter_next s iter;
      s ← MutateStart s iter k;
      Ok (s, iter)
    else Ok (s, iter).

Definition EraseInternal (s : B) (start_ limit_ : K) : outcome (B * nat) :=
  _ ← DCHECK (comp start_ limit_);
  '(s, i) ← SplitAt s start_;
  '(s, i) ← (if is_end s i then Ok (s, i)
             else
               e ← deref s i;
               if negb (comp limit_ (limit e)) then
                 erase_range s i (es_upper_bound s limit_)
               else Ok (s, i));
  if is_end s i then Ok (s, i)
  else
    e ← deref s i;
    if comp (start e) limit_ then
      s ← MutateStart s i limit_;
      Ok (s, i)
    else Ok (s, i).
Definition Erase (s : B) (start_ limit_ : K) : outcome (B * nat) := EraseInternal s start_ limit_.
Definition Erase_it (s : B) (it : nat) : outcome (B * nat) := erase s it.

(** [auto iter = find(start)] in [IsEmptyInterval]. *)
Definition IsEmptyInterval (s : B) (start_ limit_ : K) : outcome bool :=
  let iter := find s start_ in
  if is_end s iter then Ok true
  else e ← deref s iter; Ok (negb (comp (start e) limit_)).

Definition InsertEntryWithHint (s : B) (insert_before : nat) (start_ limit_ : K) (v : V) :
    outcome (B * nat) :=
  _ ← (if NDEBUG then Ok tt
       else
         _ ← CHECK (comp start_ limit_);
         _ ← (if is_end s insert_before then Ok tt
              else e ← deref s insert_before; DCHECK (negb (comp (start e) limit_)));
         if Nat.eqb insert_before 0 then Ok tt
         else
           prev ← iter_prev insert_before;
           e ← deref s prev;
           CHECK (negb (comp start_ (limit e))));
  Ok (es_emplace_hint s insert_before (mkE limit_ start_ v)).

Definition InsertEntry (s : B) (start_ limit_ : K) (v : V) : outcome (B * nat) :=
  _ ← DCHECK (comp start_ limit_);
  b ← IsEmptyInterval s start_ limit_;
  _ ← DCHECK b;
  Ok (es_emplace s (mkE limit_ start_ v)).1.

Definition SetInternal (s : B) (start_ limit_ : K) (v : V) : outcome (B * nat) :=
  _ ← DCHECK (comp start_ limit_);
  '(s, it) ← EraseInternal s start_ limit_;
  InsertEntryWithHint s it start_ limit_ v.
Definition Set_ (s : B) (start_ limit_ : K) (v : V) : outcome (B * nat) :=
  SetInternal s start_ limit_ v.
Definition SetNoOverlap (s : B) (start_ limit_ : K) (v : V) : outcome (B * nat) :=
  _ ← DCHECK (comp start_ limit_);
  InsertEntry s start_ limit_ v.

Fixpoint SetMany_loop (s : B) (hint : nat) (entries : list (Entry K V)) : outcome B :=
  match entries with
  | [] => Ok s
  | x :: entries =>
      b ← IsEmptyInterval s (start x) (limit x);
      _ ← DCHECK b;
      let '(s, hint) := es_emplace_hint s hint x in
      SetMany_loop s hint entries
  end.
Definition SetManyNoOverlap (s : B) (entries : list (Entry K V)) : outcome B :=
  if Nat.eqb (length entries) 0 then Ok s else SetMany_loop s (size s) entries.

(** [*MutableValue(it) = v]. *)
Definition MutableValue_set (s : B) (it : nat) (v : V) : outcome B :=
  _ ← DCHECK (negb (is_end s it));
  e ← deref s it;
  Ok (es_mutate s it (mkE (limit e) (start e) v)).

Definition SetAndCoalesce (value_eq : V -> V -> bool) (s : B) (start_ limit_ : K) (v : V) :
    outcome B :=
  _ ← DCHECK (comp start_ limit_);
  '(s, right_) ← EraseInternal s start_ limit_;
  left_ ← (if Nat.eqb right_ 0 then Ok (size s) else iter_prev right_);
  '(s, start_, right_) ←
    (if is_end s left_ then Ok (s, start_, right_)
     else
       e ← deref s left_;
       if negb (comp (limit e) start_) && value_eq (value e) v then
         _ ← DCHECK (negb (Nat.eqb left_ right_));
         '(s, right_) ← erase s left_;
         Ok (s, start e, right_)
       else Ok (s, start_, right_));
  extend ← (if is_end s right_ then Ok false
            else e ← deref s right_;
                 Ok (negb (comp limit_ (start e)) && value_eq (value e) v));
  if (extend : bool) then MutateStart s right_ start_
  else Ok (es_emplace s (mkE limit_ start_ v)).1.1.

Fixpoint Coalesce_loop (value_eq : V -> V -> bool) (fuel : nat) (s : B) (p : nat) : outcome B :=
  let prev := p in
  p ← iter_next s p;
  if is_end s p then Ok s
  else
    match fuel with
    | O => UB
    | S fuel =>
        a ← deref s prev;
        b ← deref s p;
        _ ← DCHECK (comp (start a) (start b));
        '(s, p) ←
          (if op_le (start b) (limit a) && value_eq (value b) (value a) then
             s ← MutateStart s p (start a);
             erase s prev
           else Ok (s, p));
        Coalesce_loop value_eq fuel s p
    end.
Definition Coalesce (value_eq : V -> V -> bool) (s : B) : outcome B :=
  if empty s then Ok s else Coalesce_loop value_eq (size s) s 0.

(** ** Lookups *)

Definition FindNext (s : B) (key : K) : outcome (option (K * K * V)) :=
  let iter := find s key in
  if is_end s iter then Ok None
  else e ← deref s iter; Ok (Some (start e, limit e, value e)).

Definition FindNextPoint (s : B) (key : K) : outcome (option K) :=
  let iter := find s key in
  if is_end s iter then Ok None
  else
    e ← deref s iter;
    if comp (start e) key then Ok (Some key) else Ok (Some (start e)).

Definition find_at (s : B) (key : K) : outcome nat :=
  let iter := find s key in
  if is_end s iter then Ok (size s)
  else
    e ← deref s iter;
    Ok (if negb (comp key (start e)) then iter else size s).
Definition contains (s : B) (key : K) : outcome bool :=
  it ← find_at s key; Ok (negb (is_end s it)).
Definition LookupPtr (s : B) (key : K) : outcome (option V) :=
  iter ← find_at s key;
  if is_end s iter then Ok None else e ← deref s iter; Ok (Some (value e)).
Definition Lookup (s : B) (key : K) : outcome (option V) :=
  iter ← find_at s key;
  if is_end s iter then Ok None else e ← deref s iter; Ok (Some (value e)).
Definition FindInterval (s : B) (key : K) : outcome (option (K * K * V)) :=
  iter ← find_at s key;
  if is_end s iter then Ok None
  else e ← deref s iter; Ok (Some (start e, limit e, value e)).

Fixpoint CoversRange_loop (fuel : nat) (s : B) (limit_ : K) (prev iter : nat) : outcome bool :=
  if is_end s iter then Ok false
  else
    match fuel with
    | O => UB
    | S fuel =>
        e ← deref s iter;
        p ← deref s prev;
        if negb (op_eq (start e) (limit p)) then Ok false
        else if negb (comp (limit e) limit_) then Ok true
        else
          let prev := iter in
          iter ← iter_next s iter;
          CoversRange_loop fuel s limit_ prev iter
    end.
Definition CoversRange (s : B) (start_ limit_ : K) : outcome bool :=
  _ ← CHECK (comp start_ limit_);
  let iter := es_upper_bound s start_ in
  if is_end s iter then Ok false
  else
    e ← deref s iter;
    if comp start_ (start e) then Ok false
    else if negb (comp (limit e) limit_) then Ok true
    else
      let prev := iter in
      iter ← iter_next s iter;
      CoversRange_loop (size s) s limit_ prev iter.

Fixpoint entries_eq (value_eq : V -> V -> bool) (l r : list (Entry K V)) : bool :=
  match l, r with
  | a :: l, b :: r =>
      if negb (op_eq (start a) (start b) && op_eq (limit a) (limit b) &&
               value_eq (value a) (value b)) then false
      else entries_eq value_eq l r
  | _, _ => true
  end.
Definition map_eq (value_eq : V -> V -> bool) (lhs rhs : B) : bool :=
  if negb (Nat.eqb (size lhs) (size rhs)) then false
  else entries_eq value_eq (elems lhs) (elems rhs).

(** ** Merging *)

(** [merge_function] has a state of its own, which stands for the scratch value as well;
    it gets the existing value and returns the value for the range, or [None] for
    [nullptr]. *)
Section merge.
Context {S_ : Type}.
Variable merge_function : S_ -> K -> K -> option V -> S_ * option V.

Fixpoint MergeValue_loop (fuel : nat) (limit_ : K) (s : B) (i : nat) (start_ : K) (st : S_) :
    outcome (B * nat * K * S_) :=
  if is_end s i then Ok (s, i, start_, st)
  else
    match fuel with
    | O => UB
    | S fuel =>
        e ← deref s i;
        let overlaps_limit := comp limit_ (limit e) in
        if overlaps_limit && negb (comp (start e) limit_) then Ok (s, i, start_, st)
        else
          '(s, i, st) ←
            (if comp start_ (start e) then
               let '(st, new_value) := merge_function st start_ (start e) None in
               match new_value with
               | Some v =>
                   '(s, i) ← InsertEntryWithHint s i start_ (start e) v;
                   i ← iter_next s i;
                   Ok (s, i, st)
               | None => Ok (s, i, st)
               end
             else Ok (s, i, st));
          '(s, i) ←
            (if overlaps_limit then
               e ← deref s i;
               let old_start := start e in
               s ← MutateStart s i limit_;
               e ← deref s i;
               Ok (es_emplace_hint s i (mkE limit_ old_start (value e)))
             else Ok (s, i));
          e ← deref s i;
          _ ← DCHECK (negb (comp (start e) start_));
          _ ← DCHECK (negb (comp limit_ (limit e)));
          let '(st, new_value) := merge_function st (start e) (limit e) (Some (value e)) in
          let start_ := limit e in
          match new_value with
          | None =>
              '(s, i) ← erase s i;
              MergeValue_loop fuel limit_ s i start_ st
          | Some v =>
              s ← MutableValue_set s i v;
              i ← iter_next s i;
              MergeValue_loop fuel limit_ s i start_ st
          end
    end.

Definition MergeValue (s : B) (start_ limit_ : K) (st : S_) : outcome (B * S_) :=
  _ ← DCHECK (comp start_ limit_);
  '(s, i) ← SplitAt s start_;
  '(s, i, start_, st) ← MergeValue_loop (S (size s)) limit_ s i start_ st;
  if comp start_ limit_ then
    let '(st, new_value) := merge_function st start_ limit_ None in
    match new_value with
    | Some v => '(s, _) ← InsertEntryWithHint s i start_ limit_ v; Ok (s, st)
    | None => Ok (s, st)
    end
  else Ok (s, st).
End merge.

(** The version with a value and a function on values. *)
Definition MergeValue_with (s : B) (start_ limit_ : K) (v : V) (merger : V -> V -> V) :
    outcome B :=
  '(s, _) ← MergeValue (fun (_ : unit) _ _ current =>
      (tt, Some (match current with None => v | Some c => merger v c end))) s start_ limit_ tt;
  Ok s.

Fixpoint MergeFrom_loop (s : B) (l : list (Entry K V)) : outcome B :=
  match l with
  | [] => Ok s
  | x :: l => '(s, _) ← SetInternal s (start x) (limit x) (value x); MergeFrom_loop s l
  end.
Definition MergeFrom (s src : B) : outcome B :=
  if empty s then Ok src else MergeFrom_loop s (elems src).

(** The loop over entries of [src] that are copied whole. *)
Fixpoint copy_entries (fuel : nat) (src s : B) (limit_ : K) (src_iter dst_iter : nat) :
    outcome (B * nat * nat) :=
  if is_end src src_iter then Ok (s, src_iter, dst_iter)
  else
    x ← deref src src_iter;
    if op_le (limit x) limit_ then
      match fuel with
      | O => UB
      | S fuel =>
          let '(s, dst_iter) := es_emplace_hint s dst_iter x in
          src_iter ← iter_next src src_iter;
          copy_entries fuel src s limit_ src_iter dst_iter
      end
    else Ok (s, src_iter, dst_iter).

(** The loop that sets the parts one by one. *)
Fixpoint set_parts (fuel : nat) (src s : B) (start_ limit_ : K) (src_iter : nat) : outcome B :=
  if is_end src src_iter then Ok s
  else
    x ← deref src src_iter;
    let s_ := if comp (start x) start_ then start_ else start x in
    let l_ := if comp limit_ (limit x) then limit_ else limit x in
    if comp s_ l_ then
      match fuel with
      | O => UB
      | S fuel =>
          '(s, _) ← SetInternal s s_ l_ (value x);
          src_iter ← iter_next src src_iter;
          set_parts fuel src s start_ limit_ src_iter
      end
    else Ok s.

Definition MergeSubRangeFrom (s src : B) (start_ limit_ : K) : outcome B :=
  let src_iter := es_upper_bound src start_ in
  if is_end src src_iter then Ok s
  else
    let dst_iter := es_upper_bound s start_ in
    bulk ← (if is_end s dst_iter then Ok true
            else d ← deref s dst_iter; Ok (op_le limit_ (start d)));
    if (bulk : bool) then
      x ← deref src src_iter;
      let copy_rest s src_iter dst_iter :=
        '(s, src_iter, dst_iter) ← copy_entries (size src) src s limit_ src_iter dst_iter;
        if is_end src src_iter then Ok s
        else
          x ← deref src src_iter;
          if comp (start x) limit_ then
            _ ← DCHECK (comp limit_ (limit x));
            Ok (es_emplace_hint s dst_iter (mkE limit_ (start x) (value x))).1
          else Ok s in
      if op_gt start_ (start x) then
        if op_le limit_ (limit x) then
          Ok (es_emplace s (mkE limit_ start_ (value x))).1.1
        else
          let '(s, dst_iter) := es_emplace_hint s dst_iter (mkE (limit x) start_ (value x)) in
          src_iter ← iter_next src src_iter;
          copy_rest s src_iter dst_iter
      else copy_rest s src_iter dst_iter
    else set_parts (size src) src s start_ limit_ src_iter.
End ops.
