(* ===== verification/IntervalMapProps.v ===== *)
(** * What a list of entries stands for, and the operations on it

    [denote] is the partial function of a list of entries, [im_ok] the invariant of the
    lists that maps keep; each operation is a function on such lists. *)
From Stdlib Require Import ZArith Lia Bool Sorting.Sorted.
From stdpp Require Import base list.
From S2P Require Import Prelude.
From S2P Require Import IntervalMap.
Local Open Scope Z_scope.

(** ** Arithmetic on keys

    Finitely many keys are ordered like integers; [korder] translates comparisons and
    leaves the rest to [lia]. *)

Section rank.
Context {K : Type} `{KL : KeysLaws K}.

Definition rank (l : list K) (x : K) : Z := zlen (List.filter (fun y => comp y x) l).

Lemma rank_le l x y : comp y x = false -> rank l x <= rank l y.
Proof.
  intros Hxy. unfold rank. induction l as [|z l IH]; simpl; [reflexivity|].
  destruct (comp z x) eqn:Ex, (comp z y) eqn:Ey; rewrite ?zlen_cons; try lia.
  exfalso. destruct (comp y z) eqn:Eyz.
  - rewrite (comp_trans y z x) in Hxy; congruence.
  - rewrite (comp_total y z) in Hxy by auto. congruence.
Qed.

Lemma rank_lt l x y : In x l -> comp x y = true -> rank l x < rank l y.
Proof.
  intros Hin Hxy. unfold rank. induction l as [|z l IH]; simpl in *; [contradiction|].
  assert (Hz : comp z x = true -> comp z y = true) by (intros; eapply comp_trans; eauto).
  assert (Hle : rank l x <= rank l y).
  { apply rank_le. destruct (comp y x) eqn:E; [|reflexivity].
    rewrite <- (comp_irrefl x). symmetry. eapply comp_trans; eauto. }
  unfold rank in Hle. destruct Hin as [->|Hin].
  - rewrite comp_irrefl, Hxy, zlen_cons. lia.
  - specialize (IH Hin). destruct (comp z x) eqn:Ex.
    + rewrite Hz by auto. rewrite !zlen_cons. lia.
    + destruct (comp z y); rewrite ?zlen_cons; lia.
Qed.

Lemma rank_exists (l : list K) : exists f : K -> Z, forall x y, In x l ->
  In y l -> (comp x y = true -> f x < f y) /\ (comp x y = false -> f y <= f x).
Proof. exists (rank l). intros x y Hx Hy. split; auto using rank_lt, rank_le. Qed.
End rank.

(** The keys compared in the goal and the context. *)
Ltac keys_of acc :=
  match goal with
  | H : comp ?x ?y = _ |- _ =>
      lazymatch acc with
      | context [cons x _] =>
          lazymatch acc with
          | context [cons y _] => fail
          | _ => keys_of (cons y acc)
          end
      | _ => keys_of (cons x acc)
      end
  | _ => acc
  end.

Ltac key_in := simpl; tauto.

Ltac korder_facts f Hf :=
  repeat match goal with
  | H : comp ?x ?y = true |- _ =>
      let E := fresh in
      assert (E : f x < f y) by (apply (proj1 (Hf x y ltac:(key_in) ltac:(key_in))); exact H);
      clear H
  | H : comp ?x ?y = false |- _ =>
      let E := fresh in
      assert (E : f y <= f x) by (apply (proj2 (Hf x y ltac:(key_in) ltac:(key_in))); exact H);
      clear H
  end.

(** Contradictory comparisons, or the result of one. *)
Ltac korder :=
  cbn [limit start value] in *;
  match goal with
  | |- comp ?x ?y = true => destruct (comp x y) eqn:?; [reflexivity | exfalso]
  | |- comp ?x ?y = false => destruct (comp x y) eqn:?; [exfalso | reflexivity]
  | |- @eq ?T ?x ?y => apply comp_total; korder
  | |- _ => exfalso
  end;
  match goal with
  | H : comp ?x ?y = _ |- _ =>
      let T := type of x in
      let l := keys_of (@nil T) in
      let f := fresh "f" in let Hf := fresh "Hf" in
      destruct (rank_exists l) as (f & Hf); korder_facts f Hf;
      repeat match goal with E : @eq T ?a ?b |- _ => apply (f_equal f) in E end; lia
  end.

Section test.
Context {K : Type} `{KL : KeysLaws K}.
Lemma korder_chain (a b c d : K) : comp a b = true -> comp c b = false -> comp d c = false ->
  comp a d = true.
Proof. intros. korder. Qed.
Lemma korder_eq (a b c : K) : comp a b = false -> comp c a = false -> comp b c = false ->
  a = b.
Proof. intros. korder. Qed.
Lemma korder_subst (a b c : K) (g : K -> K) : g a = b -> comp b c = true -> comp c (g a) = false.
Proof. intros. korder. Qed.
End test.

(** ** Lists of entries *)

Section lists.
Context {K V : Type} `{KL : KeysLaws K}.
Implicit Types (l : list (Entry K V)) (e : Entry K V) (k x : K).

Definition within e x : bool := negb (comp x (start e)) && comp x (limit e).

(** The partial function that entries stand for. *)
Fixpoint denote l x : option V :=
  match l with
  | [] => None
  | e :: l => if within e x then Some (value e) else denote l x
  end.

(** Entries have keys, are sorted, and do not overlap. *)
Definition before e e' : Prop := comp (start e') (limit e) = false.
Fixpoint im_ok l : Prop :=
  match l with
  | [] => True
  | e :: l => comp (start e) (limit e) = true /\ Forall (before e) l /\ im_ok l
  end.

(** The part below a key and the part from it on, with the entry around it cut. *)
Fixpoint below k l : list (Entry K V) :=
  match l with
  | [] => []
  | e :: r =>
      if comp k (limit e) then
        (if comp (start e) k then [mkE k (start e) (value e)] else [])
      else e :: below k r
  end.
Fixpoint above k l : list (Entry K V) :=
  match l with
  | [] => []
  | e :: r =>
      if comp k (limit e) then
        (if comp (start e) k then mkE (limit e) k (value e) else e) :: r
      else above k r
  end.

Definition limits_le k l : Prop := Forall (fun e => comp k (limit e) = false) l.
Definition starts_ge k l : Prop := Forall (fun e => comp (start e) k = false) l.

Lemma im_ok_Forall l : im_ok l -> Forall (fun e => comp (start e) (limit e) = true) l.
Proof. induction l; simpl; [constructor|]. intros (? & ? & ?). constructor; auto. Qed.

Lemma im_ok_app l1 l2 : im_ok (l1 ++ l2) <->
  im_ok l1 /\ im_ok l2 /\ Forall (fun e => Forall (before e) l2) l1.
Proof.
  induction l1 as [|e l1 IH]; simpl.
  - split; [intros; split_and!; auto | tauto].
  - rewrite IH, Forall_app, Forall_cons. tauto.
Qed.

(** Gluing at a key. *)
Lemma im_ok_glue k l1 l2 : im_ok l1 -> im_ok l2 -> limits_le k l1 -> starts_ge k l2 ->
  im_ok (l1 ++ l2).
Proof.
  intros H1 H2 Hl Hs. apply im_ok_app. split_and!; auto.
  eapply Forall_impl; [exact Hl|]. intros e He. eapply Forall_impl; [exact Hs|].
  intros e' He'. simpl in *. unfold before. korder.
Qed.

Lemma im_ok_by_limit l : im_ok l -> by_limit l.
Proof.
  induction l as [|e l IH]; simpl; [constructor|]. intros (He & Hb & Hl).
  constructor; [apply IH, Hl|]. apply im_ok_Forall in Hl. rewrite List.Forall_forall in Hb, Hl.
  apply List.Forall_forall. intros e' Hin. specialize (Hb e' Hin). specialize (Hl e' Hin).
  unfold entry_less, before in *. korder.
Qed.

Lemma denote_app l1 l2 x : denote (l1 ++ l2) x =
  match denote l1 x with Some v => Some v | None => denote l2 x end.
Proof. induction l1 as [|e l1 IH]; simpl; [reflexivity|]. destruct (within e x); auto. Qed.

Lemma denote_below_limits k l x : limits_le k l -> comp x k = false -> denote l x = None.
Proof.
  intros Hl Hx. induction Hl as [|e l He Hl IH]; simpl; [reflexivity|]. unfold within.
  replace (comp x (limit e)) with false by (symmetry; korder). rewrite andb_false_r. exact IH.
Qed.
Lemma denote_above_starts k l x : starts_ge k l -> comp x k = true -> denote l x = None.
Proof.
  intros Hl Hx. induction Hl as [|e l He Hl IH]; simpl; [reflexivity|]. unfold within.
  replace (comp x (start e)) with true by (symmetry; korder). exact IH.
Qed.

Lemma starts_ge_tail e l : im_ok (e :: l) -> starts_ge (limit e) l.
Proof. intros (_ & Hb & _). exact Hb. Qed.
Lemma starts_ge_weaken k k' l : comp k k' = false -> starts_ge k l -> starts_ge k' l.
Proof. intros Hk Hl. eapply Forall_impl; [exact Hl|]. intros e He. simpl in *. korder. Qed.
Lemma limits_le_weaken k k' l : comp k' k = false -> limits_le k l -> limits_le k' l.
Proof. intros Hk Hl. eapply Forall_impl; [exact Hl|]. intros e He. simpl in *. korder. Qed.

Lemma below_ok k l : im_ok l -> im_ok (below k l) /\ limits_le k (below k l).
Proof.
  induction l as [|e l IH]; [repeat constructor|]. intros (He & Hb & Hl). simpl.
  destruct (comp k (limit e)) eqn:Ek.
  - destruct (comp (start e) k) eqn:Es; [|repeat constructor].
    simpl. split_and!; auto. repeat constructor. apply comp_irrefl.
  - destruct (IH Hl) as [H1 H2]. simpl. split; [split_and!; auto | constructor; auto].
    clear IH H1 H2. induction l as [|e' l IH]; simpl; [constructor|].
    inversion_clear Hb. destruct Hl as (He' & Hb' & Hl).
    destruct (comp k (limit e')); [destruct (comp (start e') k)|]; repeat constructor; auto.
Qed.

Lemma above_ok k l : im_ok l -> im_ok (above k l) /\ starts_ge k (above k l).
Proof.
  induction l as [|e l IH]; [repeat constructor|]. intros (He & Hb & Hl). simpl.
  destruct (comp k (limit e)) eqn:Ek; [|apply IH; auto].
  assert (Hs : starts_ge k l).
  { apply starts_ge_weaken with (limit e); [korder | exact Hb]. }
  destruct (comp (start e) k) eqn:Es; simpl; (split; [split_and!; auto | constructor; auto]).
  simpl. apply comp_irrefl.
Qed.

Lemma denote_below k l x : im_ok l -> denote (below k l) x = if comp x k then denote l x else None.
Proof.
  induction l as [|e l IH]; simpl; [destruct (comp x k); reflexivity|]. intros (He & Hb & Hl).
  destruct (comp k (limit e)) eqn:Ek.
  - destruct (comp x k) eqn:Ex.
    + assert (Hd : denote l x = None)
        by (apply denote_above_starts with (limit e); [exact Hb | korder]).
      rewrite Hd. unfold within. replace (comp x (limit e)) with true by (symmetry; korder).
      destruct (comp (start e) k) eqn:Es; simpl.
      * unfold within. simpl. rewrite Ex. reflexivity.
      * replace (comp x (start e)) with true by (symmetry; korder). reflexivity.
    + destruct (comp (start e) k); simpl; [|reflexivity]. unfold within. simpl.
      rewrite Ex, andb_false_r. reflexivity.
  - simpl. rewrite IH by auto. unfold within. destruct (comp x k) eqn:Ex; [reflexivity|].
    replace (comp x (limit e)) with false by (symmetry; korder). rewrite andb_false_r. reflexivity.
Qed.

Lemma denote_above k l x : im_ok l -> denote (above k l) x = if comp x k then None else denote l x.
Proof.
  induction l as [|e l IH]; simpl; [destruct (comp x k); reflexivity|]. intros (He & Hb & Hl).
  destruct (comp k (limit e)) eqn:Ek.
  - destruct (comp x k) eqn:Ex.
    + apply denote_above_starts with k; [|exact Ex].
      change (above k (e :: l)) with (above k (e :: l)).
      pose proof (above_ok k (e :: l) (conj He (conj Hb Hl))) as [_ Ha].
      simpl in Ha. rewrite Ek in Ha. exact Ha.
    + destruct (comp (start e) k) eqn:Es; simpl; [|reflexivity].
      unfold within. simpl. rewrite Ex. replace (comp x (start e)) with false by (symmetry; korder).
      reflexivity.
  - rewrite IH by auto. unfold within. destruct (comp x k) eqn:Ex; [reflexivity|].
    replace (comp x (limit e)) with false by (symmetry; korder). rewrite andb_false_r. reflexivity.
Qed.

(** Cutting changes nothing. *)
Lemma denote_cut k l x : im_ok l -> denote (below k l ++ above k l) x = denote l x.
Proof.
  intros Hl. rewrite denote_app, denote_below, denote_above by auto.
  destruct (comp x k); [destruct (denote l x)|]; reflexivity.
Qed.
Lemma cut_ok k l : im_ok l -> im_ok (below k l ++ above k l).
Proof.
  intros Hl. pose proof (below_ok k l Hl) as []. pose proof (above_ok k l Hl) as [].
  eapply im_ok_glue; eauto.
Qed.

Lemma above_above k k' l : comp k k' = true -> above k' (above k l) = above k' l.
Proof.
  intros Hk. induction l as [|e l IH]; simpl; [reflexivity|].
  destruct (comp k (limit e)) eqn:Ek.
  - destruct (comp (start e) k) eqn:Es; simpl; [|reflexivity].
    destruct (comp k' (limit e)) eqn:Ek'; [|reflexivity]. rewrite Hk.
    replace (comp (start e) k') with true by (symmetry; korder). reflexivity.
  - rewrite IH. replace (comp k' (limit e)) with false by (symmetry; korder). reflexivity.
Qed.

(** Where [upper_bound] points. *)
Lemma cut_position k l : exists l1 l2, l = l1 ++ l2 /\
  position (fun e => comp k (limit e)) l = length l1 /\ limits_le k l1 /\
  match l2 with
  | [] => below k l = l1 /\ above k l = []
  | e :: r => comp k (limit e) = true /\
      below k l = l1 ++ (if comp (start e) k then [mkE k (start e) (value e)] else []) /\
      above k l = (if comp (start e) k then mkE (limit e) k (value e) else e) :: r
  end.
Proof.
  induction l as [|e l (l1 & l2 & Hl & Hp & Hf & Hm)]; simpl.
  - exists [], []. repeat constructor.
  - destruct (comp k (limit e)) eqn:Ek.
    + exists [], (e :: l). rewrite Ek. repeat constructor.
    + exists (e :: l1), l2. simpl. rewrite <- Hl, Hp. split_and!; auto; [constructor; auto|].
      destruct l2 as [|e' r].
      * destruct Hm as [-> ->]. auto.
      * destruct Hm as (? & -> & ->). auto.
Qed.

(** Insertion between entries with lower and entries with higher limits. *)
Lemma insert_entry_at l1 l2 (e : Entry K V) :
  Forall (fun a => comp (limit a) (limit e) = true) l1 ->
  Forall (fun a => comp (limit e) (limit a) = true) l2 ->
  insert_entry (l1 ++ l2) e = (l1 ++ e :: l2, length l1, true).
Proof.
  intros H1 H2. unfold insert_entry.
  assert (Hp : position (fun b => negb (entry_less b e)) (l1 ++ l2) = length l1).
  { unfold entry_less. induction H1 as [|a l1 Ha H1 IH]; simpl.
    - destruct H2 as [|a l2 Ha H2]; simpl; [reflexivity|].
      replace (comp (limit a) (limit e)) with false by (symmetry; korder). reflexivity.
    - rewrite Ha. simpl. f_equal. exact IH. }
  rewrite Hp, take_app_length, drop_app_length.
  rewrite lookup_app_r, Nat.sub_diag by lia. destruct l2 as [|a l2]; simpl; [reflexivity|].
  inversion_clear H2 as [|? ? Ha Hr]. unfold entry_less. rewrite Ha. reflexivity.
Qed.
End lists.

(** ** The steps of the operations, on lists *)

Section ops.
Context {K V B : Type} `{KL : KeysLaws K} `{HB : EntrySet K V B} `{!EntrySetLaws K V B}
  `{HM : BuildMode}.
Implicit Types (s : B) (l : list (Entry K V)) (e : Entry K V) (k x : K).

Lemma is_end_at s l1 l2 : elems s = l1 ++ l2 ->
  is_end s (length l1) = match l2 with [] => true | _ => false end.
Proof.
  intros E. unfold is_end, size. rewrite E, length_app.
  destruct l2; simpl; [apply Nat.eqb_eq; lia | apply Nat.eqb_neq; lia].
Qed.

Lemma deref_at s l1 e l2 : elems s = l1 ++ e :: l2 -> deref s (length l1) = Ok e.
Proof. intros E. unfold deref. rewrite E, list_lookup_middle by reflexivity. reflexivity. Qed.

Lemma iter_next_at s l1 e l2 : elems s = l1 ++ e :: l2 ->
  iter_next s (length l1) = Ok (length (l1 ++ [e])).
Proof.
  intros E. unfold iter_next. rewrite (is_end_at _ _ _ E), length_app. simpl. f_equal. lia.
Qed.

Lemma iter_prev_at l1 e : iter_prev (length (l1 ++ [e])) = Ok (length l1).
Proof. rewrite length_app. simpl. rewrite Nat.add_1_r. reflexivity. Qed.

Lemma mutate_at s l1 e l2 e' : elems s = l1 ++ e :: l2 -> limit e' = limit e ->
  elems (es_mutate s (length l1) e') = l1 ++ e' :: l2.
Proof.
  intros E He. rewrite (es_mutate_law _ _ e) by (rewrite ?E, ?list_lookup_middle; auto).
  rewrite E. rewrite insert_app_r_alt, Nat.sub_diag by lia. reflexivity.
Qed.

Lemma MutateStart_at s l1 e l2 k : elems s = l1 ++ e :: l2 -> exists s',
  MutateStart s (length l1) k = Ok s' /\ elems s' = l1 ++ mkE (limit e) k (value e) :: l2.
Proof.
  intros E. unfold MutateStart. rewrite (deref_at _ _ _ _ E), bind_Ok. eexists. split; [reflexivity|].
  apply (mutate_at _ _ e); auto.
Qed.

Lemma MutableValue_at s l1 e l2 v : elems s = l1 ++ e :: l2 -> exists s',
  MutableValue_set s (length l1) v = Ok s' /\ elems s' = l1 ++ mkE (limit e) (start e) v :: l2.
Proof.
  intros E. unfold MutableValue_set. rewrite (is_end_at _ _ _ E), DCHECK_true, bind_Ok.
  rewrite (deref_at _ _ _ _ E), bind_Ok. eexists. split; [reflexivity|].
  apply (mutate_at _ _ e); auto.
Qed.

Lemma erase_at s l1 e l2 : elems s = l1 ++ e :: l2 -> exists s',
  erase s (length l1) = Ok (s', length l1) /\ elems s' = l1 ++ l2.
Proof.
  intros E. unfold erase, size. rewrite E. rewrite decide_True by (rewrite length_app; simpl; lia).
  destruct (es_erase s (length l1)) as [s' j] eqn:Ee.
  apply es_erase_law in Ee as [Ee ->]; [|rewrite E, length_app; simpl; lia].
  exists s'. split; [reflexivity|]. rewrite Ee, E. apply delete_middle.
Qed.

Lemma erase_range_at s l1 l2 l3 : elems s = l1 ++ l2 ++ l3 -> exists s',
  erase_range s (length l1) (length (l1 ++ l2)) = Ok (s', length l1) /\ elems s' = l1 ++ l3.
Proof.
  intros E. unfold erase_range, size.
  assert (Hr : (length l1 <= length (l1 ++ l2) <= length (elems s))%nat)
    by (rewrite E, !length_app; lia).
  rewrite decide_True by exact Hr.
  destruct (es_erase_range s (length l1) (length (l1 ++ l2))) as [s' j] eqn:Ee.
  apply es_erase_range_law in Ee as [Ee ->]; [|exact Hr].
  exists s'. split; [reflexivity|]. rewrite Ee, E. rewrite take_app_length. f_equal.
  rewrite app_assoc, drop_app_length. reflexivity.
Qed.

Lemma upper_bound_at s k : im_ok (elems s) -> exists l1 l2, elems s = l1 ++ l2 /\
  es_upper_bound s k = length l1 /\ limits_le k l1 /\
  match l2 with
  | [] => below k (elems s) = l1 /\ above k (elems s) = []
  | e :: r => comp k (limit e) = true /\
      below k (elems s) = l1 ++ (if comp (start e) k then [mkE k (start e) (value e)] else []) /\
      above k (elems s) = (if comp (start e) k then mkE (limit e) k (value e) else e) :: r
  end.
Proof.
  intros Hl. rewrite es_upper_bound_law by auto using im_ok_by_limit. apply cut_position.
Qed.

(** Insertion of an entry with its limit between those around it. *)
Definition fits l1 e l2 : Prop :=
  Forall (fun a => comp (limit a) (limit e) = true) l1 /\
  Forall (fun a => comp (limit e) (limit a) = true) l2.

Lemma emplace_hint_at s h l1 l2 e : elems s = l1 ++ l2 -> by_limit (l1 ++ l2) -> fits l1 e l2 ->
  (h <= length (l1 ++ l2))%nat -> exists s',
  es_emplace_hint s h e = (s', length l1) /\ elems s' = l1 ++ e :: l2.
Proof.
  intros E Hl [H1 H2] Hh. destruct (es_emplace_hint s h e) as [s' i] eqn:Ee.
  apply es_emplace_hint_law in Ee; [| rewrite E; auto ..].
  rewrite E, insert_entry_at in Ee by auto. injection Ee as Ee <-. eauto.
Qed.

Lemma emplace_at s l1 l2 e : elems s = l1 ++ l2 -> by_limit (l1 ++ l2) -> fits l1 e l2 ->
  exists s', es_emplace s e = (s', length l1, true) /\ elems s' = l1 ++ e :: l2.
Proof.
  intros E Hl [H1 H2]. destruct (es_emplace s e) as [[s' i] b] eqn:Ee.
  apply es_emplace_law in Ee; [|rewrite E; auto].
  rewrite E, insert_entry_at in Ee by auto. injection Ee as Ee <- <-. eauto.
Qed.

(** An entry fits between entries below its start and entries from its limit on. *)
Lemma fits_between l1 e l2 : comp (start e) (limit e) = true -> limits_le (start e) l1 ->
  starts_ge (limit e) l2 -> im_ok l2 -> fits l1 e l2.
Proof.
  intros He H1 H2 Hok. split.
  - eapply Forall_impl; [exact H1|]. intros a Ha. simpl in *. korder.
  - apply im_ok_Forall in Hok. unfold limits_le, starts_ge in *; rewrite List.Forall_forall in *. intros a Ha.
    specialize (H2 a Ha). specialize (Hok a Ha). korder.
Qed.

Lemma SplitAt_spec s k : im_ok (elems s) -> exists s',
  SplitAt s k = Ok (s', length (below k (elems s))) /\
  elems s' = below k (elems s) ++ above k (elems s).
Proof.
  intros Hl. destruct (upper_bound_at s k Hl) as (l1 & l2 & E & Hu & Hle & Hm).
  unfold SplitAt. rewrite Hu, (is_end_at _ _ _ E). destruct l2 as [|e r].
  { destruct Hm as [-> ->]. rewrite app_nil_r in *. eauto. }
  destruct Hm as (Hk & -> & ->). rewrite (deref_at _ _ _ _ E), bind_Ok.
  destruct (comp (start e) k) eqn:Es.
  2: { rewrite app_nil_r. eauto. }
  rewrite E in Hl. pose proof Hl as Hl'. apply im_ok_app in Hl as (H1 & (He & Hb & Hr) & Hf).
  destruct (emplace_hint_at s (length l1) l1 (e :: r) (mkE k (start e) (value e))) as (s1 & -> & E1);
    auto using im_ok_by_limit.
  { split; simpl.
    - unfold limits_le, starts_ge in *; rewrite List.Forall_forall in *. intros a Ha. specialize (Hf a Ha). inversion_clear Hf.
      specialize (Hle a Ha). unfold before in *. korder.
    - constructor; [exact Hk|]. apply im_ok_Forall in Hr. unfold limits_le, starts_ge in *; rewrite List.Forall_forall in *.
      intros a Ha. specialize (Hb a Ha). specialize (Hr a Ha). unfold before in *. korder. }
  { rewrite length_app. lia. }
  rewrite (iter_next_at _ _ _ _ E1), bind_Ok.
  change (l1 ++ mkE k (start e) (value e) :: e :: r) with
    (l1 ++ [mkE k (start e) (value e)] ++ e :: r) in E1. rewrite app_assoc in E1.
  destruct (MutateStart_at _ _ _ _ k E1) as (s2 & -> & E2). rewrite bind_Ok. eauto.
Qed.
End ops.

Section ops.
Context {K V B : Type} `{KL : KeysLaws K} `{HB : EntrySet K V B} `{!EntrySetLaws K V B}
  `{HM : BuildMode}.
Implicit Types (s : B) (l : list (Entry K V)) (e : Entry K V) (k x : K).

(** The upper bound of a key beyond the limits of a first part. *)
Lemma upper_bound_after s l1 l2 k : elems s = l1 ++ l2 -> im_ok (l1 ++ l2) -> limits_le k l1 ->
  exists l3 l4, l2 = l3 ++ l4 /\ es_upper_bound s k = length (l1 ++ l3) /\ limits_le k l3 /\
  match l4 with
  | [] => above k l2 = []
  | e :: r => comp k (limit e) = true /\
      above k l2 = (if comp (start e) k then mkE (limit e) k (value e) else e) :: r
  end.
Proof.
  intros E Hok Hl. destruct (cut_position k l2) as (l3 & l4 & E2 & Hp & Hle & Hm).
  exists l3, l4. split_and!; auto.
  - rewrite es_upper_bound_law, E by (rewrite E; auto using im_ok_by_limit).
    rewrite length_app, <- Hp. clear E Hok. induction Hl as [|e l1 He Hl IH]; simpl; [reflexivity|].
    rewrite He. f_equal. exact IH.
  - destruct l4; tauto.
Qed.

(** The last step of [EraseInternal]: cutting off the entry at [limit]. *)
Lemma EraseInternal_spec s k k' : im_ok (elems s) -> comp k k' = true -> exists s',
  EraseInternal s k k' = Ok (s', length (below k (elems s))) /\
  elems s' = below k (elems s) ++ above k' (elems s).
Proof.
  intros Hok Hk. unfold EraseInternal. rewrite Hk, DCHECK_true, bind_Ok.
  destruct (SplitAt_spec s k Hok) as (s1 & -> & E1). rewrite bind_Ok.
  rewrite <- (above_above k k' (elems s)) by auto.
  pose proof (cut_ok k _ Hok) as Hok1. pose proof (below_ok k _ Hok) as [_ Hlb].
  set (b := below k (elems s)) in *. set (a := above k (elems s)) in *. clearbody a b.
  assert (Hlb' : limits_le k' b) by (apply limits_le_weaken with k; [korder | exact Hlb]).
  assert (Hend : forall s2 l4, elems s2 = b ++ l4 ->
    match l4 with
    | [] => above k' a = []
    | e :: r => above k' a = (if comp (start e) k' then mkE (limit e) k' (value e) else e) :: r
    end -> exists s', (if is_end s2 (length b) then Ok (s2, length b)
      else e ← deref s2 (length b);
           if comp (start e) k' then s ← MutateStart s2 (length b) k'; Ok (s, length b)
           else Ok (s2, length b)) = Ok (s', length b) /\ elems s' = b ++ above k' a).
  { intros s2 l4 E2 Hm. rewrite (is_end_at _ _ _ E2). destruct l4 as [|e r].
    - rewrite Hm. eauto.
    - rewrite (deref_at _ _ _ _ E2), bind_Ok, Hm. destruct (comp (start e) k'); [|eauto].
      destruct (MutateStart_at _ _ _ _ k' E2) as (s3 & -> & E3). rewrite bind_Ok. eauto. }
  rewrite (is_end_at _ _ _ E1). destruct a as [|e r].
  { cbv match. rewrite bind_Ok. apply (Hend s1 []); auto. }
  cbv match. rewrite (deref_at _ _ _ _ E1), bind_Ok.
  destruct (comp k' (limit e)) eqn:Ek; cbv match beta delta [negb].
  { rewrite bind_Ok. apply (Hend s1 (e :: r)); auto. simpl. rewrite Ek. reflexivity. }
  destruct (upper_bound_after s1 b (e :: r) k' E1 Hok1 Hlb') as (l3 & l4 & E2 & -> & _ & Hm).
  rewrite E2 in E1. destruct (erase_range_at _ _ _ _ E1) as (s2 & -> & E3). rewrite bind_Ok.
  apply (Hend s2 l4); auto. destruct l4; tauto.
Qed.

(** The checks of debug builds pass where the entry belongs. *)
Lemma InsertEntryWithHint_at s l1 l2 k k' v : elems s = l1 ++ l2 -> im_ok (l1 ++ l2) ->
  comp k k' = true -> limits_le k l1 -> starts_ge k' l2 -> exists s',
  InsertEntryWithHint s (length l1) k k' v = Ok (s', length l1) /\
  elems s' = l1 ++ mkE k' k v :: l2.
Proof.
  intros E Hok Hk H1 H2. unfold InsertEntryWithHint.
  assert (Hc : (if NDEBUG then Ok tt
       else
         _ ← CHECK (comp k k');
         _ ← (if is_end s (length l1) then Ok tt
              else e ← deref s (length l1); DCHECK (negb (comp (start e) k')));
         if Nat.eqb (length l1) 0 then Ok tt
         else
           prev ← iter_prev (length l1);
           e ← deref s prev;
           CHECK (negb (comp k (limit e)))) = Ok tt).
  { destruct NDEBUG eqn:En; [reflexivity|]. rewrite Hk, (is_end_at _ _ _ E).
    change (CHECK true) with (Ok tt). rewrite bind_Ok.
    assert (Hd : (if match l2 with [] => true | _ => false end then Ok tt
       else e ← deref s (length l1); DCHECK (negb (comp (start e) k'))) = Ok tt).
    { destruct l2 as [|e r]; [reflexivity|]. rewrite (deref_at _ _ _ _ E), bind_Ok.
      inversion_clear H2 as [|? ? He Hr]. rewrite He. apply DCHECK_true. }
    rewrite Hd, bind_Ok. destruct l1 as [|e l1 _] using rev_ind; [reflexivity|].
    rewrite (proj2 (Nat.eqb_neq _ _)) by (rewrite length_app; simpl; lia).
    rewrite iter_prev_at, bind_Ok. rewrite <- app_assoc in E.
    rewrite (deref_at _ _ _ _ E), bind_Ok. apply Forall_app in H1 as [_ He].
    inversion_clear He as [|? ? He' _]. rewrite He'. reflexivity. }
  rewrite Hc, bind_Ok. apply im_ok_app in Hok as (Hok1 & Hok2 & Hf).
  destruct (emplace_hint_at s (length l1) l1 l2 (mkE k' k v)) as (s' & -> & E'); eauto.
  - apply im_ok_by_limit, im_ok_app. auto.
  - apply fits_between; auto.
  - rewrite length_app. lia.
Qed.

Definition set_list k k' v l : list (Entry K V) := below k l ++ mkE k' k v :: above k' l.

Lemma SetInternal_spec s k k' v : im_ok (elems s) -> comp k k' = true -> exists s',
  SetInternal s k k' v = Ok (s', length (below k (elems s))) /\
  elems s' = set_list k k' v (elems s).
Proof.
  intros Hok Hk. unfold SetInternal. rewrite Hk, DCHECK_true, bind_Ok.
  destruct (EraseInternal_spec s k k' Hok Hk) as (s1 & -> & E1). rewrite bind_Ok.
  pose proof (below_ok k _ Hok) as [Hb1 Hb2]. pose proof (above_ok k' _ Hok) as [Ha1 Ha2].
  apply InsertEntryWithHint_at; auto. apply im_ok_glue with k'; auto.
  apply limits_le_weaken with k; [korder | auto].
Qed.

Lemma im_ok_insert l1 l2 k k' v : im_ok l1 -> im_ok l2 -> limits_le k l1 -> starts_ge k' l2 ->
  comp k k' = true -> im_ok (l1 ++ mkE k' k v :: l2).
Proof.
  intros H1 H2 Hl Hs Hk. apply im_ok_glue with k; auto.
  - simpl. split_and!; auto.
  - constructor; [apply comp_irrefl|]. apply starts_ge_weaken with k'; [korder | auto].
Qed.

Lemma set_list_ok k k' v l : im_ok l -> comp k k' = true -> im_ok (set_list k k' v l).
Proof.
  intros Hok Hk. pose proof (below_ok k _ Hok) as []. pose proof (above_ok k' _ Hok) as [].
  apply im_ok_insert; auto.
Qed.

Definition in_range k k' x : bool := negb (comp x k) && comp x k'.

Lemma denote_set_list k k' v l x : im_ok l -> comp k k' = true ->
  denote (set_list k k' v l) x = if in_range k k' x then Some v else denote l x.
Proof.
  intros Hok Hk. unfold set_list. rewrite denote_app. simpl.
  rewrite denote_below, denote_above by auto. unfold within, in_range. simpl.
  destruct (comp x k) eqn:E1, (comp x k') eqn:E2; simpl; auto.
  - destruct (denote l x); reflexivity.
  - exfalso. korder.
Qed.

Definition erase_list k k' l : list (Entry K V) := below k l ++ above k' l.

Lemma erase_list_ok k k' l : im_ok l -> comp k k' = true -> im_ok (erase_list k k' l).
Proof.
  intros Hok Hk. pose proof (below_ok k _ Hok) as []. pose proof (above_ok k' _ Hok) as [].
  apply im_ok_glue with k'; auto. apply limits_le_weaken with k; [korder | auto].
Qed.

Lemma denote_erase_list k k' l x : im_ok l -> comp k k' = true ->
  denote (erase_list k k' l) x = if in_range k k' x then None else denote l x.
Proof.
  intros Hok Hk. unfold erase_list. rewrite denote_app, denote_below, denote_above by auto.
  unfold in_range. destruct (comp x k) eqn:E1, (comp x k') eqn:E2; simpl; auto.
  - destruct (denote l x); reflexivity.
  - exfalso. korder.
Qed.

(** ** Lookups *)

(** The first entry with a limit beyond a key, with what comes before it. *)
Lemma find_cases s k : im_ok (elems s) -> exists l1 l2, elems s = l1 ++ l2 /\
  find s k = length l1 /\ limits_le k l1 /\
  match l2 with [] => True | e :: r => comp k (limit e) = true /\ starts_ge (limit e) r /\
    comp (start e) (limit e) = true end.
Proof.
  intros Hok. destruct (upper_bound_at s k Hok) as (l1 & l2 & E & Hu & Hl & Hm).
  exists l1, l2. split_and!; auto. destruct l2 as [|e r]; [done|].
  rewrite E in Hok. apply im_ok_app in Hok as (_ & (He & Hb & _) & _). tauto.
Qed.

Lemma denote_find l1 e r x : limits_le x l1 -> starts_ge (limit e) r ->
  comp x (limit e) = true ->
  denote (l1 ++ e :: r) x = if comp x (start e) then None else Some (value e).
Proof.
  intros Hl Hs Hx. rewrite denote_app, (denote_below_limits x) by (auto using comp_irrefl).
  simpl. unfold within. rewrite Hx. destruct (comp x (start e)) eqn:E; simpl; [|reflexivity].
  apply denote_above_starts with (limit e); auto.
Qed.

Lemma denote_find_end l x : limits_le x l -> denote l x = None.
Proof. intros Hl. apply denote_below_limits with x; auto using comp_irrefl. Qed.

(** The result of [find_at]: the entry with the key, if there is one. *)
Lemma find_at_spec s k : im_ok (elems s) ->
  match denote (elems s) k with
  | Some v => exists l1 e r, elems s = l1 ++ e :: r /\ find_at s k = Ok (length l1) /\
      within e k = true /\ value e = v
  | None => find_at s k = Ok (size s)
  end.
Proof.
  intros Hok. destruct (find_cases s k Hok) as (l1 & l2 & E & Hf & Hl & Hm).
  unfold find_at. rewrite Hf, (is_end_at _ _ _ E). destruct l2 as [|e r].
  - rewrite E, app_nil_r, denote_find_end by auto. reflexivity.
  - destruct Hm as (He & Hs & _). rewrite (deref_at _ _ _ _ E), bind_Ok.
    pose proof (denote_find l1 e r k Hl Hs He) as Hd. rewrite <- E in Hd. rewrite Hd. destruct (comp k (start e)) eqn:Es; simpl; [reflexivity|].
    exists l1, e, r. split_and!; auto. unfold within. rewrite Es, He. reflexivity.
Qed.

Lemma contains_spec s k : im_ok (elems s) ->
  contains s k = Ok (match denote (elems s) k with Some _ => true | None => false end).
Proof.
  intros Hok. unfold contains. pose proof (find_at_spec s k Hok) as Hf.
  destruct (denote (elems s) k).
  - destruct Hf as (l1 & e & r & E & -> & _). rewrite bind_Ok, (is_end_at _ _ _ E). reflexivity.
  - rewrite Hf, bind_Ok. unfold is_end. rewrite Nat.eqb_refl. reflexivity.
Qed.

Lemma Lookup_spec s k : im_ok (elems s) ->
  Lookup s k = Ok (denote (elems s) k) /\ LookupPtr s k = Ok (denote (elems s) k).
Proof.
  intros Hok. unfold Lookup, LookupPtr. pose proof (find_at_spec s k Hok) as Hf.
  destruct (denote (elems s) k).
  - destruct Hf as (l1 & e & r & E & -> & _ & Hv). rewrite bind_Ok, (is_end_at _ _ _ E).
    rewrite (deref_at _ _ _ _ E), bind_Ok, Hv. auto.
  - rewrite Hf, bind_Ok. unfold is_end. rewrite Nat.eqb_refl. auto.
Qed.

Lemma FindInterval_spec s k : im_ok (elems s) ->
  match denote (elems s) k with
  | Some v => exists e, e ∈ elems s /\ within e k = true /\ value e = v /\
      FindInterval s k = Ok (Some (start e, limit e, v))
  | None => FindInterval s k = Ok None
  end.
Proof.
  intros Hok. unfold FindInterval. pose proof (find_at_spec s k Hok) as Hf.
  destruct (denote (elems s) k).
  - destruct Hf as (l1 & e & r & E & -> & Hw & <-). exists e.
    rewrite bind_Ok, (is_end_at _ _ _ E), (deref_at _ _ _ _ E), bind_Ok.
    split_and!; auto. rewrite E. apply elem_of_app. right. left.
  - rewrite Hf, bind_Ok. unfold is_end. rewrite Nat.eqb_refl. reflexivity.
Qed.

(** The first entry that reaches beyond the key. *)
Lemma FindNext_spec s k : im_ok (elems s) ->
  (FindNext s k = Ok None /\ limits_le k (elems s)) \/
  (exists l1 e r, elems s = l1 ++ e :: r /\ limits_le k l1 /\ comp k (limit e) = true /\
     FindNext s k = Ok (Some (start e, limit e, value e))).
Proof.
  intros Hok. destruct (find_cases s k Hok) as (l1 & l2 & E & Hf & Hl & Hm).
  unfold FindNext. rewrite Hf, (is_end_at _ _ _ E). destruct l2 as [|e r].
  - left. rewrite E, app_nil_r. auto.
  - right. destruct Hm as (He & _). exists l1, e, r.
    rewrite (deref_at _ _ _ _ E), bind_Ok. auto.
Qed.

(** The first point at or after the key that has a value. *)
Definition next_point (m : K -> option V) k (r : option K) : Prop :=
  match r with
  | Some p => comp p k = false /\ m p <> None /\
      forall x, in_range k p x = true -> m x = None
  | None => forall x, comp x k = false -> m x = None
  end.

Lemma FindNextPoint_spec s k : im_ok (elems s) -> exists r,
  FindNextPoint s k = Ok r /\ next_point (denote (elems s)) k r.
Proof.
  intros Hok. destruct (find_cases s k Hok) as (l1 & l2 & E & Hf & Hl & Hm).
  unfold FindNextPoint. rewrite Hf, (is_end_at _ _ _ E), E. destruct l2 as [|e r].
  - eexists. split; [reflexivity|]. intros x Hx. rewrite app_nil_r.
    apply denote_below_limits with k; auto.
  - destruct Hm as (He & Hs & Hse). rewrite (deref_at _ _ _ _ E), bind_Ok.
    destruct (comp (start e) k) eqn:Esk; eexists; (split; [reflexivity|]); split_and!.
    + apply comp_irrefl.
    + rewrite denote_find by auto. replace (comp k (start e)) with false by (symmetry; korder).
      discriminate.
    + intros x Hx. unfold in_range in Hx. destruct (comp x k); discriminate.
    + exact Esk.
    + rewrite denote_find, comp_irrefl by
        (first [assumption | apply limits_le_weaken with k; [korder | assumption]]). discriminate.
    + intros x Hx. apply andb_true_iff in Hx as [Hx1 Hx2]. apply negb_true_iff in Hx1.
      rewrite denote_find; [rewrite Hx2; reflexivity | | auto | korder].
      apply limits_le_weaken with k; [korder | auto].
Qed.

Lemma IsEmptyInterval_spec s k k' : im_ok (elems s) -> comp k k' = true -> exists b,
  IsEmptyInterval s k k' = Ok b /\
  (b = true <-> forall x, in_range k k' x = true -> denote (elems s) x = None).
Proof.
  intros Hok Hk. destruct (find_cases s k Hok) as (l1 & l2 & E & Hf & Hl & Hm).
  unfold IsEmptyInterval. rewrite Hf, (is_end_at _ _ _ E), E. destruct l2 as [|e r].
  - exists true. split; [reflexivity|]. split; [|auto]. intros _ x Hx. rewrite app_nil_r.
    apply andb_true_iff in Hx as [Hx _]. apply negb_true_iff in Hx.
    apply denote_below_limits with k; auto.
  - destruct Hm as (He & Hs & Hse). rewrite (deref_at _ _ _ _ E), bind_Ok. eexists.
    split; [reflexivity|]. destruct (comp (start e) k') eqn:Es; simpl.
    + split; [discriminate|]. intros Ha. exfalso.
      destruct (comp (start e) k) eqn:Esk.
      * specialize (Ha k). unfold in_range in Ha. rewrite comp_irrefl, Hk in Ha.
        rewrite denote_find in Ha by auto.
        replace (comp k (start e)) with false in Ha by (symmetry; korder). by specialize (Ha eq_refl).
      * specialize (Ha (start e)). unfold in_range in Ha. rewrite Esk, Es in Ha.
        rewrite denote_find, comp_irrefl in Ha by
          (first [assumption | apply limits_le_weaken with k; [korder | assumption]]). by specialize (Ha eq_refl).
    + split; [|auto]. intros _ x Hx. apply andb_true_iff in Hx as [Hx1 Hx2].
      apply negb_true_iff in Hx1. rewrite denote_app.
      rewrite (denote_below_limits k) by auto. apply denote_above_starts with k'; [|auto].
      constructor; [exact Es|]. apply starts_ge_weaken with (limit e); [korder | exact Hs].
Qed.

(** ** Covered ranges *)

Definition covered (m : K -> option V) k k' : Prop :=
  forall x, in_range k k' x = true -> m x <> None.

Lemma covered_split m k k1 k' : comp k1 k = false -> comp k1 k' = true ->
  covered m k k1 -> (covered m k k' <-> covered m k1 k').
Proof.
  intros H1 H2 Hc. split; intros Hd x Hx; unfold in_range in *;
    apply andb_true_iff in Hx as [Hx1 Hx2]; apply negb_true_iff in Hx1.
  - apply Hd. unfold in_range. rewrite Hx2. replace (comp x k) with false by (symmetry; korder). reflexivity.
  - destruct (comp x k1) eqn:E.
    + apply Hc. unfold in_range. rewrite Hx1, E. reflexivity.
    + apply Hd. unfold in_range. rewrite E, Hx2. reflexivity.
Qed.

Lemma CoversRange_loop_spec s k' : forall r fuel l1 p, im_ok (elems s) ->
  elems s = l1 ++ p :: r -> comp (limit p) k' = true -> (length r <= fuel)%nat ->
  exists b, CoversRange_loop fuel s k' (length l1) (length (l1 ++ [p])) = Ok b /\
    (b = true <-> covered (denote (elems s)) (limit p) k').
Proof.
  induction r as [|e r IH]; intros fuel l1 p Hok E Hp Hf.
  all: pose proof E as E'; change (l1 ++ p :: ?r) with (l1 ++ [p] ++ r) in E';
    rewrite app_assoc in E'.
  all: assert (Hl1 : limits_le (limit p) (l1 ++ [p])) by
    (rewrite E in Hok; apply im_ok_app in Hok as (Ho1 & (Hpp & _) & Hb); apply Forall_app;
     split; [|repeat constructor; apply comp_irrefl];
     apply im_ok_Forall in Ho1; unfold limits_le; rewrite List.Forall_forall in *;
     intros a Ha; specialize (Hb a Ha); inversion_clear Hb; unfold before in *; korder).
  - exists false. split; [destruct fuel; simpl; rewrite (is_end_at _ _ _ E'); reflexivity|].
    split; [discriminate|]. intros Hc. exfalso. apply (Hc (limit p)).
    + unfold in_range. rewrite comp_irrefl, Hp. reflexivity.
    + rewrite E', app_nil_r. apply denote_find_end. auto.
  - destruct fuel as [|fuel]; [simpl in Hf; lia|]. cbn [CoversRange_loop].
    rewrite (is_end_at _ _ _ E'), (deref_at _ _ _ _ E'), (deref_at _ _ _ _ E), !bind_Ok.
    assert (Hbe : before p e /\ comp (start e) (limit e) = true /\ starts_ge (limit e) r /\ im_ok r).
    { rewrite E in Hok. apply im_ok_app in Hok as (_ & (_ & Hb & (? & ? & ?)) & _).
      inversion_clear Hb. auto. }
    destruct Hbe as (Hbe & Hse & Hsr & Hokr). unfold before in Hbe.
    assert (Hgap : comp (limit p) (start e) = true -> ~ covered (denote (elems s)) (limit p) k').
    { intros Hg Hc. apply (Hc (limit p)).
      - unfold in_range. rewrite comp_irrefl, Hp. reflexivity.
      - rewrite E', denote_find by (auto; korder). rewrite Hg. reflexivity. }
    destruct (op_eq (start e) (limit p)) eqn:Eq; cbv match beta delta [negb].
    2: { exists false. split; [reflexivity|]. split; [discriminate|]. intros Hc. exfalso.
         apply Hgap; [|exact Hc]. destruct (comp (limit p) (start e)) eqn:El; [reflexivity|].
         assert (start e = limit p) as Hx by (apply comp_total; auto).
         apply op_eq_law in Hx. congruence. }
    apply op_eq_law in Eq.
    assert (Hin : forall x, in_range (limit p) (limit e) x = true -> denote (elems s) x <> None).
    { intros x Hx. apply andb_true_iff in Hx as [Hx1 Hx2]. apply negb_true_iff in Hx1.
      rewrite E', denote_find; [| apply limits_le_weaken with (limit p); auto | auto | auto].
      rewrite Eq, Hx1. discriminate. }
    destruct (comp (limit e) k') eqn:Ek; cbv match beta delta [negb].
    + rewrite (iter_next_at _ _ _ _ E'), bind_Ok.
      destruct (IH fuel (l1 ++ [p]) e Hok E' Ek) as (b & -> & Hb); [simpl in Hf; lia|].
      exists b. split; [reflexivity|]. rewrite Hb. symmetry. apply covered_split; auto. korder.
    + exists true. split; [reflexivity|]. split; [|auto]. intros _ x Hx. apply Hin.
      unfold in_range in *. apply andb_true_iff in Hx as [-> Hx2]. simpl. korder.
Qed.

Lemma CoversRange_spec s k k' : im_ok (elems s) -> comp k k' = true -> exists b,
  CoversRange s k k' = Ok b /\ (b = true <-> covered (denote (elems s)) k k').
Proof.
  intros Hok Hk. unfold CoversRange. rewrite Hk. change (CHECK true) with (Ok tt). rewrite bind_Ok.
  destruct (find_cases s k Hok) as (l1 & l2 & E & Hf & Hl & Hm). unfold find in Hf.
  rewrite Hf, (is_end_at _ _ _ E).
  assert (Hno : denote (elems s) k = None -> ~ covered (denote (elems s)) k k').
  { intros Hn Hc. apply (Hc k); [|exact Hn]. unfold in_range. rewrite comp_irrefl, Hk. reflexivity. }
  destruct l2 as [|e r].
  { exists false. split; [reflexivity|]. split; [discriminate|]. intros Hc. exfalso.
    apply Hno; [|exact Hc]. rewrite E, app_nil_r. apply denote_find_end. auto. }
  destruct Hm as (He & Hs & Hse). rewrite (deref_at _ _ _ _ E), bind_Ok.
  destruct (comp k (start e)) eqn:Eks.
  { exists false. split; [reflexivity|]. split; [discriminate|]. intros Hc. exfalso.
    apply Hno; [|exact Hc]. rewrite E, denote_find, Eks by auto. reflexivity. }
  assert (Hin : covered (denote (elems s)) k (limit e)).
  { intros x Hx. apply andb_true_iff in Hx as [Hx1 Hx2]. apply negb_true_iff in Hx1.
    rewrite E, denote_find; [| apply limits_le_weaken with k; auto | auto | auto].
    replace (comp x (start e)) with false by (symmetry; korder). discriminate. }
  destruct (comp (limit e) k') eqn:Ek; cbv match beta delta [negb].
  - rewrite (iter_next_at _ _ _ _ E), bind_Ok.
    destruct (CoversRange_loop_spec s k' r (size s) l1 e) as (b & -> & Hb); auto.
    { unfold size. rewrite E, length_app. simpl. lia. }
    exists b. split; [reflexivity|]. rewrite Hb. symmetry. apply covered_split; auto. korder.
  - exists true. split; [reflexivity|]. split; [|auto]. intros _ x Hx. apply Hin.
    unfold in_range in *. apply andb_true_iff in Hx as [-> Hx2]. simpl. korder.
Qed.
End ops.
