(* ===== verification/IntervalMapMerge.v ===== *)
(** * Coalescing and merging *)
From Stdlib Require Import ZArith Lia Bool Sorting.Sorted.
From stdpp Require Import base list.
From S2P Require Import Prelude.
From S2P Require Import IntervalMap.
From S2P Require Import IntervalMapProps.
Local Open Scope Z_scope.

(** ** Partial functions of keys *)

Section functions.
Context {K V : Type} `{KL : KeysLaws K}.
Implicit Types (l : list (Entry K V)) (e : Entry K V) (k x : K) (m : K -> option V).

Definition fset m k k' v : K -> option V := fun x => if in_range k k' x then Some v else m x.
(** [m'] where it is defined, [m] elsewhere. *)
Definition override m' m : K -> option V :=
  fun x => match m' x with Some v => Some v | None => m x end.
Definition empty_in m k k' : Prop := forall x, in_range k k' x = true -> m x = None.

(** A list with nothing in a range is a part before it and a part after it. *)
Lemma empty_range_split l k k' : im_ok l -> comp k k' = true -> empty_in (denote l) k k' ->
  exists l1 l2, l = l1 ++ l2 /\ limits_le k l1 /\ starts_ge k' l2.
Proof.
  intros Hok Hk Hn. destruct (cut_position k l) as (l1 & l2 & -> & _ & Hl & Hm).
  exists l1, l2. split_and!; auto. destruct l2 as [|e r]; [constructor|]. destruct Hm as [He _].
  apply im_ok_app in Hok as (_ & (Hse & Hb & _) & _). fold (starts_ge (limit e) r) in Hb.
  destruct (comp (start e) k') eqn:Es.
  - exfalso. pose proof (denote_find l1 e r) as Hd.
    destruct (comp (start e) k) eqn:Esk.
    + specialize (Hn k). unfold in_range in Hn. rewrite comp_irrefl, Hk, Hd in Hn by auto.
      replace (comp k (start e)) with false in Hn by (symmetry; korder). by specialize (Hn eq_refl).
    + specialize (Hn (start e)). unfold in_range in Hn.
      rewrite Esk, Es, Hd, comp_irrefl in Hn by
        (first [assumption | apply limits_le_weaken with k; [korder | assumption]]).
      by specialize (Hn eq_refl).
  - constructor; [exact Es|]. apply starts_ge_weaken with (limit e); [korder | exact Hb].
Qed.

Lemma denote_insert l1 l2 k k' v x : limits_le k l1 -> starts_ge k' l2 -> comp k k' = true ->
  denote (l1 ++ mkE k' k v :: l2) x = fset (denote (l1 ++ l2)) k k' v x.
Proof.
  intros Hl Hs Hk. unfold fset. rewrite !denote_app. simpl. unfold within. simpl.
  change (negb (comp x k) && comp x k') with (in_range k k' x).
  destruct (in_range k k' x) eqn:E; [|reflexivity].
  apply andb_true_iff in E as [E1 E2]. apply negb_true_iff in E1.
  rewrite (denote_below_limits k) by auto. reflexivity.
Qed.

(** ** Adjoining entries with equal values *)

Definition apart e e' : Prop := limit e = start e' -> value e <> value e'.
Fixpoint coalesced l : Prop :=
  match l with
  | e :: (e' :: _) as r => apart e e' /\ coalesced r
  | _ => True
  end.

Lemma coalesced_cons e l : coalesced (e :: l) <->
  (forall e', head l = Some e' -> apart e e') /\ coalesced l.
Proof.
  destruct l as [|e' l]; simpl.
  - split; [intros _; split; [discriminate | auto] | auto].
  - split; intros [H1 H2]; (split; [|exact H2]); [intros ? [= <-]; auto | auto].
Qed.

Lemma coalesced_app l1 l2 : coalesced (l1 ++ l2) <->
  coalesced l1 /\ coalesced l2 /\
  (forall e e', last l1 = Some e -> head l2 = Some e' -> apart e e').
Proof.
  induction l1 as [|e l1 IH]; [simpl; split; [intros; split_and!; [auto | auto | discriminate] | tauto]|].
  change ((e :: l1) ++ l2) with (e :: (l1 ++ l2)). rewrite !coalesced_cons, IH.
  destruct l1 as [|e1 l1]; simpl.
  - split.
    + intros (H1 & _ & H2 & _). split_and!; auto; [discriminate|]. intros ? ? [= <-] ?. auto.
    + intros (_ & H2 & H3). split_and!; auto; discriminate.
  - split.
    + intros (H1 & H2 & H3 & H4). split_and!; auto.
    + intros ((H1 & H2) & H3 & H4). split_and!; auto.
Qed.

Lemma coalesced_below k l : coalesced l -> coalesced (below k l) /\
  (forall e', head (below k l) = Some e' -> exists e, head l = Some e /\
     start e' = start e /\ value e' = value e).
Proof.
  induction l as [|e l IH]; [split; [auto | discriminate]|]. rewrite coalesced_cons. intros [Ha Hl].
  destruct (IH Hl) as [IH1 IH2]. simpl. destruct (comp k (limit e)).
  - destruct (comp (start e) k); simpl; split; auto; [|discriminate].
    intros ? [= <-]. eauto.
  - rewrite coalesced_cons. split; [split|]; auto.
    + intros e' He'. destruct (IH2 e' He') as (e1 & He1 & Hs & Hv). unfold apart.
      rewrite Hs, Hv. apply Ha. exact He1.
    + intros ? [= <-]. eauto.
Qed.

Lemma coalesced_above k l : coalesced l -> coalesced (above k l).
Proof.
  induction l as [|e l IH]; [auto|]. rewrite coalesced_cons. intros [Ha Hl]. simpl.
  destruct (comp k (limit e)); [|auto]. apply coalesced_cons. split; [|exact Hl].
  intros e' He'. specialize (Ha e' He'). destruct (comp (start e) k); exact Ha.
Qed.

(** Coalesced lists are determined by the function they stand for. *)
Lemma denote_head l e r x : im_ok (e :: r) -> denote (e :: r) x <> None ->
  comp x (start e) = false.
Proof.
  intros (He & Hb & Hr) Hd. destruct (comp x (start e)) eqn:E; [|reflexivity]. exfalso. apply Hd.
  apply denote_above_starts with (start e); auto. constructor; [apply comp_irrefl|].
  apply starts_ge_weaken with (limit e); [korder | exact Hb].
Qed.

Lemma denote_at_start e r : im_ok (e :: r) -> denote (e :: r) (start e) = Some (value e).
Proof. intros (He & _). simpl. unfold within. rewrite comp_irrefl, He. reflexivity. Qed.

Lemma denote_tail e r x : im_ok (e :: r) ->
  denote r x = if comp x (limit e) then None else denote (e :: r) x.
Proof.
  intros (He & Hb & Hr). simpl. unfold within. destruct (comp x (limit e)) eqn:E.
  - apply denote_above_starts with (limit e); auto.
  - rewrite andb_false_r. reflexivity.
Qed.

(** The first entry of a coalesced list ends no later than that of another one. *)
Lemma coalesced_limit e r e' r' : im_ok (e :: r) -> im_ok (e' :: r') -> coalesced (e :: r) ->
  start e = start e' -> value e = value e' ->
  (forall x, denote (e :: r) x = denote (e' :: r') x) -> comp (limit e) (limit e') = false.
Proof.
  intros Hok Hok' Hc Hs Hv Hd. destruct (comp (limit e) (limit e')) eqn:E; [exfalso|reflexivity].
  pose proof (Hd (limit e)) as Hx. destruct Hok as (He & Hb & Hr).
  simpl in Hx. unfold within in Hx. rewrite comp_irrefl, andb_false_r, E in Hx.
  replace (comp (limit e) (start e')) with false in Hx by (symmetry; korder). simpl in Hx.
  destruct r as [|e1 r]; [discriminate|]. apply coalesced_cons in Hc as [Ha _].
  assert (Hs1 : comp (limit e) (start e1) = false)
    by (apply (denote_head r e1 r); [exact Hr | rewrite Hx; discriminate]).
  inversion_clear Hb as [|? ? Hb1 _]. unfold before in Hb1.
  assert (Heq : limit e = start e1) by (apply comp_total; auto).
  apply (Ha e1 eq_refl Heq). rewrite Heq in Hx. rewrite denote_at_start in Hx by exact Hr.
  congruence.
Qed.

Lemma coalesced_canonical l : forall l', im_ok l -> im_ok l' -> coalesced l -> coalesced l' ->
  (forall x, denote l x = denote l' x) -> l = l'.
Proof.
  induction l as [|e l IH]; intros [|e' l'] Hok Hok' Hc Hc' Hd; [reflexivity | exfalso | exfalso |].
  - specialize (Hd (start e')). rewrite denote_at_start in Hd by auto. discriminate.
  - specialize (Hd (start e)). rewrite denote_at_start in Hd by auto. discriminate.
  - assert (Hs : start e = start e').
    { apply comp_total.
      - apply (denote_head l' e' l'); auto. rewrite <- Hd, denote_at_start by auto. discriminate.
      - apply (denote_head l e l); auto. rewrite Hd, denote_at_start by auto. discriminate. }
    assert (Hv : value e = value e').
    { pose proof (Hd (start e)) as Hx. rewrite denote_at_start in Hx by auto.
      rewrite Hs, denote_at_start in Hx by auto. congruence. }
    assert (Hl : limit e = limit e').
    { apply comp_total; [apply (coalesced_limit e l e' l') | apply (coalesced_limit e' l' e l)];
        auto. }
    assert (e = e') as <- by (destruct e, e'; simpl in *; congruence).
    f_equal. apply IH; try (apply coalesced_cons in Hc, Hc'); try tauto;
      try (destruct Hok as (_ & _ & ?), Hok' as (_ & _ & ?); assumption).
    intros x. rewrite (denote_tail e l), (denote_tail e l'), Hd by auto. reflexivity.
Qed.

(** ** Merging equal neighbours *)

Section coalesce.
Context `{!DefaultComparison K}.
Variable value_eq : V -> V -> bool.
Hypothesis value_eq_law : forall v w, value_eq v w = true <-> v = w.

Fixpoint join e l : list (Entry K V) :=
  match l with
  | [] => [e]
  | e' :: r =>
      if op_le (start e') (limit e) && value_eq (value e') (value e) then
        join (mkE (limit e') (start e) (value e')) r
      else e :: join e' r
  end.

Lemma join_head e l : exists e' r, join e l = e' :: r /\ start e' = start e /\ value e' = value e.
Proof.
  revert e. induction l as [|e1 l IH]; intros e; simpl; [eauto|].
  destruct (op_le (start e1) (limit e) && value_eq (value e1) (value e)) eqn:E; [|eauto].
  apply andb_true_iff in E as [_ Hv]. apply value_eq_law in Hv.
  destruct (IH (mkE (limit e1) (start e) (value e1))) as (e' & r & -> & ? & ?). simpl in *.
  exists e', r. split_and!; congruence.
Qed.

Lemma join_spec l : forall e, im_ok (e :: l) ->
  im_ok (join e l) /\ coalesced (join e l) /\ (forall x, denote (join e l) x = denote (e :: l) x)
  /\ starts_ge (start e) (join e l).
Proof.
  induction l as [|e1 l IH]; intros e Hok.
  { split_and!; auto; [exact I|]. constructor; [apply comp_irrefl | constructor]. }
  destruct Hok as (He & Hb & He1 & Hb1 & Hl). inversion_clear Hb as [|? ? Hbe Hb'].
  unfold before in Hbe. simpl join. rewrite op_le_law.
  destruct (negb (comp (limit e) (start e1)) && value_eq (value e1) (value e)) eqn:E.
  - apply andb_true_iff in E as [Hle Hv]. apply negb_true_iff in Hle. apply value_eq_law in Hv.
    destruct (IH (mkE (limit e1) (start e) (value e1))) as (H1 & H2 & H3 & H4).
    { simpl. split_and!; auto. korder. }
    split_and!; auto. intros x. rewrite H3. simpl. unfold within. simpl. rewrite Hv.
    destruct (comp x (start e)) eqn:E1, (comp x (limit e)) eqn:E2, (comp x (start e1)) eqn:E3,
      (comp x (limit e1)) eqn:E4; simpl; try reflexivity; exfalso; korder.
  - destruct (IH e1 (conj He1 (conj Hb1 Hl))) as (H1 & H2 & H3 & H4).
    destruct (join_head e1 l) as (e' & r & Ej & Hs & Hv).
    split_and!.
    + simpl. split_and!; auto. apply starts_ge_weaken with (start e1); auto.
    + apply coalesced_cons. split; [|exact H2]. rewrite Ej. intros ? [= <-] Hlim Hval.
      rewrite Hs in Hlim. rewrite Hv in Hval. rewrite Hlim, comp_irrefl in E. simpl in E.
      rewrite (proj2 (value_eq_law _ _)) in E by auto. discriminate.
    + intros x. simpl. rewrite H3. reflexivity.
    + constructor; [apply comp_irrefl|]. apply starts_ge_weaken with (start e1); [korder | auto].
Qed.
End coalesce.
End functions.

(** ** The operations *)

Section ops.
Context {K V B : Type} `{KL : KeysLaws K} `{HB : EntrySet K V B} `{!EntrySetLaws K V B}
  `{HM : BuildMode}.
Implicit Types (s : B) (l : list (Entry K V)) (e : Entry K V) (k x : K).

Lemma InsertEntry_spec s k k' v : im_ok (elems s) -> comp k k' = true ->
  empty_in (denote (elems s)) k k' -> exists s' i, InsertEntry s k k' v = Ok (s', i) /\
  im_ok (elems s') /\ (forall x, denote (elems s') x = fset (denote (elems s)) k k' v x).
Proof.
  intros Hok Hk Hn. unfold InsertEntry. rewrite Hk, DCHECK_true, bind_Ok.
  destruct (IsEmptyInterval_spec s k k' Hok Hk) as (b & -> & Hb). rewrite bind_Ok.
  rewrite (proj2 Hb Hn), DCHECK_true, bind_Ok.
  destruct (empty_range_split _ _ _ Hok Hk Hn) as (l1 & l2 & E & Hl & Hs). rewrite E in *.
  pose proof Hok as Hok'. apply im_ok_app in Hok' as (H1 & H2 & _).
  destruct (emplace_at s l1 l2 (mkE k' k v) E) as (s' & -> & E');
    auto using im_ok_by_limit, fits_between.
  exists s', (length l1). rewrite E'. split_and!; auto using im_ok_insert.
  intros x. apply denote_insert; auto.
Qed.

Lemma SetNoOverlap_spec s k k' v : im_ok (elems s) -> comp k k' = true ->
  empty_in (denote (elems s)) k k' -> exists s' i, SetNoOverlap s k k' v = Ok (s', i) /\
  im_ok (elems s') /\ (forall x, denote (elems s') x = fset (denote (elems s)) k k' v x).
Proof.
  intros Hok Hk Hn. unfold SetNoOverlap. rewrite Hk, DCHECK_true, bind_Ok.
  apply InsertEntry_spec; auto.
Qed.

(** Entries that can be added one after the other. *)
Fixpoint addable (m : K -> option V) (es : list (Entry K V)) : Prop :=
  match es with
  | [] => True
  | e :: es => comp (start e) (limit e) = true /\ empty_in m (start e) (limit e) /\
      addable (fset m (start e) (limit e) (value e)) es
  end.
Definition fset_all (m : K -> option V) (es : list (Entry K V)) : K -> option V :=
  fold_left (fun m e => fset m (start e) (limit e) (value e)) es m.

Lemma addable_ext es : forall m m' : K -> option V, (forall x, m x = m' x) ->
  addable m es -> addable m' es.
Proof.
  induction es as [|e es IH]; intros m m' Hm; simpl; [auto|]. intros (H1 & H2 & H3).
  split_and!; auto.
  - intros x Hx. rewrite <- Hm. auto.
  - eapply IH; [|exact H3]. intros x. unfold fset. destruct (in_range _ _ x); auto.
Qed.
Lemma fset_all_ext es : forall m m' : K -> option V, (forall x, m x = m' x) ->
  forall x, fset_all m es x = fset_all m' es x.
Proof.
  induction es as [|e es IH]; intros m m' Hm x; simpl; [auto|]. apply IH.
  intros y. unfold fset. destruct (in_range _ _ y); auto.
Qed.

Lemma SetMany_loop_spec es : forall s hint, im_ok (elems s) -> (hint <= size s)%nat ->
  addable (denote (elems s)) es -> exists s', SetMany_loop s hint es = Ok s' /\
  im_ok (elems s') /\ (forall x, denote (elems s') x = fset_all (denote (elems s)) es x).
Proof.
  induction es as [|e es IH]; intros s hint Hok Hh; cbn [SetMany_loop addable]; [eauto|].
  intros (Hk & Hn & Ha). destruct (IsEmptyInterval_spec s _ _ Hok Hk) as (b & -> & Hb).
  rewrite bind_Ok, (proj2 Hb Hn), DCHECK_true, bind_Ok.
  destruct (empty_range_split _ _ _ Hok Hk Hn) as (l1 & l2 & E & Hl & Hs). unfold size in Hh.
  rewrite E in Hok, Hh. pose proof Hok as Hok'. apply im_ok_app in Hok' as (H1 & H2 & _).
  destruct (emplace_hint_at s hint l1 l2 e E) as (s1 & -> & E1);
    auto using im_ok_by_limit, fits_between.
  assert (Hd : forall x, denote (elems s1) x =
    fset (denote (elems s)) (start e) (limit e) (value e) x).
  { intros x. rewrite E1, E. destruct e. apply denote_insert; auto. }
  destruct (IH s1 (length l1)) as (s' & -> & Hok2 & Hd2).
  - rewrite E1. destruct e. apply im_ok_insert; auto.
  - unfold size. rewrite E1, length_app. lia.
  - eapply addable_ext; [|exact Ha]. intros x. symmetry. apply Hd.
  - exists s'. split_and!; auto. intros x. rewrite Hd2. unfold fset_all at 2. cbn [fold_left].
    apply fset_all_ext. exact Hd.
Qed.

Lemma SetManyNoOverlap_spec s es : im_ok (elems s) -> addable (denote (elems s)) es ->
  exists s', SetManyNoOverlap s es = Ok s' /\
  im_ok (elems s') /\ (forall x, denote (elems s') x = fset_all (denote (elems s)) es x).
Proof.
  intros Hok Ha. unfold SetManyNoOverlap. destruct es as [|e es]; [simpl; eauto|].
  rewrite (proj2 (Nat.eqb_neq _ _)) by discriminate. apply SetMany_loop_spec; auto.
Qed.

(** *** Coalescing *)

Section coalesce.
Context `{!DefaultComparison K}.
Variable value_eq : V -> V -> bool.
Hypothesis value_eq_law : forall v w, value_eq v w = true <-> v = w.

Lemma Coalesce_loop_spec : forall r fuel s l1 p, elems s = l1 ++ p :: r -> im_ok (p :: r) ->
  (length r <= fuel)%nat -> exists s',
  Coalesce_loop value_eq fuel s (length l1) = Ok s' /\ elems s' = l1 ++ join value_eq p r.
Proof.
  induction r as [|e r IH]; intros fuel s l1 p E Hok Hf.
  all: pose proof E as E'; change (l1 ++ p :: ?r) with (l1 ++ [p] ++ r) in E';
    rewrite app_assoc in E'.
  - exists s. split; [|exact E]. destruct fuel; cbn [Coalesce_loop];
      rewrite (iter_next_at _ _ _ _ E), bind_Ok, (is_end_at _ _ _ E'); reflexivity.
  - destruct fuel as [|fuel]; [simpl in Hf; lia|]. cbn [Coalesce_loop].
    rewrite (iter_next_at _ _ _ _ E), bind_Ok, (is_end_at _ _ _ E'), (deref_at _ _ _ _ E),
      (deref_at _ _ _ _ E'), !bind_Ok.
    destruct Hok as (Hp & Hb & He & Hbe & Hr). inversion_clear Hb as [|? ? Hb1 Hb2].
    unfold before in Hb1. replace (comp (start p) (start e)) with true by (symmetry; korder).
    rewrite DCHECK_true, bind_Ok. cbn [join].
    destruct (op_le (start e) (limit p) && value_eq (value e) (value p)) eqn:Ec.
    + apply andb_true_iff in Ec as [Hle Hv]. rewrite op_le_law in Hle. apply negb_true_iff in Hle.
      destruct (MutateStart_at _ _ _ _ (start p) E') as (s1 & -> & E1). rewrite bind_Ok.
      rewrite <- app_assoc in E1. destruct (erase_at _ _ _ _ E1) as (s2 & -> & E2).
      rewrite bind_Ok. apply IH; [exact E2 | | simpl in Hf; lia].
      simpl. split_and!; auto. korder.
    + rewrite bind_Ok. destruct (IH fuel s (l1 ++ [p]) e E') as (s' & -> & E2);
        [simpl; auto | simpl in Hf; lia |].
      exists s'. split; [reflexivity|]. rewrite E2, <- app_assoc. reflexivity.
Qed.

Lemma Coalesce_spec s : im_ok (elems s) -> exists s', Coalesce value_eq s = Ok s' /\
  im_ok (elems s') /\ coalesced (elems s') /\ (forall x, denote (elems s') x = denote (elems s) x).
Proof.
  intros Hok. unfold Coalesce, empty, size. destruct (elems s) as [|p r] eqn:E.
  - simpl. exists s. rewrite E. repeat split.
  - rewrite (proj2 (Nat.eqb_neq _ _)) by discriminate.
    destruct (Coalesce_loop_spec r (length (p :: r)) s [] p E) as (s' & Hr & E');
      [exact Hok | simpl; lia |].
    exists s'. split; [exact Hr|]. simpl in E'. rewrite E'.
    destruct (join_spec value_eq value_eq_law r p Hok) as (H1 & H2 & H3 & _). auto.
Qed.

Lemma last_app_one l e : last (l ++ [e]) = Some e.
Proof. apply last_snoc. Qed.

(** What the step to the left does: the range now begins at [k1], and what is left of the
    entries below is as if it had been cut off there. *)
Lemma coalesce_left s b a k k' v : elems s = b ++ a -> im_ok b -> limits_le k b ->
  comp k k' = true -> exists s' k1 b',
  (left_ ← (if Nat.eqb (length b) 0 then Ok (size s) else iter_prev (length b));
   if is_end s left_ then Ok (s, k, length b)
   else
     e ← deref s left_;
     if negb (comp (limit e) k) && value_eq (value e) v then
       _ ← DCHECK (negb (Nat.eqb left_ (length b)));
       '(s, right_) ← erase s left_;
       Ok (s, start e, right_)
     else Ok (s, k, length b)) = Ok (s', k1, length b') /\
  elems s' = b' ++ a /\ im_ok b' /\ limits_le k1 b' /\ comp k1 k' = true /\
  (coalesced b -> coalesced b' /\
     forall e, last b' = Some e -> limit e = k1 -> value e <> v) /\
  (forall x, denote (b' ++ [mkE k k1 v]) x = denote b x) /\ comp k k1 = false.
Proof.
  intros E Hok Hl Hk. destruct b as [|e b _] using rev_ind.
  { exists s, k, []. cbn [length Nat.eqb]. rewrite bind_Ok. unfold is_end. rewrite Nat.eqb_refl.
    split_and!; auto using comp_irrefl.
    intros x. simpl. unfold within. simpl. destruct (comp x k); reflexivity. }
  rewrite (proj2 (Nat.eqb_neq _ _)) by (rewrite length_app; simpl; lia).
  rewrite iter_prev_at, bind_Ok. rewrite <- app_assoc in E. simpl in E.
  rewrite (is_end_at _ _ _ E), (deref_at _ _ _ _ E), bind_Ok.
  pose proof Hok as Hok'. apply im_ok_app in Hok' as (Hb & (He & _) & Hbe).
  apply Forall_app in Hl as [Hlb Hle]. inversion_clear Hle as [|? ? Hle' _].
  destruct (negb (comp (limit e) k) && value_eq (value e) v) eqn:Ec.
  - apply andb_true_iff in Ec as [Hke Hv]. apply negb_true_iff in Hke. apply value_eq_law in Hv.
    assert (Heq : limit e = k) by (apply comp_total; auto).
    rewrite (proj2 (Nat.eqb_neq _ _)) by (rewrite length_app; simpl; lia).
    rewrite DCHECK_true, bind_Ok. destruct (erase_at _ _ _ _ E) as (s' & -> & E'). rewrite bind_Ok.
    exists s', (start e), b.
    split_and!; auto.
    + unfold limits_le. rewrite List.Forall_forall in *. intros c Hin. specialize (Hbe c Hin).
      inversion_clear Hbe. assumption.
    + korder.
    + intros Hc. apply coalesced_app in Hc as (Hc1 & _ & Hc2). split; [exact Hc1|].
      intros c Hlast Hlim. rewrite <- Hv. apply (Hc2 c e Hlast eq_refl). exact Hlim.
    + intros x. rewrite !denote_app. destruct e as [le se ve]. simpl in *. subst. reflexivity.
    + korder.
  - exists s, k, (b ++ [e]). rewrite <- app_assoc. split_and!; auto using comp_irrefl.
    + apply Forall_app. split; [exact Hlb|]. repeat constructor. exact Hle'.
    + intros Hc. split; [exact Hc|]. intros c Hlast Hlim Hval. rewrite last_app_one in Hlast. injection Hlast as <-.
      rewrite Hlim, comp_irrefl in Ec. simpl in Ec.
      rewrite (proj2 (value_eq_law _ _) Hval) in Ec. discriminate.
    + intros x. rewrite denote_app. simpl. unfold within. simpl.
      destruct (denote (b ++ [e]) x); [reflexivity|]. destruct (comp x k); reflexivity.
Qed.

Lemma fset_extended (b a b' : list (Entry K V)) k k1 k' v x :
  (forall x, denote (b' ++ [mkE k k1 v]) x = denote b x) -> limits_le k b -> starts_ge k' a ->
  comp k k1 = false -> comp k k' = true ->
  denote (b' ++ mkE k' k1 v :: a) x = fset (denote (b ++ a)) k k' v x.
Proof.
  intros Hd Hl Ha Hk1 Hk. unfold fset. rewrite denote_app, denote_app, <- Hd, denote_app.
  simpl. unfold within, in_range. simpl.
  assert (Hb' : comp x k = false -> denote b' x = None).
  { intros Hx. pose proof (Hd x) as Hdx. rewrite (denote_below_limits k b) in Hdx by auto.
    rewrite denote_app in Hdx. destruct (denote b' x); [discriminate | reflexivity]. }
  destruct (comp x k) eqn:E1.
  - replace (comp x k') with true by (symmetry; korder). simpl.
    destruct (denote b' x), (comp x k1); reflexivity.
  - rewrite (Hb' eq_refl). replace (comp x k1) with false by (symmetry; korder). simpl.
    destruct (comp x k'); reflexivity.
Qed.

Lemma SetAndCoalesce_spec s k k' v : im_ok (elems s) -> comp k k' = true -> exists s',
  SetAndCoalesce value_eq s k k' v = Ok s' /\ im_ok (elems s') /\
  (coalesced (elems s) -> coalesced (elems s')) /\
  (forall x, denote (elems s') x = fset (denote (elems s)) k k' v x).
Proof.
  intros Hok Hk. unfold SetAndCoalesce. rewrite Hk, DCHECK_true, bind_Ok.
  destruct (EraseInternal_spec s k k' Hok Hk) as (s1 & -> & E1). rewrite bind_Ok.
  pose proof (below_ok k _ Hok) as [Hb1 Hb2]. pose proof (above_ok k' _ Hok) as [Ha1 Ha2].
  pose proof (fun x => denote_erase_list k k' (elems s) x Hok Hk) as Hde. unfold erase_list in Hde.
  assert (Hco : coalesced (elems s) ->
    coalesced (below k (elems s)) /\ coalesced (above k' (elems s)))
    by (intros Hc; split; [apply coalesced_below | apply coalesced_above]; exact Hc).
  set (b := below k (elems s)) in *. set (a := above k' (elems s)) in *. clearbody a b.
  destruct (coalesce_left s1 b a k k' v E1 Hb1 Hb2 Hk)
    as (s2 & k1 & b' & Hleft & E2 & Hb1' & Hb2' & Hk1 & Hlast & Hd & Hkk).
  pose proof (fun x => fset_extended b a b' k k1 k' v x Hd Hb2 Ha2 Hkk Hk) as Hf.
  assert (Hf' : forall x, denote (b' ++ mkE k' k1 v :: a) x = fset (denote (elems s)) k k' v x).
  { intros x. rewrite Hf. unfold fset. destruct (in_range k k' x) eqn:Ei; [reflexivity|].
    rewrite Hde, Ei. reflexivity. }
  match type of Hleft with (?X ≫= _) = _ => destruct X as [left_| |] end;
    [|discriminate|discriminate].
  rewrite bind_Ok in Hleft. rewrite bind_Ok, Hleft, bind_Ok, (is_end_at _ _ _ E2).
  assert (Hnew : exists s', Ok (es_emplace s2 (mkE k' k1 v)).1.1 = Ok s' /\
    elems s' = b' ++ mkE k' k1 v :: a).
  { assert (Hok2 : im_ok (b' ++ a)) by (apply im_ok_glue with k1; auto;
      apply starts_ge_weaken with k'; [korder | auto]).
    destruct (emplace_at s2 b' a (mkE k' k1 v) E2) as (s' & -> & E');
      auto using im_ok_by_limit, fits_between. eauto. }
  assert (Hnew_ok : im_ok (b' ++ mkE k' k1 v :: a)) by (apply im_ok_insert; auto).
  assert (Hnew_co : (forall e, head a = Some e -> k' = start e -> v <> value e) ->
    coalesced (elems s) -> coalesced (b' ++ mkE k' k1 v :: a)).
  { intros Hr Hc. destruct (Hco Hc) as [Hcb Hca]. destruct (Hlast Hcb) as [Hcb' Hl].
    apply coalesced_app. split_and!; auto.
    - apply coalesced_cons. split; [|auto]. intros e He Hlim. simpl in *. apply Hr; auto.
    - intros e e' He He' Hlim. simpl in He'. injection He' as <-. apply (Hl e He). exact Hlim. }
  destruct a as [|e r].
  { rewrite bind_Ok. cbv match. destruct Hnew as (s' & -> & E'). exists s'. rewrite E'.
    split_and!; auto. }
  rewrite (deref_at _ _ _ _ E2), !bind_Ok.
  destruct (negb (comp k' (start e)) && value_eq (value e) v) eqn:Ec; cbv match.
  - apply andb_true_iff in Ec as [Hke Hv]. apply negb_true_iff in Hke. apply value_eq_law in Hv.
    inversion_clear Ha2 as [|? ? Hse Hsr]. assert (Heq : start e = k') by (apply comp_total; auto).
    destruct (MutateStart_at _ _ _ _ k1 E2) as (s' & -> & E'). exists s'. rewrite E'.
    destruct e as [le se ve]. simpl in *. subst se ve.
    destruct Ha1 as (He & Hbe & Hr). split_and!; auto.
    + apply im_ok_insert; auto. korder.
    + intros Hc. destruct (Hco Hc) as [Hcb Hca]. destruct (Hlast Hcb) as [Hcb' Hl].
      apply coalesced_app. split_and!; auto.
      intros c e' Hlc He' Hlim. simpl in He'. injection He' as <-. apply (Hl c Hlc). exact Hlim.
    + intros x. rewrite <- Hf'. rewrite !denote_app. destruct (denote b' x); [reflexivity|].
      simpl. unfold within. simpl.
      destruct (comp x k1) eqn:G1, (comp x k') eqn:G2, (comp x le) eqn:G3; simpl;
        try reflexivity; exfalso; korder.
  - destruct Hnew as (s' & -> & E'). exists s'. rewrite E'. split_and!; auto. apply Hnew_co.
    intros e' He' Hk' Hv. injection He' as <-. rewrite Hk', comp_irrefl in Ec. simpl in Ec.
    rewrite (proj2 (value_eq_law _ _) (eq_sym Hv)) in Ec. discriminate.
Qed.
End coalesce.
End ops.

(** ** Merging maps *)

Section merge.
Context {K V B : Type} `{KL : KeysLaws K} `{HB : EntrySet K V B} `{!EntrySetLaws K V B}
  `{HM : BuildMode}.
Implicit Types (s : B) (l : list (Entry K V)) (e : Entry K V) (k x : K).

Lemma fset_all_override l : forall m x, im_ok l -> fset_all m l x = override (denote l) m x.
Proof.
  unfold override. induction l as [|e l IH]; intros m x Hok; [reflexivity|].
  destruct Hok as (He & Hb & Hl). unfold fset_all. cbn [fold_left].
  change (fold_left (fun m e => fset m (start e) (limit e) (value e)) l ?m') with (fset_all m' l).
  rewrite IH by auto. simpl. unfold fset, within, in_range.
  destruct (comp x (start e)) eqn:E1; [reflexivity|].
  destruct (comp x (limit e)) eqn:E2; [|reflexivity].
  rewrite (denote_above_starts (limit e) l) by auto. reflexivity.
Qed.

Lemma MergeFrom_loop_spec l : forall s, im_ok (elems s) ->
  Forall (fun e => comp (start e) (limit e) = true) l -> exists s',
  MergeFrom_loop s l = Ok s' /\ im_ok (elems s') /\
  (forall x, denote (elems s') x = fset_all (denote (elems s)) l x).
Proof.
  induction l as [|e l IH]; intros s Hok Hl; cbn [MergeFrom_loop]; [eauto|].
  inversion_clear Hl as [|? ? He Hr].
  destruct (SetInternal_spec s _ _ (value e) Hok He) as (s1 & -> & E1). rewrite bind_Ok.
  destruct (IH s1) as (s' & -> & H1 & H2); auto.
  { rewrite E1. apply set_list_ok; auto. }
  exists s'. split_and!; auto. intros x. rewrite H2. unfold fset_all at 2. cbn [fold_left].
  apply fset_all_ext. intros y. rewrite E1. apply denote_set_list; auto.
Qed.

Lemma MergeFrom_spec s src : im_ok (elems s) -> im_ok (elems src) -> exists s',
  MergeFrom s src = Ok s' /\ im_ok (elems s') /\
  (forall x, denote (elems s') x = override (denote (elems src)) (denote (elems s)) x).
Proof.
  intros Hok Hsrc. unfold MergeFrom, empty, size. destruct (elems s) as [|e l] eqn:E.
  - simpl. exists src. split_and!; auto. intros x. unfold override. simpl.
    destruct (denote (elems src) x); reflexivity.
  - rewrite (proj2 (Nat.eqb_neq _ _)) by discriminate. rewrite <- E in *.
    destruct (MergeFrom_loop_spec (elems src) s) as (s' & -> & H1 & H2);
      auto using im_ok_Forall. exists s'. split_and!; auto.
    intros x. rewrite H2. apply fset_all_override. auto.
Qed.

(** The part of a list in a range. *)
Definition clip k k' l : list (Entry K V) := below k' (above k l).

Lemma clip_ok k k' l : im_ok l ->
  im_ok (clip k k' l) /\ limits_le k' (clip k k' l).
Proof. intros Hl. apply below_ok, above_ok, Hl. Qed.

Lemma denote_clip k k' l x : im_ok l ->
  denote (clip k k' l) x = if in_range k k' x then denote l x else None.
Proof.
  intros Hl. unfold clip, in_range. pose proof (above_ok k l Hl) as [Ha _].
  rewrite denote_below, denote_above by auto. destruct (comp x k), (comp x k'); reflexivity.
Qed.

Lemma below_nil k l : im_ok l -> starts_ge k l -> below k l = [].
Proof.
  destruct l as [|e l]; [reflexivity|]. intros (He & _) Hs. inversion_clear Hs as [|? ? Hs' _].
  simpl. replace (comp k (limit e)) with true by (symmetry; korder). rewrite Hs'. reflexivity.
Qed.
Lemma above_id k l : im_ok l -> starts_ge k l -> above k l = l.
Proof.
  destruct l as [|e l]; [reflexivity|]. intros (He & _) Hs. inversion_clear Hs as [|? ? Hs' _].
  simpl. replace (comp k (limit e)) with true by (symmetry; korder). rewrite Hs'. reflexivity.
Qed.

Section default.
Context `{!DefaultComparison K}.

(** The end of the bulk copy: whole entries, then a part of the next one. *)
Definition copy_rest (src : B) (k' : K) (s : B) (src_iter dst_iter : nat) : outcome B :=
  '(s, src_iter, dst_iter) ← copy_entries (size src) src s k' src_iter dst_iter;
  if is_end src src_iter then Ok s
  else
    x ← deref src src_iter;
    if comp (start x) k' then
      _ ← DCHECK (comp k' (limit x));
      Ok (es_emplace_hint s dst_iter (mkE k' (start x) (value x))).1
    else Ok s.

Lemma copy_entries_spec src k' l2 : im_ok l2 -> starts_ge k' l2 ->
  forall r fuel q l1 s d, elems src = q ++ r -> elems s = l1 ++ l2 -> im_ok (l1 ++ r) ->
  limits_le k' l1 -> (d <= size s)%nat -> (length r <= fuel)%nat -> exists r1 r2 s' d',
  copy_entries fuel src s k' (length q) d = Ok (s', length (q ++ r1), d') /\
  r = r1 ++ r2 /\ elems s' = (l1 ++ r1) ++ l2 /\ limits_le k' (l1 ++ r1) /\ (d' <= size s')%nat /\
  match r2 with [] => True | e :: _ => comp k' (limit e) = true end.
Proof.
  intros Hl2 Hs2. induction r as [|e r IH]; intros fuel q l1 s d Eq Es Hok Hl1 Hd Hf.
  - exists [], [], s, d. rewrite !app_nil_r in *. split_and!; auto.
    assert (Eq' : elems src = q ++ []) by (rewrite app_nil_r; exact Eq).
    destruct fuel; cbn [copy_entries]; rewrite (is_end_at _ _ _ Eq'); reflexivity.
  - destruct (op_le (limit e) k') eqn:Ele.
    2: { exists [], (e :: r), s, d. rewrite !app_nil_r. split_and!; auto.
         - destruct fuel; cbn [copy_entries];
             rewrite (is_end_at _ _ _ Eq), (deref_at _ _ _ _ Eq), bind_Ok, Ele; reflexivity.
         - rewrite op_le_law in Ele. apply negb_false_iff in Ele. exact Ele. }
    destruct fuel as [|fuel]; [simpl in Hf; lia|]. cbn [copy_entries].
    rewrite (is_end_at _ _ _ Eq), (deref_at _ _ _ _ Eq), bind_Ok, Ele.
    rewrite op_le_law in Ele. apply negb_true_iff in Ele.
    pose proof Hok as Hok'. apply im_ok_app in Hok' as (H1 & (He & Hbe & Hr) & Hf1).
    assert (Hok12 : im_ok (l1 ++ l2)) by (eapply im_ok_glue; eauto).
    destruct (emplace_hint_at s d l1 l2 e Es) as (s1 & -> & E1); auto using im_ok_by_limit.
    { apply fits_between; auto.
      - unfold limits_le. rewrite List.Forall_forall in *. intros a Ha. specialize (Hf1 a Ha).
        inversion_clear Hf1. assumption.
      - apply starts_ge_weaken with k'; auto. }
    { unfold size in Hd. rewrite Es in Hd. exact Hd. }
    rewrite (iter_next_at _ _ _ _ Eq), bind_Ok.
    destruct (IH fuel (q ++ [e]) (l1 ++ [e]) s1 (length l1)) as (r1 & r2 & s' & d' & Hc & E2 & E3 & Hl & Hd' & Hm).
    + rewrite <- app_assoc. exact Eq.
    + rewrite <- app_assoc. exact E1.
    + rewrite <- app_assoc. exact Hok.
    + apply Forall_app. split; [exact Hl1|]. repeat constructor. exact Ele.
    + unfold size. rewrite E1, length_app. lia.
    + simpl in Hf. lia.
    + exists (e :: r1), r2, s', d'. rewrite <- !app_assoc in *. simpl in *.
      rewrite E2. split_and!; auto.
Qed.

Lemma below_app k l1 l2 : limits_le k l1 -> below k (l1 ++ l2) = l1 ++ below k l2.
Proof.
  induction 1 as [|e l1 He Hl IH]; simpl; [reflexivity|]. rewrite He, IH. reflexivity.
Qed.

Lemma copy_rest_spec src k' q r l1 l2 s d : elems src = q ++ r -> elems s = l1 ++ l2 ->
  im_ok (l1 ++ r) -> im_ok l2 -> starts_ge k' l2 -> limits_le k' l1 -> (d <= size s)%nat ->
  exists s', copy_rest src k' s (length q) d = Ok s' /\ elems s' = l1 ++ below k' r ++ l2.
Proof.
  intros Eq Es Hok Hok2 Hs Hl Hd. unfold copy_rest.
  destruct (copy_entries_spec src k' l2 Hok2 Hs r (size src) q l1 s d)
    as (r1 & r2 & s' & d' & -> & E2 & E3 & Hl1 & Hd' & Hm); auto.
  { unfold size. rewrite Eq, length_app. lia. }
  rewrite bind_Ok. subst r. rewrite app_assoc in Eq. rewrite (is_end_at _ _ _ Eq).
  pose proof Hl1 as Hl1'. apply Forall_app in Hl1' as [_ Hr1]. rewrite (below_app k' r1) by auto.
  destruct r2 as [|e r2].
  { exists s'. split; [reflexivity|]. simpl. rewrite app_nil_r, app_assoc. exact E3. }
  rewrite (deref_at _ _ _ _ Eq), bind_Ok. simpl below. rewrite Hm.
  destruct (comp (start e) k') eqn:Es'.
  2: { exists s'. split; [reflexivity|]. rewrite app_nil_r, app_assoc. exact E3. }
  rewrite DCHECK_true, bind_Ok. rewrite app_assoc in Hok.
  apply im_ok_app in Hok as (H1 & (He & _) & Hf).
  destruct (emplace_hint_at s' d' (l1 ++ r1) l2 (mkE k' (start e) (value e)) E3) as (s2 & -> & E4).
  - apply im_ok_by_limit. eapply im_ok_glue; eauto.
  - apply fits_between; auto. unfold limits_le. rewrite List.Forall_forall in *.
    intros a Ha. specialize (Hf a Ha). inversion_clear Hf. assumption.
  - unfold size in Hd'. rewrite E3 in Hd'. exact Hd'.
  - exists s2. split; [reflexivity|]. simpl. rewrite E4, <- !app_assoc. reflexivity.
Qed.

Lemma set_parts_spec src k k' : comp k k' = true -> forall r fuel q s, elems src = q ++ r ->
  im_ok r -> Forall (fun e => comp k (limit e) = true) r -> im_ok (elems s) ->
  (length r <= fuel)%nat -> exists s', set_parts fuel src s k k' (length q) = Ok s' /\
  im_ok (elems s') /\
  (forall x, denote (elems s') x = override (denote (clip k k' r)) (denote (elems s)) x).
Proof.
  intros Hk. induction r as [|e r IH]; intros fuel q s Eq Hr Hlim Hok Hf.
  - exists s. split_and!; auto.
    destruct fuel; cbn [set_parts]; rewrite (is_end_at _ _ _ Eq); reflexivity.
  - destruct Hr as (He & Hb & Hr). inversion_clear Hlim as [|? ? Hke Hlim'].
    fold (starts_ge (limit e) r) in Hb.
    assert (Hcl : above k r = r).
    { apply above_id; auto. apply starts_ge_weaken with (limit e); [korder | auto]. }
    set (s_ := if comp (start e) k then k else start e).
    assert (Hs : comp s_ k = false /\ comp s_ (limit e) = true).
    { unfold s_. destruct (comp (start e) k) eqn:E; split; auto using comp_irrefl. }
    destruct Hs as [Hs1 Hs2].
    assert (Ha : above k (e :: r) = mkE (limit e) s_ (value e) :: r).
    { simpl. rewrite Hke. unfold s_. destruct (comp (start e) k); [reflexivity|].
      destruct e; reflexivity. }
    unfold clip. rewrite Ha. simpl below.
    destruct fuel as [|fuel]; [simpl in Hf; lia|]. cbn [set_parts].
    rewrite (is_end_at _ _ _ Eq), (deref_at _ _ _ _ Eq), bind_Ok. cbv zeta. fold s_.
    destruct (comp k' (limit e)) eqn:Ek'.
    + destruct (comp s_ k') eqn:Esk; [|exists s; split_and!; auto].
      destruct (SetInternal_spec s s_ k' (value e) Hok Esk) as (s1 & -> & E1).
      rewrite bind_Ok, (iter_next_at _ _ _ _ Eq), bind_Ok.
      destruct (IH fuel (q ++ [e]) s1) as (s' & -> & H1 & H2); auto.
      { rewrite <- app_assoc. exact Eq. }
      { rewrite E1. apply set_list_ok; auto. }
      { simpl in Hf. lia. }
      exists s'. split_and!; auto. intros x. rewrite H2, E1. unfold clip, override. rewrite Hcl.
      rewrite below_nil by first [assumption | apply starts_ge_weaken with (limit e); [korder | auto]].
      rewrite denote_set_list by auto. simpl. unfold within, in_range. simpl.
      destruct (negb (comp x s_) && comp x k'); reflexivity.
    + rewrite Hs2. destruct (SetInternal_spec s s_ (limit e) (value e) Hok Hs2) as (s1 & -> & E1).
      rewrite bind_Ok, (iter_next_at _ _ _ _ Eq), bind_Ok.
      destruct (IH fuel (q ++ [e]) s1) as (s' & -> & H1 & H2); auto.
      { rewrite <- app_assoc. exact Eq. }
      { rewrite E1. apply set_list_ok; auto. }
      { simpl in Hf. lia. }
      exists s'. split_and!; auto. intros x. rewrite H2, E1. unfold clip, override. rewrite Hcl.
      rewrite denote_set_list by auto. simpl. unfold within, in_range. simpl.
      destruct (comp x s_) eqn:G1; [reflexivity|]. destruct (comp x (limit e)) eqn:G2; [|reflexivity].
      simpl. rewrite denote_below, (denote_above_starts (limit e) r) by auto.
      destruct (comp x k'); reflexivity.
Qed.

Lemma MergeSubRangeFrom_spec s src k k' : im_ok (elems s) -> im_ok (elems src) ->
  comp k k' = true -> exists s', MergeSubRangeFrom s src k k' = Ok s' /\ im_ok (elems s') /\
  (forall x, denote (elems s') x =
     override (denote (clip k k' (elems src))) (denote (elems s)) x).
Proof.
  intros Hok Hsrc Hk. unfold MergeSubRangeFrom.
  destruct (upper_bound_at src k Hsrc) as (q & r & Eq & -> & Hq & Hm).
  rewrite (is_end_at _ _ _ Eq). destruct r as [|e r].
  { exists s. split_and!; auto. destruct Hm as [_ Ha]. unfold clip. rewrite Ha. reflexivity. }
  destruct Hm as (Hke & _ & Ha).
  destruct (upper_bound_at s k Hok) as (l1 & l2 & E & -> & Hl & Hm2).
  assert (Hbulk : exists b, (if is_end s (length l1) then Ok true
     else d ← deref s (length l1); Ok (op_le k' (start d))) = Ok b /\
     (b = true -> starts_ge k' l2)).
  { rewrite (is_end_at _ _ _ E). destruct l2 as [|d l2]; [exists true; split; [done | constructor]|].
    rewrite (deref_at _ _ _ _ E), bind_Ok, op_le_law. eexists. split; [reflexivity|].
    intros Hd. apply negb_true_iff in Hd. constructor; [exact Hd|].
    rewrite E in Hok. apply im_ok_app in Hok as (_ & (Hdd & Hb & _) & _).
    apply starts_ge_weaken with (limit d); [korder | exact Hb]. }
  destruct Hbulk as (b & -> & Hb). rewrite bind_Ok. destruct b.
  2: { rewrite Eq in Hsrc. apply im_ok_app in Hsrc as (_ & Hr & _).
       destruct (set_parts_spec src k k' Hk (e :: r) (size src) q s) as (s' & -> & H1 & H2); auto.
       - constructor; [exact Hke|]. destruct Hr as (He & Hbe & Hr).
         apply im_ok_Forall in Hr. rewrite List.Forall_forall in *. intros a Hin.
         specialize (Hbe a Hin). specialize (Hr a Hin). unfold before in *. korder.
       - unfold size. rewrite Eq, length_app. lia.
       - exists s'. split_and!; auto. intros x. rewrite H2. unfold clip. rewrite Ha.
         simpl above. rewrite Hke. reflexivity. }
  specialize (Hb eq_refl). rewrite E in Hok. pose proof Hok as Hok'.
  apply im_ok_app in Hok' as (Hl1 & Hl2 & _).
  assert (Hl' : limits_le k' l1) by (apply limits_le_weaken with k; [korder | auto]).
  (* the result as a list *)
  assert (Hres : forall s', elems s' = l1 ++ clip k k' (elems src) ++ l2 ->
    im_ok (elems s') /\ forall x, denote (elems s') x =
     override (denote (clip k k' (elems src))) (denote (elems s)) x).
  { intros s' ->. pose proof (clip_ok k k' _ Hsrc) as [Hc1 Hc2].
    pose proof (above_ok k _ Hsrc) as [_ Hab]. split.
    - apply im_ok_glue with k; auto.
      + eapply im_ok_glue; eauto.
      + apply Forall_app. split; [|apply starts_ge_weaken with k'; [korder | auto]].
        unfold clip. revert Hab. generalize (above k (elems src)) as a. clear -KL.
        induction 1 as [|c a Hc Hac IH]; simpl; [constructor|].
        destruct (comp k' (limit c)); [destruct (comp (start c) k')|]; repeat constructor; auto.
    - intros x. unfold override. rewrite E, !denote_app, denote_clip by auto.
      destruct (in_range k k' x) eqn:Ei; [|destruct (denote l1 x); reflexivity].
      apply andb_true_iff in Ei as [Ei _]. apply negb_true_iff in Ei.
      rewrite (denote_below_limits k l1) by auto. reflexivity. }
  assert (Hfin : forall s', elems s' = l1 ++ clip k k' (elems src) ++ l2 -> exists s'',
    Ok s' = Ok s'' /\ im_ok (elems s'') /\ forall x, denote (elems s'') x =
     override (denote (clip k k' (elems src))) (denote (elems s)) x) by eauto.
  rewrite (deref_at _ _ _ _ Eq), bind_Ok, op_gt_law. unfold clip in Hres, Hfin |- *. rewrite Ha in *.
  rewrite Eq in Hsrc. apply im_ok_app in Hsrc as (_ & (He & Hbe & Hr) & _).
  destruct (comp (start e) k) eqn:Esk; rewrite ?op_le_law.
  - destruct (comp (limit e) k') eqn:Elk; cbv match beta delta [negb].
    + destruct (emplace_hint_at s (length l1) l1 l2 (mkE (limit e) k (value e)) E)
        as (s1 & -> & E1); auto using im_ok_by_limit.
      { apply fits_between; auto. apply starts_ge_weaken with k'; [korder | auto]. }
      { rewrite length_app. lia. }
      rewrite (iter_next_at _ _ _ _ Eq), bind_Ok.
      destruct (copy_rest_spec src k' (q ++ [e]) r (l1 ++ [mkE (limit e) k (value e)]) l2 s1 (length l1))
        as (s' & Hc & E'); auto.
      * rewrite <- app_assoc. exact Eq.
      * rewrite <- app_assoc. exact E1.
      * rewrite <- app_assoc. apply im_ok_insert; auto.
      * apply Forall_app. split; [auto|]. repeat constructor. simpl. korder.
      * unfold size. rewrite E1, length_app. lia.
      * unfold copy_rest in Hc. rewrite Hc. apply Hfin. rewrite E', <- app_assoc.
        simpl below. replace (comp k' (limit e)) with false by (symmetry; korder). reflexivity.
    + destruct (emplace_at s l1 l2 (mkE k' k (value e)) E) as (s' & -> & E');
        auto using im_ok_by_limit, fits_between.
      apply Hfin. simpl. rewrite E'. simpl below. destruct (comp k' (limit e)) eqn:Elk'.
      * rewrite Hk. reflexivity.
      * assert (limit e = k') as <- by (apply comp_total; auto).
        rewrite below_nil by auto. reflexivity.
  - destruct (copy_rest_spec src k' q (e :: r) l1 l2 s (length l1)) as (s' & Hc & E'); auto.
    + apply im_ok_glue with k; auto; [simpl; auto|]. constructor; [exact Esk|].
      apply starts_ge_weaken with (limit e); [korder | exact Hbe].
    + unfold size. rewrite E, length_app. lia.
    + unfold copy_rest in Hc. rewrite Hc. apply Hfin. exact E'.
Qed.
End default.
End merge.

(** ** Merging values *)

Section merge_value.
Context {K V B : Type} `{KL : KeysLaws K} `{HB : EntrySet K V B} `{!EntrySetLaws K V B}
  `{HM : BuildMode}.
Context {S_ : Type}.
Variable merge_function : S_ -> K -> K -> option V -> S_ * option V.
Implicit Types (s : B) (l : list (Entry K V)) (e : Entry K V) (k x : K) (st : S_).

(** One call, and the entry it leaves. *)
Definition piece st k k' ov : S_ * list (Entry K V) :=
  let '(st, nv) := merge_function st k k' ov in
  (st, match nv with Some v => [mkE k' k v] | None => [] end).
Definition rest st k k' : S_ * list (Entry K V) :=
  if comp k k' then piece st k k' None else (st, []).

(** The entries from [k] on, after the calls for the range up to [k']. *)
Fixpoint merged st k k' l : S_ * list (Entry K V) :=
  match l with
  | [] => rest st k k'
  | e :: r =>
      if comp k' (limit e) && negb (comp (start e) k') then
        let '(st, t) := rest st k k' in (st, t ++ e :: r)
      else
        let '(st, gap) := rest st k (start e) in
        if comp k' (limit e) then
          let '(st, mid) := piece st (start e) k' (Some (value e)) in
          (st, gap ++ mid ++ mkE (limit e) k' (value e) :: r)
        else
          let '(st, mid) := piece st (start e) (limit e) (Some (value e)) in
          let '(st, t) := merged st (limit e) k' r in
          (st, gap ++ mid ++ t)
  end.

Definition finish s (i : nat) k k' st : outcome (B * S_) :=
  if comp k k' then
    let '(st, new_value) := merge_function st k k' None in
    match new_value with
    | Some v => '(s, _) ← InsertEntryWithHint s i k k' v; Ok (s, st)
    | None => Ok (s, st)
    end
  else Ok (s, st).

Lemma rest_limits st k k' : limits_le k' (rest st k k').2.
Proof.
  unfold rest, piece. destruct (comp k k'); [|constructor].
  destruct (merge_function st k k' None) as [? [v|]]; repeat constructor. apply comp_irrefl.
Qed.
Lemma rest_ok st k k' : im_ok (rest st k k').2.
Proof.
  unfold rest, piece. destruct (comp k k') eqn:E; [|exact I].
  destruct (merge_function st k k' None) as [? [v|]]; simpl; auto.
Qed.

(** The optional insertion of a gap. *)
Lemma finish_at s b a k k' st : elems s = b ++ a -> im_ok (b ++ a) -> limits_le k b ->
  starts_ge k' a -> exists s', finish s (length b) k k' st = Ok (s', (rest st k k').1) /\
  elems s' = b ++ (rest st k k').2 ++ a.
Proof.
  intros E Hok Hl Hs. unfold finish, rest, piece. destruct (comp k k') eqn:Ek; [|simpl; eauto].
  destruct (merge_function st k k' None) as [st' [v|]]; simpl; [|eauto].
  destruct (InsertEntryWithHint_at s b a k k' v E Hok Ek Hl Hs) as (s' & -> & E').
  rewrite bind_Ok. eauto.
Qed.

Lemma gap_at s b e r k st : elems s = b ++ e :: r -> im_ok (b ++ e :: r) -> limits_le k b ->
  exists s', (if comp k (start e) then
      let '(st, new_value) := merge_function st k (start e) None in
      match new_value with
      | Some v =>
          '(s, i) ← InsertEntryWithHint s (length b) k (start e) v;
          i ← iter_next s i;
          Ok (s, i, st)
      | None => Ok (s, length b, st)
      end
    else Ok (s, length b, st)) =
    Ok (s', length (b ++ (rest st k (start e)).2), (rest st k (start e)).1) /\
  elems s' = (b ++ (rest st k (start e)).2) ++ e :: r.
Proof.
  intros E Hok Hl. unfold rest, piece. destruct (comp k (start e)) eqn:Ek.
  2: { simpl. rewrite app_nil_r. eauto. }
  destruct (merge_function st k (start e) None) as [st' [v|]]; simpl.
  2: { rewrite app_nil_r. eauto. }
  destruct (InsertEntryWithHint_at s b (e :: r) k (start e) v E Hok Ek Hl) as (s' & -> & E').
  { pose proof Hok as Hok'. apply im_ok_app in Hok' as (_ & (He & Hb & _) & _).
    constructor; [apply comp_irrefl|]. apply starts_ge_weaken with (limit e); [korder | exact Hb]. }
  rewrite bind_Ok, (iter_next_at _ _ _ _ E'), bind_Ok. exists s'. rewrite <- app_assoc. eauto.
Qed.

Lemma MergeValue_loop_spec k' : forall a fuel s b k st, elems s = b ++ a -> im_ok (b ++ a) ->
  limits_le k b -> starts_ge k a -> comp k' k = false -> (length a < fuel)%nat -> exists s',
  ('(s, i, k, st) ← MergeValue_loop merge_function fuel k' s (length b) k st;
   finish s i k k' st) = Ok (s', (merged st k k' a).1) /\
  elems s' = b ++ (merged st k k' a).2.
Proof.
  induction a as [|e r IH]; intros fuel s b k st E Hok Hl Hs Hk Hf;
    (destruct fuel as [|fuel]; [simpl in Hf; lia|]); cbn [MergeValue_loop merged].
  { rewrite (is_end_at _ _ _ E), bind_Ok.
    destruct (finish_at s b [] k k' st E Hok Hl (Forall_nil_2 _)) as (s' & -> & E').
    rewrite app_nil_r in E'. eauto. }
  rewrite (is_end_at _ _ _ E), (deref_at _ _ _ _ E), bind_Ok.
  pose proof Hok as Hok'. apply im_ok_app in Hok' as (Hb & (He & Hbe & Hr) & Hf1).
  fold (starts_ge (limit e) r) in Hbe. inversion_clear Hs as [|? ? Hse _].
  destruct (comp k' (limit e) && negb (comp (start e) k')) eqn:Ebr.
  { rewrite bind_Ok. apply andb_true_iff in Ebr as [_ Ebr]. apply negb_true_iff in Ebr.
    destruct (finish_at s b (e :: r) k k' st E Hok Hl) as (s' & -> & E').
    { constructor; [exact Ebr|]. apply starts_ge_weaken with (limit e); [korder | exact Hbe]. }
    destruct (rest st k k'). eauto. }
  assert (Hsk : comp (start e) k' = true).
  { apply andb_false_iff in Ebr as [Ebr|Ebr]; [korder|]. apply negb_false_iff in Ebr. exact Ebr. }
  destruct (gap_at s b e r k st E Hok Hl) as (s1 & -> & E1). rewrite bind_Ok.
  pose proof (rest_limits st k (start e)) as Hgl. pose proof (rest_ok st k (start e)) as Hgok.
  assert (Hgs : starts_ge k (rest st k (start e)).2).
  { unfold rest, piece. destruct (comp k (start e)); [|constructor].
    destruct (merge_function st k (start e) None) as [? [v|]]; repeat constructor.
    apply comp_irrefl. }
  destruct (rest st k (start e)) as [st1 gap]. simpl in E1, Hgl, Hgok, Hgs |- *.
  assert (Hb1 : im_ok (b ++ gap)) by (eapply im_ok_glue; eauto).
  assert (Hl1 : limits_le (start e) (b ++ gap)).
  { apply Forall_app. split; [|exact Hgl]. apply limits_le_weaken with k; auto. }
  destruct (comp k' (limit e)) eqn:Eov.
  - (* the entry reaches beyond the range *)
    rewrite (deref_at _ _ _ _ E1), bind_Ok.
    destruct (MutateStart_at _ _ _ _ k' E1) as (s2 & -> & E2). rewrite bind_Ok.
    rewrite (deref_at _ _ _ _ E2), bind_Ok. simpl value.
    assert (Hok2 : im_ok (mkE (limit e) k' (value e) :: r)) by (simpl; auto).
    assert (Hs2 : starts_ge k' (mkE (limit e) k' (value e) :: r)).
    { constructor; [apply comp_irrefl|]. apply starts_ge_weaken with (limit e); [korder | exact Hbe]. }
    destruct (emplace_hint_at s2 (length (b ++ gap)) (b ++ gap) (mkE (limit e) k' (value e) :: r)
      (mkE k' (start e) (value e)) E2) as (s3 & -> & E3).
    { apply im_ok_by_limit. apply im_ok_glue with k'; auto.
      apply limits_le_weaken with (start e); [korder | auto]. }
    { apply fits_between; auto. }
    { rewrite !length_app. simpl. lia. }
    rewrite bind_Ok, (deref_at _ _ _ _ E3), bind_Ok. simpl start. simpl limit. simpl value.
    rewrite Hse, comp_irrefl. change (negb false) with true. rewrite !DCHECK_true, !bind_Ok.
    unfold piece. destruct (merge_function st1 (start e) k' (Some (value e))) as [st2 [v|]].
    + destruct (MutableValue_at _ _ _ _ v E3) as (s4 & -> & E4). rewrite bind_Ok.
      simpl in E4. rewrite (iter_next_at _ _ _ _ E4), bind_Ok.
      pose proof E4 as E5. change (mkE k' (start e) v :: ?t) with ([mkE k' (start e) v] ++ t) in E5.
      rewrite app_assoc in E5. destruct fuel as [|fuel]; [simpl in Hf; lia|].
      cbn [MergeValue_loop]. rewrite (is_end_at _ _ _ E5), (deref_at _ _ _ _ E5), bind_Ok.
      simpl. rewrite Eov, comp_irrefl. simpl. unfold finish. rewrite comp_irrefl.
      exists s4. rewrite E4, <- !app_assoc. auto.
    + destruct (erase_at _ _ _ _ E3) as (s4 & -> & E4). rewrite bind_Ok.
      destruct fuel as [|fuel]; [simpl in Hf; lia|].
      cbn [MergeValue_loop]. rewrite (is_end_at _ _ _ E4), (deref_at _ _ _ _ E4), bind_Ok.
      simpl. rewrite Eov, comp_irrefl. simpl. unfold finish. rewrite comp_irrefl.
      exists s4. rewrite E4, <- !app_assoc. auto.
  - rewrite bind_Ok, (deref_at _ _ _ _ E1), bind_Ok, Hse, Eov. change (negb false) with true.
    rewrite !DCHECK_true, !bind_Ok. unfold piece.
    destruct (merge_function st1 (start e) (limit e) (Some (value e))) as [st2 [v|]].
    + destruct (MutableValue_at _ _ _ _ v E1) as (s4 & -> & E4). rewrite bind_Ok.
      simpl in E4. rewrite (iter_next_at _ _ _ _ E4), bind_Ok.
      destruct (IH fuel s4 ((b ++ gap) ++ [mkE (limit e) (start e) v]) (limit e) st2) as (s' & Hr' & E').
      * rewrite <- app_assoc. exact E4.
      * rewrite <- app_assoc. apply im_ok_insert; auto.
      * apply Forall_app. split; [|repeat constructor; apply comp_irrefl].
        apply limits_le_weaken with (start e); [korder | auto].
      * exact Hbe.
      * exact Eov.
      * simpl in Hf. lia.
      * exists s'. rewrite Hr', E'. destruct (merged st2 (limit e) k' r). simpl.
        rewrite <- !app_assoc. auto.
    + destruct (erase_at _ _ _ _ E1) as (s4 & -> & E4). rewrite bind_Ok.
      destruct (IH fuel s4 (b ++ gap) (limit e) st2) as (s' & Hr' & E'); auto.
      * eapply im_ok_glue with (limit e); eauto.
        apply limits_le_weaken with (start e); [korder | auto].
      * apply limits_le_weaken with (start e); [korder | auto].
      * simpl in Hf. lia.
      * exists s'. rewrite Hr', E'. destruct (merged st2 (limit e) k' r). simpl.
        rewrite <- !app_assoc. auto.
Qed.

Lemma MergeValue_spec s k k' st : im_ok (elems s) -> comp k k' = true -> exists s',
  MergeValue merge_function s k k' st = Ok (s', (merged st k k' (above k (elems s))).1) /\
  elems s' = below k (elems s) ++ (merged st k k' (above k (elems s))).2.
Proof.
  intros Hok Hk. unfold MergeValue. rewrite Hk, DCHECK_true, bind_Ok.
  destruct (SplitAt_spec s k Hok) as (s1 & -> & E1). rewrite bind_Ok.
  pose proof (cut_ok k _ Hok) as Hc. pose proof (below_ok k _ Hok) as [_ Hb].
  pose proof (above_ok k _ Hok) as [_ Ha].
  destruct (MergeValue_loop_spec k' (above k (elems s)) (S (size s1)) s1 (below k (elems s)) k st)
    as (s' & Hr & E'); auto.
  - korder.
  - unfold size. rewrite E1, length_app. lia.
  - exists s'. split; [exact Hr | exact E'].
Qed.
End merge_value.
