(* ===== verification/IntervalMapSpec.v ===== *)
(** * Interval maps are partial functions *)
From Stdlib Require Import ZArith Lia Bool Sorting.Sorted.
From stdpp Require Import base list.
From S2P Require Import Prelude.
From S2P Require Import IntervalMap.
From S2P Require Import IntervalMapProps.
From S2P Require Import IntervalMapMerge.
Local Open Scope Z_scope.

(** ** The container as a sorted list *)

#[global] Instance sorted_entries {K V : Type} `{Keys K} : EntrySet K V (list (Entry K V)) | 10 := {
  elems := id;
  es_empty := [];
  es_upper_bound := fun l k => position (fun e => comp k (limit e)) l;
  es_emplace := insert_entry;
  es_emplace_hint := fun l _ e => (insert_entry l e).1;
  es_erase := fun l i => (delete i l, i);
  es_erase_range := fun l i j => (take i l ++ drop j l, i);
  es_mutate := fun l i e => <[i := e]> l;
  es_clear := fun _ => [] }.

#[global] Instance sorted_entries_laws {K V : Type} `{Keys K} :
  EntrySetLaws K V (list (Entry K V)).
Proof.
  split; unfold elems, es_upper_bound, es_emplace, es_emplace_hint, es_erase, es_erase_range,
    es_mutate, es_clear, sorted_entries, id; try (intros; congruence).
  - reflexivity.
  - intros s i s' j _ [= <- <-]. auto.
  - intros s i k s' j _ [= <- <-]. auto.
Qed.

#[global] Instance Z_keys : Keys Z | 10 := {
  comp := Z.ltb; op_le := Z.leb; op_gt := Z.gtb; op_eq := Z.eqb }.
#[global] Instance Z_keys_laws : KeysLaws Z.
Proof.
  split; unfold comp, op_eq, Z_keys; intros; lia.
Qed.
#[global] Instance Z_keys_default : DefaultComparison Z.
Proof.
  split; unfold comp, op_le, op_gt, Z_keys; intros a b.
  - apply Z.leb_antisym.
  - apply Z.gtb_ltb.
Qed.

(** ** Merging values, point by point and call by call *)

Section merge_value.
Context {K V : Type} `{KL : KeysLaws K}.
Implicit Types (l : list (Entry K V)) (e : Entry K V) (k x : K).

Section any_function.
Context {S_ : Type}.
Variable F : S_ -> K -> K -> option V -> S_ * option V.

Lemma piece_ok st k k' ov : comp k k' = true -> im_ok (piece F st k k' ov).2 /\
  limits_le k' (piece F st k k' ov).2 /\ starts_ge k (piece F st k k' ov).2.
Proof.
  intros Hk. unfold piece. destruct (F st k k' ov) as [st' [v|]]; simpl; [|repeat constructor].
  split_and!; auto; repeat constructor; apply comp_irrefl.
Qed.

Lemma rest_ok' st k k' : im_ok (rest F st k k').2 /\
  limits_le k' (rest F st k k').2 /\ starts_ge k (rest F st k k').2.
Proof.
  unfold rest. destruct (comp k k') eqn:E; [apply piece_ok; auto|]. repeat constructor.
Qed.

Lemma merged_ok k' l : forall st k, im_ok l -> starts_ge k l -> comp k' k = false ->
  im_ok (merged F st k k' l).2 /\ starts_ge k (merged F st k k' l).2.
Proof.
  induction l as [|e r IH]; intros st k Hok Hs Hk; cbn [merged].
  { destruct (rest_ok' st k k') as (? & ? & ?). auto. }
  destruct Hok as (He & Hb & Hr). fold (starts_ge (limit e) r) in Hb.
  inversion_clear Hs as [|? ? Hse _].
  destruct (comp k' (limit e) && negb (comp (start e) k')) eqn:Ebr.
  { apply andb_true_iff in Ebr as [_ Ebr]. apply negb_true_iff in Ebr.
    pose proof (rest_ok' st k k') as (H1 & H2 & H3). destruct (rest F st k k') as [st1 t].
    simpl in *. assert (Hs : starts_ge k' (e :: r)).
    { constructor; [exact Ebr|]. apply starts_ge_weaken with (limit e); [korder | exact Hb]. }
    split; [eapply im_ok_glue; eauto; simpl; auto|]. apply Forall_app. split; [auto|].
    apply starts_ge_weaken with k'; auto. }
  assert (Hsk : comp (start e) k' = true).
  { apply andb_false_iff in Ebr as [Ebr|Ebr]; [korder|]. apply negb_false_iff in Ebr. exact Ebr. }
  pose proof (rest_ok' st k (start e)) as (G1 & G2 & G3).
  destruct (rest F st k (start e)) as [st1 gap]. simpl in G1, G2, G3.
  assert (Hfin : forall t, im_ok t -> starts_ge (start e) t ->
    im_ok (gap ++ t) /\ starts_ge k (gap ++ t)).
  { intros t Ht1 Ht2. split; [eapply im_ok_glue; eauto|]. apply Forall_app. split; [auto|].
    apply starts_ge_weaken with (start e); auto. }
  destruct (comp k' (limit e)) eqn:Eov.
  - pose proof (piece_ok st1 (start e) k' (Some (value e)) Hsk) as (M1 & M2 & M3).
    destruct (piece F st1 (start e) k' (Some (value e))) as [st2 mid]. simpl in *.
    assert (Hs' : starts_ge k' (mkE (limit e) k' (value e) :: r)).
    { constructor; [apply comp_irrefl|]. apply starts_ge_weaken with (limit e); [korder | exact Hb]. }
    apply Hfin.
    + eapply im_ok_glue; eauto. simpl. auto.
    + apply Forall_app. split; [auto|]. apply starts_ge_weaken with k'; [korder | auto].
  - pose proof (piece_ok st1 (start e) (limit e) (Some (value e)) He) as (M1 & M2 & M3).
    destruct (piece F st1 (start e) (limit e) (Some (value e))) as [st2 mid]. simpl in *.
    destruct (IH st2 (limit e) Hr Hb Eov) as [I1 I2].
    destruct (merged F st2 (limit e) k' r) as [st3 t]. simpl in *.
    apply Hfin.
    + eapply im_ok_glue; eauto.
    + apply Forall_app. split; [auto|]. apply starts_ge_weaken with (limit e); [korder | auto].
Qed.
End any_function.

(** A function of the existing value only. *)
Definition on_value (f : option V -> option V) : unit -> K -> K -> option V -> unit * option V :=
  fun _ _ _ o => (tt, f o).
Definition fmerge (f : option V -> option V) (m : K -> option V) k k' : K -> option V :=
  fun x => if in_range k k' x then f (m x) else m x.

Lemma denote_piece f st k k' ov x : denote (piece (on_value f) st k k' ov).2 x =
  if in_range k k' x then f ov else None.
Proof.
  unfold piece, on_value. destruct (f ov); simpl; unfold within, in_range; simpl;
    destruct (negb (comp x k) && comp x k'); reflexivity.
Qed.
Lemma denote_rest f st k k' x : denote (rest (on_value f) st k k').2 x =
  if in_range k k' x then f None else None.
Proof.
  unfold rest. destruct (comp k k') eqn:E; [apply denote_piece|]. simpl. unfold in_range.
  destruct (comp x k) eqn:E1, (comp x k') eqn:E2; try reflexivity. exfalso. korder.
Qed.

Lemma in_range_split k k1 k' x : comp k1 k = false -> comp k' k1 = false ->
  in_range k k' x = in_range k k1 x || in_range k1 k' x.
Proof.
  intros H1 H2. unfold in_range.
  destruct (comp x k) eqn:E1, (comp x k1) eqn:E2, (comp x k') eqn:E3; simpl; try reflexivity;
    exfalso; korder.
Qed.

Lemma denote_merged f k' l : forall st k x, im_ok l -> starts_ge k l -> comp k' k = false ->
  denote (merged (on_value f) st k k' l).2 x = fmerge f (denote l) k k' x.
Proof.
  unfold fmerge. induction l as [|e r IH]; intros st k x Hok Hs Hk; cbn [merged].
  { rewrite denote_rest. reflexivity. }
  destruct Hok as (He & Hb & Hr). fold (starts_ge (limit e) r) in Hb.
  inversion_clear Hs as [|? ? Hse _].
  assert (Hr0 : comp x (limit e) = true -> denote r x = None)
    by (intros; apply denote_above_starts with (limit e); auto).
  destruct (comp k' (limit e) && negb (comp (start e) k')) eqn:Ebr.
  { apply andb_true_iff in Ebr as [_ Ebr]. apply negb_true_iff in Ebr.
    pose proof (denote_rest f st k k' x) as Hd. destruct (rest (on_value f) st k k') as [st1 t].
    simpl in Hd |- *. rewrite denote_app, Hd. destruct (in_range k k' x) eqn:Ei; [|reflexivity].
    apply andb_true_iff in Ei as [E1 E2]. apply negb_true_iff in E1.
    assert (Hn : denote (e :: r) x = None).
    { apply denote_above_starts with k'; [|exact E2]. constructor; [exact Ebr|].
      apply starts_ge_weaken with (limit e); [korder | exact Hb]. }
    simpl in Hn |- *. rewrite Hn. destruct (f None); reflexivity. }
  assert (Hsk : comp (start e) k' = true).
  { apply andb_false_iff in Ebr as [Ebr|Ebr]; [korder|]. apply negb_false_iff in Ebr. exact Ebr. }
  pose proof (denote_rest f st k (start e) x) as Hg.
  destruct (rest (on_value f) st k (start e)) as [st1 gap]. simpl in Hg.
  destruct (comp k' (limit e)) eqn:Eov.
  - pose proof (denote_piece f st1 (start e) k' (Some (value e)) x) as Hm.
    destruct (piece (on_value f) st1 (start e) k' (Some (value e))) as [st2 mid].
    cbn [snd] in *. rewrite !denote_app, Hg, Hm. simpl. unfold within, in_range. simpl.
    destruct (comp x k) eqn:E1, (comp x (start e)) eqn:E2, (comp x k') eqn:E3,
      (comp x (limit e)) eqn:E4; simpl; rewrite ?Hr0 by auto;
      try (exfalso; korder);
      repeat match goal with |- context [f ?o] => destruct (f o) end; reflexivity.
  - pose proof (denote_piece f st1 (start e) (limit e) (Some (value e)) x) as Hm.
    destruct (piece (on_value f) st1 (start e) (limit e) (Some (value e))) as [st2 mid].
    pose proof (IH st2 (limit e) x Hr Hb Eov) as Hi.
    destruct (merged (on_value f) st2 (limit e) k' r) as [st3 t].
    cbn [snd] in *. rewrite !denote_app, Hg, Hm, Hi. simpl. unfold within, in_range. simpl.
    destruct (comp x k) eqn:E1, (comp x (start e)) eqn:E2, (comp x k') eqn:E3,
      (comp x (limit e)) eqn:E4; simpl; rewrite ?Hr0 by auto;
      try (exfalso; korder);
      repeat match goal with |- context [f ?o] => destruct (f o) end; reflexivity.
Qed.
End merge_value.

(** *** The calls of the merge function *)

Section calls.
Context {K V : Type} `{KL : KeysLaws K}.
Implicit Types (l : list (Entry K V)) (e : Entry K V) (k x : K).

Definition call : Type := K * K * option V.

(** Records its calls; [f] may look at them and at the range. *)
Definition recording (f : list call -> call -> option V) :
    list call -> K -> K -> option V -> list call * option V :=
  fun st a b o => (st ++ [(a, b, o)], f st (a, b, o)).

(** Consecutive non-empty ranges from [k] to [k'], each with the value that the map has
    all over it. *)
Fixpoint calls_cover (m : K -> option V) k k' (cs : list call) : Prop :=
  match cs with
  | [] => k = k'
  | (a, b, o) :: cs =>
      a = k /\ comp a b = true /\ comp k' b = false /\
      (forall x, in_range a b x = true -> m x = o) /\ calls_cover m b k' cs
  end.

Lemma denote_tail_ge e r x : im_ok (e :: r) -> comp x (limit e) = false ->
  denote (e :: r) x = denote r x.
Proof. intros Hok Hx. rewrite (denote_tail e r x Hok), Hx. reflexivity. Qed.

Lemma calls_cover_app m k k1 k' cs cs' : comp k' k1 = false -> calls_cover m k k1 cs ->
  calls_cover m k1 k' cs' -> calls_cover m k k' (cs ++ cs').
Proof.
  intros Hk. revert k. induction cs as [|[[a b] o] cs IH]; intros k; simpl; [intros ->; auto|].
  intros (-> & H1 & H2 & H3 & H4) H5. split_and!; auto. korder.
Qed.

Lemma calls_cover_ext m m' k' cs : forall k, (forall x, comp x k = false -> m x = m' x) ->
  calls_cover m k k' cs -> calls_cover m' k k' cs.
Proof.
  induction cs as [|[[a b] o] cs IH]; intros k Hm; simpl; [auto|].
  intros (-> & H1 & H2 & H3 & H4). split_and!; auto.
  - intros x Hx. rewrite <- Hm; [auto|]. apply andb_true_iff in Hx as [Hx _].
    apply negb_true_iff in Hx. exact Hx.
  - apply IH; [|exact H4]. intros x Hx. apply Hm. korder.
Qed.

Variable f : list call -> call -> option V.

Lemma piece_calls st k k' ov : (piece (recording f) st k k' ov).1 = st ++ [(k, k', ov)].
Proof. unfold piece, recording. destruct (f st (k, k', ov)); reflexivity. Qed.

Lemma rest_calls m st k k' : comp k' k = false -> (forall x, in_range k k' x = true -> m x = None) ->
  exists cs, (rest (recording f) st k k').1 = st ++ cs /\ calls_cover m k k' cs.
Proof.
  intros Hk Hm. unfold rest. destruct (comp k k') eqn:E.
  - exists [(k, k', None)]. rewrite piece_calls. simpl. split_and!; auto using comp_irrefl.
  - exists []. simpl. rewrite app_nil_r. split; [reflexivity|]. korder.
Qed.

Lemma merged_calls k' l : forall st k, im_ok l -> starts_ge k l -> comp k' k = false ->
  exists cs, (merged (recording f) st k k' l).1 = st ++ cs /\ calls_cover (denote l) k k' cs.
Proof.
  induction l as [|e r IH]; intros st k Hok Hs Hk; cbn [merged].
  { apply rest_calls; auto. }
  pose proof Hok as Hok'. destruct Hok as (He & Hb & Hr). fold (starts_ge (limit e) r) in Hb.
  inversion_clear Hs as [|? ? Hse _].
  assert (Hbefore : forall x, comp x (start e) = true -> denote (e :: r) x = None).
  { intros x Hx. apply denote_above_starts with (start e); [|exact Hx].
    constructor; [apply comp_irrefl|]. apply starts_ge_weaken with (limit e); [korder | exact Hb]. }
  assert (Hin : forall x, in_range (start e) (limit e) x = true ->
    denote (e :: r) x = Some (value e)).
  { intros x Hx. simpl. change (within e x) with (in_range (start e) (limit e) x).
    rewrite Hx. reflexivity. }
  destruct (comp k' (limit e) && negb (comp (start e) k')) eqn:Ebr.
  { apply andb_true_iff in Ebr as [_ Ebr]. apply negb_true_iff in Ebr.
    destruct (rest_calls (denote (e :: r)) st k k' Hk) as (cs & Hc & Hcs).
    { intros x Hx. apply andb_true_iff in Hx as [_ Hx]. apply Hbefore. korder. }
    exists cs. destruct (rest (recording f) st k k'). auto. }
  assert (Hsk : comp (start e) k' = true).
  { apply andb_false_iff in Ebr as [Ebr|Ebr]; [korder|]. apply negb_false_iff in Ebr. exact Ebr. }
  destruct (rest_calls (denote (e :: r)) st k (start e) Hse) as (cs & Hc & Hcs).
  { intros x Hx. apply andb_true_iff in Hx as [_ Hx]. apply Hbefore. exact Hx. }
  destruct (rest (recording f) st k (start e)) as [st1 gap]. simpl in Hc. subst st1.
  destruct (comp k' (limit e)) eqn:Eov.
  - pose proof (piece_calls (st ++ cs) (start e) k' (Some (value e))) as Hp.
    destruct (piece (recording f) (st ++ cs) (start e) k' (Some (value e))) as [st2 mid].
    simpl in Hp |- *. subst st2. exists (cs ++ [(start e, k', Some (value e))]).
    rewrite app_assoc. split; [reflexivity|]. apply calls_cover_app with (start e); [korder | exact Hcs |].
    simpl. split_and!; auto using comp_irrefl. intros x Hx. apply Hin.
    unfold in_range in *. apply andb_true_iff in Hx as [-> Hx]. simpl. korder.
  - pose proof (piece_calls (st ++ cs) (start e) (limit e) (Some (value e))) as Hp.
    destruct (piece (recording f) (st ++ cs) (start e) (limit e) (Some (value e))) as [st2 mid].
    simpl in Hp. subst st2.
    destruct (IH ((st ++ cs) ++ [(start e, limit e, Some (value e))]) (limit e) Hr Hb Eov)
      as (cs2 & Hc2 & Hcs2).
    destruct (merged (recording f) _ (limit e) k' r) as [st3 t]. simpl in Hc2 |- *. subst st3.
    exists (cs ++ (start e, limit e, Some (value e)) :: cs2). rewrite <- !app_assoc.
    split; [reflexivity|]. apply calls_cover_app with (start e); [korder | exact Hcs |].
    cbn [calls_cover]. split_and!; auto.
    eapply calls_cover_ext; [|exact Hcs2]. intros x Hx.
    symmetry. exact (denote_tail_ge e r x Hok' Hx).
Qed.
End calls.

(** ** Scripts over many maps *)

Section scripts.
Context {K V B : Type} `{KL : KeysLaws K} `{HB : EntrySet K V B} `{!EntrySetLaws K V B} `{HM : BuildMode}.
Variable value_eq : V -> V -> bool.
Hypothesis value_eq_law : forall v w, value_eq v w = true <-> v = w.

(** Operations on the maps of a list, by their numbers. *)
Inductive op :=
| OSet (r : nat) (k k' : K) (v : V)
| OSetNoOverlap (r : nat) (k k' : K) (v : V)
| OSetMany (r : nat) (es : list (Entry K V))
| OSetAndCoalesce (r : nat) (k k' : K) (v : V)
| OErase (r : nat) (k k' : K)
| OCoalesce (r : nat)
| OMergeValue (r : nat) (k k' : K) (f : option V -> option V)
| OMergeFrom (r src : nat)
| OMergeSubRange (r src : nat) (k k' : K)
| OClear (r : nat)
| OAssign (r src : nat)
| OLookup (r : nat) (k : K)
| OContains (r : nat) (k : K)
| OFindNextPoint (r : nat) (k : K)
| OIsEmptyInterval (r : nat) (k k' : K)
| OCoversRange (r : nat) (k k' : K)
| OEmpty (r : nat).

Inductive result := RNone | RBool (b : bool) | RValue (o : option V) | RKey (o : option K).

Definition get (ss : list B) (r : nat) : outcome B :=
  match ss !! r with Some s => Ok s | None => UB end.

Definition run_op (o : op) (ss : list B) : outcome (list B * result) :=
  match o with
  | OSet r k k' v => s ← get ss r; '(s, _) ← Set_ s k k' v; Ok (<[r := s]> ss, RNone)
  | OSetNoOverlap r k k' v =>
      s ← get ss r; '(s, _) ← SetNoOverlap s k k' v; Ok (<[r := s]> ss, RNone)
  | OSetMany r es => s ← get ss r; s ← SetManyNoOverlap s es; Ok (<[r := s]> ss, RNone)
  | OSetAndCoalesce r k k' v =>
      s ← get ss r; s ← SetAndCoalesce value_eq s k k' v; Ok (<[r := s]> ss, RNone)
  | OErase r k k' => s ← get ss r; '(s, _) ← Erase s k k'; Ok (<[r := s]> ss, RNone)
  | OCoalesce r => s ← get ss r; s ← Coalesce value_eq s; Ok (<[r := s]> ss, RNone)
  | OMergeValue r k k' f =>
      s ← get ss r; '(s, _) ← MergeValue (on_value f) s k k' tt; Ok (<[r := s]> ss, RNone)
  | OMergeFrom r src =>
      s ← get ss r; x ← get ss src; s ← MergeFrom s x; Ok (<[r := s]> ss, RNone)
  | OMergeSubRange r src k k' =>
      s ← get ss r; x ← get ss src; s ← MergeSubRangeFrom s x k k'; Ok (<[r := s]> ss, RNone)
  | OClear r => s ← get ss r; Ok (<[r := Clear s]> ss, RNone)
  | OAssign r src => _ ← get ss r; x ← get ss src; Ok (<[r := x]> ss, RNone)
  | OLookup r k => s ← get ss r; o ← Lookup s k; Ok (ss, RValue o)
  | OContains r k => s ← get ss r; b ← contains s k; Ok (ss, RBool b)
  | OFindNextPoint r k => s ← get ss r; o ← FindNextPoint s k; Ok (ss, RKey o)
  | OIsEmptyInterval r k k' => s ← get ss r; b ← IsEmptyInterval s k k'; Ok (ss, RBool b)
  | OCoversRange r k k' => s ← get ss r; b ← CoversRange s k k'; Ok (ss, RBool b)
  | OEmpty r => s ← get ss r; Ok (ss, RBool (empty s))
  end.
Fixpoint run (os : list op) (ss : list B) : outcome (list B * list result) :=
  match os with
  | [] => Ok (ss, [])
  | o :: os => '(ss, r) ← run_op o ss; '(ss, rs) ← run os ss; Ok (ss, r :: rs)
  end.

(** The same on partial functions. *)
Definition fn : Type := K -> option V.
Definition at_ (ms : list fn) (r : nat) : fn := match ms !! r with Some m => m | None => fun _ => None end.
Definition spec_state (o : op) (ms : list fn) : list fn :=
  let upd r m := <[r := m]> ms in
  match o with
  | OSet r k k' v | OSetNoOverlap r k k' v | OSetAndCoalesce r k k' v =>
      upd r (fset (at_ ms r) k k' v)
  | OSetMany r es => upd r (fset_all (at_ ms r) es)
  | OErase r k k' => upd r (fun x => if in_range k k' x then None else at_ ms r x)
  | OMergeValue r k k' f => upd r (fmerge f (at_ ms r) k k')
  | OMergeFrom r src => upd r (override (at_ ms src) (at_ ms r))
  | OMergeSubRange r src k k' =>
      upd r (override (fun x => if in_range k k' x then at_ ms src x else None) (at_ ms r))
  | OClear r => upd r (fun _ => None)
  | OAssign r src => upd r (at_ ms src)
  | _ => ms
  end.
Definition spec_result (o : op) (ms : list fn) (res : result) : Prop :=
  match o with
  | OLookup r k => res = RValue (at_ ms r k)
  | OContains r k => res = RBool (match at_ ms r k with Some _ => true | None => false end)
  | OFindNextPoint r k => exists p, res = RKey p /\ next_point (at_ ms r) k p
  | OIsEmptyInterval r k k' => exists b, res = RBool b /\ (b = true <-> empty_in (at_ ms r) k k')
  | OCoversRange r k k' => exists b, res = RBool b /\ (b = true <-> covered (at_ ms r) k k')
  | OEmpty r => exists b, res = RBool b /\ (b = true <-> forall x, at_ ms r x = None)
  | _ => res = RNone
  end.

(** What the documentation requires, and for the operations that also compare keys
    with [<=] and [>] that these are those of the comparison of the map; the range of
    [MergeSubRangeFrom] is required not to be empty, which its comment does not say. *)
Definition pre (o : op) (ms : list fn) : Prop :=
  match o with
  | OSetAndCoalesce r k k' _ => DefaultComparison K /\ (r < length ms)%nat /\ comp k k' = true
  | OSet r k k' _ | OErase r k k' | OMergeValue r k k' _
  | OIsEmptyInterval r k k' | OCoversRange r k k' => (r < length ms)%nat /\ comp k k' = true
  | OSetNoOverlap r k k' _ =>
      (r < length ms)%nat /\ comp k k' = true /\ empty_in (at_ ms r) k k'
  | OSetMany r es => (r < length ms)%nat /\ addable (at_ ms r) es
  | OMergeFrom r src =>
      DefaultComparison K /\ (r < length ms)%nat /\ (src < length ms)%nat /\ r <> src
  | OMergeSubRange r src k k' =>
      DefaultComparison K /\ (r < length ms)%nat /\ (src < length ms)%nat /\ r <> src /\ comp k k' = true
  | OAssign r src => (r < length ms)%nat /\ (src < length ms)%nat
  | OCoalesce r => DefaultComparison K /\ (r < length ms)%nat
  | OClear r | OLookup r _ | OContains r _ | OFindNextPoint r _ | OEmpty r =>
      (r < length ms)%nat
  end.
Fixpoint allowed (os : list op) (ms : list fn) : Prop :=
  match os with [] => True | o :: os => pre o ms /\ allowed os (spec_state o ms) end.
Fixpoint spec_run (os : list op) (ms : list fn) (rs : list result) (ms' : list fn) : Prop :=
  match os, rs with
  | [], [] => ms' = ms
  | o :: os, r :: rs => spec_result o ms r /\ spec_run os (spec_state o ms) rs ms'
  | _, _ => False
  end.

Definition rep (s : B) (m : fn) : Prop :=
  im_ok (elems s) /\ forall x, denote (elems s) x = m x.

Lemma rep_at ss ms r : Forall2 rep ss ms -> (r < length ms)%nat ->
  exists s, get ss r = Ok s /\ rep s (at_ ms r).
Proof.
  intros HR Hr. apply lookup_lt_is_Some in Hr as [m Hm].
  destruct (Forall2_lookup_r _ _ _ _ _ HR Hm) as (s & Hs & Hrep).
  exists s. unfold get, at_. rewrite Hs, Hm. auto.
Qed.

Lemma rep_upd ss ms r s m : Forall2 rep ss ms -> rep s m -> Forall2 rep (<[r := s]> ss) (<[r := m]> ms).
Proof. intros. apply Forall2_insert; auto. Qed.

Lemma empty_spec s : im_ok (elems s) -> empty s = true <-> forall x, denote (elems s) x = None.
Proof.
  intros Hok. unfold empty, size. destruct (elems s) as [|e l].
  - simpl. tauto.
  - split; [discriminate|]. intros Hn. specialize (Hn (start e)).
    rewrite denote_at_start in Hn by auto. discriminate.
Qed.

Lemma MergeValue_pointwise s k k' f : im_ok (elems s) -> comp k k' = true -> exists s',
  MergeValue (on_value f) s k k' tt = Ok (s', tt) /\
  rep s' (fmerge f (denote (elems s)) k k').
Proof.
  intros Hok Hk. destruct (MergeValue_spec (on_value f) s k k' tt Hok Hk) as (s' & -> & E').
  pose proof (below_ok k _ Hok) as [Hb1 Hb2]. pose proof (above_ok k _ Hok) as [Ha1 Ha2].
  assert (Hkk : comp k' k = false) by korder.
  pose proof (merged_ok (on_value f) k' _ tt k Ha1 Ha2 Hkk) as [Hm1 Hm2].
  exists s'. destruct ((merged (on_value f) tt k k' (above k (elems s))).1). split; [reflexivity|].
  unfold rep. rewrite E'. split; [eapply im_ok_glue; eauto|].
  intros x. rewrite denote_app, denote_below, denote_merged by auto. unfold fmerge.
  rewrite denote_above by auto. unfold in_range. destruct (comp x k) eqn:E1; simpl; [|reflexivity].
  destruct (denote (elems s) x); reflexivity.
Qed.
Ltac get_rep HR Hr s := 
  let Hg := fresh "Hg" in let Ho := fresh "Ho" in let Hd := fresh "Hd" in
  destruct (rep_at _ _ _ HR Hr) as (s & Hg & Ho & Hd); rewrite Hg, bind_Ok.

Lemma run_op_spec o ss ms : Forall2 rep ss ms -> pre o ms -> exists ss' res,
  run_op o ss = Ok (ss', res) /\ spec_result o ms res /\ Forall2 rep ss' (spec_state o ms).
Proof.
  intros HR Hp. destruct o; simpl in Hp |- *.
  - destruct Hp as [Hr Hk]. get_rep HR Hr s. unfold Set_.
    destruct (SetInternal_spec s k k' v Ho Hk) as (s' & -> & E'). rewrite bind_Ok.
    eexists _, _. split_and!; [reflexivity | reflexivity |]. apply rep_upd; auto.
    unfold rep. rewrite E'. split; [apply set_list_ok; auto|]. intros x.
    rewrite denote_set_list by auto. unfold fset. rewrite Hd. reflexivity.
  - destruct Hp as (Hr & Hk & He). get_rep HR Hr s.
    destruct (SetNoOverlap_spec s k k' v Ho Hk) as (s' & i & -> & H1 & H2).
    { intros x Hx. rewrite Hd. apply He, Hx. }
    rewrite bind_Ok. eexists _, _. split_and!; [reflexivity | reflexivity |]. apply rep_upd; auto.
    split; [exact H1|]. intros x. rewrite H2. unfold fset. rewrite Hd. reflexivity.
  - destruct Hp as (Hr & Ha). get_rep HR Hr s.
    destruct (SetManyNoOverlap_spec s es Ho) as (s' & -> & H1 & H2).
    { eapply addable_ext; [|exact Ha]. intros x. symmetry. apply Hd. }
    rewrite bind_Ok. eexists _, _. split_and!; [reflexivity | reflexivity |]. apply rep_upd; auto.
    split; [exact H1|]. intros x. rewrite H2. apply fset_all_ext. exact Hd.
  - destruct Hp as (HD & Hr & Hk). get_rep HR Hr s.
    destruct (SetAndCoalesce_spec value_eq value_eq_law s k k' v Ho Hk)
      as (s' & -> & H1 & _ & H2). rewrite bind_Ok.
    eexists _, _. split_and!; [reflexivity | reflexivity |]. apply rep_upd; auto.
    split; [exact H1|]. intros x. rewrite H2. unfold fset. rewrite Hd. reflexivity.
  - destruct Hp as [Hr Hk]. get_rep HR Hr s. unfold Erase.
    destruct (EraseInternal_spec s k k' Ho Hk) as (s' & -> & E'). rewrite bind_Ok.
    eexists _, _. split_and!; [reflexivity | reflexivity |]. apply rep_upd; auto.
    unfold rep. rewrite E'. split; [apply (erase_list_ok k k'); auto|]. intros x.
    pose proof (denote_erase_list k k' _ x Ho Hk) as He. unfold erase_list in He.
    rewrite He, Hd. reflexivity.
  - destruct Hp as [HD Hp]. get_rep HR Hp s.
    destruct (Coalesce_spec value_eq value_eq_law s Ho) as (s' & -> & H1 & _ & H2).
    rewrite bind_Ok. eexists _, _. split_and!; [reflexivity | reflexivity |].
    assert (Hms : <[r := at_ ms r]> ms = ms).
    { apply list_insert_id. unfold at_. apply lookup_lt_is_Some in Hp as [m ->]. reflexivity. }
    rewrite <- Hms. apply rep_upd; auto. split; [exact H1|]. intros x. rewrite H2. apply Hd.
  - destruct Hp as [Hr Hk]. get_rep HR Hr s.
    destruct (MergeValue_pointwise s k k' f Ho Hk) as (s' & -> & H1 & H2). rewrite bind_Ok.
    eexists _, _. split_and!; [reflexivity | reflexivity |]. apply rep_upd; auto.
    split; [exact H1|]. intros x. rewrite H2. unfold fmerge. rewrite Hd. reflexivity.
  - destruct Hp as (HD & Hr & Hs & _). get_rep HR Hr s. get_rep HR Hs t.
    destruct (MergeFrom_spec s t Ho Ho0) as (s' & -> & H1 & H2). rewrite bind_Ok.
    eexists _, _. split_and!; [reflexivity | reflexivity |]. apply rep_upd; auto.
    split; [exact H1|]. intros x. rewrite H2. unfold override. rewrite Hd, Hd0. reflexivity.
  - destruct Hp as (HD & Hr & Hs & _ & Hk). get_rep HR Hr s. get_rep HR Hs t.
    destruct (MergeSubRangeFrom_spec s t k k' Ho Ho0 Hk) as (s' & -> & H1 & H2). rewrite bind_Ok.
    eexists _, _. split_and!; [reflexivity | reflexivity |]. apply rep_upd; auto.
    split; [exact H1|]. intros x. rewrite H2. unfold override.
    rewrite denote_clip, Hd, Hd0 by auto. reflexivity.
  - get_rep HR Hp s. eexists _, _. split_and!; [reflexivity | reflexivity |]. apply rep_upd; auto.
    unfold rep, Clear. rewrite es_clear_law. repeat split.
  - destruct Hp as (Hr & Hs). get_rep HR Hr s. get_rep HR Hs t.
    eexists _, _. split_and!; [reflexivity | reflexivity |]. apply rep_upd; auto. split; auto.
  - get_rep HR Hp s. destruct (Lookup_spec s k Ho) as [-> _]. rewrite bind_Ok, Hd. eauto.
  - get_rep HR Hp s. rewrite (contains_spec s k Ho), bind_Ok, Hd. eauto.
  - get_rep HR Hp s. destruct (FindNextPoint_spec s k Ho) as (p & -> & Hn). rewrite bind_Ok.
    eexists _, _. split_and!; [reflexivity | | exact HR]. exists p. split; [reflexivity|].
    destruct p as [p|]; simpl in *; setoid_rewrite <- Hd; exact Hn.
  - destruct Hp as [Hr Hk]. get_rep HR Hr s.
    destruct (IsEmptyInterval_spec s k k' Ho Hk) as (b & -> & Hb). rewrite bind_Ok.
    eexists _, _. split_and!; [reflexivity | | exact HR]. exists b. split; [reflexivity|].
    unfold empty_in. setoid_rewrite <- Hd. exact Hb.
  - destruct Hp as [Hr Hk]. get_rep HR Hr s.
    destruct (CoversRange_spec s k k' Ho Hk) as (b & -> & Hb). rewrite bind_Ok.
    eexists _, _. split_and!; [reflexivity | | exact HR]. exists b. split; [reflexivity|].
    unfold covered. setoid_rewrite <- Hd. exact Hb.
  - get_rep HR Hp s. eexists _, _. split_and!; [reflexivity | | exact HR]. eexists.
    split; [reflexivity|]. setoid_rewrite <- Hd. apply empty_spec, Ho.
Qed.


Context `{!DefaultComparison K}.

(** Equality of coalesced maps. *)
Lemma entries_eq_spec (l : list (Entry K V)) : forall r, length l = length r ->
  entries_eq value_eq l r = true <-> l = r.
Proof.
  induction l as [|a l IH]; intros [|b r] Hlen; simpl; try discriminate; [tauto|].
  injection Hlen as Hlen. specialize (IH r Hlen).
  destruct (op_eq (start a) (start b) && op_eq (limit a) (limit b) && value_eq (value a) (value b))
    eqn:E; simpl.
  - rewrite IH. apply andb_true_iff in E as [E Ev]. apply andb_true_iff in E as [Es El].
    apply op_eq_law in Es, El. apply value_eq_law in Ev.
    assert (a = b) as -> by (destruct a, b; simpl in *; congruence).
    split; [intros ->; reflexivity | intros [= ->]; reflexivity].
  - split; [discriminate|]. intros [= -> ->]. rewrite !(proj2 (op_eq_law _ _)) in E by reflexivity.
    rewrite (proj2 (value_eq_law _ _)) in E by reflexivity. discriminate.
Qed.

Lemma map_eq_spec s t : map_eq value_eq s t = true <-> elems s = elems t.
Proof.
  unfold map_eq, size. destruct (Nat.eqb_spec (length (elems s)) (length (elems t))) as [E|E]; simpl.
  - apply entries_eq_spec. exact E.
  - split; [discriminate|]. intros Heq. rewrite Heq in E. contradiction.
Qed.

(** [Coalesce] keeps the function a map stands for and brings the map into a normal
    form, which [SetAndCoalesce] keeps: two coalesced maps are equal for [operator==]
    exactly when they have the same values at the same keys. *)
Theorem Coalesce_normal_form :
  (forall s t, im_ok (elems s) -> im_ok (elems t) -> exists s' t',
     Coalesce value_eq s = Ok s' /\ Coalesce value_eq t = Ok t' /\
     (forall x, denote (elems s') x = denote (elems s) x) /\
     (map_eq value_eq s' t' = true <-> forall x, denote (elems s) x = denote (elems t) x)) /\
  (forall s k k' v, im_ok (elems s) -> coalesced (elems s) -> comp k k' = true -> exists s' t',
     SetAndCoalesce value_eq s k k' v = Ok s' /\
     Coalesce value_eq s' = Ok t' /\ map_eq value_eq s' t' = true).
Proof.
  split.
  - intros s t Hs Ht. destruct (Coalesce_spec value_eq value_eq_law s Hs) as (s' & -> & S1 & S2 & S3).
    destruct (Coalesce_spec value_eq value_eq_law t Ht) as (t' & -> & T1 & T2 & T3).
    exists s', t'. split_and!; auto. rewrite map_eq_spec. split.
    + intros E x. rewrite <- S3, <- T3, E. reflexivity.
    + intros E. apply coalesced_canonical; auto. intros x. rewrite S3, T3. apply E.
  - intros s k k' v Hs Hc Hk.
    destruct (SetAndCoalesce_spec value_eq value_eq_law s k k' v Hs Hk) as (s' & Es & S1 & S2 & _).
    destruct (Coalesce_spec value_eq value_eq_law s' S1) as (t' & Et & T1 & T2 & T3).
    exists s', t'. split_and!; auto. apply map_eq_spec. apply coalesced_canonical; auto.
Qed.

(** [MergeValue] calls its function on consecutive ranges, none of them empty, which
    together are the range from [k] to [k'], each with the one value that the map has all over it, in the
    order of the keys, whatever the function returns. *)
Theorem MergeValue_calls (f : list (call (K := K) (V := V)) -> call -> option V) s k k' :
  im_ok (elems s) -> comp k k' = true -> exists s' cs,
  MergeValue (recording f) s k k' [] = Ok (s', cs) /\ im_ok (elems s') /\
  calls_cover (denote (elems s)) k k' cs.
Proof.
  intros Hok Hk. destruct (MergeValue_spec (recording f) s k k' [] Hok Hk) as (s' & -> & E').
  pose proof (below_ok k _ Hok) as [Hb1 Hb2]. pose proof (above_ok k _ Hok) as [Ha1 Ha2].
  assert (Hkk : comp k' k = false) by korder.
  pose proof (merged_ok (recording f) k' _ [] k Ha1 Ha2 Hkk) as [Hm1 Hm2].
  destruct (merged_calls f k' _ [] k Ha1 Ha2 Hkk) as (cs & Hc & Hcs). rewrite Hc. simpl.
  exists s', cs. split_and!; [reflexivity | rewrite E'; eapply im_ok_glue; eauto |].
  eapply calls_cover_ext; [|exact Hcs]. intros x Hx. rewrite denote_above, Hx by auto. reflexivity.
Qed.
End scripts.

(** ** Where the code departs from this *)

Definition reversed_keys : Keys Z := {|
  comp := Z.gtb; op_le := Z.leb; op_gt := Z.gtb; op_eq := Z.eqb |}.

(** [MergeSubRangeFrom] with an empty range puts an entry without keys into the map,
    which then is not empty although it maps nothing.  With the comparison
    [std::greater], [Coalesce], which compares keys with [<=] instead of the comparison of
    the map, joins entries that do not touch, so that keys between them get a value. *)
Theorem IntervalMap_departures :
  (exists s : list (Entry Z Z),
     MergeSubRangeFrom (HM := opt_build) [] [mkE 10 0 1] 5 5 = Ok s /\
     im_ok [mkE 10 0 1] /\ empty s = false /\ (forall x, denote s x = None)) /\
  (let l := [mkE 8 10 1; mkE 4 6 1] in
   im_ok (H := reversed_keys) l /\ denote (H := reversed_keys) l 7 = None /\
   exists s : list (Entry Z Z),
     Coalesce (HK := reversed_keys) (HB := sorted_entries (H := reversed_keys)) (HM := opt_build)
       Z.eqb l = Ok s /\
     denote (H := reversed_keys) s 7 = Some 1).
Proof.
  split.
  - exists [mkE 5 5 1]. split_and!; try reflexivity; [simpl; auto|]. intros x. simpl. unfold within.
    simpl. destruct (x <? 5); reflexivity.
  - split_and!; try reflexivity.
    + simpl. split_and!; auto. repeat constructor.
    + exists [mkE 4 10 1]. split; reflexivity.
Qed.

(** ** Concrete runs *)

Lemma Zeqb_law : forall v w, (v =? w) = true <-> v = w.
Proof. exact Z.eqb_eq. Qed.

Definition script1 : list (op (K := Z) (V := Z)) :=
  [OSet 0 0 10 1; OSet 0 3 5 2; OMergeValue 0 4 12 (fun o => Some (default 100 o + 1));
   OMergeSubRange 1 0 2 11; OErase 1 6 7; OCoversRange 1 2 6; OLookup 1 4; OFindNextPoint 1 6].


(** Two ways to store one function. *)
Lemma Coalesce_normal_form_witness : exists s' t',
  Coalesce (HM := opt_build) Z.eqb ([mkE 3 0 1; mkE 5 3 1] : list (Entry Z Z)) = Ok s' /\
  Coalesce (HM := opt_build) Z.eqb ([mkE 1 0 1; mkE 5 1 1] : list (Entry Z Z)) = Ok t' /\
  map_eq Z.eqb s' t' = true.
Proof.
  destruct (Coalesce_normal_form (HM := opt_build) (B := list (Entry Z Z)) Z.eqb Zeqb_law) as [Hc _].
  destruct (Hc [mkE 3 0 1; mkE 5 3 1] [mkE 1 0 1; mkE 5 1 1]) as (s' & t' & Hs & Ht & _ & He).
  - simpl. split_and!; auto. repeat constructor.
  - simpl. split_and!; auto. repeat constructor.
  - exists s', t'. split_and!; auto. apply He. intros x. simpl. unfold within. simpl.
    destruct (Z.ltb_spec x 0), (Z.ltb_spec x 3), (Z.ltb_spec x 1), (Z.ltb_spec x 5); simpl;
      try reflexivity; lia.
Defined.

Lemma MergeValue_calls_witness : exists s' cs,
  MergeValue (HM := debug_build) (recording (fun _ c => c.2)) ([mkE 5 3 1] : list (Entry Z Z)) 0 4 []
    = Ok (s', cs) /\ calls_cover (denote [mkE 5 3 1]) 0 4 cs.
Proof.
  destruct (MergeValue_calls (HM := debug_build) (B := list (Entry Z Z)) (fun _ c => c.2)
    [mkE 5 3 1] 0 4) as (s' & cs & H1 & _ & H2).
  - simpl. auto.
  - reflexivity.
  - exists s', cs. auto.
Defined.
