(* ===== verification/ByteStream.v ===== *)
(** * Byte sources and byte sinks

    [strings/bytestream.h] and [strings/bytestream.cc].  The two abstract classes are
    interfaces over a state type: [ByteSource] with [Available], [Peek] and [Skip], and
    [ByteSink] with [Append] and [Flush].  [ByteSourceLaws] and [ByteSinkLaws] state the
    contracts in the header's comments, in terms of the bytes a source has left and the
    bytes a sink has received; the classes of the file are instances, and [CopyTo] is
    proved against the contracts.  Sizes are natural numbers below the size of the
    address space.  A pointer passed to [Append] is either foreign memory or the buffer
    the sink handed out with [GetAppendBuffer]. *)
From Stdlib Require Import ZArith Lia Bool.
From stdpp Require Import base list.
From S2P Require Import Prelude.
Local Open Scope nat_scope.

(** ** The interfaces *)

Class ByteSource (S : Type) := {
  Available : S -> nat;
  Peek : S -> list Z;
  Skip : S -> nat -> outcome S
}.

(** The region that [Peek] returns counts only up to [Available], so a source may also
    show more than it has. *)
Class ByteSourceLaws (S : Type) `{ByteSource S} := {
  remaining : S -> list Z;
  Available_law s : Available s = length (remaining s);
  Peek_law s : exists n, take (Available s) (Peek s) = take n (remaining s) /\
    (remaining s <> [] -> 0 < n) /\ n <= length (remaining s);
  Skip_law s n : n <= Available s ->
    exists s', Skip s n = Ok s' /\ remaining s' = drop n (remaining s)
}.

Class ByteSink (K : Type) := {
  Append : K -> list Z -> outcome K;
  Flush : K -> K
}.

Class ByteSinkLaws (K : Type) `{ByteSink K} := {
  received : K -> list Z;
  sink_ok : K -> Prop;
  Append_law k l : sink_ok k ->
    exists k', Append k l = Ok k' /\ sink_ok k' /\ received k' = received k ++ l;
  Flush_law k : sink_ok k -> sink_ok (Flush k) /\ received (Flush k) = received k
}.

(** ** CopyTo *)

(** The loop of [ByteSource::CopyTo]; a round takes at least one byte, so [n] rounds
    are enough. *)
Fixpoint CopyTo_loop {S K} `{ByteSource S} `{ByteSink K} (fuel : nat) (s : S) (sink : K)
    (n : nat) : outcome (S * K) :=
  if decide (0 < n) then
    match fuel with
    | O => UB
    | Datatypes.S fuel =>
        let fragment := Peek s in
        if decide (fragment = []) then Ok (s, sink)
        else
          let fragment_size := n `min` length fragment in
          sink ← Append sink (take fragment_size fragment);
          s ← Skip s fragment_size;
          CopyTo_loop fuel s sink (n - fragment_size)
    end
  else Ok (s, sink).

Definition CopyTo {S K} `{ByteSource S} `{ByteSink K} `{BuildMode} (s : S) (sink : K)
    (n : nat) : outcome (S * K) :=
  _ ← DCHECK (n <=? Available s);
  CopyTo_loop n s sink n.

(** ** Sources *)

(** [ArrayByteSource]: the state is [input_]. *)
#[export] Instance ArrayByteSource `{BuildMode} : ByteSource (list Z) := {
  Available := fun input_ => length input_;
  Peek := fun input_ => input_;
  Skip := fun input_ n =>
    _ ← DCHECK (n <=? length input_);
    if decide (n <= length input_) then Ok (drop n input_) else UB
}.

(** [LimitByteSource]: the underlying source, advanced in step, and the limit. *)
Record Limited (S : Type) := mkLimited { source_ : S; limit_ : nat }.
Arguments mkLimited {S}.
Arguments source_ {S}.
Arguments limit_ {S}.

#[export] Instance LimitByteSource {S} `{ByteSource S} `{BuildMode} :
    ByteSource (Limited S) := {
  Available := fun s =>
    let available := Available (source_ s) in
    if limit_ s <? available then limit_ s else available;
  Peek := fun s =>
    let piece := Peek (source_ s) in
    if limit_ s <? length piece then take (limit_ s) piece else piece;
  Skip := fun s n =>
    _ ← DCHECK (n <=? limit_ s);
    u ← Skip (source_ s) n;
    Ok (mkLimited u (limit_ s - n))
}.

Definition Limited_CopyTo {S K} `{ByteSource S} `{ByteSink K} `{BuildMode} (s : Limited S)
    (sink : K) (n : nat) : outcome (Limited S * K) :=
  _ ← DCHECK (n <=? limit_ s);
  '(u, sink) ← CopyTo (source_ s) sink n;
  Ok (mkLimited u (limit_ s - n), sink).

(** ** Sinks *)

(** The first argument of [Append]: foreign bytes, or a pointer to the first unused byte
    of the sink's own buffer, with the number of bytes. *)
Inductive Data := Foreign (bytes : list Z) | Own (n : nat).

Inductive Buffer := Internal (result_capacity : nat) | Scratch (result_capacity : nat).

(** [ByteSink::GetAppendBuffer], which hands out the caller's own buffer. *)
Definition GetAppendBuffer_default (min_capacity scratch_capacity : nat) : outcome Buffer :=
  _ ← CHECK (1 <=? min_capacity);
  _ ← CHECK (min_capacity <=? scratch_capacity);
  Ok (Scratch scratch_capacity).

(** A [memcpy] of [l] to position [p] of a block. *)
Definition copy_in (m : list Z) (p : nat) (l : list Z) : outcome (list Z) :=
  store_bytes m (Z.of_nat p) l.

Module Checked.
Record CheckedArrayByteSink :=
  mk { outbuf_ : list Z; capacity_ : nat; size_ : nat; overflowed_ : bool }.

Definition make (outbuf : list Z) (capacity : nat) : CheckedArrayByteSink :=
  mk outbuf capacity 0 false.

Definition append (k : CheckedArrayByteSink) (data : Data) : outcome CheckedArrayByteSink :=
  let available := capacity_ k - size_ k in
  let n := match data with Foreign l => length l | Own n => n end in
  let '(n, overflowed) :=
    if available <? n then (available, true) else (n, overflowed_ k) in
  m ← match data with
      | Foreign l => if 0 <? n then copy_in (outbuf_ k) (size_ k) (take n l) else Ok (outbuf_ k)
      | Own _ => Ok (outbuf_ k)
      end;
  Ok (mk m (capacity_ k) (size_ k + n) overflowed).

Definition GetAppendBuffer (k : CheckedArrayByteSink) (min_capacity scratch_capacity : nat) :
    outcome Buffer :=
  _ ← CHECK (1 <=? min_capacity);
  _ ← CHECK (min_capacity <=? scratch_capacity);
  let available := capacity_ k - size_ k in
  if min_capacity <=? available then Ok (Internal available) else Ok (Scratch scratch_capacity).

Definition NumberOfBytesWritten (k : CheckedArrayByteSink) : nat := size_ k.
Definition Overflowed (k : CheckedArrayByteSink) : bool := overflowed_ k.
End Checked.

Module Growing.
(** [buf_] is the block, whose first [size_] bytes are in use. *)
Record GrowingArrayByteSink := mk { capacity_ : nat; buf_ : list Z; size_ : nat }.

(** A block of uninitialised bytes; [fresh] gives their arbitrary values. *)
Section sink.
Variable fresh : nat -> list Z.

Definition make (estimated_size : nat) : GrowingArrayByteSink :=
  mk estimated_size (fresh estimated_size) 0.

Definition Expand (k : GrowingArrayByteSink) (amount : nat) : outcome GrowingArrayByteSink :=
  let new_capacity := (capacity_ k + amount) `max` (3 * capacity_ k / 2) in
  let bigger := fresh new_capacity in
  bigger ← copy_in bigger 0 (take (size_ k) (buf_ k));
  Ok (mk new_capacity bigger (size_ k)).

Definition append (k : GrowingArrayByteSink) (data : Data) : outcome GrowingArrayByteSink :=
  let available := capacity_ k - size_ k in
  let n := match data with Foreign l => length l | Own n => n end in
  k ← (if available <? n then Expand k (n - available) else Ok k);
  m ← match data with
      | Foreign l => if 0 <? n then copy_in (buf_ k) (size_ k) l else Ok (buf_ k)
      | Own _ => Ok (buf_ k)
      end;
  Ok (mk (capacity_ k) m (size_ k + n)).

Definition GetAppendBuffer (k : GrowingArrayByteSink)
    (min_capacity desired_capacity_hint scratch_capacity : nat) :
    outcome (GrowingArrayByteSink * Buffer) :=
  _ ← CHECK (1 <=? min_capacity);
  _ ← CHECK (min_capacity <=? scratch_capacity);
  let available := capacity_ k - size_ k in
  if available <? min_capacity then
    k ← Expand k (min_capacity `max` desired_capacity_hint - available);
    Ok (k, Internal (capacity_ k - size_ k))
  else Ok (k, Internal available).

Definition ShrinkToFit (k : GrowingArrayByteSink) : outcome GrowingArrayByteSink :=
  if (256 <? capacity_ k) && (size_ k <? 3 * capacity_ k / 4) then
    just_enough ← copy_in (fresh (size_ k)) 0 (take (size_ k) (buf_ k));
    Ok (mk (size_ k) just_enough (size_ k))
  else Ok k.

(** The block handed over, the number of bytes in it, and the sink afterwards. *)
Definition GetBuffer (k : GrowingArrayByteSink) :
    outcome (list Z * nat * GrowingArrayByteSink) :=
  k ← ShrinkToFit k;
  Ok (buf_ k, size_ k, mk 0 [] 0).
End sink.
End Growing.

Module StringSink.
(** [dest] is the destination string with its capacity. *)
Record StringByteSink :=
  mk { dest_ : list Z; dest_capacity : nat; last_append_buffer_pos_ : option nat }.

Section sink.
(** [reserve] is the capacity after [std::string::reserve], and [fresh] the bytes that an
    uninitialised resize adds; [nontrashing] says whether the string class has one. *)
Variable reserve : nat -> nat -> nat.
Variable fresh : nat -> list Z.
Variable nontrashing : bool.

Definition make (dest : list Z) (cap : nat) : StringByteSink := mk dest cap None.

Definition UndoAppendBuffer (k : StringByteSink) : StringByteSink :=
  match last_append_buffer_pos_ k with
  | Some p => mk (take p (dest_ k)) (dest_capacity k) None
  | None => k
  end.
Definition destroy (k : StringByteSink) : list Z := dest_ (UndoAppendBuffer k).

Definition append (k : StringByteSink) (data : Data) : outcome StringByteSink :=
  match data, last_append_buffer_pos_ k with
  | Own n, Some p =>
      if decide (p + n <= length (dest_ k)) then
        Ok (mk (take (p + n) (dest_ k)) (dest_capacity k) None)
      else UB
  | Own _, None => UB
  | Foreign l, _ =>
      let k := UndoAppendBuffer k in
      let d := dest_ k ++ l in
      Ok (mk d (if dest_capacity k <? length d then reserve (dest_capacity k) (length d)
                else dest_capacity k) None)
  end.

Definition GetAppendBuffer (k : StringByteSink)
    (min_capacity desired_capacity_hint scratch_capacity : nat) :
    outcome (StringByteSink * Buffer) :=
  if negb nontrashing then Ok (k, Scratch scratch_capacity)
  else
    let k := UndoAppendBuffer k in
    let increase_by := min_capacity `max` desired_capacity_hint in
    let current_size := length (dest_ k) in
    let new_size := current_size + increase_by in
    _ ← CHECK (bool_decide (last_append_buffer_pos_ k = None));
    let cap := if dest_capacity k <? new_size
               then reserve (dest_capacity k) (new_size `max` (2 * dest_capacity k))
               else dest_capacity k in
    let d := dest_ k ++ fresh (cap - current_size) in
    Ok (mk d cap (Some current_size), Internal (cap - current_size)).
End sink.
End StringSink.

(** ** Clients of a sink *)

(** A client appends bytes of its own, or asks for a buffer with [min_capacity],
    [desired_capacity_hint] and scratch memory of [scratch_capacity] bytes.  It is told
    the capacity of the buffer and, depending on it, writes bytes there and appends the
    first of them ([Some n]), or leaves the buffer unused ([None]). *)
Inductive client :=
| Direct (l : list Z)
| Buffered (min_capacity desired_capacity_hint scratch_capacity : nat)
           (use : nat -> list Z * option nat).

(** The client's side of the contract: it relies on a capacity of at least
    [min_capacity], never writes more than the capacity it is told and appends only
    bytes that it has written. *)
Definition client_ok (c : client) : Prop :=
  match c with
  | Direct _ => True
  | Buffered min_capacity _ scratch_capacity use =>
      1 <= min_capacity <= scratch_capacity /\
      forall capacity, min_capacity <= capacity ->
        let '(written, n) := use capacity in
        length written <= capacity /\ default 0 n <= length written
  end.

(** The use of a scratch buffer: its bytes are appended as foreign memory. *)
Definition use_scratch {K} (append : K -> Data -> outcome K) (k : K)
    (scratch_capacity : nat) (use : list Z * option nat) : outcome (K * list Z) :=
  let '(written, n) := use in
  if length written <=? scratch_capacity then
    match n with
    | Some n => k ← append k (Foreign (take n written)); Ok (k, take n written)
    | None => Ok (k, [])
    end
  else UB.

(** The use of the sink's own buffer, after the bytes were written there. *)
Definition use_internal {K} (append : K -> Data -> outcome K) (k : K)
    (use : list Z * option nat) : outcome (K * list Z) :=
  let '(written, n) := use in
  match n with
  | Some n => k ← append k (Own n); Ok (k, take n written)
  | None => Ok (k, [])
  end.

(** A step of a client: the sink afterwards and the bytes appended. *)
Definition Checked_step (k : Checked.CheckedArrayByteSink) (c : client) :
    outcome (Checked.CheckedArrayByteSink * list Z) :=
  match c with
  | Direct l => k ← Checked.append k (Foreign l); Ok (k, l)
  | Buffered min_capacity _ scratch_capacity use =>
      b ← Checked.GetAppendBuffer k min_capacity scratch_capacity;
      match b with
      | Internal capacity =>
          m ← copy_in (Checked.outbuf_ k) (Checked.size_ k) (use capacity).1;
          use_internal Checked.append
            (Checked.mk m (Checked.capacity_ k) (Checked.size_ k) (Checked.overflowed_ k))
            (use capacity)
      | Scratch capacity => use_scratch Checked.append k scratch_capacity (use capacity)
      end
  end.

Definition Growing_step (fresh : nat -> list Z) (k : Growing.GrowingArrayByteSink)
    (c : client) : outcome (Growing.GrowingArrayByteSink * list Z) :=
  match c with
  | Direct l => k ← Growing.append fresh k (Foreign l); Ok (k, l)
  | Buffered min_capacity hint scratch_capacity use =>
      '(k, b) ← Growing.GetAppendBuffer fresh k min_capacity hint scratch_capacity;
      match b with
      | Internal capacity =>
          m ← copy_in (Growing.buf_ k) (Growing.size_ k) (use capacity).1;
          use_internal (Growing.append fresh)
            (Growing.mk (Growing.capacity_ k) m (Growing.size_ k)) (use capacity)
      | Scratch capacity =>
          use_scratch (Growing.append fresh) k scratch_capacity (use capacity)
      end
  end.

Definition String_step (reserve : nat -> nat -> nat) (fresh : nat -> list Z)
    (nontrashing : bool) (k : StringSink.StringByteSink) (c : client) :
    outcome (StringSink.StringByteSink * list Z) :=
  match c with
  | Direct l => k ← StringSink.append reserve k (Foreign l); Ok (k, l)
  | Buffered min_capacity hint scratch_capacity use =>
      '(k, b) ← StringSink.GetAppendBuffer reserve fresh nontrashing k min_capacity hint
                  scratch_capacity;
      match b, StringSink.last_append_buffer_pos_ k with
      | Internal capacity, Some p =>
          d ← copy_in (StringSink.dest_ k) p (use capacity).1;
          use_internal (StringSink.append reserve)
            (StringSink.mk d (StringSink.dest_capacity k) (Some p)) (use capacity)
      | Internal _, None => UB
      | Scratch capacity, _ =>
          use_scratch (StringSink.append reserve) k scratch_capacity (use capacity)
      end
  end.

(** The steps of clients one after the other, with all the bytes they appended. *)
Fixpoint run_clients {K} (f : K -> client -> outcome (K * list Z)) (k : K) (l : list client) :
    outcome (K * list Z) :=
  match l with
  | [] => Ok (k, [])
  | c :: l =>
      '(k, b1) ← f k c;
      '(k, b2) ← run_clients f k l;
      Ok (k, b1 ++ b2)
  end.
