(* ===== verification/ByteStreamProps.v ===== *)
(** * Byte streams: the contracts hold

    The sources and sinks of [ByteStream] keep the contracts of their interfaces,
    [CopyTo] moves exactly the bytes asked for, and each sink delivers what its
    clients appended, whether directly or through [GetAppendBuffer], and nothing that they
    wrote to a buffer and did not append. *)
From Stdlib Require Import ZArith Lia Bool.
From stdpp Require Import base list.
From S2P Require Import Prelude.
From S2P Require Import ByteStream.
Local Open Scope nat_scope.

(** ** Sources *)

#[export] Instance ArrayByteSource_laws `{BuildMode} : ByteSourceLaws (list Z).
Proof.
  refine {| remaining := fun l : list Z => l |}; simpl.
  - reflexivity.
  - intros l. exists (length l). split_and!; [reflexivity | | lia].
    destruct l; simpl; [done | lia].
  - intros l n Hn. rewrite (proj2 (Nat.leb_le _ _) Hn), DCHECK_true, bind_Ok.
    destruct (decide _); [eauto | lia].
Defined.

#[export] Instance LimitByteSource_laws {S} `{ByteSource S} `{!ByteSourceLaws S} `{BuildMode} :
  ByteSourceLaws (Limited S).
Proof.
  refine {| remaining := fun s : Limited S => take (limit_ s) (remaining (source_ s)) |};
    simpl.
  - intros s. rewrite Available_law, length_take.
    destruct (Nat.ltb_spec (limit_ s) (length (remaining (source_ s)))); lia.
  - intros [u lim]. simpl. destruct (Peek_law u) as (n & Hn & Hpos & Hle).
    rewrite Available_law in *. set (R := remaining u) in *. set (P := Peek u) in *.
    assert ((if lim <? length P then take lim P else P) = take lim P) as ->.
    { destruct (Nat.ltb_spec lim (length P)); [reflexivity|]. rewrite take_ge; auto. }
    assert ((if lim <? length R then lim else length R) = lim `min` length R) as ->.
    { destruct (Nat.ltb_spec lim (length R)); lia. }
    exists (lim `min` n). rewrite length_take. split_and!; [|intros Hne|lia].
    + rewrite !take_take. transitivity (take lim (take (length R) P)).
      * rewrite take_take. f_equal. lia.
      * rewrite Hn, take_take. f_equal. lia.
    + destruct lim; [done|]. destruct R; [done|]. specialize (Hpos ltac:(done)). lia.
  - intros s n Hn. rewrite Available_law in Hn.
    assert (Hl : n <= limit_ s /\ n <= length (remaining (source_ s))).
    { destruct (Nat.ltb_spec (limit_ s) (length (remaining (source_ s)))); lia. }
    rewrite (proj2 (Nat.leb_le n (limit_ s))), DCHECK_true, bind_Ok by lia.
    destruct (Skip_law (source_ s) n) as (u & -> & Hu); [rewrite Available_law; lia|].
    rewrite bind_Ok. eexists. split; [reflexivity|]. simpl.
    rewrite Hu, skipn_firstn_comm. reflexivity.
Defined.

(** A source in pieces of the given sizes, each shown until it is used up. *)
#[export] Instance PieceByteSource : ByteSource (list (list Z)) := {
  Available := fun s => length (concat s);
  Peek := fun s => match List.filter (fun p => negb (Nat.eqb (length p) 0)) s with
                   | p :: _ => p
                   | [] => []
                   end;
  Skip := fun s n => Ok [drop n (concat s)]
}.

Lemma first_piece s : exists n,
  match List.filter (fun p => negb (Nat.eqb (length p) 0)) s with p :: _ => p | [] => [] end =
    take n (concat s) /\ (concat s <> [] -> 0 < n) /\ n <= length (concat (A := Z) s).
Proof.
  induction s as [|p s IH]; simpl; [exists 0; split_and!; [done | done | simpl; lia]|].
  destruct p as [|b p]; simpl; [exact IH|].
  exists (S (length p)). split_and!; [|lia | rewrite length_app; lia].
  simpl. rewrite take_app_length. reflexivity.
Qed.

#[export] Instance PieceByteSource_laws : ByteSourceLaws (list (list Z)).
Proof.
  refine {| remaining := fun s : list (list Z) => concat s |}; simpl.
  - reflexivity.
  - intros s. destruct (first_piece s) as (n & -> & Hp & Hn). exists n.
    rewrite take_take. split_and!; auto. f_equal. lia.
  - intros s n _. eexists. split; [reflexivity|]. simpl. apply app_nil_r.
Defined.

(** ** CopyTo *)

Section copy.
Context {S K : Type} `{ByteSource S} `{!ByteSourceLaws S} `{ByteSink K} `{!ByteSinkLaws K}.

(** A source that never shows more than it has, as the header requires. *)
Definition honest (s : S) : Prop := length (Peek s) <= Available s.

Lemma Peek_honest s : honest s -> exists n, Peek s = take n (remaining s) /\
  (remaining s <> [] -> 0 < n) /\ n <= length (remaining s).
Proof.
  unfold honest. intros Hh. destruct (Peek_law s) as (n & Hn & Hpos & Hle).
  rewrite take_ge in Hn by auto. eauto.
Qed.

Lemma CopyTo_loop_spec : (forall s, honest s) -> forall fuel s k n,
  n <= fuel -> n <= length (remaining s) -> sink_ok k ->
  exists s' k', CopyTo_loop fuel s k n = Ok (s', k') /\ sink_ok k' /\
    received k' = received k ++ take n (remaining s) /\ remaining s' = drop n (remaining s).
Proof.
  intros Hh. induction fuel as [|fuel IH]; intros s k n Hf Hn Hk; simpl.
  - destruct (decide (0 < n)); [lia|]. exists s, k.
    assert (n = 0) as -> by lia. rewrite take_0, drop_0, app_nil_r. auto.
  - destruct (decide (0 < n)) as [Hpos|Hz].
    2:{ exists s, k. assert (n = 0) as -> by lia. rewrite take_0, drop_0, app_nil_r. auto. }
    destruct (Peek_honest s (Hh s)) as (m & Hm & Hm0 & Hml). rewrite Hm.
    assert (Hne : remaining s <> []) by (intros E; rewrite E in Hn; simpl in Hn; lia).
    specialize (Hm0 Hne). destruct (decide _) as [E|_].
    { apply (f_equal length) in E. rewrite length_take in E. simpl in E.
      destruct (remaining s); [done|]. simpl in E. lia. }
    rewrite length_take, (Nat.min_l m) by auto.
    destruct (Append_law k (take (n `min` m) (take m (remaining s))) Hk)
      as (k1 & -> & Hk1 & Hr1). rewrite bind_Ok.
    destruct (Skip_law s (n `min` m)) as (s1 & -> & Hs1); [rewrite Available_law; lia|].
    rewrite bind_Ok.
    destruct (IH s1 k1 (n - n `min` m)) as (s' & k' & -> & Hk' & Hr & Hs); auto; [lia | |].
    { rewrite Hs1, length_drop. lia. }
    exists s', k'. split_and!; auto.
    + rewrite Hr, Hr1, Hs1, take_take, <- app_assoc. f_equal.
      replace ((n `min` m) `min` m) with (n `min` m) by lia.
      rewrite take_take_drop. f_equal. lia.
    + rewrite Hs, Hs1, drop_drop. f_equal. lia.
Qed.

Lemma CopyTo_spec `{BuildMode} s k n : (forall s, honest s) -> n <= Available s -> sink_ok k ->
  exists s' k', CopyTo s k n = Ok (s', k') /\ sink_ok k' /\
    received k' = received k ++ take n (remaining s) /\ remaining s' = drop n (remaining s).
Proof.
  intros Hh Hn Hk. unfold CopyTo. rewrite (proj2 (Nat.leb_le _ _) Hn), DCHECK_true, bind_Ok.
  rewrite Available_law in Hn. apply CopyTo_loop_spec; auto.
Qed.
End copy.

(** ** Sinks *)

Lemma copy_in_ok m p l : p + length l <= length m ->
  copy_in m p l = Ok (take p m ++ l ++ drop (p + length l) m).
Proof.
  intros Hl. unfold copy_in, store_bytes, zlen.
  assert (((0 <=? Z.of_nat p) && (Z.of_nat p + Z.of_nat (length l) <=? Z.of_nat (length m)))%Z
    = true) as -> by lia.
  rewrite Nat2Z.id. reflexivity.
Qed.

Lemma copy_in_take m p l : p + length l <= length m ->
  exists m', copy_in m p l = Ok m' /\ length m' = length m /\
    take (p + length l) m' = take p m ++ l /\
    forall q, p + length l <= q -> drop q m' = drop q m.
Proof.
  intros Hl. rewrite copy_in_ok by auto. eexists. split; [reflexivity|].
  assert (Htl : length (take p m ++ l) = p + length l).
  { rewrite length_app, length_take. lia. }
  split_and!.
  - rewrite !length_app, length_take, length_drop. lia.
  - rewrite app_assoc, take_app_le by (rewrite length_app, length_take; lia).
    apply take_ge. lia.
  - intros q Hq. rewrite app_assoc, drop_app_ge by lia. rewrite drop_drop. f_equal. lia.
Qed.

(** After the copy, the first bytes of the copy are behind the old contents. *)
Lemma copy_in_prefix m p w : p + length w <= length m ->
  exists m', copy_in m p w = Ok m' /\ length m' = length m /\
    (forall n, n <= length w -> take (p + n) m' = take p m ++ take n w) /\
    forall q, p + length w <= q -> drop q m' = drop q m.
Proof.
  intros Hl. destruct (copy_in_take m p w Hl) as (m' & Hm & Hlen & Ht & Hd).
  exists m'. split_and!; auto. intros n Hn.
  replace (take (p + n) m') with (take (p + n) (take (p + length w) m'))
    by (rewrite take_take; f_equal; lia).
  rewrite Ht, take_app, length_take, (Nat.min_l p) by lia.
  rewrite take_take. do 2 f_equal; lia.
Qed.

(** A script keeps what each step keeps, [P k l] being the state after the bytes [l]. *)
Lemma run_clients_keeps {K} (f : K -> client -> outcome (K * list Z))
    (P : K -> list Z -> Prop) :
  (forall k l c, P k l -> client_ok c -> exists k' b, f k c = Ok (k', b) /\ P k' (l ++ b)) ->
  forall cs k l, P k l -> Forall client_ok cs ->
  exists k' b, run_clients f k cs = Ok (k', b) /\ P k' (l ++ b).
Proof.
  intros Hf cs. induction cs as [|c cs IH]; intros k l Hk Hc; simpl.
  - exists k, []. rewrite app_nil_r. auto.
  - inversion_clear Hc as [|? ? Hc1 Hc2].
    destruct (Hf k l c Hk Hc1) as (k1 & b1 & -> & Hk1). rewrite bind_Ok.
    destruct (IH k1 _ Hk1 Hc2) as (k' & b2 & -> & Hk'). rewrite bind_Ok.
    exists k', (b1 ++ b2). rewrite app_assoc. auto.
Qed.

(** Scratch memory is used through an append of foreign bytes. *)
Lemma use_scratch_keeps {K} (append : K -> Data -> outcome K) (P : K -> list Z -> Prop)
    k l scratch_capacity (use : list Z * option nat) :
  (forall d, exists k', append k (Foreign d) = Ok k' /\ P k' (l ++ d)) -> P k l ->
  length use.1 <= scratch_capacity ->
  exists k' b, use_scratch append k scratch_capacity use = Ok (k', b) /\ P k' (l ++ b).
Proof.
  destruct use as [w [n|]]; simpl; intros Hf Hk Hw; rewrite (proj2 (Nat.leb_le _ _) Hw).
  - destruct (Hf (take n w)) as (k' & -> & Hk'). rewrite bind_Ok. eauto.
  - exists k, []. rewrite app_nil_r. auto.
Qed.

(** *** CheckedArrayByteSink *)

Import Checked.

Definition checked_ok (past : list Z) (k : CheckedArrayByteSink) (l : list Z) : Prop :=
  drop (capacity_ k) (outbuf_ k) = past /\
  capacity_ k <= length (outbuf_ k) /\ size_ k = length l `min` capacity_ k /\
  take (size_ k) (outbuf_ k) = take (capacity_ k) l /\
  overflowed_ k = (capacity_ k <? length l).

Lemma Checked_Foreign past k l d : checked_ok past k l ->
  exists k', append k (Foreign d) = Ok k' /\ capacity_ k' = capacity_ k /\
    checked_ok past k' (l ++ d).
Proof.
  destruct k as [m cap sz ov]. unfold checked_ok, append. simpl. intros (Hp & Hc & Hs & Ht & Ho).
  set (n := length d `min` (cap - sz)).
  assert (Hmn : (if cap - sz <? length d then (cap - sz, true) else (length d, ov)) =
    (n, (cap <? length (l ++ d)))).
  { rewrite length_app. subst n ov.
    destruct (Nat.ltb_spec (cap - sz) (length d)), (Nat.ltb_spec cap (length l)),
      (Nat.ltb_spec cap (length l + length d)); f_equal; lia || reflexivity. }
  rewrite Hmn. clear Hmn.
  destruct (copy_in_take m sz (take n d)) as (m' & Hm' & Hl' & Ht' & Hp').
  { rewrite length_take. lia. }
  assert (Hcopy : exists m'', (if 0 <? n then copy_in m sz (take n d) else Ok m) = Ok m'' /\
    length m'' = length m /\ take (sz + n) m'' = take sz m ++ take n d /\
    drop cap m'' = drop cap m).
  { destruct (Nat.ltb_spec 0 n).
    - exists m'. rewrite length_take, (Nat.min_l n) in Ht' by lia. split_and!; auto.
      apply Hp'. rewrite length_take. lia.
    - exists m. assert (n = 0) as -> by lia. rewrite Nat.add_0_r, take_0, app_nil_r. auto. }
  destruct Hcopy as (m'' & -> & Hl'' & Ht'' & Hp''). rewrite bind_Ok. eexists.
  split; [reflexivity|]. simpl. rewrite length_app. split_and!; auto; [congruence | lia | lia |].
  rewrite Ht'', Ht. rewrite take_app. f_equal. subst n.
  destruct (decide (length l <= cap)).
  - assert (sz = length l) as -> by lia.
    destruct (Nat.le_gt_cases (length d) (cap - length l)).
    + rewrite Nat.min_l, !take_ge by lia. reflexivity.
    + rewrite Nat.min_r by lia. reflexivity.
  - assert (cap - sz = 0) as -> by lia. rewrite Nat.min_0_r.
    assert (cap - length l = 0) as -> by lia. reflexivity.
Qed.

Lemma Checked_step_spec past cap k l c :
  capacity_ k = cap /\ checked_ok past k l -> client_ok c ->
  exists k' b, Checked_step k c = Ok (k', b) /\
    capacity_ k' = cap /\ checked_ok past k' (l ++ b).
Proof.
  intros [Hcap Hk]. assert (HF : forall d, exists k', append k (Foreign d) = Ok k' /\
    capacity_ k' = cap /\ checked_ok past k' (l ++ d)).
  { intros d. rewrite <- Hcap. apply Checked_Foreign. auto. }
  destruct c as [d|mn hint sc use]; simpl; [intros _ | intros [Hmin Huse]].
  { destruct (HF d) as (k' & -> & Hk'). rewrite bind_Ok. eauto. }
  unfold GetAppendBuffer, CHECK.
  rewrite (proj2 (Nat.leb_le 1 mn)), (proj2 (Nat.leb_le mn sc)), !bind_Ok by lia.
  destruct (Nat.leb_spec mn (capacity_ k - size_ k)) as [Hle|Hgt]; rewrite bind_Ok.
  2:{ specialize (Huse sc (proj2 Hmin)).
      apply (use_scratch_keeps append (fun k' l => capacity_ k' = cap /\ checked_ok past k' l));
        auto. destruct (use sc). apply Huse. }
  specialize (Huse _ Hle). destruct (use _) as [w n]. destruct Huse as [Hw Hn]. simpl.
  destruct k as [m c sz ov]. unfold checked_ok, append in *. simpl in *. subst c.
  destruct Hk as (Hp & Hc & Hs & Ht & Ho).
  destruct (copy_in_prefix m sz w) as (m' & -> & Hl' & Ht' & Hp'); [lia|]. rewrite bind_Ok.
  assert (Hend : forall n, n <= length w -> drop cap m' = past /\ cap <= length m' /\
    sz + n = length (l ++ take n w) `min` cap /\
    take (sz + n) m' = take cap (l ++ take n w) /\ ov = (cap <? length (l ++ take n w))).
  { intros i Hi. rewrite Hp', Ht', Ht, length_app, length_take by lia.
    split_and!; auto; [lia | lia | |].
    - rewrite take_app. f_equal. symmetry. apply take_ge. rewrite length_take. lia.
    - subst ov. destruct (Nat.ltb_spec cap (length l)),
        (Nat.ltb_spec cap (length l + i `min` length w)); lia || reflexivity. }
  destruct n as [n|]; simpl in Hn |- *.
  - destruct (Nat.ltb_spec (cap - sz) n); [lia|]. rewrite !bind_Ok.
    eexists _, _. split; [reflexivity|]. simpl. auto.
  - eexists _, _. split; [reflexivity|]. simpl. split; [auto|].
    specialize (Hend 0 ltac:(lia)). rewrite take_0, Nat.add_0_r in Hend. auto.
Qed.

(** *** GrowingArrayByteSink *)

Section growing.
Variable fresh : nat -> list Z.
Hypothesis fresh_length : forall n, length (fresh n) = n.

Definition growing_ok (k : Growing.GrowingArrayByteSink) (l : list Z) : Prop :=
  length (Growing.buf_ k) = Growing.capacity_ k /\ Growing.size_ k = length l /\
  length l <= Growing.capacity_ k /\ take (length l) (Growing.buf_ k) = l.

Lemma Growing_make n : growing_ok (Growing.make fresh n) [].
Proof. unfold growing_ok. simpl. split_and!; auto. lia. Qed.

(** A block of which the first bytes are copied into a larger one. *)
Lemma grow_block c m l : length l <= length m -> take (length l) m = l -> length l <= c ->
  exists b, copy_in (fresh c) 0 (take (length l) m) = Ok b /\ length b = c /\
    take (length l) b = l.
Proof.
  intros Hm Ht Hc. rewrite Ht. destruct (copy_in_take (fresh c) 0 l) as (b & Hb & Hl & Htb & _).
  { rewrite fresh_length. simpl. lia. }
  exists b. rewrite fresh_length in Hl. auto.
Qed.

Lemma Expand_spec k l amount : growing_ok k l ->
  exists k', Growing.Expand fresh k amount = Ok k' /\ growing_ok k' l /\
    Growing.capacity_ k + amount <= Growing.capacity_ k'.
Proof.
  destruct k as [c m sz]. unfold growing_ok, Growing.Expand. cbn -[Nat.div Nat.mul].
  intros (Hm & -> & Hc & Ht). set (c' := (c + amount) `max` (3 * c / 2)).
  destruct (grow_block c' m l) as (b & -> & Hb & Htb); [lia | auto | lia |].
  rewrite bind_Ok. eexists. split; [reflexivity|]. cbn -[Nat.div Nat.mul].
  split_and!; auto; lia.
Qed.

Lemma Growing_reserve k l n : growing_ok k l ->
  exists k', (if Growing.capacity_ k - Growing.size_ k <? n
              then Growing.Expand fresh k (n - (Growing.capacity_ k - Growing.size_ k))
              else Ok k) = Ok k' /\ growing_ok k' l /\ length l + n <= Growing.capacity_ k'.
Proof.
  intros Hk. destruct (Nat.ltb_spec (Growing.capacity_ k - Growing.size_ k) n) as [Hlt|Hge].
  - destruct (Expand_spec k l (n - (Growing.capacity_ k - Growing.size_ k)) Hk)
      as (k' & -> & Hk' & Hc). exists k'. split_and!; auto.
    destruct Hk as (_ & Hs & ? & _). lia.
  - exists k. split_and!; auto. destruct Hk as (_ & Hs & ? & _). lia.
Qed.

Lemma Growing_Foreign k l d : growing_ok k l ->
  exists k', Growing.append fresh k (Foreign d) = Ok k' /\ growing_ok k' (l ++ d).
Proof.
  intros Hk. unfold Growing.append.
  destruct (Growing_reserve k l (length d) Hk) as (k1 & -> & Hk1 & Hc). rewrite bind_Ok.
  destruct k1 as [c m sz]. unfold growing_ok in *. simpl in *.
  destruct Hk1 as (Hm & -> & Hcl & Ht).
  assert (Hcopy : exists m', (if 0 <? length d then copy_in m (length l) d else Ok m) = Ok m' /\
    length m' = c /\ take (length l + length d) m' = l ++ d).
  { destruct (Nat.ltb_spec 0 (length d)).
    - destruct (copy_in_take m (length l) d) as (m' & -> & Hl & Ht' & _); [lia|].
      exists m'. rewrite Ht', Ht. split_and!; auto. lia.
    - destruct d; [|simpl in *; lia]. exists m. rewrite Nat.add_0_r, app_nil_r. auto. }
  destruct Hcopy as (m' & -> & Hl & Htm). rewrite bind_Ok. eexists. split; [reflexivity|].
  simpl. rewrite length_app. split_and!; auto.
Qed.

Lemma Growing_GetAppendBuffer k l mn hint sc : growing_ok k l -> 1 <= mn <= sc ->
  exists k', Growing.GetAppendBuffer fresh k mn hint sc =
      Ok (k', Internal (Growing.capacity_ k' - length l)) /\
    growing_ok k' l /\ length l + mn <= Growing.capacity_ k'.
Proof.
  intros Hk Hmin. unfold Growing.GetAppendBuffer, CHECK.
  rewrite (proj2 (Nat.leb_le 1 mn)), (proj2 (Nat.leb_le mn sc)), !bind_Ok by lia.
  pose proof Hk as (_ & Hs & Hcl & _).
  destruct (Nat.ltb_spec (Growing.capacity_ k - Growing.size_ k) mn).
  - destruct (Expand_spec k l (mn `max` hint - (Growing.capacity_ k - Growing.size_ k)) Hk)
      as (k' & -> & Hk' & Hc). rewrite bind_Ok. exists k'.
    pose proof Hk' as (_ & -> & _ & _). split_and!; auto. lia.
  - exists k. rewrite Hs. split_and!; auto. lia.
Qed.

Lemma Growing_step_spec k l c : growing_ok k l -> client_ok c ->
  exists k' b, Growing_step fresh k c = Ok (k', b) /\ growing_ok k' (l ++ b).
Proof.
  intros Hk. destruct c as [d|mn hint sc use]; simpl; [intros _ | intros [Hmin Huse]].
  { destruct (Growing_Foreign k l d Hk) as (k' & -> & Hk'). rewrite bind_Ok. eauto. }
  destruct (Growing_GetAppendBuffer k l mn hint sc Hk Hmin) as (k1 & -> & Hk1 & Hc).
  rewrite bind_Ok. specialize (Huse (Growing.capacity_ k1 - length l) ltac:(lia)).
  destruct (use _) as [w n]. destruct Huse as [Hw Hn]. simpl.
  destruct k1 as [c m sz]. unfold growing_ok, Growing.append in *. simpl in *.
  destruct Hk1 as (Hm & -> & Hcl & Ht).
  destruct (copy_in_prefix m (length l) w) as (m' & -> & Hl' & Ht' & _); [lia|].
  rewrite bind_Ok. destruct n as [n|]; simpl in Hn |- *.
  - destruct (Nat.ltb_spec (c - length l) n); [lia|]. rewrite !bind_Ok.
    eexists _, _. split; [reflexivity|]. simpl. rewrite length_app, length_take, Nat.min_l by lia.
    rewrite Ht', Ht by lia. split_and!; auto; lia.
  - eexists _, _. split; [reflexivity|]. simpl. rewrite app_nil_r. split_and!; auto; [lia|].
    specialize (Ht' 0 ltac:(lia)). rewrite take_0, app_nil_r, Nat.add_0_r in Ht'. congruence.
Qed.

Lemma GetBuffer_spec k l : growing_ok k l ->
  exists b k', Growing.GetBuffer fresh k = Ok (b, length l, k') /\ take (length l) b = l /\
    growing_ok k' [].
Proof.
  intros Hk. unfold Growing.GetBuffer, Growing.ShrinkToFit.
  destruct k as [c m sz]. unfold growing_ok in *. cbn [Growing.capacity_ Growing.buf_
    Growing.size_] in *. destruct Hk as (Hm & -> & Hcl & Ht).
  destruct (_ && _).
  - destruct (grow_block (length l) m l) as (b & -> & Hb & Htb); [lia | auto | lia |].
    rewrite !bind_Ok. eexists _, _. split; [reflexivity|]. simpl. auto.
  - rewrite bind_Ok. eexists _, _. split; [reflexivity|]. simpl. auto.
Qed.

#[export] Instance GrowingSink : ByteSink Growing.GrowingArrayByteSink := {
  Append k l := Growing.append fresh k (Foreign l);
  Flush k := k
}.

#[export] Instance GrowingSink_laws : ByteSinkLaws Growing.GrowingArrayByteSink.
Proof.
  refine {| received k := take (Growing.size_ k) (Growing.buf_ k);
            sink_ok k := growing_ok k (take (Growing.size_ k) (Growing.buf_ k)) |}; simpl.
  - intros k l Hk. destruct (Growing_Foreign k _ l Hk) as (k' & -> & Hk'). exists k'.
    assert (Hr : take (Growing.size_ k') (Growing.buf_ k') =
      take (Growing.size_ k) (Growing.buf_ k) ++ l).
    { destruct Hk' as (_ & Hs & _ & Ht). rewrite <- Hs in Ht. exact Ht. }
    split; [reflexivity|]. rewrite Hr. auto.
  - auto.
Defined.
End growing.

(** *** StringByteSink *)

Section string.
Variable reserve : nat -> nat -> nat.
Variable fresh : nat -> list Z.
Variable nontrashing : bool.
Hypothesis fresh_length : forall n, length (fresh n) = n.
Hypothesis reserve_enough : forall c n, n <= reserve c n.

(** What the string will be when a buffer that was handed out is taken back. *)
Definition string_ok (k : StringSink.StringByteSink) (l : list Z) : Prop :=
  StringSink.destroy k = l /\ length (StringSink.dest_ k) <= StringSink.dest_capacity k.

Lemma Undo_spec k l : string_ok k l ->
  StringSink.dest_ (StringSink.UndoAppendBuffer k) = l /\
  StringSink.last_append_buffer_pos_ (StringSink.UndoAppendBuffer k) = None /\
  StringSink.dest_capacity (StringSink.UndoAppendBuffer k) = StringSink.dest_capacity k /\
  length l <= StringSink.dest_capacity k.
Proof.
  unfold string_ok, StringSink.destroy, StringSink.UndoAppendBuffer.
  destruct k as [d c [p|]]; simpl; intros [<- Hl]; split_and!; auto.
  rewrite length_take. lia.
Qed.

Lemma String_Foreign k l d : string_ok k l ->
  exists k', StringSink.append reserve k (Foreign d) = Ok k' /\ string_ok k' (l ++ d).
Proof.
  intros Hk. destruct (Undo_spec k l Hk) as (Hd & _ & Hc & Hl).
  eexists. split; [destruct (StringSink.last_append_buffer_pos_ k); reflexivity|].
  unfold string_ok, StringSink.destroy. simpl. rewrite Hd. split; [reflexivity|].
  destruct (Nat.ltb_spec (StringSink.dest_capacity (StringSink.UndoAppendBuffer k))
    (length (l ++ d))); [apply reserve_enough | lia].
Qed.

Lemma String_step_spec k l c : string_ok k l -> client_ok c ->
  exists k' b, String_step reserve fresh nontrashing k c = Ok (k', b) /\ string_ok k' (l ++ b).
Proof.
  intros Hk. destruct c as [d|mn hint sc use]; cbn [String_step client_ok]; [intros _ | intros [Hmin Huse]].
  { destruct (String_Foreign k l d Hk) as (k' & -> & Hk'). rewrite bind_Ok. eauto. }
  unfold StringSink.GetAppendBuffer. destruct nontrashing; cbn [negb].
  2:{ rewrite bind_Ok. specialize (Huse sc (proj2 Hmin)).
      apply use_scratch_keeps; auto; [intros; apply String_Foreign; auto|].
      destruct (use sc). apply Huse. }
  destruct (Undo_spec k l Hk) as (Hd0 & Hpos & Hc & Hl).
  rewrite Hd0, Hpos, Hc. unfold CHECK. rewrite bool_decide_true by reflexivity.
  rewrite !bind_Ok. cbn [StringSink.last_append_buffer_pos_ StringSink.dest_
    StringSink.dest_capacity].
  set (req := length l + mn `max` hint). set (c0 := StringSink.dest_capacity k) in *.
  set (cap := if c0 <? req then reserve c0 (req `max` (2 * c0)) else c0).
  assert (Hcap : req <= cap).
  { subst cap. destruct (Nat.ltb_spec c0 req); [|lia].
    pose proof (reserve_enough c0 (req `max` (2 * c0))). lia. }
  specialize (Huse (cap - length l) ltac:(lia)).
  destruct (use _) as [w n]. destruct Huse as [Hw Hn]. simpl.
  destruct (copy_in_prefix (l ++ fresh (cap - length l)) (length l) w) as (m & -> & Hm & Ht & _).
  { rewrite length_app, fresh_length. lia. }
  rewrite take_app_length in Ht. rewrite length_app, fresh_length in Hm. rewrite bind_Ok.
  unfold string_ok, StringSink.destroy. destruct n as [n|]; simpl in Hn |- *.
  - destruct (decide _); [|lia]. rewrite bind_Ok. eexists _, _. split; [reflexivity|]. simpl.
    rewrite Ht by lia. split; [reflexivity|]. rewrite length_app, length_take. lia.
  - eexists _, _. split; [reflexivity|]. simpl. split; [|lia].
    specialize (Ht 0 ltac:(lia)). rewrite take_0, Nat.add_0_r in Ht. exact Ht.
Qed.

#[export] Instance StringSink_ : ByteSink StringSink.StringByteSink := {
  Append k l := StringSink.append reserve k (Foreign l);
  Flush k := k
}.

#[export] Instance StringSink_laws : ByteSinkLaws StringSink.StringByteSink.
Proof.
  refine {| received k := StringSink.destroy k;
            sink_ok k := string_ok k (StringSink.destroy k) |}; simpl.
  - intros k l Hk. destruct (String_Foreign k _ l Hk) as (k' & Ha & Hk'). exists k'.
    assert (Hr : StringSink.destroy k' = StringSink.destroy k ++ l) by apply Hk'.
    split; [exact Ha|]. rewrite Hr. auto.
  - auto.
Defined.
End string.

(** ** Properties *)

(** C36. Clients append bytes of their own, or ask for a buffer, write there up to the
    capacity they are told, and append any first part of what they wrote or leave the
    buffer unused.  Whatever they do, no write leaves a buffer, a [GrowingArrayByteSink]
    hands over exactly the bytes that were appended, and a [StringByteSink] leaves them,
    and nothing of unused buffers, behind the original contents of the string, for any
    growth policy of the string class and any contents of fresh memory; a
    [CheckedArrayByteSink] writes the bytes that fit its capacity, nothing past it, and
    reports an overflow exactly when bytes were dropped. *)
Theorem sinks_deliver (fresh : nat -> list Z) (reserve : nat -> nat -> nat)
    (nontrashing : bool) (cs : list client) :
  (forall n, length (fresh n) = n) -> (forall c n, n <= reserve c n) -> Forall client_ok cs ->
  (forall estimated_size, exists k bytes b k',
     run_clients (Growing_step fresh) (Growing.make fresh estimated_size) cs = Ok (k, bytes) /\
     Growing.GetBuffer fresh k = Ok (b, length bytes, k') /\
     take (length bytes) b = bytes) /\
  (forall dest cap, length dest <= cap -> exists k bytes,
     run_clients (String_step reserve fresh nontrashing) (StringSink.make dest cap) cs =
       Ok (k, bytes) /\
     StringSink.destroy k = dest ++ bytes) /\
  (forall outbuf capacity, capacity <= length outbuf -> exists k bytes,
     run_clients Checked_step (Checked.make outbuf capacity) cs = Ok (k, bytes) /\
     take (Checked.NumberOfBytesWritten k) (Checked.outbuf_ k) = take capacity bytes /\
     drop capacity (Checked.outbuf_ k) = drop capacity outbuf /\
     Checked.NumberOfBytesWritten k = length bytes `min` capacity /\
     (Checked.Overflowed k = true <-> capacity < length bytes)).
Proof.
  intros Hf Hr Hc. split_and!.
  - intros n. destruct (run_clients_keeps _ growing_ok (Growing_step_spec fresh Hf) cs _ []
      (Growing_make fresh Hf n) Hc) as (k & bytes & Hk & Hok).
    destruct (GetBuffer_spec fresh Hf k _ Hok) as (b & k' & Hb & Ht & _).
    exists k, bytes, b, k'. auto.
  - intros dest cap Hd. destruct (run_clients_keeps _ string_ok
      (String_step_spec reserve fresh nontrashing Hf Hr) cs (StringSink.make dest cap) dest)
      as (k & bytes & Hk & Hok); [split; auto | auto |].
    exists k, bytes. split; [auto|]. apply Hok.
  - intros outbuf capacity Hcap.
    destruct (run_clients_keeps _
      (fun k l => capacity_ k = capacity /\ checked_ok (drop capacity outbuf) k l)
      (Checked_step_spec (drop capacity outbuf) capacity) cs
      (Checked.make outbuf capacity) []) as (k & bytes & Hk & Hcc & Hok); [| auto |].
    { unfold checked_ok. simpl. rewrite take_nil. split_and!; auto; lia. }
    exists k, bytes. split; [auto|]. simpl in Hok. destruct Hok as (Hp & _ & Hs & Ht & Ho).
    rewrite Hcc in *. unfold Checked.NumberOfBytesWritten, Checked.Overflowed.
    rewrite Ho. split_and!; auto. apply Nat.ltb_lt.
Qed.

(** Clients that fill the whole buffer and append two bytes of it, that leave a filled
    buffer unused at the end, and that leave one unused before a direct append. *)
Definition demo_clients : list client :=
  [Direct [1; 2]; Buffered 2 10 4 (fun c => ([3; 4] ++ repeat 9 (c - 2), Some 2%nat));
   Buffered 1 0 1 (fun c => (repeat 9 c, None)); Direct [5];
   Buffered 3 0 3 (fun c => (repeat 9 c, None))]%Z.

Lemma sinks_deliver_witness :
  (exists k bytes, run_clients (String_step (fun c n => c `max` n) (repeat 7%Z) true)
      (StringSink.make [0]%Z 6) demo_clients = Ok (k, bytes) /\
    StringSink.dest_ k = [0; 1; 2; 3; 4; 5; 9; 9; 9; 9; 9; 9; 9]%Z /\
    StringSink.destroy k = [0]%Z ++ bytes /\ bytes = [1; 2; 3; 4; 5]%Z) /\
  exists k bytes, run_clients Checked_step (Checked.make [0; 0; 0; 0; 0]%Z 4) demo_clients =
      Ok (k, bytes) /\
    take (Checked.NumberOfBytesWritten k) (Checked.outbuf_ k) = take 4 bytes /\
    drop 4 (Checked.outbuf_ k) = [0]%Z /\
    Checked.NumberOfBytesWritten k = length bytes `min` 4 /\
    (Checked.Overflowed k = true <-> 4 < length bytes).
Proof.
  destruct (sinks_deliver (repeat 7%Z) (fun c n => c `max` n) true demo_clients)
    as (_ & Hs & Hc).
  - intros n. apply repeat_length.
  - intros c n. lia.
  - repeat apply Forall_cons_2; try apply Forall_nil_2; cbn [client_ok]; try exact I;
      (split; [lia | intros c Hc; simpl; rewrite ?repeat_length; lia]).
  - split; [|apply (Hc [0; 0; 0; 0; 0]%Z 4); simpl; lia].
    destruct (Hs [0]%Z 6) as (k & bytes & Hk & Hd); [simpl; lia|].
    exists k, bytes. split; [exact Hk|]. split; [|split; [exact Hd|]];
      vm_compute in Hk; injection Hk as <- <-; reflexivity.
Defined.
