(* ===== verification/SplitText.v ===== *)
(** * Splitting and joining text

    What the code relies on of [absl::StrSplit] with a character for the separator, and
    the function that satisfies it. *)
From Stdlib Require Import ZArith Lia.
From stdpp Require Import base list.
From S2P Require Import Prelude.
Local Open Scope Z_scope.

(** Joining pieces with a separator. *)
Fixpoint join_with (sep : Z) (l : list (list Z)) : list Z :=
  match l with
  | [] => []
  | [p] => p
  | p :: l => p ++ sep :: join_with sep l
  end.

Definition free (sep : Z) (p : list Z) : Prop := Forall (fun c => c <> sep) p.

(** The pieces are free of the separator, there is at least one, and they join to the
    text. *)
Definition split_law (StrSplit : list Z -> Z -> list (list Z)) : Prop := forall s sep,
  StrSplit s sep <> [] /\ join_with sep (StrSplit s sep) = s /\
  Forall (fun p => Forall (fun c => c <> sep) p) (StrSplit s sep).

(** Splitting at every separator. *)
Fixpoint split_at (s : list Z) (sep : Z) : list (list Z) :=
  match s with
  | [] => [[]]
  | c :: r =>
      if c =? sep then [] :: split_at r sep
      else match split_at r sep with p :: ps => (c :: p) :: ps | [] => [[c]] end
  end.

Lemma split_at_law : split_law split_at.
Proof.
  intros s sep. induction s as [|c s (IH1 & IH2 & IH3)]; simpl.
  - split_and!; [done | reflexivity | repeat constructor].
  - destruct (Z.eqb_spec c sep) as [->|Hc].
    + split_and!; [done | | constructor; auto]. destruct (split_at s sep) as [|p ps]; [done|].
      simpl in *. rewrite IH2. reflexivity.
    + destruct (split_at s sep) as [|p ps]; [done|]. inversion_clear IH3.
      split_and!; [done | | constructor; auto]. destruct ps; simpl in *; rewrite <- IH2; reflexivity.
Qed.

(** The law leaves one choice. *)
Lemma split_at_join sep l : l <> [] -> Forall (free sep) l -> split_at (join_with sep l) sep = l.
Proof.
  induction l as [|p l IH]; [done|]. intros _ Hf. inversion_clear Hf as [|? ? Hp Hl].
  assert (Hend : split_at p sep = [p]).
  { clear IH Hl. induction Hp as [|c p Hc Hp IHp]; [reflexivity|]. simpl.
    rewrite (proj2 (Z.eqb_neq _ _) Hc), IHp. reflexivity. }
  destruct l as [|q l]; [exact Hend|].
  change (join_with sep (p :: q :: l)) with (p ++ sep :: join_with sep (q :: l)).
  specialize (IH ltac:(done) Hl). clear Hend.
  induction Hp as [|c p Hc Hp IHp]; cbn [split_at app]; [rewrite Z.eqb_refl; congruence|].
  rewrite (proj2 (Z.eqb_neq _ _) Hc), IHp. reflexivity.
Qed.

Lemma split_unique StrSplit s sep : split_law StrSplit -> StrSplit s sep = split_at s sep.
Proof.
  intros Hs. destruct (Hs s sep) as (Hn & Hj & Hf). rewrite <- Hj at 2.
  rewrite split_at_join; auto.
Qed.
