(* ===== verification/Csv.v ===== *)
(** * The CSV parser and writer

    [util/csv/parser.h], [parser.cc], [writer.h] and [writer.cc], on any [ByteSource] and
    [ByteSink].  A parser keeps the region it is reading in [current_str_] and skips it in
    the source only when it is used up; [delim] and [mode] are its constants.  Both loops
    consume the source, so the bytes it has left bound their rounds.  [absl::StrSplit] is
    not part of the repository and is an argument of the writer. *)
From Stdlib Require Import ZArith Lia Bool.
From stdpp Require Import base list gmap.
From S2P Require Import Prelude.
From S2P Require Import ByteStream.
Local Open Scope Z_scope.

Definition LF : Z := 10.
Definition CR : Z := 13.
Definition QUOTE : Z := 34.
Definition BACKSLASH : Z := 92.

Inductive ParseState :=
  FIELD_START | IN_FIELD | IN_QUOTED_FIELD | QUOTED_QUOTE | QUOTED_BACKSLASH_ESCAPE
  | ERROR | END_OF_RECORD.
Inductive Mode := RFC4180 | LITERAL_QUOTES | MYSQL_ESCAPING.
#[global] Instance ParseState_eq_dec : EqDecision ParseState.
Proof. solve_decision. Defined.
#[global] Instance Mode_eq_dec : EqDecision Mode.
Proof. solve_decision. Defined.

(** [absl::Status], as the parser and the writer use it. *)
Inductive Status := OkStatus | InvalidArgumentError (expected got : nat).

Record Record_ := mkRecord { status_ : Status; number_ : Z; fields_ : list (list Z) }.
Definition new_record (number : Z) : Record_ := mkRecord OkStatus number [].
Definition push_field (r : Record_) (f : list Z) : Record_ :=
  mkRecord (status_ r) (number_ r) (fields_ r ++ [f]).

Section parser.
Context {S : Type} `{ByteSource S} `{BuildMode}.
Variables (delim : Z) (mode : Mode).

Record Parser := mkParser {
  source_ : S;
  orig_str_size_ : nat;
  current_str_ : list Z;
  record_ : Record_;
  has_more_data_ : bool;
  record_count_ : Z
}.

Definition set_current (p : Parser) (l : list Z) : Parser :=
  mkParser (source_ p) (orig_str_size_ p) l (record_ p) (has_more_data_ p) (record_count_ p).
Definition set_record (p : Parser) (r : Record_) : Parser :=
  mkParser (source_ p) (orig_str_size_ p) (current_str_ p) r (has_more_data_ p)
    (record_count_ p).
Definition set_no_more (p : Parser) : Parser :=
  mkParser (source_ p) (orig_str_size_ p) (current_str_ p) (record_ p) false (record_count_ p).

Definition PopulateCurrentString (p : Parser) : outcome (Parser * bool) :=
  s ← Skip (source_ p) (orig_str_size_ p);
  let avail := Available s in
  if Nat.eqb avail 0 then
    Ok (mkParser s 0 (current_str_ p) (record_ p) (has_more_data_ p) (record_count_ p), false)
  else
    let cur := Peek s in
    let cur := if Nat.ltb avail (length cur) then take avail cur else cur in
    Ok (mkParser s (length cur) cur (record_ p) (has_more_data_ p) (record_count_ p), true).

(** [current_str_.empty() && !PopulateCurrentString()]. *)
Definition at_eof (p : Parser) : outcome (Parser * bool) :=
  match current_str_ p with
  | [] => '(p, more) ← PopulateCurrentString p; Ok (p, negb more)
  | _ :: _ => Ok (p, false)
  end.

(** [current_str_[0]] followed by [remove_prefix(1)]. *)
Definition take_char (p : Parser) : outcome (Parser * Z) :=
  match current_str_ p with
  | [] => UB
  | c :: r => Ok (set_current p r, c)
  end.

Definition peek_char (p : Parser) : outcome Z :=
  match current_str_ p with [] => UB | c :: _ => Ok c end.

(** The next character, with the newline forms folded into one. *)
Definition next_char (p : Parser) : outcome (Parser * Z) :=
  '(p, c) ← take_char p;
  if c =? CR then
    '(p, eof) ← at_eof p;
    if (eof : bool) then Ok (p, LF)
    else
      d ← peek_char p;
      if d =? LF then '(p, _) ← take_char p; Ok (p, LF) else Ok (p, LF)
  else Ok (p, c).

(** The state machine: the record, the current field and the new state. *)
Definition transition (r : Record_) (current_field : list Z) (state : ParseState) (c : Z) :
    outcome (Record_ * list Z * ParseState) :=
  match state with
  | FIELD_START =>
      _ ← DCHECK (bool_decide (current_field = []));
      if negb (bool_decide (mode = LITERAL_QUOTES)) && (c =? QUOTE) then
        Ok (r, current_field, IN_QUOTED_FIELD)
      else if c =? delim then Ok (push_field r current_field, [], FIELD_START)
      else if c =? LF then Ok (push_field r current_field, current_field, END_OF_RECORD)
      else Ok (r, current_field ++ [c], IN_FIELD)
  | IN_FIELD =>
      if negb (bool_decide (mode = LITERAL_QUOTES)) && (c =? QUOTE) then
        Ok (r, current_field, IN_QUOTED_FIELD)
      else if c =? delim then Ok (push_field r current_field, [], FIELD_START)
      else if c =? LF then Ok (push_field r current_field, current_field, END_OF_RECORD)
      else Ok (r, current_field ++ [c], IN_FIELD)
  | IN_QUOTED_FIELD =>
      _ ← DCHECK (negb (bool_decide (mode = LITERAL_QUOTES)));
      if c =? QUOTE then Ok (r, current_field, QUOTED_QUOTE)
      else if (c =? BACKSLASH) && bool_decide (mode = MYSQL_ESCAPING) then
        Ok (r, current_field, QUOTED_BACKSLASH_ESCAPE)
      else Ok (r, current_field ++ [c], IN_QUOTED_FIELD)
  | QUOTED_BACKSLASH_ESCAPE =>
      _ ← DCHECK (bool_decide (mode = MYSQL_ESCAPING));
      Ok (r, current_field ++ [c], IN_QUOTED_FIELD)
  | QUOTED_QUOTE =>
      _ ← DCHECK (negb (bool_decide (mode = LITERAL_QUOTES)));
      if (c =? QUOTE) && negb (bool_decide (mode = MYSQL_ESCAPING)) then
        Ok (r, current_field ++ [QUOTE], IN_QUOTED_FIELD)
      else if c =? delim then Ok (push_field r current_field, [], FIELD_START)
      else if c =? LF then Ok (push_field r current_field, current_field, END_OF_RECORD)
      else Ok (r, current_field ++ [c], IN_FIELD)
  | ERROR | END_OF_RECORD => Ok (r, current_field, state)
  end.

(** After an error, the rest of the line is read. *)
Fixpoint skip_line (fuel : nat) (p : Parser) (c : Z) : outcome Parser :=
  if negb ((c =? LF) || (c =? CR)) then
    match fuel with
    | O => UB
    | Datatypes.S fuel =>
        '(p, eof) ← at_eof p;
        if (eof : bool) then Ok p else '(p, c) ← take_char p; skip_line fuel p c
    end
  else Ok p.

(** The bytes left to read, at most. *)
Definition read_fuel (p : Parser) : nat := length (current_str_ p) + Available (source_ p).

(** At the end of the input, the last field counts unless the line is empty. *)
Definition end_of_input (p : Parser) (current_field : list Z) : Parser :=
  let p :=
    if negb (bool_decide (current_field = [])) || negb (bool_decide (fields_ (record_ p) = []))
    then set_record p (push_field (record_ p) current_field) else p in
  if negb (bool_decide (fields_ (record_ p) = [])) then p else set_no_more p.

Fixpoint Advance_loop (fuel : nat) (p : Parser) (state : ParseState)
    (current_field : list Z) : outcome Parser :=
  match state with
  | ERROR | END_OF_RECORD => Ok p
  | _ =>
      '(p, eof) ← at_eof p;
      if (eof : bool) then Ok (end_of_input p current_field)
      else
        match fuel with
        | O => UB
        | Datatypes.S fuel =>
            '(p, c) ← next_char p;
            '(r, current_field, state) ← transition (record_ p) current_field state c;
            let p := set_record p r in
            p ← (if bool_decide (state = ERROR) then skip_line (read_fuel p) p c else Ok p);
            Advance_loop fuel p state current_field
        end
  end.

Definition Advance (p : Parser) : outcome Parser :=
  let p := mkParser (source_ p) (orig_str_size_ p) (current_str_ p)
             (new_record (record_count_ p)) (has_more_data_ p) (record_count_ p + 1) in
  Advance_loop (read_fuel p) p FIELD_START [].

(** The constructor: the parser and the [is_end_] of [begin_iter_]. *)
Definition make_parser (s : S) : outcome (Parser * bool) :=
  let is_end := Nat.eqb (Available s) 0 in
  p ← Advance (mkParser s 0 [] (new_record 0) true 0);
  Ok (p, is_end).

(** An iterator is its [is_end_]; [operator==] and [operator++]. *)
Definition iter_eq (p : Parser) (is_end that_is_end : bool) : bool :=
  Bool.eqb (is_end || negb (has_more_data_ p)) (that_is_end || negb (has_more_data_ p)).
Definition iter_incr (p : Parser) (is_end : bool) : outcome (Parser * bool) :=
  p ← Advance p;
  Ok (p, if negb (has_more_data_ p) then true else is_end).

(** [std::vector<Record> results(parser.begin(), parser.end())]. *)
Fixpoint collect (fuel : nat) (p : Parser) (it : bool) : outcome (list Record_) :=
  if negb (iter_eq p it true) then
    match fuel with
    | O => UB
    | Datatypes.S fuel =>
        let r := record_ p in
        '(p, it) ← iter_incr p it;
        rs ← collect fuel p it;
        Ok (r :: rs)
    end
  else Ok [].

Definition parse_all (s : S) : outcome (list Record_) :=
  '(p, begin_iter) ← make_parser s;
  collect (Available s) p begin_iter.
End parser.
Arguments Parser : clear implicits.

Definition ParseLine `{BuildMode} (line : list Z) (delim : Z) (mode : Mode) : outcome Record_ :=
  let line := if bool_decide (line = []) then [LF] else line in
  '(p, _) ← make_parser delim mode (S := list Z) line;
  Ok (record_ p).

(** ** The writer *)

Section writer.
Context {K : Type} `{ByteSink K}.
Variable StrSplit : list Z -> Z -> list (list Z).

Definition find_first_of (field chars : list Z) : bool :=
  existsb (fun c => existsb (Z.eqb c) chars) field.

Fixpoint write_pieces (sink : K) (qq : list Z) (pieces : list (list Z)) : outcome K :=
  match pieces with
  | [] => Ok sink
  | sp :: rest =>
      sink ← Append sink qq;
      sink ← Append sink sp;
      write_pieces sink [QUOTE; QUOTE] rest
  end.

Definition StandardFieldFormatter (field_delimiter : Z) (field : list Z) (sink : K) :
    outcome K :=
  let quotable_chars := [field_delimiter; QUOTE; LF; CR] in
  let quote_field := find_first_of field quotable_chars in
  sink ← (if quote_field then Append sink [QUOTE] else Ok sink);
  sink ← write_pieces sink [] (StrSplit field QUOTE);
  if quote_field then Append sink [QUOTE] else Ok sink.

Record Writer := mkWriter {
  sink_ : K;
  num_fields_ : nat;
  field_delimiter_ : Z;
  record_delimiter_ : list Z;
  writer_status_ : Status;
  auto_flush_ : bool;
  field_formatter_ : list Z -> K -> outcome K
}.

Definition make_writer_with (num_fields : nat) (field_delimiter : Z) (sink : K)
    (field_formatter : list Z -> K -> outcome K) : Writer :=
  mkWriter sink num_fields field_delimiter [LF] OkStatus true field_formatter.
Definition make_writer (num_fields : nat) (field_delimiter : Z) (sink : K) : Writer :=
  make_writer_with num_fields field_delimiter sink (StandardFieldFormatter field_delimiter).

Definition SetCRLFRecordDelimiter (w : Writer) (use_crlf : bool) : Writer :=
  mkWriter (sink_ w) (num_fields_ w) (field_delimiter_ w)
    (if use_crlf then [CR; LF] else [LF]) (writer_status_ w) (auto_flush_ w)
    (field_formatter_ w).
Definition SetAutoFlush (w : Writer) (auto_flush : bool) : Writer :=
  mkWriter (sink_ w) (num_fields_ w) (field_delimiter_ w) (record_delimiter_ w)
    (writer_status_ w) auto_flush (field_formatter_ w).
Definition set_sink (w : Writer) (k : K) (st : Status) : Writer :=
  mkWriter k (num_fields_ w) (field_delimiter_ w) (record_delimiter_ w) st (auto_flush_ w)
    (field_formatter_ w).

Fixpoint write_fields (w : Writer) (sink : K) (first : bool) (l : list (list Z)) : outcome K :=
  match l with
  | [] => Ok sink
  | f :: l =>
      sink ← (if first then Ok sink else Append sink [field_delimiter_ w]);
      sink ← field_formatter_ w f sink;
      write_fields w sink false l
  end.

(** A record is a sequence or a map from field names. *)
Inductive Input := Seq (l : list (list Z)) | Map (m : gmap (list Z) (list Z)).
Definition Order : Type := Input -> outcome (list (list Z)).

(** A map does not convert to a sequence, so [DefaultOrder] does not take one. *)
Definition DefaultOrder : Order := fun r => match r with Seq l => Ok l | Map _ => UB end.
Definition HeaderOrder (headers : list (list Z)) : Order :=
  fun r => match r with
           | Seq l => Ok l
           | Map m => Ok (omap (fun field_name => m !! field_name) headers)
           end.

Definition WriteRecord (order : Order) (w : Writer) (record : Input) :
    outcome (Writer * Status) :=
  ordered_record ← order record;
  if negb (Nat.eqb (num_fields_ w) (length ordered_record)) then
    let st := InvalidArgumentError (num_fields_ w) (length ordered_record) in
    Ok (set_sink w (sink_ w) st, st)
  else
    sink ← write_fields w (sink_ w) true ordered_record;
    sink ← Append sink (record_delimiter_ w);
    let sink := if auto_flush_ w then Flush sink else sink in
    Ok (set_sink w sink OkStatus, OkStatus).
End writer.

(** [WriteRecordToString], on a [StringByteSink] over the string [out]. *)
Definition WriteRecordToString `{ByteSink StringSink.StringByteSink}
    (StrSplit : list Z -> Z -> list (list Z)) (record : list (list Z)) (field_delimiter : Z) :
    outcome (list Z) :=
  '(w, st) ← WriteRecord DefaultOrder
    (make_writer StrSplit (length record) field_delimiter (StringSink.make [] 0)) (Seq record);
  _ ← CHECK (match st with OkStatus => true | _ => false end);
  let out := StringSink.destroy (sink_ w) in
  match length out with O => UB | Datatypes.S n => Ok (take n out) end.
