(* ===== verification/CsvProps.v ===== *)
(** * The CSV parser reads the text, not its pieces

    [documented] reads a text as the comments of [parser.h] say: every character is
    text, a mark that quotes or escapes, the end of a field or the end of a record.  For
    the proof, [run_record] runs the state machine of [Advance], its end of input
    included, over a whole text: the parser, whatever pieces its source hands out, gives
    the records of [run_records], and these are the documented ones but for one case. *)
From Stdlib Require Import ZArith Lia Bool.
From stdpp Require Import base list.
From S2P Require Import Prelude.
From S2P Require Import ByteStream.
From S2P Require Import ByteStreamProps.
From S2P Require Import Csv.
Local Open Scope Z_scope.

(** ** The reference *)

(** ["\r\n"] and ["\r"] count as ["\n"], also inside quotes. *)
Fixpoint norm (l : list Z) : list Z :=
  match l with
  | [] => []
  | c :: r =>
      if c =? CR then
        LF :: match r with
              | d :: r' => if d =? LF then norm r' else norm r
              | [] => []
              end
      else c :: norm r
  end.

(** The text behind a carriage return, without the line feed that belongs to it. *)
Definition after_cr (l : list Z) : list Z :=
  match l with d :: r' => if d =? LF then r' else l | [] => [] end.

Lemma norm_cr l : norm (CR :: l) = LF :: norm (after_cr l).
Proof. simpl. destruct l as [|d l]; [reflexivity|]. simpl. destruct (d =? LF); reflexivity. Qed.

Lemma norm_other c l : c <> CR -> norm (c :: l) = c :: norm l.
Proof. intros Hc. simpl. destruct (Z.eqb_spec c CR); [done | reflexivity]. Qed.

Lemma after_cr_length l : (length (after_cr l) <= length l)%nat.
Proof. destruct l as [|d l]; simpl; [lia|]. destruct (d =? LF); simpl; lia. Qed.

Lemma norm_length l : (length (norm l) <= length l)%nat.
Proof.
  remember (length l) as n eqn:En. assert (Hn : (length l <= n)%nat) by lia. clear En.
  revert l Hn. induction n as [|n IH]; intros [|c l] Hl; simpl in *; try lia.
  destruct (c =? CR); simpl; [|specialize (IH l ltac:(lia)); lia].
  destruct l as [|d l]; simpl in *; [lia|].
  destruct (d =? LF); [specialize (IH l ltac:(lia)) | specialize (IH (d :: l) ltac:(simpl; lia))];
    simpl in *; lia.
Qed.

(** A character is a part of a field, a mark that only quotes or escapes, or ends a
    field or a record. *)
Inductive token := Lit (c : Z) | Mark | Sep | End.
#[global] Instance token_eq_dec : EqDecision token.
Proof. solve_decision. Defined.

(** Not in quotes; in quotes; behind a quote in quotes; behind a backslash in quotes. *)
Inductive quoting := Plain | Quoted | Closing | Escaped.

Section spec.
Variables (delim : Z) (mode : Mode).

Definition lex_char (q : quoting) (c : Z) : token * quoting :=
  let plain :=
    if c =? delim then (Sep, Plain) else if c =? LF then (End, Plain) else (Lit c, Plain) in
  match q with
  | Plain =>
      if (c =? QUOTE) && negb (bool_decide (mode = LITERAL_QUOTES)) then (Mark, Quoted)
      else plain
  | Quoted =>
      if c =? QUOTE then (Mark, Closing)
      else if (c =? BACKSLASH) && bool_decide (mode = MYSQL_ESCAPING) then (Mark, Escaped)
      else (Lit c, Quoted)
  | Closing =>
      if (c =? QUOTE) && negb (bool_decide (mode = MYSQL_ESCAPING)) then (Lit QUOTE, Quoted)
      else plain
  | Escaped => (Lit c, Quoted)
  end.

Fixpoint lex (q : quoting) (t : list Z) : list token :=
  match t with
  | [] => []
  | c :: t => let '(k, q) := lex_char q c in k :: lex q t
  end.

(** The lines that an [End] ends, and what follows the last of them. *)
Fixpoint lines (l : list token) : list (list token) * list token :=
  match l with
  | [] => ([], [])
  | End :: l => let '(ls, last) := lines l in ([] :: ls, last)
  | k :: l =>
      match lines l with
      | (l1 :: ls, last) => ((k :: l1) :: ls, last)
      | ([], last) => ([], k :: last)
      end
  end.

Definition put_first (cur : list Z) (fs : list (list Z)) : list (list Z) :=
  match fs with f :: fs => (cur ++ f) :: fs | [] => [cur] end.

(** The fields of a line are separated by [Sep]; an empty line has one empty field. *)
Fixpoint fields_of (l : list token) : list (list Z) :=
  match l with
  | [] => [[]]
  | Lit c :: l => put_first [c] (fields_of l)
  | Sep :: l => [] :: fields_of l
  | _ :: l => fields_of l
  end.

(** The records of a text as [parser.h] describes them: the newline of the last one may
    be missing, and an empty text has none. *)
Definition documented (t : list Z) : list (list (list Z)) :=
  let '(ls, last) := lines (lex Plain (norm t)) in
  map fields_of ls ++ if bool_decide (last = []) then [] else [fields_of last].

(** The text ends without a newline in a line that is nothing but quotes around nothing. *)
Definition ends_in_empty_quotes (t : list Z) : bool :=
  let last := (lines (lex Plain (norm t))).2 in
  negb (bool_decide (last = [])) && bool_decide (fields_of last = [[]]).

(** The state machine without its checks: fields, current field and state. *)
Definition trans (fields : list (list Z)) (cur : list Z) (state : ParseState) (c : Z) :
    list (list Z) * list Z * ParseState :=
  let delimit :=
    if c =? delim then (fields ++ [cur], [], FIELD_START)
    else if c =? LF then (fields ++ [cur], cur, END_OF_RECORD)
    else (fields, cur ++ [c], IN_FIELD) in
  match state with
  | FIELD_START | IN_FIELD =>
      if negb (bool_decide (mode = LITERAL_QUOTES)) && (c =? QUOTE) then
        (fields, cur, IN_QUOTED_FIELD)
      else delimit
  | IN_QUOTED_FIELD =>
      if c =? QUOTE then (fields, cur, QUOTED_QUOTE)
      else if (c =? BACKSLASH) && bool_decide (mode = MYSQL_ESCAPING) then
        (fields, cur, QUOTED_BACKSLASH_ESCAPE)
      else (fields, cur ++ [c], IN_QUOTED_FIELD)
  | QUOTED_BACKSLASH_ESCAPE => (fields, cur ++ [c], IN_QUOTED_FIELD)
  | QUOTED_QUOTE =>
      if (c =? QUOTE) && negb (bool_decide (mode = MYSQL_ESCAPING)) then
        (fields, cur ++ [QUOTE], IN_QUOTED_FIELD)
      else delimit
  | ERROR | END_OF_RECORD => (fields, cur, state)
  end.

(** What [Advance] reads: the fields of the record that starts at the head of the text,
    or [None] when it finds none, and the text behind it. *)
Fixpoint run_record (fields : list (list Z)) (cur : list Z) (state : ParseState)
    (t : list Z) : option (list (list Z)) * list Z :=
  match t with
  | [] => (if bool_decide (cur = []) && bool_decide (fields = []) then None
           else Some (fields ++ [cur]), [])
  | c :: t =>
      let '(fields, cur, state) := trans fields cur state c in
      match state with
      | END_OF_RECORD => (Some fields, t)
      | _ => run_record fields cur state t
      end
  end.

Fixpoint run_records (fuel : nat) (t : list Z) : list (list (list Z)) :=
  match fuel with
  | O => []
  | S fuel =>
      match run_record [] [] FIELD_START t with
      | (Some fields, t) => fields :: run_records fuel t
      | (None, _) => []
      end
  end.

(** The records of a text; every record takes at least one byte. *)
Definition records (t : list Z) : list (list (list Z)) := run_records (length t) (norm t).

Lemma run_record_shrinks t : forall fields cur state f t',
  run_record fields cur state t = (f, t') -> (length t' <= length t)%nat /\
  (t <> [] -> length t' < length t)%nat.
Proof.
  induction t as [|c t IH]; intros fields cur state f t'; simpl.
  - intros [= <- <-]. simpl. split; [lia|done].
  - destruct (trans fields cur state c) as [[fields1 cur1] state1].
    intros Hs. assert (Ht : (length t' <= length t)%nat);
      [|split; simpl; lia].
    destruct state1; try (apply IH in Hs; tauto). injection Hs as <- <-. lia.
Qed.

(** More fuel changes nothing. *)
Lemma run_records_fuel n : forall m t, (length t <= n)%nat -> (length t <= m)%nat ->
  run_records n t = run_records m t.
Proof.
  induction n as [|n IH]; intros [|m] t Hn Hm; try reflexivity;
    try (destruct t; [simpl; rewrite ?bool_decide_true by reflexivity; reflexivity | simpl in *; lia]).
  cbn [run_records]. destruct (run_record [] [] FIELD_START t) as [[f|] t'] eqn:E; [|reflexivity].
  f_equal. apply run_record_shrinks in E as [E1 E2].
  destruct t; [simpl in E1; destruct t'; [|simpl in E1; lia] |]; [apply IH; simpl; lia|].
  specialize (E2 ltac:(done)). simpl in *. apply IH; lia.
Qed.

(** ** The records read and the documented ones *)

Definition quoting_of (state : ParseState) : quoting :=
  match state with
  | IN_QUOTED_FIELD => Quoted
  | QUOTED_QUOTE => Closing
  | QUOTED_BACKSLASH_ESCAPE => Escaped
  | _ => Plain
  end.

(** The tokens up to the first end of a line, and those behind it. *)
Fixpoint first_line (l : list token) : list token * option (list token) :=
  match l with
  | [] => ([], None)
  | End :: l => ([], Some l)
  | k :: l => let '(l1, rest) := first_line l in (k :: l1, rest)
  end.

Lemma lines_first l :
  lines l = match first_line l with
            | (l1, Some rest) => (l1 :: (lines rest).1, (lines rest).2)
            | (l1, None) => ([], l1)
            end.
Proof.
  induction l as [|[c| | |] l IH]; simpl; try reflexivity;
    try (rewrite IH; destruct (first_line l) as [l1 [rest|]]; reflexivity).
Qed.

Lemma put_first_app a b fs : put_first a (put_first b fs) = put_first (a ++ b) fs.
Proof. destruct fs; simpl; rewrite ?app_assoc; reflexivity. Qed.

Lemma put_first_nil l : put_first [] (fields_of l) = fields_of l.
Proof. induction l as [|[c| | |] l IH]; simpl; auto; destruct (fields_of l); reflexivity. Qed.

(** A step of the machine and the token of the character. *)
Lemma trans_lex fields cur state c : state <> ERROR -> state <> END_OF_RECORD ->
  let '(k, q) := lex_char (quoting_of state) c in
  let '(fields', cur', state') := trans fields cur state c in
  state' <> ERROR /\
  match k with
  | Lit d => state' <> END_OF_RECORD /\ fields' = fields /\ cur' = cur ++ [d]
  | Mark => state' <> END_OF_RECORD /\ fields' = fields /\ cur' = cur
  | Sep => state' <> END_OF_RECORD /\ fields' = fields ++ [cur] /\ cur' = []
  | End => state' = END_OF_RECORD /\ fields' = fields ++ [cur]
  end /\ q = quoting_of state'.
Proof.
  intros H1 H2. unfold lex_char, trans.
  destruct state; try done; cbn [quoting_of]; rewrite 1?(andb_comm (negb _));
    repeat case_match; simplify_eq; auto.
Qed.

Lemma run_record_goes fields cur state c t fields' cur' state' :
  trans fields cur state c = (fields', cur', state') -> state' <> END_OF_RECORD ->
  run_record fields cur state (c :: t) = run_record fields' cur' state' t.
Proof. intros Ht He. cbn [run_record]. rewrite Ht. destruct state'; done. Qed.

Lemma run_record_first t : forall fields cur state, state <> ERROR -> state <> END_OF_RECORD ->
  let '(l, rest) := first_line (lex (quoting_of state) t) in
  let fs := fields ++ put_first cur (fields_of l) in
  match rest with
  | Some r => exists t', run_record fields cur state t = (Some fs, t') /\ r = lex Plain t'
  | None => run_record fields cur state t = (if bool_decide (fs = [[]]) then None else Some fs, [])
  end.
Proof.
  induction t as [|c t IH]; intros fields cur state H1 H2.
  { cbn [lex first_line run_record fields_of put_first]. rewrite app_nil_r.
    destruct (bool_decide_reflect (cur = [])) as [->|Hc];
      destruct (bool_decide_reflect (fields = [])) as [->|Hf]; try reflexivity;
      rewrite bool_decide_false; try reflexivity; simpl; try congruence;
      destruct fields as [|f [|g fields]]; simpl; congruence. }
  pose proof (trans_lex fields cur state c H1 H2) as Ht. cbn [lex].
  destruct (lex_char (quoting_of state) c) as [k q].
  destruct (trans fields cur state c) as [[fields' cur'] state'] eqn:Etr.
  destruct Ht as (He & Hk & ->).
  assert (Hgo : k <> End -> state' <> END_OF_RECORD /\
    forall l, fields ++ put_first cur (fields_of (k :: l)) = fields' ++ put_first cur' (fields_of l)).
  { destruct k as [d| | |]; [| | |done]; intros _; destruct Hk as (Hr & -> & ->);
      (split; [exact Hr|]); intros l; cbn [fields_of].
    - rewrite put_first_app. reflexivity.
    - reflexivity.
    - rewrite put_first_nil, <- app_assoc. cbn [put_first app]. rewrite app_nil_r. reflexivity. }
  destruct (decide (k = End)) as [->|Hne].
  { destruct Hk as [-> ->]. cbn [first_line fields_of put_first run_record]. rewrite Etr, app_nil_r.
    eauto. }
  destruct (Hgo Hne) as [Hr Hfs]. rewrite (run_record_goes _ _ _ _ _ _ _ _ Etr Hr).
  specialize (IH fields' cur' state' He Hr).
  assert (Hfl : forall l, first_line (k :: l) = (k :: (first_line l).1, (first_line l).2)).
  { intros l. destruct k; try done; simpl; destruct (first_line l); reflexivity. }
  rewrite Hfl. destruct (first_line (lex (quoting_of state') t)) as [l [r|]]; cbn [fst snd] in *;
    rewrite Hfs; exact IH.
Qed.

(** The machine reads the lines one by one, and no record from a last line without any
    text in it. *)
Lemma run_records_lines n : forall t, (length t <= n)%nat ->
  let '(ls, last) := lines (lex Plain t) in
  run_records n t = map fields_of ls ++ if bool_decide (fields_of last = [[]]) then [] else [fields_of last].
Proof.
  induction n as [|n IH]; intros t Hn.
  { destruct t; [reflexivity | simpl in Hn; lia]. }
  rewrite lines_first. pose proof (run_record_first t [] [] FIELD_START ltac:(done) ltac:(done)) as Hr.
  cbn [quoting_of] in Hr. cbn [run_records].
  destruct (first_line (lex Plain t)) as [l [r|]]; cbn [app] in Hr; rewrite put_first_nil in Hr.
  - destruct Hr as (t' & Hr & ->). pose proof (run_record_shrinks _ _ _ _ _ _ Hr) as [_ Hs].
    rewrite Hr. assert (Ht' : (length t' <= n)%nat).
    { destruct t as [|c t]; [discriminate|]. specialize (Hs ltac:(done)). simpl in *. lia. }
    specialize (IH t' Ht'). destruct (lines (lex Plain t')) as [ls last]. cbn [fst snd map app].
    rewrite IH. reflexivity.
  - rewrite Hr. destruct (bool_decide (fields_of l = [[]])); [reflexivity|].
    cbn [map app]. destruct n; reflexivity.
Qed.

Lemma records_documented t :
  documented t = records t ++ if ends_in_empty_quotes t then [[[]]] else [].
Proof.
  unfold documented, records, ends_in_empty_quotes.
  pose proof (run_records_lines (length t) (norm t) (norm_length t)) as Hr.
  destruct (lines (lex Plain (norm t))) as [ls last]. rewrite Hr. cbn [snd].
  destruct (bool_decide_reflect (last = [])) as [->|]; cbn [negb andb].
  - rewrite bool_decide_true by reflexivity. rewrite !app_nil_r. reflexivity.
  - destruct (bool_decide_reflect (fields_of last = [[]])) as [->|]; rewrite app_nil_r; reflexivity.
Qed.

(** ** Refinement *)

Context {S : Type} `{HS : ByteSource S} `{HL : !ByteSourceLaws S} `{HM : BuildMode}.
Implicit Types p : Parser S.

(** The bytes a parser has not consumed. *)
Definition text p : list Z := current_str_ p ++ drop (orig_str_size_ p) (remaining (source_ p)).
Definition parser_ok p : Prop := (orig_str_size_ p <= length (remaining (source_ p)))%nat.
(** Everything but the reading position is the same. *)
Definition same_record p p' : Prop :=
  record_ p' = record_ p /\ has_more_data_ p' = has_more_data_ p /\
  record_count_ p' = record_count_ p.

Lemma PopulateCurrentString_spec p : parser_ok p -> current_str_ p = [] ->
  exists p', PopulateCurrentString p = Ok (p', negb (bool_decide (text p = []))) /\
    parser_ok p' /\ text p' = text p /\ same_record p p' /\
    (text p <> [] -> current_str_ p' <> []).
Proof.
  unfold parser_ok, text, PopulateCurrentString. intros Hok Hcur. rewrite Hcur. simpl.
  destruct (Skip_law (source_ p) (orig_str_size_ p)) as (s & -> & Hs);
    [rewrite Available_law; auto|].
  rewrite bind_Ok, <- Hs, Available_law.
  destruct (Nat.eqb_spec (length (remaining s)) 0) as [He|Hne].
  - apply nil_length_inv in He. rewrite He. simpl. eexists. split; [reflexivity|]. simpl.
    rewrite He. split_and!; [simpl; lia | reflexivity | split_and!; reflexivity | done].
  - destruct (remaining s) as [|b r] eqn:Er; [done|].
    destruct (Peek_law s) as (n & Hn & Hpos & Hle). rewrite Available_law, Er in Hn.
    rewrite Er in Hpos, Hle. specialize (Hpos ltac:(done)).
    assert (Hcut : (if Nat.ltb (length (b :: r)) (length (Peek s))
      then take (length (b :: r)) (Peek s) else Peek s) = take n (b :: r)).
    { rewrite <- Hn. destruct (Nat.ltb_spec (length (b :: r)) (length (Peek s))); [reflexivity|].
      rewrite take_ge; auto. }
    rewrite Hcut. eexists. split; [reflexivity|]. cbn [orig_str_size_ source_ current_str_].
    rewrite Er, length_take, Nat.min_l by auto. split_and!; auto.
    + apply take_drop.
    + split_and!; reflexivity.
    + intros _. destruct n; [lia | done].
Qed.

Lemma at_eof_spec p : parser_ok p ->
  exists p', at_eof p = Ok (p', bool_decide (text p = [])) /\ parser_ok p' /\
    text p' = text p /\ same_record p p' /\ (text p <> [] -> current_str_ p' <> []).
Proof.
  intros Hok. unfold at_eof. destruct (current_str_ p) as [|c r] eqn:E.
  - destruct (PopulateCurrentString_spec p Hok E) as (p' & -> & H1 & H2 & H3 & H4).
    rewrite bind_Ok, negb_involutive. eauto 10.
  - exists p. rewrite bool_decide_false by (unfold text; rewrite E; done).
    split_and!; auto; [split_and!; reflexivity | congruence].
Qed.

Lemma take_char_spec p : parser_ok p -> current_str_ p <> [] ->
  exists p' c, take_char p = Ok (p', c) /\ peek_char p = Ok c /\ parser_ok p' /\
    text p = c :: text p' /\ same_record p p'.
Proof.
  intros Hok Hne. unfold take_char, peek_char, text. destruct (current_str_ p) as [|c r]; [done|].
  eexists _, _. split; [reflexivity|]. split_and!; auto; split_and!; reflexivity.
Qed.

Lemma next_char_spec p c r : parser_ok p -> current_str_ p <> [] -> text p = c :: r ->
  exists p' c', next_char p = Ok (p', c') /\ parser_ok p' /\ same_record p p' /\
    norm (text p) = c' :: norm (text p') /\ (length (text p') < length (text p))%nat.
Proof.
  intros Hok Hne Ht. unfold next_char.
  destruct (take_char_spec p Hok Hne) as (p1 & c1 & -> & _ & Hok1 & Ht1 & Hsr1).
  rewrite Ht in Ht1. injection Ht1 as <- ->. rewrite bind_Ok. rewrite Ht.
  destruct (Z.eqb_spec c CR) as [->|Hcr].
  2:{ exists p1, c. rewrite norm_other by auto. split_and!; auto. }
  destruct (at_eof_spec p1 Hok1) as (p2 & -> & Hok2 & Ht2 & Hsr2 & Hne2). rewrite bind_Ok.
  rewrite norm_cr.
  assert (Htrans : forall q, same_record p2 q -> same_record p q).
  { unfold same_record in *. intros q (? & ? & ?). destruct Hsr1 as (? & ? & ?).
    destruct Hsr2 as (? & ? & ?). split_and!; congruence. }
  destruct (bool_decide_reflect (text p1 = [])) as [He|Hnl].
  - exists p2, LF. rewrite Ht2, He. split_and!; auto; try (simpl; lia).
    apply Htrans. split_and!; reflexivity.
  - destruct (take_char_spec p2 Hok2 (Hne2 Hnl)) as (p3 & d & Htk & -> & Hok3 & Ht3 & Hsr3).
    rewrite bind_Ok. rewrite <- Ht2, Ht3. unfold after_cr. destruct (d =? LF) eqn:Hd.
    + rewrite Htk, bind_Ok. exists p3, LF. split_and!; auto; simpl; lia.
    + exists p2, LF. rewrite Ht3. split_and!; auto; try (simpl; lia).
      apply Htrans. split_and!; reflexivity.
Qed.

(** The states that the checks of the machine allow. *)
Definition state_ok (state : ParseState) (cur : list Z) : Prop :=
  match state with
  | FIELD_START => cur = []
  | IN_QUOTED_FIELD | QUOTED_QUOTE => mode <> LITERAL_QUOTES
  | QUOTED_BACKSLASH_ESCAPE => mode = MYSQL_ESCAPING
  | ERROR => False
  | _ => True
  end.

Lemma transition_trans r cur state c : state_ok state cur -> state <> END_OF_RECORD ->
  exists fields cur' state', trans (fields_ r) cur state c = (fields, cur', state') /\
    transition delim mode r cur state c =
      Ok (mkRecord (status_ r) (number_ r) fields, cur', state') /\ state_ok state' cur'.
Proof.
  intros Hs Hne. destruct r as [st num fs]. unfold trans, transition, push_field. simpl.
  destruct state; simpl in Hs; try done;
    rewrite ?(bool_decide_true _ Hs), ?(bool_decide_false _ Hs); cbn [negb];
    rewrite ?DCHECK_true, ?bind_Ok;
    repeat case_match; simplify_eq; simpl; eauto 10;
    do 3 eexists; (split; [reflexivity|]); (split; [reflexivity|]); simpl; try done;
    repeat match goal with Hb : _ && _ = true |- _ => apply andb_true_iff in Hb as [? ?] end;
    rewrite ?negb_true_iff, ?bool_decide_eq_true, ?bool_decide_eq_false in *; congruence.
Qed.

Lemma end_of_input_spec p cur : text p = [] -> parser_ok p ->
  exists p', end_of_input p cur = p' /\ parser_ok p' /\ text p' = [] /\
    record_count_ p' = record_count_ p /\ status_ (record_ p') = status_ (record_ p) /\
    number_ (record_ p') = number_ (record_ p) /\
    match (run_record (fields_ (record_ p)) cur FIELD_START []).1 with
    | Some f => fields_ (record_ p') = f /\ has_more_data_ p' = has_more_data_ p
    | None => has_more_data_ p' = false
    end.
Proof.
  intros Ht Hok. eexists. split; [reflexivity|]. unfold end_of_input. simpl.
  destruct (bool_decide_reflect (cur = [])); simpl;
    [destruct (bool_decide_reflect (fields_ (record_ p) = [])) as [Hf|Hf]; simpl;
     [rewrite ?(bool_decide_true _ Hf) |] |];
    rewrite ?bool_decide_false by (intros E; apply (f_equal length) in E;
      rewrite length_app in E; simpl in E; lia);
    simpl; auto 10.
Qed.

(** What [Advance_loop] leaves: the record of [run_record] and the text behind it. *)
Definition advanced p (res : option (list (list Z)) * list Z) p' : Prop :=
  parser_ok p' /\ norm (text p') = res.2 /\ (length (text p') <= length (text p))%nat /\
  record_count_ p' = record_count_ p /\ status_ (record_ p') = status_ (record_ p) /\
  number_ (record_ p') = number_ (record_ p) /\
  match res.1 with
  | Some f => fields_ (record_ p') = f /\ has_more_data_ p' = has_more_data_ p
  | None => has_more_data_ p' = false
  end.

Lemma Advance_loop_unfold k p state cur : state <> ERROR -> state <> END_OF_RECORD ->
  Advance_loop delim mode k p state cur =
    ('(p, eof) ← at_eof p;
     if (eof : bool) then Ok (end_of_input p cur)
     else match k with
          | O => UB
          | Datatypes.S k =>
              '(p, c) ← next_char p;
              '(r, cur, state) ← transition delim mode (record_ p) cur state c;
              let p := set_record p r in
              p ← (if bool_decide (state = ERROR) then skip_line (read_fuel p) p c else Ok p);
              Advance_loop delim mode k p state cur
          end).
Proof. intros H1 H2. destruct k, state; done. Qed.

Lemma run_record_nil fields cur state :
  run_record fields cur state [] = run_record fields cur FIELD_START [].
Proof. reflexivity. Qed.

Lemma Advance_loop_eof k p state cur : parser_ok p -> state <> ERROR ->
  state <> END_OF_RECORD -> text p = [] ->
  exists p', Advance_loop delim mode k p state cur = Ok p' /\
    advanced p (run_record (fields_ (record_ p)) cur state (norm (text p))) p'.
Proof.
  intros Hok Hs1 Hs2 He. rewrite Advance_loop_unfold by auto.
  destruct (at_eof_spec p Hok) as (p1 & -> & Hok1 & Ht1 & (Hr1 & Hh1 & Hc1) & _).
  rewrite bind_Ok, (bool_decide_true _ He). rewrite He in Ht1.
  destruct (end_of_input_spec p1 cur Ht1 Hok1) as (p' & -> & H1 & H2 & H3 & H4 & H5 & H6).
  exists p'. split; [reflexivity|]. rewrite He, run_record_nil. unfold advanced.
  rewrite Hr1, Hh1, Hc1 in *. rewrite H2. simpl. split_and!; auto. lia.
Qed.

Lemma Advance_loop_spec fuel : forall p state cur, parser_ok p -> state_ok state cur ->
  state <> END_OF_RECORD -> (length (text p) <= fuel)%nat ->
  exists p', Advance_loop delim mode fuel p state cur = Ok p' /\
    advanced p (run_record (fields_ (record_ p)) cur state (norm (text p))) p'.
Proof.
  induction fuel as [|fuel IH]; intros p state cur Hok Hst Hne Hf;
    (assert (Hs1 : state <> ERROR) by (intros ->; exact Hst));
    (destruct (text p) as [|c r] eqn:Et;
     [rewrite <- Et; apply Advance_loop_eof; auto|]).
  { simpl in Hf. lia. }
  rewrite Advance_loop_unfold by auto.
  destruct (at_eof_spec p Hok) as (p1 & -> & Hok1 & Ht1 & (Hr1 & Hh1 & Hc1) & Hcur1).
  rewrite bind_Ok, bool_decide_false by (rewrite Et; done).
  rewrite Et in Ht1, Hcur1. specialize (Hcur1 ltac:(done)).
  destruct (next_char_spec p1 c r Hok1 Hcur1 Ht1) as
    (p2 & c' & -> & Hok2 & (Hr2 & Hh2 & Hc2) & Hnorm & Hlen).
  rewrite bind_Ok. rewrite Ht1 in Hnorm, Hlen. rewrite Hnorm. cbn [run_record].
  destruct (transition_trans (record_ p2) cur state c' Hst Hne) as
    (fields & cur' & state' & Htr & -> & Hst').
  rewrite Hr2, Hr1 in Htr. rewrite Htr, bind_Ok.
  rewrite bool_decide_false, bind_Ok by (intros ->; exact Hst').
  set (p3 := set_record p2 _). assert (Hadv : forall p' res, advanced p3 res p' -> advanced p res p').
  { unfold advanced, p3. simpl. rewrite Et. change (text (set_record p2 _)) with (text p2).
    intros p' res (? & ? & ? & ? & ? & ? & ?). rewrite Hr2, Hr1, Hh2, Hh1, Hc2, Hc1 in *.
    split_and!; auto. lia. }
  destruct (decide (state' = END_OF_RECORD)) as [->|Hne'].
  - exists p3. split; [destruct fuel; reflexivity|]. apply Hadv. unfold advanced, p3. simpl.
    split_and!; auto.
  - destruct (IH p3 state' cur') as (p' & -> & Hp'); auto.
    { change (text p3) with (text p2). simpl in *. lia. }
    exists p'. split; [reflexivity|]. apply Hadv.
    change (text p3) with (text p2) in Hp'. simpl in Hp'.
    destruct state'; try done; contradiction.
Qed.

Lemma Advance_spec p : parser_ok p ->
  exists p', Advance delim mode p = Ok p' /\ parser_ok p' /\
    (length (text p') <= length (text p))%nat /\
    record_count_ p' = record_count_ p + 1 /\
    norm (text p') = (run_record [] [] FIELD_START (norm (text p))).2 /\
    match (run_record [] [] FIELD_START (norm (text p))).1 with
    | Some f => record_ p' = mkRecord OkStatus (record_count_ p) f /\
                has_more_data_ p' = has_more_data_ p
    | None => has_more_data_ p' = false
    end.
Proof.
  intros Hok. unfold Advance. set (p1 := mkParser _ _ _ _ _ _).
  assert (Hok1 : parser_ok p1) by exact Hok.
  destruct (Advance_loop_spec (read_fuel p1) p1 FIELD_START []) as (p' & -> & Hp'); auto.
  { reflexivity. }
  { unfold read_fuel, text, p1. simpl. rewrite Available_law, length_app, length_drop. lia. }
  change (text p1) with (text p) in Hp'. unfold advanced in Hp'. simpl in Hp'.
  change (text p1) with (text p) in Hp'.
  destruct Hp' as (H1 & H2 & H3 & H4 & H5 & H6 & H7). exists p'. split_and!; auto.
  destruct (run_record [] [] FIELD_START (norm (text p))).1; auto.
  destruct H7 as [H7 H8]. split; [|auto]. destruct (record_ p'). simpl in *. congruence.
Qed.

(** The records from the current one on, numbered. *)
Definition numbered (n : Z) (l : list (list (list Z))) : list Record_ :=
  imap (fun i f => mkRecord OkStatus (n + Z.of_nat i) f) l.

Lemma numbered_cons n f l : numbered n (f :: l) = mkRecord OkStatus n f :: numbered (n + 1) l.
Proof.
  unfold numbered. simpl. f_equal; [f_equal; lia|]. apply imap_ext. intros i g _. simpl.
  f_equal. lia.
Qed.

Lemma collect_spec fuel : forall p f n, parser_ok p -> has_more_data_ p = true ->
  record_ p = mkRecord OkStatus n f -> record_count_ p = n + 1 ->
  (length (norm (text p)) < fuel)%nat ->
  collect delim mode fuel p false =
    Ok (numbered n (f :: run_records (length (norm (text p))) (norm (text p)))).
Proof.
  induction fuel as [|fuel IH]; intros p f n Hok Hmore Hr Hc Hf; [lia|].
  cbn [collect]. unfold iter_eq. rewrite Hmore. simpl. unfold iter_incr.
  destruct (Advance_spec p Hok) as (p' & -> & Hok' & _ & Hc' & Ht' & Hres). rewrite !bind_Ok.
  rewrite numbered_cons, Hr. rewrite Hc in Hc', Hres.
  destruct (run_record [] [] FIELD_START (norm (text p))) as [[g|] t] eqn:E;
    simpl in Ht', Hres.
  - destruct Hres as [Hr' Hm']. rewrite Hm', Hmore. simpl.
    pose proof (run_record_shrinks _ _ _ _ _ _ E) as [_ Hs].
    destruct (norm (text p)) as [|b u] eqn:En; [discriminate|]. specialize (Hs ltac:(done)).
    rewrite (IH p' g (n + 1)), bind_Ok; auto; [|congruence | rewrite Ht'; simpl in *; lia].
    simpl length. cbn [run_records]. rewrite E, Ht'.
    rewrite (run_records_fuel (length t) (length u)); [reflexivity | lia | simpl in Hs; lia].
  - rewrite Hres. simpl. assert (collect delim mode fuel p' true = Ok []) as ->.
    { destruct fuel; reflexivity. }
    rewrite bind_Ok. destruct (norm (text p)) as [|b u]; [reflexivity|].
    cbn [run_records length]. rewrite E. reflexivity.
Qed.

Lemma parse_all_spec (s : S) :
  parse_all delim mode s = Ok (numbered 0 (records (remaining s))).
Proof.
  unfold parse_all, make_parser. set (p0 := mkParser s 0 [] (new_record 0) true 0).
  assert (Ht0 : text p0 = remaining s) by reflexivity.
  assert (Hok0 : parser_ok p0) by (unfold parser_ok; simpl; lia).
  destruct (Advance_spec p0 Hok0) as (p & -> & Hok & _ & Hc & Ht & Hres). rewrite !bind_Ok.
  rewrite Available_law. rewrite Ht0 in *. unfold records.
  destruct (remaining s) as [|b r] eqn:Er.
  { simpl in *. unfold iter_eq. simpl. reflexivity. }
  assert (Hlen : (length (norm (b :: r)) <= length (b :: r))%nat) by apply norm_length.
  assert (Hn : norm (b :: r) <> []) by (simpl; destruct (b =? CR); done).
  rewrite (run_records_fuel (length (b :: r)) (length (norm (b :: r)))) by lia.
  destruct (norm (b :: r)) as [|x u] eqn:En; [done|]. cbn [length run_records].
  destruct (run_record [] [] FIELD_START (x :: u)) as [[f|] t] eqn:E; simpl in Ht, Hres.
  - pose proof (run_record_shrinks _ _ _ _ _ _ E) as [_ Hs]. specialize (Hs ltac:(done)).
    destruct Hres as [Hr Hm]. cbn [Nat.eqb].
    rewrite (collect_spec (Datatypes.S (length r)) p f 0); auto; rewrite Ht; [|simpl in *; lia].
    rewrite (run_records_fuel (length t) (length u)); [reflexivity | lia | simpl in Hs; lia].
  - simpl. unfold iter_eq. rewrite Hres. reflexivity.
Qed.
End spec.
