(* ===== verification/CsvRoundTrip.v ===== *)
(** * CSV: what is written is read back

    The bytes a writer produces for a list of records, and the proof that the parser
    reads from them the same records, with the newline forms folded as the header of
    the parser says. *)
From Stdlib Require Import ZArith Lia Bool.
From stdpp Require Import base list gmap.
From S2P Require Import Prelude.
From S2P Require Import SplitText.
From S2P Require Import ByteStream.
From S2P Require Import ByteStreamProps.
From S2P Require Import Csv.
From S2P Require Import CsvProps.
Local Open Scope Z_scope.

(** ** The text of a record *)

Definition escape (f : list Z) : list Z :=
  flat_map (fun c => if c =? QUOTE then [QUOTE; QUOTE] else [c]) f.
Definition quotable (delim : Z) (f : list Z) : bool :=
  find_first_of f [delim; QUOTE; LF; CR].
Definition field_text (delim : Z) (f : list Z) : list Z :=
  if quotable delim f then QUOTE :: escape f ++ [QUOTE] else escape f.
Fixpoint fields_text (delim : Z) (l : list (list Z)) : list Z :=
  match l with
  | [] => []
  | [f] => field_text delim f
  | f :: l => field_text delim f ++ delim :: fields_text delim l
  end.
Definition newline (crlf : bool) : list Z := if crlf then [CR; LF] else [LF].

Lemma fields_text_cons delim f g l :
  fields_text delim (f :: g :: l) = field_text delim f ++ delim :: fields_text delim (g :: l).
Proof. reflexivity. Qed.

Lemma quotable_false delim f : quotable delim f = false ->
  Forall (fun c => c <> delim /\ c <> QUOTE /\ c <> LF /\ c <> CR) f.
Proof.
  unfold quotable, find_first_of. induction f as [|c f IH]; simpl; [constructor|].
  rewrite !orb_false_iff, !Z.eqb_neq. intros [(? & ? & ? & ? & _) ?]. constructor; auto.
Qed.

Lemma escape_plain f : Forall (fun c => c <> QUOTE) f -> escape f = f.
Proof.
  unfold escape. induction 1 as [|c f Hc _ IH]; simpl; [reflexivity|].
  destruct (Z.eqb_spec c QUOTE); [done|]. simpl. congruence.
Qed.

Lemma escape_app f g : escape (f ++ g) = escape f ++ escape g.
Proof. apply flat_map_app. Qed.

(** ** The writer produces the text *)

Section writer.
Context {K : Type} `{HK : ByteSink K} `{HKL : !ByteSinkLaws K}.
Variable StrSplit : list Z -> Z -> list (list Z).

Definition wrote (k : K) (l : list Z) (m : outcome K) : Prop :=
  exists k', m = Ok k' /\ sink_ok k' /\ received k' = received k ++ l.

Lemma wrote_bind k l1 l2 m (f : K -> outcome K) : wrote k l1 m ->
  (forall k', sink_ok k' -> wrote k' l2 (f k')) -> wrote k (l1 ++ l2) (m ≫= f).
Proof.
  intros (k1 & -> & Hk1 & Hr1) Hf. rewrite bind_Ok.
  destruct (Hf k1 Hk1) as (k2 & -> & Hk2 & Hr2). exists k2. split_and!; auto.
  rewrite Hr2, Hr1, app_assoc. reflexivity.
Qed.

Lemma wrote_bind_nil k l m (f : K -> outcome K) : wrote k l m ->
  (forall k', sink_ok k' -> wrote k' [] (f k')) -> wrote k l (m ≫= f).
Proof. intros Hm Hf. rewrite <- (app_nil_r l). apply wrote_bind; auto. Qed.

Lemma wrote_Append k l : sink_ok k -> wrote k l (Append k l).
Proof. apply Append_law. Qed.

Lemma wrote_nil k : sink_ok k -> wrote k [] (Ok k).
Proof. intros Hk. exists k. rewrite app_nil_r. auto. Qed.

Lemma write_pieces_wrote pieces : pieces <> [] ->
  Forall (fun p => Forall (fun c => c <> QUOTE) p) pieces ->
  forall k qq, sink_ok k -> wrote k (qq ++ escape (join_with QUOTE pieces)) (write_pieces k qq pieces).
Proof.
  induction pieces as [|p pieces IH]; [done|]. intros _ Hp k qq Hk.
  inversion_clear Hp as [|? ? Hpq Hps]. cbn [write_pieces].
  apply wrote_bind; [apply wrote_Append; auto|]. intros k1 Hk1.
  destruct pieces as [|p2 pieces].
  - simpl. rewrite escape_plain by auto.
    apply wrote_bind_nil; [apply wrote_Append; auto | intros; apply wrote_nil; auto].
  - change (join_with QUOTE (p :: p2 :: pieces)) with (p ++ QUOTE :: join_with QUOTE (p2 :: pieces)).
    rewrite escape_app, (escape_plain p) by auto.
    apply wrote_bind; [apply wrote_Append; auto|]. intros k2 Hk2.
    apply (IH ltac:(done) Hps k2 [QUOTE; QUOTE] Hk2).
Qed.

Lemma formatter_wrote delim f k : split_law StrSplit -> sink_ok k ->
  wrote k (field_text delim f) (StandardFieldFormatter StrSplit delim f k).
Proof.
  intros Hs Hk. destruct (Hs f QUOTE) as (Hne & Hj & Hp).
  assert (Hw : forall k, sink_ok k -> wrote k (escape f) (write_pieces k [] (StrSplit f QUOTE))).
  { intros k1 Hk1. rewrite <- Hj at 1. apply (write_pieces_wrote _ Hne Hp k1 []). auto. }
  unfold StandardFieldFormatter, field_text.
  change (find_first_of f [delim; QUOTE; LF; CR]) with (quotable delim f).
  destruct (quotable delim f).
  - apply (wrote_bind k [QUOTE]); [apply wrote_Append; auto|]. intros k1 Hk1.
    apply wrote_bind; [auto|]. intros k2 Hk2. apply wrote_Append. auto.
  - rewrite bind_Ok. apply wrote_bind_nil; [auto|].
    intros. apply wrote_nil. auto.
Qed.

(** A writer made by the constructors without a formatter of the caller's. *)
Definition standard_writer (w : Writer (K := K)) (n : nat) (delim : Z) (crlf : bool) : Prop :=
  num_fields_ w = n /\ field_delimiter_ w = delim /\ record_delimiter_ w = newline crlf /\
  field_formatter_ w = StandardFieldFormatter StrSplit delim.

Lemma write_fields_wrote w n delim crlf l : split_law StrSplit -> standard_writer w n delim crlf ->
  forall k first, sink_ok k ->
  wrote k ((if first || bool_decide (l = []) then [] else [delim]) ++ fields_text delim l)
    (write_fields w k first l).
Proof.
  intros Hs (Hn & Hd & Hrd & Hff). induction l as [|f l IH]; intros k first Hk.
  { rewrite bool_decide_true, orb_true_r by reflexivity. apply wrote_nil. auto. }
  rewrite bool_decide_false, orb_false_r by done. cbn [write_fields].
  apply wrote_bind.
  - destruct first; [apply wrote_nil; auto | rewrite Hd; apply wrote_Append; auto].
  - intros k1 Hk1. rewrite Hff. destruct l as [|g l].
    + simpl fields_text. apply wrote_bind_nil; [apply formatter_wrote; auto|]. intros k2 Hk2.
      cbn [write_fields]. apply wrote_nil. auto.
    + rewrite fields_text_cons. apply wrote_bind; [apply formatter_wrote; auto|].
      intros k2 Hk2. apply (IH k2 false Hk2).
Qed.

(** [WriteRecord] writes the record and the delimiter, or reports the wrong number of
    fields and writes nothing. *)
Lemma WriteRecord_spec order w n delim crlf record l : split_law StrSplit ->
  standard_writer w n delim crlf -> sink_ok (sink_ w) -> order record = Ok l ->
  exists w' st, WriteRecord order w record = Ok (w', st) /\ writer_status_ w' = st /\
    standard_writer w' n delim crlf /\ sink_ok (sink_ w') /\
    if decide (length l = n) then st = OkStatus /\
      received (sink_ w') = received (sink_ w) ++ fields_text delim l ++ newline crlf
    else st = InvalidArgumentError n (length l) /\ sink_ w' = sink_ w.
Proof.
  intros Hs Hw Hk Ho. unfold WriteRecord. rewrite Ho, bind_Ok.
  pose proof Hw as (Hn & Hd & Hrd & Hff). rewrite Hn.
  destruct (Nat.eqb_spec n (length l)) as [E|E]; cbn [negb].
  - assert (Hwr : wrote (sink_ w) (fields_text delim l ++ newline crlf)
      (sink ← write_fields w (sink_ w) true l; Append sink (record_delimiter_ w))).
    { apply wrote_bind.
      - pose proof (write_fields_wrote w n delim crlf l Hs Hw (sink_ w) true Hk) as Hf.
        exact Hf.
      - intros k1 Hk1. rewrite Hrd. apply wrote_Append. auto. }
    destruct Hwr as (k' & Hrun & Hk' & Hr).
    destruct (write_fields w (sink_ w) true l) as [k1| |]; try discriminate.
    rewrite bind_Ok in Hrun. rewrite bind_Ok, Hrun, bind_Ok.
    eexists _, _. split; [reflexivity|]. simpl.
    destruct (Flush_law k' Hk') as [Hfk Hfr].
    split; [reflexivity|]. split; [exact Hw|].
    destruct (decide _); [|congruence].
    destruct (auto_flush_ w); rewrite ?Hfr; auto.
  - eexists _, _. split; [reflexivity|]. simpl. split; [reflexivity|]. split; [exact Hw|].
    split; [exact Hk|]. destruct (decide _); [congruence|]. auto.
Qed.
End writer.

(** ** Normalising the text *)

Lemma norm_strong (P : list Z -> Prop) :
  (forall l, (forall k, (length k < length l)%nat -> P k) -> P l) -> forall l, P l.
Proof.
  intros HP l. remember (length l) as n eqn:En. revert l En.
  induction n as [n IH] using lt_wf_ind. intros l ->. apply HP. intros k Hk. eapply IH; eauto.
Qed.

Lemma norm_plain a b : Forall (fun c => c <> CR) a -> norm (a ++ b) = a ++ norm b.
Proof.
  induction 1 as [|c a Hc _ IH]; simpl; [reflexivity|].
  destruct (Z.eqb_spec c CR); [done|]. congruence.
Qed.

Lemma norm_app_other a : forall c b, c <> LF -> norm (a ++ c :: b) = norm a ++ norm (c :: b).
Proof.
  induction a as [a IH] using norm_strong. intros c b Hc. destruct a as [|d a]; [reflexivity|].
  cbn [app]. destruct (Z.eqb_spec d CR) as [->|Hd].
  - rewrite !norm_cr. cbn [app]. f_equal. destruct a as [|e a].
    + simpl after_cr. destruct (Z.eqb_spec c LF); [done | reflexivity].
    + simpl after_cr. destruct (e =? LF).
      * apply IH; [simpl; lia | auto].
      * apply (IH (e :: a)); [simpl; lia | auto].
  - rewrite !norm_other by auto. cbn [app]. f_equal. apply IH; [simpl; lia | auto].
Qed.

Lemma norm_escape f : norm (escape f) = escape (norm f).
Proof.
  induction f as [f IH] using norm_strong. destruct f as [|c f]; [reflexivity|].
  destruct (Z.eqb_spec c CR) as [->|Hc].
  - change (escape (CR :: f)) with (CR :: escape f). rewrite !norm_cr.
    change (escape (LF :: norm (after_cr f))) with (LF :: escape (norm (after_cr f))).
    f_equal. rewrite <- IH.
    2:{ pose proof (after_cr_length f). simpl. lia. }
    f_equal. destruct f as [|d f]; [reflexivity|]. unfold escape. simpl.
    destruct (Z.eqb_spec d QUOTE) as [->|Hd]; [reflexivity|].
    simpl. destruct (d =? LF); [reflexivity|]. simpl.
    rewrite (proj2 (Z.eqb_neq d QUOTE) Hd). reflexivity.
  - rewrite (norm_other c f) by auto. unfold escape. simpl.
    destruct (Z.eqb_spec c QUOTE) as [->|Hq]; simpl.
    + fold (escape f) (escape (norm f)).
      rewrite IH by (simpl; lia). reflexivity.
    + destruct (Z.eqb_spec c CR); [done|]. fold (escape f) (escape (norm f)).
      rewrite IH by (simpl; lia). reflexivity.
Qed.

(** The normalised text of a field. *)
Definition nfield (delim : Z) (f : list Z) : list Z :=
  if quotable delim f then QUOTE :: escape (norm f) ++ [QUOTE] else f.

Lemma norm_field delim f rest : norm (field_text delim f ++ rest) = nfield delim f ++ norm rest.
Proof.
  unfold field_text, nfield. destruct (quotable delim f) eqn:Hq.
  - cbn [app]. rewrite norm_other by done. f_equal. rewrite <- !app_assoc. cbn [app].
    rewrite norm_app_other by done. rewrite norm_escape, norm_other by done. reflexivity.
  - apply quotable_false in Hq. rewrite escape_plain.
    + apply norm_plain. eapply Forall_impl; [exact Hq|]. simpl. tauto.
    + eapply Forall_impl; [exact Hq|]. simpl. tauto.
Qed.

Lemma norm_id f : Forall (fun c => c <> CR) f -> norm f = f.
Proof. intros Hf. rewrite <- (app_nil_r f) at 1. rewrite norm_plain by auto. apply app_nil_r. Qed.

(** ** The parser reads the text *)

Section reader.
Variable delim : Z.
Hypothesis delim_ok : delim <> QUOTE /\ delim <> LF /\ delim <> CR.

(** States in which the next delimiter ends the field. *)
Definition closing (state : ParseState) : Prop :=
  state = FIELD_START \/ state = IN_FIELD \/ state = QUOTED_QUOTE.

Lemma plain_run f : forall F cur state t,
  Forall (fun c => c <> delim /\ c <> QUOTE /\ c <> LF /\ c <> CR) f ->
  state = FIELD_START \/ state = IN_FIELD ->
  exists state', closing state' /\
    run_record delim RFC4180 F cur state (f ++ t) =
    run_record delim RFC4180 F (cur ++ f) state' t.
Proof.
  unfold closing. induction f as [|c f IH]; intros F cur state t Hf Hst.
  - exists state. rewrite app_nil_r. split; [tauto | reflexivity].
  - inversion_clear Hf as [|? ? (H1 & H2 & H3 & _) Hf'].
    destruct (IH F (cur ++ [c]) IN_FIELD t Hf' (or_intror eq_refl)) as (st' & Hst' & Hrun).
    exists st'. split; [auto|]. rewrite <- app_assoc in Hrun. cbn [app] in Hrun |- *.
    rewrite <- Hrun. cbn [run_record].
    assert (Htr : trans delim RFC4180 F cur state c = (F, cur ++ [c], IN_FIELD)).
    { unfold trans. destruct Hst as [-> | ->]; simpl;
        rewrite (proj2 (Z.eqb_neq c QUOTE) H2), (proj2 (Z.eqb_neq c delim) H1),
          (proj2 (Z.eqb_neq c LF) H3); reflexivity. }
    rewrite Htr. reflexivity.
Qed.

Lemma quoted_run f : forall F cur t,
  run_record delim RFC4180 F cur IN_QUOTED_FIELD (escape f ++ QUOTE :: t) =
  run_record delim RFC4180 F (cur ++ f) QUOTED_QUOTE t.
Proof.
  induction f as [|c f IH]; intros F cur t.
  - rewrite app_nil_r. reflexivity.
  - change (escape (c :: f)) with ((if c =? QUOTE then [QUOTE; QUOTE] else [c]) ++ escape f).
    replace (cur ++ c :: f) with ((cur ++ [c]) ++ f) by (rewrite <- app_assoc; reflexivity).
    rewrite <- IH. destruct (Z.eqb_spec c QUOTE) as [->|Hc]; [reflexivity|].
    cbn [app run_record trans].
    rewrite (proj2 (Z.eqb_neq c QUOTE) Hc), andb_false_r. reflexivity.
Qed.

Lemma field_run F f t : exists state, closing state /\
  run_record delim RFC4180 F [] FIELD_START (nfield delim f ++ t) =
  run_record delim RFC4180 F (norm f) state t.
Proof.
  unfold nfield. destruct (quotable delim f) eqn:Hq.
  - exists QUOTED_QUOTE. split; [unfold closing; auto|]. cbn [app].
    rewrite <- app_assoc. cbn [app]. rewrite <- (app_nil_l (norm f)), <- quoted_run.
    reflexivity.
  - apply quotable_false in Hq. rewrite norm_id.
    + apply (plain_run f F [] FIELD_START t Hq). auto.
    + eapply Forall_impl; [exact Hq|]. simpl. tauto.
Qed.

Lemma closing_delim F cur state t : closing state ->
  run_record delim RFC4180 F cur state (delim :: t) =
  run_record delim RFC4180 (F ++ [cur]) [] FIELD_START t.
Proof.
  destruct delim_ok as (H1 & H2 & H3).
  unfold closing. intros Hst. cbn [run_record].
  assert (Htr : trans delim RFC4180 F cur state delim = (F ++ [cur], [], FIELD_START)).
  { unfold trans. destruct Hst as [->|[->| ->]]; simpl;
      rewrite (proj2 (Z.eqb_neq delim QUOTE) H1), Z.eqb_refl; reflexivity. }
  rewrite Htr. reflexivity.
Qed.

Lemma closing_newline F cur state t : closing state ->
  run_record delim RFC4180 F cur state (LF :: t) = (Some (F ++ [cur]), t).
Proof.
  destruct delim_ok as (H1 & H2 & H3).
  unfold closing. intros Hst. cbn [run_record].
  assert (Htr : trans delim RFC4180 F cur state LF = (F ++ [cur], cur, END_OF_RECORD)).
  { unfold trans. rewrite (proj2 (Z.eqb_neq LF delim)) by congruence.
    destruct Hst as [->|[->| ->]]; reflexivity. }
  rewrite Htr. reflexivity.
Qed.

(** The fields of a record, up to what follows the last one. *)
Lemma fields_run l : l <> [] -> forall F t, exists F' f state, closing state /\
  F' ++ [f] = F ++ map norm l /\
  run_record delim RFC4180 F [] FIELD_START (norm (fields_text delim l ++ t)) =
  run_record delim RFC4180 F' f state (norm t).
Proof.
  induction l as [|f l IH]; [done|]. intros _ F t. destruct l as [|g l].
  - simpl fields_text. rewrite norm_field. destruct (field_run F f (norm t)) as (st & Hst & ->).
    exists F, (norm f), st. auto.
  - rewrite fields_text_cons, <- app_assoc, norm_field. cbn [app].
    rewrite norm_other by tauto.
    destruct (field_run F f (delim :: norm (fields_text delim (g :: l) ++ t)))
      as (st & Hst & ->).
    rewrite closing_delim by auto.
    destruct (IH ltac:(done) (F ++ [norm f]) t) as (F' & h & st' & Hst' & HF & Hrun).
    exists F', h, st'. split_and!; auto. rewrite HF, <- app_assoc. reflexivity.
Qed.

Lemma norm_newline crlf t : norm (newline crlf ++ t) = LF :: norm t.
Proof. destruct crlf; reflexivity. Qed.

(** What a record reads back as: a record of no fields is an empty line, which reads as
    one empty field. *)
Definition read_back (l : list (list Z)) : list (list Z) :=
  match l with [] => [[]] | _ => map norm l end.

Lemma record_run crlf l t :
  run_record delim RFC4180 [] [] FIELD_START
    (norm (fields_text delim l ++ newline crlf ++ t)) = (Some (read_back l), norm t).
Proof.
  destruct l as [|f l].
  - cbn [fields_text app]. rewrite norm_newline, closing_newline by (left; reflexivity).
    reflexivity.
  - destruct (fields_run (f :: l) ltac:(done) [] (newline crlf ++ t)) as (F & g & st & Hst & HF & ->).
    rewrite norm_newline, closing_newline, HF by auto. reflexivity.
Qed.

Definition file_text (crlf : bool) (rs : list (list (list Z))) : list Z :=
  concat (map (fun l => fields_text delim l ++ newline crlf) rs).

Lemma file_run crlf rs : forall n, (length rs <= n)%nat ->
  run_records delim RFC4180 n (norm (file_text crlf rs)) = map read_back rs.
Proof.
  unfold file_text. induction rs as [|l rs IH]; intros n Hn; simpl.
  - destruct n; reflexivity.
  - destruct n as [|n]; [simpl in Hn; lia|]. cbn [run_records].
    rewrite <- app_assoc, record_run. f_equal. apply IH. simpl in Hn. lia.
Qed.

Lemma file_length crlf rs : (length rs <= length (file_text crlf rs))%nat.
Proof.
  unfold file_text. induction rs as [|l rs IH]; simpl; [lia|].
  assert (1 <= length (newline crlf))%nat by (destruct crlf; simpl; lia).
  rewrite !length_app. lia.
Qed.

Lemma records_file crlf rs :
  records delim RFC4180 (file_text crlf rs) = map read_back rs.
Proof. apply file_run, file_length. Qed.
End reader.

(** ** Whole files and single lines *)

(** [CHECK_OK(writer.WriteRecord(r))] for each record. *)
Fixpoint write_all {K} `{ByteSink K} (w : Writer (K := K)) (rs : list (list (list Z))) :
    outcome (Writer (K := K)) :=
  match rs with
  | [] => Ok w
  | r :: rs =>
      '(w, st) ← WriteRecord DefaultOrder w (Seq r);
      _ ← CHECK (match st with OkStatus => true | _ => false end);
      write_all w rs
  end.

Lemma write_all_spec {K} `{ByteSink K} `{!ByteSinkLaws K} StrSplit n delim crlf rs :
  split_law StrSplit -> Forall (fun r => length r = n) rs ->
  forall w : Writer (K := K), standard_writer StrSplit w n delim crlf -> sink_ok (sink_ w) ->
  exists w', write_all w rs = Ok w' /\ standard_writer StrSplit w' n delim crlf /\
    sink_ok (sink_ w') /\ received (sink_ w') = received (sink_ w) ++ file_text delim crlf rs.
Proof.
  intros Hs. induction 1 as [|r rs Hr _ IH]; intros w Hw Hk; cbn [write_all].
  - exists w. unfold file_text. simpl. rewrite app_nil_r. auto.
  - destruct (WriteRecord_spec StrSplit DefaultOrder w n delim crlf (Seq r) r Hs Hw Hk eq_refl)
      as (w1 & st & -> & _ & Hw1 & Hk1 & Hres).
    destruct (decide _); [|done]. destruct Hres as [-> Hrec]. rewrite !bind_Ok. unfold CHECK.
    rewrite bind_Ok. destruct (IH w1 Hw1 Hk1) as (w' & -> & Hw' & Hk' & Hrec').
    exists w'. split_and!; auto. rewrite Hrec', Hrec. unfold file_text. simpl.
    rewrite <- !app_assoc. reflexivity.
Qed.

(** A line that ends with the input instead of a newline. *)
Lemma last_line delim l : delim <> QUOTE /\ delim <> LF /\ delim <> CR ->
  l <> [] -> fields_text delim l <> [] ->
  (run_record delim RFC4180 [] [] FIELD_START (norm (fields_text delim l))).1 =
    Some (map norm l).
Proof.
  intros Hd Hl Ht. destruct (fields_run delim Hd l Hl [] []) as (F & f & st & _ & HF & Hrun).
  rewrite app_nil_r in Hrun. rewrite Hrun. simpl in HF |- *.
  destruct (bool_decide_reflect (f = [])) as [->|]; [|simpl; rewrite HF; reflexivity].
  destruct (bool_decide_reflect (F = [])) as [->|]; [|simpl; rewrite HF; reflexivity].
  destruct l as [|g [|h l]]; [done | | apply (f_equal length) in HF; simpl in HF; lia].
  simpl in HF, Ht. injection HF as Hg. exfalso. destruct g as [|c g].
  - apply Ht. reflexivity.
  - destruct (Z.eqb_spec c CR) as [->|Hc]; [rewrite norm_cr in Hg | rewrite norm_other in Hg by auto];
      discriminate.
Qed.

Lemma fields_text_nil delim l : l <> [] -> fields_text delim l = [] -> l = [[]].
Proof.
  destruct l as [|f [|g l]]; [done | |].
  - intros _. simpl. unfold field_text. destruct (quotable delim f) eqn:E; [done|].
    apply quotable_false in E. rewrite escape_plain; [intros ->; reflexivity|].
    eapply Forall_impl; [exact E|]. simpl. tauto.
  - intros _. rewrite fields_text_cons. destruct (field_text delim f); done.
Qed.

Lemma ParseLine_spec `{BuildMode} delim l : delim <> QUOTE /\ delim <> LF /\ delim <> CR ->
  l <> [] ->
  ParseLine (fields_text delim l) delim RFC4180 = Ok (mkRecord OkStatus 0 (map norm l)).
Proof.
  intros Hd Hl. unfold ParseLine, make_parser.
  set (line := if bool_decide (fields_text delim l = []) then [LF] else fields_text delim l).
  assert (Hs : (run_record delim RFC4180 [] [] FIELD_START (norm line)).1 = Some (map norm l)).
  { unfold line. destruct (bool_decide_reflect (fields_text delim l = [])) as [E|E].
    - apply fields_text_nil in E; [|auto]. subst l. change (norm [LF]) with [LF].
      rewrite (closing_newline delim Hd) by (left; reflexivity). reflexivity.
    - apply last_line; auto. }
  destruct (Advance_spec delim RFC4180 (mkParser line 0 [] (new_record 0) true 0))
    as (p & -> & _ & _ & _ & _ & Hres); [unfold parser_ok; simpl; lia|].
  change (text (mkParser line 0 [] (new_record 0) true 0)) with line in Hres.
  rewrite Hs in Hres. destruct Hres as [Hr _]. rewrite !bind_Ok, Hr. reflexivity.
Qed.

(** ** Properties *)

(** C39. Records of any bytes, all with the number of fields that the writer was made
    for, 0 included, are written to any sink with the standard formatting of fields and
    their order in the sequence, with line feeds or CRLF behind the records.  For any
    delimiter other than a quote, a line feed or a carriage return, a parser of RFC 4180
    text reads back from any source with the bytes written, in whatever pieces: the same
    records, numbered from 0, the newline forms in their fields folded to line feeds; a
    record of no fields reads back as one of an empty field. *)
Theorem Writer_Parser_roundtrip {K S} `{ByteSink K} `{!ByteSinkLaws K} `{ByteSource S}
    `{!ByteSourceLaws S} `{BuildMode} StrSplit (delim : Z) (n : nat) (crlf : bool)
    (rs : list (list (list Z))) (sink : K) :
  split_law StrSplit -> delim <> QUOTE /\ delim <> LF /\ delim <> CR ->
  Forall (fun r => length r = n) rs -> sink_ok sink -> received sink = [] ->
  exists w, write_all (SetCRLFRecordDelimiter (make_writer StrSplit n delim sink) crlf) rs = Ok w /\
    forall src : S, remaining src = received (sink_ w) ->
      parse_all delim RFC4180 src = Ok (numbered 0 (map read_back rs)).
Proof.
  intros Hs Hd Hrs Hk Hr0.
  destruct (write_all_spec StrSplit n delim crlf rs Hs Hrs
    (SetCRLFRecordDelimiter (make_writer StrSplit n delim sink) crlf)) as (w & Hw & _ & _ & Hrec);
    [split_and!; reflexivity | exact Hk |].
  exists w. split; [exact Hw|]. intros src Hsrc.
  rewrite (parse_all_spec delim RFC4180 src), Hsrc, Hrec. simpl sink_. rewrite Hr0. cbn [app].
  rewrite (records_file delim Hd). reflexivity.
Qed.

(** Concatenation as a sink: what it received is its state. *)
#[export] Instance ListSink : ByteSink (list Z) := { Append k l := Ok (k ++ l); Flush k := k }.
#[export] Instance ListSink_laws : ByteSinkLaws (list Z).
Proof. refine {| received := fun k : list Z => k; sink_ok := fun _ => True |}; simpl; eauto. Defined.

Lemma Writer_Parser_roundtrip_witness :
  exists w, write_all (K := list Z)
      (SetCRLFRecordDelimiter (make_writer split_at 2 44 []) true)
      [[[97; 34; 98]; []]; [[44; 13]; [10; 120]]] = Ok w /\
    forall src : list (list Z), concat src = sink_ w ->
      parse_all (H0 := debug_build) 44 RFC4180 src =
        Ok (numbered 0 [[[97; 34; 98]; []]; [[44; 10]; [10; 120]]]).
Proof.
  apply (@Writer_Parser_roundtrip (list Z) (list (list Z)) ListSink ListSink_laws
    PieceByteSource PieceByteSource_laws debug_build split_at 44 2 true
    [[[97; 34; 98]; []]; [[44; 13]; [10; 120]]] []).
  - exact split_at_law.
  - repeat split; discriminate.
  - repeat constructor.
  - exact I.
  - reflexivity.
Defined.

(** A single record written to a string reads back with [ParseLine], whatever bytes
    its fields have: an empty record apart, no list of fields is lost, the single empty
    field and the empty last field included. *)
Theorem WriteRecordToString_ParseLine `{BuildMode} StrSplit (reserve : nat -> nat -> nat)
    (delim : Z) (record : list (list Z)) :
  split_law StrSplit -> (forall c n, (n <= reserve c n)%nat) ->
  delim <> QUOTE /\ delim <> LF /\ delim <> CR -> record <> [] ->
  exists out, WriteRecordToString (H := StringSink_ reserve) StrSplit record delim = Ok out /\
    ParseLine out delim RFC4180 = Ok (mkRecord OkStatus 0 (map norm record)).
Proof.
  intros Hs Hres Hd Hne. exists (fields_text delim record). split; [|apply ParseLine_spec; auto].
  unfold WriteRecordToString.
  destruct (@WriteRecord_spec _ (StringSink_ reserve) (StringSink_laws reserve Hres) StrSplit
    DefaultOrder (make_writer (H := StringSink_ reserve) StrSplit (length record) delim
      (StringSink.make [] 0))
    (length record) delim false (Seq record) record Hs) as (w & st & -> & _ & _ & _ & Hr).
  - split_and!; reflexivity.
  - split; simpl; auto.
  - reflexivity.
  - destruct (decide _); [|done]. destruct Hr as [-> Hr]. rewrite bind_Ok. unfold CHECK.
    rewrite bind_Ok. simpl in Hr. rewrite Hr. simpl.
    rewrite length_app, Nat.add_comm. simpl. rewrite take_app_length. reflexivity.
Qed.

Lemma WriteRecordToString_ParseLine_witness :
  WriteRecordToString (H := StringSink_ Nat.max) split_at [[97; 34]; []] 44 =
    Ok [34; 97; 34; 34; 34; 44] /\
  exists out, WriteRecordToString (H := StringSink_ Nat.max) split_at [[97; 34]; []] 44 = Ok out /\
    ParseLine (H := opt_build) out 44 RFC4180 = Ok (mkRecord OkStatus 0 [[97; 34]; []]).
Proof.
  split; [reflexivity|].
  apply (@WriteRecordToString_ParseLine opt_build split_at Nat.max 44 [[97; 34]; []]).
  - exact split_at_law.
  - lia.
  - repeat split; discriminate.
  - discriminate.
Defined.

(** C40. The parser reads the text and not its pieces: from any source, for any delimiter
    and mode, in debug and optimised builds, it ends and no check fails.  Its records,
    numbered from 0, are those that [documented] reads from the whole text: what lies
    between unquoted delimiters and newlines, the last newline omitted or not; but a last
    line without a newline that is only an empty quoted field, which the comments count
    as a record, is missing.  Every record has an OK status, on a text that ends within
    quotes too: the errors that the comments announce are never reported. *)
Theorem Parser_reads_text {S} `{ByteSource S} `{!ByteSourceLaws S} `{BuildMode}
    (delim : Z) (mode : Mode) (s : S) :
  exists rs, parse_all delim mode s = Ok (numbered 0 rs) /\
    documented delim mode (remaining s) =
      rs ++ if ends_in_empty_quotes delim mode (remaining s) then [[[]]] else [].
Proof.
  exists (records delim mode (remaining s)).
  split; [apply parse_all_spec | apply records_documented].
Qed.

(** Escapes and a newline in pieces; a last record without its newline; the last record
    that is lost. *)
Lemma Parser_reads_text_witness :
  (exists rs, parse_all (H0 := debug_build) 44 MYSQL_ESCAPING
      [[QUOTE; BACKSLASH]; [QUOTE; 44; QUOTE; CR]; [LF; 97]] = Ok (numbered 0 rs) /\
    rs ++ [] = [[[QUOTE; 44]]; [[97]]]) /\
  exists rs, parse_all (H0 := debug_build) 44 RFC4180 [[97; 44]; [LF; QUOTE]; [QUOTE]] =
      Ok (numbered 0 rs) /\ [[[97]; []]; [[]]] = rs ++ [[[]]].
Proof.
  split.
  - destruct (@Parser_reads_text (list (list Z)) PieceByteSource PieceByteSource_laws debug_build
      44 MYSQL_ESCAPING [[QUOTE; BACKSLASH]; [QUOTE; 44; QUOTE; CR]; [LF; 97]]) as (rs & Hp & Hd).
    exists rs. split; [exact Hp | symmetry; exact Hd].
  - exact (@Parser_reads_text (list (list Z)) PieceByteSource PieceByteSource_laws debug_build
      44 RFC4180 [[97; 44]; [LF; QUOTE]; [QUOTE]]).
Defined.

(** A quoted empty field alone on the last line is a record when a newline ends the
    line, and no record when the input ends there. *)
Theorem last_quoted_empty_field_lost `{BuildMode} :
  parse_all 44 RFC4180 [QUOTE; QUOTE; LF] = Ok [mkRecord OkStatus 0 [[]]] /\
  parse_all 44 RFC4180 [QUOTE; QUOTE] = Ok [].
Proof.
  split; [rewrite (parse_all_spec 44 RFC4180 [QUOTE; QUOTE; LF]) |
    rewrite (parse_all_spec 44 RFC4180 [QUOTE; QUOTE])]; reflexivity.
Qed.
