(* ===== verification/Serialize.v ===== *)
(** * Keys and dictionaries

    [strings/serialize.{h,cc}]: keys whose bytes sort like the numbers they stand for,
    the bytes of plain old data, and dictionaries as text.  Floating-point numbers are
    their bit patterns.  [absl::StrSplit], [absl::StrJoin], [absl::PairFormatter] and
    [absl::SimpleAtoi] are arguments. *)
From Stdlib Require Import ZArith Lia Bool.
From stdpp Require Import base list gmap.
From S2P Require Import Prelude.
From S2P Require Import Endian.
Local Open Scope Z_scope.

Section keys.
Context `{BuildMode}.

(** ** Unsigned integers *)

Definition Uint32ToKey (n : Z) : list Z := le_store 4 (byteswap 4 n).
Definition Uint64ToKey (n : Z) : list Z := le_store 8 (byteswap 8 n).
Definition Uint128ToKey (n : Z) : list Z :=
  le_store 8 (byteswap 8 (Uint128High64 n)) ++ le_store 8 (byteswap 8 (Uint128Low64 n)).

Definition KeyToUint32 (key : list Z) : outcome Z :=
  _ ← DCHECK (zlen key =? 4);
  _ ← CHECK (4 <=? zlen key);
  l ← load_bytes key 0 4;
  Ok (byteswap 4 (le_load l)).
Definition KeyToUint64 (key : list Z) : outcome Z :=
  _ ← DCHECK (zlen key =? 8);
  _ ← CHECK (8 <=? zlen key);
  l ← load_bytes key 0 8;
  Ok (byteswap 8 (le_load l)).
Definition KeyToUint128 (key : list Z) : outcome Z :=
  _ ← DCHECK (zlen key =? 16);
  _ ← CHECK (16 <=? zlen key);
  v0 ← load_bytes key 0 8;
  v1 ← load_bytes key 8 8;
  Ok (MakeUint128 (byteswap 8 (le_load v0)) (byteswap 8 (le_load v1))).

(** ** Signed integers in two's complement *)

Definition Int32ToKey (n : Z) : list Z := Uint32ToKey (u32 n).
Definition KeyToInt32 (key : list Z) : outcome Z := n ← KeyToUint32 key; Ok (s32 n).
Definition Int64ToKey (n : Z) : list Z := Uint64ToKey (u64 n).
Definition KeyToInt64 (key : list Z) : outcome Z := n ← KeyToUint64 key; Ok (s64 n).
Definition Int128ToKey (n : Z) : list Z := Uint128ToKey (u128 n).
Definition KeyToInt128 (key : list Z) : outcome Z :=
  n ← KeyToUint128 key; Ok (swrap 128 n).

(** ** Floating-point numbers

    [w] is the width of [UintType]; [uint32_t] and [uint64_t] do not promote. *)

Definition wrap (w x : Z) : Z := x mod 2 ^ w.
Definition sign_bit (w : Z) : Z := wrap w (Z.lnot (Z.shiftr (wrap w (Z.lnot 0)) 1)).
Definition UintFromIEEE754 (w f : Z) : Z :=
  if Z.land f (sign_bit w) =? 0 then wrap w (f + sign_bit w) else wrap w (0 - f).
Definition IEEE754FromUint (w n : Z) : Z :=
  if negb (Z.land n (sign_bit w) =? 0) then wrap w (n - sign_bit w) else wrap w (0 - n).

Definition KeyFromDouble (x : Z) : list Z := Uint64ToKey (UintFromIEEE754 64 x).
Definition DoubleToKey (x : Z) : list Z := KeyFromDouble x.
Definition KeyToDouble (key : list Z) : outcome Z :=
  n ← KeyToUint64 key; Ok (IEEE754FromUint 64 n).
Definition KeyFromFloat (x : Z) : list Z := Uint32ToKey (UintFromIEEE754 32 x).
Definition FloatToKey (x : Z) : list Z := KeyFromFloat x.
Definition KeyToFloat (key : list Z) : outcome Z :=
  n ← KeyToUint32 key; Ok (IEEE754FromUint 32 n).

(** ** Ordered and reverse ordered keys *)

Definition Int32ToOrderedString (n : Z) : list Z := Uint32ToKey (Z.lxor (u32 n) 0x80000000).
Definition OrderedStringToInt32 (key : list Z) : outcome Z :=
  _ ← CHECK (zlen key =? 4);
  Ok (s32 (Z.lxor (fold_left (fun n c => Z.lor (u32 (Z.shiftl n 8)) c) key 0) 0x80000000)).
Definition Int64ToOrderedString (n : Z) : list Z :=
  Uint64ToKey (Z.lxor (u64 n) 0x8000000000000000).
Definition OrderedStringToInt64 (key : list Z) : outcome Z :=
  _ ← CHECK (zlen key =? 8);
  Ok (s64 (Z.lxor (fold_left (fun n c => Z.lor (u64 (Z.shiftl n 8)) c) key 0)
             (u64 (Z.shiftl 1 63)))).

Definition ReverseOrderedStringFromInt32 (n : Z) : list Z := Int32ToOrderedString (Z.lnot n).
Definition Int32ToReverseOrderedString (n : Z) : list Z := Int32ToOrderedString (Z.lnot n).
Definition ReverseOrderedStringToInt32 (key : list Z) : outcome Z :=
  n ← OrderedStringToInt32 key; Ok (Z.lnot n).
Definition ReverseOrderedStringFromInt64 (n : Z) : list Z := Int64ToOrderedString (Z.lnot n).
Definition Int64ToReverseOrderedString (n : Z) : list Z := Int64ToOrderedString (Z.lnot n).
Definition ReverseOrderedStringToInt64 (key : list Z) : outcome Z :=
  n ← OrderedStringToInt64 key; Ok (Z.lnot n).
End keys.

(** ** Plain old data

    A trivially copyable type is its object representation, [sizeof_] bytes; [value_ok]
    are the values of the type. *)

Class POD (T : Type) := {
  sizeof_ : nat;
  rep : T -> list Z;
  of_rep : list Z -> T;
  value_ok : T -> Prop;
  sizeof_pos : (0 < sizeof_)%nat;
  rep_length : forall v, length (rep v) = sizeof_;
  of_rep_rep : forall v, value_ok v -> of_rep (rep v) = v }.

Section pod.
Context {T : Type} `{POD T}.

(** [buf] is the memory of the new string. *)
Definition EncodePOD (buf : list Z) (value : T) : outcome (list Z) :=
  store_bytes (take sizeof_ buf) 0 (rep value).

(** [None]: returns false. *)
Definition DecodePOD (str : list Z) : outcome (option T) :=
  if negb (zlen str =? Z.of_nat sizeof_) then Ok None
  else l ← load_bytes str 0 sizeof_; Ok (Some (of_rep l)).

Fixpoint encode_loop (buf : list Z) (ptr : Z) (l : list T) : outcome (list Z) :=
  match l with
  | [] => Ok buf
  | t :: l =>
      buf ← store_bytes buf ptr (rep t);
      encode_loop buf (ptr + Z.of_nat sizeof_) l
  end.
Definition EncodeManyPOD (buf : list Z) (container : list T) : outcome (list Z) :=
  if zlen container =? 0 then Ok []
  else encode_loop (take (length container * sizeof_) buf) 0 container.
Definition EncodeVectorPOD (buf : list Z) (vec : list T) : outcome (list Z) :=
  EncodeManyPOD buf vec.

Fixpoint decode_loop (fuel : nat) (str : list Z) (ptr : Z) (result : list T) :
    outcome (list T) :=
  if ptr =? zlen str then Ok result
  else
    match fuel with
    | O => UB
    | S fuel =>
        l ← load_bytes str ptr sizeof_;
        decode_loop fuel str (ptr + Z.of_nat sizeof_) (result ++ [of_rep l])
    end.
Definition DecodeVectorPOD (str : list Z) : outcome (option (list T)) :=
  if negb (zlen str mod Z.of_nat sizeof_ =? 0) then Ok None
  else r ← decode_loop (length str) str 0 []; Ok (Some r).
End pod.

(** Numbers of [n] bytes, floating-point ones as their bit patterns. *)
#[refine, global] Instance uint_pod (n : nat) (Hn : (0 < n)%nat) : POD Z | 10 := {
  sizeof_ := n;
  rep := le_store n;
  of_rep := le_load;
  value_ok := fun v => 0 <= v < 2 ^ (8 * Z.of_nat n);
  sizeof_pos := Hn;
  rep_length := length_le_store n }.
Proof. intros v Hv. rewrite le_load_store. apply Z.mod_small. exact Hv. Defined.
Definition pod4 : POD Z := uint_pod 4 (Nat.lt_0_succ 3).
Definition pod8 : POD Z := uint_pod 8 (Nat.lt_0_succ 7).

Definition EncodeDouble (buf : list Z) (d : Z) := EncodePOD (H := pod8) buf d.
Definition EncodeFloat (buf : list Z) (f : Z) := EncodePOD (H := pod4) buf f.
Definition EncodeUint32 (buf : list Z) (i : Z) := EncodePOD (H := pod4) buf i.
Definition EncodeUint64 (buf : list Z) (i : Z) := EncodePOD (H := pod8) buf i.
Definition DecodeDouble (s : list Z) := DecodePOD (H := pod8) s.
Definition DecodeFloat (s : list Z) := DecodePOD (H := pod4) s.
Definition DecodeUint32 (s : list Z) := DecodePOD (H := pod4) s.
Definition DecodeUint64 (s : list Z) := DecodePOD (H := pod8) s.

(** ** Dictionaries *)

Definition COMMA : Z := 44.
Definition COLON : Z := 58.

Section dictionary.
Context {V : Type}.
(** [StrSplit(s, c)], [StrJoin(l, s)] and [PairFormatter(s)]; [SimpleAtoi] returns its
    result and what it leaves in a variable of the given value. *)
Variable StrSplit : list Z -> Z -> list (list Z).
Variable StrJoin : list (list Z) -> list Z -> list Z.
Variable PairFormatter : list Z -> list Z * V -> list Z.
Variable SimpleAtoi : list Z -> V -> bool * V.

(** The loop over the entries; [callback] changes a state. *)
Fixpoint parse_entries {A} (callback : A -> list Z -> list Z -> A) (s : A)
    (entries : list (list Z)) : A * bool :=
  match entries with
  | [] => (s, true)
  | entry :: entries =>
      match StrSplit entry COLON with
      | [] | [_] => (s, false)
      | [key; value] => parse_entries callback (callback s key value) entries
      | _ => (s, false)
      end
  end.
(** [absl::SkipEmpty]. *)
Definition skip_empty (l : list (list Z)) : list (list Z) :=
  List.filter (fun p => negb (zlen p =? 0)) l.
Definition DictionaryParse {A} (callback : A -> list Z -> list Z -> A) (s : A)
    (encoded_str : list Z) : A * bool :=
  parse_entries callback s (skip_empty (StrSplit encoded_str COMMA)).
Definition DictionaryParse_items (items : list (list Z * list Z)) (encoded_str : list Z) :
    list (list Z * list Z) * bool :=
  DictionaryParse (fun items key value => items ++ [(key, value)]) items encoded_str.

Definition DictionaryEncode (dictionary : list (list Z * V)) : list Z :=
  StrJoin (map (PairFormatter [COLON]) dictionary) [COMMA].

(** [dictionary[key]] makes an entry with the value [zero]. *)
Fixpoint decode_items (zero : V) (d : gmap (list Z) V) (items : list (list Z * list Z)) :
    gmap (list Z) V * bool :=
  match items with
  | [] => (d, true)
  | (key, text) :: items =>
      let '(ok, v) := SimpleAtoi text (default zero (d !! key)) in
      let d := <[key := v]> d in
      if negb ok then (d, false) else decode_items zero d items
  end.
Definition DictionaryDecode (zero : V) (d : gmap (list Z) V) (encoded_str : list Z) :
    gmap (list Z) V * bool :=
  let '(items, ok) := DictionaryParse_items [] encoded_str in
  if negb ok then (d, false) else decode_items zero ∅ items.
End dictionary.
