(* ===== verification/SerializeSpec.v ===== *)
(** * What keys, plain bytes and dictionaries promise

    The bytes of keys; then the properties: keys sort like numbers, and everything
    reads back. *)
From Stdlib Require Import ZArith Lia Bool String.
From stdpp Require Import base list gmap.
From S2P Require Import Prelude.
From S2P Require Import Endian.
From S2P Require Import SplitText.
From S2P Require Import Serialize.
Local Open Scope Z_scope.

(** ** The order of keys *)

Lemma compare_keys n a b : 0 <= a < 2 ^ (8 * Z.of_nat n) -> 0 <= b < 2 ^ (8 * Z.of_nat n) ->
  string_compare (be_store n a) (be_store n b) = (a ?= b).
Proof.
  intros Ha Hb. rewrite string_compare_be; auto using be_store_ok.
  - rewrite !be_load_store, !Z.mod_small by auto. reflexivity.
  - rewrite !length_be_store. reflexivity.
Qed.

(** ** Unsigned keys *)

Lemma Uint32ToKey_be n : Uint32ToKey n = be_store 4 n.
Proof. apply le_store_byteswap. Qed.
Lemma Uint64ToKey_be n : Uint64ToKey n = be_store 8 n.
Proof. apply le_store_byteswap. Qed.

Lemma be_store_split a b x : be_store (a + b) x =
  be_store a (x / 2 ^ (8 * Z.of_nat b)) ++ be_store b (x mod 2 ^ (8 * Z.of_nat b)).
Proof.
  apply be_load_inj; auto using be_store_ok.
  - apply bytes_ok_app. auto using be_store_ok.
  - rewrite length_app, !length_be_store. reflexivity.
  - rewrite be_load_app, !be_load_store, zlen_be_store.
    set (q := 2 ^ (8 * Z.of_nat b)). assert (0 < q) by (apply pow2_pos; lia).
    replace (2 ^ (8 * Z.of_nat (a + b))) with (q * 2 ^ (8 * Z.of_nat a))
      by (unfold q; rewrite <- Z.pow_add_r by lia; f_equal; lia).
    assert (0 < 2 ^ (8 * Z.of_nat a)) by (apply pow2_pos; lia).
    rewrite Z.rem_mul_r, Z.mod_mod by lia. lia.
Qed.

Lemma Uint128ToKey_be n : Uint128ToKey n = be_store 16 n.
Proof.
  unfold Uint128ToKey. rewrite !le_store_byteswap. symmetry. apply (be_store_split 8 8).
Qed.

(** A number of [n] bytes, read back. *)
Lemma load_be n x rest : load_bytes (be_store n x ++ rest) 0 n = Ok (be_store n x).
Proof.
  apply (load_bytes_app [] (be_store n x) rest n). rewrite length_be_store. reflexivity.
Qed.

Lemma load_be_end k n x y : load_bytes (be_store k y ++ be_store n x) (Z.of_nat k) n =
  Ok (be_store n x).
Proof.
  rewrite <- (zlen_be_store k y). rewrite <- (app_nil_r (be_store n x)) at 1.
  apply load_bytes_app. rewrite length_be_store. reflexivity.
Qed.

Lemma byteswap_be n x : 0 <= x < 2 ^ (8 * Z.of_nat n) -> byteswap n (le_load (be_store n x)) = x.
Proof.
  intros Hx. rewrite byteswap_le_load by (auto using be_store_ok, length_be_store).
  rewrite be_load_store. apply Z.mod_small. auto.
Qed.

Section keys.
Context `{BuildMode}.

Lemma KeyToUint32_key n : 0 <= n < 2 ^ 32 -> KeyToUint32 (Uint32ToKey n) = Ok n.
Proof.
  intros Hn. rewrite Uint32ToKey_be. unfold KeyToUint32. rewrite zlen_be_store.
  rewrite <- (app_nil_r (be_store 4 n)), load_be, DCHECK_true, !bind_Ok.
  rewrite byteswap_be by lia. reflexivity.
Qed.
Lemma KeyToUint64_key n : 0 <= n < 2 ^ 64 -> KeyToUint64 (Uint64ToKey n) = Ok n.
Proof.
  intros Hn. rewrite Uint64ToKey_be. unfold KeyToUint64. rewrite zlen_be_store.
  rewrite <- (app_nil_r (be_store 8 n)), load_be, DCHECK_true, !bind_Ok.
  rewrite byteswap_be by lia. reflexivity.
Qed.
Lemma KeyToUint128_key n : 0 <= n < 2 ^ 128 -> KeyToUint128 (Uint128ToKey n) = Ok n.
Proof.
  intros Hn. unfold KeyToUint128, Uint128ToKey. rewrite !le_store_byteswap.
  rewrite zlen_app, !zlen_be_store, DCHECK_true, !bind_Ok.
  rewrite load_be, (load_be_end 8 8), !bind_Ok.
  change (CHECK (16 <=? Z.of_nat 8 + Z.of_nat 8)) with (Ok tt). rewrite bind_Ok.
  unfold Uint128High64, Uint128Low64, MakeUint128. f_equal.
  rewrite !byteswap_be by (change (2 ^ (8 * Z.of_nat 8)) with (2 ^ 64); zlia). zlia.
Qed.

(** ** Floating-point keys *)

(** The sign and the magnitude of a bit pattern, as one number. *)
Definition smag (w f : Z) : Z := if f <? 2 ^ (w - 1) then f else - (f - 2 ^ (w - 1)).

Lemma pow2_half w : 0 < w -> 2 ^ w = 2 ^ (w - 1) * 2.
Proof. intros Hw. rewrite (pow2_split 1 w) by lia. reflexivity. Qed.

Lemma sign_bit_eq w : w = 32 \/ w = 64 -> sign_bit w = 2 ^ (w - 1).
Proof. intros [->| ->]; reflexivity. Qed.

(** The sign bit is the top one. *)
Lemma sign_test w f : w = 32 \/ w = 64 -> 0 <= f < 2 ^ w ->
  (Z.land f (sign_bit w) =? 0) = (f <? 2 ^ (w - 1)).
Proof.
  intros Hw Hf. rewrite sign_bit_eq by auto. assert (0 < w) by lia.
  pose proof (pow2_half w ltac:(lia)) as Hs.
  assert (Hl : Z.land f (2 ^ (w - 1)) = (f / 2 ^ (w - 1)) * 2 ^ (w - 1)).
  { apply Z.bits_inj'. intros j Hj. rewrite Z.land_spec, testbit_mul_pow2 by lia.
    destruct (Z.eq_dec j (w - 1)) as [->|Hne].
    - rewrite Z.pow2_bits_true, Z.leb_refl, Z.sub_diag, andb_true_r by lia. cbn [andb].
      rewrite Z.div_pow2_bits by lia. f_equal; lia.
    - rewrite Z.pow2_bits_false, andb_false_r by lia. symmetry. apply andb_false_iff.
      destruct (Z.leb_spec (w - 1) j); [right | auto].
      rewrite Z.div_pow2_bits by lia. apply (testbit_small f w); lia. }
  rewrite Hl. pose proof (pow2_pos (w - 1) ltac:(lia)).
  destruct (Z.ltb_spec f (2 ^ (w - 1))).
  - rewrite Z.div_small by lia. reflexivity.
  - pose proof (Z.div_le_lower_bound f (2 ^ (w - 1)) 1 ltac:(lia) ltac:(lia)).
    apply Z.eqb_neq. apply Z.neq_mul_0. lia.
Qed.

Lemma UintFromIEEE754_smag w f : w = 32 \/ w = 64 -> 0 <= f < 2 ^ w ->
  UintFromIEEE754 w f = 2 ^ (w - 1) + smag w f.
Proof.
  intros Hw Hf. unfold UintFromIEEE754, smag, wrap. rewrite sign_test, sign_bit_eq by auto.
  pose proof (pow2_half w ltac:(lia)) as Hs.
  pose proof (pow2_pos (w - 1) ltac:(lia)). destruct (Z.ltb_spec f (2 ^ (w - 1))).
  - rewrite Z.mod_small by lia. lia.
  - symmetry. apply (Z.mod_unique _ _ (-1)); lia.
Qed.

Lemma smag_range w f : 0 < w -> 0 <= f < 2 ^ w -> - 2 ^ (w - 1) < smag w f < 2 ^ (w - 1).
Proof.
  intros Hw Hf. unfold smag.
  pose proof (pow2_half w ltac:(lia)) as Hs.
  pose proof (pow2_pos (w - 1) ltac:(lia)). case_test.
Qed.

(** The pattern with the sign of zero cleared. *)
Definition unsigned_zero (w f : Z) : Z := if f =? 2 ^ (w - 1) then 0 else f.

Lemma IEEE754FromUint_inverse w f : w = 32 \/ w = 64 -> 0 <= f < 2 ^ w ->
  IEEE754FromUint w (UintFromIEEE754 w f) = unsigned_zero w f.
Proof.
  intros Hw Hf. rewrite UintFromIEEE754_smag by auto. pose proof (smag_range w f ltac:(lia) Hf).
  pose proof (pow2_half w ltac:(lia)) as Hs.
  pose proof (pow2_pos (w - 1) ltac:(lia)). unfold IEEE754FromUint.
  rewrite sign_test, sign_bit_eq by (auto; lia). unfold smag, unsigned_zero, wrap in *.
  destruct (Z.ltb_spec f (2 ^ (w - 1))), (Z.eqb_spec f (2 ^ (w - 1))); case_test; simpl;
    try lia; try (rewrite Z.mod_small by lia; lia).
  symmetry. apply (Z.mod_unique _ _ (-1)); lia.
Qed.
End keys.

(** The number a bit pattern stands for, in units of the least positive one: an exponent
    and a fraction of [m] bits after the sign.  The exponent of ones with the fraction 0
    is the infinity, beyond every finite number. *)
Definition fraction_bits (w : Z) : Z := if w =? 64 then 52 else 23.
Definition magnitude (m n : Z) : Z :=
  if n / 2 ^ m =? 0 then n mod 2 ^ m else (2 ^ m + n mod 2 ^ m) * 2 ^ (n / 2 ^ m - 1).
Definition float_value (w f : Z) : Z :=
  if f <? 2 ^ (w - 1) then magnitude (fraction_bits w) f
  else - magnitude (fraction_bits w) (f - 2 ^ (w - 1)).
Definition is_nan (w f : Z) : bool :=
  2 ^ (w - 1) - 2 ^ fraction_bits w <? f mod 2 ^ (w - 1).

(** The magnitudes with one exponent. *)
Lemma magnitude_bounds m n : 0 <= m -> 0 <= n ->
  (if n / 2 ^ m =? 0 then 0 else 2 ^ (m + n / 2 ^ m - 1)) <= magnitude m n
  < 2 ^ (m + n / 2 ^ m).
Proof.
  intros Hm Hn. unfold magnitude. pose proof (pow2_pos m Hm).
  pose proof (Z.div_pos n (2 ^ m) ltac:(lia) ltac:(lia)) as He.
  pose proof (Z.mod_pos_bound n (2 ^ m) ltac:(lia)) as Hf. case_test.
  - rewrite e, Z.add_0_r. lia.
  - set (k := n / 2 ^ m) in *. set (f := n mod 2 ^ m) in *.
    replace (m + k - 1) with (m + (k - 1)) by lia.
    replace (m + k) with (1 + (m + (k - 1))) by lia.
    rewrite !Z.pow_add_r by lia. pose proof (pow2_pos (k - 1) ltac:(lia)).
    change (2 ^ 1) with 2. nia.
Qed.

Lemma magnitude_lt m x y : 0 <= m -> 0 <= x < y -> magnitude m x < magnitude m y.
Proof.
  intros Hm Hxy. pose proof (pow2_pos m Hm). pose proof (Z.div_le_mono x y (2 ^ m)) as Hd.
  pose proof (Z.div_pos x (2 ^ m) ltac:(lia) ltac:(lia)).
  destruct (Z.eq_dec (x / 2 ^ m) (y / 2 ^ m)) as [He|He].
  - unfold magnitude. pose proof (Z.div_mod x (2 ^ m)). pose proof (Z.div_mod y (2 ^ m)).
    rewrite He. case_test. pose proof (pow2_pos (y / 2 ^ m - 1) ltac:(lia)). nia.
  - pose proof (magnitude_bounds m x Hm ltac:(lia)) as [_ Hx].
    pose proof (magnitude_bounds m y Hm ltac:(lia)) as [Hy _].
    rewrite (proj2 (Z.eqb_neq _ _)) in Hy by lia.
    pose proof (Z.pow_le_mono_r 2 (m + x / 2 ^ m) (m + y / 2 ^ m - 1)). lia.
Qed.

Lemma compare_mono {A} (P : A -> Prop) (f g : A -> Z) :
  (forall x y, P x -> P y -> f x < f y -> g x < g y) ->
  (forall x y, P x -> P y -> f x = f y -> g x = g y) ->
  forall x y, P x -> P y -> (f x ?= f y) = (g x ?= g y).
Proof.
  intros Hlt Heq x y Hx Hy. symmetry.
  destruct (Z.compare_spec (f x) (f y)); [apply Z.compare_eq_iff | apply Z.compare_lt_iff
    | apply Z.compare_gt_iff]; auto.
Qed.

Lemma magnitude_0 m : 0 <= m -> magnitude m 0 = 0.
Proof.
  intros Hm. unfold magnitude. rewrite Z.div_0_l, Z.mod_0_l; [reflexivity | |];
    pose proof (pow2_pos m Hm); lia.
Qed.

Lemma magnitude_nonneg m n : 0 <= m -> 0 <= n -> 0 <= magnitude m n.
Proof.
  intros Hm Hn. destruct (Z.eq_dec n 0) as [->|Hz]; [rewrite magnitude_0; lia|].
  pose proof (magnitude_lt m 0 n Hm ltac:(lia)). rewrite magnitude_0 in *; lia.
Qed.

(** The value is a strictly increasing function of the signed magnitude. *)
Lemma float_value_smag w f g : 0 < w -> 0 <= f < 2 ^ w -> 0 <= g < 2 ^ w ->
  (smag w f ?= smag w g) = (float_value w f ?= float_value w g).
Proof.
  intros Hw Hf Hg. assert (Hm : 0 <= fraction_bits w) by (unfold fraction_bits; case_test).
  apply (compare_mono (fun f => 0 <= f < 2 ^ w)); auto; clear f g Hf Hg; intros x y Hx Hy;
    unfold smag, float_value; set (m := fraction_bits w) in *; set (q := 2 ^ (w - 1));
    destruct (Z.ltb_spec x q), (Z.ltb_spec y q); intros Hxy; try lia.
  - apply magnitude_lt; lia.
  - pose proof (magnitude_nonneg m y Hm ltac:(lia)).
    pose proof (magnitude_nonneg m (x - q) Hm ltac:(lia)).
    destruct (Z.eq_dec y 0) as [->|]; [|pose proof (magnitude_lt m 0 y Hm ltac:(lia))];
      rewrite ?magnitude_0 in * by lia; try lia.
    pose proof (magnitude_lt m 0 (x - q) Hm ltac:(lia)). rewrite ?magnitude_0 in * by lia. lia.
  - pose proof (magnitude_lt m (y - q) (x - q) Hm). lia.
  - subst y. reflexivity.
  - replace x with 0 by lia. replace (y - q) with 0 by lia. rewrite magnitude_0; lia.
  - replace y with 0 by lia. replace (x - q) with 0 by lia. rewrite magnitude_0; lia.
  - replace x with y by lia. reflexivity.
Qed.

Lemma UintFromIEEE754_order w f g : w = 32 \/ w = 64 -> 0 <= f < 2 ^ w -> 0 <= g < 2 ^ w ->
  (UintFromIEEE754 w f ?= UintFromIEEE754 w g) = (float_value w f ?= float_value w g).
Proof.
  intros Hw Hf Hg. rewrite !UintFromIEEE754_smag, Z.add_compare_mono_l by auto.
  apply float_value_smag; auto; lia.
Qed.

Lemma UintFromIEEE754_range w f : w = 32 \/ w = 64 -> 0 <= f < 2 ^ w ->
  0 <= UintFromIEEE754 w f < 2 ^ w.
Proof.
  intros Hw Hf. rewrite UintFromIEEE754_smag by auto.
  pose proof (smag_range w f ltac:(lia) Hf). pose proof (pow2_half w ltac:(lia)). lia.
Qed.

(** ** Ordered keys *)

(** Flipping the sign bit adds half the range. *)
Lemma lxor_sign w x : 0 < w -> 0 <= x < 2 ^ w ->
  Z.lxor x (2 ^ (w - 1)) = (x + 2 ^ (w - 1)) mod 2 ^ w.
Proof.
  intros Hw Hx. pose proof (pow2_half w Hw) as Hs. pose proof (pow2_pos (w - 1) ltac:(lia)) as Hp.
  set (q := 2 ^ (w - 1)) in *.
  assert (Hdis : forall y, 0 <= y < q -> Z.lxor y q = y + q).
  { intros y Hy. rewrite Z.add_nocarry_lxor; [reflexivity|].
    apply Z.bits_inj'. intros j Hj. rewrite Z.land_spec, Z.bits_0.
    destruct (Z.eq_dec j (w - 1)) as [->|Hne].
    - rewrite (testbit_small y (w - 1)) by lia. reflexivity.
    - unfold q. rewrite Z.pow2_bits_false by lia. apply andb_false_r. }
  destruct (Z.ltb_spec x q).
  - rewrite Hdis, Z.mod_small by lia. reflexivity.
  - replace x with (Z.lxor (x - q) q) at 1 by (rewrite Hdis; lia).
    rewrite Z.lxor_assoc, Z.lxor_nilpotent, Z.lxor_0_r.
    apply (Z.mod_unique _ _ 1); lia.
Qed.

Definition in_signed (w n : Z) : Prop := - 2 ^ (w - 1) <= n < 2 ^ (w - 1).

Lemma lxor_signed w n : 0 < w -> in_signed w n ->
  Z.lxor (n mod 2 ^ w) (2 ^ (w - 1)) = n + 2 ^ (w - 1).
Proof.
  intros Hw Hn. pose proof (pow2_half w Hw) as Hs. pose proof (pow2_pos w ltac:(lia)).
  rewrite lxor_sign, Z.add_mod_idemp_l by (try apply Z.mod_pos_bound; lia).
  apply Z.mod_small. unfold in_signed in Hn. lia.
Qed.

Lemma lnot_signed w n : in_signed w n -> in_signed w (Z.lnot n).
Proof. unfold in_signed, Z.lnot. lia. Qed.

Lemma Int32ToOrderedString_be n : in_signed 32 n ->
  Int32ToOrderedString n = be_store 4 (n + 2 ^ 31).
Proof.
  intros Hn. unfold Int32ToOrderedString. rewrite Uint32ToKey_be. f_equal.
  apply (lxor_signed 32); [lia | exact Hn].
Qed.
Lemma Int64ToOrderedString_be n : in_signed 64 n ->
  Int64ToOrderedString n = be_store 8 (n + 2 ^ 63).
Proof.
  intros Hn. unfold Int64ToOrderedString. rewrite Uint64ToKey_be. f_equal.
  apply (lxor_signed 64); [lia | exact Hn].
Qed.

(** The loop over the characters of a key. *)
Lemma fold_key w key : forall n, bytes_ok key -> 0 <= n ->
  n * 2 ^ (8 * zlen key) + be_load key < 2 ^ w ->
  fold_left (fun n c => Z.lor (Z.shiftl n 8 mod 2 ^ w) c) key n =
  n * 2 ^ (8 * zlen key) + be_load key.
Proof.
  induction key as [|c key IH]; intros n Hk Hn Hw; cbn [fold_left].
  { change (n = n * 1 + 0). lia. }
  apply bytes_ok_cons in Hk as [Hc Hk]. rewrite be_load_cons, zlen_cons in *.
  replace (8 * (zlen key + 1)) with (8 + 8 * zlen key) in * by lia.
  rewrite Z.pow_add_r in * by (unfold zlen; lia).
  pose proof (be_load_bound key Hk). pose proof (pow2_pos (8 * zlen key) ltac:(unfold zlen; lia)).
  unfold byte_ok in Hc. change (2 ^ 8) with 256 in *.
  assert (Hstep : Z.lor (Z.shiftl n 8 mod 2 ^ w) c = n * 256 + c).
  { rewrite Z.mod_small by (rewrite Z.shiftl_mul_pow2 by lia; change (2 ^ 8) with 256; nia).
    rewrite Z.lor_comm, lor_shiftl_disjoint by lia. change (2 ^ 8) with 256. lia. }
  rewrite Hstep, IH; auto; nia.
Qed.

Lemma swrap_flip w n : 0 < w -> in_signed w n ->
  swrap w (Z.lxor (n + 2 ^ (w - 1)) (2 ^ (w - 1))) = n.
Proof.
  intros Hw Hn. pose proof (pow2_half w Hw) as Hs. unfold in_signed in Hn.
  rewrite lxor_sign by lia. unfold swrap.
  rewrite Z.add_mod_idemp_l by (pose proof (pow2_pos w); lia).
  replace (n + 2 ^ (w - 1) + 2 ^ (w - 1) + 2 ^ (w - 1)) with (n + 2 ^ (w - 1) + 1 * 2 ^ w) by lia.
  rewrite Z.mod_add, Z.mod_small by lia. lia.
Qed.

Lemma OrderedStringToInt32_key n : in_signed 32 n ->
  OrderedStringToInt32 (Int32ToOrderedString n) = Ok n.
Proof.
  intros Hn. rewrite Int32ToOrderedString_be by auto. unfold OrderedStringToInt32.
  rewrite zlen_be_store. change (CHECK (Z.of_nat 4 =? 4)) with (Ok tt). rewrite bind_Ok.
  unfold u32. pose proof (swrap_flip 32 n ltac:(lia) Hn) as Hf. unfold in_signed in Hn.
  rewrite fold_key; rewrite ?be_load_store, ?zlen_be_store; auto using be_store_ok; [| lia |].
  - rewrite Z.mod_small by (cbn in *; lia). f_equal. exact Hf.
  - rewrite Z.mod_small; cbn in *; lia.
Qed.
Lemma OrderedStringToInt64_key n : in_signed 64 n ->
  OrderedStringToInt64 (Int64ToOrderedString n) = Ok n.
Proof.
  intros Hn. rewrite Int64ToOrderedString_be by auto. unfold OrderedStringToInt64.
  rewrite zlen_be_store. change (CHECK (Z.of_nat 8 =? 8)) with (Ok tt). rewrite bind_Ok.
  unfold u64. pose proof (swrap_flip 64 n ltac:(lia) Hn) as Hf. unfold in_signed in Hn.
  rewrite fold_key; rewrite ?be_load_store, ?zlen_be_store; auto using be_store_ok; [| lia |].
  - rewrite Z.mod_small by (cbn in *; lia). f_equal. exact Hf.
  - rewrite Z.mod_small; cbn in *; lia.
Qed.

Lemma swrap_mod w n : 0 < w -> in_signed w n -> swrap w (n mod 2 ^ w) = n.
Proof.
  intros Hw Hn. pose proof (pow2_half w Hw) as Hs. unfold in_signed in Hn. unfold swrap.
  rewrite Z.add_mod_idemp_l by (pose proof (pow2_pos w); lia).
  rewrite Z.mod_small; lia.
Qed.

(** ** Keys *)

Definition in_unsigned (w n : Z) : Prop := 0 <= n < 2 ^ w.

(** Reverse keys compare the other way round. *)
Lemma compare_lnot a b : (Z.lnot a ?= Z.lnot b) = (b ?= a).
Proof.
  unfold Z.lnot. destruct (Z.compare_spec b a); [apply Z.compare_eq_iff
    | apply Z.compare_lt_iff | apply Z.compare_gt_iff]; lia.
Qed.

Lemma Int32ToOrderedString_order a b : in_signed 32 a -> in_signed 32 b ->
  string_compare (Int32ToOrderedString a) (Int32ToOrderedString b) = (a ?= b).
Proof.
  intros Ha Hb. rewrite !Int32ToOrderedString_be by auto. unfold in_signed in *.
  rewrite compare_keys by (cbn in *; lia). rewrite !(Z.add_comm _ (2 ^ 31)). apply Z.add_compare_mono_l.
Qed.
Lemma Int64ToOrderedString_order a b : in_signed 64 a -> in_signed 64 b ->
  string_compare (Int64ToOrderedString a) (Int64ToOrderedString b) = (a ?= b).
Proof.
  intros Ha Hb. rewrite !Int64ToOrderedString_be by auto. unfold in_signed in *.
  rewrite compare_keys by (cbn in *; lia). rewrite !(Z.add_comm _ (2 ^ 63)). apply Z.add_compare_mono_l.
Qed.

(** C38. Keys compare as strings the way the numbers they were made from compare as
    numbers: unsigned integers of every width, signed integers with ordered keys, the
    other way round with reverse ordered keys, and floating-point numbers (an infinity
    beyond the finite numbers of its sign, the two zeros alike; not-a-number has no
    place in the order).  Plain keys of signed integers compare like their bit patterns. *)
Theorem Keys_sort_like_numbers :
  (forall a b, in_unsigned 32 a -> in_unsigned 32 b ->
     string_compare (Uint32ToKey a) (Uint32ToKey b) = (a ?= b)) /\
  (forall a b, in_unsigned 64 a -> in_unsigned 64 b ->
     string_compare (Uint64ToKey a) (Uint64ToKey b) = (a ?= b)) /\
  (forall a b, in_unsigned 128 a -> in_unsigned 128 b ->
     string_compare (Uint128ToKey a) (Uint128ToKey b) = (a ?= b)) /\
  (forall a b, string_compare (Int32ToKey a) (Int32ToKey b) = (u32 a ?= u32 b)) /\
  (forall a b, string_compare (Int64ToKey a) (Int64ToKey b) = (u64 a ?= u64 b)) /\
  (forall a b, in_signed 32 a -> in_signed 32 b ->
     string_compare (Int32ToOrderedString a) (Int32ToOrderedString b) = (a ?= b) /\
     string_compare (Int32ToReverseOrderedString a) (Int32ToReverseOrderedString b) =
       (b ?= a)) /\
  (forall a b, in_signed 64 a -> in_signed 64 b ->
     string_compare (Int64ToOrderedString a) (Int64ToOrderedString b) = (a ?= b) /\
     string_compare (Int64ToReverseOrderedString a) (Int64ToReverseOrderedString b) =
       (b ?= a)) /\
  (forall f g, in_unsigned 64 f -> in_unsigned 64 g -> is_nan 64 f = false ->
     is_nan 64 g = false ->
     string_compare (DoubleToKey f) (DoubleToKey g) = (float_value 64 f ?= float_value 64 g)) /\
  (forall f g, in_unsigned 32 f -> in_unsigned 32 g -> is_nan 32 f = false ->
     is_nan 32 g = false ->
     string_compare (FloatToKey f) (FloatToKey g) = (float_value 32 f ?= float_value 32 g)).
Proof.
  split_and!; try (intros; rewrite ?Uint32ToKey_be, ?Uint64ToKey_be, ?Uint128ToKey_be;
    apply compare_keys; assumption).
  - intros a b. unfold Int32ToKey. rewrite !Uint32ToKey_be. apply compare_keys; apply Z.mod_pos_bound; lia.
  - intros a b. unfold Int64ToKey. rewrite !Uint64ToKey_be. apply compare_keys; apply Z.mod_pos_bound; lia.
  - intros a b Ha Hb. split; [apply Int32ToOrderedString_order; auto|].
    unfold Int32ToReverseOrderedString. rewrite <- compare_lnot.
    apply Int32ToOrderedString_order; apply lnot_signed; auto.
  - intros a b Ha Hb. split; [apply Int64ToOrderedString_order; auto|].
    unfold Int64ToReverseOrderedString. rewrite <- compare_lnot.
    apply Int64ToOrderedString_order; apply lnot_signed; auto.
  - intros f g Hf Hg _ _. unfold DoubleToKey, KeyFromDouble. rewrite !Uint64ToKey_be.
    rewrite compare_keys by (apply (UintFromIEEE754_range 64); auto).
    apply UintFromIEEE754_order; auto.
  - intros f g Hf Hg _ _. unfold FloatToKey, KeyFromFloat. rewrite !Uint32ToKey_be.
    rewrite compare_keys by (apply (UintFromIEEE754_range 32); auto).
    apply UintFromIEEE754_order; auto.
Qed.

(** -1 sorts before 0 with an ordered key and after it with a plain one; -1.0 sorts before
    the least positive float. *)
Lemma Keys_sort_like_numbers_witness :
  string_compare (Int32ToOrderedString (-1)) (Int32ToOrderedString 0) = Lt /\
  string_compare (Int32ToKey (-1)) (Int32ToKey 0) = Gt /\
  string_compare (FloatToKey 0xBF800000) (FloatToKey 1) = Lt.
Proof.
  destruct Keys_sort_like_numbers as (_ & _ & _ & H32 & _ & Hs & _ & _ & Hf).
  split_and!.
  - apply (Hs (-1) 0); unfold in_signed; lia.
  - apply (H32 (-1) 0).
  - rewrite (Hf 0xBF800000 1); [reflexivity | unfold in_unsigned; lia .. | reflexivity | reflexivity].
Defined.

Section keys.
Context `{BuildMode}.

(** Every number is read back from its key; of a floating-point number everything but
    the sign of zero.  A key of the wrong length for an ordered integer is fatal; for the
    others it is fatal in debug builds, and in optimized builds when it is too short. *)
Theorem Keys_read_back :
  (forall n, in_unsigned 32 n -> KeyToUint32 (Uint32ToKey n) = Ok n) /\
  (forall n, in_unsigned 64 n -> KeyToUint64 (Uint64ToKey n) = Ok n) /\
  (forall n, in_unsigned 128 n -> KeyToUint128 (Uint128ToKey n) = Ok n) /\
  (forall n, in_signed 32 n -> KeyToInt32 (Int32ToKey n) = Ok n /\
     OrderedStringToInt32 (Int32ToOrderedString n) = Ok n /\
     ReverseOrderedStringToInt32 (Int32ToReverseOrderedString n) = Ok n) /\
  (forall n, in_signed 64 n -> KeyToInt64 (Int64ToKey n) = Ok n /\
     OrderedStringToInt64 (Int64ToOrderedString n) = Ok n /\
     ReverseOrderedStringToInt64 (Int64ToReverseOrderedString n) = Ok n) /\
  (forall n, in_signed 128 n -> KeyToInt128 (Int128ToKey n) = Ok n) /\
  (forall f, in_unsigned 64 f -> KeyToDouble (DoubleToKey f) = Ok (unsigned_zero 64 f)) /\
  (forall f, in_unsigned 32 f -> KeyToFloat (FloatToKey f) = Ok (unsigned_zero 32 f)) /\
  (forall key, zlen key <> 4 -> OrderedStringToInt32 key = Crash) /\
  (forall key, zlen key <> 8 -> OrderedStringToInt64 key = Crash) /\
  (forall key, zlen key <> 4 -> NDEBUG = false \/ zlen key < 4 -> KeyToUint32 key = Crash) /\
  (forall key, zlen key <> 8 -> NDEBUG = false \/ zlen key < 8 -> KeyToUint64 key = Crash).
Proof.
  assert (Hd : forall (key : list Z) n, zlen key <> n -> NDEBUG = false \/ zlen key < n ->
    forall A (f : outcome A),
      (_ ← DCHECK (zlen key =? n); _ ← CHECK (n <=? zlen key); f) = Crash).
  { intros key n Hn [E|E] A f; rewrite (proj2 (Z.eqb_neq _ _) Hn); unfold DCHECK.
    - rewrite E. reflexivity.
    - rewrite (proj2 (Z.leb_gt _ _) E). destruct NDEBUG; reflexivity. }
  split_and!; auto using KeyToUint32_key, KeyToUint64_key, KeyToUint128_key.
  - intros n Hn. split_and!; auto using OrderedStringToInt32_key.
    + unfold KeyToInt32, Int32ToKey. rewrite KeyToUint32_key by (apply Z.mod_pos_bound; lia).
      rewrite bind_Ok. f_equal. apply (swrap_mod 32); auto; lia.
    + unfold ReverseOrderedStringToInt32, Int32ToReverseOrderedString.
      rewrite OrderedStringToInt32_key, bind_Ok, Z.lnot_involutive by auto using lnot_signed.
      reflexivity.
  - intros n Hn. split_and!; auto using OrderedStringToInt64_key.
    + unfold KeyToInt64, Int64ToKey. rewrite KeyToUint64_key by (apply Z.mod_pos_bound; lia).
      rewrite bind_Ok. f_equal. apply (swrap_mod 64); auto; lia.
    + unfold ReverseOrderedStringToInt64, Int64ToReverseOrderedString.
      rewrite OrderedStringToInt64_key, bind_Ok, Z.lnot_involutive by auto using lnot_signed.
      reflexivity.
  - intros n Hn. unfold KeyToInt128, Int128ToKey.
    rewrite KeyToUint128_key by (apply Z.mod_pos_bound; lia).
    rewrite bind_Ok. f_equal. apply (swrap_mod 128); auto; lia.
  - intros f Hf. unfold KeyToDouble, DoubleToKey, KeyFromDouble.
    rewrite KeyToUint64_key, bind_Ok by (apply (UintFromIEEE754_range 64); auto).
    f_equal. apply IEEE754FromUint_inverse; auto.
  - intros f Hf. unfold KeyToFloat, FloatToKey, KeyFromFloat.
    rewrite KeyToUint32_key, bind_Ok by (apply (UintFromIEEE754_range 32); auto).
    f_equal. apply IEEE754FromUint_inverse; auto.
  - intros key Hk. unfold OrderedStringToInt32. rewrite (proj2 (Z.eqb_neq _ _) Hk). reflexivity.
  - intros key Hk. unfold OrderedStringToInt64. rewrite (proj2 (Z.eqb_neq _ _) Hk). reflexivity.
  - intros key Hk Hm. apply (Hd key 4 Hk Hm).
  - intros key Hk Hm. apply (Hd key 8 Hk Hm).
Qed.
End keys.

(** -0.0 comes back as 0.0; a short key is fatal even in optimized builds. *)
Lemma Keys_read_back_witness :
  KeyToDouble (H := debug_build) (DoubleToKey (2 ^ 63)) = Ok 0 /\
  KeyToUint32 (H := opt_build) [1; 2; 3] = Crash.
Proof.
  split.
  - destruct (Keys_read_back (H := debug_build)) as (_ & _ & _ & _ & _ & _ & Hd & _).
    rewrite Hd; [reflexivity | unfold in_unsigned; lia].
  - destruct (Keys_read_back (H := opt_build)) as (_ & _ & _ & _ & _ & _ & _ & _ & _ & _ & H4 & _).
    apply H4; [discriminate | right; reflexivity].
Defined.

(** ** Plain old data *)

Section pod.
Context {T : Type} `{POD T}.
Local Abbreviation size := (sizeof_ (T := T)).

Lemma zlen_rep v : zlen (rep v) = Z.of_nat size.
Proof. unfold zlen. rewrite rep_length. reflexivity. Qed.

Lemma length_reps (l : list T) : length (concat (map rep l)) = (length l * size)%nat.
Proof. induction l; simpl; [reflexivity|]. rewrite length_app, rep_length, IHl. reflexivity. Qed.

Lemma encode_loop_eq (l : list T) : forall pre old, length old = (length l * size)%nat ->
  encode_loop (pre ++ old) (zlen pre) l = Ok (pre ++ concat (map rep l)).
Proof.
  induction l as [|t l IH]; intros pre old Ho; cbn [encode_loop].
  { apply nil_length_inv in Ho. subst. reflexivity. }
  simpl in Ho. rewrite <- (take_drop size old).
  rewrite store_bytes_app by (rewrite length_take, rep_length; lia). rewrite bind_Ok.
  rewrite app_assoc, <- (zlen_rep t), <- zlen_app.
  rewrite IH by (rewrite length_drop; lia). simpl. rewrite app_assoc. reflexivity.
Qed.

(** Bytes that are a multiple of the size are read, each element by itself. *)
Fixpoint elements (k : nat) (s : list Z) : list T :=
  match k with
  | O => []
  | S k => of_rep (take size s) :: elements k (drop size s)
  end.

Lemma decode_loop_eq k : forall fuel pre s r, length s = (k * size)%nat -> (k <= fuel)%nat ->
  decode_loop fuel (pre ++ s) (zlen pre) r = Ok (r ++ elements k s).
Proof.
  induction k as [|k IH]; intros fuel pre s r Hs Hf; simpl.
  - apply nil_length_inv in Hs. subst. rewrite app_nil_r, app_nil_r.
    destruct fuel; simpl; rewrite Z.eqb_refl; reflexivity.
  - destruct fuel as [|fuel]; [lia|]. pose proof (sizeof_pos (T := T)). simpl in *.
    rewrite zlen_app, (proj2 (Z.eqb_neq _ _)) by (unfold zlen; lia).
    rewrite <- (take_drop size s) at 1.
    assert (Ht : length (take size s) = size) by (rewrite length_take; lia).
    rewrite load_bytes_app by auto. rewrite bind_Ok.
    rewrite <- (take_drop size s) at 1. rewrite app_assoc.
    replace (zlen pre + Z.of_nat size) with (zlen (pre ++ take size s))
      by (rewrite zlen_app; unfold zlen; rewrite Ht; reflexivity).
    rewrite IH by (rewrite ?length_drop; lia). rewrite <- app_assoc. reflexivity.
Qed.

Lemma DecodeVectorPOD_elements s k : length s = (k * size)%nat ->
  DecodeVectorPOD s = Ok (Some (elements k s)).
Proof.
  intros Hs. pose proof (sizeof_pos (T := T)). unfold DecodeVectorPOD.
  assert (Hm : zlen s mod Z.of_nat size = 0)
    by (unfold zlen; rewrite Hs, Nat2Z.inj_mul; apply Z.mod_mul; lia).
  rewrite Hm, Z.eqb_refl. cbn [negb].
  pose proof (decode_loop_eq k (length s) [] s [] Hs ltac:(nia)) as E. simpl in E.
  change (zlen (@nil Z)) with 0 in E. rewrite E. reflexivity.
Qed.

Lemma elements_reps (l : list T) : Forall value_ok l ->
  elements (length l) (concat (map rep l)) = l.
Proof.
  induction 1 as [|v l Hv Hl IH]; simpl; [reflexivity|].
  rewrite take_app_length', drop_app_length', of_rep_rep, IH by auto using rep_length. reflexivity.
Qed.

(** The bytes of a value or of many values are written into the memory of the new
    string and nothing outside it, and read back as the same values; exactly the strings
    whose length is the size of the type, or a multiple of it, are accepted. *)
Theorem POD_roundtrip :
  (forall buf (v : T), (size <= length buf)%nat -> EncodePOD buf v = Ok (rep v)) /\
  (forall buf (l : list T), (length l * size <= length buf)%nat ->
     EncodeManyPOD buf l = Ok (concat (map rep l))) /\
  (forall v : T, value_ok v -> DecodePOD (rep v) = Ok (Some v)) /\
  (forall l : list T, Forall value_ok l ->
     DecodeVectorPOD (concat (map rep l)) = Ok (Some l)) /\
  (forall s, DecodePOD s =
     Ok (if decide (length s = size) then Some (of_rep s) else None)) /\
  (forall s, match DecodeVectorPOD s with
             | Ok None => ~ (Z.of_nat size | zlen s)
             | Ok (Some r) => length s = (length r * size)%nat
             | _ => False
             end).
Proof.
  pose proof (sizeof_pos (T := T)) as Hpos.
  assert (Hdec : forall s, DecodePOD s =
     Ok (if decide (length s = size) then Some (of_rep s) else None)).
  { intros s. unfold DecodePOD. destruct (decide (length s = size)) as [E|E].
    - unfold load_bytes, zlen. rewrite E, Z.eqb_refl. cbn [negb].
      rewrite (proj2 (Z.leb_le 0 0)), (proj2 (Z.leb_le (0 + Z.of_nat size) _)) by lia. simpl.
      rewrite drop_0, take_ge by lia. reflexivity.
    - unfold zlen. rewrite (proj2 (Z.eqb_neq _ _)) by lia. reflexivity. }
  split_and!; auto.
  - intros buf v Hb. unfold EncodePOD.
    pose proof (store_bytes_app [] (take size buf) (rep v) []) as E.
    rewrite !app_nil_r in E. apply E. rewrite length_take, rep_length. lia.
  - intros buf l Hb. unfold EncodeManyPOD. destruct l as [|t l]; [reflexivity|].
    rewrite (proj2 (Z.eqb_neq _ _)) by (rewrite zlen_cons; pose proof (zlen_nonneg l); lia).
    apply (encode_loop_eq (t :: l) [] (take (length (t :: l) * size) buf)).
    rewrite length_take. lia.
  - intros v Hv. rewrite Hdec, decide_True, of_rep_rep by auto using rep_length. reflexivity.
  - intros l Hl. rewrite (DecodeVectorPOD_elements _ (length l)) by apply length_reps.
    rewrite elements_reps by auto. reflexivity.
  - intros s. destruct (Z.eq_dec (zlen s mod Z.of_nat size) 0) as [Hm|Hm].
    + apply Z.mod_divide in Hm as [k Hk]; [|lia]. assert (Hk0 : 0 <= k) by (unfold zlen in Hk; nia).
      assert (Hs : length s = (Z.to_nat k * size)%nat) by (unfold zlen in Hk; nia).
      rewrite (DecodeVectorPOD_elements s (Z.to_nat k)) by auto.
      rewrite Hs. f_equal. clear. induction (Z.to_nat k) in s |- *; simpl; congruence.
    + unfold DecodeVectorPOD.
      rewrite (proj2 (Z.eqb_neq _ _)) by exact Hm. cbn [negb].
      intros Hd. apply Hm, Z.mod_divide; [lia | exact Hd].
Qed.
End pod.

(** Three numbers of four bytes, and a string of five bytes. *)
Lemma POD_roundtrip_witness :
  DecodeVectorPOD (H := pod4) (concat (map (le_store 4) [1; 2 ^ 31; 7])) = Ok (Some [1; 2 ^ 31; 7])
  /\ EncodeUint64 [9; 9; 9; 9; 9; 9; 9; 9; 9] 258 = Ok [2; 1; 0; 0; 0; 0; 0; 0].
Proof.
  split.
  - destruct (POD_roundtrip (H := pod4)) as (_ & _ & _ & Hd & _ & _). apply (Hd [1; 2 ^ 31; 7]).
    repeat constructor; simpl; lia.
  - destruct (POD_roundtrip (H := pod8)) as (He & _ & _ & _ & _ & _).
    apply (He [9; 9; 9; 9; 9; 9; 9; 9; 9] 258). simpl. lia.
Defined.

(** ** Dictionaries *)

(** The pieces before the first one that fails a test. *)
Fixpoint prefix_while {A} (f : A -> bool) (l : list A) : list A :=
  match l with
  | [] => []
  | x :: l => if f x then x :: prefix_while f l else []
  end.

Definition separators (sep : Z) (s : list Z) : nat :=
  length (List.filter (fun c => c =? sep) s).

(** What is before the first separator, and what is after it. *)
Fixpoint cut (sep : Z) (s : list Z) : list Z * list Z :=
  match s with
  | [] => ([], [])
  | c :: r => if c =? sep then ([], r) else let '(k, v) := cut sep r in (c :: k, v)
  end.

Lemma split_at_length sep s : length (split_at s sep) = S (separators sep s).
Proof.
  unfold separators. induction s as [|c s IH]; simpl; [reflexivity|].
  destruct (c =? sep); simpl; [congruence|]. destruct (split_at s sep); simpl in *; congruence.
Qed.

Lemma cut_app sep k v : free sep k -> cut sep (k ++ sep :: v) = (k, v).
Proof.
  induction 1 as [|c k Hc Hk IH]; simpl; [rewrite Z.eqb_refl; reflexivity|].
  rewrite (proj2 (Z.eqb_neq _ _) Hc), IH. reflexivity.
Qed.

Lemma split_at_two sep s k v : split_at s sep = [k; v] -> cut sep s = (k, v).
Proof.
  intros E. destruct (split_at_law s sep) as (_ & Hj & Hf). rewrite E in Hj, Hf.
  simpl in Hj. subst s. apply cut_app. inversion_clear Hf. assumption.
Qed.

Section dictionary.
Context {V : Type}.
Variable StrSplit : list Z -> Z -> list (list Z).
Variable StrJoin : list (list Z) -> list Z -> list Z.
Variable PairFormatter : list Z -> list Z * V -> list Z.
Variable SimpleAtoi : list Z -> V -> bool * V.
(** The text of a value. *)
Variable text : V -> list Z.
Hypothesis StrSplit_law : split_law StrSplit.
Hypothesis StrJoin_law : forall l sep, StrJoin l [sep] = join_with sep l.
Hypothesis PairFormatter_law : forall sep k v, PairFormatter sep (k, v) = k ++ sep ++ text v.

Definition well_formed (entry : list Z) : bool := (separators COLON entry =? 1)%nat.
Definition entries_of (s : list Z) : list (list Z) := skip_empty (split_at s COMMA).

Lemma parse_entries_eq {A} (callback : A -> list Z -> list Z -> A) entries : forall s,
  parse_entries StrSplit callback s entries =
  (fold_left (fun s '(k, v) => callback s k v)
     (map (cut COLON) (prefix_while well_formed entries)) s,
   forallb well_formed entries).
Proof.
  induction entries as [|e entries IH]; intros s; cbn [parse_entries]; [reflexivity|].
  rewrite (split_unique StrSplit) by auto. pose proof (split_at_length COLON e) as Hl.
  simpl. unfold well_formed at 1 3.
  destruct (split_at e COLON) as [|k [|v [|x r]]] eqn:Ee; simpl in Hl; try discriminate;
    injection Hl as <-; try reflexivity.
  simpl. rewrite IH, (split_at_two COLON e k v) by auto. reflexivity.
Qed.

Lemma DictionaryParse_eq {A} (callback : A -> list Z -> list Z -> A) s encoded_str :
  DictionaryParse StrSplit callback s encoded_str =
  (fold_left (fun s '(k, v) => callback s k v)
     (map (cut COLON) (prefix_while well_formed (entries_of encoded_str))) s,
   forallb well_formed (entries_of encoded_str)).
Proof.
  unfold DictionaryParse. rewrite (split_unique StrSplit) by auto. apply parse_entries_eq.
Qed.

Lemma DictionaryParse_items_eq items encoded_str :
  DictionaryParse_items StrSplit items encoded_str =
  (items ++ map (cut COLON) (prefix_while well_formed (entries_of encoded_str)),
   forallb well_formed (entries_of encoded_str)).
Proof.
  unfold DictionaryParse_items. rewrite DictionaryParse_eq. f_equal.
  generalize (map (cut COLON) (prefix_while well_formed (entries_of encoded_str))) as l.
  intros l. revert items. induction l as [|[k v] l IH]; intros items; simpl.
  - rewrite app_nil_r. reflexivity.
  - rewrite IH, <- app_assoc. reflexivity.
Qed.

Lemma prefix_while_all {A} (f : A -> bool) l : forallb f l = true -> prefix_while f l = l.
Proof.
  induction l as [|x l IH]; simpl; [reflexivity|]. intros Hf. apply andb_true_iff in Hf as [-> Hf].
  rewrite IH by auto. reflexivity.
Qed.

(** Whatever the text: the entries are the pieces between commas that are not empty,
    and an entry is well formed when it has exactly one colon.  The callback sees the keys
    and values of the entries before the first one that is not well formed, in order, and
    the call succeeds when all are.  A dictionary is left as it was, not cleared, when the
    text does not parse; otherwise its old entries are gone, and it has the entries up to
    the first value that does not read as a number. *)
Theorem DictionaryParse_spec :
  (forall A (callback : A -> list Z -> list Z -> A) s encoded_str,
     DictionaryParse StrSplit callback s encoded_str =
     (fold_left (fun s '(k, v) => callback s k v)
        (map (cut COLON) (prefix_while well_formed (entries_of encoded_str))) s,
      forallb well_formed (entries_of encoded_str))) /\
  (forall zero d encoded_str, forallb well_formed (entries_of encoded_str) = false ->
     DictionaryDecode StrSplit SimpleAtoi zero d encoded_str = (d, false)) /\
  (forall zero d d' encoded_str, forallb well_formed (entries_of encoded_str) = true ->
     DictionaryDecode StrSplit SimpleAtoi zero d encoded_str =
       DictionaryDecode StrSplit SimpleAtoi zero d' encoded_str /\
     DictionaryDecode StrSplit SimpleAtoi zero d encoded_str =
       decode_items SimpleAtoi zero ∅ (map (cut COLON) (entries_of encoded_str))).
Proof.
  split_and!.
  - intros. apply DictionaryParse_eq.
  - intros zero d e Hf. unfold DictionaryDecode. rewrite DictionaryParse_items_eq, Hf. reflexivity.
  - intros zero d d' e Hf. unfold DictionaryDecode. rewrite !DictionaryParse_items_eq, !Hf.
    simpl. rewrite prefix_while_all by auto. auto.
Qed.

(** ** Round trip *)

Definition plain (s : list Z) : Prop := free COMMA s /\ free COLON s.
Hypothesis SimpleAtoi_law : forall v old, plain (text v) -> SimpleAtoi (text v) old = (true, v).

Definition entry_text (kv : list Z * V) : list Z := kv.1 ++ COLON :: text kv.2.

Lemma separators_free sep s : free sep s -> separators sep s = O.
Proof.
  unfold separators. induction 1 as [|c s Hc Hs IH]; simpl; [reflexivity|].
  rewrite (proj2 (Z.eqb_neq _ _) Hc). exact IH.
Qed.

Lemma entry_well_formed k v : plain k -> plain (text v) ->
  free COMMA (entry_text (k, v)) /\ well_formed (entry_text (k, v)) = true /\
  cut COLON (entry_text (k, v)) = (k, text v) /\ entry_text (k, v) <> [].
Proof.
  intros [Hk1 Hk2] [Hv1 Hv2]. unfold entry_text. simpl. split_and!.
  - apply Forall_app. split; [auto|]. constructor; [discriminate | auto].
  - unfold well_formed, separators. rewrite List.filter_app, length_app. simpl.
    fold (separators COLON k). fold (separators COLON (text v)).
    rewrite !separators_free by auto. reflexivity.
  - apply cut_app. auto.
  - destruct k; discriminate.
Qed.

Definition plain_entry (kv : list Z * V) : Prop := plain kv.1 /\ plain (text kv.2).

Lemma entries_of_encoded dict : Forall plain_entry dict ->
  entries_of (DictionaryEncode StrJoin PairFormatter dict) = map entry_text dict.
Proof.
  intros Hd. unfold DictionaryEncode, entries_of. rewrite StrJoin_law.
  assert (Hm : map (PairFormatter [COLON]) dict = map entry_text dict).
  { apply map_ext. intros [k v]. rewrite PairFormatter_law. reflexivity. }
  rewrite Hm. clear Hm. destruct dict as [|e dict]; [reflexivity|].
  rewrite split_at_join; [| discriminate |].
  - unfold skip_empty. induction Hd as [|[k v] l [Hk Hv] Hl IH]; [reflexivity|].
    destruct (entry_well_formed k v Hk Hv) as (_ & _ & _ & Hn).
    cbn [map List.filter]. rewrite (proj2 (Z.eqb_neq _ _)) by (intros E; apply Hn, zlen_0, E).
    simpl. f_equal. exact IH.
  - rewrite Forall_map. eapply Forall_impl; [exact Hd|]. intros [k v] [Hk Hv].
    apply (entry_well_formed k v Hk Hv).
Qed.

Lemma decode_items_text zero dict : forall d : gmap (list Z) V, Forall plain_entry dict ->
  decode_items SimpleAtoi zero d (map (cut COLON) (map entry_text dict)) =
  (fold_left (fun d '(k, v) => <[k := v]> d) dict d, true).
Proof.
  induction dict as [|[k v] dict IH]; intros d Hd; [reflexivity|].
  inversion_clear Hd as [|? ? [Hk Hv] Hl]. simpl in Hk, Hv.
  destruct (entry_well_formed k v Hk Hv) as (_ & _ & Hc & _). cbn [map decode_items].
  rewrite Hc, SimpleAtoi_law by auto. simpl. apply IH. auto.
Qed.

Lemma fold_insert_fresh (dict : list (list Z * V)) : forall d : gmap (list Z) V, NoDup dict.*1 ->
  (forall k, k ∈ dict.*1 -> d !! k = None) ->
  fold_left (fun d '(k, v) => <[k := v]> d) dict d = list_to_map dict ∪ d.
Proof.
  induction dict as [|[k v] dict IH]; intros d Hn Hf; simpl.
  - rewrite map_empty_union. reflexivity.
  - inversion_clear Hn as [|? ? Hk Hd]. rewrite IH; auto.
    + rewrite <- insert_union_l, <- insert_union_r; [reflexivity|].
      apply not_elem_of_list_to_map_1. exact Hk.
    + intros k' Hk'. rewrite lookup_insert_ne by (intros ->; contradiction).
      apply Hf. right. exact Hk'.
Qed.

(** A dictionary whose keys, and the texts of whose values, are free of commas and
    colons is read back from its text, in whatever order its entries were written and
    whatever the dictionary held that is read into. *)
Theorem Dictionary_roundtrip zero (dict : list (list Z * V)) d :
  NoDup dict.*1 -> Forall plain_entry dict ->
  DictionaryDecode StrSplit SimpleAtoi zero d (DictionaryEncode StrJoin PairFormatter dict) =
  (list_to_map dict, true).
Proof.
  intros Hn Hd. unfold DictionaryDecode. rewrite DictionaryParse_items_eq, entries_of_encoded by auto.
  assert (Hw : forallb well_formed (map entry_text dict) = true).
  { apply forallb_forall. intros e He. apply in_map_iff in He as ([k v] & <- & Hi).
    rewrite List.Forall_forall in Hd. destruct (Hd _ Hi) as [Hk Hv].
    apply (entry_well_formed k v Hk Hv). }
  rewrite Hw. simpl. rewrite prefix_while_all by auto. rewrite decode_items_text by auto.
  rewrite fold_insert_fresh by first [exact Hn | intros; apply lookup_empty].
  rewrite map_union_empty. reflexivity.
Qed.
End dictionary.

(** ** Concrete instances *)

Definition digit_text (v : Z) : list Z := [48 + v].
Definition digit_atoi (s : list Z) (old : Z) : bool * Z :=
  match s with [c] => (true, c - 48) | _ => (false, 0) end.
Definition digit_pair (sep : list Z) (kv : list Z * Z) : list Z :=
  kv.1 ++ sep ++ digit_text kv.2.

Lemma Dictionary_roundtrip_witness :
  DictionaryDecode split_at digit_atoi 0 {[ str "old" := 9 ]} (str "a:1,b:2") =
  (list_to_map [(str "a", 1); (str "b", 2)], true).
Proof.
  apply (Dictionary_roundtrip split_at (fun l s => join_with (default 0 (head s)) l) digit_pair
    digit_atoi digit_text split_at_law ltac:(reflexivity) ltac:(reflexivity)
    ltac:(intros v old _; unfold digit_atoi, digit_text; f_equal; lia)
    0 [(str "a", 1); (str "b", 2)] {[ str "old" := 9 ]}).
  - repeat constructor; set_solver.
  - repeat constructor; discriminate.
Defined.

(** The second entry has no colon: one call, and the dictionary keeps its entry. *)
Lemma DictionaryParse_spec_witness :
  DictionaryParse split_at (fun n _ _ => n + 1) 0 (str "a:1,b,c:3") = (1, false) /\
  DictionaryDecode split_at digit_atoi 0 {[ str "old" := 9 ]} (str "a:1,b,c:3") =
  ({[ str "old" := 9 ]}, false).
Proof.
  destruct (DictionaryParse_spec (V := Z) split_at digit_atoi split_at_law) as (Hp & Hb & _).
  split; [rewrite Hp; reflexivity | apply Hb; reflexivity].
Defined.
