(* ===== verification/ConstantDivisor.v ===== *)
(** * Division by multiplication

    [util/math/constant_divisor.h] and [constant_divisor.cc]: the four specialisations of
    [ConstantDivisor], which divide by a precomputed reciprocal.  Products of 16- and
    8-bit values are computed in [int], the others wrap at their width; the 128-bit
    operations are those of [absl::uint128].  [kShift] is the constant of the two small
    specialisations, which their comments say may vary. *)
From Stdlib Require Import ZArith Lia Bool.
From stdpp Require Import base list.
From S2P Require Import Prelude.
Local Open Scope Z_scope.

Record ConstantDivisor := mkDivisor { magic_ : Z; denominator_ : Z }.

(** A value of type [int]. *)
Definition int_value (x : Z) : outcome Z :=
  if (- 2 ^ 31 <=? x) && (x <? 2 ^ 31) then Ok x else UB.

(** Unsigned division, which is undefined for 0. *)
Definition udiv (a b : Z) : outcome Z := if b =? 0 then UB else Ok (a / b).

Definition Uint128Max : Z := 2 ^ 128 - 1.
Definition Uint128High64 (x : Z) : Z := x / 2 ^ 64.
Definition Uint128Low64 (x : Z) : Z := u64 x.

Module Div64.
Definition make (d : Z) : outcome ConstantDivisor :=
  q ← udiv Uint128Max d;
  let c := mkDivisor (u128 (q + 1)) d in
  _ ← CHECK (1 <? d);
  Ok c.
Definition MultiplyHi (a b : Z) : Z :=
  let lo := Uint128Low64 a in
  let hi := Uint128High64 a in
  let bottom := u128 (lo * b) / 2 ^ 64 in
  let top := u128 (hi * b) in
  Uint128High64 (u128 (bottom + top)).
Definition div (c : ConstantDivisor) (numerator : Z) : Z := MultiplyHi (magic_ c) numerator.
Definition mod_ (c : ConstantDivisor) (numerator : Z) : outcome Z :=
  Ok (u64 (numerator - u64 (div c numerator * denominator_ c))).
End Div64.

Module Div32.
Definition make (d : Z) : outcome ConstantDivisor :=
  q ← udiv (2 ^ 64 - 1) d;
  let c := mkDivisor (u64 (q + 1)) d in
  _ ← CHECK (1 <? d);
  Ok c.
Definition div (c : ConstantDivisor) (numerator : Z) : Z :=
  u32 (Uint128High64 (u128 (numerator * magic_ c))).
Definition mod_ (c : ConstantDivisor) (numerator : Z) : outcome Z :=
  Ok (u32 (numerator - u32 (div c numerator * denominator_ c))).
End Div32.

Module Div16.
Section shift.
Variable kShift : Z.
Definition make (d : Z) : outcome ConstantDivisor :=
  q ← udiv (u64 (Z.shiftl 1 kShift)) d;
  let c := mkDivisor (u64 (q + 1)) d in
  _ ← CHECK (0 <? d);
  Ok c.
Definition div (c : ConstantDivisor) (numerator : Z) : Z :=
  u16 (Z.shiftr (u64 (magic_ c * numerator)) kShift).
Definition mod_ (c : ConstantDivisor) (numerator : Z) : outcome Z :=
  p ← int_value (div c numerator * denominator_ c);
  r ← int_value (numerator - p);
  Ok (u16 r).
End shift.
End Div16.

Module Div8.
Section shift.
Variable kShift : Z.
Definition make (d : Z) : outcome ConstantDivisor :=
  q ← udiv (u32 (Z.shiftl 1 kShift)) d;
  let c := mkDivisor (u32 (q + 1)) d in
  _ ← CHECK (0 <? d);
  Ok c.
Definition div (c : ConstantDivisor) (numerator : Z) : Z :=
  u8 (Z.shiftr (u32 (magic_ c * numerator)) kShift).
Definition mod_ (c : ConstantDivisor) (numerator : Z) : outcome Z :=
  p ← int_value (div c numerator * denominator_ c);
  r ← int_value (numerator - p);
  Ok (u8 r).
End shift.
End Div8.

(** The class template for other types divides. *)
Module DivT.
Definition make (denominator : Z) : ConstantDivisor := mkDivisor 0 denominator.
Definition div (c : ConstantDivisor) (n : Z) : outcome Z := udiv n (denominator_ c).
Definition mod_ (c : ConstantDivisor) (n : Z) : outcome Z :=
  if denominator_ c =? 0 then UB else Ok (n mod denominator_ c).
End DivT.

(** The specialisations together. *)
Inductive Width := W8 (kShift : Z) | W16 (kShift : Z) | W32 | W64.

Definition bits (w : Width) : Z := match w with W8 _ => 8 | W16 _ => 16 | W32 => 32 | W64 => 64 end.
(** The least denominator that the constructor admits. *)
Definition least (w : Width) : Z := match w with W8 _ | W16 _ => 1 | W32 | W64 => 2 end.
(** The shifts that the comments allow. *)
Definition shift_ok (w : Width) : Prop :=
  match w with W8 k => 16 <= k <= 24 | W16 k => 32 <= k <= 48 | _ => True end.

Definition make (w : Width) : Z -> outcome ConstantDivisor :=
  match w with W8 k => Div8.make k | W16 k => Div16.make k | W32 => Div32.make | W64 => Div64.make end.
Definition div (w : Width) : ConstantDivisor -> Z -> Z :=
  match w with W8 k => Div8.div k | W16 k => Div16.div k | W32 => Div32.div | W64 => Div64.div end.
Definition mod_ (w : Width) : ConstantDivisor -> Z -> outcome Z :=
  match w with
  | W8 k => Div8.mod_ k | W16 k => Div16.mod_ k | W32 => Div32.mod_ | W64 => Div64.mod_
  end.

(** ** Proofs *)

(** A multiplier that is a little more than [p / d] divides by [d]. *)
Lemma magic_div n d magic p : 0 <= n -> 0 < d -> 0 < p ->
  p <= magic * d -> n * (magic * d - p) < p -> n * magic / p = n / d.
Proof.
  intros Hn Hd Hp Hm He. symmetry.
  pose proof (Z.div_mod n d ltac:(lia)) as Hq. pose proof (Z.mod_pos_bound n d Hd) as Hr.
  revert Hq Hr He. generalize (n / d) (n mod d). intros q r Hq Hr He.
  remember (magic * d - p) as e eqn:Ee.
  assert (Hx : n * magic * d = n * e + n * p) by (subst e; ring).
  assert (Hy : n * p = d * q * p + r * p) by (rewrite Hq; ring).
  apply Z.div_unique with (n * magic - q * p); [left|ring].
  assert (0 <= n * e) by nia. assert (0 <= r * p) by nia.
  assert (Hlt : r * p + n * e < d * p) by nia.
  assert (Hz : (n * magic - q * p) * d = r * p + n * e) by (rewrite Z.mul_sub_distr_r, Hx, Hy; ring).
  split; [nia|]. apply (Z.mul_lt_mono_pos_r d); [auto|]. rewrite Hz. lia.
Qed.

(** The multiplier [p / d + 1], and [(p - 1) / d + 1]. *)
Lemma floor_magic p d : 0 < d -> 0 <= p -> p < (p / d + 1) * d <= p + d.
Proof.
  intros Hd Hp. pose proof (Z.div_mod p d ltac:(lia)). pose proof (Z.mod_pos_bound p d Hd). nia.
Qed.

Lemma ceil_magic p d : 0 < d -> 0 < p -> p <= ((p - 1) / d + 1) * d < p + d.
Proof.
  intros Hd Hp. pose proof (Z.div_mod (p - 1) d ltac:(lia)).
  pose proof (Z.mod_pos_bound (p - 1) d Hd). nia.
Qed.

Lemma quotient_bound n d p : 0 <= n < p -> 0 < d -> 0 <= n / d < p /\ 0 <= n / d * d <= n.
Proof.
  intros Hn Hd. pose proof (Z.div_mod n d ltac:(lia)). pose proof (Z.mod_pos_bound n d Hd).
  assert (0 <= n / d) by (apply Z.div_pos; lia). nia.
Qed.

Lemma mod_of_quotient n d : 0 < d -> n - n / d * d = n mod d.
Proof. intros Hd. pose proof (Z.div_mod n d ltac:(lia)). lia. Qed.

Lemma Div64_exact n d : 0 <= n < 2 ^ 64 -> 2 <= d < 2 ^ 64 ->
  exists c, Div64.make d = Ok c /\ denominator_ c = d /\ Div64.div c n = n / d.
Proof.
  intros Hn Hd. unfold Div64.make, udiv.
  rewrite (proj2 (Z.eqb_neq d 0)), bind_Ok by lia. unfold CHECK.
  rewrite (proj2 (Z.ltb_lt 1 d)), bind_Ok by lia. eexists. split; [reflexivity|].
  split; [reflexivity|]. unfold Div64.div. simpl magic_.
  pose proof (ceil_magic (2 ^ 128) d ltac:(lia) ltac:(lia)) as Hm. unfold Uint128Max.
  set (m := (2 ^ 128 - 1) / d + 1) in *.
  assert (Hm1 : 0 <= m < 2 ^ 128) by nia.
  unfold u128 at 1. rewrite (Z.mod_small m) by auto.
  transitivity (n * m / 2 ^ 128); [|apply magic_div; nia].
  unfold Div64.MultiplyHi, Uint128High64, Uint128Low64, u64, u128.
  pose proof (Z.div_mod m (2 ^ 64) ltac:(lia)) as Hdm.
  pose proof (Z.mod_pos_bound m (2 ^ 64) ltac:(lia)) as Hlo.
  assert (Hhi : 0 <= m / 2 ^ 64 < 2 ^ 64).
  { split; [apply Z.div_pos; lia | apply Z.div_lt_upper_bound; lia]. }
  set (lo := m mod 2 ^ 64) in *. set (hi := m / 2 ^ 64) in *.
  rewrite (Z.mod_small (lo * n)) by nia. rewrite (Z.mod_small (hi * n)) by nia.
  assert (Hb : 0 <= lo * n / 2 ^ 64 < 2 ^ 64).
  { split; [apply Z.div_pos; nia | apply Z.div_lt_upper_bound; nia]. }
  rewrite Z.mod_small by nia.
  change (2 ^ 128) with (2 ^ 64 * 2 ^ 64). rewrite <- Z.div_div by lia. f_equal.
  replace (n * m) with (lo * n + hi * n * 2 ^ 64) by nia.
  rewrite Z.div_add by lia. reflexivity.
Qed.

Lemma Div32_exact n d : 0 <= n < 2 ^ 32 -> 2 <= d < 2 ^ 32 ->
  exists c, Div32.make d = Ok c /\ denominator_ c = d /\ Div32.div c n = n / d.
Proof.
  intros Hn Hd. unfold Div32.make, udiv.
  rewrite (proj2 (Z.eqb_neq d 0)), bind_Ok by lia. unfold CHECK.
  rewrite (proj2 (Z.ltb_lt 1 d)), bind_Ok by lia. eexists. split; [reflexivity|].
  split; [reflexivity|]. unfold Div32.div, Uint128High64, u128, u64, u32. simpl magic_.
  pose proof (ceil_magic (2 ^ 64) d ltac:(lia) ltac:(lia)) as Hm.
  set (m := (2 ^ 64 - 1) / d + 1) in *.
  assert (Hm1 : 0 <= m < 2 ^ 64) by nia.
  rewrite (Z.mod_small m) by auto. rewrite (Z.mod_small (n * m)) by nia.
  rewrite (magic_div n d m (2 ^ 64)) by nia.
  apply Z.mod_small. apply (quotient_bound n d (2 ^ 32)); lia.
Qed.

Lemma Div16_exact k n d : 32 <= k <= 48 -> 0 <= n < 2 ^ 16 -> 1 <= d < 2 ^ 16 ->
  exists c, Div16.make k d = Ok c /\ denominator_ c = d /\ Div16.div k c n = n / d.
Proof.
  intros Hk Hn Hd. unfold Div16.make, udiv.
  assert (Hp : 2 ^ 32 <= 2 ^ k <= 2 ^ 48) by (split; apply Z.pow_le_mono_r; lia).
  assert (Hu : u64 (2 ^ k) = 2 ^ k) by (apply Z.mod_small; lia). rewrite Z.shiftl_1_l, Hu.
  rewrite (proj2 (Z.eqb_neq d 0)), bind_Ok by lia. unfold CHECK.
  rewrite (proj2 (Z.ltb_lt 0 d)), bind_Ok by lia. eexists. split; [reflexivity|].
  split; [reflexivity|]. unfold Div16.div, u64, u16. simpl magic_.
  pose proof (floor_magic (2 ^ k) d ltac:(lia) ltac:(lia)) as Hm.
  set (m := 2 ^ k / d + 1) in *. assert (Hm1 : 0 <= m <= 2 ^ 48 + 1) by nia.
  rewrite (Z.mod_small m) by lia. rewrite (Z.mod_small (m * n)) by nia.
  rewrite Z.shiftr_div_pow2 by lia. rewrite (Z.mul_comm m n).
  rewrite (magic_div n d m (2 ^ k)) by nia.
  apply Z.mod_small. apply (quotient_bound n d (2 ^ 16)); lia.
Qed.

Lemma Div8_exact k n d : 16 <= k <= 24 -> 0 <= n < 2 ^ 8 -> 1 <= d < 2 ^ 8 ->
  exists c, Div8.make k d = Ok c /\ denominator_ c = d /\ Div8.div k c n = n / d.
Proof.
  intros Hk Hn Hd. unfold Div8.make, udiv.
  assert (Hp : 2 ^ 16 <= 2 ^ k <= 2 ^ 24) by (split; apply Z.pow_le_mono_r; lia).
  assert (Hu : u32 (2 ^ k) = 2 ^ k) by (apply Z.mod_small; lia). rewrite Z.shiftl_1_l, Hu.
  rewrite (proj2 (Z.eqb_neq d 0)), bind_Ok by lia. unfold CHECK.
  rewrite (proj2 (Z.ltb_lt 0 d)), bind_Ok by lia. eexists. split; [reflexivity|].
  split; [reflexivity|]. unfold Div8.div, u32, u8. simpl magic_.
  pose proof (floor_magic (2 ^ k) d ltac:(lia) ltac:(lia)) as Hm.
  set (m := 2 ^ k / d + 1) in *. assert (Hm1 : 0 <= m <= 2 ^ 24 + 1) by nia.
  rewrite (Z.mod_small m) by lia. rewrite (Z.mod_small (m * n)) by nia.
  rewrite Z.shiftr_div_pow2 by lia. rewrite (Z.mul_comm m n).
  rewrite (magic_div n d m (2 ^ k)) by nia.
  apply Z.mod_small. apply (quotient_bound n d (2 ^ 8)); lia.
Qed.

(** The remainder follows from the quotient at every width. *)
Lemma mod_from_div w c n : 0 <= n < 2 ^ bits w -> 0 < denominator_ c ->
  div w c n = n / denominator_ c -> mod_ w c n = Ok (n mod denominator_ c).
Proof.
  intros Hn Hd Hq. pose proof (quotient_bound n (denominator_ c) _ Hn Hd) as [Hb1 Hb2].
  pose proof (mod_of_quotient n (denominator_ c) Hd) as Hm.
  pose proof (Z.mod_pos_bound n (denominator_ c) Hd) as Hr.
  destruct w as [k|k| |]; cbn [bits mod_ div] in *.
  - unfold Div8.mod_, int_value. rewrite Hq.
    assert (((- 2 ^ 31 <=? n / denominator_ c * denominator_ c) &&
      (n / denominator_ c * denominator_ c <? 2 ^ 31)) = true) as -> by lia.
    rewrite bind_Ok, Hm.
    assert (((- 2 ^ 31 <=? n mod denominator_ c) && (n mod denominator_ c <? 2 ^ 31)) = true)
      as -> by lia.
    rewrite bind_Ok. f_equal. apply Z.mod_small. lia.
  - unfold Div16.mod_, int_value. rewrite Hq.
    assert (((- 2 ^ 31 <=? n / denominator_ c * denominator_ c) &&
      (n / denominator_ c * denominator_ c <? 2 ^ 31)) = true) as -> by lia.
    rewrite bind_Ok, Hm.
    assert (((- 2 ^ 31 <=? n mod denominator_ c) && (n mod denominator_ c <? 2 ^ 31)) = true)
      as -> by lia.
    rewrite bind_Ok. f_equal. apply Z.mod_small. lia.
  - unfold Div32.mod_. rewrite Hq. unfold u32 at 2. rewrite Z.mod_small, Hm by lia.
    f_equal. apply Z.mod_small. lia.
  - unfold Div64.mod_. rewrite Hq. unfold u64 at 2. rewrite Z.mod_small, Hm by lia.
    f_equal. apply Z.mod_small. lia.
Qed.

(** C37. Every specialisation divides exactly: for each denominator that its constructor
    admits and each numerator of its type, [div] is the quotient and [mod] the remainder,
    for every shift that the comments allow, and no intermediate product overflows where
    overflow is undefined. *)
Theorem ConstantDivisor_exact (w : Width) (d n : Z) :
  shift_ok w -> least w <= d < 2 ^ bits w -> 0 <= n < 2 ^ bits w ->
  exists c, make w d = Ok c /\ div w c n = n / d /\ mod_ w c n = Ok (n mod d).
Proof.
  intros Hs Hd Hn.
  assert (He : exists c, make w d = Ok c /\ denominator_ c = d /\ div w c n = n / d).
  { destruct w as [k|k| |]; cbn [make div bits least shift_ok] in *;
      [apply Div8_exact | apply Div16_exact | apply Div32_exact | apply Div64_exact]; auto. }
  destruct He as (c & Hm & Hc & Hq). exists c. split_and!; auto. subst d.
  apply mod_from_div; auto. destruct w; simpl in Hd; lia.
Qed.

Lemma ConstantDivisor_exact_witness :
  (exists c, make W64 7 = Ok c /\ div W64 c (2 ^ 64 - 1) = 2635249153387078802) /\
  exists c, make W64 7 = Ok c /\ div W64 c (2 ^ 64 - 1) = (2 ^ 64 - 1) / 7 /\
    mod_ W64 c (2 ^ 64 - 1) = Ok ((2 ^ 64 - 1) mod 7).
Proof.
  split; [eexists; split; [vm_compute; reflexivity | vm_compute; reflexivity]|].
  apply (ConstantDivisor_exact W64 7 (2 ^ 64 - 1)); [exact I | simpl; lia | simpl; lia].
Defined.

(** The checks on the denominator come after the division they should guard: 0 never
    reaches them, and 1 stops the two larger specialisations. *)
Lemma zero_denominator_undefined (w : Width) : make w 0 = UB.
Proof. destruct w; reflexivity. Qed.

Lemma one_denominator_stops : make W32 1 = Crash /\ make W64 1 = Crash.
Proof. split; reflexivity. Qed.
