(* ===== verification/Bitmap.v ===== *)
(** * Bitmaps

    [util/bitmap/bitmap.h]: [BasicBitmap] over non-atomic words of type [W], as the list
    of its words and its size in bits.  A read or a write outside the words is [UB].
    Words narrower than 32 bits promote to [int], whose range no expression here leaves;
    [char] is taken to be signed, as it is on x86 unless the compiler is told
    otherwise.  Fresh memory is an argument. *)
From Stdlib Require Import ZArith Lia Bool.
From stdpp Require Import base list numbers option.
From S2P Require Import Prelude.
Local Open Scope Z_scope.

(** The instances [BitmapChar], [Bitmap8], ..., [Bitmap64]. *)
Inductive WordType := WChar | WU8 | WU16 | WU32 | WU64.

(** ** Memory and standard algorithms *)

(** [map_[i]], read and written. *)
Definition rd (m : list Z) (i : Z) : outcome Z := load8 m i.
Definition wr (m : list Z) (i v : Z) : outcome (list Z) := store8 m i v.

(** [std::fill(m + from, m + to, v)]. *)
Definition fill_range (m : list Z) (from to v : Z) : outcome (list Z) :=
  if (0 <=? from) && (from <=? to) && (to <=? zlen m) then
    Ok (take (Z.to_nat from) m ++ replicate (Z.to_nat (to - from)) v ++ drop (Z.to_nat to) m)
  else UB.

(** [std::transform] over the first [n] words, and with the first [n] of another array. *)
Definition transform1 (n : Z) (f : Z -> Z) (m : list Z) : outcome (list Z) :=
  if (0 <=? n) && (n <=? zlen m) then
    Ok (map f (take (Z.to_nat n) m) ++ drop (Z.to_nat n) m)
  else UB.
Definition transform2 (n : Z) (f : Z -> Z -> Z) (m k : list Z) : outcome (list Z) :=
  if (0 <=? n) && (n <=? zlen m) && (n <=? zlen k) then
    Ok (zip_with f (take (Z.to_nat n) m) (take (Z.to_nat n) k) ++ drop (Z.to_nat n) m)
  else UB.

(** [std::all_of] on the first [n] words, [std::equal] on the first [n] of two arrays. *)
Definition all_of (n : Z) (p : Z -> bool) (m : list Z) : outcome bool :=
  if (0 <=? n) && (n <=? zlen m) then Ok (forallb p (take (Z.to_nat n) m)) else UB.
Definition equal_words (n : Z) (m k : list Z) : outcome bool :=
  if (0 <=? n) && (n <=? zlen m) && (n <=? zlen k) then
    Ok (bool_decide (take (Z.to_nat n) m = take (Z.to_nat n) k))
  else UB.

(** [absl::popcount], [absl::countr_zero] and [absl::bit_width] of words of at most [n]
    bits. *)
Fixpoint popcount (n : nat) (x : Z) : Z :=
  match n with O => 0 | S n => Z.b2z (Z.odd x) + popcount n (x / 2) end.
Fixpoint countr_zero (n : nat) (x : Z) : Z :=
  match n with O => 0 | S n => if Z.odd x then 0 else 1 + countr_zero n (x / 2) end.
Definition bit_width (x : Z) : Z := if x =? 0 then 0 else Z.log2 x + 1.

Section words.
(** [hardened]: [ABSL_HARDENING_ASSERT] also checks in [NDEBUG] builds. *)
Context `{BuildMode} (hardened : bool) (T : WordType).

(** ** Words *)

Definition kIntBits : Z :=
  match T with WChar | WU8 => 8 | WU16 => 16 | WU32 => 32 | WU64 => 64 end.
Fixpoint Log2 (fuel : nat) (n p : Z) : Z :=
  match fuel with O => p | S fuel => if n <=? 1 then p else Log2 fuel (n / 2) (p + 1) end.
Definition kLogIntBits : Z := Log2 64 kIntBits 0.

(** Conversions to [Word], to [W] and to [ArithmeticWord], and the result of an
    operation on promoted words. *)
Definition Word (x : Z) : Z := x mod 2 ^ kIntBits.
Definition toW (x : Z) : Z := match T with WChar => swrap 8 x | _ => Word x end.
Definition ArithmeticWord (x : Z) : Z := x mod 2 ^ Z.max 32 kIntBits.
Definition promoted (x : Z) : Z := if kIntBits <? 32 then x else Word x.

Definition kAllOnesWord : Z := ArithmeticWord (Word (ArithmeticWord (Z.lnot 0))).
(** The position of a bit in its word, and [Word{1} << k]. *)
Definition offset (index : Z) : Z := Z.land index (kIntBits - 1).
Definition bit_at (k : Z) : Z := promoted (Z.shiftl 1 k).
Definition nbits : nat := Z.to_nat kIntBits.

Definition SetBit (m : list Z) (index : Z) (value : bool) : outcome (list Z * bool) :=
  let bit := toW (bit_at (offset index)) in
  old_value ← rd m (index / kIntBits);
  let new_value :=
    toW (if value then Z.lor old_value bit
         else Z.land old_value (promoted (Z.lnot bit))) in
  m ← wr m (index / kIntBits) new_value;
  Ok (m, negb (Z.land old_value bit =? 0)).

Definition GetBit (m : list Z) (index : Z) : outcome bool :=
  x ← rd m (index / kIntBits);
  Ok (negb (Z.land x (bit_at (offset index)) =? 0)).

(** ** BasicBitmap *)

Record BasicBitmap := mkBitmap { map_ : list Z; size_ : Z }.

Definition RequiredArraySize (num_bits : Z) : Z :=
  if num_bits =? 0 then 1 else (num_bits - 1) / kIntBits + 1.
Definition array_size (b : BasicBitmap) : Z := RequiredArraySize (size_ b).

Definition SetAll (b : BasicBitmap) (value : bool) : outcome BasicBitmap :=
  m ← fill_range (map_ b) 0 (array_size b) (toW (if value then kAllOnesWord else 0));
  Ok (mkBitmap m (size_ b)).
Definition Clear (b : BasicBitmap) : outcome BasicBitmap := SetAll b false.

(** [new W[n]]. *)
Definition new_words (fresh : nat -> list Z) (n : Z) : list Z := fresh (Z.to_nat n).
Definition make (fresh : nat -> list Z) (size : Z) (fill : bool) : outcome BasicBitmap :=
  SetAll (mkBitmap (new_words fresh (RequiredArraySize size)) size) fill.
Definition make_default (fresh : nat -> list Z) : BasicBitmap :=
  mkBitmap (new_words fresh (RequiredArraySize 0)) 0.

Definition HARDENING_ASSERT (b : bool) : outcome unit :=
  if hardened || negb NDEBUG then CHECK b else Ok tt.

Definition Get (b : BasicBitmap) (index : Z) : outcome bool :=
  _ ← HARDENING_ASSERT (index <? size_ b);
  GetBit (map_ b) index.
Definition Set_ (b : BasicBitmap) (index : Z) (value : bool) : outcome (BasicBitmap * bool) :=
  _ ← HARDENING_ASSERT (index <? size_ b);
  '(m, old) ← SetBit (map_ b) index value;
  Ok (mkBitmap m (size_ b), old).
Definition Toggle (b : BasicBitmap) (index : Z) : outcome BasicBitmap :=
  _ ← HARDENING_ASSERT (index <? size_ b);
  x ← rd (map_ b) (index / kIntBits);
  m ← wr (map_ b) (index / kIntBits) (toW (Z.lxor x (bit_at (offset index))));
  Ok (mkBitmap m (size_ b)).

(** The constructor from a span, whose index is an [int]. *)
Fixpoint set_values (b : BasicBitmap) (index : Z) (values : list bool) :
    outcome BasicBitmap :=
  match values with
  | [] => Ok b
  | v :: r =>
      next ← int_incr index;
      '(b, _) ← Set_ b (u64 index) v;
      set_values b next r
  end.
Definition make_span (fresh : nat -> list Z) (values : list bool) : outcome BasicBitmap :=
  b ← make fresh (zlen values) false;
  set_values b 0 values.

Definition HighOrderMapElementMask (b : BasicBitmap) : Z :=
  if size_ b =? 0 then 0
  else Word (Z.shiftr kAllOnesWord (Z.land (u64 (- size_ b)) (kIntBits - 1))).

Definition GetMapElement (b : BasicBitmap) (i : Z) : outcome Z :=
  _ ← CHECK (i <? array_size b);
  x ← rd (map_ b) i; Ok (Word x).
Definition GetMaskedMapElement (b : BasicBitmap) (i : Z) : outcome Z :=
  if i =? array_size b - 1 then
    x ← rd (map_ b) (array_size b - 1);
    Ok (Z.land (Word x) (HighOrderMapElementMask b))
  else x ← rd (map_ b) i; Ok (Word x).
Definition SetMapElement (b : BasicBitmap) (i value : Z) : outcome BasicBitmap :=
  _ ← CHECK (i <? array_size b);
  m ← wr (map_ b) i (toW value); Ok (mkBitmap m (size_ b)).

Definition SetRange (b : BasicBitmap) (begin_ end_ : Z) (value : bool) :
    outcome BasicBitmap :=
  if begin_ =? end_ then Ok b
  else
    let begin_element := begin_ / kIntBits in
    let begin_bit := begin_ mod kIntBits in
    let end_element := end_ / kIntBits in
    let end_bit := end_ mod kIntBits in
    let initial_mask := Word (ArithmeticWord (Z.shiftl kAllOnesWord begin_bit)) in
    let initial_mask :=
      if end_element =? begin_element
      then Word (Z.land initial_mask (Z.shiftr kAllOnesWord (kIntBits - end_bit)))
      else initial_mask in
    let apply_mask (x mask : Z) : Z :=
      toW (if value then Z.lor x mask else Z.land x (promoted (Z.lnot mask))) in
    x ← rd (map_ b) begin_element;
    m ← wr (map_ b) begin_element (apply_mask x initial_mask);
    if negb (end_element =? begin_element) then
      m ← fill_range m (begin_element + 1) end_element
            (toW (if value then kAllOnesWord else 0));
      if negb (end_bit =? 0) then
        let final_mask := Word (Z.shiftr kAllOnesWord (kIntBits - end_bit)) in
        x ← rd m end_element;
        m ← wr m end_element (apply_mask x final_mask);
        Ok (mkBitmap m (size_ b))
      else Ok (mkBitmap m (size_ b))
    else Ok (mkBitmap m (size_ b)).

(** The old words are copied into new memory when the number of words changes. *)
Definition Resize (fresh : nat -> list Z) (b : BasicBitmap) (size : Z) (fill : bool) :
    outcome BasicBitmap :=
  let old_size := size_ b in
  let new_array_size := RequiredArraySize size in
  m ← (if negb (new_array_size =? array_size b) then
         let new_map := new_words fresh new_array_size in
         let n := Z.min new_array_size (array_size b) in
         if (n <=? zlen (map_ b)) && (n <=? zlen new_map) then
           Ok (take (Z.to_nat n) (map_ b) ++ drop (Z.to_nat n) new_map)
         else UB
       else Ok (map_ b));
  let b := mkBitmap m size in
  if old_size <? size then SetRange b old_size size fill else Ok b.

(** ** Queries *)

Definition IsAllZeroes (b : BasicBitmap) : outcome bool :=
  r ← all_of (array_size b - 1) (fun w => w =? 0) (map_ b);
  if (r : bool) then
    x ← rd (map_ b) (array_size b - 1);
    Ok (Z.land x (HighOrderMapElementMask b) =? 0)
  else Ok false.

(** [w == kAllOnesWord] converts [w] to [ArithmeticWord]. *)
Definition IsAllOnes (b : BasicBitmap) : outcome bool :=
  r ← all_of (array_size b - 1) (fun w => ArithmeticWord w =? kAllOnesWord) (map_ b);
  if (r : bool) then
    x ← rd (map_ b) (array_size b - 1);
    Ok (Z.land (promoted (Z.lnot x)) (HighOrderMapElementMask b) =? 0)
  else Ok false.

(** The loop over the words strictly between the first and the last. *)
Fixpoint count_words (fuel : nat) (m : list Z) (p end_word sum : Z) : outcome (Z * Z) :=
  if p <? end_word then
    match fuel with
    | O => UB
    | S fuel =>
        x ← rd m p;
        count_words fuel m (p + 1) end_word (u64 (sum + popcount nbits (Word x)))
    end
  else Ok (p, sum).

Definition GetOnesCountInRange (b : BasicBitmap) (start end_ : Z) : outcome Z :=
  _ ← CHECK (end_ <=? size_ b);
  _ ← CHECK (start <=? end_);
  if end_ <=? start then Ok 0
  else
    let start_word := start / kIntBits in
    let end_word := (end_ - 1) / kIntBits in
    x ← rd (map_ b) start_word;
    let c := Z.land (ArithmeticWord x)
               (ArithmeticWord (Z.shiftl kAllOnesWord (offset start))) in
    let endmask := Z.shiftr kAllOnesWord (u64 ((end_word + 1) * kIntBits - end_)) in
    if end_word =? start_word then Ok (popcount nbits (Word (Z.land c endmask)))
    else
      let sum := popcount nbits (Word c) in
      '(p, sum) ← count_words (length (map_ b)) (map_ b) (start_word + 1) end_word sum;
      x ← rd (map_ b) p;
      Ok (u64 (sum + popcount nbits (Word (Z.land (ArithmeticWord x) endmask)))).

Definition GetOnesCountBeforeLimit (b : BasicBitmap) (limit : Z) : outcome Z :=
  GetOnesCountInRange b 0 limit.
Definition GetOnesCount (b : BasicBitmap) : outcome Z := GetOnesCountInRange b 0 (size_ b).
Definition GetZeroesCountInRange (b : BasicBitmap) (start end_ : Z) : outcome Z :=
  n ← GetOnesCountInRange b start end_; Ok (u64 (u64 (end_ - start) - n)).
Definition GetZeroesCountBeforeLimit (b : BasicBitmap) (limit : Z) : outcome Z :=
  n ← GetOnesCountInRange b 0 limit; Ok (u64 (limit - n)).
Definition GetZeroesCount (b : BasicBitmap) : outcome Z :=
  n ← GetOnesCountInRange b 0 (size_ b); Ok (u64 (size_ b - n)).

(** The inner loop of [TestRange]: [Some] when it returns. *)
Fixpoint test_words (fuel : nat) (m : list Z) (i ilast : Z) : outcome (option Z) :=
  if i <? ilast then
    match fuel with
    | O => UB
    | S fuel =>
        x ← rd m i;
        if negb (x =? 0) then Ok None else test_words fuel m (i + 1) ilast
    end
  else Ok (Some i).

Definition TestRange (b : BasicBitmap) (begin_ end_ : Z) : outcome bool :=
  if begin_ =? end_ then Ok false
  else
    let i := begin_ / kIntBits in
    let j := offset begin_ in
    let ilast := (end_ - 1) / kIntBits in
    let jlast := offset (end_ - 1) in
    let last_word (j : Z) : outcome bool :=
      let mask := Word (promoted (Z.shiftl
        (promoted (promoted (Z.shiftl (bit_at 1) (jlast - j)) - 1)) j)) in
      x ← rd (map_ b) ilast;
      Ok (negb (Z.land x mask =? 0)) in
    if i <? ilast then
      x ← rd (map_ b) i;
      if negb (Z.shiftr x j =? 0) then Ok true
      else
        r ← test_words (length (map_ b)) (map_ b) (i + 1) ilast;
        match r with None => Ok true | Some _ => last_word 0 end
    else last_word j.

(** ** Two bitmaps *)

Definition IsEqual (b other : BasicBitmap) : outcome bool :=
  if size_ b =? size_ other then
    r ← (if array_size b <? 1 then Ok true
         else equal_words (array_size b - 1) (map_ b) (map_ other));
    if (r : bool) then
      y ← rd (map_ other) (array_size b - 1);
      x ← rd (map_ b) (array_size b - 1);
      Ok (Z.land (HighOrderMapElementMask b) y =? Z.land (HighOrderMapElementMask b) x)
    else Ok false
  else Ok false.

(** The loop of [IsSubsetOf] over all words but the last. *)
Fixpoint subset_words (fuel : nat) (m o : list Z) (i last : Z) : outcome bool :=
  if i =? last then Ok true
  else
    match fuel with
    | O => UB
    | S fuel =>
        x ← rd m i;
        y ← rd o i;
        if negb (Z.land x (promoted (Z.lnot y)) =? 0) then Ok false
        else subset_words fuel m o (i + 1) last
    end.

Definition IsSubsetOf (b other : BasicBitmap) : outcome bool :=
  _ ← CHECK (size_ b =? size_ other);
  let last := array_size b - 1 in
  r ← subset_words (length (map_ b)) (map_ b) (map_ other) 0 last;
  if (r : bool) then
    x ← rd (map_ b) last;
    y ← rd (map_ other) last;
    Ok (Z.land (Z.land x (promoted (Z.lnot y))) (HighOrderMapElementMask b) =? 0)
  else Ok false.

(** The loop of [CompareToHelper], down from word [index]. *)
Fixpoint compare_words (m o : list Z) (index : nat) : outcome Z :=
  match index with
  | O => Ok 0
  | S index =>
      left ← rd m (Z.of_nat index);
      right ← rd o (Z.of_nat index);
      let left := Word left in
      let right := Word right in
      if negb (left =? right) then Ok (if left <? right then -1 else 1)
      else compare_words m o index
  end.

Definition CompareToHelper (first second : BasicBitmap) : outcome Z :=
  t ← TestRange first (size_ second) (size_ first);
  if (t : bool) then Ok 1
  else
    let index := array_size second - 1 in
    left ← rd (map_ first) index;
    right ← rd (map_ second) index;
    let left := Word (Z.land left (HighOrderMapElementMask second)) in
    let right := Word (Z.land right (HighOrderMapElementMask second)) in
    if negb (left =? right) then Ok (if left <? right then -1 else 1)
    else
      r ← compare_words (map_ first) (map_ second) (Z.to_nat index);
      if negb (r =? 0) then Ok r
      else if size_ first =? size_ second then Ok 0 else Ok 1.

Definition CompareTo (b other : BasicBitmap) : outcome Z :=
  if size_ other <? size_ b then CompareToHelper b other
  else r ← CompareToHelper other b; Ok (- r).

Definition Union (b other : BasicBitmap) : outcome BasicBitmap :=
  let min_array_size := Z.min (array_size b) (array_size other) in
  if min_array_size =? 0 then Ok b
  else
    let last := min_array_size - 1 in
    m ← transform2 last (fun x y => toW (Z.lor x y)) (map_ b) (map_ other);
    y ← rd (map_ other) last;
    let y := if array_size other =? min_array_size
             then Z.land (Word y) (HighOrderMapElementMask other) else Word y in
    x ← rd m last;
    m ← wr m last (toW (Z.lor x y));
    Ok (mkBitmap m (size_ b)).

Definition Intersection (b other : BasicBitmap) : outcome BasicBitmap :=
  let this_array_size := array_size b in
  let other_array_size := array_size other in
  let min_array_size := Z.min this_array_size other_array_size in
  m ← transform2 min_array_size (fun x y => toW (Z.land x y)) (map_ b) (map_ other);
  if other_array_size =? min_array_size then
    m ← (if negb (other_array_size =? 0) then
           x ← rd m (other_array_size - 1);
           wr m (other_array_size - 1) (toW (Z.land x (HighOrderMapElementMask other)))
         else Ok m);
    m ← fill_range m other_array_size this_array_size (toW 0);
    Ok (mkBitmap m (size_ b))
  else Ok (mkBitmap m (size_ b)).

(** The loop of [IsIntersectionNonEmpty]. *)
Fixpoint overlap_words (fuel : nat) (m o : list Z) (i max_overlap : Z) : outcome bool :=
  if i <? max_overlap then
    match fuel with
    | O => UB
    | S fuel =>
        x ← rd m i;
        y ← rd o i;
        if negb (Z.land x y =? 0) then Ok true
        else overlap_words fuel m o (i + 1) max_overlap
    end
  else Ok false.

Definition IsIntersectionNonEmpty (b other : BasicBitmap) : outcome bool :=
  let max_overlap := Z.min (array_size b) (array_size other) - 1 in
  r ← overlap_words (length (map_ b)) (map_ b) (map_ other) 0 max_overlap;
  if (r : bool) then Ok true
  else
    x ← rd (map_ b) max_overlap;
    y ← rd (map_ other) max_overlap;
    let high_byte := Word (Z.land x y) in
    if array_size b <? array_size other then
      Ok (negb (Z.land high_byte (HighOrderMapElementMask b) =? 0))
    else if array_size other <? array_size b then
      Ok (negb (Z.land high_byte (HighOrderMapElementMask other) =? 0))
    else
      Ok (negb (Z.land (Z.land high_byte (HighOrderMapElementMask b))
                  (HighOrderMapElementMask other) =? 0)).

Definition Complement (b : BasicBitmap) : outcome BasicBitmap :=
  m ← transform1 (array_size b) (fun w => toW (promoted (Z.lnot w))) (map_ b);
  Ok (mkBitmap m (size_ b)).

Definition Difference (b other : BasicBitmap) : outcome BasicBitmap :=
  _ ← CHECK (size_ b =? size_ other);
  m ← transform2 (array_size b) (fun x y => toW (Z.land x (promoted (Z.lnot y))))
        (map_ b) (map_ other);
  Ok (mkBitmap m (size_ b)).

Definition ExclusiveOr (b other : BasicBitmap) : outcome BasicBitmap :=
  _ ← CHECK (size_ b =? size_ other);
  m ← transform2 (array_size b) (fun x y => toW (Z.lxor x y)) (map_ b) (map_ other);
  Ok (mkBitmap m (size_ b)).

(** The loop of [HammingDistance]. *)
Fixpoint distance_words (fuel : nat) (m o : list Z) (i last dist : Z) : outcome Z :=
  if i <? last then
    match fuel with
    | O => UB
    | S fuel =>
        x ← rd m i;
        y ← rd o i;
        distance_words fuel m o (i + 1) last
          (u64 (dist + popcount nbits (Word (Z.lxor (ArithmeticWord x) (ArithmeticWord y)))))
    end
  else Ok dist.

Definition HammingDistance (b other : BasicBitmap) : outcome Z :=
  _ ← CHECK (size_ b =? size_ other);
  let n := array_size b in
  _ ← CHECK (0 <? n);
  dist ← distance_words (length (map_ b)) (map_ b) (map_ other) 0 (n - 1) 0;
  x ← rd (map_ b) (n - 1);
  y ← rd (map_ other) (n - 1);
  let last_xor := Z.land (Z.lxor (ArithmeticWord x) (ArithmeticWord y))
                    (HighOrderMapElementMask b) in
  Ok (u64 (dist + popcount nbits (Word last_xor))).

(** ** Searches

    They return whether a bit was found and the new value of [*index]. *)

Definition load_word (complement : bool) (words : list Z) (i : Z) : outcome Z :=
  x ← rd words i;
  let one_word := Word x in
  Ok (if (complement : bool) then Word (promoted (Z.lnot one_word)) else one_word).

Fixpoint FindNext_loop (fuel : nat) (complement : bool) (words : list Z)
    (one_word int_index last_int_index : Z) : outcome (Z * Z) :=
  if (int_index <? last_int_index) && (one_word =? 0) then
    match fuel with
    | O => UB
    | S fuel =>
        one_word ← load_word complement words (int_index + 1);
        FindNext_loop fuel complement words one_word (int_index + 1) last_int_index
    end
  else Ok (one_word, int_index).

(** The loop ends with a word that has the bit or with the last word. *)
Definition FindNextBitInVector (complement : bool) (words : list Z) (bit_index limit : Z) :
    outcome (bool * Z) :=
  if limit <=? bit_index then Ok (false, bit_index)
  else
    let int_index := Z.shiftr bit_index kLogIntBits in
    one_word ← load_word complement words int_index;
    let first_bit_offset := offset bit_index in
    if negb (Z.land one_word (bit_at first_bit_offset) =? 0) then Ok (true, bit_index)
    else
      let one_word :=
        Word (Z.land one_word (ArithmeticWord (Z.shiftl kAllOnesWord first_bit_offset))) in
      let last_int_index := Z.shiftr (limit - 1) kLogIntBits in
      '(one_word, int_index) ←
        FindNext_loop (length words) complement words one_word int_index last_int_index;
      let found (one_word : Z) : Z :=
        u64 (Z.shiftl int_index kLogIntBits) + countr_zero nbits one_word in
      if int_index <? last_int_index then Ok (true, found one_word)
      else
        let one_word := Word (Z.land one_word (ArithmeticWord (Z.lnot
          (ArithmeticWord (Z.shiftl (kAllOnesWord - 1) (offset (limit - 1))))))) in
        if negb (one_word =? 0) then Ok (true, found one_word) else Ok (false, bit_index).

(** One round of the loop of [FindPreviousBitInVector] per word. *)
Fixpoint FindPrevious_loop (fuel : nat) (complement : bool) (words : list Z)
    (bit_limit_mask map_limit one_word map_index : Z) : outcome (option (Z * Z)) :=
  if one_word =? 0 then
    if map_index =? map_limit then Ok None
    else
      match fuel with
      | O => UB
      | S fuel =>
          let map_index := map_index - 1 in
          one_word ← load_word complement words map_index;
          let one_word :=
            if map_index =? map_limit then Word (Z.land one_word bit_limit_mask)
            else one_word in
          FindPrevious_loop fuel complement words bit_limit_mask map_limit one_word map_index
      end
  else Ok (Some (one_word, map_index)).

Definition FindPreviousBitInVector (complement : bool) (words : list Z)
    (bit_index limit : Z) : outcome (bool * Z) :=
  let map_index := Z.shiftr bit_index kLogIntBits in
  let map_limit := Z.shiftr limit kLogIntBits in
  let bit_limit_mask := ArithmeticWord (Z.shiftl kAllOnesWord (offset limit)) in
  one_word ← load_word complement words map_index;
  if bit_index <? limit then Ok (false, bit_index)
  else
    let bit_offset := offset bit_index in
    if negb (Z.land one_word (bit_at bit_offset) =? 0) then Ok (true, bit_index)
    else
      let one_word := Word (Z.land one_word (ArithmeticWord (Z.lnot
        (ArithmeticWord (Z.shiftl (kAllOnesWord - 1) bit_offset))))) in
      let one_word :=
        if map_index =? map_limit then Word (Z.land one_word bit_limit_mask) else one_word in
      r ← FindPrevious_loop (length words) complement words bit_limit_mask map_limit one_word
            map_index;
      match r with
      | None => Ok (false, bit_index)
      | Some (one_word, map_index) =>
          Ok (true, u64 (u64 (Z.shiftl map_index kLogIntBits) + bit_width one_word - 1))
      end.

Definition FindNextSetBitBeforeLimit (b : BasicBitmap) (index limit : Z) :
    outcome (bool * Z) :=
  _ ← CHECK (limit <=? size_ b);
  FindNextBitInVector false (map_ b) index limit.
Definition FindNextUnsetBitBeforeLimit (b : BasicBitmap) (index limit : Z) :
    outcome (bool * Z) :=
  _ ← CHECK (limit <=? size_ b);
  FindNextBitInVector true (map_ b) index limit.
Definition FindNextSetBit (b : BasicBitmap) (index : Z) : outcome (bool * Z) :=
  FindNextSetBitBeforeLimit b index (size_ b).
Definition FindNextUnsetBit (b : BasicBitmap) (index : Z) : outcome (bool * Z) :=
  FindNextUnsetBitBeforeLimit b index (size_ b).
Definition FindFirstSetBit (b : BasicBitmap) : outcome (bool * Z) := FindNextSetBit b 0.

Definition FindPreviousSetBitBeforeLimit (b : BasicBitmap) (index limit : Z) :
    outcome (bool * Z) :=
  if size_ b <=? index then Ok (false, index)
  else FindPreviousBitInVector false (map_ b) index limit.
Definition FindPreviousUnsetBitBeforeLimit (b : BasicBitmap) (index limit : Z) :
    outcome (bool * Z) :=
  if size_ b <=? index then Ok (false, index)
  else FindPreviousBitInVector true (map_ b) index limit.
Definition FindPreviousSetBit (b : BasicBitmap) (index : Z) : outcome (bool * Z) :=
  FindPreviousSetBitBeforeLimit b index 0.
Definition FindPreviousUnsetBit (b : BasicBitmap) (index : Z) : outcome (bool * Z) :=
  FindPreviousUnsetBitBeforeLimit b index 0.
Definition FindLastSetBit (b : BasicBitmap) : outcome (bool * Z) :=
  FindPreviousSetBitBeforeLimit b (u64 (size_ b - 1)) 0.

(** ** Iteration and text *)

Record BitIndexIter := mkIter { current_ : Z; bit_position_ : Z }.

(** [current_] for the bit at a position: the rest of its word, from the bit on. *)
Definition rest_of_word (b : BasicBitmap) (position : Z) : outcome Z :=
  x ← GetMaskedMapElement b (position / kIntBits);
  Ok (Word (Z.shiftr x (offset position))).

Definition make_iter (b : BasicBitmap) (start_bit : Z) : outcome BitIndexIter :=
  '(found, position) ← FindNextSetBit b start_bit;
  if negb found then Ok (mkIter 0 (size_ b))
  else c ← rest_of_word b position; Ok (mkIter c position).

Definition iter_incr (b : BasicBitmap) (it : BitIndexIter) : outcome BitIndexIter :=
  let c := Z.shiftr (current_ it) 1 in
  let position := u64 (bit_position_ it + 1) in
  if c =? 0 then
    '(found, position) ← FindNextSetBit b position;
    if (found : bool) then c ← rest_of_word b position; Ok (mkIter c position)
    else Ok (mkIter c (size_ b))
  else if Z.land c 1 =? 0 then
    let first := countr_zero nbits c in
    Ok (mkIter (Z.shiftr c first) (u64 (position + first)))
  else Ok (mkIter c position).

Definition LowerBound (b : BasicBitmap) (lower_bound : Z) : outcome BitIndexIter :=
  make_iter b lower_bound.
Definition begin_ (b : BasicBitmap) : outcome BitIndexIter := LowerBound b 0.
Definition end_ (b : BasicBitmap) : outcome BitIndexIter := LowerBound b (2 ^ 64 - 1).
Definition iter_eq (a b : BitIndexIter) : bool := bit_position_ a =? bit_position_ b.

(** [for (size_type i : bitmap.TrueBitIndices())], collecting the indices. *)
Fixpoint collect (fuel : nat) (b : BasicBitmap) (it last : BitIndexIter) :
    outcome (list Z) :=
  if iter_eq it last then Ok []
  else
    match fuel with
    | O => UB
    | S fuel =>
        next ← iter_incr b it;
        l ← collect fuel b next last;
        Ok (bit_position_ it :: l)
    end.
Definition TrueBitIndices (b : BasicBitmap) : outcome (list Z) :=
  first ← begin_ b;
  last ← end_ b;
  collect (Z.to_nat (size_ b)) b first last.

(** The characters of the text; the loop sets one per bit found. *)
Fixpoint ToString_loop (fuel : nat) (b : BasicBitmap) (str : list Z) (index : Z) :
    outcome (list Z) :=
  '(found, index) ← FindNextSetBit b index;
  if (found : bool) then
    match fuel with
    | O => UB
    | S fuel => str ← wr str index 49; ToString_loop fuel b str (u64 (index + 1))
    end
  else Ok str.
Definition ToString (b : BasicBitmap) : outcome (list Z) :=
  ToString_loop (Z.to_nat (size_ b)) b (replicate (Z.to_nat (size_ b)) 48) 0.

(** [ToString(int group)]: [target.append(i > 0, '_').append(source, i, group)] for every
    [group]th position. *)
Fixpoint group_loop (fuel : nat) (source : list Z) (group i : Z) (target : list Z) :
    outcome (list Z) :=
  if i <? zlen source then
    match fuel with
    | O => UB
    | S fuel =>
        let target := target ++ (if 0 <? i then [95] else []) ++
          take (Z.to_nat group) (drop (Z.to_nat i) source) in
        group_loop fuel source group (u64 (i + group)) target
    end
  else Ok target.
Definition ToString_group (b : BasicBitmap) (group : Z) : outcome (list Z) :=
  source ← ToString b;
  if group <=? 0 then Ok source else group_loop (length source) source group 0 [].
End words.
Arguments map_ : clear implicits.
