(* ===== verification/BitmapBits.v ===== *)
(** * The words of a bitmap

    Bits of words after the conversions and masks of [Bitmap]; the bit [q] of an array of
    words, [mbit m q], after the memory operations; and the words that a bitmap of a
    given size has. *)
From Stdlib Require Import ZArith Lia Bool.
From stdpp Require Import base list numbers option.
From S2P Require Import Prelude.
From S2P Require Import Bitmap.
Local Open Scope Z_scope.

Section words.
Variable T : WordType.
#[local] Abbreviation K := (kIntBits T).

(** ** Widths *)

Lemma K_range : 8 <= K <= 64.
Proof. destruct T; simpl; lia. Qed.

Lemma K_arith : K <= Z.max 32 K.
Proof. lia. Qed.

Lemma offset_mod i : offset T i = i mod K.
Proof.
  unfold offset. destruct T; simpl;
    [exact (Z.land_ones i 3 ltac:(lia)) | exact (Z.land_ones i 3 ltac:(lia)) |
     exact (Z.land_ones i 4 ltac:(lia)) | exact (Z.land_ones i 5 ltac:(lia)) |
     exact (Z.land_ones i 6 ltac:(lia))].
Qed.

Lemma shiftr_log i : Z.shiftr i (kLogIntBits T) = i / K.
Proof. rewrite Z.shiftr_div_pow2; destruct T; vm_compute; discriminate || reflexivity. Qed.

Lemma shiftl_log i : Z.shiftl i (kLogIntBits T) = i * K.
Proof. rewrite Z.shiftl_mul_pow2; destruct T; vm_compute; discriminate || reflexivity. Qed.

Lemma all_ones : kAllOnesWord T = Z.ones K.
Proof. destruct T; reflexivity. Qed.

(** ** Bits of converted words *)

Lemma testbit_Word x j : 0 <= j -> Z.testbit (Word T x) j = (j <? K) && Z.testbit x j.
Proof.
  intros Hj. pose proof K_range. unfold Word. destruct (Z.ltb_spec j K); simpl.
  - apply Z.mod_pow2_bits_low. lia.
  - apply Z.mod_pow2_bits_high. lia.
Qed.

Lemma testbit_AW x j : 0 <= j < K -> Z.testbit (ArithmeticWord T x) j = Z.testbit x j.
Proof. intros Hj. unfold ArithmeticWord. apply Z.mod_pow2_bits_low. lia. Qed.

Lemma testbit_swrap8 x j : 0 <= j < 8 -> Z.testbit (swrap 8 x) j = Z.testbit x j.
Proof.
  intros Hj. rewrite <- (Z.mod_pow2_bits_low (swrap 8 x) 8), <- (Z.mod_pow2_bits_low x 8) by lia.
  f_equal. unfold swrap. zlia.
Qed.

Definition is_char : bool := match T with WChar => true | _ => false end.

Lemma toW_cases x : is_char = true /\ K = 8 /\ toW T x = swrap 8 x \/
  is_char = false /\ toW T x = Word T x.
Proof. unfold is_char. destruct T; auto. Qed.

Lemma testbit_toW x j : 0 <= j < K -> Z.testbit (toW T x) j = Z.testbit x j.
Proof.
  intros Hj. destruct (toW_cases x) as [(_ & HK & ->)|(_ & ->)].
  - apply testbit_swrap8. lia.
  - rewrite testbit_Word by lia. case_test; reflexivity.
Qed.

Lemma testbit_promoted x j : 0 <= j < K -> Z.testbit (promoted T x) j = Z.testbit x j.
Proof.
  intros Hj. unfold promoted. destruct (K <? 32); [reflexivity|].
  rewrite testbit_Word by lia. destruct (Z.ltb_spec j K); [reflexivity | lia].
Qed.

Lemma testbit_big x n j : 0 <= n -> - 2 ^ n <= x < 2 ^ n -> n <= j ->
  Z.testbit x j = (x <? 0).
Proof.
  intros Hn Hx Hj. pose proof (Z.pow_le_mono_r 2 n j ltac:(lia) Hj).
  rewrite Z.testbit_odd, Z.shiftr_div_pow2 by lia. destruct (Z.ltb_spec x 0).
  - assert (x / 2 ^ j = -1) as ->; [|reflexivity].
    symmetry. apply (Z.div_unique _ _ _ (x + 2 ^ j)); lia.
  - rewrite Z.div_small by lia. reflexivity.
Qed.

(** A value of type [W]: the bits above the word repeat the sign. *)
Definition W_ok (x : Z) : Prop :=
  forall j, K <= j -> Z.testbit x j = is_char && Z.testbit x (K - 1).
(** A value of type [Word]. *)
Definition U_ok (x : Z) : Prop := forall j, K <= j -> Z.testbit x j = false.

Lemma W_ok_toW x : W_ok (toW T x).
Proof.
  intros j Hj. pose proof K_range. destruct (toW_cases x) as [(-> & HK & ->)|(-> & ->)]; simpl.
  - assert (Hr : - 2 ^ 7 <= swrap 8 x < 2 ^ 7) by (unfold swrap; zlia).
    rewrite !(testbit_big _ 7) by lia. reflexivity.
  - rewrite testbit_Word by lia. case_test; reflexivity.
Qed.

Lemma U_ok_Word x : U_ok (Word T x).
Proof.
  intros j Hj. pose proof K_range. rewrite testbit_Word by lia. case_test; reflexivity.
Qed.

Lemma U_ok_range x : U_ok x <-> 0 <= x < 2 ^ K.
Proof.
  pose proof K_range. split.
  - intros Hx. assert (x = Word T x) as ->; [|apply Z.mod_pos_bound; lia].
    apply Z.bits_inj'. intros j Hj. rewrite testbit_Word by lia. case_test; [reflexivity|].
    apply Hx. lia.
  - intros Hx j Hj. apply (testbit_small x K); lia.
Qed.

Lemma Word_U_ok x : U_ok x -> Word T x = x.
Proof. intros Hx%U_ok_range. apply Z.mod_small. lia. Qed.

Lemma W_ok_ext x y : W_ok x -> W_ok y ->
  (forall j, 0 <= j < K -> Z.testbit x j = Z.testbit y j) -> x = y.
Proof.
  intros Hx Hy He. pose proof K_range. apply Z.bits_inj'. intros j Hj.
  destruct (Z.ltb_spec j K); [apply He; lia|].
  rewrite Hx, Hy by lia. f_equal. apply He. lia.
Qed.

Lemma U_ok_ext x y : U_ok x -> U_ok y ->
  (forall j, 0 <= j < K -> Z.testbit x j = Z.testbit y j) -> x = y.
Proof.
  intros Hx Hy He. apply Z.bits_inj'. intros j Hj.
  destruct (Z.ltb_spec j K); [apply He; lia|]. rewrite Hx, Hy by lia. reflexivity.
Qed.

Lemma U_ok_land x y : U_ok y -> U_ok (Z.land x y).
Proof. intros Hy j Hj. rewrite Z.land_spec, (Hy j) by lia. apply andb_false_r. Qed.

Lemma U_ok_shiftr x k : 0 <= k -> U_ok x -> U_ok (Z.shiftr x k).
Proof. intros Hk Hx j Hj. pose proof K_range. rewrite Z.shiftr_spec by lia. apply Hx. lia. Qed.

(** ** Tests for zero *)

(** A bit above the word is set only with the top bit of the word. *)
Definition closed (x : Z) : Prop :=
  forall j, K <= j -> Z.testbit x j = true -> Z.testbit x (K - 1) = true.

Lemma closed_W x : W_ok x -> closed x.
Proof. intros Hx j Hj. rewrite Hx by lia. intros [_ ?]%andb_true_iff. auto. Qed.
Lemma closed_U x : U_ok x -> closed x.
Proof. intros Hx j Hj. rewrite Hx by lia. discriminate. Qed.
Lemma closed_land x y : closed x -> closed y -> closed (Z.land x y).
Proof.
  intros Hx Hy j Hj. rewrite !Z.land_spec, !andb_true_iff. intros [H1 H2]. eauto.
Qed.
Lemma promoted_char x : is_char = true -> promoted T x = x.
Proof. unfold is_char, promoted. destruct T; done. Qed.

Lemma closed_land_not x y : W_ok x -> W_ok y -> closed (Z.land x (promoted T (Z.lnot y))).
Proof.
  intros Hx Hy j Hj. pose proof K_range.
  rewrite !Z.land_spec, !andb_true_iff, (testbit_promoted _ (K - 1)) by lia.
  rewrite Hx by lia. intros [[Hc Hx1]%andb_true_iff Hn]. split; [auto|].
  rewrite promoted_char, Z.lnot_spec, Hy, Hc in Hn by (auto; lia).
  rewrite Z.lnot_spec by lia. exact Hn.
Qed.

Lemma zero_bits x : closed x ->
  (x =? 0) = true <-> forall j, 0 <= j < K -> Z.testbit x j = false.
Proof.
  intros Hx. pose proof K_range. rewrite Z.eqb_eq. split.
  - intros -> j _. apply Z.bits_0.
  - intros Hb. apply Z.bits_inj'. intros j Hj. rewrite Z.bits_0.
    destruct (Z.ltb_spec j K) as [|HK]; [apply Hb; lia|].
    destruct (Z.testbit x j) eqn:E; [|reflexivity]. apply (Hx j HK) in E.
    rewrite Hb in E by lia. discriminate.
Qed.

(** Testing one bit. *)
Lemma land_bit x k : 0 <= k < K ->
  (Z.land x (bit_at T k) =? 0) = negb (Z.testbit x k).
Proof.
  intros Hk. assert (Hb : bit_at T k = 2 ^ k).
  { unfold bit_at, promoted, Word. rewrite Z.shiftl_1_l. destruct (K <? 32); [reflexivity|].
    apply Z.mod_small. split; [apply Z.pow_nonneg; lia | apply Z.pow_lt_mono_r; lia]. }
  rewrite Hb. destruct (Z.testbit x k) eqn:E; simpl.
  - apply Z.eqb_neq. intros H0. apply (f_equal (fun v => Z.testbit v k)) in H0.
    rewrite Z.land_spec, E, Z.pow2_bits_true, Z.bits_0 in H0 by lia. discriminate.
  - apply Z.eqb_eq. apply Z.bits_inj'. intros j Hj. rewrite Z.land_spec, Z.bits_0.
    destruct (decide (j = k)) as [->|]; [rewrite E; reflexivity|].
    rewrite Z.pow2_bits_false by lia. apply andb_false_r.
Qed.

Lemma testbit_bit_at k j : 0 <= k < K -> 0 <= j < K ->
  Z.testbit (bit_at T k) j = (j =? k).
Proof.
  intros Hk Hj. unfold bit_at. rewrite testbit_promoted, Z.shiftl_1_l by lia.
  destruct (Z.eqb_spec j k) as [->|]; [apply Z.pow2_bits_true | apply Z.pow2_bits_false]; lia.
Qed.

(** The same test with the bit as a value of type [W]. *)
Lemma land_bit_W x k : 0 <= k < K -> W_ok x ->
  (Z.land x (toW T (bit_at T k)) =? 0) = negb (Z.testbit x k).
Proof.
  intros Hk Hx. pose proof K_range.
  assert (Hz := zero_bits (Z.land x (toW T (bit_at T k)))
    (closed_land _ _ (closed_W _ Hx) (closed_W _ (W_ok_toW _)))).
  destruct (Z.testbit x k) eqn:E; simpl.
  - apply not_true_iff_false. rewrite Hz. intros Hb. specialize (Hb k Hk).
    rewrite Z.land_spec, E, testbit_toW, testbit_bit_at, Z.eqb_refl in Hb by lia. discriminate.
  - apply Hz. intros j Hj. rewrite Z.land_spec, testbit_toW, testbit_bit_at by lia.
    destruct (Z.eqb_spec j k) as [->|]; [rewrite E; reflexivity | apply andb_false_r].
Qed.

(** ** Masks *)

Lemma testbit_ones j : 0 <= j -> Z.testbit (kAllOnesWord T) j = (j <? K).
Proof.
  intros Hj. pose proof K_range. rewrite all_ones. case_test;
    [apply Z.ones_spec_low | apply Z.ones_spec_high]; lia.
Qed.

Lemma U_ok_ones : U_ok (kAllOnesWord T).
Proof. intros j Hj. pose proof K_range. rewrite testbit_ones by lia. case_test; reflexivity. Qed.

(** [kAllOnesWord << k] and [kAllOnesWord >> k]. *)
Lemma testbit_high k j : 0 <= k -> 0 <= j < K ->
  Z.testbit (ArithmeticWord T (Z.shiftl (kAllOnesWord T) k)) j = (k <=? j).
Proof.
  intros Hk Hj. rewrite testbit_AW, Z.shiftl_spec by lia. case_test.
  - rewrite testbit_ones by lia. case_test; reflexivity.
  - apply Z.testbit_neg_r. lia.
Qed.

Lemma testbit_low k j : 0 <= k -> 0 <= j ->
  Z.testbit (Z.shiftr (kAllOnesWord T) k) j = (j + k <? K).
Proof. intros Hk Hj. rewrite Z.shiftr_spec, testbit_ones by lia. reflexivity. Qed.

(** [~((kAllOnesWord - 1) << k)]. *)
Lemma testbit_upto k j : 0 <= k < K -> 0 <= j < K ->
  Z.testbit (ArithmeticWord T (Z.lnot (ArithmeticWord T
    (Z.shiftl (kAllOnesWord T - 1) k)))) j = (j <=? k).
Proof.
  intros Hk Hj. pose proof K_range.
  rewrite testbit_AW, Z.lnot_spec, testbit_AW, Z.shiftl_spec by lia.
  assert (Ho : kAllOnesWord T - 1 = Z.shiftl (Z.ones (K - 1)) 1) by (destruct T; reflexivity).
  rewrite Ho. case_test.
  - destruct (decide (j = k)) as [->|].
    + rewrite Z.sub_diag. rewrite Z.shiftl_spec_low by lia. reflexivity.
    + rewrite Z.testbit_neg_r by lia. reflexivity.
  - rewrite Z.shiftl_spec by lia. rewrite Z.ones_spec_low by lia. reflexivity.
Qed.
End words.

Definition word (m : list Z) (i : Z) : Z := nth (Z.to_nat i) m 0.
Definition inside (m : list Z) (i : Z) : Prop := 0 <= i < zlen m.

Lemma rd_ok m i : inside m i -> rd m i = Ok (word m i).
Proof.
  unfold inside, rd, load8, word, zlen. intros Hi. case_test.
  destruct (m !! Z.to_nat i) eqn:E; [|apply lookup_ge_None in E; lia].
  rewrite (nth_lookup_Some _ _ _ _ E). reflexivity.
Qed.

Lemma wr_ok m i v : inside m i -> wr m i v = Ok (<[Z.to_nat i := v]> m).
Proof. unfold inside, wr, store8. intros Hi. case_test. case_test. reflexivity. Qed.

Lemma word_insert m i k v : inside m i -> 0 <= k ->
  word (<[Z.to_nat i := v]> m) k = if k =? i then v else word m k.
Proof.
  unfold inside, word, zlen. intros Hi Hk. rewrite !nth_lookup.
  destruct (Z.eqb_spec k i) as [->|].
  - rewrite list_lookup_insert_eq by lia. reflexivity.
  - rewrite list_lookup_insert_ne by lia. reflexivity.
Qed.

Lemma word_app_l l k i : 0 <= i < zlen l -> word (l ++ k) i = word l i.
Proof. unfold word, zlen. intros. apply app_nth1. lia. Qed.
Lemma word_app_r l k i : zlen l <= i -> word (l ++ k) i = word k (i - zlen l).
Proof.
  unfold word, zlen. intros. rewrite app_nth2 by lia. f_equal. lia.
Qed.
Lemma word_take m n i : 0 <= i < n -> word (take (Z.to_nat n) m) i = word m i.
Proof.
  unfold word. intros. rewrite !nth_lookup, lookup_take.
  rewrite decide_True by lia. reflexivity.
Qed.
Lemma word_drop m n i : 0 <= i -> 0 <= n -> word (drop (Z.to_nat n) m) i = word m (n + i).
Proof. unfold word. intros. rewrite !nth_lookup, lookup_drop. do 2 f_equal. lia. Qed.
Lemma zlen_take_le (m : list Z) n : 0 <= n <= zlen m -> zlen (take (Z.to_nat n) m) = n.
Proof. unfold zlen. rewrite length_take. lia. Qed.
Lemma zlen_drop (m : list Z) n : 0 <= n <= zlen m -> zlen (drop (Z.to_nat n) m) = zlen m - n.
Proof. unfold zlen. rewrite length_drop. lia. Qed.

Lemma fill_range_ok m from to v : 0 <= from <= to -> to <= zlen m ->
  exists m', fill_range m from to v = Ok m' /\ zlen m' = zlen m /\
    (forall P : Z -> Prop, Forall P m -> P v -> Forall P m') /\
    forall i, 0 <= i -> word m' i = if (from <=? i) && (i <? to) then v else word m i.
Proof.
  intros Hf Ht. unfold fill_range. repeat case_test. simpl.
  eexists. split; [reflexivity|].
  assert (Hr : zlen (replicate (Z.to_nat (to - from)) v) = to - from).
  { unfold zlen. rewrite length_replicate. lia. }
  pose proof (zlen_take_le m from ltac:(lia)) as Hlt. pose proof (zlen_drop m to ltac:(lia)) as Hld.
  split_and!.
  - rewrite !zlen_app, Hr, Hlt, Hld. lia.
  - intros P Hm Hv. rewrite !Forall_app. split_and!; [apply Forall_take; auto | |
      apply Forall_drop; auto]. apply Forall_replicate. auto.
  - intros i Hi. destruct (Z.ltb_spec i from).
    + rewrite word_app_l, word_take by lia. repeat case_test. reflexivity.
    + rewrite word_app_r by lia. rewrite Hlt. destruct (Z.ltb_spec i to); repeat case_test; simpl.
      * rewrite word_app_l by lia. unfold word. rewrite nth_lookup, lookup_replicate_2 by lia.
        reflexivity.
      * rewrite word_app_r by lia. rewrite Hr, word_drop by lia. f_equal. lia.
Qed.

Lemma transform2_ok m k n f : 0 <= n -> n <= zlen m -> n <= zlen k ->
  exists m', transform2 n f m k = Ok m' /\ zlen m' = zlen m /\
    (forall P : Z -> Prop, Forall P m -> (forall x y, P (f x y)) -> Forall P m') /\
    forall i, 0 <= i -> word m' i = if i <? n then f (word m i) (word k i) else word m i.
Proof.
  intros Hn Hm Hk. unfold transform2. repeat case_test. simpl.
  eexists. split; [reflexivity|].
  set (z := zip_with f (take (Z.to_nat n) m) (take (Z.to_nat n) k)).
  assert (Hz : zlen z = n).
  { unfold zlen in *. subst z. rewrite length_zip_with, !length_take. lia. }
  split_and!.
  - rewrite zlen_app, Hz, zlen_drop by lia. lia.
  - intros P Hp Hf. apply Forall_app. split; [|apply Forall_drop; auto].
    apply Forall_lookup. intros j x Hj.
    apply lookup_zip_with_Some in Hj as (x1 & y1 & -> & _). auto.
  - intros i Hi. case_test.
    + rewrite word_app_l by lia. unfold word, zlen in *. rewrite !nth_lookup.
      destruct (lookup_lt_is_Some_2 m (Z.to_nat i)) as [x Hx]; [lia|].
      destruct (lookup_lt_is_Some_2 k (Z.to_nat i)) as [y Hy]; [lia|].
      subst z. rewrite lookup_zip_with, !lookup_take, !decide_True, Hx, Hy by lia. reflexivity.
    + rewrite word_app_r by lia. rewrite Hz, word_drop by lia. f_equal. lia.
Qed.

Lemma transform1_ok m n f : 0 <= n -> n <= zlen m ->
  exists m', transform1 n f m = Ok m' /\ zlen m' = zlen m /\
    (forall P : Z -> Prop, Forall P m -> (forall x, P (f x)) -> Forall P m') /\
    forall i, 0 <= i -> word m' i = if i <? n then f (word m i) else word m i.
Proof.
  intros Hn Hm. unfold transform1. repeat case_test. simpl.
  eexists. split; [reflexivity|].
  assert (Hz : zlen (map f (take (Z.to_nat n) m)) = n).
  { unfold zlen in *. rewrite length_map, length_take. lia. }
  split_and!.
  - rewrite zlen_app, Hz, zlen_drop by lia. lia.
  - intros P Hp Hf. apply Forall_app. split; [|apply Forall_drop; auto].
    apply Forall_lookup. intros j x Hj. change (map f ?l) with (f <$> l) in Hj.
    apply list_lookup_fmap_Some in Hj as (y & -> & _). auto.
  - intros i Hi. case_test.
    + rewrite word_app_l by lia. unfold word, zlen in *. rewrite !nth_lookup.
      destruct (lookup_lt_is_Some_2 m (Z.to_nat i)) as [x Hx]; [lia|].
      change (map f ?l) with (f <$> l). rewrite list_lookup_fmap, lookup_take, decide_True, Hx
        by lia. reflexivity.
    + rewrite word_app_r by lia. rewrite Hz, word_drop by lia. f_equal. lia.
Qed.

Section bits.
Variable T : WordType.
#[local] Abbreviation K := (kIntBits T).

Definition mbit (m : list Z) (q : Z) : bool := Z.testbit (word m (q / K)) (q mod K).
Definition words_ok (m : list Z) : Prop := Forall (W_ok T) m.

Lemma word_W_ok m i : words_ok m -> W_ok T (word m i).
Proof.
  intros Hm. unfold word. rewrite nth_lookup. destruct (m !! Z.to_nat i) eqn:E; simpl.
  - eapply Forall_lookup_1; eauto.
  - intros j _. rewrite !Z.bits_0. symmetry. apply andb_false_r.
Qed.

(** A size, and the words it needs. *)
Definition size_ok (n : Z) : Prop := 0 <= n < 2 ^ 63.

Lemma array_size_pos n : 0 <= n -> 0 < RequiredArraySize T n.
Proof.
  intros Hn. unfold RequiredArraySize. destruct (Z.eqb_spec n 0); [lia|].
  pose proof (K_range T). pose proof (Z.div_pos (n - 1) K). lia.
Qed.

(** Bit [q] of the bitmap is in word [q / K], which is before the last one or is the
    last one and the bit below the end. *)
Lemma in_words q n : 0 <= q < n -> 0 <= q / K < RequiredArraySize T n /\ 0 <= q mod K < K.
Proof.
  intros Hq. pose proof (K_range T). unfold RequiredArraySize. case_test.
  pose proof (Z.div_pos q K). pose proof (Z.mod_pos_bound q K).
  pose proof (Z.div_le_mono q (n - 1) K). lia.
Qed.

Lemma bit_pos i j : 0 <= j < K -> (i * K + j) / K = i /\ (i * K + j) mod K = j.
Proof.
  intros Hj. pose proof (K_range T). split.
  - rewrite Z.div_add_l, Z.div_small by lia. lia.
  - rewrite Z.add_comm, Z.mod_add, Z.mod_small by lia. reflexivity.
Qed.

Lemma mbit_at m i j : 0 <= j < K -> mbit m (i * K + j) = Z.testbit (word m i) j.
Proof. intros Hj. unfold mbit. destruct (bit_pos i j Hj) as [-> ->]. reflexivity. Qed.

Lemma pos_split q : q = q / K * K + q mod K.
Proof. pose proof (K_range T). pose proof (Z.div_mod q K). lia. Qed.

Lemma same_word p q : p / K = q / K -> (p mod K =? q mod K) = (p =? q).
Proof.
  intros Hd. pose proof (pos_split p). pose proof (pos_split q). rewrite Hd in *. lia.
Qed.

(** The order of bits is the order of words and then of positions. *)
Lemma le_split p q :
  p <= q <-> p / K < q / K \/ p / K = q / K /\ p mod K <= q mod K.
Proof.
  pose proof (K_range T). pose proof (pos_split p). pose proof (pos_split q).
  pose proof (Z.mod_pos_bound p K). pose proof (Z.mod_pos_bound q K). split.
  - intros Hpq. pose proof (Z.div_le_mono p q K ltac:(lia) Hpq).
    destruct (decide (p / K = q / K)) as [He|]; [rewrite He in *; lia | lia].
  - intros [Hlt|[He Hm]]; [|rewrite He in *; lia].
    assert ((p / K + 1) * K <= q / K * K) by (apply Z.mul_le_mono_nonneg_r; lia). lia.
Qed.

(** The words before the last one are full. *)
Lemma last_word n : 0 < n -> 0 <= (n - 1) mod K < K /\
  n = (RequiredArraySize T n - 1) * K + (n - 1) mod K + 1.
Proof.
  intros Hn. pose proof (K_range T). unfold RequiredArraySize. case_test.
  pose proof (Z.mod_pos_bound (n - 1) K). pose proof (pos_split (n - 1)). lia.
Qed.

Lemma valid_bit n i j : 0 < n -> 0 <= j < K -> 0 <= i < RequiredArraySize T n ->
  i * K + j < n <-> i < RequiredArraySize T n - 1 \/ j <= (n - 1) mod K.
Proof.
  intros Hn Hj Hi. destruct (last_word n Hn) as [Hm Hn'].
  assert (Hc : i < RequiredArraySize T n - 1 \/ i = RequiredArraySize T n - 1) by lia.
  set (a := RequiredArraySize T n - 1) in *. set (r := (n - 1) mod K) in *.
  clearbody a r. destruct Hc as [Hlt| ->].
  - assert ((i + 1) * K <= a * K) by (apply Z.mul_le_mono_nonneg_r; lia). lia.
  - lia.
Qed.

(** ** Bits after a write *)

Lemma mbit_insert m i v q : inside m i -> 0 <= q ->
  mbit (<[Z.to_nat i := v]> m) q = if q / K =? i then Z.testbit v (q mod K) else mbit m q.
Proof.
  intros Hi Hq. pose proof (K_range T). unfold mbit. rewrite word_insert; auto.
  - case_test; reflexivity.
  - apply Z.div_pos; lia.
Qed.

Lemma words_ok_insert m i v : words_ok m -> W_ok T v -> words_ok (<[i := v]> m).
Proof. intros Hm Hv. apply Forall_insert; auto. Qed.

Lemma mod_range q : 0 <= q mod K < K.
Proof. pose proof (K_range T). apply Z.mod_pos_bound. lia. Qed.
Lemma div_nonneg q : 0 <= q -> 0 <= q / K.
Proof. pose proof (K_range T). intros. apply Z.div_pos; lia. Qed.
End bits.

#[export] Hint Resolve mod_range div_nonneg W_ok_toW word_W_ok words_ok_insert : gloop.
