(* ===== verification/BitmapProps.v ===== *)
(** * Operations that change a bitmap

    The bits of the result, one operation at a time: single bits, ranges, sizes, and the
    set operations on bitmaps of different sizes where the code allows it. *)
From Stdlib Require Import ZArith Lia Bool.
From stdpp Require Import base list numbers option.
From S2P Require Import Prelude.
From S2P Require Import Bitmap.
From S2P Require Import BitmapBits.
Local Open Scope Z_scope.

Section ops.
Context `{BuildMode} (hardened : bool) (T : WordType).
#[local] Abbreviation K := (kIntBits T).
#[local] Abbreviation R := (RequiredArraySize T).

Definition bm_ok (b : BasicBitmap) : Prop :=
  size_ok (size_ b) /\ words_ok T (map_ b) /\ array_size T b <= zlen (map_ b).
Definition bit (b : BasicBitmap) (q : Z) : bool := mbit T (map_ b) q.

(** [b'] is a bitmap like [b] with the bits [g]. *)
Definition becomes (b b' : BasicBitmap) (g : Z -> bool) : Prop :=
  bm_ok b' /\ size_ b' = size_ b /\ forall q, 0 <= q < size_ b -> bit b' q = g q.

Lemma index_inside b q : bm_ok b -> 0 <= q < size_ b -> inside (map_ b) (q / K).
Proof.
  intros (_ & _ & Hl) Hq. destruct (in_words T q _ Hq). unfold inside, array_size in *. lia.
Qed.

Lemma last_inside b : bm_ok b -> inside (map_ b) (array_size T b - 1).
Proof.
  intros (Hs & _ & Hl). unfold size_ok, inside, array_size in *.
  pose proof (array_size_pos T (size_ b)). lia.
Qed.

(** ** Single bits *)

Lemma GetBit_ok m q : inside m (q / K) -> GetBit T m q = Ok (mbit T m q).
Proof.
  intros Hi. unfold GetBit. rewrite rd_ok, bind_Ok by auto. rewrite offset_mod, land_bit.
  - rewrite negb_involutive. reflexivity.
  - auto with gloop.
Qed.

Lemma SetBit_ok m q v : inside m (q / K) -> words_ok T m ->
  exists m', SetBit T m q v = Ok (m', mbit T m q) /\ words_ok T m' /\ zlen m' = zlen m /\
    forall p, 0 <= p -> mbit T m' p = if p =? q then v else mbit T m p.
Proof.
  intros Hi Hm. unfold SetBit. rewrite rd_ok, bind_Ok by auto. rewrite offset_mod.
  pose proof (mod_range T q) as Hr. rewrite wr_ok, bind_Ok by auto.
  rewrite land_bit_W, negb_involutive by auto with gloop.
  eexists. split; [reflexivity|]. split_and!; [auto with gloop | apply zlen_insert |].
  intros p Hp. rewrite mbit_insert by auto. pose proof (mod_range T p).
  destruct (Z.eqb_spec (p / K) (q / K)) as [Ed|Ed].
  - rewrite testbit_toW by lia.
    pose proof (same_word T p q Ed) as Hpq.
    destruct v.
    + rewrite Z.lor_spec, testbit_toW, testbit_bit_at, Hpq by lia.
      unfold mbit. rewrite Ed. destruct (p =? q); [apply orb_true_r | apply orb_false_r].
    + rewrite Z.land_spec, testbit_promoted, Z.lnot_spec, testbit_toW, testbit_bit_at, Hpq
        by lia. unfold mbit. rewrite Ed.
      destruct (p =? q); [apply andb_false_r | apply andb_true_r].
  - destruct (Z.eqb_spec p q) as [->|]; [done | reflexivity].
Qed.

Lemma HARDENING_ok b : b = true -> HARDENING_ASSERT hardened b = Ok tt.
Proof. intros ->. unfold HARDENING_ASSERT. destruct (hardened || negb NDEBUG); reflexivity. Qed.

Lemma Get_ok b q : bm_ok b -> 0 <= q < size_ b -> Get hardened T b q = Ok (bit b q).
Proof.
  intros Hb Hq. unfold Get. rewrite HARDENING_ok, bind_Ok by lia. apply GetBit_ok.
  apply index_inside; auto.
Qed.

Lemma Set_ok b q v : bm_ok b -> 0 <= q < size_ b ->
  exists b', Set_ hardened T b q v = Ok (b', bit b q) /\
    becomes b b' (fun p => if p =? q then v else bit b p).
Proof.
  intros Hb Hq. unfold Set_. rewrite HARDENING_ok, bind_Ok by lia.
  destruct (SetBit_ok (map_ b) q v) as (m & -> & Hm & Hl & Hbit);
    [apply index_inside; auto | apply Hb|].
  rewrite bind_Ok. eexists. split; [reflexivity|]. destruct Hb as (Hs & _ & Ha).
  unfold becomes, bm_ok, array_size in *. split_and!; simpl; auto; [lia|].
  intros p Hp. apply Hbit. lia.
Qed.

Lemma Toggle_ok b q : bm_ok b -> 0 <= q < size_ b ->
  exists b', Toggle hardened T b q = Ok b' /\
    becomes b b' (fun p => xorb (bit b p) (p =? q)).
Proof.
  intros Hb Hq. unfold Toggle. rewrite HARDENING_ok, bind_Ok by lia.
  pose proof (index_inside b q Hb Hq) as Hi. rewrite rd_ok, bind_Ok, wr_ok, bind_Ok by auto.
  eexists. split; [reflexivity|]. destruct Hb as (Hs & Hm & Ha).
  unfold becomes, bm_ok, array_size in *. split_and!; simpl; auto with gloop;
    [rewrite zlen_insert; lia|].
  intros p Hp. unfold bit. simpl. rewrite mbit_insert by (auto; lia).
  pose proof (mod_range T p). pose proof (mod_range T q). rewrite offset_mod.
  destruct (Z.eqb_spec (p / K) (q / K)) as [Ed|Ed].
  - rewrite testbit_toW, Z.lxor_spec, testbit_bit_at by lia. unfold mbit. rewrite Ed. f_equal.
    apply same_word. auto.
  - destruct (Z.eqb_spec p q) as [->|]; [done | rewrite xorb_false_r; reflexivity].
Qed.

(** ** Filling *)

Lemma testbit_fill (v : bool) j : 0 <= j < K ->
  Z.testbit (toW T (if v then kAllOnesWord T else 0)) j = v.
Proof.
  intros Hj. rewrite testbit_toW by lia. destruct v; [|apply Z.bits_0].
  rewrite testbit_ones by lia. case_test; reflexivity.
Qed.

Lemma SetAll_ok b v : size_ok (size_ b) -> words_ok T (map_ b) ->
  array_size T b <= zlen (map_ b) ->
  exists b', SetAll T b v = Ok b' /\ becomes b b' (fun _ => v).
Proof.
  intros Hs Hw Hl. unfold SetAll, size_ok in *.
  pose proof (array_size_pos T (size_ b) ltac:(lia)) as Hpos.
  destruct (fill_range_ok (map_ b) 0 (array_size T b)
    (toW T (if v then kAllOnesWord T else 0))) as (m & -> & Hz & HP & Hb);
    [unfold array_size in *; lia | lia |].
  rewrite bind_Ok. eexists. split; [reflexivity|].
  unfold becomes, bm_ok, array_size in *. split_and!; simpl; auto.
  - apply HP; auto with gloop.
  - lia.
  - intros q Hq. unfold bit, mbit. simpl. destruct (in_words T q _ Hq) as [Hq1 Hq2].
    rewrite Hb by lia. repeat case_test. simpl. apply testbit_fill. auto.
Qed.

(** The bits that a mask of the word covers, set or cleared. *)
Lemma apply_mask_bit x mask (v : bool) j : 0 <= j < K ->
  Z.testbit (toW T (if v then Z.lor x mask else Z.land x (promoted T (Z.lnot mask)))) j =
    if Z.testbit mask j then v else Z.testbit x j.
Proof.
  intros Hj. rewrite testbit_toW by lia. destruct v.
  - rewrite Z.lor_spec. destruct (Z.testbit mask j); [apply orb_true_r | apply orb_false_r].
  - rewrite Z.land_spec, testbit_promoted, Z.lnot_spec by lia.
    destruct (Z.testbit mask j); [apply andb_false_r | apply andb_true_r].
Qed.

(** ** The mask of the last word *)

Lemma mask_shift n : 0 < n < 2 ^ 64 ->
  Z.land (u64 (- n)) (K - 1) = K - 1 - (n - 1) mod K.
Proof.
  intros Hn. change (Z.land (u64 (- n)) (K - 1)) with (offset T (u64 (- n))).
  rewrite offset_mod. unfold u64. destruct T; simpl kIntBits; zlia.
Qed.

Lemma testbit_mask b j : size_ok (size_ b) -> 0 <= j < K ->
  Z.testbit (HighOrderMapElementMask T b) j =
    (0 <? size_ b) && (j <=? (size_ b - 1) mod K).
Proof.
  unfold size_ok, HighOrderMapElementMask. intros Hs Hj.
  destruct (Z.eqb_spec (size_ b) 0) as [->|]; [rewrite Z.bits_0; reflexivity|].
  pose proof (mod_range T (size_ b - 1)).
  rewrite testbit_Word, mask_shift, testbit_low by lia. lia.
Qed.

Lemma U_ok_mask b : U_ok T (HighOrderMapElementMask T b).
Proof.
  unfold HighOrderMapElementMask. destruct (size_ b =? 0); [|apply U_ok_Word].
  intros j _. apply Z.bits_0.
Qed.

(** ** Ranges *)

(** A masked write of one word. *)
Lemma masked_write m i mask (v : bool) (g : Z -> bool) : inside m i -> words_ok T m ->
  (forall j, 0 <= j < K -> Z.testbit mask j = g j) ->
  exists x m', rd m i = Ok x /\
    wr m i (toW T (if v then Z.lor x mask else Z.land x (promoted T (Z.lnot mask)))) = Ok m' /\
    words_ok T m' /\ zlen m' = zlen m /\
    forall q, 0 <= q -> mbit T m' q = if (q / K =? i) && g (q mod K) then v else mbit T m q.
Proof.
  intros Hi Hm Hg. exists (word m i). eexists. rewrite rd_ok, wr_ok by auto.
  split_and!; [reflexivity | reflexivity | auto with gloop | apply zlen_insert |].
  intros q Hq. rewrite mbit_insert by auto. destruct (Z.eqb_spec (q / K) i) as [<-|]; simpl.
  - rewrite apply_mask_bit, Hg by auto with gloop. reflexivity.
  - reflexivity.
Qed.

(** The two ends of a range inside their words. *)
Lemma testbit_initial s e j : 0 <= s -> 0 <= e -> 0 <= j < K -> Z.testbit
    (if e / K =? s / K
     then Word T (Z.land (Word T (ArithmeticWord T (Z.shiftl (kAllOnesWord T) (s mod K))))
            (Z.shiftr (kAllOnesWord T) (K - e mod K)))
     else Word T (ArithmeticWord T (Z.shiftl (kAllOnesWord T) (s mod K)))) j =
    (s mod K <=? j) && (negb (e / K =? s / K) || (j <? e mod K)).
Proof.
  intros Hs He Hj. pose proof (mod_range T s). pose proof (mod_range T e).
  destruct (Z.eqb_spec (e / K) (s / K)); simpl.
  - rewrite testbit_Word, Z.land_spec, testbit_Word, testbit_high, testbit_low by lia. lia.
  - rewrite testbit_Word, testbit_high by lia. lia.
Qed.

Lemma testbit_final e j : 0 <= j < K ->
  Z.testbit (Word T (Z.shiftr (kAllOnesWord T) (K - e mod K))) j = (j <? e mod K).
Proof.
  intros Hj. pose proof (mod_range T e). rewrite testbit_Word, testbit_low by lia. lia.
Qed.

(** A range of bits is the end of its first word, full words, and the start of its last
    word. *)
Lemma range_split s e q : 0 <= s < e -> s / K <> e / K ->
  (s <=? q) && (q <? e) =
  ((q / K =? s / K) && (s mod K <=? q mod K)) || ((s / K + 1 <=? q / K) && (q / K <? e / K)) ||
  ((q / K =? e / K) && (q mod K <? e mod K)).
Proof.
  intros Hse Hne. pose proof (le_split T s q). pose proof (le_split T e q).
  pose proof (le_split T s e). pose proof (mod_range T s). pose proof (mod_range T e).
  pose proof (mod_range T q). apply eq_iff_eq_true.
  rewrite !orb_true_iff, !andb_true_iff, !Z.leb_le, !Z.ltb_lt, !Z.eqb_eq. lia.
Qed.

Lemma range_one s e q : 0 <= s < e -> e / K = s / K ->
  (s <=? q) && (q <? e) =
  (q / K =? s / K) && ((s mod K <=? q mod K) && (q mod K <? e mod K)).
Proof.
  intros Hse Hne. pose proof (le_split T s q). pose proof (le_split T e q).
  pose proof (mod_range T s). pose proof (mod_range T e). pose proof (mod_range T q).
  apply eq_iff_eq_true. rewrite !andb_true_iff, !Z.leb_le, !Z.ltb_lt, !Z.eqb_eq. lia.
Qed.

Lemma SetRange_ok b s e v : bm_ok b -> 0 <= s <= e -> e <= size_ b ->
  exists b', SetRange T b s e v = Ok b' /\
    becomes b b' (fun q => if (s <=? q) && (q <? e) then v else bit b q).
Proof.
  intros Hb Hse He. unfold SetRange. destruct (Z.eqb_spec s e) as [->|Hne].
  { exists b. split; [reflexivity|]. split_and!; auto. intros q Hq.
    destruct (Z.leb_spec e q), (Z.ltb_spec q e); simpl; reflexivity || lia. }
  pose proof Hb as (Hsz & Hw & Hl). unfold size_ok, array_size in *.
  destruct (masked_write (map_ b) (s / K) _ v _ (index_inside b s Hb ltac:(lia)) Hw
    (fun j => testbit_initial s e j ltac:(lia) ltac:(lia))) as (x & m1 & -> & Hwr & Hw1 & Hz1 & Hb1).
  rewrite bind_Ok, Hwr, bind_Ok. clear Hwr x. rewrite Z.eqb_sym in *.
  destruct (Z.eqb_spec (s / K) (e / K)) as [Hd|Hd]; simpl negb in *; cbn [orb] in *.
  { eexists. split; [reflexivity|]. unfold becomes, bm_ok, array_size. simpl.
    split_and!; auto; [lia|]. intros q Hq. unfold bit. simpl. rewrite Hb1 by lia.
    rewrite (range_one s e q) by lia. reflexivity. }
  pose proof (proj1 (le_split T s (e - 1)) ltac:(lia)) as Hd1.
  pose proof (proj1 (le_split T s e) ltac:(lia)) as Hd2.
  pose proof (K_range T). pose proof (div_nonneg T s ltac:(lia)).
  destruct (in_words T (e - 1) (size_ b)) as [He1 _]; [lia|].
  pose proof (Z.mod_pos_bound e K ltac:(lia)).
  assert (Hee : e / K = (e - 1) / K + 1 /\ e mod K = 0 \/ e / K = (e - 1) / K).
  { pose proof (pos_split T e). pose proof (pos_split T (e - 1)).
    pose proof (mod_range T (e - 1)). destruct (decide (e mod K = 0)) as [E0|].
    - left. split; [|auto]. rewrite E0 in *. nia.
    - right. nia. }
  destruct (fill_range_ok m1 (s / K + 1) (e / K) (toW T (if v then kAllOnesWord T else 0)))
    as (m2 & -> & Hz2 & HP2 & Hb2); [lia | lia |].
  rewrite bind_Ok. assert (Hw2 : words_ok T m2) by (apply HP2; auto with gloop).
  assert (Hbit2 : forall q, 0 <= q -> mbit T m2 q =
    if (s / K + 1 <=? q / K) && (q / K <? e / K) then v else mbit T m1 q).
  { intros q Hq. unfold mbit. rewrite Hb2 by auto with gloop.
    destruct ((s / K + 1 <=? q / K) && (q / K <? e / K)); [|reflexivity].
    apply testbit_fill. auto with gloop. }
  assert (Hall : forall g3 q, 0 <= q ->
    g3 = (q / K =? e / K) && (q mod K <? e mod K) ->
    (if g3 then v else mbit T m2 q) = if (s <=? q) && (q <? e) then v else bit b q).
  { intros g3 q Hq ->. rewrite Hbit2, Hb1, (range_split s e q) by lia.
    rewrite (andb_true_r (s mod K <=? q mod K)).
    destruct ((q / K =? e / K) && (q mod K <? e mod K)); [rewrite orb_true_r; reflexivity|].
    destruct ((s / K + 1 <=? q / K) && (q / K <? e / K)); [rewrite orb_true_r; reflexivity|].
    rewrite !orb_false_r. reflexivity. }
  destruct (Z.eqb_spec (e mod K) 0) as [E0|E0]; simpl negb; cbv iota.
  - eexists. split; [reflexivity|]. unfold becomes, bm_ok, array_size. simpl.
    split_and!; auto; [lia|]. intros q Hq. unfold bit at 1. simpl.
    rewrite <- (Hall false q ltac:(lia)); [reflexivity|].
    pose proof (mod_range T q). rewrite E0. lia.
  - assert (Hin : inside m2 (e / K)) by (unfold inside; lia).
    destruct (masked_write m2 (e / K) _ v _ Hin Hw2 (testbit_final e))
      as (x & m3 & -> & Hwr & Hw3 & Hz3 & Hb3).
    rewrite bind_Ok, Hwr, bind_Ok. eexists. split; [reflexivity|].
    unfold becomes, bm_ok, array_size. simpl. split_and!; auto; [lia|].
    intros q Hq. unfold bit at 1. simpl. rewrite Hb3 by lia. apply Hall; [lia | reflexivity].
Qed.

(** ** New bitmaps and sizes *)

Section fresh.
Variable fresh : nat -> list Z.
Hypothesis fresh_ok : forall n, length (fresh n) = n /\ words_ok T (fresh n).

Lemma zlen_new n : 0 <= n -> zlen (new_words fresh n) = n.
Proof. intros Hn. unfold new_words, zlen. rewrite (proj1 (fresh_ok _)). lia. Qed.

Lemma make_ok n v : size_ok n ->
  exists b, make T fresh n v = Ok b /\ bm_ok b /\ size_ b = n /\
    forall q, 0 <= q < n -> bit b q = v.
Proof.
  intros Hn. unfold make. pose proof (array_size_pos T n ltac:(unfold size_ok in Hn; lia)).
  destruct (SetAll_ok (mkBitmap (new_words fresh (R n)) n) v) as (b & -> & Hb & Hs & Hbit);
    simpl; auto.
  - apply fresh_ok.
  - unfold array_size. simpl. rewrite zlen_new by lia. lia.
  - exists b. auto.
Qed.

Lemma make_default_ok : bm_ok (make_default T fresh) /\ size_ (make_default T fresh) = 0.
Proof.
  split; [|reflexivity]. split_and!; simpl; [unfold size_ok; lia | apply fresh_ok |].
  unfold array_size. simpl. rewrite zlen_new; reflexivity || discriminate.
Qed.

Lemma set_values_ok l : forall b i, bm_ok b -> 0 <= i -> i + zlen l <= size_ b ->
  i + zlen l < 2 ^ 31 ->
  exists b', set_values hardened T b i l = Ok b' /\
    becomes b b' (fun q => if (i <=? q) && (q <? i + zlen l) then nth (Z.to_nat (q - i)) l false
                           else bit b q).
Proof.
  induction l as [|v l IH]; intros b i Hb Hi Hs Hm.
  - exists b. split; [reflexivity|]. split_and!; auto. intros q Hq. rewrite zlen_nil.
    destruct (Z.leb_spec i q), (Z.ltb_spec q (i + 0)); simpl; reflexivity || lia.
  - rewrite zlen_cons in *. pose proof (zlen_nonneg l). simpl.
    unfold int_incr. case_test. rewrite bind_Ok.
    assert (u64 i = i) as -> by (unfold u64; apply Z.mod_small; lia).
    destruct (Set_ok b i v Hb) as (b1 & -> & Hb1 & Hs1 & Hbit1); [lia|].
    rewrite bind_Ok. destruct (IH b1 (i + 1) Hb1) as (b' & -> & Hb' & Hs' & Hbit'); [lia..|].
    exists b'. split; [reflexivity|]. split_and!; [auto | congruence |].
    intros q Hq. rewrite Hbit' by lia. destruct (Z.eqb_spec q i) as [->|].
    + replace (i + 1 <=? i) with false by lia. simpl. rewrite Hbit1, Z.eqb_refl by lia.
      replace (i <=? i) with true by lia. replace (i <? i + (zlen l + 1)) with true by lia.
      simpl. rewrite Z.sub_diag. reflexivity.
    + replace (i <=? q) with (i + 1 <=? q) by lia.
      replace (q <? i + (zlen l + 1)) with (q <? i + 1 + zlen l) by lia.
      destruct (Z.leb_spec (i + 1) q), (Z.ltb_spec q (i + 1 + zlen l)); simpl;
        try (rewrite Hbit1 by lia; replace (q =? i) with false by lia; reflexivity).
      replace (Z.to_nat (q - i)) with (S (Z.to_nat (q - (i + 1)))) by lia. reflexivity.
Qed.

Lemma make_span_ok l : zlen l < 2 ^ 31 ->
  exists b, make_span hardened T fresh l = Ok b /\ bm_ok b /\ size_ b = zlen l /\
    forall q, 0 <= q < zlen l -> bit b q = nth (Z.to_nat q) l false.
Proof.
  intros Hl. pose proof (zlen_nonneg l). unfold make_span.
  destruct (make_ok (zlen l) false) as (b & -> & Hb & Hs & _); [unfold size_ok; lia|].
  rewrite bind_Ok. destruct (set_values_ok l b 0 Hb) as (b' & -> & Hb' & Hs' & Hbit); [lia..|].
  exists b'. split_and!; auto; [lia|]. intros q Hq. rewrite Hbit by lia.
  replace (0 <=? q) with true by lia. replace (q <? 0 + zlen l) with true by lia.
  simpl. rewrite Z.sub_0_r. reflexivity.
Qed.

Lemma Resize_ok b n v : bm_ok b -> size_ok n ->
  exists b', Resize T fresh b n v = Ok b' /\ bm_ok b' /\ size_ b' = n /\
    forall q, 0 <= q < n -> bit b' q = if q <? size_ b then bit b q else v.
Proof.
  intros (Hs & Hw & Hl) Hn. unfold Resize, size_ok, array_size in *.
  pose proof (array_size_pos T n ltac:(lia)) as Hp.
  pose proof (array_size_pos T (size_ b) ltac:(lia)) as Hpb.
  set (k := Z.min (R n) (R (size_ b))).
  assert (exists m, (if negb (R n =? R (size_ b)) then
         if (k <=? zlen (map_ b)) && (k <=? zlen (new_words fresh (R n))) then
           Ok (take (Z.to_nat k) (map_ b) ++ drop (Z.to_nat k) (new_words fresh (R n)))
         else UB
       else Ok (map_ b)) = Ok m /\ words_ok T m /\ R n <= zlen m /\
    forall i, 0 <= i < k -> word m i = word (map_ b) i) as (m & Hm & Hwm & Hlm & Hword).
  { destruct (Z.eqb_spec (R n) (R (size_ b))) as [E|E]; simpl.
    - exists (map_ b). rewrite E. auto.
    - rewrite zlen_new by lia. repeat case_test; try lia. simpl. eexists.
      split; [reflexivity|]. split_and!.
      + apply Forall_app. split; [apply Forall_take; auto | apply Forall_drop, fresh_ok].
      + rewrite zlen_app, zlen_take_le, zlen_drop, zlen_new; rewrite ?zlen_new; lia.
      + intros i Hi. rewrite word_app_l, word_take by (rewrite ?zlen_take_le; lia). reflexivity. }
  change (array_size T b) with (R (size_ b)). rewrite Hm, bind_Ok. clear Hm.
  assert (Hok : bm_ok (mkBitmap m n)) by (unfold bm_ok, size_ok, array_size; auto).
  assert (Hold : forall q, 0 <= q < n -> q < size_ b -> mbit T m q = bit b q).
  { intros q Hq Hq2. unfold bit, mbit. destruct (in_words T q n Hq).
    destruct (in_words T q (size_ b)); [lia|]. rewrite Hword by lia. reflexivity. }
  destruct (Z.ltb_spec (size_ b) n).
  - destruct (SetRange_ok (mkBitmap m n) (size_ b) n v Hok) as (b' & -> & Hb' & Hs' & Hbit);
      [lia | simpl; lia |].
    exists b'. split_and!; auto. intros q Hq. rewrite Hbit by (simpl; lia).
    replace (q <? n) with true by lia. rewrite andb_true_r. rewrite Z.ltb_antisym.
    destruct (Z.leb_spec (size_ b) q); simpl; [reflexivity | apply Hold; lia].
  - exists (mkBitmap m n). split_and!; auto. intros q Hq.
    replace (q <? size_ b) with true by lia. apply Hold; lia.
Qed.
End fresh.
End ops.

Section sets.
Context `{BuildMode} (T : WordType).
#[local] Abbreviation K := (kIntBits T).
#[local] Abbreviation R := (RequiredArraySize T).

(** A bit beyond the end counts as unset. *)
Definition bit0 (b : BasicBitmap) (q : Z) : bool := (q <? size_ b) && bit T b q.

(** The end of a bitmap: all words before the last one, and the bits of the mask. *)
Lemma before_end n q : 0 <= n -> 0 <= q ->
  (q <? n) = (q / K <? R n - 1) ||
    ((q / K =? R n - 1) && ((0 <? n) && (q mod K <=? (n - 1) mod K))).
Proof.
  intros Hn Hq. pose proof (mod_range T q) as Hm. pose proof (div_nonneg T q Hq) as Hd.
  destruct (Z.eqb_spec n 0) as [->|].
  { change (R 0) with 1. simpl. rewrite andb_false_r. lia. }
  pose proof (in_words T q n) as Hin. pose proof (valid_bit T n (q / K) (q mod K)) as Hv.
  rewrite <- (pos_split T q) in Hv. apply eq_iff_eq_true.
  rewrite orb_true_iff, !andb_true_iff, Z.eqb_eq, !Z.ltb_lt, Z.leb_le.
  destruct (Z.ltb_spec q n); [destruct Hin; [lia|]|].
  - rewrite Hv in * by lia. lia.
  - split; [lia|]. intros Hor. apply Hv; lia.
Qed.

(** A word of the other bitmap, masked if it is the last one. *)
Lemma masked_bit o y q : bm_ok T o -> 0 <= q -> q / K = array_size T o - 1 ->
  Z.testbit y (q mod K) && Z.testbit (HighOrderMapElementMask T o) (q mod K) =
  (q <? size_ o) && Z.testbit y (q mod K).
Proof.
  intros (Hs & _ & _) Hq Hl. unfold array_size in Hl. pose proof (mod_range T q).
  rewrite testbit_mask, (before_end (size_ o) q) by (auto; unfold size_ok in Hs; lia).
  rewrite Hl, Z.ltb_irrefl, Z.eqb_refl. simpl. apply andb_comm.
Qed.

(** Words before the last one of a bitmap hold bits before its end, words after it do
    not. *)
Lemma full_word o q : bm_ok T o -> 0 <= q -> q / K < array_size T o - 1 ->
  (q <? size_ o) = true.
Proof.
  intros (Hs & _ & _) Hq Hl. unfold size_ok, array_size in *. rewrite before_end by lia. lia.
Qed.
Lemma no_word o q : bm_ok T o -> 0 <= q -> array_size T o - 1 < q / K ->
  (q <? size_ o) = false.
Proof.
  intros (Hs & _ & _) Hq Hl. unfold size_ok, array_size in *. rewrite before_end by lia. lia.
Qed.

(** The words of a bitmap, all rewritten by the same function of two words. *)
Lemma zip_words b o f g : bm_ok T b -> bm_ok T o -> size_ b = size_ o ->
  (forall x y, W_ok T (f x y)) ->
  (forall x y j, 0 <= j < K -> Z.testbit (f x y) j = g (Z.testbit x j) (Z.testbit y j)) ->
  exists m, transform2 (array_size T b) f (map_ b) (map_ o) = Ok m /\
    becomes T b (mkBitmap m (size_ b)) (fun q => g (bit T b q) (bit T o q)).
Proof.
  intros Hb Ho Hs Hf Hg. pose proof Hb as (Hs1 & Hw & Hl). pose proof Ho as (_ & _ & Hlo).
  unfold size_ok, array_size in *. rewrite <- Hs in Hlo.
  pose proof (array_size_pos T (size_ b) ltac:(lia)).
  destruct (transform2_ok (map_ b) (map_ o) (R (size_ b)) f) as (m & -> & Hz & HP & Hm);
    [lia..|].
  exists m. split; [reflexivity|]. unfold becomes, bm_ok, array_size. simpl.
  split_and!; auto; [apply HP; auto | lia |].
  intros q Hq. unfold bit, mbit. simpl. destruct (in_words T q (size_ b) Hq).
  rewrite Hm by lia. case_test. apply Hg. auto.
Qed.

Lemma Difference_ok b o : bm_ok T b -> bm_ok T o -> size_ b = size_ o ->
  exists b', Difference T b o = Ok b' /\
    becomes T b b' (fun q => bit T b q && negb (bit T o q)).
Proof.
  intros Hb Ho Hs. unfold Difference. rewrite Hs, Z.eqb_refl. simpl.
  destruct (zip_words b o (fun x y => toW T (Z.land x (promoted T (Z.lnot y))))
    (fun x y => x && negb y) Hb Ho Hs) as (m & -> & Hm).
  - auto with gloop.
  - intros x y j Hj. rewrite testbit_toW, Z.land_spec, testbit_promoted, Z.lnot_spec by lia.
    reflexivity.
  - rewrite bind_Ok, <- Hs. eauto.
Qed.

Lemma ExclusiveOr_ok b o : bm_ok T b -> bm_ok T o -> size_ b = size_ o ->
  exists b', ExclusiveOr T b o = Ok b' /\
    becomes T b b' (fun q => xorb (bit T b q) (bit T o q)).
Proof.
  intros Hb Ho Hs. unfold ExclusiveOr. rewrite Hs, Z.eqb_refl. simpl.
  destruct (zip_words b o (fun x y => toW T (Z.lxor x y)) xorb Hb Ho Hs) as (m & -> & Hm).
  - auto with gloop.
  - intros x y j Hj. rewrite testbit_toW, Z.lxor_spec by lia. reflexivity.
  - rewrite bind_Ok, <- Hs. eauto.
Qed.

Lemma Complement_ok b : bm_ok T b ->
  exists b', Complement T b = Ok b' /\ becomes T b b' (fun q => negb (bit T b q)).
Proof.
  intros Hb. unfold Complement. pose proof Hb as (Hs1 & Hw & Hl).
  unfold size_ok, array_size in *. pose proof (array_size_pos T (size_ b) ltac:(lia)).
  destruct (transform1_ok (map_ b) (R (size_ b)) (fun w => toW T (promoted T (Z.lnot w))))
    as (m & -> & Hz & HP & Hm); [lia..|].
  rewrite bind_Ok. eexists. split; [reflexivity|]. unfold becomes, bm_ok, array_size. simpl.
  split_and!; auto; [apply HP; auto with gloop | lia |].
  intros q Hq. unfold bit, mbit. simpl. destruct (in_words T q (size_ b) Hq).
  rewrite Hm by lia. case_test. rewrite testbit_toW, testbit_promoted, Z.lnot_spec by lia.
  reflexivity.
Qed.

Lemma Union_ok b o : bm_ok T b -> bm_ok T o ->
  exists b', Union T b o = Ok b' /\ becomes T b b' (fun q => bit T b q || bit0 o q).
Proof.
  intros Hb Ho. unfold Union. pose proof Hb as (Hs & Hw & Hl). pose proof Ho as (Hso & _ & Hlo).
  assert (0 < array_size T b /\ 0 < array_size T o) as [Hp Hpo].
  { unfold size_ok, array_size in *. split; apply array_size_pos; lia. }
  set (last := Z.min (array_size T b) (array_size T o) - 1).
  destruct (Z.eqb_spec (Z.min (array_size T b) (array_size T o)) 0) as [|_]; [lia|].
  destruct (transform2_ok (map_ b) (map_ o) last (fun x y => toW T (Z.lor x y)))
    as (m & -> & Hz & HP & Hm); [lia..|].
  assert (Hin : inside (map_ o) last) by (unfold inside; lia).
  assert (Hinm : inside m last) by (unfold inside; lia).
  rewrite bind_Ok, (rd_ok _ _ Hin), bind_Ok, (rd_ok _ _ Hinm), bind_Ok, (wr_ok _ _ _ Hinm), bind_Ok.
  eexists. split; [reflexivity|]. unfold becomes, bm_ok. simpl.
  change (array_size T (mkBitmap ?x (size_ b))) with (array_size T b).
  split_and!; auto.
  { apply words_ok_insert; [apply HP|]; auto with gloop. }
  { rewrite zlen_insert. lia. }
  intros q Hq. unfold bit at 1. simpl. rewrite mbit_insert by (auto; lia).
  pose proof (div_nonneg T q ltac:(lia)). pose proof (mod_range T q).
  assert (Hqb : q / K < array_size T b) by (apply in_words; auto).
  unfold bit0. destruct (Z.eqb_spec (q / K) last) as [El|El].
  - rewrite testbit_toW, Z.lor_spec by lia. rewrite Hm by lia. case_test.
    unfold bit, mbit at 1. rewrite El. f_equal.
    destruct (Z.eqb_spec (array_size T o) (Z.min (array_size T b) (array_size T o))).
    + rewrite Z.land_spec, masked_bit by (auto; lia). rewrite testbit_Word by lia.
      replace (q mod K <? K) with true by lia. unfold mbit. rewrite El. reflexivity.
    + rewrite testbit_Word, (full_word o) by (auto; lia).
      replace (q mod K <? K) with true by lia. unfold mbit. rewrite El. reflexivity.
  - unfold mbit at 1. rewrite Hm by lia. case_test.
    + rewrite testbit_toW, Z.lor_spec, (full_word o) by (auto; lia). reflexivity.
    + rewrite (no_word o) by (auto; lia). rewrite orb_false_r. reflexivity.
Qed.

Lemma Intersection_ok b o : bm_ok T b -> bm_ok T o ->
  exists b', Intersection T b o = Ok b' /\ becomes T b b' (fun q => bit T b q && bit0 o q).
Proof.
  intros Hb Ho. unfold Intersection.
  pose proof Hb as (Hs & Hw & Hl). pose proof Ho as (Hso & _ & Hlo).
  assert (0 < array_size T b /\ 0 < array_size T o) as [Hp Hpo].
  { unfold size_ok, array_size in *. split; apply array_size_pos; lia. }
  set (n := Z.min (array_size T b) (array_size T o)).
  destruct (transform2_ok (map_ b) (map_ o) n (fun x y => toW T (Z.land x y)))
    as (m & -> & Hz & HP & Hm); [lia..|].
  assert (Hwm : words_ok T m) by (apply HP; auto with gloop). clear HP. rewrite bind_Ok.
  assert (Hcase : array_size T o = n \/ array_size T b = n /\ n < array_size T o) by lia.
  destruct (Z.eqb_spec (array_size T o) n) as [En|En].
  - replace (array_size T o =? 0) with false by lia. simpl negb. cbv iota.
    assert (Hin : inside m (array_size T o - 1)) by (unfold inside; lia).
    rewrite (rd_ok _ _ Hin), bind_Ok, (wr_ok _ _ _ Hin), bind_Ok.
    set (m1 := <[_ := _]> m).
    assert (Hz1 : zlen m1 = zlen m) by apply zlen_insert.
    assert (Hw1 : words_ok T m1) by (subst m1; auto with gloop).
    destruct (fill_range_ok m1 (array_size T o) (array_size T b) (toW T 0))
      as (m2 & -> & Hz2 & HP2 & Hm2); [lia..|].
    rewrite bind_Ok. eexists. split; [reflexivity|]. unfold becomes, bm_ok. simpl.
    change (array_size T (mkBitmap ?x (size_ b))) with (array_size T b).
    split_and!; auto; [apply HP2; auto with gloop | lia |].
    intros q Hq. pose proof (div_nonneg T q ltac:(lia)). pose proof (mod_range T q).
    assert (Hqb : q / K < array_size T b) by (apply in_words; auto).
    unfold bit at 1, mbit, bit0. simpl. rewrite Hm2 by lia.
    replace (q / K <? array_size T b) with true by lia. rewrite andb_true_r.
    destruct (Z.leb_spec (array_size T o) (q / K)).
    + rewrite testbit_toW, Z.bits_0, (no_word o) by (auto; lia). rewrite andb_false_r. reflexivity.
    + subst m1. rewrite word_insert by (auto; lia).
      destruct (Z.eqb_spec (q / K) (array_size T o - 1)) as [El|El].
      * rewrite testbit_toW, Z.land_spec, masked_bit by (auto; lia). rewrite Hm by lia.
        replace (array_size T o - 1 <? n) with true by lia. rewrite testbit_toW, Z.land_spec by lia. unfold bit, mbit. rewrite El.
        rewrite !andb_assoc. f_equal. apply andb_comm.
      * rewrite Hm by lia. case_test. rewrite testbit_toW, Z.land_spec, (full_word o)
          by (auto; lia). reflexivity.
  - eexists. split; [reflexivity|]. unfold becomes, bm_ok. simpl.
    change (array_size T (mkBitmap ?x (size_ b))) with (array_size T b).
    split_and!; auto; [lia|]. intros q Hq.
    pose proof (div_nonneg T q ltac:(lia)). pose proof (mod_range T q).
    assert (Hqb : q / K < array_size T b) by (apply in_words; auto).
    unfold bit at 1, mbit, bit0. simpl. rewrite Hm by lia. case_test.
    rewrite testbit_toW, Z.land_spec, (full_word o) by (auto; lia). reflexivity.
Qed.
End sets.
