(* ===== verification/BitmapQueries.v ===== *)
(** * Counting and testing the bits of bitmaps

    Population counts, tests of ranges, and the comparisons of two bitmaps, as statements
    about single bits. *)
From Stdlib Require Import ZArith Lia Bool.
From stdpp Require Import base list numbers option.
From S2P Require Import Prelude.
From S2P Require Import Bitmap.
From S2P Require Import BitmapBits.
From S2P Require Import BitmapProps.
Local Open Scope Z_scope.

(** ** Counting *)

(** The number of [q] from [a] on, [n] of them, with [p q]. *)
Fixpoint count (p : Z -> bool) (a : Z) (n : nat) : Z :=
  match n with O => 0 | S n => Z.b2z (p a) + count p (a + 1) n end.
Definition cnt (p : Z -> bool) (a b : Z) : Z := count p a (Z.to_nat (b - a)).

Lemma count_ext p p' n : forall a, (forall q, a <= q < a + Z.of_nat n -> p q = p' q) ->
  count p a n = count p' a n.
Proof.
  induction n as [|n IH]; intros a He; simpl; [reflexivity|].
  rewrite He by lia. f_equal. apply IH. intros. apply He. lia.
Qed.

Lemma count_app p n m : forall a,
  count p a (n + m) = count p a n + count p (a + Z.of_nat n) m.
Proof.
  induction n as [|n IH]; intros a; simpl; [rewrite Z.add_0_r; reflexivity|].
  rewrite IH. replace (a + 1 + Z.of_nat n) with (a + Z.of_nat (S n)) by lia. lia.
Qed.

Lemma count_shift p c n : forall a, count p (a + c) n = count (fun q => p (q + c)) a n.
Proof.
  induction n as [|n IH]; intros a; simpl; [reflexivity|]. rewrite <- IH. f_equal. f_equal. lia.
Qed.

Lemma count_range p n : forall a, 0 <= count p a n <= Z.of_nat n.
Proof. induction n as [|n IH]; intros a; simpl; [lia|]. specialize (IH (a + 1)). destruct (p a); simpl; lia. Qed.

Lemma count_neg p n : forall a, count (fun q => negb (p q)) a n = Z.of_nat n - count p a n.
Proof.
  induction n as [|n IH]; intros a; simpl; [reflexivity|]. rewrite IH. destruct (p a); simpl; lia.
Qed.

Lemma cnt_ext p p' a b : (forall q, a <= q < b -> p q = p' q) -> cnt p a b = cnt p' a b.
Proof. intros He. apply count_ext. intros. apply He. lia. Qed.

Lemma cnt_split p a b c : a <= b <= c -> cnt p a c = cnt p a b + cnt p b c.
Proof.
  intros Hab. unfold cnt. replace (Z.to_nat (c - a)) with (Z.to_nat (b - a) + Z.to_nat (c - b))%nat
    by lia. rewrite count_app. do 2 f_equal. lia.
Qed.

Lemma cnt_range p a b : a <= b -> 0 <= cnt p a b <= b - a.
Proof. intros. unfold cnt. pose proof (count_range p (Z.to_nat (b - a)) a). lia. Qed.

Lemma cnt_none p a b : (forall q, a <= q < b -> p q = false) -> cnt p a b = 0.
Proof.
  intros Hn. rewrite (cnt_ext p (fun _ => false)) by auto. unfold cnt.
  generalize (Z.to_nat (b - a)) as n. clear Hn. intros n. revert a.
  induction n as [|n IH]; intros a; simpl; [reflexivity | apply IH].
Qed.

Lemma popcount_count n : forall x, popcount n x = count (Z.testbit x) 0 n.
Proof.
  induction n as [|n IH]; intros x; simpl; [reflexivity|].
  rewrite IH. f_equal. rewrite (count_shift _ 1). apply count_ext. intros q Hq.
  rewrite <- Z.div2_div, Z.div2_spec, Z.shiftr_spec by lia. reflexivity.
Qed.

Section queries.
Context `{BuildMode} (T : WordType).
#[local] Abbreviation K := (kIntBits T).
#[local] Abbreviation R := (RequiredArraySize T).

(** The ones of a word, as bits of the array. *)
Lemma popcount_word x i (g : Z -> bool) :
  (forall j, 0 <= j < K -> Z.testbit x j = g (i * K + j)) ->
  popcount (nbits T) (Word T x) = cnt g (i * K) ((i + 1) * K).
Proof.
  intros Hg. pose proof (K_range T). rewrite popcount_count. unfold cnt, nbits.
  replace ((i + 1) * K - i * K) with K by lia.
  rewrite <- (Z.add_0_l (i * K)), count_shift. apply count_ext. intros q Hq.
  rewrite testbit_Word by lia. case_test. simpl. rewrite Hg by lia. f_equal. lia.
Qed.

Lemma u64_small x : 0 <= x < 2 ^ 64 -> u64 x = x.
Proof. intros. apply Z.mod_small. lia. Qed.

Lemma count_words_ok fuel m : forall p e sum, 0 <= p <= e -> e <= zlen m ->
  e - p <= Z.of_nat fuel -> 0 <= sum -> sum + (e - p) * K < 2 ^ 64 ->
  count_words T fuel m p e sum = Ok (e, sum + cnt (mbit T m) (p * K) (e * K)).
Proof.
  pose proof (K_range T) as HK.
  induction fuel as [|fuel IH]; intros p e sum Hp He Hf Hs Hm; simpl.
  { case_test. replace e with p by lia. rewrite cnt_none, Z.add_0_r by lia. reflexivity. }
  destruct (Z.ltb_spec p e).
  2: { replace e with p by lia. rewrite cnt_none, Z.add_0_r by lia. reflexivity. }
  rewrite rd_ok, bind_Ok by (unfold inside; lia).
  rewrite (popcount_word _ p (mbit T m)) by (intros; symmetry; apply mbit_at; auto).
  pose proof (cnt_range (mbit T m) (p * K) ((p + 1) * K) ltac:(lia)).
  assert ((p + 1) * K <= e * K) by (apply Z.mul_le_mono_nonneg_r; lia).
  rewrite u64_small, IH by lia. do 2 f_equal.
  rewrite (cnt_split _ (p * K) ((p + 1) * K) (e * K)) by lia. lia.
Qed.

Lemma GetOnesCountInRange_ok b s e : bm_ok T b -> 0 <= s <= e -> e <= size_ b ->
  GetOnesCountInRange T b s e = Ok (cnt (bit T b) s e).
Proof.
  intros Hb Hse He. unfold GetOnesCountInRange, CHECK. pose proof (K_range T) as HK.
  replace (e <=? size_ b) with true by lia. replace (s <=? e) with true by lia. simpl.
  destruct (Z.leb_spec e s); [rewrite cnt_none by lia; reflexivity|].
  pose proof Hb as (Hsz & Hw & Hl). unfold size_ok in Hsz.
  pose proof (index_inside T b s Hb ltac:(lia)) as Hi.
  pose proof (index_inside T b (e - 1) Hb ltac:(lia)) as Hi'.
  rewrite rd_ok, bind_Ok, offset_mod by auto.
  pose proof (mod_range T s) as Hsm. pose proof (mod_range T (e - 1)) as Hem.
  pose proof (pos_split T s) as Hs1. pose proof (pos_split T (e - 1)) as He1.
  pose proof (proj1 (le_split T s (e - 1)) ltac:(lia)) as Hdiv.
  set (w := (e - 1) / K) in *. set (v := s / K) in *.
  assert (Hsh : u64 ((w + 1) * K - e) = K - 1 - (e - 1) mod K) by (rewrite u64_small; lia).
  rewrite Hsh.
  assert (Hlo : forall j, 0 <= j < K -> Z.testbit (Z.land (ArithmeticWord T (word (map_ b) v))
      (ArithmeticWord T (Z.shiftl (kAllOnesWord T) (s mod K)))) j =
      bit T b (v * K + j) && (s <=? v * K + j)).
  { intros j Hj. rewrite Z.land_spec, testbit_AW, testbit_high by lia. unfold bit.
    rewrite mbit_at by lia. f_equal. lia. }
  assert (Hhi : forall x i j, 0 <= j < K -> i = w ->
      Z.testbit (Z.land x (Z.shiftr (kAllOnesWord T) (K - 1 - (e - 1) mod K))) j =
      Z.testbit x j && (i * K + j <? e)).
  { intros x i j Hj ->. rewrite Z.land_spec, testbit_low by lia. f_equal. lia. }
  destruct (Z.eqb_spec w v) as [E|E].
  - rewrite (popcount_word _ v (fun q => bit T b q && (s <=? q) && (q <? e))).
    2: { intros j Hj. rewrite (Hhi _ v), Hlo by lia. reflexivity. }
    f_equal. rewrite (cnt_split _ _ s), (cnt_split _ s e) by (rewrite E in *; lia).
    rewrite cnt_none, (cnt_none _ e), Z.add_0_r.
    + simpl. apply cnt_ext. intros q Hq. replace (s <=? q) with true by lia.
      replace (q <? e) with true by lia. rewrite !andb_true_r. reflexivity.
    + intros q Hq. replace (q <? e) with false by lia. apply andb_false_r.
    + intros q Hq. replace (s <=? q) with false by lia. rewrite andb_false_r. reflexivity.
  - assert (Hvw : v < w) by lia.
    rewrite (popcount_word _ v (fun q => bit T b q && (s <=? q))) by auto.
    assert (Hc1 : cnt (fun q => bit T b q && (s <=? q)) (v * K) ((v + 1) * K) =
      cnt (bit T b) s ((v + 1) * K)).
    { rewrite (cnt_split _ _ s) by lia. rewrite cnt_none.
      - simpl. apply cnt_ext. intros q Hq. replace (s <=? q) with true by lia. apply andb_true_r.
      - intros q Hq. replace (s <=? q) with false by lia. apply andb_false_r. }
    rewrite Hc1. assert ((v + 1) * K <= w * K) by (apply Z.mul_le_mono_nonneg_r; lia).
    pose proof (cnt_range (bit T b) s ((v + 1) * K) ltac:(lia)) as Hr1.
    unfold inside, zlen in *.
    rewrite count_words_ok; [|unfold zlen; lia..|].
    2: { pose proof (Z.mul_sub_distr_r w (v + 1) K). lia. }
    rewrite bind_Ok, rd_ok, bind_Ok by (unfold inside, zlen; lia).
    rewrite (popcount_word _ w (fun q => bit T b q && (q <? e))).
    2: { intros j Hj. rewrite (Hhi _ w) by lia. f_equal. rewrite testbit_AW by lia.
         symmetry. apply mbit_at. lia. }
    assert (Hc2 : cnt (fun q => bit T b q && (q <? e)) (w * K) ((w + 1) * K) =
      cnt (bit T b) (w * K) e).
    { rewrite (cnt_split _ _ e) by lia. rewrite (cnt_none _ e), Z.add_0_r.
      - apply cnt_ext. intros q Hq. replace (q <? e) with true by lia. apply andb_true_r.
      - intros q Hq. replace (q <? e) with false by lia. apply andb_false_r. }
    rewrite Hc2. change (cnt (mbit T (map_ b))) with (cnt (bit T b)).
    rewrite <- !cnt_split by lia. rewrite u64_small; [reflexivity|].
    pose proof (cnt_range (bit T b) s e ltac:(lia)). lia.
Qed.

(** ** Tests of all words *)

Lemma forallb_words p m n : 0 <= n <= zlen m ->
  forallb p (take (Z.to_nat n) m) = true <-> forall i, 0 <= i < n -> p (word m i) = true.
Proof.
  intros Hn. rewrite forallb_forall. unfold zlen in Hn. split.
  - intros Hf i Hi. apply Hf. rewrite <- (word_take m n) by lia. apply nth_In.
    rewrite length_take. lia.
  - intros Hw x (k & Hk & <-)%(In_nth _ _ 0). rewrite length_take in Hk.
    specialize (Hw (Z.of_nat k) ltac:(lia)). rewrite <- (word_take m n) in Hw by lia.
    unfold word in Hw. rewrite Nat2Z.id in Hw. exact Hw.
Qed.

Lemma all_of_ok p m n : 0 <= n <= zlen m ->
  exists r, all_of n p m = Ok r /\ (r = true <-> forall i, 0 <= i < n -> p (word m i) = true).
Proof.
  intros Hn. unfold all_of. repeat case_test. simpl. eexists. split; [reflexivity|].
  apply forallb_words. auto.
Qed.

Lemma take_words_eq m k n : 0 <= n <= zlen m -> n <= zlen k ->
  take (Z.to_nat n) m = take (Z.to_nat n) k <-> forall i, 0 <= i < n -> word m i = word k i.
Proof.
  intros Hm Hk. unfold zlen in *. split.
  - intros He i Hi. rewrite <- (word_take m n), He, word_take by lia. reflexivity.
  - intros Hw. apply (nth_ext _ _ 0 0); [rewrite !length_take; lia|]. intros i Hi.
    rewrite length_take in Hi. specialize (Hw (Z.of_nat i) ltac:(lia)).
    rewrite <- (word_take m n), <- (word_take k n) in Hw by lia.
    unfold word in Hw. rewrite Nat2Z.id in Hw. exact Hw.
Qed.

(** The bits of a bitmap are those of the words before the last one and those of the last
    one below the end. *)
Lemma forall_bits n (P : Z -> Prop) : 0 <= n ->
  (forall q, 0 <= q < n -> P q) <->
  (forall i, 0 <= i < R n - 1 -> forall j, 0 <= j < K -> P (i * K + j)) /\
  (forall j, 0 <= j < K -> 0 < n -> j <= (n - 1) mod K -> P ((R n - 1) * K + j)).
Proof.
  intros Hn. pose proof (K_range T). pose proof (array_size_pos T n Hn) as Hp.
  assert (Hpos : forall i j, 0 <= i -> 0 <= j -> 0 <= i * K + j).
  { intros i j Hi Hj. pose proof (Z.mul_nonneg_nonneg i K). lia. }
  split.
  - intros HP. split.
    + intros i Hi j Hj. apply HP. split; [apply Hpos; lia|].
      assert (E : (i * K + j <? n) = true); [|lia].
      rewrite (before_end T n) by (auto; apply Hpos; lia).
      destruct (bit_pos T i j Hj) as [-> ->]. lia.
    + intros j Hj Hn0 Hm. apply HP. split; [apply Hpos; lia|].
      assert (E : ((R n - 1) * K + j <? n) = true); [|lia].
      rewrite (before_end T n) by (auto; apply Hpos; lia).
      destruct (bit_pos T (R n - 1) j Hj) as [-> ->]. lia.
  - intros [H1 H2] q Hq. pose proof (before_end T n q Hn ltac:(lia)) as E.
    replace (q <? n) with true in E by lia. symmetry in E.
    pose proof (mod_range T q). pose proof (div_nonneg T q ltac:(lia)).
    rewrite (pos_split T q). apply orb_true_iff in E as [E|E]; [apply H1; lia|].
    apply andb_true_iff in E as [E1 E2]. apply Z.eqb_eq in E1. rewrite E1. apply H2; lia.
Qed.

(** The last word under the mask. *)
Lemma masked_zero b x : bm_ok T b ->
  (Z.land x (HighOrderMapElementMask T b) =? 0) = true <->
  forall j, 0 <= j < K -> 0 < size_ b -> j <= (size_ b - 1) mod K -> Z.testbit x j = false.
Proof.
  intros (Hs & _ & _).
  rewrite (zero_bits T _ (closed_U T _ (U_ok_land T _ _ (U_ok_mask T b)))). split.
  - intros Hz j Hj Hn Hm. specialize (Hz j Hj). rewrite Z.land_spec, testbit_mask in Hz by auto.
    replace (0 <? size_ b) with true in Hz by lia.
    replace (j <=? (size_ b - 1) mod K) with true in Hz by lia. rewrite andb_true_r in Hz. auto.
  - intros Hz j Hj. rewrite Z.land_spec, testbit_mask by auto.
    destruct (Z.ltb_spec 0 (size_ b)), (Z.leb_spec j ((size_ b - 1) mod K)); simpl;
      rewrite ?andb_false_r, ?andb_true_r; auto.
Qed.

(** A test of the words before the last one and of the last one under the mask. *)
Lemma zero_words b (g : Z -> bool) (full : Prop) y : bm_ok T b ->
  (full <-> forall i, 0 <= i < array_size T b - 1 -> forall j, 0 <= j < K -> g (i * K + j) = false) ->
  (forall j, 0 <= j < K -> Z.testbit y j = g ((array_size T b - 1) * K + j)) ->
  full /\ (Z.land y (HighOrderMapElementMask T b) =? 0) = true <->
  forall q, 0 <= q < size_ b -> g q = false.
Proof.
  intros Hb Hf Hy. pose proof Hb as (Hs & _ & _). unfold size_ok in Hs.
  rewrite (forall_bits (size_ b) (fun q => g q = false)), Hf, masked_zero by (auto; lia).
  change (array_size T b) with (R (size_ b)) in *.
  split; (intros [H1 H2]; split; [exact H1|]); intros j Hj Hn Hm;
    specialize (H2 j Hj Hn Hm); rewrite Hy in * by auto; auto.
Qed.

Lemma word_zero m i : words_ok T m -> (word m i =? 0) = true <->
  forall j, 0 <= j < K -> mbit T m (i * K + j) = false.
Proof.
  intros Hw. rewrite (zero_bits T _ (closed_W T _ (word_W_ok T m i Hw))).
  split; intros Hz j Hj; specialize (Hz j Hj); rewrite mbit_at in * by auto; auto.
Qed.

(** The outcome of a test that goes through the words and then looks at the last one. *)
Lemma two_steps (r : bool) (full P : Prop) (m : outcome Z) (x : Z) (t : Z -> bool) :
  m = Ok x -> (r = true <-> full) -> (full /\ t x = true <-> P) ->
  exists r', (if r then x ← m; Ok (t x) else Ok false) = Ok r' /\ (r' = true <-> P).
Proof.
  intros -> Hr Hp. destruct r.
  - exists (t x). split; [reflexivity|]. rewrite <- Hp, <- Hr. intuition.
  - exists false. split; [reflexivity|]. rewrite <- Hp, <- Hr. intuition discriminate.
Qed.

Lemma IsAllZeroes_ok b : bm_ok T b ->
  exists r, IsAllZeroes T b = Ok r /\
    (r = true <-> forall q, 0 <= q < size_ b -> bit T b q = false).
Proof.
  intros Hb. unfold IsAllZeroes. pose proof (last_inside T b Hb) as Hi.
  pose proof Hb as (_ & Hw & Hl). unfold inside in Hi.
  destruct (all_of_ok (fun w => w =? 0) (map_ b) (array_size T b - 1)) as (r & -> & Hr); [lia|].
  rewrite bind_Ok. eapply two_steps; [apply rd_ok; exact Hi | exact Hr |].
  apply zero_words; auto.
  - split; intros Hz i Hi'; apply word_zero; auto. apply Hz. auto.
  - intros j Hj. symmetry. apply mbit_at. auto.
Qed.

Lemma AW_ones w : W_ok T w -> T <> WChar ->
  (ArithmeticWord T w =? kAllOnesWord T) = true <-> forall j, 0 <= j < K -> Z.testbit w j = true.
Proof.
  intros Hw HT. pose proof (K_range T). rewrite Z.eqb_eq.
  assert (Hu : U_ok T w).
  { intros j Hj. rewrite Hw by lia. destruct T; done. }
  assert (Ha : ArithmeticWord T w = w).
  { apply Z.mod_small. apply U_ok_range in Hu.
    pose proof (Z.pow_le_mono_r 2 K (Z.max 32 K)). lia. }
  rewrite Ha. split.
  - intros -> j Hj. rewrite testbit_ones by lia. case_test; reflexivity.
  - intros Hj. apply (U_ok_ext T); [auto | apply U_ok_ones |]. intros j Hj'.
    rewrite Hj, testbit_ones by lia. case_test; reflexivity.
Qed.

(** A word that compares equal to [kAllOnesWord] has only ones; signed [char] words
    never do. *)
Lemma AW_ones_only w : (ArithmeticWord T w =? kAllOnesWord T) = true ->
  forall j, 0 <= j < K -> Z.testbit w j = true.
Proof.
  intros E%Z.eqb_eq j Hj. pose proof (K_range T).
  pose proof (testbit_ones T j ltac:(lia)) as B. rewrite <- E in B. unfold ArithmeticWord in B.
  rewrite Z.mod_pow2_bits_low in B by lia. rewrite B. apply Z.ltb_lt. lia.
Qed.

(** The bitmaps that [IsAllOnes] is wrong about: those of more than eight ones in words
    of a signed [char]. *)
Definition char_ones (b : BasicBitmap) : Prop :=
  T = WChar /\ 8 < size_ b /\ forall q, 0 <= q < size_ b -> bit T b q = true.

Lemma IsAllOnes_ok b : bm_ok T b -> ~ char_ones b ->
  exists r, IsAllOnes T b = Ok r /\
    (r = true <-> forall q, 0 <= q < size_ b -> bit T b q = true).
Proof.
  intros Hb HT. unfold IsAllOnes. pose proof (last_inside T b Hb) as Hi.
  pose proof Hb as (_ & Hw & Hl). unfold inside in Hi.
  destruct (all_of_ok (fun w => ArithmeticWord T w =? kAllOnesWord T) (map_ b)
    (array_size T b - 1)) as (r & -> & Hr); [lia|].
  rewrite bind_Ok, (rd_ok _ _ Hi).
  assert (Hneg : (forall q, 0 <= q < size_ b -> negb (bit T b q) = false) <->
    forall q, 0 <= q < size_ b -> bit T b q = true).
  { split; intros Hq q Hq'; specialize (Hq q Hq'); destruct (bit T b q); auto. }
  pose proof (zero_words b (fun q => negb (bit T b q)) _ (promoted T (Z.lnot (word (map_ b) (array_size T b - 1))))
    Hb (iff_refl _)) as Hz.
  destruct Hz as [Hz1 Hz2].
  { intros j Hj. rewrite testbit_promoted, Z.lnot_spec by lia. unfold bit.
    rewrite mbit_at by auto. reflexivity. }
  assert (Hbit : forall i j, 0 <= j < K -> negb (bit T b (i * K + j)) = false <->
    Z.testbit (word (map_ b) i) j = true).
  { intros i j Hj. unfold bit. rewrite mbit_at by auto. apply negb_false_iff. }
  setoid_rewrite <- Hneg. destruct r; (eexists; split; [reflexivity|]).
  - split; [|apply Hz2]. intros Ht. apply Hz1. split; [|exact Ht].
    intros i Hi' j Hj. apply Hbit; [exact Hj|]. apply AW_ones_only; [|exact Hj].
    apply (proj1 Hr eq_refl). exact Hi'.
  - split; [discriminate|]. intros Hall. apply Hr. intros i Hi'.
    assert (T = WChar \/ T <> WChar) as [Hc|Hc] by (destruct T; auto; right; discriminate).
    + exfalso. apply HT. split; [exact Hc|]. split; [|apply Hneg, Hall].
      destruct (Z.ltb_spec 8 (size_ b)) as [?|Hs]; [assumption|exfalso].
      pose proof Hb as (Hsz & _). unfold size_ok in Hsz.
      pose proof (Z.div_small (size_ b - 1) 8) as Hd. clear - Hc Hi' Hs Hsz Hd.
      unfold array_size, RequiredArraySize in Hi'. rewrite Hc in Hi'. change (kIntBits WChar) with 8 in Hi'.
      destruct (Z.eqb_spec (size_ b) 0); lia.
    + apply (AW_ones _ (word_W_ok T _ i Hw) Hc). intros j Hj. apply Hbit; [exact Hj|].
      apply (proj1 (Hz2 Hall)); auto.
Qed.
End queries.

(** With a signed [char] a bitmap of more than eight bits is never all ones. *)
Lemma IsAllOnes_signed_char :
  (b ← make WChar (fun n => replicate n 0) 16 true; IsAllOnes WChar b) = Ok false.
Proof. reflexivity. Qed.
