(* ===== verification/BitmapOrder.v ===== *)
(** * Comparing bitmaps

    Tests of a range of bits and the comparisons of two bitmaps: equality, inclusion,
    overlap.

    The number of positions at which two bitmaps differ, and the order of the numbers
    that bitmaps stand for. *)
From Stdlib Require Import ZArith Lia Bool.
From stdpp Require Import base list numbers option.
From S2P Require Import Prelude.
From S2P Require Import Bitmap.
From S2P Require Import BitmapBits.
From S2P Require Import BitmapProps.
From S2P Require Import BitmapQueries.
Local Open Scope Z_scope.

Section compare.
Context `{BuildMode} (T : WordType).
#[local] Abbreviation K := (kIntBits T).
#[local] Abbreviation R := (RequiredArraySize T).

(** ** TestRange *)

Lemma W_ok_shiftr x k : 0 <= k -> W_ok T x -> W_ok T (Z.shiftr x k).
Proof.
  intros Hk Hx j Hj. pose proof (K_range T). rewrite !Z.shiftr_spec by lia.
  rewrite (Hx (j + k)) by lia. destruct (decide (k = 0)) as [->|]; [f_equal; f_equal; lia|].
  rewrite (Hx (K - 1 + k)) by lia. destruct (is_char T); reflexivity.
Qed.

Lemma shiftr_zero x k : 0 <= k < K -> W_ok T x ->
  (Z.shiftr x k =? 0) = true <-> forall j, k <= j < K -> Z.testbit x j = false.
Proof.
  intros Hk Hx.
  rewrite (zero_bits T _ (closed_W T _ (W_ok_shiftr x k ltac:(lia) Hx))). split.
  - intros Hz j Hj. specialize (Hz (j - k) ltac:(lia)). rewrite Z.shiftr_spec in Hz by lia.
    replace (j - k + k) with j in Hz by lia. auto.
  - intros Hz j Hj. rewrite Z.shiftr_spec by lia.
    destruct (Z.ltb_spec (j + k) K); [apply Hz; lia|].
    rewrite Hx by lia. rewrite (Hz (K - 1)) by lia. apply andb_false_r.
Qed.

Lemma testbit_eqmod x y j : 0 <= j < K -> x mod 2 ^ K = y mod 2 ^ K ->
  Z.testbit x j = Z.testbit y j.
Proof.
  intros Hj He. rewrite <- (Z.mod_pow2_bits_low x K), <- (Z.mod_pow2_bits_low y K) by lia.
  rewrite He. reflexivity.
Qed.

Lemma promoted_mod x : promoted T x mod 2 ^ K = x mod 2 ^ K.
Proof.
  unfold promoted. pose proof (K_range T). destruct (K <? 32); [reflexivity|].
  apply Z.mod_mod. pose proof (pow2_pos K). lia.
Qed.

(** The mask of the bits from [j] to [l]. *)
Lemma testbit_between j l t : 0 <= j <= l -> l < K -> 0 <= t < K ->
  Z.testbit (Word T (promoted T (Z.shiftl
    (promoted T (promoted T (Z.shiftl (bit_at T 1) (l - j)) - 1)) j))) t =
  (j <=? t) && (t <=? l).
Proof.
  intros Hj Hl Ht. pose proof (K_range T).
  rewrite testbit_Word, testbit_promoted, Z.shiftl_spec by lia.
  replace (t <? K) with true by lia. simpl. destruct (Z.leb_spec j t); simpl.
  2: { apply Z.testbit_neg_r. lia. }
  rewrite testbit_promoted by lia.
  rewrite (testbit_eqmod _ (Z.ones (l - j + 1))) by (try lia; 
    rewrite Z.ones_equiv, <- Z.sub_1_r, Zminus_mod, promoted_mod, <- Zminus_mod;
    unfold bit_at; rewrite Z.shiftl_mul_pow2 by lia;
    replace (promoted T (Z.shiftl 1 1)) with (2 ^ 1) by (destruct T; reflexivity);
    rewrite <- Z.pow_add_r by lia; f_equal; f_equal; f_equal; lia).
  destruct (Z.leb_spec t l); [apply Z.ones_spec_low | apply Z.ones_spec_high]; lia.
Qed.

Lemma test_words_ok fuel m : forall i last, words_ok T m -> 0 <= i <= last -> last <= zlen m ->
  last - i <= Z.of_nat fuel -> exists r, test_words fuel m i last = Ok r /\
    (r = Some last \/ r = None) /\
    (r = Some last <-> forall k, i <= k < last -> forall j, 0 <= j < K ->
      mbit T m (k * K + j) = false).
Proof.
  induction fuel as [|fuel IH]; intros i last Hw Hi Hl Hf; simpl.
  { case_test. eexists. split; [reflexivity|]. replace i with last by lia.
    split; [auto|]. split; [intros _ k Hk; lia | auto]. }
  destruct (Z.ltb_spec i last).
  2: { eexists. split; [reflexivity|]. replace i with last by lia. split; [auto|].
       split; [intros _ k Hk; lia | auto]. }
  rewrite rd_ok, bind_Ok by (unfold inside; lia). destruct (word m i =? 0) eqn:E; simpl.
  - destruct (IH (i + 1) last Hw) as (r & -> & Hc & Hr); [lia..|]. exists r.
    split; [reflexivity|]. split; [auto|]. rewrite Hr.
    pose proof (proj1 (word_zero T m i Hw) E) as Hz.
    split; intros Hk k Hki; [|apply Hk; lia].
    destruct (decide (k = i)) as [->|]; [auto | apply Hk; lia].
  - eexists. split; [reflexivity|]. split; [auto|]. split; [discriminate|].
    intros Hk. specialize (Hk i ltac:(lia)). apply (word_zero T m i Hw) in Hk. congruence.
Qed.

(** The word of the last bit [e - 1], from position [j] on. *)
Lemma test_last_word b e j w : inside (map_ b) w -> w = (e - 1) / K ->
  0 <= j <= (e - 1) mod K -> exists r,
    (x ← rd (map_ b) w; Ok (negb (Z.land x (Word T (promoted T (Z.shiftl (promoted T
       (promoted T (Z.shiftl (bit_at T 1) ((e - 1) mod K - j)) - 1)) j))) =? 0))) = Ok r /\
    (r = false <-> forall q, w * K + j <= q < e -> bit T b q = false).
Proof.
  intros Hi Hw Hj. pose proof (mod_range T (e - 1)) as Hem. pose proof (pos_split T (e - 1)) as He1.
  rewrite <- Hw in He1. rewrite rd_ok, bind_Ok by auto. eexists. split; [reflexivity|].
  rewrite negb_false_iff.
  rewrite (zero_bits T _ (closed_U T _ (U_ok_land T _ _ (U_ok_Word T _)))). split.
  - intros Hz q Hq. specialize (Hz (q - w * K) ltac:(lia)).
    rewrite Z.land_spec, testbit_between in Hz by lia.
    replace (j <=? q - w * K) with true in Hz by lia.
    replace (q - w * K <=? (e - 1) mod K) with true in Hz by lia.
    simpl in Hz. rewrite andb_true_r, <- (mbit_at T) in Hz by lia. unfold bit.
    replace (w * K + (q - w * K)) with q in Hz by lia. auto.
  - intros Hz t Ht. rewrite Z.land_spec, testbit_between by lia.
    destruct (Z.leb_spec j t), (Z.leb_spec t ((e - 1) mod K)); simpl;
      rewrite ?andb_false_r, ?andb_true_r; auto.
    rewrite <- (mbit_at T) by lia. apply Hz. lia.
Qed.

Lemma TestRange_ok b s e : bm_ok T b -> 0 <= s <= e -> e <= size_ b ->
  exists r, TestRange T b s e = Ok r /\
    (r = false <-> forall q, s <= q < e -> bit T b q = false).
Proof.
  intros Hb Hse He. unfold TestRange. destruct (Z.eqb_spec s e) as [->|Hne].
  { exists false. split; [reflexivity|]. split; [intros _ q Hq; lia | auto]. }
  pose proof Hb as (Hsz & Hw & Hl).
  pose proof (index_inside T b s Hb ltac:(lia)) as Hi.
  pose proof (index_inside T b (e - 1) Hb ltac:(lia)) as Hi'.
  rewrite !offset_mod. pose proof (mod_range T s) as Hsm. pose proof (mod_range T (e - 1)) as Hem.
  pose proof (proj1 (le_split T s (e - 1)) ltac:(lia)) as Hdiv.
  pose proof (pos_split T s) as Hs1. pose proof (pos_split T (e - 1)) as He1.
  set (w := (e - 1) / K) in *. set (v := s / K) in *.
  set (m := map_ b) in *.
  assert (Hlast : forall j, 0 <= j <= (e - 1) mod K -> _)
    by (exact (fun j => test_last_word b e j w Hi' eq_refl)).
  fold m in Hlast.
  destruct (Z.ltb_spec v w) as [Hvw|Hvw].
  - rewrite (rd_ok m v), bind_Ok by auto.
    pose proof (shiftr_zero (word m v) (s mod K) Hsm (word_W_ok T m v Hw)) as Hfirst.
    assert (Hv1 : (v + 1) * K <= w * K) by (apply Z.mul_le_mono_nonneg_r; lia).
    unfold inside, zlen in *.
    destruct (Z.shiftr (word m v) (s mod K) =? 0) eqn:E0; simpl negb; cbv iota.
    + pose proof (proj1 Hfirst eq_refl) as Hz0.
      destruct (test_words_ok (length m) m (v + 1) w Hw) as (r & -> & Hrc & Hr);
        [lia | unfold zlen; lia | lia |].
      rewrite bind_Ok.
      assert (H0 : forall q, s <= q < (v + 1) * K -> bit T b q = false).
      { intros q Hq. specialize (Hz0 (q - v * K) ltac:(lia)).
        rewrite <- (mbit_at T m v) in Hz0 by lia.
        replace (v * K + (q - v * K)) with q in Hz0 by lia. auto. }
      destruct Hrc as [->| ->].
      * pose proof (proj1 Hr eq_refl) as Hmid. clear Hr.
        destruct (Hlast 0 ltac:(lia)) as (r & -> & Hr). exists r. split; [reflexivity|].
        rewrite Hr, Z.add_0_r. split; [|intros Hq q Hq'; apply Hq; lia]. intros Hq q Hq'.
        destruct (Z.ltb_spec q ((v + 1) * K)); [apply H0; lia|].
        destruct (Z.leb_spec (w * K) q); [apply Hq; lia|].
        pose proof (mod_range T q). pose proof (pos_split T q) as Hsp.
        unfold bit. rewrite Hsp. fold m. apply Hmid; [|auto].
        split; [apply Z.div_le_lower_bound | apply Z.div_lt_upper_bound]; lia.
      * exists true. split; [reflexivity|]. split; [discriminate|]. intros Hq.
        enough (None = Some w) by discriminate. apply Hr. intros k Hk j Hj. apply Hq.
        assert ((v + 1) * K <= k * K) by (apply Z.mul_le_mono_nonneg_r; lia).
        assert ((k + 1) * K <= w * K) by (apply Z.mul_le_mono_nonneg_r; lia). lia.
    + exists true. split; [reflexivity|]. split; [discriminate|]. intros Hq.
      enough (false = true) by discriminate. apply Hfirst. intros j Hj.
      rewrite <- (mbit_at T) by lia. apply Hq. lia.
  - destruct Hdiv as [|[Ev Hm]]; [lia|].
    destruct (Hlast (s mod K) ltac:(lia)) as (r & -> & Hr). exists r. split; [reflexivity|].
    rewrite Hr, <- Ev. replace (v * K + s mod K) with s by lia. reflexivity.
Qed.

(** ** Equality, inclusion, overlap *)

Lemma word_eq m k i : words_ok T m -> words_ok T k ->
  word m i = word k i <->
  forall j, 0 <= j < K -> mbit T m (i * K + j) = mbit T k (i * K + j).
Proof.
  intros Hm Hk. split.
  - intros He j Hj. rewrite !mbit_at by auto. congruence.
  - intros He. apply (W_ok_ext T); auto with gloop. intros j Hj.
    rewrite <- !(mbit_at T) by auto. auto.
Qed.

Lemma xorb_false b1 b2 : xorb b1 b2 = false <-> b1 = b2.
Proof. destruct b1, b2; simpl; intuition discriminate. Qed.

(** Two words agree under the mask when their difference is zero there. *)
Lemma masked_eq b x y :
  (Z.land (HighOrderMapElementMask T b) y =? Z.land (HighOrderMapElementMask T b) x) = true <->
  (Z.land (Z.lxor x y) (HighOrderMapElementMask T b) =? 0) = true.
Proof.
  rewrite !Z.eqb_eq. split; intros He; apply Z.bits_inj'; intros j Hj;
    apply (f_equal (fun v => Z.testbit v j)) in He;
    rewrite ?Z.land_spec, ?Z.lxor_spec, ?Z.bits_0 in *;
    destruct (Z.testbit x j), (Z.testbit y j), (Z.testbit (HighOrderMapElementMask T b) j);
    simpl in *; congruence.
Qed.

Lemma IsEqual_ok b o : bm_ok T b -> bm_ok T o ->
  exists r, IsEqual T b o = Ok r /\
    (r = true <-> size_ b = size_ o /\ forall q, 0 <= q < size_ b -> bit T b q = bit T o q).
Proof.
  intros Hb Ho. unfold IsEqual. destruct (Z.eqb_spec (size_ b) (size_ o)) as [E|E].
  2: { exists false. split; [reflexivity|]. split; [discriminate | intros [? _]; done]. }
  pose proof (last_inside T b Hb) as Hi. pose proof (last_inside T o Ho) as Hi'.
  pose proof Hb as (_ & Hw & Hl). pose proof Ho as (_ & Hw' & Hl').
  replace (array_size T o) with (array_size T b) in * by (unfold array_size; rewrite E; auto).
  unfold inside in *. case_test. unfold equal_words. repeat case_test. simpl.
  set (r := bool_decide _).
  assert (Hr : r = true <-> forall i, 0 <= i < array_size T b - 1 -> forall j, 0 <= j < K ->
    xorb (bit T b (i * K + j)) (bit T o (i * K + j)) = false).
  { unfold r. rewrite bool_decide_eq_true, take_words_eq by lia.
    split; intros Hq i Hi0; specialize (Hq i Hi0).
    - intros j Hj. apply xorb_false.
      apply (proj1 (word_eq (map_ b) (map_ o) i Hw Hw') Hq j Hj).
    - apply (word_eq _ _ i Hw Hw'). intros j Hj. apply xorb_false. apply Hq. auto. }
  rewrite (rd_ok (map_ o)), bind_Ok by auto.
  assert (Hgoal : size_ b = size_ o /\ (forall q, 0 <= q < size_ b -> bit T b q = bit T o q) <->
    forall q, 0 <= q < size_ b -> xorb (bit T b q) (bit T o q) = false).
  { split; [intros [_ Hq]|intros Hq; split; [auto|]]; intros q Hq'; apply xorb_false; auto. }
  setoid_rewrite Hgoal. eapply (two_steps r _ _ _ _ (fun x => _ =? Z.land _ x));
    [apply rd_ok; exact Hi | exact Hr |].
  rewrite masked_eq. apply zero_words; [auto | reflexivity |].
  intros j Hj. rewrite Z.lxor_spec. unfold bit. rewrite !mbit_at by auto. reflexivity.
Qed.

(** A bit of the first bitmap that the second does not have. *)
Lemma land_not_bit x y j : 0 <= j < K ->
  Z.testbit (Z.land x (promoted T (Z.lnot y))) j = Z.testbit x j && negb (Z.testbit y j).
Proof. intros Hj. rewrite Z.land_spec, testbit_promoted, Z.lnot_spec by lia. reflexivity. Qed.

Lemma subset_words_ok fuel m o last : words_ok T m -> words_ok T o ->
  last <= zlen m -> last <= zlen o -> forall i, 0 <= i <= last -> last - i <= Z.of_nat fuel ->
  exists r, subset_words T fuel m o i last = Ok r /\
    (r = true <-> forall k, i <= k < last -> forall j, 0 <= j < K ->
      mbit T m (k * K + j) && negb (mbit T o (k * K + j)) = false).
Proof.
  intros Hw Hwo Hl Hlo. induction fuel as [|fuel IH]; intros i Hi Hf; simpl.
  { case_test. exists true. split; [reflexivity|]. split; [intros _ k Hk; lia | auto]. }
  destruct (Z.eqb_spec i last) as [->|].
  { exists true. split; [reflexivity|]. split; [intros _ k Hk; lia | auto]. }
  rewrite !rd_ok, bind_Ok, bind_Ok by (unfold inside; lia).
  pose proof (zero_bits T _ (closed_land_not T _ _ (word_W_ok T m i Hw) (word_W_ok T o i Hwo)))
    as Hz.
  assert (Hbit : forall j, 0 <= j < K ->
    Z.testbit (Z.land (word m i) (promoted T (Z.lnot (word o i)))) j =
    mbit T m (i * K + j) && negb (mbit T o (i * K + j))).
  { intros j Hj. rewrite land_not_bit, !mbit_at by auto. reflexivity. }
  destruct (Z.land (word m i) (promoted T (Z.lnot (word o i))) =? 0); simpl.
  - destruct (IH (i + 1)) as (r & -> & Hr); [lia..|]. exists r. split; [reflexivity|].
    rewrite Hr. split; intros Hk k Hki; [|apply Hk; lia].
    destruct (decide (k = i)) as [->|]; [|apply Hk; lia].
    intros j Hj. rewrite <- Hbit by auto. apply Hz; auto.
  - exists false. split; [reflexivity|]. split; [discriminate|]. intros Hk. apply Hz.
    intros j Hj. rewrite Hbit by auto. apply Hk; lia.
Qed.

Lemma IsSubsetOf_ok b o : bm_ok T b -> bm_ok T o -> size_ b = size_ o ->
  exists r, IsSubsetOf T b o = Ok r /\
    (r = true <-> forall q, 0 <= q < size_ b -> bit T b q && negb (bit T o q) = false).
Proof.
  intros Hb Ho E. unfold IsSubsetOf. rewrite E, Z.eqb_refl, <- E. simpl.
  pose proof (last_inside T b Hb) as Hi. pose proof (last_inside T o Ho) as Hi'.
  pose proof Hb as (_ & Hw & Hl). pose proof Ho as (_ & Hw' & Hl').
  replace (array_size T o) with (array_size T b) in * by (unfold array_size; rewrite E; auto).
  unfold inside in *.
  destruct (subset_words_ok (length (map_ b)) (map_ b) (map_ o) (array_size T b - 1) Hw Hw')
    with (i := 0) as (r & -> & Hr); [lia | lia | lia | unfold zlen in *; lia |].
  rewrite bind_Ok, (rd_ok (map_ o)) by auto.
  eapply (two_steps r _ _ _ _ (fun x => Z.land (Z.land x _) _ =? 0));
    [apply rd_ok; exact Hi | exact Hr |].
  apply zero_words; [auto | reflexivity |].
  intros j Hj. rewrite land_not_bit by auto. unfold bit. rewrite !mbit_at by auto. reflexivity.
Qed.

Lemma overlap_words_ok fuel m o last : words_ok T m -> words_ok T o ->
  last <= zlen m -> last <= zlen o -> forall i, 0 <= i <= last -> last - i <= Z.of_nat fuel ->
  exists r, overlap_words fuel m o i last = Ok r /\
    (r = false <-> forall k, i <= k < last -> forall j, 0 <= j < K ->
      mbit T m (k * K + j) && mbit T o (k * K + j) = false).
Proof.
  intros Hw Hwo Hl Hlo. induction fuel as [|fuel IH]; intros i Hi Hf; simpl.
  { case_test. exists false. split; [reflexivity|]. split; [intros _ k Hk; lia | auto]. }
  destruct (Z.ltb_spec i last).
  2: { exists false. split; [reflexivity|]. split; [intros _ k Hk; lia | auto]. }
  rewrite !rd_ok, bind_Ok, bind_Ok by (unfold inside; lia).
  pose proof (zero_bits T _ (closed_land T _ _ (closed_W T _ (word_W_ok T m i Hw))
    (closed_W T _ (word_W_ok T o i Hwo)))) as Hz.
  destruct (Z.land (word m i) (word o i) =? 0); simpl.
  - destruct (IH (i + 1)) as (r & -> & Hr); [lia..|]. exists r. split; [reflexivity|].
    rewrite Hr. split; intros Hk k Hki; [|apply Hk; lia].
    destruct (decide (k = i)) as [->|]; [|apply Hk; lia].
    intros j Hj. rewrite !mbit_at, <- Z.land_spec by auto. apply Hz; auto.
  - exists true. split; [reflexivity|]. split; [discriminate|]. intros Hk. symmetry. apply Hz.
    intros j Hj. rewrite Z.land_spec, <- !(mbit_at T) by auto. apply Hk; lia.
Qed.

Lemma land_mask_zero x mask : U_ok T mask -> (Z.land x mask =? 0) = true <->
  forall j, 0 <= j < K -> Z.testbit x j && Z.testbit mask j = false.
Proof.
  intros Hm. rewrite (zero_bits T _ (closed_U T _ (U_ok_land T _ _ Hm))).
  split; intros Hz j Hj; specialize (Hz j Hj); rewrite Z.land_spec in *; auto.
Qed.

(** The test of the last common word, under the masks of the bitmaps that end there. *)
Lemma last_overlap b o x y k : bm_ok T b -> bm_ok T o -> 0 <= k ->
  k = Z.min (array_size T b) (array_size T o) - 1 ->
  x = word (map_ b) k -> y = word (map_ o) k ->
  let high_byte := Word T (Z.land x y) in
  (if array_size T b <? array_size T o then
      negb (Z.land high_byte (HighOrderMapElementMask T b) =? 0)
    else if array_size T o <? array_size T b then
      negb (Z.land high_byte (HighOrderMapElementMask T o) =? 0)
    else negb (Z.land (Z.land high_byte (HighOrderMapElementMask T b))
                  (HighOrderMapElementMask T o) =? 0)) = false <->
  forall j, 0 <= j < K -> bit0 T b (k * K + j) && bit0 T o (k * K + j) = false.
Proof.
  intros Hb Ho Hk0 Hk -> -> hb.
  assert (Hpos : forall j, 0 <= j < K -> 0 <= k * K + j).
  { intros j Hj. pose proof (Z.mul_nonneg_nonneg k K). lia. }
  assert (Hhb : forall j, 0 <= j < K -> Z.testbit hb j =
    bit T b (k * K + j) && bit T o (k * K + j)).
  { intros j Hj. unfold hb. rewrite testbit_Word, Z.land_spec by lia.
    replace (j <? K) with true by lia. unfold bit. rewrite !mbit_at by auto. reflexivity. }
  assert (Hm : forall c j y, bm_ok T c -> 0 <= j < K -> k = array_size T c - 1 ->
    Z.testbit y j && Z.testbit (HighOrderMapElementMask T c) j =
    (k * K + j <? size_ c) && Z.testbit y j).
  { intros c j y Hc Hj E. destruct (bit_pos T k j Hj) as [Ed Em].
    pose proof (masked_bit T c y (k * K + j) Hc (Hpos j Hj)) as Hmb.
    rewrite Ed, Em in Hmb. auto. }
  assert (Hf : forall c j, bm_ok T c -> 0 <= j < K -> k < array_size T c - 1 ->
    (k * K + j <? size_ c) = true).
  { intros c j Hc Hj E. destruct (bit_pos T k j Hj) as [Ed _].
    apply (full_word T); auto. rewrite Ed. auto. }
  unfold bit0.
  destruct (Z.ltb_spec (array_size T b) (array_size T o));
    [|destruct (Z.ltb_spec (array_size T o) (array_size T b))];
    rewrite negb_false_iff, land_mask_zero by apply U_ok_mask;
    split; intros Hz j Hj; specialize (Hz j Hj); revert Hz.
  1-2: rewrite (Hm b), (Hf o), Hhb by (auto; lia).
  3-4: rewrite (Hm o), (Hf b), Hhb by (auto; lia).
  5-6: rewrite (Hm o), Z.land_spec, (Hm b), Hhb by (auto; lia).
  all: destruct (bit T b (k * K + j)), (bit T o (k * K + j)), (k * K + j <? size_ b),
    (k * K + j <? size_ o); simpl; auto.
Qed.

Lemma IsIntersectionNonEmpty_ok b o : bm_ok T b -> bm_ok T o ->
  exists r, IsIntersectionNonEmpty T b o = Ok r /\
    (r = false <-> forall q, 0 <= q -> bit0 T b q && bit0 T o q = false).
Proof.
  intros Hb Ho. unfold IsIntersectionNonEmpty.
  pose proof (last_inside T b Hb) as Hi. pose proof (last_inside T o Ho) as Hi'.
  pose proof Hb as (_ & Hw & Hl). pose proof Ho as (_ & Hw' & Hl'). unfold inside in *.
  set (k := Z.min (array_size T b) (array_size T o) - 1).
  destruct (overlap_words_ok (length (map_ b)) (map_ b) (map_ o) k Hw Hw') with (i := 0)
    as (r & -> & Hr); [lia | lia | lia | unfold zlen in *; lia |].
  rewrite bind_Ok.
  pose proof (last_overlap b o _ _ k Hb Ho ltac:(lia) eq_refl eq_refl eq_refl) as Hlast.
  assert (Hall : (forall q, 0 <= q -> bit0 T b q && bit0 T o q = false) <->
    (forall i, 0 <= i < k -> forall j, 0 <= j < K ->
       mbit T (map_ b) (i * K + j) && mbit T (map_ o) (i * K + j) = false) /\
    (forall j, 0 <= j < K -> bit0 T b (k * K + j) && bit0 T o (k * K + j) = false)).
  { pose proof (K_range T).
    assert (Hpos : forall i j, 0 <= i -> 0 <= j < K -> 0 <= i * K + j).
    { intros i j Hi0 Hj. pose proof (Z.mul_nonneg_nonneg i K). lia. }
    assert (Hfull : forall i j c, bm_ok T c -> 0 <= i -> 0 <= j < K -> i < array_size T c - 1 ->
      (i * K + j <? size_ c) = true).
    { intros i j c Hc Hi0 Hj E. destruct (bit_pos T i j Hj) as [Ed _].
      apply (full_word T); auto. rewrite Ed. auto. }
    split.
    - intros Hq. split; [|intros j Hj; apply Hq; apply Hpos; lia].
      intros i Hi0 j Hj. specialize (Hq (i * K + j) (Hpos i j ltac:(lia) Hj)).
      unfold bit0 in Hq. rewrite !Hfull in Hq by (auto; lia). exact Hq.
    - intros [H1 H2] q Hq. pose proof (mod_range T q) as Hm. pose proof (div_nonneg T q Hq).
      destruct (Z.lt_trichotomy (q / K) k) as [Hlt|[He|Hgt]].
      + specialize (H1 (q / K) ltac:(lia) _ Hm). rewrite <- pos_split in H1.
        unfold bit0, bit. destruct (mbit T (map_ b) q), (mbit T (map_ o) q); try discriminate;
          rewrite ?andb_false_r; reflexivity.
      + specialize (H2 _ Hm). rewrite <- He, <- pos_split in H2. exact H2.
      + unfold bit0. destruct (Z.le_gt_cases (array_size T b) (array_size T o)).
        * rewrite (no_word T b q) by (auto; lia). reflexivity.
        * rewrite (no_word T o q) by (auto; lia). apply andb_false_r. }
  destruct r.
  - exists true. split; [reflexivity|]. split; [discriminate|]. intros Hq.
    apply Hr. apply Hall. exact Hq.
  - rewrite !rd_ok, bind_Ok, bind_Ok by (unfold inside; lia). cbv zeta in Hlast |- *.
    pose proof (proj1 Hr eq_refl) as H1. setoid_rewrite Hall. setoid_rewrite <- Hlast.
    destruct (array_size T b <? array_size T o), (array_size T o <? array_size T b);
      (eexists; split; [reflexivity|]; intuition).
Qed.
End compare.

(** ** The number of a bitmap *)

(** [b_0 + 2 b_1 + ...] over the first [n] bits. *)
Fixpoint number (p : Z -> bool) (n : nat) : Z :=
  match n with
  | O => 0
  | S n => number p n + Z.b2z (p (Z.of_nat n)) * 2 ^ Z.of_nat n
  end.

Lemma number_range p n : 0 <= number p n < 2 ^ Z.of_nat n.
Proof.
  induction n as [|n IH]; simpl number; [simpl; lia|].
  rewrite Nat2Z.inj_succ, Z.pow_succ_r by lia. destruct (p (Z.of_nat n)); simpl; lia.
Qed.

Lemma testbit_number p n j : 0 <= j ->
  Z.testbit (number p n) j = (j <? Z.of_nat n) && p j.
Proof.
  intros Hj. induction n as [|n IH]; simpl number.
  { rewrite Z.bits_0. simpl. case_test; reflexivity. }
  pose proof (number_range p n) as Hr.
  rewrite <- lor_disjoint, Z.lor_spec, IH, testbit_mul_pow2 by lia.
  destruct (Z.leb_spec (Z.of_nat n) j); simpl.
  - replace (j <? Z.of_nat n) with false by lia. simpl.
    destruct (Z.eqb_spec j (Z.of_nat n)) as [->|].
    + rewrite Z.sub_diag. rewrite (proj2 (Z.ltb_lt _ _)) by lia.
      destruct (p (Z.of_nat n)); reflexivity.
    + rewrite (proj2 (Z.ltb_ge j _)) by lia. destruct (p (Z.of_nat n)); simpl Z.b2z;
        [apply (testbit_small 1 1); lia | apply Z.bits_0].
  - replace (j <? Z.of_nat n) with true by lia. rewrite orb_false_r.
    rewrite (proj2 (Z.ltb_lt j (Z.of_nat (S n)))) by lia. reflexivity.
Qed.

Definition cmpz (x y : Z) : Z := match x ?= y with Lt => -1 | Eq => 0 | Gt => 1 end.

Lemma cmpz_lt x y : x < y -> cmpz x y = -1.
Proof. unfold cmpz. intros ->%Z.compare_lt_iff. reflexivity. Qed.
Lemma cmpz_gt x y : y < x -> cmpz x y = 1.
Proof. unfold cmpz. intros ->%Z.compare_gt_iff. reflexivity. Qed.
Lemma cmpz_eq x : cmpz x x = 0.
Proof. unfold cmpz. rewrite Z.compare_refl. reflexivity. Qed.
Lemma cmpz_opp x y : - cmpz y x = cmpz x y.
Proof. unfold cmpz. rewrite (Z.compare_antisym x y). destruct (x ?= y); reflexivity. Qed.

Section order.
Context `{BuildMode} (T : WordType).
#[local] Abbreviation K := (kIntBits T).
#[local] Abbreviation R := (RequiredArraySize T).

Definition number_of (b : BasicBitmap) : Z := number (bit T b) (Z.to_nat (size_ b)).

Lemma testbit_number_of b q : size_ok (size_ b) -> 0 <= q ->
  Z.testbit (number_of b) q = bit0 T b q.
Proof.
  unfold size_ok. intros Hs Hq. unfold number_of, bit0. rewrite testbit_number by lia.
  rewrite Z2Nat.id by lia. reflexivity.
Qed.

(** ** The number of differences *)

Lemma distance_words_ok fuel m o : forall p e sum, 0 <= p <= e -> e <= zlen m ->
  e <= zlen o -> e - p <= Z.of_nat fuel -> 0 <= sum -> sum + (e - p) * K < 2 ^ 64 ->
  distance_words T fuel m o p e sum =
  Ok (sum + cnt (fun q => xorb (mbit T m q) (mbit T o q)) (p * K) (e * K)).
Proof.
  pose proof (K_range T) as HK. set (g q := xorb (mbit T m q) (mbit T o q)).
  induction fuel as [|fuel IH]; intros p e sum Hp He He' Hf Hs Hm; simpl.
  { case_test. replace e with p by lia. rewrite cnt_none, Z.add_0_r by lia. reflexivity. }
  destruct (Z.ltb_spec p e).
  2: { replace e with p by lia. rewrite cnt_none, Z.add_0_r by lia. reflexivity. }
  rewrite !rd_ok, bind_Ok, bind_Ok by (unfold inside; lia).
  rewrite (popcount_word T _ p g).
  2: { intros j Hj. unfold g. rewrite Z.lxor_spec, !testbit_AW, !mbit_at by auto. reflexivity. }
  pose proof (cnt_range g (p * K) ((p + 1) * K) ltac:(lia)).
  assert ((p + 1) * K <= e * K) by (apply Z.mul_le_mono_nonneg_r; lia).
  rewrite u64_small, IH by lia. f_equal.
  rewrite (cnt_split _ (p * K) ((p + 1) * K) (e * K)) by lia. lia.
Qed.

Lemma HammingDistance_ok b o : bm_ok T b -> bm_ok T o -> size_ b = size_ o ->
  HammingDistance T b o = Ok (cnt (fun q => xorb (bit T b q) (bit T o q)) 0 (size_ b)).
Proof.
  intros Hb Ho E. unfold HammingDistance, CHECK. rewrite E, Z.eqb_refl, <- E. simpl.
  pose proof (last_inside T b Hb) as Hi. pose proof (last_inside T o Ho) as Hi'.
  pose proof Hb as (Hs & _ & _). unfold array_size, inside, size_ok in *. rewrite <- E in Hi'.
  pose proof (array_size_pos T (size_ b) ltac:(lia)) as Hp. pose proof (K_range T).
  replace (0 <? R (size_ b)) with true by lia. simpl.
  set (g q := xorb (bit T b q) (bit T o q)). set (n := R (size_ b)) in *.
  assert (Hn : (n - 1) * K <= size_ b <= n * K).
  { unfold n, RequiredArraySize. case_test.
    pose proof (pos_split T (size_ b - 1)). pose proof (mod_range T (size_ b - 1)). lia. }
  assert (0 <= (n - 1) * K) by (apply Z.mul_nonneg_nonneg; lia).
  rewrite distance_words_ok by (unfold zlen in *; lia).
  rewrite bind_Ok, !rd_ok, bind_Ok, bind_Ok by (unfold inside; lia). f_equal.
  change (cnt _ (0 * K) ((n - 1) * K)) with (cnt g 0 ((n - 1) * K)). rewrite Z.add_0_l.
  rewrite (popcount_word T _ (n - 1) (fun q => (q <? size_ b) && g q)).
  - replace (n - 1 + 1) with n by lia. rewrite (cnt_split _ _ (size_ b) (n * K)) by lia.
    rewrite (cnt_none _ (size_ b)), Z.add_0_r.
    2: { intros q Hq. replace (q <? size_ b) with false by lia. reflexivity. }
    rewrite (cnt_ext _ g ((n - 1) * K)).
    2: { intros q Hq. replace (q <? size_ b) with true by lia. reflexivity. }
    rewrite <- cnt_split by lia. apply u64_small. pose proof (cnt_range g 0 (size_ b)). lia.
  - intros j Hj. destruct (bit_pos T (n - 1) j Hj) as [Ed Em].
    pose proof (masked_bit T b (Z.lxor (ArithmeticWord T (word (map_ b) (n - 1)))
      (ArithmeticWord T (word (map_ o) (n - 1)))) ((n - 1) * K + j) Hb ltac:(lia) Ed) as Hmb.
    rewrite Em in Hmb. rewrite Z.land_spec, Hmb, Z.lxor_spec, !testbit_AW by lia.
    unfold g, bit. rewrite !mbit_at by auto. reflexivity.
Qed.

(** ** Comparison by words from the top *)

(** The words from [i] on, as a number. *)
Definition from_word (x i : Z) : Z := x / 2 ^ (i * K).

Lemma from_word_step x i : 0 <= i -> exists w, 0 <= w < 2 ^ K /\
  from_word x i = from_word x (i + 1) * 2 ^ K + w /\
  forall j, 0 <= j < K -> Z.testbit w j = Z.testbit x (i * K + j).
Proof.
  intros Hi. pose proof (K_range T). pose proof (pow2_pos K ltac:(lia)).
  assert (0 <= i * K) by (apply Z.mul_nonneg_nonneg; lia).
  exists (from_word x i mod 2 ^ K). unfold from_word. split_and!.
  - apply Z.mod_pos_bound. lia.
  - apply Z.mod_pos_bound. lia.
  - rewrite Z.mul_add_distr_r, Z.mul_1_l, Z.pow_add_r by lia.
    rewrite <- Z.div_div by (pose proof (pow2_pos (i * K)); lia).
    pose proof (Z.div_mod (x / 2 ^ (i * K)) (2 ^ K)). lia.
  - intros j Hj. rewrite Z.mod_pow2_bits_low, Z.div_pow2_bits by lia. f_equal. lia.
Qed.

Lemma from_word_lt x y i : 0 <= i -> from_word x i < from_word y i -> x < y.
Proof.
  intros Hi Hlt. pose proof (K_range T).
  assert (0 <= i * K) by (apply Z.mul_nonneg_nonneg; lia). pose proof (pow2_pos (i * K)).
  destruct (Z.le_gt_cases y x) as [Hle|]; [|auto].
  pose proof (Z.div_le_mono y x (2 ^ (i * K))). unfold from_word in Hlt. lia.
Qed.

(** One word decides, or the words from it on are equal. *)
Lemma compare_step x y i left right : 0 <= i ->
  from_word x (i + 1) = from_word y (i + 1) -> U_ok T left -> U_ok T right ->
  (forall j, 0 <= j < K -> Z.testbit left j = Z.testbit x (i * K + j)) ->
  (forall j, 0 <= j < K -> Z.testbit right j = Z.testbit y (i * K + j)) ->
  if left =? right then from_word x i = from_word y i
  else (if left <? right then -1 else 1) = cmpz x y.
Proof.
  intros Hi He Hl Hr Hlb Hrb.
  destruct (from_word_step x i Hi) as (wx & Hwx & Ex & Hbx).
  destruct (from_word_step y i Hi) as (wy & Hwy & Ey & Hby).
  assert (wx = left) as ->.
  { apply (U_ok_ext T); [apply U_ok_range; auto | auto |]. intros j Hj. rewrite Hbx, Hlb; auto. }
  assert (wy = right) as ->.
  { apply (U_ok_ext T); [apply U_ok_range; auto | auto |]. intros j Hj. rewrite Hby, Hrb; auto. }
  destruct (Z.eqb_spec left right) as [->|]; [lia|]. symmetry.
  destruct (Z.ltb_spec left right);
    [apply cmpz_lt, (from_word_lt _ _ i) | apply cmpz_gt, (from_word_lt _ _ i)]; lia.
Qed.

Lemma compare_words_ok m o x y idx : Z.of_nat idx <= zlen m -> Z.of_nat idx <= zlen o ->
  from_word x (Z.of_nat idx) = from_word y (Z.of_nat idx) ->
  (forall i j, 0 <= i < Z.of_nat idx -> 0 <= j < K ->
     mbit T m (i * K + j) = Z.testbit x (i * K + j)) ->
  (forall i j, 0 <= i < Z.of_nat idx -> 0 <= j < K ->
     mbit T o (i * K + j) = Z.testbit y (i * K + j)) ->
  compare_words T m o idx = Ok (cmpz x y).
Proof.
  induction idx as [|idx IH]; intros Hm Ho He Hx Hy; simpl.
  { unfold from_word in He. simpl in He. rewrite !Z.div_1_r in He. subst y.
    rewrite cmpz_eq. reflexivity. }
  rewrite !rd_ok, bind_Ok, bind_Ok by (unfold inside; lia).
  replace (Z.of_nat (S idx)) with (Z.of_nat idx + 1) in * by lia.
  assert (Hb : forall k j, 0 <= j < K -> Z.testbit (Word T (word k (Z.of_nat idx))) j =
    mbit T k (Z.of_nat idx * K + j)).
  { intros k j Hj. rewrite testbit_Word, mbit_at by lia.
    replace (j <? K) with true by lia. reflexivity. }
  pose proof (compare_step x y (Z.of_nat idx) (Word T (word m (Z.of_nat idx)))
    (Word T (word o (Z.of_nat idx))) ltac:(lia) He (U_ok_Word T _) (U_ok_Word T _)) as Hc.
  specialize (Hc ltac:(intros j Hj; rewrite Hb by auto; apply Hx; lia)
    ltac:(intros j Hj; rewrite Hb by auto; apply Hy; lia)).
  destruct (Word T (word m (Z.of_nat idx)) =? Word T (word o (Z.of_nat idx))); simpl.
  - apply IH; [lia | lia | auto | |]; intros; [apply Hx | apply Hy]; lia.
  - rewrite Hc. reflexivity.
Qed.

Lemma array_size_mono n k : 0 <= n <= k -> R n <= R k.
Proof.
  intros Hn. pose proof (K_range T). pose proof (Z.div_le_mono (n - 1) (k - 1) K).
  pose proof (array_size_pos T k). unfold RequiredArraySize in *.
  destruct (Z.eqb_spec n 0), (Z.eqb_spec k 0); lia.
Qed.

(** No bit is set from the end of the last word on. *)
Lemma from_word_end x g n : 0 <= n ->
  (forall q, 0 <= q -> Z.testbit x q = (q <? n) && g q) -> from_word x (R n) = 0.
Proof.
  intros Hn Hx. pose proof (K_range T). pose proof (array_size_pos T n Hn) as Hp.
  assert (0 <= R n * K) by (apply Z.mul_nonneg_nonneg; lia).
  apply Z.bits_inj'. intros j Hj. unfold from_word.
  rewrite Z.bits_0, Z.div_pow2_bits, Hx, (before_end T) by lia.
  assert (R n <= (j + R n * K) / K) by (apply Z.div_le_lower_bound; lia).
  replace ((_ + _) / K <? _) with false by lia.
  replace ((_ + _) / K =? _) with false by lia. reflexivity.
Qed.

(** The bits of [m] before the end of [s], as a number: its last word is the masked one
    and the words before are those of [m]. *)
Definition denotes (s : BasicBitmap) (m : list Z) (x : Z) : Prop :=
  forall q, 0 <= q -> Z.testbit x q = (q <? size_ s) && mbit T m q.

Lemma denotes_last s m x j : bm_ok T s -> denotes s m x -> 0 <= j < K ->
  Z.testbit (Word T (Z.land (word m (array_size T s - 1)) (HighOrderMapElementMask T s))) j =
  Z.testbit x ((array_size T s - 1) * K + j).
Proof.
  intros Hs Hx Hj. pose proof (K_range T). pose proof Hs as (Hsz & _ & _).
  unfold size_ok, array_size in *. pose proof (array_size_pos T (size_ s) ltac:(lia)).
  set (i := R (size_ s) - 1) in *. pose proof (Z.mul_nonneg_nonneg i K ltac:(lia) ltac:(lia)).
  rewrite testbit_Word, Z.land_spec by lia. replace (j <? K) with true by lia. simpl.
  destruct (bit_pos T i j Hj) as [Ed Em].
  pose proof (masked_bit T s (word m i) (i * K + j) Hs ltac:(lia)) as Hmb.
  rewrite Ed, Em in Hmb. rewrite Hmb, Hx, mbit_at by (auto; lia). reflexivity.
Qed.

Lemma denotes_word s m x i j : bm_ok T s -> denotes s m x -> 0 <= i < array_size T s - 1 ->
  0 <= j < K -> mbit T m (i * K + j) = Z.testbit x (i * K + j).
Proof.
  intros Hs Hx Hi Hj. pose proof (Z.mul_nonneg_nonneg i K ltac:(lia) ltac:(lia)).
  destruct (bit_pos T i j Hj) as [Ed _].
  rewrite Hx, (full_word T s) by (auto; lia). reflexivity.
Qed.

(** The comparison of the words of [s] and the corresponding ones of [m]. *)
Lemma compare_common s m x y : bm_ok T s -> array_size T s <= zlen m -> denotes s m x ->
  denotes s (map_ s) y ->
  let left := Word T (Z.land (word m (array_size T s - 1)) (HighOrderMapElementMask T s)) in
  let right := Word T (Z.land (word (map_ s) (array_size T s - 1)) (HighOrderMapElementMask T s)) in
  if left =? right
  then compare_words T m (map_ s) (Z.to_nat (array_size T s - 1)) = Ok (cmpz x y)
  else (if left <? right then -1 else 1) = cmpz x y.
Proof.
  intros Hs Hl Hx Hy left right. pose proof Hs as (Hsz & _ & Hls). unfold size_ok, array_size in *.
  pose proof (array_size_pos T (size_ s) ltac:(lia)) as Hp. set (i := R (size_ s) - 1) in *.
  assert (Hi : i = R (size_ s) - 1) by reflexivity.
  assert (Htop : from_word x (i + 1) = from_word y (i + 1)).
  { replace (i + 1) with (R (size_ s)) by lia.
    rewrite (from_word_end x _ (size_ s) (proj1 Hsz) Hx), (from_word_end y _ (size_ s) (proj1 Hsz) Hy).
    reflexivity. }
  pose proof (compare_step x y i left right ltac:(lia) Htop (U_ok_Word T _) (U_ok_Word T _)
    (fun j Hj => denotes_last s m x j Hs Hx Hj)
    (fun j Hj => denotes_last s (map_ s) y j Hs Hy Hj)) as Hc.
  destruct (left =? right); [|exact Hc].
  apply compare_words_ok; try lia; rewrite Z2Nat.id by lia; auto.
  - intros k j Hk Hj. apply (denotes_word s); auto.
  - intros k j Hk Hj. apply (denotes_word s); auto.
Qed.

(** The first bitmap is at least as long as the second. *)
Lemma CompareToHelper_ok f s : bm_ok T f -> bm_ok T s -> size_ s <= size_ f ->
  CompareToHelper T f s = Ok (let c := cmpz (number_of f) (number_of s) in
    if c =? 0 then cmpz (size_ f) (size_ s) else c).
Proof.
  intros Hf Hs Hle. pose proof Hf as (Hsf & _ & Hlf). pose proof Hs as (Hss & _ & Hls).
  unfold CompareToHelper, size_ok in *.
  destruct (TestRange_ok T f (size_ s) (size_ f) Hf) as (t & -> & Ht); [lia | lia |].
  rewrite bind_Ok. set (X := number_of f). set (Y := number_of s).
  assert (HbX : forall q, 0 <= q -> Z.testbit X q = bit0 T f q)
    by (intros; apply testbit_number_of; auto).
  assert (HY : denotes s (map_ s) Y) by (intros q Hq; apply testbit_number_of; auto).
  destruct t.
  - assert (Hgt : Y < X).
    { destruct (Z.lt_ge_cases Y X) as [|Hge]; [auto|]. exfalso.
      enough (true = false) by discriminate. apply Ht. intros q Hq.
      pose proof (number_range (bit T s) (Z.to_nat (size_ s))) as Hr.
      rewrite Z2Nat.id in Hr by lia.
      assert (HX0 : 0 <= X) by apply number_range.
      assert (Hz : Z.testbit X q = false) by (apply (testbit_small X (size_ s)); unfold Y, number_of in *; lia).
      rewrite HbX in Hz by lia. unfold bit0 in Hz.
      replace (q <? size_ f) with true in Hz by lia. exact Hz. }
    rewrite cmpz_gt by auto. reflexivity.
  - assert (HX : denotes s (map_ f) X).
    { intros q Hq. rewrite HbX by auto. unfold bit0. pose proof (proj1 Ht eq_refl q) as Hz.
      destruct (Z.ltb_spec q (size_ f)), (Z.ltb_spec q (size_ s)); simpl; auto; lia. }
    pose proof (array_size_mono (size_ s) (size_ f) ltac:(lia)).
    pose proof (array_size_pos T (size_ s) ltac:(lia)). unfold array_size in Hlf, Hls.
    pose proof (compare_common s (map_ f) X Y Hs ltac:(unfold array_size; lia) HX HY) as Hc.
    rewrite !rd_ok, bind_Ok, bind_Ok by (unfold inside, array_size; lia).
    cbv zeta in *. destruct (Word T _ =? Word T _); simpl negb; cbv iota.
    + rewrite Hc, bind_Ok. destruct (Z.eqb_spec (cmpz X Y) 0) as [->|]; simpl; [|reflexivity].
      destruct (Z.eqb_spec (size_ f) (size_ s)) as [->|];
        [rewrite cmpz_eq | rewrite cmpz_gt by lia]; reflexivity.
    + rewrite Hc. destruct (Z.eqb_spec (cmpz X Y) 0) as [E|]; [|reflexivity].
      rewrite E in Hc. destruct (_ <? _); discriminate.
Qed.

Lemma CompareTo_ok b o : bm_ok T b -> bm_ok T o ->
  CompareTo T b o = Ok (let c := cmpz (number_of b) (number_of o) in
    if c =? 0 then cmpz (size_ b) (size_ o) else c).
Proof.
  intros Hb Ho. unfold CompareTo. destruct (Z.ltb_spec (size_ o) (size_ b)).
  - apply CompareToHelper_ok; auto. lia.
  - rewrite CompareToHelper_ok, bind_Ok by auto. f_equal. cbv zeta.
    rewrite <- (cmpz_opp (number_of b)), <- (cmpz_opp (size_ b)).
    destruct (Z.eqb_spec (cmpz (number_of o) (number_of b)) 0),
      (Z.eqb_spec (- cmpz (number_of o) (number_of b)) 0); lia.
Qed.
End order.
