(* ===== verification/BitmapIter.v ===== *)
(** * Searches in a bitmap, and iteration over it

    The searches forward and backward by words find the same bit as a search by bits.

    [TrueBitIndices] lists the set bits in order, and [ToString] has one character per
    bit. *)
From Stdlib Require Import ZArith Lia Bool.
From stdpp Require Import base list numbers option.
From S2P Require Import Prelude.
From S2P Require Import Bitmap.
From S2P Require Import BitmapBits.
From S2P Require Import BitmapProps.
From S2P Require Import BitmapQueries.
Local Open Scope Z_scope.

(** ** Search by bits *)

(** The least and the greatest [q] with [p q] among the [n] from [a] on. *)
Fixpoint first_from (p : Z -> bool) (a : Z) (n : nat) : option Z :=
  match n with
  | O => None
  | S n => if p a then Some a else first_from p (a + 1) n
  end.
Fixpoint last_from (p : Z -> bool) (a : Z) (n : nat) : option Z :=
  match n with
  | O => None
  | S n => if p (a + Z.of_nat n) then Some (a + Z.of_nat n) else last_from p a n
  end.
(** In [a <= q < b], and in [a <= q <= b]. *)
Definition first_in (p : Z -> bool) (a b : Z) : option Z := first_from p a (Z.to_nat (b - a)).
Definition last_in (p : Z -> bool) (a b : Z) : option Z :=
  last_from p a (Z.to_nat (b + 1 - a)).

Lemma first_in_Some p a b q : a <= q < b -> p q = true ->
  (forall x, a <= x < q -> p x = false) -> first_in p a b = Some q.
Proof.
  unfold first_in. intros Hq Hp Hn. remember (Z.to_nat (b - a)) as n eqn:En.
  revert a Hq Hn En. induction n as [|n IH]; intros a Hq Hn En; [lia|]. simpl.
  destruct (decide (a = q)) as [->|]; [rewrite Hp; reflexivity|].
  rewrite Hn by lia. apply IH; [lia | intros; apply Hn; lia | lia].
Qed.

Lemma first_in_None p a b : (forall x, a <= x < b -> p x = false) -> first_in p a b = None.
Proof.
  unfold first_in. intros Hn. remember (Z.to_nat (b - a)) as n eqn:En.
  revert a Hn En. induction n as [|n IH]; intros a Hn En; [reflexivity|]. simpl.
  rewrite Hn by lia. apply IH; [intros; apply Hn; lia | lia].
Qed.

Lemma last_in_Some p a b q : a <= q <= b -> p q = true ->
  (forall x, q < x <= b -> p x = false) -> last_in p a b = Some q.
Proof.
  unfold last_in. intros Hq Hp Hn. remember (Z.to_nat (b + 1 - a)) as n eqn:En.
  revert b Hq Hn En. induction n as [|n IH]; intros b Hq Hn En; [lia|]. simpl.
  replace (a + Z.of_nat n) with b by lia.
  destruct (decide (q = b)) as [->|]; [rewrite Hp; reflexivity|].
  rewrite Hn by lia. apply (IH (b - 1)); [lia | intros; apply Hn; lia | lia].
Qed.

Lemma last_in_None p a b : (forall x, a <= x <= b -> p x = false) -> last_in p a b = None.
Proof.
  unfold last_in. intros Hn. remember (Z.to_nat (b + 1 - a)) as n eqn:En.
  revert b Hn En. induction n as [|n IH]; intros b Hn En; [reflexivity|]. simpl.
  replace (a + Z.of_nat n) with b by lia.
  rewrite Hn by lia. apply (IH (b - 1)); [intros; apply Hn; lia | lia].
Qed.

(** ** The first and the last bit of a word *)

Lemma countr_zero_ok n : forall x j, 0 <= j < Z.of_nat n -> Z.testbit x j = true ->
  0 <= countr_zero n x <= j /\ Z.testbit x (countr_zero n x) = true /\
  forall k, 0 <= k < countr_zero n x -> Z.testbit x k = false.
Proof.
  induction n as [|n IH]; intros x j Hj Hx; [lia|]. simpl.
  destruct (Z.odd x) eqn:Eo.
  { rewrite Z.bit0_odd. split_and!; [lia | lia | auto | lia]. }
  assert (Hd : forall k, 0 <= k -> Z.testbit (x / 2) k = Z.testbit x (k + 1)).
  { intros k Hk. rewrite <- Z.div2_div, Z.div2_spec, Z.shiftr_spec by lia. reflexivity. }
  assert (j <> 0) by (intros ->; rewrite Z.bit0_odd in Hx; congruence).
  destruct (IH (x / 2) (j - 1)) as (Hr & Hb & Hl).
  - lia.
  - rewrite Hd by lia. replace (j - 1 + 1) with j by lia. auto.
  - rewrite Hd in Hb by lia. split_and!; [lia | lia | rewrite Z.add_comm; auto |].
    intros k Hk. destruct (decide (k = 0)) as [->|]; [rewrite Z.bit0_odd; auto|].
    specialize (Hl (k - 1) ltac:(lia)). rewrite Hd in Hl by lia.
    replace (k - 1 + 1) with k in Hl by lia. auto.
Qed.

Section find.
Context `{BuildMode} (T : WordType).
#[local] Abbreviation K := (kIntBits T).

Lemma nonzero_bit w : U_ok T w -> w <> 0 -> exists j, 0 <= j < K /\ Z.testbit w j = true.
Proof.
  intros Hw Hn. exists (Z.log2 w). pose proof (proj1 (U_ok_range T w) Hw) as Hr.
  pose proof (Z.log2_nonneg w). split; [|apply Z.bit_log2; lia].
  split; [lia|]. apply Z.log2_lt_pow2; lia.
Qed.

Lemma load_word_ok c m i : inside m i -> exists w, load_word T c m i = Ok w /\ U_ok T w /\
  forall j, 0 <= j < K -> Z.testbit w j = xorb c (mbit T m (i * K + j)).
Proof.
  intros Hi. unfold load_word. rewrite rd_ok, bind_Ok by auto. eexists. split; [reflexivity|].
  split; [destruct c; apply U_ok_Word|]. intros j Hj. rewrite mbit_at by auto.
  destruct c; rewrite testbit_Word by lia; replace (j <? K) with true by lia;
    simpl; [|destruct (Z.testbit _ _); reflexivity].
  rewrite testbit_promoted, Z.lnot_spec, testbit_Word by lia.
  replace (j <? K) with true by lia. simpl. destruct (Z.testbit _ _); reflexivity.
Qed.

Lemma div_lt_mul i p : i < p / K -> (i + 1) * K <= p.
Proof.
  intros Hi. pose proof (K_range T). pose proof (pos_split T p). pose proof (mod_range T p).
  pose proof (Z.mul_le_mono_nonneg_r (i + 1) (p / K) K). lia.
Qed.

(** *** Forward

    [w] is word [i] restricted to the positions in [s, l); nothing before it has the
    bit. *)

Lemma first_in_word g s l w i : U_ok T w ->
  (forall j, 0 <= j < K -> Z.testbit w j = g (i * K + j) && (s <=? i * K + j) && (i * K + j <? l)) ->
  (forall q, s <= q < i * K -> g q = false) -> w <> 0 ->
  first_in g s l = Some (i * K + countr_zero (nbits T) w).
Proof.
  intros Hw Hb Hn Hz. pose proof (K_range T). destruct (nonzero_bit w Hw Hz) as (j & Hj & Hbj).
  destruct (countr_zero_ok (nbits T) w j) as (Hr & Hc & Hl); [unfold nbits; lia | auto |].
  rewrite Hb, !andb_true_iff in Hc by lia. apply first_in_Some; [lia | apply Hc |].
  intros x Hx. destruct (Z.lt_ge_cases x (i * K)); [apply Hn; lia|].
  specialize (Hl (x - i * K) ltac:(lia)). rewrite Hb in Hl by lia.
  replace (i * K + (x - i * K)) with x in Hl by lia.
  replace (s <=? x) with true in Hl by lia. replace (x <? l) with true in Hl by lia.
  rewrite !andb_true_r in Hl. exact Hl.
Qed.

Lemma first_in_no_word g s l i : l <= (i + 1) * K ->
  (forall j, 0 <= j < K -> g (i * K + j) && (s <=? i * K + j) && (i * K + j <? l) = false) ->
  (forall q, s <= q < i * K -> g q = false) -> first_in g s l = None.
Proof.
  intros Hl Hb Hn. apply first_in_None. intros x Hx.
  destruct (Z.lt_ge_cases x (i * K)); [apply Hn; lia|].
  specialize (Hb (x - i * K) ltac:(lia)). replace (i * K + (x - i * K)) with x in Hb by lia.
  replace (s <=? x) with true in Hb by lia. replace (x <? l) with true in Hb by lia.
  rewrite !andb_true_r in Hb. exact Hb.
Qed.

Lemma FindNext_loop_ok fuel c m s last : last < zlen m ->
  let g q := xorb c (mbit T m q) in
  forall w i, 0 <= i <= last -> last - i <= Z.of_nat fuel -> U_ok T w -> s < (i + 1) * K ->
  (forall j, 0 <= j < K -> Z.testbit w j = g (i * K + j) && (s <=? i * K + j)) ->
  (forall q, s <= q < i * K -> g q = false) ->
  exists w' i', FindNext_loop T fuel c m w i last = Ok (w', i') /\ i <= i' <= last /\
    U_ok T w' /\ (i' < last -> w' <> 0) /\
    (forall j, 0 <= j < K -> Z.testbit w' j = g (i' * K + j) && (s <=? i' * K + j)) /\
    (forall q, s <= q < i' * K -> g q = false).
Proof.
  intros Hl g. pose proof (K_range T). induction fuel as [|fuel IH];
    intros w i Hi Hf Hw Hs Hb Hn; simpl.
  { replace (i <? last) with false by lia. simpl. exists w, i.
    split_and!; auto; lia. }
  destruct (Z.ltb_spec i last), (Z.eqb_spec w 0) as [->|]; simpl;
    try (exists w, i; split_and!; auto; lia); try (exists 0, i; split_and!; auto; lia).
  destruct (load_word_ok c m (i + 1)) as (w & -> & Hw' & Hb'); [unfold inside; lia|].
  rewrite bind_Ok. destruct (IH w (i + 1)) as (w' & i' & -> & ? & ?); auto; try lia.
  - intros j Hj. rewrite Hb' by auto. symmetry.
    replace (s <=? (i + 1) * K + j) with true by lia. apply andb_true_r.
  - intros q Hq. destruct (Z.lt_ge_cases q (i * K)); [apply Hn; lia|].
    specialize (Hb (q - i * K) ltac:(lia)). rewrite Z.bits_0 in Hb.
    replace (i * K + (q - i * K)) with q in Hb by lia.
    replace (s <=? q) with true in Hb by lia. rewrite andb_true_r in Hb. auto.
  - exists w', i'. split; [reflexivity|]. split; [lia | auto].
Qed.

(** The index after a search that may have failed. *)
Definition found_at (r : option Z) (index : Z) : bool * Z :=
  match r with Some q => (true, q) | None => (false, index) end.

Lemma FindNextBitInVector_ok c m s l : 0 <= s -> l < 2 ^ 63 ->
  (s < l -> inside m ((l - 1) / K)) ->
  FindNextBitInVector T c m s l =
  Ok (found_at (first_in (fun q => xorb c (mbit T m q)) s l) s).
Proof.
  intros Hs Hl Hin. unfold FindNextBitInVector. set (g q := xorb c (mbit T m q)).
  pose proof (K_range T). destruct (Z.leb_spec l s).
  { rewrite first_in_None by lia. reflexivity. }
  specialize (Hin ltac:(lia)). rewrite !shiftr_log, !offset_mod.
  pose proof (mod_range T s) as Hms. pose proof (mod_range T (l - 1)) as Hml.
  pose proof (pos_split T s) as Hps. pose proof (pos_split T (l - 1)) as Hpl.
  pose proof (div_nonneg T s Hs) as Hds.
  pose proof (Z.div_le_mono s (l - 1) K ltac:(lia) ltac:(lia)) as Hdl.
  unfold inside in Hin.
  destruct (load_word_ok c m (s / K)) as (w & -> & Hw & Hb); [unfold inside; lia|].
  rewrite bind_Ok, land_bit, negb_involutive by lia.
  destruct (Z.testbit w (s mod K)) eqn:E.
  { rewrite Hb, <- Hps in E by lia. rewrite (first_in_Some _ s l s) by (auto; lia).
    reflexivity. }
  set (w1 := Word T (Z.land w (ArithmeticWord T (Z.shiftl (kAllOnesWord T) (s mod K))))).
  destruct (FindNext_loop_ok (length m) c m s ((l - 1) / K) ltac:(lia) w1 (s / K))
    as (w2 & i & -> & Hi & Hw2 & Hnz & Hb2 & Hn).
  - lia.
  - unfold zlen in *. lia.
  - apply U_ok_Word.
  - lia.
  - intros j Hj. unfold w1. rewrite testbit_Word, Z.land_spec, testbit_high, Hb by lia.
    replace (j <? K) with true by lia. simpl. f_equal. lia.
  - intros q Hq. lia.
  - rewrite bind_Ok. cbv iota zeta beta. fold g in Hb2, Hn.
    assert (0 <= i * K <= l - 1).
    { split; [apply Z.mul_nonneg_nonneg; lia|].
      pose proof (Z.mul_le_mono_nonneg_r i ((l - 1) / K) K). lia. }
    rewrite shiftl_log, u64_small by lia. destruct (Z.ltb_spec i ((l - 1) / K)) as [Hlt|Hge].
    + rewrite (first_in_word g s l w2 i); auto. intros j Hj. rewrite Hb2 by auto.
      pose proof (div_lt_mul i (l - 1) Hlt).
      replace (i * K + j <? l) with true by lia. symmetry. apply andb_true_r.
    + assert (Hil : i = (l - 1) / K) by lia. set (w3 := Word T _).
      assert (Hb3 : forall j, 0 <= j < K -> Z.testbit w3 j =
        g (i * K + j) && (s <=? i * K + j) && (i * K + j <? l)).
      { intros j Hj. unfold w3. rewrite testbit_Word, Z.land_spec, testbit_upto, Hb2 by lia.
        replace (j <? K) with true by lia. simpl. f_equal. rewrite Hil. lia. }
      destruct (Z.eqb_spec w3 0) as [Ez|]; simpl.
      * rewrite (first_in_no_word g s l i); [reflexivity | rewrite Hil; lia | | auto].
        intros j Hj. rewrite <- Hb3, Ez by auto. apply Z.bits_0.
      * rewrite (first_in_word g s l w3 i); auto. apply U_ok_Word.
Qed.

(** *** Backward *)

Lemma bit_width_ok w : U_ok T w -> w <> 0 ->
  1 <= bit_width w <= K /\ Z.testbit w (bit_width w - 1) = true /\
  forall k, bit_width w <= k -> Z.testbit w k = false.
Proof.
  intros Hw Hn. pose proof (proj1 (U_ok_range T w) Hw) as Hr. unfold bit_width.
  replace (w =? 0) with false by lia. pose proof (Z.log2_nonneg w).
  assert (Z.log2 w < K) by (apply Z.log2_lt_pow2; lia).
  split_and!; [lia | lia | rewrite Z.add_simpl_r; apply Z.bit_log2; lia |].
  intros k Hk. apply Z.bits_above_log2; lia.
Qed.

Lemma last_in_word g l s w i : U_ok T w ->
  (forall j, 0 <= j < K -> Z.testbit w j = g (i * K + j) && (i * K + j <=? s) && (l <=? i * K + j)) ->
  (forall q, (i + 1) * K <= q <= s -> g q = false) -> w <> 0 ->
  last_in g l s = Some (i * K + bit_width w - 1).
Proof.
  intros Hw Hb Hn Hz. destruct (bit_width_ok w Hw Hz) as (Hr & Hc & Ha).
  rewrite Hb, !andb_true_iff in Hc by lia.
  replace (i * K + (bit_width w - 1)) with (i * K + bit_width w - 1) in Hc by lia.
  apply last_in_Some; [lia | apply Hc |].
  intros x Hx. destruct (Z.le_gt_cases ((i + 1) * K) x); [apply Hn; lia|].
  specialize (Ha (x - i * K) ltac:(lia)). rewrite Hb in Ha by lia.
  replace (i * K + (x - i * K)) with x in Ha by lia.
  replace (x <=? s) with true in Ha by lia. replace (l <=? x) with true in Ha by lia.
  rewrite !andb_true_r in Ha. exact Ha.
Qed.

(** The words from [map_limit] to [i] are inside. *)
Lemma FindPrevious_loop_ok fuel c m l s mask : 0 <= l <= s ->
  (forall j, 0 <= j < K -> Z.testbit mask j = (l mod K <=? j)) ->
  let g q := xorb c (mbit T m q) in
  forall w i, l / K <= i <= s / K -> i < zlen m -> i - l / K <= Z.of_nat fuel -> U_ok T w ->
  (forall j, 0 <= j < K ->
     Z.testbit w j = g (i * K + j) && (i * K + j <=? s) && (l <=? i * K + j)) ->
  (forall q, (i + 1) * K <= q <= s -> g q = false) ->
  exists r, FindPrevious_loop T fuel c m mask (l / K) w i = Ok r /\
    match r with
    | None => last_in g l s = None
    | Some (w', i') => 0 <= i' <= s / K /\ U_ok T w' /\ w' <> 0 /\
        last_in g l s = Some (i' * K + bit_width w' - 1)
    end.
Proof.
  intros Hls Hmask g. pose proof (K_range T). pose proof (pos_split T l) as Hpl.
  pose proof (div_nonneg T l ltac:(lia)). pose proof (mod_range T l).
  induction fuel as [|fuel IH]; intros w i Hi Hin Hf Hw Hb Hn; simpl;
    (destruct (Z.eqb_spec w 0) as [->|];
      [|exists (Some (w, i)); split_and!; auto; try lia; apply last_in_word; auto]).
  all: assert (Hz : forall q, i * K <= q <= s -> l <= q -> g q = false) by
    (intros q Hq Hlq; destruct (Z.le_gt_cases ((i + 1) * K) q); [apply Hn; lia|];
     specialize (Hb (q - i * K) ltac:(lia)); rewrite Z.bits_0 in Hb;
     replace (i * K + (q - i * K)) with q in Hb by lia;
     replace (q <=? s) with true in Hb by lia; replace (l <=? q) with true in Hb by lia;
     rewrite !andb_true_r in Hb; auto).
  all: destruct (Z.eqb_spec i (l / K)) as [->|]; [|try lia].
  1, 2: exists None; split; [reflexivity|]; apply last_in_None; intros q Hq; apply Hz; lia.
  destruct (load_word_ok c m (i - 1)) as (w & -> & Hw' & Hb'); [unfold inside; lia|].
  rewrite bind_Ok. pose proof (pos_split T s). pose proof (mod_range T s).
  pose proof (Z.mul_le_mono_nonneg_r i (s / K) K).
  apply IH; try lia.
  - case_test; [apply U_ok_Word | auto].
  - intros j Hj. replace ((i - 1) * K + j <=? s) with true by lia. rewrite andb_true_r.
    destruct (Z.eqb_spec (i - 1) (l / K)) as [E|E].
    + rewrite testbit_Word, Z.land_spec, Hmask, Hb' by lia.
      replace (j <? K) with true by lia. simpl. fold (g ((i - 1) * K + j)). f_equal.
      rewrite E. lia.
    + rewrite Hb' by auto. fold (g ((i - 1) * K + j)).
      pose proof (Z.mul_le_mono_nonneg_r (l / K + 1) (i - 1) K).
      replace (l <=? (i - 1) * K + j) with true by lia. symmetry. apply andb_true_r.
  - intros q Hq. apply Hz; [lia|]. pose proof (Z.mul_le_mono_nonneg_r (l / K + 1) i K). lia.
Qed.

Lemma FindPreviousBitInVector_ok c m s l : 0 <= l -> 0 <= s < 2 ^ 63 -> inside m (s / K) ->
  FindPreviousBitInVector T c m s l =
  Ok (found_at (last_in (fun q => xorb c (mbit T m q)) l s) s).
Proof.
  intros Hl Hs Hin. unfold FindPreviousBitInVector. set (g q := xorb c (mbit T m q)).
  pose proof (K_range T). rewrite !shiftr_log, !offset_mod.
  destruct (load_word_ok c m (s / K)) as (w & -> & Hw & Hb); [auto|]. rewrite bind_Ok.
  destruct (Z.ltb_spec s l). { rewrite last_in_None by lia. reflexivity. }
  pose proof (mod_range T s) as Hms. pose proof (mod_range T l) as Hml.
  pose proof (pos_split T s) as Hps. pose proof (pos_split T l) as Hpl.
  pose proof (div_nonneg T l Hl) as Hdl.
  pose proof (Z.div_le_mono l s K ltac:(lia) ltac:(lia)) as Hd. unfold inside in Hin.
  rewrite land_bit, negb_involutive by lia. destruct (Z.testbit w (s mod K)) eqn:E.
  { rewrite Hb, <- Hps in E by lia. rewrite (last_in_Some _ l s s) by (auto; lia).
    reflexivity. }
  cbv zeta. set (mask := ArithmeticWord T (Z.shiftl (kAllOnesWord T) (l mod K))).
  assert (Hmask : forall j, 0 <= j < K -> Z.testbit mask j = (l mod K <=? j))
    by (intros j Hj; apply testbit_high; lia).
  match goal with |- context [FindPrevious_loop T _ c m mask _ ?w _] => set (w1 := w) end.
  destruct (FindPrevious_loop_ok (length m) c m l s mask ltac:(lia) Hmask w1 (s / K))
    as (r & -> & Hr); try lia.
  - unfold zlen in *. lia.
  - unfold w1. case_test; apply U_ok_Word.
  - intros j Hj.
    assert (Hw1 : Z.testbit (Word T (Z.land w (ArithmeticWord T (Z.lnot (ArithmeticWord T
        (Z.shiftl (kAllOnesWord T - 1) (s mod K))))))) j =
        g (s / K * K + j) && (s / K * K + j <=? s)).
    { rewrite testbit_Word, Z.land_spec, testbit_upto, Hb by lia.
      replace (j <? K) with true by lia. simpl. fold (g (s / K * K + j)). f_equal. lia. }
    fold g. unfold w1. destruct (Z.eqb_spec (s / K) (l / K)) as [E1|E1].
    + rewrite testbit_Word, Z.land_spec, Hmask, Hw1 by lia.
      replace (j <? K) with true by lia. simpl. f_equal. rewrite E1. lia.
    + rewrite Hw1. pose proof (Z.mul_le_mono_nonneg_r (l / K + 1) (s / K) K).
      replace (l <=? s / K * K + j) with true by lia. symmetry. apply andb_true_r.
  - rewrite bind_Ok. fold g in Hr. destruct r as [[w' i]|]; [|rewrite Hr; reflexivity].
    destruct Hr as (Hi & Hw' & Hnz & ->). simpl. rewrite shiftl_log.
    destruct (bit_width_ok w' Hw' Hnz) as (Hbw & _).
    assert (0 <= i * K) by (apply Z.mul_nonneg_nonneg; lia).
    pose proof (Z.mul_le_mono_nonneg_r i (s / K) K).
    rewrite (u64_small (i * K)), u64_small by lia. reflexivity.
Qed.

(** ** The searches of a bitmap *)

Lemma FindNext_bitmap c b s l : bm_ok T b -> 0 <= s -> l <= size_ b ->
  FindNextBitInVector T c (map_ b) s l =
  Ok (found_at (first_in (fun q => xorb c (bit T b q)) s l) s).
Proof.
  intros Hb Hs Hl. destruct Hb as (Hz & Hb). unfold size_ok in Hz.
  apply FindNextBitInVector_ok; [auto | lia |]. intros. apply index_inside; [split; auto | lia].
Qed.

Lemma FindPrevious_bitmap c b s l : bm_ok T b -> 0 <= l -> 0 <= s < size_ b ->
  FindPreviousBitInVector T c (map_ b) s l =
  Ok (found_at (last_in (fun q => xorb c (bit T b q)) l s) s).
Proof.
  intros Hb Hl Hs. pose proof (proj1 Hb) as Hz. unfold size_ok in Hz.
  apply FindPreviousBitInVector_ok; [auto | lia |]. apply index_inside; auto.
Qed.
End find.

(** ** The positions with a bit, in order *)

Definition trues (p : Z -> bool) (a n : Z) : list Z := List.filter p (seqZ a (n - a)).

Lemma trues_step p a n : a < n ->
  trues p a n = (if p a then [a] else []) ++ trues p (a + 1) n.
Proof.
  intros Ha. unfold trues. rewrite seqZ_cons by lia. simpl.
  replace (Z.succ a) with (a + 1) by lia. replace (Z.pred (n - a)) with (n - (a + 1)) by lia.
  destruct (p a); reflexivity.
Qed.

Lemma trues_nil p a n : n <= a -> trues p a n = [].
Proof. intros Ha. unfold trues. rewrite seqZ_nil by lia. reflexivity. Qed.

(** Searching for the next position drops what has no bit. *)
Lemma trues_first p a n :
  match first_in p a n with
  | Some q => a <= q < n /\ p q = true /\ trues p a n = trues p q n
  | None => trues p a n = []
  end.
Proof.
  unfold first_in. remember (Z.to_nat (n - a)) as k eqn:Ek. revert a Ek.
  induction k as [|k IH]; intros a Ek; simpl; [apply trues_nil; lia|].
  destruct (p a) eqn:E; [split; [lia | auto]|].
  specialize (IH (a + 1) ltac:(lia)). destruct (first_from p (a + 1) k).
  - destruct IH as (? & ? & <-). split; [lia|]. split; [auto|].
    rewrite trues_step, E by lia. reflexivity.
  - rewrite trues_step, E by lia. exact IH.
Qed.

(** ** Text in groups *)

(** The characters of [src], with an underscore before every [g]th one but the first. *)
Definition grouped (g : Z) (src : list Z) (a n : Z) : list Z :=
  flat_map (fun q => (if (0 <? q) && (q mod g =? 0) then [95] else []) ++ [word src q])
    (seqZ a n).

Lemma seqZ_one a : seqZ a 1 = [a].
Proof. reflexivity. Qed.

Lemma grouped_app g src a n k : 0 <= n -> 0 <= k ->
  grouped g src a (n + k) = grouped g src a n ++ grouped g src (a + n) k.
Proof. intros Hn Hk. unfold grouped. rewrite seqZ_app by lia. apply flat_map_app. Qed.

(** Within a group there is no underscore. *)
Lemma grouped_plain g src n : forall a, 0 <= a -> a + Z.of_nat n <= zlen src ->
  (forall q, a <= q < a + Z.of_nat n -> q mod g <> 0) ->
  grouped g src a (Z.of_nat n) = take n (drop (Z.to_nat a) src).
Proof.
  unfold zlen. induction n as [|n IH]; intros a Ha Hs Hg; [reflexivity|].
  replace (Z.of_nat (S n)) with (1 + Z.of_nat n) by lia. rewrite grouped_app by lia.
  rewrite IH by (intros; try apply Hg; lia). unfold grouped. rewrite seqZ_one. simpl.
  replace (a mod g =? 0) with false by (specialize (Hg a); lia). rewrite andb_false_r. simpl.
  destruct (lookup_lt_is_Some_2 src (Z.to_nat a)) as [x Hx]; [lia|].
  rewrite (drop_S _ _ _ Hx). simpl. unfold word. rewrite (nth_lookup_Some _ _ _ _ Hx).
  do 3 f_equal. lia.
Qed.

(** One group. *)
Lemma grouped_chunk g src a : 0 < g -> 0 <= a < zlen src -> a mod g = 0 ->
  grouped g src a (Z.min g (zlen src - a)) =
  (if 0 <? a then [95] else []) ++ take (Z.to_nat g) (drop (Z.to_nat a) src).
Proof.
  intros Hg Ha Hm. unfold zlen in *. set (k := Z.min g (Z.of_nat (length src) - a)).
  replace k with (1 + Z.of_nat (Z.to_nat (k - 1))) by lia. rewrite grouped_app by lia.
  rewrite grouped_plain; [| lia | unfold zlen; lia |].
  - unfold grouped. rewrite seqZ_one. simpl. rewrite Hm, Z.eqb_refl, andb_true_r, app_nil_r, <- app_assoc.
    f_equal. destruct (lookup_lt_is_Some_2 src (Z.to_nat a)) as [x Hx]; [lia|].
    rewrite (drop_S _ _ _ Hx). replace (Z.to_nat g) with (S (Z.to_nat (g - 1))) by lia. simpl.
    unfold word. rewrite (nth_lookup_Some _ _ _ _ Hx). f_equal.
    replace (Z.to_nat (a + 1)) with (S (Z.to_nat a)) by lia.
    destruct (Z.min_spec g (Z.of_nat (length src) - a)) as [[? Hk]|[? Hk]]; fold k in Hk;
      rewrite Hk; [reflexivity|]. rewrite !take_ge by (rewrite length_drop; lia). reflexivity.
  - intros q Hq Hz. apply Z.div_exact in Hz; [|lia]. apply Z.div_exact in Hm; [|lia].
    rewrite Hz, Hm in Hq. assert (a / g < q / g < a / g + 1); [|lia].
    split; [apply (Z.mul_lt_mono_pos_l g); lia|]. apply (Z.mul_lt_mono_pos_l g); lia.
Qed.

Lemma group_loop_ok g src fuel : 0 < g < 2 ^ 31 -> zlen src < 2 ^ 63 -> forall i target,
  0 <= i -> (i < zlen src -> i mod g = 0) -> zlen src - i <= Z.of_nat fuel ->
  group_loop fuel src g i target = Ok (target ++ grouped g src i (zlen src - i)).
Proof.
  intros Hg Hs. induction fuel as [|fuel IH]; intros i target Hi Hm Hf; simpl.
  { replace (i <? zlen src) with false by lia. unfold grouped. rewrite seqZ_nil by lia.
    rewrite app_nil_r. reflexivity. }
  destruct (Z.ltb_spec i (zlen src)).
  2: { unfold grouped. rewrite seqZ_nil by lia. rewrite app_nil_r. reflexivity. }
  rewrite (u64_small (i + g)), IH; [|lia | | lia | lia].
  - rewrite <- grouped_chunk, <- app_assoc by (auto; lia). do 2 f_equal.
    destruct (Z.le_gt_cases g (zlen src - i)).
    + rewrite Z.min_l by lia.
      replace (zlen src - i) with (g + (zlen src - (i + g))) by lia.
      rewrite grouped_app by lia. do 3 f_equal; lia.
    + rewrite Z.min_r by lia. unfold grouped at 2. rewrite seqZ_nil by lia.
      rewrite app_nil_r. reflexivity.
  - intros _. rewrite <- (Z.mul_1_l g) at 1. rewrite Z.mod_add by lia. auto.
Qed.

Section iter.
Context `{BuildMode} (T : WordType).
#[local] Abbreviation K := (kIntBits T).

(** ** Iterators *)

Lemma U_rest c q : U_ok T c -> 0 <= q -> U_ok T (Z.shiftr c q).
Proof. intros. apply U_ok_shiftr; auto. Qed.

Lemma GetMaskedMapElement_ok b q : bm_ok T b -> 0 <= q < size_ b ->
  exists w, GetMaskedMapElement T b (q / K) = Ok w /\ U_ok T w /\
    forall j, 0 <= j < K -> Z.testbit w j = bit0 T b (q / K * K + j).
Proof.
  intros Hb Hq. unfold GetMaskedMapElement. pose proof (index_inside T b q Hb Hq) as Hi.
  pose proof Hb as (Hs & _ & _). unfold size_ok in Hs. pose proof (mod_range T q).
  pose proof (in_words T q _ Hq) as [Hw _]. fold (array_size T b) in Hw.
  assert (Hp : forall j, 0 <= j < K -> 0 <= q / K * K + j /\
    (q / K * K + j) / K = q / K /\ (q / K * K + j) mod K = j).
  { intros j Hj. split; [|apply bit_pos; auto].
    pose proof (Z.mul_nonneg_nonneg (q / K) K ltac:(lia) ltac:(lia)). lia. }
  destruct (Z.eqb_spec (q / K) (array_size T b - 1)) as [E|E].
  - rewrite <- E, rd_ok, bind_Ok by auto. eexists. split; [reflexivity|].
    split; [apply U_ok_land, U_ok_mask|]. intros j Hj. destruct (Hp j Hj) as (Hq0 & Hd & Hm).
    pose proof (masked_bit T b (Word T (word (map_ b) (q / K))) (q / K * K + j) Hb Hq0)
      as Hmb. rewrite Hm in Hmb.
    rewrite Z.land_spec, Hmb, testbit_Word by lia. unfold bit0, bit. rewrite mbit_at by auto.
    replace (j <? K) with true by lia. reflexivity.
  - rewrite rd_ok, bind_Ok by auto. eexists. split; [reflexivity|].
    split; [apply U_ok_Word|]. intros j Hj. destruct (Hp j Hj) as (Hq0 & Hd & Hm).
    rewrite testbit_Word by lia. unfold bit0, bit. rewrite mbit_at by auto.
    rewrite (full_word T b) by (auto; rewrite Hd; lia).
    replace (j <? K) with true by lia. reflexivity.
Qed.

Lemma rest_of_word_ok b q : bm_ok T b -> 0 <= q < size_ b ->
  exists c, rest_of_word T b q = Ok c /\ U_ok T c /\
    forall j, 0 <= j -> Z.testbit c j = (q mod K + j <? K) && bit0 T b (q + j).
Proof.
  intros Hb Hq. unfold rest_of_word. pose proof (K_range T). pose proof (mod_range T q).
  pose proof (pos_split T q).
  destruct (GetMaskedMapElement_ok b q Hb Hq) as (w & -> & Hw & Hbit). rewrite bind_Ok.
  rewrite offset_mod, Word_U_ok by (apply U_rest; auto; lia).
  eexists. split; [reflexivity|]. split; [apply U_rest; auto; lia|].
  intros j Hj. rewrite Z.shiftr_spec by lia. case_test; simpl.
  - rewrite Hbit by lia. f_equal. lia.
  - apply Hw. lia.
Qed.

(** An iterator at [p], where there is a bit or the end. *)
Definition at_pos (b : BasicBitmap) (it : BitIndexIter) (p : Z) : Prop :=
  bit_position_ it = p /\
  (p = size_ b \/
   0 <= p < size_ b /\ bit T b p = true /\ rest_of_word T b p = Ok (current_ it)).

Definition next_pos (b : BasicBitmap) (a : Z) : Z :=
  match first_in (bit T b) a (size_ b) with Some q => q | None => size_ b end.

Lemma FindNextSetBit_ok b s : bm_ok T b -> 0 <= s ->
  FindNextSetBit T b s = Ok (found_at (first_in (bit T b) s (size_ b)) s).
Proof.
  intros Hb Hs. unfold FindNextSetBit, FindNextSetBitBeforeLimit, CHECK.
  replace (size_ b <=? size_ b) with true by lia. simpl. rewrite FindNext_bitmap by (auto; lia).
  reflexivity.
Qed.

(** Jumping to the next bit. *)
Lemma seek b s d : bm_ok T b -> 0 <= s ->
  exists it, ('(found, position) ← FindNextSetBit T b s;
    if (found : bool) then c ← rest_of_word T b position; Ok (mkIter c position)
    else Ok (mkIter d (size_ b))) = Ok it /\ at_pos b it (next_pos b s).
Proof.
  intros Hb Hs. rewrite FindNextSetBit_ok, bind_Ok by auto. unfold next_pos.
  pose proof (trues_first (bit T b) s (size_ b)) as Hf.
  destruct (first_in (bit T b) s (size_ b)) as [q|]; simpl.
  - destruct Hf as (Hq & Hp & _).
    destruct (rest_of_word_ok b q Hb) as (c & Hc & _); [lia|]. rewrite Hc, bind_Ok.
    eexists. split; [reflexivity|]. split; [reflexivity|]. right. split_and!; auto; lia.
  - eexists. split; [reflexivity|]. split; [reflexivity | auto].
Qed.

Lemma make_iter_ok b s : bm_ok T b -> 0 <= s ->
  exists it, make_iter T b s = Ok it /\ at_pos b it (next_pos b s).
Proof.
  intros Hb Hs. destruct (seek b s 0 Hb Hs) as (it & He & Ha). exists it.
  split; [|auto]. rewrite <- He. unfold make_iter.
  destruct (FindNextSetBit T b s) as [[[] ?]| |]; reflexivity.
Qed.

Lemma countr_zero_odd c : Z.odd c = true -> countr_zero (nbits T) c = 0.
Proof.
  intros Ho. pose proof (K_range T). unfold nbits.
  destruct (Z.to_nat K) eqn:E; [lia|]. simpl. rewrite Ho. reflexivity.
Qed.

(** The next bit is in the rest of the word. *)
Lemma within_word b q c : bm_ok T b -> 0 <= q < size_ b -> rest_of_word T b q = Ok c ->
  Z.shiftr c 1 <> 0 ->
  let f := countr_zero (nbits T) (Z.shiftr c 1) in
  0 <= f /\ at_pos b (mkIter (Z.shiftr (Z.shiftr c 1) f) (q + 1 + f)) (next_pos b (q + 1)) /\
  next_pos b (q + 1) = q + 1 + f.
Proof.
  intros Hb Hq Hc Hz. pose proof (K_range T). pose proof (mod_range T q).
  destruct (rest_of_word_ok b q Hb Hq) as (c' & Hc' & Hu & Hbit).
  rewrite Hc in Hc'. injection Hc' as <-.
  destruct (nonzero_bit T _ (U_rest _ 1 Hu ltac:(lia)) Hz) as (j & Hj & Hbj).
  destruct (countr_zero_ok (nbits T) _ j ltac:(unfold nbits; lia) Hbj) as (Hr & Hf & Hl).
  intros f. fold f in Hr, Hf, Hl.
  assert (Hb1 : forall k, 0 <= k ->
    Z.testbit (Z.shiftr c 1) k = (q mod K + 1 + k <? K) && bit0 T b (q + 1 + k)).
  { intros k Hk. rewrite Z.shiftr_spec, Hbit by lia. f_equal; [|f_equal]; lia. }
  rewrite Hb1, andb_true_iff in Hf by lia. destruct Hf as [Hin Hf].
  unfold bit0 in Hf. apply andb_true_iff in Hf as [Hsz Hf].
  assert (Hn : next_pos b (q + 1) = q + 1 + f).
  { unfold next_pos. rewrite (first_in_Some _ _ _ (q + 1 + f)); [auto | lia | auto |].
    intros x Hx. specialize (Hl (x - q - 1) ltac:(lia)). rewrite Hb1 in Hl by lia.
    unfold bit0 in Hl. replace (q + 1 + (x - q - 1)) with x in Hl by lia.
    replace (x <? size_ b) with true in Hl by lia.
    replace (_ <? K) with true in Hl by lia. exact Hl. }
  split; [lia|]. split; [|auto]. rewrite Hn. split; [reflexivity|]. right.
  split_and!; [lia | lia | auto |]. simpl.
  destruct (rest_of_word_ok b (q + 1 + f) Hb ltac:(lia)) as (c2 & -> & Hu2 & Hbit2). f_equal.
  assert (Hm : (q + 1 + f) mod K = q mod K + 1 + f).
  { destruct (bit_pos T (q / K) (q mod K + 1 + f)) as [_ Hm]; [lia|]. rewrite <- Hm.
    f_equal. pose proof (pos_split T q). lia. }
  apply (U_ok_ext T); [auto | apply U_rest; [apply U_rest; auto; lia | lia] |].
  intros k Hk. rewrite Hbit2, Z.shiftr_spec, Hb1, Hm by lia. f_equal; [|f_equal]; lia.
Qed.

Lemma iter_incr_ok b it p : bm_ok T b -> p < size_ b -> at_pos b it p ->
  exists it', iter_incr T b it = Ok it' /\ at_pos b it' (next_pos b (p + 1)).
Proof.
  intros Hb Hp [Hpos [?|(Hr & Hbit & Hc)]]; [lia|]. unfold iter_incr. rewrite Hpos.
  pose proof Hb as (Hs & _ & _). unfold size_ok in Hs. rewrite (u64_small (p + 1)) by lia.
  destruct (Z.eqb_spec (Z.shiftr (current_ it) 1) 0) as [|Hz]; [apply seek; auto; lia|].
  destruct (within_word b p _ Hb Hr Hc Hz) as (Hf & Hat & Hn).
  set (f := countr_zero (nbits T) (Z.shiftr (current_ it) 1)) in *.
  eexists. split; [|exact Hat].
  destruct (Z.eqb_spec (Z.land (Z.shiftr (current_ it) 1) 1) 0) as [E|E]; simpl.
  - fold f. rewrite u64_small; [reflexivity|]. split; [lia|]. destruct Hat as [_ [He|He]]; lia.
  - assert (f = 0) as ->; [|rewrite Z.add_0_r; reflexivity].
    apply countr_zero_odd. rewrite <- Z.bit0_odd. apply not_false_iff_true. intros E0.
    apply E. apply Z.bits_inj'. intros k Hk. rewrite Z.land_spec, Z.bits_0.
    destruct (decide (k = 0)) as [->|]; [rewrite E0; reflexivity|].
    rewrite (testbit_small 1 1 k) by lia. apply andb_false_r.
Qed.

(** ** All set bits *)

Lemma collect_ok b last fuel : bm_ok T b -> bit_position_ last = size_ b -> forall it p,
  at_pos b it p -> size_ b - p <= Z.of_nat fuel ->
  collect T fuel b it last = Ok (trues (bit T b) p (size_ b)).
Proof.
  intros Hb Hl. induction fuel as [|fuel IH]; intros it p Hat Hf; simpl;
    pose proof Hat as [Hp Hc]; unfold iter_eq; rewrite Hp, Hl.
  - replace (p =? size_ b) with true by lia. rewrite trues_nil by lia. reflexivity.
  - destruct (Z.eqb_spec p (size_ b)); [rewrite trues_nil by lia; reflexivity|].
    destruct Hc as [?|(Hr & Hbit & _)]; [done|].
    destruct (iter_incr_ok b it p Hb ltac:(lia) Hat) as (it' & -> & Hat'). rewrite bind_Ok.
    unfold next_pos in Hat'. pose proof (trues_first (bit T b) (p + 1) (size_ b)) as Ht.
    rewrite trues_step, Hbit by lia.
    destruct (first_in (bit T b) (p + 1) (size_ b)) as [q|].
    + destruct Ht as (? & ? & ->). rewrite (IH _ _ Hat') by lia. reflexivity.
    + rewrite (IH _ _ Hat') by lia. rewrite Ht, trues_nil by lia. reflexivity.
Qed.

Lemma TrueBitIndices_ok b : bm_ok T b ->
  TrueBitIndices T b = Ok (trues (bit T b) 0 (size_ b)).
Proof.
  intros Hb. pose proof Hb as (Hs & _ & _). unfold size_ok in Hs.
  unfold TrueBitIndices, begin_, end_, LowerBound.
  destruct (make_iter_ok b 0 Hb ltac:(lia)) as (it & -> & Hat). rewrite bind_Ok.
  destruct (make_iter_ok b (2 ^ 64 - 1) Hb ltac:(lia)) as (last & -> & Hlast). rewrite bind_Ok.
  unfold next_pos in *. rewrite first_in_None in Hlast by lia.
  pose proof (trues_first (bit T b) 0 (size_ b)) as Ht.
  destruct (first_in (bit T b) 0 (size_ b)) as [q|].
  - destruct Ht as (? & ? & ->). apply collect_ok; auto; [apply Hlast | lia].
  - rewrite (collect_ok b last _ Hb (proj1 Hlast) it (size_ b)) by (auto; lia).
    rewrite Ht, trues_nil by lia. reflexivity.
Qed.

(** ** Text *)

Lemma ToString_loop_ok b fuel : bm_ok T b -> forall str a, 0 <= a -> zlen str = size_ b ->
  size_ b - a <= Z.of_nat fuel ->
  exists str', ToString_loop T fuel b str a = Ok str' /\ zlen str' = size_ b /\
    forall q, 0 <= q < size_ b ->
      word str' q = if (a <=? q) && bit T b q then 49 else word str q.
Proof.
  intros Hb. pose proof Hb as (Hs & _ & _). unfold size_ok in Hs.
  induction fuel as [|fuel IH]; intros str a Ha Hlen Hf; simpl;
    rewrite FindNextSetBit_ok, bind_Ok by auto.
  { rewrite first_in_None by lia. simpl. exists str. split_and!; auto. intros q Hq.
    replace (a <=? q) with false by lia. reflexivity. }
  pose proof (trues_first (bit T b) a (size_ b)) as Ht.
  assert (Hnone : forall n, first_in (bit T b) a (size_ b) = n -> forall q, a <= q < size_ b ->
    (match n with Some x => q < x | None => True end) -> bit T b q = false).
  { intros n Hn q Hq Hx. destruct (bit T b q) eqn:E; [|reflexivity]. exfalso.
    unfold first_in in Hn. clear Ht. remember (Z.to_nat (size_ b - a)) as k eqn:Ek. clear IH Hf.
    revert a Ha Hq Ek Hn. induction k as [|k IHk]; intros a Ha Hq Ek Hn; [lia|]. simpl in Hn.
    destruct (bit T b a) eqn:Ea; [subst n; lia|]. destruct (decide (a = q)); [congruence|].
    apply (IHk (a + 1)); auto; lia. }
  destruct (first_in (bit T b) a (size_ b)) as [x|] eqn:Ex; simpl.
  - destruct Ht as (Hx & Hbx & _). rewrite wr_ok, bind_Ok by (unfold inside; lia).
    rewrite u64_small by lia.
    destruct (IH (<[Z.to_nat x := 49]> str) (x + 1)) as (str' & -> & Hl & Hw);
      [lia | rewrite zlen_insert; auto | lia |].
    exists str'. split_and!; auto. intros q Hq. rewrite Hw, word_insert by
      (auto; unfold inside; lia).
    destruct (Z.leb_spec (x + 1) q), (Z.leb_spec a q), (Z.eqb_spec q x) as [->|]; simpl;
      rewrite ?Hbx; auto; try lia.
    rewrite (Hnone (Some x)) by (auto; lia). reflexivity.
  - exists str. split_and!; auto. intros q Hq. destruct (Z.leb_spec a q); simpl; [|reflexivity].
    rewrite (Hnone None) by (auto; lia). reflexivity.
Qed.

Lemma ToString_ok b : bm_ok T b ->
  ToString T b = Ok (map (fun q => if bit T b q then 49 else 48) (seqZ 0 (size_ b))).
Proof.
  intros Hb. pose proof Hb as (Hs & _ & _). unfold size_ok in Hs. unfold ToString.
  destruct (ToString_loop_ok b (Z.to_nat (size_ b)) Hb
    (replicate (Z.to_nat (size_ b)) 48) 0) as (str & -> & Hl & Hw);
    [lia | unfold zlen; rewrite length_replicate; lia | lia |].
  f_equal. apply (nth_ext _ _ 0 0).
  { rewrite length_map, length_seqZ. unfold zlen in Hl. lia. }
  intros i Hi. unfold zlen in Hl. specialize (Hw (Z.of_nat i) ltac:(lia)). unfold word in Hw.
  rewrite Nat2Z.id in Hw. rewrite Hw. change (map ?f ?l) with (f <$> l).
  rewrite !nth_lookup, list_lookup_fmap, lookup_seqZ_lt by lia. simpl.
  rewrite lookup_replicate_2 by lia. simpl. replace (0 <=? Z.of_nat i) with true by lia.
  reflexivity.
Qed.

Lemma ToString_group_ok b g : bm_ok T b -> g < 2 ^ 31 ->
  ToString_group T b g =
  (str ← ToString T b; Ok (if g <=? 0 then str else grouped g str 0 (zlen str))).
Proof.
  intros Hb Hg. unfold ToString_group. rewrite ToString_ok, !bind_Ok by auto.
  case_test; [reflexivity|]. pose proof Hb as (Hs & _ & _). unfold size_ok in Hs.
  set (str := map _ _). assert (Hl : zlen str = size_ b).
  { unfold str, zlen. rewrite length_map, length_seqZ. lia. }
  rewrite group_loop_ok; [rewrite Z.sub_0_r; reflexivity | lia | lia | lia | |].
  - intros _. apply Z.mod_0_l. lia.
  - unfold zlen. lia.
Qed.
End iter.
