(* ===== verification/BitmapSpec.v ===== *)
(** * Bitmaps: programs over several bitmaps

    The store is the list of the bitmaps made so far; operations name their bitmaps by
    position, so that one may be both arguments.  The abstract state of a bitmap is the
    list of its bits, and [spec] says what each operation does to these lists, what it
    returns, and when one of its checks fails.  Programs start from an empty store and
    new memory is arbitrary. *)
From Stdlib Require Import ZArith Lia Bool.
From stdpp Require Import base list numbers option.
From S2P Require Import Prelude.
From S2P Require Import Bitmap.
From S2P Require Import BitmapBits.
From S2P Require Import BitmapProps.
From S2P Require Import BitmapQueries.
From S2P Require Import BitmapOrder.
From S2P Require Import BitmapIter.
Local Open Scope Z_scope.

(** ** Operations *)

Inductive op : Type :=
  | ONew (n : Z) (v : bool)
  | ONewDefault
  | ONewSpan (l : list bool)
  | OSet (i : nat) (q : Z) (v : bool)
  | OToggle (i : nat) (q : Z)
  | OSetAll (i : nat) (v : bool)
  | OClear (i : nat)
  | OSetRange (i : nat) (s e : Z) (v : bool)
  | OResize (i : nat) (n : Z) (v : bool)
  | OComplement (i : nat)
  | OUnion (i j : nat)
  | OIntersection (i j : nat)
  | ODifference (i j : nat)
  | OExclusiveOr (i j : nat)
  | QGet (i : nat) (q : Z)
  | QIsAllZeroes (i : nat)
  | QIsAllOnes (i : nat)
  | QOnes (i : nat) (s e : Z)
  | QZeroes (i : nat) (s e : Z)
  | QTestRange (i : nat) (s e : Z)
  | QIsEqual (i j : nat)
  | QIsSubsetOf (i j : nat)
  | QCompareTo (i j : nat)
  | QIntersects (i j : nat)
  | QHammingDistance (i j : nat)
  | QFindNextSet (i : nat) (q l : Z)
  | QFindNextUnset (i : nat) (q l : Z)
  | QFindPreviousSet (i : nat) (q l : Z)
  | QFindPreviousUnset (i : nat) (q l : Z)
  | QFindFirst (i : nat)
  | QFindLast (i : nat)
  | QIndices (i : nat)
  | QToString (i : nat)
  | QToStringGroup (i : nat) (g : Z).

Inductive result : Type :=
  | RUnit
  | RBool (b : bool)
  | RNum (n : Z)
  | RFound (r : bool * Z)
  | RList (l : list Z).

Definition get {A} (st : list A) (i : nat) : outcome A :=
  match st !! i with Some a => Ok a | None => UB end.

Section run.
Context `{BuildMode} (hardened : bool) (T : WordType) (fresh : nat -> list Z).

Definition new (st : list BasicBitmap) (m : outcome BasicBitmap) :
    outcome (list BasicBitmap * result) :=
  b ← m; Ok (st ++ [b], RUnit).
Definition update (st : list BasicBitmap) (i : nat)
    (f : BasicBitmap -> outcome (BasicBitmap * result)) :
    outcome (list BasicBitmap * result) :=
  b ← get st i; '(b, r) ← f b; Ok (<[i := b]> st, r).
Definition update0 st i (f : BasicBitmap -> outcome BasicBitmap) :=
  update st i (fun b => b ← f b; Ok (b, RUnit)).
Definition query {A} (r : A -> result) (st : list BasicBitmap) (i : nat)
    (f : BasicBitmap -> outcome A) : outcome (list BasicBitmap * result) :=
  b ← get st i; a ← f b; Ok (st, r a).
Definition with_ {A} (st : list BasicBitmap) (j : nat) (f : BasicBitmap -> outcome A) :
    outcome A :=
  o ← get st j; f o.

Definition step (st : list BasicBitmap) (o : op) : outcome (list BasicBitmap * result) :=
  match o with
  | ONew n v => new st (make T fresh n v)
  | ONewDefault => new st (Ok (make_default T fresh))
  | ONewSpan l => new st (make_span hardened T fresh l)
  | OSet i q v => update st i (fun b => '(b, old) ← Set_ hardened T b q v; Ok (b, RBool old))
  | OToggle i q => update0 st i (fun b => Toggle hardened T b q)
  | OSetAll i v => update0 st i (fun b => SetAll T b v)
  | OClear i => update0 st i (fun b => Clear T b)
  | OSetRange i s e v => update0 st i (fun b => SetRange T b s e v)
  | OResize i n v => update0 st i (fun b => Resize T fresh b n v)
  | OComplement i => update0 st i (fun b => Complement T b)
  | OUnion i j => update0 st i (fun b => with_ st j (Union T b))
  | OIntersection i j => update0 st i (fun b => with_ st j (Intersection T b))
  | ODifference i j => update0 st i (fun b => with_ st j (Difference T b))
  | OExclusiveOr i j => update0 st i (fun b => with_ st j (ExclusiveOr T b))
  | QGet i q => query RBool st i (fun b => Get hardened T b q)
  | QIsAllZeroes i => query RBool st i (fun b => IsAllZeroes T b)
  | QIsAllOnes i => query RBool st i (fun b => IsAllOnes T b)
  | QOnes i s e => query RNum st i (fun b => GetOnesCountInRange T b s e)
  | QZeroes i s e => query RNum st i (fun b => GetZeroesCountInRange T b s e)
  | QTestRange i s e => query RBool st i (fun b => TestRange T b s e)
  | QIsEqual i j => query RBool st i (fun b => with_ st j (IsEqual T b))
  | QIsSubsetOf i j => query RBool st i (fun b => with_ st j (IsSubsetOf T b))
  | QCompareTo i j => query RNum st i (fun b => with_ st j (CompareTo T b))
  | QIntersects i j => query RBool st i (fun b => with_ st j (IsIntersectionNonEmpty T b))
  | QHammingDistance i j => query RNum st i (fun b => with_ st j (HammingDistance T b))
  | QFindNextSet i q l => query RFound st i (fun b => FindNextSetBitBeforeLimit T b q l)
  | QFindNextUnset i q l => query RFound st i (fun b => FindNextUnsetBitBeforeLimit T b q l)
  | QFindPreviousSet i q l =>
      query RFound st i (fun b => FindPreviousSetBitBeforeLimit T b q l)
  | QFindPreviousUnset i q l =>
      query RFound st i (fun b => FindPreviousUnsetBitBeforeLimit T b q l)
  | QFindFirst i => query RFound st i (fun b => FindFirstSetBit T b)
  | QFindLast i => query RFound st i (fun b => FindLastSetBit T b)
  | QIndices i => query RList st i (fun b => TrueBitIndices T b)
  | QToString i => query RList st i (fun b => ToString T b)
  | QToStringGroup i g => query RList st i (fun b => ToString_group T b g)
  end.

Fixpoint run (st : list BasicBitmap) (l : list op) :
    outcome (list BasicBitmap * list result) :=
  match l with
  | [] => Ok (st, [])
  | o :: l => '(st, r) ← step st o; '(st, rs) ← run st l; Ok (st, r :: rs)
  end.
End run.

(** ** Lists of bits *)

Definition vnth (v : list bool) (q : Z) : bool := nth (Z.to_nat q) v false.
Definition tab (n : Z) (g : Z -> bool) : list bool := map g (seqZ 0 n).

(** The number that the bits stand for, lowest bit first; ties go to the longer one. *)
Definition compare_vec (v w : list bool) : Z :=
  let c := cmpz (number (vnth v) (length v)) (number (vnth w) (length w)) in
  if c =? 0 then cmpz (zlen v) (zlen w) else c.

(** One character per bit. *)
Definition text (v : list bool) : list Z := map (fun x : bool => if x then 49 else 48) v.

Definition spec_update (w : list (list bool)) (i : nat)
    (f : list bool -> outcome (list bool * result)) : outcome (list (list bool) * result) :=
  v ← get w i; '(v, r) ← f v; Ok (<[i := v]> w, r).
Definition spec_set w i (f : list bool -> list bool) :=
  spec_update w i (fun v => Ok (f v, RUnit)).
(** The bits of [w_i] become [g (bit of w_i) (bit of w_j)]; [same]: sizes must agree. *)
Definition spec_combine (w : list (list bool)) (i j : nat) (same : bool)
    (g : bool -> bool -> bool) :=
  spec_update w i (fun v =>
    u ← get w j;
    _ ← CHECK (negb same || (zlen v =? zlen u));
    Ok (tab (zlen v) (fun q => g (vnth v q) (vnth u q)), RUnit)).
Definition spec_query (w : list (list bool)) (i : nat) (f : list bool -> outcome result) :
    outcome (list (list bool) * result) :=
  v ← get w i; r ← f v; Ok (w, r).
Definition spec_pair (w : list (list bool)) (i j : nat) (same : bool)
    (f : list bool -> list bool -> result) : outcome (list (list bool) * result) :=
  spec_query w i (fun v =>
    u ← get w j; _ ← CHECK (negb same || (zlen v =? zlen u)); Ok (f v u)).

Definition spec (w : list (list bool)) (o : op) : outcome (list (list bool) * result) :=
  match o with
  | ONew n v => Ok (w ++ [tab n (fun _ => v)], RUnit)
  | ONewDefault => Ok (w ++ [[]], RUnit)
  | ONewSpan l => Ok (w ++ [l], RUnit)
  | OSet i q x => spec_update w i (fun v =>
      _ ← CHECK (q <? zlen v);
      Ok (tab (zlen v) (fun p => if p =? q then x else vnth v p), RBool (vnth v q)))
  | OToggle i q => spec_update w i (fun v =>
      _ ← CHECK (q <? zlen v);
      Ok (tab (zlen v) (fun p => if p =? q then negb (vnth v p) else vnth v p), RUnit))
  | OSetAll i x => spec_set w i (fun v => tab (zlen v) (fun _ => x))
  | OClear i => spec_set w i (fun v => tab (zlen v) (fun _ => false))
  | OSetRange i s e x => spec_set w i (fun v =>
      tab (zlen v) (fun q => if (s <=? q) && (q <? e) then x else vnth v q))
  | OResize i n x => spec_set w i (fun v =>
      tab n (fun q => if q <? zlen v then vnth v q else x))
  | OComplement i => spec_set w i (fun v => tab (zlen v) (fun q => negb (vnth v q)))
  | OUnion i j => spec_combine w i j false orb
  | OIntersection i j => spec_combine w i j false andb
  | ODifference i j => spec_combine w i j true (fun x y => x && negb y)
  | OExclusiveOr i j => spec_combine w i j true xorb
  | QGet i q => spec_query w i (fun v => _ ← CHECK (q <? zlen v); Ok (RBool (vnth v q)))
  | QIsAllZeroes i => spec_query w i (fun v => Ok (RBool (forallb negb v)))
  | QIsAllOnes i => spec_query w i (fun v => Ok (RBool (forallb id v)))
  | QOnes i s e => spec_query w i (fun v =>
      _ ← CHECK (e <=? zlen v); _ ← CHECK (s <=? e); Ok (RNum (cnt (vnth v) s e)))
  | QZeroes i s e => spec_query w i (fun v =>
      _ ← CHECK (e <=? zlen v); _ ← CHECK (s <=? e);
      Ok (RNum (cnt (fun q => negb (vnth v q)) s e)))
  | QTestRange i s e => spec_query w i (fun v =>
      Ok (RBool (existsb (vnth v) (seqZ s (e - s)))))
  | QIsEqual i j => spec_pair w i j false (fun v u => RBool (bool_decide (v = u)))
  | QIsSubsetOf i j => spec_pair w i j true (fun v u =>
      RBool (forallb (fun q => implb (vnth v q) (vnth u q)) (seqZ 0 (zlen v))))
  | QCompareTo i j => spec_pair w i j false (fun v u => RNum (compare_vec v u))
  | QIntersects i j => spec_pair w i j false (fun v u =>
      RBool (existsb (fun q => vnth v q && vnth u q) (seqZ 0 (zlen v))))
  | QHammingDistance i j => spec_pair w i j true (fun v u =>
      RNum (cnt (fun q => xorb (vnth v q) (vnth u q)) 0 (zlen v)))
  | QFindNextSet i q l => spec_query w i (fun v =>
      _ ← CHECK (l <=? zlen v); Ok (RFound (found_at (first_in (vnth v) q l) q)))
  | QFindNextUnset i q l => spec_query w i (fun v =>
      _ ← CHECK (l <=? zlen v);
      Ok (RFound (found_at (first_in (fun x => negb (vnth v x)) q l) q)))
  | QFindPreviousSet i q l => spec_query w i (fun v =>
      Ok (RFound (if zlen v <=? q then (false, q) else found_at (last_in (vnth v) l q) q)))
  | QFindPreviousUnset i q l => spec_query w i (fun v =>
      Ok (RFound (if zlen v <=? q then (false, q)
                  else found_at (last_in (fun x => negb (vnth v x)) l q) q)))
  | QFindFirst i => spec_query w i (fun v =>
      Ok (RFound (found_at (first_in (vnth v) 0 (zlen v)) 0)))
  | QFindLast i => spec_query w i (fun v =>
      let q := u64 (zlen v - 1) in Ok (RFound (found_at (last_in (vnth v) 0 (zlen v - 1)) q)))
  | QIndices i => spec_query w i (fun v =>
      Ok (RList (List.filter (vnth v) (seqZ 0 (zlen v)))))
  | QToString i => spec_query w i (fun v =>
      Ok (RList (text v)))
  | QToStringGroup i g => spec_query w i (fun v =>
      Ok (RList (if g <=? 0 then text v else grouped g (text v) 0 (zlen v))))
  end.

Fixpoint spec_run (w : list (list bool)) (l : list op) :
    outcome (list (list bool) * list result) :=
  match l with
  | [] => Ok (w, [])
  | o :: l => '(w, r) ← spec w o; '(w, rs) ← spec_run w l; Ok (w, r :: rs)
  end.

(** ** Preconditions

    Positions are not negative, sizes fit, the ranges of [SetRange] and [TestRange] are
    inside; an index of [Get], [Set] and [Toggle] is inside unless the build checks it.
    A span has fewer than 2^31 values, and [IsAllOnes] is not called on a bitmap of
    more than eight ones in words of type [char]. *)

Section legal.
Context `{BuildMode} (hardened : bool) (T : WordType).

Definition has (w : list (list bool)) (i : nat) : bool := Nat.ltb i (length w).
Definition len (w : list (list bool)) (i : nat) : Z := zlen (nth i w []).
Definition fits (n : Z) : bool := (0 <=? n) && (n <? 2 ^ 63).
Definition index_legal (w : list (list bool)) (i : nat) (q : Z) : bool :=
  has w i && (0 <=? q) && (hardened || negb NDEBUG || (q <? len w i)).

Definition legal (w : list (list bool)) (o : op) : bool :=
  match o with
  | ONew n _ => fits n
  | ONewDefault => true
  | ONewSpan l => zlen l <? 2 ^ 31
  | OSet i q _ | OToggle i q | QGet i q => index_legal w i q
  | OSetAll i _ | OClear i | OComplement i | QIsAllZeroes i | QFindFirst i | QFindLast i
  | QIndices i | QToString i => has w i
  | QIsAllOnes i =>
      has w i && negb (is_char T && (8 <? len w i) && forallb id (nth i w []))
  | QToStringGroup i g => has w i && (g <? 2 ^ 31)
  | OSetRange i s e _ | QTestRange i s e =>
      has w i && (0 <=? s) && (s <=? e) && (e <=? len w i)
  | OResize i n _ => has w i && fits n
  | OUnion i j | OIntersection i j | ODifference i j | OExclusiveOr i j
  | QIsEqual i j | QIsSubsetOf i j | QCompareTo i j | QIntersects i j
  | QHammingDistance i j => has w i && has w j
  | QOnes i s e | QZeroes i s e | QFindNextSet i s e | QFindNextUnset i s e
  | QFindPreviousSet i s e | QFindPreviousUnset i s e =>
      has w i && (0 <=? s) && (0 <=? e)
  end.

Fixpoint legal_run (w : list (list bool)) (l : list op) : bool :=
  match l with
  | [] => true
  | o :: l =>
      legal w o &&
      match spec w o with Ok (w, _) => legal_run w l | _ => true end
  end.
End legal.
