(* ===== verification/BitmapRun.v ===== *)
(** * Bitmaps refine lists of bits

    Every step of a program over bitmaps is the step of the abstract lists. *)
From Stdlib Require Import ZArith Lia Bool.
From stdpp Require Import base list numbers option.
From S2P Require Import Prelude.
From S2P Require Import Bitmap.
From S2P Require Import BitmapBits.
From S2P Require Import BitmapProps.
From S2P Require Import BitmapQueries.
From S2P Require Import BitmapOrder.
From S2P Require Import BitmapIter.
From S2P Require Import BitmapSpec.
Local Open Scope Z_scope.

(** ** Lists by position *)

Lemma zlen_tab n g : 0 <= n -> zlen (tab n g) = n.
Proof. intros. unfold zlen, tab. rewrite length_map, length_seqZ. lia. Qed.

Lemma vnth_tab n g q : 0 <= q < n -> vnth (tab n g) q = g q.
Proof.
  intros Hq. unfold vnth, tab. change (map g ?l) with (g <$> l).
  rewrite nth_lookup, list_lookup_fmap, lookup_seqZ_lt by lia. simpl. f_equal. lia.
Qed.

Lemma vnth_past v q : zlen v <= q -> vnth v q = false.
Proof. unfold zlen, vnth. intros Hq. apply nth_overflow. lia. Qed.

Lemma tab_ext n g g' : (forall q, 0 <= q < n -> g q = g' q) -> tab n g = tab n g'.
Proof.
  intros He. unfold tab. apply map_ext_in. intros q Hq%list_elem_of_In%elem_of_seqZ.
  apply He. lia.
Qed.

Lemma tab_vnth l : tab (zlen l) (vnth l) = l.
Proof.
  pose proof (zlen_nonneg l). pose proof (zlen_tab (zlen l) (vnth l)) as Hz.
  apply (nth_ext _ _ false false); [unfold zlen in *; lia|]. intros i Hi.
  pose proof (vnth_tab (zlen l) (vnth l) (Z.of_nat i)) as Hn. unfold vnth in Hn.
  rewrite Nat2Z.id in Hn. apply Hn. unfold zlen in *. lia.
Qed.

Lemma forallb_seqZ p a n : forallb p (seqZ a n) = true <-> forall q, a <= q < a + n -> p q = true.
Proof.
  rewrite forallb_forall. split; intros Hp q Hq; apply Hp.
  - apply list_elem_of_In, elem_of_seqZ. lia.
  - apply list_elem_of_In, elem_of_seqZ in Hq. lia.
Qed.

Lemma existsb_seqZ p a n :
  existsb p (seqZ a n) = false <-> forall q, a <= q < a + n -> p q = false.
Proof.
  split.
  - intros He q Hq. destruct (p q) eqn:E; [|reflexivity]. rewrite <- He. symmetry.
    apply existsb_exists. exists q. split; [|auto]. apply list_elem_of_In, elem_of_seqZ. lia.
  - intros Hp. destruct (existsb p (seqZ a n)) eqn:E; [|reflexivity].
    apply existsb_exists in E as (q & Hq%list_elem_of_In%elem_of_seqZ & Hpq).
    rewrite Hp in Hpq by lia. discriminate.
Qed.

Lemma forallb_tab (f : bool -> bool) n g :
  forallb f (tab n g) = true <-> forall q, 0 <= q < n -> f (g q) = true.
Proof.
  pose proof (forallb_seqZ (fun q => f (g q)) 0 n) as Hf. rewrite Z.add_0_l in Hf.
  rewrite <- Hf. unfold tab. clear Hf. induction (seqZ 0 n) as [|x l IH]; simpl; [reflexivity|].
  rewrite !andb_true_iff, IH. reflexivity.
Qed.

Lemma number_ext p p' n : (forall q, 0 <= q < Z.of_nat n -> p q = p' q) ->
  number p n = number p' n.
Proof.
  induction n as [|n IH]; intros He; simpl; [reflexivity|].
  rewrite IH, He by (intros; try apply He; lia). reflexivity.
Qed.

Lemma first_in_ext p p' a b : (forall q, a <= q < b -> p q = p' q) ->
  first_in p a b = first_in p' a b.
Proof.
  unfold first_in. intros He. remember (Z.to_nat (b - a)) as n eqn:En. revert a He En.
  induction n as [|n IH]; intros a He En; simpl; [reflexivity|]. rewrite He by lia.
  destruct (p' a); [reflexivity|]. apply IH; [intros; apply He; lia | lia].
Qed.

Lemma last_in_ext p p' a b : (forall q, a <= q <= b -> p q = p' q) ->
  last_in p a b = last_in p' a b.
Proof.
  unfold last_in. intros He. remember (Z.to_nat (b + 1 - a)) as n eqn:En. revert b He En.
  induction n as [|n IH]; intros b He En; simpl; [reflexivity|].
  replace (a + Z.of_nat n) with b by lia. rewrite He by lia.
  destruct (p' b); [reflexivity|]. apply (IH (b - 1)); [intros; apply He; lia | lia].
Qed.

Lemma bool_from_iff (r r' : bool) (P : Prop) : (r = true <-> P) -> (r' = true <-> P) -> r = r'.
Proof. intros H1 H2. apply eq_iff_eq_true. rewrite H1, H2. reflexivity. Qed.
Lemma bool_from_iff_false (r r' : bool) (P : Prop) :
  (r = false <-> P) -> (r' = false <-> P) -> r = r'.
Proof. destruct r, r'; intuition congruence. Qed.

(** ** The bits of a bitmap *)

Section refine.
Context `{HM : BuildMode} (hardened : bool) (T : WordType) (fresh : nat -> list Z).
Hypothesis fresh_ok : forall n, length (fresh n) = n /\ words_ok T (fresh n).

Definition vec (b : BasicBitmap) : list bool := tab (size_ b) (bit T b).
Definition abs (st : list BasicBitmap) : list (list bool) := map vec st.

Lemma size_nonneg b : bm_ok T b -> 0 <= size_ b < 2 ^ 63.
Proof. intros (Hs & _). exact Hs. Qed.
Lemma zlen_vec b : bm_ok T b -> zlen (vec b) = size_ b.
Proof. intros Hb%size_nonneg. apply zlen_tab. lia. Qed.
Lemma vnth_vec b q : 0 <= q < size_ b -> vnth (vec b) q = bit T b q.
Proof. intros. apply vnth_tab. auto. Qed.
Lemma vnth_bit0 b q : bm_ok T b -> 0 <= q -> vnth (vec b) q = bit0 T b q.
Proof.
  intros Hb Hq. unfold bit0. destruct (Z.ltb_spec q (size_ b)); simpl.
  - apply vnth_vec. lia.
  - apply vnth_past. rewrite zlen_vec by auto. lia.
Qed.

Lemma vec_of b n g : size_ b = n -> (forall q, 0 <= q < n -> bit T b q = g q) ->
  vec b = tab n g.
Proof. intros <- He. apply tab_ext. auto. Qed.
Lemma becomes_vec b b' g : becomes T b b' g -> vec b' = tab (size_ b) g.
Proof. intros (_ & Hs & Hb). apply vec_of; auto. Qed.

Lemma number_vec b : bm_ok T b -> number_of T b = number (vnth (vec b)) (length (vec b)).
Proof.
  intros Hb. pose proof (zlen_vec b Hb) as Hl. unfold zlen in Hl. unfold number_of.
  replace (length (vec b)) with (Z.to_nat (size_ b)) by lia. apply number_ext.
  intros q Hq. symmetry. apply vnth_vec. lia.
Qed.

(** ** Agreement of a step with its specification *)

Definition agree (m : outcome (list BasicBitmap * result))
    (s : outcome (list (list bool) * result)) : Prop :=
  match s with
  | Ok (w, r) => exists st, m = Ok (st, r) /\ Forall (bm_ok T) st /\ abs st = w
  | Crash => m = Crash
  | UB => False
  end.

Lemma get_abs st i : has (abs st) i = true -> Forall (bm_ok T) st -> exists b,
  get st i = Ok b /\ get (abs st) i = Ok (vec b) /\ bm_ok T b /\ len (abs st) i = size_ b.
Proof.
  unfold has, get, abs. rewrite length_map. intros Hi%Nat.ltb_lt Hf.
  destruct (lookup_lt_is_Some_2 st i Hi) as [b Hb]. exists b.
  pose proof (Forall_lookup_1 _ _ _ _ Hf Hb) as Hok. change (map vec st) with (vec <$> st).
  rewrite list_lookup_fmap, Hb. split_and!; auto. unfold len.
  rewrite <- (zlen_vec b Hok). f_equal. apply nth_lookup_Some.
  change (map vec st) with (vec <$> st). rewrite list_lookup_fmap, Hb. reflexivity.
Qed.

Lemma agree_new st m v : Forall (bm_ok T) st ->
  (exists b, m = Ok b /\ bm_ok T b /\ vec b = v) ->
  agree (new st m) (Ok (abs st ++ [v], RUnit)).
Proof.
  intros Hst (b & -> & Hb & <-). exists (st ++ [b]). split; [reflexivity|]. split.
  - apply Forall_app. auto.
  - unfold abs. rewrite map_app. reflexivity.
Qed.

(** What the operation on bitmap [b] must do for the one on its bits. *)
Definition implements (m : outcome (BasicBitmap * result))
    (s : outcome (list bool * result)) : Prop :=
  match s with
  | Ok (v, r) => exists b, m = Ok (b, r) /\ bm_ok T b /\ vec b = v
  | Crash => m = Crash
  | UB => False
  end.

Lemma agree_update st i f g b : Forall (bm_ok T) st -> get st i = Ok b ->
  get (abs st) i = Ok (vec b) -> implements (f b) (g (vec b)) ->
  agree (update st i f) (spec_update (abs st) i g).
Proof.
  intros Hst Hb Hv Hi. unfold update, spec_update. rewrite Hb, Hv, !bind_Ok.
  unfold implements in Hi. destruct (g (vec b)) as [[v r]| |]; [|rewrite Hi; reflexivity | done].
  destruct Hi as (b' & -> & Hb' & <-). eexists. split; [reflexivity|]. split.
  - apply Forall_insert; auto.
  - unfold abs. change (map vec ?l) with (vec <$> l). apply list_fmap_insert.
Qed.

Lemma implements_bits (m : outcome BasicBitmap) v n :
  (exists b, m = Ok b /\ bm_ok T b /\ size_ b = n /\ forall q, 0 <= q < n -> bit T b q = v q) ->
  implements (b' ← m; Ok (b', RUnit)) (Ok (tab n v, RUnit)).
Proof.
  intros (b & -> & Hb & Hs & Hv). exists b. split; [reflexivity|]. split; [auto|].
  apply vec_of; auto.
Qed.

Lemma agree_query {A} (R : A -> result) st i f g b : Forall (bm_ok T) st -> get st i = Ok b ->
  get (abs st) i = Ok (vec b) -> (a ← f b; Ok (R a)) = g (vec b) -> g (vec b) <> UB ->
  agree (query R st i f) (spec_query (abs st) i g).
Proof.
  intros Hst Hb Hv Hf Hub. unfold query, spec_query. rewrite Hb, Hv, !bind_Ok.
  rewrite <- Hf in *. destruct (f b) as [a| |]; simpl; [|reflexivity | done].
  exists st. auto.
Qed.

#[local] Abbreviation step := (step hardened T fresh).
#[local] Abbreviation legal := (legal hardened T).

Lemma hardening st i b q : index_legal hardened (abs st) i q = true -> len (abs st) i = size_ b ->
  has (abs st) i = true /\ 0 <= q /\
  HARDENING_ASSERT hardened (q <? size_ b) = CHECK (q <? size_ b).
Proof.
  unfold index_legal, HARDENING_ASSERT. intros Hl <-.
  apply andb_true_iff in Hl as [[Hi Hq]%andb_true_iff Hc]. split_and!; [auto | lia |].
  destruct (hardened || negb NDEBUG); [reflexivity|]. simpl in Hc. rewrite Hc. reflexivity.
Qed.

Lemma index_has st i q : index_legal hardened (abs st) i q = true -> has (abs st) i = true.
Proof. unfold index_legal. rewrite !andb_true_iff. intuition. Qed.

(** ** Operations that change one bitmap *)

Lemma step_new st o : Forall (bm_ok T) st -> legal (abs st) o = true ->
  match o with ONew _ _ | ONewDefault | ONewSpan _ => True | _ => False end ->
  agree (step st o) (spec (abs st) o).
Proof.
  intros Hst Hl Ho. destruct o; try done; simpl in Hl; apply (agree_new st _ _ Hst).
  - unfold fits in Hl. destruct (make_ok T fresh fresh_ok n v) as (b & Hb & Hok & Hs & Hv);
      [unfold size_ok; lia|]. exists b. split_and!; auto. apply vec_of; auto.
  - destruct (make_default_ok T fresh fresh_ok) as [Hb Hs]. eexists. split_and!; [reflexivity | auto |].
    unfold vec. rewrite Hs. reflexivity.
  - destruct (make_span_ok hardened T fresh fresh_ok l) as (b & Hb & Hok & Hs & Hv); [lia|].
    exists b. split_and!; auto. rewrite <- (tab_vnth l). apply vec_of; auto.
Qed.

Lemma step_bits st o : Forall (bm_ok T) st -> legal (abs st) o = true ->
  match o with OSet _ _ _ | OToggle _ _ | QGet _ _ => True | _ => False end ->
  agree (step st o) (spec (abs st) o).
Proof.
  intros Hst Hl Ho. destruct o; try done; simpl in Hl;
    destruct (get_abs st i (index_has _ _ _ Hl) Hst) as (b & Hg & Hv & Hb & Hlen);
    destruct (hardening st i b q Hl Hlen) as (_ & Hq & Hh).
  - eapply agree_update; eauto. simpl. rewrite zlen_vec by auto. unfold CHECK in *.
    destruct (Z.ltb_spec q (size_ b)).
    + destruct (Set_ok hardened T b q v Hb) as (b' & -> & Hb'); [lia|]. simpl. exists b'.
      rewrite vnth_vec by lia. split; [reflexivity|]. split; [apply Hb'|].
      rewrite (becomes_vec _ _ _ Hb'). apply tab_ext. intros p Hp. rewrite vnth_vec by auto.
      reflexivity.
    + unfold Set_. replace (q <? size_ b) with false by lia. rewrite Hh. reflexivity.
  - eapply agree_update; eauto. simpl. rewrite zlen_vec by auto. unfold CHECK in *.
    destruct (Z.ltb_spec q (size_ b)).
    + destruct (Toggle_ok hardened T b q Hb) as (b' & -> & Hb'); [lia|]. simpl. exists b'.
      split; [reflexivity|]. split; [apply Hb'|].
      rewrite (becomes_vec _ _ _ Hb'). apply tab_ext. intros p Hp. rewrite vnth_vec by auto.
      destruct (p =? q); [apply xorb_true_r | apply xorb_false_r].
    + unfold Toggle. replace (q <? size_ b) with false by lia. rewrite Hh. reflexivity.
  - eapply agree_query; eauto; simpl; rewrite zlen_vec by auto; unfold CHECK in *;
      destruct (Z.ltb_spec q (size_ b)); try discriminate.
    + rewrite Get_ok, vnth_vec by (auto; lia). reflexivity.
    + unfold Get. replace (q <? size_ b) with false by lia. rewrite Hh. reflexivity.
Qed.

(** An operation whose result has the bits [g]. *)
Lemma implements_set b (m : outcome BasicBitmap) g g' : bm_ok T b ->
  (exists b', m = Ok b' /\ becomes T b b' g) ->
  (forall q, 0 <= q < size_ b -> g q = g' q) ->
  implements (b' ← m; Ok (b', RUnit)) (Ok (tab (zlen (vec b)) g', RUnit)).
Proof.
  intros Hb (b' & -> & Hb') Hg. exists b'. split; [reflexivity|]. split; [apply Hb'|].
  rewrite (becomes_vec _ _ _ Hb'), zlen_vec by auto. apply tab_ext. auto.
Qed.

Lemma step_ranges st o : Forall (bm_ok T) st -> legal (abs st) o = true ->
  match o with OSetAll _ _ | OClear _ | OSetRange _ _ _ _ | OResize _ _ _ | OComplement _ => True
  | _ => False end ->
  agree (step st o) (spec (abs st) o).
Proof.
  intros Hst Hl Ho. destruct o; try done; simpl in Hl;
    (assert (Hi : has (abs st) i = true) by (rewrite ?andb_true_iff in Hl; tauto));
    destruct (get_abs st i Hi Hst) as (b & Hg & Hv & Hb & Hlen);
    (eapply agree_update; [eauto | eauto | eauto |]).
  - eapply implements_set; [auto | apply SetAll_ok; apply Hb | auto].
  - eapply implements_set; [auto | apply SetAll_ok; apply Hb | auto].
  - rewrite Hlen in Hl. eapply implements_set; [auto | apply SetRange_ok; auto; lia |].
    intros q Hq. simpl. rewrite vnth_vec by auto. reflexivity.
  - unfold fits in Hl. apply implements_bits.
    destruct (Resize_ok T fresh fresh_ok b n v Hb) as (b' & -> & Hb' & Hs & Hbit);
      [unfold size_ok; lia|]. exists b'. split_and!; auto. intros q Hq. rewrite Hbit by auto.
    rewrite zlen_vec by auto. case_test; [rewrite vnth_vec by lia|]; reflexivity.
  - eapply implements_set; [auto | apply Complement_ok; auto |].
    intros q Hq. simpl. rewrite vnth_vec by auto. reflexivity.
Qed.

(** ** Two bitmaps *)

Lemma get_nth (w : list (list bool)) i v : get w i = Ok v -> nth i w [] = v.
Proof. unfold get. rewrite nth_lookup. by destruct (w !! i); intros [=]. Qed.

Lemma get_pair st i j : has (abs st) i && has (abs st) j = true -> Forall (bm_ok T) st ->
  exists b o, get st i = Ok b /\ get (abs st) i = Ok (vec b) /\ bm_ok T b /\
    get st j = Ok o /\ get (abs st) j = Ok (vec o) /\ bm_ok T o.
Proof.
  intros [Hi Hj]%andb_true_iff Hst.
  destruct (get_abs st i Hi Hst) as (b & Hb & Hb' & Hok & _).
  destruct (get_abs st j Hj Hst) as (o & Ho & Ho' & Hok' & _). eauto 10.
Qed.

Lemma same_size b o (same : bool) : bm_ok T b -> bm_ok T o ->
  CHECK (negb same || (zlen (vec b) =? zlen (vec o))) =
  CHECK (negb same || (size_ b =? size_ o)).
Proof. intros Hb Ho. rewrite !zlen_vec by auto. reflexivity. Qed.

Lemma step_combine st o : Forall (bm_ok T) st -> legal (abs st) o = true ->
  match o with OUnion _ _ | OIntersection _ _ | ODifference _ _ | OExclusiveOr _ _ => True
  | _ => False end ->
  agree (step st o) (spec (abs st) o).
Proof.
  intros Hst Hl Ho. destruct o as [| | | | | | | | | |i j|i j|i j|i j| | | | | | | | | | | | | | | | | | | |];
    try done; simpl in Hl;
    destruct (get_pair st i j Hl Hst) as (b & c & Hg & Hv & Hb & Hg' & Hv' & Hb');
    (eapply agree_update; [eauto | eauto | eauto |]); unfold with_;
    rewrite Hg', Hv', !bind_Ok, same_size by auto; simpl.
  - eapply implements_set; [auto | apply Union_ok; auto |].
    intros q Hq. simpl. rewrite vnth_vec, vnth_bit0 by (auto; lia). reflexivity.
  - eapply implements_set; [auto | apply Intersection_ok; auto |].
    intros q Hq. simpl. rewrite vnth_vec, vnth_bit0 by (auto; lia). reflexivity.
  - unfold CHECK. destruct (Z.eqb_spec (size_ b) (size_ c)) as [E|E].
    + eapply implements_set; [auto | apply Difference_ok; auto |].
      intros q Hq. simpl. rewrite !vnth_vec by lia. reflexivity.
    + unfold Difference, CHECK. replace (size_ b =? size_ c) with false by lia. reflexivity.
  - unfold CHECK. destruct (Z.eqb_spec (size_ b) (size_ c)) as [E|E].
    + eapply implements_set; [auto | apply ExclusiveOr_ok; auto |].
      intros q Hq. simpl. rewrite !vnth_vec by lia. reflexivity.
    + unfold ExclusiveOr, CHECK. replace (size_ b =? size_ c) with false by lia. reflexivity.
Qed.

Lemma vec_eq b o : bm_ok T b -> bm_ok T o ->
  vec b = vec o <-> size_ b = size_ o /\ forall q, 0 <= q < size_ b -> bit T b q = bit T o q.
Proof.
  intros Hb Ho. split.
  - intros He. pose proof (f_equal zlen He) as Hs. rewrite !zlen_vec in Hs by auto.
    split; [auto|]. intros q Hq. rewrite <- !vnth_vec by lia. rewrite He. reflexivity.
  - intros [Hs He]. unfold vec. rewrite <- Hs. apply tab_ext. auto.
Qed.

Lemma IsEqual_vec b o : bm_ok T b -> bm_ok T o ->
  IsEqual T b o = Ok (bool_decide (vec b = vec o)).
Proof.
  intros Hb Ho. destruct (IsEqual_ok T b o Hb Ho) as (r & -> & Hr). f_equal.
  apply (bool_from_iff _ _ _ Hr). rewrite bool_decide_eq_true. apply vec_eq; auto.
Qed.

Lemma IsSubsetOf_vec b o : bm_ok T b -> bm_ok T o -> size_ b = size_ o ->
  IsSubsetOf T b o =
  Ok (forallb (fun q => implb (vnth (vec b) q) (vnth (vec o) q)) (seqZ 0 (size_ b))).
Proof.
  intros Hb Ho E. destruct (IsSubsetOf_ok T b o Hb Ho E) as (r & -> & Hr). f_equal.
  apply (bool_from_iff _ _ _ Hr). rewrite forallb_seqZ.
  split; intros Hq q Hr'; specialize (Hq q ltac:(lia)); rewrite !vnth_vec in * by lia;
    destruct (bit T b q), (bit T o q); done.
Qed.

Lemma Intersects_vec b o : bm_ok T b -> bm_ok T o ->
  IsIntersectionNonEmpty T b o =
  Ok (existsb (fun q => vnth (vec b) q && vnth (vec o) q) (seqZ 0 (size_ b))).
Proof.
  intros Hb Ho. destruct (IsIntersectionNonEmpty_ok T b o Hb Ho) as (r & -> & Hr). f_equal.
  apply (bool_from_iff_false _ _ _ Hr). rewrite existsb_seqZ. split.
  - intros Hq q Hr'. destruct (Z.lt_ge_cases q (size_ b)).
    + specialize (Hq q ltac:(lia)). rewrite !vnth_bit0 in Hq by (auto; lia). exact Hq.
    + unfold bit0 at 1. replace (q <? size_ b) with false by lia. reflexivity.
  - intros Hq q Hr'. rewrite !vnth_bit0 by (auto; lia). apply Hq. lia.
Qed.

Lemma CompareTo_vec b o : bm_ok T b -> bm_ok T o ->
  CompareTo T b o = Ok (compare_vec (vec b) (vec o)).
Proof.
  intros Hb Ho. rewrite CompareTo_ok by auto. unfold compare_vec.
  rewrite <- !number_vec, !zlen_vec by auto. reflexivity.
Qed.

Lemma Hamming_vec b o : bm_ok T b -> bm_ok T o -> size_ b = size_ o ->
  HammingDistance T b o =
  Ok (cnt (fun q => xorb (vnth (vec b) q) (vnth (vec o) q)) 0 (size_ b)).
Proof.
  intros Hb Ho E. rewrite HammingDistance_ok by auto. f_equal. apply cnt_ext. intros q Hq.
  rewrite !vnth_vec by lia. reflexivity.
Qed.

Lemma step_pairs st o : Forall (bm_ok T) st -> legal (abs st) o = true ->
  match o with QIsEqual _ _ | QIsSubsetOf _ _ | QCompareTo _ _ | QIntersects _ _
  | QHammingDistance _ _ => True | _ => False end ->
  agree (step st o) (spec (abs st) o).
Proof.
  intros Hst Hl Ho. destruct o as [| | | | | | | | | | | | | | | | | | | |i j|i j|i j|i j|i j| | | | | | | | |];
    try done; simpl in Hl;
    destruct (get_pair st i j Hl Hst) as (b & c & Hg & Hv & Hb & Hg' & Hv' & Hb');
    (eapply agree_query; [eauto | eauto | eauto | |]); unfold with_;
    rewrite ?Hg', Hv', ?bind_Ok, same_size by auto; simpl; try done.
  - rewrite IsEqual_vec by auto. reflexivity.
  - unfold CHECK. destruct (Z.eqb_spec (size_ b) (size_ c)) as [E|E].
    + rewrite IsSubsetOf_vec, zlen_vec by auto. reflexivity.
    + unfold IsSubsetOf, CHECK. replace (size_ b =? size_ c) with false by lia. reflexivity.
  - unfold CHECK. destruct (size_ b =? size_ c); done.
  - rewrite CompareTo_vec by auto. reflexivity.
  - rewrite Intersects_vec, zlen_vec by auto. reflexivity.
  - unfold CHECK. destruct (Z.eqb_spec (size_ b) (size_ c)) as [E|E].
    + rewrite Hamming_vec, zlen_vec by auto. reflexivity.
    + unfold HammingDistance, CHECK. replace (size_ b =? size_ c) with false by lia. reflexivity.
  - unfold CHECK. destruct (size_ b =? size_ c); done.
Qed.

(** ** Tests and counts *)

Lemma IsAllZeroes_vec b : bm_ok T b -> IsAllZeroes T b = Ok (forallb negb (vec b)).
Proof.
  intros Hb. destruct (IsAllZeroes_ok T b Hb) as (r & -> & Hr). f_equal.
  apply (bool_from_iff _ _ _ Hr). unfold vec. rewrite forallb_tab.
  split; intros Hq q Hr'; apply negb_true_iff, Hq; auto.
Qed.

Lemma IsAllOnes_vec b : bm_ok T b ->
  is_char T && (8 <? size_ b) && forallb id (vec b) = false -> IsAllOnes T b = Ok (forallb id (vec b)).
Proof.
  intros Hb HT. destruct (IsAllOnes_ok T b Hb) as (r & -> & Hr).
  { intros (Hc & Hs & Ho). apply (proj2 (Z.ltb_lt _ _)) in Hs.
    rewrite Hs, Hc in HT. simpl in HT. apply not_true_iff_false in HT. apply HT.
    unfold vec. rewrite forallb_tab. exact Ho. }
  f_equal.
  apply (bool_from_iff _ _ _ Hr). unfold vec. rewrite forallb_tab. reflexivity.
Qed.

Lemma TestRange_vec b s e : bm_ok T b -> 0 <= s <= e -> e <= size_ b ->
  TestRange T b s e = Ok (existsb (vnth (vec b)) (seqZ s (e - s))).
Proof.
  intros Hb Hse He. destruct (TestRange_ok T b s e Hb Hse He) as (r & -> & Hr). f_equal.
  apply (bool_from_iff_false _ _ _ Hr). rewrite existsb_seqZ.
  split; intros Hq q Hr'; specialize (Hq q ltac:(lia)); rewrite vnth_vec in * by lia; auto.
Qed.

(** Counting, with its two checks. *)
Lemma ones_vec b s e : bm_ok T b -> 0 <= s -> 0 <= e ->
  GetOnesCountInRange T b s e =
  (_ ← CHECK (e <=? zlen (vec b)); _ ← CHECK (s <=? e); Ok (cnt (vnth (vec b)) s e)).
Proof.
  intros Hb Hs He. rewrite zlen_vec by auto. unfold CHECK.
  destruct (Z.leb_spec e (size_ b)) as [H1|H1]; [destruct (Z.leb_spec s e) as [H2|H2]|].
  - rewrite GetOnesCountInRange_ok by (auto; lia). simpl. f_equal. apply cnt_ext. intros q Hq.
    rewrite vnth_vec by lia. reflexivity.
  - unfold GetOnesCountInRange, CHECK. replace (e <=? size_ b) with true by lia.
    replace (s <=? e) with false by lia. reflexivity.
  - unfold GetOnesCountInRange, CHECK. replace (e <=? size_ b) with false by lia. reflexivity.
Qed.

Lemma zeroes_vec b s e : bm_ok T b -> 0 <= s -> 0 <= e ->
  GetZeroesCountInRange T b s e =
  (_ ← CHECK (e <=? zlen (vec b)); _ ← CHECK (s <=? e);
   Ok (cnt (fun q => negb (vnth (vec b) q)) s e)).
Proof.
  intros Hb Hs He. unfold GetZeroesCountInRange. rewrite ones_vec by auto.
  rewrite zlen_vec by auto. pose proof (size_nonneg b Hb). unfold CHECK.
  destruct (Z.leb_spec e (size_ b)); [|reflexivity]. destruct (Z.leb_spec s e); [|reflexivity].
  simpl. f_equal. pose proof (cnt_range (vnth (vec b)) s e ltac:(lia)).
  rewrite (u64_small (e - s)), u64_small by lia. unfold cnt in *. rewrite count_neg. lia.
Qed.

Lemma ToString_vec b : bm_ok T b -> ToString T b = Ok (text (vec b)).
Proof. intros Hb. rewrite ToString_ok by auto. unfold text, vec, tab. rewrite map_map. reflexivity. Qed.
Lemma zlen_text b : bm_ok T b -> zlen (text (vec b)) = size_ b.
Proof.
  intros Hb. rewrite <- (zlen_vec b Hb). unfold zlen, text. rewrite length_map. reflexivity.
Qed.

Lemma step_queries st o : Forall (bm_ok T) st -> legal (abs st) o = true ->
  match o with QIsAllZeroes _ | QIsAllOnes _ | QOnes _ _ _ | QZeroes _ _ _ | QTestRange _ _ _
  | QIndices _ | QToString _ | QToStringGroup _ _ => True | _ => False end ->
  agree (step st o) (spec (abs st) o).
Proof.
  intros Hst Hl Ho. destruct o; try done; simpl in Hl;
    (assert (Hi : has (abs st) i = true) by (rewrite ?andb_true_iff in Hl; tauto));
    destruct (get_abs st i Hi Hst) as (b & Hg & Hv & Hb & Hlen);
    (eapply agree_query; [eauto | eauto | eauto | |]); try done;
    rewrite ?andb_true_iff, ?Hlen in Hl; rewrite ?zlen_vec by auto.
  - rewrite IsAllZeroes_vec by auto. reflexivity.
  - rewrite IsAllOnes_vec; [reflexivity | auto |]. destruct Hl as [_ Hl%negb_true_iff].
    rewrite <- (get_nth _ _ _ Hv). exact Hl.
  - rewrite ones_vec, zlen_vec by (auto; lia). unfold CHECK.
    destruct (e <=? size_ b), (s <=? e); reflexivity.
  - unfold CHECK. destruct (e <=? size_ b), (s <=? e); done.
  - rewrite zeroes_vec, zlen_vec by (auto; lia). unfold CHECK.
    destruct (e <=? size_ b), (s <=? e); reflexivity.
  - unfold CHECK. destruct (e <=? size_ b), (s <=? e); done.
  - rewrite TestRange_vec by (auto; lia). reflexivity.
  - rewrite TrueBitIndices_ok by auto. simpl. unfold trues. rewrite Z.sub_0_r. do 2 f_equal.
    apply List.filter_ext_in. intros q Hq%list_elem_of_In%elem_of_seqZ.
    symmetry. apply vnth_vec. lia.
  - rewrite ToString_vec by auto. reflexivity.
  - rewrite ToString_group_ok, ToString_vec by (auto; lia). simpl.
    replace (zlen (text (vec b))) with (size_ b) by (symmetry; apply zlen_text; auto).
    reflexivity.
Qed.

(** ** Searches *)

(** Set bits for [c = false], unset bits for [c = true]. *)
Lemma find_next_vec c b s l : bm_ok T b -> 0 <= s -> l <= size_ b ->
  FindNextBitInVector T c (map_ b) s l =
  Ok (found_at (first_in (fun q => xorb c (vnth (vec b) q)) s l) s).
Proof.
  intros Hb Hs Hl. rewrite FindNext_bitmap by auto. do 2 f_equal. apply first_in_ext.
  intros q Hq. rewrite vnth_vec by lia. reflexivity.
Qed.

Lemma find_previous_vec c b s l : bm_ok T b -> 0 <= s -> 0 <= l ->
  (if size_ b <=? s then Ok (false, s) else FindPreviousBitInVector T c (map_ b) s l) =
  Ok (if zlen (vec b) <=? s then (false, s)
      else found_at (last_in (fun q => xorb c (vnth (vec b) q)) l s) s).
Proof.
  intros Hb Hs Hl. rewrite zlen_vec by auto. case_test; [reflexivity|].
  rewrite FindPrevious_bitmap by (auto; lia). do 2 f_equal. apply last_in_ext.
  intros q Hq. rewrite vnth_vec by lia. reflexivity.
Qed.

Lemma find_last_vec b : bm_ok T b -> FindLastSetBit T b =
  Ok (found_at (last_in (vnth (vec b)) 0 (zlen (vec b) - 1)) (u64 (zlen (vec b) - 1))).
Proof.
  intros Hb. unfold FindLastSetBit, FindPreviousSetBitBeforeLimit.
  pose proof (size_nonneg b Hb). rewrite zlen_vec by auto.
  destruct (Z.eqb_spec (size_ b) 0) as [E|E].
  - rewrite E. reflexivity.
  - rewrite u64_small, find_previous_vec, zlen_vec by (auto; lia).
    replace (size_ b <=? size_ b - 1) with false by lia. do 2 f_equal.
Qed.

Lemma step_finds st o : Forall (bm_ok T) st -> legal (abs st) o = true ->
  match o with QFindNextSet _ _ _ | QFindNextUnset _ _ _ | QFindPreviousSet _ _ _
  | QFindPreviousUnset _ _ _ | QFindFirst _ | QFindLast _ => True | _ => False end ->
  agree (step st o) (spec (abs st) o).
Proof.
  intros Hst Hl Ho. destruct o; try done; simpl in Hl;
    (assert (Hi : has (abs st) i = true) by (rewrite ?andb_true_iff in Hl; tauto));
    destruct (get_abs st i Hi Hst) as (b & Hg & Hv & Hb & Hlen);
    (eapply agree_query; [eauto | eauto | eauto | |]); try done;
    unfold FindFirstSetBit, FindNextSetBit, FindNextSetBitBeforeLimit,
      FindNextUnsetBitBeforeLimit, FindPreviousSetBitBeforeLimit,
      FindPreviousUnsetBitBeforeLimit;
    rewrite ?find_previous_vec, ?find_last_vec by (auto; lia); try reflexivity;
    rewrite zlen_vec by auto; unfold CHECK.
  - destruct (Z.leb_spec l (size_ b)); [|reflexivity]. simpl.
    rewrite find_next_vec by (auto; lia). reflexivity.
  - destruct (l <=? size_ b); done.
  - destruct (Z.leb_spec l (size_ b)); [|reflexivity]. simpl.
    rewrite find_next_vec by (auto; lia). reflexivity.
  - destruct (l <=? size_ b); done.
  - rewrite Z.leb_refl. simpl. rewrite find_next_vec by (auto; lia). reflexivity.
Qed.

Lemma bitmap_step_ok st o : Forall (bm_ok T) st -> legal (abs st) o = true ->
  agree (step st o) (spec (abs st) o).
Proof.
  intros Hst Hl. destruct o;
    first [ apply step_new; done | apply step_bits; done | apply step_ranges; done
          | apply step_combine; done | apply step_pairs; done | apply step_queries; done
          | apply step_finds; done ].
Qed.

(** ** Programs *)

Lemma bitmap_run_ok l : forall st, Forall (bm_ok T) st ->
  legal_run hardened T (abs st) l = true ->
  match spec_run (abs st) l with
  | Ok (w, rs) => exists st', run hardened T fresh st l = Ok (st', rs) /\ abs st' = w
  | Crash => run hardened T fresh st l = Crash
  | UB => False
  end.
Proof.
  induction l as [|o l IH]; intros st Hst Hl; simpl; [eauto|].
  simpl in Hl. apply andb_true_iff in Hl as [Ho Hl].
  pose proof (bitmap_step_ok st o Hst Ho) as Ha. unfold agree in Ha.
  destruct (spec (abs st) o) as [[w r]| |]; simpl; [|rewrite Ha; reflexivity | done].
  destruct Ha as (st' & -> & Hst' & <-). simpl. specialize (IH st' Hst' Hl).
  destruct (spec_run (abs st') l) as [[w rs]| |]; simpl; [|rewrite IH; reflexivity | done].
  destruct IH as (st2 & -> & <-). simpl. eauto.
Qed.
End refine.

(** C17. Every program over bitmaps that keeps the documented preconditions, in any build,
    for any type of words and whatever new memory holds, does what the same operations do
    to lists of bits, provided that it keeps three more conditions ([legal]): no bitmap is
    built from a span of 2^31 values or more (the count is an [int]), [IsAllOnes] is not
    called on a bitmap of more than eight ones in words of a signed [char]
    (where it is wrong, [IsAllOnes_signed_char]), and no bitmap has 2^63 bits or more.
    The operations: single bits, ranges, sizes, unions, intersections, differences,
    comparisons, counts, searches in both directions, the list of the set bits and the
    text.  It never accesses memory outside the words of a bitmap, and it dies exactly
    when the sizes, ranges or limits fail a check. *)
Theorem Bitmaps_refine_bit_lists (HM : BuildMode) (hardened : bool) (T : WordType)
    (fresh : nat -> list Z) (l : list op) :
  (forall n, length (fresh n) = n /\ words_ok T (fresh n)) ->
  legal_run hardened T [] l = true ->
  match spec_run [] l with
  | Ok (w, rs) => exists st, run hardened T fresh [] l = Ok (st, rs) /\ map (vec T) st = w
  | Crash => run hardened T fresh [] l = Crash
  | UB => False
  end.
Proof. intros Hf Hl. apply (bitmap_run_ok hardened T fresh Hf l []); auto. Qed.

(** New memory full of a pattern. *)
Definition pattern (n : nat) : list Z := replicate n 165.

Lemma pattern_ok T n : T <> WChar -> length (pattern n) = n /\ words_ok T (pattern n).
Proof.
  intros HT. split; [apply length_replicate|]. apply Forall_replicate. intros j Hj.
  pose proof (K_range T). rewrite (testbit_small 165 8 j) by lia. destruct T; done.
Qed.

Definition sample : list op :=
  [ONew 20 false; OSetRange 0 3 17 true; ONewSpan [true; false; true]; OSet 0 5 false;
   QFindNextSet 0 4 20; QFindPreviousUnset 0 16 0; OUnion 1 0; QIndices 1; QCompareTo 1 0;
   OResize 1 12 true; QOnes 1 0 12; QToString 1; QToStringGroup 0 8;
   QIntersects 0 1; QFindLast 0;
   OExclusiveOr 0 0; QIsAllZeroes 0].

Lemma Bitmaps_refine_bit_lists_witness :
  @legal_run opt_build false WU8 [] sample = true /\
  (exists st rs, @run opt_build false WU8 pattern [] sample = Ok (st, rs)) /\
  @run opt_build false WU8 pattern [] (sample ++ [ODifference 0 1]) = Crash.
Proof.
  split; [reflexivity|]. split.
  - destruct (Bitmaps_refine_bit_lists opt_build false WU8 pattern sample
      (fun n => pattern_ok WU8 n ltac:(discriminate)) eq_refl) as (st & Hr & _). eauto.
  - exact (Bitmaps_refine_bit_lists opt_build false WU8 pattern (sample ++ [ODifference 0 1])
      (fun n => pattern_ok WU8 n ltac:(discriminate)) eq_refl).
Defined.

(** The order of pairs, by the first components and then by the second ones. *)
Definition lex (n s n' s' : Z) : Z := let c := cmpz n n' in if c =? 0 then cmpz s s' else c.

Lemma lex_cases n s n' s' :
  n < n' /\ lex n s n' s' = -1 \/ n' < n /\ lex n s n' s' = 1 \/
  n = n' /\ (s < s' /\ lex n s n' s' = -1 \/ s' < s /\ lex n s n' s' = 1 \/
             s = s' /\ lex n s n' s' = 0).
Proof.
  unfold lex, cmpz. destruct (Z.compare_spec n n'), (Z.compare_spec s s'); simpl; lia.
Qed.

Lemma CompareTo_lex `{BuildMode} T a b : bm_ok T a -> bm_ok T b ->
  CompareTo T a b = Ok (lex (number_of T a) (size_ a) (number_of T b) (size_ b)).
Proof. apply CompareTo_ok. Qed.

(** Equal numbers have equal bits. *)
Lemma number_of_eq T b o : bm_ok T b -> bm_ok T o -> size_ b = size_ o ->
  number_of T b = number_of T o <-> forall q, 0 <= q < size_ b -> bit T b q = bit T o q.
Proof.
  intros Hb Ho Hs. split.
  - intros Hn q Hq. apply (f_equal (fun v => Z.testbit v q)) in Hn.
    rewrite !testbit_number_of in Hn by (apply Hb || apply Ho || lia). unfold bit0 in Hn.
    rewrite <- Hs in Hn. replace (q <? size_ b) with true in Hn by lia. exact Hn.
  - intros He. unfold number_of. rewrite <- Hs. apply number_ext. intros q Hq. apply He. lia.
Qed.

(** [CompareTo] is a total order on bitmaps: it returns -1, 0 or 1, swapping the
    arguments negates it, it is 0 exactly for bitmaps that [IsEqual] finds equal, and it
    is transitive. *)
Theorem CompareTo_total_order (HM : BuildMode) (T : WordType) (a b c : BasicBitmap) :
  bm_ok T a -> bm_ok T b -> bm_ok T c ->
  exists ab bc ac e, CompareTo T a b = Ok ab /\ CompareTo T b c = Ok bc /\
    CompareTo T a c = Ok ac /\ -1 <= ab <= 1 /\
    CompareTo T b a = Ok (- ab) /\
    IsEqual T a b = Ok e /\ (ab = 0 <-> e = true) /\
    (ab <= 0 -> bc <= 0 -> ac <= 0) /\ (ab < 0 -> bc <= 0 -> ac < 0).
Proof.
  intros Ha Hb Hc. rewrite !CompareTo_lex by auto.
  destruct (IsEqual_ok T a b Ha Hb) as (e & -> & He).
  pose proof (number_of_eq T a b Ha Hb) as Hn.
  pose proof (lex_cases (number_of T a) (size_ a) (number_of T b) (size_ b)) as H1.
  pose proof (lex_cases (number_of T b) (size_ b) (number_of T c) (size_ c)) as H2.
  pose proof (lex_cases (number_of T a) (size_ a) (number_of T c) (size_ c)) as H3.
  pose proof (lex_cases (number_of T b) (size_ b) (number_of T a) (size_ a)) as H4.
  do 3 eexists. exists e. do 3 (split; [reflexivity|]). split_and!; try lia; try done.
  - f_equal. lia.
  - rewrite He. split.
    + intros Hz. split; [lia|]. apply Hn; lia.
    + intros [Hs Hb']. apply Hn in Hb'; lia.
Qed.

Lemma CompareTo_total_order_witness :
  exists a b, make WU8 pattern 9 true = Ok a /\ make WU8 pattern 20 true = Ok b /\
  exists ab ba bb e, CompareTo WU8 a b = Ok ab /\ CompareTo WU8 b a = Ok ba /\
    CompareTo WU8 a a = Ok bb /\ -1 <= ab <= 1 /\ CompareTo WU8 b a = Ok (- ab) /\
    IsEqual WU8 a b = Ok e /\ (ab = 0 <-> e = true).
Proof.
  destruct (make_ok WU8 pattern (fun n => pattern_ok WU8 n ltac:(discriminate)) 9 true)
    as (a & Ha & Hoka & _); [unfold size_ok; lia|].
  destruct (make_ok WU8 pattern (fun n => pattern_ok WU8 n ltac:(discriminate)) 20 true)
    as (b & Hb & Hokb & _); [unfold size_ok; lia|].
  exists a, b. split; [exact Ha|]. split; [exact Hb|].
  destruct (CompareTo_total_order opt_build WU8 a b a Hoka Hokb Hoka)
    as (ab & ba & aa & e & H1 & H2 & H3 & H4 & H5 & H6 & H7 & _).
  exists ab, ba, aa, e. auto 10.
Defined.
