(* ===== verification/BitmapOwn.v ===== *)
(** * Bitmaps: ownership of the words

    [util/bitmap/bitmap.h], the members [map_], [size_] and [alloc_]: constructors, the
    destructor, assignment and [Resize] over a heap of arrays of words, which several
    bitmaps may share.  An array is lent by the caller ([External]), was allocated by a
    bitmap ([Owned]), or has been deleted.  Deleting is undefined for an array that was
    not allocated, was deleted before, or has another size than the one given. *)
From Stdlib Require Import ZArith Lia Bool.
From stdpp Require Import base list numbers option.
From S2P Require Import Prelude.
From S2P Require Import Bitmap.
From S2P Require Import BitmapBits.
From S2P Require Import BitmapProps.
Local Open Scope Z_scope.

Inductive block : Type :=
  | External (words : list Z)
  | Owned (words : list Z)
  | Freed.

Abbreviation heap := (list block).

Record handle : Type := mkHandle { h_map : nat; h_size : Z; alloc_ : bool }.

Section own.
Context `{BuildMode} (hardened : bool) (T : WordType) (fresh : nat -> list Z).
#[local] Abbreviation R := (RequiredArraySize T).

(** ** Memory *)

Definition block_words (h : heap) (p : nat) : outcome (list Z) :=
  match h !! p with
  | Some (External m) | Some (Owned m) => Ok m
  | _ => UB
  end.
Definition set_words (h : heap) (p : nat) (m : list Z) : outcome heap :=
  match h !! p with
  | Some (External _) => Ok (<[p := External m]> h)
  | Some (Owned _) => Ok (<[p := Owned m]> h)
  | _ => UB
  end.

(** [new W[n]] and [DeleteMap(map, n)]. *)
Definition new_map (h : heap) (n : Z) : heap * nat :=
  (h ++ [Owned (new_words fresh n)], length h).
Definition DeleteMap (h : heap) (p : nat) (n : Z) : outcome heap :=
  match h !! p with
  | Some (Owned m) => if zlen m =? n then Ok (<[p := Freed]> h) else UB
  | _ => UB
  end.

(** [std::copy(map_ + 0, map_ + n, to)] between different arrays. *)
Definition copy_words (h : heap) (from to : nat) (n : Z) : outcome heap :=
  m ← block_words h from;
  k ← block_words h to;
  if (n <=? zlen m) && (n <=? zlen k) then
    set_words h to (take (Z.to_nat n) m ++ drop (Z.to_nat n) k)
  else UB.

(** An operation of [Bitmap] on the words of a bitmap. *)
Definition load (h : heap) (a : handle) : outcome BasicBitmap :=
  m ← block_words h (h_map a); Ok (mkBitmap m (h_size a)).
Definition in_place {A} (h : heap) (a : handle) (f : BasicBitmap -> outcome (BasicBitmap * A)) :
    outcome (heap * A) :=
  b ← load h a;
  '(b, r) ← f b;
  h ← set_words h (h_map a) (map_ b);
  Ok (h, r).
Definition in_place0 (h : heap) (a : handle) (f : BasicBitmap -> outcome BasicBitmap) :
    outcome heap :=
  '(h, _) ← in_place h a (fun b => b ← f b; Ok (b, tt)); Ok h.

(** ** Special members *)

Definition h_array_size (a : handle) : Z := R (h_size a).

Definition construct (h : heap) (size : Z) (fill : bool) : outcome (heap * handle) :=
  let '(h, p) := new_map h (R size) in
  let a := mkHandle p size true in
  h ← in_place0 h a (fun b => SetAll T b fill);
  Ok (h, a).
Definition borrow (p : nat) (size : Z) : handle := mkHandle p size false.

Definition copy_construct (h : heap) (src : handle) : outcome (heap * handle) :=
  if alloc_ src then
    let '(h, p) := new_map h (h_array_size src) in
    h ← copy_words h (h_map src) p (h_array_size src);
    Ok (h, mkHandle p (h_size src) true)
  else Ok (h, mkHandle (h_map src) (h_size src) false).

(** The new bitmap and what [src] becomes. *)
Definition construct_move (src : handle) : handle * handle :=
  (mkHandle (h_map src) (h_size src) (alloc_ src), mkHandle (h_map src) (h_size src) false).

Definition destroy (h : heap) (a : handle) : outcome heap :=
  if alloc_ a then DeleteMap h (h_map a) (h_array_size a) else Ok h.

(** [*this = src] of two objects. *)
Definition assign (h : heap) (a src : handle) : outcome (heap * handle) :=
  '(h, p) ← (if alloc_ a && negb (h_array_size a =? h_array_size src) then
               h ← DeleteMap h (h_map a) (h_array_size a);
               Ok (new_map h (h_array_size src))
             else Ok (h, h_map a));
  if alloc_ src then
    let '(h, p) := if alloc_ a then (h, p) else new_map h (h_array_size src) in
    h ← copy_words h (h_map src) p (h_array_size src);
    Ok (h, mkHandle p (h_size src) true)
  else
    h ← (if alloc_ a then DeleteMap h p (h_array_size src) else Ok h);
    Ok (h, mkHandle (h_map src) (h_size src) false).

Definition resize (h : heap) (a : handle) (size : Z) (fill : bool) : outcome (heap * handle) :=
  let new_array_size := R size in
  '(h, a') ← (if negb (new_array_size =? h_array_size a) then
      let '(h, p) := new_map h new_array_size in
      h ← copy_words h (h_map a) p (Z.min new_array_size (h_array_size a));
      h ← destroy h a;
      Ok (h, mkHandle p size true)
    else Ok (h, mkHandle (h_map a) size (alloc_ a)));
  if h_size a <? size then
    h ← in_place0 h a' (fun b => SetRange T b (h_size a) size fill); Ok (h, a')
  else Ok (h, a').

(** ** Programs over bitmaps by name *)

Inductive op : Type :=
  | OConstruct (size : Z) (fill : bool)
  | OBorrow (p : nat) (size : Z)
  | OCopy (i : nat)
  | OMove (i : nat)
  | OAssign (i j : nat)
  | OResize (i : nat) (size : Z) (fill : bool)
  | ODestroy (i : nat)
  | OSet (i : nat) (q : Z) (v : bool)
  | OSetAll (i : nat) (v : bool)
  | OSetRange (i : nat) (s e : Z) (v : bool)
  | OComplement (i : nat)
  | OUnion (i j : nat).

(** Destroyed bitmaps leave [None]. *)
Record world : Type := mkWorld { mem : heap; bms : list (option handle) }.

Definition bitmap (w : world) (i : nat) : outcome handle :=
  match bms w !! i with Some (Some a) => Ok a | _ => UB end.
Definition add (w : world) (m : outcome (heap * handle)) : outcome world :=
  '(h, a) ← m; Ok (mkWorld h (bms w ++ [Some a])).
Definition modify (w : world) (i : nat) (m : outcome (heap * handle)) : outcome world :=
  '(h, a) ← m; Ok (mkWorld h (<[i := Some a]> (bms w))).
Definition touch (w : world) (m : outcome heap) : outcome world :=
  h ← m; Ok (mkWorld h (bms w)).

Definition step (w : world) (o : op) : outcome world :=
  match o with
  | OConstruct size fill => add w (construct (mem w) size fill)
  | OBorrow p size => add w (Ok (mem w, borrow p size))
  | OCopy i => a ← bitmap w i; add w (copy_construct (mem w) a)
  | OMove i =>
      a ← bitmap w i;
      let '(b, a) := construct_move a in
      Ok (mkWorld (mem w) (<[i := Some a]> (bms w) ++ [Some b]))
  | OAssign i j =>
      if decide (i = j) then Ok w
      else a ← bitmap w i; b ← bitmap w j; modify w i (assign (mem w) a b)
  | OResize i size fill => a ← bitmap w i; modify w i (resize (mem w) a size fill)
  | ODestroy i =>
      a ← bitmap w i; h ← destroy (mem w) a; Ok (mkWorld h (<[i := None]> (bms w)))
  | OSet i q v =>
      a ← bitmap w i;
      '(h, _) ← in_place (mem w) a (fun b => Set_ hardened T b q v); touch w (Ok h)
  | OSetAll i v => a ← bitmap w i; touch w (in_place0 (mem w) a (fun b => SetAll T b v))
  | OSetRange i s e v =>
      a ← bitmap w i; touch w (in_place0 (mem w) a (fun b => SetRange T b s e v))
  | OComplement i => a ← bitmap w i; touch w (in_place0 (mem w) a (Complement T))
  | OUnion i j =>
      a ← bitmap w i; b ← bitmap w j;
      o ← load (mem w) b;
      touch w (in_place0 (mem w) a (fun b => Union T b o))
  end.

Fixpoint run (w : world) (l : list op) : outcome world :=
  match l with [] => Ok w | o :: l => w ← step w o; run w l end.

(** ** Preconditions

    A bitmap is [usable] while its array exists and has the words of its size: always
    when it owns the array; for a borrowed array that is up to the caller. *)
Definition usable (w : world) (i : nat) : bool :=
  match bitmap w i with
  | Ok a =>
      match block_words (mem w) (h_map a) with
      | Ok m => h_array_size a <=? zlen m
      | _ => false
      end
  | _ => false
  end.
Definition live (w : world) (i : nat) : bool :=
  match bitmap w i with Ok _ => true | _ => false end.
Definition bits (w : world) (i : nat) : Z :=
  match bitmap w i with Ok a => h_size a | _ => 0 end.
Definition fits (n : Z) : bool := (0 <=? n) && (n <? 2 ^ 63).

Definition legal (w : world) (o : op) : bool :=
  match o with
  | OConstruct size _ => fits size
  | OBorrow p size => Nat.ltb p (length (mem w)) && fits size
  | OCopy i | OMove i | ODestroy i => live w i
  | OAssign i j => live w i && live w j
  | OResize i size _ => usable w i && fits size
  | OSet i q _ => usable w i && (0 <=? q) && (q <? bits w i)
  | OSetAll i _ | OComplement i => usable w i
  | OSetRange i s e _ => usable w i && (0 <=? s) && (s <=? e) && (e <=? bits w i)
  | OUnion i j => usable w i && usable w j
  end.

Fixpoint legal_run (w : world) (l : list op) : bool :=
  match l with
  | [] => true
  | o :: l => legal w o && match step w o with Ok w => legal_run w l | _ => true end
  end.
End own.
