(* ===== verification/BitmapOwnProps.v ===== *)
(** * Ownership of bitmaps: no double deletion, no leak

    Every allocated array has one owner, and what the changes of memory do to that. *)
From Stdlib Require Import ZArith Lia Bool.
From stdpp Require Import base list numbers option.
From S2P Require Import Prelude.
From S2P Require Import Bitmap.
From S2P Require Import BitmapBits.
From S2P Require Import BitmapProps.
From S2P Require Import BitmapOwn.
Local Open Scope Z_scope.

(** ** Operations in place keep the number of words *)

Lemma bind_inv {A B} (m : outcome A) (f : A -> outcome B) r :
  (m ≫= f) = Ok r -> exists a, m = Ok a /\ f a = Ok r.
Proof. destruct m; simpl; intros; try discriminate. eauto. Qed.

Lemma wr_len m i v m' : wr m i v = Ok m' -> zlen m' = zlen m.
Proof.
  unfold wr, store8. repeat case_match; try discriminate. intros [= <-]. apply zlen_insert.
Qed.
Lemma fill_range_len m a b v m' : fill_range m a b v = Ok m' -> zlen m' = zlen m.
Proof.
  unfold fill_range. case_match; [|discriminate]. bool_to_prop. intros [= <-].
  rewrite !zlen_app, zlen_take_le, zlen_drop by lia. unfold zlen at 1. rewrite length_replicate.
  lia.
Qed.
Lemma transform1_len n f m m' : transform1 n f m = Ok m' -> zlen m' = zlen m.
Proof.
  unfold transform1, zlen. case_match; [|discriminate]. bool_to_prop. intros [= <-].
  rewrite length_app, length_map, length_take, length_drop. lia.
Qed.
Lemma transform2_len n f m k m' : transform2 n f m k = Ok m' -> zlen m' = zlen m.
Proof.
  unfold transform2, zlen. case_match; [|discriminate]. bool_to_prop. intros [= <-].
  rewrite length_app, length_zip_with, !length_take, length_drop. lia.
Qed.

Ltac open_binds := repeat match goal with
  | H : (_ ≫= _) = Ok _ |- _ => apply bind_inv in H as (? & ? & ?)
  | H : Ok _ = Ok _ |- _ => injection H as <-
  | H : context [match ?x with (_, _) => _ end] |- _ => destruct x
  end.
Ltac lens := repeat match goal with
  | H : wr _ _ _ = Ok _ |- _ => apply wr_len in H
  | H : fill_range _ _ _ _ = Ok _ |- _ => apply fill_range_len in H
  | H : transform1 _ _ _ = Ok _ |- _ => apply transform1_len in H
  | H : transform2 _ _ _ _ = Ok _ |- _ => apply transform2_len in H
  end; simpl in *; congruence.

Section keep.
Context `{BuildMode} (hardened : bool) (T : WordType).

Definition same_words (b b' : BasicBitmap) : Prop := zlen (map_ b') = zlen (map_ b).

Lemma SetAll_len b v b' : SetAll T b v = Ok b' -> same_words b b'.
Proof. unfold SetAll, same_words. intros Hr. open_binds. lens. Qed.
Lemma Set_len b q v b' r : Set_ hardened T b q v = Ok (b', r) -> same_words b b'.
Proof. unfold Set_, SetBit, same_words. intros Hr. open_binds. simpl in *. open_binds. lens. Qed.
Lemma SetRange_len b s e v b' : SetRange T b s e v = Ok b' -> same_words b b'.
Proof.
  unfold SetRange, same_words. intros Hr. destruct (s =? e); [open_binds; reflexivity|].
  cbv zeta in Hr. open_binds.
  destruct (negb (e / kIntBits T =? s / kIntBits T)); open_binds; [|lens].
  destruct (negb (e mod kIntBits T =? 0)); open_binds; lens.
Qed.
Lemma Complement_len b b' : Complement T b = Ok b' -> same_words b b'.
Proof. unfold Complement, same_words. intros Hr. open_binds. lens. Qed.
Lemma Union_len b o b' : Union T b o = Ok b' -> same_words b b'.
Proof.
  unfold Union, same_words. cbv zeta. intros Hr.
  destruct (Z.min (array_size T b) (array_size T o) =? 0); open_binds; [reflexivity|].
  open_binds. lens.
Qed.
End keep.

(** ** The ownership invariant *)

(** The bitmap named [i], if it exists. *)
Definition slot (l : list (option handle)) (i : nat) : option handle :=
  match l !! i with Some x => x | None => None end.
(** The array that it owns. *)
Definition owned (x : option handle) : option nat :=
  match x with Some a => if alloc_ a then Some (h_map a) else None | None => None end.

Lemma slot_insert l i x j : (i < length l)%nat ->
  slot (<[i := x]> l) j = if decide (j = i) then x else slot l j.
Proof.
  intros Hi. unfold slot. destruct (decide (j = i)) as [->|].
  - rewrite list_lookup_insert_eq by auto. reflexivity.
  - rewrite list_lookup_insert_ne by auto. reflexivity.
Qed.
Lemma slot_app l x j : slot (l ++ [x]) j = if decide (j = length l) then x else slot l j.
Proof.
  unfold slot. destruct (decide (j = length l)) as [->|].
  - rewrite list_lookup_middle by auto. reflexivity.
  - destruct (Nat.lt_ge_cases j (length l)).
    + rewrite lookup_app_l by auto. reflexivity.
    + rewrite lookup_app_r, (lookup_ge_None_2 l) by lia.
      destruct (j - length l)%nat as [|k] eqn:E; [lia|]. reflexivity.
Qed.

Section own.
Context `{BuildMode} (hardened : bool) (T : WordType) (fresh : nat -> list Z).
#[local] Abbreviation R := (RequiredArraySize T).
Hypothesis fresh_ok : forall n, length (fresh n) = n /\ words_ok T (fresh n).

Definition block_ok (b : block) : Prop :=
  match b with External m | Owned m => words_ok T m | Freed => True end.
Definition owned_array (h : heap) (a : handle) : Prop :=
  exists m, h !! h_map a = Some (Owned m) /\ zlen m = h_array_size T a.

(** An owner has its array, of its size; no array has two owners; every allocated array
    has one. *)
Record inv (h : heap) (s : nat -> option handle) : Prop := {
  inv_words : Forall block_ok h;
  inv_owner : forall i a, s i = Some a ->
    size_ok (h_size a) /\ (alloc_ a = true -> owned_array h a);
  inv_unique : forall i j p, owned (s i) = Some p -> owned (s j) = Some p -> i = j;
  inv_owned : forall p m, h !! p = Some (Owned m) -> exists i, owned (s i) = Some p }.

(** Blocks that differ only in their contents. *)
Definition like (x y : option block) : Prop :=
  match x, y with
  | Some (External _), Some (External _) => True
  | Some (Owned m), Some (Owned k) => zlen m = zlen k
  | Some Freed, Some Freed | None, None => True
  | _, _ => False
  end.

Lemma like_refl x : like x x.
Proof. destruct x as [[]|]; simpl; auto. Qed.

(** What happens to memory when the bitmap [x0] becomes [x]: only the array of [x0] and
    new ones change their state, and they end up owned by [x]. *)
Record moves (h h' : heap) (x0 x : option handle) : Prop := {
  mv_words : Forall block_ok h';
  mv_length : (length h <= length h')%nat;
  mv_size : forall a, x = Some a -> size_ok (h_size a);
  mv_like : forall p, owned x0 <> Some p -> (p < length h)%nat -> like (h !! p) (h' !! p);
  mv_owner : forall a, x = Some a -> alloc_ a = true -> owned_array h' a /\
    (owned x0 = Some (h_map a) \/ (length h <= h_map a)%nat);
  mv_owned : forall p m, h' !! p = Some (Owned m) ->
    owned x0 = Some p \/ (length h <= p)%nat -> owned x = Some p }.

Lemma owned_Some x p : owned x = Some p ->
  exists a, x = Some a /\ alloc_ a = true /\ h_map a = p.
Proof.
  destruct x as [a|]; simpl; [|discriminate]. destruct (alloc_ a) eqn:E; [|discriminate].
  intros [= <-]. eauto.
Qed.

Lemma inv_array h s i p : inv h s -> owned (s i) = Some p ->
  exists a m, s i = Some a /\ h_map a = p /\ h !! p = Some (Owned m) /\
    zlen m = h_array_size T a /\ (p < length h)%nat.
Proof.
  intros Hv (a & Hs & Ha & <-)%owned_Some. destruct (inv_owner _ _ Hv i a Hs) as [_ Ho].
  destruct (Ho Ha) as (m & Hm & Hl). exists a, m. split_and!; auto.
  eapply lookup_lt_Some; eauto.
Qed.

Lemma inv_step h h' s s' i x : inv h s -> moves h h' (s i) x ->
  (forall j, s' j = if decide (j = i) then x else s j) -> inv h' s'.
Proof.
  intros Hv Hm Hs. destruct Hm as [Hw _ Hz Hl Ho Hn]. split; auto.
  - intros j a Hj. rewrite Hs in Hj. destruct (decide (j = i)) as [->|Hne].
    { split; [auto|]. intros Ha. apply Ho; auto. }
    destruct (inv_owner _ _ Hv j a Hj) as [Hsz Hown]. split; [auto|]. intros Ha.
    destruct (Hown Ha) as (m & Hm & Hlen).
    assert (Hp : owned (s i) <> Some (h_map a)).
    { intros He. apply Hne. apply (inv_unique _ _ Hv j i (h_map a)); auto.
      rewrite Hj. simpl. rewrite Ha. reflexivity. }
    specialize (Hl _ Hp (lookup_lt_Some _ _ _ Hm)). rewrite Hm in Hl.
    unfold owned_array. destruct (h' !! h_map a) as [[|k|]|]; simpl in Hl; try done.
    exists k. split; [reflexivity | congruence].
  - assert (Hcross : forall j p, j <> i -> owned x = Some p -> owned (s j) = Some p -> False).
    { intros j p Hne Hx Hj. destruct (owned_Some _ _ Hx) as (a & -> & Ha & <-).
      destruct (Ho a eq_refl Ha) as [_ [He|He]].
      - apply Hne. apply (inv_unique _ _ Hv j i (h_map a)); auto.
      - destruct (inv_array _ _ _ _ Hv Hj) as (_ & _ & _ & _ & _ & _ & Hlt). lia. }
    intros j k p. rewrite !Hs.
    destruct (decide (j = i)) as [->|], (decide (k = i)) as [->|]; intros Hj Hk; auto.
    + exfalso. eauto.
    + exfalso. eauto.
    + apply (inv_unique _ _ Hv j k p); auto.
  - intros p m Hp. assert (Hc : owned (s i) = Some p \/ (length h <= p)%nat \/
      owned (s i) <> Some p /\ (p < length h)%nat).
    { destruct (decide (owned (s i) = Some p)); [auto|].
      destruct (Nat.lt_ge_cases p (length h)); auto. }
    destruct Hc as [Hc|[Hc|[Hc1 Hc2]]].
    1, 2: exists i; rewrite Hs, decide_True by auto; eapply Hn; eauto.
    specialize (Hl p Hc1 Hc2). rewrite Hp in Hl.
    destruct (h !! p) as [[|k|]|] eqn:E; simpl in Hl; try done.
    destruct (inv_owned _ _ Hv p k E) as [j Hj]. exists j. rewrite Hs.
    rewrite decide_False; [auto|]. intros ->. done.
Qed.

(** ** Changes of memory *)

Lemma like_trans x y z : like x y -> like y z -> like x z.
Proof. destruct x as [[]|], y as [[]|], z as [[]|]; simpl; try done. congruence. Qed.

Lemma like_Owned (h h' : heap) p m : h !! p = Some (Owned m) -> like (h !! p) (h' !! p) ->
  exists k, h' !! p = Some (Owned k) /\ zlen k = zlen m.
Proof. intros ->. destruct (h' !! p) as [[|k|]|]; simpl; try done. eauto. Qed.

Lemma owned_array_like h h' a : owned_array h a -> like (h !! h_map a) (h' !! h_map a) ->
  owned_array h' a.
Proof.
  intros (m & Hm & Hz) Hl. destruct (like_Owned h h' _ m Hm Hl) as (k & Hk & Hzk). exists k.
  split; [auto | congruence].
Qed.

Lemma moves_trans h h1 h2 x x1 x2 : moves h h1 x x1 -> moves h1 h2 x1 x2 -> moves h h2 x x2.
Proof.
  intros [Hw1 Hln1 Hz1 Hl1 Ho1 Hn1] [Hw2 Hln2 Hz2 Hl2 Ho2 Hn2].
  assert (Hx1 : forall p, owned x1 = Some p -> owned x = Some p \/ (length h <= p)%nat).
  { intros p (a & -> & Ha & <-)%owned_Some. apply (Ho1 a eq_refl Ha). }
  split; auto; [lia | | |].
  - intros p Hp Hlt. apply (like_trans _ (h1 !! p)); [auto|]. apply Hl2; [|lia].
    intros He. destruct (Hx1 p He); [done | lia].
  - intros a Hx Ha. destruct (Ho2 a Hx Ha) as [Ho [He|He]]; (split; [exact Ho|]).
    + apply Hx1. auto.
    + right. lia.
  - intros p m Hp Hc. apply (Hn2 p m Hp).
    destruct (decide (owned x1 = Some p)) as [|Hne]; [auto|]. right.
    destruct (Nat.lt_ge_cases p (length h1)) as [Hlt|]; [|auto]. exfalso. apply Hne.
    specialize (Hl2 p Hne Hlt). rewrite Hp in Hl2.
    destruct (h1 !! p) as [[|k|]|] eqn:E; simpl in Hl2; try done. apply (Hn1 p k E Hc).
Qed.

(** Memory of which only contents changed. *)
Definition keeps (h h' : heap) : Prop :=
  Forall block_ok h' /\ length h' = length h /\ forall p, like (h !! p) (h' !! p).

Lemma keeps_refl h : Forall block_ok h -> keeps h h.
Proof. intros Hw. split_and!; auto. intros p. apply like_refl. Qed.

(** A bitmap whose fields change to those of [y], with the same array if any. *)
Lemma moves_keeps h h' x y : keeps h h' -> owned y = owned x ->
  (forall a, y = Some a -> size_ok (h_size a)) ->
  (forall a, y = Some a -> alloc_ a = true -> owned_array h a) -> moves h h' x y.
Proof.
  intros (Hw & Hln & Hl) He Hz Ho. split; auto; [lia | |].
  - intros a -> Ha. split; [|left].
    + apply (owned_array_like h); auto.
    + rewrite <- He. simpl. rewrite Ha. reflexivity.
  - intros p m Hp [Hx|Hlt]; [congruence|].
    apply lookup_lt_Some in Hp. lia.
Qed.

Lemma moves_new h n p size : 0 <= n -> Forall block_ok h -> R size = n -> size_ok size ->
  p = length h -> moves h (h ++ [Owned (new_words fresh n)]) None (Some (mkHandle p size true)).
Proof.
  intros Hn0 Hw Hn Hs ->. split.
  - apply Forall_app. split; [auto|]. apply Forall_singleton. apply fresh_ok.
  - rewrite length_app. lia.
  - intros a [= <-]. auto.
  - intros p _ Hlt. rewrite lookup_app_l by auto. apply like_refl.
  - intros a [= <-] _. split; [|right; simpl; lia]. exists (new_words fresh n). simpl.
    rewrite list_lookup_middle by auto. split; [reflexivity|].
    unfold h_array_size. simpl. rewrite Hn. apply (zlen_new T); auto.
  - intros p m Hp [|Hge]; [discriminate|]. apply lookup_lt_Some in Hp.
    rewrite length_app in Hp. simpl in *. f_equal. lia.
Qed.

Lemma DeleteMap_ok h a n : Forall block_ok h -> alloc_ a = true -> owned_array h a ->
  n = h_array_size T a -> exists h', DeleteMap h (h_map a) n = Ok h' /\ moves h h' (Some a) None.
Proof.
  intros Hw Ha (m & Hm & Hl) ->. unfold DeleteMap. rewrite Hm, Hl, Z.eqb_refl.
  eexists. split; [reflexivity|]. pose proof (lookup_lt_Some _ _ _ Hm) as Hlt. split; try done.
  - apply Forall_insert; simpl; auto.
  - rewrite length_insert. lia.
  - intros p Hp _. simpl in Hp. rewrite Ha in Hp. rewrite list_lookup_insert_ne by congruence.
    apply like_refl.
  - intros p k Hp Hc. exfalso. destruct (decide (p = h_map a)) as [->|Hne].
    + rewrite list_lookup_insert_eq in Hp by auto. discriminate.
    + destruct Hc as [Hc|Hc]; [simpl in Hc; rewrite Ha in Hc; congruence|].
      apply lookup_lt_Some in Hp. rewrite length_insert in Hp. lia.
Qed.

Lemma block_words_ok h p m : Forall block_ok h -> block_words h p = Ok m -> words_ok T m.
Proof.
  unfold block_words. intros Hw. destruct (h !! p) as [b|] eqn:E; [|discriminate].
  pose proof (Forall_lookup_1 _ _ _ _ Hw E) as Hb. destruct b; simpl in *; congruence.
Qed.

Lemma set_words_ok (h : heap) p m m' : Forall block_ok h -> block_words h p = Ok m ->
  words_ok T m' -> zlen m' = zlen m -> exists h', set_words h p m' = Ok h' /\ keeps h h'.
Proof.
  unfold block_words, set_words. intros Hw Hb Hm Hz.
  destruct (h !! p) as [[k|k|]|] eqn:E; try discriminate; injection Hb as ->;
    (eexists; split; [reflexivity|]; split_and!;
     [apply Forall_insert; auto | apply length_insert |]);
    intros q; pose proof (lookup_lt_Some _ _ _ E);
    (destruct (decide (q = p)) as [->|];
     [rewrite E, list_lookup_insert_eq by auto; simpl; auto
     | rewrite list_lookup_insert_ne by auto; apply like_refl]).
Qed.

Lemma copy_words_ok h from to n m k : Forall block_ok h -> block_words h from = Ok m ->
  block_words h to = Ok k -> 0 <= n -> n <= zlen m -> n <= zlen k ->
  exists h', copy_words h from to n = Ok h' /\ keeps h h'.
Proof.
  intros Hw Hf Ht Hn Hm Hk. unfold copy_words. rewrite Hf, Ht, !bind_Ok.
  replace (n <=? zlen m) with true by lia. replace (n <=? zlen k) with true by lia. simpl.
  apply (set_words_ok h to k); auto.
  - apply Forall_app. split; [apply Forall_take | apply Forall_drop].
    + apply (block_words_ok h from); auto.
    + apply (block_words_ok h to); auto.
  - rewrite zlen_app, zlen_take_le, zlen_drop by lia. lia.
Qed.

(** An operation on the words of a bitmap that has them. *)
Lemma in_place_ok {A} h a (f : BasicBitmap -> outcome (BasicBitmap * A)) m :
  Forall block_ok h -> block_words h (h_map a) = Ok m -> size_ok (h_size a) ->
  h_array_size T a <= zlen m ->
  (forall b, bm_ok T b -> size_ b = h_size a -> exists b' r, f b = Ok (b', r) /\
     words_ok T (map_ b') /\ same_words b b') ->
  exists h' r, in_place h a f = Ok (h', r) /\ keeps h h'.
Proof.
  intros Hw Hb Hs Hl Hf. unfold in_place, load. rewrite Hb, !bind_Ok.
  destruct (Hf (mkBitmap m (h_size a))) as (b' & r & -> & Hw' & Hz).
  { split_and!; simpl; auto. apply (block_words_ok h (h_map a)); auto. }
  { reflexivity. }
  rewrite bind_Ok. destruct (set_words_ok h (h_map a) m (map_ b')) as (h' & -> & Hk); auto.
  exists h', r. auto.
Qed.

Lemma in_place0_ok h a f m :
  Forall block_ok h -> block_words h (h_map a) = Ok m -> size_ok (h_size a) ->
  h_array_size T a <= zlen m ->
  (forall b, bm_ok T b -> size_ b = h_size a -> exists b', f b = Ok b' /\ bm_ok T b' /\
     same_words b b') ->
  exists h', in_place0 h a f = Ok h' /\ keeps h h'.
Proof.
  intros Hw Hb Hs Hl Hf. unfold in_place0.
  destruct (in_place_ok h a (fun b => b ← f b; Ok (b, tt)) m Hw Hb Hs Hl)
    as (h' & r & -> & Hk).
  - intros b Hbm He. destruct (Hf b Hbm He) as (b' & -> & Hb' & Hz). exists b', tt.
    split; [reflexivity|]. split; [apply Hb' | auto].
  - rewrite bind_Ok. eauto.
Qed.

Lemma owned_words h a : owned_array h a -> exists m, block_words h (h_map a) = Ok m /\
  zlen m = h_array_size T a.
Proof. intros (m & Hm & Hl). unfold block_words. rewrite Hm. eauto. Qed.

Lemma moves_then_keeps h h1 h2 x y : moves h h1 x y -> keeps h1 h2 -> moves h h2 x y.
Proof.
  intros Hm Hk. apply (moves_trans h h1 h2 x y y Hm). apply moves_keeps; auto.
  - intros a Ha. apply (mv_size _ _ _ _ Hm a Ha).
  - intros a Ha Hal. apply (mv_owner _ _ _ _ Hm a Ha Hal).
Qed.

(** A new array for [b] before that of [x] is deleted. *)
Lemma moves_replace h h1 h2 x b : moves h h1 None (Some b) -> moves h1 h2 x None ->
  (forall p, owned x = Some p -> (p < length h)%nat) -> moves h h2 x (Some b).
Proof.
  intros [Hw1 Hln1 Hz1 Hl1 Ho1 Hn1] [Hw2 Hln2 Hz2 Hl2 Ho2 Hn2] Hx.
  split; auto; [lia | | |].
  - intros p Hp Hlt. apply (like_trans _ (h1 !! p)); [apply Hl1; auto; discriminate |].
    apply Hl2; auto. lia.
  - intros a [= <-] Ha. destruct (Ho1 b eq_refl Ha) as [Ho [|Hge]]; [discriminate|].
    split; [|auto]. apply (owned_array_like h1); auto. apply Hl2.
    + intros He. apply Hx in He. lia.
    + destruct Ho as (m & Hm & _). apply lookup_lt_Some in Hm. auto.
  - intros p m Hp Hc. destruct (decide (owned x = Some p)) as [He|He].
    { specialize (Hn2 p m Hp (or_introl He)). discriminate. }
    destruct Hc as [|Hge]; [done|]. destruct (Nat.lt_ge_cases p (length h1)) as [Hlt|Hge1].
    2: { specialize (Hn2 p m Hp (or_intror Hge1)). discriminate. }
    specialize (Hl2 p He Hlt). rewrite Hp in Hl2.
    destruct (h1 !! p) as [[|k|]|] eqn:E; simpl in Hl2; try done.
    apply (Hn1 p k E). auto.
Qed.

Lemma R_nonneg n : 0 <= n -> 0 <= R n.
Proof. intros Hn. pose proof (array_size_pos T n Hn). lia. Qed.

End own.

Section own.
Context `{BuildMode} (hardened : bool) (T : WordType) (fresh : nat -> list Z).
#[local] Abbreviation R := (RequiredArraySize T).
#[local] Abbreviation block_ok := (block_ok T).
#[local] Abbreviation owned_array := (owned_array T).
#[local] Abbreviation inv := (inv T).
#[local] Abbreviation moves := (moves T).
#[local] Abbreviation keeps := (keeps T).
#[local] Abbreviation inv_array := (inv_array T).
#[local] Abbreviation inv_step := (inv_step T).
#[local] Abbreviation owned_array_like := (owned_array_like T).
#[local] Abbreviation moves_trans := (moves_trans T).
#[local] Abbreviation moves_keeps := (moves_keeps T).
#[local] Abbreviation DeleteMap_ok := (DeleteMap_ok T).
#[local] Abbreviation block_words_ok := (block_words_ok T).
#[local] Abbreviation set_words_ok := (set_words_ok T).
#[local] Abbreviation copy_words_ok := (copy_words_ok T).
#[local] Abbreviation in_place_ok := (in_place_ok T).
#[local] Abbreviation in_place0_ok := (in_place0_ok T).
#[local] Abbreviation owned_words := (owned_words T).
#[local] Abbreviation moves_then_keeps := (moves_then_keeps T).
#[local] Abbreviation moves_replace := (moves_replace T).
#[local] Abbreviation R_nonneg := (R_nonneg T).
#[local] Abbreviation inv_words := (inv_words T).
#[local] Abbreviation inv_owner := (inv_owner T).
#[local] Abbreviation inv_unique := (inv_unique T).
#[local] Abbreviation inv_owned := (inv_owned T).
#[local] Abbreviation mv_words := (mv_words T).
#[local] Abbreviation mv_length := (mv_length T).
#[local] Abbreviation mv_size := (mv_size T).
#[local] Abbreviation mv_like := (mv_like T).
#[local] Abbreviation mv_owner := (mv_owner T).
#[local] Abbreviation mv_owned := (mv_owned T).
Hypothesis fresh_ok : forall n, length (fresh n) = n /\ words_ok T (fresh n).
#[local] Abbreviation moves_new := (moves_new T fresh fresh_ok).

(** ** Special members *)

Lemma construct_ok h n fill : Forall block_ok h -> size_ok n ->
  exists h' a, construct T fresh h n fill = Ok (h', a) /\ moves h h' None (Some a).
Proof.
  intros Hw Hn. pose proof (R_nonneg n (proj1 Hn)) as Hr. unfold construct, new_map.
  set (a := mkHandle (length h) n true).
  pose proof (moves_new h (R n) _ n Hr Hw eq_refl Hn eq_refl) as Hm. fold a in Hm.
  destruct (mv_owner _ _ _ _ Hm a eq_refl eq_refl) as [Ho _].
  destruct (owned_words _ _ Ho) as (m & Hb & Hl).
  destruct (in_place0_ok (h ++ [Owned (new_words fresh (R n))]) a (fun b => SetAll T b fill) m)
    as (h' & -> & Hk); auto.
  - apply Hm.
  - lia.
  - intros b Hb' He. destruct (SetAll_ok T b fill) as (b' & Hs & Hok); [apply Hb'..|].
    exists b'. split; [auto|]. split; [apply Hok | apply (SetAll_len T b fill); auto].
  - exists h', a. split; [reflexivity|]. apply (moves_then_keeps _ _ _ _ _ Hm Hk).
Qed.

(** A bitmap that borrows. *)
Lemma moves_view h n p : Forall block_ok h -> size_ok n ->
  moves h h None (Some (mkHandle p n false)).
Proof.
  intros Hw Hn. apply moves_keeps; auto using keeps_refl.
  - intros a [= <-]. auto.
  - intros a [= <-]. discriminate.
Qed.

Lemma clone_ok h src : Forall block_ok h -> size_ok (h_size src) -> owned_array h src ->
  exists h', (let '(h, p) := new_map fresh h (h_array_size T src) in
    h ← copy_words h (h_map src) p (h_array_size T src);
    Ok (h, mkHandle p (h_size src) true)) = Ok (h', mkHandle (length h) (h_size src) true) /\
    moves h h' None (Some (mkHandle (length h) (h_size src) true)).
Proof.
  intros Hw Hs Ho. pose proof (R_nonneg _ (proj1 Hs)) as Hr. unfold new_map, h_array_size in *.
  pose proof (moves_new h (R (h_size src)) _ (h_size src) Hr Hw eq_refl Hs eq_refl) as Hm.
  destruct (mv_owner _ _ _ _ Hm _ eq_refl eq_refl) as [Ho' _].
  destruct Ho as (m & Hb & Hl). pose proof (lookup_lt_Some _ _ _ Hb) as Hlt.
  destruct (like_Owned _ _ _ _ Hb (mv_like _ _ _ _ Hm (h_map src) ltac:(discriminate) Hlt))
    as (m' & Hb' & Hl').
  destruct (owned_words _ _ Ho') as (k & Hk & Hlk). simpl in Hk. unfold h_array_size in *.
  simpl in Hlk.
  destruct (copy_words_ok _ (h_map src) (length h) (R (h_size src)) m' k (mv_words _ _ _ _ Hm))
    as (h' & -> & Hkeep); [unfold block_words; rewrite Hb'; auto | auto | lia | lia | lia |].
  exists h'. split; [reflexivity|]. apply (moves_then_keeps _ _ _ _ _ Hm Hkeep).
Qed.

Lemma copy_construct_ok h src : Forall block_ok h -> size_ok (h_size src) ->
  (alloc_ src = true -> owned_array h src) ->
  exists h' a, copy_construct T fresh h src = Ok (h', a) /\ moves h h' None (Some a).
Proof.
  intros Hw Hs Ho. unfold copy_construct. destruct (alloc_ src).
  - destruct (clone_ok h src Hw Hs (Ho eq_refl)) as (h' & He & Hm). eauto.
  - exists h, (mkHandle (h_map src) (h_size src) false). split; [reflexivity|].
    apply moves_view; auto.
Qed.

Lemma destroy_ok h a : Forall block_ok h -> (alloc_ a = true -> owned_array h a) ->
  exists h', destroy T h a = Ok h' /\ moves h h' (Some a) None.
Proof.
  intros Hw Ho. unfold destroy. destruct (alloc_ a) eqn:E.
  - apply DeleteMap_ok; auto.
  - exists h. split; [reflexivity|]. apply moves_keeps; auto using keeps_refl; try discriminate.
    simpl. rewrite E. reflexivity.
Qed.

(** After the first statement of [operator=] the array has the size of the source. *)
Lemma assign_fit h a src : Forall block_ok h -> size_ok (h_size src) ->
  (alloc_ a = true -> owned_array h a) ->
  exists h' p, (if alloc_ a && negb (h_array_size T a =? h_array_size T src) then
      h ← DeleteMap h (h_map a) (h_array_size T a);
      Ok (new_map fresh h (h_array_size T src))
    else Ok (h, h_map a)) = Ok (h', p) /\
    moves h h' (Some a) (Some (mkHandle p (h_size src) (alloc_ a))).
Proof.
  intros Hw Hs Ho. destruct (alloc_ a) eqn:E; simpl.
  - destruct (Z.eqb_spec (h_array_size T a) (h_array_size T src)) as [He|He]; simpl.
    + exists h, (h_map a). split; [reflexivity|]. apply moves_keeps; auto using keeps_refl.
      * simpl. rewrite E. reflexivity.
      * intros b [= <-]. auto.
      * intros b [= <-] _. destruct (Ho eq_refl) as (m & Hm & Hl). exists m. split; [auto|].
        rewrite Hl. exact He.
    + destruct (DeleteMap_ok h a (h_array_size T a) Hw E (Ho eq_refl) eq_refl)
        as (h1 & -> & Hm1). rewrite bind_Ok. eexists _, _. split; [reflexivity|].
      apply (moves_trans _ _ _ _ _ _ Hm1). apply moves_new; auto; [|apply Hm1].
      apply R_nonneg, Hs.
  - exists h, (h_map a). split; [reflexivity|]. apply moves_keeps; auto using keeps_refl.
    + simpl. rewrite E. reflexivity.
    + intros b [= <-]. auto.
    + intros b [= <-]. discriminate.
Qed.

Lemma moves_from h h' x x' y : owned x = owned x' -> moves h h' x y -> moves h h' x' y.
Proof.
  intros He [Hw Hln Hz Hl Ho Hn]. split; auto; rewrite <- He; auto.
Qed.

Lemma assign_ok h a src : Forall block_ok h -> size_ok (h_size src) ->
  (alloc_ a = true -> owned_array h a) -> (alloc_ src = true -> owned_array h src) ->
  (alloc_ a = true -> alloc_ src = true -> h_map a <> h_map src) ->
  exists h' a', assign T fresh h a src = Ok (h', a') /\ moves h h' (Some a) (Some a').
Proof.
  intros Hw Hs Ha Hsrc Hne. unfold assign.
  destruct (assign_fit h a src Hw Hs Ha) as (h1 & p & -> & Hm1). rewrite bind_Ok.
  pose proof (mv_words _ _ _ _ Hm1) as Hw1. destruct (alloc_ src) eqn:Es.
  - assert (Hsrc1 : owned_array h1 src).
    { destruct (Hsrc eq_refl) as (m & Hm & Hl). apply (owned_array_like h); [exists m; auto|].
      apply (mv_like _ _ _ _ Hm1); [|apply lookup_lt_Some in Hm; auto].
      simpl. destruct (alloc_ a); [|discriminate]. intros [= He]. apply Hne; auto. }
    destruct (alloc_ a) eqn:Ea.
    + destruct (mv_owner _ _ _ _ Hm1 _ eq_refl eq_refl) as [Ho _].
      destruct (owned_words _ _ Ho) as (k & Hk & Hlk). destruct (owned_words _ _ Hsrc1)
        as (m & Hb & Hl). simpl in Hk. unfold h_array_size in Hlk. simpl in Hlk.
      destruct (copy_words_ok h1 (h_map src) p (h_array_size T src) m k Hw1 Hb Hk)
        as (h2 & -> & Hk2); unfold h_array_size in *; try lia.
      { apply R_nonneg, Hs. }
      rewrite bind_Ok. eexists _, _. split; [reflexivity|].
      apply (moves_then_keeps _ _ _ _ _ Hm1 Hk2).
    + destruct (clone_ok h1 src Hw1 Hs Hsrc1) as (h2 & He & Hm2). simpl in *. rewrite He.
      eexists _, _. split; [reflexivity|]. apply (moves_trans _ _ _ _ _ _ Hm1).
      apply (moves_from _ _ None); auto.
  - destruct (alloc_ a) eqn:Ea.
    + destruct (mv_owner _ _ _ _ Hm1 _ eq_refl eq_refl) as [Ho _].
      destruct (DeleteMap_ok h1 (mkHandle p (h_size src) true) (h_array_size T src) Hw1 eq_refl Ho
        eq_refl) as (h2 & Hd & Hm2).
      simpl in Hd. rewrite Hd, bind_Ok. eexists _, _. split; [reflexivity|].
      apply (moves_trans _ _ _ _ _ _ Hm1), (moves_trans _ _ _ _ _ _ Hm2).
      apply moves_view; [apply Hm2 | auto].
    + rewrite bind_Ok. eexists _, _. split; [reflexivity|].
      apply (moves_trans _ _ _ _ _ _ Hm1). apply (moves_from _ _ None); [reflexivity|].
      apply moves_view; auto.
Qed.

(** The array after the first part of [Resize]. *)
Lemma resize_array h a n m : Forall block_ok h -> size_ok (h_size a) -> size_ok n ->
  (alloc_ a = true -> owned_array h a) -> block_words h (h_map a) = Ok m ->
  h_array_size T a <= zlen m ->
  exists h' a', (if negb (R n =? h_array_size T a) then
      let '(h, p) := new_map fresh h (R n) in
      h ← copy_words h (h_map a) p (Z.min (R n) (h_array_size T a));
      h ← destroy T h a;
      Ok (h, mkHandle p n true)
    else Ok (h, mkHandle (h_map a) n (alloc_ a))) = Ok (h', a') /\
    moves h h' (Some a) (Some a') /\ h_size a' = n /\
    exists k, block_words h' (h_map a') = Ok k /\ R n <= zlen k.
Proof.
  intros Hw Ha Hn Ho Hb Hl. pose proof (R_nonneg _ (proj1 Hn)) as Hrn.
  pose proof (R_nonneg _ (proj1 Ha)) as Hra. unfold h_array_size in *.
  destruct (Z.eqb_spec (R n) (R (h_size a))) as [E|E]; simpl.
  - exists h, (mkHandle (h_map a) n (alloc_ a)). split; [reflexivity|]. split.
    { apply moves_keeps; auto using keeps_refl.
      - intros b [= <-]. auto.
      - intros b [= <-] Hal. destruct (Ho Hal) as (k & Hk & Hlk). exists k. split; [auto|].
        rewrite Hlk. unfold h_array_size. auto. }
    split; [reflexivity|]. exists m. split; [auto | lia].
  - pose proof (moves_new h (R n) _ n Hrn Hw eq_refl Hn eq_refl) as Hm.
    destruct (mv_owner _ _ _ _ Hm _ eq_refl eq_refl) as [Hnew _].
    destruct (owned_words _ _ Hnew) as (k & Hk & Hlk). unfold h_array_size in Hlk.
    simpl in Hk, Hlk. set (h0 := h ++ _) in *.
    assert (Hlt : (h_map a < length h)%nat).
    { unfold block_words in Hb. destruct (h !! h_map a) eqn:Eb; [|discriminate].
      apply lookup_lt_Some in Eb. auto. }
    assert (Hb0 : block_words h0 (h_map a) = Ok m).
    { unfold block_words, h0 in *. rewrite lookup_app_l by auto. exact Hb. }
    destruct (copy_words_ok h0 (h_map a) (length h) (Z.min (R n) (R (h_size a))) m k
      (mv_words _ _ _ _ Hm) Hb0 Hk) as (h1 & -> & Hk1); [lia..|]. rewrite bind_Ok.
    destruct (destroy_ok h1 a) as (h2 & -> & Hm2); [apply Hk1 | |].
    { intros Hal. apply (owned_array_like h0); [|apply Hk1]. destruct (Ho Hal) as (j & Hj & Hlj).
      exists j. unfold h0. rewrite lookup_app_l by auto. auto. }
    rewrite bind_Ok. eexists _, _. split; [reflexivity|].
    assert (Hmv : moves h h2 (Some a) (Some (mkHandle (length h) n true))).
    { apply (moves_replace h h1); auto.
      - apply (moves_then_keeps _ _ _ _ _ Hm Hk1).
      - intros p (b & [= <-] & _ & <-)%owned_Some. auto. }
    split; [exact Hmv|]. split; [reflexivity|].
    destruct (mv_owner _ _ _ _ Hmv _ eq_refl eq_refl) as [Ho2 _].
    destruct (owned_words _ _ Ho2) as (k2 & Hk2 & Hlk2). exists k2. split; [auto|].
    rewrite Hlk2. unfold h_array_size. simpl. lia.
Qed.

Lemma resize_ok h a n v m : Forall block_ok h -> size_ok (h_size a) -> size_ok n ->
  (alloc_ a = true -> owned_array h a) -> block_words h (h_map a) = Ok m ->
  h_array_size T a <= zlen m ->
  exists h' a', resize T fresh h a n v = Ok (h', a') /\ moves h h' (Some a) (Some a').
Proof.
  intros Hw Ha Hn Ho Hb Hl. unfold resize.
  destruct (resize_array h a n m Hw Ha Hn Ho Hb Hl) as (h1 & a1 & -> & Hm1 & Hs1 & k & Hk & Hlk).
  rewrite bind_Ok. destruct (Z.ltb_spec (h_size a) n) as [Hlt|]; [|eauto].
  destruct (in_place0_ok h1 a1 (fun b => SetRange T b (h_size a) n v) k) as (h2 & -> & Hk2);
    auto.
  - apply Hm1.
  - rewrite Hs1. auto.
  - unfold h_array_size. rewrite Hs1. auto.
  - intros b Hbm He. unfold size_ok in *.
    destruct (SetRange_ok T b (h_size a) n v Hbm) as (b' & Hr & Hok); [lia | lia |].
    exists b'. split; [auto|]. split; [apply Hok | apply (SetRange_len T _ _ _ _ _ Hr)].
  - rewrite bind_Ok. eexists _, _. split; [reflexivity|].
    apply (moves_then_keeps _ _ _ _ _ Hm1 Hk2).
Qed.

(** ** Steps *)

Lemma bitmap_slot w i a : bitmap w i = Ok a -> slot (bms w) i = Some a /\ (i < length (bms w))%nat.
Proof.
  unfold bitmap, slot. destruct (bms w !! i) as [[b|]|] eqn:E; try discriminate.
  intros [= ->]. split; [auto|]. apply lookup_lt_Some in E. auto.
Qed.
Lemma slot_bitmap w i a : slot (bms w) i = Some a -> bitmap w i = Ok a.
Proof. unfold bitmap, slot. destruct (bms w !! i) as [[b|]|]; congruence. Qed.

Lemma live_slot w i : live w i = true -> exists a, bitmap w i = Ok a.
Proof. unfold live. destruct (bitmap w i); eauto; discriminate. Qed.
Lemma usable_slot w i : usable T w i = true -> exists a m, bitmap w i = Ok a /\
  block_words (mem w) (h_map a) = Ok m /\ h_array_size T a <= zlen m.
Proof.
  unfold usable. destruct (bitmap w i) as [a| |]; try discriminate.
  destruct (block_words (mem w) (h_map a)) as [m| |] eqn:E; try discriminate.
  intros Hl. exists a, m. split_and!; auto. lia.
Qed.

Definition good (w : world) : Prop := inv (mem w) (slot (bms w)).
Definition external (b : option block) (n : Z) : Prop :=
  exists m, b = Some (External m) /\ zlen m = n.
Definition lent (h h' : heap) : Prop :=
  forall p m, h !! p = Some (External m) -> exists m', h' !! p = Some (External m').

Lemma moves_lent h s i h' x : inv h s -> moves h h' (s i) x -> lent h h'.
Proof.
  intros Hv Hm p m Hp. pose proof (lookup_lt_Some _ _ _ Hp) as Hlt.
  assert (Hn : owned (s i) <> Some p).
  { intros He. destruct (inv_array _ _ _ _ Hv He) as (_ & k & _ & _ & Hk & _). congruence. }
  pose proof (mv_like _ _ _ _ Hm p Hn Hlt) as Hl. rewrite Hp in Hl.
  destruct (h' !! p) as [[k| |]|]; simpl in Hl; try done. eauto.
Qed.

(** The outcome of a step that keeps the invariant. *)
Definition goes (w : world) (m : outcome world) : Prop :=
  exists w', m = Ok w' /\ good w' /\ lent (mem w) (mem w').

Lemma goes_add w m : good w -> (exists h a, m = Ok (h, a) /\ moves (mem w) h None (Some a)) ->
  goes w (add w m).
Proof.
  intros Hg (h & a & -> & Hm). eexists. split; [reflexivity|].
  assert (Hs : slot (bms w) (length (bms w)) = None).
  { unfold slot. rewrite lookup_ge_None_2; auto. }
  rewrite <- Hs in Hm. split; [|apply (moves_lent _ _ _ _ _ Hg Hm)].
  apply (inv_step _ _ _ _ _ _ Hg Hm). intros j. apply slot_app.
Qed.

Lemma goes_modify w i a m : good w -> bitmap w i = Ok a ->
  (exists h a', m = Ok (h, a') /\ moves (mem w) h (Some a) (Some a')) -> goes w (modify w i m).
Proof.
  intros Hg Hb (h & a' & -> & Hm). destruct (bitmap_slot _ _ _ Hb) as [Hs Hlt].
  eexists. split; [reflexivity|]. rewrite <- Hs in Hm.
  split; [|apply (moves_lent _ _ _ _ _ Hg Hm)].
  apply (inv_step _ _ _ _ _ _ Hg Hm). intros j. apply slot_insert. auto.
Qed.

Lemma goes_touch w (i : nat) m : good w -> (exists h, m = Ok h /\ keeps (mem w) h) ->
  goes w (touch w m).
Proof.
  intros Hg (h & -> & Hk). eexists. split; [reflexivity|].
  assert (Hm : moves (mem w) h (slot (bms w) i) (slot (bms w) i)).
  { apply moves_keeps; auto; intros a Ha; apply (inv_owner _ _ Hg _ _ Ha). }
  split; [|apply (moves_lent _ _ _ _ _ Hg Hm)].
  apply (inv_step _ _ _ _ _ _ Hg Hm). intros j. simpl.
  destruct (decide (j = i)) as [->|]; reflexivity.
Qed.

(** Any operation on the words that keeps their number. *)
Lemma goes_in_place w i f : good w -> usable T w i = true ->
  (forall a b, bitmap w i = Ok a -> bm_ok T b -> size_ b = h_size a ->
     exists b', f b = Ok b' /\ bm_ok T b' /\ same_words b b') ->
  goes w (a ← bitmap w i; touch w (in_place0 (mem w) a f)).
Proof.
  intros Hg (a & m & Hb & Hm & Hl)%usable_slot Hf. rewrite Hb, bind_Ok.
  destruct (bitmap_slot _ _ _ Hb) as [Hs _]. apply (goes_touch w i); auto.
  apply (in_place0_ok _ _ _ m); auto.
  - apply Hg.
  - apply (inv_owner _ _ Hg i a Hs).
  - intros b Hbm He. apply (Hf a b); auto.
Qed.

Lemma move_good w i a : good w -> bitmap w i = Ok a ->
  good (mkWorld (mem w) (<[i := Some (snd (construct_move a))]> (bms w) ++
    [Some (fst (construct_move a))])).
Proof.
  intros Hg Hb. destruct (bitmap_slot _ _ _ Hb) as [Hs Hlt]. unfold construct_move. simpl.
  set (b := mkHandle (h_map a) (h_size a) (alloc_ a)).
  set (v := mkHandle (h_map a) (h_size a) false).
  assert (Hsl : forall j, slot (<[i := Some v]> (bms w) ++ [Some b]) j =
    if decide (j = length (bms w)) then Some b else if decide (j = i) then Some v
    else slot (bms w) j).
  { intros j. rewrite slot_app, length_insert.
    destruct (decide (j = length (bms w))); [auto|]. apply slot_insert. auto. }
  assert (Ho : owned (Some b) = owned (slot (bms w) i)) by (rewrite Hs; reflexivity).
  set (n := length (bms w)) in *.
  assert (Hback : forall j p, owned (slot (<[i := Some v]> (bms w) ++ [Some b]) j) = Some p ->
    exists k, owned (slot (bms w) k) = Some p /\ j = (if decide (k = i) then n else k) /\
      (k < n)%nat).
  { intros j p. rewrite Hsl. destruct (decide (j = n)) as [->|].
    - intros Hp. exists i. rewrite decide_True by auto. rewrite <- Ho. auto.
    - destruct (decide (j = i)) as [->|]; [discriminate|]. intros Hp. exists j.
      rewrite decide_False by auto. split_and!; auto. destruct (owned_Some _ _ Hp) as (c & Hc & _).
      unfold slot in Hc. destruct (bms w !! j) eqn:E; [|discriminate].
      apply lookup_lt_Some in E. auto. }
  pose proof (inv_owner _ _ Hg i a Hs) as Ha. split; simpl.
  - apply Hg.
  - intros j c. rewrite Hsl. destruct (decide (j = n)); [intros [= <-]; exact Ha|].
    destruct (decide (j = i)); [intros [= <-]; split; [apply Ha | discriminate]|].
    apply (inv_owner _ _ Hg).
  - intros j k p Hj Hk. destruct (Hback _ _ Hj) as (j' & Hj' & -> & _).
    destruct (Hback _ _ Hk) as (k' & Hk' & -> & _).
    rewrite (inv_unique _ _ Hg j' k' p Hj' Hk'). reflexivity.
  - intros p m Hp. destruct (inv_owned _ _ Hg p m Hp) as [j Hj].
    exists (if decide (j = i) then n else j). rewrite Hsl.
    destruct (decide (j = i)) as [->|].
    + rewrite decide_True by auto. rewrite Ho. auto.
    + destruct (decide (j = n)) as [->|]; [|rewrite decide_False; auto].
      unfold slot in Hj. rewrite lookup_ge_None_2 in Hj by auto. discriminate.
Qed.

Lemma own_step_ok w o : good w -> legal T w o = true -> goes w (step hardened T fresh w o).
Proof.
  intros Hg Hl. pose proof (inv_words _ _ Hg) as Hw. destruct o; simpl in Hl; simpl step.
  - unfold fits in Hl. apply goes_add; auto. apply construct_ok; auto. unfold size_ok. lia.
  - apply andb_true_iff in Hl as [_ Hl]. unfold fits in Hl.
    apply (goes_add w (Ok (mem w, borrow p size))); auto. eexists _, _. split; [reflexivity|].
    apply moves_view; auto. unfold size_ok. lia.
  - destruct (live_slot _ _ Hl) as [a Ha]. rewrite Ha, bind_Ok.
    destruct (bitmap_slot _ _ _ Ha) as [Hs _]. apply goes_add; auto.
    apply copy_construct_ok; auto; apply (inv_owner _ _ Hg i a Hs).
  - destruct (live_slot _ _ Hl) as [a Ha]. rewrite Ha, bind_Ok. eexists. split; [reflexivity|].
    split; [apply (move_good w i a Hg Ha)|]. intros p m Hp. eauto.
  - apply andb_true_iff in Hl as [[a Ha]%live_slot [b Hb]%live_slot].
    destruct (decide (i = j)); [eexists; split; [reflexivity|]; split; [auto | intros p m; eauto]|].
    rewrite Ha, Hb, !bind_Ok. destruct (bitmap_slot _ _ _ Ha) as [Hsa _].
    destruct (bitmap_slot _ _ _ Hb) as [Hsb _]. apply (goes_modify w i a); auto.
    apply assign_ok; auto; try apply (inv_owner _ _ Hg _ _ Hsa); try apply (inv_owner _ _ Hg _ _ Hsb).
    intros H1 H2 He. apply n. apply (inv_unique _ _ Hg i j (h_map a)).
    + rewrite Hsa. simpl. rewrite H1. reflexivity.
    + rewrite Hsb. simpl. rewrite H2. congruence.
  - apply andb_true_iff in Hl as [(a & m & Ha & Hm & Hlen)%usable_slot Hf].
    unfold fits in Hf. rewrite Ha, bind_Ok. destruct (bitmap_slot _ _ _ Ha) as [Hs _].
    apply (goes_modify w i a); auto. apply (resize_ok _ _ _ _ m); auto;
      try apply (inv_owner _ _ Hg i a Hs). unfold size_ok. lia.
  - destruct (live_slot _ _ Hl) as [a Ha]. rewrite Ha, bind_Ok.
    destruct (bitmap_slot _ _ _ Ha) as [Hs Hlt].
    destruct (destroy_ok (mem w) a Hw) as (h & -> & Hm); [apply (inv_owner _ _ Hg i a Hs)|].
    rewrite bind_Ok. eexists. split; [reflexivity|]. rewrite <- Hs in Hm.
    split; [|apply (moves_lent _ _ _ _ _ Hg Hm)].
    apply (inv_step _ _ _ _ _ _ Hg Hm). intros j. apply slot_insert. auto.
  - apply andb_true_iff in Hl as [[Hu Hq]%andb_true_iff Hb].
    destruct (usable_slot _ _ Hu) as (a & m & Ha & Hm & Hlen). unfold bits in Hb. rewrite Ha in *.
    rewrite bind_Ok. destruct (bitmap_slot _ _ _ Ha) as [Hs _].
    destruct (in_place_ok (mem w) a (fun b => Set_ hardened T b q v) m) as (h & r & -> & Hk); auto.
    + apply (inv_owner _ _ Hg i a Hs).
    + intros b Hbm He. destruct (Set_ok hardened T b q v Hbm) as (b' & Hr & Hok); [lia|].
      exists b', (bit T b q). split; [auto|]. split; [apply Hok | apply (Set_len hardened T _ _ _ _ _ Hr)].
    + rewrite bind_Ok. apply (goes_touch w i (Ok h)); eauto.
  - apply goes_in_place; auto. intros a b _ Hbm _.
    destruct (SetAll_ok T b v) as (b' & Hr & Hok); [apply Hbm..|]. exists b'.
    split; [auto|]. split; [apply Hok | apply (SetAll_len T _ _ _ Hr)].
  - rewrite !andb_true_iff in Hl. destruct Hl as [[[Hu Hs0] Hse] He].
    apply goes_in_place; auto. intros a b Ha Hbm Hsz. unfold bits in He. rewrite Ha in He.
    destruct (SetRange_ok T b s e v Hbm) as (b' & Hr & Hok); [lia | lia |].
    exists b'. split; [auto|]. split; [apply Hok | apply (SetRange_len T _ _ _ _ _ Hr)].
  - apply goes_in_place; auto. intros a b _ Hbm _.
    destruct (Complement_ok T b Hbm) as (b' & Hr & Hok). exists b'.
    split; [auto|]. split; [apply Hok | apply (Complement_len T _ _ Hr)].
  - apply andb_true_iff in Hl as [Hi (b & mb & Hb & Hmb & Hlb)%usable_slot].
    destruct (bitmap_slot _ _ _ Hb) as [Hsb _].
    pose proof (goes_in_place w i (fun c => Union T c (mkBitmap mb (h_size b))) Hg Hi) as Hgo.
    destruct (usable_slot _ _ Hi) as (a & m & Ha & _). rewrite Ha, bind_Ok in *.
    rewrite Hb, bind_Ok. unfold load. rewrite Hmb, !bind_Ok. apply Hgo.
    intros a' c _ Hbm _.
    destruct (Union_ok T c (mkBitmap mb (h_size b)) Hbm) as (b' & Hr & Hok).
    { split_and!; simpl; auto; [apply (inv_owner _ _ Hg j b Hsb) |].
      apply (block_words_ok (mem w) (h_map b)); auto. }
    exists b'. split; [auto|]. split; [apply Hok | apply (Union_len T _ _ _ Hr)].
Qed.

Lemma own_run_ok l : forall w, good w -> legal_run hardened T fresh w l = true ->
  exists w', run hardened T fresh w l = Ok w' /\ good w' /\ lent (mem w) (mem w').
Proof.
  induction l as [|o l IH]; intros w Hg Hl; simpl in *.
  { exists w. split_and!; auto. intros p m. eauto. }
  apply andb_true_iff in Hl as [Ho Hl].
  destruct (own_step_ok w o Hg Ho) as (w1 & Hs & Hg1 & Hl1). rewrite Hs in *. simpl.
  destruct (IH w1 Hg1 Hl) as (w2 & -> & Hg2 & Hl2). exists w2. split_and!; auto.
  intros p m Hp. destruct (Hl1 p m Hp) as [m' Hm']. eauto.
Qed.

(** ** What a copy holds *)

(** The bits of bitmap [i]. *)
Definition holds (w : world) (i : nat) (n : Z) (g : Z -> bool) : Prop :=
  exists a b, bitmap w i = Ok a /\ load (mem w) a = Ok b /\ size_ b = n /\
    forall q, 0 <= q < n -> bit T b q = g q.

Lemma copy_words_result h from to n m k h' : block_words h from = Ok m ->
  block_words h to = Ok k -> 0 <= n -> copy_words h from to n = Ok h' ->
  n <= zlen m /\ block_words h' to = Ok (take (Z.to_nat n) m ++ drop (Z.to_nat n) k) /\
  forall p, p <> to -> h' !! p = h !! p.
Proof.
  intros Hf Ht Hn. unfold copy_words. rewrite Hf, Ht, !bind_Ok.
  destruct (Z.leb_spec n (zlen m)); [|discriminate].
  destruct (Z.leb_spec n (zlen k)); [|discriminate]. simpl.
  unfold set_words, block_words in *. destruct (h !! to) as [[x|x|]|] eqn:E; try discriminate;
    intros [= <-]; pose proof (lookup_lt_Some _ _ _ E); rewrite list_lookup_insert_eq by auto;
    (split_and!; [auto | auto | intros p Hp; apply list_lookup_insert_ne; auto]).
Qed.

Lemma bit_take m k n c q : 0 <= q < n -> R n <= zlen m ->
  bit T (mkBitmap (take (Z.to_nat (R n)) m ++ k) c) q = bit T (mkBitmap m n) q.
Proof.
  intros Hq Hm. unfold bit, mbit. simpl. destruct (in_words T q n Hq) as [Hw _].
  rewrite word_app_l by (rewrite zlen_take_le; lia). rewrite word_take by lia. reflexivity.
Qed.

Lemma DeleteMap_result h p n h' : DeleteMap h p n = Ok h' ->
  length h' = length h /\ forall q, q <> p -> h' !! q = h !! q.
Proof.
  unfold DeleteMap. destruct (h !! p) as [[|m|]|]; try discriminate.
  destruct (zlen m =? n); [|discriminate]. intros [= <-].
  split; [apply length_insert|]. intros q Hq. apply list_lookup_insert_ne. auto.
Qed.

(** The first statement leaves the other arrays alone. *)
Lemma fit_result h a n h1 p : (if alloc_ a && negb (h_array_size T a =? n) then
      h ← DeleteMap h (h_map a) (h_array_size T a); Ok (new_map fresh h n)
    else Ok (h, h_map a)) = Ok (h1, p) ->
  (length h <= length h1)%nat /\ (p = h_map a \/ p = length h) /\
  forall q, (q < length h)%nat -> (alloc_ a = true -> q <> h_map a) -> h1 !! q = h !! q.
Proof.
  destruct (alloc_ a); simpl; [|intros [= <- <-]; auto].
  destruct (h_array_size T a =? n); simpl; [intros [= <- <-]; auto|].
  destruct (DeleteMap h (h_map a) (h_array_size T a)) as [h0| |] eqn:E; simpl; try discriminate.
  destruct (DeleteMap_result _ _ _ _ E) as [Hln Hq]. intros [= <- <-].
  rewrite length_app, Hln. split_and!; [lia | auto |]. intros q Hlt Hne.
  rewrite lookup_app_l by lia. auto.
Qed.

Lemma words_inside h p m : block_words h p = Ok m -> (p < length h)%nat.
Proof.
  unfold block_words. destruct (h !! p) eqn:E; [|discriminate]. intros _.
  eapply lookup_lt_Some; eauto.
Qed.

(** After [a = src] both have the bits that [src] had. *)
Lemma assign_holds h a src h' a' m : block_words h (h_map src) = Ok m ->
  size_ok (h_size src) -> h_array_size T src <= zlen m ->
  (alloc_ a = true -> h_map a <> h_map src) -> assign T fresh h a src = Ok (h', a') ->
  h_size a' = h_size src /\ block_words h' (h_map src) = Ok m /\
  exists k, block_words h' (h_map a') = Ok k /\ forall q, 0 <= q < h_size src ->
    bit T (mkBitmap k (h_size src)) q = bit T (mkBitmap m (h_size src)) q.
Proof.
  intros Hm Hs Hl Hne He. pose proof (words_inside _ _ _ Hm) as Hlt.
  pose proof (R_nonneg _ (proj1 Hs)) as Hr. unfold assign in He.
  apply bind_inv in He as ([h1 p] & Hf & He).
  destruct (fit_result _ _ _ _ _ Hf) as (Hln & Hp & Hsame).
  assert (Hm1 : block_words h1 (h_map src) = Ok m).
  { unfold block_words. rewrite Hsame; auto. intros Ha Heq. apply (Hne Ha). auto. }
  destruct (alloc_ src) eqn:Es.
  - assert (Hc : exists h2 p2, h_map src <> p2 /\
      copy_words h2 (h_map src) p2 (h_array_size T src) = Ok h' /\
      a' = mkHandle p2 (h_size src) true /\ block_words h2 (h_map src) = Ok m).
    { destruct (alloc_ a) eqn:Ea; simpl in He; apply bind_inv in He as (h3 & Hc & [= <- <-]).
      - exists h1, p. split_and!; auto. destruct Hp as [->| ->]; [|lia].
        intros Heq. apply Hne; auto.
      - eexists _, _. split; [|split; [exact Hc|]].
        + pose proof (words_inside _ _ _ Hm1). lia.
        + split; [reflexivity|]. unfold block_words in *.
          rewrite lookup_app_l by (eapply words_inside; unfold block_words; eauto). auto. }
    destruct Hc as (h2 & p2 & Hp2 & Hc & -> & Hm2). simpl.
    assert (Ht : exists k, block_words h2 p2 = Ok k).
    { unfold copy_words in Hc. rewrite Hm2, bind_Ok in Hc. apply bind_inv in Hc as (k & Hk & _).
      eauto. }
    destruct Ht as [k Hk]. destruct (copy_words_result _ _ _ _ _ _ _ Hm2 Hk Hr Hc)
      as (Hn & Hres & Hoth).
    split_and!; auto.
    + unfold block_words in *. rewrite Hoth by auto. exact Hm2.
    + eexists. split; [exact Hres|]. intros q Hq. apply bit_take; auto.
  - apply bind_inv in He as (h2 & Hd & [= <- <-]). simpl.
    assert (Hm2 : block_words h2 (h_map src) = Ok m).
    { destruct (alloc_ a) eqn:Ea; [|congruence].
      destruct (DeleteMap_result _ _ _ _ Hd) as [_ Hq]. unfold block_words in *.
      rewrite Hq; [auto|]. destruct Hp as [->| ->]; [|lia]. intros Heq. apply Hne; auto. }
    split_and!; auto. exists m. auto.
Qed.
End own.

(** C34. Bitmaps over borrowed and allocated arrays of words, copied, moved from, assigned,
    resized, changed and destroyed in any order, with words touched only through bitmaps
    whose array still exists: nothing undefined happens, no array is deleted twice or
    with the wrong size, none that the caller lent is deleted, and none is leaked, since
    every allocated array has exactly one owner and every owner a usable array.  An
    assignment makes the bits equal, unless the source borrows the array that the
    target owns. *)
Theorem Bitmap_ownership (HM : BuildMode) (hardened : bool) (T : WordType)
    (fresh : nat -> list Z) (lent_words : list (list Z)) (l : list op) :
  (forall n, length (fresh n) = n /\ words_ok T (fresh n)) ->
  Forall (words_ok T) lent_words ->
  legal_run hardened T fresh (mkWorld (map External lent_words) []) l = true ->
  exists w, run hardened T fresh (mkWorld (map External lent_words) []) l = Ok w /\
    (forall i a, bitmap w i = Ok a -> alloc_ a = true -> usable T w i = true) /\
    (forall p m, mem w !! p = Some (Owned m) -> exists i a,
       bitmap w i = Ok a /\ alloc_ a = true /\ h_map a = p /\ zlen m = h_array_size T a /\
       forall j b, bitmap w j = Ok b -> alloc_ b = true -> h_map b = p -> j = i) /\
    (forall p, (p < length lent_words)%nat -> exists m, mem w !! p = Some (External m)) /\
    (forall i j a b, i <> j -> bitmap w i = Ok a -> bitmap w j = Ok b -> usable T w j = true ->
       (alloc_ a = true -> h_map a <> h_map b) ->
       exists w' g, step hardened T fresh w (OAssign i j) = Ok w' /\
         holds T w j (h_size b) g /\ holds T w' i (h_size b) g /\ holds T w' j (h_size b) g).
Proof.
  intros Hf Hlent Hl.
  assert (Hg : good T (mkWorld (map External lent_words) [])).
  { split; simpl; try done.
    - apply Forall_map. exact Hlent.
    - intros p m Hp. change (map External lent_words) with (External <$> lent_words) in Hp.
      apply list_lookup_fmap_Some in Hp as (x & ? & _). discriminate. }
  destruct (own_run_ok hardened T fresh Hf l _ Hg Hl) as (w & Hr & Hw & Hlw).
  exists w. split; [exact Hr|]. split_and!.
  - intros i a Hb Ha. destruct (bitmap_slot _ _ _ Hb) as [Hs _].
    destruct (proj2 (inv_owner _ _ _ Hw i a Hs) Ha) as (m & Hm & Hz).
    unfold usable, block_words. rewrite Hb, Hm. lia.
  - intros p m Hp. destruct (inv_owned _ _ _ Hw p m Hp) as [i Hi].
    destruct (inv_array _ _ _ _ _ Hw Hi) as (a & m' & Hs & Hpa & Hm' & Hz & _).
    destruct (owned_Some _ _ Hi) as (a' & Ha' & Hal & _). rewrite Hs in Ha'.
    injection Ha' as <-. exists i, a. split_and!; auto using slot_bitmap; [congruence|].
    intros j b [Hb _]%bitmap_slot Hbal Hpb. apply (inv_unique _ _ _ Hw j i p); auto.
    rewrite Hb. simpl. rewrite Hbal. congruence.
  - intros p Hp. destruct (lookup_lt_is_Some_2 lent_words p Hp) as [m Hm].
    apply (Hlw p m). simpl. change (map External lent_words) with (External <$> lent_words).
    rewrite list_lookup_fmap, Hm. reflexivity.
  - intros i j a b Hij Ha Hb Hu Hne.
    destruct (usable_slot _ _ _ Hu) as (b' & m & Hb' & Hm & Hlen). rewrite Hb in Hb'.
    injection Hb' as <-. destruct (bitmap_slot _ _ _ Ha) as [Hsa Hlt].
    destruct (bitmap_slot _ _ _ Hb) as [Hsb _].
    pose proof (inv_owner _ _ _ Hw i a Hsa) as [_ Hoa].
    pose proof (inv_owner _ _ _ Hw j b Hsb) as [Hszb Hob].
    destruct (assign_ok T fresh Hf (mem w) a b (inv_words _ _ _ Hw) Hszb Hoa Hob (fun H _ => Hne H))
      as (h' & a' & He & _).
    destruct (assign_holds T fresh _ _ _ _ _ _ Hm Hszb Hlen Hne He) as (Hs' & Hmb & k & Hk & Hbits).
    exists (mkWorld h' (<[i := Some a']> (bms w))), (bit T (mkBitmap m (h_size b))).
    assert (Hi' : bitmap (mkWorld h' (<[i := Some a']> (bms w))) i = Ok a').
    { apply slot_bitmap. simpl. rewrite slot_insert, decide_True; auto. }
    assert (Hj' : bitmap (mkWorld h' (<[i := Some a']> (bms w))) j = Ok b).
    { apply slot_bitmap. simpl. rewrite slot_insert, decide_False; auto. }
    split; [|split; [|split]].
    + unfold step. rewrite decide_False, Ha, Hb by auto. rewrite !bind_Ok, He. reflexivity.
    + exists b, (mkBitmap m (h_size b)). unfold load. rewrite Hm. auto.
    + exists a', (mkBitmap k (h_size b)). unfold load. simpl. rewrite Hk, Hs'. auto.
    + exists b, (mkBitmap m (h_size b)). unfold load. simpl. rewrite Hmb. auto.
Qed.

Definition own_pattern (n : nat) : list Z := replicate n 165.

Lemma own_pattern_ok n : length (own_pattern n) = n /\ words_ok WU8 (own_pattern n).
Proof.
  split; [apply length_replicate|]. apply Forall_replicate. intros j Hj.
  change (kIntBits WU8) with 8 in Hj. rewrite (testbit_small 165 8 j) by lia. reflexivity.
Qed.

(** Copies, a move, an assignment between a borrowed and an owned array in both
    directions, a change of size, and the end of all but one bitmap. *)
Definition sample : list op :=
  [OConstruct 20 true; OBorrow 0 12; OCopy 0; OMove 0; OSet 0 3 false; OAssign 1 3; OAssign 2 0;
   OBorrow 0 17; OAssign 1 4; OResize 1 40 true; OUnion 1 4; OResize 3 5 false; OComplement 1;
   OSetRange 1 2 30 true; OCopy 1; ODestroy 4; ODestroy 2; ODestroy 0; ODestroy 3; ODestroy 5].

Lemma Bitmap_ownership_witness :
  @legal_run opt_build false WU8 own_pattern (mkWorld (map External [[1; 2; 3]]) []) sample = true /\
  exists w, @run opt_build false WU8 own_pattern (mkWorld (map External [[1; 2; 3]]) []) sample = Ok w.
Proof.
  split; [vm_compute; reflexivity|].
  destruct (Bitmap_ownership opt_build false WU8 own_pattern [[1; 2; 3]] sample own_pattern_ok)
    as (w & Hw & _).
  - repeat constructor; intros j Hj; change (kIntBits WU8) with 8 in Hj;
      rewrite (testbit_small _ 8 j) by lia; reflexivity.
  - vm_compute. reflexivity.
  - exists w. exact Hw.
Defined.

(** A bitmap that was moved from borrows the array of the new one.  Assigning it to the
    new one deletes that array, and the next use of either is undefined. *)
Lemma assign_from_moved :
  exists w, @run opt_build false WU8 own_pattern (mkWorld [] [])
    [OConstruct 20 true; OMove 0; OAssign 1 0] = Ok w /\
  @step opt_build false WU8 own_pattern w (OSet 1 3 false) = UB /\
  @step opt_build false WU8 own_pattern w (OSet 0 3 false) = UB.
Proof. eexists. split; [vm_compute; reflexivity|]. split; reflexivity. Qed.
