(* ===== verification/Monitor.v ===== *)
(** * Threads on a shared object with a mutex

    The frame of the components whose operations hold one mutex from beginning to
    end and wait on condition variables ([Semaphore], [WaitQueue]).  What a thread
    does between taking the mutex and giving it up, by returning or by waiting, is a
    section: a function of the shared state and of what the section reads from
    outside (clocks).  A thread inside an operation is the point at which it waits
    and whether it sleeps.  [Wait] gives up the mutex and sleeps in one step,
    [Signal] wakes one thread that sleeps on the condition variable, if there is
    one, [SignalAll] all of them; a sleeping thread may also wake without a signal,
    for a deadline or for no reason.

    The lemmas are those that every such component needs: signals change nothing
    but who sleeps, a thread that sleeps has a reason to, and woken threads run only
    finitely often. *)
From Stdlib Require Import ZArith Lia.
From stdpp Require Import base gmap list relations.
From S2P Require Import Prelude.

(** Runs of an abstract specification: steps with what clients see of them. *)
Inductive spec_run {A E : Type} (step : A -> E -> A -> Prop) : A -> list E -> A -> Prop :=
| spec_nil a : spec_run step a [] a
| spec_cons a ev b evs c : step a ev b -> spec_run step b evs c -> spec_run step a (ev :: evs) c.

Lemma spec_run_one {A E} (step : A -> E -> A -> Prop) a ev b : step a ev b -> spec_run step a [ev] b.
Proof. intros. econstructor; [done|constructor]. Qed.

Lemma spec_run_app {A E} (step : A -> E -> A -> Prop) a evs1 b evs2 c :
  spec_run step a evs1 b -> spec_run step b evs2 c -> spec_run step a (evs1 ++ evs2) c.
Proof. induction 1 as [|a ev b0 evs1 b St _ IH]; [done|]. intros R. cbn. econstructor; [done|by apply IH]. Qed.

Section signals.
Context {CV PC R : Type}.

Inductive signal := Signal (c : CV) | SignalAll (c : CV).

(** How a section ends. *)
Inductive ending := Return (r : R) | Wait (p : PC).
End signals.
Arguments signal : clear implicits.
Arguments ending : clear implicits.

(** The operations [Rq] of an object with state [St], with results [R], that wait at
    the points [PC] for the condition variables [CV]; [In] is what a section reads
    from outside. *)
Class Monitor (St Rq In PC CV R : Type) := {
  enter : St -> Rq -> In -> outcome (St * list (signal CV) * ending PC R);
  resume : St -> PC -> In -> outcome (St * list (signal CV) * ending PC R);
  waits_on : PC -> CV;
}.

Section monitor.
Context {St Rq In PC CV R : Type} `{EqDecision CV} `{Monitor St Rq In PC CV R}.

(** A thread in an operation, and whether it sleeps. *)
Abbreviation threads_of := (gmap nat (PC * bool)).
Implicit Types (th : threads_of) (t : nat) (p : PC) (sg : list (signal CV)).

Record mstate := { shared : St; threads : threads_of }.

Definition rouse (c : CV) (pb : PC * bool) : PC * bool :=
  if decide (waits_on pb.1 = c) then (pb.1, false) else pb.

Inductive wake : threads_of -> list (signal CV) -> threads_of -> Prop :=
| wake_nil th : wake th [] th
| wake_one th t p c sg th' : th !! t = Some (p, true) -> waits_on p = c ->
    wake (<[t := (p, false)]> th) sg th' -> wake th (Signal c :: sg) th'
| wake_nobody th c sg th' : (forall t p, th !! t = Some (p, true) -> waits_on p <> c) ->
    wake th sg th' -> wake th (Signal c :: sg) th'
| wake_all th c sg th' : wake (rouse c <$> th) sg th' -> wake th (SignalAll c :: sg) th'.

Definition after th t (e : ending PC R) : threads_of :=
  match e with Return _ => delete t th | Wait p => <[t := (p, true)]> th end.

Inductive label := Call (t : nat) (rq : Rq) (i : In) | Resume (t : nat) (p : PC) (i : In) | Spurious (t : nat).

Inductive mstep : mstate -> label -> option (ending PC R) -> mstate -> Prop :=
| mstep_call s th t rq i s' sg e th' : th !! t = None -> enter s rq i = Ok (s', sg, e) -> wake th sg th' ->
    mstep {| shared := s; threads := th |} (Call t rq i) (Some e) {| shared := s'; threads := after th' t e |}
| mstep_resume s th t p i s' sg e th' : th !! t = Some (p, false) -> resume s p i = Ok (s', sg, e) ->
    wake (delete t th) sg th' ->
    mstep {| shared := s; threads := th |} (Resume t p i) (Some e) {| shared := s'; threads := after th' t e |}
| mstep_spurious s th t p b : th !! t = Some (p, b) ->
    mstep {| shared := s; threads := th |} (Spurious t) None {| shared := s; threads := <[t := (p, false)]> th |}.

Abbreviation trace := (list (label * option (ending PC R))).

Inductive mrun : mstate -> trace -> mstate -> Prop :=
| mrun_nil s : mrun s [] s
| mrun_cons s lb e s1 tr s' : mstep s lb e s1 -> mrun s1 tr s' -> mrun s ((lb, e) :: tr) s'.

(** The object before any thread has come. *)
Definition idle (s : St) : mstate := {| shared := s; threads := ∅ |}.

(** The steps of threads that were woken: no new calls, no wake-ups without a signal. *)
Definition istep (s s' : mstate) : Prop := exists t p i e, mstep s (Resume t p i) e s'.

(** ** Signals *)

Lemma mon_rouse_fst c pb : (rouse c pb).1 = pb.1.
Proof. unfold rouse. by destruct (decide _). Qed.

(** The points at which threads are, awake or not. *)
Definition pcs th : gmap nat PC := fst <$> th.

Lemma mon_pcs_lookup th t p : pcs th !! t = Some p <-> exists b, th !! t = Some (p, b).
Proof.
  unfold pcs. rewrite lookup_fmap, fmap_Some. split; [intros ([? b] & E & ->); by exists b|intros [b E]; by exists (p, b)].
Qed.

Lemma mon_pcs_awake th t p b b' : th !! t = Some (p, b) -> pcs (<[t := (p, b')]> th) = pcs th.
Proof.
  intros E. unfold pcs. rewrite fmap_insert. apply insert_id. cbn. by rewrite lookup_fmap, E.
Qed.

Lemma mon_pcs_rouse c th : pcs (rouse c <$> th) = pcs th.
Proof. unfold pcs. rewrite <- map_fmap_compose. apply map_fmap_ext. intros i x _. apply mon_rouse_fst. Qed.

Lemma mon_wake_pcs th sg th' : wake th sg th' -> pcs th' = pcs th.
Proof.
  induction 1 as [th|th t p c sg th' E Ec W IH|th c sg th' Hn W IH|th c sg th' W IH]; [done| |done|].
  - rewrite IH. by apply (mon_pcs_awake _ _ _ true).
  - rewrite IH. apply mon_pcs_rouse.
Qed.

Lemma mon_wake_None th sg th' t : wake th sg th' -> th !! t = None -> th' !! t = None.
Proof.
  intros W E. apply mon_wake_pcs in W. apply (f_equal (lookup t)) in W. unfold pcs in W.
  rewrite !lookup_fmap, E in W. by destruct (th' !! t).
Qed.

(** Who sleeps after the signals slept before. *)
Lemma mon_wake_sleeper th sg th' t p : wake th sg th' -> th' !! t = Some (p, true) ->
  th !! t = Some (p, true) /\ SignalAll (waits_on p) ∉ sg.
Proof.
  induction 1 as [th|th t' p' c sg th' E Ec W IH|th c sg th' Hn W IH|th c sg th' W IH]; intros E'.
  - split; [done|apply not_elem_of_nil].
  - destruct (IH E') as [Hs Hns]. split.
    + apply lookup_insert_Some in Hs as [[_ ?]|[_ ?]]; [congruence|done].
    + rewrite not_elem_of_cons. by split.
  - destruct (IH E') as [Hs Hns]. split; [done|]. rewrite not_elem_of_cons. by split.
  - destruct (IH E') as [Hs Hns]. rewrite lookup_fmap in Hs. apply fmap_Some in Hs as ([p1 b1] & Hs & Hr).
    unfold rouse in Hr. cbn in Hr. destruct (decide (waits_on p1 = c)) as [?|Hne]; [congruence|]. injection Hr as <- <-.
    split; [done|]. rewrite not_elem_of_cons. split; [congruence|done].
Qed.

(** Who was awake still is. *)
Lemma mon_wake_awake th sg th' t p : wake th sg th' -> th !! t = Some (p, false) -> th' !! t = Some (p, false).
Proof.
  intros W E. pose proof (mon_wake_pcs _ _ _ W) as Hp. apply (f_equal (lookup t)) in Hp. unfold pcs in Hp.
  rewrite !lookup_fmap, E in Hp. destruct (th' !! t) as [[p' b]|] eqn:E'; [|done]. injection Hp as ->.
  destruct b; [|done]. apply (mon_wake_sleeper _ _ _ _ _ W) in E' as [? _]. congruence.
Qed.

Lemma mon_wake_exists th sg : exists th', wake th sg th'.
Proof.
  revert th. induction sg as [|[c|c] sg IH]; intros th.
  - exists th. constructor.
  - destruct (decide (map_Forall (fun _ pb => ~ (pb.2 = true /\ waits_on pb.1 = c)) th)) as [Hf|Hf].
    + destruct (IH th) as [th' W]. exists th'. apply wake_nobody; [|done]. intros t p E Hc. by apply (Hf t (p, true) E).
    + apply map_not_Forall in Hf as (t & [p b] & E & Hp); [|intros ? ?; apply _]. apply dec_stable in Hp as [Hb Hc].
      cbn in Hb, Hc. subst b. destruct (IH (<[t := (p, false)]> th)) as [th' W]. exists th'. by apply (wake_one th t p).
  - destruct (IH (rouse c <$> th)) as [th' W]. exists th'. by constructor.
Qed.

(** ** Sleeping for a reason *)

(** Every sleeping thread has a reason that depends on the shared state. *)
Definition justified (reason : St -> PC -> Prop) (s : St) th : Prop :=
  forall t p, th !! t = Some (p, true) -> reason s p.

(** A section keeps this when it wakes those whose reason it takes away. *)
Lemma mon_justified_section (reason : St -> PC -> Prop) s s' th sg th' t e :
  justified reason s th -> wake th sg th' ->
  (forall p, reason s p -> reason s' p \/ SignalAll (waits_on p) ∈ sg) ->
  (forall p, e = Wait p -> reason s' p) -> justified reason s' (after th' t e).
Proof.
  intros Hj W Hs He t' p E. destruct e as [r|p1]; cbn in E.
  - apply lookup_delete_Some in E as [_ E]. apply (mon_wake_sleeper _ _ _ _ _ W) in E as [E Hn].
    destruct (Hs p (Hj t' p E)); done.
  - apply lookup_insert_Some in E as [[<- [= <-]]|[_ E]]; [by apply He|].
    apply (mon_wake_sleeper _ _ _ _ _ W) in E as [E Hn]. destruct (Hs p (Hj t' p E)); done.
Qed.

Lemma mon_justified_delete (reason : St -> PC -> Prop) s th t : justified reason s th -> justified reason s (delete t th).
Proof. intros Hj t' p E. apply lookup_delete_Some in E as [_ E]. by apply (Hj t'). Qed.

Lemma mon_justified_spurious (reason : St -> PC -> Prop) s th t p :
  justified reason s th -> justified reason s (<[t := (p, false)]> th).
Proof. intros Hj t' p' E. apply lookup_insert_Some in E as [[_ [=]]|[_ E]]. by apply (Hj t'). Qed.

(** ** Sleeping while others are awake

    Where one signal is for one of several threads, a thread may sleep although it
    could go on, as long as enough others are awake: [covered c n] says that nobody
    sleeps on [c], or that at least [n] threads that slept on it are awake. *)

Definition awake_on (c : CV) th : threads_of := filter (fun kp => waits_on kp.2.1 = c /\ kp.2.2 = false) th.
Definition quiet (c : CV) th : Prop := forall t p, th !! t = Some (p, true) -> waits_on p <> c.
Definition covered (c : CV) (n : Z) th : Prop := quiet c th \/ (n <= Z.of_nat (size (awake_on c th)))%Z.

Lemma mon_awake_on_lookup c th t p b : awake_on c th !! t = Some (p, b) <-> th !! t = Some (p, b) /\ waits_on p = c /\ b = false.
Proof. unfold awake_on. by rewrite map_lookup_filter_Some. Qed.

Lemma mon_covered_weaken c n n' th : covered c n th -> (n' <= n)%Z -> covered c n' th.
Proof. intros [Hq|Hn] Hle; [by left|right; lia]. Qed.

Lemma mon_covered_zero c n th : (n <= 0)%Z -> covered c n th.
Proof. right. lia. Qed.

Lemma mon_quiet_wake c th sg th' : wake th sg th' -> quiet c th -> quiet c th'.
Proof. intros W Hq t p E. apply (mon_wake_sleeper _ _ _ _ _ W) in E as [E _]. by apply (Hq t). Qed.

Lemma mon_awake_on_mono c th th' : (forall t p, th !! t = Some (p, false) -> waits_on p = c -> th' !! t = Some (p, false)) ->
  awake_on c th ⊆ awake_on c th'.
Proof.
  intros Hm. apply map_subseteq_spec. intros t [p b]. rewrite !mon_awake_on_lookup. intros (E & Hc & ->). split; [by apply Hm|done].
Qed.

Lemma mon_awake_on_wake c th sg th' : wake th sg th' -> (size (awake_on c th) <= size (awake_on c th'))%nat.
Proof. intros W. apply map_subseteq_size, mon_awake_on_mono. intros t p E _. by apply (mon_wake_awake _ _ _ _ _ W). Qed.

(** A signal wakes one more, or finds nobody asleep. *)
Lemma mon_wake_signal c th sg th' : wake th sg th' -> Signal c ∈ sg ->
  quiet c th' \/ (size (awake_on c th) + 1 <= size (awake_on c th'))%nat.
Proof.
  induction 1 as [th|th t p c0 sg th' E Ec W IH|th c0 sg th' Hn W IH|th c0 sg th' W IH]; intros Hs;
    [by apply not_elem_of_nil in Hs|..]; apply elem_of_cons in Hs as [Hs|Hs].
  - injection Hs as <-. right. pose proof (mon_awake_on_wake c _ _ _ W) as Hle.
    assert (awake_on c (<[t := (p, false)]> th) = <[t := (p, false)]> (awake_on c th)) as Heq.
    { unfold awake_on. by apply map_filter_insert_True. }
    rewrite Heq in Hle. rewrite map_size_insert_None in Hle; [lia|].
    destruct (awake_on c th !! t) as [[p' b]|] eqn:E'; [|done]. apply mon_awake_on_lookup in E' as (? & _ & ->). congruence.
  - destruct (IH Hs) as [?|Hle]; [by left|right].
    assert (size (awake_on c th) <= size (awake_on c (<[t := (p, false)]> th)))%nat; [|lia].
    apply map_subseteq_size, mon_awake_on_mono. intros t' p' E' _. rewrite lookup_insert_ne; [done|]. intros <-. congruence.
  - injection Hs as <-. left. by apply (mon_quiet_wake c _ _ _ W).
  - by apply IH.
  - done.
  - destruct (IH Hs) as [?|Hle]; [by left|right].
    assert (size (awake_on c th) <= size (awake_on c (rouse c0 <$> th)))%nat; [|lia].
    apply map_subseteq_size, mon_awake_on_mono. intros t' p' E' _. rewrite lookup_fmap, E'. cbn. unfold rouse. cbn.
    by destruct (decide _).
Qed.

Lemma mon_wake_all_quiet c th sg th' : wake th sg th' -> SignalAll c ∈ sg -> quiet c th'.
Proof. intros W Hs t p E Hc. apply (mon_wake_sleeper _ _ _ _ _ W) in E as [_ Hn]. subst c. done. Qed.

(** The signals of a section cover what it makes possible. *)
Lemma mon_covered_wake c n n' th sg th' : covered c n th -> wake th sg th' ->
  (n' <= n)%Z \/ (n' <= n + 1)%Z /\ Signal c ∈ sg \/ SignalAll c ∈ sg -> covered c n' th'.
Proof.
  intros Hcov W [Hle|[[Hle Hs]|Hs]].
  - destruct Hcov as [Hq|Hn]; [left; by apply (mon_quiet_wake c _ _ _ W)|right]. pose proof (mon_awake_on_wake c _ _ _ W). lia.
  - destruct (mon_wake_signal c _ _ _ W Hs) as [Hq|Hsz]; [by left|].
    destruct Hcov as [Hq|Hn]; [left; by apply (mon_quiet_wake c _ _ _ W)|right; lia].
  - left. by apply (mon_wake_all_quiet c _ _ _ W).
Qed.

(** Going back to sleep on [c] is fine when nobody needs to be awake. *)
Lemma mon_covered_after c n th t e : covered c n th -> th !! t = None ->
  (forall p, e = Wait p -> waits_on p = c -> (n <= 0)%Z) -> covered c n (after th t e).
Proof.
  intros Hcov E Hw. destruct e as [r|p]; cbn; [by rewrite delete_id|].
  destruct (decide (waits_on p = c)) as [Hc|Hc]; [apply mon_covered_zero; by apply (Hw p)|].
  destruct Hcov as [Hq|Hn]; [left|right].
  - intros t' p' E'. apply lookup_insert_Some in E' as [[_ [= <-]]|[_ E']]; [done|by apply (Hq t')].
  - assert (size (awake_on c th) <= size (awake_on c (<[t := (p, true)]> th)))%nat; [|lia].
    apply map_subseteq_size, mon_awake_on_mono. intros t' p' E' _. rewrite lookup_insert_ne; [done|]. intros <-. congruence.
Qed.

(** A thread that runs is one less. *)
Lemma mon_covered_delete c n th t p : covered c n th -> th !! t = Some (p, false) ->
  covered c (if decide (waits_on p = c) then n - 1 else n) (delete t th).
Proof.
  intros [Hq|Hn] E.
  - left. intros t' p' E'. apply lookup_delete_Some in E' as [_ E']. by apply (Hq t').
  - right. unfold awake_on in *. rewrite map_filter_delete. fold (awake_on c th) in *.
    destruct (decide (waits_on p = c)) as [Hc|Hc].
    + pose proof (map_size_delete (M := gmap nat) t (awake_on c th)) as Hd.
      destruct (awake_on c th !! t) as [pb|] eqn:E'.
      * rewrite Hd. lia.
      * assert (awake_on c th !! t = Some (p, false)) by (by apply mon_awake_on_lookup). congruence.
    + rewrite delete_id; [done|]. destruct (awake_on c th !! t) as [[p' b]|] eqn:E'; [|done].
      apply mon_awake_on_lookup in E' as (E' & Hc' & _). congruence.
Qed.

Lemma mon_covered_spurious c n th t p b : covered c n th -> th !! t = Some (p, b) -> covered c n (<[t := (p, false)]> th).
Proof.
  intros [Hq|Hn] E; [left|right].
  - intros t' p' E'. apply lookup_insert_Some in E' as [[_ [=]]|[_ E']]. by apply (Hq t').
  - assert (size (awake_on c th) <= size (awake_on c (<[t := (p, false)]> th)))%nat; [|lia].
    apply map_subseteq_size, mon_awake_on_mono. intros t' p' E' _. destruct (decide (t' = t)) as [->|Hn'].
    + rewrite lookup_insert_eq. congruence.
    + by rewrite lookup_insert_ne.
Qed.

(** When all threads on [c] sleep, they have nothing to do. *)
Lemma mon_covered_asleep c n th t p : covered c n th ->
  (forall t p b, th !! t = Some (p, b) -> waits_on p = c -> b = true) -> th !! t = Some (p, true) -> waits_on p = c -> (n <= 0)%Z.
Proof.
  intros [Hq|Hn] Hall E Hc; [by destruct (Hq t p E)|].
  assert (awake_on c th = ∅) as H0; [|by rewrite H0, map_size_empty in Hn].
  apply map_empty. intros t'. destruct (awake_on c th !! t') as [[p' b]|] eqn:E'; [|done].
  apply mon_awake_on_lookup in E' as (E' & Hc' & ->). by specialize (Hall t' p' false E' Hc').
Qed.

(** ** Woken threads run finitely often *)

Section progress.
Context (work : PC -> nat).

Definition total_work (m : gmap nat PC) : nat := map_fold (fun _ p n => work p + n) 0 m.

Lemma mon_total_work_insert m t p : m !! t = None -> total_work (<[t := p]> m) = work p + total_work m.
Proof. intros E. unfold total_work. rewrite map_fold_insert_L; [done| |done]. intros. lia. Qed.

Lemma mon_total_work_delete m t p : m !! t = Some p -> total_work m = work p + total_work (delete t m).
Proof. intros E. rewrite <- (insert_delete_id m t p E) at 1. apply mon_total_work_insert, lookup_delete_eq. Qed.

Definition awake th : threads_of := filter (fun kp => kp.2.2 = false) th.

Lemma mon_awake_lookup th t p b : awake th !! t = Some (p, b) <-> th !! t = Some (p, b) /\ b = false.
Proof. unfold awake. rewrite map_lookup_filter_Some. done. Qed.

(** Going back to sleep without a signal. *)
Lemma mon_awake_decr th t p p' : th !! t = Some (p, false) ->
  (size (awake (<[t := (p', true)]> (delete t th))) < size (awake th))%nat.
Proof.
  intros E. assert (awake (<[t := (p', true)]> (delete t th)) = delete t (awake th)) as ->.
  { rewrite insert_delete_eq. apply map_eq. intros t'. apply option_eq. intros [p2 b2].
    rewrite mon_awake_lookup, lookup_delete_Some, mon_awake_lookup.
    destruct (decide (t' = t)) as [->|Hn]; [rewrite lookup_insert_eq|rewrite lookup_insert_ne by done].
    - split; [intros [[= _ <-] ?]; congruence|by intros [? _]].
    - split; [intros [? ?]; by split_and!|by intros [_ ?]]. }
  assert (awake th !! t = Some (p, false)) as Ea by (by apply mon_awake_lookup).
  rewrite map_size_delete_Some by (by eexists).
  assert (size (awake th) <> 0%nat); [|lia]. intros H0. apply map_size_empty_inv in H0. by rewrite H0, lookup_empty in Ea.
Qed.

Context (inv : mstate -> Prop).
Context (inv_istep : forall s s', inv s -> istep s s' -> inv s').
Context (work_pos : forall p, (0 < work p)%nat).
(** A woken thread that waits again has less to do, or has woken nobody. *)
Context (works : forall s t p i s' sg p', inv s -> threads s !! t = Some (p, false) ->
  resume (shared s) p i = Ok (s', sg, Wait p') -> (work p' < work p)%nat \/ work p' = work p /\ sg = []).

Lemma mon_istep_decr s s' : inv s -> istep s s' ->
  (total_work (pcs (threads s')) < total_work (pcs (threads s)))%nat \/
  total_work (pcs (threads s')) = total_work (pcs (threads s)) /\ (size (awake (threads s')) < size (awake (threads s)))%nat.
Proof.
  intros Hi (t & p & i & e & Stp). inversion Stp as [|s0 th t0 p0 i0 s1 sg e1 th' E Er W|]; subst. cbn [threads shared] in *.
  assert (pcs th !! t = Some p) as Ep by (apply mon_pcs_lookup; by eexists).
  pose proof (mon_total_work_delete _ _ _ Ep) as Ht. pose proof (mon_wake_pcs _ _ _ W) as Hw.
  assert (pcs (delete t th) = delete t (pcs th)) as Hd by (unfold pcs; by rewrite fmap_delete). rewrite Hd in Hw.
  assert (th' !! t = None) as En by (apply (mon_wake_None _ _ _ t W), lookup_delete_eq).
  destruct e1 as [r|p']; cbn [after].
  - left. rewrite delete_id, Hw by done. specialize (work_pos p). lia.
  - assert (total_work (pcs (<[t := (p', true)]> th')) = work p' + total_work (delete t (pcs th)))%nat as Hn.
    { unfold pcs. rewrite fmap_insert. fold (pcs th'). rewrite Hw. apply mon_total_work_insert, lookup_delete_eq. }
    destruct (works {| shared := s0; threads := th |} t p i s1 sg p' Hi E Er) as [Hlt|[Heq ->]]; [left; lia|right].
    split; [lia|]. inversion W; subst. by apply (mon_awake_decr _ _ p).
Qed.

Lemma mon_istep_sn s : inv s -> sn istep s.
Proof.
  remember (total_work (pcs (threads s))) as n eqn:En. remember (size (awake (threads s))) as m eqn:Em.
  revert m s En Em. induction (lt_wf n) as [n _ IHn]. intros m. induction (lt_wf m) as [m _ IHm].
  intros s En Em Hi. constructor. intros s' Stp. pose proof (inv_istep s s' Hi Stp) as Hi'.
  destruct (mon_istep_decr s s' Hi Stp) as [Hlt|[He Hlt]].
  - by apply (IHn (total_work (pcs (threads s'))) ltac:(lia) _ s' eq_refl eq_refl).
  - by apply (IHm (size (awake (threads s'))) ltac:(lia) s' ltac:(congruence) eq_refl).
Qed.
End progress.

(** ** Invariants of runs *)

Lemma mon_run_app s tr1 s1 tr2 s2 : mrun s tr1 s1 -> mrun s1 tr2 s2 -> mrun s (tr1 ++ tr2) s2.
Proof. induction 1 as [s|s lb e s0 tr s' Stp _ IH]; [done|]. intros R2. cbn. econstructor; [done|by apply IH]. Qed.

(** A thread that was woken can run if its section ends. *)
Lemma mon_resume_step s t p i s' sg e : threads s !! t = Some (p, false) -> resume (shared s) p i = Ok (s', sg, e) ->
  exists th', mstep s (Resume t p i) (Some e) {| shared := s'; threads := th' |}.
Proof.
  intros E Er. destruct (mon_wake_exists (delete t (threads s)) sg) as [th' W]. destruct s as [s th].
  exists (after th' t e). by eapply mstep_resume.
Qed.

Lemma mon_call_step s t rq i s' sg e : threads s !! t = None -> enter (shared s) rq i = Ok (s', sg, e) ->
  exists th', mstep s (Call t rq i) (Some e) {| shared := s'; threads := th' |}.
Proof.
  intros E Er. destruct (mon_wake_exists (threads s) sg) as [th' W]. destruct s as [s th].
  exists (after th' t e). by eapply mstep_call.
Qed.

(** When no woken thread is left, everybody sleeps. *)
Lemma mon_stuck_asleep s (total : forall p i, exists s' sg e, resume (shared s) p i = Ok (s', sg, e)) (i : In) :
  (forall s', ~ istep s s') -> forall t p b, threads s !! t = Some (p, b) -> b = true.
Proof.
  intros Hst t p [] E; [done|]. destruct (total p i) as (s' & sg & e & Er).
  destruct (mon_resume_step s t p i s' sg e E Er) as [th' Stp]. destruct (Hst {| shared := s'; threads := th' |}).
  by exists t, p, i, (Some e).
Qed.
End monitor.
Arguments mstate : clear implicits.
Arguments label : clear implicits.
