(* ===== verification/Semaphore.v ===== *)
(** * Weighted semaphores

    [thread/simple_weighted_semaphore.{h,cc}]: a bound on the total cost of what
    threads do at the same time.  [Acquire] waits until its cost fits, [Release]
    gives it back, [Stop] forbids acquires and waits until everything is given back,
    [Start] allows them again.  The operations are sections in the frame of
    [Monitor], one per stretch that holds [pending_operations_lock_]; what a section
    reads from outside are two readings of the cycle counter.

    The properties: every run is a run of an abstract throttle; no check fails but
    that of a [Release] of more than is held; and no wake-up is lost, so when
    everything has been given back nobody waits in [Stop] or [Start], nor in an
    acquire that fits. *)
From Stdlib Require Import ZArith Lia.
From stdpp Require Import base gmap list relations.
From S2P Require Import Prelude.
From S2P Require Import Monitor.
Local Open Scope Z_scope.

(** ** Timers *)

(** [CycleTimer] of [base/timer.h]; its methods get the reading of the clock. *)
Module CycleTimer.
Record CycleTimer := { start_ : Z; sum_ : Z }.

Definition Reset : CycleTimer := {| start_ := 0; sum_ := 0 |}.
Definition Start (ct : CycleTimer) (now : Z) : CycleTimer := {| start_ := now; sum_ := sum_ ct |}.
Definition Restart (now : Z) : CycleTimer := Start Reset now.
Definition GetCycles (ct : CycleTimer) (now : Z) : Z :=
  sum_ ct + (if start_ ct =? 0 then 0 else now - start_ ct).
End CycleTimer.
Abbreviation CycleTimer := CycleTimer.CycleTimer.

(** The clock when a section starts its timer and when it reads it. *)
Record readings := { at_start : Z; at_end : Z }.

(** ** The semaphore *)

Record SimpleWeightedSemaphore := {
  pending_cost_ : Z;
  max_cost_ : Z;
  stopped_ : bool;
  stopping_ : bool;
  stop_on_exit_ : bool;
}.

Inductive condvar := acquire_changed_ | no_pending_ops_ | stop_finished_ | started_.
#[global] Instance condvar_eq_dec : EqDecision condvar.
Proof. solve_decision. Defined.

(** The waits: in [Stop], [Start] and [Acquire]; in [AcquireAlways] for the
    semaphore to run and for enough cost. *)
Inductive pc :=
| InStop (ct : CycleTimer)
| InStart
| InAcquire (cost : Z) (ct : CycleTimer)
| InAlwaysStopped (cost : Z) (ct : CycleTimer)
| InAlwaysCost (cost : Z) (ct : CycleTimer).

(** What an operation returns; [cycles] is what is written to [*msec], in cycles,
    [None] where it is not written. *)
Inductive result := RVoid | RCycles (cycles : option Z) | RBool (b : bool) (cycles : option Z) | RCost (c : Z) | RFlag (b : bool).

Abbreviation section := (outcome (SimpleWeightedSemaphore * list (signal condvar) * ending pc result)).
Implicit Types (s : SimpleWeightedSemaphore) (ct : CycleTimer) (i : readings).

Definition with_pending s (c : Z) : SimpleWeightedSemaphore :=
  {| pending_cost_ := c; max_cost_ := max_cost_ s; stopped_ := stopped_ s; stopping_ := stopping_ s; stop_on_exit_ := stop_on_exit_ s |}.
Definition with_state s (stopped stopping : bool) : SimpleWeightedSemaphore :=
  {| pending_cost_ := pending_cost_ s; max_cost_ := max_cost_ s; stopped_ := stopped; stopping_ := stopping; stop_on_exit_ := stop_on_exit_ s |}.

(** The constructor. *)
Definition make_semaphore (max_concurrent_cost : Z) : SimpleWeightedSemaphore :=
  {| pending_cost_ := 0; max_cost_ := max_concurrent_cost; stopped_ := false; stopping_ := false; stop_on_exit_ := true |}.

Definition set_stop_on_exit s (b : bool) : SimpleWeightedSemaphore :=
  {| pending_cost_ := pending_cost_ s; max_cost_ := max_cost_ s; stopped_ := stopped_ s; stopping_ := stopping_ s; stop_on_exit_ := b |}.

Definition CanAcquire s (cost : Z) : bool :=
  let new_cost := u64 (pending_cost_ s + cost) in
  (new_cost <=? max_cost_ s) && (pending_cost_ s <=? new_cost).

(** [pending_cost_ += cost] and the check after it. *)
Definition take s (cost : Z) : outcome SimpleWeightedSemaphore :=
  let s := with_pending s (u64 (pending_cost_ s + cost)) in
  CHECK (cost <=? pending_cost_ s);; Ok s.

(** The loop of [Stop], from its test, after the signals [sg]. *)
Definition Stop_loop s ct i (sg : list (signal condvar)) : section :=
  if 0 <? pending_cost_ s then Ok (s, sg, Wait (InStop ct))
  else Ok (with_state s (stopped_ s) false, sg ++ [SignalAll stop_finished_],
           Return (RCycles (Some (CycleTimer.GetCycles ct (at_end i))))).

Definition Stop s i : section :=
  let ct := CycleTimer.Start CycleTimer.Reset (at_start i) in
  Stop_loop (with_state s true true) ct i [SignalAll acquire_changed_].

(** The destructor. *)
Definition destroy s i : section :=
  if stop_on_exit_ s then Stop s i else Ok (s, [], Return RVoid).

Definition Start s : section :=
  if stopping_ s then Ok (s, [], Wait InStart)
  else Ok (with_state s false (stopping_ s), [SignalAll started_], Return RVoid).

Definition set_max_cost s (max_cost : Z) : section :=
  Ok ({| pending_cost_ := pending_cost_ s; max_cost_ := max_cost; stopped_ := stopped_ s; stopping_ := stopping_ s;
         stop_on_exit_ := stop_on_exit_ s |}, [SignalAll acquire_changed_], Return RVoid).

(** The loop of [Acquire] and what follows it. *)
Definition Acquire_loop s (cost : Z) ct i : section :=
  if negb (CanAcquire s cost) && negb (stopped_ s) then Ok (s, [], Wait (InAcquire cost ct))
  else
    let cycles := Some (CycleTimer.GetCycles ct (at_end i)) in
    if stopped_ s then Ok (s, [], Return (RBool false cycles))
    else s ← take s cost; Ok (s, [], Return (RBool true cycles)).

Definition Acquire s (cost : Z) i : section :=
  if stopped_ s then Ok (s, [], Return (RBool false None))
  else if cost =? 0 then Ok (s, [], Return (RBool true (Some 0)))
  else Acquire_loop s cost (CycleTimer.Start CycleTimer.Reset (at_start i)) i.

(** The inner loop of [AcquireAlways] and what follows it; [again] is the next pass
    of the outer loop. *)
Definition AcquireAlways_cost (again : section) s (cost : Z) ct i : section :=
  if negb (CanAcquire s cost) && negb (stopped_ s) then Ok (s, [], Wait (InAlwaysCost cost ct))
  else if stopped_ s then again
  else s ← take s cost; Ok (s, [], Return (RCycles (Some (CycleTimer.GetCycles ct (at_end i))))).

(** The outer loop; a section makes two passes at most. *)
Fixpoint AcquireAlways_do (passes : nat) s (cost : Z) ct i : section :=
  match passes with
  | O => UB
  | S passes =>
      if stopped_ s then Ok (s, [], Wait (InAlwaysStopped cost ct))
      else if cost =? 0 then Ok (s, [], Return (RCycles (Some 0)))
      else
        let ct := CycleTimer.Restart (at_start i) in
        AcquireAlways_cost (AcquireAlways_do passes s cost ct i) s cost ct i
  end.

Definition AcquireAlways s (cost : Z) i : section := AcquireAlways_do 2 s cost CycleTimer.Reset i.

Definition TryAcquire s (cost : Z) : section :=
  if negb (stopped_ s) && CanAcquire s cost then s ← take s cost; Ok (s, [], Return (RBool true None))
  else Ok (s, [], Return (RBool false None)).

Definition Release s (cost : Z) : section :=
  if cost =? 0 then Ok (s, [], Return RVoid)
  else
    CHECK (cost <=? pending_cost_ s);;
    let s := with_pending s (pending_cost_ s - cost) in
    Ok (s, SignalAll acquire_changed_ :: (if pending_cost_ s =? 0 then [SignalAll no_pending_ops_] else []), Return RVoid).

(** [SimpleWeightedSemaphoreLock]: constructor, [None] being the null pointer, and
    destructor. *)
Definition Lock (semaphore : option SimpleWeightedSemaphore) (cost : Z) i : section :=
  match semaphore with Some s => AcquireAlways s cost i | None => Crash end.
Definition Unlock s (cost : Z) : section := Release s cost.

Definition pending_cost s : Z := pending_cost_ s.
Definition max_cost s : Z := max_cost_ s.
Definition stopped s : bool := stopped_ s.

(** ** Threads *)

Inductive request :=
| RqStop | RqDestroy | RqSetStopOnExit (b : bool) | RqStart | RqSetMaxCost (m : Z) | RqAcquire (c : Z) | RqAcquireAlways (c : Z) | RqTryAcquire (c : Z)
| RqRelease (c : Z) | RqLock (c : Z) | RqUnlock (c : Z) | RqPendingCost | RqMaxCost | RqStopped.

Definition enter_semaphore s (rq : request) i : section :=
  match rq with
  | RqStop => Stop s i
  | RqDestroy => destroy s i
  | RqSetStopOnExit b => Ok (set_stop_on_exit s b, [], Return RVoid)
  | RqStart => Start s
  | RqSetMaxCost m => set_max_cost s m
  | RqAcquire c => Acquire s c i
  | RqAcquireAlways c => AcquireAlways s c i
  | RqTryAcquire c => TryAcquire s c
  | RqRelease c => Release s c
  | RqLock c => Lock (Some s) c i
  | RqUnlock c => Unlock s c
  | RqPendingCost => Ok (s, [], Return (RCost (pending_cost s)))
  | RqMaxCost => Ok (s, [], Return (RCost (max_cost s)))
  | RqStopped => Ok (s, [], Return (RFlag (stopped s)))
  end.

Definition resume_semaphore s (p : pc) i : section :=
  match p with
  | InStop ct => Stop_loop s ct i []
  | InStart => Start s
  | InAcquire c ct => Acquire_loop s c ct i
  | InAlwaysStopped c ct => AcquireAlways_do 2 s c ct i
  | InAlwaysCost c ct => AcquireAlways_cost (AcquireAlways_do 2 s c ct i) s c ct i
  end.

Definition waits_on_semaphore (p : pc) : condvar :=
  match p with
  | InStop _ => no_pending_ops_
  | InStart => stop_finished_
  | InAlwaysStopped _ _ => started_
  | InAcquire _ _ | InAlwaysCost _ _ => acquire_changed_
  end.

#[global] Instance semaphore_monitor : Monitor SimpleWeightedSemaphore request readings pc condvar result := {
  enter := enter_semaphore;
  resume := resume_semaphore;
  waits_on := waits_on_semaphore;
}.

(** ** The abstract throttle

    [closing]: a stop has begun and none has finished since. *)

Record throttle := { held : Z; limit : Z; open : bool; closing : bool }.

Inductive event :=
| EvAcquire (c : Z) | EvRefused | EvBusy (c : Z) | EvRelease (c : Z) | EvLimit (m : Z) | EvClose | EvStopped | EvOpen.

Inductive throttle_step : throttle -> event -> throttle -> Prop :=
| t_acquire h l cl c : 0 <= c -> c = 0 \/ h + c <= l ->
    throttle_step {| held := h; limit := l; open := true; closing := cl |} (EvAcquire c)
                  {| held := h + c; limit := l; open := true; closing := cl |}
| t_refused h l cl :
    throttle_step {| held := h; limit := l; open := false; closing := cl |} EvRefused
                  {| held := h; limit := l; open := false; closing := cl |}
| t_busy h l o cl c : o = false \/ l < h + c ->
    throttle_step {| held := h; limit := l; open := o; closing := cl |} (EvBusy c)
                  {| held := h; limit := l; open := o; closing := cl |}
| t_release h l o cl c : 0 <= c <= h ->
    throttle_step {| held := h; limit := l; open := o; closing := cl |} (EvRelease c)
                  {| held := h - c; limit := l; open := o; closing := cl |}
| t_limit h l o cl m :
    throttle_step {| held := h; limit := l; open := o; closing := cl |} (EvLimit m)
                  {| held := h; limit := m; open := o; closing := cl |}
| t_close h l o cl :
    throttle_step {| held := h; limit := l; open := o; closing := cl |} EvClose
                  {| held := h; limit := l; open := false; closing := true |}
| t_stopped l o cl :
    throttle_step {| held := 0; limit := l; open := o; closing := cl |} EvStopped
                  {| held := 0; limit := l; open := o; closing := false |}
| t_open h l o :
    throttle_step {| held := h; limit := l; open := o; closing := false |} EvOpen
                  {| held := h; limit := l; open := true; closing := false |}.

Abbreviation throttle_run := (spec_run throttle_step).

(** What clients see of a section that was called, and of one that was resumed. *)
Definition call_events (rq : request) (e : ending pc result) : list event :=
  match rq, e with
  | (RqStop | RqDestroy), Wait _ => [EvClose]
  | (RqStop | RqDestroy), Return (RCycles _) => [EvClose; EvStopped]
  | RqStart, Return _ => [EvOpen]
  | RqSetMaxCost m, Return _ => [EvLimit m]
  | (RqAcquire c | RqTryAcquire c), Return (RBool true _) => [EvAcquire c]
  | RqAcquire _, Return (RBool false _) => [EvRefused]
  | RqTryAcquire c, Return (RBool false _) => [EvBusy c]
  | (RqAcquireAlways c | RqLock c), Return _ => [EvAcquire c]
  | (RqRelease c | RqUnlock c), Return _ => [EvRelease c]
  | _, _ => []
  end.

Definition resume_events (p : pc) (e : ending pc result) : list event :=
  match p, e with
  | InStop _, Return _ => [EvStopped]
  | InStart, Return _ => [EvOpen]
  | InAcquire c _, Return (RBool true _) => [EvAcquire c]
  | InAcquire _ _, Return (RBool false _) => [EvRefused]
  | (InAlwaysStopped c _ | InAlwaysCost c _), Return _ => [EvAcquire c]
  | _, _ => []
  end.

Abbreviation label := (Monitor.label request readings pc).

Definition step_events (le : label * option (ending pc result)) : list event :=
  match le with
  | (Call _ rq _, Some e) => call_events rq e
  | (Resume _ p _, Some e) => resume_events p e
  | _ => []
  end.

Definition events (tr : list (label * option (ending pc result))) : list event := concat (map step_events tr).

Definition throttle_of s : throttle :=
  {| held := pending_cost_ s; limit := max_cost_ s; open := negb (stopped_ s); closing := stopping_ s |}.

(** Costs are 64-bit numbers. *)
Definition is_cost (c : Z) : Prop := 0 <= c < 2 ^ 64.
Definition typed_request (rq : request) : Prop :=
  match rq with
  | RqSetMaxCost c | RqAcquire c | RqAcquireAlways c | RqTryAcquire c | RqRelease c | RqLock c | RqUnlock c => is_cost c
  | _ => True
  end.
Definition typed (tr : list (label * option (ending pc result))) : Prop :=
  Forall (fun le => match le.1 with Call _ rq _ => typed_request rq | _ => True end) tr.

(** Takes one of the costs out of a list. *)
Fixpoint give_back (c : Z) (l : list Z) : option (list Z) :=
  match l with
  | [] => None
  | x :: l => if c =? x then Some l else cons x <$> give_back c l
  end.

(** What was acquired and is still held, by whoever; [None] when something was
    given back that nobody held. *)
Fixpoint outstanding (l : list Z) (evs : list event) : option (list Z) :=
  match evs with
  | [] => Some l
  | EvAcquire c :: evs => outstanding (c :: l) evs
  | EvRelease c :: evs => match give_back c l with Some l => outstanding l evs | None => None end
  | _ :: evs => outstanding l evs
  end.

(** ** Sections *)

Definition sem_ok s : Prop :=
  is_cost (pending_cost_ s) /\ is_cost (max_cost_ s) /\ (stopping_ s = true -> stopped_ s = true).

Definition pc_cost (p : pc) : Z :=
  match p with InAcquire c _ | InAlwaysStopped c _ | InAlwaysCost c _ => c | _ => 0 end.

(** Why a thread sleeps. *)
Definition reason s (p : pc) : Prop :=
  match p with
  | InStop _ => 0 < pending_cost_ s
  | InStart => stopping_ s = true
  | InAcquire c _ | InAlwaysCost c _ => stopped_ s = false /\ max_cost_ s < pending_cost_ s + c
  | InAlwaysStopped _ _ => stopped_ s = true
  end.

(** What a section does to the semaphore. *)
Record good s (evs : list event) s' (sg : list (signal condvar)) (e : ending pc result) : Prop := {
  gd_ok : sem_ok s';
  gd_events : throttle_run (throttle_of s) evs (throttle_of s');
  gd_wakes : forall p, reason s p -> reason s' p \/ SignalAll (waits_on_semaphore p) ∈ sg;
  gd_waits : forall p, e = Wait p -> reason s' p /\ is_cost (pc_cost p);
  gd_stopper : stopping_ s' = true -> stopping_ s = true \/ exists ct, e = Wait (InStop ct);
}.

Definition section_ok s (evs : ending pc result -> list event) (f : section) : Prop :=
  exists s' sg e, f = Ok (s', sg, e) /\ good s (evs e) s' sg e.

Lemma sem_CanAcquire_spec s c : sem_ok s -> is_cost c -> CanAcquire s c = (pending_cost_ s + c <=? max_cost_ s).
Proof.
  intros (Hp & Hm & _) Hc. unfold CanAcquire, is_cost, u64 in *.
  destruct (Z.ltb_spec (pending_cost_ s + c) (2 ^ 64)) as [Hl|Hl].
  - rewrite Z.mod_small by lia. destruct (Z.leb_spec (pending_cost_ s) (pending_cost_ s + c)); [|lia]. by rewrite andb_true_r.
  - assert ((pending_cost_ s + c) mod 2 ^ 64 = pending_cost_ s + c - 2 ^ 64) as ->.
    { symmetry. apply (Z.mod_unique _ _ 1); lia. }
    destruct (Z.leb_spec (pending_cost_ s + c) (max_cost_ s)); [lia|].
    destruct (Z.leb_spec (pending_cost_ s) (pending_cost_ s + c - 2 ^ 64)); [lia|]. apply andb_false_r.
Qed.

Lemma sem_take_ok s c : sem_ok s -> is_cost c -> pending_cost_ s + c <= max_cost_ s ->
  take s c = Ok (with_pending s (pending_cost_ s + c)).
Proof.
  intros (Hp & Hm & _) Hc Hl. unfold take, is_cost, u64 in *. cbn. rewrite Z.mod_small by lia.
  destruct (Z.leb_spec c (pending_cost_ s + c)); [done|lia].
Qed.

(** The sections that change nothing. *)
Lemma sem_good_same s evs e : sem_ok s -> throttle_run (throttle_of s) evs (throttle_of s) ->
  (forall p, e = Wait p -> reason s p /\ is_cost (pc_cost p)) -> good s evs s [] e.
Proof. intros. split; try done; intros; by left. Qed.

(** The sections that take cost. *)
Lemma sem_good_take s c r : sem_ok s -> is_cost c -> stopped_ s = false -> pending_cost_ s + c <= max_cost_ s ->
  good s [EvAcquire c] (with_pending s (pending_cost_ s + c)) [] (Return r).
Proof.
  intros (Hp & Hm & Hs) Hc Hns Hl. unfold is_cost in *. split; cbn; try done.
  - unfold sem_ok, is_cost. cbn. split_and!; [lia|lia|lia|lia|done].
  - unfold throttle_of. cbn. rewrite Hns. apply spec_run_one. constructor; [lia|by right].
  - intros [ct| |c' ct|c' ct|c' ct]; cbn; intros Hr; left; try done; (lia || (destruct Hr; split; [done|lia])).
  - by left.
Qed.

Lemma sem_good_wait s evs p : sem_ok s -> evs = [] -> reason s p -> is_cost (pc_cost p) -> good s evs s [] (Wait p).
Proof. intros Hok -> Hr Hc. apply sem_good_same; [done|constructor|]. by intros ? [= <-]. Qed.

(** The test of the loops that wait for cost. *)
Lemma sem_cannot s c : sem_ok s -> is_cost c -> negb (CanAcquire s c) && negb (stopped_ s) = true ->
  stopped_ s = false /\ max_cost_ s < pending_cost_ s + c.
Proof.
  intros Hok Hc Ht. rewrite sem_CanAcquire_spec in Ht by done.
  apply andb_true_iff in Ht as [H1%negb_true_iff H2%negb_true_iff]. split; [done|]. by apply Z.leb_gt in H1.
Qed.

Lemma sem_can s c : sem_ok s -> is_cost c -> negb (CanAcquire s c) && negb (stopped_ s) = false -> stopped_ s = false ->
  pending_cost_ s + c <= max_cost_ s.
Proof.
  intros Hok Hc Ht Hs. rewrite sem_CanAcquire_spec, Hs, andb_true_r in Ht by done.
  apply negb_false_iff in Ht. by apply Z.leb_le in Ht.
Qed.

Lemma sem_Acquire_loop_ok s c ct i evs : sem_ok s -> is_cost c ->
  (forall ms, evs (Return (RBool true ms)) = [EvAcquire c]) -> (forall ms, evs (Return (RBool false ms)) = [EvRefused]) ->
  (forall p, evs (Wait p) = []) -> section_ok s evs (Acquire_loop s c ct i).
Proof.
  intros Hok Hc He1 He2 He3. unfold Acquire_loop. destruct (negb (CanAcquire s c) && negb (stopped_ s)) eqn:Ht.
  - eexists _, _, _. split; [done|]. apply sem_good_wait; [done|done| |done]. by apply sem_cannot.
  - pose proof (sem_can s c Hok Hc Ht) as Hl. destruct (stopped_ s) eqn:Hst.
    + eexists _, _, _. split; [done|]. rewrite He2. apply sem_good_same; [done| |done].
      apply spec_run_one. unfold throttle_of. rewrite Hst. constructor.
    + specialize (Hl eq_refl). rewrite sem_take_ok by done. eexists _, _, _. split; [done|]. rewrite He1. by apply sem_good_take.
Qed.

Lemma sem_AcquireAlways_cost_ok again s c ct i evs : sem_ok s -> is_cost c -> (forall r, evs (Return r) = [EvAcquire c]) ->
  (forall p, evs (Wait p) = []) -> (stopped_ s = true -> section_ok s evs again) ->
  section_ok s evs (AcquireAlways_cost again s c ct i).
Proof.
  intros Hok Hc He1 He2 Hag. unfold AcquireAlways_cost. destruct (negb (CanAcquire s c) && negb (stopped_ s)) eqn:Ht.
  - eexists _, _, _. split; [done|]. apply sem_good_wait; [done|done| |done]. by apply sem_cannot.
  - pose proof (sem_can s c Hok Hc Ht) as Hl. destruct (stopped_ s) eqn:Hst; [by apply Hag|]. specialize (Hl eq_refl).
    rewrite sem_take_ok by done. eexists _, _, _. split; [done|]. rewrite He1. by apply sem_good_take.
Qed.

Lemma sem_AcquireAlways_do_ok n s c ct i evs : sem_ok s -> is_cost c -> (forall r, evs (Return r) = [EvAcquire c]) ->
  (forall p, evs (Wait p) = []) -> section_ok s evs (AcquireAlways_do (S n) s c ct i).
Proof.
  intros Hok Hc He1 He2. cbn [AcquireAlways_do]. destruct (stopped_ s) eqn:Hst.
  - eexists _, _, _. split; [done|]. by apply sem_good_wait.
  - destruct (Z.eqb_spec c 0) as [->|Hc0].
    + eexists _, _, _. split; [done|]. rewrite He1. apply sem_good_same; [done| |done].
      apply spec_run_one. unfold throttle_of. rewrite Hst. cbn. rewrite <- (Z.add_0_r (pending_cost_ s)) at 2.
      constructor; [done|by left].
    + apply sem_AcquireAlways_cost_ok; try done. by rewrite Hst.
Qed.

Lemma sem_Stop_loop_ok s ct i evs : sem_ok s ->
  (forall r, evs (Return r) = [EvStopped]) -> (forall p, evs (Wait p) = []) -> section_ok s evs (Stop_loop s ct i []).
Proof.
  intros Hok He1 He2. unfold Stop_loop. destruct (Z.ltb_spec 0 (pending_cost_ s)) as [Hp|Hp].
  - eexists _, _, _. split; [done|]. apply sem_good_wait; [done|done|done|]. cbn. unfold is_cost. lia.
  - eexists _, _, _. split; [done|]. rewrite He1. destruct Hok as (Hpc & Hm & Hs). unfold is_cost in *.
    assert (pending_cost_ s = 0) as H0 by lia. split; cbn; try done.
    + apply spec_run_one. unfold throttle_of. cbn. rewrite H0. constructor.
    + intros [ct'| |c' ct'|c' ct'|c' ct']; cbn; intros Hr; try (by left). right. left.
Qed.

Lemma sem_Stop_ok s i evs : sem_ok s -> (forall cs, evs (Return (RCycles cs)) = [EvClose; EvStopped]) ->
  (forall p, evs (Wait p) = [EvClose]) -> section_ok s evs (Stop s i).
Proof.
  intros (Hpc & Hm & Hs) He1 He2. unfold Stop, Stop_loop. cbn. unfold is_cost in *.
  assert (throttle_step (throttle_of s) EvClose (throttle_of (with_state s true true))) as Hcl by constructor.
  destruct (Z.ltb_spec 0 (pending_cost_ s)) as [Hp|Hp]; eexists _, _, _; (split; [done|]).
  - rewrite He2. split; cbn; try done.
    + by apply spec_run_one.
    + intros [ct| |c ct|c ct|c ct]; cbn; intros Hr; try (by left); right; left.
    + intros p [= <-]. cbn. unfold is_cost. lia.
    + intros _. right. by eexists.
  - rewrite He1. assert (pending_cost_ s = 0) as H0 by lia. split; cbn; try done.
    + econstructor; [done|]. apply spec_run_one. unfold throttle_of. cbn. rewrite H0. constructor.
    + intros [ct| |c ct|c ct|c ct]; cbn; intros Hr; try (by left); right; [right|..]; left.
Qed.

Lemma sem_Start_ok s evs : sem_ok s -> (forall r, evs (Return r) = [EvOpen]) -> (forall p, evs (Wait p) = []) ->
  section_ok s evs (Start s).
Proof.
  intros Hok He1 He2. unfold Start. destruct (stopping_ s) eqn:Hst; eexists _, _, _; (split; [done|]).
  - apply sem_good_wait; [done|done|done|]. cbn. unfold is_cost. lia.
  - rewrite He1. destruct Hok as (Hpc & Hm & Hs). unfold is_cost in *. split; cbn; try done.
    + apply spec_run_one. unfold throttle_of. cbn. rewrite Hst. constructor.
    + intros [ct| |c ct|c ct|c ct]; cbn; intros Hr; try (left; (done || congruence)).
      * left. by destruct Hr.
      * right. left.
      * left. by destruct Hr.
Qed.

Lemma sem_TryAcquire_ok s c : sem_ok s -> is_cost c -> section_ok s (call_events (RqTryAcquire c)) (TryAcquire s c).
Proof.
  intros Hok Hc. unfold TryAcquire. rewrite sem_CanAcquire_spec by done.
  destruct (stopped_ s) eqn:Hst; [|destruct (Z.leb_spec (pending_cost_ s + c) (max_cost_ s)) as [Hl|Hl]]; cbn [negb andb].
  - eexists _, _, _. split; [done|]. apply sem_good_same; [done| |done]. apply spec_run_one.
    unfold throttle_of. rewrite Hst. constructor. by left.
  - rewrite sem_take_ok by done. eexists _, _, _. split; [done|]. by apply sem_good_take.
  - eexists _, _, _. split; [done|]. apply sem_good_same; [done| |done]. apply spec_run_one. constructor. by right.
Qed.

Lemma sem_Release_ok s c evs : sem_ok s -> is_cost c -> c <= pending_cost_ s ->
  (forall r, evs (Return r) = [EvRelease c]) -> section_ok s evs (Release s c).
Proof.
  intros Hok Hc Hl He. unfold Release. destruct (Z.eqb_spec c 0) as [->|Hc0].
  - eexists _, _, _. split; [done|]. rewrite He. apply sem_good_same; [done| |done]. apply spec_run_one.
    unfold throttle_of. rewrite <- (Z.sub_0_r (pending_cost_ s)) at 2. constructor. unfold is_cost in *. lia.
  - unfold CHECK. destruct (Z.leb_spec c (pending_cost_ s)); [|lia].
    eexists _, _, _. split; [done|]. rewrite He. destruct Hok as (Hpc & Hm & Hs). unfold is_cost in *. split; cbn; try done.
    + unfold sem_ok, is_cost. cbn. split_and!; [lia|lia|lia|lia|done].
    + apply spec_run_one. constructor. lia.
    + intros [ct| |c' ct|c' ct|c' ct]; cbn; intros Hr; try (by left); [|right; left..].
      destruct (Z.eqb_spec (pending_cost_ s - c) 0); [right; right; left|left; lia].
    + by left.
Qed.

Lemma sem_Release_crash s c : sem_ok s -> is_cost c -> pending_cost_ s < c -> Release s c = Crash.
Proof.
  intros ([? ?] & _) Hc Hl. unfold Release, CHECK. destruct (Z.eqb_spec c 0); [lia|]. by destruct (Z.leb_spec c (pending_cost_ s)); [lia|].
Qed.

(** The cost that a request gives back. *)
Definition gives_back (rq : request) : Z := match rq with RqRelease c | RqUnlock c => c | _ => 0 end.

Lemma sem_enter_ok s rq i : sem_ok s -> typed_request rq -> gives_back rq <= pending_cost_ s ->
  section_ok s (call_events rq) (enter_semaphore s rq i).
Proof.
  intros Hok Ht Hg. destruct rq as [| |b| |m|c|c|c|c|c|c| | |]; cbn [enter_semaphore gives_back typed_request] in *.
  - by apply sem_Stop_ok.
  - unfold destroy. destruct (stop_on_exit_ s); [by apply sem_Stop_ok|].
    eexists _, _, _. split; [done|]. apply sem_good_same; [done|constructor|done].
  - eexists _, _, _. split; [done|]. destruct Hok as (? & ? & ?). split; try done; intros; (by left) || constructor.
  - by apply sem_Start_ok.
  - eexists _, _, _. split; [done|]. destruct Hok as (Hpc & Hm & Hs). split; cbn; try done.
    + apply spec_run_one. constructor.
    + intros [ct| |c ct|c ct|c ct]; cbn; intros Hr; try (by left); right; left.
    + by left.
  - unfold Acquire. destruct (stopped_ s) eqn:Hst; [|destruct (Z.eqb_spec c 0) as [->|]].
    + eexists _, _, _. split; [done|]. apply sem_good_same; [done| |done]. apply spec_run_one.
      unfold throttle_of. rewrite Hst. constructor.
    + eexists _, _, _. split; [done|]. apply sem_good_same; [done| |done]. apply spec_run_one.
      unfold throttle_of. rewrite Hst. cbn. rewrite <- (Z.add_0_r (pending_cost_ s)) at 2. constructor; [done|by left].
    + by apply sem_Acquire_loop_ok.
  - by apply sem_AcquireAlways_do_ok.
  - by apply sem_TryAcquire_ok.
  - by apply sem_Release_ok.
  - by apply sem_AcquireAlways_do_ok.
  - by apply sem_Release_ok.
  - eexists _, _, _. split; [done|]. apply sem_good_same; [done|constructor|done].
  - eexists _, _, _. split; [done|]. apply sem_good_same; [done|constructor|done].
  - eexists _, _, _. split; [done|]. apply sem_good_same; [done|constructor|done].
Qed.

Lemma sem_resume_ok s p i : sem_ok s -> is_cost (pc_cost p) -> section_ok s (resume_events p) (resume_semaphore s p i).
Proof.
  intros Hok Hc. destruct p as [ct| |c ct|c ct|c ct]; cbn [resume_semaphore pc_cost] in *.
  - by apply sem_Stop_loop_ok.
  - by apply sem_Start_ok.
  - by apply sem_Acquire_loop_ok.
  - by apply sem_AcquireAlways_do_ok.
  - apply sem_AcquireAlways_cost_ok; try done. intros _. by apply sem_AcquireAlways_do_ok.
Qed.

(** ** Runs *)

Abbreviation state := (mstate SimpleWeightedSemaphore pc).
Abbreviation trace := (list (label * option (ending pc result))).
Abbreviation threads_of := (gmap nat (pc * bool)).

(** What holds between steps: the cost a waiting thread asks for is a 64-bit number, every sleeping
    thread has its reason, and a stop in progress has a thread in [Stop]. *)
Record state_ok (x : state) : Prop := {
  so_sem : sem_ok (shared x);
  so_costs : forall t p, pcs (threads x) !! t = Some p -> is_cost (pc_cost p);
  so_reason : justified reason (shared x) (threads x);
  so_stopper : stopping_ (shared x) = true -> exists t ct, pcs (threads x) !! t = Some (InStop ct);
}.

Lemma sem_pcs_after (th th' : threads_of) sg t (e : ending pc result) t' : wake th sg th' -> th !! t = None ->
  pcs (after th' t e) !! t' = if decide (t' = t) then match e with Wait p => Some p | Return _ => None end else pcs th !! t'.
Proof.
  intros W E. rewrite <- (mon_wake_pcs _ _ _ W). unfold after. destruct e as [r|p]; unfold pcs.
  - rewrite fmap_delete. destruct (decide (t' = t)) as [->|Hn]; [by rewrite lookup_delete_eq|by rewrite lookup_delete_ne].
  - rewrite fmap_insert. destruct (decide (t' = t)) as [->|Hn]; [by rewrite lookup_insert_eq|by rewrite lookup_insert_ne].
Qed.

(** A section that goes well keeps the invariant; [th] are the other threads. *)
Lemma sem_state_after s th t evs s' sg e th' : th !! t = None ->
  (forall t p, pcs th !! t = Some p -> is_cost (pc_cost p)) -> justified reason s th ->
  (stopping_ s' = true -> stopping_ s = true -> (exists t ct, pcs th !! t = Some (InStop ct)) \/ exists ct, e = Wait (InStop ct)) ->
  good s evs s' sg e -> wake th sg th' -> state_ok {| shared := s'; threads := after th' t e |}.
Proof.
  intros Et Hc Hr Hst [Hok _ Hw Hwt Hsp] W. split; cbn [shared threads]; [done| | |].
  - intros t' p. rewrite (sem_pcs_after _ _ _ _ _ _ W Et). destruct (decide (t' = t)) as [->|]; [|apply Hc].
    destruct e as [r|p']; [done|]. intros [= <-]. by apply Hwt.
  - apply (mon_justified_section reason s s' th sg th' t e Hr W Hw). intros p ->. by apply Hwt.
  - intros Hs'. assert ((exists t ct, pcs th !! t = Some (InStop ct)) \/ exists ct, e = Wait (InStop ct)) as [(t' & ct & E)|[ct ->]].
    { destruct (Hsp Hs') as [Hs|He]; [by apply Hst|by right]. }
    + exists t', ct. rewrite (sem_pcs_after _ _ _ _ _ _ W Et). destruct (decide (t' = t)) as [->|]; [|done].
      unfold pcs in E. by rewrite lookup_fmap, Et in E.
    + exists t, ct. rewrite (sem_pcs_after _ _ _ _ _ _ W Et). by rewrite decide_True.
Qed.

Lemma sem_resume_stops s ct i s' sg r : resume_semaphore s (InStop ct) i = Ok (s', sg, Return r) -> stopping_ s' = false.
Proof. cbn. unfold Stop_loop. destruct (0 <? pending_cost_ s); [done|]. by intros [= <- _ _]. Qed.

Lemma sem_resume_state x t p i s' sg e th' : state_ok x -> threads x !! t = Some (p, false) ->
  resume_semaphore (shared x) p i = Ok (s', sg, e) -> wake (delete t (threads x)) sg th' ->
  state_ok {| shared := s'; threads := after th' t e |} /\
  throttle_run (throttle_of (shared x)) (resume_events p e) (throttle_of s').
Proof.
  intros [Hok Hc Hr Hst] Et Er W. assert (pcs (threads x) !! t = Some p) as Ep by (apply mon_pcs_lookup; by eexists).
  destruct (sem_resume_ok (shared x) p i Hok (Hc t p Ep)) as (s1 & sg1 & e1 & E1 & Hg).
  rewrite Er in E1. injection E1 as <- <- <-. split; [|by apply Hg].
  assert (pcs (delete t (threads x)) = delete t (pcs (threads x))) as Hd by (unfold pcs; by rewrite fmap_delete).
  apply (sem_state_after (shared x) (delete t (threads x)) t (resume_events p e) s' sg e th'); try done.
  - by rewrite lookup_delete_eq.
  - rewrite Hd. intros t' p' E'. apply lookup_delete_Some in E' as [_ E']. by apply (Hc t').
  - by apply mon_justified_delete.
  - intros Hs' Hs. destruct (Hst Hs) as (t' & ct & E'). rewrite Hd. destruct (decide (t' = t)) as [->|Hn].
    + right. rewrite Ep in E'. injection E' as ->. destruct e as [r|p']; [by rewrite (sem_resume_stops _ _ _ _ _ _ Er) in Hs'|].
      cbn in Er. unfold Stop_loop in Er. destruct (0 <? pending_cost_ (shared x)); [|done]. injection Er as _ _ <-. by eexists.
    + left. exists t', ct. by rewrite lookup_delete_ne.
Qed.

Lemma sem_step_ok x lb e x' : state_ok x -> mstep x lb e x' ->
  (match lb with Call _ rq _ => typed_request rq | _ => True end) ->
  state_ok x' /\ throttle_run (throttle_of (shared x)) (step_events (lb, e)) (throttle_of (shared x')).
Proof.
  intros Hx Stp Ht. destruct Stp as [s th t rq i s' sg e th' E Er W|s th t p i s' sg e th' E Er W|s th t p b E]; cbn [step_events shared].
  - cbn in Er. destruct Hx as [Hok Hc Hr Hst]. cbn [shared threads] in *.
    destruct (Z.leb_spec (gives_back rq) (pending_cost_ s)) as [Hg|Hg].
    2:{ exfalso. assert (Release s (gives_back rq) = Crash) as Hcr.
        { apply sem_Release_crash; [done| |done]. destruct rq; cbn in *; try done; unfold is_cost; lia. }
        destruct rq; cbn in *; unfold is_cost in *; unfold Unlock in *; destruct Hok as [[? ?] _]; try lia; congruence. }
    destruct (sem_enter_ok s rq i Hok Ht Hg) as (s1 & sg1 & e1 & E1 & Hgd). rewrite Er in E1. injection E1 as <- <- <-.
    split; [|by apply Hgd]. apply (sem_state_after s th t (call_events rq e) s' sg e th'); try done. intros _ Hs. left. by apply Hst.
  - by apply (sem_resume_state {| shared := s; threads := th |} t p i s' sg e th').
  - split; [|constructor]. destruct Hx as [Hok Hc Hr Hst]. cbn [shared threads] in *.
    split; cbn [shared threads]; [done| | |]; rewrite ?(mon_pcs_awake _ _ _ _ _ E); [done|by apply mon_justified_spurious|done].
Qed.

Lemma sem_run_ok x tr x' : mrun x tr x' -> state_ok x -> typed tr ->
  state_ok x' /\ throttle_run (throttle_of (shared x)) (events tr) (throttle_of (shared x')).
Proof.
  induction 1 as [x|x lb e x1 tr x' Stp _ IH]; intros Hx Ht; [split; [done|constructor]|].
  apply Forall_cons in Ht as [Ht1 Ht]. destruct (sem_step_ok x lb e x1 Hx Stp Ht1) as [Hx1 R1].
  destruct (IH Hx1 Ht) as [Hx' R']. split; [done|]. unfold events. cbn [map concat]. by apply (spec_run_app _ _ _ _ _ _ R1).
Qed.

Lemma sem_idle_ok m : is_cost m -> state_ok (idle (make_semaphore m)).
Proof.
  intros Hm. split; cbn.
  - split; [unfold is_cost; cbn; lia|]. by split.
  - intros t p. unfold pcs. by rewrite fmap_empty, lookup_empty.
  - intros t p. by rewrite lookup_empty.
  - done.
Qed.

(** ** What is held *)

Fixpoint acquired (evs : list event) : Z :=
  match evs with
  | [] => 0
  | EvAcquire c :: evs => c + acquired evs
  | _ :: evs => acquired evs
  end.
Fixpoint released (evs : list event) : Z :=
  match evs with
  | [] => 0
  | EvRelease c :: evs => c + released evs
  | _ :: evs => released evs
  end.
Definition sets_limit (ev : event) : bool := match ev with EvLimit _ => true | _ => false end.

Lemma throttle_accounts x evs y : throttle_run x evs y ->
  held y = held x + acquired evs - released evs /\
  (forallb (fun ev => negb (sets_limit ev)) evs = true -> limit y = limit x /\ (held x <= limit x -> held y <= limit y)).
Proof.
  induction 1 as [x|x ev y evs z St _ [IH1 IH2]]; [cbn; split; [lia|done]|].
  inversion St; subst; cbn in *.
  all: split; [lia|]; try done; intros Hf; destruct (IH2 Hf) as [? Hle].
  all: split; [done|intros]. all: try (apply Hle; lia).
Qed.

Fixpoint total (l : list Z) : Z := match l with [] => 0 | c :: l => c + total l end.

Lemma total_remove l c l' : give_back c l = Some l' -> total l' = total l - c.
Proof.
  revert l'. induction l as [|x l IH]; intros l'; cbn; [done|]. destruct (Z.eqb_spec c x) as [->|Hn].
  - intros [= <-]. lia.
  - destruct (give_back c l) as [l2|]; [|done]. intros [= <-]. cbn. rewrite (IH l2 eq_refl). lia.
Qed.

Lemma give_back_Forall (P : Z -> Prop) l c l' : give_back c l = Some l' -> Forall P l -> Forall P l'.
Proof.
  revert l'. induction l as [|x l IH]; intros l'; cbn; [done|]. destruct (c =? x); [by intros [= <-] [_ ?]%Forall_cons|].
  destruct (give_back c l) as [l2|]; [|done]. intros [= <-] [? ?]%Forall_cons. constructor; [done|by apply IH].
Qed.

Lemma outstanding_total evs l l' x y : outstanding l evs = Some l' -> throttle_run x evs y -> held x = total l -> held y = total l'.
Proof.
  revert l x. induction evs as [|ev evs IH]; intros l x Ho R Hx; inversion R as [|? ? y1 ? ? St R']; subst; [by injection Ho as <-|].
  inversion St; subst; cbn in Ho, Hx; try (by apply (IH l _ Ho R')).
  - apply (IH (c :: l) _ Ho R'). cbn. lia.
  - destruct (give_back c l) as [l2|] eqn:E; [|done]. apply (IH l2 _ Ho R'). cbn. rewrite (total_remove _ _ _ E). lia.
Qed.

Lemma outstanding_costs evs l l' : outstanding l evs = Some l' ->
  Forall (fun ev => match ev with EvAcquire c => 0 <= c | _ => True end) evs -> Forall (Z.le 0) l -> Forall (Z.le 0) l'.
Proof.
  revert l. induction evs as [|ev evs IH]; intros l Ho Hf Hl; [by injection Ho as <-|].
  apply Forall_cons in Hf as [Hc Hf]. destruct ev as [c| |c|c|m| | |]; cbn in Ho; try (by apply (IH l)).
  - apply (IH (c :: l)); [done|done|by constructor].
  - destruct (give_back c l) as [l2|] eqn:E; [|done]. apply (IH l2); [done|done|].
    by apply (give_back_Forall _ _ _ _ E).
Qed.

Lemma total_elem l c : c ∈ l -> Forall (Z.le 0) l -> c <= total l.
Proof.
  induction 1 as [c l|c x l _ IH]; intros [Hx Hl]%Forall_cons; cbn.
  - assert (0 <= total l); [|lia]. clear -Hl. induction Hl; cbn; lia.
  - specialize (IH Hl). lia.
Qed.

Lemma throttle_acquires_nonneg x evs y : throttle_run x evs y ->
  Forall (fun ev => match ev with EvAcquire c => 0 <= c | _ => True end) evs.
Proof. induction 1 as [x|x ev y evs z St _ IH]; constructor; [by destruct St|done]. Qed.

(** ** Progress *)

Lemma sem_istep_ok (x x' : state) : state_ok x -> istep x x' -> state_ok x'.
Proof. intros Hx (t & p & i & e & Stp). by apply (sem_step_ok x (Resume t p i) e x'). Qed.

Lemma sem_resume_waits s p i s' sg p' : resume_semaphore s p i = Ok (s', sg, Wait p') -> sg = [].
Proof.
  destruct p as [ct| |c ct|c ct|c ct]; cbn [resume_semaphore].
  - unfold Stop_loop. by case_match; intros [= _ <- _].
  - unfold Start. by case_match; intros [= _ <- _].
  - unfold Acquire_loop, take, CHECK. repeat case_match; by intros [= _ <- _].
  - unfold AcquireAlways_do, AcquireAlways_cost, take, CHECK. repeat case_match; by intros [= _ <- _].
  - unfold AcquireAlways_do, AcquireAlways_cost, take, CHECK. repeat case_match; by intros [= _ <- _].
Qed.

Lemma sem_istep_sn (x : state) : state_ok x -> sn istep x.
Proof.
  apply (mon_istep_sn (fun _ => 1%nat) state_ok sem_istep_ok); [lia|].
  intros s t p i s' sg p' _ _ Er. right. split; [done|]. by apply (sem_resume_waits _ _ _ _ _ _ Er).
Qed.

Lemma sem_can_resume (x : state) t p i : state_ok x -> threads x !! t = Some (p, false) ->
  exists e x', mstep x (Resume t p i) e x'.
Proof.
  intros Hx E. assert (pcs (threads x) !! t = Some p) as Ep by (apply mon_pcs_lookup; by eexists).
  destruct (sem_resume_ok (shared x) p i (so_sem x Hx) (so_costs x Hx t p Ep)) as (s' & sg & e & Er & _).
  destruct (mon_resume_step (H := semaphore_monitor) x t p i s' sg e E Er) as [th' Stp]. by eexists _, _.
Qed.

(** When no woken thread is left, everybody sleeps and has a reason. *)
Lemma sem_stuck_reason (x : state) t p b : state_ok x -> (forall x', ~ istep x x') -> threads x !! t = Some (p, b) ->
  reason (shared x) p.
Proof.
  intros Hx Hst E. destruct b; [by apply (so_reason x Hx t p)|].
  destruct (sem_can_resume x t p {| at_start := 0; at_end := 0 |} Hx E) as (e & x' & Stp). destruct (Hst x'). by eexists t, p, _, _.
Qed.

Lemma sem_stuck_stopping (x : state) : state_ok x -> (forall x', ~ istep x x') -> stopping_ (shared x) = true ->
  0 < pending_cost_ (shared x).
Proof.
  intros Hx Hst Hs. destruct (so_stopper x Hx Hs) as (t & ct & E). apply mon_pcs_lookup in E as [b E].
  apply (sem_stuck_reason x t _ b Hx Hst E).
Qed.

(** ** Properties *)

(** C14. The semaphore is a throttle.  Whatever threads do with a semaphore, with any
    interleaving and any wake-ups without a signal, what they see is a run of the
    abstract throttle: cost is granted only while the semaphore is open and when it
    fits under the maximum of that moment, refused only when it is closed, a stop
    is finished only when nothing is held, and once a stop has begun no start
    finishes until some stop has finished.  (That may be another stop: of two
    stops that overlap, the first to finish lets a start through while the other
    is still waiting, see [Stop_overtaken].)  [pending_cost()] is the cost acquired less the cost released, it
    fits in 64 bits, and it never exceeds the maximum unless [set_max_cost] is called. *)
Theorem Semaphore_refines_throttle m tr x : is_cost m -> mrun (idle (make_semaphore m)) tr x -> typed tr ->
  throttle_run (throttle_of (make_semaphore m)) (events tr) (throttle_of (shared x)) /\
  pending_cost (shared x) = acquired (events tr) - released (events tr) /\ is_cost (pending_cost (shared x)) /\
  (forallb (fun ev => negb (sets_limit ev)) (events tr) = true -> pending_cost (shared x) <= m).
Proof.
  intros Hm R Ht. destruct (sem_run_ok _ _ _ R (sem_idle_ok m Hm) Ht) as [Hx Rt]. cbn [idle shared] in Rt.
  destruct (throttle_accounts _ _ _ Rt) as [Ha Hl]. cbn in Ha, Hl. unfold pending_cost. split; [done|]. split; [lia|].
  split; [apply Hx|]. intros Hf. destruct (Hl Hf) as [Heq Hle]. destruct Hm. lia.
Qed.

(** C10. No check fails.  In every state that a run reaches, every section that a
    thread can call or resume runs to its end, [AcquireAlways] after at most two passes of its
    loop, with one exception: a [Release] of more than is pending dies.  Giving
    back a cost that was acquired and not yet given back never does. *)
Theorem Semaphore_safe m tr x t : is_cost m -> mrun (idle (make_semaphore m)) tr x -> typed tr ->
  (forall rq i, threads x !! t = None -> typed_request rq ->
     if gives_back rq <=? pending_cost (shared x) then exists e x', mstep x (Call t rq i) e x'
     else enter (shared x) rq i = Crash) /\
  (forall p i, threads x !! t = Some (p, false) -> exists e x', mstep x (Resume t p i) e x') /\
  (forall l c, outstanding [] (events tr) = Some l -> c ∈ l -> c <= pending_cost (shared x)).
Proof.
  intros Hm R Ht. destruct (sem_run_ok _ _ _ R (sem_idle_ok m Hm) Ht) as [Hx Rt]. split; [|split].
  - intros rq i E Hty. destruct (Z.leb_spec (gives_back rq) (pending_cost (shared x))) as [Hg|Hg].
    + destruct (sem_enter_ok (shared x) rq i (so_sem x Hx) Hty Hg) as (s' & sg & e & Er & _).
      destruct (mon_call_step (H := semaphore_monitor) x t rq i s' sg e E Er) as [th' Stp]. by eexists _, _.
    + assert (0 <= pending_cost_ (shared x)) as Hp by (pose proof (so_sem x Hx) as [[? ?] _]; done). unfold pending_cost in Hg.
      destruct rq; cbn in *; try lia; by apply sem_Release_crash; [apply Hx|..].
  - intros p i. by apply sem_can_resume.
  - intros l c Ho Hc. unfold pending_cost. change (pending_cost_ (shared x)) with (held (throttle_of (shared x))).
    rewrite (outstanding_total _ _ _ _ _ Ho Rt eq_refl).
    apply total_elem; [done|]. apply (outstanding_costs _ _ _ Ho); [by apply (throttle_acquires_nonneg _ _ _ Rt)|constructor].
Qed.

(** C9. No wake-up is lost.  From every state that a run reaches, the threads that
    were woken take finitely many steps, however they are scheduled.  When none is
    left, a thread in [Acquire] or [AcquireAlways] waits because its cost does not
    fit or, in [AcquireAlways], because the semaphore is stopped; a thread in [Stop]
    or [Start] waits because something is still held. *)
Theorem Semaphore_no_lost_wakeups m tr x : is_cost m -> mrun (idle (make_semaphore m)) tr x -> typed tr ->
  sn istep x /\
  forall x', rtc istep x x' -> (forall x'', ~ istep x' x'') -> forall t p b, threads x' !! t = Some (p, b) ->
    match p with
    | InStop _ | InStart => 0 < pending_cost (shared x')
    | InAcquire c _ | InAlwaysCost c _ => stopped (shared x') = false /\ max_cost (shared x') < pending_cost (shared x') + c
    | InAlwaysStopped _ _ => stopped (shared x') = true
    end.
Proof.
  intros Hm R Ht. destruct (sem_run_ok _ _ _ R (sem_idle_ok m Hm) Ht) as [Hx _]. split; [by apply sem_istep_sn|].
  intros x' R' Hst t p b E. assert (state_ok x') as Hx'.
  { clear -R' Hx. induction R' as [|x y z Stp _ IH]; [done|]. by apply IH, (sem_istep_ok x). }
  pose proof (sem_stuck_reason x' t p b Hx' Hst E) as Hr. destruct p; try done.
  by apply sem_stuck_stopping.
Qed.

(** ** A run with two stops

    Two threads stop the semaphore; after the first has returned, it is started and
    used again before the second runs. *)
Definition demo_clock : readings := {| at_start := 5; at_end := 9 |}.
Definition demo_timer : CycleTimer := CycleTimer.Start CycleTimer.Reset 5.

Definition demo_trace : trace :=
  [(Call 1 (RqAcquire 1) demo_clock, Some (Return (RBool true (Some 4))));
   (Call 2 RqStop demo_clock, Some (Wait (InStop demo_timer)));
   (Call 3 RqStop demo_clock, Some (Wait (InStop demo_timer)));
   (Call 1 (RqRelease 1) demo_clock, Some (Return RVoid));
   (Resume 2 (InStop demo_timer) demo_clock, Some (Return (RCycles (Some 4))));
   (Call 1 RqStart demo_clock, Some (Return RVoid));
   (Call 1 (RqAcquire 1) demo_clock, Some (Return (RBool true (Some 4))));
   (Resume 3 (InStop demo_timer) demo_clock, Some (Wait (InStop demo_timer)))].

Definition demo_end : state :=
  {| shared := {| pending_cost_ := 1; max_cost_ := 1; stopped_ := false; stopping_ := false; stop_on_exit_ := true |};
     threads := {[ 3%nat := (InStop demo_timer, true) ]} |}.

Ltac demo_call := eapply mrun_cons; [eapply mstep_call; [vm_compute; reflexivity|vm_compute; reflexivity|repeat constructor]|].
Ltac demo_resume := eapply mrun_cons; [eapply mstep_resume; [vm_compute; reflexivity|vm_compute; reflexivity|repeat constructor]|].

Lemma sem_demo_run : mrun (idle (make_semaphore 1)) demo_trace demo_end.
Proof.
  unfold demo_trace, idle. do 4 demo_call. demo_resume. do 2 demo_call. demo_resume.
  match goal with |- mrun ?x [] ?y => replace x with y; [constructor|by vm_compute] end.
Qed.

Lemma sem_demo_typed : typed demo_trace.
Proof. unfold typed, demo_trace. repeat (apply Forall_cons; split; [cbn; unfold is_cost; (done || lia)|]). by apply Forall_nil. Qed.

(** A thread sleeps in [Stop] although the semaphore runs and no stop is in
    progress: it waits for costs that were acquired after its stop was over. *)
Lemma Stop_overtaken : exists tr x ct, typed tr /\ mrun (idle (make_semaphore 1)) tr x /\
  threads x = {[ 3%nat := (InStop ct, true) ]} /\ stopped (shared x) = false /\ stopping_ (shared x) = false.
Proof. exists demo_trace, demo_end, demo_timer. split_and!; [apply sem_demo_typed|apply sem_demo_run|done..]. Qed.

(** [Acquire] of a stopped semaphore does not write [*msec]. *)
Lemma Acquire_stopped_msec s c i : stopped_ s = true -> Acquire s c i = Ok (s, [], Return (RBool false None)).
Proof. intros E. unfold Acquire. by rewrite E. Qed.

Lemma Semaphore_refines_throttle_witness :
  throttle_run (throttle_of (make_semaphore 1)) (events demo_trace) (throttle_of (shared demo_end)) /\ pending_cost (shared demo_end) = 1.
Proof.
  split; [|reflexivity]. apply (Semaphore_refines_throttle 1 demo_trace demo_end); [unfold is_cost; lia|exact sem_demo_run|exact sem_demo_typed].
Defined.

Lemma Semaphore_safe_witness : exists e x', mstep demo_end (Call 1 (RqRelease 1) demo_clock) e x'.
Proof.
  destruct (Semaphore_safe 1 demo_trace demo_end 1) as (H & _);
    [unfold is_cost; lia|exact sem_demo_run|exact sem_demo_typed|].
  apply (H (RqRelease 1) demo_clock); [reflexivity|cbn; unfold is_cost; lia].
Defined.

Lemma Semaphore_no_lost_wakeups_witness : sn (istep (H := semaphore_monitor)) demo_end.
Proof.
  apply (Semaphore_no_lost_wakeups 1 demo_trace demo_end); [unfold is_cost; lia|exact sem_demo_run|exact sem_demo_typed].
Defined.
