(* ===== verification/WaitQueue.v ===== *)
(** * Priority queues that threads wait for

    [thread/prioritized_wait_queue.h]: a heap of elements under a mutex, of which
    consumers take a greatest one and wait when there is none, with a maximum size
    for which producers wait.  The operations are sections in the frame of [Monitor];
    the heap algorithms are those of [StdHeap].  A section reads the clock for the
    deadline and for the test whether it has passed.

    The properties: every run is a run of an abstract bag of elements in which a pop
    takes a greatest element; and no wake-up is lost, although a push signals only
    when the queue was empty and a pop wakes one producer only. *)
From Stdlib Require Import ZArith Lia.
From stdpp Require Import base gmap list relations.
From S2P Require Import Prelude.
From S2P Require Import StdHeap.
From S2P Require Import Monitor.
Local Open Scope Z_scope.

(** [size_type] is [size_t]. *)
Definition kInfiniteQueueSize : Z := 2 ^ 64 - 1.

(** The clock at the call and at the test of the deadline. *)
Record readings := { at_call : Z; at_test : Z }.

Inductive condvar := ready_ | unfull_.
#[global] Instance condvar_eq_dec : EqDecision condvar.
Proof. solve_decision. Defined.

Section queue.
Context {T : Type} (comp : T -> T -> bool) `{StdHeap} `{BuildMode}.

(** ** The container *)

(** [container_type], a [std::priority_queue]: its vector. *)
Definition container_push (c : list T) (x : T) : list T := push_heap comp (c ++ [x]).

Definition pop_top (c : list T) : outcome (list T * T) :=
  let c := pop_heap comp c in
  match last c with
  | Some x => Ok (removelast c, x)
  | None => UB
  end.

Definition container_push_many (c xs : list T) : list T := make_heap comp (c ++ xs).

Definition top (c : list T) : outcome T := match c with x :: _ => Ok x | [] => UB end.

(** ** The queue *)

Record PrioritizedWaitQueue := { q_ : list T; max_queue_size_ : Z; stop_requested_ : bool }.

Inductive pc := InPush (x : T) | InPushMany (rest : list T) | InWait | InWaitWithTimeout (deadline : Z).

(** [RWait] has the value returned, what was popped into [*p] and [*timed_out]. *)
Inductive result :=
| RVoid | RPop (o : option T) | RWait (ret : bool) (p : option T) (timed_out : bool)
| RContainer (c : list T) | RSize (n : Z) | RBool (b : bool).

Abbreviation section := (outcome (PrioritizedWaitQueue * list (signal condvar) * ending pc result)).
Implicit Types (q : PrioritizedWaitQueue) (i : readings).

Definition with_q q (c : list T) : PrioritizedWaitQueue :=
  {| q_ := c; max_queue_size_ := max_queue_size_ q; stop_requested_ := stop_requested_ q |}.

(** The default constructor, and the one with a comparator. *)
Definition make_wait_queue : PrioritizedWaitQueue :=
  {| q_ := []; max_queue_size_ := kInfiniteQueueSize; stop_requested_ := false |}.

Definition is_empty q : bool := zlen (q_ q) =? 0.
Definition signal_ready_if_empty q : list (signal condvar) := if is_empty q then [Signal ready_] else [].

Definition set_max_queue_size q (max_queue_size : Z) : section :=
  Ok ({| q_ := q_ q; max_queue_size_ := max_queue_size; stop_requested_ := stop_requested_ q |},
      [SignalAll unfull_], Return RVoid).

(** The loop of [push_internal], from its test. *)
Definition push_internal q (x : T) : section :=
  if max_queue_size_ q <=? zlen (q_ q) then Ok (q, [], Wait (InPush x))
  else Ok (with_q q (container_push (q_ q) x), signal_ready_if_empty q, Return RVoid).

(** The loop of [push_many], after the signals [sg]; a pass takes at least one element. *)
Fixpoint push_many_loop (fuel : nat) q (rest : list T) (sg : list (signal condvar)) : section :=
  match rest, fuel with
  | [], _ => Ok (q, sg, Return RVoid)
  | _, O => UB
  | _, S fuel =>
      if max_queue_size_ q <=? zlen (q_ q) then Ok (q, sg, Wait (InPushMany rest))
      else
        let available := max_queue_size_ q - zlen (q_ q) in
        let remaining := zlen rest in
        let n := Z.to_nat (Z.min available remaining) in
        let sg := sg ++ signal_ready_if_empty q in
        let q := with_q q (container_push_many (q_ q) (take n rest)) in
        push_many_loop fuel q (drop n rest) sg
  end.

Definition push_many q (xs : list T) : section := push_many_loop (S (length xs)) q xs [].

Definition Pop q : section :=
  if is_empty q then Ok (q, [], Return (RPop None))
  else '(c, x) ← pop_top (q_ q); Ok (with_q q c, [Signal unfull_], Return (RPop (Some x))).

Definition Front q : section :=
  if is_empty q then Ok (q, [], Return (RPop None))
  else x ← top (q_ q); Ok (q, [], Return (RPop (Some x))).

(** The content of [*container] afterwards is the result. *)
Definition SwapEmptyContainer q (container : list T) : section :=
  DCHECK (bool_decide (length container = 0%nat));;
  Ok (with_q q container, [SignalAll unfull_], Return (RContainer (q_ q))).

(** What follows the loops of [Wait] and [WaitWithTimeout]. *)
Definition Wait_finish q (woken : bool) : section :=
  '(c, x) ← pop_top (q_ q);
  let q := with_q q c in
  Ok (q, (if woken && negb (is_empty q) then [Signal ready_] else []) ++ [Signal unfull_], Return (RWait true (Some x) false)).

Definition Wait_loop q (woken : bool) : section :=
  if is_empty q then
    if stop_requested_ q then Ok (q, [], Return (RWait false None false))
    else Ok (q, [], Wait InWait)
  else Wait_finish q woken.

Definition WaitWithTimeout_loop q (deadline : Z) (woken : bool) i : section :=
  if is_empty q then
    if stop_requested_ q then Ok (q, [], Return (RWait false None false))
    else if deadline <=? at_test i then Ok (q, [], Return (RWait true None true))
    else Ok (q, [], Wait (InWaitWithTimeout deadline))
  else Wait_finish q woken.

Definition WaitWithTimeout q (timeout : Z) i : section := WaitWithTimeout_loop q (at_call i + timeout) false i.

Definition StopWaiters q : section :=
  Ok ({| q_ := q_ q; max_queue_size_ := max_queue_size_ q; stop_requested_ := true |}, [SignalAll ready_], Return RVoid).

Definition CopyTo q : section := Ok (q, [], Return (RContainer (q_ q))).

Definition empty q : bool := is_empty q.
Definition size q : Z := zlen (q_ q).

(** ** Threads *)

Inductive request :=
| RqSetMaxQueueSize (n : Z) | RqPush (x : T) | RqPushMany (xs : list T) | RqPop | RqFront | RqSwapEmptyContainer (c : list T)
| RqWait | RqWaitWithTimeout (timeout : Z) | RqStopWaiters | RqCopyTo | RqEmpty | RqSize.

Definition enter_queue q (rq : request) i : section :=
  match rq with
  | RqSetMaxQueueSize n => set_max_queue_size q n
  | RqPush x => push_internal q x
  | RqPushMany xs => push_many q xs
  | RqPop => Pop q
  | RqFront => Front q
  | RqSwapEmptyContainer c => SwapEmptyContainer q c
  | RqWait => Wait_loop q false
  | RqWaitWithTimeout timeout => WaitWithTimeout q timeout i
  | RqStopWaiters => StopWaiters q
  | RqCopyTo => CopyTo q
  | RqEmpty => Ok (q, [], Return (RBool (empty q)))
  | RqSize => Ok (q, [], Return (RSize (size q)))
  end.

Definition resume_queue q (p : pc) i : section :=
  match p with
  | InPush x => push_internal q x
  | InPushMany rest => push_many_loop (S (length rest)) q rest []
  | InWait => Wait_loop q true
  | InWaitWithTimeout deadline => WaitWithTimeout_loop q deadline true i
  end.

Definition waits_on_queue (p : pc) : condvar :=
  match p with InPush _ | InPushMany _ => unfull_ | InWait | InWaitWithTimeout _ => ready_ end.

#[global] Instance queue_monitor : Monitor PrioritizedWaitQueue request readings pc condvar result := {
  enter := enter_queue;
  resume := resume_queue;
  waits_on := waits_on_queue;
}.

(** ** The abstract bag *)

Record bag := { content : list T; bound : Z; halted : bool }.

Inductive event :=
| EvPush (xs : list T) | EvPop (x : T) | EvNone | EvFront (x : T) | EvHalted
| EvTimeout (limit : option (Z * Z)) | EvSleep (asked kept now : Z) | EvOther
| EvTake (l : list T) | EvCopy (l : list T) | EvBound (n : Z) | EvHalt | EvEmpty (b : bool) | EvSize (n : Z).

(** [EvTimeout] reports a timeout, with the deadline and the time of the test, or with
    neither for a wait without a timeout; [EvSleep] is a wait until the deadline
    [kept] at the time [now], where the deadline is [asked]; [EvOther] is a
    result that the operation does not have.  No bag allows [EvOther].

    An element that none is above. *)
Definition greatest (x : T) (l : list T) : Prop := x ∈ l /\ Forall (fun y => comp x y = false) l.

Inductive bag_step : bag -> event -> bag -> Prop :=
| b_push l l' n h xs : zlen l + zlen xs <= n -> l' ≡ₚ l ++ xs ->
    bag_step {| content := l; bound := n; halted := h |} (EvPush xs) {| content := l'; bound := n; halted := h |}
| b_pop l l' n h x : greatest x l -> l ≡ₚ x :: l' ->
    bag_step {| content := l; bound := n; halted := h |} (EvPop x) {| content := l'; bound := n; halted := h |}
| b_none n h : bag_step {| content := []; bound := n; halted := h |} EvNone {| content := []; bound := n; halted := h |}
| b_front l n h x : greatest x l ->
    bag_step {| content := l; bound := n; halted := h |} (EvFront x) {| content := l; bound := n; halted := h |}
| b_halted n : bag_step {| content := []; bound := n; halted := true |} EvHalted {| content := []; bound := n; halted := true |}
| b_timeout n deadline now : deadline <= now ->
    bag_step {| content := []; bound := n; halted := false |} (EvTimeout (Some (deadline, now)))
             {| content := []; bound := n; halted := false |}
| b_sleep n deadline now : now < deadline ->
    bag_step {| content := []; bound := n; halted := false |} (EvSleep deadline deadline now)
             {| content := []; bound := n; halted := false |}
| b_take l l' n h : l' ≡ₚ l ->
    bag_step {| content := l; bound := n; halted := h |} (EvTake l') {| content := []; bound := n; halted := h |}
| b_copy l l' n h : l' ≡ₚ l ->
    bag_step {| content := l; bound := n; halted := h |} (EvCopy l') {| content := l; bound := n; halted := h |}
| b_bound l n h m : bag_step {| content := l; bound := n; halted := h |} (EvBound m) {| content := l; bound := m; halted := h |}
| b_halt l n h : bag_step {| content := l; bound := n; halted := h |} EvHalt {| content := l; bound := n; halted := true |}
| b_empty l n h : bag_step {| content := l; bound := n; halted := h |} (EvEmpty (bool_decide (l = []))) {| content := l; bound := n; halted := h |}
| b_size l n h : bag_step {| content := l; bound := n; halted := h |} (EvSize (zlen l)) {| content := l; bound := n; halted := h |}.

Abbreviation bag_run := (spec_run bag_step).

Definition pushed (xs : list T) : list event := match xs with [] => [] | _ => [EvPush xs] end.

(** What clients see of a section that was called, and of one that was resumed. *)
Definition wait_events (limit : option (Z * Z)) (e : ending pc result) : list event :=
  match e, limit with
  | Return (RWait true (Some x) false), _ => [EvPop x]
  | Return (RWait false None false), _ => [EvHalted]
  | Return (RWait true None true), _ => [EvTimeout limit]
  | Wait InWait, None => []
  | Wait (InWaitWithTimeout kept), Some (asked, now) => [EvSleep asked kept now]
  | _, _ => [EvOther]
  end.

Definition push_many_events (xs : list T) (e : ending pc result) : list event :=
  match e with
  | Return _ => pushed xs
  | Wait (InPushMany rest) => pushed (take (length xs - length rest) xs)
  | _ => [EvOther]
  end.

Definition call_events (rq : request) (i : readings) (e : ending pc result) : list event :=
  match rq, e with
  | RqPush x, Return _ => [EvPush [x]]
  | RqPushMany xs, _ => push_many_events xs e
  | RqPop, Return (RPop (Some x)) => [EvPop x]
  | RqFront, Return (RPop (Some x)) => [EvFront x]
  | (RqPop | RqFront), Return (RPop None) => [EvNone]
  | RqSwapEmptyContainer _, Return (RContainer l) => [EvTake l]
  | RqWait, _ => wait_events None e
  | RqWaitWithTimeout timeout, _ => wait_events (Some (at_call i + timeout, at_test i)) e
  | RqStopWaiters, Return _ => [EvHalt]
  | RqCopyTo, Return (RContainer l) => [EvCopy l]
  | RqSetMaxQueueSize n, Return _ => [EvBound n]
  | RqEmpty, Return (RBool b) => [EvEmpty b]
  | RqSize, Return (RSize n) => [EvSize n]
  | RqPush x, Wait (InPush y) => []
  | _, _ => [EvOther]
  end.

Definition resume_events (p : pc) (i : readings) (e : ending pc result) : list event :=
  match p, e with
  | InPush x, Return _ => [EvPush [x]]
  | InPushMany rest, _ => push_many_events rest e
  | InWait, _ => wait_events None e
  | InWaitWithTimeout deadline, _ => wait_events (Some (deadline, at_test i)) e
  | InPush x, Wait (InPush y) => []
  | _, _ => [EvOther]
  end.

Abbreviation label := (Monitor.label request readings pc).
Abbreviation trace := (list (label * option (ending pc result))).

Definition step_events (le : label * option (ending pc result)) : list event :=
  match le with
  | (Call _ rq i, Some e) => call_events rq i e
  | (Resume _ p i, Some e) => resume_events p i e
  | _ => []
  end.

Definition events (tr : trace) : list event := concat (map step_events tr).

Definition bag_of q : bag := {| content := q_ q; bound := max_queue_size_ q; halted := stop_requested_ q |}.

(** The container that is swapped in is empty, as the comment requires. *)
Definition typed_request (rq : request) : Prop := match rq with RqSwapEmptyContainer c => c = [] | _ => True end.
Definition typed (tr : trace) : Prop := Forall (fun le => match le.1 with Call _ rq _ => typed_request rq | _ => True end) tr.

(** ** Sections *)

Context `{!StdHeapLaws, !StrictWeak comp}.

(** Consumers sleep only while waiting is allowed. *)
Definition reason q (p : pc) : Prop :=
  match p with InWait | InWaitWithTimeout _ => stop_requested_ q = false | _ => True end.

(** How many of the threads that slept on a condition variable have something to do. *)
Definition need (c : condvar) q : Z :=
  match c with
  | ready_ => if is_empty q then 0 else 1
  | unfull_ => max_queue_size_ q - zlen (q_ q)
  end.

(** What a section does, when the thread counts for [self] of those awake. *)
Record good (self : condvar -> Z) q (evs : list event) q' (sg : list (signal condvar)) (e : ending pc result) : Prop := {
  gd_heap : is_heap comp (q_ q');
  gd_events : bag_run (bag_of q) evs (bag_of q');
  gd_reason : forall p, reason q p -> reason q' p \/ SignalAll (waits_on_queue p) ∈ sg;
  gd_waits : forall p, e = Wait p -> reason q' p /\ need (waits_on_queue p) q' <= 0 /\ p <> InPushMany [];
  gd_need : forall c, need c q' <= 0 \/ need c q' <= need c q - self c \/
    need c q' <= need c q - self c + 1 /\ Signal c ∈ sg \/ SignalAll c ∈ sg;
}.

Definition section_ok (self : condvar -> Z) q (evs : ending pc result -> list event) (f : section) : Prop :=
  exists q' sg e, f = Ok (q', sg, e) /\ good self q (evs e) q' sg e.

Lemma wq_is_empty q : is_empty q = bool_decide (q_ q = []).
Proof.
  unfold is_empty. destruct (q_ q) as [|x l]; [done|]. rewrite zlen_cons. pose proof (zlen_nonneg l).
  by destruct (Z.eqb_spec (zlen l + 1) 0); [lia|].
Qed.

Lemma wq_pop_top l : l <> [] -> is_heap comp l ->
  exists l' x, pop_top l = Ok (l', x) /\ greatest x l /\ l ≡ₚ x :: l' /\ is_heap comp l'.
Proof.
  intros Hl Hh. destruct l as [|x l]; [done|]. destruct (pop_heap_law comp x l _ Hh) as (r & E & Hp & Hr).
  exists r, x. unfold pop_top. rewrite E, last_snoc, removelast_last. split; [done|]. split; [|split; [by rewrite Hp|done]].
  split; [left|]. by apply is_heap_front.
Qed.

(** ** The sections that leave the elements as they are *)

Lemma wq_good_same self q evs e : (forall c, self c = 0 \/ need c q <= 0) -> is_heap comp (q_ q) -> bag_run (bag_of q) evs (bag_of q) ->
  (forall p, e = Wait p -> reason q p /\ need (waits_on_queue p) q <= 0 /\ p <> InPushMany []) -> good self q evs q [] e.
Proof.
  intros Hself Hh Hr Hw. split; [done|done|by left|done|].
  intros c. destruct (Hself c) as [Hs|Hn]; [right; left; lia|by left].
Qed.

(** A push: a chunk that is not empty and fits. *)
Lemma wq_good_push self q xs l' e : (forall c, 0 <= self c <= 1) -> self ready_ = 0 -> xs <> [] -> zlen (q_ q) + zlen xs <= max_queue_size_ q ->
  l' ≡ₚ q_ q ++ xs -> is_heap comp l' ->
  (forall p, e = Wait p -> reason q p /\ need (waits_on_queue p) (with_q q l') <= 0 /\ p <> InPushMany []) ->
  good self q [EvPush xs] (with_q q l') (signal_ready_if_empty q) e.
Proof.
  intros Hself Hs Hxs Hle Hp Hh Hw. assert (1 <= zlen xs) as Hx.
  { destruct xs; [done|]. rewrite zlen_cons. pose proof (zlen_nonneg xs). lia. }
  split; [done| |by left|done|].
  - apply spec_run_one. by constructor.
  - intros c. specialize (Hself c). destruct c; cbn [need with_q q_ max_queue_size_].
    + rewrite Hs. unfold signal_ready_if_empty. destruct (is_empty q) eqn:He; [|right; left; case_match; lia].
      right. right. left. split; [case_match; lia|left].
    + right. left. assert (zlen l' = zlen (q_ q) + zlen xs) as ->; [|lia]. rewrite <- zlen_app. unfold zlen. by rewrite Hp.
Qed.

Definition self_ok (self : condvar -> Z) : Prop := forall c, 0 <= self c <= 1.
Lemma wq_full_need q : max_queue_size_ q <= zlen (q_ q) -> need unfull_ q <= 0.
Proof. cbn. lia. Qed.

Lemma wq_push_ok self q x evs : self_ok self -> self ready_ = 0 -> is_heap comp (q_ q) ->
  (forall r, evs (Return r) = [EvPush [x]]) -> evs (Wait (InPush x)) = [] -> section_ok self q evs (push_internal q x).
Proof.
  intros Hself Hs Hh He1 He2. unfold push_internal. destruct (Z.leb_spec (max_queue_size_ q) (zlen (q_ q))) as [Hf|Hf]; eexists _, _, _; (split; [done|]).
  - rewrite He2. apply wq_good_same; [|done|constructor|].
    + intros [|]; [by left|right; by apply wq_full_need].
    + intros p [= <-]. split; [done|]. split; [by apply wq_full_need|by subst].
  - rewrite He1. destruct (push_heap_law comp (q_ q) x _ Hh) as [Hp Hh']. apply wq_good_push; try done.
    rewrite zlen_cons, zlen_nil. lia.
Qed.

(** One section of [push_many]: nothing left, no space, or a chunk and then one of
    the two. *)
Lemma wq_push_many_loop q rest : exists n, let q' := with_q q (container_push_many (q_ q) (take n rest)) in
  match rest with
  | [] => push_many_loop (S (length rest)) q rest [] = Ok (q, [], Return RVoid)
  | _ =>
      if max_queue_size_ q <=? zlen (q_ q) then push_many_loop (S (length rest)) q rest [] = Ok (q, [], Wait (InPushMany rest))
      else (0 < n <= length rest)%nat /\ zlen (q_ q) + Z.of_nat n <= max_queue_size_ q /\
        push_many_loop (S (length rest)) q rest [] =
          Ok (q', signal_ready_if_empty q, match drop n rest with [] => Return RVoid | rest' => Wait (InPushMany rest') end) /\
        (drop n rest <> [] -> zlen (q_ q) + Z.of_nat n = max_queue_size_ q)
  end.
Proof.
  destruct rest as [|x rest]; [by exists O|].
  exists (Z.to_nat (Z.min (max_queue_size_ q - zlen (q_ q)) (zlen (x :: rest)))).
  set (n := Z.to_nat _). cbn zeta. destruct (Z.leb_spec (max_queue_size_ q) (zlen (q_ q))) as [Hf|Hf].
  { cbn [push_many_loop]. by destruct (Z.leb_spec (max_queue_size_ q) (zlen (q_ q))); [|lia]. }
  assert (zlen (x :: rest) = Z.of_nat (length (x :: rest))) as Hlen by done.
  assert (0 < n <= length (x :: rest))%nat as Hn by (subst n; rewrite Hlen; cbn [length]; lia).
  assert (drop n (x :: rest) <> [] -> zlen (q_ q) + Z.of_nat n = max_queue_size_ q) as Hfull.
  { intros Hd. destruct (decide (n = length (x :: rest))) as [E|E]; [by rewrite E, drop_all in Hd|]. subst n. lia. }
  split; [done|]. split; [subst n; lia|]. split; [|done].
  cbn [push_many_loop length]. destruct (Z.leb_spec (max_queue_size_ q) (zlen (q_ q))); [lia|]. fold n. cbn [app].
  assert (zlen (container_push_many (q_ q) (take n (x :: rest))) = zlen (q_ q) + Z.of_nat n) as Hl.
  { unfold container_push_many. destruct (make_heap_law comp (q_ q ++ take n (x :: rest)) _) as [Hp _].
    unfold zlen. rewrite Hp, length_app, length_take. lia. }
  destruct (drop n (x :: rest)) as [|y rest']; [by destruct (length rest)|].
  cbn [with_q q_ max_queue_size_]. rewrite Hl. specialize (Hfull ltac:(done)).
  by destruct (Z.leb_spec (max_queue_size_ q) (zlen (q_ q) + Z.of_nat n)); [|lia].
Qed.

Lemma wq_push_many_ok self q rest : self_ok self -> self ready_ = 0 -> is_heap comp (q_ q) -> (rest = [] -> self unfull_ = 0) ->
  section_ok self q (push_many_events rest) (push_many_loop (S (length rest)) q rest []).
Proof.
  intros Hself Hs Hh Hr. destruct (wq_push_many_loop q rest) as [n Hn]. cbn zeta in Hn. destruct rest as [|x rest].
  { rewrite Hn. eexists _, _, _. split; [done|]. apply wq_good_same; [|done|constructor|done].
    intros [|]; [by left|left; by apply Hr]. }
  remember (x :: rest) as l eqn:El. assert (l <> []) as Hl by (by subst).
  destruct (Z.leb_spec (max_queue_size_ q) (zlen (q_ q))) as [Hf|Hf].
  - rewrite Hn. eexists _, _, _. split; [done|]. cbn [push_many_events]. rewrite Nat.sub_diag. cbn.
    apply wq_good_same; [|done|constructor|].
    + intros [|]; [by left|right; by apply wq_full_need].
    + intros p [= <-]. split; [done|]. split; [by apply wq_full_need|by subst].
  - destruct Hn as (Hn & Hfit & -> & Hfull). eexists _, _, _. split; [done|].
    destruct (make_heap_law comp (q_ q ++ take n l) _) as [Hp Hh'].
    assert (zlen (take n l) = Z.of_nat n) as Htk by (unfold zlen; rewrite length_take; lia).
    assert (take n l <> []) as Hne by (intros E; rewrite E, zlen_nil in Htk; lia).
    assert (push_many_events l (match drop n l with [] => Return RVoid | rest' => Wait (InPushMany rest') end) = [EvPush (take n l)]) as ->.
    { destruct (drop n l) as [|y r] eqn:Ed; cbn [push_many_events].
      - assert (take n l = l) as -> by (rewrite <- (take_drop n l) at 2; by rewrite Ed, app_nil_r). by destruct l.
      - assert (length l - length (y :: r) = n)%nat as -> by (rewrite <- Ed, length_drop; lia). by destruct (take n l). }
    apply wq_good_push; [done|done|done|by rewrite Htk|done|done|].
    intros p Ep. assert (drop n l <> [] /\ exists y r, p = InPushMany (y :: r)) as (Hd & y & r & ->).
    { destruct (drop n l) as [|y r]; [done|]. injection Ep as <-. split; [done|by exists y, r]. }
    split; [done|]. split; [|done]. cbn. unfold container_push_many, zlen. rewrite Hp, length_app. fold (zlen (q_ q)).
    specialize (Hfull Hd). unfold zlen in *. lia.
Qed.

Lemma wq_pop_ok self q c x sg r : self_ok self -> self unfull_ = 0 -> q_ q ≡ₚ x :: c -> is_heap comp c -> greatest x (q_ q) ->
  Signal unfull_ ∈ sg -> (self ready_ = 0 \/ c = [] \/ Signal ready_ ∈ sg) ->
  good self q [EvPop x] (with_q q c) sg (Return r).
Proof.
  intros Hself Hs Hp Hh Hg Hu Hr. split; [done| |by left|done|].
  - apply spec_run_one. by constructor.
  - intros cv. specialize (Hself cv). destruct cv; cbn [need with_q q_ max_queue_size_]; rewrite ?wq_is_empty.
    + assert (bool_decide (q_ q = []) = false) as ->.
      { apply bool_decide_eq_false. intros E. rewrite E in Hp. by apply Permutation_nil_cons in Hp. }
      unfold with_q. cbn [q_]. destruct Hr as [Hr|[->|Hr]].
      * right. left. case_match; lia.
      * by left.
      * right. right. left. split; [case_match; lia|done].
    + right. right. left. split; [|done]. assert (zlen (q_ q) = zlen c + 1); [|lia]. unfold zlen. rewrite Hp. cbn. lia.
Qed.

(** The self of a call is nobody, that of a resumed thread counts on its condition variable. *)
Definition nobody (c : condvar) : Z := 0.
Definition self_of (p : pc) (c : condvar) : Z := if decide (waits_on_queue p = c) then 1 else 0.

Lemma wq_Wait_finish_ok self q (woken : bool) limit : self_ok self -> self unfull_ = 0 -> is_heap comp (q_ q) -> is_empty q = false ->
  (woken = false -> self ready_ = 0) -> section_ok self q (wait_events limit) (Wait_finish q woken).
Proof.
  intros Hself Hs Hh He Hw. rewrite wq_is_empty in He. apply bool_decide_eq_false in He.
  destruct (wq_pop_top (q_ q) He Hh) as (c & x & Ep & Hg & Hp & Hc). unfold Wait_finish. rewrite Ep.
  eexists _, _, _. split; [done|]. cbn [wait_events]. apply wq_pop_ok; try done.
  - apply elem_of_app. right. left.
  - destruct woken; [|left; by apply Hw]. rewrite wq_is_empty. cbn [with_q q_ andb].
    destruct (decide (c = [])) as [->|Hc0]; [right; by left|].
    right. right. apply elem_of_app. left. rewrite bool_decide_eq_false_2 by done. left.
Qed.

Lemma wq_empty_need q : is_empty q = true -> need ready_ q <= 0.
Proof. cbn. by intros ->. Qed.

Lemma wq_empty_content q : is_empty q = true -> q_ q = [].
Proof. rewrite wq_is_empty. apply bool_decide_eq_true. Qed.

(** The waits, for a thread that was woken or has just come. *)
Lemma wq_Wait_ok self q (woken : bool) i deadline limit f : self_ok self -> self unfull_ = 0 -> is_heap comp (q_ q) ->
  (woken = false -> self ready_ = 0) ->
  f = Wait_loop q woken /\ limit = None \/
  f = WaitWithTimeout_loop q deadline woken i /\ limit = Some (deadline, at_test i) ->
  section_ok self q (wait_events limit) f.
Proof.
  intros Hself Hs Hh Hw Hf. destruct (is_empty q) eqn:He.
  2:{ assert (f = Wait_finish q woken) as ->; [|by apply wq_Wait_finish_ok].
      destruct Hf as [[-> _]|[-> _]]; unfold Wait_loop, WaitWithTimeout_loop; by rewrite He. }
  assert (forall cv, self cv = 0 \/ need cv q <= 0) as Hn by (intros [|]; [right; by apply wq_empty_need|by left]).
  pose proof (wq_empty_content q He) as Hc. destruct (stop_requested_ q) eqn:Hst.
  - assert (f = Ok (q, [], Return (RWait false None false))) as ->.
    { destruct Hf as [[-> _]|[-> _]]; unfold Wait_loop, WaitWithTimeout_loop; by rewrite He, Hst. }
    eexists _, _, _. split; [done|]. apply wq_good_same; [done|done| |done]. apply spec_run_one. unfold bag_of. rewrite Hc, Hst. constructor.
  - assert (bag_of q = {| content := []; bound := max_queue_size_ q; halted := false |}) as Hq by (unfold bag_of; by rewrite Hc, Hst).
    assert (forall d now, d <= now -> bag_run (bag_of q) [EvTimeout (Some (d, now))] (bag_of q)) as Ht.
    { intros d now Hd. rewrite Hq. apply spec_run_one. by constructor. }
    assert (forall p, waits_on_queue p = ready_ -> bag_run (bag_of q) (wait_events limit (Wait p)) (bag_of q) ->
      section_ok self q (wait_events limit) (Ok (q, [], Wait p))) as Hwait.
    { intros p Hp Hr. eexists _, _, _. split; [done|]. apply wq_good_same; [done|done|done|].
      intros ? [= <-]. rewrite Hp. split; [by destruct p|]. split; [by apply wq_empty_need|]. by intros ->. }
    destruct Hf as [[-> ->]|[-> ->]]; unfold Wait_loop, WaitWithTimeout_loop; rewrite He, Hst.
    + apply Hwait; [done|constructor].
    + destruct (Z.leb_spec deadline (at_test i)) as [Hd|Hd].
      * eexists _, _, _. split; [done|]. apply wq_good_same; [done|done|by apply Ht|done].
      * apply Hwait; [done|]. cbn. rewrite Hq. apply spec_run_one. by constructor.
Qed.

Lemma wq_enter_ok q rq i : is_heap comp (q_ q) -> typed_request rq -> section_ok nobody q (call_events rq i) (enter_queue q rq i).
Proof.
  intros Hh Ht. assert (self_ok nobody) as Hself by (intros c; unfold nobody; lia).
  assert (forall evs r, bag_run (bag_of q) evs (bag_of q) -> good nobody q evs q [] (Return r)) as Hsame.
  { intros evs r Hr. by apply wq_good_same; [left| | |]. }
  destruct rq as [n|x|xs| | |c| |timeout| | | |]; cbn [enter_queue call_events typed_request] in *.
  - eexists _, _, _. split; [done|]. split; cbn; try done; [|by left|].
    + apply spec_run_one. constructor.
    + intros [|]; [right; left; unfold nobody, need, is_empty; cbn; lia|right; right; right; left].
  - by apply wq_push_ok.
  - by apply wq_push_many_ok.
  - unfold Pop. destruct (is_empty q) eqn:He.
    + eexists _, _, _. split; [done|]. apply Hsame, spec_run_one. unfold bag_of. rewrite (wq_empty_content q He). constructor.
    + rewrite wq_is_empty in He. apply bool_decide_eq_false in He. destruct (wq_pop_top (q_ q) He Hh) as (c & x & Ep & Hg & Hp & Hc).
      rewrite Ep. eexists _, _, _. split; [done|]. apply wq_pop_ok; try done; [left|by left].
  - unfold Front. destruct (is_empty q) eqn:He.
    + eexists _, _, _. split; [done|]. apply Hsame, spec_run_one. unfold bag_of. rewrite (wq_empty_content q He). constructor.
    + rewrite wq_is_empty in He. apply bool_decide_eq_false in He. unfold top. destruct (q_ q) as [|x l] eqn:Eq; [done|].
      eexists _, _, _. split; [done|]. apply Hsame, spec_run_one. unfold bag_of. rewrite Eq. constructor. split; [left|by apply is_heap_front].
  - subst c. unfold SwapEmptyContainer, DCHECK. rewrite bool_decide_eq_true_2, orb_true_r by done.
    eexists _, _, _. split; [done|]. split; cbn; [intros ? ? ? ? Hl; by rewrite lookup_nil in Hl| |by left|done|].
    + apply spec_run_one. by constructor.
    + intros [|]; [by left|right; right; right; left].
  - by apply (wq_Wait_ok nobody q false i 0 None); [..|left].
  - by apply (wq_Wait_ok nobody q false i (at_call i + timeout) (Some (at_call i + timeout, at_test i))); [..|right].
  - eexists _, _, _. split; [done|]. split; cbn; try done.
    + apply spec_run_one. constructor.
    + intros [x|xs| |d] Hr; [by left|by left|right; left..].
    + intros [|]; [right; right; right; left|right; left; unfold nobody; cbn; lia].
  - eexists _, _, _. split; [done|]. apply Hsame, spec_run_one. by constructor.
  - eexists _, _, _. split; [done|]. apply Hsame, spec_run_one. unfold empty. rewrite wq_is_empty. constructor.
  - eexists _, _, _. split; [done|]. apply Hsame, spec_run_one. constructor.
Qed.

Lemma wq_resume_ok q p i : is_heap comp (q_ q) -> (forall rest, p = InPushMany rest -> rest <> []) ->
  section_ok (self_of p) q (resume_events p i) (resume_queue q p i).
Proof.
  intros Hh Hp. assert (self_ok (self_of p)) as Hself by (intros c; unfold self_of; case_decide; lia).
  destruct p as [x|rest| |d]; cbn [resume_queue].
  - by apply wq_push_ok.
  - apply wq_push_many_ok; try done. intros E. by destruct (Hp rest eq_refl).
  - by apply (wq_Wait_ok _ q true i 0 None); [..|left].
  - by apply (wq_Wait_ok _ q true i d (Some (d, at_test i))); [..|right].
Qed.

(** ** Runs *)

Abbreviation state := (mstate PrioritizedWaitQueue pc).
Abbreviation threads_of := (gmap nat (pc * bool)).

Record state_ok (x : state) : Prop := {
  so_heap : is_heap comp (q_ (shared x));
  so_many : forall t b, threads x !! t <> Some (InPushMany [], b);
  so_reason : justified reason (shared x) (threads x);
  so_cover : forall c, covered c (need c (shared x)) (threads x);
}.

Lemma wq_waiting (th th' : threads_of) sg t (e : ending pc result) : wake th sg th' ->
  (forall t b, th !! t <> Some (InPushMany [], b)) -> (forall p, e = Wait p -> p <> InPushMany []) ->
  forall t' b, after th' t e !! t' <> Some (InPushMany [], b).
Proof.
  intros W Hm He t' b E. assert (th' !! t' <> Some (InPushMany [], b)) as Hn.
  { intros E'. assert (pcs th' !! t' = Some (InPushMany [])) as Ep by (apply mon_pcs_lookup; by eexists).
    rewrite (mon_wake_pcs _ _ _ W) in Ep. apply mon_pcs_lookup in Ep as [b' Ep]. by apply (Hm t' b'). }
  destruct e as [r|p]; cbn in E.
  - by apply lookup_delete_Some in E as [_ E].
  - apply lookup_insert_Some in E as [[_ [= E _]]|[_ E]]; [by apply (He p)|done].
Qed.

(** A section that goes well keeps the invariant; [th] are the other threads. *)
Lemma wq_state_after self q th t evs q' sg e th' : th !! t = None ->
  (forall t b, th !! t <> Some (InPushMany [], b)) -> justified reason q th -> (forall c, covered c (need c q - self c) th) ->
  good self q evs q' sg e -> wake th sg th' -> state_ok {| shared := q'; threads := after th' t e |}.
Proof.
  intros Et Hm Hr Hc [Hh _ Hrs Hw Hn] W. split; cbn [shared threads]; [done| | |].
  - apply (wq_waiting th th' sg t e W Hm). intros p ->. by apply Hw.
  - apply (mon_justified_section reason q q' th sg th' t e Hr W Hrs). intros p ->. by apply Hw.
  - intros c. apply mon_covered_after; [|by apply (mon_wake_None _ _ _ t W)|].
    + destruct (Hn c) as [Hz|Hn']; [by apply mon_covered_zero|]. by apply (mon_covered_wake c _ _ _ _ _ (Hc c) W).
    + intros p -> <-. by apply Hw.
Qed.

Lemma wq_step_ok x lb e x' : state_ok x -> mstep x lb e x' ->
  (match lb with Call _ rq _ => typed_request rq | _ => True end) ->
  state_ok x' /\ bag_run (bag_of (shared x)) (step_events (lb, e)) (bag_of (shared x')).
Proof.
  intros [Hh Hm Hr Hc] Stp Ht.
  destruct Stp as [q th t rq i q' sg e th' E Er W|q th t p i q' sg e th' E Er W|q th t p b E]; cbn [step_events shared threads] in *.
  - destruct (wq_enter_ok q rq i Hh Ht) as (q1 & sg1 & e1 & E1 & Hg). cbn in Er. rewrite Er in E1. injection E1 as <- <- <-.
    split; [|by apply Hg]. apply (wq_state_after nobody q th t (call_events rq i e) q' sg e th'); try done.
    intros c. unfold nobody. by rewrite Z.sub_0_r.
  - assert (forall rest, p = InPushMany rest -> rest <> []) as Hp by (intros rest -> ->; by apply (Hm t false)).
    destruct (wq_resume_ok q p i Hh Hp) as (q1 & sg1 & e1 & E1 & Hg). cbn in Er. rewrite Er in E1. injection E1 as <- <- <-.
    split; [|by apply Hg]. apply (wq_state_after (self_of p) q (delete t th) t (resume_events p i e) q' sg e th'); try done.
    + by rewrite lookup_delete_eq.
    + intros t' b E'. apply lookup_delete_Some in E' as [_ E']. by apply (Hm t' b).
    + by apply mon_justified_delete.
    + intros c. pose proof (mon_covered_delete c _ th t p (Hc c) E) as Hd. unfold self_of.
      change (waits_on p) with (waits_on_queue p) in Hd. case_decide; [done|]. by rewrite Z.sub_0_r.
  - split; [|constructor]. split; cbn [shared threads]; [done| |by apply mon_justified_spurious|].
    + intros t' b' E'. apply lookup_insert_Some in E' as [[-> [= -> _]]|[_ E']]; [by apply (Hm t' b)|by apply (Hm t' b')].
    + intros c. by apply (mon_covered_spurious c _ th t p b).
Qed.

Lemma wq_run_ok x tr x' : mrun x tr x' -> state_ok x -> typed tr ->
  state_ok x' /\ bag_run (bag_of (shared x)) (events tr) (bag_of (shared x')).
Proof.
  induction 1 as [x|x lb e x1 tr x' Stp _ IH]; intros Hx Ht; [split; [done|constructor]|].
  apply Forall_cons in Ht as [Ht1 Ht]. destruct (wq_step_ok x lb e x1 Hx Stp Ht1) as [Hx1 R1].
  destruct (IH Hx1 Ht) as [Hx' R']. split; [done|]. unfold events. cbn [map concat]. by apply (spec_run_app _ _ _ _ _ _ R1).
Qed.

Lemma wq_idle_ok : state_ok (idle make_wait_queue).
Proof.
  split; cbn.
  - intros ? ? ? ? Hl. by rewrite lookup_nil in Hl.
  - intros t b. by rewrite lookup_empty.
  - intros t p. by rewrite lookup_empty.
  - intros c. left. intros t p. by rewrite lookup_empty.
Qed.

(** ** Progress *)

Lemma wq_istep_ok (x x' : state) : state_ok x -> istep x x' -> state_ok x'.
Proof. intros Hx (t & p & i & e & Stp). by apply (wq_step_ok x (Resume t p i) e x'). Qed.

Definition work (p : pc) : nat := match p with InPushMany rest => S (length rest) | _ => 1 end.

Lemma wq_finish_returns q woken q' sg p : Wait_finish q woken <> Ok (q', sg, Wait p).
Proof. unfold Wait_finish. by destruct (pop_top (q_ q)) as [[c x]| |]. Qed.

Lemma wq_resume_waits q p i q' sg p' : p <> InPushMany [] -> resume_queue q p i = Ok (q', sg, Wait p') ->
  (work p' < work p)%nat \/ work p' = work p /\ sg = [].
Proof.
  intros Hp. destruct p as [x|rest| |d]; cbn [resume_queue].
  - unfold push_internal. case_match; [|done]. intros [= _ <- <-]. by right.
  - destruct (wq_push_many_loop q rest) as [n Hn]. cbn zeta in Hn. destruct rest as [|x rest]; [done|].
    destruct (_ <=? _); [rewrite Hn; intros [= _ <- <-]; by right|]. destruct Hn as (Hn & _ & -> & _).
    intros E. left. destruct (drop n (x :: rest)) as [|y r] eqn:Ed; [done|]. injection E as _ _ <-. cbn [work].
    rewrite <- Ed, length_drop. cbn in *. lia.
  - unfold Wait_loop. case_match; [|by intros ?%wq_finish_returns]. case_match; [done|]. intros [= _ <- <-]. by right.
  - unfold WaitWithTimeout_loop. case_match; [|by intros ?%wq_finish_returns]. case_match; [done|]. case_match; [done|].
    intros [= _ <- <-]. by right.
Qed.

Lemma wq_istep_sn (x : state) : state_ok x -> sn istep x.
Proof.
  apply (mon_istep_sn work state_ok wq_istep_ok); [intros []; cbn; lia|].
  intros s t p i s' sg p' Hs E Er. apply (wq_resume_waits _ _ _ _ _ _ (fun Hp => so_many s Hs t false (eq_trans E (f_equal (fun p => Some (p, false)) Hp))) Er).
Qed.

Lemma wq_can_resume (x : state) t p i : state_ok x -> threads x !! t = Some (p, false) -> exists e x', mstep x (Resume t p i) e x'.
Proof.
  intros Hx E. assert (forall rest, p = InPushMany rest -> rest <> []) as Hp by (intros rest -> ->; by apply (so_many x Hx t false)).
  destruct (wq_resume_ok (shared x) p i (so_heap x Hx) Hp) as (s' & sg & e & Er & _).
  destruct (mon_resume_step (H := queue_monitor) x t p i s' sg e E Er) as [th' Stp]. by eexists _, _.
Qed.

Lemma wq_can_call (x : state) t rq i : state_ok x -> threads x !! t = None -> typed_request rq -> exists e x', mstep x (Call t rq i) e x'.
Proof.
  intros Hx E Ht. destruct (wq_enter_ok (shared x) rq i (so_heap x Hx) Ht) as (s' & sg & e & Er & _).
  destruct (mon_call_step (H := queue_monitor) x t rq i s' sg e E Er) as [th' Stp]. by eexists _, _.
Qed.

Lemma wq_stuck_reason (x : state) t p b : state_ok x -> (forall x', ~ istep x x') -> threads x !! t = Some (p, b) ->
  reason (shared x) p /\ need (waits_on_queue p) (shared x) <= 0.
Proof.
  intros Hx Hst E. assert (forall t p b, threads x !! t = Some (p, b) -> b = true) as Hall.
  { intros t' p' [] E'; [done|]. destruct (wq_can_resume x t' p' {| at_call := 0; at_test := 0 |} Hx E') as (e & x' & Stp).
    destruct (Hst x'). by eexists t', p', _, _. }
  rewrite (Hall t p b E) in E. split; [by apply (so_reason x Hx t p)|].
  by apply (mon_covered_asleep _ _ _ t p (so_cover x Hx (waits_on_queue p)) (fun t p b E _ => Hall t p b E) E).
Qed.

(** What was put in and what was taken out. *)
Fixpoint put_in (evs : list event) : list T :=
  match evs with [] => [] | EvPush xs :: evs => xs ++ put_in evs | _ :: evs => put_in evs end.
Fixpoint taken_out (evs : list event) : list T :=
  match evs with [] => [] | EvPop x :: evs => x :: taken_out evs | EvTake l :: evs => l ++ taken_out evs | _ :: evs => taken_out evs end.

Lemma bag_conserves x evs y : bag_run x evs y -> content x ++ put_in evs ≡ₚ taken_out evs ++ content y.
Proof.
  induction 1 as [x|x ev y evs z St _ IH]; [cbn; by rewrite app_nil_r|].
  destruct St as [l l' n h xs _ Hp|l l' n h a _ Hp|n h|l n h a _|n|n d now _|n d now _|l l' n h Hp|l l' n h Hp|l n h m|l n h|l n h|l n h];
    cbn [content put_in taken_out] in *; try done.
  - rewrite app_assoc, <- Hp. done.
  - rewrite Hp. cbn. by rewrite IH.
  - rewrite <- app_assoc, <- IH. by rewrite Hp.
Qed.

(** ** Properties *)

(** C15. The queue is a bag with a greatest element first.  Whatever threads do with a
    new queue, with any interleaving and any wake-ups without a signal, and any heap
    algorithms with the documented behaviour: what they see is a run of the abstract
    bag.  Pushes keep within the bound of that moment, a pop takes a greatest
    element, and an operation that reports nothing found an empty bag, stopped or at
    its deadline: a [WaitWithTimeout] called at the time [t] reports a timeout
    only at a test of the clock that reads [t] + timeout or later, and it sleeps only
    while the bag is empty and not stopped, when its test reads less than that, and
    then until that time.  Nothing is lost or doubled.  Every section that a thread can call
    or resume runs to its end. *)
Theorem WaitQueue_refines_bag tr x : mrun (idle make_wait_queue) tr x -> typed tr ->
  bag_run (bag_of make_wait_queue) (events tr) (bag_of (shared x)) /\
  put_in (events tr) ≡ₚ taken_out (events tr) ++ q_ (shared x) /\
  (forall t rq i, threads x !! t = None -> typed_request rq -> exists e x', mstep x (Call t rq i) e x') /\
  (forall t p i, threads x !! t = Some (p, false) -> exists e x', mstep x (Resume t p i) e x').
Proof.
  intros R Ht. destruct (wq_run_ok _ _ _ R wq_idle_ok Ht) as [Hx Rb]. split; [done|]. split; [by apply (bag_conserves _ _ _ Rb)|].
  split; [intros t rq i; by apply wq_can_call|intros t p i; by apply wq_can_resume].
Qed.

(** C18. No wake-up is lost.  From every state that a run reaches, the threads that
    were woken take finitely many steps, however they are scheduled.  When none is
    left, a thread that waits for an element waits on an empty queue whose waiters have
    not been stopped, and a producer waits on a queue that is full, although a
    push signals only when the queue was empty, a batch wakes one consumer, and
    a pop wakes one producer. *)
Theorem WaitQueue_no_lost_wakeups tr x : mrun (idle make_wait_queue) tr x -> typed tr ->
  sn istep x /\
  forall x', rtc istep x x' -> (forall x'', ~ istep x' x'') -> forall t p b, threads x' !! t = Some (p, b) ->
    match p with
    | InWait | InWaitWithTimeout _ => empty (shared x') = true /\ stop_requested_ (shared x') = false
    | InPush _ | InPushMany _ => max_queue_size_ (shared x') <= size (shared x')
    end.
Proof.
  intros R Ht. destruct (wq_run_ok _ _ _ R wq_idle_ok Ht) as [Hx _]. split; [by apply wq_istep_sn|].
  intros x' R' Hst t p b E. assert (state_ok x') as Hx'.
  { clear -R' Hx StrictWeak0 H1. induction R' as [|x y z Stp _ IH]; [done|]. by apply IH, (wq_istep_ok x). }
  destruct (wq_stuck_reason x' t p b Hx' Hst E) as [Hr Hn]. destruct p; cbn in Hr, Hn; unfold size, empty; try lia.
  all: split; [by destruct (is_empty _)|done].
Qed.
End queue.
Arguments PrioritizedWaitQueue : clear implicits.
Arguments pc : clear implicits.
Arguments result : clear implicits.
Arguments request : clear implicits.

(** ** A run

    A consumer gives up after its timeout.  Two consumers wait; a batch of three goes
    into a queue of two. *)
#[local] Existing Instance opt_build.
#[local] Instance demo_order : StrictWeak Z.ltb.
Proof. split; intros; lia. Qed.

Definition demo_clock : readings := {| at_call := 0; at_test := 0 |}.
Definition demo_trace : list (Monitor.label (request Z) readings (pc Z) * option (ending (pc Z) (result Z))) :=
  [(Call 4 (RqWaitWithTimeout 5) {| at_call := 10; at_test := 12 |}, Some (Wait (InWaitWithTimeout 15)));
   (Spurious 4, None);
   (Resume 4 (InWaitWithTimeout 15) {| at_call := 0; at_test := 15 |}, Some (Return (RWait true None true)));
   (Call 1 RqWait demo_clock, Some (Wait InWait));
   (Call 2 RqWait demo_clock, Some (Wait InWait));
   (Call 3 (RqSetMaxQueueSize 2) demo_clock, Some (Return RVoid));
   (Call 3 (RqPushMany [1; 3; 2]) demo_clock, Some (Wait (InPushMany [2])));
   (Resume 1 InWait demo_clock, Some (Return (RWait true (Some 3) false)));
   (Resume 3 (InPushMany [2]) demo_clock, Some (Return RVoid))].

Definition demo_end : mstate (PrioritizedWaitQueue Z) (pc Z) :=
  {| shared := {| q_ := [2; 1]; max_queue_size_ := 2; stop_requested_ := false |}; threads := {[ 2%nat := (InWait, false) ]} |}.

Ltac demo_step := eapply mrun_cons; [first [eapply mstep_call|eapply mstep_resume]; [vm_compute; reflexivity|vm_compute; reflexivity|]|].

Lemma wq_demo_run : mrun (H := queue_monitor Z.ltb) (idle make_wait_queue) demo_trace demo_end.
Proof.
  unfold demo_trace, idle. demo_step; [constructor|].
  eapply mrun_cons; [eapply mstep_spurious; vm_compute; reflexivity|]. demo_step; [constructor|].
  do 3 (demo_step; [repeat constructor|]).
  demo_step; [apply (wake_one _ 1 InWait); [reflexivity|reflexivity|constructor]|].
  demo_step; [apply (wake_one _ 2 InWait); [reflexivity|reflexivity|apply (wake_one _ 3 (InPushMany [2])); [reflexivity|reflexivity|constructor]]|].
  demo_step; [constructor|].
  match goal with |- mrun ?x [] ?y => replace x with y; [constructor|by vm_compute] end.
Qed.

Lemma wq_demo_typed : typed demo_trace.
Proof. unfold typed, demo_trace. repeat constructor. Qed.

Lemma WaitQueue_refines_bag_witness : put_in (events demo_trace) ≡ₚ taken_out (events demo_trace) ++ [2; 1].
Proof. apply (WaitQueue_refines_bag Z.ltb demo_trace demo_end); [exact wq_demo_run|exact wq_demo_typed]. Defined.

Lemma WaitQueue_no_lost_wakeups_witness : sn (istep (H := queue_monitor Z.ltb)) demo_end.
Proof. apply (WaitQueue_no_lost_wakeups Z.ltb demo_trace demo_end); [exact wq_demo_run|exact wq_demo_typed]. Defined.
