(* ===== verification/OrderedQueue.v ===== *)
(** * Ordered producer-consumer queues

    [thread/ordered-producer-consumer-queue.h]: elements are created in order,
    produced in any order and consumed in the order of their creation, each after
    it was produced.  The operations are sections in the frame of [Monitor]; what a
    section reads from outside is the clock and, after a wait with a deadline,
    whether the wait reports that it timed out.  A condition variable may report so
    at any time after the deadline, also to a thread that was signalled.

    The properties: order; no check fails but those that the comments warn of
    ([OrderedQueue_safe]); woken consumers and, without timed creation, woken
    producers leave nobody waiting for something that is there.  With timed creation
    a wake-up can be lost, and consumers can be left behind on a stopped queue: two
    runs show it ([TryCreate_steals_signal], [Consume_left_behind]).  The next thread that
    gives up takes those left behind with it ([OrderedQueue_drains]). *)
From Stdlib Require Import ZArith Lia.
From stdpp Require Import base gmap list relations.
From S2P Require Import Prelude.
From S2P Require Import Monitor.
Local Open Scope Z_scope.

(** The clock at the call, the clock after a wait, and the result of the wait. *)
Record readings := { at_call : Z; at_wake : Z; wait_timed_out : bool }.

Inductive condvar := can_consume_ | can_produce_.
#[global] Instance condvar_eq_dec : EqDecision condvar.
Proof. solve_decision. Defined.

Section queue.
Context {T : Type}.

(** The flag of an element says that it was produced. *)
Record OrderedProducerConsumerQueue := {
  capacity_ : Z;
  first_ : Z;
  q_ : list (T * bool);
  stop_requested_ : bool;
}.

(** A deadline of [None] is [absl::InfiniteFuture()]. *)
Inductive pc := InCreate (e : T) | InTryCreate (e : T) (deadline : option Z) | InConsume | InTryConsume (deadline : Z).

(** [RTry] has the value returned, [*index] where it is written, and [*stopped];
    [RTryConsume] what was consumed, [*stopped] and [*timed_out], which [TryConsume]
    does not have. *)
Inductive result :=
| RVoid | RIndex (index : Z) | RTry (ret : bool) (index : option Z) (stopped : bool)
| RConsume (e : option T) | RTryConsume (e : option T) (stopped timed_out : bool) | RBool (b : bool) | RSize (n : Z).

Abbreviation section := (outcome (OrderedProducerConsumerQueue * list (signal condvar) * ending pc result)).
Implicit Types (q : OrderedProducerConsumerQueue) (i : readings).

Definition with_q q (first : Z) (l : list (T * bool)) : OrderedProducerConsumerQueue :=
  {| capacity_ := capacity_ q; first_ := first; q_ := l; stop_requested_ := stop_requested_ q |}.

Definition make_ordered_queue (capacity : Z) : OrderedProducerConsumerQueue :=
  {| capacity_ := capacity; first_ := 0; q_ := []; stop_requested_ := false |}.

Definition is_empty q : bool := zlen (q_ q) =? 0.
Definition is_full q : bool := zlen (q_ q) =? capacity_ q.

(** The destructor. *)
Definition destroy q : outcome unit := CHECK (is_empty q).

(** The test of the waits for capacity. *)
Definition no_capacity q : bool := negb (capacity_ q =? 0) && is_full q.

(** The new element, and the signal to other threads in [Create]. *)
Definition push_element q (e : T) (woken : bool) : OrderedProducerConsumerQueue * list (signal condvar) * Z :=
  let index := s64 (first_ q + zlen (q_ q)) in
  let q := with_q q (first_ q) (q_ q ++ [(e, false)]) in
  (q, if woken && negb (is_full q) then [Signal can_produce_] else [], index).

(** [CreateInternal], from the test of its loop. *)
Definition Create_loop q (e : T) (woken : bool) : section :=
  if no_capacity q then Ok (q, [], Wait (InCreate e))
  else
    CHECK (negb (stop_requested_ q));;
    let '(q, sg, index) := push_element q e woken in Ok (q, sg, Return (RIndex index)).

Definition Create q (e : T) : section := Create_loop q e false.

(** [TryCreateInternal]: from the test of its loop, from its beginning and after a wait. *)
Definition TryCreate_loop q (e : T) (deadline : option Z) (woken : bool) : section :=
  if no_capacity q then Ok (q, [], Wait (InTryCreate e deadline))
  else let '(q, sg, index) := push_element q e woken in Ok (q, sg, Return (RTry true (Some index) false)).

Definition TryCreateInternal q (e : T) (deadline : option Z) : section :=
  if stop_requested_ q then Ok (q, [], Return (RTry false None true))
  else TryCreate_loop q e deadline false.

Definition WaitWithDeadline (deadline : option Z) i : bool :=
  match deadline with
  | None => false
  | Some d => (d <=? at_wake i) && wait_timed_out i
  end.

Definition TryCreate_woken q (e : T) (deadline : option Z) i : section :=
  if WaitWithDeadline deadline i then Ok (q, [], Return (RTry false None false))
  else if stop_requested_ q then Ok (q, [], Return (RTry false None true))
  else TryCreate_loop q e deadline true.

Definition TryCreate q (e : T) : section := TryCreateInternal q e None.

Definition TryCreateWithTimeout q (e : T) (timeout : Z) i : section :=
  CHECK (0 <=? timeout);; TryCreateInternal q e (Some (at_call i + timeout)).

Definition Produce q (index : Z) : section :=
  if index - first_ q <? - 2 ^ 63 then UB
  else
    let index := index - first_ q in
    CHECK (0 <=? index);;
    CHECK (index <? zlen (q_ q));;
    let index_word := Z.to_nat index in
    match q_ q !! index_word with
    | None => UB
    | Some p =>
        CHECK (negb p.2);;
        Ok (with_q q (first_ q) (<[index_word := (p.1, true)]> (q_ q)),
            if (index_word =? 0)%nat then [Signal can_consume_] else [], Return RVoid)
    end.

(** No element, or its first one is not produced. *)
Definition not_ready q : bool := match q_ q with [] => true | p :: _ => negb p.2 end.

(** Taking the first element: the signal to [Create], the pop, and for woken
    threads the signal to other consumers. *)
Definition pop_element q (woken : bool) : outcome (OrderedProducerConsumerQueue * list (signal condvar) * T) :=
  let sg := if is_full q then [Signal can_produce_] else [] in
  match q_ q with
  | [] => UB
  | p :: l =>
      first ← int64_incr (first_ q);
      let q := with_q q first l in
      Ok (q, sg ++ (if woken && negb (not_ready q) then [Signal can_consume_] else []), p.1)
  end.

(** The loop of [Consume], from its test. *)
Definition Consume_loop q (woken : bool) : section :=
  if not_ready q then
    if is_empty q && stop_requested_ q then Ok (q, [Signal can_consume_], Return (RConsume None))
    else Ok (q, [], Wait InConsume)
  else '(q, sg, e) ← pop_element q woken; Ok (q, sg, Return (RConsume (Some e))).

Definition Consume q : section := Consume_loop q false.

Definition TryConsume q : section :=
  if not_ready q then Ok (q, [], Return (RTryConsume None (is_empty q && stop_requested_ q) false))
  else '(q, sg, e) ← pop_element q false; Ok (q, sg, Return (RTryConsume (Some e) false false)).

(** The loop of [TryConsumeWithTimeout], from its test. *)
Definition TryConsume_loop q (deadline left_to_wait : Z) (woken : bool) : section :=
  if not_ready q then
    if is_empty q && stop_requested_ q then Ok (q, [Signal can_consume_], Return (RTryConsume None true false))
    else if left_to_wait <=? 0 then Ok (q, [], Return (RTryConsume None false true))
    else Ok (q, [], Wait (InTryConsume deadline))
  else '(q, sg, e) ← pop_element q woken; Ok (q, sg, Return (RTryConsume (Some e) false false)).

Definition TryConsumeWithTimeout q (timeout : Z) i : section := TryConsume_loop q (at_call i + timeout) timeout false.

Definition StopConsumers q : section :=
  Ok ({| capacity_ := capacity_ q; first_ := first_ q; q_ := q_ q; stop_requested_ := true |},
      [SignalAll can_consume_; SignalAll can_produce_], Return RVoid).

Definition Empty q : bool := is_empty q.
Definition Size q : Z := zlen (q_ q).
Definition Stopped q : bool := stop_requested_ q.

(** ** Threads *)

Inductive request :=
| RqCreate (e : T) | RqTryCreate (e : T) | RqTryCreateWithTimeout (e : T) (timeout : Z) | RqProduce (index : Z)
| RqConsume | RqTryConsume | RqTryConsumeWithTimeout (timeout : Z) | RqStopConsumers | RqEmpty | RqSize | RqStopped.

Definition enter_ordered q (rq : request) i : section :=
  match rq with
  | RqCreate e => Create q e
  | RqTryCreate e => TryCreate q e
  | RqTryCreateWithTimeout e timeout => TryCreateWithTimeout q e timeout i
  | RqProduce index => Produce q index
  | RqConsume => Consume q
  | RqTryConsume => TryConsume q
  | RqTryConsumeWithTimeout timeout => TryConsumeWithTimeout q timeout i
  | RqStopConsumers => StopConsumers q
  | RqEmpty => Ok (q, [], Return (RBool (Empty q)))
  | RqSize => Ok (q, [], Return (RSize (Size q)))
  | RqStopped => Ok (q, [], Return (RBool (Stopped q)))
  end.

Definition resume_ordered q (p : pc) i : section :=
  match p with
  | InCreate e => Create_loop q e true
  | InTryCreate e deadline => TryCreate_woken q e deadline i
  | InConsume => Consume_loop q true
  | InTryConsume deadline => TryConsume_loop q deadline (deadline - at_wake i) true
  end.

Definition waits_on_ordered (p : pc) : condvar :=
  match p with InCreate _ | InTryCreate _ _ => can_produce_ | InConsume | InTryConsume _ => can_consume_ end.

#[global] Instance ordered_monitor : Monitor OrderedProducerConsumerQueue request readings pc condvar result := {
  enter := enter_ordered;
  resume := resume_ordered;
  waits_on := waits_on_ordered;
}.

(** ** The history of a queue *)

(** All elements in the order of their creation, how many were consumed. *)
Record history := { all : list (T * bool); consumed : nat; halted : bool; cap : Z }.

Inductive event :=
| EvCreate (e : T) (index : Z) | EvTimeout | EvRefused | EvProduce (index : Z) | EvConsume (e : T) | EvDone | EvNotReady
| EvHalt | EvEmpty (b : bool) | EvSize (n : Z) | EvStopped (b : bool).

Definition first_produced (h : history) : Prop := exists e, all h !! consumed h = Some (e, true).

Inductive history_step : history -> event -> history -> Prop :=
| h_create l n c e : c = 0 \/ zlen l - Z.of_nat n < c ->
    history_step {| all := l; consumed := n; halted := false; cap := c |} (EvCreate e (zlen l))
                 {| all := l ++ [(e, false)]; consumed := n; halted := false; cap := c |}
| h_timeout h : history_step h EvTimeout h
| h_refused h : halted h = true -> history_step h EvRefused h
| h_produce l n b c k e : (n <= k)%nat -> l !! k = Some (e, false) ->
    history_step {| all := l; consumed := n; halted := b; cap := c |} (EvProduce (Z.of_nat k))
                 {| all := <[k := (e, true)]> l; consumed := n; halted := b; cap := c |}
| h_consume l n b c e : l !! n = Some (e, true) ->
    history_step {| all := l; consumed := n; halted := b; cap := c |} (EvConsume e)
                 {| all := l; consumed := S n; halted := b; cap := c |}
| h_done h : halted h = true -> consumed h = length (all h) -> history_step h EvDone h
| h_not_ready h : ~ first_produced h -> ~ (halted h = true /\ consumed h = length (all h)) -> history_step h EvNotReady h
| h_halt l n b c : history_step {| all := l; consumed := n; halted := b; cap := c |} EvHalt
                                {| all := l; consumed := n; halted := true; cap := c |}
| h_empty h : history_step h (EvEmpty (bool_decide (consumed h = length (all h)))) h
| h_size h : history_step h (EvSize (zlen (all h) - Z.of_nat (consumed h))) h
| h_stopped h : history_step h (EvStopped (halted h)) h.

Abbreviation history_run := (spec_run history_step).

(** What clients see of a section that was called, and of one that was resumed. *)
Definition try_events (e : T) (en : ending pc result) : list event :=
  match en with
  | Return (RTry true (Some i) false) => [EvCreate e i]
  | Return (RTry false None true) => [EvRefused]
  | Return (RTry false None false) => [EvTimeout]
  | _ => []
  end.

Definition create_events (e : T) (en : ending pc result) : list event :=
  match en with Return (RIndex i) => [EvCreate e i] | _ => [] end.

Definition consume_events (en : ending pc result) : list event :=
  match en with
  | Return (RConsume (Some e)) | Return (RTryConsume (Some e) false false) => [EvConsume e]
  | Return (RConsume None) | Return (RTryConsume None true false) => [EvDone]
  | Return (RTryConsume None false _) => [EvNotReady]
  | _ => []
  end.

Definition call_events (rq : request) (en : ending pc result) : list event :=
  match rq, en with
  | RqCreate e, _ => create_events e en
  | (RqTryCreate e | RqTryCreateWithTimeout e _), _ => try_events e en
  | RqProduce i, Return _ => [EvProduce i]
  | (RqConsume | RqTryConsume | RqTryConsumeWithTimeout _), _ => consume_events en
  | RqStopConsumers, Return _ => [EvHalt]
  | RqEmpty, Return (RBool b) => [EvEmpty b]
  | RqSize, Return (RSize n) => [EvSize n]
  | RqStopped, Return (RBool b) => [EvStopped b]
  | _, _ => []
  end.

Definition resume_events (p : pc) (en : ending pc result) : list event :=
  match p with
  | InCreate e => create_events e en
  | InTryCreate e _ => try_events e en
  | InConsume | InTryConsume _ => consume_events en
  end.

Abbreviation label := (Monitor.label request readings pc).
Abbreviation trace := (list (label * option (ending pc result))).

Definition step_events (le : label * option (ending pc result)) : list event :=
  match le with
  | (Call _ rq _, Some e) => call_events rq e
  | (Resume _ p _, Some e) => resume_events p e
  | _ => []
  end.

Definition events (tr : trace) : list event := concat (map step_events tr).

(** The requests that the comments allow: no [Create] with space after
    [StopConsumers], and [Produce] once for an element that was created. *)
Definition legal q (rq : request) : Prop :=
  match rq with
  | RqCreate _ => no_capacity q = false -> stop_requested_ q = false
  | RqTryCreateWithTimeout _ timeout => 0 <= timeout
  | RqProduce index => 0 <= index - first_ q /\ exists e, q_ q !! Z.to_nat (index - first_ q) = Some (e, false)
  | _ => True
  end.

Definition can_go_on q (p : pc) : Prop :=
  match p with InCreate _ => no_capacity q = false -> stop_requested_ q = false | _ => True end.

(** The queue is what is left of its history. *)
Record rel q (h : history) : Prop := {
  rel_q : q_ q = drop (consumed h) (all h);
  rel_first : first_ q = Z.of_nat (consumed h);
  rel_le : (consumed h <= length (all h))%nat;
  rel_halted : stop_requested_ q = halted h;
  rel_cap : capacity_ q = cap h;
  rel_fits : 0 <= capacity_ q /\ (capacity_ q <> 0 -> zlen (q_ q) <= capacity_ q);
}.

Definition reason q (p : pc) : Prop :=
  match p with
  | InCreate _ => capacity_ q <> 0
  | InTryCreate _ _ => capacity_ q <> 0 /\ stop_requested_ q = false
  | _ => True
  end.

(** How many of the threads that slept on a condition variable have something to do. *)
Definition need (c : condvar) q : Z :=
  match c with
  | can_consume_ => if not_ready q then 0 else 1
  | can_produce_ => if negb (capacity_ q =? 0) && negb (is_full q) && negb (stop_requested_ q) then 1 else 0
  end.

(** What a section does, when the thread counts for [self] of those awake. *)
Record good (self : condvar -> Z) q (h : history) (evs : list event) q' (sg : list (signal condvar)) (e : ending pc result) : Prop := {
  gd_history : exists h', history_run h evs h' /\ rel q' h' /\ (length (all h') <= S (length (all h)))%nat;
  gd_reason : forall p, reason q p -> reason q' p \/ SignalAll (waits_on_ordered p) ∈ sg;
  gd_waits : forall p, e = Wait p -> reason q' p /\ need (waits_on_ordered p) q' <= 0;
  gd_need : forall c, c = can_consume_ \/ EvTimeout ∉ evs -> need c q' <= 0 \/ need c q' <= need c q - self c \/
    need c q' <= need c q - self c + 1 /\ Signal c ∈ sg \/ SignalAll c ∈ sg;
}.

Definition section_ok (self : condvar -> Z) q h (evs : ending pc result -> list event) (f : section) : Prop :=
  exists q' sg e, f = Ok (q', sg, e) /\ good self q h (evs e) q' sg e.

(** ** Lemmas on the queue and its history *)

Lemma oq_size q h : rel q h -> zlen (q_ q) = zlen (all h) - Z.of_nat (consumed h).
Proof. intros []. rewrite rel_q0. unfold zlen. rewrite length_drop. lia. Qed.

Lemma oq_is_empty q h : rel q h -> is_empty q = bool_decide (consumed h = length (all h)).
Proof.
  intros Hr. unfold is_empty. rewrite (oq_size q h Hr). destruct Hr. unfold zlen.
  destruct (Z.eqb_spec (Z.of_nat (length (all h)) - Z.of_nat (consumed h)) 0) as [E|E]; symmetry.
  - apply bool_decide_eq_true. lia.
  - apply bool_decide_eq_false. lia.
Qed.

Lemma oq_not_ready q h : rel q h -> not_ready q = false <-> first_produced h.
Proof.
  intros []. unfold not_ready, first_produced. rewrite rel_q0.
  assert (all h !! consumed h = drop (consumed h) (all h) !! 0%nat) as -> by (rewrite lookup_drop; f_equal; lia).
  destruct (drop (consumed h) (all h)) as [|[e b] l]; cbn; [split; [done|by intros [? ?]]|].
  rewrite negb_false_iff. split; [intros ->; by exists e|by intros [? [= _ ->]]].
Qed.

Lemma oq_no_capacity q h : rel q h -> no_capacity q = false -> cap h = 0 \/ zlen (all h) - Z.of_nat (consumed h) < cap h.
Proof.
  intros Hr Hn. rewrite <- (oq_size q h Hr), <- (rel_cap q h Hr). destruct (rel_fits q h Hr) as [H0 Hf].
  unfold no_capacity, is_full in Hn. destruct (Z.eqb_spec (capacity_ q) 0); [by left|right].
  destruct (Z.eqb_spec (zlen (q_ q)) (capacity_ q)); [done|]. specialize (Hf ltac:(done)). lia.
Qed.

(** ** Sections *)

Definition self_ok (self : condvar -> Z) : Prop := forall c, 0 <= self c <= 1.
Definition nobody (c : condvar) : Z := 0.
Definition self_of (p : pc) (c : condvar) : Z := if decide (waits_on_ordered p = c) then 1 else 0.

(** The sections that leave the elements as they are. *)
Lemma oq_good_same self q h evs sg e : rel q h -> history_run h evs h ->
  (forall c, c = can_consume_ \/ EvTimeout ∉ evs -> self c = 0 \/ need c q <= 0) ->
  (forall p, e = Wait p -> reason q p /\ need (waits_on_ordered p) q <= 0) -> good self q h evs q sg e.
Proof.
  intros Hr Hh Hself Hw. split; [by exists h; split_and!; [..|lia]|by left|done|].
  intros c Hc. destruct (Hself c Hc) as [Hs|Hn]; [right; left; lia|by left].
Qed.

Lemma oq_full_capacity q : no_capacity q = true -> capacity_ q <> 0.
Proof. unfold no_capacity. by destruct (Z.eqb_spec (capacity_ q) 0). Qed.

Lemma oq_full_need q : no_capacity q = true -> need can_produce_ q <= 0.
Proof. unfold no_capacity. cbn. intros [_ ->]%andb_true_iff. by rewrite andb_false_r. Qed.

(** A new element. *)
Lemma oq_push_ok self q h e (woken : bool) (mk : Z -> result) evs : self_ok self -> self can_consume_ = 0 ->
  (woken = false -> self can_produce_ = 0) -> rel q h -> Z.of_nat (length (all h)) < 2 ^ 63 ->
  no_capacity q = false -> stop_requested_ q = false -> (forall k, evs (Return (mk k)) = [EvCreate e k]) ->
  section_ok self q h evs (let '(q, sg, index) := push_element q e woken in Ok (q, sg, Return (mk index))).
Proof.
  intros Hself Hs Hw Hr Hlen Hc Hst He. unfold push_element. eexists _, _, _. split; [done|]. rewrite He.
  assert (s64 (first_ q + zlen (q_ q)) = zlen (all h)) as ->.
  { rewrite (oq_size q h Hr), (rel_first q h Hr). unfold zlen. pose proof (rel_le q h Hr). unfold s64. rewrite swrap_small by lia. lia. }
  pose proof (oq_no_capacity q h Hr Hc) as Hcap. pose proof (oq_size q h Hr) as Hsz. destruct Hr as [Hq Hf Hle Hh Hcp [H0 Hfit]].
  assert (zlen (q_ q ++ [(e, false)]) = zlen (q_ q) + 1) as Hl by (by rewrite zlen_app).
  split; cbn [with_q q_ capacity_ stop_requested_]; [| |done|].
  - destruct h as [l n b c]. cbn in *. exists {| all := l ++ [(e, false)]; consumed := n; halted := b; cap := c |}. split_and!.
    + apply spec_run_one. rewrite <- Hh, Hst. by constructor.
    + split; cbn; try done.
      * by rewrite Hq, drop_app_le.
      * rewrite length_app. cbn. lia.
      * split; [done|]. intros Hc0. rewrite Hl, Hsz. lia.
    + cbn. rewrite length_app. cbn. lia.
  - intros p Hp. by left.
  - intros c _. specialize (Hself c). destruct c; cbn [need].
    + right. left. rewrite Hs. unfold not_ready. cbn. destruct (q_ q) as [|p l]; cbn; [lia|]. case_match; lia.
    + destruct woken; cbn [andb].
      * destruct (is_full (with_q q (first_ q) (q_ q ++ [(e, false)]))) eqn:Ef; cbn [negb].
        -- left. rewrite andb_false_r. done.
        -- right. right. left. split; [|left]. cbn [with_q capacity_ stop_requested_]. rewrite Hst. unfold no_capacity in Hc.
           destruct (capacity_ q =? 0); cbn in *; [lia|]. rewrite Hc. cbn. lia.
      * right. left. rewrite (Hw eq_refl), Hst. cbn [with_q capacity_ stop_requested_ negb]. rewrite Hst. unfold no_capacity in Hc.
        destruct (capacity_ q =? 0); cbn in *; [done|]. rewrite Hc. cbn. case_match; lia.
Qed.

Lemma oq_Create_ok self q h e (woken : bool) : self_ok self -> self can_consume_ = 0 -> (woken = false -> self can_produce_ = 0) ->
  rel q h -> Z.of_nat (length (all h)) < 2 ^ 63 -> (no_capacity q = false -> stop_requested_ q = false) ->
  section_ok self q h (create_events e) (Create_loop q e woken).
Proof.
  intros Hself Hs Hw Hr Hlen Hst. unfold Create_loop. destruct (no_capacity q) eqn:Hc.
  - eexists _, _, _. split; [done|]. apply oq_good_same; [done|constructor| |].
    + intros [|] _; [by left|right; by apply oq_full_need].
    + intros p [= <-]. split; [by apply oq_full_capacity|by apply oq_full_need].
  - rewrite (Hst eq_refl). cbn [CHECK negb]. apply (oq_push_ok self q h e woken RIndex); try done. by apply Hst.
Qed.

Lemma oq_TryCreate_ok self q h e d (woken : bool) : self_ok self -> self can_consume_ = 0 -> (woken = false -> self can_produce_ = 0) ->
  rel q h -> Z.of_nat (length (all h)) < 2 ^ 63 -> stop_requested_ q = false ->
  section_ok self q h (try_events e) (TryCreate_loop q e d woken).
Proof.
  intros Hself Hs Hw Hr Hlen Hst. unfold TryCreate_loop. destruct (no_capacity q) eqn:Hc.
  - eexists _, _, _. split; [done|]. apply oq_good_same; [done|constructor| |].
    + intros [|] _; [by left|right; by apply oq_full_need].
    + intros p [= <-]. split; [split; [by apply oq_full_capacity|done]|by apply oq_full_need].
  - apply (oq_push_ok self q h e woken (fun k => RTry true (Some k) false)); done.
Qed.

Lemma oq_Produce_ok self q h index : (forall c, self c = 0) -> rel q h -> legal q (RqProduce index) ->
  section_ok self q h (call_events (RqProduce index)) (Produce q index).
Proof.
  intros Hself Hr [Hi (e & E)]. unfold Produce. destruct (Z.ltb_spec (index - first_ q) (- 2 ^ 63)); [lia|].
  set (k := Z.to_nat (index - first_ q)) in *. pose proof (lookup_lt_Some _ _ _ E) as Hk.
  destruct (Z.leb_spec 0 (index - first_ q)); [|lia].
  assert ((index - first_ q <? zlen (q_ q)) = true) as -> by (apply Z.ltb_lt; unfold zlen; lia). rewrite E. cbn [CHECK negb snd fst].
  eexists _, _, _. split; [done|]. cbn [call_events]. pose proof (oq_size q h Hr) as Hsz. destruct Hr as [Hq Hf Hle Hh Hcp [Hz Hfit]].
  assert (all h !! (consumed h + k)%nat = Some (e, false)) as Ea by (by rewrite <- lookup_drop, <- Hq).
  split; cbn [with_q q_ capacity_ stop_requested_]; [|by left|done|].
  - destruct h as [l n b c]. cbn in *. exists {| all := <[(n + k)%nat := (e, true)]> l; consumed := n; halted := b; cap := c |}. split_and!.
    + apply spec_run_one. replace index with (Z.of_nat (n + k)%nat) by lia. constructor; [lia|done].
    + split; cbn; try done.
      * rewrite Hq. change k with (0 + k)%nat at 1. rewrite drop_insert_ge by lia. f_equal. lia.
      * by rewrite length_insert.
      * split; [done|]. unfold zlen in *. by rewrite length_insert.
    + cbn. rewrite length_insert. lia.
  - intros c _. rewrite Hself. destruct c; cbn [need].
    + destruct k as [|k']; cbn [Nat.eqb].
      * right. right. left. split; [|left]. repeat case_match; lia.
      * right. left. unfold not_ready. cbn [with_q q_]. destruct (q_ q) as [|p l]; [done|]. cbn. lia.
    + right. left. unfold is_full, zlen. cbn [with_q q_ capacity_ stop_requested_]. rewrite length_insert. lia.
Qed.

(** Taking the first element. *)
Lemma oq_pop_ok self q h (woken : bool) (mk : T -> result) evs : self_ok self -> self can_produce_ = 0 -> (woken = false -> self can_consume_ = 0) ->
  rel q h -> Z.of_nat (length (all h)) < 2 ^ 63 -> not_ready q = false -> (forall e, evs (Return (mk e)) = [EvConsume e]) ->
  section_ok self q h evs ('(q, sg, e) ← pop_element q woken; Ok (q, sg, Return (mk e))).
Proof.
  intros Hself Hs Hw Hr Hlen Hn He. pose proof (oq_size q h Hr) as Hsz. destruct (proj1 (oq_not_ready q h Hr) Hn) as [e Ee].
  destruct Hr as [Hq Hf Hle Hh Hcp [Hz Hfit]]. rewrite (drop_S _ _ _ Ee) in Hq. pose proof (lookup_lt_Some _ _ _ Ee) as Hlt.
  unfold pop_element. rewrite Hq. unfold int64_incr. destruct (Z.eqb_spec (first_ q) (2 ^ 63 - 1)) as [?|_]; [lia|]. cbn [mbind outcome_bind].
  eexists _, _, _. split; [done|]. cbn [fst]. rewrite He.
  assert (zlen (drop (S (consumed h)) (all h)) = zlen (q_ q) - 1) as Hl by (rewrite Hq, zlen_cons; lia).
  split; cbn [with_q q_ capacity_ stop_requested_]; [|by left|done|].
  - destruct h as [l n b c]. cbn in *. exists {| all := l; consumed := S n; halted := b; cap := c |}. split_and!.
    + apply spec_run_one. by constructor.
    + split; cbn; try done; [lia..|]. split; [done|]. intros Hc0. specialize (Hfit Hc0). rewrite Hl. lia.
    + cbn. lia.
  - intros c _. specialize (Hself c). destruct c; cbn [need].
    + rewrite Hn. destruct woken; [|right; left; rewrite (Hw eq_refl); case_match; lia]. cbn [andb].
      destruct (not_ready (with_q q (first_ q + 1) (drop (S (consumed h)) (all h)))) eqn:Er; [by left|].
      right. right. left. split; [lia|]. apply elem_of_app. right. left.
    + rewrite Hs. destruct (is_full q) eqn:Ef; cbn [app negb].
      * right. right. left. split; [|left]. rewrite andb_false_r. cbn. case_match; lia.
      * right. left. unfold with_q. cbn [capacity_ stop_requested_]. rewrite andb_true_r.
        destruct (negb (capacity_ q =? 0)), (negb (stop_requested_ q)); cbn; repeat case_match; lia.
Qed.

(** The consumers, woken or not; [f] is one of the two loops. *)
Lemma oq_consume_ok self q h (woken : bool) d left f : self_ok self -> self can_produce_ = 0 -> (woken = false -> self can_consume_ = 0) ->
  rel q h -> Z.of_nat (length (all h)) < 2 ^ 63 -> f = Consume_loop q woken \/ f = TryConsume_loop q d left woken ->
  section_ok self q h consume_events f.
Proof.
  intros Hself Hs Hw Hr Hlen Hf. destruct (not_ready q) eqn:Hn.
  2:{ destruct Hf as [->| ->]; unfold Consume_loop, TryConsume_loop; rewrite Hn.
      - by apply (oq_pop_ok self q h woken (fun e => RConsume (Some e))).
      - by apply (oq_pop_ok self q h woken (fun e => RTryConsume (Some e) false false)). }
  assert (need can_consume_ q <= 0) as Hnd by (cbn; by rewrite Hn).
  assert (forall c, c = can_consume_ \/ EvTimeout ∉ (@nil event) -> self c = 0 \/ need c q <= 0) as Hself0 by (intros [|] _; [by right|by left]).
  assert (forall ev c, c = can_consume_ \/ EvTimeout ∉ [ev] -> self c = 0 \/ need c q <= 0) as Hself1 by (intros ev [|] _; [by right|by left]).
  destruct (is_empty q && stop_requested_ q) eqn:He.
  - assert (exists r, consume_events (Return r) = [EvDone] /\ f = Ok (q, [Signal can_consume_], Return r)) as (r & Hev & ->).
    { destruct Hf as [->| ->]; unfold Consume_loop, TryConsume_loop; rewrite Hn, He; [by exists (RConsume None)|by exists (RTryConsume None true false)]. }
    eexists _, _, _. split; [done|]. rewrite Hev. apply oq_good_same; [done| |by apply Hself1|done].
    apply andb_true_iff in He as [He Hst]. rewrite (oq_is_empty q h Hr) in He. apply bool_decide_eq_true in He.
    apply spec_run_one. constructor; [|done]. by rewrite <- (rel_halted q h Hr).
  - assert (f = Ok (q, [], Return (RTryConsume None false true)) \/ exists p, waits_on_ordered p = can_consume_ /\ f = Ok (q, [], Wait p)) as Hf'.
    { destruct Hf as [->| ->]; unfold Consume_loop, TryConsume_loop; rewrite Hn, He; [right; by exists InConsume|].
      case_match; [by left|right; by exists (InTryConsume d)]. }
    destruct Hf' as [->|(p & Hp & ->)]; eexists _, _, _; (split; [done|]).
    + cbn [consume_events]. apply oq_good_same; [done| |by apply Hself1|done]. apply spec_run_one. constructor.
      * rewrite <- (oq_not_ready q h Hr). congruence.
      * rewrite <- (rel_halted q h Hr). intros [Hst Hc]. rewrite (oq_is_empty q h Hr), Hst, bool_decide_eq_true_2 in He by done. done.
    + cbn [consume_events]. apply oq_good_same; [done|constructor|done|]. intros ? [= <-]. rewrite Hp. split; [by destruct p|done].
Qed.

Lemma oq_enter_ok q h rq i : rel q h -> Z.of_nat (length (all h)) < 2 ^ 63 -> legal q rq ->
  section_ok nobody q h (call_events rq) (enter_ordered q rq i).
Proof.
  intros Hr Hlen Hl. assert (self_ok nobody) as Hself by (intros c; unfold nobody; lia).
  assert (forall evs r, history_run h evs h -> good nobody q h evs q [] (Return r)) as Hsame.
  { intros evs r Hh. apply oq_good_same; [done|done| |done]. by left. }
  assert (forall e d, section_ok nobody q h (try_events e) (TryCreateInternal q e d)) as Htry.
  { intros e d. unfold TryCreateInternal. destruct (stop_requested_ q) eqn:Hst; [|by apply oq_TryCreate_ok].
    eexists _, _, _. split; [done|]. apply Hsame, spec_run_one. constructor. by rewrite <- (rel_halted q h Hr). }
  destruct rq as [e|e|e timeout|index| | |timeout| | | |]; cbn [enter_ordered call_events legal] in *.
  - by apply oq_Create_ok.
  - apply Htry.
  - unfold TryCreateWithTimeout. destruct (Z.leb_spec 0 timeout); [|lia]. apply Htry.
  - by apply oq_Produce_ok.
  - by apply (oq_consume_ok nobody q h false 0 0); [..|left].
  - unfold TryConsume. destruct (not_ready q) eqn:Hn.
    + destruct (is_empty q && stop_requested_ q) eqn:He; eexists _, _, _; (split; [done|]); apply Hsame, spec_run_one.
      * apply andb_true_iff in He as [He Hst]. rewrite (oq_is_empty q h Hr) in He. apply bool_decide_eq_true in He.
        constructor; [|done]. by rewrite <- (rel_halted q h Hr).
      * constructor; [rewrite <- (oq_not_ready q h Hr); congruence|].
        rewrite <- (rel_halted q h Hr). intros [Hst Hc]. rewrite (oq_is_empty q h Hr), Hst, bool_decide_eq_true_2 in He by done. done.
    + by apply (oq_pop_ok nobody q h false (fun e => RTryConsume (Some e) false false)).
  - by apply (oq_consume_ok nobody q h false (at_call i + timeout) timeout); [..|right].
  - eexists _, _, _. split; [done|]. destruct Hr as [Hq Hf Hle Hh Hcp Hfit]. split; cbn; [| |done|].
    + destruct h as [l n b c]. exists {| all := l; consumed := n; halted := true; cap := c |}. split_and!; [|by split|cbn; lia].
      apply spec_run_one. constructor.
    + intros [e|e d| |d]; cbn; intros Hp; [by left|right; right; left|right; left..].
    + intros [|] _; right; right; right; [left|right; left].
  - eexists _, _, _. split; [done|]. apply Hsame, spec_run_one. unfold Empty. rewrite (oq_is_empty q h Hr). constructor.
  - eexists _, _, _. split; [done|]. apply Hsame, spec_run_one. unfold Size. rewrite (oq_size q h Hr). constructor.
  - eexists _, _, _. split; [done|]. apply Hsame, spec_run_one. unfold Stopped. rewrite (rel_halted q h Hr). constructor.
Qed.

Lemma oq_resume_ok q h p i : rel q h -> Z.of_nat (length (all h)) < 2 ^ 63 -> can_go_on q p ->
  section_ok (self_of p) q h (resume_events p) (resume_ordered q p i).
Proof.
  intros Hr Hlen Hg. assert (self_ok (self_of p)) as Hself by (intros c; unfold self_of; case_decide; lia).
  destruct p as [e|e d| |d]; cbn [resume_ordered resume_events can_go_on] in *.
  - by apply oq_Create_ok.
  - unfold TryCreate_woken. destruct (WaitWithDeadline d i).
    + eexists _, _, _. split; [done|]. cbn [try_events]. apply oq_good_same; [done|apply spec_run_one; constructor| |done].
      intros [|] [Hc|Hc]; [by left|by left|done|]. destruct Hc. left.
    + destruct (stop_requested_ q) eqn:Hst; [|by apply oq_TryCreate_ok].
      eexists _, _, _. split; [done|]. cbn [try_events]. apply oq_good_same; [done| | |done].
      * apply spec_run_one. constructor. by rewrite <- (rel_halted q h Hr).
      * intros [|] _; [by left|right; cbn; by rewrite Hst, andb_false_r].
  - by apply (oq_consume_ok _ q h true 0 0); [..|left].
  - by apply (oq_consume_ok _ q h true d (d - at_wake i)); [..|right].
Qed.

(** ** What the sections require *)

Lemma oq_Create_legal q e (woken : bool) r : Create_loop q e woken = Ok r -> no_capacity q = false -> stop_requested_ q = false.
Proof. unfold Create_loop. intros E Hc. rewrite Hc in E. by destruct (stop_requested_ q). Qed.

Lemma oq_legal_dec q rq : legal q rq \/ ~ legal q rq.
Proof.
  destruct rq as [e|e|e timeout|index| | |timeout| | | |]; cbn; try (by left).
  - destruct (no_capacity q), (stop_requested_ q); try (by left). right. intros Hl. by specialize (Hl eq_refl).
  - destruct (decide (0 <= timeout)); [by left|by right].
  - destruct (decide (0 <= index - first_ q)); [|right; by intros [? _]].
    destruct (q_ q !! Z.to_nat (index - first_ q)) as [[e []]|]; [|left; split; [done|by exists e]|]; right; by intros [_ [? [=]]].
Qed.

(** A request that the comments do not allow dies; an index far below all others overflows. *)
Lemma oq_illegal q rq i : ~ legal q rq -> enter_ordered q rq i = Crash \/
  exists index, rq = RqProduce index /\ index - first_ q < - 2 ^ 63 /\ enter_ordered q rq i = UB.
Proof.
  intros Hl. destruct rq as [e|e|e timeout|index| | |timeout| | | |]; cbn [legal enter_ordered] in *; try (by destruct Hl).
  - left. unfold Create, Create_loop. destruct (no_capacity q); [by destruct Hl|]. by destruct (stop_requested_ q); [|destruct Hl].
  - left. unfold TryCreateWithTimeout. by destruct (Z.leb_spec 0 timeout).
  - unfold Produce. destruct (Z.ltb_spec (index - first_ q) (- 2 ^ 63)) as [Hlt|Hge]; [right; by exists index|left].
    destruct (Z.leb_spec 0 (index - first_ q)) as [Hi|]; [|done]. cbn [CHECK]. cbn [mbind outcome_bind].
    destruct (Z.ltb_spec (index - first_ q) (zlen (q_ q))) as [Hn|]; [|done]. cbn [CHECK].
    destruct (lookup_lt_is_Some_2 (q_ q) (Z.to_nat (index - first_ q))) as [[e b] E]; [unfold zlen in Hn; lia|].
    rewrite E. cbn [snd fst]. destruct b; [done|]. destruct Hl. split; [done|]. by exists e.
Qed.

Lemma oq_enter_legal q rq i r : enter_ordered q rq i = Ok r -> legal q rq.
Proof.
  intros E. destruct (oq_legal_dec q rq) as [?|Hl]; [done|].
  destruct (oq_illegal q rq i Hl) as [Hc|(index & _ & _ & Hc)]; by rewrite Hc in E.
Qed.

Lemma oq_resume_legal q p i r : resume_ordered q p i = Ok r -> can_go_on q p.
Proof. destruct p; cbn; try done. apply oq_Create_legal. Qed.

(** Only a timed creation can report a timeout. *)
Definition untimed_request (rq : request) : Prop := match rq with RqTryCreateWithTimeout _ _ => False | _ => True end.
Definition untimed_pc (p : pc) : Prop := match p with InTryCreate _ (Some _) => False | _ => True end.

Lemma oq_TryCreate_loop_timeout q e d (woken : bool) q' sg en : TryCreate_loop q e d woken = Ok (q', sg, en) -> EvTimeout ∉ try_events e en.
Proof.
  unfold TryCreate_loop, push_element. destruct (no_capacity q); intros [= _ _ <-]; cbn; [apply not_elem_of_nil|].
  by intros ?%list_elem_of_singleton.
Qed.

Lemma oq_TryCreate_timeout q e d q' sg en : TryCreateInternal q e d = Ok (q', sg, en) -> EvTimeout ∉ try_events e en.
Proof.
  unfold TryCreateInternal. destruct (stop_requested_ q); [|apply oq_TryCreate_loop_timeout].
  intros [= _ _ <-]. by intros ?%list_elem_of_singleton.
Qed.

Lemma oq_consume_timeout en : EvTimeout ∉ consume_events en.
Proof. destruct en as [[| | |[e|]|[e|] [] []| |]|p]; cbn; try apply not_elem_of_nil; by intros ?%list_elem_of_singleton. Qed.

Lemma oq_create_timeout e en : EvTimeout ∉ create_events e en.
Proof. destruct en as [[]|]; cbn; try apply not_elem_of_nil; by intros ?%list_elem_of_singleton. Qed.

Lemma oq_enter_timeout q rq i q' sg en : enter_ordered q rq i = Ok (q', sg, en) -> EvTimeout ∉ call_events rq en.
Proof.
  destruct rq as [e|e|e timeout|index| | |timeout| | | |]; cbn [enter_ordered call_events]; intros E;
    try apply oq_consume_timeout; try apply oq_create_timeout.
  - by apply (oq_TryCreate_timeout _ _ _ _ _ _ E).
  - unfold TryCreateWithTimeout, CHECK in E. destruct (0 <=? timeout); [|done]. by apply (oq_TryCreate_timeout _ _ _ _ _ _ E).
  - destruct en; [by intros ?%list_elem_of_singleton|apply not_elem_of_nil].
  - destruct en; [by intros ?%list_elem_of_singleton|apply not_elem_of_nil].
  - destruct en as [[]|]; cbn; try apply not_elem_of_nil; by intros ?%list_elem_of_singleton.
  - destruct en as [[]|]; cbn; try apply not_elem_of_nil; by intros ?%list_elem_of_singleton.
  - destruct en as [[]|]; cbn; try apply not_elem_of_nil; by intros ?%list_elem_of_singleton.
Qed.

Lemma oq_resume_timeout q p i q' sg en : untimed_pc p -> resume_ordered q p i = Ok (q', sg, en) -> EvTimeout ∉ resume_events p en.
Proof.
  destruct p as [e|e [d|]| |d]; cbn [resume_ordered resume_events untimed_pc]; intros Hu E; try done;
    try apply oq_consume_timeout; try apply oq_create_timeout.
  unfold TryCreate_woken in E. cbn [WaitWithDeadline] in E. destruct (stop_requested_ q).
  - injection E as _ _ <-. by intros ?%list_elem_of_singleton.
  - by apply (oq_TryCreate_loop_timeout _ _ _ _ _ _ _ E).
Qed.

(** ** Runs *)

Abbreviation state := (mstate OrderedProducerConsumerQueue pc).
Abbreviation threads_of := (gmap nat (pc * bool)).

(** [U] says that there is no timed creation. *)
Record state_ok (U : Prop) (h : history) (x : state) : Prop := {
  so_rel : rel (shared x) h;
  so_reason : justified reason (shared x) (threads x);
  so_consume : covered can_consume_ (need can_consume_ (shared x)) (threads x);
  so_produce : U -> covered can_produce_ (need can_produce_ (shared x)) (threads x);
  so_untimed : U -> forall t p, pcs (threads x) !! t = Some p -> untimed_pc p;
}.

Lemma oq_wait_untimed_call q rq i q' sg p : untimed_request rq -> enter_ordered q rq i = Ok (q', sg, Wait p) -> untimed_pc p.
Proof.
  destruct rq as [e|e|e timeout|index| | |timeout| | | |]; cbn [enter_ordered]; intros Hu E; try done.
  - unfold Create, Create_loop, push_element, CHECK in E. repeat case_match; try done. by injection E as _ _ <-.
  - unfold TryCreate, TryCreateInternal, TryCreate_loop, push_element in E. repeat case_match; try done. by injection E as _ _ <-.
  - unfold Produce, CHECK in E. repeat case_match; done.
  - unfold Consume, Consume_loop in E. destruct (pop_element q false) as [[[? ?] ?]| |]; cbn in E; repeat case_match; try done; by injection E as _ _ <-.
  - unfold TryConsume in E. destruct (pop_element q false) as [[[? ?] ?]| |]; cbn in E; repeat case_match; done.
  - unfold TryConsumeWithTimeout, TryConsume_loop in E.
    destruct (pop_element q false) as [[[? ?] ?]| |]; cbn in E; repeat case_match; try done; by injection E as _ _ <-.
Qed.

Lemma oq_resume_waits q p i q' sg p' : resume_ordered q p i = Ok (q', sg, Wait p') -> p' = p /\ sg = [].
Proof.
  destruct p as [e|e d| |d]; cbn [resume_ordered]; intros E.
  - unfold Create_loop, push_element, CHECK in E. repeat case_match; try done. by injection E as _ <- <-.
  - unfold TryCreate_woken, TryCreate_loop, push_element in E. repeat case_match; try done. by injection E as _ <- <-.
  - unfold Consume_loop in E. destruct (pop_element q true) as [[[? ?] ?]| |]; cbn in E; repeat case_match; try done; by injection E as _ <- <-.
  - unfold TryConsume_loop in E. destruct (pop_element q true) as [[[? ?] ?]| |]; cbn in E; repeat case_match; try done; by injection E as _ <- <-.
Qed.

Lemma oq_pcs_after (th th' : threads_of) sg t (e : ending pc result) t' p : wake th sg th' -> th !! t = None ->
  pcs (after th' t e) !! t' = Some p -> pcs th !! t' = Some p \/ e = Wait p.
Proof.
  intros W E. rewrite <- (mon_wake_pcs _ _ _ W). destruct e as [r|p']; unfold pcs; cbn.
  - rewrite fmap_delete. intros [_ ?]%lookup_delete_Some. by left.
  - rewrite fmap_insert. cbn. intros [[_ ->]|[_ ?]]%lookup_insert_Some; [by right|by left].
Qed.

(** A section that goes well keeps the invariant; [th] are the other threads. *)
Lemma oq_state_after (U : Prop) self q h th t evs q' sg e th' : th !! t = None -> justified reason q th ->
  covered can_consume_ (need can_consume_ q - self can_consume_) th ->
  (U -> covered can_produce_ (need can_produce_ q - self can_produce_) th) ->
  (U -> forall t p, pcs th !! t = Some p -> untimed_pc p) -> (U -> EvTimeout ∉ evs) -> (U -> forall p, e = Wait p -> untimed_pc p) ->
  good self q h evs q' sg e -> wake th sg th' -> exists h', history_run h evs h' /\ (length (all h') <= S (length (all h)))%nat /\
  state_ok U h' {| shared := q'; threads := after th' t e |}.
Proof.
  intros Et Hr Hc Hp Hu Hev Hw [(h' & Hh & Hrel & Hlen) Hrs Hwt Hn] W. exists h'. split; [done|]. split; [done|].
  assert (forall c, covered c (need c q - self c) th -> c = can_consume_ \/ EvTimeout ∉ evs -> covered c (need c q') (after th' t e)) as Hcov.
  { intros c Hcv Hc'. apply mon_covered_after; [|by apply (mon_wake_None _ _ _ t W)|intros p -> <-; by apply Hwt].
    destruct (Hn c Hc') as [Hz|Hn']; [by apply mon_covered_zero|]. by apply (mon_covered_wake c _ _ _ _ _ Hcv W). }
  split; cbn [shared threads]; [done| | | |].
  - apply (mon_justified_section reason q q' th sg th' t e Hr W Hrs). intros p ->. by apply Hwt.
  - apply Hcov; [done|by left].
  - intros HU. apply Hcov; [by apply Hp|right; by apply Hev].
  - intros HU t' p Ep. destruct (oq_pcs_after _ _ _ _ _ _ _ W Et Ep) as [Ep'|Ew]; [by apply (Hu HU t')|by apply Hw].
Qed.

Definition untimed_label (lb : label) : Prop := match lb with Call _ rq _ => untimed_request rq | _ => True end.

Lemma oq_step_ok (U : Prop) h x lb e x' : state_ok U h x -> mstep x lb e x' -> Z.of_nat (length (all h)) < 2 ^ 63 ->
  (U -> untimed_label lb) -> exists h', history_run h (step_events (lb, e)) h' /\ (length (all h') <= S (length (all h)))%nat /\ state_ok U h' x'.
Proof.
  intros [Hr Hj Hc Hp Hu] Stp Hlen Hl.
  destruct Stp as [q th t rq i q' sg e th' E Er W|q th t p i q' sg e th' E Er W|q th t p b E]; cbn [step_events shared threads untimed_label] in *.
  - cbn in Er. destruct (oq_enter_ok q h rq i Hr Hlen (oq_enter_legal _ _ _ _ Er)) as (q1 & sg1 & e1 & E1 & Hg).
    rewrite Er in E1. injection E1 as <- <- <-.
    apply (oq_state_after U nobody q h th t _ q' sg e th'); try done; unfold nobody; rewrite ?Z.sub_0_r; try done.
    + intros HU. by apply (oq_enter_timeout _ _ _ _ _ _ Er).
    + intros HU p ->. by apply (oq_wait_untimed_call q rq i q' sg p (Hl HU)).
  - cbn in Er. destruct (oq_resume_ok q h p i Hr Hlen (oq_resume_legal _ _ _ _ Er)) as (q1 & sg1 & e1 & E1 & Hg).
    rewrite Er in E1. injection E1 as <- <- <-. assert (pcs th !! t = Some p) as Ep by (apply mon_pcs_lookup; by eexists).
    assert (pcs (delete t th) = delete t (pcs th)) as Hd by (unfold pcs; by rewrite fmap_delete).
    assert (forall c, covered c (need c q) th -> covered c (need c q - self_of p c) (delete t th)) as Hcd.
    { intros c Hcv. pose proof (mon_covered_delete c _ th t p Hcv E) as Hdel. unfold self_of.
      change (waits_on p) with (waits_on_ordered p) in Hdel. case_decide; [done|]. by rewrite Z.sub_0_r. }
    apply (oq_state_after U (self_of p) q h (delete t th) t _ q' sg e th'); try done.
    + by rewrite lookup_delete_eq.
    + by apply mon_justified_delete.
    + by apply Hcd.
    + intros HU. by apply Hcd, Hp.
    + intros HU t' p'. rewrite Hd. intros [_ E']%lookup_delete_Some. by apply (Hu HU t').
    + intros HU. by apply (oq_resume_timeout _ _ _ _ _ _ (Hu HU t p Ep) Er).
    + intros HU p' ->. destruct (oq_resume_waits _ _ _ _ _ _ Er) as [-> _]. by apply (Hu HU t).
  - exists h. split; [constructor|]. split; [lia|]. split; cbn [shared threads]; rewrite ?(mon_pcs_awake _ _ _ _ _ E); try done.
    + by apply mon_justified_spurious.
    + by apply (mon_covered_spurious _ _ th t p b).
    + intros HU. apply (mon_covered_spurious _ _ th t p b); [by apply Hp|done].
Qed.

Definition untimed (tr : trace) : Prop := Forall (fun le => untimed_label le.1) tr.

Lemma oq_run_ok (U : Prop) x tr x' : mrun x tr x' -> (U -> untimed tr) -> forall h, state_ok U h x -> Z.of_nat (length (all h)) + zlen tr < 2 ^ 63 ->
  exists h', history_run h (events tr) h' /\ Z.of_nat (length (all h')) <= Z.of_nat (length (all h)) + zlen tr /\ state_ok U h' x'.
Proof.
  induction 1 as [x|x lb e x1 tr x' Stp _ IH]; intros Hu h Hx Hlen.
  { exists h. split; [constructor|]. split; [rewrite zlen_nil; lia|done]. }
  rewrite zlen_cons in *. pose proof (zlen_nonneg tr).
  destruct (oq_step_ok U h x lb e x1 Hx Stp ltac:(lia)) as (h1 & R1 & Hl1 & Hx1); [intros HU; by apply (Forall_inv (Hu HU))|].
  destruct (IH (fun HU => Forall_inv_tail (Hu HU)) h1 Hx1 ltac:(lia)) as (h' & R' & Hl' & Hx'). exists h'.
  split; [unfold events; cbn [map concat]; by apply (spec_run_app _ _ _ _ _ _ R1)|]. split; [lia|done].
Qed.

Definition new_history (c : Z) : history := {| all := []; consumed := 0; halted := false; cap := c |}.

Lemma oq_idle_ok U c : 0 <= c -> state_ok U (new_history c) (idle (make_ordered_queue c)).
Proof.
  intros Hc. split; cbn.
  - by split; cbn.
  - intros t p. by rewrite lookup_empty.
  - left. intros t p. by rewrite lookup_empty.
  - intros _. left. intros t p. by rewrite lookup_empty.
  - intros _ t p. unfold pcs. by rewrite fmap_empty, lookup_empty.
Qed.

Lemma oq_reachable (U : Prop) c tr x : 0 <= c -> mrun (idle (make_ordered_queue c)) tr x -> zlen tr < 2 ^ 63 - 1 -> (U -> untimed tr) ->
  exists h, history_run (new_history c) (events tr) h /\ Z.of_nat (length (all h)) < 2 ^ 63 - 1 /\ state_ok U h x.
Proof.
  intros Hc R Hl Hu. destruct (oq_run_ok U _ _ _ R Hu _ (oq_idle_ok U c Hc)) as (h & Rh & Hlh & Hx); [cbn; lia|].
  exists h. split; [done|]. split; [cbn in *; lia|done].
Qed.

(** ** Progress *)

(** The number of threads in operations. *)
Definition inside (x : state) : nat := size (pcs (threads x)).

Lemma oq_inside_after (th th' : threads_of) sg t (e : ending pc result) : wake th sg th' -> th !! t = None ->
  size (pcs (after th' t e)) = match e with Return _ => size (pcs th) | Wait _ => S (size (pcs th)) end.
Proof.
  intros W E. assert (pcs th !! t = None) as Ep by (unfold pcs; by rewrite lookup_fmap, E).
  rewrite <- (mon_wake_pcs _ _ _ W) in *. destruct e as [r|p']; unfold pcs in *; cbn.
  - by rewrite fmap_delete, delete_id.
  - rewrite fmap_insert. by rewrite map_size_insert_None.
Qed.

Lemma oq_inside_step x lb e x' : mstep x lb e x' -> (inside x' <= S (inside x))%nat.
Proof.
  intros Stp. unfold inside. destruct Stp as [q th t rq i q' sg e th' E Er W|q th t p i q' sg e th' E Er W|q th t p b E]; cbn [threads].
  - rewrite (oq_inside_after _ _ _ _ _ W E). destruct e; lia.
  - rewrite (oq_inside_after _ _ _ _ _ W (lookup_delete_eq _ _)). unfold pcs. rewrite fmap_delete.
    assert (size (delete t (fst <$> th)) <= size (fst <$> th))%nat by (apply map_subseteq_size, delete_subseteq). destruct e; lia.
  - rewrite (mon_pcs_awake _ _ _ _ _ E). lia.
Qed.

Lemma oq_inside_run x tr x' : mrun x tr x' -> (inside x' <= inside x + length tr)%nat.
Proof. induction 1 as [x|x lb e x1 tr x' Stp _ IH]; cbn; [lia|]. pose proof (oq_inside_step _ _ _ _ Stp). lia. Qed.

(** A resumed section creates an element only when its thread leaves. *)
Definition progress_ok (U : Prop) (x : state) : Prop :=
  exists h, state_ok U h x /\ Z.of_nat (length (all h) + inside x) < 2 ^ 63.

Lemma oq_istep_ok U (x x' : state) : progress_ok U x -> istep x x' -> progress_ok U x'.
Proof.
  intros (h & Hx & Hl) (t & p & i & e & Stp).
  destruct (oq_step_ok U h x (Resume t p i) e x' Hx Stp ltac:(lia) (fun _ => I)) as (h' & Rh & Hlen & Hx'). exists h'. split; [done|].
  unfold inside in *. inversion Stp as [|q th t0 p0 i0 q' sg e1 th' E Er W|]; subst. cbn [threads shared step_events] in *.
  assert (pcs th !! t = Some p) as Ep by (apply mon_pcs_lookup; by eexists).
  assert (size (pcs th) = S (size (pcs (delete t th)))) as Hs.
  { assert (pcs (delete t th) = delete t (pcs th)) as -> by (unfold pcs; by rewrite fmap_delete).
    rewrite map_size_delete_Some by (by eexists).
    assert (size (pcs th) <> 0%nat); [|lia]. intros Hz. apply map_size_empty_inv in Hz. by rewrite Hz, lookup_empty in Ep. }
  rewrite (oq_inside_after _ _ _ _ _ W (lookup_delete_eq _ _)). destruct e1 as [r|p']; [lia|].
  assert (h' = h) as ->; [|lia]. assert (resume_events p (Wait p') = []) as He by (by destruct p). rewrite He in Rh. by inversion Rh.
Qed.

Lemma oq_istep_sn U (x : state) : progress_ok U x -> sn istep x.
Proof.
  apply (mon_istep_sn (fun _ => 1%nat) (progress_ok U) (oq_istep_ok U)); [lia|].
  intros s t p i s' sg p' _ _ Er. destruct (oq_resume_waits _ _ _ _ _ _ Er) as [_ ->]. by right.
Qed.

Lemma oq_can_resume U (x : state) t p i : progress_ok U x -> threads x !! t = Some (p, false) -> can_go_on (shared x) p ->
  exists e x', mstep x (Resume t p i) e x'.
Proof.
  intros (h & Hx & Hl) E Hg. destruct (oq_resume_ok (shared x) h p i (so_rel _ _ _ Hx) ltac:(lia) Hg) as (s' & sg & e & Er & _).
  destruct (mon_resume_step (H := ordered_monitor) x t p i s' sg e E Er) as [th' Stp]. by eexists _, _.
Qed.

(** When no woken thread can go on, everybody that may go on sleeps. *)
Lemma oq_stuck_asleep U (x : state) t p b : progress_ok U x -> (forall x', ~ istep x x') -> threads x !! t = Some (p, b) ->
  can_go_on (shared x) p -> b = true.
Proof.
  intros Hx Hst E Hg. destruct b; [done|].
  destruct (oq_can_resume U x t p {| at_call := 0; at_wake := 0; wait_timed_out := false |} Hx E Hg) as (e & x' & Stp).
  destruct (Hst x'). by eexists t, p, _, _.
Qed.

Lemma oq_stuck_consumer U (x : state) t p b : progress_ok U x -> (forall x', ~ istep x x') -> threads x !! t = Some (p, b) ->
  waits_on_ordered p = can_consume_ -> b = true /\ not_ready (shared x) = true.
Proof.
  intros Hx Hst E Hp. assert (forall t p b, threads x !! t = Some (p, b) -> waits_on_ordered p = can_consume_ -> b = true) as Hall.
  { intros t' p' b' E' Hp'. apply (oq_stuck_asleep U x t' p' b' Hx Hst E'). by destruct p'. }
  pose proof (Hall t p b E Hp) as ->. split; [done|]. destruct Hx as (h & Hx & _).
  pose proof (mon_covered_asleep _ _ _ t p (so_consume _ _ _ Hx) Hall E Hp) as Hn. cbn in Hn. by destruct (not_ready _).
Qed.

Lemma oq_stuck_producer (x : state) t p b : progress_ok True x -> (forall x', ~ istep x x') -> threads x !! t = Some (p, b) ->
  waits_on_ordered p = can_produce_ -> no_capacity (shared x) = true \/ stop_requested_ (shared x) = true /\ exists e, p = InCreate e.
Proof.
  intros Hx Hst E Hp. assert (b = true -> reason (shared x) p) as Hr.
  { intros ->. destruct Hx as (h & Hx & _). apply (so_reason _ _ _ Hx t _ E). }
  destruct (no_capacity (shared x)) eqn:Hc; [by left|right].
  destruct (stop_requested_ (shared x)) eqn:Hs.
  - split; [done|]. destruct p as [e|e d| |d]; try done; [by exists e|].
    pose proof (oq_stuck_asleep True x t _ b Hx Hst E I) as ->. destruct (Hr eq_refl). congruence.
  - exfalso. assert (forall t p b, threads x !! t = Some (p, b) -> waits_on_ordered p = can_produce_ -> b = true) as Hall.
    { intros t' p' b' E' Hp'. apply (oq_stuck_asleep True x t' p' b' Hx Hst E'). destruct p'; cbn; done. }
    pose proof (Hall t p b E Hp) as ->. destruct Hx as (h & Hx & _).
    assert (capacity_ (shared x) <> 0) as Hc0 by (specialize (Hr eq_refl); destruct p as [e|e d| |d]; [done|apply Hr|done..]).
    pose proof (mon_covered_asleep _ _ _ t p (so_produce _ _ _ Hx I) Hall E Hp) as Hn. cbn in Hn. rewrite Hs in Hn.
    unfold no_capacity in Hc. destruct (Z.eqb_spec (capacity_ (shared x)) 0); [done|]. cbn in *. by rewrite Hc in Hn.
Qed.

(** ** Properties *)

Fixpoint created_of (evs : list event) : list T :=
  match evs with [] => [] | EvCreate e _ :: evs => e :: created_of evs | _ :: evs => created_of evs end.
Fixpoint consumed_of (evs : list event) : list T :=
  match evs with [] => [] | EvConsume e :: evs => e :: consumed_of evs | _ :: evs => consumed_of evs end.

Lemma history_order h evs h' : history_run h evs h' -> (consumed h <= length (all h))%nat ->
  (drop (consumed h) (all h)).*1 ++ created_of evs = consumed_of evs ++ (drop (consumed h') (all h')).*1.
Proof.
  induction 1 as [h|h ev h1 evs h2 St _ IH]; intros Hle; [cbn; by rewrite app_nil_r|].
  destruct St as [l n c e _|h|h _|l n b c k e Hk E|l n b c e E|h _ _|h _ _|l n b c|h|h|h]; cbn [created_of consumed_of all consumed] in *;
    try (by apply IH).
  - rewrite <- IH by (rewrite length_app; lia). rewrite drop_app_le, fmap_app, <- app_assoc by done. done.
  - rewrite <- IH by (by rewrite length_insert). f_equal. rewrite !fmap_drop, list_fmap_insert. cbn. f_equal.
    symmetry. apply list_insert_id. by rewrite list_lookup_fmap, E.
  - pose proof (lookup_lt_Some _ _ _ E). rewrite (drop_S _ _ _ E). cbn. f_equal. apply IH. lia.
Qed.

Lemma history_cap h evs h' : history_run h evs h' -> cap h' = cap h.
Proof. induction 1 as [|h ev h1 evs h2 St _ IH]; [done|]. rewrite IH. by destruct St. Qed.

(** C16. Elements are consumed in the order of their creation, each after it was
    produced.  Whatever threads do with a new queue, in fewer than 2^62 steps with
    any interleaving, any wake-ups without a signal and any timeouts: what they see
    is a run of the abstract history.  Elements get consecutive numbers, are created
    only within the capacity and before the queue is stopped, are produced once, between
    creation and consumption, and consumed next in line; consumers give up only
    when the queue is stopped and drained, or without waiting longer on an element
    that is not there.  What was created is what was consumed, in the same order, followed
    by what is in the queue. *)
Theorem OrderedQueue_refines_history c tr x : 0 <= c -> mrun (idle (make_ordered_queue c)) tr x -> zlen tr < 2 ^ 62 ->
  exists h, history_run (new_history c) (events tr) h /\ q_ (shared x) = drop (consumed h) (all h) /\ first_ (shared x) = Z.of_nat (consumed h) /\
  created_of (events tr) = consumed_of (events tr) ++ (q_ (shared x)).*1 /\ (0 < c -> zlen (q_ (shared x)) <= c).
Proof.
  intros Hc R Hl. destruct (oq_reachable False c tr x Hc R ltac:(lia) ltac:(done)) as (h & Rh & Hlh & Hx). exists h. split; [done|].
  destruct (so_rel _ _ _ Hx) as [Hq Hf Hle _ Hcap [_ Hfit]]. split; [done|]. split; [done|]. split.
  - rewrite Hq. apply (history_order _ _ _ Rh). cbn. lia.
  - intros Hp. apply history_cap in Rh. cbn in Rh. rewrite Hcap, Rh in Hfit. apply Hfit. lia.
Qed.

(** Only misuse dies.  In every state that a run of fewer than 2^62 steps
    reaches, a request that the comments allow runs to the end of its section: a
    [Create] not after [StopConsumers], a [Produce] of an element that was created,
    is not consumed and was not produced before, a timeout that is not negative.  Any
    other dies at a check, or overflows when an index is far below all others.  A
    thread that was woken can go on, unless it is in [Create], there is space, and the
    queue was stopped, where it dies as documented. *)
Theorem OrderedQueue_safe c tr x t i : 0 <= c -> mrun (idle (make_ordered_queue c)) tr x -> zlen tr < 2 ^ 62 ->
  (forall rq, threads x !! t = None -> legal (shared x) rq -> exists e x', mstep x (Call t rq i) e x') /\
  (forall rq, ~ legal (shared x) rq -> enter (shared x) rq i = Crash \/
     exists index, rq = RqProduce index /\ index - first_ (shared x) < - 2 ^ 63 /\ enter (shared x) rq i = UB) /\
  (forall p, threads x !! t = Some (p, false) ->
     (exists e x', mstep x (Resume t p i) e x') \/
     (exists e, p = InCreate e) /\ stop_requested_ (shared x) = true /\ resume (shared x) p i = Crash).
Proof.
  intros Hc R Hl. destruct (oq_reachable False c tr x Hc R ltac:(lia) ltac:(done)) as (h & Rh & Hlh & Hx). split; [|split].
  - intros rq E Hrq. destruct (oq_enter_ok (shared x) h rq i (so_rel _ _ _ Hx) ltac:(lia) Hrq) as (s' & sg & e & Er & _).
    destruct (mon_call_step (H := ordered_monitor) x t rq i s' sg e E Er) as [th' Stp]. by eexists _, _.
  - intros rq Hrq. by apply oq_illegal.
  - intros p E. assert (can_go_on (shared x) p \/ exists e, p = InCreate e /\ no_capacity (shared x) = false /\ stop_requested_ (shared x) = true)
      as [Hg|(e & -> & Hn & Hs)].
    { destruct p as [e|e d| |d]; try (by left). destruct (no_capacity (shared x)) eqn:Hn; [left; cbn; congruence|].
      destruct (stop_requested_ (shared x)) eqn:Hs; [right; by exists e|left; cbn; congruence]. }
    + left. destruct (oq_resume_ok (shared x) h p i (so_rel _ _ _ Hx) ltac:(lia) Hg) as (s' & sg & e & Er & _).
      destruct (mon_resume_step (H := ordered_monitor) x t p i s' sg e E Er) as [th' Stp]. by eexists _, _.
    + right. split; [by exists e|]. split; [done|]. cbn. unfold Create_loop. by rewrite Hn, Hs.
Qed.

Lemma oq_progress (U : Prop) c tr x : 0 <= c -> mrun (idle (make_ordered_queue c)) tr x -> zlen tr < 2 ^ 62 -> (U -> untimed tr) -> progress_ok U x.
Proof.
  intros Hc R Hl Hu. destruct (oq_run_ok U _ _ _ R Hu _ (oq_idle_ok U c Hc)) as (h & Rh & Hlh & Hx); [cbn; lia|].
  exists h. split; [done|]. pose proof (oq_inside_run _ _ _ R) as Hi.
  assert (inside (idle (make_ordered_queue c)) = 0%nat) as Hz by (unfold inside, pcs; cbn; by rewrite fmap_empty, map_size_empty).
  rewrite Hz in Hi. cbn in Hlh. unfold zlen in *. lia.
Qed.

Lemma oq_progress_rtc U x x' : progress_ok U x -> rtc istep x x' -> progress_ok U x'.
Proof. intros Hx R. induction R as [|x y z Stp _ IH]; [done|]. by apply IH, (oq_istep_ok U x). Qed.

(** C19. Woken threads leave nobody waiting for what is there.  From every state that
    a run of fewer than 2^62 steps reaches, the threads that were woken take
    finitely many steps, however they are scheduled.  When none is left, a thread
    that waits in a consume operation waits for an element that is not produced or not
    created; and when no creation had a timeout, a thread that waits in [Create] or
    [TryCreate] waits for space, or the queue was stopped and it is in [Create]. *)
Theorem OrderedQueue_wakeups c tr x : 0 <= c -> mrun (idle (make_ordered_queue c)) tr x -> zlen tr < 2 ^ 62 ->
  sn istep x /\
  forall x', rtc istep x x' -> (forall x'', ~ istep x' x'') -> forall t p b, threads x' !! t = Some (p, b) ->
    match p with
    | InConsume | InTryConsume _ => not_ready (shared x') = true
    | InCreate _ => untimed tr -> no_capacity (shared x') = true \/ stop_requested_ (shared x') = true
    | InTryCreate _ _ => untimed tr -> no_capacity (shared x') = true
    end.
Proof.
  intros Hc R Hl. split; [by apply (oq_istep_sn False), (oq_progress False c tr)|].
  intros x' R' Hst t p b E. pose proof (oq_progress_rtc _ _ _ (oq_progress False c tr x Hc R Hl ltac:(done)) R') as Hx'.
  assert (untimed tr -> progress_ok True x') as Hu by (intros Hu; by apply (oq_progress_rtc True x); [apply (oq_progress True c tr)|]).
  destruct p as [e|e d| |d].
  - intros Hut. destruct (oq_stuck_producer x' t _ b (Hu Hut) Hst E eq_refl) as [?|[? _]]; [by left|by right].
  - intros Hut. destruct (oq_stuck_producer x' t _ b (Hu Hut) Hst E eq_refl) as [?|[_ [? [=]]]]. done.
  - by apply (oq_stuck_consumer False x' t InConsume b).
  - by apply (oq_stuck_consumer False x' t (InTryConsume d) b).
Qed.

(** A stopped queue without elements, with a consumer awake unless none is there. *)
Definition drained (x : state) : Prop :=
  q_ (shared x) = [] /\ stop_requested_ (shared x) = true /\ covered can_consume_ 1 (threads x).

Lemma drained_istep x x' : drained x -> istep x x' -> drained x'.
Proof.
  intros (Hq & Hs & Hc) (t & p & i & e & Stp). inversion Stp as [|q th t0 p0 i0 q' sg e1 th' E Er W|]; subst. cbn [shared threads] in *.
  pose proof (mon_covered_delete _ _ th t p Hc E) as Hd. change (waits_on p) with (waits_on_ordered p) in Hd.
  pose proof (mon_wake_None _ _ _ t W (lookup_delete_eq _ _)) as En. cbn in Er.
  assert (not_ready q = true /\ (is_empty q && stop_requested_ q) = true) as [Hn He] by (unfold not_ready, is_empty; by rewrite Hq, Hs).
  destruct p as [c|c d| |d]; cbn [resume_ordered waits_on_ordered] in *.
  - unfold Create_loop in Er. destruct (no_capacity q) eqn:Hf; [|by rewrite Hs in Er]. injection Er as <- <- <-.
    split_and!; [done|done|]. apply mon_covered_after; [|done|by intros ? [= <-]].
    apply (mon_covered_wake _ 1 1 _ _ _ Hd W). by left.
  - assert (q' = q /\ exists r, e1 = Return r) as [-> [r ->]].
    { unfold TryCreate_woken in Er. rewrite Hs in Er. destruct (WaitWithDeadline d i); injection Er as <- _ <-; (split; [done|by eexists]). }
    split_and!; [done|done|]. apply mon_covered_after; [|done|done]. apply (mon_covered_wake _ 1 1 _ _ _ Hd W). by left.
  - unfold Consume_loop in Er. rewrite Hn, He in Er. injection Er as <- <- <-. split_and!; [done|done|].
    apply mon_covered_after; [|done|done]. apply (mon_covered_wake _ _ 1 _ _ _ Hd W). right. left. split; [done|left].
  - unfold TryConsume_loop in Er. rewrite Hn, He in Er. injection Er as <- <- <-. split_and!; [done|done|].
    apply mon_covered_after; [|done|done]. apply (mon_covered_wake _ _ 1 _ _ _ Hd W). right. left. split; [done|left].
Qed.

(** One consumer that gives up takes the others with it.  When the queue is
    stopped and drained and a thread calls [Consume], it returns without an element,
    and when then no woken thread is left, nobody waits in a consume operation any more. *)
Theorem OrderedQueue_drains c tr x t i e x1 x' : 0 <= c -> mrun (idle (make_ordered_queue c)) tr x -> zlen tr < 2 ^ 62 - 1 ->
  Empty (shared x) = true -> Stopped (shared x) = true -> mstep x (Call t RqConsume i) e x1 ->
  e = Some (Return (RConsume None)) /\
  (rtc istep x1 x' -> (forall x'', ~ istep x' x'') -> forall t' p b, threads x' !! t' = Some (p, b) -> waits_on_ordered p = can_produce_).
Proof.
  intros Hc R Hl He Hs Stp. unfold Empty, Stopped in *.
  assert (q_ (shared x) = []) as Hq.
  { destruct (oq_reachable False c tr x Hc R ltac:(lia) ltac:(done)) as (h & _ & _ & Hx).
    rewrite (oq_is_empty _ _ (so_rel _ _ _ Hx)) in He. apply bool_decide_eq_true in He.
    rewrite (rel_q _ _ (so_rel _ _ _ Hx)), He. apply drop_all. }
  assert (e = Some (Return (RConsume None)) /\ drained x1) as [-> Hd].
  { inversion Stp as [q th t0 rq i0 q' sg e1 th' E Er W| |]; subst. cbn [shared threads] in *. cbn in Er.
    unfold Consume, Consume_loop in Er. assert (not_ready q = true) as Hn by (unfold not_ready; by rewrite Hq).
    rewrite Hn, He, Hs in Er. injection Er as <- <- <-. split; [done|]. split_and!; [done|done|]. cbn [shared threads].
    apply mon_covered_after; [|by apply (mon_wake_None _ _ _ t W)|done].
    apply (mon_covered_wake _ 0 1 _ _ _ (mon_covered_zero _ 0 _ ltac:(done)) W). right. left. split; [done|left]. }
  split; [done|]. intros R' Hst t' p b E. assert (drained x') as Hd'.
  { clear -Hd R'. induction R' as [|x1 x2 x3 Stp _ IH]; [done|]. by apply IH, (drained_istep x1). }
  assert (progress_ok False x') as Hx'.
  { apply (oq_progress_rtc False x1); [|done].
    apply (oq_progress False c (tr ++ [(Call t RqConsume i, Some (Return (RConsume None)))])); [done| |rewrite zlen_app, zlen_cons, zlen_nil; lia|done].
    apply (mon_run_app _ _ _ _ _ R). econstructor; [done|constructor]. }
  destruct (waits_on_ordered p) eqn:Hp; [|done]. exfalso. destruct Hd' as (_ & _ & Hcov).
  assert (forall t p b, threads x' !! t = Some (p, b) -> waits_on_ordered p = can_consume_ -> b = true) as Hall.
  { intros t2 p2 b2 E2 Hp2. by apply (oq_stuck_consumer False x' t2 p2 b2). }
  pose proof (Hall t' p b E Hp) as ->. pose proof (mon_covered_asleep _ 1 _ t' p Hcov Hall E Hp). lia.
Qed.
End queue.
Arguments OrderedProducerConsumerQueue : clear implicits.
Arguments pc : clear implicits.
Arguments result : clear implicits.
Arguments request : clear implicits.

(** ** Runs

    In order; consumers left behind; a signal lost to a timeout. *)
Abbreviation demo_trace_of := (list (Monitor.label (request Z) readings (pc Z) * option (ending (pc Z) (result Z)))).
Definition demo_clock : readings := {| at_call := 0; at_wake := 0; wait_timed_out := false |}.
Definition late_clock : readings := {| at_call := 6; at_wake := 6; wait_timed_out := true |}.
Definition demo_queue (c first : Z) (l : list (Z * bool)) (stopped : bool) : OrderedProducerConsumerQueue Z :=
  {| capacity_ := c; first_ := first; q_ := l; stop_requested_ := stopped |}.

Definition order_trace : demo_trace_of :=
  [(Call 1 (RqCreate 10) demo_clock, Some (Return (RIndex 0)));
   (Call 2 RqConsume demo_clock, Some (Wait InConsume));
   (Call 3 (RqCreate 20) demo_clock, Some (Wait (InCreate 20)));
   (Call 1 (RqProduce 0) demo_clock, Some (Return RVoid));
   (Resume 2 InConsume demo_clock, Some (Return (RConsume (Some 10))))].
Definition order_end : mstate (OrderedProducerConsumerQueue Z) (pc Z) :=
  {| shared := demo_queue 1 1 [] false; threads := {[ 3%nat := (InCreate 20, false) ]} |}.

Definition drain_trace : demo_trace_of :=
  [(Call 1 (RqCreate 10) demo_clock, Some (Return (RIndex 0)));
   (Call 2 RqConsume demo_clock, Some (Wait InConsume));
   (Call 3 RqConsume demo_clock, Some (Wait InConsume));
   (Call 1 RqStopConsumers demo_clock, Some (Return RVoid));
   (Resume 2 InConsume demo_clock, Some (Wait InConsume));
   (Resume 3 InConsume demo_clock, Some (Wait InConsume));
   (Call 1 (RqProduce 0) demo_clock, Some (Return RVoid));
   (Resume 2 InConsume demo_clock, Some (Return (RConsume (Some 10))))].
Definition drain_end : mstate (OrderedProducerConsumerQueue Z) (pc Z) :=
  {| shared := demo_queue 0 1 [] true; threads := {[ 3%nat := (InConsume, true) ]} |}.

Definition steal_trace : demo_trace_of :=
  [(Call 1 (RqCreate 10) demo_clock, Some (Return (RIndex 0)));
   (Call 2 (RqTryCreateWithTimeout 20 5) demo_clock, Some (Wait (InTryCreate 20 (Some 5))));
   (Call 3 (RqCreate 30) demo_clock, Some (Wait (InCreate 30)));
   (Call 1 (RqProduce 0) demo_clock, Some (Return RVoid));
   (Call 4 RqConsume demo_clock, Some (Return (RConsume (Some 10))));
   (Resume 2 (InTryCreate 20 (Some 5)) late_clock, Some (Return (RTry false None false)))].
Definition steal_end : mstate (OrderedProducerConsumerQueue Z) (pc Z) :=
  {| shared := demo_queue 1 1 [] false; threads := {[ 3%nat := (InCreate 30, true) ]} |}.

Ltac oq_call := eapply mrun_cons; [eapply mstep_call; [vm_compute; reflexivity|vm_compute; reflexivity|]|].
Ltac oq_resume := eapply mrun_cons; [eapply mstep_resume; [vm_compute; reflexivity|vm_compute; reflexivity|]|].
Ltac oq_wakes t p := apply (wake_one _ t p); [vm_compute; reflexivity|reflexivity|constructor].
Ltac oq_end := match goal with |- mrun ?x [] ?y => replace x with y; [constructor|by vm_compute] end.

Lemma order_run : mrun (idle (make_ordered_queue 1)) order_trace order_end.
Proof.
  unfold order_trace, idle. do 3 (oq_call; [constructor|]). oq_call; [oq_wakes 2%nat (@InConsume Z)|].
  oq_resume; [oq_wakes 3%nat (InCreate 20)|]. oq_end.
Qed.

Lemma drain_run : mrun (idle (make_ordered_queue 0)) drain_trace drain_end.
Proof.
  unfold drain_trace, idle. do 3 (oq_call; [constructor|]). oq_call; [repeat constructor|]. do 2 (oq_resume; [constructor|]).
  oq_call; [oq_wakes 2%nat (@InConsume Z)|]. oq_resume; [constructor|]. oq_end.
Qed.

Lemma steal_run : mrun (idle (make_ordered_queue 1)) steal_trace steal_end.
Proof.
  unfold steal_trace, idle. do 3 (oq_call; [constructor|]).
  oq_call; [apply wake_nobody; [|constructor]|].
  { intros t p Ht. cbn [after] in Ht. apply lookup_insert_Some in Ht as [[_ [= <-]]|[_ Ht]]; [done|]. apply lookup_insert_Some in Ht as [[_ [= <-]]|[_ Ht]]; [done|].
    apply lookup_delete_Some in Ht as [_ Ht]. by rewrite lookup_empty in Ht. }
  oq_call; [oq_wakes 2%nat (InTryCreate 20 (Some 5))|]. oq_resume; [constructor|]. oq_end.
Qed.

Lemma asleep_stuck (q : OrderedProducerConsumerQueue Z) t p x' : ~ istep {| shared := q; threads := {[ t := (p, true) ]} |} x'.
Proof.
  intros (t' & p' & i & e & Stp). inversion Stp as [|? ? ? ? ? ? ? ? ? E _ _|]; subst.
  apply lookup_singleton_Some in E as [_ [=]].
Qed.

(** A consumer sleeps although the queue is stopped and drained: the thread that
    took the last element woke nobody. *)
Lemma Consume_left_behind : exists tr x, mrun (idle (make_ordered_queue 0)) tr x /\ (forall x', ~ istep x x') /\
  threads x = {[ 3%nat := (@InConsume Z, true) ]} /\ Empty (shared x) = true /\ Stopped (shared x) = true.
Proof. exists drain_trace, drain_end. split; [exact drain_run|]. split; [apply asleep_stuck|done]. Qed.

(** A thread sleeps in [Create] although there is space: the signal went to a
    creation that timed out. *)
Lemma TryCreate_steals_signal : exists tr x, mrun (idle (make_ordered_queue 1)) tr x /\ (forall x', ~ istep x x') /\
  threads x = {[ 3%nat := (InCreate 30, true) ]} /\ no_capacity (shared x) = false /\ Stopped (shared x) = false.
Proof. exists steal_trace, steal_end. split; [exact steal_run|]. split; [apply asleep_stuck|done]. Qed.

Lemma OrderedQueue_refines_history_witness : created_of (events order_trace) = consumed_of (events order_trace) ++ [].
Proof.
  destruct (OrderedQueue_refines_history 1 order_trace order_end) as (h & _ & _ & _ & E & _); [lia|exact order_run|reflexivity|exact E].
Defined.

Lemma OrderedQueue_safe_witness : exists e x', mstep order_end (Call 1 (RqTryCreate 7) demo_clock) e x'.
Proof.
  destruct (OrderedQueue_safe 1 order_trace order_end 1 demo_clock) as (H & _); [lia|exact order_run|reflexivity|].
  apply (H (RqTryCreate 7)); [reflexivity|exact I].
Defined.

Lemma OrderedQueue_wakeups_witness : sn (istep (H := ordered_monitor)) order_end.
Proof. apply (OrderedQueue_wakeups 1 order_trace order_end); [lia|exact order_run|reflexivity]. Defined.

Definition drain_woken : mstate (OrderedProducerConsumerQueue Z) (pc Z) :=
  {| shared := demo_queue 0 1 [] true; threads := {[ 3%nat := (InConsume, false) ]} |}.

Lemma drain_step : mstep drain_end (Call 1 RqConsume demo_clock) (Some (Return (RConsume None))) drain_woken.
Proof.
  replace drain_woken with {| shared := demo_queue 0 1 [] true;
    threads := after (<[3%nat := (@InConsume Z, false)]> {[ 3%nat := (InConsume, true) ]}) 1 (Return (@RConsume Z None)) |} by (by vm_compute).
  eapply mstep_call; [reflexivity|vm_compute; reflexivity|]. oq_wakes 3%nat (@InConsume Z).
Qed.

Lemma OrderedQueue_drains_witness :
  Some (Return (@RConsume Z None)) = (Some (Return (RConsume None)) : option (ending (pc Z) (result Z))) /\
  (rtc istep drain_woken drain_woken -> (forall x'', ~ istep drain_woken x'') ->
   forall t' p b, threads drain_woken !! t' = Some (p, b) -> waits_on_ordered p = can_produce_).
Proof.
  apply (OrderedQueue_drains 0 drain_trace drain_end 1 demo_clock);
    [lia|exact drain_run|reflexivity|reflexivity|reflexivity|exact drain_step].
Defined.
